(* ===== verification/_CoqProject ===== *)
-Q . S2P
Prelude.v
Types.v
Vector.v
Tuple.v
Storage.v
Versions.v
DataTable.v
TableScan.v
TableOps.v
TableAppend.v
Serializer.v
ChunkSerializer.v
WriteAheadLog.v
UndoBuffer.v
UndoProofs.v
TransactionManager.v
TransactionProofs.v
Database.v
Isolation.v
Statements.v
CatalogSet.v
CatalogProofs.v
CatalogOps.v
Catalog.v
DataDefinition.v
StringStream.v
DateTime.v
KeyTuples.v
UniqueIndex.v
UniqueProofs.v
UniqueKeys.v
Operators.v
VectorOps.v
Like.v
Casts.v
Value.v
Aggregates.v
Recovery.v
Expressions.v
ExpressionRows.v
ExecutorProofs.v
ChunkCollection.v
ChunkSort.v
PhysicalOperators.v
OperatorRows.v
OperatorProofs.v
ScalarFunctions.v
Execution.v
QueryExecution.v
Matchers.v
Rewriting.v
RewritingProofs.v
RewritingTermination.v
Distributivity.v
Optimizer.v
ParsedExpressions.v
ParsedProofs.v
