(* ===== verification/Prelude.v ===== *)
(** * A verification library for DuckDB

    DuckDB (the sources under [src/src]) is an embedded analytical database.
    A connection parses a statement, binds and optimizes it, and runs it as a
    tree of physical operators over chunks of column vectors; tables keep their
    rows in storage chunks with older versions beside them, so that every
    transaction reads the snapshot of its start; the catalog is versioned in
    the same way; a commit appends the changes to a write-ahead log, which is
    replayed when the database is opened.  This library models, from the inside
    out, the storage, transaction, catalog and vector layers as executable
    definitions and proves what each promises to the next.

    ** Conventions

    A C++ call is a function to [result]: a value, an exception of
    [include/common/exception.hpp], or [Undef] for what the sources rule out
    (failed assertions, dangling or null pointers, signed overflow, the wrong
    arm of a union).  Code that changes objects in place runs in the state
    monad [M].  Objects that are shared through pointers live in finite maps
    from addresses ([rows], [catalog], the nodes of a unique index), and a
    freed object is an address that is not in the map.  Integers are numbers of
    [Z] with their width beside them ([Num n z]), floating point numbers are
    their bit patterns.  Operations that run under one lock are one step, so
    an interleaving of transactions is a sequence of operations.

    ** Files

    - [Prelude]: outcomes, the state monad, lemmas and tactics shared by all.
    - [Types]: [common/types.cpp], [common/limits.cpp],
      [common/types/null_value.cpp]: types, sizes, limits, stored NULLs.
    - [Vector]: [common/types/vector.cpp], [data_chunk.cpp],
      [vector_operations/copy.cpp], [append.cpp]: vectors and chunks.
    - [Tuple], [KeyTuples]: [common/types/tuple.cpp]: rows as byte strings,
      key extraction and comparison.
    - [Storage], [Versions], [DataTable], [TableScan], [TableOps],
      [TableAppend]: [storage/storage_chunk.cpp], [storage/data_table.cpp]:
      rows and chains of older versions, [Append], [Delete], [Update], [Scan].
      [TableIndexes] is the interface of a table to its indexes and statistics.
    - [Serializer], [ChunkSerializer], [WriteAheadLog], [Recovery]:
      [common/serializer.cpp], [data_chunk.cpp],
      [storage/write_ahead_log.cpp]: bytes, the log and its replay.
    - [UndoBuffer], [UndoProofs], [TransactionManager], [TransactionProofs]:
      [transaction/*.cpp]: commit, rollback, clean up, garbage collection.
      [CatalogOps]/[CatalogLaws] are the interface to the catalog.
    - [Database], [Isolation], [Statements]: the database as a transition
      system whose steps are those of all connections.
    - [CatalogSet], [CatalogProofs], [CatalogOps], [Catalog],
      [DataDefinition]: [catalog/*.cpp]: versioned sets of entries, and the
      operations on schemas, tables, views, indexes and functions.
    - [UniqueIndex], [UniqueProofs], [UniqueKeys]: [storage/unique_index.cpp].
    - [StringStream], [DateTime]: [common/types/date.cpp], [time.cpp],
      [timestamp.cpp].
    - [Operators], [VectorOps]: [include/common/operator/*.hpp],
      [common/vector_operations/*.cpp]: operators on values and on vectors.
    - [Casts], [Value], [Aggregates]: [common/operator/cast_operators.cpp],
      [common/types/value.cpp], [common/value_operations/*.cpp],
      [vector_operations/aggregate_operators.cpp],
      [storage/column_statistics.cpp].
    - [Like], [ScalarFunctions]: [common/operator/like_operators.cpp],
      [function/scalar_function/*.cpp].
    - [Expressions], [ExpressionRows], [ExecutorProofs], [Execution]:
      [planner/expression.cpp], [planner/expression_iterator.cpp],
      [execution/expression_executor.cpp] and [expression_executor/]: bound
      expressions, their values in a row, and their execution over chunks.
    - [ChunkCollection], [ChunkSort]: [common/types/chunk_collection.cpp]:
      lists of chunks, their appending and lookup, quicksort of their rows.
    - [PhysicalOperators], [OperatorRows], [OperatorProofs], [QueryExecution]:
      [execution/operator/*/*.cpp], [execution/physical_operator.cpp] and the
      fetch loop of [main/client_context.cpp]: scans, filter, projection, limit,
      column pruning, union, cross product and order, one chunk at a time.  The
      table scan is the class [TableSource], its rows [TableRows].
    - [ParsedExpressions], [ParsedProofs]: [parser/expression/*.cpp],
      [parser/query_node/*.cpp], [parser/tableref/*.cpp],
      [parser/parsed_expression*.cpp] and [parser/statement/select_statement.cpp]:
      the trees that the parser builds, with comparison, copy and serialization.
      They implement the class [Codec] through which the log writes them; the
      order in which hash tables are visited is the class [HashOrder].
    - [Matchers], [Rewriting], [RewritingProofs], [RewritingTermination],
      [Distributivity], [Optimizer]: [optimizer/matcher/],
      [optimizer/rule/*.cpp], [optimizer/expression_rewriter.cpp].
      Scalar functions are an argument of the executor and of the rewriter,
      with the laws [functions_typed] and [functions_rowwise]; the functions of
      [ScalarFunctions] satisfy them.

    ** What is proved

    - Isolation: every state that connections can reach is consistent
      ([Isolation.reachable_inv]); a transaction reads the same rows and the
      same catalog from its start to its end ([Isolation.repeatable_read],
      [DataDefinition.catalog_repeatable_read]); commits are atomic, rollbacks
      leave no trace, garbage collection loses nothing and leaves nothing.
    - Statements: what a scan returns, what append, delete and update do on
      every branch, errors included ([Statements]), and that unique keys are
      unique ([UniqueKeys]).
    - Data definition: statements on the catalog never run into undefined
      behaviour and are isolated from each other ([DataDefinition]).
    - Recovery: a log that is cut off anywhere replays to the transactions that
      were written completely ([Recovery]).
    - Vectors and values: vectorised operators compute SQL's semantics row by
      row ([VectorOps]), casts and serializations lose nothing ([Casts],
      [Value]), column statistics bound their column ([Aggregates]).
    - Calendar: dates and day numbers are in bijection, conversions end, texts
      read back ([DateTime]).
    - Parsed trees: they read back from their serialization, reading ends on any
      bytes, and copies are equal ([ParsedProofs]).  The fuel of the readers
      bounds the nesting; one level for every byte is enough, since every level
      reads at least one.
    - Queries: a plan executed chunk by chunk ends and delivers the rows of its
      operators ([QueryExecution]); sorting returns an ordered permutation
      ([ChunkSort]).  The fuel of [GetChunk] bounds the chunks that one call
      pulls from its child; the theorems give an amount that is enough and show
      that more does not change the result.
    - Expressions: executing expressions over chunks computes their values row
      by row, whatever selection vectors and common subexpressions there are,
      and values have the type of their expression ([Execution]).
    - Optimizer: the rewriter ends on every plan ([RewritingTermination]) and
      preserves what the plan computes ([Optimizer]), with conditions for the
      rules on narrow integers and for Distributivity ([Distributivity]).

    Modules named [...Surprises] (and [Isolation.LostDelete]) hold theorems
    about inputs on which the sources do something other than their callers or
    their documentation expect.

    ** Fuel

    Loops that are not structural take fuel, and the theorems about them give
    the fuel that is enough: the length of the chain of chunks for a scan, the
    number of years for the calendar loops, one more than the length of the
    file for [Replay], the number of doublings for the serializer's buffer, the
    height of the tree for the unique indexes, the weight of an expression for
    the rewriter.

    ** Not modelled

    Of the parser, the construction of trees from the PostgreSQL parse tree and
    the statements other than SELECT; the binder and the logical planner (bound
    expressions and plans reach the model as arguments); files, directories and CSV import (a file is its
    list of bytes); locks inside one operation; the decimal conversions of
    floating point numbers of the C library (the class [FloatText]); memory
    exhaustion; the clients under [tools] and the libraries under
    [third_party].  Of the optimizer, filter push down, join order
    and the rewriting of IN clauses to joins, and of the execution, joins on
    conditions, aggregates, window functions and index scans are not modelled. *)

From Stdlib Require Import ZArith Lia.
From stdpp Require Import base gmap list strings option numbers sorting.

(** ** Outcomes of C++ calls

    A call returns a value, throws one of the exceptions of
    [src/src/include/common/exception.hpp], or reaches code that the sources
    rule out (a failed [assert], a dereferenced null or dangling pointer, the
    wrong arm of a union): [Undef]. *)

Inductive exn : Type :=
| TransactionException
| CatalogException
| ConstraintException
| OutOfRangeException
| ConversionException
| InvalidTypeException
| TypeMismatchException
| NotImplementedException
| SerializationException
| CastException
| ValueOutOfRangeException
| ParserException
| SyntaxException
| BinderException
| IOException
| InterruptException
| GenericException.

Inductive result (A : Type) : Type :=
| Ok (a : A)
| Throw (e : exn)
| Undef.
Arguments Ok {A} a.
Arguments Throw {A} e.
Arguments Undef {A}.

#[export] Instance result_ret : MRet result := fun A a => Ok a.
#[export] Instance result_bind : MBind result := fun A B f m =>
  match m with Ok a => f a | Throw e => Throw e | Undef => Undef end.

(** Dereferencing a pointer: [None] is null or freed memory. *)
Definition deref {A} (o : option A) : result A :=
  match o with Some a => Ok a | None => Undef end.

(** [assert(b)] *)
Definition assert_ (b : bool) : result unit := if b then Ok tt else Undef.

(** ** A state monad whose exceptions keep the state

    C++ exceptions do not undo the writes done before the throw, so the state
    is returned on every path. *)

Definition M (S A : Type) : Type := S -> result A * S.

Definition mret_M {S A} (a : A) : M S A := fun s => (Ok a, s).
Definition mbind_M {S A B} (f : A -> M S B) (c : M S A) : M S B := fun s =>
  match c s with
  | (Ok a, s') => f a s'
  | (Throw e, s') => (Throw e, s')
  | (Undef, s') => (Undef, s')
  end.
#[export] Instance M_ret {S} : MRet (M S) := fun A => mret_M.
#[export] Instance M_bind {S} : MBind (M S) := fun A B => mbind_M.

Definition throw_M {S A} (e : exn) : M S A := fun s => (Throw e, s).
Definition get_M {S} : M S S := fun s => (Ok s, s).
Definition modify_M {S} (f : S -> S) : M S unit := fun s => (Ok tt, f s).
Definition lift_M {S A} (r : result A) : M S A := fun s => (r, s).

(** A [for] loop over the indexes [idxs] in the state monad. *)
Fixpoint for_M {S A} (idxs : list A) (body : A -> M S unit) : M S unit :=
  match idxs with
  | [] => mret ()
  | i :: idxs' => body i ≫= fun _ => for_M idxs' body
  end.

Lemma Ok_inj {A} (a b : A) : Ok a = Ok b -> a = b.
Proof. by injection 1. Qed.

Lemma bind_Ok {A B} (m : result A) (f : A -> result B) b :
  (m ≫= f) = Ok b -> exists a, m = Ok a /\ f a = Ok b.
Proof. destruct m; simpl; try discriminate; eauto. Qed.

Lemma deref_Ok {A} (o : option A) a : deref o = Ok a <-> o = Some a.
Proof. destruct o; simpl; split; congruence. Qed.

Lemma mbind_M_run {S A B} (f : A -> M S B) (c : M S A) s a s' :
  c s = (Ok a, s') -> (c ≫= f) s = f a s'.
Proof. intros H. unfold mbind, M_bind, mbind_M. by rewrite H. Qed.

Lemma mbind_M_throw {S A B} (f : A -> M S B) (c : M S A) s e s' :
  c s = (Throw e, s') -> (c ≫= f) s = (Throw e, s').
Proof. intros H. unfold mbind, M_bind, mbind_M. by rewrite H. Qed.

Lemma mbind_M_undef {S A B} (f : A -> M S B) (c : M S A) s s' :
  c s = (Undef, s') -> (c ≫= f) s = (Undef, s').
Proof. intros H. unfold mbind, M_bind, mbind_M. by rewrite H. Qed.

Lemma mbind_get {S B} (f : S -> M S B) s : (get_M ≫= f) s = f s s.
Proof. done. Qed.
Lemma mbind_lift {S A B} (f : A -> M S B) (a : A) s : (lift_M (Ok a) ≫= f) s = f a s.
Proof. done. Qed.
Lemma mbind_modify {S B} (f : unit -> M S B) g s : (modify_M g ≫= f) s = f tt (g s).
Proof. done. Qed.
Lemma deref_Some {A} (a : A) : deref (Some a) = Ok a.
Proof. done. Qed.
Lemma assert_true : assert_ true = Ok tt.
Proof. done. Qed.
Lemma bind_ret_Ok {A B} (a : A) (f : A -> result B) : (Ok a ≫= f) = f a.
Proof. done. Qed.

Create Rewrite HintDb run.
#[export] Hint Rewrite @mbind_get @mbind_lift @mbind_modify @deref_Some @assert_true @bind_ret_Ok : run.

(** Runs the calls of a computation whose outcome is already known. *)
Ltac run := repeat (autorewrite with run; cbn [negb]; cbv beta iota).
Ltac run_in H := repeat (autorewrite with run in H; cbn [negb] in H; cbv beta iota in H).
Ltac run_using H :=
  first [ rewrite (mbind_M_run _ _ _ _ _ H) | rewrite (mbind_M_throw _ _ _ _ _ H)
        | rewrite (mbind_M_undef _ _ _ _ H) ]; run.

Lemma for_M_app {S A} (l1 l2 : list A) (body : A -> M S unit) s s' :
  for_M l1 body s = (Ok tt, s') ->
  for_M (l1 ++ l2) body s = for_M l2 body s'.
Proof.
  revert s. induction l1 as [|x l1 IH]; simpl; intros s.
  { intros [= <-]. done. }
  unfold mbind, M_bind, mbind_M. destruct (body x s) as [[]]; naive_solver.
Qed.

(** [mapM] over [result]: the calls that all return. *)
Lemma mapM_Ok {A B} (f : A -> result B) l k :
  mapM f l = Ok k <-> Forall2 (fun x y => f x = Ok y) l k.
Proof.
  split.
  - revert k. induction l as [|x l IH]; simpl; intros k H.
    + injection H as <-. constructor.
    + apply bind_Ok in H as (y & Hy & H). apply bind_Ok in H as (k' & Hk & H).
      injection H as <-. constructor; auto.
  - induction 1 as [|x y l k Hxy _ IH]; simpl; [done|].
    rewrite Hxy. simpl. by rewrite IH.
Qed.

Lemma mapM_Ok_ext {A B} (f : A -> result B) g l :
  (forall x, x ∈ l -> f x = Ok (g x)) -> mapM f l = Ok (g <$> l).
Proof.
  intros H. apply mapM_Ok. induction l as [|x l IH]; constructor.
  - apply H. left.
  - apply IH. intros y Hy. apply H. by right.
Qed.

(** A filter that keeps everything. *)
Lemma filter_length_full {A} (p q : A -> bool) l :
  (forall x, q x = true -> p x = false) ->
  length l <= length (List.filter p l) -> List.filter q l = [].
Proof.
  intros Hpq. induction l as [|x l IH]; simpl; [done|].
  pose proof (List.filter_length_le p l) as Hle.
  destruct (p x) eqn:Hp; simpl; [|lia].
  intros H. destruct (q x) eqn:Hq; [by apply Hpq in Hq; congruence|]. apply IH. lia.
Qed.

Lemma filter_Permutation_split {A} (p q r : A -> bool) l :
  (forall x, p x = q x || r x) -> (forall x, q x && r x = false) ->
  List.filter p l ≡ₚ List.filter q l ++ List.filter r l.
Proof.
  intros Hp Hd. induction l as [|x l IH]; simpl; [done|].
  rewrite Hp. specialize (Hd x).
  destruct (q x), (r x); simpl in *; try done; rewrite IH; [done|].
  by rewrite Permutation_middle.
Qed.

Lemma filter_filter_and {A} (p q : A -> bool) l :
  List.filter p (List.filter q l) = List.filter (fun x => q x && p x) l.
Proof.
  induction l as [|x l IH]; simpl; [done|]. destruct (q x); simpl; [|done].
  destruct (p x); by rewrite IH.
Qed.

(** Projections of a zipped list. *)
Lemma fmap_zip_fst {A B C D} (g : A -> B -> C) (f : C -> D) h l k :
  (forall x y, f (g x y) = h x) -> length l = length k -> f <$> zip_with g l k = h <$> l.
Proof. intros Hf. revert k. induction l; intros [|y k] Hl; simplify_eq/=; f_equal; auto. Qed.

Lemma fmap_zip_snd {A B C D} (g : A -> B -> C) (f : C -> D) h l k :
  (forall x y, f (g x y) = h y) -> length l = length k -> f <$> zip_with g l k = h <$> k.
Proof. intros Hf. revert k. induction l; intros [|y k] Hl; simplify_eq/=; f_equal; auto. Qed.

Lemma omap_length_le {A B} (f : A -> option B) l : length (omap f l) <= length l.
Proof.
  induction l as [|x l IH]; [done|]. cbn [omap list_omap length].
  destruct (f x); cbn [length]; [apply le_n_S, IH|apply le_S, IH].
Qed.

Lemma omap_fmap_compose {A B C} (f : A -> B) (g : B -> option C) (l : list A) :
  omap g (f <$> l) = omap (fun x => g (f x)) l.
Proof.
  induction l as [|x l IH]; [done|]. cbn [omap list_omap fmap list_fmap].
  destruct (g (f x)); [f_equal|]; exact IH.
Qed.

Lemma filter_ext_in {A} (P Q : A -> Prop) `{!forall x, Decision (P x), !forall x, Decision (Q x)} (l : list A) :
  (forall x, x ∈ l -> P x <-> Q x) -> filter P l = filter Q l.
Proof.
  induction l as [|x l IH]; intros Hpq; [done|].
  rewrite !filter_cons, IH by (intros y Hy; apply Hpq; by right).
  assert (P x <-> Q x) as Hx by (apply Hpq; left). destruct (decide (P x)), (decide (Q x)); naive_solver.
Qed.

Lemma exists_last_or_nil {A} (l : list A) : l = [] \/ exists l' x, l = l' ++ [x].
Proof. induction l as [|x l _] using rev_ind; [by left|right; eauto]. Qed.

Lemma filter_all {A} (P : A -> Prop) `{!forall x, Decision (P x)} (l : list A) :
  (forall x, x ∈ l -> P x) -> filter P l = l.
Proof.
  induction l as [|x l IH]; intros Hall; [done|].
  rewrite filter_cons_True by (apply Hall; left). f_equal. apply IH. intros y Hy. apply Hall. by right.
Qed.
