(* ===== verification/Types.v ===== *)
(** * Types, cells and NULL sentinels

    Models [src/src/common/types.cpp], [src/src/include/common/types.hpp],
    [src/src/common/types/null_value.cpp] and [src/src/common/limits.cpp]: the
    internal and SQL type identifiers, their sizes and conversions, the ranges
    of the integral types, and the in-band NULL values that storage uses. *)

From Stdlib Require Import ZArith Lia.
From stdpp Require Import base gmap list strings option numbers sorting.
From S2P Require Import Prelude.
Local Open Scope Z_scope.

(** ** Internal types *)

Inductive TypeId : Type :=
| T_INVALID | T_BOOLEAN | T_TINYINT | T_SMALLINT | T_INTEGER | T_BIGINT
| T_POINTER | T_FLOAT | T_DOUBLE | T_VARCHAR | T_VARBINARY.

#[export] Instance TypeId_eq_dec : EqDecision TypeId.
Proof. solve_decision. Defined.

(** The value of the enumerator, used by the [<] tests of the sources. *)
Definition TypeId_code (t : TypeId) : Z :=
  match t with
  | T_INVALID => 0 | T_BOOLEAN => 1 | T_TINYINT => 2 | T_SMALLINT => 3
  | T_INTEGER => 4 | T_BIGINT => 5 | T_POINTER => 6 | T_FLOAT => 7
  | T_DOUBLE => 8 | T_VARCHAR => 9 | T_VARBINARY => 10
  end.

Definition TypeIdToString (t : TypeId) : result string :=
  match t with
  | T_BOOLEAN => Ok "BOOLEAN"%string | T_TINYINT => Ok "TINYINT"%string
  | T_SMALLINT => Ok "SMALLINT"%string | T_INTEGER => Ok "INTEGER"%string
  | T_BIGINT => Ok "BIGINT"%string | T_POINTER => Ok "POINTER"%string
  | T_FLOAT => Ok "FLOAT"%string | T_DOUBLE => Ok "DOUBLE"%string
  | T_VARCHAR => Ok "VARCHAR"%string | T_VARBINARY => Ok "VARBINARY"%string
  | T_INVALID => Throw ConversionException
  end.

(** [sizeof] of the C++ representation on a 64-bit platform. *)
Definition GetTypeIdSize (t : TypeId) : result nat :=
  match t with
  | T_BOOLEAN => Ok 1%nat | T_TINYINT => Ok 1%nat | T_SMALLINT => Ok 2%nat
  | T_INTEGER => Ok 4%nat | T_BIGINT => Ok 8%nat | T_FLOAT => Ok 4%nat
  | T_DOUBLE => Ok 8%nat | T_POINTER => Ok 8%nat | T_VARCHAR => Ok 8%nat
  | T_VARBINARY => Ok 16%nat
  | T_INVALID => Throw ConversionException
  end.

Definition TypeIsConstantSize (t : TypeId) : bool := TypeId_code t <? TypeId_code T_VARCHAR.
Definition TypeIsIntegral (t : TypeId) : bool :=
  (TypeId_code T_TINYINT <=? TypeId_code t) && (TypeId_code t <=? TypeId_code T_POINTER).
Definition TypeIsNumeric (t : TypeId) : bool :=
  (TypeId_code T_TINYINT <=? TypeId_code t) && (TypeId_code t <=? TypeId_code T_DOUBLE).
Definition TypeIsInteger (t : TypeId) : bool :=
  (TypeId_code T_TINYINT <=? TypeId_code t) && (TypeId_code t <=? TypeId_code T_BIGINT).

(** ** SQL types *)

Inductive SQLTypeId : Type :=
| SQL_INVALID | SQL_SQLNULL | SQL_BOOLEAN | SQL_TINYINT | SQL_SMALLINT
| SQL_INTEGER | SQL_BIGINT | SQL_DATE | SQL_TIMESTAMP | SQL_REAL | SQL_DOUBLE
| SQL_FLOAT | SQL_DECIMAL | SQL_CHAR | SQL_VARCHAR | SQL_VARBINARY | SQL_POINTER.

#[export] Instance SQLTypeId_eq_dec : EqDecision SQLTypeId.
Proof. solve_decision. Defined.

Definition SQLTypeId_code (t : SQLTypeId) : Z :=
  match t with
  | SQL_INVALID => 0 | SQL_SQLNULL => 1 | SQL_BOOLEAN => 2 | SQL_TINYINT => 3
  | SQL_SMALLINT => 4 | SQL_INTEGER => 5 | SQL_BIGINT => 6 | SQL_DATE => 7
  | SQL_TIMESTAMP => 8 | SQL_REAL => 9 | SQL_DOUBLE => 10 | SQL_FLOAT => 11
  | SQL_DECIMAL => 12 | SQL_CHAR => 13 | SQL_VARCHAR => 14 | SQL_VARBINARY => 15
  | SQL_POINTER => 16
  end.

(** [width] is a [uint16_t] and [scale] a [uint8_t]. *)
Record SQLType : Type := mkSQLType { sql_id : SQLTypeId; sql_width : Z; sql_scale : Z }.

#[export] Instance SQLType_eq_dec : EqDecision SQLType.
Proof. solve_decision. Defined.

Definition SQLTypeFromInternalType (t : TypeId) : result SQLType :=
  match t with
  | T_BOOLEAN => Ok (mkSQLType SQL_BOOLEAN 0 0)
  | T_TINYINT => Ok (mkSQLType SQL_TINYINT 0 0)
  | T_SMALLINT => Ok (mkSQLType SQL_SMALLINT 0 0)
  | T_INTEGER => Ok (mkSQLType SQL_INTEGER 0 0)
  | T_BIGINT => Ok (mkSQLType SQL_BIGINT 0 0)
  | T_FLOAT => Ok (mkSQLType SQL_FLOAT 0 0)
  | T_DOUBLE => Ok (mkSQLType SQL_DOUBLE 0 0)
  | T_POINTER => Ok (mkSQLType SQL_POINTER 0 0)
  | T_VARCHAR => Ok (mkSQLType SQL_VARCHAR 0 0)
  | T_VARBINARY => Ok (mkSQLType SQL_VARBINARY 0 0)
  | T_INVALID => Throw ConversionException
  end.

Definition SQLTypeIdToString (t : SQLTypeId) : result string :=
  match t with
  | SQL_BOOLEAN => Ok "BOOLEAN"%string | SQL_TINYINT => Ok "TINYINT"%string
  | SQL_SMALLINT => Ok "SMALLINT"%string | SQL_INTEGER => Ok "INTEGER"%string
  | SQL_BIGINT => Ok "BIGINT"%string | SQL_DATE => Ok "DATE"%string
  | SQL_TIMESTAMP => Ok "TIMESTAMP"%string | SQL_FLOAT => Ok "FLOAT"%string
  | SQL_DOUBLE => Ok "DOUBLE"%string | SQL_POINTER => Ok "POINTER"%string
  | SQL_DECIMAL => Ok "DECIMAL"%string | SQL_VARCHAR => Ok "VARCHAR"%string
  | SQL_VARBINARY => Ok "VARBINARY"%string | SQL_CHAR => Ok "CHAR"%string
  | SQL_SQLNULL => Ok "NULL"%string
  | SQL_INVALID | SQL_REAL => Throw ConversionException
  end.

Definition SQLTypeToString (t : SQLType) : result string := SQLTypeIdToString (sql_id t).

Definition IsNumericType (t : SQLTypeId) : bool :=
  match t with
  | SQL_TINYINT | SQL_SMALLINT | SQL_INTEGER | SQL_BIGINT | SQL_FLOAT
  | SQL_DOUBLE | SQL_DECIMAL => true
  | _ => false
  end.

Definition GetInternalType (t : SQLType) : result TypeId :=
  match sql_id t with
  | SQL_BOOLEAN => Ok T_BOOLEAN
  | SQL_TINYINT => Ok T_TINYINT
  | SQL_SMALLINT => Ok T_SMALLINT
  | SQL_SQLNULL | SQL_DATE | SQL_INTEGER => Ok T_INTEGER
  | SQL_BIGINT | SQL_TIMESTAMP => Ok T_BIGINT
  | SQL_FLOAT => Ok T_FLOAT
  | SQL_DOUBLE => Ok T_DOUBLE
  | SQL_DECIMAL => Ok T_DOUBLE
  | SQL_VARCHAR | SQL_CHAR => Ok T_VARCHAR
  | SQL_VARBINARY => Ok T_VARBINARY
  | SQL_INVALID | SQL_REAL | SQL_POINTER => Throw ConversionException
  end.

Definition MaxSQLType (left right : SQLType) : SQLType :=
  if SQLTypeId_code (sql_id left) <? SQLTypeId_code (sql_id right) then right
  else if SQLTypeId_code (sql_id right) <? SQLTypeId_code (sql_id left) then left
  else if sql_width right <? sql_width left then left
  else right.

(** ** Ranges of the integral types (limits.cpp)

    The minimum is offset by one: the smallest machine value is the NULL
    sentinel. *)

Definition MinimumValue (t : TypeId) : result Z :=
  match t with
  | T_TINYINT => Ok (- 2 ^ 7 + 1)
  | T_SMALLINT => Ok (- 2 ^ 15 + 1)
  | T_INTEGER => Ok (- 2 ^ 31 + 1)
  | T_BIGINT => Ok (- 2 ^ 63 + 1)
  | T_POINTER => Ok 0
  | _ => Throw InvalidTypeException
  end.

Definition MaximumValue (t : TypeId) : result Z :=
  match t with
  | T_TINYINT => Ok (2 ^ 7 - 1)
  | T_SMALLINT => Ok (2 ^ 15 - 1)
  | T_INTEGER => Ok (2 ^ 31 - 1)
  | T_BIGINT => Ok (2 ^ 63 - 1)
  | T_POINTER => Ok (2 ^ 63 - 1)
  | _ => Throw InvalidTypeException
  end.

Definition in_type_range (t : TypeId) (v : Z) : result bool :=
  lo ← MinimumValue t; hi ← MaximumValue t; mret ((lo <=? v) && (v <=? hi)).

Definition MinimalType (value : Z) : result TypeId :=
  b ← in_type_range T_TINYINT value;
  if b : bool then Ok T_TINYINT else
  b ← in_type_range T_SMALLINT value;
  if b : bool then Ok T_SMALLINT else
  b ← in_type_range T_INTEGER value;
  if b : bool then Ok T_INTEGER else Ok T_BIGINT.

(** ** Cells and NULL sentinels

    One element of a vector or of a storage column.  A fixed-width element is
    its size in bytes and the signed integer its bytes spell ([float] and
    [double] elements are their bit patterns).  A [VARCHAR] element is a
    [char*]; strings are never mutated in place, so it is modelled by what it
    points to, [None] being the null pointer. *)

Inductive cell : Type :=
| Num (size : nat) (z : Z)
| Str (s : option string).

#[export] Instance cell_eq_dec : EqDecision cell.
Proof. solve_decision. Defined.

Definition cell_size (c : cell) : nat :=
  match c with Num n _ => n | Str _ => 8%nat end.

(** [str_nil], the one-byte string that stands for a NULL string. *)
Definition str_nil : string := String (Ascii.ascii_of_nat 128) EmptyString.

(** [NullValue<T>()] at the C++ type that [copy_loop]/[append_loop]
    instantiate for each [TypeId]; [numeric_limits<float>::min()] is the
    smallest positive normal number, bit pattern [0x00800000]. *)
Definition NullValue (t : TypeId) : result cell :=
  match t with
  | T_BOOLEAN | T_TINYINT => Ok (Num 1 (- 2 ^ 7))
  | T_SMALLINT => Ok (Num 2 (- 2 ^ 15))
  | T_INTEGER => Ok (Num 4 (- 2 ^ 31))
  | T_BIGINT => Ok (Num 8 (- 2 ^ 63))
  | T_POINTER => Ok (Num 8 0)
  | T_FLOAT => Ok (Num 4 8388608)
  | T_DOUBLE => Ok (Num 8 4503599627370496)
  | T_VARCHAR => Ok (Str (Some str_nil))
  | T_INVALID | T_VARBINARY => Throw NotImplementedException
  end.

(** [SetNullValue] has no case for [POINTER]. *)
Definition SetNullValue (t : TypeId) : result cell :=
  match t with
  | T_POINTER | T_INVALID | T_VARBINARY => Throw InvalidTypeException
  | _ => NullValue t
  end.

(** [IsNullValue<T>(v)]: equality with the sentinel, [strcmp] for strings (on
    a null [char*] [strcmp] is undefined). *)
Definition IsNullValue (t : TypeId) (c : cell) : result bool :=
  match c with
  | Str None => Undef
  | _ => n ← NullValue t; mret (bool_decide (c = n))
  end.

(** A cell that storage may hold in a column of type [t]: never a null
    [char*], NULL strings are stored as [str_nil]. *)
Definition cell_has_type (t : TypeId) (c : cell) : bool :=
  match c with
  | Num n _ => negb (bool_decide (t = T_VARCHAR)) &&
               match GetTypeIdSize t with Ok m => Nat.eqb n m | _ => false end
  | Str (Some _) => bool_decide (t = T_VARCHAR)
  | Str None => false
  end.

(** ** Facts used by the clients *)

Lemma cell_has_type_size t c :
  cell_has_type t c = true -> GetTypeIdSize t = Ok (cell_size c).
Proof.
  destruct c; simpl; intros H.
  - apply andb_prop in H as [_ H]. destruct (GetTypeIdSize t); try done.
    apply Nat.eqb_eq in H. by subst.
  - destruct s; [|done]. apply bool_decide_eq_true_1 in H. by subst.
Qed.

Lemma IsNullValue_total t c :
  cell_has_type t c = true -> t <> T_VARBINARY -> exists b, IsNullValue t c = Ok b.
Proof.
  intros H Hne. destruct c as [n z|[s|]]; simpl in *; [|apply bool_decide_eq_true_1 in H; subst|done].
  - destruct t; simpl in *; eauto; done.
  - simpl. eauto.
Qed.

Lemma in_type_range_true t v lo hi :
  MinimumValue t = Ok lo -> MaximumValue t = Ok hi ->
  in_type_range t v = Ok true <-> lo <= v <= hi.
Proof.
  intros Hlo Hhi. unfold in_type_range. rewrite Hlo, Hhi. simpl.
  unfold mret, result_ret. split; [intros [=]|intros ?; f_equal]; lia.
Qed.

Lemma NullValue_typed t n : NullValue t = Ok n -> cell_has_type t n = true.
Proof. destruct t; simpl; intros [= <-]; done. Qed.
