(* ===== verification/Vector.v ===== *)
(** * Vectors and data chunks

    Models [src/src/common/types/vector.cpp],
    [src/src/common/types/data_chunk.cpp] and the copy and append operations of
    [src/src/common/vector_operations/]: columns of at most
    [STANDARD_VECTOR_SIZE] cells read through an optional selection vector,
    with a null mask indexed by physical position. *)

From Stdlib Require Import ZArith Lia.
From stdpp Require Import base gmap list strings option numbers sorting.
From S2P Require Import Prelude Types.

Definition STANDARD_VECTOR_SIZE : nat := 1024.
Definition STORAGE_CHUNK_SIZE : nat := 10 * STANDARD_VECTOR_SIZE.
Arguments STANDARD_VECTOR_SIZE : simpl never.
Arguments STORAGE_CHUNK_SIZE : simpl never.

Record Vector : Type := mkVector {
  v_type : TypeId;
  v_count : nat;
  v_data : gmap nat cell;
  v_sel : option (list nat);
  v_null : gset nat }.

(** [sel_vector ? sel_vector[k] : k] *)
Definition sel_at (sel : option (list nat)) (k : nat) : nat :=
  match sel with Some s => nth k s 0 | None => k end.

(** The calls [fun(i, k)] that [VectorOperations::Exec] makes, in order. *)
Definition exec_indexes (sel : option (list nat)) (count offset : nat) : list (nat * nat) :=
  (fun k => (sel_at sel k, k)) <$> seq offset (count - offset).

(** [Exec(vector, fun, offset, count)] *)
Definition Exec (v : Vector) (offset count : nat) : list (nat * nat) :=
  exec_indexes (v_sel v) (if count =? 0 then v_count v else count + offset) offset.

Definition ValueIsNull (v : Vector) (index : nat) : bool :=
  bool_decide (sel_at (v_sel v) index ∈ v_null v).

(** [Vector(type, ...)]/[Destroy]: an empty vector of the type. *)
Definition EmptyVector (t : TypeId) : Vector := mkVector t 0 ∅ None ∅.

(** ** Copying to storage: NULLs become sentinels (copy.cpp) *)

Definition copy_cell (v : Vector) (null : cell) (ik : nat * nat) : result cell :=
  if bool_decide (ik.1 ∈ v_null v) then Ok null else deref (v_data v !! ik.1).

(** The cells written at [target\[0\]], [target\[1\]], ... *)
Definition CopyToStorage (v : Vector) (offset element_count : nat) : result (list cell) :=
  if v_count v =? 0 then Ok [] else
  let n := if element_count =? 0 then v_count v else element_count in
  _ ← assert_ (offset + n <=? v_count v);
  null ← NullValue (v_type v);
  mapM (copy_cell v null) (exec_indexes (v_sel v) (n + offset) offset).

(** A cell under a NULL may never have been written; its copy is as unwritten. *)
Definition copied_cell (v : Vector) (ik : nat * nat) : result (option cell) :=
  if bool_decide (ik.1 ∈ v_null v) then Ok (v_data v !! ik.1) else x ← deref (v_data v !! ik.1); Ok (Some x).

(** [VectorOperations::Copy(source, void*, ...)]: only for fixed-width types;
    the null mask is not copied. *)
Definition Copy_data (v : Vector) (offset element_count : nat) : result (list (option cell)) :=
  if negb (TypeIsConstantSize (v_type v)) then Throw InvalidTypeException else
  if v_count v =? 0 then Ok [] else
  let n := if element_count =? 0 then v_count v else element_count in
  _ ← assert_ (offset + n <=? v_count v);
  _ ← NullValue (v_type v);
  mapM (copied_cell v) (exec_indexes (v_sel v) (n + offset) offset).

(** Writing a block of cells at consecutive positions. *)
Definition write_block (m : gmap nat cell) (at_ : nat) (cs : list cell) : gmap nat cell :=
  foldl (fun m ic => <[at_ + ic.1 := ic.2]> m) m (imap pair cs).

(** The same for cells of which some have no contents. *)
Definition write_cells (m : gmap nat cell) (at_ : nat) (cs : list (option cell)) : gmap nat cell :=
  foldl (fun m ic => partial_alter (fun _ => ic.2) (at_ + ic.1) m) m (imap pair cs).

(** A string is copied to the heap of the target, a NULL as a null pointer. *)
Definition copied_string (v : Vector) (ik : nat * nat) : result (option cell) :=
  if bool_decide (ik.1 ∈ v_null v) then Ok (Some (Str None)) else x ← deref (v_data v !! ik.1); Ok (Some x).

(** Setting the null bits of the positions selected by a list of booleans. *)
Definition mark_nulls (s : gset nat) (at_ : nat) (bs : list bool) : gset nat :=
  foldl (fun s (ib : nat * bool) => if ib.2 then {[at_ + ib.1]} ∪ s else s) s (imap pair bs).

(** ** Appending from storage: sentinels become NULLs (append.cpp) *)

Definition AppendFromStorage (source target : Vector) : result Vector :=
  if v_count source =? 0 then Ok target else
  if STANDARD_VECTOR_SIZE <? v_count source + v_count target then Throw GenericException else
  _ ← NullValue (v_type source);
  cs ← mapM (fun ik => deref (v_data source !! ik.1))
         (exec_indexes (v_sel source) (v_count source) 0);
  nulls ← mapM (IsNullValue (v_type source)) cs;
  mret (mkVector (v_type target) (v_count target + v_count source)
          (write_block (v_data target) (v_count target) cs)
          (v_sel target)
          (mark_nulls (v_null target) (v_count target) nulls)).

(** ** Vector operations (vector.cpp) *)

(** [Vector::Copy(other, offset)]: [other] takes the cells from [offset] on.
    A NULL string is copied as a null pointer, a NULL of a fixed-width type
    keeps its cell and its null bit.  An offset past the end makes the
    unsigned [count - offset] of the string case wrap: [Undef]. *)
Definition Vector_Copy (v : Vector) (other : Vector) (offset : nat) : result Vector :=
  if negb (bool_decide (v_type other = v_type v)) then Throw TypeMismatchException else
  match v_sel other with
  | Some _ => Throw NotImplementedException
  | None =>
    let ixs := exec_indexes (v_sel v) (v_count v) offset in
    let nulls := (fun ik => bool_decide (ik.1 ∈ v_null v)) <$> ixs in
    if negb (TypeIsConstantSize (v_type v)) then
      _ ← assert_ (bool_decide (v_type v = T_VARCHAR) && (offset <=? v_count v));
      cs ← mapM (copied_string v) ixs;
      mret (mkVector (v_type other) (v_count v - offset) (write_cells (v_data other) 0 cs)
              None (mark_nulls ∅ 0 nulls))
    else
      _ ← assert_ (offset <=? v_count v);
      cs ← Copy_data v offset (v_count v - offset);
      mret (mkVector (v_type other) (v_count v - offset) (write_cells (v_data other) 0 cs)
              None (mark_nulls ∅ 0 nulls))
  end.

Definition Vector_Flatten (v : Vector) : result Vector :=
  match v_sel v with
  | None => Ok v
  | Some _ => Vector_Copy v (EmptyVector (v_type v)) 0
  end.

Definition set_nulls (s : gset nat) (at_ : nat) (bs : list bool) : gset nat :=
  foldl (fun s (ib : nat * bool) =>
    if ib.2 then {[at_ + ib.1]} ∪ s else s ∖ {[at_ + ib.1]}) s (imap pair bs).

Definition Vector_Append (v other : Vector) : result Vector :=
  match v_sel v with
  | Some _ => Throw NotImplementedException
  | None =>
    if negb (bool_decide (v_type other = v_type v)) then Throw TypeMismatchException else
    if STANDARD_VECTOR_SIZE <? v_count v + v_count other then Throw OutOfRangeException else
    let ixs := exec_indexes (v_sel other) (v_count other) 0 in
    let nulls := (fun ik => bool_decide (ik.1 ∈ v_null other)) <$> ixs in
    cs ← (if negb (TypeIsConstantSize (v_type v)) then
            _ ← assert_ (bool_decide (v_type v = T_VARCHAR));
            mapM (copied_string other) ixs
          else Copy_data other 0 0);
    mret (mkVector (v_type v) (v_count v + v_count other)
            (write_cells (v_data v) (v_count v) cs) None
            (set_nulls (v_null v) (v_count v) nulls))
  end.

(** [Vector::NotNullSelVector]: the selection vector of the non-null values
    (and of the null ones), with their number. *)
Definition NotNullSelVector (v : Vector) : option (list nat) * nat * list nat :=
  if bool_decide (v_null v = ∅) then (v_sel v, v_count v, [])
  else
    let ixs := (exec_indexes (v_sel v) (v_count v) 0).*1 in
    let not_null := filter (fun i => i ∉ v_null v) ixs in
    (Some not_null, length not_null, filter (fun i => i ∈ v_null v) ixs).

(** [VectorOperations::HasNull]: any bit of the mask, selected or not. *)
Definition HasNull (v : Vector) : bool := negb (bool_decide (v_null v = ∅)).

(** ** Data chunks (data_chunk.cpp) *)

Record DataChunk : Type := mkDataChunk {
  dc_data : list Vector;
  dc_sel : option (list nat) }.

Definition column_count (c : DataChunk) : nat := length (dc_data c).

Definition chunk_size (c : DataChunk) : nat :=
  match dc_data c with v :: _ => v_count v | [] => 0 end.

Definition DataChunk_Initialize (types : list TypeId) : DataChunk :=
  mkDataChunk (EmptyVector <$> types) None.

Definition DataChunk_Reset (c : DataChunk) : DataChunk :=
  mkDataChunk ((fun v => EmptyVector (v_type v)) <$> dc_data c) None.

Definition GetTypes (c : DataChunk) : list TypeId := v_type <$> dc_data c.

Fixpoint map2M (f : Vector -> Vector -> result Vector) (l k : list Vector) : result (list Vector) :=
  match l, k with
  | x :: l', y :: k' => z ← f x y; zs ← map2M f l' k'; mret (z :: zs)
  | _, _ => Ok []
  end.

Definition DataChunk_Copy (c other : DataChunk) (offset : nat) : result DataChunk :=
  _ ← assert_ (column_count c =? column_count other);
  vs ← map2M (fun v o => Vector_Copy v o offset) (dc_data c) (dc_data other);
  mret (mkDataChunk vs None).

Definition DataChunk_Flatten (c : DataChunk) : result DataChunk :=
  match dc_sel c with
  | None => Ok c
  | Some _ => vs ← mapM Vector_Flatten (dc_data c); mret (mkDataChunk vs None)
  end.

Definition DataChunk_Append (c other : DataChunk) : result DataChunk :=
  if chunk_size other =? 0 then Ok c else
  if negb (column_count c =? column_count other) then Throw OutOfRangeException else
  vs ← map2M Vector_Append (dc_data c) (dc_data other);
  mret (mkDataChunk vs (dc_sel c)).

Definition MergeSelVector (current new_vector : list nat) (new_count : nat) : list nat :=
  (fun i => nth (nth i new_vector 0) current 0) <$> seq 0 new_count.

(** A boolean match vector: [match_data\[i\] && !nullmask\[i\]]. *)
Definition is_match (m : Vector) (i : nat) : bool :=
  match v_data m !! i with
  | Some (Num _ z) => negb (z =? 0)%Z && negb (bool_decide (i ∈ v_null m))
  | _ => false
  end.

Definition SetSelectionVector (c : DataChunk) (matches : Vector) : result DataChunk :=
  if negb (bool_decide (v_type matches = T_BOOLEAN)) then Throw InvalidTypeException else
  let '(sel, n) :=
    match dc_sel c with
    | Some s =>
      let chosen := List.filter (is_match matches) ((fun k => nth k s 0) <$> seq 0 (v_count matches)) in
      (Some chosen, length chosen)
    | None =>
      let chosen := List.filter (is_match matches) (seq 0 (v_count matches)) in
      ((if length chosen <? v_count matches then Some chosen else None), length chosen)
    end in
  _ ← assert_ (match dc_sel c, v_sel matches with Some _, None => false | _, _ => true end);
  mret (mkDataChunk
    ((fun v => mkVector (v_type v) n (v_data v) sel (v_null v)) <$> dc_data c) sel).

(** ** Blocks of cells *)

Lemma write_block_lookup m at_ cs k :
  write_block m at_ cs !! k =
  if decide (at_ <= k < at_ + length cs) then cs !! (k - at_) else m !! k.
Proof.
  unfold write_block. revert m. induction cs as [|c cs IH] using rev_ind; intros m.
  { simpl. rewrite decide_False by lia. done. }
  rewrite imap_app, foldl_app. simpl. rewrite length_app. simpl. rewrite Nat.add_0_r.
  destruct (decide (k = at_ + length cs)) as [->|Hne].
  - rewrite lookup_insert_eq, decide_True by lia.
    replace (at_ + length cs - at_) with (length cs) by lia.
    rewrite lookup_app_r, Nat.sub_diag by lia. done.
  - rewrite lookup_insert_ne by lia. rewrite IH.
    destruct (decide (at_ <= k < at_ + length cs)).
    + rewrite decide_True by lia. rewrite lookup_app_l by lia. done.
    + rewrite decide_False by lia. done.
Qed.

Lemma write_cells_lookup m at_ cs k :
  write_cells m at_ cs !! k =
  if decide (at_ <= k < at_ + length cs) then mjoin (cs !! (k - at_)) else m !! k.
Proof.
  unfold write_cells. revert m. induction cs as [|c cs IH] using rev_ind; intros m.
  { simpl. rewrite decide_False by lia. done. }
  rewrite imap_app, foldl_app. simpl. rewrite length_app. simpl. rewrite Nat.add_0_r.
  destruct (decide (k = at_ + length cs)) as [->|Hne].
  - rewrite lookup_partial_alter_eq, decide_True by lia.
    replace (at_ + length cs - at_) with (length cs) by lia.
    rewrite lookup_app_r, Nat.sub_diag by lia. done.
  - rewrite lookup_partial_alter_ne by lia. rewrite IH.
    destruct (decide (at_ <= k < at_ + length cs)).
    + rewrite decide_True by lia. rewrite lookup_app_l by lia. done.
    + rewrite decide_False by lia. done.
Qed.

(** The first [v_count] cells of a vector without selection vector. *)
Definition vec_cells (v : Vector) : list (option cell) := (fun k => v_data v !! k) <$> seq 0 (v_count v).

Lemma vec_cells_append t d s nl n cs :
  vec_cells (mkVector t (n + length cs) (write_block d n cs) s nl)
  = ((fun k => d !! k) <$> seq 0 n) ++ (Some <$> cs).
Proof.
  unfold vec_cells. simpl. rewrite seq_app, fmap_app. f_equal.
  - apply list_fmap_ext. intros i x Hx. apply lookup_seq in Hx as [-> Hx].
    rewrite write_block_lookup, decide_False by lia. done.
  - apply list_eq. intros i. rewrite !list_lookup_fmap.
    destruct (decide (i < length cs)) as [Hi|Hi].
    + rewrite lookup_seq_lt by done. simpl. rewrite write_block_lookup, decide_True by lia.
      replace (n + i - n) with i by lia.
      apply lookup_lt_is_Some in Hi as [c Hc]. by rewrite Hc.
    + rewrite lookup_seq_ge by lia. rewrite (lookup_ge_None_2 cs) by lia. done.
Qed.

(** The null bits set by [mark_nulls]. *)
Lemma mark_nulls_spec s at_ bs k :
  k ∈ mark_nulls s at_ bs <-> k ∈ s \/ (at_ <= k /\ bs !! (k - at_) = Some true).
Proof.
  unfold mark_nulls. revert s. induction bs as [|b bs IH] using rev_ind; intros s.
  { simpl. rewrite lookup_nil. naive_solver. }
  rewrite imap_app, foldl_app. simpl. rewrite Nat.add_0_r.
  assert (forall (Hk : at_ <= k), (bs ++ [b]) !! (k - at_) = Some true <->
    bs !! (k - at_) = Some true \/ (k = at_ + length bs /\ b = true)) as Hlk.
  { intros Hk. rewrite lookup_snoc_Some. split.
    - intros [[]|[]]; [by left|right]; split; [lia|done].
    - intros [Hl|[-> ->]]; [left; split; [by eapply lookup_lt_Some|done]|right; split; [lia|done]]. }
  destruct b.
  - rewrite elem_of_union, elem_of_singleton, IH. split.
    + intros [->|[?|[? ?]]]; [|by left|]; right; (split; [lia|apply Hlk; [lia|]]); [right|left]; done.
    + intros [?|[Hk H]]; [by right; left|]. apply Hlk in H as [?|[-> _]]; [by right; right|by left|done].
  - rewrite IH. split.
    + intros [?|[? ?]]; [by left|right]. split; [done|apply Hlk; auto].
    + intros [?|[Hk H]]; [by left|]. apply Hlk in H as [?|[_ ?]]; [by right| |]; done.
Qed.

(** [AppendFromStorage] on cells that storage may hold: the cells are appended
    and exactly the sentinels are marked NULL. *)
Lemma AppendFromStorage_spec source target cs :
  v_count source + v_count target <= STANDARD_VECTOR_SIZE ->
  v_type source <> T_VARBINARY ->
  Forall2 (fun ik c => v_data source !! ik.1 = Some c)
    (exec_indexes (v_sel source) (v_count source) 0) cs ->
  Forall (fun c => cell_has_type (v_type source) c = true) cs ->
  exists v, AppendFromStorage source target = Ok v /\
    v_type v = v_type target /\ v_sel v = v_sel target /\
    v_count v = v_count target + length cs /\
    vec_cells v = vec_cells target ++ (Some <$> cs) /\
    (forall k, k < length cs ->
       (k + v_count target ∈ v_null v <->
        k + v_count target ∈ v_null target \/
        exists c, cs !! k = Some c /\ IsNullValue (v_type source) c = Ok true)).
Proof.
  intros Hcount Hty Hcs Hwt. unfold AppendFromStorage.
  assert (length cs = v_count source) as Hlen.
  { apply Forall2_length in Hcs. unfold exec_indexes in Hcs.
    rewrite length_fmap, length_seq, Nat.sub_0_r in Hcs. done. }
  destruct (Nat.eqb_spec (v_count source) 0) as [H0|H0].
  { rewrite H0 in Hlen. apply length_zero_iff_nil in Hlen as ->.
    exists target. rewrite fmap_nil, app_nil_r. simpl. repeat split; try lia; done. }
  destruct (Nat.ltb_spec STANDARD_VECTOR_SIZE (v_count source + v_count target)); [lia|].
  assert (exists n, NullValue (v_type source) = Ok n) as [n Hn].
  { destruct cs as [|c cs]; [simpl in Hlen; lia|]. apply Forall_cons_1 in Hwt as [Hc _].
    apply cell_has_type_size in Hc. destruct (v_type source); simpl in *; eauto; done. }
  rewrite Hn. simpl.
  assert (mapM (fun ik : nat * nat => deref (v_data source !! ik.1))
            (exec_indexes (v_sel source) (v_count source) 0) = Ok cs) as ->.
  { apply mapM_Ok. eapply Forall2_impl; [exact Hcs|]. intros x y ->. done. }
  simpl.
  assert (exists bs, mapM (IsNullValue (v_type source)) cs = Ok bs) as [bs Hbs].
  { clear -Hwt Hty. induction Hwt as [|c cs Hc _ [bs IH]]; [by eexists|].
    destruct (IsNullValue_total _ _ Hc Hty) as [b Hb]. exists (b :: bs). simpl. rewrite Hb. simpl.
    by rewrite IH. }
  rewrite Hbs. simpl. eexists. split; [done|]. simpl. rewrite Hlen.
  repeat split; try done.
  - rewrite <- Hlen. unfold vec_cells at 2. apply vec_cells_append.
  - intros [?|[_ Hb]]%mark_nulls_spec; [by left|right].
    replace (k + v_count target - v_count target) with k in Hb by lia.
    apply mapM_Ok in Hbs. destruct (Forall2_lookup_r _ _ _ _ _ Hbs Hb) as (c & Hc & Hb'); eauto.
  - intros [?|(c & Hc & Hnull)]; apply mark_nulls_spec; [by left|right]. split; [lia|].
    replace (k + v_count target - v_count target) with k by lia.
    apply mapM_Ok in Hbs. destruct (Forall2_lookup_l _ _ _ _ _ Hbs Hc) as (b & Hb & Hb').
    congruence.
Qed.

(** A vector whose selected, non-null positions hold cells of its type. *)
Definition vector_ok (v : Vector) : Prop :=
  (exists null, NullValue (v_type v) = Ok null) /\
  forall k, k < v_count v -> sel_at (v_sel v) k ∉ v_null v ->
    exists x, v_data v !! sel_at (v_sel v) k = Some x /\ cell_has_type (v_type v) x = true.

(** What storage keeps for the [k]-th value. *)
Definition stored_cell (v : Vector) (k : nat) : option cell :=
  if decide (sel_at (v_sel v) k ∈ v_null v)
  then match NullValue (v_type v) with Ok n => Some n | _ => None end
  else v_data v !! sel_at (v_sel v) k.

Lemma stored_cell_typed v k :
  vector_ok v -> k < v_count v ->
  exists x, stored_cell v k = Some x /\ cell_has_type (v_type v) x = true.
Proof.
  intros [[null Hnull] Hv] Hk. unfold stored_cell. case_decide as Hd; [|by apply Hv].
  rewrite Hnull. eauto using NullValue_typed.
Qed.

Lemma CopyToStorage_spec v from n :
  vector_ok v -> 0 < n -> from + n <= v_count v ->
  exists cs, CopyToStorage v from n = Ok cs /\ length cs = n /\
    Forall (fun x => cell_has_type (v_type v) x = true) cs /\
    forall i, i < n -> cs !! i = stored_cell v (from + i).
Proof.
  intros Hok Hn Hle. pose proof Hok as [[null Hnull] _]. unfold CopyToStorage.
  destruct (Nat.eqb_spec (v_count v) 0); [lia|]. destruct (Nat.eqb_spec n 0); [lia|].
  rewrite (proj2 (Nat.leb_le _ _) Hle), Hnull. run. unfold exec_indexes.
  replace (n + from - from) with n by lia.
  assert (forall m off, off + m <= v_count v -> exists cs,
    mapM (copy_cell v null) ((fun k => (sel_at (v_sel v) k, k)) <$> seq off m) = Ok cs /\
    length cs = m /\ Forall (fun x => cell_has_type (v_type v) x = true) cs /\
    forall i, i < m -> cs !! i = stored_cell v (off + i)) as Hmap; [|by apply Hmap].
  induction m as [|m IH]; intros off Hoff; [exists []; by split_and!; [| | |lia]|].
  destruct (IH (S off)) as (cs & Hcs & Hlen & Hall & Hlk); [lia|].
  destruct (stored_cell_typed v off Hok) as (x & Hx & Hxt); [lia|].
  assert (copy_cell v null (sel_at (v_sel v) off, off) = Ok x) as Hcopy.
  { unfold copy_cell, stored_cell in *. simpl. rewrite Hnull in Hx. case_decide.
    - rewrite bool_decide_eq_true_2 by done. congruence.
    - rewrite bool_decide_eq_false_2 by done. by rewrite Hx. }
  exists (x :: cs). cbn [seq]. rewrite fmap_cons. cbn [mapM]. rewrite Hcopy. run. rewrite Hcs. split_and!; try done; [simpl; lia|by constructor|].
  intros [|i] Hi; simpl; [by rewrite Nat.add_0_r, Hx|]. rewrite Hlk by lia. f_equal. lia.
Qed.
