(* ===== verification/Tuple.v ===== *)
(** * Row-wise tuples

    Models [src/src/common/types/tuple.cpp]: [TupleSerializer] copies a row of
    a set of columns into one block of memory and back, [TupleComparer]
    compares blocks written by two serializers.  A block is the sequence of the
    cells in it; cells are addressed by byte offset, the way the sources step a
    pointer by [type_sizes\[i\]]. *)

From Stdlib Require Import ZArith Lia.
From stdpp Require Import base gmap list strings option numbers sorting.
From S2P Require Import Prelude Types Vector.

Abbreviation tuple := (list cell).

(** The cell that starts at a byte offset of a block. *)
Fixpoint cell_at (t : tuple) (offset : nat) : option cell :=
  match t with
  | [] => None
  | c :: t' =>
    if offset =? 0 then Some c
    else if cell_size c <=? offset then cell_at t' (offset - cell_size c)
    else None
  end.

Record TupleSerializer : Type := mkTupleSerializer {
  ts_types : list TypeId;
  ts_type_sizes : list nat;
  ts_columns : list nat;
  ts_base_size : nat;
  ts_is_variable : list bool;
  ts_has_variable_columns : bool }.

Definition TupleSerializer_Initialize (types : list TypeId) (columns : list nat)
    : result TupleSerializer :=
  let columns := if length columns =? 0 then seq 0 (length types) else columns in
  _ ← assert_ (length types =? length columns);
  sizes ← mapM GetTypeIdSize types;
  let is_variable := (fun t => negb (TypeIsConstantSize t)) <$> types in
  _ ← assert_ (forallb (fun t => TypeIsConstantSize t || bool_decide (t = T_VARCHAR)) types);
  mret (mkTupleSerializer types sizes columns (sum_list sizes) is_variable
          (existsb id is_variable)).

(** ** Rows of storage columns

    A storage column is the array of its cells; a row that was never written
    is absent. *)

Abbreviation column := (gmap nat cell).

(** [Serialize(column_data, offset, target)] *)
Definition Serialize (s : TupleSerializer) (column_data : list column) (offset : nat) : result tuple :=
  mapM (fun c => col ← deref (column_data !! c); deref ((col : column) !! offset)) (ts_columns s).

(** One step of [Deserialize]: copy the cell at byte [pos] of the block into
    column [c]. *)
Fixpoint Deserialize_from (cols sizes : list nat) (column_data : list column) (offset : nat)
    (target : tuple) (pos : nat) : result (list column) :=
  match cols, sizes with
  | c :: cols', sz :: sizes' =>
    v ← deref (cell_at target pos);
    col ← deref (column_data !! c);
    Deserialize_from cols' sizes' (<[c := <[offset := v]> (col : column)]> column_data)
      offset target (pos + sz)
  | _, _ => Ok column_data
  end.

(** [Deserialize(column_data, offset, target)] *)
Definition Deserialize (s : TupleSerializer) (column_data : list column) (offset : nat)
    (target : tuple) : result (list column) :=
  Deserialize_from (ts_columns s) (ts_type_sizes s) column_data offset target 0.

(** ** Rows as seen by the clients *)

(** The row [r] of a set of columns, and the columns with row [r] replaced. *)
Definition row_at (cols : list column) (r : nat) : option tuple :=
  mapM (fun col : column => col !! r) cols.

Definition set_row (cols : list column) (r : nat) (t : tuple) : list column :=
  zip_with (fun (col : column) v => <[r := v]> col) cols t.

(** A block whose cells have the given types. *)
Definition well_typed (types : list TypeId) (t : tuple) : Prop :=
  Forall2 (fun ty c => cell_has_type ty c = true) types t.

(** The serializer of a table: all the columns, in order. *)
Definition table_serializer (types : list TypeId) (s : TupleSerializer) : Prop :=
  TupleSerializer_Initialize types [] = Ok s.

Lemma GetTypeIdSize_pos t n : GetTypeIdSize t = Ok n -> 0 < n.
Proof. destruct t; simpl; intros [=]; lia. Qed.

Lemma table_serializer_inv types s :
  table_serializer types s ->
  ts_columns s = seq 0 (length types) /\
  Forall2 (fun ty n => GetTypeIdSize ty = Ok n) types (ts_type_sizes s).
Proof.
  unfold table_serializer, TupleSerializer_Initialize. simpl.
  intros H. apply bind_Ok in H as (? & _ & H). apply bind_Ok in H as (sz & Hsz & H).
  apply bind_Ok in H as (? & _ & H). injection H as <-. simpl.
  split; [done|]. by apply mapM_Ok in Hsz.
Qed.

Lemma table_serializer_types types s :
  table_serializer types s -> Forall (fun t => t <> T_VARBINARY) types.
Proof.
  unfold table_serializer, TupleSerializer_Initialize. simpl.
  intros H. apply bind_Ok in H as (? & _ & H). apply bind_Ok in H as (sz & _ & H).
  apply bind_Ok in H as (? & Ha & _).
  destruct (forallb _ types) eqn:E; [|done].
  apply Forall_forall. intros t Ht ->. rewrite forallb_forall in E.
  by apply list_elem_of_In, E in Ht.
Qed.

(** Byte offsets that are prefix sums of the cell sizes address the cells. *)
Lemma cell_at_prefix pre c post :
  Forall (fun c => 0 < cell_size c) pre ->
  cell_at (pre ++ c :: post) (sum_list (cell_size <$> pre)) = Some c.
Proof.
  induction 1 as [|x pre Hx _ IH]; csimpl; [done|].
  destruct (Nat.eqb_spec (cell_size x + sum_list (cell_size <$> pre)) 0); [lia|].
  destruct (Nat.leb_spec (cell_size x) (cell_size x + sum_list (cell_size <$> pre))); [|lia].
  by replace (_ + _ - _) with (sum_list (cell_size <$> pre)) by lia.
Qed.

Lemma well_typed_sizes types t :
  well_typed types t ->
  Forall2 (fun ty n => GetTypeIdSize ty = Ok n) types (cell_size <$> t) /\
  Forall (fun c => 0 < cell_size c) t.
Proof.
  induction 1 as [|ty c types t Hc _ [IH1 IH2]]; simpl; [done|].
  apply cell_has_type_size in Hc. split; constructor; eauto using GetTypeIdSize_pos.
Qed.

Lemma type_sizes_unique types ns ms :
  Forall2 (fun ty n => GetTypeIdSize ty = Ok n) types ns ->
  Forall2 (fun ty n => GetTypeIdSize ty = Ok n) types ms -> ns = ms.
Proof.
  intros H. revert ms. induction H as [|ty n types ns Hn _ IH]; intros ms Hms;
    inversion Hms; subst; [done|]. f_equal; [congruence|auto].
Qed.

Lemma row_at_Forall2 cols r t :
  row_at cols r = Some t <-> Forall2 (fun (col : column) c => col !! r = Some c) cols t.
Proof. unfold row_at. by rewrite mapM_Some. Qed.

Lemma row_at_length cols r t : row_at cols r = Some t -> length t = length cols.
Proof. intros H%row_at_Forall2. symmetry. by eapply Forall2_length. Qed.

Lemma row_at_set_row_eq cols r t :
  length t = length cols -> row_at (set_row cols r t) r = Some t.
Proof.
  intros Hlen. apply row_at_Forall2. unfold set_row.
  revert t Hlen. induction cols as [|col cols IH]; intros [|c t] Hlen; simplify_eq/=;
    constructor; [apply lookup_insert_eq|auto].
Qed.

Lemma row_at_set_row_ne cols r r' t :
  length t = length cols -> r <> r' -> row_at (set_row cols r t) r' = row_at cols r'.
Proof.
  intros Hlen Hne. unfold row_at, set_row. revert t Hlen.
  induction cols as [|col cols IH]; intros [|c t] Hlen; simplify_eq/=; [done|].
  rewrite lookup_insert_ne by done. rewrite IH by done. done.
Qed.

Lemma set_row_length cols r t :
  length t = length cols -> length (set_row cols r t) = length cols.
Proof. intros. unfold set_row. rewrite length_zip_with. lia. Qed.

Lemma Serialize_columns (pre cols : list column) r t :
  row_at cols r = Some t ->
  mapM (fun c => col ← deref ((pre ++ cols) !! c); deref ((col : column) !! r))
    (seq (length pre) (length cols)) = Ok t.
Proof.
  revert pre t. induction cols as [|col cols IH]; simpl; intros pre t H.
  { by injection H as <-. }
  destruct (col !! r) as [c|] eqn:Hc; [|done].
  destruct (row_at cols r) as [t'|] eqn:Ht; [|done]. injection H as <-.
  rewrite lookup_app_r, Nat.sub_diag by lia. simpl. rewrite Hc. simpl.
  specialize (IH (pre ++ [col]) t' eq_refl). rewrite length_app, <- app_assoc in IH.
  simpl in IH. rewrite Nat.add_1_r in IH. by rewrite IH.
Qed.

(** The table serializer writes the row. *)
Lemma Serialize_row types s cols r t :
  table_serializer types s -> length cols = length types ->
  row_at cols r = Some t -> Serialize s cols r = Ok t.
Proof.
  intros [Hc _]%table_serializer_inv Hlen Hrow. unfold Serialize. rewrite Hc, <- Hlen.
  by apply (Serialize_columns [] cols).
Qed.

Lemma Deserialize_columns (pre cols : list column) tpre t r sizes :
  length cols = length t -> Forall (fun c => 0 < cell_size c) (tpre ++ t) ->
  sizes = cell_size <$> t ->
  Deserialize_from (seq (length pre) (length cols)) sizes (pre ++ cols) r (tpre ++ t)
    (sum_list (cell_size <$> tpre)) = Ok (pre ++ set_row cols r t).
Proof.
  revert pre tpre t sizes.
  induction cols as [|col cols IH]; intros pre tpre [|c t] sizes Hlen Hpos ->; simplify_eq/=; [done|].
  rewrite cell_at_prefix by (apply Forall_app in Hpos; tauto). simpl.
  rewrite lookup_app_r, Nat.sub_diag by lia. simpl.
  rewrite insert_app_r_alt, Nat.sub_diag by lia. simpl.
  specialize (IH (pre ++ [<[r:=c]> col]) (tpre ++ [c]) t (cell_size <$> t)).
  rewrite fmap_app, length_app, <- !app_assoc in IH. simpl in IH.
  rewrite sum_list_with_app, !Nat.add_1_r in IH. simpl in IH.
  rewrite Nat.add_0_r in IH. by apply IH.
Qed.

(** ... and reading the block back replaces exactly that row. *)
Lemma Deserialize_row types s cols r t :
  table_serializer types s -> length cols = length types -> well_typed types t ->
  Deserialize s cols r t = Ok (set_row cols r t).
Proof.
  intros [Hc Hs]%table_serializer_inv Hlen Hwt. unfold Deserialize. rewrite Hc, <- Hlen.
  pose proof (well_typed_sizes _ _ Hwt) as [Hsz Hpos].
  apply (Deserialize_columns [] cols [] t).
  - rewrite Hlen. by eapply Forall2_length.
  - done.
  - by eapply type_sizes_unique.
Qed.
