(* ===== verification/Storage.v ===== *)
(** * Storage chunks, row versions and the tuple side of a transaction

    Models [src/src/storage/storage_chunk.cpp], [src/src/transaction/transaction.cpp]
    and the structures of [src/src/include/transaction/transaction.hpp],
    [src/src/include/transaction/undo_buffer.hpp],
    [src/src/include/storage/storage_chunk.hpp].

    A row lives in place in its chunk; the older versions of it form a doubly
    linked list of [VersionInformation] nodes that live in the undo buffers of
    the transactions that overwrote them.  The objects are kept in a heap
    ([rows]) and refer to each other by address, as in the sources. *)

From Stdlib Require Import ZArith Lia.
From stdpp Require Import base gmap list strings option numbers sorting.
From S2P Require Import Prelude Types Vector Tuple.

(** ** Objects *)

(** The [prev] union: a row number in the chunk, or the newer version. *)
Inductive prev_link : Type :=
| PrevEntry (entry : nat)
| PrevPointer (pointer : nat).

Record VersionInformation : Type := mkVI {
  vi_table : nat;
  vi_chunk : option nat;
  vi_prev : prev_link;
  vi_next : option nat;
  version_number : Z;
  tuple_data : option tuple }.

(** [deleted] and [version_pointers] are arrays that start out all false and
    all null. *)
Record StorageChunk : Type := mkStorageChunk {
  sc_table : nat;
  deleted : gset nat;
  version_pointers : gmap nat nat;
  columns : list column;
  sc_count : nat;
  sc_start : nat;
  sc_next : option nat }.

Record DataTable : Type := mkDataTable {
  dt_schema : string;
  dt_table : string;
  dt_types : list TypeId;
  dt_serializer : TupleSerializer;
  dt_tuple_size : nat;
  dt_accumulative_tuple_size : list nat;
  dt_cardinality : Z;
  dt_chunk_list : nat;
  dt_tail_chunk : nat }.

Record rows : Type := mkRows {
  versions : gmap nat VersionInformation;
  chunks : gmap nat StorageChunk;
  tables : gmap nat DataTable;
  next_version : nat;
  next_chunk : nat }.

(** ** Transactions and their undo buffers *)

Inductive UndoFlags : Type :=
| EMPTY_ENTRY | CATALOG_ENTRY | INSERT_TUPLE | DELETE_TUPLE | UPDATE_TUPLE | QUERY.

#[export] Instance UndoFlags_eq_dec : EqDecision UndoFlags.
Proof. solve_decision. Defined.

(** What the bytes of an undo entry hold: a [VersionInformation], a pointer
    to a catalog entry, or a query string. *)
Inductive UndoData : Type :=
| UVersion (info : nat)
| UCatalog (entry : nat)
| UQuery (query : string).

Record UndoEntry : Type := mkUndoEntry { ue_type : UndoFlags; ue_data : UndoData }.

Record Transaction : Type := mkTransaction {
  start_time : Z;
  transaction_id : Z;
  commit_id : Z;
  highest_active_query : Z;
  active_query : Z;
  undo_buffer : list UndoEntry }.

Definition TRANSACTION_ID_START : Z := 4294967296.
Definition MAXIMUM_QUERY_ID : Z := 18446744073709551615.

Definition NewTransaction (start id : Z) : Transaction :=
  mkTransaction start id 0 0 MAXIMUM_QUERY_ID [].

(** [UndoBuffer::CreateEntry] *)
Definition CreateEntry (tx : Transaction) (t : UndoFlags) (d : UndoData) : Transaction :=
  mkTransaction (start_time tx) (transaction_id tx) (commit_id tx)
    (highest_active_query tx) (active_query tx) (undo_buffer tx ++ [mkUndoEntry t d]).

(** ** Heap updates *)

Definition set_versions (R : rows) (v : gmap nat VersionInformation) : rows :=
  mkRows v (chunks R) (tables R) (next_version R) (next_chunk R).
Definition set_chunk (R : rows) (cp : nat) (c : StorageChunk) : rows :=
  mkRows (versions R) (<[cp := c]> (chunks R)) (tables R) (next_version R) (next_chunk R).
Definition set_table (R : rows) (tp : nat) (t : DataTable) : rows :=
  mkRows (versions R) (chunks R) (<[tp := t]> (tables R)) (next_version R) (next_chunk R).

(** A fresh [VersionInformation] in an undo entry. *)
Definition alloc_version (R : rows) (vi : VersionInformation) : rows :=
  mkRows (<[next_version R := vi]> (versions R)) (chunks R) (tables R)
    (S (next_version R)) (next_chunk R).

(** Writing the [chunk]/[prev] fields and the [next] field of a node. *)
Definition set_link (ch : option nat) (p : prev_link) (vi : VersionInformation) : VersionInformation :=
  mkVI (vi_table vi) ch p (vi_next vi) (version_number vi) (tuple_data vi).
Definition set_next (n : option nat) (vi : VersionInformation) : VersionInformation :=
  mkVI (vi_table vi) (vi_chunk vi) (vi_prev vi) n (version_number vi) (tuple_data vi).
Definition set_version_number (n : Z) (vi : VersionInformation) : VersionInformation :=
  mkVI (vi_table vi) (vi_chunk vi) (vi_prev vi) (vi_next vi) n (tuple_data vi).

Definition update_version (R : rows) (l : nat) (f : VersionInformation -> VersionInformation)
    : result rows :=
  vi ← deref (versions R !! l);
  mret (set_versions R (<[l := f vi]> (versions R))).

Definition set_version_pointer (c : StorageChunk) (entry : nat) (p : option nat) : StorageChunk :=
  mkStorageChunk (sc_table c) (deleted c)
    (match p with Some l => <[entry := l]> (version_pointers c) | None => delete entry (version_pointers c) end)
    (columns c) (sc_count c) (sc_start c) (sc_next c).

Definition set_deleted (c : StorageChunk) (entry : nat) (b : bool) : StorageChunk :=
  mkStorageChunk (sc_table c) (if b then {[entry]} ∪ deleted c else deleted c ∖ {[entry]})
    (version_pointers c) (columns c) (sc_count c) (sc_start c) (sc_next c).

Definition set_columns (c : StorageChunk) (cols : list column) : StorageChunk :=
  mkStorageChunk (sc_table c) (deleted c) (version_pointers c) cols
    (sc_count c) (sc_start c) (sc_next c).

Definition set_count (c : StorageChunk) (n : nat) : StorageChunk :=
  mkStorageChunk (sc_table c) (deleted c) (version_pointers c) (columns c)
    n (sc_start c) (sc_next c).

(** [if (next) { next->chunk = ...; next->prev = ...; }] *)
Definition relink (R : rows) (next : option nat) (ch : option nat) (p : prev_link) : result rows :=
  match next with
  | Some n => update_version R n (set_link ch p)
  | None => Ok R
  end.

Definition prev_entry (vi : VersionInformation) : result nat :=
  match vi_prev vi with PrevEntry e => Ok e | PrevPointer _ => Undef end.
Definition prev_pointer (vi : VersionInformation) : result nat :=
  match vi_prev vi with PrevPointer p => Ok p | PrevEntry _ => Undef end.

(** ** StorageChunk *)

(** [StorageChunk::StorageChunk(table, start)] *)
Definition NewStorageChunk (tp : nat) (types : list TypeId) (start : nat) : StorageChunk :=
  mkStorageChunk tp ∅ ∅ ((fun _ => ∅) <$> types) 0 start None.

(** [StorageChunk::Cleanup(info)] *)
Definition StorageChunk_Cleanup (R : rows) (cp : nat) (info : nat) : result rows :=
  vi ← deref (versions R !! info);
  entry ← prev_entry vi;
  c ← deref (chunks R !! cp);
  relink (set_chunk R cp (set_version_pointer c entry (vi_next vi)))
    (vi_next vi) (Some cp) (PrevEntry entry).

(** [StorageChunk::Undo(info)] *)
Definition StorageChunk_Undo (R : rows) (cp : nat) (info : nat) : result rows :=
  vi ← deref (versions R !! info);
  entry ← prev_entry vi;
  c ← deref (chunks R !! cp);
  _ ← assert_ (bool_decide (version_pointers c !! entry = Some info));
  c ← match tuple_data vi with
      | None => Ok (set_deleted c entry true)
      | Some t =>
        tbl ← deref (tables R !! sc_table c);
        cols ← Deserialize (dt_serializer tbl) (columns c) entry t;
        mret (set_columns (set_deleted c entry false) cols)
      end;
  relink (set_chunk R cp (set_version_pointer c entry (vi_next vi)))
    (vi_next vi) (Some cp) (PrevEntry entry).

(** The removal of a node that is not the newest of its row, as
    [UndoBuffer::Cleanup] and [UndoBuffer::Rollback] do it. *)
Definition unlink_version (R : rows) (info : nat) : result rows :=
  vi ← deref (versions R !! info);
  parent ← prev_pointer vi;
  R ← update_version R parent (set_next (vi_next vi));
  match vi_next vi with
  | Some n => update_version R n
                (fun nv => set_link (vi_chunk nv) (PrevPointer parent) nv)
  | None => Ok R
  end.

(** ** Transaction: tuples *)

(** [Transaction::PushTuple(flags, offset, storage)] *)
Definition PushTuple (tx : Transaction) (R : rows) (flags : UndoFlags) (offset cp : nat)
    : result (Transaction * rows) :=
  let l := next_version R in
  c ← deref (chunks R !! cp);
  tbl ← deref (tables R !! sc_table c);
  t ← Serialize (dt_serializer tbl) (columns c) offset;
  let next := version_pointers c !! offset in
  let meta := mkVI (sc_table c) (Some cp) (PrevEntry offset) next (transaction_id tx) (Some t) in
  let R := alloc_version R meta in
  let R := set_chunk R cp (set_version_pointer c offset (Some l)) in
  R ← relink R next None (PrevPointer l);
  mret (CreateEntry tx flags (UVersion l), R).

(** One iteration of [Transaction::PushDeletedEntries]. *)
Definition PushDeletedEntry (tx : Transaction) (R : rows) (offset cp : nat)
    : result (Transaction * rows) :=
  let l := next_version R in
  c ← deref (chunks R !! cp);
  let meta := mkVI (sc_table c) (Some cp) (PrevEntry offset) None (transaction_id tx) None in
  let R := alloc_version R meta in
  mret (CreateEntry tx INSERT_TUPLE (UVersion l),
        set_chunk R cp (set_version_pointer c offset (Some l))).

Fixpoint PushDeletedEntries (tx : Transaction) (R : rows) (offset count cp : nat)
    : result (Transaction * rows) :=
  match count with
  | 0 => Ok (tx, R)
  | S count' =>
    '(tx, R) ← PushDeletedEntry tx R offset cp;
    PushDeletedEntries tx R (S offset) count' cp
  end.

(** [Transaction::PushQuery] and [Transaction::PushCatalogEntry] *)
Definition PushQuery (tx : Transaction) (query : string) : Transaction :=
  CreateEntry tx QUERY (UQuery query).
Definition PushCatalogEntry (tx : Transaction) (entry : nat) : Transaction :=
  CreateEntry tx CATALOG_ENTRY (UCatalog entry).
