(* ===== verification/Versions.v ===== *)
(** * Version chains: the abstract history of a row

    The theory of the linked lists of [Storage.v].  A row is abstracted to its
    current value and the list of its older versions, newest first ([vnode]s);
    [links_wf] says that the heap represents such histories and [visible]
    which version a transaction reads.  The lemmas give the effect of every
    pointer operation on the histories. *)

From Stdlib Require Import ZArith Lia.
From stdpp Require Import base gmap list strings option numbers sorting.
From S2P Require Import Prelude Types Vector Tuple Storage.

(** ** Histories *)

(** A version node: its address, the number of the transaction that
    overwrote the version, and the overwritten value ([None]: the row did not
    exist). *)
Record vnode : Type := mkNode { n_loc : nat; n_num : Z; n_old : option tuple }.

(** Where a node hangs: at the head of a row, or below a newer node. *)
Inductive link : Type :=
| InChunk (cp r : nat)
| Below (p : nat).

Definition link_chunk (lk : link) : option nat :=
  match lk with InChunk cp _ => Some cp | Below _ => None end.
Definition link_prev (lk : link) : prev_link :=
  match lk with InChunk _ r => PrevEntry r | Below p => PrevPointer p end.

Definition head_loc (ns : list vnode) : option nat := n_loc <$> head ns.

Definition node_vi (tbl : nat) (lk : link) (n : vnode) (next : option nat) : VersionInformation :=
  mkVI tbl (link_chunk lk) (link_prev lk) next (n_num n) (n_old n).

(** The heap [vs] holds the list [ns], its first node hanging at [lk]. *)
Fixpoint rep (vs : gmap nat VersionInformation) (tbl : nat) (lk : link) (ns : list vnode) : Prop :=
  match ns with
  | [] => True
  | n :: ns' =>
    vs !! n_loc n = Some (node_vi tbl lk n (head_loc ns')) ∧ rep vs tbl (Below (n_loc n)) ns'
  end.

Definition hist : Type := nat -> nat -> list vnode.

Definition hupd (H : hist) (cp r : nat) (ns : list vnode) : hist := fun cp' r' =>
  if decide (cp' = cp ∧ r' = r) then ns else H cp' r'.

(** [a] is a newer version than [b]: the same transaction pushed it later, or
    [b] was written by an earlier, committed transaction. *)
Definition newer (a b : vnode) : Prop :=
  (n_num b = n_num a ∧ n_loc b < n_loc a) ∨
  ((n_num b < n_num a)%Z ∧ (n_num b < TRANSACTION_ID_START)%Z).

(** ** What a transaction reads *)

Definition sees (tx : Transaction) (num : Z) : bool :=
  (num =? transaction_id tx)%Z || (num <? start_time tx)%Z.

Fixpoint visible (tx : Transaction) (v : option tuple) (ns : list vnode) : option tuple :=
  match ns with
  | [] => v
  | n :: ns' => if sees tx (n_num n) then v else visible tx (n_old n) ns'
  end.

Definition base_value (c : StorageChunk) (r : nat) : option tuple :=
  if decide (r ∈ deleted c) then None else row_at (columns c) r.

(** ** Representation invariant *)

(** The layout a table computes when it is created. *)
Fixpoint accumulate (sizes : list nat) (total : nat) : list nat :=
  match sizes with [] => [] | n :: ns => total :: accumulate ns (total + n) end.

Definition table_ok (t : DataTable) : Prop :=
  table_serializer (dt_types t) (dt_serializer t) ∧
  dt_accumulative_tuple_size t = accumulate (ts_type_sizes (dt_serializer t)) 0.

Record links_wf (R : rows) (H : hist) : Prop := {
  lw_row : ∀ cp c r, chunks R !! cp = Some c →
    rep (versions R) (sc_table c) (InChunk cp r) (H cp r) ∧
    version_pointers c !! r = head_loc (H cp r);
  lw_nochunk : ∀ cp r, chunks R !! cp = None → H cp r = [];
  lw_sorted : ∀ cp r, StronglySorted newer (H cp r);
  lw_fresh : ∀ l vi, versions R !! l = Some vi → l < next_version R }.

(** The chunk list of a table from chunk [cp] on, whose first row has number
    [start]: every chunk but the last is full. *)
Fixpoint chunk_list_wf (R : rows) (tp start : nat) (tail : nat) (cps : list nat) : Prop :=
  match cps with
  | [] => False
  | cp :: cps' => ∃ c, chunks R !! cp = Some c ∧ sc_table c = tp ∧ sc_start c = start ∧
      sc_next c = head cps' ∧
      match cps' with
      | [] => cp = tail
      | _ :: _ => sc_count c = STORAGE_CHUNK_SIZE ∧ chunk_list_wf R tp (start + sc_count c) tail cps'
      end
  end.

Definition table_list (R : rows) (tp : nat) (tbl : DataTable) (cps : list nat) : Prop :=
  head cps = Some (dt_chunk_list tbl) ∧ chunk_list_wf R tp 0 (dt_tail_chunk tbl) cps.

Record data_wf (R : rows) (H : hist) : Prop := {
  dw_table : ∀ cp c, chunks R !! cp = Some c → ∃ tbl,
    tables R !! sc_table c = Some tbl ∧ length (columns c) = length (dt_types tbl) ∧
    table_ok tbl;
  dw_row : ∀ cp c tbl r, chunks R !! cp = Some c → tables R !! sc_table c = Some tbl →
    r < sc_count c → ∃ t, row_at (columns c) r = Some t ∧ well_typed (dt_types tbl) t;
  dw_old : ∀ cp c tbl r n t, chunks R !! cp = Some c → tables R !! sc_table c = Some tbl →
    n ∈ H cp r → n_old n = Some t → well_typed (dt_types tbl) t;
  dw_unused : ∀ cp c r, chunks R !! cp = Some c → sc_count c ≤ r →
    H cp r = [] ∧ r ∉ deleted c;
  dw_count : ∀ cp c, chunks R !! cp = Some c → sc_count c ≤ STORAGE_CHUNK_SIZE;
  dw_fresh : ∀ cp c, chunks R !! cp = Some c → cp < next_chunk R;
  dw_list : ∀ tp tbl, tables R !! tp = Some tbl → ∃ cps, table_list R tp tbl cps }.

(** ** Lists of nodes in the heap *)

Lemma rep_ext vs vs' tbl lk ns :
  (∀ n, n ∈ ns → vs' !! n_loc n = vs !! n_loc n) → rep vs tbl lk ns → rep vs' tbl lk ns.
Proof.
  revert lk. induction ns as [|n ns IH]; simpl; intros lk Hext; [done|].
  intros [Hn Hns]. split.
  - rewrite Hext; [done|left].
  - apply IH; [|done]. intros m Hm. apply Hext. by right.
Qed.

Lemma rep_app vs tbl lk ns1 n ns2 :
  rep vs tbl lk (ns1 ++ n :: ns2) →
  vs !! n_loc n = Some (node_vi tbl (match last ns1 with Some m => Below (n_loc m) | None => lk end)
                          n (head_loc ns2)).
Proof.
  revert lk. induction ns1 as [|m ns1 IH]; simpl; intros lk [Hm Hns]; [done|].
  apply IH in Hns. destruct ns1 as [|m' ns1]; simpl in *; [done|].
  rewrite Hns. by destruct (last (m' :: ns1)) eqn:E; [|apply last_None in E].
Qed.

Lemma rep_lookup vs tbl lk ns n :
  n ∈ ns → rep vs tbl lk ns → ∃ lk' next, vs !! n_loc n = Some (node_vi tbl lk' n next).
Proof. intros (ns1 & ns2 & ->)%list_elem_of_split Hrep. eauto using rep_app. Qed.

Lemma rep_node_eq vs tbl lk ns tbl' lk' ns' n n' :
  rep vs tbl lk ns → rep vs tbl' lk' ns' → n ∈ ns → n' ∈ ns' → n_loc n = n_loc n' → n = n'.
Proof.
  intros Hr Hr' Hn Hn' Heq.
  apply (rep_lookup _ _ _ _ _ Hn) in Hr as (l1 & x1 & E1).
  apply (rep_lookup _ _ _ _ _ Hn') in Hr' as (l2 & x2 & E2).
  rewrite Heq, E2 in E1. destruct n, n'; simpl in *. by inversion E1; subst.
Qed.

(** Two rows never share a node: walking back from it leads to its row. *)
Lemma rep_inj vs tbl tbl' cp r cp' r' ns ns' n n' :
  rep vs tbl (InChunk cp r) ns → rep vs tbl' (InChunk cp' r') ns' →
  n ∈ ns → n' ∈ ns' → n_loc n = n_loc n' → cp = cp' ∧ r = r'.
Proof.
  intros Hr Hr' (p1 & q1 & ->)%list_elem_of_split.
  revert n n' q1 ns' Hr Hr'. induction p1 as [|m p1 IH] using rev_ind;
    intros n n' q1 ns' Hr Hr' (p2 & q2 & ->)%list_elem_of_split Heq.
  - apply rep_app in Hr, Hr'. rewrite Heq, Hr' in Hr. simpl in Hr.
    destruct (last p2); unfold node_vi in Hr; simpl in Hr; by inversion Hr.
  - pose proof Hr as Hn. apply rep_app in Hn. rewrite last_snoc in Hn.
    pose proof Hr' as Hn'. apply rep_app in Hn'. rewrite Heq, Hn' in Hn.
    destruct (last p2) as [m'|] eqn:E; unfold node_vi in Hn; simpl in Hn; inversion Hn as [Hm].
    rewrite <- app_assoc in Hr. simpl in Hr.
    apply last_Some in E as [p2' ->]. rewrite <- app_assoc in Hr'. simpl in Hr'.
    eapply IH; [exact Hr|exact Hr'| |by symmetry].
    apply elem_of_app. right. left.
Qed.

Lemma newer_trans a b c : newer a b → newer b c → newer a c.
Proof. unfold newer. lia. Qed.

Lemma newer_irrefl a : ¬ newer a a.
Proof. unfold newer. lia. Qed.

Lemma rep_NoDup vs tbl lk ns :
  rep vs tbl lk ns → StronglySorted newer ns → NoDup (n_loc <$> ns).
Proof.
  revert lk. induction ns as [|n ns IH]; csimpl; intros lk Hrep Hs; [constructor|].
  apply StronglySorted_inv in Hs as [Hs Hall]. constructor.
  - intros (m & Heq & Hm)%list_elem_of_fmap.
    assert (n = m) as ->.
    { eapply (rep_node_eq vs tbl lk (n :: ns) tbl lk (n :: ns)); eauto; [left|by right]. }
    rewrite Forall_forall in Hall. by eapply newer_irrefl, Hall.
  - by eapply IH; [apply Hrep|].
Qed.

Lemma rep_length vs tbl lk ns :
  rep vs tbl lk ns → StronglySorted newer ns → length ns ≤ size vs.
Proof.
  intros Hrep Hs. pose proof (rep_NoDup _ _ _ _ Hrep Hs) as Hnd.
  rewrite <- (length_fmap n_loc). rewrite <- (size_list_to_set (C:=gset nat)) by done.
  rewrite <- (size_dom (D:=gset nat) vs). apply subseteq_size.
  intros l (n & -> & Hn)%elem_of_list_to_set%list_elem_of_fmap.
  apply (rep_lookup _ _ _ _ _ Hn) in Hrep as (? & ? & E).
  apply elem_of_dom. eauto.
Qed.

Lemma lw_rep R H cp c r :
  links_wf R H → chunks R !! cp = Some c →
  rep (versions R) (sc_table c) (InChunk cp r) (H cp r).
Proof. intros Hwf Hc. by apply (lw_row _ _ Hwf). Qed.

Lemma lw_pointer R H cp c r :
  links_wf R H → chunks R !! cp = Some c → version_pointers c !! r = head_loc (H cp r).
Proof. intros Hwf Hc. by apply (lw_row _ _ Hwf). Qed.

Lemma lw_NoDup R H cp c r :
  links_wf R H → chunks R !! cp = Some c → NoDup (n_loc <$> H cp r).
Proof. intros. eapply rep_NoDup; [by eapply lw_rep|by eapply lw_sorted]. Qed.

(** A fresh address is in no row. *)
Lemma links_fresh R H cp r n :
  links_wf R H → n ∈ H cp r → n_loc n < next_version R.
Proof.
  intros Hwf Hn. destruct (chunks R !! cp) as [c|] eqn:Hc.
  - destruct (lw_row _ _ Hwf _ _ r Hc) as [Hrep _].
    apply (rep_lookup _ _ _ _ _ Hn) in Hrep as (? & ? & E).
    by eapply lw_fresh.
  - rewrite (lw_nochunk _ _ Hwf) in Hn by done. by apply not_elem_of_nil in Hn.
Qed.

Lemma links_disjoint R H cp r cp' r' n n' :
  links_wf R H → n ∈ H cp r → n' ∈ H cp' r' → n_loc n = n_loc n' →
  cp = cp' ∧ r = r'.
Proof.
  intros Hwf Hn Hn' Heq.
  destruct (chunks R !! cp) as [c|] eqn:Hc.
  2:{ rewrite (lw_nochunk _ _ Hwf) in Hn by done. by apply not_elem_of_nil in Hn. }
  destruct (chunks R !! cp') as [c'|] eqn:Hc'.
  2:{ rewrite (lw_nochunk _ _ Hwf) in Hn' by done. by apply not_elem_of_nil in Hn'. }
  exact (rep_inj _ _ _ _ _ _ _ _ _ _ _ (lw_rep _ _ _ _ r Hwf Hc)
           (lw_rep _ _ _ _ r' Hwf Hc') Hn Hn' Heq).
Qed.

(** The one way a pointer operation changes the heap: row [r] of chunk [cp]
    gets the list [ns'], everything outside the old list is kept. *)
Lemma links_update R H R' cp c c' r ns' :
  links_wf R H →
  chunks R !! cp = Some c →
  chunks R' = <[cp := c']> (chunks R) →
  sc_table c' = sc_table c →
  (∀ r', r' ≠ r → version_pointers c' !! r' = version_pointers c !! r') →
  version_pointers c' !! r = head_loc ns' →
  (∀ l, l < next_version R → l ∉ n_loc <$> H cp r → versions R' !! l = versions R !! l) →
  next_version R ≤ next_version R' →
  (∀ l vi, versions R' !! l = Some vi → l < next_version R') →
  rep (versions R') (sc_table c) (InChunk cp r) ns' →
  StronglySorted newer ns' →
  links_wf R' (hupd H cp r ns').
Proof.
  intros Hwf Hc Hcs Htbl Hvp Hhd Hvs Hnv Hfresh Hrep Hs.
  assert (∀ cp0 c0 r0, chunks R !! cp0 = Some c0 → ¬ (cp0 = cp ∧ r0 = r) →
    rep (versions R') (sc_table c0) (InChunk cp0 r0) (H cp0 r0)) as Hother.
  { intros cp0 c0 r0 Hc0 Hne. eapply rep_ext; [|by eapply lw_rep].
    intros n Hn. apply Hvs; [by eapply links_fresh|].
    intros (m & Heq & Hm)%list_elem_of_fmap. apply Hne.
    by eapply links_disjoint. }
  split.
  - intros cp0 c0 r0 Hc0. rewrite Hcs in Hc0. unfold hupd.
    destruct (decide (cp0 = cp)) as [->|Hne].
    + rewrite lookup_insert_eq in Hc0. injection Hc0 as <-. rewrite Htbl.
      case_decide as Hd.
      * destruct Hd as [_ ->]. auto.
      * split; [by apply Hother|]. rewrite Hvp by naive_solver. by eapply lw_pointer.
    + rewrite lookup_insert_ne in Hc0 by done. rewrite decide_False by naive_solver.
      split; [apply Hother; naive_solver|by eapply lw_pointer].
  - intros cp0 r0 Hc0. rewrite Hcs in Hc0. unfold hupd.
    destruct (decide (cp0 = cp)) as [->|Hne]; [by rewrite lookup_insert_eq in Hc0|].
    rewrite lookup_insert_ne in Hc0 by done. rewrite decide_False by naive_solver.
    by eapply lw_nochunk.
  - intros cp0 r0. unfold hupd. case_decide; [done|by eapply lw_sorted].
  - done.
Qed.

(** ** Pointer operations *)

(** Re-hanging the first node of a list. *)
Lemma rep_relink vs tbl lk lk' n ns :
  rep vs tbl lk (n :: ns) → n_loc n ∉ n_loc <$> ns →
  rep (<[n_loc n := node_vi tbl lk' n (head_loc ns)]> vs) tbl lk' (n :: ns).
Proof.
  intros [Hn Hns] Hnot. split; [by rewrite lookup_insert_eq|].
  eapply rep_ext; [|exact Hns]. intros m Hm. rewrite lookup_insert_ne; [done|].
  intros Heq. apply Hnot. rewrite Heq. by apply list_elem_of_fmap_2.
Qed.

Definition relink_versions (vs : gmap nat VersionInformation) tbl lk (ns : list vnode) :=
  match ns with
  | [] => vs
  | n :: ns' => <[n_loc n := node_vi tbl lk n (head_loc ns')]> vs
  end.

Lemma relink_spec R tbl lk lk' ns :
  rep (versions R) tbl lk ns →
  relink R (head_loc ns) (link_chunk lk') (link_prev lk')
  = Ok (set_versions R (relink_versions (versions R) tbl lk' ns)).
Proof.
  destruct ns as [|n ns]; simpl.
  - intros _. by destruct R.
  - intros [Hn _]. unfold update_version. by rewrite Hn.
Qed.

Lemma relink_versions_rep vs tbl lk lk' ns :
  rep vs tbl lk ns → NoDup (n_loc <$> ns) → rep (relink_versions vs tbl lk' ns) tbl lk' ns.
Proof.
  destruct ns as [|n ns]; [done|]. intros Hrep Hnd. simpl relink_versions.
  eapply rep_relink; [done|]. by apply NoDup_cons in Hnd as [].
Qed.

Lemma relink_versions_other vs tbl lk ns l :
  l ∉ n_loc <$> ns → relink_versions vs tbl lk ns !! l = vs !! l.
Proof.
  destruct ns as [|n ns]; [done|]. simpl. intros Hl. rewrite lookup_insert_ne; [done|].
  intros <-. apply Hl. by left.
Qed.

Lemma relink_versions_dom vs tbl lk lk' ns l vi :
  rep vs tbl lk ns → relink_versions vs tbl lk' ns !! l = Some vi → ∃ vi', vs !! l = Some vi'.
Proof.
  destruct ns as [|n ns]; [eauto|]. intros [Hn _]. simpl.
  destruct (decide (l = n_loc n)) as [->|]; [eauto|]. rewrite lookup_insert_ne by done. eauto.
Qed.

(** The conflict test of [Delete] and [Update]: the newest version is not the
    uncommitted work of another transaction. *)
Definition conflict_free (tx : Transaction) (ns : list vnode) : Prop :=
  match ns with
  | n :: _ => n_num n = transaction_id tx ∨ (n_num n < TRANSACTION_ID_START)%Z
  | [] => True
  end.

Lemma sorted_push tx l v ns :
  conflict_free tx ns → (TRANSACTION_ID_START ≤ transaction_id tx)%Z →
  StronglySorted newer ns → (∀ n, n ∈ ns → n_loc n < l) →
  StronglySorted newer (mkNode l (transaction_id tx) v :: ns).
Proof.
  intros Hcf Hid Hs Hlt. constructor; [done|].
  destruct ns as [|h ns]; [constructor|]. simpl in Hcf.
  assert (newer (mkNode l (transaction_id tx) v) h) as Hh.
  { unfold newer; simpl. specialize (Hlt h (list_elem_of_here _ _)). lia. }
  constructor; [done|]. apply StronglySorted_inv in Hs as [_ Hs].
  eapply Forall_impl; [done|]. eauto using newer_trans.
Qed.

Section operations.
Context (R : rows) (H : hist) (cp : nat) (c : StorageChunk) (r : nat).
Context (Hwf : links_wf R H) (Hc : chunks R !! cp = Some c).

(** A version saved by [tx] becomes the newest node of the row. *)
Lemma PushTuple_spec tx fl tbl t :
  tables R !! sc_table c = Some tbl →
  table_serializer (dt_types tbl) (dt_serializer tbl) →
  length (columns c) = length (dt_types tbl) →
  row_at (columns c) r = Some t →
  conflict_free tx (H cp r) → (TRANSACTION_ID_START ≤ transaction_id tx)%Z →
  ∃ R', PushTuple tx R fl r cp = Ok (CreateEntry tx fl (UVersion (next_version R)), R') ∧
    chunks R' = <[cp := set_version_pointer c r (Some (next_version R))]> (chunks R) ∧
    tables R' = tables R ∧ next_version R' = S (next_version R) ∧ next_chunk R' = next_chunk R ∧
    links_wf R' (hupd H cp r (mkNode (next_version R) (transaction_id tx) (Some t) :: H cp r)).
Proof.
  intros Ht Hser Hlen Hrow Hcf Hid.
  set (l := next_version R).
  set (vi := mkVI (sc_table c) (Some cp) (PrevEntry r) (head_loc (H cp r)) (transaction_id tx) (Some t)).
  set (R1 := set_chunk (alloc_version R vi) cp (set_version_pointer c r (Some l))).
  pose proof (lw_rep _ _ _ _ r Hwf Hc) as Hrep.
  pose proof (lw_NoDup _ _ _ _ r Hwf Hc) as Hnd.
  assert (l ∉ n_loc <$> H cp r) as Hl.
  { intros (n & E & Hn)%list_elem_of_fmap. pose proof (links_fresh _ _ _ _ _ Hwf Hn). lia. }
  assert (rep (versions R1) (sc_table c) (InChunk cp r) (H cp r)) as Hrep1.
  { eapply rep_ext; [|done]. intros n Hn. simpl. rewrite lookup_insert_ne; [done|].
    intros E. apply Hl. unfold l. rewrite E. by apply list_elem_of_fmap_2. }
  eexists. split.
  { unfold PushTuple. rewrite Hc. simpl. rewrite Ht. simpl.
    rewrite (Serialize_row _ _ _ _ _ Hser Hlen Hrow). simpl.
    rewrite (lw_pointer _ _ _ _ r Hwf Hc).
    pose proof (relink_spec R1 _ _ (Below l) _ Hrep1) as Hre.
    cbn [link_chunk link_prev] in Hre. unfold R1, vi, l in Hre. rewrite Hre. done. }
  split; [done|]. split; [done|]. split; [done|]. split; [done|].
  eapply links_update; try done.
  - intros r' Hr'. simpl. by rewrite lookup_insert_ne.
  - simpl. by rewrite lookup_insert_eq.
  - intros l' Hl' Hnot. simpl. rewrite relink_versions_other by done.
    rewrite lookup_insert_ne by lia. done.
  - simpl. lia.
  - intros l' vi'. simpl. intros Hl'.
    eapply relink_versions_dom in Hl' as [vi'' Hl']; [|exact Hrep1].
    simpl in Hl'. destruct (decide (l' = l)) as [->|]; [unfold l; lia|].
    rewrite lookup_insert_ne in Hl' by done. apply (lw_fresh _ _ Hwf) in Hl'. lia.
  - simpl. split.
    + rewrite relink_versions_other by done. by rewrite lookup_insert_eq.
    + eapply relink_versions_rep; [exact Hrep1|done].
  - apply sorted_push; try done; [by eapply lw_sorted|].
    intros n Hn. by eapply links_fresh.
Qed.

(** The "deleted" version that precedes an inserted row. *)
Lemma PushDeletedEntry_spec tx :
  H cp r = [] →
  ∃ R', PushDeletedEntry tx R r cp
          = Ok (CreateEntry tx INSERT_TUPLE (UVersion (next_version R)), R') ∧
    chunks R' = <[cp := set_version_pointer c r (Some (next_version R))]> (chunks R) ∧
    tables R' = tables R ∧ next_version R' = S (next_version R) ∧ next_chunk R' = next_chunk R ∧
    links_wf R' (hupd H cp r [mkNode (next_version R) (transaction_id tx) None]).
Proof.
  intros Hnil. unfold PushDeletedEntry. rewrite Hc. simpl.
  eexists. split; [done|]. split; [done|]. split; [done|]. split; [done|]. split; [done|].
  eapply links_update; try done.
  - intros r' Hr'. simpl. by rewrite lookup_insert_ne.
  - simpl. by rewrite lookup_insert_eq.
  - intros l Hl _. simpl. by rewrite lookup_insert_ne by lia.
  - simpl. lia.
  - intros l vi. simpl. destruct (decide (l = next_version R)) as [->|]; [lia|].
    rewrite lookup_insert_ne by done. intros Hl%(lw_fresh _ _ Hwf). lia.
  - simpl. by rewrite lookup_insert_eq.
  - repeat constructor.
Qed.

(** The row after the newest version has been moved back. *)
Definition undo_row (old : option tuple) : StorageChunk :=
  match old with
  | None => set_deleted c r true
  | Some t => set_columns (set_deleted c r false) (set_row (columns c) r t)
  end.

Lemma head_removed c' n ns :
  H cp r = n :: ns → sc_table c' = sc_table c →
  version_pointers c' = version_pointers c →
  let R1 := set_chunk R cp (set_version_pointer c' r (head_loc ns)) in
  let R' := set_versions R1 (relink_versions (versions R) (sc_table c) (InChunk cp r) ns) in
  relink R1 (head_loc ns) (Some cp) (PrevEntry r) = Ok R' ∧ links_wf R' (hupd H cp r ns).
Proof.
  intros Hns Htbl Hvp R1 R'.
  pose proof (lw_rep _ _ _ _ r Hwf Hc) as Hrep. rewrite Hns in Hrep.
  pose proof (lw_NoDup _ _ _ _ r Hwf Hc) as Hnd. rewrite Hns in Hnd. csimpl in Hnd.
  apply NoDup_cons in Hnd as [Hnot Hnd]. destruct Hrep as [Hn Hrep].
  split; [by eapply (relink_spec R1 _ _ (InChunk cp r))|].
  eapply links_update; try done.
  - intros r' Hr'. simpl. rewrite <- Hvp. destruct (head_loc ns).
    + by rewrite lookup_insert_ne. + by rewrite lookup_delete_ne.
  - simpl. destruct (head_loc ns).
    + by rewrite lookup_insert_eq. + by rewrite lookup_delete_eq.
  - intros l Hl Hin. simpl. apply relink_versions_other. rewrite Hns in Hin.
    csimpl in Hin. set_solver.
  - intros l vi. simpl. intros Hl.
    eapply relink_versions_dom in Hl as [vi' Hl]; [|exact Hrep].
    by eapply (lw_fresh _ _ Hwf).
  - eapply relink_versions_rep; done.
  - pose proof (lw_sorted _ _ Hwf cp r) as Hs. rewrite Hns in Hs.
    by apply StronglySorted_inv in Hs as [].
Qed.

Lemma StorageChunk_Undo_spec tbl n ns :
  tables R !! sc_table c = Some tbl →
  table_serializer (dt_types tbl) (dt_serializer tbl) →
  length (columns c) = length (dt_types tbl) →
  (∀ t, n_old n = Some t → well_typed (dt_types tbl) t) →
  H cp r = n :: ns →
  ∃ R', StorageChunk_Undo R cp (n_loc n) = Ok R' ∧
    chunks R' = <[cp := set_version_pointer (undo_row (n_old n)) r (head_loc ns)]> (chunks R) ∧
    tables R' = tables R ∧ next_version R' = next_version R ∧ next_chunk R' = next_chunk R ∧
    links_wf R' (hupd H cp r ns).
Proof.
  intros Ht Hser Hlen Hwt Hns.
  pose proof (lw_rep _ _ _ _ r Hwf Hc) as Hrep. rewrite Hns in Hrep. destruct Hrep as [Hn _].
  destruct (head_removed (undo_row (n_old n)) n ns) as [Hrelink Hl]; [done|by destruct n, n_old|by destruct n, n_old|].
  eexists. split; [|split; [|split; [|split; [|split; [|exact Hl]]]]]; try done.
  unfold StorageChunk_Undo. rewrite Hn. simpl. rewrite Hc. simpl.
  rewrite (lw_pointer _ _ _ _ r Hwf Hc), Hns.
  rewrite bool_decide_eq_true_2 by done. simpl.
  destruct (n_old n) as [t|]; simpl in *; [|exact Hrelink].
  rewrite Ht. simpl. rewrite (Deserialize_row _ _ _ _ _ Hser Hlen) by auto. exact Hrelink.
Qed.

Lemma StorageChunk_Cleanup_spec n ns :
  H cp r = n :: ns →
  ∃ R', StorageChunk_Cleanup R cp (n_loc n) = Ok R' ∧
    chunks R' = <[cp := set_version_pointer c r (head_loc ns)]> (chunks R) ∧
    tables R' = tables R ∧ next_version R' = next_version R ∧ next_chunk R' = next_chunk R ∧
    links_wf R' (hupd H cp r ns).
Proof.
  intros Hns.
  pose proof (lw_rep _ _ _ _ r Hwf Hc) as Hrep. rewrite Hns in Hrep. destruct Hrep as [Hn _].
  destruct (head_removed c n ns) as [Hrelink Hl]; [done..|].
  eexists. split; [|split; [|split; [|split; [|split; [|exact Hl]]]]]; try done.
  unfold StorageChunk_Cleanup. rewrite Hn. simpl. rewrite Hc. simpl. exact Hrelink.
Qed.

Lemma rep_unlink_last vs tbl lk ns m n :
  rep vs tbl lk (ns ++ [m; n]) → NoDup (n_loc <$> (ns ++ [m; n])) →
  rep (<[n_loc m := node_vi tbl (match last ns with Some k => Below (n_loc k) | None => lk end) m None]> vs)
    tbl lk (ns ++ [m]).
Proof.
  revert lk. induction ns as [|k ns IH]; intros lk; csimpl.
  - intros _ _. by rewrite lookup_insert_eq.
  - intros [Hk Hrep] Hnd. apply NoDup_cons in Hnd as [Hnot Hnd].
    assert (n_loc m ≠ n_loc k) as Hmk.
    { intros E. apply Hnot. rewrite <- E, fmap_app. csimpl. set_solver. }
    split.
    + rewrite lookup_insert_ne by done. rewrite Hk. f_equal. f_equal. by destruct ns.
    + apply IH in Hrep; [|done]. destruct ns as [|k' ns]; [done|]. csimpl in *.
      by destruct (last (k' :: ns)) eqn:E; [|apply last_None in E].
Qed.

(** Removing the oldest node of a row that has newer ones. *)
Lemma unlink_version_spec ns m n :
  H cp r = ns ++ [m; n] →
  ∃ R', unlink_version R (n_loc n) = Ok R' ∧ chunks R' = chunks R ∧
    tables R' = tables R ∧ next_version R' = next_version R ∧ next_chunk R' = next_chunk R ∧
    links_wf R' (hupd H cp r (ns ++ [m])).
Proof.
  intros Hns.
  pose proof (lw_rep _ _ _ _ r Hwf Hc) as Hrep. rewrite Hns in Hrep.
  pose proof (lw_NoDup _ _ _ _ r Hwf Hc) as Hnd. rewrite Hns in Hnd.
  assert (versions R !! n_loc n = Some (node_vi (sc_table c) (Below (n_loc m)) n None)) as Hn.
  { pose proof Hrep as Hx. change (ns ++ [m; n]) with (ns ++ [m] ++ [n]) in Hx.
    rewrite app_assoc in Hx. apply rep_app in Hx. by rewrite last_snoc in Hx. }
  pose proof Hrep as Hm. apply rep_app in Hm.
  eexists. split.
  { unfold unlink_version. rewrite Hn. simpl. unfold update_version. rewrite Hm. simpl. done. }
  split; [done|]. split; [done|]. split; [done|]. split; [done|].
  eapply links_update; try done; simpl.
  - by rewrite insert_id.
  - rewrite (lw_pointer _ _ _ _ r Hwf Hc), Hns. by destruct ns.
  - intros l Hl Hin. rewrite lookup_insert_ne; [done|]. intros <-. apply Hin.
    rewrite Hns, fmap_app. csimpl. set_solver.
  - intros l vi. destruct (decide (l = n_loc m)) as [->|].
    + intros _. by eapply (lw_fresh _ _ Hwf).
    + rewrite lookup_insert_ne by done. by apply (lw_fresh _ _ Hwf).
  - by eapply rep_unlink_last.
  - pose proof (lw_sorted _ _ Hwf cp r) as Hs. rewrite Hns in Hs.
    change (ns ++ [m; n]) with (ns ++ [m] ++ [n]) in Hs. rewrite app_assoc in Hs.
    by apply StronglySorted_app_1_l in Hs.
Qed.

Lemma rep_set_number vs tbl lk ns1 n ns2 num :
  rep vs tbl lk (ns1 ++ n :: ns2) → NoDup (n_loc <$> (ns1 ++ n :: ns2)) →
  ∃ vi, vs !! n_loc n = Some vi ∧
    rep (<[n_loc n := set_version_number num vi]> vs) tbl lk
      (ns1 ++ mkNode (n_loc n) num (n_old n) :: ns2).
Proof.
  intros Hrep Hnd. pose proof Hrep as Hn. apply rep_app in Hn. eexists. split; [exact Hn|].
  revert lk Hrep Hn Hnd. induction ns1 as [|k ns1 IH]; intros lk; csimpl.
  - intros [_ Hrep] _ [Hnot _]%NoDup_cons. rewrite lookup_insert_eq. split; [done|].
    eapply rep_ext; [|exact Hrep]. intros m Hm. rewrite lookup_insert_ne; [done|].
    intros E. apply Hnot. rewrite E. by apply list_elem_of_fmap_2.
  - intros [Hk Hrep] Hn [Hnot Hnd]%NoDup_cons.
    assert (n_loc n ≠ n_loc k) as Hnk.
    { intros E. apply Hnot. rewrite <- E, fmap_app. csimpl. set_solver. }
    split.
    + rewrite lookup_insert_ne by done. rewrite Hk. f_equal. f_equal. by destruct ns1.
    + pose proof Hrep as Hn'. apply rep_app in Hn'.
      specialize (IH (Below (n_loc k)) Hrep Hn' Hnd). rewrite Hn in Hn'.
      injection Hn' as Hlk1 Hlk2. unfold set_version_number, node_vi in *. simpl in *.
      by rewrite Hlk1, Hlk2.
Qed.

(** Stamping a node with a commit number. *)
Lemma set_version_number_spec ns1 n ns2 num :
  H cp r = ns1 ++ n :: ns2 →
  StronglySorted newer (ns1 ++ mkNode (n_loc n) num (n_old n) :: ns2) →
  ∃ R', update_version R (n_loc n) (set_version_number num) = Ok R' ∧ chunks R' = chunks R ∧
    tables R' = tables R ∧ next_version R' = next_version R ∧ next_chunk R' = next_chunk R ∧
    links_wf R' (hupd H cp r (ns1 ++ mkNode (n_loc n) num (n_old n) :: ns2)).
Proof.
  intros Hns Hs.
  pose proof (lw_rep _ _ _ _ r Hwf Hc) as Hrep. rewrite Hns in Hrep.
  pose proof (lw_NoDup _ _ _ _ r Hwf Hc) as Hnd. rewrite Hns in Hnd.
  destruct (rep_set_number _ _ _ _ _ _ num Hrep Hnd) as (vi & Hvi & Hrep').
  eexists. split; [unfold update_version; by rewrite Hvi|].
  split; [done|]. split; [done|]. split; [done|]. split; [done|].
  eapply links_update; try done; simpl.
  - by rewrite insert_id.
  - rewrite (lw_pointer _ _ _ _ r Hwf Hc), Hns. by destruct ns1.
  - intros l Hl Hin. rewrite lookup_insert_ne; [done|]. intros <-. apply Hin.
    rewrite Hns, fmap_app. csimpl. set_solver.
  - intros l vi'. destruct (decide (l = n_loc n)) as [->|].
    + intros _. by eapply (lw_fresh _ _ Hwf).
    + rewrite lookup_insert_ne by done. by apply (lw_fresh _ _ Hwf).
Qed.
End operations.

(** ** Chunk lists *)

(** What a chunk list depends on. *)
Definition same_place (c c' : StorageChunk) : Prop :=
  sc_table c' = sc_table c ∧ sc_start c' = sc_start c ∧ sc_next c' = sc_next c ∧
  sc_count c' = sc_count c.

Lemma chunk_list_wf_ext R R' tp start tail cps :
  (∀ cp c, cp ∈ cps → chunks R !! cp = Some c →
     ∃ c', chunks R' !! cp = Some c' ∧ same_place c c') →
  chunk_list_wf R tp start tail cps → chunk_list_wf R' tp start tail cps.
Proof.
  revert start. induction cps as [|cp cps IH]; simpl; [done|].
  intros start Hext (c & Hc & Ht & Hs & Hn & Hrest).
  destruct (Hext cp c) as (c' & Hc' & Et & Es & En & Ec); [left|done|].
  exists c'. rewrite Et, Es, En, Ec. repeat split; try done.
  destruct cps; [done|]. destruct Hrest as [? Hrest]. split; [done|].
  apply IH; [|done]. intros cp' c0 Hin. apply Hext. by right.
Qed.

Lemma chunk_list_lookup R tp start tail cps cp :
  chunk_list_wf R tp start tail cps → cp ∈ cps →
  ∃ c, chunks R !! cp = Some c ∧ sc_table c = tp ∧ start ≤ sc_start c.
Proof.
  revert start. induction cps as [|cp' cps IH]; simpl; [done|].
  intros start (c & Hc & Ht & Hs & _ & Hrest) [->|Hin]%elem_of_cons.
  - exists c. repeat split; try done. lia.
  - destruct cps as [|cp'' cps]; [by apply not_elem_of_nil in Hin|].
    destruct Hrest as [_ Hrest]. destruct (IH _ Hrest Hin) as (c' & Hc' & Ht' & Hs').
    exists c'. repeat split; try done. lia.
Qed.

Lemma chunk_list_NoDup R tp start tail cps :
  chunk_list_wf R tp start tail cps → NoDup cps.
Proof.
  revert start. induction cps as [|cp cps IH]; simpl; [done|].
  intros start (c & Hc & Ht & Hs & _ & Hrest).
  destruct cps as [|cp' cps]; [apply NoDup_singleton|].
  destruct Hrest as [Hfull Hrest]. constructor; [|by eapply IH].
  intros Hin. destruct (chunk_list_lookup _ _ _ _ _ _ Hrest Hin) as (c' & Hc' & _ & Hle).
  rewrite Hc in Hc'. injection Hc' as <-.
  assert (0 < STORAGE_CHUNK_SIZE) by (apply Nat.ltb_lt; vm_compute; reflexivity). lia.
Qed.

Lemma chunk_list_length R tp start tail cps :
  chunk_list_wf R tp start tail cps → length cps ≤ size (chunks R).
Proof.
  intros Hl. pose proof (chunk_list_NoDup _ _ _ _ _ Hl) as Hnd.
  rewrite <- (size_list_to_set (C:=gset nat)) by done. rewrite <- (size_dom (D:=gset nat)).
  apply subseteq_size. intros cp Hcp%elem_of_list_to_set.
  destruct (chunk_list_lookup _ _ _ _ _ _ Hl Hcp) as (c & Hc & _). apply elem_of_dom. eauto.
Qed.

(** ** Changing one row of a chunk *)

Section data_update.
Context (R R' : rows) (H : hist) (cp : nat) (c c' : StorageChunk) (r : nat) (ns' : list vnode).
Context (Hdw : data_wf R H) (Hc : chunks R !! cp = Some c).
Context (Hchunks : chunks R' = <[cp := c']> (chunks R)) (Htables : tables R' = tables R).
Context (Hnext : next_chunk R' = next_chunk R).
Context (Hplace : same_place c c') (Hcols : length (columns c') = length (columns c)).
Context (Hr : r < sc_count c).

Lemma data_update :
  (∀ tbl r', tables R !! sc_table c = Some tbl → r' < sc_count c →
     ∃ t, row_at (columns c') r' = Some t ∧ well_typed (dt_types tbl) t) →
  (∀ tbl n t, tables R !! sc_table c = Some tbl → n ∈ ns' → n_old n = Some t →
     well_typed (dt_types tbl) t) →
  (∀ r', r' ∈ deleted c' → r' = r ∨ r' ∈ deleted c) →
  data_wf R' (hupd H cp r ns').
Proof.
  destruct Hplace as (Et & Es & En & Ec).
  intros Hrows Holds Hdel. constructor; rewrite ?Hchunks, ?Htables, ?Hnext.
  - intros cp' c0 [[<- <-]|[Hne Hc0]]%lookup_insert_Some; [|by eapply dw_table].
    rewrite Et, Hcols. by eapply dw_table.
  - intros cp' c0 tbl r' [[<- <-]|[Hne Hc0]]%lookup_insert_Some; [|by eapply dw_row].
    rewrite Et, Ec. apply Hrows.
  - intros cp' c0 tbl r' n t [[<- <-]|[Hne Hc0]]%lookup_insert_Some; unfold hupd.
    + rewrite Et. case_decide as Hd; [by apply Holds|by eapply dw_old].
    + case_decide as Hd; [naive_solver|by eapply dw_old].
  - intros cp' c0 r' [[<- <-]|[Hne Hc0]]%lookup_insert_Some; unfold hupd.
    + rewrite Ec. intros Hle. rewrite decide_False by naive_solver lia.
      destruct (dw_unused _ _ Hdw _ _ _ Hc Hle) as [Hn Hd]. split; [done|].
      intros [->|]%Hdel; [lia|done].
    + intros Hle. rewrite decide_False by naive_solver. by eapply dw_unused.
  - intros cp' c0 [[<- <-]|[Hne Hc0]]%lookup_insert_Some; [rewrite Ec|]; by eapply dw_count.
  - intros cp' c0 [[<- <-]|[Hne Hc0]]%lookup_insert_Some; by eapply dw_fresh.
  - intros tp tbl Ht. destruct (dw_list _ _ Hdw _ _ Ht) as (cps & Hhd & Hl). exists cps.
    split; [done|]. eapply chunk_list_wf_ext; [|done]. intros cp' c0 _ Hc0. rewrite Hchunks.
    destruct (decide (cp = cp')) as [<-|].
    + rewrite lookup_insert_eq. rewrite Hc in Hc0. injection Hc0 as <-. exists c'. by repeat split.
    + rewrite lookup_insert_ne by done. exists c0. by repeat split.
Qed.
End data_update.

Lemma hupd_same H cp r cp' r' : hupd H cp r (H cp r) cp' r' = H cp' r'.
Proof. unfold hupd. case_decide as Hd; [|done]. by destruct Hd as [-> ->]. Qed.

Lemma data_wf_ext R H H' : (∀ cp r, H' cp r = H cp r) → data_wf R H → data_wf R H'.
Proof.
  intros E [? ? ? ? ? ?]. constructor; try done.
  - intros cp c tbl r n t. rewrite E. eauto.
  - intros cp c r. rewrite E. eauto.
Qed.

(** Writing a chunk without touching its version pointers. *)
Lemma links_set_chunk R H cp c c' :
  links_wf R H → chunks R !! cp = Some c → sc_table c' = sc_table c →
  version_pointers c' = version_pointers c → links_wf (set_chunk R cp c') H.
Proof.
  intros [Hrow Hno Hs Hf] Hc Ht Hv. constructor; simpl; try done.
  - intros cp' c0 r [[<- <-]|[Hne Hc0]]%lookup_insert_Some; [|by apply Hrow].
    rewrite Ht, Hv. by apply Hrow.
  - intros cp' r [Hn Hne]%lookup_insert_None. by apply Hno.
Qed.

Lemma links_wf_ext R H H' : (∀ cp r, H' cp r = H cp r) → links_wf R H → links_wf R H'.
Proof.
  intros E [Hrow Hno Hs Hf]. constructor.
  - intros. rewrite E. eauto.
  - intros. rewrite E. eauto.
  - intros. rewrite E. eauto.
  - eauto.
Qed.
