(* ===== verification/DataTable.v ===== *)
(** * Data tables

    Models [src/src/storage/data_table.cpp]: a table is a list of storage
    chunks; rows are appended, deleted and updated in place while the versions
    they replace are pushed into the transaction's undo buffer; scans resolve,
    row by row, the version the transaction sees.

    Every operation runs under the lock of the chunk it touches
    and is one step here.  The indexes and column statistics
    that [Append] and [Update] maintain are reached through the interface
    [TableIndexes]. *)

From Stdlib Require Import ZArith Lia.
From stdpp Require Import base gmap list strings option numbers sorting.
From S2P Require Import Prelude Types Vector Tuple Storage Versions.

(** ** Columns *)

(** A column identifier; [COLUMN_IDENTIFIER_ROW_ID] asks for the row number. *)
Inductive column_t : Type :=
| Column (c : nat)
| COLUMN_IDENTIFIER_ROW_ID.

(** ** The structures a table keeps besides its rows *)

(** What [UniqueIndex], [Index] and [ColumnStatistics] offer to the table:
    they read the rows, they may refuse a change, they never write rows. *)
Class TableIndexes (IX : Type) : Type := {
  unique_append : IX -> Transaction -> rows -> DataChunk -> nat -> result IX;
  unique_update : IX -> Transaction -> rows -> nat -> list nat -> DataChunk -> Vector -> result IX;
  statistics_update : IX -> nat -> Vector -> IX;
  index_append : IX -> DataChunk -> nat -> result IX;
  index_update : IX -> list nat -> DataChunk -> Vector -> result IX }.

(** A table without indexes and statistics. *)
#[export] Instance no_indexes : TableIndexes unit := {
  unique_append _ _ _ _ _ := Ok tt;
  unique_update _ _ _ _ _ _ _ := Ok tt;
  statistics_update _ _ _ := tt;
  index_append _ _ _ := Ok tt;
  index_update _ _ _ _ := Ok tt }.

(** ** Constraints *)

Inductive Constraint : Type :=
| CNotNull (index : nat)
| CCheck (expression : DataChunk -> result Vector)
| CDummy | CPrimaryKey | CForeignKey | CUnique
| CInvalid.

Record TableCatalogInfo : Type := mkTableCatalogInfo {
  tc_columns : list TypeId;
  tc_constraints : list Constraint }.

(** A row of the CHECK result that is neither NULL nor true. *)
Definition check_fails (result : Vector) (ik : nat * nat) : bool :=
  negb (bool_decide (ik.1 ∈ v_null result)) &&
  match v_data result !! ik.1 with Some (Num _ z) => (z =? 0)%Z | _ => false end.

Definition VerifyConstraint (chunk : DataChunk) (c : Constraint) : result unit :=
  match c with
  | CNotNull index =>
    v ← deref (dc_data chunk !! index);
    if HasNull v then Throw ConstraintException else Ok tt
  | CCheck expression =>
    match expression chunk with
    | Ok v => if existsb (check_fails v) (exec_indexes (v_sel v) (v_count v) 0)
              then Throw ConstraintException else Ok tt
    | Throw _ => Throw ConstraintException
    | Undef => Undef
    end
  | CDummy | CPrimaryKey | CForeignKey | CUnique => Ok tt
  | CInvalid => Throw NotImplementedException
  end.

Fixpoint VerifyConstraints (cs : list Constraint) (chunk : DataChunk) : result unit :=
  match cs with
  | [] => Ok tt
  | c :: cs' => _ ← VerifyConstraint chunk c; VerifyConstraints cs' chunk
  end.

(** ** Creating a table *)

(** [DataTable::DataTable(storage, schema, table, types)] *)
Definition NewDataTable (R : rows) (tp : nat) (schema table : string) (types : list TypeId)
    : result rows :=
  sizes ← mapM GetTypeIdSize types;
  serializer ← TupleSerializer_Initialize types [];
  let cp := next_chunk R in
  let t := mkDataTable schema table types serializer (sum_list sizes) (accumulate sizes 0) 0 cp cp in
  mret (mkRows (versions R) (<[cp := NewStorageChunk tp types 0]> (chunks R))
          (<[tp := t]> (tables R)) (next_version R) (S cp)).

(** ** Finding a row *)

(** [DataTable::GetChunk(row_number)]: the walk along the chunk list.  The
    fuel is the number of chunks, which bounds the length of the list. *)
Fixpoint GetChunk_from (fuel : nat) (R : rows) (chunk : option nat) (row_number : nat) : result nat :=
  match chunk with
  | None => Throw OutOfRangeException
  | Some cp =>
    match fuel with
    | 0 => Undef
    | S fuel' =>
      c ← deref (chunks R !! cp);
      if (sc_start c <=? row_number) && (row_number <? sc_start c + sc_count c) then Ok cp
      else GetChunk_from fuel' R (sc_next c) row_number
    end
  end.

Definition GetChunk (R : rows) (tp row_number : nat) : result nat :=
  t ← deref (tables R !! tp);
  GetChunk_from (size (chunks R)) R (Some (dt_chunk_list t)) row_number.

(** ** Changing rows *)

Record tstate (IX : Type) : Type := mkTState {
  st_tx : Transaction;
  st_rows : rows;
  st_ix : IX }.
Arguments mkTState {IX}.
Arguments st_tx {IX}.
Arguments st_rows {IX}.
Arguments st_ix {IX}.

(** The row number held by a cell of a [POINTER] vector. *)
Definition row_id (v : Vector) (i : nat) : result nat :=
  c ← deref (v_data v !! i);
  match c with Num _ z => if (z <? 0)%Z then Undef else Ok (Z.to_nat z) | Str _ => Undef end.

Section table.
Context {IX : Type} `{!TableIndexes IX}.

Definition push_state (f : Transaction -> rows -> result (Transaction * rows)) : M (tstate IX) unit :=
  fun s => match f (st_tx s) (st_rows s) with
           | Ok (tx, R) => (Ok tt, mkTState tx R (st_ix s))
           | Throw e => (Throw e, s)
           | Undef => (Undef, s)
           end.

Definition set_rows (R : rows) : M (tstate IX) unit :=
  modify_M (fun s => mkTState (st_tx s) R (st_ix s)).
Definition set_ix (ix : IX) : M (tstate IX) unit :=
  modify_M (fun s => mkTState (st_tx s) (st_rows s) ix).

(** Copying rows [from .. from+n) of a chunk of data into the columns of a
    storage chunk, starting at row [at_]. *)
Fixpoint copy_columns (cols : list column) (data : list Vector) (from n at_ : nat)
    : result (list column) :=
  match data, cols with
  | v :: data', col :: cols' =>
    cs ← CopyToStorage v from n;
    rest ← copy_columns cols' data' from n at_;
    mret (write_block col at_ cs :: rest)
  | [], _ => Ok cols
  | _ :: _, [] => Undef
  end.

(** Appending [n] rows of [chunk], from row [from] on, at the end of the
    storage chunk [cp]. *)
Definition append_rows (tx : Transaction) (R : rows) (cp : nat) (chunk : DataChunk) (from n : nat)
    : result (Transaction * rows) :=
  c ← deref (chunks R !! cp);
  '(tx, R) ← PushDeletedEntries tx R (sc_count c) n cp;
  c ← deref (chunks R !! cp);
  cols ← copy_columns (columns c) (dc_data chunk) from n (sc_count c);
  mret (tx, set_chunk R cp (set_count (set_columns c cols) (sc_count c + n))).

(** Hanging a new chunk at the end of the list. *)
Definition add_chunk (R : rows) (tp last_chunk : nat) : result (nat * rows) :=
  c ← deref (chunks R !! last_chunk);
  t ← deref (tables R !! tp);
  _ ← assert_ (bool_decide (sc_next c = None));
  let cp := next_chunk R in
  let c' := mkStorageChunk (sc_table c) (deleted c) (version_pointers c) (columns c)
              (sc_count c) (sc_start c) (Some cp) in
  let t' := mkDataTable (dt_schema t) (dt_table t) (dt_types t) (dt_serializer t)
              (dt_tuple_size t) (dt_accumulative_tuple_size t) (dt_cardinality t)
              (dt_chunk_list t) cp in
  mret (cp, mkRows (versions R)
              (<[cp := NewStorageChunk tp (dt_types t) (sc_start c + sc_count c)]>
                 (<[last_chunk := c']> (chunks R)))
              (<[tp := t']> (tables R)) (next_version R) (S cp)).

(** The storage part of [Append]: fill the last chunk, put the remainder
    into a new one. *)
Definition append_storage (tp : nat) (chunk : DataChunk) (tx : Transaction) (R : rows)
    : result (Transaction * rows) :=
  t ← deref (tables R !! tp);
  let last_chunk := dt_tail_chunk t in
  c ← deref (chunks R !! last_chunk);
  let current_count := Nat.min (STORAGE_CHUNK_SIZE - sc_count c) (chunk_size chunk) in
  '(tx, R) ← (if 0 <? current_count then append_rows tx R last_chunk chunk 0 current_count
              else Ok (tx, R));
  if negb (current_count =? chunk_size chunk) then
    '(new_chunk, R) ← add_chunk R tp last_chunk;
    append_rows tx R new_chunk chunk current_count (chunk_size chunk - current_count)
  else Ok (tx, R).

Fixpoint update_statistics (ix : IX) (i : nat) (data : list Vector) : IX :=
  match data with
  | [] => ix
  | v :: data' => update_statistics (statistics_update ix i v) (S i) data'
  end.

(** [DataTable::Append(table, context, chunk)] *)
Definition Append (tp : nat) (info : TableCatalogInfo) (chunk : DataChunk) : M (tstate IX) unit :=
  if chunk_size chunk =? 0 then mret () else
  if negb (column_count chunk =? length (tc_columns info)) then throw_M CatalogException else
  _ ← lift_M (VerifyConstraints (tc_constraints info) chunk);
  s ← get_M;
  t ← lift_M (deref (tables (st_rows s) !! tp));
  c ← lift_M (deref (chunks (st_rows s) !! dt_tail_chunk t));
  _ ← lift_M (assert_ (bool_decide (sc_next c = None)));
  ix ← lift_M (unique_append (st_ix s) (st_tx s) (st_rows s) chunk (sc_start c + sc_count c));
  let ix := update_statistics ix 0 (take (length (dt_types t)) (dc_data chunk)) in
  _ ← set_ix ix;
  ix ← lift_M (index_append ix chunk (sc_start c + sc_count c));
  _ ← set_ix ix;
  push_state (append_storage tp chunk).

(** The write-write conflict test shared by [Delete] and [Update]. *)
Definition has_conflict (tx : Transaction) (R : rows) (c : StorageChunk) (id : nat) : result bool :=
  match version_pointers c !! id with
  | None => Ok false
  | Some l =>
    version ← deref (versions R !! l);
    mret ((TRANSACTION_ID_START <=? version_number version)%Z &&
          negb (version_number version =? transaction_id tx)%Z)
  end.

(** The row [ids\[i\] - chunk->start], asserted to lie in the chunk. *)
Definition chunk_row (c : StorageChunk) (ids : Vector) (i : nat) : result nat :=
  id ← row_id ids i;
  _ ← assert_ ((sc_start c <=? id) && (id <? sc_start c + sc_count c));
  mret (id - sc_start c).

(** The body of both loops: test for a conflict, save the current tuple. *)
Definition save_version (flags : UndoFlags) (cp id : nat) : M (tstate IX) unit :=
  s ← get_M;
  c ← lift_M (deref (chunks (st_rows s) !! cp));
  conflict ← lift_M (has_conflict (st_tx s) (st_rows s) c id);
  if conflict : bool then throw_M TransactionException
  else push_state (fun tx R => PushTuple tx R flags id cp).

Definition delete_row (cp : nat) (ids : Vector) (ik : nat * nat) : M (tstate IX) unit :=
  s ← get_M;
  c ← lift_M (deref (chunks (st_rows s) !! cp));
  id ← lift_M (chunk_row c ids ik.1);
  _ ← save_version DELETE_TUPLE cp id;
  s ← get_M;
  c ← lift_M (deref (chunks (st_rows s) !! cp));
  set_rows (set_chunk (st_rows s) cp (set_deleted c id true)).

(** [DataTable::Delete(table, context, row_identifiers)] *)
Definition Delete (tp : nat) (ids : Vector) : M (tstate IX) unit :=
  if negb (bool_decide (v_type ids = T_POINTER)) then throw_M InvalidTypeException else
  if v_count ids =? 0 then mret () else
  s ← get_M;
  first_id ← lift_M (row_id ids (sel_at (v_sel ids) 0));
  cp ← lift_M (GetChunk (st_rows s) tp first_id);
  for_M (Exec ids 0 0) (delete_row cp ids).

Definition save_row (cp : nat) (ids : Vector) (ik : nat * nat) : M (tstate IX) unit :=
  s ← get_M;
  c ← lift_M (deref (chunks (st_rows s) !! cp));
  id ← lift_M (chunk_row c ids ik.1);
  save_version UPDATE_TUPLE cp id.

(** The vector that the new values are copied from: NULLs are turned into
    sentinels in a temporary vector. *)
Definition update_source (v : Vector) : result Vector :=
  if bool_decide (v_null v = ∅) then Ok v
  else
    cs ← CopyToStorage v 0 0;
    mret (mkVector (v_type v) (v_count v) (write_block ∅ 0 cs) None ∅).

(** [memcpy] of one new value into column [col] of the row. *)
Definition write_cell (cp col : nat) (ids source : Vector) (ik : nat * nat) : M (tstate IX) unit :=
  s ← get_M;
  c ← lift_M (deref (chunks (st_rows s) !! cp));
  id ← lift_M (row_id ids ik.1);
  _ ← lift_M (assert_ (sc_start c <=? id));
  base_data ← lift_M (deref (columns c !! col));
  v ← lift_M (deref (v_data source !! sel_at (v_sel source) ik.2));
  set_rows (set_chunk (st_rows s) cp
    (set_columns c (<[col := <[id - sc_start c := v]> (base_data : column)]> (columns c)))).

(** The columns [column_ids\[j\]] with the update vectors [updates.data\[j\]]. *)
Fixpoint update_columns (cp : nat) (column_ids : list nat) (data : list Vector) (ids : Vector)
    : M (tstate IX) unit :=
  match column_ids, data with
  | col :: column_ids', v :: data' =>
    source ← lift_M (update_source v);
    _ ← for_M (Exec ids 0 0) (write_cell cp col ids source);
    s ← get_M;
    _ ← set_ix (statistics_update (st_ix s) col v);
    update_columns cp column_ids' data' ids
  | [], _ => mret ()
  | _ :: _, [] => lift_M Undef
  end.

(** [DataTable::Update(table, context, row_identifiers, column_ids, updates)] *)
Definition Update (tp : nat) (info : TableCatalogInfo) (ids : Vector) (column_ids : list nat)
    (updates : DataChunk) : M (tstate IX) unit :=
  if negb (bool_decide (v_type ids = T_POINTER)) then throw_M InvalidTypeException else
  if v_count ids =? 0 then mret () else
  _ ← lift_M (VerifyConstraints (tc_constraints info) updates);
  s ← get_M;
  first_id ← lift_M (row_id ids (sel_at (v_sel ids) 0));
  cp ← lift_M (GetChunk (st_rows s) tp first_id);
  ix ← lift_M (unique_update (st_ix s) (st_tx s) (st_rows s) cp column_ids updates ids);
  _ ← set_ix ix;
  ix ← lift_M (index_update ix column_ids updates ids);
  _ ← set_ix ix;
  _ ← for_M (Exec ids 0 0) (save_row cp ids);
  update_columns cp column_ids (dc_data updates) ids.
End table.
