(* ===== verification/TableScan.v ===== *)
(** * Scanning a table

    Models the readers of [src/src/storage/data_table.cpp]: [Scan] resolves the
    version of every row of a window of a chunk for a transaction,
    [RetrieveVersionedData] and [RetrieveBaseTableData] copy the chosen
    versions into the result. *)

From Stdlib Require Import ZArith Lia.
From stdpp Require Import base gmap list strings option numbers sorting.
From S2P Require Import Prelude Types Vector Tuple Storage Versions DataTable.

(** The scan state of a table: the chunk and the row reached, and the version
    reached of that row ([CreateIndexScan] only). *)
Record ScanStructure : Type := mkScanStructure {
  ss_chunk : option nat;
  ss_offset : nat;
  ss_version_chain : option nat }.

Definition InitializeScan (R : rows) (tp : nat) : result ScanStructure :=
  t ← deref (tables R !! tp);
  mret (mkScanStructure (Some (dt_chunk_list t)) 0 None).

(** Appending a block of cells to a result vector; the null mask is left as it
    is. *)
Definition append_cells (v : Vector) (cs : list cell) : Vector :=
  mkVector (v_type v) (v_count v + length cs) (write_block (v_data v) (v_count v) cs)
    (v_sel v) (v_null v).

(** The cells of one column of [RetrieveVersionedData]. *)
Definition versioned_cells (t : DataTable) (alts : list (tuple * nat)) (c : column_t) : result (list cell) :=
  match c with
  | COLUMN_IDENTIFIER_ROW_ID => Ok ((fun a => Num 8 (Z.of_nat a.2)) <$> alts)
  | Column c =>
    offset ← deref (dt_accumulative_tuple_size t !! c);
    mapM (fun a : tuple * nat => deref (cell_at a.1 offset)) alts
  end.

(** For each requested column, the result vector of the same position. *)
Fixpoint for_columns (f : column_t -> Vector -> result Vector) (column_ids : list column_t)
    (data : list Vector) : result (list Vector) :=
  match column_ids, data with
  | c :: column_ids', v :: data' =>
    v' ← f c v; vs ← for_columns f column_ids' data'; mret (v' :: vs)
  | [], _ => Ok data
  | _ :: _, [] => Undef
  end.

Definition RetrieveVersionedData (t : DataTable) (data : list Vector) (column_ids : list column_t)
    (alts : list (tuple * nat)) : result (list Vector) :=
  if length alts =? 0 then Ok data else
  for_columns (fun c v => cs ← versioned_cells t alts c; mret (append_cells v cs)) column_ids data.

(** The [source] vector over a storage column, starting at row
    [current_offset], selecting [regular_entries]. *)
Definition storage_vector (t : TypeId) (col : column) (current_offset : nat) (regular_entries : list nat)
    : Vector :=
  mkVector t (length regular_entries)
    (list_to_map (omap (fun e => (fun x => (e, x)) <$> col !! (current_offset + e)) regular_entries))
    (Some regular_entries) ∅.

Definition RetrieveBaseTableData (c : StorageChunk) (data : list Vector) (column_ids : list column_t)
    (regular_entries : list nat) (current_offset : nat) : result (list Vector) :=
  if length regular_entries =? 0 then Ok data else
  for_columns (fun cid v =>
    match cid with
    | COLUMN_IDENTIFIER_ROW_ID =>
      _ ← assert_ (bool_decide (v_type v = T_POINTER));
      mret (append_cells v
        ((fun e => Num 8 (Z.of_nat (sc_start c + current_offset + e))) <$> regular_entries))
    | Column cid =>
      col ← deref (columns c !! cid);
      AppendFromStorage (storage_vector (v_type v) col current_offset regular_entries) v
    end) column_ids data.

(** The [while (true)] loop that follows the version pointers until the next
    version is one the transaction sees.  The number of nodes in the heap
    bounds its length. *)
Fixpoint follow_versions (fuel : nat) (tx : Transaction) (vs : gmap nat VersionInformation)
    (version : VersionInformation) : result VersionInformation :=
  match fuel with
  | 0 => Undef
  | S fuel' =>
    match vi_next version with
    | None => Ok version
    | Some n =>
      next ← deref (vs !! n);
      if (version_number next =? transaction_id tx)%Z then Ok version
      else if (version_number next <? start_time tx)%Z then Ok version
      else follow_versions fuel' tx vs next
    end
  end.

(** The second pass of [Scan] over the rows that have versions: each becomes
    an alternate version, a regular entry, or is skipped. *)
Fixpoint scan_versions (tx : Transaction) (R : rows) (c : StorageChunk) (offset : nat)
    (version_entries : list nat) : result (list (tuple * nat) * list nat) :=
  match version_entries with
  | [] => Ok ([], [])
  | i :: rest =>
    l ← deref (version_pointers c !! (offset + i));
    version ← deref (versions R !! l);
    if (version_number version =? transaction_id tx)%Z || (version_number version <? start_time tx)%Z
    then
      '(alts, regs) ← scan_versions tx R c offset rest;
      mret (if bool_decide (offset + i ∈ deleted c) then (alts, regs) else (alts, i :: regs))
    else
      version ← follow_versions (size (versions R)) tx (versions R) version;
      '(alts, regs) ← scan_versions tx R c offset rest;
      mret (match tuple_data version with
            | None => (alts, regs)
            | Some t => ((t, offset + i) :: alts, regs)
            end)
  end.

(** One round of the [while (structure.chunk)] loop of [Scan]: the alternate
    versions and the regular entries of the window that starts at [offset].
    Past the end of the chunk the unsigned [count - offset] wraps: [Undef]. *)
Definition scan_window (tx : Transaction) (R : rows) (c : StorageChunk) (offset : nat)
    : result (list (tuple * nat) * list nat) :=
  _ ← assert_ (offset <=? sc_count c);
  let stop := Nat.min STANDARD_VECTOR_SIZE (sc_count c - offset) in
  let has_version i := bool_decide (is_Some (version_pointers c !! (offset + i))) in
  let is_deleted i := bool_decide (offset + i ∈ deleted c) in
  let version_entries := List.filter has_version (seq 0 stop) in
  let regular_entries := List.filter (fun i => negb (is_deleted i || has_version i)) (seq 0 stop) in
  if length regular_entries <? stop then
    '(alts, regs) ← scan_versions tx R c offset version_entries;
    mret (alts, regular_entries ++ regs)
  else Ok ([], regular_entries).

Definition scan_step (tx : Transaction) (R : rows) (cp : nat) (data : list Vector)
    (column_ids : list column_t) (s : ScanStructure) : result (list Vector * ScanStructure) :=
  c ← deref (chunks R !! cp);
  t ← deref (tables R !! sc_table c);
  '(alts, regs) ← scan_window tx R c (ss_offset s);
  data ← RetrieveVersionedData t data column_ids alts;
  data ← RetrieveBaseTableData c data column_ids regs (ss_offset s);
  let offset := ss_offset s + STANDARD_VECTOR_SIZE in
  mret (data, if sc_count c <=? offset then mkScanStructure (sc_next c) 0 None
              else mkScanStructure (Some cp) offset None).

(** [DataTable::Scan(transaction, result, column_ids, structure)].  The fuel
    bounds the number of windows that come out empty. *)
Fixpoint Scan (fuel : nat) (tx : Transaction) (R : rows) (result_ : DataChunk)
    (column_ids : list column_t) (s : ScanStructure) : result (DataChunk * ScanStructure) :=
  match ss_chunk s with
  | None => Ok (result_, s)
  | Some cp =>
    match fuel with
    | 0 => Undef
    | S fuel' =>
      '(data, s) ← scan_step tx R cp (dc_data result_) column_ids s;
      let result_ := mkDataChunk data (dc_sel result_) in
      if 0 <? chunk_size result_ then Ok (result_, s)
      else Scan fuel' tx R result_ column_ids s
    end
  end.

(** ** The versions a scan returns are the versions the transaction sees *)

Lemma follow_versions_spec tx vs tbl lk n ns fuel :
  rep vs tbl lk (n :: ns) → length ns < fuel →
  ∃ w, follow_versions fuel tx vs (node_vi tbl lk n (head_loc ns)) = Ok w ∧
       tuple_data w = visible tx (n_old n) ns.
Proof.
  revert lk n fuel. induction ns as [|m ns IH]; intros lk n [|fuel] Hrep Hf; simpl in Hf; try lia.
  - eexists. split; reflexivity.
  - destruct Hrep as [_ Hrep]. pose proof Hrep as [Hm _]. simpl. rewrite Hm. simpl.
    unfold sees. destruct (Z.eqb_spec (n_num m) (transaction_id tx)); simpl; [by eauto|].
    destruct (Z.ltb_spec (n_num m) (start_time tx)); simpl; [by eauto|].
    apply IH; [done|lia].
Qed.

(** What becomes of one row: its base value, an older version, or nothing. *)
Definition alternate_of (tx : Transaction) (ns : list vnode) (row : nat) : option (tuple * nat) :=
  match ns with
  | [] => None
  | n :: ns' => if sees tx (n_num n) then None else (fun t => (t, row)) <$> visible tx (n_old n) ns'
  end.

Definition reads_base (tx : Transaction) (ns : list vnode) : bool :=
  match ns with [] => true | n :: _ => sees tx (n_num n) end.

Section scan_spec.
Context (R : rows) (H : hist) (cp : nat) (c : StorageChunk) (tx : Transaction) (offset : nat).
Context (Hwf : links_wf R H) (Hc : chunks R !! cp = Some c) (Hoff : offset ≤ sc_count c).

Definition reads_base_at (i : nat) : bool :=
  reads_base tx (H cp (offset + i)) && negb (bool_decide (offset + i ∈ deleted c)).

Lemma scan_versions_spec entries :
  (∀ i, i ∈ entries → H cp (offset + i) ≠ []) →
  scan_versions tx R c offset entries
  = Ok (omap (fun i => alternate_of tx (H cp (offset + i)) (offset + i)) entries,
        List.filter reads_base_at entries).
Proof.
  induction entries as [|i entries IH]; intros Hne; [done|].
  cbn [scan_versions omap list_omap List.filter].
  rewrite (lw_pointer _ _ _ _ (offset + i) Hwf Hc).
  pose proof (lw_rep _ _ _ _ (offset + i) Hwf Hc) as Hrep.
  pose proof (rep_length _ _ _ _ Hrep (lw_sorted _ _ Hwf cp (offset + i))) as Hlen.
  unfold reads_base_at at 1.
  destruct (H cp (offset + i)) as [|n ns] eqn:E; [by eapply Hne in E; [|left]|].
  pose proof Hrep as [Hn _]. simpl. rewrite Hn. simpl.
  change ((n_num n =? transaction_id tx)%Z || (n_num n <? start_time tx)%Z) with (sees tx (n_num n)).
  rewrite IH by (intros j Hj; apply Hne; by right).
  destruct (sees tx (n_num n)); simpl.
  - by destruct (bool_decide _).
  - destruct (follow_versions_spec tx _ _ _ _ _ (size (versions R)) Hrep) as (w & -> & Hw);
      [simpl in Hlen; lia|].
    simpl. rewrite Hw. by destruct (visible tx (n_old n) ns).
Qed.

(** The rows of a window with the versions chosen for them. *)
Definition window_rows (alts : list (tuple * nat)) (regs : list nat) : list (nat * tuple) :=
  ((fun a => (a.2, a.1)) <$> alts) ++
  omap (fun i => (fun t => (offset + i, t)) <$> base_value c (offset + i)) regs.

Definition visible_rows (entries : list nat) : list (nat * tuple) :=
  omap (fun i => (fun t => (offset + i, t)) <$>
          visible tx (base_value c (offset + i)) (H cp (offset + i))) entries.

Definition no_version (i : nat) : bool := bool_decide (version_pointers c !! (offset + i) = None).

Lemma visible_split i :
  visible tx (base_value c (offset + i)) (H cp (offset + i)) =
  if reads_base tx (H cp (offset + i)) then base_value c (offset + i)
  else fst <$> alternate_of tx (H cp (offset + i)) (offset + i).
Proof.
  unfold alternate_of, reads_base. destruct (H cp (offset + i)) as [|n ns]; simpl; [done|].
  destruct (sees tx (n_num n)); [done|]. by destruct (visible _ _ _).
Qed.

Lemma window_rows_perm entries :
  window_rows
    (omap (fun i => alternate_of tx (H cp (offset + i)) (offset + i)) entries)
    (List.filter reads_base_at entries)
  ≡ₚ visible_rows entries.
Proof.
  unfold window_rows, visible_rows, reads_base_at.
  induction entries as [|i entries IH]; [done|].
  cbn [omap list_omap List.filter]. rewrite visible_split.
  unfold alternate_of at 1 3, reads_base at 1 3, base_value at 2 3.
  destruct (H cp (offset + i)) as [|n ns]; simpl.
  - case_decide as Hd; simpl.
    + rewrite bool_decide_eq_true_2 by done. by rewrite IH.
    + rewrite bool_decide_eq_false_2 by done. simpl. unfold base_value at 1.
      rewrite decide_False by done.
      destruct (row_at (columns c) (offset + i)); simpl; [|done].
      rewrite <- IH. by rewrite Permutation_middle.
  - destruct (sees tx (n_num n)); simpl.
    + case_decide as Hd; simpl.
      * rewrite bool_decide_eq_true_2 by done. by rewrite IH.
      * rewrite bool_decide_eq_false_2 by done. simpl. unfold base_value at 1.
        rewrite decide_False by done.
        destruct (row_at (columns c) (offset + i)); simpl; [|done].
        rewrite <- IH. by rewrite Permutation_middle.
    + destruct (visible tx (n_old n) ns); simpl; by rewrite IH.
Qed.

Let has_version (i : nat) : bool := bool_decide (is_Some (version_pointers c !! (offset + i))).
Let is_deleted (i : nat) : bool := bool_decide (offset + i ∈ deleted c).

Lemma has_version_hist i : has_version i = true ↔ H cp (offset + i) ≠ [].
Proof.
  unfold has_version. rewrite bool_decide_eq_true, (lw_pointer _ _ _ _ _ Hwf Hc).
  destruct (H cp (offset + i)); simpl; split; intros; try done.
  by destruct H0.
Qed.

Lemma no_version_hist i : has_version i = false ↔ H cp (offset + i) = [].
Proof.
  pose proof (has_version_hist i) as Hi. destruct (has_version i), (H cp (offset + i)); naive_solver.
Qed.

Lemma scan_window_result :
  let entries := seq 0 (Nat.min STANDARD_VECTOR_SIZE (sc_count c - offset)) in
  scan_window tx R c offset =
  Ok (omap (fun i => alternate_of tx (H cp (offset + i)) (offset + i)) (List.filter has_version entries),
      List.filter (fun i => negb (is_deleted i || has_version i)) entries ++
      List.filter reads_base_at (List.filter has_version entries)).
Proof.
  intros entries. unfold scan_window. rewrite (proj2 (Nat.leb_le _ _) Hoff).
  simpl mbind. fold entries.
  match goal with |- context [?a <? ?b] => destruct (Nat.ltb_spec a b) as [Hlt|Hge] end.
  - rewrite scan_versions_spec; [done|]. intros i Hi.
    apply list_elem_of_In, List.filter_In in Hi as [_ Hi]. by apply has_version_hist.
  - assert (List.filter has_version entries = []) as Hnil.
    { eapply filter_length_full; [|unfold entries at 1; rewrite length_seq; exact Hge].
      intros i Hi. simpl. fold (has_version i). rewrite Hi. by rewrite orb_true_r. }
    rewrite Hnil. simpl. by rewrite app_nil_r.
Qed.

Lemma alternates_versioned entries :
  omap (fun i => alternate_of tx (H cp (offset + i)) (offset + i)) (List.filter has_version entries)
  = omap (fun i => alternate_of tx (H cp (offset + i)) (offset + i)) entries.
Proof.
  induction entries as [|i entries IH]; [done|]. cbn [List.filter omap list_omap].
  destruct (has_version i) eqn:E; cbn [omap list_omap].
  - destruct (alternate_of tx (H cp (offset + i)) (offset + i)); [f_equal|]; exact IH.
  - apply no_version_hist in E. rewrite E. exact IH.
Qed.

Lemma regular_split entries :
  List.filter reads_base_at entries ≡ₚ
  List.filter (fun i => negb (is_deleted i || has_version i)) entries ++
  List.filter reads_base_at (List.filter has_version entries).
Proof.
  rewrite filter_filter_and. apply filter_Permutation_split; intros i;
    unfold reads_base_at; fold (is_deleted i); destruct (has_version i) eqn:E; simpl.
  - by rewrite orb_true_r.
  - apply no_version_hist in E. rewrite E. simpl. by destruct (is_deleted i).
  - by rewrite orb_true_r.
  - by rewrite andb_false_r.
Qed.

(** A window of a scan yields exactly the rows visible to the transaction. *)
Lemma scan_window_visible :
  ∃ alts regs, scan_window tx R c offset = Ok (alts, regs) ∧
    window_rows alts regs
    ≡ₚ visible_rows (seq 0 (Nat.min STANDARD_VECTOR_SIZE (sc_count c - offset))).
Proof.
  eexists _, _. split; [apply scan_window_result|].
  rewrite <- window_rows_perm, alternates_versioned.
  unfold window_rows. apply Permutation_app_head, omap_Permutation. symmetry.
  apply regular_split.
Qed.
End scan_spec.

(** ** The cells a scan copies *)

Lemma for_columns_spec f column_ids data :
  (∀ j c, column_ids !! j = Some c → ∃ v v', data !! j = Some v ∧ f c v = Ok v') →
  ∃ data', for_columns f column_ids data = Ok data' ∧
    ∀ j c v, column_ids !! j = Some c → data !! j = Some v →
      ∃ v', data' !! j = Some v' ∧ f c v = Ok v'.
Proof.
  revert data. induction column_ids as [|c column_ids IH]; intros data Hf.
  { eexists. split; [done|]. intros j c v Hj. done. }
  destruct (Hf 0 c eq_refl) as (v & v' & Hv & Hfv). destruct data as [|v0 data]; [done|].
  injection Hv as ->.
  destruct (IH data) as (data' & Hd & Hspec).
  { intros j c' Hj. destruct (Hf (S j) c' Hj) as (w & w' & Hw & Hfw). eauto. }
  exists (v' :: data'). simpl. rewrite Hfv. simpl. rewrite Hd. simpl. split; [done|].
  intros [|j] c' w Hj Hw; simplify_eq/=; [by eauto|]. by eapply Hspec.
Qed.

Lemma accumulate_lookup sizes total k n :
  sizes !! k = Some n → accumulate sizes total !! k = Some (total + sum_list (take k sizes)).
Proof.
  revert total k. induction sizes as [|m sizes IH]; intros total [|k] Hk; simplify_eq/=.
  - f_equal. lia.
  - rewrite IH by done. f_equal. lia.
Qed.

(** The cell of column [k] of a stored tuple, found by its byte offset. *)
Lemma tuple_cell tbl t k c :
  table_ok tbl → well_typed (dt_types tbl) t → t !! k = Some c →
  ∃ off, dt_accumulative_tuple_size tbl !! k = Some off ∧ cell_at t off = Some c.
Proof.
  intros [Hser Hacc] Hwt Hk.
  pose proof (well_typed_sizes _ _ Hwt) as [Hsz Hpos].
  apply table_serializer_inv in Hser as [_ Hs].
  rewrite (type_sizes_unique _ _ _ Hs Hsz) in Hacc. rewrite Hacc.
  eexists. split; [eapply accumulate_lookup; by rewrite list_lookup_fmap, Hk|].
  rewrite Nat.add_0_l, <- fmap_take. rewrite <- (take_drop_middle _ _ _ Hk) at 1.
  apply cell_at_prefix. by apply Forall_take.
Qed.

(** The layout of a result chunk for the requested columns. *)
Definition result_layout (types : list TypeId) (column_ids : list column_t) (data : list Vector) : Prop :=
  ∀ j c, column_ids !! j = Some c → ∃ v, data !! j = Some v ∧
    match c with
    | COLUMN_IDENTIFIER_ROW_ID => v_type v = T_POINTER
    | Column k => types !! k = Some (v_type v)
    end.

Section retrieve.
Context (tbl : DataTable) (Htbl : table_ok tbl).

Lemma versioned_cells_spec alts k ty :
  Forall (fun a => well_typed (dt_types tbl) a.1) alts → dt_types tbl !! k = Some ty →
  length alts ≠ 0 →
  ∃ cs, versioned_cells tbl alts (Column k) = Ok cs ∧
    (Some <$> cs) = (fun a : tuple * nat => a.1 !! k) <$> alts.
Proof.
  intros Hall Hty Hne.
  assert (∃ off, dt_accumulative_tuple_size tbl !! k = Some off ∧
    ∀ t, well_typed (dt_types tbl) t → ∃ c, t !! k = Some c ∧ cell_at t off = Some c) as (off & Hoff & Hcell).
  { assert (∀ t, well_typed (dt_types tbl) t → is_Some (t !! k)) as Hsome.
    { intros t Hwt. destruct (Forall2_lookup_l _ _ _ _ _ Hwt Hty) as (c & Hc & _). eauto. }
    destruct alts as [|a alts]; [done|]. apply Forall_cons_1 in Hall as [Ha _].
    destruct (Hsome _ Ha) as [c Hc].
    destruct (tuple_cell _ _ _ _ Htbl Ha Hc) as (off & Hoff & _). exists off. split; [done|].
    intros t Hwt. destruct (Hsome _ Hwt) as [c' Hc'].
    destruct (tuple_cell _ _ _ _ Htbl Hwt Hc') as (off' & Hoff' & Hat). exists c'. split; congruence. }
  simpl. rewrite Hoff. simpl.
  clear Hne. induction Hall as [|a alts Ha _ (cs & Hcs & Heq)]; [by exists []|].
  destruct (Hcell _ Ha) as (c & Hc & Hat). exists (c :: cs). simpl. rewrite Hat. simpl.
  rewrite Hcs. csimpl. rewrite Hc, Heq. done.
Qed.

Lemma RetrieveVersionedData_spec data column_ids alts :
  result_layout (dt_types tbl) column_ids data →
  Forall (fun a => well_typed (dt_types tbl) a.1) alts →
  ∃ data', RetrieveVersionedData tbl data column_ids alts = Ok data' ∧
    result_layout (dt_types tbl) column_ids data' ∧
    ∀ j c v, column_ids !! j = Some c → data !! j = Some v →
      ∃ v', data' !! j = Some v' ∧ v_type v' = v_type v ∧
        v_count v' = v_count v + length alts ∧ v_null v' = v_null v ∧
        match c with
        | Column k => vec_cells v' = vec_cells v ++ ((fun a : tuple * nat => a.1 !! k) <$> alts)
        | COLUMN_IDENTIFIER_ROW_ID =>
          vec_cells v' = vec_cells v ++ ((fun a : tuple * nat => Some (Num 8 (Z.of_nat a.2))) <$> alts)
        end.
Proof.
  intros Hlay Hall. unfold RetrieveVersionedData.
  destruct (Nat.eqb_spec (length alts) 0) as [E|Hne].
  { apply length_zero_iff_nil in E as ->. exists data. split; [done|]. split; [done|].
    intros j c v Hj Hv. exists v. simpl. rewrite Nat.add_0_r, !app_nil_r. by destruct c. }
  assert (∀ c v, (∃ j, column_ids !! j = Some c ∧ data !! j = Some v) →
    ∃ cs, versioned_cells tbl alts c = Ok cs ∧ length cs = length alts ∧
      (Some <$> cs) = match c with
        | Column k => (fun a : tuple * nat => a.1 !! k) <$> alts
        | COLUMN_IDENTIFIER_ROW_ID => (fun a : tuple * nat => Some (Num 8 (Z.of_nat a.2))) <$> alts
        end) as Hcells.
  { intros c v (j & Hj & Hv). destruct (Hlay _ _ Hj) as (v' & Hv' & Hty). simplify_eq.
    destruct c as [k|].
    - destruct (versioned_cells_spec alts k _ Hall Hty Hne) as (cs & Hcs & Heq).
      exists cs. split; [done|]. split; [|done].
      apply (f_equal length) in Heq. by rewrite !length_fmap in Heq.
    - eexists. split; [done|]. rewrite length_fmap. split; [done|]. by rewrite <- list_fmap_compose. }
  destruct (for_columns_spec
    (fun c v => cs ← versioned_cells tbl alts c; mret (append_cells v cs)) column_ids data)
    as (data' & Hd & Hspec).
  { intros j c Hj. destruct (Hlay _ _ Hj) as (v & Hv & _).
    destruct (Hcells c v) as (cs & Hcs & _); [eauto|].
    exists v, (append_cells v cs). by rewrite Hcs. }
  exists data'. split; [done|].
  assert (∀ j c v, column_ids !! j = Some c → data !! j = Some v →
    ∃ cs, data' !! j = Some (append_cells v cs) ∧ length cs = length alts ∧
      (Some <$> cs) = match c with
        | Column k => (fun a : tuple * nat => a.1 !! k) <$> alts
        | COLUMN_IDENTIFIER_ROW_ID => (fun a : tuple * nat => Some (Num 8 (Z.of_nat a.2))) <$> alts
        end) as Hd'.
  { intros j c v Hj Hv. destruct (Hcells c v) as (cs & Hcs & Hl & Heq); [eauto|].
    destruct (Hspec j c v Hj Hv) as (v' & Hv' & Hf). rewrite Hcs in Hf. injection Hf as <-. eauto. }
  split.
  - intros j c Hj. destruct (Hlay _ _ Hj) as (v & Hv & Hty).
    destruct (Hd' j c v Hj Hv) as (cs & Hv' & _ & _). eauto.
  - intros j c v Hj Hv. destruct (Hd' j c v Hj Hv) as (cs & Hv' & Hl & Heq).
    exists (append_cells v cs). split; [done|]. split; [done|]. split; [simpl; lia|].
    split; [done|]. unfold append_cells. rewrite vec_cells_append. rewrite Heq. by destruct c.
Qed.
End retrieve.

Lemma storage_vector_lookup ty col off regs e x :
  e ∈ regs → col !! (off + e) = Some x → v_data (storage_vector ty col off regs) !! e = Some x.
Proof.
  intros He Hx. simpl. induction regs as [|e' regs IH]; [by apply not_elem_of_nil in He|].
  cbn [omap list_omap]. destruct (decide (e = e')) as [->|Hne].
  - rewrite Hx. simpl. by rewrite lookup_insert_eq.
  - apply elem_of_cons in He as [->|He]; [done|].
    destruct (col !! (off + e')); simpl; [rewrite lookup_insert_ne by done|]; by apply IH.
Qed.

Section retrieve_base.
Context (tbl : DataTable) (Htbl : table_ok tbl) (c : StorageChunk) (off : nat).
Context (Hcols : length (columns c) = length (dt_types tbl)).

(** The entries whose rows are stored, with the rows. *)
Definition stored_rows (regs : list nat) (ts : list tuple) : Prop :=
  Forall2 (fun e t => row_at (columns c) (off + e) = Some t ∧ well_typed (dt_types tbl) t) regs ts.

Lemma stored_column regs ts k ty :
  stored_rows regs ts → dt_types tbl !! k = Some ty →
  ∃ col cs, columns c !! k = Some col ∧ (Some <$> cs) = (fun t : tuple => t !! k) <$> ts ∧
    Forall2 (fun e x => (col : column) !! (off + e) = Some x) regs cs ∧
    Forall (fun x => cell_has_type ty x = true) cs.
Proof.
  intros Hrows Hty.
  assert (is_Some (columns c !! k)) as [col Hcol].
  { apply lookup_lt_is_Some. rewrite Hcols. by eapply lookup_lt_Some. }
  exists col. induction Hrows as [|e t regs ts [Hrow Hwt] _ (cs & _ & Heq & Hf2 & Hall)].
  { exists []. repeat split; try done; constructor. }
  apply row_at_Forall2 in Hrow.
  destruct (Forall2_lookup_l _ _ _ _ _ Hrow Hcol) as (x & Hx & Hcx).
  destruct (Forall2_lookup_l _ _ _ _ _ Hwt Hty) as (x' & Hx' & Htx). simplify_eq.
  exists (x :: cs). csimpl. rewrite Hx, Heq. repeat split; try done; by constructor.
Qed.

Lemma RetrieveBaseTableData_spec data column_ids regs ts :
  result_layout (dt_types tbl) column_ids data →
  stored_rows regs ts →
  (∀ j cid v, column_ids !! j = Some cid → data !! j = Some v →
    v_count v + length regs ≤ STANDARD_VECTOR_SIZE) →
  ∃ data', RetrieveBaseTableData c data column_ids regs off = Ok data' ∧
    ∀ j cid v, column_ids !! j = Some cid → data !! j = Some v →
      ∃ v', data' !! j = Some v' ∧ v_type v' = v_type v ∧ v_count v' = v_count v + length regs ∧
        match cid with
        | Column k => vec_cells v' = vec_cells v ++ ((fun t : tuple => t !! k) <$> ts)
        | COLUMN_IDENTIFIER_ROW_ID => vec_cells v' = vec_cells v ++
            ((fun e => Some (Num 8 (Z.of_nat (sc_start c + off + e)))) <$> regs)
        end.
Proof.
  intros Hlay Hrows Hcount. pose proof Hrows as Hlen; apply Forall2_length in Hlen.
  unfold RetrieveBaseTableData.
  destruct (Nat.eqb_spec (length regs) 0) as [E|Hne].
  { apply length_zero_iff_nil in E as ->. inversion Hrows; subst. exists data. split; [done|].
    intros j cid v Hj Hv. exists v. simpl. rewrite Nat.add_0_r, !app_nil_r. by destruct cid. }
  match goal with |- ∃ _, for_columns ?f _ _ = _ ∧ _ => set (step := f) end.
  assert (∀ j cid v, column_ids !! j = Some cid → data !! j = Some v →
    ∃ v', step cid v = Ok v' ∧ v_type v' = v_type v ∧ v_count v' = v_count v + length regs ∧
        match cid with
        | Column k => vec_cells v' = vec_cells v ++ ((fun t : tuple => t !! k) <$> ts)
        | COLUMN_IDENTIFIER_ROW_ID => vec_cells v' = vec_cells v ++
            ((fun e => Some (Num 8 (Z.of_nat (sc_start c + off + e)))) <$> regs)
        end) as Hstep.
  { intros j cid v Hj Hv. destruct (Hlay _ _ Hj) as (v0 & Hv0 & Hty). simplify_eq.
    destruct cid as [k|]; simpl.
    - destruct (stored_column regs ts k _ Hrows Hty) as (col & cs & Hcol & Heq & Hf2 & Hall).
      rewrite Hcol. simpl.
      destruct (AppendFromStorage_spec (storage_vector (v_type v) col off regs) v cs)
        as (v' & Hv' & Hty' & _ & Hc' & Hcells & _).
      + simpl. specialize (Hcount _ _ _ Hj Hv). lia.
      + simpl. destruct Htbl as [Hser _]. apply table_serializer_types in Hser.
        eapply Forall_lookup_1 in Hser; eauto.
      + unfold exec_indexes. rewrite Nat.sub_0_r. apply Forall2_fmap_l, Forall2_same_length_lookup.
        split; [rewrite length_seq; simpl; by apply Forall2_length in Hf2|].
        intros i k' x Hi Hx. apply lookup_seq in Hi as [-> Hi]. simpl.
        destruct (Forall2_lookup_r _ _ _ _ _ Hf2 Hx) as (e & He & Hex).
        rewrite (nth_lookup_Some _ _ _ _ He). simpl in *.
        eapply (storage_vector_lookup (v_type v)); [|done]. by eapply list_elem_of_lookup_2.
      + done.
      + exists v'. split; [done|]. split; [done|]. rewrite Hc', Hcells, Heq. apply Forall2_length in Hf2.
        split; [lia|done].
    - rewrite bool_decide_eq_true_2 by done. simpl. eexists. split; [done|].
      split; [done|]. simpl. rewrite length_fmap. split; [done|]. unfold append_cells.
      rewrite vec_cells_append. f_equal. by rewrite <- list_fmap_compose. }
  destruct (for_columns_spec step column_ids data) as (data' & Hd & Hspec).
  { intros j cid Hj. destruct (Hlay _ _ Hj) as (v & Hv & _).
    destruct (Hstep _ _ _ Hj Hv) as (v' & Hf & _). eauto. }
  exists data'. split; [done|]. intros j cid v Hj Hv.
  destruct (Hspec _ _ _ Hj Hv) as (v' & Hv' & Hf).
  destruct (Hstep _ _ _ Hj Hv) as (v'' & Hf' & Hrest).
  exists v'. rewrite Hf in Hf'. injection Hf' as <-. by split.
Qed.
End retrieve_base.

(** ** One window of a scan *)

Lemma alternate_of_old tx ns row t row' :
  alternate_of tx ns row = Some (t, row') → row' = row ∧ ∃ m, m ∈ ns ∧ n_old m = Some t.
Proof.
  destruct ns as [|n ns]; simpl; [done|]. destruct (sees tx (n_num n)); [done|].
  intros [t' [Ht' [= -> ->]]]%fmap_Some. split; [done|].
  revert n Ht'. induction ns as [|m ns IH]; intros n Ht'; simpl in Ht'.
  - exists n. split; [left|done].
  - destruct (sees tx (n_num m)); [exists n; split; [left|done]|].
    destruct (IH m Ht') as (m' & Hm' & Hold). exists m'. split; [by right|done].
Qed.

Section scan_step_spec.
Context (R : rows) (H : hist) (cp : nat) (c : StorageChunk) (tx : Transaction) (tbl : DataTable).
Context (Hwf : links_wf R H) (Hdw : data_wf R H).
Context (Hc : chunks R !! cp = Some c) (Ht : tables R !! sc_table c = Some tbl).

Lemma chunk_table : table_ok tbl ∧ length (columns c) = length (dt_types tbl).
Proof. destruct (dw_table _ _ Hdw _ _ Hc) as (tbl' & Ht' & Hl & Hok). by simplify_eq. Qed.

(** The entries of a window that read the stored row. *)
Lemma regular_stored off regs :
  (∀ i, i ∈ regs → off + i < sc_count c ∧ off + i ∉ deleted c) →
  ∃ ts, stored_rows tbl c off regs ts ∧
    omap (fun i => (fun t => (off + i, t)) <$> base_value c (off + i)) regs
    = zip_with (fun i t => (off + i, t)) regs ts.
Proof.
  induction regs as [|i regs IH]; intros Hreg; [by exists []; split; [constructor|]|].
  destruct IH as (ts & Hst & Heq); [intros j Hj; apply Hreg; by right|].
  destruct (Hreg i) as [Hlt Hdel]; [left|].
  destruct (dw_row _ _ Hdw _ _ _ _ Hc Ht Hlt) as (t & Hrow & Hwt).
  exists (t :: ts). split; [by constructor|].
  cbn [omap list_omap zip_with]. unfold base_value at 1. rewrite decide_False, Hrow by done.
  simpl. f_equal. exact Heq.
Qed.

Lemma window_regular off alts regs :
  off ≤ sc_count c → scan_window tx R c off = Ok (alts, regs) →
  (∀ i, i ∈ regs → off + i < sc_count c ∧ off + i ∉ deleted c) ∧
  Forall (fun a : tuple * nat => well_typed (dt_types tbl) a.1) alts.
Proof.
  intros Hoff Hw. rewrite (scan_window_result _ H cp) in Hw by done. apply Ok_inj, pair_eq in Hw as [<- <-]. split.
  - intros i Hi. assert (i ∈ seq 0 (Nat.min STANDARD_VECTOR_SIZE (sc_count c - off)) ∧
      off + i ∉ deleted c) as [Hin Hd]; [|apply elem_of_seq in Hin; split; [lia|done]].
    apply elem_of_app in Hi as [Hi|Hi]; apply list_elem_of_In, List.filter_In in Hi as [Hi Hb].
    + apply list_elem_of_In in Hi. split; [done|]. apply negb_true_iff, orb_false_iff in Hb as [Hb _].
      by apply bool_decide_eq_false in Hb.
    + apply List.filter_In in Hi as [Hi _]. apply list_elem_of_In in Hi. split; [done|].
      apply andb_true_iff in Hb as [_ Hb]. by apply negb_true_iff, bool_decide_eq_false in Hb.
  - apply Forall_forall. intros [t row] Ha. apply list_elem_of_omap in Ha as (i & _ & Ha).
    apply alternate_of_old in Ha as [_ (m & Hm & Hold)]. by eapply dw_old.
Qed.

(** The result of a window holds, column by column, the visible rows in some
    order.  Row identifiers are right in the first chunk of a table. *)
Definition holds_rows (column_ids : list column_t) (data : list Vector) (rs : list (nat * tuple)) : Prop :=
  ∀ j cid, column_ids !! j = Some cid → ∃ v, data !! j = Some v ∧ v_count v = length rs ∧
    match cid with
    | Column k => vec_cells v = (fun p => p.2 !! k) <$> rs
    | COLUMN_IDENTIFIER_ROW_ID =>
      sc_start c = 0 → vec_cells v = (fun p => Some (Num 8 (Z.of_nat p.1))) <$> rs
    end.

Definition blank (column_ids : list column_t) (data : list Vector) : Prop :=
  ∀ j cid v, column_ids !! j = Some cid → data !! j = Some v → v_count v = 0.

Definition next_window (s : ScanStructure) : ScanStructure :=
  if sc_count c <=? ss_offset s + STANDARD_VECTOR_SIZE then mkScanStructure (sc_next c) 0 None
  else mkScanStructure (Some cp) (ss_offset s + STANDARD_VECTOR_SIZE) None.

Definition window_visible (off : nat) : list (nat * tuple) :=
  visible_rows H cp c tx off (seq 0 (Nat.min STANDARD_VECTOR_SIZE (sc_count c - off))).

Lemma window_visible_length off : length (window_visible off) ≤ STANDARD_VECTOR_SIZE.
Proof.
  unfold window_visible, visible_rows. etrans; [apply omap_length_le|]. rewrite length_seq. lia.
Qed.

Lemma scan_step_spec data column_ids s :
  ss_offset s ≤ sc_count c → result_layout (dt_types tbl) column_ids data → blank column_ids data →
  ∃ data' rs, scan_step tx R cp data column_ids s = Ok (data', next_window s) ∧
    rs ≡ₚ window_visible (ss_offset s) ∧ holds_rows column_ids data' rs ∧
    result_layout (dt_types tbl) column_ids data'.
Proof.
  intros Hoff Hlay Hblank. destruct chunk_table as [Htbl Hcols].
  destruct (scan_window_visible R H cp c tx (ss_offset s) Hwf Hc Hoff) as (alts & regs & Hw & Hperm).
  destruct (window_regular _ _ _ Hoff Hw) as [Hreg Halts].
  destruct (regular_stored _ _ Hreg) as (ts & Hst & Hzip).
  fold (window_visible (ss_offset s)) in Hperm. unfold window_rows in Hperm. rewrite Hzip in Hperm.
  pose proof Hst as Hlen. apply Forall2_length in Hlen.
  pose proof (Permutation_length Hperm) as Hplen.
  rewrite length_app, length_fmap, length_zip_with, <- Hlen, Nat.min_id in Hplen.
  pose proof (window_visible_length (ss_offset s)) as Hmax.
  destruct (RetrieveVersionedData_spec tbl Htbl data column_ids alts Hlay Halts)
    as (d1 & Hd1 & Hlay1 & Hspec1).
  destruct (RetrieveBaseTableData_spec tbl Htbl c (ss_offset s) Hcols d1 column_ids regs ts Hlay1 Hst)
    as (d2 & Hd2 & Hspec2).
  { intros j cid v1 Hj Hv1. destruct (Hlay _ _ Hj) as (v & Hv & _).
    destruct (Hspec1 _ _ _ Hj Hv) as (v1' & Hv1' & _ & Hc1 & _). simplify_eq.
    pose proof (Hblank _ _ _ Hj Hv) as Hv0. lia. }
  unfold scan_step. rewrite Hc. simpl. rewrite Ht. simpl. rewrite Hw. simpl. rewrite Hd1. simpl.
  rewrite Hd2. simpl. eexists d2, _. split; [done|]. split; [exact Hperm|].
  split; [|intros j cid Hj; destruct (Hlay1 _ _ Hj) as (v1 & Hv1 & Hty);
    destruct (Hspec2 _ _ _ Hj Hv1) as (v2 & Hv2 & Hty2 & _); exists v2; by rewrite Hty2].
  intros j cid Hj. destruct (Hlay _ _ Hj) as (v & Hv & _).
  destruct (Hspec1 _ _ _ Hj Hv) as (v1 & Hv1 & _ & Hc1 & _ & Hcells1).
  destruct (Hspec2 _ _ _ Hj Hv1) as (v2 & Hv2 & _ & Hc2 & Hcells2).
  pose proof (Hblank _ _ _ Hj Hv) as Hv0.
  assert (vec_cells v = []) as Hnil by (unfold vec_cells; by rewrite Hv0).
  exists v2. split; [done|].
  rewrite length_app, length_fmap, length_zip_with, <- Hlen, Nat.min_id. split; [lia|].
  destruct cid as [k|].
  - rewrite Hcells2, Hcells1, Hnil, fmap_app, <- list_fmap_compose, (fmap_zip_snd _ _ (fun t : tuple => t !! k)) by done. done.
  - intros Hstart. rewrite Hcells2, Hcells1, Hnil, fmap_app, <- list_fmap_compose, Hstart.
    by rewrite (fmap_zip_fst _ _ (fun i => Some (Num 8 (Z.of_nat (ss_offset s + i))))).
Qed.
End scan_step_spec.

(** ** The whole table *)

(** [PhysicalTableScan::GetChunkInternal], called until it returns no rows. *)
Fixpoint scan_table (calls fuel : nat) (tx : Transaction) (R : rows) (types : list TypeId)
    (column_ids : list column_t) (s : ScanStructure) : result (list DataChunk) :=
  match calls with
  | 0 => Undef
  | S calls' =>
    '(chunk, s') ← Scan fuel tx R (DataChunk_Initialize types) column_ids s;
    if chunk_size chunk =? 0 then Ok []
    else rest ← scan_table calls' fuel tx R types column_ids s'; mret (chunk :: rest)
  end.

(** The chunks of a table, linked by [sc_next]. *)
Fixpoint chunk_chain (R : rows) (tp : nat) (p : option nat) (cps : list nat) : Prop :=
  match cps with
  | [] => p = None
  | cp :: cps' => p = Some cp ∧
      ∃ c, chunks R !! cp = Some c ∧ sc_table c = tp ∧ chunk_chain R tp (sc_next c) cps'
  end.

Section full_scan.
Context (R : rows) (H : hist) (tx : Transaction) (tp : nat) (tbl : DataTable).
Context (Hwf : links_wf R H) (Hdw : data_wf R H) (Ht : tables R !! tp = Some tbl).

(** The tuples of a chunk, from a row on, that the transaction sees. *)
Definition chunk_tuples (cp off : nat) : list tuple :=
  match chunks R !! cp with
  | Some c => snd <$> visible_rows H cp c tx 0 (seq off (sc_count c - off))
  | None => []
  end.

Definition table_tuples (cps : list nat) : list tuple := cps ≫= fun cp => chunk_tuples cp 0.

Definition scan_pos (s : ScanStructure) (cps : list nat) : Prop :=
  chunk_chain R tp (ss_chunk s) cps ∧
  match cps with
  | cp :: _ => ∀ c, chunks R !! cp = Some c → ss_offset s ≤ sc_count c
  | [] => True
  end.

Definition remaining (s : ScanStructure) (cps : list nat) : list tuple :=
  match cps with [] => [] | cp :: cps' => chunk_tuples cp (ss_offset s) ++ table_tuples cps' end.

(** An upper bound on the number of windows left. *)
Definition chunk_rounds (cp off : nat) : nat :=
  match chunks R !! cp with Some c => S (sc_count c - off) | None => 0 end.
Definition rounds (s : ScanStructure) (cps : list nat) : nat :=
  match cps with
  | [] => 0
  | cp :: cps' => chunk_rounds cp (ss_offset s) + sum_list ((fun cp => chunk_rounds cp 0) <$> cps')
  end.

Lemma visible_rows_shift cp c off n :
  visible_rows H cp c tx off (seq 0 n) = visible_rows H cp c tx 0 (seq off n).
Proof.
  unfold visible_rows. pose proof (fmap_add_seq off 0 n) as E. rewrite Nat.add_0_r in E.
  by rewrite <- E, omap_fmap_compose.
Qed.

Lemma chunk_tuples_split cp c off :
  chunks R !! cp = Some c → off ≤ sc_count c →
  chunk_tuples cp off = (snd <$> window_visible H cp c tx off) ++
    (if sc_count c <=? off + STANDARD_VECTOR_SIZE then []
     else chunk_tuples cp (off + STANDARD_VECTOR_SIZE)).
Proof.
  intros Hc Hoff. unfold chunk_tuples, window_visible. rewrite Hc, visible_rows_shift.
  destruct (Nat.leb_spec (sc_count c) (off + STANDARD_VECTOR_SIZE)).
  - rewrite app_nil_r, Nat.min_r by lia. done.
  - rewrite Nat.min_l by lia.
    replace (sc_count c - off) with (STANDARD_VECTOR_SIZE + (sc_count c - (off + STANDARD_VECTOR_SIZE))) by lia.
    rewrite seq_app. unfold visible_rows. by rewrite omap_app, fmap_app.
Qed.

Lemma next_window_spec s cp c cps :
  scan_pos s (cp :: cps) → chunks R !! cp = Some c →
  ∃ cps', scan_pos (next_window cp c s) cps' ∧
    rounds (next_window cp c s) cps' < rounds s (cp :: cps) ∧
    remaining s (cp :: cps)
    = (snd <$> window_visible H cp c tx (ss_offset s)) ++ remaining (next_window cp c s) cps'.
Proof.
  intros [(_ & c' & Hc' & Htp & Hchain) Hoff] Hc. rewrite Hc in Hc'. injection Hc' as <-.
  specialize (Hoff _ Hc). simpl. rewrite (chunk_tuples_split _ _ _ Hc Hoff).
  assert (∀ off, chunk_rounds cp off = S (sc_count c - off)) as Hr.
  { intros off. unfold chunk_rounds. by rewrite Hc. }
  assert (0 < STANDARD_VECTOR_SIZE) by (unfold STANDARD_VECTOR_SIZE; lia).
  rewrite Hr. unfold next_window.
  destruct (Nat.leb_spec (sc_count c) (ss_offset s + STANDARD_VECTOR_SIZE)) as [Hle|Hlt].
  - exists cps. rewrite app_nil_r. split; [|split].
    + split; [done|]. destruct cps; [done|]. simpl. intros. lia.
    + destruct cps; cbn [rounds fmap list_fmap sum_list ss_offset]; [lia|]. unfold id. lia.
    + f_equal. by destruct cps.
  - exists (cp :: cps). split; [|split].
    + split; [simpl; eauto|]. simpl. intros c' Hc'. rewrite Hc in Hc'. injection Hc' as <-. lia.
    + simpl. rewrite Hr. lia.
    + by rewrite <- app_assoc.
Qed.

Definition holds_tuples (column_ids : list column_t) (data : list Vector) (ts : list tuple) : Prop :=
  ∀ j cid, column_ids !! j = Some cid → ∃ v, data !! j = Some v ∧ v_count v = length ts ∧
    match cid with
    | Column k => vec_cells v = (fun t : tuple => t !! k) <$> ts
    | COLUMN_IDENTIFIER_ROW_ID => True
    end.

Lemma holds_rows_tuples c column_ids data rs :
  holds_rows c column_ids data rs → holds_tuples column_ids data (snd <$> rs).
Proof.
  intros Hr j cid Hj. destruct (Hr _ _ Hj) as (v & Hv & Hcount & Hcells). exists v.
  rewrite length_fmap. repeat split; try done. destruct cid; [|done].
  rewrite Hcells, <- list_fmap_compose. done.
Qed.

Lemma holds_tuples_size cid column_ids data sel ts :
  holds_tuples (cid :: column_ids) data ts → chunk_size (mkDataChunk data sel) = length ts.
Proof.
  intros Hh. destruct (Hh 0 cid eq_refl) as (v & Hv & Hcount & _).
  destruct data; [done|]. simpl in *. by injection Hv as ->.
Qed.

Lemma Scan_spec fuel res cid column_ids s cps :
  scan_pos s cps → rounds s cps ≤ fuel →
  result_layout (dt_types tbl) (cid :: column_ids) (dc_data res) → blank (cid :: column_ids) (dc_data res) →
  ∃ res' s' cps' ts, Scan fuel tx R res (cid :: column_ids) s = Ok (res', s') ∧
    scan_pos s' cps' ∧ rounds s' cps' ≤ rounds s cps ∧
    (ts ≠ [] → rounds s' cps' < rounds s cps) ∧
    remaining s cps ≡ₚ ts ++ remaining s' cps' ∧
    holds_tuples (cid :: column_ids) (dc_data res') ts ∧ (ts = [] → cps' = []).
Proof.
  revert res s cps. induction fuel as [|fuel IH]; intros res s [|cp cps] Hpos Hf Hlay Hblank.
  1,3: exists res, s, [], []; destruct Hpos as [Hp _]; simpl in Hp; simpl; rewrite Hp;
    (repeat split; try done); intros j c Hj; destruct (Hlay _ _ Hj) as (v & Hv & _);
    exists v; rewrite (Hblank _ _ _ Hj Hv); unfold vec_cells; rewrite (Hblank _ _ _ Hj Hv); by destruct c.
  { destruct Hpos as [(_ & c & Hc & _) _]. simpl in Hf. unfold chunk_rounds in Hf at 1.
    rewrite Hc in Hf. lia. }
  pose proof Hpos as [(Hp & c & Hc & Htp & _) Hoff]. simpl in Hoff. specialize (Hoff _ Hc).
  destruct (scan_step_spec R H cp c tx tbl Hwf Hdw Hc ltac:(by rewrite Htp) (dc_data res)
    (cid :: column_ids) s Hoff Hlay Hblank) as (data' & rs & Hstep & Hperm & Hrows & Hlay').
  destruct (next_window_spec s cp c cps Hpos Hc) as (cps' & Hpos' & Hlt & Hrem).
  apply holds_rows_tuples in Hrows. simpl Scan. rewrite Hp, Hstep. simpl mbind. cbv beta.
  rewrite (holds_tuples_size _ _ _ _ _ Hrows), length_fmap, Hrem.
  apply (fmap_Permutation snd) in Hperm. destruct rs as [|rt rs]; simpl length; cbn [Nat.ltb Nat.leb].
  - destruct (IH (mkDataChunk data' (dc_sel res)) (next_window cp c s) cps' Hpos') as
      (res' & s' & cps'' & ts & Hs & Hpos'' & Hle & Hlt' & Hperm' & Hh & Hend); [lia|done| |].
    { intros j c' v Hj Hv. destruct (Hrows _ _ Hj) as (v' & Hv' & Hcount & _).
      simpl in Hv. rewrite Hv in Hv'. by injection Hv' as <-. }
    exists res', s', cps'', ts.
    split; [done|]. split; [done|]. split; [lia|]. split; [intros Hne; lia|].
    split; [by rewrite <- Hperm|done].
  - eexists _, _, cps', _. split; [done|]. split; [done|]. split; [lia|]. split; [done|].
    split; [by rewrite <- Hperm|]. split; [done|]. done.
Qed.

(** A scan of the whole table terminates and returns, column by column, the
    tuples the transaction sees, each exactly once. *)
Lemma scan_table_spec types cid column_ids s cps fuel calls :
  result_layout (dt_types tbl) (cid :: column_ids) (EmptyVector <$> types) →
  scan_pos s cps → rounds s cps ≤ fuel → rounds s cps < calls →
  ∃ out tss, scan_table calls fuel tx R types (cid :: column_ids) s = Ok out ∧
    concat tss ≡ₚ remaining s cps ∧
    Forall2 (fun ch ts => ts ≠ [] ∧ holds_tuples (cid :: column_ids) (dc_data ch) ts) out tss.
Proof.
  intros Hlay. revert s cps. induction calls as [|calls IH]; intros s cps Hpos Hf Hcalls; [lia|].
  destruct (Scan_spec fuel (DataChunk_Initialize types) cid column_ids s cps Hpos Hf Hlay) as
    (res & s' & cps' & ts & Hs & Hpos' & Hle & Hlt & Hperm & Hh & Hend).
  { intros j c v _ Hv. simpl in Hv. apply list_lookup_fmap_Some in Hv as (ty & -> & _). done. }
  cbn [scan_table]. rewrite Hs. simpl mbind. cbv beta. destruct res as [data sel]. simpl in Hh.
  rewrite (holds_tuples_size _ _ _ _ _ Hh). destruct ts as [|t ts].
  - exists [], []. rewrite (Hend eq_refl) in Hperm. simpl. by rewrite Hperm.
  - destruct (IH s' cps' Hpos') as (out & tss & Hout & Hcat & Hall); [lia|specialize (Hlt ltac:(done)); lia|].
    simpl Nat.eqb. cbv iota. rewrite Hout. exists (mkDataChunk data sel :: out), ((t :: ts) :: tss).
    split; [done|]. split; [simpl; by rewrite Hcat, Hperm|]. by constructor.
Qed.
End full_scan.
