(* ===== verification/TableOps.v ===== *)
(** * What the table operations do to the version histories

    The operations of [DataTable.v] push nodes of one transaction onto the
    histories of rows and change the base rows below them.  [extends] is what
    the rest of the system may rely on; [same_view] says that a transaction
    reads the same rows before and after. *)

From Stdlib Require Import ZArith Lia.
From stdpp Require Import base gmap list strings option numbers sorting.
From S2P Require Import Prelude Types Vector Tuple Storage Versions DataTable.

(** A version node is linked into some row, with a number. *)
Definition linked (H : hist) (l : nat) (num : Z) : Prop :=
  ∃ cp r n, n ∈ H cp r ∧ n_loc n = l ∧ n_num n = num.

(** The version nodes held by an undo buffer, oldest first. *)
Definition entry_loc (e : UndoEntry) : option nat :=
  match ue_data e with UVersion l => Some l | _ => None end.
Definition entry_cat (e : UndoEntry) : option nat :=
  match ue_data e with UCatalog c => Some c | _ => None end.
Definition undo_locs (tx : Transaction) : list nat := omap entry_loc (undo_buffer tx).

(** Entries as the transactions create them: the tag fits the data. *)
Definition entry_ok (e : UndoEntry) : Prop :=
  match ue_data e with
  | UVersion _ => ue_type e = INSERT_TUPLE ∨ ue_type e = DELETE_TUPLE ∨ ue_type e = UPDATE_TUPLE
  | UCatalog _ => ue_type e = CATALOG_ENTRY
  | UQuery _ => ue_type e = QUERY
  end.

(** Chunks stay where they are and keep their number of rows. *)
Definition places (R R' : rows) : Prop :=
  (∀ cp c, chunks R !! cp = Some c → ∃ c', chunks R' !! cp = Some c' ∧ same_place c c') ∧
  (∀ cp, chunks R !! cp = None → chunks R' !! cp = None).

Lemma places_refl R : places R R.
Proof. split; [|done]. intros cp c Hc. exists c. by repeat split. Qed.

Lemma places_trans R1 R2 R3 : places R1 R2 → places R2 R3 → places R1 R3.
Proof.
  intros [H1 N1] [H2 N2]. split; [|auto]. intros cp c Hc. destruct (H1 _ _ Hc) as (c2 & Hc2 & (? & ? & ? & ?)).
  destruct (H2 _ _ Hc2) as (c3 & Hc3 & (? & ? & ? & ?)). exists c3. split; [done|].
  repeat split; congruence.
Qed.

Lemma places_insert R R' cp c c' :
  chunks R !! cp = Some c → chunks R' = <[cp := c']> (chunks R) → same_place c c' → places R R'.
Proof.
  intros Hc Hc' Hp. split; intros cp'; rewrite Hc'; (destruct (decide (cp = cp')) as [<-|];
    [rewrite lookup_insert_eq|rewrite lookup_insert_ne by done]); [| |congruence|done].
  - intros c0 Hc0. exists c'. split; [done|]. congruence.
  - intros c0 Hc0. exists c0. by repeat split.
Qed.

(** Tables keep their chunks; new chunks are only hung behind the last one. *)
Record grows (R R' : rows) : Prop := {
  gr_table : ∀ tp tbl, tables R !! tp = Some tbl → ∃ tbl', tables R' !! tp = Some tbl' ∧
    dt_chunk_list tbl' = dt_chunk_list tbl ∧ dt_types tbl' = dt_types tbl;
  gr_chunk : ∀ cp c, chunks R !! cp = Some c → ∃ c', chunks R' !! cp = Some c' ∧
    sc_table c' = sc_table c ∧
    (sc_next c' = sc_next c ∨ sc_next c = None ∧ ∀ n, sc_next c' = Some n → chunks R !! n = None);
  gr_new : ∀ cp c', chunks R !! cp = None → chunks R' !! cp = Some c' →
    ∀ n, sc_next c' = Some n → chunks R !! n = None }.

Lemma grows_refl R : grows R R.
Proof.
  constructor; [eauto| |congruence]. intros cp c Hc. exists c. split_and!; try done. by left.
Qed.

Lemma grows_fresh R R' cp : grows R R' → chunks R' !! cp = None → chunks R !! cp = None.
Proof.
  intros Hg Hn. destruct (chunks R !! cp) as [c|] eqn:Hc; [|done].
  destruct (gr_chunk _ _ Hg cp c Hc) as (c' & Hc' & _). congruence.
Qed.

Lemma grows_trans R1 R2 R3 : grows R1 R2 → grows R2 R3 → grows R1 R3.
Proof.
  intros G1 G2. constructor.
  - intros tp tbl Ht. destruct (gr_table _ _ G1 tp tbl Ht) as (t2 & Ht2 & E2 & F2).
    destruct (gr_table _ _ G2 tp t2 Ht2) as (t3 & Ht3 & E3 & F3). exists t3. split_and!; congruence.
  - intros cp c Hc. destruct (gr_chunk _ _ G1 cp c Hc) as (c2 & Hc2 & E2 & N2).
    destruct (gr_chunk _ _ G2 cp c2 Hc2) as (c3 & Hc3 & E3 & N3). exists c3. split_and!; [done|congruence|].
    destruct N2 as [N2|[N2 F2]], N3 as [N3|[N3 F3]].
    + left. congruence.
    + right. split; [congruence|]. intros n Hn. by eapply grows_fresh, F3.
    + right. split; [done|]. intros n Hn. apply F2. congruence.
    + right. split; [done|]. intros n Hn. by eapply grows_fresh, F3.
  - intros cp c3 Hc Hc3 n Hn. destruct (chunks R2 !! cp) as [c2|] eqn:Hc2.
    + destruct (gr_chunk _ _ G2 cp c2 Hc2) as (c3' & Hc3' & _ & N3). simplify_eq.
      destruct N3 as [N3|[N3 F3]].
      * eapply (gr_new _ _ G1); [done|exact Hc2|congruence].
      * by eapply grows_fresh, F3.
    + eapply grows_fresh; [done|]. by eapply (gr_new _ _ G2).
Qed.

Lemma places_grows R R' : places R R' → tables R' = tables R → grows R R'.
Proof.
  intros [Hp Hn] Ht. constructor.
  - intros tp tbl. rewrite Ht. eauto.
  - intros cp c Hc. destruct (Hp cp c Hc) as (c' & Hc' & (? & ? & ? & ?)). exists c'. split_and!; try done. by left.
  - intros cp c' Hc Hc'. rewrite (Hn cp Hc) in Hc'. done.
Qed.

(** Only the oldest version of a row can be an insertion. *)
Definition inserts_last (H : hist) : Prop :=
  ∀ cp r, StronglySorted (fun a _ => is_Some (n_old a)) (H cp r).

Record extends (tx tx' : Transaction) (R R' : rows) (H H' : hist) : Prop := {
  ex_id : transaction_id tx' = transaction_id tx;
  ex_start : start_time tx' = start_time tx;
  ex_commit : commit_id tx' = commit_id tx;
  ex_query : active_query tx' = active_query tx;
  ex_undo : ∃ es, undo_buffer tx' = undo_buffer tx ++ es ∧ Forall entry_ok es ∧
    omap entry_loc es = seq (next_version R) (next_version R' - next_version R) ∧
    omap entry_cat es = [];
  ex_next : next_version R ≤ next_version R';
  ex_linked : ∀ l num, linked H' l num ↔
    linked H l num ∨ (next_version R ≤ l < next_version R' ∧ num = transaction_id tx);
  ex_links : links_wf R' H';
  ex_data : data_wf R' H';
  ex_inserts : inserts_last H → inserts_last H';
  ex_grows : grows R R' }.

(** The row that a transaction reads at row [r] of chunk [cp]. *)
Definition view (R : rows) (H : hist) (tx : Transaction) (cp r : nat) : option tuple :=
  match chunks R !! cp with
  | Some c => if decide (r < sc_count c) then visible tx (base_value c r) (H cp r) else None
  | None => None
  end.

Definition same_view (tx : Transaction) (R R' : rows) (H H' : hist) : Prop :=
  ∀ cp r, view R' H' tx cp r = view R H tx cp r.

(** [tx'] does not see uncommitted work of [tx]. *)
Definition other (tx tx' : Transaction) : Prop :=
  transaction_id tx' ≠ transaction_id tx ∧ (start_time tx' ≤ TRANSACTION_ID_START)%Z ∧
  (TRANSACTION_ID_START ≤ transaction_id tx)%Z.

Lemma other_sees tx tx' : other tx tx' → sees tx' (transaction_id tx) = false.
Proof. unfold other, sees. intros (? & ? & ?). lia. Qed.

Lemma extends_refl tx R H : links_wf R H → data_wf R H → extends tx tx R R H H.
Proof.
  intros Hl Hd. constructor; try done; [| |apply grows_refl].
  - exists []. rewrite app_nil_r, Nat.sub_diag. by repeat split.
  - intros. split; [by left|]. intros [?|[? _]]; [done|lia].
Qed.

Lemma extends_trans tx1 tx2 tx3 R1 R2 R3 H1 H2 H3 :
  extends tx1 tx2 R1 R2 H1 H2 → extends tx2 tx3 R2 R3 H2 H3 → extends tx1 tx3 R1 R3 H1 H3.
Proof.
  intros E F. pose proof (ex_next _ _ _ _ _ _ E). pose proof (ex_next _ _ _ _ _ _ F).
  destruct (ex_undo _ _ _ _ _ _ E) as (es & Hes & Hok & Hseq & Hnc).
  destruct (ex_undo _ _ _ _ _ _ F) as (fs & Hfs & Hok' & Hseq' & Hnc').
  constructor.
  - by rewrite (ex_id _ _ _ _ _ _ F), (ex_id _ _ _ _ _ _ E).
  - by rewrite (ex_start _ _ _ _ _ _ F), (ex_start _ _ _ _ _ _ E).
  - by rewrite (ex_commit _ _ _ _ _ _ F), (ex_commit _ _ _ _ _ _ E).
  - by rewrite (ex_query _ _ _ _ _ _ F), (ex_query _ _ _ _ _ _ E).
  - exists (es ++ fs). rewrite Hfs, Hes, app_assoc. split; [done|].
    split; [by apply Forall_app|]. rewrite !omap_app, Hseq, Hseq', Hnc, Hnc'. split; [|done].
    replace (next_version R3 - next_version R1)
      with ((next_version R2 - next_version R1) + (next_version R3 - next_version R2)) by lia.
    rewrite seq_app. do 2 f_equal. lia.
  - lia.
  - intros l num. rewrite (ex_linked _ _ _ _ _ _ F), (ex_linked _ _ _ _ _ _ E), (ex_id _ _ _ _ _ _ E).
    destruct (decide (l < next_version R2)); naive_solver lia.
  - apply F.
  - apply F.
  - intros Hi. by apply F, E.
  - eapply grows_trans; [apply E|apply F].
Qed.

(** ** Pushing the current tuple of a row *)

Lemma linked_push H cp r n l num :
  linked (hupd H cp r (n :: H cp r)) l num ↔ linked H l num ∨ (l = n_loc n ∧ num = n_num n).
Proof.
  unfold linked, hupd. split.
  - intros (cp' & r' & m & Hm & <- & <-). case_decide as Hd.
    + destruct Hd as [-> ->]. apply elem_of_cons in Hm as [->|Hm]; [by right|left]. by exists cp, r, m.
    + left. by exists cp', r', m.
  - intros [(cp' & r' & m & Hm & <- & <-)|[-> ->]].
    + exists cp', r', m. repeat split. case_decide as Hd; [|done].
      destruct Hd as [-> ->]. by right.
    + exists cp, r, n. repeat split. rewrite decide_True by done. left.
Qed.

Lemma extends_push tx fl (R R' : rows) H cp r n :
  entry_ok (mkUndoEntry fl (UVersion (next_version R))) →
  n_loc n = next_version R → n_num n = transaction_id tx → is_Some (n_old n) →
  next_version R' = S (next_version R) → grows R R' →
  links_wf R' (hupd H cp r (n :: H cp r)) → data_wf R' (hupd H cp r (n :: H cp r)) →
  extends tx (CreateEntry tx fl (UVersion (next_version R))) R R' H (hupd H cp r (n :: H cp r)).
Proof.
  intros Hok Hloc Hnum Hold Hnext Hg Hl Hd. constructor; try done.
  - exists [mkUndoEntry fl (UVersion (next_version R))]. split; [done|]. split; [by constructor|].
    rewrite Hnext. replace (S (next_version R) - next_version R) with 1 by lia. done.
  - lia.
  - intros l num. rewrite linked_push, Hloc, Hnum, Hnext. naive_solver lia.
  - intros Hi cp' r'. unfold hupd. case_decide; [|apply Hi]. constructor; [apply Hi|].
    apply Forall_forall. intros m _. done.
Qed.

#[export] Instance conflict_free_dec tx ns : Decision (conflict_free tx ns).
Proof. destruct ns; simpl; apply _. Defined.

Definition own_head (tx : Transaction) (ns : list vnode) : Prop :=
  match ns with n :: _ => n_num n = transaction_id tx | [] => False end.

Section push.
Context (R : rows) (H : hist) (cp : nat) (c : StorageChunk) (r : nat) (tx : Transaction).
Context (Hwf : links_wf R H) (Hdw : data_wf R H) (Hc : chunks R !! cp = Some c).
Context (Hr : r < sc_count c) (Hid : (TRANSACTION_ID_START ≤ transaction_id tx)%Z).

(** The conflict test of the code decides [conflict_free]. *)
Lemma has_conflict_spec : has_conflict tx R c r = Ok (negb (bool_decide (conflict_free tx (H cp r)))).
Proof.
  unfold has_conflict. rewrite (lw_pointer _ _ _ _ r Hwf Hc).
  pose proof (lw_rep _ _ _ _ r Hwf Hc) as Hrep. destruct (H cp r) as [|n ns]; [done|].
  destruct Hrep as [Hn _]. simpl. rewrite Hn. simpl. f_equal.
  destruct (Z.leb_spec TRANSACTION_ID_START (n_num n)); destruct (Z.eqb_spec (n_num n) (transaction_id tx));
    destruct (bool_decide_reflect (n_num n = transaction_id tx ∨ (n_num n < TRANSACTION_ID_START)%Z));
    simpl; try done; lia.
Qed.

Lemma push_row fl :
  entry_ok (mkUndoEntry fl (UVersion (next_version R))) → conflict_free tx (H cp r) →
  ∃ R' t, row_at (columns c) r = Some t ∧
    let n := mkNode (next_version R) (transaction_id tx) (Some t) in
    PushTuple tx R fl r cp = Ok (CreateEntry tx fl (UVersion (next_version R)), R') ∧
    chunks R' = <[cp := set_version_pointer c r (Some (next_version R))]> (chunks R) ∧
    tables R' = tables R ∧ next_chunk R' = next_chunk R ∧
    extends tx (CreateEntry tx fl (UVersion (next_version R))) R R' H (hupd H cp r (n :: H cp r)).
Proof.
  intros Hok Hcf. destruct (dw_table _ _ Hdw _ _ Hc) as (tbl & Ht & Hlen & [Hser _]).
  destruct (dw_row _ _ Hdw _ _ _ _ Hc Ht Hr) as (t & Hrow & Hwt).
  destruct (PushTuple_spec R H cp c r Hwf Hc tx fl tbl t Ht Hser Hlen Hrow Hcf Hid)
    as (R' & Hpush & Hch & Htb & Hnv & Hnc & Hl).
  exists R', t. split; [done|]. intros n. repeat (split; [done|]).
  apply extends_push; try done.
  { apply places_grows; [|done]. eapply places_insert; [done|done|by repeat split]. }
  eapply data_update; try done.
  - intros tbl' r' Ht' Hr'. simpl. by eapply dw_row.
  - intros tbl' m t' Ht' Hm Hold. apply elem_of_cons in Hm as [->|Hm].
    + simpl in Hold. rewrite Ht in Ht'. by simplify_eq.
    + by eapply dw_old.
  - intros r' Hin. by right.
Qed.
End push.

(** ** Views of a row that changes *)

(** Changing one row below a new node of [tx] is invisible to the others. *)
Lemma push_same_view R R' H cp c c' r n tx tx' :
  chunks R !! cp = Some c → chunks R' = <[cp := c']> (chunks R) → same_place c c' →
  (∀ r', r' ≠ r → base_value c' r' = base_value c r') →
  n_num n = transaction_id tx → other tx tx' →
  (r < sc_count c → own_head tx (H cp r) ∨ n_old n = base_value c r) →
  same_view tx' R R' H (hupd H cp r (n :: H cp r)).
Proof.
  intros Hc Hc' (_ & _ & _ & Hcount) Hbase Hnum Ho Hown cp' r'. unfold view, hupd. rewrite Hc'.
  destruct (decide (cp = cp')) as [<-|].
  - rewrite lookup_insert_eq, Hc, Hcount. case_decide as Hlt; [|done].
    destruct (decide (r' = r)) as [->|].
    + rewrite decide_True by done. simpl. rewrite Hnum, (other_sees _ _ Ho).
      destruct (Hown Hlt) as [Hh|Hold]; [|by rewrite Hold].
      destruct (H cp r) as [|m ns]; [done|]. simpl in *. by rewrite Hh, (other_sees _ _ Ho).
    + rewrite decide_False by naive_solver. by rewrite Hbase.
  - rewrite lookup_insert_ne by done. destruct (chunks R !! cp') as [c0|]; [|done].
    case_decide; [|done]. by rewrite decide_False by naive_solver.
Qed.

(** Changing a row whose newest node is of [tx] is invisible to the others. *)
Lemma write_same_view R R' H cp c c' r tx tx' :
  chunks R !! cp = Some c → chunks R' = <[cp := c']> (chunks R) → same_place c c' →
  (∀ r', r' ≠ r → base_value c' r' = base_value c r') →
  other tx tx' → own_head tx (H cp r) → same_view tx' R R' H H.
Proof.
  intros Hc Hc' (_ & _ & _ & Hcount) Hbase Ho Hown cp' r'. unfold view. rewrite Hc'.
  destruct (decide (cp = cp')) as [<-|]; [|by rewrite lookup_insert_ne].
  rewrite lookup_insert_eq, Hc, Hcount. case_decide as Hlt; [|done].
  destruct (decide (r' = r)) as [->|]; [|by rewrite Hbase].
  destruct (H cp r) as [|m ns]; [done|]. simpl in *. by rewrite Hown, (other_sees _ _ Ho).
Qed.

Lemma same_view_refl tx R H : same_view tx R R H H.
Proof. done. Qed.

Lemma same_view_trans tx R1 R2 R3 H1 H2 H3 :
  same_view tx R1 R2 H1 H2 → same_view tx R2 R3 H2 H3 → same_view tx R1 R3 H1 H3.
Proof. intros E F cp r. by rewrite F, E. Qed.

(** ** Delete *)

Lemma own_head_id tx tx' ns :
  transaction_id tx' = transaction_id tx → own_head tx' ns ↔ own_head tx ns.
Proof. intros E. unfold own_head. by rewrite E. Qed.

Section deletes.
Context {IX : Type} `{!TableIndexes IX}.
Implicit Types (s : tstate IX).

Lemma chunk_row_spec c ids i r : chunk_row c ids i = Ok r → r < sc_count c.
Proof.
  unfold chunk_row. intros (id & Hid & Hx)%bind_Ok. apply bind_Ok in Hx as (u & Ha & Hx).
  injection Hx as <-. destruct ((_ <=? _) && _) eqn:E; [|done].
  apply andb_true_iff in E as [?%Nat.leb_le ?%Nat.ltb_lt]. lia.
Qed.

Lemma chunk_row_place c c' ids i : same_place c c' → chunk_row c' ids i = chunk_row c ids i.
Proof. intros (_ & Es & _ & Ec). unfold chunk_row. by rewrite Es, Ec. Qed.

Definition wf_state s (H : hist) : Prop :=
  links_wf (st_rows s) H ∧ data_wf (st_rows s) H ∧
  (TRANSACTION_ID_START ≤ transaction_id (st_tx s))%Z.

(** What the operations of a transaction may do to the shared state. *)
Record changes s s' (H H' : hist) : Prop := {
  ch_extends : extends (st_tx s) (st_tx s') (st_rows s) (st_rows s') H H';
  ch_places : places (st_rows s) (st_rows s');
  ch_tables : tables (st_rows s') = tables (st_rows s);
  ch_own : ∀ cp r, own_head (st_tx s) (H cp r) → own_head (st_tx s) (H' cp r) }.

Lemma changes_wf s s' H H' : wf_state s H → changes s s' H H' → wf_state s' H'.
Proof.
  intros (_ & _ & Hid) [E _ _ _]. split; [apply E|]. split; [apply E|]. by rewrite (ex_id _ _ _ _ _ _ E).
Qed.

Lemma changes_refl s H : wf_state s H → changes s s H H.
Proof. intros (Hl & Hd & _). constructor; try done; [by apply extends_refl|apply places_refl]. Qed.

Lemma changes_trans s1 s2 s3 H1 H2 H3 :
  changes s1 s2 H1 H2 → changes s2 s3 H2 H3 → changes s1 s3 H1 H3.
Proof.
  intros [E1 P1 T1 O1] [E2 P2 T2 O2]. constructor.
  - by eapply extends_trans.
  - by eapply places_trans.
  - congruence.
  - intros cp r Ho%O1. apply (own_head_id _ _ _ (ex_id _ _ _ _ _ _ E1)), O2.
    by apply (own_head_id _ _ _ (ex_id _ _ _ _ _ _ E1)).
Qed.

(** Saving the version of one row. *)
Lemma save_version_spec s H cp c r fl :
  wf_state s H → chunks (st_rows s) !! cp = Some c → r < sc_count c →
  fl = DELETE_TUPLE ∨ fl = UPDATE_TUPLE →
  if decide (conflict_free (st_tx s) (H cp r)) then
    ∃ R' t, row_at (columns c) r = Some t ∧
      let n := mkNode (next_version (st_rows s)) (transaction_id (st_tx s)) (Some t) in
      let s' := mkTState (CreateEntry (st_tx s) fl (UVersion (n_loc n))) R' (st_ix s) in
      save_version fl cp r s = (Ok tt, s') ∧
      chunks R' = <[cp := set_version_pointer c r (Some (n_loc n))]> (chunks (st_rows s)) ∧
      changes s s' H (hupd H cp r (n :: H cp r)) ∧ next_chunk R' = next_chunk (st_rows s)
  else save_version fl cp r s = (Throw TransactionException, s).
Proof.
  intros (Hl & Hd & Hid) Hc Hr Hfl. unfold save_version, mbind, M_bind, mbind_M, get_M, lift_M.
  rewrite Hc. simpl. rewrite (has_conflict_spec _ H cp) by done. case_decide as Hcf.
  - rewrite bool_decide_eq_true_2 by done. simpl.
    destruct (push_row _ _ cp c r _ Hl Hd Hc Hr Hid fl) as (R' & t & Hrow & Hpush & Hch & Htb & Hnc & Hex).
    { unfold entry_ok. simpl. naive_solver. }
    { done. }
    exists R', t. split; [done|]. unfold push_state. rewrite Hpush. simpl.
    split; [done|]. split; [done|]. split; [|done]. constructor; simpl; try done.
    + eapply places_insert; [done|done|by repeat split].
    + intros cp' r'. unfold hupd. case_decide as Hx; [|done]. destruct Hx as [-> ->]. done.
  - rewrite bool_decide_eq_false_2 by done. done.
Qed.

(** Writing base rows of a chunk, its version pointers left alone. *)
Lemma write_chunk_spec s H cp c c' r :
  wf_state s H → chunks (st_rows s) !! cp = Some c → r < sc_count c →
  same_place c c' → version_pointers c' = version_pointers c →
  length (columns c') = length (columns c) →
  (∀ tbl r', tables (st_rows s) !! sc_table c = Some tbl → r' < sc_count c →
     ∃ t, row_at (columns c') r' = Some t ∧ well_typed (dt_types tbl) t) →
  (∀ r', r' ∈ deleted c' → r' = r ∨ r' ∈ deleted c) →
  changes s (mkTState (st_tx s) (set_chunk (st_rows s) cp c') (st_ix s)) H H.
Proof.
  intros (Hl & Hd & Hid) Hc Hr Hp Hv Hlen Hrows Hdel.
  assert (links_wf (set_chunk (st_rows s) cp c') H) as Hl' by (eapply links_set_chunk; try done; apply Hp).
  assert (data_wf (set_chunk (st_rows s) cp c') H) as Hd'.
  { eapply data_wf_ext; [intros; symmetry; apply (hupd_same H cp r)|].
    eapply data_update; try done. intros tbl n t Ht Hn Ho. by eapply dw_old. }
  constructor; simpl; try done; [|by eapply places_insert].
  constructor; simpl; try done.
  - exists []. rewrite app_nil_r, Nat.sub_diag. by repeat split.
  - intros. split; [by left|]. intros [?|[? _]]; [done|lia].
  - apply places_grows; [by eapply places_insert|done].
Qed.

(** The row [r] of chunk [cp] has been deleted by the transaction. *)
Lemma delete_row_spec s H cp c ids ik r :
  wf_state s H → chunks (st_rows s) !! cp = Some c → chunk_row c ids ik.1 = Ok r →
  if decide (conflict_free (st_tx s) (H cp r)) then
    ∃ s' n, delete_row cp ids ik s = (Ok tt, s') ∧ st_ix s' = st_ix s ∧
      n_num n = transaction_id (st_tx s) ∧ n_old n = row_at (columns c) r ∧
      changes s s' H (hupd H cp r (n :: H cp r)) ∧
      chunks (st_rows s') = <[cp := set_deleted (set_version_pointer c r (Some (n_loc n))) r true]>
                              (chunks (st_rows s))
  else delete_row cp ids ik s = (Throw TransactionException, s).
Proof.
  intros Hwf Hc Hrow. pose proof (chunk_row_spec _ _ _ _ Hrow) as Hr.
  pose proof (save_version_spec s H cp c r DELETE_TUPLE Hwf Hc Hr (or_introl eq_refl)) as Hsave.
  unfold delete_row. run. rewrite Hc. run. rewrite Hrow. run.
  case_decide as Hcf; [|by run_using Hsave].
  destruct Hsave as (R' & t & Ht & Hs & Hch & Hchg & Hnc). run_using Hs. cbn [st_rows].
  cbn [n_loc] in Hch, Hchg.
  rewrite Hch, lookup_insert_eq. run.
  set (c1 := set_version_pointer c r (Some (next_version (st_rows s)))) in *.
  eexists _, (mkNode _ _ (Some t)). split; [reflexivity|]. split; [done|]. split; [done|]. split; [done|].
  assert (chunks R' !! cp = Some c1) as Hc1 by (by rewrite Hch, lookup_insert_eq).
  pose proof (changes_wf _ _ _ _ Hwf Hchg) as Hwf1.
  split; [|simpl; by rewrite Hch, insert_insert_eq].
  eapply changes_trans; [exact Hchg|].
  eapply (write_chunk_spec (mkTState _ R' _) _ cp c1); try done.
  - intros tbl r' Htb Hr'. simpl in Htb. destruct Hwf1 as (_ & Hd1 & _).
    exact (dw_row _ _ Hd1 _ _ _ _ Hc1 Htb Hr').
  - simpl. set_solver.
Qed.

(** Rows the transaction may change without the others noticing. *)
Definition isolated s (H : hist) (cp r : nat) : Prop :=
  own_head (st_tx s) (H cp r) ∨ ∀ c, chunks (st_rows s) !! cp = Some c → r ∉ deleted c.

Definition same_views s s' (H H' : hist) : Prop :=
  ∀ tx', other (st_tx s) tx' → same_view tx' (st_rows s) (st_rows s') H H'.

Lemma same_views_trans s1 s2 s3 H1 H2 H3 :
  transaction_id (st_tx s2) = transaction_id (st_tx s1) →
  same_views s1 s2 H1 H2 → same_views s2 s3 H2 H3 → same_views s1 s3 H1 H3.
Proof.
  intros Hid E F tx' Ho. eapply same_view_trans; [by apply E|]. apply F.
  unfold other in *. by rewrite Hid.
Qed.

Lemma delete_row_isolated s s' H cp c r n :
  chunks (st_rows s) !! cp = Some c → isolated s H cp r →
  n_num n = transaction_id (st_tx s) → n_old n = row_at (columns c) r →
  chunks (st_rows s') = <[cp := set_deleted (set_version_pointer c r (Some (n_loc n))) r true]>
                          (chunks (st_rows s)) →
  same_views s s' H (hupd H cp r (n :: H cp r)) ∧
  ∀ r', isolated s H cp r' → transaction_id (st_tx s') = transaction_id (st_tx s) →
    isolated s' (hupd H cp r (n :: H cp r)) cp r'.
Proof.
  intros Hc Hiso Hnum Hold Hch. split.
  - intros tx' Ho. eapply push_same_view; try done.
    + intros r' Hne. unfold base_value. simpl. destruct (decide (r' ∈ deleted c)).
      * rewrite decide_True by set_solver. done.
      * rewrite decide_False by set_solver. done.
    + intros Hr. destruct Hiso as [?|Hnd]; [by left|right]. unfold base_value.
      by rewrite decide_False by eauto.
  - intros r' Hiso' Hid. unfold isolated, hupd. destruct (decide (r' = r)) as [->|Hne].
    + left. rewrite decide_True by done. apply (own_head_id _ _ _ Hid). done.
    + rewrite decide_False by naive_solver. destruct Hiso' as [Ho|Hnd].
      * left. by apply (own_head_id _ _ _ Hid).
      * right. intros c'. rewrite Hch, lookup_insert_eq. intros [= <-]. simpl.
        specialize (Hnd _ Hc). set_solver.
Qed.

(** A row the transaction has deleted. *)
Definition gone s (H : hist) (cp r : nat) : Prop :=
  own_head (st_tx s) (H cp r) ∧ ∀ c, chunks (st_rows s) !! cp = Some c → r ∈ deleted c.

Lemma gone_view s H cp r : gone s H cp r → view (st_rows s) H (st_tx s) cp r = None.
Proof.
  intros [Ho Hd]. unfold view. destruct (chunks (st_rows s) !! cp) as [c|]; [|done].
  case_decide; [|done]. destruct (H cp r) as [|n ns]; [done|]. simpl in Ho. simpl.
  unfold sees. rewrite Ho, Z.eqb_refl. simpl. unfold base_value. by rewrite decide_True by auto.
Qed.

Lemma conflict_free_push s s' H cp r n r' :
  transaction_id (st_tx s') = transaction_id (st_tx s) → n_num n = transaction_id (st_tx s) →
  conflict_free (st_tx s) (H cp r) →
  conflict_free (st_tx s') (hupd H cp r (n :: H cp r) cp r') ↔ conflict_free (st_tx s) (H cp r').
Proof.
  intros Hid Hn Hcf. unfold hupd. case_decide as Hd.
  - destruct Hd as [_ ->]. unfold conflict_free at 1. rewrite Hn, Hid. naive_solver.
  - unfold conflict_free. by rewrite Hid.
Qed.

Lemma delete_rows_spec iks rs s H cp c ids :
  wf_state s H → chunks (st_rows s) !! cp = Some c →
  Forall2 (fun ik r => chunk_row c ids ik.1 = Ok r) iks rs →
  ∃ s' H', for_M iks (delete_row cp ids) s =
      ((if decide (Forall (fun r => conflict_free (st_tx s) (H cp r)) rs) then Ok tt
        else Throw TransactionException), s') ∧
    changes s s' H H' ∧ st_ix s' = st_ix s ∧
    (Forall (isolated s H cp) rs → same_views s s' H H') ∧
    (∀ r, gone s H cp r → gone s' H' cp r) ∧
    (Forall (fun r => conflict_free (st_tx s) (H cp r)) rs → ∀ r, r ∈ rs → gone s' H' cp r).
Proof.
  intros Hwf Hc Hrs. revert s H c Hwf Hc Hrs. revert rs.
  induction iks as [|ik iks IH]; intros rs s H c Hwf Hc Hrs;
    inversion Hrs as [|? r ? rs' Hrow Hrs']; subst.
  { exists s, H. split_and!; try done; [by apply changes_refl|]. intros _ r Hr.
    by apply not_elem_of_nil in Hr. }
  pose proof (delete_row_spec s H cp c ids ik r Hwf Hc Hrow) as Hdel. cbn [for_M].
  destruct (decide (conflict_free (st_tx s) (H cp r))) as [Hcf|Hcf].
  2:{ run_using Hdel. exists s, H. rewrite decide_False by (intros [??]%Forall_cons; done).
      split_and!; try done; [by apply changes_refl|]. intros [??]%Forall_cons. done. }
  destruct Hdel as (s1 & n & Hs1 & Hix & Hnum & Hold & Hchg & Hch). run_using Hs1.
  set (H1 := hupd H cp r (n :: H cp r)) in *.
  pose proof (ex_id _ _ _ _ _ _ (ch_extends _ _ _ _ Hchg)) as Hid.
  set (c1 := set_deleted (set_version_pointer c r (Some (n_loc n))) r true) in *.
  assert (chunks (st_rows s1) !! cp = Some c1) as Hc1 by (by rewrite Hch, lookup_insert_eq).
  assert (∀ r', conflict_free (st_tx s1) (H1 cp r') ↔ conflict_free (st_tx s) (H cp r')) as Hcfs
    by (intros r'; by apply conflict_free_push).
  assert (∀ r', gone s H cp r' ∨ r' = r → gone s1 H1 cp r') as Hgone.
  { intros r' Hg. split.
    - apply (own_head_id _ _ _ Hid). unfold H1, hupd. case_decide as Hd; [done|].
      destruct Hg as [Hg| ->]; [apply Hg|naive_solver].
    - intros c' Hc'. rewrite Hc1 in Hc'. injection Hc' as <-. simpl.
      destruct Hg as [[_ Hg]| ->]; [specialize (Hg _ Hc)|]; set_solver. }
  destruct (IH rs' s1 H1 c1) as (s' & H' & Hfor & Hchg' & Hix' & Hviews & Hkeep & Hall).
  { by eapply changes_wf. }
  { done. }
  { eapply Forall2_impl; [exact Hrs'|]. intros ik' r' Hr'. rewrite <- Hr'. by apply chunk_row_place. }
  exists s', H'. rewrite Hfor. split; [|split; [|split; [|split; [|split]]]].
  - f_equal. apply decide_ext. rewrite Forall_cons.
    setoid_rewrite Hcfs. naive_solver.
  - by eapply changes_trans.
  - congruence.
  - intros [Hi His]%Forall_cons.
    destruct (delete_row_isolated s s1 H cp c r n Hc Hi Hnum Hold Hch) as [Hv Hi'].
    eapply same_views_trans; [done|done|]. apply Hviews. eapply Forall_impl; [exact His|]. auto.
  - intros r' Hg. apply Hkeep, Hgone. by left.
  - intros [_ Hcfr]%Forall_cons r' [->|Hr']%elem_of_cons.
    + apply Hkeep, Hgone. by right.
    + apply Hall; [|done]. eapply Forall_impl; [exact Hcfr|]. intros ?. apply Hcfs.
Qed.
End deletes.

(** ** Finding the chunk of a row *)

Definition in_chunk (R : rows) (cp n : nat) : Prop :=
  ∃ c, chunks R !! cp = Some c ∧ sc_start c ≤ n < sc_start c + sc_count c.

Lemma GetChunk_from_spec R tp start tail cps fuel n :
  chunk_list_wf R tp start tail cps → length cps ≤ fuel →
  match GetChunk_from fuel R (head cps) n with
  | Ok cp => cp ∈ cps ∧ in_chunk R cp n
  | Throw e => e = OutOfRangeException ∧ ∀ cp, cp ∈ cps → ¬ in_chunk R cp n
  | Undef => False
  end.
Proof.
  revert start fuel. induction cps as [|cp cps IH]; intros start fuel; [done|].
  intros (c & Hc & Htp & Hs & Hn & Hrest) Hf. destruct fuel as [|fuel]; [simpl in Hf; lia|].
  simpl. rewrite Hc. simpl. destruct ((_ <=? _) && _) eqn:E.
  { apply andb_true_iff in E as [?%Nat.leb_le ?%Nat.ltb_lt]. split; [left|]. exists c. split; [done|lia]. }
  assert (¬ in_chunk R cp n) as Hnot.
  { intros (c' & Hc' & Hin). rewrite Hc in Hc'. injection Hc' as <-.
    apply andb_false_iff in E as [?%Nat.leb_gt|?%Nat.ltb_ge]; lia. }
  rewrite Hn. destruct cps as [|cp' cps].
  { destruct fuel; simpl; (split; [done|]); intros cp' ->%list_elem_of_singleton; done. }
  destruct Hrest as [_ Hrest]. specialize (IH _ fuel Hrest ltac:(simpl in *; lia)).
  destruct (GetChunk_from fuel R (head (cp' :: cps)) n) as [cp''|e|]; [|destruct IH as [-> IH]|done].
  - destruct IH as [Hin Hr]. split; [by right|done].
  - split; [done|]. intros cp'' [->|Hin]%elem_of_cons; [done|by apply IH].
Qed.

(** The rows of different chunks of a table have different numbers. *)
Lemma in_chunk_unique R tp start tail cps cp cp' n :
  chunk_list_wf R tp start tail cps → cp ∈ cps → cp' ∈ cps →
  in_chunk R cp n → in_chunk R cp' n → cp = cp'.
Proof.
  intros Hl. revert start Hl. induction cps as [|cp0 cps IH]; intros start; [done|].
  intros (c & Hc & Htp & Hs & Hn & Hrest).
  destruct cps as [|cp1 cps]; [by intros ->%list_elem_of_singleton ->%list_elem_of_singleton|].
  destruct Hrest as [_ Hrest].
  assert (∀ cp2, cp2 ∈ cp1 :: cps → in_chunk R cp0 n → in_chunk R cp2 n → False) as Hdisj.
  { intros cp2 Hin (c0 & Hc0 & Hr0) (c2 & Hc2 & Hr2).
    destruct (chunk_list_lookup _ _ _ _ _ _ Hrest Hin) as (c2' & Hc2' & _ & Hle).
    simplify_eq. lia. }
  intros [->|Hin]%elem_of_cons [->|Hin']%elem_of_cons Hr Hr'; try done.
  - exfalso; eauto.
  - exfalso; eauto.
  - by eapply IH.
Qed.

Lemma GetChunk_spec R H tp tbl n :
  data_wf R H → tables R !! tp = Some tbl →
  ∃ cps, table_list R tp tbl cps ∧
  match GetChunk R tp n with
  | Ok cp => cp ∈ cps ∧ in_chunk R cp n
  | Throw e => e = OutOfRangeException ∧ ∀ cp, cp ∈ cps → ¬ in_chunk R cp n
  | Undef => False
  end.
Proof.
  intros Hd Ht. destruct (dw_list _ _ Hd _ _ Ht) as (cps & Hhd & Hl). exists cps. split; [done|].
  unfold GetChunk. rewrite Ht. simpl mbind. cbv beta. rewrite <- Hhd.
  eapply GetChunk_from_spec; [done|]. by eapply chunk_list_length.
Qed.

Section delete_spec.
Context {IX : Type} `{!TableIndexes IX}.
Implicit Types (s : tstate IX).

(** The row identifiers name rows of one chunk of the table. *)
Definition row_targets (R : rows) (tp : nat) (ids : Vector) (cp : nat) (rs : list nat) : Prop :=
  v_type ids = T_POINTER ∧ v_count ids ≠ 0 ∧
  ∃ c id, chunks R !! cp = Some c ∧ row_id ids (sel_at (v_sel ids) 0) = Ok id ∧
    GetChunk R tp id = Ok cp ∧
    Forall2 (fun ik r => chunk_row c ids ik.1 = Ok r) (Exec ids 0 0) rs.

Lemma Delete_spec s H tp ids cp rs :
  wf_state s H → row_targets (st_rows s) tp ids cp rs →
  ∃ s' H', Delete tp ids s =
      ((if decide (Forall (fun r => conflict_free (st_tx s) (H cp r)) rs) then Ok tt
        else Throw TransactionException), s') ∧
    changes s s' H H' ∧ st_ix s' = st_ix s ∧
    (Forall (isolated s H cp) rs → same_views s s' H H') ∧
    (Forall (fun r => conflict_free (st_tx s) (H cp r)) rs → ∀ r, r ∈ rs →
       view (st_rows s') H' (st_tx s') cp r = None).
Proof.
  intros Hwf (Hty & Hcnt & c & id & Hc & Hid & Hget & Hrs).
  destruct (delete_rows_spec _ _ s H cp c ids Hwf Hc Hrs)
    as (s' & H' & Hfor & Hchg & Hix & Hv & _ & Hgone).
  exists s', H'. split; [|split_and!; try done].
  - unfold Delete. rewrite bool_decide_eq_true_2 by done. run.
    destruct (Nat.eqb_spec (v_count ids) 0); [done|]. run. rewrite Hid. run. by rewrite Hget.
  - intros Hcf r Hr. by apply gone_view, Hgone.
Qed.
End delete_spec.

(** ** Update *)

Lemma row_at_write_ne (cols : list column) col (cells : column) r x r' :
  cols !! col = Some cells → r' ≠ r → row_at (<[col := <[r := x]> cells]> cols) r' = row_at cols r'.
Proof.
  unfold row_at. revert col. induction cols as [|c0 cols IH]; intros [|col] Hcol Hne; simplify_eq/=.
  - by rewrite lookup_insert_ne.
  - by rewrite IH.
Qed.

Lemma row_at_write_eq (cols : list column) col (cells : column) r x t :
  cols !! col = Some cells → row_at cols r = Some t →
  row_at (<[col := <[r := x]> cells]> cols) r = Some (<[col := x]> t).
Proof.
  intros Hcol Ht. apply row_at_Forall2 in Ht. apply row_at_Forall2.
  apply Forall2_insert; [done|]. by rewrite lookup_insert_eq.
Qed.

(** The assignments [rxs] of column [col], applied in order to row [r]. *)
Definition write_cells (col : nat) (rxs : list (nat * cell)) (r : nat) (t : tuple) : tuple :=
  foldl (fun t rx => if decide (rx.1 = r) then <[col := rx.2]> t else t) t rxs.

Definition update_tuple (writes : list (nat * list (nat * cell))) (r : nat) (t : tuple) : tuple :=
  foldl (fun t w => write_cells w.1 w.2 r t) t writes.

(** With distinct rows, each row gets its own value. *)
Lemma write_cells_distinct col rxs r x t :
  NoDup rxs.*1 → (r, x) ∈ rxs → write_cells col rxs r t = <[col := x]> t.
Proof.
  unfold write_cells. revert t. induction rxs as [|[r' y] rxs IH]; intros t Hnd Hin;
    [by apply not_elem_of_nil in Hin|].
  apply NoDup_cons in Hnd as [Hnot Hnd]. simpl.
  apply elem_of_cons in Hin as [[= <- <-]|Hin].
  - rewrite decide_True by done. clear IH Hnd. revert Hnot.
    generalize (<[col := x]> t). induction rxs as [|[r' y] rxs IH]; intros t' Hnot; [done|].
    csimpl in Hnot. apply not_elem_of_cons in Hnot as [Hne Hnot]. simpl.
    rewrite decide_False by done. by apply IH.
  - rewrite decide_False; [by apply IH|]. intros ->. apply Hnot.
    apply list_elem_of_fmap. by exists (r, x).
Qed.

Lemma write_cells_well_typed types col ty rxs r t :
  types !! col = Some ty → Forall (fun rx => cell_has_type ty rx.2 = true) rxs →
  well_typed types t → well_typed types (write_cells col rxs r t).
Proof.
  intros Hty. unfold write_cells. revert t. induction rxs as [|[r' y] rxs IH]; intros t Hall Hwt; [done|].
  apply Forall_cons in Hall as [Hy Hall]. simpl. apply IH; [done|]. case_decide; [|done].
  unfold well_typed in *. rewrite <- (list_insert_id types col ty Hty). by apply Forall2_insert.
Qed.

Section update_spec.
Context {IX : Type} `{!TableIndexes IX}.
Implicit Types (s : tstate IX).

(** The state differs in the rows of one chunk only. *)
Definition chunk_change s s' (cp : nat) (c c' : StorageChunk) : Prop :=
  chunks (st_rows s') = <[cp := c']> (chunks (st_rows s)) ∧
  same_place c c' ∧ deleted c' = deleted c.

Lemma chunk_change_trans s1 s2 s3 cp c1 c2 c3 :
  chunk_change s1 s2 cp c1 c2 → chunk_change s2 s3 cp c2 c3 → chunk_change s1 s3 cp c1 c3.
Proof.
  intros (C1 & (? & ? & ? & ?) & D1) (C2 & (? & ? & ? & ?) & D2). split; [|split].
  - by rewrite C2, C1, insert_insert_eq.
  - repeat split; congruence.
  - congruence.
Qed.

Lemma chunk_change_refl s cp c : chunks (st_rows s) !! cp = Some c → chunk_change s s cp c c.
Proof. intros Hc. split; [by rewrite insert_id|]. by repeat split. Qed.

(** The first loop of [Update]: every row is saved. *)
Lemma save_rows_spec iks rs s H cp c ids :
  wf_state s H → chunks (st_rows s) !! cp = Some c →
  Forall2 (fun ik r => chunk_row c ids ik.1 = Ok r) iks rs →
  ∃ s' H' c', for_M iks (save_row cp ids) s =
      ((if decide (Forall (fun r => conflict_free (st_tx s) (H cp r)) rs) then Ok tt
        else Throw TransactionException), s') ∧
    changes s s' H H' ∧ st_ix s' = st_ix s ∧
    chunk_change s s' cp c c' ∧ columns c' = columns c ∧
    (Forall (isolated s H cp) rs → same_views s s' H H') ∧
    (Forall (fun r => conflict_free (st_tx s) (H cp r)) rs → ∀ r, r ∈ rs →
       own_head (st_tx s') (H' cp r)).
Proof.
  intros Hwf Hc Hrs. revert s H c rs Hwf Hc Hrs.
  induction iks as [|ik iks IH]; intros s H c rs Hwf Hc Hrs;
    inversion Hrs as [|? r ? rs' Hrow Hrs']; subst.
  { exists s, H, c. split_and!; try done; [by apply changes_refl|by apply chunk_change_refl|].
    intros _ r Hr. by apply not_elem_of_nil in Hr. }
  pose proof (chunk_row_spec _ _ _ _ Hrow) as Hr.
  pose proof (save_version_spec s H cp c r UPDATE_TUPLE Hwf Hc Hr (or_intror eq_refl)) as Hsave.
  assert (save_row cp ids ik s = save_version UPDATE_TUPLE cp r s) as Hrw.
  { unfold save_row. run. rewrite Hc. run. rewrite Hrow. run. done. }
  rewrite <- Hrw in Hsave. cbn [for_M].
  destruct (decide (conflict_free (st_tx s) (H cp r))) as [Hcf|Hcf].
  2:{ run_using Hsave. exists s, H, c. rewrite decide_False by (intros [??]%Forall_cons; done).
      split_and!; try done; [by apply changes_refl|by apply chunk_change_refl|].
      intros [??]%Forall_cons. done. }
  destruct Hsave as (R' & t & Ht & Hs & Hch & Hchg & _).
  run_using Hs.
  set (n := mkNode (next_version (st_rows s)) (transaction_id (st_tx s)) (Some t)) in *.
  set (s1 := mkTState (CreateEntry (st_tx s) UPDATE_TUPLE (UVersion (n_loc n))) R' (st_ix s)) in *.
  set (H1 := hupd H cp r (n :: H cp r)) in *.
  set (c1 := set_version_pointer c r (Some (n_loc n))) in *.
  assert (chunks (st_rows s1) !! cp = Some c1) as Hc1 by (simpl; by rewrite Hch, lookup_insert_eq).
  assert (∀ r', conflict_free (st_tx s1) (H1 cp r') ↔ conflict_free (st_tx s) (H cp r')) as Hcfs
    by (intros r'; by apply conflict_free_push).
  assert (chunk_change s s1 cp c c1) as Hcc by (by split).
  destruct (IH s1 H1 c1 rs') as (s' & H' & c' & Hfor & Hchg' & Hix' & Hcc' & Hcols & Hviews & Hown).
  { by eapply changes_wf. }
  { done. }
  { eapply Forall2_impl; [exact Hrs'|]. intros ik' r' Hr'. rewrite <- Hr'. by apply chunk_row_place. }
  exists s', H', c'. rewrite Hfor. split; [|split_and!].
  - f_equal. apply decide_ext. rewrite Forall_cons. setoid_rewrite Hcfs. naive_solver.
  - by eapply changes_trans.
  - done.
  - by eapply chunk_change_trans.
  - done.
  - intros [Hi His]%Forall_cons. eapply (same_views_trans s s1); [done| |].
    + intros tx' Ho. eapply (push_same_view _ _ _ cp c c1 r n (st_tx s)); try done.
      intros _. destruct Hi as [?|Hnd]; [by left|right]. unfold base_value.
      by rewrite decide_False by eauto.
    + apply Hviews. eapply Forall_impl; [exact His|]. intros r' Hi'.
      unfold isolated, H1, hupd. destruct (decide (r' = r)) as [->|Hne].
      * left. by rewrite decide_True by done.
      * rewrite decide_False by naive_solver. destruct Hi' as [Ho|Hnd]; [by left|right].
        intros c0. rewrite Hc1. intros [= <-]. exact (Hnd _ Hc).
  - intros [_ Hcfr]%Forall_cons r' [->|Hr']%elem_of_cons.
    + apply (own_head_id (st_tx s1)); [apply Hchg'|]. apply (ch_own _ _ _ _ Hchg').
      unfold H1, hupd. by rewrite decide_True by done.
    + apply Hown; [|done]. eapply Forall_impl; [exact Hcfr|]. intros ?. apply Hcfs.
Qed.

(** A change of base rows only, all of them rows saved by the transaction. *)
Record rewrites s s' (H : hist) (cp : nat) (c c' : StorageChunk) (f : nat → tuple → tuple) : Prop := {
  rw_changes : changes s s' H H;
  rw_tx : st_tx s' = st_tx s;
  rw_chunk : chunk_change s s' cp c c';
  rw_rows : ∀ r t, row_at (columns c) r = Some t → row_at (columns c') r = Some (f r t);
  rw_views : same_views s s' H H }.

Lemma rewrites_refl s H cp c :
  wf_state s H → chunks (st_rows s) !! cp = Some c → rewrites s s H cp c c (fun _ t => t).
Proof.
  intros Hwf Hc. constructor; try done; [by apply changes_refl|by apply chunk_change_refl].
Qed.

Lemma rewrites_trans s1 s2 s3 H cp c1 c2 c3 f g :
  rewrites s1 s2 H cp c1 c2 f → rewrites s2 s3 H cp c2 c3 g →
  rewrites s1 s3 H cp c1 c3 (fun r t => g r (f r t)).
Proof.
  intros [C1 T1 K1 R1 V1] [C2 T2 K2 R2 V2]. constructor.
  - by eapply changes_trans.
  - congruence.
  - by eapply chunk_change_trans.
  - eauto.
  - eapply same_views_trans; [by rewrite T1|done|done].
Qed.

Lemma chunk_row_id c ids i r :
  chunk_row c ids i = Ok r → ∃ id, row_id ids i = Ok id ∧ sc_start c ≤ id ∧ r = id - sc_start c.
Proof.
  unfold chunk_row. intros (id & Hid & Hx)%bind_Ok. apply bind_Ok in Hx as (u & Ha & Hx).
  injection Hx as <-. destruct ((_ <=? _) && _) eqn:E; [|done].
  apply andb_true_iff in E as [?%Nat.leb_le ?%Nat.ltb_lt]. eauto.
Qed.

Lemma write_cell_spec s H cp c tbl col ty ids source ik r x :
  wf_state s H → chunks (st_rows s) !! cp = Some c →
  tables (st_rows s) !! sc_table c = Some tbl → dt_types tbl !! col = Some ty →
  chunk_row c ids ik.1 = Ok r → own_head (st_tx s) (H cp r) →
  v_data source !! sel_at (v_sel source) ik.2 = Some x → cell_has_type ty x = true →
  ∃ s' c', write_cell cp col ids source ik s = (Ok tt, s') ∧ st_ix s' = st_ix s ∧
    rewrites s s' H cp c c' (fun r' t => if decide (r = r') then <[col := x]> t else t).
Proof.
  intros Hwf Hc Ht Hty Hrow Hown Hx Hxt. pose proof (chunk_row_spec _ _ _ _ Hrow) as Hr.
  destruct (chunk_row_id _ _ _ _ Hrow) as (id & Hid & Hle & ->).
  pose proof Hwf as (_ & Hd & _).
  destruct (dw_table _ _ Hd _ _ Hc) as (tbl' & Ht' & Hlen & _). rewrite Ht in Ht'. injection Ht' as <-.
  assert (is_Some (columns c !! col)) as [cells Hcells].
  { apply lookup_lt_is_Some. rewrite Hlen. by eapply lookup_lt_Some. }
  set (r := id - sc_start c) in *.
  set (c' := set_columns c (<[col := <[r := x]> (cells : column)]> (columns c))).
  exists (mkTState (st_tx s) (set_chunk (st_rows s) cp c') (st_ix s)), c'.
  split; [|split; [done|]].
  { unfold write_cell. run. rewrite Hc. run. rewrite Hid. run. rewrite (proj2 (Nat.leb_le _ _) Hle). run.
    rewrite Hcells. run. rewrite Hx. run. done. }
  assert (∀ r' t, row_at (columns c) r' = Some t →
    row_at (columns c') r' = Some (if decide (r = r') then <[col := x]> t else t)) as Hrows.
  { intros r' t Hrt. simpl. case_decide as Hd'.
    - subst r'. by eapply row_at_write_eq.
    - by rewrite (row_at_write_ne _ _ _ _ _ _ Hcells) by done. }
  constructor; try done.
  - eapply (write_chunk_spec s H cp c c' r); try done.
    + simpl. by rewrite length_insert.
    + intros tbl' r' Ht'' Hr'. rewrite Ht in Ht''. injection Ht'' as <-.
      destruct (dw_row _ _ Hd _ _ _ _ Hc Ht Hr') as (t & Hrt & Hwt). eexists. split; [by apply Hrows|].
      case_decide; [|done]. apply (write_cells_well_typed _ _ _ [(r, x)] r t Hty) in Hwt.
      * unfold write_cells in Hwt. simpl in Hwt. by rewrite decide_True in Hwt.
      * by constructor.
    + intros r' Hr'. by right.
  - intros tx' Ho. eapply (write_same_view _ _ _ cp c c' r); try done.
    intros r' Hne. unfold base_value. simpl. by rewrite (row_at_write_ne _ _ _ _ _ _ Hcells).
Qed.

(** Rewriting keeps what the next write needs. *)
Lemma rewrites_keep s s' H cp c c' f :
  wf_state s H → chunks (st_rows s) !! cp = Some c → rewrites s s' H cp c c' f →
  wf_state s' H ∧ chunks (st_rows s') !! cp = Some c' ∧ sc_table c' = sc_table c ∧
  tables (st_rows s') = tables (st_rows s) ∧
  (∀ ids i, chunk_row c' ids i = chunk_row c ids i).
Proof.
  intros Hwf Hc [Hchg _ (Hch & Hp & _) _ _]. split_and!.
  - by eapply changes_wf.
  - by rewrite Hch, lookup_insert_eq.
  - apply Hp.
  - apply Hchg.
  - intros. by apply chunk_row_place.
Qed.

(** One column: the loop of [UpdateColumn] over the row identifiers. *)
Lemma write_column_spec iks rs xs s H cp c tbl col ty ids source :
  wf_state s H → chunks (st_rows s) !! cp = Some c →
  tables (st_rows s) !! sc_table c = Some tbl → dt_types tbl !! col = Some ty →
  Forall2 (fun ik r => chunk_row c ids ik.1 = Ok r) iks rs →
  (∀ r, r ∈ rs → own_head (st_tx s) (H cp r)) →
  Forall2 (fun ik x => v_data source !! sel_at (v_sel source) ik.2 = Some x ∧
             cell_has_type ty x = true) iks xs →
  ∃ s' c', for_M iks (write_cell cp col ids source) s = (Ok tt, s') ∧ st_ix s' = st_ix s ∧
    rewrites s s' H cp c c' (write_cells col (zip rs xs)).
Proof.
  revert s c rs xs. induction iks as [|ik iks IH]; intros s c rs xs Hwf Hc Ht Hty Hrs Hown Hxs;
    inversion Hrs as [|? r ? rs' Hrow Hrs']; subst; inversion Hxs as [|? x ? xs' [Hx Hxt] Hxs']; subst.
  { exists s, c. split; [done|]. split; [done|]. by apply rewrites_refl. }
  destruct (write_cell_spec s H cp c tbl col ty ids source ik r x Hwf Hc Ht Hty Hrow)
    as (s1 & c1 & Hs1 & Hix & Hrw); [apply Hown; left|done|done|].
  destruct (rewrites_keep _ _ _ _ _ _ _ Hwf Hc Hrw) as (Hwf1 & Hc1 & Htc & Htb & Hcr).
  destruct (IH s1 c1 rs' xs') as (s' & c' & Hfor & Hix' & Hrw'); try done.
  { by rewrite Htb, Htc. }
  { eapply Forall2_impl; [exact Hrs'|]. intros ik' r' Hr'. by rewrite Hcr. }
  { intros r' Hr'. rewrite (rw_tx _ _ _ _ _ _ _ Hrw). apply Hown. by right. }
  exists s', c'. cbn [for_M]. run_using Hs1. rewrite Hfor. split; [done|]. split; [congruence|].
  exact (rewrites_trans _ _ _ _ _ _ _ _ _ _ Hrw Hrw').
Qed.

(** The new values of one column: the update vector with its NULLs stored as
    sentinels holds a cell of the column's type for every row. *)
Definition update_values (tbl : DataTable) (col : nat) (v : Vector) (iks : list (nat * nat))
    (xs : list cell) : Prop :=
  ∃ source ty, update_source v = Ok source ∧ dt_types tbl !! col = Some ty ∧
    Forall2 (fun ik x => v_data source !! sel_at (v_sel source) ik.2 = Some x ∧
               cell_has_type ty x = true) iks xs.

Lemma update_columns_spec column_ids data xss rs s H cp c tbl ids :
  wf_state s H → chunks (st_rows s) !! cp = Some c →
  tables (st_rows s) !! sc_table c = Some tbl →
  Forall2 (fun ik r => chunk_row c ids ik.1 = Ok r) (Exec ids 0 0) rs →
  (∀ r, r ∈ rs → own_head (st_tx s) (H cp r)) →
  length column_ids = length data →
  Forall2 (fun cv xs => update_values tbl cv.1 cv.2 (Exec ids 0 0) xs) (zip column_ids data) xss →
  ∃ s' c', update_columns cp column_ids data ids s = (Ok tt, s') ∧
    rewrites s s' H cp c c' (update_tuple (zip column_ids (zip rs <$> xss))).
Proof.
  revert data xss s c. induction column_ids as [|col column_ids IH];
    intros [|v data] xss s c Hwf Hc Ht Hrs Hown Hlen Hvals; try done.
  { inversion Hvals; subst. exists s, c. split; [done|]. by apply rewrites_refl. }
  simpl in Hvals. inversion Hvals as [|? xs ? xss' (source & ty & Hsrc & Hty & Hxs) Hvals']; subst.
  destruct (write_column_spec _ _ _ s H cp c tbl col ty ids source Hwf Hc Ht Hty Hrs Hown Hxs)
    as (s1 & c1 & Hs1 & Hix & Hrw).
  destruct (rewrites_keep _ _ _ _ _ _ _ Hwf Hc Hrw) as (Hwf1 & Hc1 & Htc & Htb & Hcr).
  set (s2 := mkTState (st_tx s1) (st_rows s1) (statistics_update (st_ix s1) col v)).
  destruct (IH data xss' s2 c1) as (s' & c' & Hup & Hrw'); try done.
  { simpl. by rewrite Htb, Htc. }
  { eapply Forall2_impl; [exact Hrs|]. intros ik' r' Hr'. by rewrite Hcr. }
  { intros r' Hr'. simpl. rewrite (rw_tx _ _ _ _ _ _ _ Hrw). by apply Hown. }
  { by injection Hlen. }
  cbn [fst snd] in *. exists s', c'. cbn [update_columns]. rewrite Hsrc. run. run_using Hs1. unfold set_ix. run.
  split; [exact Hup|].
  assert (rewrites s s2 H cp c c1 (write_cells col (zip rs xs))) as Hrw2
    by (destruct Hrw as [[? ? ? ?] ? ? ? ?]; constructor; [constructor|..]; done).
  exact (rewrites_trans _ _ _ _ _ _ _ _ _ _ Hrw2 Hrw').
Qed.

Lemma changes_ix s ix s' H H' :
  changes (mkTState (st_tx s) (st_rows s) ix) s' H H' → changes s s' H H'.
Proof. intros [? ? ? ?]. by constructor. Qed.

(** The row read by the transaction that has just written it. *)
Lemma own_view s H cp c r :
  chunks (st_rows s) !! cp = Some c → r < sc_count c → own_head (st_tx s) (H cp r) →
  view (st_rows s) H (st_tx s) cp r = base_value c r.
Proof.
  intros Hc Hr Hown. unfold view. rewrite Hc, decide_True by done.
  destruct (H cp r) as [|n ns]; [done|]. simpl in *. unfold sees. by rewrite Hown, Z.eqb_refl.
Qed.

Lemma Update_spec s H tp info ids column_ids updates cp rs c tbl xss ix1 ix2 :
  wf_state s H → row_targets (st_rows s) tp ids cp rs →
  chunks (st_rows s) !! cp = Some c → tables (st_rows s) !! sc_table c = Some tbl →
  VerifyConstraints (tc_constraints info) updates = Ok tt →
  unique_update (st_ix s) (st_tx s) (st_rows s) cp column_ids updates ids = Ok ix1 →
  index_update ix1 column_ids updates ids = Ok ix2 →
  length column_ids = length (dc_data updates) →
  Forall2 (fun cv xs => update_values tbl cv.1 cv.2 (Exec ids 0 0) xs)
    (zip column_ids (dc_data updates)) xss →
  ∃ s' H', Update tp info ids column_ids updates s =
      ((if decide (Forall (fun r => conflict_free (st_tx s) (H cp r)) rs) then Ok tt
        else Throw TransactionException), s') ∧
    changes s s' H H' ∧
    (Forall (isolated s H cp) rs → same_views s s' H H') ∧
    (Forall (fun r => conflict_free (st_tx s) (H cp r)) rs → ∀ r, r ∈ rs → r ∉ deleted c →
       view (st_rows s') H' (st_tx s') cp r
       = update_tuple (zip column_ids (zip rs <$> xss)) r <$> row_at (columns c) r).
Proof.
  intros Hwf (Hty & Hcnt & c0 & id & Hc0 & Hid & Hget & Hrs) Hc Ht Hcons Hu Hi Hlen Hvals.
  rewrite Hc in Hc0. injection Hc0 as <-.
  set (s0 := mkTState (st_tx s) (st_rows s) ix2).
  destruct (save_rows_spec _ _ s0 H cp c ids Hwf Hc Hrs)
    as (s1 & H1 & c1 & Hfor & Hchg & Hix & Hcc & Hcols & Hv & Hown).
  assert (Update tp info ids column_ids updates s =
    (for_M (Exec ids 0 0) (save_row cp ids) ≫= fun _ => update_columns cp column_ids (dc_data updates) ids) s0)
    as ->.
  { unfold Update. rewrite bool_decide_eq_true_2 by done. run.
    destruct (Nat.eqb_spec (v_count ids) 0); [done|]. rewrite Hcons. run. rewrite Hid. run.
    rewrite Hget. run. rewrite Hu. unfold set_ix. run. by rewrite Hi. }
  simpl st_tx in Hfor. destruct (decide (Forall _ rs)) as [Hcf|Hcf].
  2:{ run_using Hfor. exists s1, H1. split; [done|]. split; [by eapply changes_ix|]. split; [|done].
      intros His. by apply Hv. }
  run_using Hfor.
  pose proof (changes_wf _ _ _ _ Hwf (changes_ix _ _ _ _ _ Hchg)) as Hwf1.
  destruct Hcc as (Hch & Hp & Hdel).
  assert (chunks (st_rows s1) !! cp = Some c1) as Hc1 by (by rewrite Hch, lookup_insert_eq).
  destruct (update_columns_spec column_ids (dc_data updates) xss rs s1 H1 cp c1 tbl ids)
    as (s' & c' & Hup & Hrw); try done.
  { rewrite (ch_tables _ _ _ _ Hchg). simpl. destruct Hp as (-> & _). done. }
  { eapply Forall2_impl; [exact Hrs|]. intros ik r Hr. rewrite <- Hr. by apply chunk_row_place. }
  { intros r Hr. by apply Hown. }
  destruct (rewrites_keep _ _ _ _ _ _ _ Hwf1 Hc1 Hrw) as (Hwf2 & Hc2 & _ & _ & _).
  exists s', H1. split; [done|]. split; [|split].
  - eapply changes_trans; [by eapply changes_ix|apply Hrw].
  - intros His. eapply (same_views_trans s s1).
    + exact (ex_id _ _ _ _ _ _ (ch_extends _ _ _ _ Hchg)).
    + by apply Hv.
    + apply Hrw.
  - intros _ r Hr Hnd. pose proof Hr as [i Hi']%list_elem_of_lookup.
    destruct (Forall2_lookup_r _ _ _ _ _ Hrs Hi') as (ik & _ & Hrow).
    pose proof (chunk_row_spec _ _ _ _ Hrow) as Hlt.
    destruct Hrw as [_ Htx (_ & Hp' & Hdel') Hrows _].
    rewrite (own_view s' H1 cp c' r Hc2).
    + pose proof Hwf as (_ & Hd & _). destruct (dw_row _ _ Hd _ _ _ _ Hc Ht Hlt) as (t & Hrt & _).
      unfold base_value. rewrite decide_False by (by rewrite Hdel', Hdel).
      rewrite (Hrows r t) by (by rewrite Hcols). by rewrite Hrt.
    + destruct Hp' as (_ & _ & _ & ->). by destruct Hp as (_ & _ & _ & ->).
    + rewrite Htx. by apply Hown.
Qed.

(** A rejected update leaves rows and undo buffer alone. *)
Lemma Update_rejected s tp info ids column_ids updates cp rs e :
  row_targets (st_rows s) tp ids cp rs →
  VerifyConstraints (tc_constraints info) updates = Throw e ∨
  (VerifyConstraints (tc_constraints info) updates = Ok tt ∧
   unique_update (st_ix s) (st_tx s) (st_rows s) cp column_ids updates ids = Throw e) →
  Update tp info ids column_ids updates s = (Throw e, s).
Proof.
  intros (Hty & Hcnt & c0 & id & Hc0 & Hid & Hget & Hrs) Hrej.
  unfold Update. rewrite bool_decide_eq_true_2 by done. run.
  destruct (Nat.eqb_spec (v_count ids) 0); [done|].
  destruct Hrej as [Hcons|[Hcons Hu]]; rewrite Hcons; [done|]. run. rewrite Hid. run.
  rewrite Hget. run. by rewrite Hu.
Qed.
End update_spec.
