(* ===== verification/TableAppend.v ===== *)
(** * Appending rows to a table

    [DataTable::Append]: a "deleted" version is pushed for every new row, the
    rows are copied behind it, and a new chunk is hung onto the list when the
    last one is full. *)

From Stdlib Require Import ZArith Lia.
From stdpp Require Import base gmap list strings option numbers sorting.
From S2P Require Import Prelude Types Vector Tuple Storage Versions DataTable TableOps.

(** ** Append *)

(** The histories after rows [off .. off+n) of chunk [cp] have been inserted. *)
Definition hins (H : hist) (cp off n l : nat) (num : Z) : hist := fun cp' r =>
  if decide (cp' = cp ∧ off ≤ r < off + n) then [mkNode (l + (r - off)) num None] else H cp' r.

Lemma hins_S H cp off n l num cp' r :
  hins (hupd H cp off [mkNode l num None]) cp (S off) n (S l) num cp' r = hins H cp off (S n) l num cp' r.
Proof.
  unfold hins, hupd.
  destruct (decide (cp' = cp)) as [->|]; [|by rewrite !decide_False by naive_solver].
  destruct (decide (r = off)) as [->|].
  - rewrite decide_False, !decide_True by lia. do 2 f_equal. lia.
  - destruct (decide (cp = cp ∧ S off ≤ r < S off + n)).
    + rewrite decide_True by lia. do 2 f_equal. lia.
    + by rewrite !decide_False by lia.
Qed.

Lemma linked_hins H cp off n l num l' num' :
  (∀ r, off ≤ r → H cp r = []) →
  linked (hins H cp off n l num) l' num' ↔ linked H l' num' ∨ (l ≤ l' < l + n ∧ num' = num).
Proof.
  intros Hnil. unfold linked, hins. split.
  - intros (cp' & r' & m & Hm & <- & <-). case_decide as Hd.
    + apply list_elem_of_singleton in Hm as ->. right. simpl. lia.
    + left. by exists cp', r', m.
  - intros [(cp' & r' & m & Hm & <- & <-)|[Hl ->]].
    + exists cp', r', m. split; [|done]. rewrite decide_False; [done|]. intros [-> Hr].
      rewrite Hnil in Hm by lia. by apply not_elem_of_nil in Hm.
    + exists cp, (off + (l' - l)). eexists. rewrite decide_True by lia. split; [left|]. simpl.
      split; [lia|done].
Qed.

(** A chunk with the version pointers of [n] new rows. *)
Fixpoint point_rows (c : StorageChunk) (off n l : nat) : StorageChunk :=
  match n with
  | 0 => c
  | S n' => point_rows (set_version_pointer c off (Some l)) (S off) n' (S l)
  end.

Lemma point_rows_fields c off n l :
  same_place c (point_rows c off n l) ∧ columns (point_rows c off n l) = columns c ∧
  deleted (point_rows c off n l) = deleted c.
Proof.
  revert c off l. induction n as [|n IH]; intros c off l; [by repeat split|].
  destruct (IH (set_version_pointer c off (Some l)) (S off) (S l)) as (Hp & Hc & Hd). by split_and!.
Qed.

Lemma PushDeletedEntries_spec n tx R H cp c off :
  links_wf R H → chunks R !! cp = Some c → (∀ r, off ≤ r → H cp r = []) →
  ∃ tx' R', PushDeletedEntries tx R off n cp = Ok (tx', R') ∧
    tx' = foldl (fun tx l => CreateEntry tx INSERT_TUPLE (UVersion l)) tx (seq (next_version R) n) ∧
    chunks R' = <[cp := point_rows c off n (next_version R)]> (chunks R) ∧
    tables R' = tables R ∧ next_version R' = next_version R + n ∧ next_chunk R' = next_chunk R ∧
    links_wf R' (hins H cp off n (next_version R) (transaction_id tx)).
Proof.
  revert tx R H c off. induction n as [|n IH]; intros tx R H c off Hl Hc Hnil.
  { exists tx, R. simpl. rewrite insert_id, Nat.add_0_r by done. split_and!; try done.
    eapply links_wf_ext; [|done]. intros. unfold hins. by rewrite decide_False by lia. }
  destruct (PushDeletedEntry_spec R H cp c off Hl Hc tx (Hnil off (le_n _)))
    as (R1 & Hp & Hch & Htb & Hnv & Hnc & Hl1).
  destruct (IH (CreateEntry tx INSERT_TUPLE (UVersion (next_version R))) R1 _
    (set_version_pointer c off (Some (next_version R))) (S off) Hl1)
    as (tx' & R' & Hps & Htx & Hch' & Htb' & Hnv' & Hnc' & Hl').
  { by rewrite Hch, lookup_insert_eq. }
  { intros r Hr. unfold hupd. rewrite decide_False by lia. apply Hnil. lia. }
  exists tx', R'. cbn [PushDeletedEntries]. rewrite Hp. run. rewrite Hps.
  rewrite Hnv in *. split_and!; try done.
  - by rewrite Hch', Hch, insert_insert_eq.
  - congruence.
  - lia.
  - congruence.
  - eapply links_wf_ext; [|exact Hl']. intros. symmetry. apply hins_S.
Qed.

(** The rows of a data chunk as storage keeps them. *)
Definition chunk_tuple (data : list Vector) (k : nat) : option tuple :=
  mapM (fun v => stored_cell v k) data.

Lemma copy_columns_spec cols data from n at_ :
  length data = length cols → 0 < n → Forall (fun v => vector_ok v ∧ from + n ≤ v_count v) data →
  ∃ cols', copy_columns cols data from n at_ = Ok cols' ∧ length cols' = length cols ∧
    (∀ r, ¬ (at_ ≤ r < at_ + n) → row_at cols' r = row_at cols r) ∧
    (∀ i, i < n → row_at cols' (at_ + i) = chunk_tuple data (from + i)).
Proof.
  intros Hlen Hn Hall. revert cols Hlen. induction Hall as [|v data [Hok Hle] _ IH];
    intros [|col cols] Hlen; try done; [by exists []|].
  destruct (IH cols) as (cols' & Hcopy & Hlen' & Hout & Hin); [by injection Hlen|].
  destruct (CopyToStorage_spec v from n Hok Hn Hle) as (cs & Hcs & Hlcs & _ & Hlk).
  exists (write_block col at_ cs :: cols'). cbn [copy_columns]. rewrite Hcs. run. rewrite Hcopy.
  split; [done|]. split; [simpl; lia|]. unfold row_at, chunk_tuple in *. split.
  - intros r Hr. simpl. rewrite write_block_lookup, decide_False by lia. by rewrite Hout.
  - intros i Hi. simpl. rewrite write_block_lookup, decide_True by lia.
    replace (at_ + i - at_) with i by lia. by rewrite Hlk, Hin.
Qed.

(** A chunk of rows that fits a table. *)
Definition chunk_ok (types : list TypeId) (chunk : DataChunk) : Prop :=
  Forall2 (fun ty v => v_type v = ty ∧ vector_ok v ∧ v_count v = chunk_size chunk)
    types (dc_data chunk).

Lemma chunk_tuple_typed types chunk k :
  chunk_ok types chunk → k < chunk_size chunk →
  ∃ t, chunk_tuple (dc_data chunk) k = Some t ∧ well_typed types t.
Proof.
  unfold chunk_ok, chunk_tuple, well_typed. generalize (chunk_size chunk) as n. intros n Hall Hk.
  induction Hall as [|ty v types data (<- & Hok & Hcount) _ (t & Ht & Hwt)]; [by exists []|].
  destruct (stored_cell_typed v k Hok) as (x & Hx & Hxt); [lia|].
  exists (x :: t). simpl. rewrite Hx. simpl. rewrite Ht. split; [done|]. by constructor.
Qed.

Lemma chunk_ok_count types chunk :
  chunk_ok types chunk → Forall (fun v => vector_ok v ∧ v_count v = chunk_size chunk) (dc_data chunk).
Proof.
  unfold chunk_ok. generalize (chunk_size chunk). induction 1 as [|???? (? & ? & ?)]; by constructor.
Qed.

Lemma foldl_create tx fl ls :
  let tx' := foldl (fun tx l => CreateEntry tx fl (UVersion l)) tx ls in
  transaction_id tx' = transaction_id tx ∧ start_time tx' = start_time tx ∧
  commit_id tx' = commit_id tx ∧ active_query tx' = active_query tx ∧
  undo_buffer tx' = undo_buffer tx ++ ((fun l => mkUndoEntry fl (UVersion l)) <$> ls).
Proof.
  revert tx. induction ls as [|l ls IH]; intros tx; simpl; [by rewrite app_nil_r|].
  destruct (IH (CreateEntry tx fl (UVersion l))) as (-> & -> & -> & -> & ->). split_and!; try done.
  simpl. by rewrite <- app_assoc.
Qed.

Lemma omap_entry_loc fl (ls : list nat) :
  omap entry_loc ((fun l => mkUndoEntry fl (UVersion l)) <$> ls) = ls.
Proof. induction ls as [|l ls IH]; [done|]. csimpl. by f_equal. Qed.

Lemma chunk_list_tail R tp start tail cps : chunk_list_wf R tp start tail cps → last cps = Some tail.
Proof.
  revert start. induction cps as [|cp cps IH]; intros start; [done|].
  intros (c & _ & _ & _ & _ & Hrest). destruct cps as [|cp' cps]; [by subst|].
  destruct Hrest as [_ Hrest]. exact (IH _ Hrest).
Qed.

(** The last chunk of a list may grow. *)
Lemma chunk_list_grow R R' tp start tail cps c c' :
  chunks R !! tail = Some c → chunks R' = <[tail := c']> (chunks R) →
  sc_table c' = sc_table c → sc_start c' = sc_start c → sc_next c' = sc_next c →
  chunk_list_wf R tp start tail cps → chunk_list_wf R' tp start tail cps.
Proof.
  intros Hc Hch Et Es En. revert start. induction cps as [|cp cps IH]; intros start Hl; [done|].
  pose proof (chunk_list_NoDup _ _ _ _ _ Hl) as [Hnot _]%NoDup_cons.
  pose proof (chunk_list_tail _ _ _ _ _ Hl) as Htail.
  destruct Hl as (c0 & Hc0 & Ht & Hs & Hn & Hrest). simpl. rewrite Hch.
  destruct cps as [|cp' cps].
  - subst cp. rewrite Hc in Hc0. injection Hc0 as <-. rewrite lookup_insert_eq. exists c'.
    split_and!; congruence.
  - assert (tail ≠ cp).
    { intros ->. apply Hnot. apply last_Some_elem_of. by rewrite <- Htail. }
    rewrite lookup_insert_ne by done. exists c0. destruct Hrest as [Hfull Hrest].
    split_and!; try done. by apply IH.
Qed.

(** Lists of other tables do not contain the chunk. *)
Lemma chunk_list_frame R R' tp start tail cps cp c c' :
  chunks R !! cp = Some c → chunks R' = <[cp := c']> (chunks R) → sc_table c ≠ tp →
  chunk_list_wf R tp start tail cps → chunk_list_wf R' tp start tail cps.
Proof.
  intros Hc Hch Hne Hl. eapply chunk_list_wf_ext; [|done]. intros cp' c0 Hin Hc0.
  destruct (chunk_list_lookup _ _ _ _ _ _ Hl Hin) as (c1 & Hc1 & Ht1 & _).
  rewrite Hch, lookup_insert_ne; [exists c0; by repeat split|]. intros ->. congruence.
Qed.

Section data_append.
Context (R R' : rows) (H : hist) (cp : nat) (c c' : StorageChunk) (tbl : DataTable) (n l : nat) (num : Z).
Context (Hdw : data_wf R H) (Hc : chunks R !! cp = Some c).
Context (Hch : chunks R' = <[cp := c']> (chunks R)) (Htb : tables R' = tables R).
Context (Hnc : next_chunk R' = next_chunk R).
Context (Ht : tables R !! sc_table c = Some tbl) (Htail : cp = dt_tail_chunk tbl).
Context (Et : sc_table c' = sc_table c) (Es : sc_start c' = sc_start c) (En : sc_next c' = sc_next c).
Context (Ec : sc_count c' = sc_count c + n) (Hmax : sc_count c + n ≤ STORAGE_CHUNK_SIZE).
Context (Hcols : length (columns c') = length (columns c)) (Hdel : deleted c' = deleted c).
Context (Hold : ∀ r, r < sc_count c → row_at (columns c') r = row_at (columns c) r).
Context (Hnew : ∀ i, i < n → ∃ t, row_at (columns c') (sc_count c + i) = Some t ∧ well_typed (dt_types tbl) t).

Lemma data_append : data_wf R' (hins H cp (sc_count c) n l num).
Proof.
  constructor; rewrite ?Hch, ?Htb, ?Hnc.
  - intros cp' c0 [[<- <-]|[Hne Hc0]]%lookup_insert_Some; [|by eapply dw_table].
    rewrite Et, Hcols. by eapply dw_table.
  - intros cp' c0 tbl' r [[<- <-]|[Hne Hc0]]%lookup_insert_Some; [|by eapply dw_row].
    rewrite Et, Ec. intros Ht'. rewrite Ht in Ht'. injection Ht' as <-. intros Hr.
    destruct (decide (r < sc_count c)) as [Hlt|Hge].
    + rewrite Hold by done. by eapply dw_row.
    + replace r with (sc_count c + (r - sc_count c)) by lia. apply Hnew. lia.
  - intros cp' c0 tbl' r m t Hc0 Ht' Hm Ho. unfold hins in Hm. case_decide as Hd.
    + apply list_elem_of_singleton in Hm as ->. done.
    + apply lookup_insert_Some in Hc0 as [[<- <-]|[Hne Hc0]]; [|by eapply dw_old].
      rewrite Et in Ht'. by eapply dw_old.
  - intros cp' c0 r [[<- <-]|[Hne Hc0]]%lookup_insert_Some Hr; unfold hins.
    + rewrite Hdel, decide_False by lia. eapply dw_unused; [done|done|lia].
    + rewrite decide_False by naive_solver. by eapply dw_unused.
  - intros cp' c0 [[<- <-]|[Hne Hc0]]%lookup_insert_Some; [lia|]. by eapply dw_count.
  - intros cp' c0 [[<- <-]|[Hne Hc0]]%lookup_insert_Some; by eapply dw_fresh.
  - intros tp' tbl' Ht'. destruct (dw_list _ _ Hdw _ _ Ht') as (cps & Hhd & Hl). exists cps.
    split; [done|]. destruct (decide (sc_table c = tp')) as [E|Hne].
    + rewrite <- E, Ht in Ht'. injection Ht' as <-. subst cp. by eapply chunk_list_grow.
    + by eapply chunk_list_frame.
Qed.
End data_append.

(** Rewriting a chunk in place. *)
Lemma append_grows R R' cp c c' :
  chunks R !! cp = Some c → chunks R' = <[cp := c']> (chunks R) → sc_table c' = sc_table c →
  sc_next c' = sc_next c → tables R' = tables R → grows R R'.
Proof.
  intros Hc Hch Et En Ht. constructor.
  - intros tp tbl. rewrite Ht. eauto.
  - intros cp' c0 Hc0. rewrite Hch. destruct (decide (cp = cp')) as [<-|].
    + rewrite lookup_insert_eq. exists c'. simplify_eq. split_and!; try done. by left.
    + rewrite lookup_insert_ne by done. exists c0. split_and!; try done. by left.
  - intros cp' c0 Hc0. rewrite Hch, lookup_insert_ne by congruence. congruence.
Qed.

(** The chunk [c'] is [c] with the rows [from .. from+n) of [data] added. *)
Definition appended (c c' : StorageChunk) (data : list Vector) (from n : nat) : Prop :=
  sc_table c' = sc_table c ∧ sc_start c' = sc_start c ∧ sc_next c' = sc_next c ∧
  sc_count c' = sc_count c + n ∧ deleted c' = deleted c ∧
  (∀ r, r < sc_count c → row_at (columns c') r = row_at (columns c) r) ∧
  (∀ i, i < n → row_at (columns c') (sc_count c + i) = chunk_tuple data (from + i)).

Lemma append_rows_spec tx R H cp c tbl chunk from n :
  links_wf R H → data_wf R H → chunks R !! cp = Some c → tables R !! sc_table c = Some tbl →
  cp = dt_tail_chunk tbl → chunk_ok (dt_types tbl) chunk → 0 < n → from + n ≤ chunk_size chunk →
  sc_count c + n ≤ STORAGE_CHUNK_SIZE →
  ∃ tx' R' c', append_rows tx R cp chunk from n = Ok (tx', R') ∧
    extends tx tx' R R' H (hins H cp (sc_count c) n (next_version R) (transaction_id tx)) ∧
    tables R' = tables R ∧ next_chunk R' = next_chunk R ∧
    chunks R' = <[cp := c']> (chunks R) ∧ appended c c' (dc_data chunk) from n.
Proof.
  intros Hl Hd Hc Ht Htail Hok Hn Hfrom Hmax.
  assert (∀ r, sc_count c ≤ r → H cp r = []) as Hnil
    by (intros r Hr; by apply (dw_unused _ _ Hd _ _ _ Hc)).
  destruct (PushDeletedEntries_spec n tx R H cp c (sc_count c) Hl Hc Hnil)
    as (tx' & R1 & Hpush & Htx & Hch & Htb & Hnv & Hnc & Hl1).
  set (c1 := point_rows c (sc_count c) n (next_version R)) in *.
  destruct (point_rows_fields c (sc_count c) n (next_version R)) as ((Et & Es & En & Ec) & Ecol & Edel).
  fold c1 in Et, Es, En, Ec, Ecol, Edel.
  assert (length (columns c) = length (dt_types tbl)) as Hlen.
  { destruct (dw_table _ _ Hd _ _ Hc) as (tbl' & Ht' & ? & _). congruence. }
  destruct (copy_columns_spec (columns c1) (dc_data chunk) from n (sc_count c1))
    as (cols & Hcols & Hlcols & Hout & Hin); [|done| |].
  { rewrite Ecol, Hlen. symmetry. by eapply Forall2_length. }
  { eapply Forall_impl; [by eapply chunk_ok_count|]. simpl. intros v [? ->]. done. }
  rewrite Ec, Ecol in *.
  set (c' := set_count (set_columns c1 cols) (sc_count c + n)).
  exists tx', (set_chunk R1 cp c'), c'. unfold append_rows. rewrite Hc. run. rewrite Hpush. run.
  rewrite Hch, lookup_insert_eq. run. fold c1. rewrite Ec, Ecol, Hcols. run. split; [done|].
  assert (chunks (set_chunk R1 cp c') = <[cp := c']> (chunks R)) as Hch'
    by (simpl; by rewrite Hch, insert_insert_eq).
  assert (appended c c' (dc_data chunk) from n) as Happ.
  { split_and!; try done. intros r Hr. apply Hout. lia. }
  split; [|split_and!; done].
  destruct (foldl_create tx INSERT_TUPLE (seq (next_version R) n)) as (E1 & E2 & E3 & E4 & E5).
  rewrite <- Htx in *. constructor; try done.
  - exists ((fun l => mkUndoEntry INSERT_TUPLE (UVersion l)) <$> seq (next_version R) n).
    split; [done|]. split.
    + apply Forall_fmap, Forall_true. intros l. by left.
    + rewrite omap_entry_loc. split; [simpl; rewrite Hnv; f_equal; lia|].
      rewrite omap_fmap_compose. generalize (seq (next_version R) n). intros ls. by induction ls.
  - simpl. lia.
  - intros l num. simpl. rewrite linked_hins, Hnv by done. done.
  - eapply links_set_chunk; [done|by rewrite Hch, lookup_insert_eq|done|done].
  - eapply data_append; try done; [apply Happ|].
    intros i Hi. destruct Happ as (_ & _ & _ & _ & _ & _ & Hnew). rewrite Hnew by done.
    apply chunk_tuple_typed; [done|lia].
  - intros Hi cp' r'. unfold hins. case_decide; [|apply Hi]. by repeat constructor.
  - eapply append_grows; [done|done|apply Happ|apply Happ|done].
Qed.

Lemma append_view R R' H cp c c' data from n l tx tx' :
  chunks R !! cp = Some c → chunks R' = <[cp := c']> (chunks R) → appended c c' data from n →
  (∀ r, sc_count c ≤ r → H cp r = [] ∧ r ∉ deleted c) →
  let H' := hins H cp (sc_count c) n l (transaction_id tx) in
  (other tx tx' → same_view tx' R R' H H') ∧
  (transaction_id tx' = transaction_id tx → ∀ i, i < n →
     view R' H' tx' cp (sc_count c + i) = chunk_tuple data (from + i)).
Proof.
  intros Hc Hch (_ & _ & _ & Ec & Ed & Hold & Hnew) Hfree H'. split.
  - intros Ho cp' r. unfold view, H', hins. rewrite Hch.
    destruct (decide (cp = cp')) as [<-|Hne].
    + rewrite lookup_insert_eq, Hc, Ec. destruct (decide (r < sc_count c)) as [Hlt|Hge].
      * rewrite decide_True, decide_False by lia. unfold base_value. by rewrite Ed, Hold.
      * case_decide; [|done]. rewrite decide_True by lia. simpl. by rewrite (other_sees _ _ Ho).
    + rewrite lookup_insert_ne by done. destruct (chunks R !! cp'); [|done].
      case_decide; [|done]. by rewrite decide_False by naive_solver.
  - intros Hid i Hi. unfold view, H', hins. rewrite Hch, lookup_insert_eq, Ec.
    rewrite decide_True, decide_True by lia. simpl. unfold sees. rewrite Hid, Z.eqb_refl. simpl.
    unfold base_value. rewrite Ed, decide_False by (apply Hfree; lia). by apply Hnew.
Qed.

(** The last chunk of a table. *)
Lemma chunk_list_last R tp start tail cps :
  chunk_list_wf R tp start tail cps →
  ∃ c, chunks R !! tail = Some c ∧ sc_table c = tp ∧ sc_next c = None.
Proof.
  revert start. induction cps as [|cp cps IH]; intros start; [done|].
  intros (c & Hc & Ht & _ & Hn & Hrest). destruct cps as [|cp' cps]; [subst; by exists c|].
  destruct Hrest as [_ Hrest]. exact (IH _ Hrest).
Qed.

Definition link_chunk_next (c : StorageChunk) (cp : nat) : StorageChunk :=
  mkStorageChunk (sc_table c) (deleted c) (version_pointers c) (columns c)
    (sc_count c) (sc_start c) (Some cp).

Lemma chunk_list_snoc R R' tp start tail cps new c cn :
  chunks R !! tail = Some c → chunks R !! new = None → sc_count c = STORAGE_CHUNK_SIZE →
  chunks R' = <[new := cn]> (<[tail := link_chunk_next c new]> (chunks R)) →
  sc_table cn = tp → sc_start cn = sc_start c + sc_count c → sc_next cn = None →
  chunk_list_wf R tp start tail cps → chunk_list_wf R' tp start new (cps ++ [new]).
Proof.
  intros Hc Hnew Hfull Hch Et Es En. revert start.
  assert (tail ≠ new) as Htn by congruence.
  induction cps as [|cp cps IH]; intros start Hl; [done|].
  pose proof (chunk_list_NoDup _ _ _ _ _ Hl) as [Hnot _]%NoDup_cons.
  pose proof (chunk_list_tail _ _ _ _ _ Hl) as Htail.
  destruct Hl as (c0 & Hc0 & Ht & Hs & Hn & Hrest). simpl. rewrite Hch.
  assert (new ≠ cp) by congruence. rewrite lookup_insert_ne by done.
  destruct cps as [|cp' cps].
  - subst cp. rewrite lookup_insert_eq. rewrite Hc in Hc0. injection Hc0 as <-.
    exists (link_chunk_next c new). split_and!; try done. simpl. split; [done|].
    exists cn. rewrite Hch, lookup_insert_eq. split_and!; try done. by rewrite Es, Hs.
  - assert (tail ≠ cp) by (intros ->; apply Hnot, last_Some_elem_of; by rewrite <- Htail).
    rewrite lookup_insert_ne by done. exists c0. destruct Hrest as [Hf Hrest].
    split_and!; try done. split; [done|]. by apply IH.
Qed.

Lemma new_chunk_free R H t c :
  links_wf R H → data_wf R H → chunks R !! dt_tail_chunk t = Some c →
  chunks R !! next_chunk R = None ∧ dt_tail_chunk t ≠ next_chunk R ∧ ∀ r, H (next_chunk R) r = [].
Proof.
  intros Hl Hd Hc. assert (chunks R !! next_chunk R = None) as Hnew.
  { destruct (chunks R !! next_chunk R) eqn:E; [|done]. apply (dw_fresh _ _ Hd) in E. lia. }
  split_and!; [done|congruence|]. intros r. by apply (lw_nochunk _ _ Hl).
Qed.

Section add_chunk.
Context (R R' : rows) (H : hist) (tp : nat) (t t' : DataTable) (c : StorageChunk).
Context (Hl : links_wf R H) (Hd : data_wf R H) (Ht : tables R !! tp = Some t).
Context (Hc : chunks R !! dt_tail_chunk t = Some c) (Hfull : sc_count c = STORAGE_CHUNK_SIZE).
Context (Hvs : versions R' = versions R) (Hnv : next_version R' = next_version R).
Context (Hch : chunks R' = <[next_chunk R := NewStorageChunk tp (dt_types t) (sc_start c + sc_count c)]>
      (<[dt_tail_chunk t := link_chunk_next c (next_chunk R)]> (chunks R))).
Context (Htb : tables R' = <[tp := t']> (tables R)) (Hnc : next_chunk R' = S (next_chunk R)).
Context (Hty : dt_types t' = dt_types t) (Hser : dt_serializer t' = dt_serializer t).
Context (Hacc : dt_accumulative_tuple_size t' = dt_accumulative_tuple_size t).
Context (Htl : dt_tail_chunk t' = next_chunk R) (Hcl : dt_chunk_list t' = dt_chunk_list t).

Lemma new_chunk_lookup cp c' :
  chunks R' !! cp = Some c' →
  (cp = next_chunk R ∧ c' = NewStorageChunk tp (dt_types t) (sc_start c + sc_count c)) ∨
  (cp ≠ next_chunk R ∧ ∃ c0, chunks R !! cp = Some c0 ∧ sc_table c' = sc_table c0 ∧
     deleted c' = deleted c0 ∧ version_pointers c' = version_pointers c0 ∧
     columns c' = columns c0 ∧ sc_count c' = sc_count c0).
Proof using All.
  rewrite Hch. intros [[<- <-]|[Hne [[<- <-]|[Hne' Hc']]%lookup_insert_Some]]%lookup_insert_Some.
  - by left.
  - right. split; [done|]. exists c. by split_and!.
  - right. split; [done|]. exists c'. by split_and!.
Qed.

Lemma add_chunk_links : links_wf R' H.
Proof using All.
  destruct (new_chunk_free R H t c Hl Hd Hc) as (Hnew & Hne & Hnil). constructor.
  - intros cp c' r [[-> ->]|(Hn & c0 & Hc0 & Et & _ & Ev & _)]%new_chunk_lookup.
    + rewrite Hnil. done.
    + rewrite Hvs, Et, Ev. by apply (lw_row _ _ Hl).
  - intros cp r. rewrite Hch. intros [[Hn _]%lookup_insert_None _]%lookup_insert_None.
    by apply (lw_nochunk _ _ Hl).
  - apply (lw_sorted _ _ Hl).
  - rewrite Hvs, Hnv. apply (lw_fresh _ _ Hl).
Qed.

Lemma add_chunk_tables tp' tbl' :
  tables R' !! tp' = Some tbl' → ∃ tbl, tables R !! tp' = Some tbl ∧ dt_types tbl' = dt_types tbl ∧
    (table_ok tbl → table_ok tbl').
Proof using All.
  rewrite Htb. intros [[<- <-]|[Hne Ht']]%lookup_insert_Some; [|by exists tbl'].
  exists t. unfold table_ok. by rewrite Hty, Hser, Hacc.
Qed.

Lemma add_chunk_data : data_wf R' H.
Proof using All.
  destruct (new_chunk_free R H t c Hl Hd Hc) as (Hnew & Hne & Hnil).
  destruct (dw_list _ _ Hd _ _ Ht) as (cps & Hhd & Hlist).
  destruct (chunk_list_last _ _ _ _ _ Hlist) as (c0 & Hc0 & Htp & Hnext).
  rewrite Hc in Hc0. injection Hc0 as <-.
  destruct (dw_table _ _ Hd _ _ Hc) as (tbl & Htbl & Hlen & Hok).
  rewrite Htp, Ht in Htbl. injection Htbl as <-. constructor.
  - intros cp c' [[-> ->]|(Hn & c0 & Hc0 & Et & _ & _ & Eco & _)]%new_chunk_lookup.
    + exists t'. simpl. rewrite Htb, lookup_insert_eq, length_fmap, Hty. split_and!; try done.
      unfold table_ok in *. by rewrite Hty, Hser, Hacc.
    + destruct (dw_table _ _ Hd _ _ Hc0) as (tbl & Htbl & Hlen' & Hok'). rewrite Et, Eco, Htb.
      destruct (decide (tp = sc_table c0)) as [E|].
      * rewrite <- E in *. rewrite lookup_insert_eq. exists t'. rewrite Ht in Htbl. injection Htbl as <-.
        unfold table_ok in *. rewrite Hty, Hser, Hacc. naive_solver.
      * rewrite lookup_insert_ne by done. eauto.
  - intros cp c' tbl' r [[-> ->]|(Hn & c0 & Hc0 & Et & _ & _ & Eco & Ec)]%new_chunk_lookup Ht' Hr;
      [simpl in Hr; lia|].
    destruct (add_chunk_tables _ _ Ht') as (tbl & Htbl & -> & _). rewrite Eco.
    rewrite Et in Htbl. rewrite Ec in Hr. by eapply dw_row.
  - intros cp c' tbl' r n tu Hc' Ht' Hn Ho.
    destruct (add_chunk_tables _ _ Ht') as (tbl & Htbl & -> & _).
    apply new_chunk_lookup in Hc' as [[-> ->]|(Hn' & c0 & Hc0 & Et & _)].
    + rewrite Hnil in Hn. by apply not_elem_of_nil in Hn.
    + rewrite Et in Htbl. by eapply dw_old.
  - intros cp c' r [[-> ->]|(Hn & c0 & Hc0 & _ & Ed & _ & _ & Ec)]%new_chunk_lookup Hr.
    + split; [by apply Hnil|]. simpl. set_solver.
    + rewrite Ed. rewrite Ec in Hr. by eapply dw_unused.
  - intros cp c' [[-> ->]|(Hn & c0 & Hc0 & _ & _ & _ & _ & Ec)]%new_chunk_lookup; [simpl; lia|].
    rewrite Ec. by eapply dw_count.
  - intros cp c'. rewrite Hnc. intros [[-> ->]|(Hn & c0 & Hc0 & _)]%new_chunk_lookup; [lia|].
    apply (dw_fresh _ _ Hd) in Hc0. lia.
  - intros tp' tbl'. rewrite Htb. intros [[<- <-]|[Hne' Ht']]%lookup_insert_Some.
    + exists (cps ++ [next_chunk R]). split.
      * rewrite Hcl. destruct cps; done.
      * rewrite Htl. by eapply chunk_list_snoc.
    + destruct (dw_list _ _ Hd _ _ Ht') as (cps' & Hhd' & Hlist'). exists cps'. split; [done|].
      eapply chunk_list_wf_ext; [|done]. intros cp c0 Hin Hc0.
      destruct (chunk_list_lookup _ _ _ _ _ _ Hlist' Hin) as (c1 & Hc1 & Ht1 & _).
      exists c0. split; [|by repeat split]. rewrite Hch, !lookup_insert_ne; [done|congruence|congruence].
Qed.

Lemma add_chunk_view tx : same_view tx R R' H H.
Proof using All.
  destruct (new_chunk_free R H t c Hl Hd Hc) as (Hnew & Hne & Hnil). intros cp r. unfold view. rewrite Hch.
  destruct (decide (cp = next_chunk R)) as [->|Hn].
  - rewrite lookup_insert_eq, Hnew. cbn [sc_count NewStorageChunk]. case_decide; [lia|done].
  - rewrite lookup_insert_ne by done. destruct (decide (cp = dt_tail_chunk t)) as [->|Hn'].
    + by rewrite lookup_insert_eq, Hc.
    + by rewrite lookup_insert_ne.
Qed.

Lemma add_chunk_grows : sc_next c = None → grows R R'.
Proof using All.
  intros Hnext. destruct (new_chunk_free R H t c Hl Hd Hc) as (Hnew & Hne & _). constructor; rewrite ?Hch, ?Htb.
  - intros tp' tbl Htbl. destruct (decide (tp = tp')) as [<-|].
    + rewrite lookup_insert_eq. exists t'. rewrite Ht in Htbl. injection Htbl as <-. by split_and!.
    + rewrite lookup_insert_ne by done. eauto.
  - intros cp c0 Hc0. rewrite lookup_insert_ne by congruence.
    destruct (decide (dt_tail_chunk t = cp)) as [<-|].
    + rewrite lookup_insert_eq. rewrite Hc in Hc0. injection Hc0 as <-.
      eexists. split_and!; [done|done|]. right. split; [done|]. by intros n0 [= <-].
    + rewrite lookup_insert_ne by done. exists c0. split_and!; try done. by left.
  - intros cp c0 Hc0. destruct (decide (next_chunk R = cp)) as [<-|].
    + rewrite lookup_insert_eq. by intros [= <-].
    + rewrite !lookup_insert_ne by congruence. congruence.
Qed.
End add_chunk.

(** Reading depends on the identity and the start time of a transaction only. *)
Lemma visible_tx tx tx' v ns :
  transaction_id tx' = transaction_id tx → start_time tx' = start_time tx →
  visible tx' v ns = visible tx v ns.
Proof.
  intros Hid Hst. revert v. induction ns as [|n ns IH]; intros v; simpl; [done|].
  unfold sees. rewrite Hid, Hst. by destruct (_ || _).
Qed.

Lemma view_tx R H tx tx' cp r :
  transaction_id tx' = transaction_id tx → start_time tx' = start_time tx →
  view R H tx' cp r = view R H tx cp r.
Proof.
  intros Hid Hst. unfold view. destruct (chunks R !! cp); [|done]. case_decide; [|done].
  by apply visible_tx.
Qed.

Lemma other_extends tx tx1 R R1 H H1 tx' : extends tx tx1 R R1 H H1 → other tx tx' → other tx1 tx'.
Proof. intros E. unfold other. by rewrite (ex_id _ _ _ _ _ _ E). Qed.

(** Row [k] of the data, counted from the first row the table did not have. *)
Definition row_added (R' : rows) (H' : hist) (tx' : Transaction) (tp first : nat) (data : list Vector)
    (k : nat) : Prop :=
  ∃ cp c' r, chunks R' !! cp = Some c' ∧ sc_table c' = tp ∧ r < sc_count c' ∧
    sc_start c' + r = first + k ∧ view R' H' tx' cp r = chunk_tuple data k.

Section append_storage.
Context (tx : Transaction) (R : rows) (H : hist) (tp : nat) (t : DataTable) (c : StorageChunk) (chunk : DataChunk).
Context (Hl : links_wf R H) (Hd : data_wf R H) (Ht : tables R !! tp = Some t).
Context (Hc : chunks R !! dt_tail_chunk t = Some c) (Hok : chunk_ok (dt_types t) chunk).
Context (Hsize : 0 < chunk_size chunk ≤ STANDARD_VECTOR_SIZE).

Definition append_result (tx' : Transaction) (R' : rows) (H' : hist) (n : nat) : Prop :=
  extends tx tx' R R' H H' ∧ (∀ tx2, other tx tx2 → same_view tx2 R R' H H') ∧
  ∀ k, k < n → row_added R' H' tx' tp (sc_start c + sc_count c) (dc_data chunk) k.

Lemma tail_chunk : sc_table c = tp ∧ sc_next c = None ∧ sc_count c ≤ STORAGE_CHUNK_SIZE.
Proof.
  destruct (dw_list _ _ Hd _ _ Ht) as (cps & _ & Hlist).
  destruct (chunk_list_last _ _ _ _ _ Hlist) as (c0 & Hc0 & Htp & Hnext).
  rewrite Hc in Hc0. injection Hc0 as <-. split_and!; try done. by eapply dw_count.
Qed.

(** Filling the last chunk. *)
Lemma append_first n :
  0 < n → n ≤ chunk_size chunk → sc_count c + n ≤ STORAGE_CHUNK_SIZE →
  ∃ tx' R' H' c', append_rows tx R (dt_tail_chunk t) chunk 0 n = Ok (tx', R') ∧
    append_result tx' R' H' n ∧ tables R' = tables R ∧ next_chunk R' = next_chunk R ∧
    chunks R' = <[dt_tail_chunk t := c']> (chunks R) ∧ appended c c' (dc_data chunk) 0 n.
Proof.
  intros Hn Hle Hmax. destruct tail_chunk as (Htp & _ & _).
  destruct (append_rows_spec tx R H (dt_tail_chunk t) c t chunk 0 n)
    as (tx' & R' & c' & Happ & Hex & Htb & Hnc & Hch & Ha); try done; [by rewrite Htp|].
  destruct (append_view R R' H (dt_tail_chunk t) c c' (dc_data chunk) 0 n (next_version R) tx tx' Hc Hch Ha)
    as [_ Hown].
  { intros r Hr. by apply (dw_unused _ _ Hd _ _ _ Hc). }
  eexists tx', R', _, c'. split; [done|]. split; [|by split_and!]. split; [exact Hex|]. split.
  - intros tx2 Ho.
    destruct (append_view R R' H (dt_tail_chunk t) c c' (dc_data chunk) 0 n (next_version R) tx tx2 Hc Hch Ha)
      as [Hv _]; [|by apply Hv].
    intros r Hr. by apply (dw_unused _ _ Hd _ _ _ Hc).
  - intros k Hk. destruct Ha as (Et & Es & _ & Ec & _). exists (dt_tail_chunk t), c', (sc_count c + k).
    rewrite Hch, lookup_insert_eq, Et, Es, Ec. split_and!; try done; [lia|lia|].
    apply Hown; [apply Hex|done].
Qed.

(** Putting the remainder into a new chunk. *)
Lemma append_rest from n :
  sc_count c = STORAGE_CHUNK_SIZE → 0 < n → from + n ≤ chunk_size chunk →
  ∃ tx' R' H', ('(new_chunk, R1) ← add_chunk R tp (dt_tail_chunk t);
                append_rows tx R1 new_chunk chunk from n) = Ok (tx', R') ∧
    extends tx tx' R R' H H' ∧ (∀ tx2, other tx tx2 → same_view tx2 R R' H H') ∧
    (∀ tx2 cp c0 r, chunks R !! cp = Some c0 →
       (∃ c0', chunks R' !! cp = Some c0' ∧ sc_table c0' = sc_table c0 ∧ sc_start c0' = sc_start c0 ∧
          sc_count c0' = sc_count c0) ∧ view R' H' tx2 cp r = view R H tx2 cp r) ∧
    ∀ k, k < n → ∃ cp c' r, chunks R' !! cp = Some c' ∧ sc_table c' = tp ∧ r < sc_count c' ∧
      sc_start c' + r = sc_start c + sc_count c + k ∧
      view R' H' tx' cp r = chunk_tuple (dc_data chunk) (from + k).
Proof.
  intros Hfull Hn Hle. destruct tail_chunk as (Htp & Hnext & _).
  destruct (new_chunk_free R H t c Hl Hd Hc) as (Hnew & Hne & Hnil).
  set (t' := mkDataTable (dt_schema t) (dt_table t) (dt_types t) (dt_serializer t)
                (dt_tuple_size t) (dt_accumulative_tuple_size t) (dt_cardinality t)
                (dt_chunk_list t) (next_chunk R)).
  set (cn := NewStorageChunk tp (dt_types t) (sc_start c + sc_count c)).
  set (R1 := mkRows (versions R)
      (<[next_chunk R := cn]> (<[dt_tail_chunk t := link_chunk_next c (next_chunk R)]> (chunks R)))
      (<[tp := t']> (tables R)) (next_version R) (S (next_chunk R))).
  assert (links_wf R1 H) as Hl1 by (eapply (add_chunk_links R R1 H tp t t' c); done).
  assert (data_wf R1 H) as Hd1 by (eapply (add_chunk_data R R1 H tp t t' c); done).
  assert (grows R R1) as Hg1 by (eapply (add_chunk_grows R R1 H tp t t' c); done).
  assert (∀ tx2, same_view tx2 R R1 H H) as Hv1 by (intros tx2; eapply (add_chunk_view R R1 H tp t t' c); done).
  assert (add_chunk R tp (dt_tail_chunk t) = Ok (next_chunk R, R1)) as Hadd.
  { unfold add_chunk. rewrite Hc. run. rewrite Ht. run. by rewrite bool_decide_eq_true_2 by done. }
  destruct (append_rows_spec tx R1 H (next_chunk R) cn t' chunk from n)
    as (tx' & R' & c' & Happ & Hex & Htb & Hnc & Hch & Ha); try done.
  { simpl. by rewrite lookup_insert_eq. }
  { simpl. by rewrite lookup_insert_eq. }
  { change (sc_count cn) with 0. unfold STORAGE_CHUNK_SIZE. lia. }
  assert (∀ r, sc_count cn ≤ r → H (next_chunk R) r = [] ∧ r ∉ deleted cn) as Hfree.
  { intros r _. split; [by apply Hnil|]. simpl. set_solver. }
  assert (chunks R1 !! next_chunk R = Some cn) as Hcn by (simpl; by rewrite lookup_insert_eq).
  eexists tx', R', _. rewrite Hadd. run. split; [exact Happ|]. split; [|split; [|split]].
  - destruct Hex. constructor; try done. by eapply grows_trans.
  - intros tx2 Ho.
    destruct (append_view R1 R' H (next_chunk R) cn c' (dc_data chunk) from n (next_version R) tx tx2 Hcn Hch Ha Hfree)
      as [Hv _].
    eapply same_view_trans; [apply Hv1|by apply Hv].
  - intros tx2 cp c0 r Hc0. assert (cp ≠ next_chunk R) as Hcp by congruence.
    assert (chunks R' !! cp = chunks R1 !! cp) as Heq by (by rewrite Hch, lookup_insert_ne).
    split.
    + rewrite Heq. simpl. rewrite lookup_insert_ne by done.
      destruct (decide (cp = dt_tail_chunk t)) as [->|].
      * rewrite lookup_insert_eq. rewrite Hc in Hc0. injection Hc0 as <-. eexists. by split_and!.
      * rewrite lookup_insert_ne by done. eexists. by split_and!.
    + rewrite <- (Hv1 tx2 cp r).
      unfold view. rewrite Heq. destruct (chunks R1 !! cp); [|done]. case_decide; [|done].
      unfold hins. by rewrite decide_False by naive_solver.
  - intros k Hk.
    destruct (append_view R1 R' H (next_chunk R) cn c' (dc_data chunk) from n (next_version R) tx tx' Hcn Hch Ha Hfree)
      as [_ Hown].
    destruct Ha as (Et & Es & _ & Ec & _). exists (next_chunk R), c', k.
    rewrite Hch, lookup_insert_eq, Et, Es, Ec. simpl in *. split_and!; try done.
    apply (Hown (ex_id _ _ _ _ _ _ Hex) k Hk).
Qed.
End append_storage.

Lemma append_storage_spec tx R H tp t c chunk :
  links_wf R H → data_wf R H → tables R !! tp = Some t → chunks R !! dt_tail_chunk t = Some c →
  chunk_ok (dt_types t) chunk → 0 < chunk_size chunk ≤ STANDARD_VECTOR_SIZE →
  ∃ tx' R' H', append_storage tp chunk tx R = Ok (tx', R') ∧
    append_result tx R H tp c chunk tx' R' H' (chunk_size chunk).
Proof.
  intros Hl Hd Ht Hc Hok Hsize. destruct (tail_chunk R H tp t c Hd Ht Hc) as (Htp & Hnext & Hmax).
  unfold append_storage. rewrite Ht. run. rewrite Hc. run.
  set (n := Nat.min (STORAGE_CHUNK_SIZE - sc_count c) (chunk_size chunk)).
  destruct (Nat.eqb_spec n (chunk_size chunk)) as [En|En].
  - rewrite (proj2 (Nat.ltb_lt 0 n)) by lia.
    destruct (append_first tx R H tp t c chunk Hl Hd Ht Hc Hok Hsize n) as (tx' & R' & H' & c' & Happ & Hres & _);
      [lia|lia|lia|].
    rewrite Happ. run. exists tx', R', H'. split; [done|]. by rewrite <- En.
  - assert (n = STORAGE_CHUNK_SIZE - sc_count c) as Hn by lia.
    assert (∃ tx1 R1 H1 c1, (if 0 <? n then append_rows tx R (dt_tail_chunk t) chunk 0 n else Ok (tx, R))
        = Ok (tx1, R1) ∧ append_result tx R H tp c chunk tx1 R1 H1 n ∧ tables R1 = tables R ∧
        chunks R1 !! dt_tail_chunk t = Some c1 ∧ sc_start c1 = sc_start c ∧
        sc_count c1 = STORAGE_CHUNK_SIZE) as (tx1 & R1 & H1 & c1 & Hap1 & Hres1 & Htb1 & Hc1 & Es1 & Ec1).
    { destruct (Nat.ltb_spec 0 n) as [Hpos|Hz].
      - destruct (append_first tx R H tp t c chunk Hl Hd Ht Hc Hok Hsize n)
          as (tx' & R' & H' & c' & Happ & Hres & Htb & _ & Hch & Ha); [lia|lia|lia|].
        exists tx', R', H', c'. destruct Ha as (_ & Es & _ & Ec & _).
        split_and!; try done; [by rewrite Hch, lookup_insert_eq|lia].
      - exists tx, R, H, c. split_and!; try done; [|lia].
        split; [by apply extends_refl|]. split; [done|]. intros. lia. }
    rewrite Hap1. run. destruct Hres1 as (Hex1 & Hv1 & Hadd1).
    destruct (append_rest tx1 R1 H1 tp t c1 chunk) with (from := n) (n := chunk_size chunk - n)
      as (tx' & R' & H' & Hrest & Hex2 & Hv2 & Hkeep & Hadd2); try done;
      [apply Hex1|apply Hex1|by rewrite Htb1|lia|lia|].
    rewrite Hrest. exists tx', R', H'. split; [done|]. split; [by eapply extends_trans|]. split.
    + intros tx2 Ho. eapply same_view_trans; [by apply Hv1|]. apply Hv2. by eapply other_extends.
    + intros k Hk. destruct (decide (k < n)) as [Hlt|Hge].
      * destruct (Hadd1 k Hlt) as (cp & c0 & r & Hc0 & Ht0 & Hr0 & Hs0 & Hview).
        destruct (Hkeep tx' cp c0 r Hc0) as [(c0' & Hc0' & Et' & Es' & Ec') Hvw].
        exists cp, c0', r. rewrite Et', Es', Ec'. split_and!; try done.
        rewrite Hvw, <- Hview. apply view_tx; apply Hex2.
      * destruct (Hadd2 (k - n)) as (cp & c0 & r & Hc0 & Ht0 & Hr0 & Hs0 & Hview); [lia|].
        exists cp, c0, r. split_and!; try done; [lia|]. rewrite Hview. f_equal. lia.
Qed.

Section append_spec.
Context {IX : Type} `{!TableIndexes IX}.
Implicit Types (s : tstate IX).

(** [Append] adds the rows of the chunk after the last row of the table: they
    are visible to the transaction and to nobody else. *)
Lemma Append_spec s H tp t c info chunk ix1 ix2 :
  wf_state s H → tables (st_rows s) !! tp = Some t → chunks (st_rows s) !! dt_tail_chunk t = Some c →
  chunk_ok (dt_types t) chunk → 0 < chunk_size chunk ≤ STANDARD_VECTOR_SIZE →
  column_count chunk = length (tc_columns info) →
  VerifyConstraints (tc_constraints info) chunk = Ok tt →
  unique_append (st_ix s) (st_tx s) (st_rows s) chunk (sc_start c + sc_count c) = Ok ix1 →
  index_append (update_statistics ix1 0 (take (length (dt_types t)) (dc_data chunk))) chunk
    (sc_start c + sc_count c) = Ok ix2 →
  ∃ s' H', Append tp info chunk s = (Ok tt, s') ∧ st_ix s' = ix2 ∧
    extends (st_tx s) (st_tx s') (st_rows s) (st_rows s') H H' ∧ same_views s s' H H' ∧
    ∀ k, k < chunk_size chunk →
      row_added (st_rows s') H' (st_tx s') tp (sc_start c + sc_count c) (dc_data chunk) k.
Proof.
  intros (Hl & Hd & Hid) Ht Hc Hok Hsize Hcols Hcons Hu Hi.
  destruct (append_storage_spec (st_tx s) (st_rows s) H tp t c chunk)
    as (tx' & R' & H' & Happ & Hex & Hv & Hadd); try done.
  destruct (tail_chunk (st_rows s) H tp t c Hd Ht Hc) as (_ & Hnext & _).
  exists (mkTState tx' R' ix2), H'. split; [|split_and!; done].
  unfold Append. destruct (Nat.eqb_spec (chunk_size chunk) 0); [lia|].
  rewrite Hcols, Nat.eqb_refl. run. rewrite Hcons. run. rewrite Ht. run. rewrite Hc. run.
  rewrite bool_decide_eq_true_2 by done. run. rewrite Hu. unfold set_ix. run. rewrite Hi. run.
  unfold push_state. simpl. by rewrite Happ.
Qed.
End append_spec.
