(* ===== verification/Serializer.v ===== *)
(** * Binary serialization

    Models [src/src/include/common/serializer.hpp] and
    [src/src/common/serializer.cpp]: a byte buffer that grows by doubling and
    a reader over a byte range; the encodings of [SQLType] ([types.cpp]) and of
    [DataChunk] ([data_chunk.cpp]) on top of them.  A byte is an integer in
    [0, 256); integers are written in the little-endian order of the machine. *)

From Stdlib Require Import ZArith Lia Ascii.
From stdpp Require Import base gmap list strings option numbers sorting.
From S2P Require Import Prelude Types Vector.

Abbreviation byte := Z.

(** ** Integers and strings as bytes *)

Fixpoint le_bytes (n : nat) (z : Z) : list byte :=
  match n with 0 => [] | S n' => (z mod 256)%Z :: le_bytes n' (z / 256)%Z end.

Fixpoint le_val (bs : list byte) : Z :=
  match bs with [] => 0 | b :: bs' => b + 256 * le_val bs' end%Z.

(** The value read through a signed type of [n] bytes. *)
Definition to_signed (n : nat) (z : Z) : Z :=
  (if z <? 2 ^ (8 * Z.of_nat n - 1) then z else z - 2 ^ (8 * Z.of_nat n))%Z.

Definition byte_of_ascii (a : ascii) : byte := Z.of_N (N_of_ascii a).
Definition ascii_of_byte (b : byte) : ascii := ascii_of_N (Z.to_N b).

Definition string_bytes (s : string) : list byte := byte_of_ascii <$> String.list_ascii_of_string s.
Definition bytes_string (bs : list byte) : string :=
  String.string_of_list_ascii (ascii_of_byte <$> bs).

(** ** Serializer *)

Record Serializer : Type := mkSerializer { blob : list byte; maximum_size : nat }.

Definition SERIALIZER_DEFAULT_SIZE : nat := 1024.
Arguments SERIALIZER_DEFAULT_SIZE : simpl never.

Definition NewSerializer : Serializer := mkSerializer [] SERIALIZER_DEFAULT_SIZE.

(** The [do { maximum_size *= 2; } while (needed > maximum_size)] loop. *)
Fixpoint double_until (fuel : nat) (needed maximum_size : nat) : option nat :=
  match fuel with
  | 0 => None
  | S fuel' =>
    let m := 2 * maximum_size in
    if m <? needed then double_until fuel' needed m else Some m
  end.

Definition PotentialResize (s : Serializer) (new_element_size : nat) : result Serializer :=
  let needed := length (blob s) + new_element_size in
  if maximum_size s <=? needed then
    m ← deref (double_until (S needed) needed (maximum_size s));
    mret (mkSerializer (blob s) m)
  else Ok s.

(** Storing bytes behind the blob; past the buffer is undefined. *)
Definition put_bytes (s : Serializer) (bs : list byte) : result Serializer :=
  _ ← assert_ (length (blob s) + length bs <=? maximum_size s);
  mret (mkSerializer (blob s ++ bs) (maximum_size s)).

Definition WriteData (s : Serializer) (bs : list byte) : result Serializer :=
  s ← PotentialResize s (length bs);
  put_bytes s bs.

(** [Write<T>(element)] for an integer type of [n] bytes. *)
Definition WriteInt (n : nat) (s : Serializer) (z : Z) : result Serializer :=
  WriteData s (le_bytes n z).

Definition WriteString (s : Serializer) (val : string) : result Serializer :=
  s ← WriteInt 4 s (Z.of_nat (String.length val));
  if 0 <? String.length val then WriteData s (string_bytes val) else Ok s.

(** ** Deserializer: the state is the list of bytes from [ptr] to [endptr] *)

Definition ReadData (n : nat) : M (list byte) (list byte) := fun src =>
  if length src <? n then (Throw SerializationException, src)
  else (Ok (take n src), drop n src).

Definition ReadInt (n : nat) : M (list byte) Z :=
  bs ← ReadData n; mret (le_val bs).

Definition ReadString : M (list byte) string :=
  n ← ReadInt 4;
  bs ← ReadData (Z.to_nat n);
  mret (bytes_string bs).

(** ** Facts about bytes *)

Lemma le_bytes_length n z : length (le_bytes n z) = n.
Proof. revert z. induction n as [|n IH]; intros z; simpl; [done|]. by rewrite IH. Qed.

Lemma le_val_bytes n z : le_val (le_bytes n z) = (z mod 2 ^ (8 * Z.of_nat n))%Z.
Proof.
  revert z. induction n as [|n IH]; intros z; cbn [le_bytes le_val].
  { change (2 ^ (8 * Z.of_nat 0))%Z with 1%Z. by rewrite Z.mod_1_r. }
  rewrite IH. replace (8 * Z.of_nat (S n))%Z with (8 + 8 * Z.of_nat n)%Z by lia.
  rewrite Z.pow_add_r by lia. change (2 ^ 8)%Z with 256%Z.
  rewrite Z.rem_mul_r by (try apply Z.pow_pos_nonneg; lia). done.
Qed.

Lemma le_val_unsigned n z : (0 ≤ z < 2 ^ (8 * Z.of_nat n))%Z → le_val (le_bytes n z) = z.
Proof. intros Hz. rewrite le_val_bytes. by apply Z.mod_small. Qed.

Lemma le_val_signed n z :
  (0 < n)%nat → (- 2 ^ (8 * Z.of_nat n - 1) ≤ z < 2 ^ (8 * Z.of_nat n - 1))%Z →
  to_signed n (le_val (le_bytes n z)) = z.
Proof.
  intros Hn Hz. rewrite le_val_bytes. unfold to_signed.
  set (h := (2 ^ (8 * Z.of_nat n - 1))%Z) in *.
  assert (2 ^ (8 * Z.of_nat n) = 2 * h)%Z as E.
  { unfold h. rewrite <- Z.pow_succ_r by lia. f_equal. lia. }
  rewrite E. destruct (Z.ltb_spec z 0).
  - assert (z mod (2 * h) = z + 2 * h)%Z as ->.
    { symmetry. apply (Z.mod_unique_pos _ _ (-1)); lia. }
    destruct (Z.ltb_spec (z + 2 * h) h); lia.
  - rewrite Z.mod_small by lia. destruct (Z.ltb_spec z h); lia.
Qed.

Lemma ascii_byte a : ascii_of_byte (byte_of_ascii a) = a.
Proof. unfold ascii_of_byte, byte_of_ascii. rewrite N2Z.id. apply ascii_N_embedding. Qed.

Lemma bytes_string_bytes s : bytes_string (string_bytes s) = s.
Proof.
  unfold bytes_string, string_bytes. rewrite <- list_fmap_compose.
  rewrite (list_fmap_ext _ id) by (intros; apply ascii_byte).
  rewrite list_fmap_id. apply String.string_of_list_ascii_of_string.
Qed.

Lemma string_bytes_length s : length (string_bytes s) = String.length s.
Proof. unfold string_bytes. rewrite length_fmap. induction s; simpl; [done|]. by f_equal. Qed.

(** ** Writing never leaves the buffer *)

Lemma double_until_spec fuel needed m :
  0 < m → needed ≤ fuel + m → 0 < fuel → ∃ m', double_until fuel needed m = Some m' ∧ needed ≤ m' ∧ m < m'.
Proof.
  revert m. induction fuel as [|fuel IH]; intros m Hm Hf Hpos; [lia|]. cbn [double_until].
  destruct (Nat.ltb_spec (2 * m) needed); [|eexists; split; [done|lia]].
  destruct fuel as [|fuel]; [lia|].
  destruct (IH (2 * m)) as (m' & Hm' & Hle & Hlt); [lia|lia|lia|]. exists m'. split; [done|lia].
Qed.

(** [s'] is [s] with the bytes [bs] written. *)
Definition ser_ok (s : Serializer) : Prop := 0 < maximum_size s ∧ length (blob s) ≤ maximum_size s.
Definition wrote (s s' : Serializer) (bs : list byte) : Prop := blob s' = blob s ++ bs ∧ ser_ok s'.

Lemma NewSerializer_ok : ser_ok NewSerializer.
Proof. unfold ser_ok. simpl. unfold SERIALIZER_DEFAULT_SIZE. lia. Qed.

Lemma WriteData_spec s bs : ser_ok s → ∃ s', WriteData s bs = Ok s' ∧ wrote s s' bs.
Proof.
  intros [Hpos Hle]. unfold WriteData, PotentialResize, put_bytes.
  destruct (Nat.leb_spec (maximum_size s) (length (blob s) + length bs)) as [Hres|Hfits].
  - destruct (double_until_spec (S (length (blob s) + length bs)) (length (blob s) + length bs)
      (maximum_size s)) as (m & Hm & Hneed & Hlt); [done|lia|lia|].
    rewrite Hm. run. cbn [maximum_size blob]. rewrite (proj2 (Nat.leb_le _ _) Hneed). run.
    eexists. split; [done|]. split; [done|]. split; simpl; [lia|]. rewrite length_app. lia.
  - run. rewrite (proj2 (Nat.leb_le _ _)) by lia. run.
    eexists. split; [done|]. split; [done|]. split; simpl; [lia|]. rewrite length_app. lia.
Qed.

Lemma WriteInt_spec n s z : ser_ok s → ∃ s', WriteInt n s z = Ok s' ∧ wrote s s' (le_bytes n z).
Proof. apply WriteData_spec. Qed.

Lemma wrote_trans s1 s2 s3 bs cs : wrote s1 s2 bs → wrote s2 s3 cs → wrote s1 s3 (bs ++ cs).
Proof. intros [H1 _] [H2 Hok]. split; [|done]. by rewrite H2, H1, app_assoc. Qed.

Definition string_encoding (val : string) : list byte :=
  le_bytes 4 (Z.of_nat (String.length val)) ++ string_bytes val.

Lemma WriteString_spec s val : ser_ok s → ∃ s', WriteString s val = Ok s' ∧ wrote s s' (string_encoding val).
Proof.
  intros Hok. unfold WriteString.
  destruct (WriteInt_spec 4 s (Z.of_nat (String.length val)) Hok) as (s1 & -> & Hw1). run.
  destruct (Nat.ltb_spec 0 (String.length val)) as [Hlt|Hz].
  - destruct (WriteData_spec s1 (string_bytes val) (proj2 Hw1)) as (s2 & -> & Hw2).
    exists s2. split; [done|]. by eapply wrote_trans.
  - exists s1. split; [done|]. unfold string_encoding.
    rewrite (nil_length_inv (string_bytes val)) by (rewrite string_bytes_length; lia).
    by rewrite app_nil_r.
Qed.

(** ** Reading back *)

Lemma ReadData_app n bs rest : length bs = n → ReadData n (bs ++ rest) = (Ok bs, rest).
Proof.
  intros <-. unfold ReadData. rewrite length_app.
  destruct (Nat.ltb_spec (length bs + length rest) (length bs)); [lia|].
  by rewrite take_app_length, drop_app_length.
Qed.

Lemma ReadInt_app n z rest :
  (0 ≤ z < 2 ^ (8 * Z.of_nat n))%Z → ReadInt n (le_bytes n z ++ rest) = (Ok z, rest).
Proof.
  intros Hz. unfold ReadInt.
  rewrite (mbind_M_run _ _ _ _ _ (ReadData_app n (le_bytes n z) rest (le_bytes_length _ _))).
  unfold mret, M_ret, mret_M. by rewrite le_val_unsigned.
Qed.

Lemma ReadString_app val rest :
  (Z.of_nat (String.length val) < 2 ^ 32)%Z → ReadString (string_encoding val ++ rest) = (Ok val, rest).
Proof.
  intros Hlen. unfold ReadString, string_encoding. rewrite <- app_assoc.
  assert (ReadInt 4 (le_bytes 4 (Z.of_nat (String.length val)) ++ string_bytes val ++ rest)
    = (Ok (Z.of_nat (String.length val)), string_bytes val ++ rest)) as Hr.
  { apply ReadInt_app. change (8 * Z.of_nat 4)%Z with 32%Z. lia. }
  run_using Hr. rewrite Nat2Z.id.
  assert (Hd := ReadData_app _ (string_bytes val) rest (string_bytes_length val)).
  run_using Hd. unfold mret, M_ret, mret_M. by rewrite bytes_string_bytes.
Qed.

(** A truncated input is refused. *)
Lemma ReadData_short n src : length src < n → ReadData n src = (Throw SerializationException, src).
Proof. intros Hn. unfold ReadData. by rewrite (proj2 (Nat.ltb_lt _ _) Hn). Qed.

(** ** SQL types *)

Definition SQLType_Serialize (s : Serializer) (t : SQLType) : result Serializer :=
  s ← WriteInt 1 s (SQLTypeId_code (sql_id t));
  s ← WriteInt 2 s (sql_width t);
  WriteInt 1 s (sql_scale t).

(** The enumerator with a given code; other codes are not values of the enum. *)
Definition SQLTypeId_of_code (z : Z) : option SQLTypeId :=
  List.find (fun t => (SQLTypeId_code t =? z)%Z)
    [SQL_INVALID; SQL_SQLNULL; SQL_BOOLEAN; SQL_TINYINT; SQL_SMALLINT; SQL_INTEGER; SQL_BIGINT;
     SQL_DATE; SQL_TIMESTAMP; SQL_REAL; SQL_DOUBLE; SQL_FLOAT; SQL_DECIMAL; SQL_CHAR; SQL_VARCHAR;
     SQL_VARBINARY; SQL_POINTER].

Definition SQLType_Deserialize : M (list byte) SQLType :=
  id ← ReadInt 1;
  width ← ReadInt 2;
  scale ← ReadInt 1;
  id ← lift_M (deref (SQLTypeId_of_code id));
  mret (mkSQLType id width scale).

Definition SQLType_ok (t : SQLType) : Prop :=
  (0 ≤ sql_width t < 2 ^ 16)%Z ∧ (0 ≤ sql_scale t < 2 ^ 8)%Z.

Definition SQLType_encoding (t : SQLType) : list byte :=
  le_bytes 1 (SQLTypeId_code (sql_id t)) ++ le_bytes 2 (sql_width t) ++ le_bytes 1 (sql_scale t).

Lemma SQLType_Serialize_spec s t :
  ser_ok s → ∃ s', SQLType_Serialize s t = Ok s' ∧ wrote s s' (SQLType_encoding t).
Proof.
  intros Hok. unfold SQLType_Serialize.
  destruct (WriteInt_spec 1 s (SQLTypeId_code (sql_id t)) Hok) as (s1 & -> & Hw1). run.
  destruct (WriteInt_spec 2 s1 (sql_width t) (proj2 Hw1)) as (s2 & -> & Hw2). run.
  destruct (WriteInt_spec 1 s2 (sql_scale t) (proj2 Hw2)) as (s3 & -> & Hw3).
  exists s3. split; [done|]. eapply wrote_trans; [done|]. by eapply wrote_trans.
Qed.

Lemma SQLType_Deserialize_app t rest :
  SQLType_ok t → SQLType_Deserialize (SQLType_encoding t ++ rest) = (Ok t, rest).
Proof.
  intros [Hw Hs]. unfold SQLType_Deserialize, SQLType_encoding. rewrite <- !app_assoc.
  assert (0 ≤ SQLTypeId_code (sql_id t) < 2 ^ (8 * Z.of_nat 1))%Z as Hid by (destruct (sql_id t); by vm_compute).
  assert (H1 := ReadInt_app 1 _ (le_bytes 2 (sql_width t) ++ le_bytes 1 (sql_scale t) ++ rest) Hid).
  run_using H1.
  assert (H2 := ReadInt_app 2 (sql_width t) (le_bytes 1 (sql_scale t) ++ rest) Hw). run_using H2.
  assert (H3 := ReadInt_app 1 (sql_scale t) rest Hs). run_using H3.
  destruct t as [id w sc]; simpl. by destruct id.
Qed.
