(* ===== verification/ChunkSerializer.v ===== *)
(** * Data chunks as bytes

    [DataChunk::Serialize] and [DataChunk::Deserialize]
    ([src/src/common/types/data_chunk.cpp]), the format of the rows in the
    write-ahead log and in checkpoints: row count, column count, types, then
    the columns, fixed-width ones as raw storage cells with sentinels for
    NULLs, strings one by one. *)

From Stdlib Require Import ZArith Lia Ascii.
From stdpp Require Import base gmap list strings option numbers sorting.
From S2P Require Import Prelude Types Vector Serializer.

Definition cell_bytes (c : cell) : result (list byte) :=
  match c with Num n z => Ok (le_bytes n z) | Str _ => Undef end.

(** The [j]-th [char*] of a string column; the null mask is not looked at. *)
Definition string_at (v : Vector) (j : nat) : result string :=
  c ← deref (v_data v !! j);
  match c with
  | Str (Some s) => Ok s
  | Str None => Ok str_nil
  | Num _ _ => Undef
  end.

Fixpoint write_strings (s : Serializer) (v : Vector) (js : list nat) : result Serializer :=
  match js with
  | [] => Ok s
  | j :: js' => str ← string_at v j; s ← WriteString s str; write_strings s v js'
  end.

Definition write_column (size : nat) (s : Serializer) (v : Vector) : result Serializer :=
  if TypeIsConstantSize (v_type v) then
    n ← GetTypeIdSize (v_type v);
    cs ← CopyToStorage v 0 0;
    bs ← mapM cell_bytes cs;
    _ ← assert_ (length (concat bs) =? n * size);
    WriteData s (concat bs)
  else
    _ ← assert_ (bool_decide (v_type v = T_VARCHAR));
    write_strings s v (seq 0 size).

Fixpoint write_types (s : Serializer) (types : list TypeId) : result Serializer :=
  match types with
  | [] => Ok s
  | t :: types' => s ← WriteInt 4 s (TypeId_code t); write_types s types'
  end.

Fixpoint write_columns (size : nat) (s : Serializer) (data : list Vector) : result Serializer :=
  match data with
  | [] => Ok s
  | v :: data' => s ← write_column size s v; write_columns size s data'
  end.

Definition DataChunk_Serialize (s : Serializer) (c : DataChunk) : result Serializer :=
  s ← WriteInt 2 s (Z.of_nat (chunk_size c));
  s ← WriteInt 8 s (Z.of_nat (column_count c));
  s ← write_types s (GetTypes c);
  write_columns (chunk_size c) s (dc_data c).

(** ** Reading *)

Definition TypeId_of_code (z : Z) : option TypeId :=
  List.find (fun t => (TypeId_code t =? z)%Z)
    [T_INVALID; T_BOOLEAN; T_TINYINT; T_SMALLINT; T_INTEGER; T_BIGINT; T_POINTER; T_FLOAT;
     T_DOUBLE; T_VARCHAR; T_VARBINARY].

Fixpoint read_types (n : nat) : M (list byte) (list TypeId) :=
  match n with
  | 0 => mret []
  | S n' =>
    z ← ReadInt 4;
    t ← lift_M (deref (TypeId_of_code (to_signed 4 z)));
    ts ← read_types n';
    mret (t :: ts)
  end.

(** The raw bytes of a fixed-width column as cells: pointers and the bit
    patterns of floating point numbers are unsigned. *)
Definition decode_num (t : TypeId) (bs : list byte) : cell :=
  let z := le_val bs in
  Num (length bs)
    match t with T_POINTER | T_FLOAT | T_DOUBLE => z | _ => to_signed (length bs) z end.

Fixpoint split_cells (n rows : nat) (bs : list byte) : list (list byte) :=
  match rows with
  | 0 => []
  | S rows' => take n bs :: split_cells n rows' (drop n bs)
  end.

Definition read_fixed (t : TypeId) (rows : nat) : M (list byte) Vector :=
  n ← lift_M (GetTypeIdSize t);
  bs ← ReadData (n * rows);
  let cs := decode_num t <$> split_cells n rows bs in
  let source := mkVector t rows (write_block ∅ 0 cs) None ∅ in
  v ← lift_M (AppendFromStorage source (EmptyVector t));
  mret (mkVector (v_type v) rows (v_data v) (v_sel v) (v_null v)).

Fixpoint read_strings (v : Vector) (js : list nat) : M (list byte) Vector :=
  match js with
  | [] => mret v
  | j :: js' =>
    str ← ReadString;
    let v :=
      if bool_decide (str = str_nil)
      then mkVector (v_type v) (v_count v) (<[j := Str None]> (v_data v)) (v_sel v) ({[j]} ∪ v_null v)
      else mkVector (v_type v) (v_count v) (<[j := Str (Some str)]> (v_data v)) (v_sel v) (v_null v) in
    read_strings v js'
  end.

Definition read_column (rows : nat) (t : TypeId) : M (list byte) Vector :=
  if TypeIsConstantSize t then read_fixed t rows
  else
    v ← read_strings (EmptyVector t) (seq 0 rows);
    mret (mkVector (v_type v) rows (v_data v) (v_sel v) (v_null v)).

Fixpoint read_columns (rows : nat) (types : list TypeId) : M (list byte) (list Vector) :=
  match types with
  | [] => mret []
  | t :: types' => v ← read_column rows t; vs ← read_columns rows types'; mret (v :: vs)
  end.

Definition DataChunk_Deserialize : M (list byte) DataChunk :=
  rows ← ReadInt 2;
  column_count ← ReadInt 8;
  types ← read_types (Z.to_nat column_count);
  data ← read_columns (Z.to_nat rows) types;
  mret (mkDataChunk data None).

(** ** What the format can carry *)

(** The numbers of a type fit its width. *)
Definition num_fits (t : TypeId) (c : cell) : Prop :=
  match c with
  | Num n z =>
    match t with
    | T_POINTER | T_FLOAT | T_DOUBLE => (0 ≤ z < 2 ^ (8 * Z.of_nat n))%Z
    | _ => (0 < n)%nat ∧ (- 2 ^ (8 * Z.of_nat n - 1) ≤ z < 2 ^ (8 * Z.of_nat n - 1))%Z
    end
  | Str s => match s with Some s => (Z.of_nat (String.length s) < 2 ^ 32)%Z | None => True end
  end.

(** A column as the writers produce it: no selection vector, and the null bits
    of a string column mark the null pointers. *)
Definition writable (v : Vector) : Prop :=
  vector_ok v ∧ v_sel v = None ∧
  (∀ k x, k < v_count v → stored_cell v k = Some x → num_fits (v_type v) x) ∧
  (v_type v = T_VARCHAR → ∀ k, k < v_count v →
     ∃ s, v_data v !! k = Some (Str s) ∧ (k ∈ v_null v → s = None) ∧ (s = None → k ∈ v_null v)).

Lemma num_fits_decode t n z :
  num_fits t (Num n z) → decode_num t (le_bytes n z) = Num n z.
Proof.
  unfold num_fits, decode_num. rewrite le_bytes_length. intros Hfit. f_equal.
  destruct t; try (destruct Hfit; by apply le_val_signed); by apply le_val_unsigned.
Qed.

(** ** The round trip of a column *)

(** [bs] is what the writer emits for [v] and what the reader turns into a
    column with the same stored values. *)
Definition column_roundtrip (v : Vector) (n : nat) (bs : list byte) : Prop :=
  (∀ s, ser_ok s → ∃ s', write_column n s v = Ok s' ∧ wrote s s' bs) ∧
  ∀ rest, ∃ v', read_column n (v_type v) (bs ++ rest) = (Ok v', rest) ∧
    v_type v' = v_type v ∧ v_count v' = n ∧ v_sel v' = None ∧
    ∀ k, k < n → stored_cell v' k = stored_cell v k.

Lemma split_cells_concat n bss :
  Forall (fun bs => length bs = n) bss → split_cells n (length bss) (concat bss) = bss.
Proof.
  induction 1 as [|bs bss Hbs _ IH]; [done|]. simpl.
  rewrite (take_app_length' bs), (drop_app_length' bs) by done. by rewrite IH.
Qed.

Lemma concat_length_const n (bss : list (list byte)) :
  Forall (fun bs => length bs = n) bss → length (concat bss) = n * length bss.
Proof. induction 1 as [|bs bss Hbs _ IH]; simpl; [lia|]. rewrite length_app, Hbs, IH. lia. Qed.

(** The cells of a fixed-width type as bytes, and back. *)
Lemma fixed_cells t n cs :
  TypeIsConstantSize t = true → GetTypeIdSize t = Ok n →
  Forall (fun c => cell_has_type t c = true ∧ num_fits t c) cs →
  ∃ bss, mapM cell_bytes cs = Ok bss ∧ length bss = length cs ∧
    Forall (fun bs => length bs = n) bss ∧ decode_num t <$> bss = cs.
Proof.
  intros Hconst Hsize. induction 1 as [|c cs [Hty Hfit] _ (bss & Hbss & Hlen & Hall & Hdec)].
  { by exists []. }
  pose proof (cell_has_type_size _ _ Hty) as Hcs. rewrite Hsize in Hcs. apply Ok_inj in Hcs.
  destruct c as [m z|[s|]]; simpl in Hty; [|apply bool_decide_eq_true_1 in Hty; by subst|done].
  simpl in Hcs. subst m. exists (le_bytes n z :: bss). cbn [mapM]. run. rewrite Hbss.
  split_and!; [done|simpl; lia|by constructor; [apply le_bytes_length|]|].
  csimpl. rewrite Hdec. f_equal. by apply num_fits_decode.
Qed.

Lemma IsNullValue_sentinel t c null :
  NullValue t = Ok null → IsNullValue t c = Ok true → c = null.
Proof.
  intros Hn. destruct c as [? ?|[?|]]; simpl; try done; rewrite Hn; simpl; intros [= H];
    by apply bool_decide_eq_true_1 in H.
Qed.

(** Reading storage cells into an empty vector. *)
Lemma append_stored t cs :
  (∃ null, NullValue t = Ok null) → length cs ≤ STANDARD_VECTOR_SIZE →
  Forall (fun c => cell_has_type t c = true) cs →
  ∃ v, AppendFromStorage (mkVector t (length cs) (write_block ∅ 0 cs) None ∅) (EmptyVector t) = Ok v ∧
    v_type v = t ∧ v_sel v = None ∧ v_count v = length cs ∧
    ∀ k, k < length cs → stored_cell v k = cs !! k.
Proof.
  intros [null Hnull] Hmax Hty.
  destruct (AppendFromStorage_spec (mkVector t (length cs) (write_block ∅ 0 cs) None ∅) (EmptyVector t) cs)
    as (v & Hv & Ht & Hs & Hc & Hcells & Hn); simpl.
  - lia.
  - by intros ->.
  - unfold exec_indexes. rewrite Nat.sub_0_r. apply Forall2_fmap_l, Forall2_same_length_lookup.
    split; [by rewrite length_seq|]. intros i k x Hi Hx. apply lookup_seq in Hi as [-> Hi]. simpl.
    rewrite write_block_lookup, decide_True by lia. by rewrite Nat.sub_0_r.
  - done.
  - exists v. simpl in *. split_and!; try done. intros k Hk. unfold stored_cell. rewrite Hs, Ht, Hnull.
    simpl. destruct (lookup_lt_is_Some_2 _ _ Hk) as [c Hck].
    specialize (Hn k Hk). rewrite Nat.add_0_r in Hn. case_decide as Hd.
    + apply Hn in Hd as [Hd|(c' & Hc' & Hnull')]; [set_solver|].
      rewrite Hc'. f_equal. symmetry. by eapply IsNullValue_sentinel.
    + assert (vec_cells v !! k = (Some <$> cs) !! k) as Hk' by (rewrite Hcells; done).
      unfold vec_cells in Hk'. rewrite Hc in Hk'.
      rewrite !list_lookup_fmap, lookup_seq_lt, Hck in Hk' by done. simpl in Hk'.
      injection Hk' as Hk'. by rewrite Hk'.
Qed.

Lemma CopyToStorage_all v :
  vector_ok v → ∃ cs, CopyToStorage v 0 0 = Ok cs ∧ length cs = v_count v ∧
    Forall (fun x => cell_has_type (v_type v) x = true) cs ∧
    ∀ i, i < v_count v → cs !! i = stored_cell v i.
Proof.
  intros Hok. destruct (decide (v_count v = 0)) as [Hz|Hz].
  { exists []. unfold CopyToStorage. rewrite Hz. split_and!; try done. intros. lia. }
  destruct (CopyToStorage_spec v 0 (v_count v) Hok) as (cs & Hcs & Hl & Hty & Hlk); [lia|lia|].
  exists cs. split_and!; try done. rewrite <- Hcs. unfold CopyToStorage.
  destruct (Nat.eqb_spec (v_count v) 0); [done|]. done.
Qed.

Lemma fixed_roundtrip v n :
  writable v → v_count v = n → n ≤ STANDARD_VECTOR_SIZE → TypeIsConstantSize (v_type v) = true →
  ∃ bs, column_roundtrip v n bs.
Proof.
  intros (Hok & Hsel & Hfit & _) Hn Hmax Hconst. pose proof Hok as [Hnull _].
  assert (∃ m, GetTypeIdSize (v_type v) = Ok m) as [m Hm].
  { destruct Hnull as [null Hnull]. apply NullValue_typed, cell_has_type_size in Hnull. eauto. }
  destruct (CopyToStorage_all v Hok) as (cs & Hcs & Hlen & Hty & Hlk).
  destruct (fixed_cells (v_type v) m cs Hconst Hm) as (bss & Hbss & Hlb & Hall & Hdec).
  { apply Forall_lookup. intros i c Hi. pose proof (lookup_lt_Some _ _ _ Hi) as Hlt. split.
    - by eapply Forall_lookup_1 in Hty.
    - apply (Hfit i); [lia|]. rewrite <- Hlk by lia. done. }
  exists (concat bss). split.
  - intros s Hs. unfold write_column. rewrite Hconst, Hm. run. rewrite Hcs. run. rewrite Hbss. run.
    rewrite (concat_length_const m) by done. rewrite Hlb, Hlen, Hn, Nat.eqb_refl. run.
    by apply WriteData_spec.
  - intros rest. destruct (append_stored (v_type v) cs Hnull) as (v' & Hv' & Ht' & Hs' & Hc' & Hst);
      [lia|done|].
    exists (mkVector (v_type v') n (v_data v') (v_sel v') (v_null v')). split_and!; try done.
    + assert (ReadData (m * n) (concat bss ++ rest) = (Ok (concat bss), rest)) as Hrd.
      { apply ReadData_app. rewrite (concat_length_const m) by done. lia. }
      unfold read_column, read_fixed. rewrite Hconst, Hm. run. run_using Hrd.
      assert (split_cells m n (concat bss) = bss) as ->.
      { replace n with (length bss) by lia. by apply split_cells_concat. }
      rewrite Hdec. replace n with (length cs) by lia. by rewrite Hv'.
    + intros k Hk. rewrite <- Hlk by lia. rewrite <- Hst by lia. done.
Qed.

(** Strings *)
Definition strings_encoding (v : Vector) (js : list nat) : list byte :=
  js ≫= fun j => match string_at v j with Ok s => string_encoding s | _ => [] end.

Lemma write_strings_spec v js s :
  ser_ok s → (∀ j, j ∈ js → ∃ str, string_at v j = Ok str) →
  ∃ s', write_strings s v js = Ok s' ∧ wrote s s' (strings_encoding v js).
Proof.
  revert s. induction js as [|j js IH]; intros s Hs Hstr.
  { exists s. split; [done|]. split; [|done]. simpl. by rewrite app_nil_r. }
  destruct (Hstr j) as [str Hj]; [left|].
  destruct (WriteString_spec s str Hs) as (s1 & Hw1 & Hwr1).
  destruct (IH s1 (proj2 Hwr1)) as (s2 & Hw2 & Hwr2); [intros j' Hj'; apply Hstr; by right|].
  exists s2. cbn [write_strings]. rewrite Hj. run. rewrite Hw1. run. split; [done|].
  unfold strings_encoding. simpl. rewrite Hj. by eapply wrote_trans.
Qed.

(** The cell the reader stores for a string. *)
Definition string_cell (str : string) : cell := if bool_decide (str = str_nil) then Str None else Str (Some str).

Lemma read_strings_spec v w js rest :
  (∀ j, j ∈ js → ∃ str, string_at v j = Ok str ∧ (Z.of_nat (String.length str) < 2 ^ 32)%Z) →
  NoDup js →
  ∃ w', read_strings w js (strings_encoding v js ++ rest) = (Ok w', rest) ∧
    v_type w' = v_type w ∧ v_sel w' = v_sel w ∧
    (∀ k, k ∉ js → v_data w' !! k = v_data w !! k ∧ (k ∈ v_null w' ↔ k ∈ v_null w)) ∧
    (∀ k str, k ∈ js → string_at v k = Ok str → v_data w' !! k = Some (string_cell str) ∧
       (k ∈ v_null w' ↔ str = str_nil ∨ k ∈ v_null w)).
Proof.
  revert w. induction js as [|j js IH]; intros w Hstr Hnd.
  { exists w. split_and!; try done. intros k str Hk. by apply not_elem_of_nil in Hk. }
  apply NoDup_cons in Hnd as [Hnot Hnd].
  destruct (Hstr j) as (str & Hj & Hlen); [left|].
  cbn [read_strings]. unfold strings_encoding. simpl. rewrite Hj, <- app_assoc.
  fold (strings_encoding v js).
  assert (Hr := ReadString_app str (strings_encoding v js ++ rest) Hlen). run_using Hr.
  match goal with |- context [read_strings ?x js] => set (w1 := x) end.
  destruct (IH w1) as (w' & Hw' & Ht & Hs & Hout & Hin); [intros j' Hj'; apply Hstr; by right|done|].
  exists w'. split; [done|].
  assert (v_type w1 = v_type w ∧ v_sel w1 = v_sel w ∧
    v_data w1 = <[j := string_cell str]> (v_data w) ∧
    (∀ k, k ∈ v_null w1 ↔ (k = j ∧ str = str_nil) ∨ k ∈ v_null w)) as (E1 & E2 & E3 & E4).
  { unfold w1, string_cell. case_bool_decide; simpl; split_and!; try done; set_solver. }
  rewrite Ht, Hs. split_and!; try done.
  - intros k Hk. apply not_elem_of_cons in Hk as [Hkj Hk]. destruct (Hout k Hk) as [Hd Hn].
    rewrite Hd, Hn, E3, E4, lookup_insert_ne by done. naive_solver.
  - intros k str' [->|Hk]%elem_of_cons Hs'.
    + rewrite Hj in Hs'. injection Hs' as <-. destruct (Hout j Hnot) as [Hd Hn].
      rewrite Hd, Hn, E3, E4, lookup_insert_eq. naive_solver.
    + destruct (Hin k str' Hk Hs') as [Hd Hn]. rewrite Hd, Hn, E4.
      assert (k ≠ j) by (intros ->; done). naive_solver.
Qed.

Lemma string_roundtrip v n :
  writable v → v_count v = n → v_type v = T_VARCHAR → ∃ bs, column_roundtrip v n bs.
Proof.
  intros (Hok & Hsel & Hfit & Hstr) Hn Ht. specialize (Hstr Ht).
  assert (∀ k, k < n → ∃ str, string_at v k = Ok str ∧ (Z.of_nat (String.length str) < 2 ^ 32)%Z ∧
    stored_cell v k = Some (Str (Some str))) as Hs.
  { intros k Hk. destruct (Hstr k ltac:(lia)) as (s & Hd & Hnull1 & Hnull2).
    unfold string_at, stored_cell. rewrite Hd, Hsel, Ht. simpl. rewrite Hd.
    destruct s as [s|]; [exists s|exists str_nil]; run.
    - assert (k ∉ v_null v) by (intros H; by apply Hnull1 in H).
      rewrite decide_False by done. split_and!; try done.
      assert (num_fits (v_type v) (Str (Some s))) as Hf; [|exact Hf].
      apply (Hfit k); [lia|]. unfold stored_cell. rewrite Hsel. simpl. by rewrite decide_False.
    - rewrite decide_True by auto. by split_and!. }
  assert (∀ j, j ∈ seq 0 n → j < n) as Hseq by (intros j Hj; apply elem_of_seq in Hj; lia).
  exists (strings_encoding v (seq 0 n)). split.
  - intros s Hser. unfold write_column. rewrite Ht. simpl.
    apply write_strings_spec; [done|]. intros j Hj. destruct (Hs j (Hseq j Hj)) as (str & Hj' & _). eauto.
  - intros rest. unfold read_column. rewrite Ht. change (TypeIsConstantSize T_VARCHAR) with false. cbv iota.
    destruct (read_strings_spec v (EmptyVector T_VARCHAR) (seq 0 n) rest) as (w & Hw & Ht' & Hs' & _ & Hin).
    + intros j Hj. destruct (Hs j (Hseq j Hj)) as (str & Hj' & Hl & _). eauto.
    + apply NoDup_seq.
    + eexists. run_using Hw. split; [done|]. simpl. split_and!; try done.
      intros k Hk. destruct (Hs k Hk) as (str & Hat & _ & Hst). rewrite Hst.
      destruct (Hin k str) as [Hd Hnul]; [apply elem_of_seq; lia|done|].
      unfold stored_cell. simpl. rewrite Hs', Ht'. simpl. rewrite Hd.
      unfold string_cell. case_decide as Hk'.
      * apply Hnul in Hk' as [->|Hk']; [done|]. simpl in Hk'. set_solver.
      * rewrite bool_decide_eq_false_2; [done|]. naive_solver.
Qed.

Lemma column_roundtrip_ok v n :
  writable v → v_count v = n → n ≤ STANDARD_VECTOR_SIZE → ∃ bs, column_roundtrip v n bs.
Proof.
  intros Hw Hn Hmax. destruct (TypeIsConstantSize (v_type v)) eqn:E; [by apply fixed_roundtrip|].
  apply string_roundtrip; try done. destruct Hw as ([[null Hnull] _] & _).
  destruct (v_type v); by try done.
Qed.

(** ** The round trip of a chunk *)

Definition types_encoding (types : list TypeId) : list byte := types ≫= fun t => le_bytes 4 (TypeId_code t).

Lemma write_types_spec s types :
  ser_ok s → ∃ s', write_types s types = Ok s' ∧ wrote s s' (types_encoding types).
Proof.
  revert s. induction types as [|t types IH]; intros s Hs.
  { exists s. split; [done|]. split; [|done]. simpl. by rewrite app_nil_r. }
  destruct (WriteInt_spec 4 s (TypeId_code t) Hs) as (s1 & Hw1 & Hwr1).
  destruct (IH s1 (proj2 Hwr1)) as (s2 & Hw2 & Hwr2).
  exists s2. cbn [write_types]. rewrite Hw1. run. split; [done|]. by eapply wrote_trans.
Qed.

Lemma read_types_spec types rest :
  read_types (length types) (types_encoding types ++ rest) = (Ok types, rest).
Proof.
  induction types as [|t types IH]; [done|]. cbn [length read_types].
  change (types_encoding (t :: types)) with (le_bytes 4 (TypeId_code t) ++ types_encoding types).
  rewrite <- app_assoc.
  assert (ReadInt 4 (le_bytes 4 (TypeId_code t) ++ types_encoding types ++ rest)
    = (Ok (TypeId_code t), types_encoding types ++ rest)) as Hr.
  { apply ReadInt_app. by destruct t; vm_compute. }
  run_using Hr.
  assert (TypeId_of_code (to_signed 4 (TypeId_code t)) = Some t) as -> by (by destruct t; vm_compute).
  run. run_using IH. done.
Qed.

Lemma columns_roundtrip n data :
  Forall (fun v => writable v ∧ v_count v = n) data → n ≤ STANDARD_VECTOR_SIZE →
  ∃ bs, (∀ s, ser_ok s → ∃ s', write_columns n s data = Ok s' ∧ wrote s s' bs) ∧
    ∀ rest, ∃ data', read_columns n (v_type <$> data) (bs ++ rest) = (Ok data', rest) ∧
      Forall2 (fun v v' => v_type v' = v_type v ∧ v_count v' = n ∧ v_sel v' = None ∧
                 ∀ k, k < n → stored_cell v' k = stored_cell v k) data data'.
Proof.
  intros Hall Hmax. induction Hall as [|v data [Hw Hn] _ (bs & Hwrite & Hread)].
  { exists []. split.
    - intros s Hs. exists s. split; [done|]. split; [by rewrite app_nil_r|done].
    - intros rest. by exists []. }
  destruct (column_roundtrip_ok v n Hw Hn Hmax) as (bv & Hwv & Hrv). exists (bv ++ bs). split.
  - intros s Hs. destruct (Hwv s Hs) as (s1 & Hw1 & Hwr1).
    destruct (Hwrite s1 (proj2 Hwr1)) as (s2 & Hw2 & Hwr2).
    exists s2. cbn [write_columns]. rewrite Hw1. run. split; [done|]. by eapply wrote_trans.
  - intros rest. rewrite <- app_assoc. destruct (Hrv (bs ++ rest)) as (v' & Hv' & Hrest).
    destruct (Hread rest) as (data' & Hd' & Hall').
    exists (v' :: data'). rewrite fmap_cons. cbn [read_columns]. run_using Hv'. run_using Hd'.
    split; [done|]. by constructor.
Qed.

(** Chunks with the same types, the same rows, the same stored values. *)
Definition same_rows (c c' : DataChunk) : Prop :=
  dc_sel c' = None ∧ GetTypes c' = GetTypes c ∧
  Forall2 (fun v v' => v_count v' = chunk_size c ∧ v_sel v' = None ∧
             ∀ k, k < chunk_size c → stored_cell v' k = stored_cell v k) (dc_data c) (dc_data c').

Definition writable_chunk (c : DataChunk) : Prop :=
  Forall (fun v => writable v ∧ v_count v = chunk_size c) (dc_data c) ∧
  chunk_size c ≤ STANDARD_VECTOR_SIZE ∧ (Z.of_nat (column_count c) < 2 ^ 64)%Z.

Lemma chunk_roundtrip c :
  writable_chunk c →
  ∃ bs, (∀ s, ser_ok s → ∃ s', DataChunk_Serialize s c = Ok s' ∧ wrote s s' bs) ∧
    ∀ rest, ∃ c', DataChunk_Deserialize (bs ++ rest) = (Ok c', rest) ∧ same_rows c c'.
Proof.
  intros (Hall & Hmax & Hcols).
  destruct (columns_roundtrip (chunk_size c) (dc_data c) Hall Hmax) as (bc & Hwc & Hrc).
  set (n := chunk_size c) in *.
  exists (le_bytes 2 (Z.of_nat n) ++ le_bytes 8 (Z.of_nat (column_count c)) ++
          types_encoding (GetTypes c) ++ bc). split.
  - intros s Hs. unfold DataChunk_Serialize. fold n.
    destruct (WriteInt_spec 2 s (Z.of_nat n) Hs) as (s1 & -> & Hw1). run.
    destruct (WriteInt_spec 8 s1 (Z.of_nat (column_count c)) (proj2 Hw1)) as (s2 & -> & Hw2). run.
    destruct (write_types_spec s2 (GetTypes c) (proj2 Hw2)) as (s3 & -> & Hw3). run.
    destruct (Hwc s3 (proj2 Hw3)) as (s4 & -> & Hw4). exists s4. split; [done|].
    eauto using wrote_trans.
  - intros rest. rewrite <- !app_assoc. unfold DataChunk_Deserialize.
    assert (0 ≤ Z.of_nat n < 2 ^ (8 * Z.of_nat 2))%Z as Hb.
    { assert (Z.of_nat n ≤ Z.of_nat 1024)%Z by (apply inj_le; exact Hmax). simpl. lia. }
    assert (H1 := ReadInt_app 2 (Z.of_nat n) (le_bytes 8 (Z.of_nat (column_count c)) ++
      types_encoding (GetTypes c) ++ bc ++ rest) Hb). run_using H1.
    assert (0 ≤ Z.of_nat (column_count c) < 2 ^ (8 * Z.of_nat 8))%Z as Hb8 by (simpl; lia).
    assert (H2 := ReadInt_app 8 _ (types_encoding (GetTypes c) ++ bc ++ rest) Hb8). run_using H2.
    rewrite !Nat2Z.id.
    assert (H3 := read_types_spec (GetTypes c) (bc ++ rest)).
    unfold GetTypes in H3 at 1. rewrite length_fmap in H3. fold (column_count c) in H3. run_using H3.
    destruct (Hrc rest) as (data' & Hd & Hall'). unfold GetTypes. run_using Hd.
    eexists. split; [done|]. split; [done|]. simpl. split.
    + unfold GetTypes. simpl. clear -Hall'. induction Hall' as [|v v' data data' (Ht & _) _ IH]; [done|].
      csimpl. by rewrite Ht, IH.
    + eapply Forall2_impl; [exact Hall'|]. intros v v' (_ & ?). done.
Qed.
