(* ===== verification/WriteAheadLog.v ===== *)
(** * The write-ahead log

    Models [src/src/storage/write_ahead_log.cpp] and the serialization of the
    catalog entries it logs ([table_catalog_entry.cpp],
    [view_catalog_entry.cpp], [parser/constraint.cpp] and
    [parser/constraints/]).  An entry is a type byte, a 32-bit length and a
    payload; a transaction is a run of entries closed by a flush marker.
    Parsed expressions and query nodes are serialized by the parser; they are
    reached through the class [Codec], which [ParsedProofs] implements. *)

From Stdlib Require Import ZArith Lia Ascii.
From stdpp Require Import base gmap list strings option numbers sorting.
From S2P Require Import Prelude Types Vector Serializer ChunkSerializer.

(** A type whose values have methods [Serialize] and [Deserialize]; [codec_ok]
    are the values that read back. *)
Class Codec (A : Type) : Type := {
  serialize : Serializer -> A -> result Serializer;
  deserialize : M (list byte) A;
  codec_ok : A -> Prop }.

(** ** What is logged *)

Inductive parsed_constraint (E : Type) : Type :=
| NotNullConstraint (index : Z)
| CheckConstraint (expression : E)
| ParsedConstraint (ctype : Z) (index : Z) (columns : list string).
Arguments NotNullConstraint {E}.
Arguments CheckConstraint {E}.
Arguments ParsedConstraint {E}.

Definition CONSTRAINT_NOT_NULL : Z := 1.
Definition CONSTRAINT_CHECK : Z := 2.
Definition CONSTRAINT_DUMMY : Z := 6.

(** [(size_t)-1] *)
Definition NO_INDEX : Z := 18446744073709551615.

Record CreateTableInformation (E : Type) : Type := mkCreateTable {
  ct_schema : string;
  ct_table : string;
  ct_columns : list (string * SQLType);
  ct_constraints : list (parsed_constraint E) }.
Arguments mkCreateTable {E}.
Arguments ct_schema {E}.
Arguments ct_table {E}.
Arguments ct_columns {E}.
Arguments ct_constraints {E}.

Record CreateViewInformation (Q : Type) : Type := mkCreateView {
  cv_schema : string;
  cv_view_name : string;
  cv_query : Q;
  cv_aliases : list string }.
Arguments mkCreateView {Q}.
Arguments cv_schema {Q}.
Arguments cv_view_name {Q}.
Arguments cv_query {Q}.
Arguments cv_aliases {Q}.

Inductive wal_entry (E Q : Type) : Type :=
| WDropTable (schema table : string)
| WCreateTable (info : CreateTableInformation E)
| WDropSchema (schema : string)
| WCreateSchema (schema : string)
| WDropView (schema view_name : string)
| WCreateView (info : CreateViewInformation Q)
| WInsert (schema table : string) (chunk : DataChunk)
| WQuery (query : string).
Arguments WDropTable {E Q}.
Arguments WCreateTable {E Q}.
Arguments WDropSchema {E Q}.
Arguments WCreateSchema {E Q}.
Arguments WDropView {E Q}.
Arguments WCreateView {E Q}.
Arguments WInsert {E Q}.
Arguments WQuery {E Q}.

(** The type bytes of [struct WALEntry]. *)
Definition wal_type {E Q} (e : wal_entry E Q) : Z :=
  match e with
  | WDropTable _ _ => 1 | WCreateTable _ => 2 | WDropSchema _ => 3 | WCreateSchema _ => 4
  | WDropView _ _ => 5 | WCreateView _ => 6 | WInsert _ _ _ => 7 | WQuery _ => 8
  end.
Definition WAL_FLUSH : Z := 100.
Definition TypeIsValid (t : Z) : bool := ((t =? WAL_FLUSH) || ((1 <=? t) && (t <=? 8)))%Z.

(** ** Payloads *)

Fixpoint write_each {A} (f : Serializer -> A -> result Serializer) (s : Serializer) (l : list A)
    : result Serializer :=
  match l with [] => Ok s | x :: l' => s ← f s x; write_each f s l' end.

Fixpoint read_times {A} (n : nat) (f : M (list byte) A) : M (list byte) (list A) :=
  match n with 0 => mret [] | S n' => x ← f; xs ← read_times n' f; mret (x :: xs) end.

Section payloads.
Context {E Q : Type} `{!Codec E, !Codec Q}.

Definition Constraint_Serialize (s : Serializer) (c : parsed_constraint E) : result Serializer :=
  match c with
  | NotNullConstraint index => s ← WriteInt 4 s CONSTRAINT_NOT_NULL; WriteInt 8 s index
  | CheckConstraint e => s ← WriteInt 4 s CONSTRAINT_CHECK; serialize s e
  | ParsedConstraint ctype index columns =>
    s ← WriteInt 4 s CONSTRAINT_DUMMY;
    s ← WriteInt 4 s ctype;
    s ← WriteInt 8 s index;
    s ← WriteInt 4 s (Z.of_nat (length columns));
    write_each WriteString s columns
  end.

(** [Constraint::Deserialize]; an unknown type gives a null constraint. *)
Definition Constraint_Deserialize : M (list byte) (option (parsed_constraint E)) :=
  t ← ReadInt 4;
  if (t =? CONSTRAINT_NOT_NULL)%Z then
    index ← ReadInt 8; mret (Some (NotNullConstraint index))
  else if (t =? CONSTRAINT_CHECK)%Z then
    e ← deserialize; mret (Some (CheckConstraint e))
  else if (t =? CONSTRAINT_DUMMY)%Z then
    ctype ← ReadInt 4;
    index ← ReadInt 8;
    column_count ← ReadInt 4;
    if negb (index =? NO_INDEX)%Z then mret (Some (ParsedConstraint ctype index []))
    else
      columns ← read_times (Z.to_nat column_count) ReadString;
      mret (Some (ParsedConstraint ctype NO_INDEX columns))
  else mret None.

Definition column_Serialize (s : Serializer) (c : string * SQLType) : result Serializer :=
  s ← WriteString s c.1; SQLType_Serialize s c.2.

Definition column_Deserialize : M (list byte) (string * SQLType) :=
  name ← ReadString; t ← SQLType_Deserialize; mret (name, t).

(** [TableCatalogEntry::Serialize] *)
Definition Table_Serialize (s : Serializer) (t : CreateTableInformation E) : result Serializer :=
  s ← WriteString s (ct_schema t);
  s ← WriteString s (ct_table t);
  s ← WriteInt 4 s (Z.of_nat (length (ct_columns t)));
  s ← write_each column_Serialize s (ct_columns t);
  s ← WriteInt 4 s (Z.of_nat (length (ct_constraints t)));
  write_each Constraint_Serialize s (ct_constraints t).

(** A null constraint in the list would be dereferenced by the binder. *)
Definition Table_Deserialize : M (list byte) (CreateTableInformation E) :=
  schema ← ReadString;
  table ← ReadString;
  column_count ← ReadInt 4;
  columns ← read_times (Z.to_nat column_count) column_Deserialize;
  constraint_count ← ReadInt 4;
  constraints ← read_times (Z.to_nat constraint_count)
    (c ← Constraint_Deserialize; lift_M (deref c));
  mret (mkCreateTable schema table columns constraints).

(** [ViewCatalogEntry::Serialize] *)
Definition View_Serialize (s : Serializer) (v : CreateViewInformation Q) : result Serializer :=
  s ← WriteString s (cv_schema v);
  s ← WriteString s (cv_view_name v);
  s ← serialize s (cv_query v);
  s ← WriteInt 4 s (Z.of_nat (length (cv_aliases v)));
  write_each WriteString s (cv_aliases v).

Definition View_Deserialize : M (list byte) (CreateViewInformation Q) :=
  schema ← ReadString;
  view_name ← ReadString;
  query ← deserialize;
  alias_count ← ReadInt 4;
  aliases ← read_times (Z.to_nat alias_count) ReadString;
  mret (mkCreateView schema view_name query aliases).

(** The payload of an entry. *)
Definition write_payload (s : Serializer) (e : wal_entry E Q) : result Serializer :=
  match e with
  | WDropTable schema name | WDropView schema name => s ← WriteString s schema; WriteString s name
  | WCreateTable info => Table_Serialize s info
  | WDropSchema schema | WCreateSchema schema => WriteString s schema
  | WCreateView info => View_Serialize s info
  | WInsert schema table chunk =>
    match dc_sel chunk with
    | Some _ => Throw NotImplementedException
    | None =>
      s ← WriteString s schema;
      s ← WriteString s table;
      DataChunk_Serialize s chunk
    end
  | WQuery query => WriteString s query
  end.

(** [WriteInsert] skips empty chunks. *)
Definition is_logged (e : wal_entry E Q) : bool :=
  match e with WInsert _ _ chunk => negb (chunk_size chunk =? 0) | _ => true end.

(** The reading half of the [Replay...] functions. *)
Definition read_entry (t : Z) : M (list byte) (option (wal_entry E Q)) :=
  if (t =? 1)%Z then s ← ReadString; n ← ReadString; mret (Some (WDropTable s n))
  else if (t =? 2)%Z then i ← Table_Deserialize; mret (Some (WCreateTable i))
  else if (t =? 3)%Z then s ← ReadString; mret (Some (WDropSchema s))
  else if (t =? 4)%Z then s ← ReadString; mret (Some (WCreateSchema s))
  else if (t =? 5)%Z then s ← ReadString; n ← ReadString; mret (Some (WDropView s n))
  else if (t =? 6)%Z then i ← View_Deserialize; mret (Some (WCreateView i))
  else if (t =? 7)%Z then
    s ← ReadString; n ← ReadString; c ← DataChunk_Deserialize; mret (Some (WInsert s n c))
  else if (t =? 8)%Z then q ← ReadString; mret (Some (WQuery q))
  else mret None.
End payloads.

(** ** Round trips, compositionally *)

(** The writer [w] emits at least [n] bytes that the reader [r] turns into a
    value satisfying [P], leaving what follows them. *)
Definition roundtrips {A} (n : nat) (w : Serializer -> result Serializer) (r : M (list byte) A)
    (P : A -> Prop) : Prop :=
  ∃ bs, n ≤ length bs ∧
    (∀ s, ser_ok s → ∃ s', w s = Ok s' ∧ wrote s s' bs) ∧
    (∀ rest, ∃ a, r (bs ++ rest) = (Ok a, rest) ∧ P a).

Lemma roundtrips_ret {A} (a : A) : roundtrips 0 (fun s => Ok s) (mret a) (eq a).
Proof.
  exists []. split; [lia|]. split.
  - intros s Hs. exists s. split; [done|]. split; [by rewrite app_nil_r|done].
  - intros rest. by exists a.
Qed.

Lemma roundtrips_seq {A B} n m w1 w2 (r1 : M (list byte) A) (k : A -> M (list byte) B) a P :
  roundtrips n w1 r1 (eq a) → roundtrips m w2 (k a) P →
  roundtrips (n + m) (fun s => s ← w1 s; w2 s) (x ← r1; k x) P.
Proof.
  intros (bs & Hn & Hw1 & Hr1) (cs & Hm & Hw2 & Hr2). exists (bs ++ cs).
  split; [rewrite length_app; lia|]. split.
  - intros s Hs. destruct (Hw1 s Hs) as (s1 & E1 & Hwr1).
    destruct (Hw2 s1 (proj2 Hwr1)) as (s2 & E2 & Hwr2).
    exists s2. rewrite E1. run. split; [done|]. by eapply wrote_trans.
  - intros rest. rewrite <- app_assoc. destruct (Hr1 (cs ++ rest)) as (a' & E1 & <-).
    destruct (Hr2 rest) as (b & E2 & Hb). exists b. run_using E1. done.
Qed.

(** Post-processing of what was read. *)
Lemma roundtrips_map {A B} n w (r : M (list byte) A) (f : A -> B) P (Q : B -> Prop) :
  roundtrips n w r P → (∀ a, P a → Q (f a)) → roundtrips n w (x ← r; mret (f x)) Q.
Proof.
  intros (bs & Hn & Hw & Hr) Hf. exists bs. split; [done|]. split; [done|].
  intros rest. destruct (Hr rest) as (a & E & Ha). exists (f a). run_using E. split; [done|auto].
Qed.

Lemma roundtrips_weaken {A} n m w (r : M (list byte) A) P Q :
  roundtrips n w r P → m ≤ n → (∀ a, P a → Q a) → roundtrips m w r Q.
Proof.
  intros (bs & Hn & Hw & Hr) Hm Hf. exists bs. split; [lia|]. split; [done|].
  intros rest. destruct (Hr rest) as (a & E & Ha). eauto.
Qed.

Lemma roundtrips_min {A} n m w (r : M (list byte) A) P :
  roundtrips n w r P → m ≤ n → roundtrips m w r P.
Proof. intros H Hm. by eapply roundtrips_weaken. Qed.

Lemma roundtrips_int n z :
  (0 ≤ z < 2 ^ (8 * Z.of_nat n))%Z → roundtrips 0 (fun s => WriteInt n s z) (ReadInt n) (eq z).
Proof.
  intros Hz. exists (le_bytes n z). split; [lia|]. split; [intros s; apply WriteInt_spec|].
  intros rest. exists z. split; [by apply ReadInt_app|done].
Qed.

Definition string_ok (s : string) : Prop := (Z.of_nat (String.length s) < 2 ^ 32)%Z.

Lemma roundtrips_string str :
  string_ok str → roundtrips 4 (fun s => WriteString s str) ReadString (eq str).
Proof.
  intros Hs. exists (string_encoding str).
  split; [unfold string_encoding; rewrite length_app, le_bytes_length; lia|].
  split; [intros s; apply WriteString_spec|].
  intros rest. exists str. split; [by apply ReadString_app|done].
Qed.

Lemma roundtrips_sqltype t :
  SQLType_ok t → roundtrips 0 (fun s => SQLType_Serialize s t) SQLType_Deserialize (eq t).
Proof.
  intros Ht. exists (SQLType_encoding t). split; [lia|].
  split; [intros s; apply SQLType_Serialize_spec|].
  intros rest. exists t. split; [by apply SQLType_Deserialize_app|done].
Qed.

Class CodecLaws (A : Type) `{!Codec A} : Prop :=
  codec_roundtrip : ∀ a : A, codec_ok a → roundtrips 0 (fun s => serialize s a) deserialize (eq a).

Lemma roundtrips_each {A} (f : Serializer -> A -> result Serializer) (g : M (list byte) A) l :
  Forall (fun x => roundtrips 0 (fun s => f s x) g (eq x)) l →
  roundtrips 0 (fun s => write_each f s l) (read_times (length l) g) (eq l).
Proof.
  induction 1 as [|x l Hx _ IH]; [apply roundtrips_ret|]. cbn [write_each read_times length].
  eapply (roundtrips_seq 0 0); [exact Hx|]. eapply roundtrips_map; [exact IH|]. by intros ? <-.
Qed.

(** A list with its 32-bit length in front. *)
Lemma roundtrips_list {A B} (f : Serializer -> A -> result Serializer) (g : M (list byte) A) l
    (k : list A -> M (list byte) B) w m P :
  (Z.of_nat (length l) < 2 ^ 32)%Z → Forall (fun x => roundtrips 0 (fun s => f s x) g (eq x)) l →
  roundtrips m w (k l) P →
  roundtrips m (fun s => s ← WriteInt 4 s (Z.of_nat (length l)); s ← write_each f s l; w s)
    (n ← ReadInt 4; xs ← read_times (Z.to_nat n) g; k xs) P.
Proof.
  intros Hl Hall Hk. eapply (roundtrips_seq 0 m).
  { apply roundtrips_int. change (8 * Z.of_nat 4)%Z with 32%Z. lia. }
  rewrite Nat2Z.id. eapply (roundtrips_seq 0 m); [by apply roundtrips_each|done].
Qed.

Section entries.
Context {E Q : Type} `{!Codec E, !Codec Q, !CodecLaws E, !CodecLaws Q}.

Definition strings_ok (l : list string) : Prop :=
  (Z.of_nat (length l) < 2 ^ 32)%Z ∧ Forall string_ok l.

(** The constraints the binder and the parser build: a column index, or
    [NO_INDEX] and a list of names. *)
Definition constraint_ok (c : parsed_constraint E) : Prop :=
  match c with
  | NotNullConstraint index => (0 ≤ index < 2 ^ 64)%Z
  | CheckConstraint e => codec_ok e
  | ParsedConstraint ctype index columns =>
    (0 ≤ ctype < 2 ^ 32)%Z ∧ (0 ≤ index < 2 ^ 64)%Z ∧ strings_ok columns ∧
    (index ≠ NO_INDEX → columns = [])
  end.

Lemma strings_each l : strings_ok l → Forall (fun x => roundtrips 0 (fun s => WriteString s x) ReadString (eq x)) l.
Proof.
  intros [_ Hl]. eapply Forall_impl; [exact Hl|]. intros x Hx.
  eapply roundtrips_weaken; [by apply roundtrips_string|lia|done].
Qed.

Lemma roundtrips_strings l :
  strings_ok l →
  roundtrips 0 (fun s => s ← WriteInt 4 s (Z.of_nat (length l)); write_each WriteString s l)
    (n ← ReadInt 4; read_times (Z.to_nat n) ReadString) (eq l).
Proof.
  intros Hl. eapply (roundtrips_seq 0 0).
  { apply roundtrips_int. change (8 * Z.of_nat 4)%Z with 32%Z. destruct Hl. lia. }
  rewrite Nat2Z.id. by apply roundtrips_each, strings_each.
Qed.

Lemma constraint_roundtrip c :
  constraint_ok c →
  roundtrips 0 (fun s => Constraint_Serialize s c) Constraint_Deserialize (eq (Some c)).
Proof.
  intros Hc. unfold Constraint_Deserialize. destruct c as [index|e|ctype index columns]; simpl in Hc.
  - eapply (roundtrips_seq 0 0); [apply roundtrips_int; by vm_compute|]. simpl.
    eapply roundtrips_map; [by apply roundtrips_int|]. by intros ? <-.
  - eapply (roundtrips_seq 0 0); [apply roundtrips_int; by vm_compute|]. simpl.
    eapply roundtrips_map; [by apply codec_roundtrip|]. by intros ? <-.
  - destruct Hc as (Hct & Hidx & Hcols & Hnil).
    eapply (roundtrips_seq 0 0); [apply roundtrips_int; by vm_compute|]. simpl.
    eapply (roundtrips_seq 0 0); [by apply roundtrips_int|].
    eapply (roundtrips_seq 0 0); [by apply roundtrips_int|].
    eapply (roundtrips_seq 0 0).
    { apply roundtrips_int. change (8 * Z.of_nat 4)%Z with 32%Z. destruct Hcols. lia. }
    destruct (Z.eqb_spec index NO_INDEX) as [->|Hne]; simpl.
    + rewrite Nat2Z.id. eapply roundtrips_map; [by apply roundtrips_each, strings_each|]. by intros ? <-.
    + rewrite Hnil by done. apply roundtrips_ret.
Qed.

Definition table_info_ok (t : CreateTableInformation E) : Prop :=
  string_ok (ct_schema t) ∧ string_ok (ct_table t) ∧
  (Z.of_nat (length (ct_columns t)) < 2 ^ 32)%Z ∧
  Forall (fun c => string_ok c.1 ∧ SQLType_ok c.2) (ct_columns t) ∧
  (Z.of_nat (length (ct_constraints t)) < 2 ^ 32)%Z ∧ Forall constraint_ok (ct_constraints t).

Lemma table_roundtrip t :
  table_info_ok t → roundtrips 4 (fun s => Table_Serialize s t) Table_Deserialize (eq t).
Proof.
  intros (Hs & Ht & Hlc & Hc & Hlk & Hk). unfold Table_Serialize, Table_Deserialize.
  eapply (roundtrips_seq 4 0); [by apply roundtrips_string|].
  eapply (roundtrips_min (4 + 0)); [|lia].
  eapply (roundtrips_seq 4 0); [by apply roundtrips_string|].
  eapply roundtrips_list; [done| |].
  { eapply Forall_impl; [exact Hc|]. intros [name ty] [Hn Hty]. simpl in *.
    unfold column_Serialize, column_Deserialize. simpl.
    eapply (roundtrips_min (4 + 0)); [|lia].
    eapply (roundtrips_seq 4 0); [by apply roundtrips_string|].
    eapply roundtrips_map; [by apply roundtrips_sqltype|]. by intros ? <-. }
  eapply (roundtrips_seq 0 0).
  { apply roundtrips_int. change (8 * Z.of_nat 4)%Z with 32%Z. lia. }
  rewrite Nat2Z.id. eapply roundtrips_map; [apply roundtrips_each|].
  - eapply Forall_impl; [exact Hk|]. intros c Hcc.
    destruct (constraint_roundtrip c Hcc) as (bs & Hn & Hw & Hr). exists bs. split; [done|].
    split; [done|]. intros rest. destruct (Hr rest) as (a & Ea & <-). exists c. run_using Ea. done.
  - intros ? <-. by destruct t.
Qed.

Definition view_info_ok (v : CreateViewInformation Q) : Prop :=
  string_ok (cv_schema v) ∧ string_ok (cv_view_name v) ∧ codec_ok (cv_query v) ∧ strings_ok (cv_aliases v).

Lemma view_roundtrip v :
  view_info_ok v → roundtrips 4 (fun s => View_Serialize s v) View_Deserialize (eq v).
Proof.
  intros (Hs & Hn & Hq & Ha). unfold View_Serialize, View_Deserialize.
  eapply (roundtrips_seq 4 0); [by apply roundtrips_string|].
  eapply (roundtrips_min (4 + 0)); [|lia].
  eapply (roundtrips_seq 4 0); [by apply roundtrips_string|].
  eapply (roundtrips_seq 0 0); [by apply codec_roundtrip|].
  eapply (roundtrips_seq 0 0).
  { apply roundtrips_int. change (8 * Z.of_nat 4)%Z with 32%Z. destruct Ha. lia. }
  rewrite Nat2Z.id. eapply roundtrips_map; [by apply roundtrips_each, strings_each|].
  intros ? <-. by destruct v.
Qed.

(** Entries that the log can carry. *)
Definition wal_entry_ok (e : wal_entry E Q) : Prop :=
  match e with
  | WDropTable s n | WDropView s n => string_ok s ∧ string_ok n
  | WCreateTable i => table_info_ok i
  | WDropSchema s | WCreateSchema s => string_ok s
  | WCreateView i => view_info_ok i
  | WInsert s n c => string_ok s ∧ string_ok n ∧ dc_sel c = None ∧ writable_chunk c
  | WQuery q => string_ok q
  end.

(** Entries with the same effect: inserts may differ in the representation of
    the rows. *)
Definition same_entry (e e' : wal_entry E Q) : Prop :=
  match e with
  | WInsert s n c => ∃ c', e' = WInsert s n c' ∧ same_rows c c'
  | _ => e' = e
  end.

Lemma entry_roundtrip e :
  wal_entry_ok e →
  roundtrips 4 (fun s => write_payload s e) (read_entry (wal_type e))
    (fun r => ∃ e', r = Some e' ∧ same_entry e e').
Proof.
  assert (∀ str (f : string → wal_entry E Q), string_ok str →
    roundtrips 4 (fun s => WriteString s str) (x ← ReadString; mret (Some (f x)))
      (fun r => ∃ e', r = Some e' ∧ e' = f str)) as Hstr.
  { intros str f Hs. eapply roundtrips_map; [by apply roundtrips_string|]. intros ? <-. eauto. }
  intros He. destruct e as [s n|i|s|s|s n|i|s n c|q]; simpl in He |- *; unfold read_entry; simpl.
  - destruct He. eapply (roundtrips_min (4 + 4)); [|lia].
    eapply (roundtrips_seq 4 4); [by apply roundtrips_string|]. by apply Hstr.
  - eapply roundtrips_map; [by apply table_roundtrip|]. intros ? <-. eauto.
  - by apply Hstr.
  - by apply Hstr.
  - destruct He. eapply (roundtrips_min (4 + 4)); [|lia].
    eapply (roundtrips_seq 4 4); [by apply roundtrips_string|]. by apply Hstr.
  - eapply roundtrips_map; [by apply view_roundtrip|]. intros ? <-. eauto.
  - destruct He as (Hs & Hn & -> & Hc). eapply (roundtrips_min (4 + (4 + 0))); [|lia].
    eapply (roundtrips_seq 4); [by apply roundtrips_string|].
    eapply (roundtrips_seq 4); [by apply roundtrips_string|].
    eapply (roundtrips_map _ _ _ _ (same_rows c)); [|naive_solver].
    destruct (chunk_roundtrip c Hc) as (bs & Hw & Hr). exists bs. split; [lia|]. by split.
  - by apply Hstr.
Qed.
End entries.

(** ** The file *)

(** An entry of the file: type and payload. *)
Abbreviation record := (Z * list byte)%type.

(** [WriteAheadLog::WriteEntry]: type, size, data. *)
Definition WriteEntry (file : list byte) (r : record) : list byte :=
  file ++ le_bytes 1 r.1 ++ le_bytes 4 (Z.of_nat (length r.2)) ++ r.2.

(** [WriteAheadLog::Flush] *)
Definition Flush (file : list byte) : list byte := file ++ le_bytes 1 WAL_FLUSH ++ le_bytes 4 0.

(** [ReadEntry]: the type and size of the next entry, and what follows. *)
Definition ReadEntry (file : list byte) : option (Z * nat * list byte) :=
  match file with
  | t :: rest =>
    if length rest <? 4 then None
    else Some (t, Z.to_nat (le_val (take 4 rest)), drop 4 rest)
  | [] => None
  end.

Section replay.
Context {DB : Type} (BeginTransaction Commit Rollback : DB -> result DB).
Context (ReplayEntry : DB -> record -> result (bool * DB)).

(** The entries of one transaction, until one of them fails. *)
Fixpoint replay_entries (db : DB) (rs : list record) : result (bool * DB) :=
  match rs with
  | [] => Ok (true, db)
  | r :: rs' =>
    '(ok, db) ← ReplayEntry db r;
    if ok : bool then replay_entries db rs' else Ok (false, db)
  end.

(** [WriteAheadLog::Replay]: [stored] are the entries since the last flush.
    Every round reads at least the five bytes of a header. *)
Fixpoint Replay (fuel : nat) (db : DB) (stored : list record) (file : list byte) : result DB :=
  match fuel with
  | 0 => Undef
  | S fuel' =>
    match ReadEntry file with
    | None => Ok db
    | Some (t, size, rest) =>
      if (t =? WAL_FLUSH)%Z then
        db ← BeginTransaction db;
        '(ok, db) ← replay_entries db stored;
        if ok : bool then db ← Commit db; Replay fuel' db [] rest else Rollback db
      else if negb (TypeIsValid t) then Ok db
      else if (size =? 0) || (length rest <? size) then Ok db
      else Replay fuel' db (stored ++ [(t, take size rest)]) (drop size rest)
    end
  end.

(** Replaying transactions, as the log means it. *)
Fixpoint replay_transactions (db : DB) (txs : list (list record)) : result DB :=
  match txs with
  | [] => Ok db
  | tx :: txs' =>
    db ← BeginTransaction db;
    '(ok, db) ← replay_entries db tx;
    if ok : bool then db ← Commit db; replay_transactions db txs' else Rollback db
  end.
End replay.

(** ** Crashes *)

Definition record_ok (r : record) : Prop :=
  (1 ≤ r.1 ≤ 8)%Z ∧ 0 < length r.2 ∧ (Z.of_nat (length r.2) < 2 ^ 32)%Z.

(** The bytes that committing the transactions [txs] writes. *)
Definition frame (r : record) : list byte := WriteEntry [] r.
Definition tx_bytes (tx : list record) : list byte := Flush (concat (frame <$> tx)).
Definition log_bytes (txs : list (list record)) : list byte := concat (tx_bytes <$> txs).

(** The number of transactions that are complete in the first [n] bytes. *)
Fixpoint complete (txs : list (list record)) (n : nat) : nat :=
  match txs with
  | [] => 0
  | tx :: txs' => if length (tx_bytes tx) <=? n then S (complete txs' (n - length (tx_bytes tx))) else 0
  end.

Section crash.
Context {DB : Type} (BeginTransaction Commit Rollback : DB -> result DB).
Context (ReplayEntry : DB -> record -> result (bool * DB)).
Let replay := Replay BeginTransaction Commit Rollback ReplayEntry.
Let replay_txs := replay_transactions BeginTransaction Commit Rollback ReplayEntry.

Lemma ReadEntry_header t size rest :
  (0 ≤ t < 256)%Z → (0 ≤ size < 2 ^ 32)%Z →
  ReadEntry (le_bytes 1 t ++ le_bytes 4 size ++ rest) = Some (t, Z.to_nat size, rest).
Proof.
  intros Ht Hs. cbn [le_bytes app ReadEntry]. rewrite (Z.mod_small t 256) by lia.
  change ((size mod 256)%Z :: (size / 256 mod 256)%Z :: (size / 256 / 256 mod 256)%Z ::
    (size / 256 / 256 / 256 mod 256)%Z :: rest) with (le_bytes 4 size ++ rest).
  rewrite length_app, le_bytes_length. destruct (Nat.ltb_spec (4 + length rest) 4); [lia|].
  rewrite take_app_length' by (by rewrite le_bytes_length).
  rewrite drop_app_length' by (by rewrite le_bytes_length).
  rewrite le_val_unsigned; [done|]. change (8 * Z.of_nat 4)%Z with 32%Z. lia.
Qed.

Lemma ReadEntry_short file : length file < 5 → ReadEntry file = None.
Proof.
  intros Hf. destruct file as [|t rest]; [done|]. simpl in *.
  destruct (Nat.ltb_spec (length rest) 4); [done|lia].
Qed.

Lemma frame_length r : length (frame r) = 5 + length r.2.
Proof. unfold frame, WriteEntry. cbn [app]. rewrite !length_app, !le_bytes_length. lia. Qed.

Lemma Replay_frame fuel db stored r rest :
  record_ok r → replay (S fuel) db stored (frame r ++ rest) = replay fuel db (stored ++ [r]) rest.
Proof.
  intros (Ht & Hpos & Hlen). unfold replay, frame, WriteEntry. cbn [app]. rewrite <- !app_assoc.
  cbn [Replay]. rewrite ReadEntry_header by lia. rewrite Nat2Z.id.
  destruct (Z.eqb_spec r.1 WAL_FLUSH); [unfold WAL_FLUSH in *; lia|].
  assert (TypeIsValid r.1 = true) as ->.
  { unfold TypeIsValid. apply orb_true_iff. right. lia. }
  run. rewrite length_app.
  destruct (Nat.eqb_spec (length r.2) 0); [lia|].
  destruct (Nat.ltb_spec (length r.2 + length rest) (length r.2)); [lia|]. simpl.
  rewrite take_app_length, drop_app_length. by destruct r.
Qed.

Lemma Replay_short fuel db stored file : length file < 5 → 0 < fuel → replay fuel db stored file = Ok db.
Proof. intros Hf Hfuel. destruct fuel; [lia|]. unfold replay. cbn [Replay]. by rewrite ReadEntry_short. Qed.

(** The loop stops inside an entry whose payload is cut off. *)
Lemma Replay_cut fuel db stored r file :
  record_ok r → file `prefix_of` frame r → length file < length (frame r) → 0 < fuel →
  replay fuel db stored file = Ok db.
Proof.
  intros (Ht & Hpos & Hlen) [rest Hrest] Hlt Hf. destruct (decide (length file < 5)); [by apply Replay_short|].
  assert (∃ part, file = le_bytes 1 r.1 ++ le_bytes 4 (Z.of_nat (length r.2)) ++ part ∧
    length part < length r.2) as (part & -> & Hpart).
  { exists (drop 5 file). unfold frame, WriteEntry in Hrest. cbn [app] in Hrest.
    rewrite frame_length in Hlt.
    split; [|rewrite length_drop; lia].
    rewrite <- (take_drop 5 file) at 1. rewrite app_assoc. f_equal.
    apply (f_equal (take 5)) in Hrest. rewrite app_assoc, take_app_length' in Hrest
      by (rewrite length_app, !le_bytes_length; done).
    by rewrite take_app_le in Hrest by lia. }
  destruct fuel as [|fuel]; [lia|]. unfold replay. cbn [Replay]. rewrite ReadEntry_header by lia.
  rewrite Nat2Z.id.
  destruct (Z.eqb_spec r.1 WAL_FLUSH); [unfold WAL_FLUSH in *; lia|].
  assert (TypeIsValid r.1 = true) as -> by (unfold TypeIsValid; apply orb_true_iff; right; lia).
  run. rewrite (proj2 (Nat.ltb_lt (length part) (length r.2))) by done. by rewrite orb_true_r.
Qed.

Lemma prefix_app_cases {A} (p l k : list A) :
  p `prefix_of` l ++ k → (p `prefix_of` l ∧ length p < length l) ∨ ∃ p', p = l ++ p' ∧ p' `prefix_of` k.
Proof.
  intros Hp. destruct (decide (length p < length l)) as [Hlt|Hge].
  - left. split; [|done]. destruct Hp as [x Hx]. exists (take (length l - length p) x).
    apply (f_equal (take (length l))) in Hx. rewrite take_app_length in Hx. rewrite Hx at 1.
    by rewrite take_app_ge by lia.
  - right. exists (drop (length l) p). destruct Hp as [x Hx].
    assert (take (length l) p = l) as Ht.
    { apply (f_equal (take (length l))) in Hx. rewrite take_app_length in Hx.
      by rewrite take_app_le in Hx by lia. }
    split; [by rewrite <- Ht at 1; rewrite take_drop|].
    exists x. apply (f_equal (drop (length l))) in Hx. rewrite drop_app_length in Hx.
    by rewrite drop_app_le in Hx by lia.
Qed.

(** The first transaction: complete, or not there at all. *)
Lemma Replay_first tx file fuel db stored rest :
  Forall record_ok tx → file `prefix_of` tx_bytes tx ++ rest → length file < fuel →
  if length (tx_bytes tx) <=? length file
  then ∃ fuel' file', file = tx_bytes tx ++ file' ∧ file' `prefix_of` rest ∧ length file' < fuel' ∧
    replay fuel db stored file =
    (db ← BeginTransaction db;
     '(ok, db) ← replay_entries ReplayEntry db (stored ++ tx);
     if ok : bool then db ← Commit db; replay fuel' db [] file' else Rollback db)
  else replay fuel db stored file = Ok db.
Proof.
  intros Hok. revert file fuel stored. induction Hok as [|r tx Hr _ IH]; intros file fuel stored Hp Hf.
  - unfold tx_bytes, Flush in *. cbn [concat fmap list_fmap] in *. cbn [app] in *.
    change (le_bytes 1 WAL_FLUSH ++ le_bytes 4 0) with [100; 0; 0; 0; 0]%Z in *.
    apply prefix_app_cases in Hp as [[_ Hlt]|(p' & -> & Hp')].
    + destruct (Nat.leb_spec (length [100; 0; 0; 0; 0]%Z) (length file)); [lia|].
      apply Replay_short; simpl in *; lia.
    + rewrite length_app. rewrite (proj2 (Nat.leb_le _ _)) by lia.
      destruct fuel as [|fuel]; [lia|]. exists fuel, p'. split; [done|]. split; [done|].
      rewrite length_app in Hf. simpl in Hf. split; [lia|].
      rewrite app_nil_r. unfold replay. cbn [Replay app ReadEntry].
      destruct (Nat.ltb_spec (length (0 :: 0 :: 0 :: 0 :: p')%Z) 4); [simpl in *; lia|]. done.
  - assert (tx_bytes (r :: tx) = frame r ++ tx_bytes tx) as Heq.
    { unfold tx_bytes, Flush. csimpl. by rewrite app_assoc. }
    rewrite Heq in *. rewrite <- app_assoc in Hp.
    apply prefix_app_cases in Hp as [[Hp Hlt]|(p' & -> & Hp')].
    + rewrite length_app. destruct (Nat.leb_spec (length (frame r) + length (tx_bytes tx)) (length file)); [lia|].
      eapply Replay_cut; [exact Hr|done|done|lia].
    + pose proof (frame_length r) as Hfl. rewrite !length_app in *. destruct fuel as [|fuel]; [lia|].
      rewrite Replay_frame by done. specialize (IH p' fuel (stored ++ [r]) Hp' ltac:(lia)).
      destruct (Nat.leb_spec (length (tx_bytes tx)) (length p')).
      * rewrite (proj2 (Nat.leb_le _ _)) by lia. destruct IH as (fuel' & file' & -> & Hpf & Hff & ->).
        exists fuel', file'. rewrite <- app_assoc. split; [by rewrite app_assoc|].
        split; [done|]. split; [done|]. by rewrite <- app_assoc.
      * destruct (Nat.leb_spec (length (frame r) + length (tx_bytes tx)) (length (frame r) + length p')); [lia|done].
Qed.

(** A log cut off anywhere replays exactly the transactions whose flush marker
    it still contains. *)
Lemma Replay_prefix txs file fuel db :
  Forall (Forall record_ok) txs → file `prefix_of` log_bytes txs → length file < fuel →
  replay fuel db [] file = replay_txs db (take (complete txs (length file)) txs).
Proof.
  intros Hok. revert file fuel db. induction Hok as [|tx txs Htx _ IH]; intros file fuel db Hp Hf.
  - apply prefix_nil_inv in Hp as ->. apply Replay_short; simpl in *; lia.
  - pose proof (Replay_first tx file fuel db [] (log_bytes txs) Htx Hp Hf) as Hfirst.
    cbn [complete]. destruct (Nat.leb_spec (length (tx_bytes tx)) (length file)); [|done].
    destruct Hfirst as (fuel' & file' & -> & Hpf & Hff & ->). cbn [take app].
    unfold replay_txs. cbn [replay_transactions].
    destruct (BeginTransaction db) as [db0|e|]; [|done..]. run.
    destruct (replay_entries ReplayEntry db0 tx) as [[[] db']|e|]; [|done..]. run.
    destruct (Commit db') as [db''|e|]; [|done..]. run.
    rewrite IH by done. rewrite length_app. do 3 f_equal. lia.
Qed.
End crash.

(** ** Logging the entries of a transaction *)

Section log.
Context {E Q : Type} `{!Codec E, !Codec Q}.

(** The [Write...] functions of the log: one entry appended to the file. *)
Definition log_entry (file : list byte) (e : wal_entry E Q) : result (list byte) :=
  if is_logged e then
    s ← write_payload NewSerializer e;
    mret (WriteEntry file (wal_type e, blob s))
  else Ok file.

(** The records of the entries, in order. *)
Fixpoint entry_records (es : list (wal_entry E Q)) : result (list record) :=
  match es with
  | [] => Ok []
  | e :: es' =>
    rs ← entry_records es';
    if is_logged e then
      s ← write_payload NewSerializer e;
      mret ((wal_type e, blob s) :: rs)
    else Ok rs
  end.

Fixpoint log_entries (file : list byte) (es : list (wal_entry E Q)) : result (list byte) :=
  match es with
  | [] => Ok file
  | e :: es' => file ← log_entry file e; log_entries file es'
  end.

Lemma log_entries_records es file rs :
  entry_records es = Ok rs → log_entries file es = Ok (file ++ concat (frame <$> rs)).
Proof.
  revert file rs. induction es as [|e es IH]; intros file rs Hrs; simpl in Hrs.
  { injection Hrs as <-. simpl. by rewrite app_nil_r. }
  apply bind_Ok in Hrs as (rs' & Hrs' & Hrs). cbn [log_entries]. unfold log_entry.
  destruct (is_logged e).
  - apply bind_Ok in Hrs as (s & Hs & Hrs). injection Hrs as <-. rewrite Hs. run.
    rewrite (IH _ _ Hrs'). csimpl. f_equal. unfold WriteEntry at 1, frame, WriteEntry. cbn [app].
    by rewrite <- !app_assoc.
  - injection Hrs as <-. run. by apply IH.
Qed.

(** The payloads of entries that fit the format give valid records. *)
Lemma entry_records_ok `{!CodecLaws E, !CodecLaws Q} es :
  Forall wal_entry_ok es →
  (∀ e s, e ∈ es → write_payload NewSerializer e = Ok s → (Z.of_nat (length (blob s)) < 2 ^ 32)%Z) →
  ∃ rs, entry_records es = Ok rs ∧ Forall record_ok rs.
Proof.
  intros Hok Hsize. induction Hok as [|e es He _ IH]; [by exists []|].
  destruct IH as (rs & Hrs & Hall); [intros e' s He'; apply Hsize; by right|].
  cbn [entry_records]. rewrite Hrs. run. destruct (is_logged e); [|by exists rs].
  destruct (entry_roundtrip e He) as (bs & Hlen & Hw & _).
  destruct (Hw _ NewSerializer_ok) as (s & Hs & Hwr & _). rewrite Hs. run.
  eexists. split; [done|]. constructor; [|done]. simpl in Hwr.
  pose proof (Hsize e s ltac:(left) Hs). rewrite Hwr in *.
  split; [|split; simpl; lia]. by destruct e; vm_compute.
Qed.
End log.
