(* ===== verification/UndoBuffer.v ===== *)
(** * The undo buffer

    Models [src/src/transaction/undo_buffer.cpp]: what a transaction wrote,
    entry by entry, walked forwards to commit and to clean up and backwards to
    roll back.  Catalog entries are handled by the catalog sets, reached
    through the class [CatalogUndo]; the write-ahead log receives the list of
    entries of [WriteAheadLog.v]. *)

From Stdlib Require Import ZArith Lia.
From stdpp Require Import base gmap list strings option numbers sorting.
From S2P Require Import Prelude Types Vector Tuple Storage Versions WriteAheadLog.

(** What a catalog offers to the undo buffer: stamping the parent of a replaced
    entry, what the replacement means for the log, undoing it, and dropping the
    replaced entry. *)
Class CatalogUndo (CS E Q : Type) : Type := {
  cat_commit : CS -> nat -> Z -> result CS;
  cat_log : CS -> nat -> result (option (wal_entry E Q));
  cat_undo : CS -> nat -> result CS;
  cat_cleanup : CS -> nat -> result CS }.

Section walks.
Context {CS E Q : Type} `{!CatalogUndo CS E Q}.

(** Undoing a list of replacements from its end, cleaning it up, and stamping
    and logging it from its start. *)
Fixpoint rollback_cats (cs : CS) (ks : list nat) : result CS :=
  match ks with
  | [] => Ok cs
  | k :: ks' => cs ← rollback_cats cs ks'; cat_undo cs k
  end.

Fixpoint cleanup_cats (cs : CS) (ks : list nat) : result CS :=
  match ks with
  | [] => Ok cs
  | k :: ks' => cs ← cat_cleanup cs k; cleanup_cats cs ks'
  end.

Fixpoint commit_cats (cs : CS) (ks : list nat) (cid : Z) (log : bool) : result CS :=
  match ks with
  | [] => Ok cs
  | k :: ks' =>
    cs ← cat_commit cs k cid;
    _ ← (if log then _ ← cat_log cs k; Ok tt else Ok tt);
    commit_cats cs ks' cid log
  end.
End walks.

(** What a catalog promises in return.  [cat_owns cs z ks]: under the number
    [z] (a transaction identifier or a commit number) the entries [ks] were
    replaced, in this order; [cat_below cs z]: all commit numbers are below
    [z]; [cat_view cs tx s name]: the object in the set [s] that the transaction
    finds under a name. *)
Class CatalogLaws (CS E Q : Type) `{!CatalogUndo CS E Q} : Type := {
  cat_set : Type;
  cat_object : Type;
  cat_wf : CS → Prop;
  cat_owns : CS → Z → list nat → Prop;
  cat_below : CS → Z → Prop;
  cat_view : CS → Transaction → cat_set → string → option cat_object;
  cat_below_mono : ∀ cs z z', cat_below cs z → (z ≤ z')%Z → cat_below cs z';
  cat_commit_ok : ∀ cs num cid ks log,
    cat_wf cs → (0 < cid < TRANSACTION_ID_START)%Z → (TRANSACTION_ID_START ≤ num)%Z → cat_below cs cid →
    cat_owns cs num ks → cat_owns cs cid [] →
    ∃ cs', commit_cats cs ks cid log = Ok cs' ∧ cat_wf cs' ∧ cat_below cs' (cid + 1) ∧
      cat_owns cs' num [] ∧ cat_owns cs' cid ks ∧
      (∀ z ks', z ≠ num → z ≠ cid → cat_owns cs z ks' ↔ cat_owns cs' z ks') ∧
      (∀ tx s name, sees tx num = sees tx cid → cat_view cs' tx s name = cat_view cs tx s name);
  cat_undo_ok : ∀ cs num ks k,
    cat_wf cs → (TRANSACTION_ID_START ≤ num)%Z → cat_owns cs num (ks ++ [k]) →
    ∃ cs', cat_undo cs k = Ok cs' ∧ cat_wf cs' ∧ (∀ z, cat_below cs z → cat_below cs' z) ∧
      cat_owns cs' num ks ∧
      (∀ z ks', z ≠ num → cat_owns cs z ks' ↔ cat_owns cs' z ks') ∧
      (∀ tx s name, sees tx num = false → cat_view cs' tx s name = cat_view cs tx s name);
  cat_cleanup_ok : ∀ cs num k ks,
    cat_wf cs → (num < TRANSACTION_ID_START)%Z → cat_owns cs num (k :: ks) →
    (∀ z k' ks', cat_owns cs z (k' :: ks') → (num ≤ z)%Z) →
    ∃ cs', cat_cleanup cs k = Ok cs' ∧ cat_wf cs' ∧ (∀ z, cat_below cs z → cat_below cs' z) ∧
      cat_owns cs' num ks ∧
      (∀ z ks', z ≠ num → cat_owns cs z ks' ↔ cat_owns cs' z ks') ∧
      (∀ tx s name, sees tx num = true → cat_view cs' tx s name = cat_view cs tx s name);
  cat_owns_inj : ∀ cs z ks ks', cat_wf cs → cat_owns cs z ks → cat_owns cs z ks' → ks = ks';
  cat_view_ext : ∀ cs tx tx', cat_wf cs →
    (∀ z k ks, cat_owns cs z (k :: ks) → sees tx z = sees tx' z) →
    ∀ s name, cat_view cs tx s name = cat_view cs tx' s name }.

(** A database without catalog changes. *)
#[export] Instance no_catalog E Q : CatalogUndo unit E Q := {
  cat_commit _ _ _ := Undef;
  cat_log _ _ := Undef;
  cat_undo _ _ := Undef;
  cat_cleanup _ _ := Undef }.
#[export, program] Instance no_catalog_laws E Q : CatalogLaws unit E Q := {
  cat_set := unit;
  cat_object := unit;
  cat_wf _ := True;
  cat_owns _ _ ks := ks = [];
  cat_below _ _ := True;
  cat_view _ _ _ _ := None }.
Next Obligation. done. Qed.
Next Obligation. intros E Q [] num cid ks log _ _ _ _ -> _. exists tt. by split_and!. Qed.
Next Obligation. intros E Q [] num ks k _ _ []%app_eq_nil. done. Qed.
Next Obligation. done. Qed.
Next Obligation. intros E Q [] z ks ks' _ -> ->. done. Qed.
Next Obligation. done. Qed.

Definition is_tuple_entry (t : UndoFlags) : bool :=
  match t with INSERT_TUPLE | DELETE_TUPLE | UPDATE_TUPLE => true | _ => false end.

(** The address held by an undo entry. *)
Definition version_of (e : UndoEntry) : result nat :=
  match ue_data e with UVersion l => Ok l | _ => Undef end.
Definition catalog_of (e : UndoEntry) : result nat :=
  match ue_data e with UCatalog c => Ok c | _ => Undef end.

(** The rows to be logged, by table. *)
Abbreviation appends := (gmap nat DataChunk).

Section undo.
Context {CS E Q : Type} `{!CatalogUndo CS E Q}.

(** The database objects an undo buffer reaches. *)
Record ustate : Type := mkUState { u_rows : rows; u_catalog : CS }.

(** ** Cleanup *)

Definition cleanup_version (R : rows) (l : nat) : result rows :=
  vi ← deref (versions R !! l);
  match vi_chunk vi with
  | Some cp => StorageChunk_Cleanup R cp l
  | None => unlink_version R l
  end.

Definition cleanup_entry (s : ustate) (e : UndoEntry) : result ustate :=
  if bool_decide (ue_type e = CATALOG_ENTRY) then
    c ← catalog_of e;
    cs ← cat_cleanup (u_catalog s) c;
    mret (mkUState (u_rows s) cs)
  else if is_tuple_entry (ue_type e) then
    l ← version_of e;
    R ← cleanup_version (u_rows s) l;
    mret (mkUState R (u_catalog s))
  else
    _ ← assert_ (bool_decide (ue_type e = EMPTY_ENTRY) || bool_decide (ue_type e = QUERY));
    mret s.

Fixpoint UndoBuffer_Cleanup (s : ustate) (entries : list UndoEntry) : result ustate :=
  match entries with
  | [] => Ok s
  | e :: entries' => s ← cleanup_entry s e; UndoBuffer_Cleanup s entries'
  end.

(** ** Rollback *)

Definition undo_version (R : rows) (l : nat) : result rows :=
  vi ← deref (versions R !! l);
  match vi_chunk vi with
  | Some cp => StorageChunk_Undo R cp l
  | None => unlink_version R l
  end.

Definition rollback_entry (s : ustate) (e : UndoEntry) : result ustate :=
  if bool_decide (ue_type e = CATALOG_ENTRY) then
    c ← catalog_of e;
    cs ← cat_undo (u_catalog s) c;
    mret (mkUState (u_rows s) cs)
  else if is_tuple_entry (ue_type e) then
    l ← version_of e;
    R ← undo_version (u_rows s) l;
    mret (mkUState R (u_catalog s))
  else
    _ ← assert_ (bool_decide (ue_type e = EMPTY_ENTRY) || bool_decide (ue_type e = QUERY));
    mret s.

(** From the last entry to the first. *)
Fixpoint rollback_entries (s : ustate) (entries : list UndoEntry) : result ustate :=
  match entries with
  | [] => Ok s
  | e :: entries' => s ← rollback_entries s entries'; rollback_entry s e
  end.

(** Every entry is marked [EMPTY_ENTRY] on the way. *)
Definition UndoBuffer_Rollback (s : ustate) (entries : list UndoEntry)
    : result (ustate * list UndoEntry) :=
  s ← rollback_entries s entries;
  mret (s, (fun e => mkUndoEntry EMPTY_ENTRY (ue_data e)) <$> entries).

(** ** Commit *)

(** The chunk of a row whose newest version is [l]: up the [prev] pointers. *)
Fixpoint find_storage (fuel : nat) (R : rows) (l : nat) : result nat :=
  match fuel with
  | 0 => Undef
  | S fuel' =>
    vi ← deref (versions R !! l);
    match vi_chunk vi with
    | Some cp => Ok cp
    | None => p ← prev_pointer vi; find_storage fuel' R p
    end
  end.

(** The tuple an insertion put there: in the base table, or in the version
    that the first later change of the same transaction saved. *)
Definition inserted_tuple (R : rows) (c : StorageChunk) (vi : VersionInformation) : result tuple :=
  match vi_chunk vi with
  | Some _ => entry ← prev_entry vi; deref (row_at (columns c) entry)
  | None =>
    p ← prev_pointer vi;
    prev ← deref (versions R !! p);
    deref (tuple_data prev)
  end.

(** [memcpy] of a tuple behind the last row of a chunk, without null bits. *)
Definition append_tuple (chunk : DataChunk) (t : tuple) : DataChunk :=
  mkDataChunk (zip_with (fun v x =>
      mkVector (v_type v) (S (v_count v)) (<[chunk_size chunk := x]> (v_data v)) (v_sel v) (v_null v))
    (dc_data chunk) t) (dc_sel chunk).

Definition WriteTuple (R : rows) (l : nat) (ap : appends) (log : list (wal_entry E Q))
    : result (appends * list (wal_entry E Q)) :=
  vi ← deref (versions R !! l);
  match tuple_data vi with
  | Some _ => Ok (ap, log)
  | None =>
    cp ← find_storage (S (size (versions R))) R l;
    c ← deref (chunks R !! cp);
    t ← deref (tables R !! sc_table c);
    let '(chunk, log) :=
      match ap !! sc_table c with
      | Some chunk =>
        if chunk_size chunk =? STANDARD_VECTOR_SIZE
        then (DataChunk_Reset chunk, log ++ [WInsert (dt_schema t) (dt_table t) chunk])
        else (chunk, log)
      | None => (DataChunk_Initialize (dt_types t), log)
      end in
    tup ← inserted_tuple R c vi;
    mret (<[sc_table c := append_tuple chunk tup]> ap, log)
  end.

(** Flushing the pending rows, table by table. *)
Definition FlushAppends (R : rows) (ap : appends) (log : list (wal_entry E Q))
    : result (list (wal_entry E Q)) :=
  es ← mapM (fun tc : nat * DataChunk =>
         t ← deref (tables R !! tc.1); mret (WInsert (dt_schema t) (dt_table t) tc.2))
       (map_to_list ap);
  mret (log ++ es).

(** [info->table->cardinality++] and [--] *)
Definition add_cardinality (R : rows) (l : nat) (d : Z) : result rows :=
  vi ← deref (versions R !! l);
  t ← deref (tables R !! vi_table vi);
  mret (set_table R (vi_table vi)
    (mkDataTable (dt_schema t) (dt_table t) (dt_types t) (dt_serializer t) (dt_tuple_size t)
       (dt_accumulative_tuple_size t) (dt_cardinality t + d) (dt_chunk_list t) (dt_tail_chunk t))).

Definition commit_version (R : rows) (t : UndoFlags) (l : nat) (commit_id : Z) : result rows :=
  R ← update_version R l (set_version_number commit_id);
  match t with
  | INSERT_TUPLE => add_cardinality R l 1
  | DELETE_TUPLE => add_cardinality R l (-1)
  | _ => Ok R
  end.

(** The log is [None] for an in-memory database. *)
Record cstate : Type := mkCState {
  c_state : ustate;
  c_appends : appends;
  c_log : option (list (wal_entry E Q)) }.

Definition commit_entry (commit_id : Z) (s : cstate) (e : UndoEntry) : result cstate :=
  let u := c_state s in
  if bool_decide (ue_type e = CATALOG_ENTRY) then
    c ← catalog_of e;
    cs ← cat_commit (u_catalog u) c commit_id;
    log ← match c_log s with
          | None => Ok None
          | Some log =>
            entry ← cat_log cs c;
            mret (Some (log ++ option_list entry))
          end;
    mret (mkCState (mkUState (u_rows u) cs) (c_appends s) log)
  else if is_tuple_entry (ue_type e) then
    l ← version_of e;
    R ← commit_version (u_rows u) (ue_type e) l commit_id;
    match c_log s with
    | None => mret (mkCState (mkUState R (u_catalog u)) (c_appends s) None)
    | Some log =>
      '(ap, log) ← WriteTuple R l (c_appends s) log;
      mret (mkCState (mkUState R (u_catalog u)) ap (Some log))
    end
  else if bool_decide (ue_type e = QUERY) then
    q ← match ue_data e with UQuery q => Ok q | _ => Undef end;
    match c_log s with
    | None => mret s
    | Some log =>
      log ← FlushAppends (u_rows u) (c_appends s) log;
      mret (mkCState u ∅ (Some (log ++ [WQuery q])))
    end
  else Throw NotImplementedException.

Fixpoint commit_entries (commit_id : Z) (s : cstate) (entries : list UndoEntry) : result cstate :=
  match entries with
  | [] => Ok s
  | e :: entries' => s ← commit_entry commit_id s e; commit_entries commit_id s entries'
  end.

(** The new state and the entries handed to the log before its flush. *)
Definition UndoBuffer_Commit (s : ustate) (log : bool) (entries : list UndoEntry) (commit_id : Z)
    : result (ustate * option (list (wal_entry E Q))) :=
  s ← commit_entries commit_id (mkCState s ∅ (if log then Some [] else None)) entries;
  match c_log s with
  | None => mret (c_state s, None)
  | Some log =>
    log ← FlushAppends (u_rows (c_state s)) (c_appends s) log;
    mret (c_state s, Some log)
  end.
End undo.
Arguments ustate CS : clear implicits.
