(* ===== verification/UndoProofs.v ===== *)
(** * Rollback, commit and cleanup of row versions

    The undo buffer walks over version nodes that hang in the histories of
    rows.  Rolling back finds every node of the transaction at the head of its
    row and removes exactly the transaction's nodes; cleaning up the oldest
    committed transaction finds its nodes at the end of their rows; committing
    restamps them in place.  Each changes no row that another transaction
    reads. *)

From Stdlib Require Import ZArith Lia.
From stdpp Require Import base gmap list strings option numbers sorting.
From S2P Require Import Prelude Types Vector Tuple Storage Versions DataTable TableOps WriteAheadLog UndoBuffer.

(** ** Removing nodes from histories *)

Definition hdrop (H : hist) (ls : list nat) : hist := fun cp r =>
  filter (fun n => n_loc n ∉ ls) (H cp r).

Lemma hdrop_nil H cp r : hdrop H [] cp r = H cp r.
Proof.
  unfold hdrop. induction (H cp r) as [|n ns IH]; [done|].
  rewrite filter_cons_True by apply not_elem_of_nil. by rewrite IH.
Qed.

Lemma elem_of_hdrop H ls cp r n : n ∈ hdrop H ls cp r ↔ (n_loc n ∉ ls) ∧ n ∈ H cp r.
Proof. unfold hdrop. by rewrite list_elem_of_filter. Qed.

Lemma linked_hdrop H ls l num : linked (hdrop H ls) l num ↔ linked H l num ∧ (l ∉ ls).
Proof.
  unfold linked. setoid_rewrite elem_of_hdrop. naive_solver.
Qed.

(** The nodes of a row with a given number, all of which are dropped. *)
Lemma filter_drop_all (ls : list nat) (ns : list vnode) :
  Forall (fun n => n_loc n ∈ ls) ns → filter (fun n => n_loc n ∉ ls) ns = [].
Proof.
  induction 1 as [|n ns Hn _ IH]; [done|]. by rewrite filter_cons_False by naive_solver.
Qed.

Lemma filter_keep_all (ls : list nat) (ns : list vnode) :
  Forall (fun n => n_loc n ∉ ls) ns → filter (fun n => n_loc n ∉ ls) ns = ns.
Proof. induction 1 as [|n ns Hn _ IH]; [done|]. by rewrite filter_cons_True, IH. Qed.

(** The nodes of a row have different addresses. *)
Lemma rep_row_NoDup R H cp r : links_wf R H → NoDup (n_loc <$> H cp r).
Proof.
  intros Hwf. destruct (chunks R !! cp) as [c|] eqn:Hc; [by eapply lw_NoDup|].
  rewrite (lw_nochunk _ _ Hwf) by done. constructor.
Qed.

(** Dropping one more node, known to sit in row [r] of chunk [cp]. *)
Lemma hdrop_cons R H ls l cp r ns1 n ns2 :
  links_wf R H → H cp r = ns1 ++ n :: ns2 → n_loc n = l →
  ∀ cp' r', hdrop H (l :: ls) cp' r' =
    hupd (hdrop H ls) cp r (filter (fun n => n_loc n ∉ ls) ns1 ++ filter (fun n => n_loc n ∉ ls) ns2) cp' r'.
Proof.
  intros Hwf Hns Hl cp' r'. unfold hupd.
  assert (n ∈ H cp r) as Hin by (rewrite Hns; apply elem_of_app; right; left).
  assert (∀ ns : list vnode, (∀ m, m ∈ ns → n_loc m ≠ l) →
    filter (fun n => n_loc n ∉ l :: ls) ns = filter (fun n => n_loc n ∉ ls) ns) as Hfil.
  { intros ns Hne. apply filter_ext_in. intros m Hm. specialize (Hne m Hm). set_solver. }
  case_decide as Hd.
  - destruct Hd as [-> ->]. unfold hdrop. rewrite Hns, filter_app, filter_cons_False by set_solver.
    pose proof (rep_row_NoDup R H cp r Hwf) as Hnd. rewrite Hns, fmap_app in Hnd. csimpl in Hnd.
    apply NoDup_app in Hnd as (_ & Hd1 & [Hnot _]%NoDup_cons).
    rewrite !Hfil; [done| |].
    + intros m Hm E. apply Hnot. apply list_elem_of_fmap. exists m. split; [congruence|done].
    + intros m Hm E. apply (Hd1 (n_loc m)); [by apply list_elem_of_fmap_2|]. rewrite E, <- Hl. left.
  - unfold hdrop. apply Hfil. intros m Hm E. apply Hd.
    destruct (links_disjoint R H cp' r' cp r m n Hwf Hm Hin); [congruence|done].
Qed.

(** ** Undoing the newest version of a row *)

(** A row with versions is a row of its chunk. *)
Lemma history_row R H cp r n :
  links_wf R H → data_wf R H → n ∈ H cp r → ∃ c, chunks R !! cp = Some c ∧ r < sc_count c.
Proof.
  intros Hl Hd Hn. destruct (chunks R !! cp) as [c|] eqn:Hc.
  - exists c. split; [done|]. destruct (decide (r < sc_count c)); [done|].
    destruct (dw_unused _ _ Hd cp c r Hc) as [Hnil _]; [lia|]. rewrite Hnil in Hn.
    by apply not_elem_of_nil in Hn.
  - rewrite (lw_nochunk _ _ Hl) in Hn by done. by apply not_elem_of_nil in Hn.
Qed.

Lemma undo_row_fields c r old :
  same_place c (undo_row c r old) ∧ version_pointers (undo_row c r old) = version_pointers c ∧
  deleted (undo_row c r old) = match old with None => {[r]} ∪ deleted c | Some _ => deleted c ∖ {[r]} end.
Proof. by destruct old. Qed.

Section undo_head.
Context (R : rows) (H : hist) (cp r : nat) (n : vnode) (ns : list vnode).
Context (Hl : links_wf R H) (Hd : data_wf R H) (Hns : H cp r = n :: ns).

(** The values of the rows of the chunk once the version is moved back. *)
Lemma undo_row_values c tbl :
  chunks R !! cp = Some c → tables R !! sc_table c = Some tbl → r < sc_count c →
  let c' := undo_row c r (n_old n) in
  length (columns c') = length (columns c) ∧ base_value c' r = n_old n ∧
  (∀ r', r' ≠ r → base_value c' r' = base_value c r') ∧
  (∀ r', r' < sc_count c → ∃ t, row_at (columns c') r' = Some t ∧ well_typed (dt_types tbl) t).
Proof.
  intros Hc Ht Hr c'. destruct (dw_table _ _ Hd _ _ Hc) as (tbl' & Ht' & Hlen & _).
  rewrite Ht in Ht'. injection Ht' as <-. unfold c', base_value. destruct (n_old n) as [t|] eqn:Hold; simpl.
  - assert (well_typed (dt_types tbl) t) as Hwt.
    { eapply dw_old; [done|done|done| |exact Hold]. rewrite Hns. left. }
    assert (length t = length (columns c)) as Hlt by (rewrite Hlen; symmetry; by eapply Forall2_length).
    split; [by apply set_row_length|]. split; [|split].
    + rewrite decide_False by set_solver. by apply row_at_set_row_eq.
    + intros r' Hne. rewrite row_at_set_row_ne by done.
      destruct (decide (r' ∈ deleted c)); [rewrite decide_True by set_solver|rewrite decide_False by set_solver]; done.
    + intros r' Hr'. destruct (decide (r' = r)) as [->|Hne].
      * exists t. split; [by apply row_at_set_row_eq|done].
      * rewrite row_at_set_row_ne by done. by eapply dw_row.
  - split; [done|]. split; [|split].
    + by rewrite decide_True by set_solver.
    + intros r' Hne.
      destruct (decide (r' ∈ deleted c)); [rewrite decide_True by set_solver|rewrite decide_False by set_solver]; done.
    + intros r' Hr'. by eapply dw_row.
Qed.

Lemma undo_version_spec :
  ∃ R', undo_version R (n_loc n) = Ok R' ∧ tables R' = tables R ∧ next_version R' = next_version R ∧
    links_wf R' (hupd H cp r ns) ∧ data_wf R' (hupd H cp r ns) ∧ places R R' ∧
    ∀ tx, sees tx (n_num n) = false → same_view tx R R' H (hupd H cp r ns).
Proof.
  destruct (history_row R H cp r n Hl Hd) as (c & Hc & Hr); [rewrite Hns; left|].
  destruct (dw_table _ _ Hd _ _ Hc) as (tbl & Ht & Hlen & [Hser _]).
  destruct (undo_row_values c tbl Hc Ht Hr) as (Hcols & Hbase & Hother & Hrows).
  destruct (undo_row_fields c r (n_old n)) as (Hp & Hvp & Hdel).
  destruct (StorageChunk_Undo_spec R H cp c r Hl Hc tbl n ns) as (R' & Hundo & Hch & Htb & Hnv & Hnc & Hl');
    try done.
  { intros t Hold. eapply dw_old; [done|done|done| |exact Hold]. rewrite Hns. left. }
  set (c' := set_version_pointer (undo_row c r (n_old n)) r (head_loc ns)) in *.
  assert (same_place c c') as Hp' by (destruct Hp as (? & ? & ? & ?); by repeat split).
  exists R'. split; [|split_and!; try done].
  - pose proof (lw_rep _ _ _ _ r Hl Hc) as Hrep. rewrite Hns in Hrep. destruct Hrep as [Hn _].
    unfold undo_version. rewrite Hn. run. done.
  - eapply (data_update R R' H cp c c' r); try done.
    + intros tbl' r' Ht' Hr'. rewrite Ht in Ht'. injection Ht' as <-. by apply Hrows.
    + intros tbl' m t Ht' Hm Hold. eapply dw_old; [done|done|done| |exact Hold]. rewrite Hns. by right.
    + intros r' Hin. change (deleted c') with (deleted (undo_row c r (n_old n))) in Hin. rewrite Hdel in Hin.
      destruct (n_old n); set_solver.
  - by eapply places_insert.
  - intros tx Hsee cp' r'. unfold view, hupd. rewrite Hch. destruct (decide (cp = cp')) as [<-|Hne].
    + rewrite lookup_insert_eq, Hc. destruct Hp' as (_ & _ & _ & ->). case_decide as Hlt; [|done].
      change (base_value c' r') with (base_value (undo_row c r (n_old n)) r').
      destruct (decide (r' = r)) as [->|Hner].
      * rewrite decide_True by done. rewrite Hbase, Hns. simpl. by rewrite Hsee.
      * rewrite decide_False by naive_solver. by rewrite Hother.
    + rewrite lookup_insert_ne by done. destruct (chunks R !! cp'); [|done]. case_decide; [|done].
      by rewrite decide_False by naive_solver.
Qed.
End undo_head.

Lemma same_view_ext tx R R' H H' H2 :
  (∀ cp r, H2 cp r = H' cp r) → same_view tx R R' H H' → same_view tx R R' H H2.
Proof.
  intros E Hv cp r. rewrite <- (Hv cp r). unfold view. destruct (chunks R' !! cp); [|done].
  case_decide; [|done]. by rewrite E.
Qed.

(** ** Rollback *)

(** The rows part of [UndoBuffer::Rollback]: last version first. *)
Fixpoint rollback_rows (R : rows) (ls : list nat) : result rows :=
  match ls with
  | [] => Ok R
  | l :: ls' => R ← rollback_rows R ls'; undo_version R l
  end.

(** Among the nodes with number [num], those in [ls] are the newest. *)
Definition newest_nodes (H : hist) (num : Z) (ls : list nat) : Prop :=
  (∀ l, l ∈ ls → linked H l num) ∧
  (∀ l, linked H l num → l ∈ ls ∨ Forall (fun l' => l < l') ls).

Lemma newest_tail H num l ls :
  StronglySorted lt (l :: ls) → newest_nodes H num (l :: ls) → newest_nodes H num ls.
Proof.
  intros Hs [Hin Hall]. apply StronglySorted_inv in Hs as [Hs Hlt]. split.
  - intros l' Hl'. apply Hin. by right.
  - intros l' Hl'. destruct (Hall l' Hl') as [[->|Hx]%elem_of_cons|[_ Hx]%Forall_cons]; auto.
Qed.

(** The oldest of them is the head of its row once the newer ones are gone. *)
Lemma newest_head R H num l ls :
  links_wf R H → (TRANSACTION_ID_START ≤ num)%Z → StronglySorted lt (l :: ls) →
  newest_nodes H num (l :: ls) →
  ∃ cp r n ns1 ns2, H cp r = ns1 ++ n :: ns2 ∧ n_loc n = l ∧ n_num n = num ∧
    filter (fun n => n_loc n ∉ ls) ns1 = [] ∧
    hdrop H ls cp r = n :: filter (fun n => n_loc n ∉ ls) ns2.
Proof.
  intros Hwf Hnum Hs [Hin Hall]. apply StronglySorted_inv in Hs as [Hs Hlt].
  destruct (Hin l) as (cp & r & n & Hn & Hloc & Hnn); [left|].
  apply list_elem_of_split in Hn as (ns1 & ns2 & Hns).
  assert (Forall (fun m => n_loc m ∈ ls) ns1) as Hpre.
  { apply Forall_forall. intros m Hm.
    pose proof (lw_sorted _ _ Hwf cp r) as Hsort. rewrite Hns in Hsort.
    assert (newer m n) as Hnew.
    { eapply (StronglySorted_app_1_elem_of newer ns1 (n :: ns2)); [exact Hsort|done|left]. }
    destruct Hnew as [[E1 E2]|[E1 E2]]; [|lia].
    destruct (Hall (n_loc m)) as [Hx|Hx].
    - exists cp, r, m. rewrite Hns. split; [apply elem_of_app; by left|]. split; [done|congruence].
    - apply elem_of_cons in Hx as [E|Hx]; [|done]. lia.
    - apply Forall_cons in Hx as [Hx _]. lia. }
  exists cp, r, n, ns1, ns2. rewrite Hns. split_and!; try done; [by apply filter_drop_all|].
  unfold hdrop. rewrite Hns, filter_app, (filter_drop_all _ _ Hpre). simpl.
  rewrite filter_cons_True; [done|]. rewrite Hloc. intros Hx.
  rewrite Forall_forall in Hlt. specialize (Hlt _ Hx). lia.
Qed.

Lemma rollback_rows_spec R H num ls :
  links_wf R H → data_wf R H → (TRANSACTION_ID_START ≤ num)%Z → StronglySorted lt ls →
  newest_nodes H num ls →
  ∃ R', rollback_rows R ls = Ok R' ∧ tables R' = tables R ∧ next_version R' = next_version R ∧
    links_wf R' (hdrop H ls) ∧ data_wf R' (hdrop H ls) ∧ places R R' ∧
    ∀ tx, sees tx num = false → same_view tx R R' H (hdrop H ls).
Proof.
  intros Hl Hd Hnum. induction ls as [|l ls IH]; intros Hs Hnew.
  { exists R. split_and!; try done.
    - eapply links_wf_ext; [|done]. apply hdrop_nil.
    - eapply data_wf_ext; [|done]. apply hdrop_nil.
    - apply places_refl.
    - intros tx _. eapply same_view_ext; [apply hdrop_nil|]. apply same_view_refl. }
  pose proof (newest_tail _ _ _ _ Hs Hnew) as Hnew'.
  destruct (newest_head R H num l ls Hl Hnum Hs Hnew) as (cp & r & n & ns1 & ns2 & Hns & Hloc & Hnn & Hf1 & Hdrop).
  apply StronglySorted_inv in Hs as [Hs _].
  destruct (IH Hs Hnew') as (R1 & Hr1 & Ht1 & Hnv1 & Hl1 & Hd1 & Hp1 & Hv1).
  destruct (undo_version_spec R1 (hdrop H ls) cp r n _ Hl1 Hd1 Hdrop)
    as (R' & Hu & Ht & Hnv & Hl' & Hd' & Hp & Hv).
  assert (∀ cp' r', hdrop H (l :: ls) cp' r' =
    hupd (hdrop H ls) cp r (filter (fun n => n_loc n ∉ ls) ns2) cp' r') as Heq.
  { intros cp' r'. rewrite (hdrop_cons R H ls l cp r ns1 n ns2 Hl Hns Hloc). by rewrite Hf1. }
  exists R'. cbn [rollback_rows]. rewrite Hr1. run. rewrite <- Hloc. split_and!; try done; try congruence.
  - rewrite Hloc. by eapply links_wf_ext.
  - rewrite Hloc. by eapply data_wf_ext.
  - by eapply places_trans.
  - intros tx Hsee. rewrite Hloc. eapply same_view_ext; [exact Heq|].
    eapply same_view_trans; [by apply Hv1|]. apply Hv. by rewrite Hnn.
Qed.

(** ** Cleanup *)

Lemma visible_drop_last tx v ns n :
  sees tx (n_num n) = true → visible tx v (ns ++ [n]) = visible tx v ns.
Proof.
  intros Hs. revert v. induction ns as [|m ns IH]; intros v; simpl; [by rewrite Hs|].
  by destruct (sees tx (n_num m)).
Qed.

Section cleanup_last.
Context (R : rows) (H : hist) (cp r : nat) (ns : list vnode) (n : vnode).
Context (Hl : links_wf R H) (Hd : data_wf R H) (Hns : H cp r = ns ++ [n]).

Lemma cleanup_links :
  ∃ c c' R', chunks R !! cp = Some c ∧ r < sc_count c ∧ cleanup_version R (n_loc n) = Ok R' ∧
    chunks R' = <[cp := c']> (chunks R) ∧ same_place c c' ∧ columns c' = columns c ∧
    deleted c' = deleted c ∧ tables R' = tables R ∧ next_version R' = next_version R ∧
    next_chunk R' = next_chunk R ∧ links_wf R' (hupd H cp r ns).
Proof.
  destruct (history_row R H cp r n Hl Hd) as (c & Hc & Hr).
  { rewrite Hns. apply elem_of_app. right. left. }
  pose proof (lw_rep _ _ _ _ r Hl Hc) as Hrep. rewrite Hns in Hrep. apply rep_app in Hrep.
  unfold cleanup_version. rewrite Hrep. run.
  destruct (exists_last_or_nil ns) as [->|(ns' & m & ->)].
  - destruct (StorageChunk_Cleanup_spec R H cp c r Hl Hc n []) as (R' & Hcl & Hch & Htb & Hnv & Hnc & Hl');
      [done|].
    exists c, (set_version_pointer c r (head_loc [])), R'. by split_and!.
  - rewrite last_snoc. simpl.
    destruct (unlink_version_spec R H cp c r Hl Hc ns' m n) as (R' & Hcl & Hch & Htb & Hnv & Hnc & Hl').
    { by rewrite Hns, <- app_assoc. }
    exists c, c, R'. split_and!; try done. by rewrite insert_id.
Qed.

Lemma cleanup_version_spec :
  ∃ R', cleanup_version R (n_loc n) = Ok R' ∧ tables R' = tables R ∧ next_version R' = next_version R ∧
    links_wf R' (hupd H cp r ns) ∧ data_wf R' (hupd H cp r ns) ∧ places R R' ∧
    ∀ tx, sees tx (n_num n) = true → same_view tx R R' H (hupd H cp r ns).
Proof.
  destruct cleanup_links as (c & c' & R' & Hc & Hr & Hcl & Hch & Hp & Hcols & Hdel & Htb & Hnv & Hnc & Hl').
  exists R'. split_and!; try done.
  - eapply (data_update R R' H cp c c' r); try done.
    + by rewrite Hcols.
    + intros tbl r' Ht Hr'. rewrite Hcols. by eapply dw_row.
    + intros tbl m t Ht Hm Hold. eapply dw_old; [done|done|done| |exact Hold]. rewrite Hns.
      apply elem_of_app. by left.
    + intros r' Hin. right. by rewrite <- Hdel.
  - by eapply places_insert.
  - intros tx Hsee cp' r'. unfold view, hupd. rewrite Hch. destruct (decide (cp = cp')) as [<-|Hne].
    + rewrite lookup_insert_eq, Hc. destruct Hp as (_ & _ & _ & ->). case_decide as Hlt; [|done].
      unfold base_value. rewrite Hcols, Hdel. destruct (decide (cp = cp ∧ r' = r)) as [[_ ->]|Hner]; [|done].
      by rewrite Hns, visible_drop_last.
    + rewrite lookup_insert_ne by done. destruct (chunks R !! cp'); [|done]. case_decide; [|done].
      by rewrite decide_False by naive_solver.
Qed.
End cleanup_last.

Fixpoint cleanup_rows (R : rows) (ls : list nat) : result rows :=
  match ls with
  | [] => Ok R
  | l :: ls' => R ← cleanup_version R l; cleanup_rows R ls'
  end.

(** [ls] are the nodes with number [num], and none is older. *)
Definition oldest_nodes (H : hist) (num : Z) (ls : list nat) : Prop :=
  (∀ l, linked H l num ↔ l ∈ ls) ∧ (∀ l num', linked H l num' → (num ≤ num')%Z).

Lemma hdrop_hdrop H ks ls cp r : hdrop (hdrop H ks) ls cp r = hdrop H (ks ++ ls) cp r.
Proof.
  unfold hdrop. rewrite list_filter_filter. apply filter_ext_in. intros n Hn. set_solver.
Qed.

Lemma oldest_last R H num l ls :
  links_wf R H → StronglySorted lt (l :: ls) → oldest_nodes H num (l :: ls) →
  ∃ cp r n ns, H cp r = ns ++ [n] ∧ n_loc n = l ∧ n_num n = num.
Proof.
  intros Hwf Hs [Hin Hmin]. apply StronglySorted_inv in Hs as [Hs Hlt].
  destruct (proj2 (Hin l)) as (cp & r & n & Hn & Hloc & Hnn); [left|].
  apply list_elem_of_split in Hn as (ns1 & ns2 & Hns).
  destruct ns2 as [|m ns2]; [by exists cp, r, n, ns1|]. exfalso.
  assert (m ∈ H cp r) as Hm by (rewrite Hns; apply elem_of_app; right; right; left).
  assert (newer n m) as Hnew.
  { pose proof (lw_sorted _ _ Hwf cp r) as Hsort. rewrite Hns in Hsort.
    apply StronglySorted_app_1_r in Hsort. apply StronglySorted_inv in Hsort as [_ Hall].
    by apply Forall_cons in Hall as [? _]. }
  assert (num ≤ n_num m)%Z by (apply (Hmin (n_loc m)); by exists cp, r, m).
  destruct Hnew as [[E1 E2]|[E1 E2]]; [|lia].
  assert (n_loc m ∈ l :: ls) as [E|Hx]%elem_of_cons.
  { apply Hin. exists cp, r, m. split_and!; congruence. }
  - lia.
  - rewrite Forall_forall in Hlt. specialize (Hlt _ Hx). lia.
Qed.

Lemma cleanup_rows_spec ls : ∀ R H num,
  links_wf R H → data_wf R H → StronglySorted lt ls → oldest_nodes H num ls →
  ∃ R', cleanup_rows R ls = Ok R' ∧ tables R' = tables R ∧ next_version R' = next_version R ∧
    links_wf R' (hdrop H ls) ∧ data_wf R' (hdrop H ls) ∧ places R R' ∧
    ∀ tx, sees tx num = true → same_view tx R R' H (hdrop H ls).
Proof.
  induction ls as [|l ls IH]; intros R H num Hl Hd Hs Hold.
  { exists R. split_and!; try done.
    - eapply links_wf_ext; [|done]. apply hdrop_nil.
    - eapply data_wf_ext; [|done]. apply hdrop_nil.
    - apply places_refl.
    - intros tx _. eapply same_view_ext; [apply hdrop_nil|]. apply same_view_refl. }
  destruct (oldest_last R H num l ls Hl Hs Hold) as (cp & r & n & ns & Hns & Hloc & Hnn).
  destruct (cleanup_version_spec R H cp r ns n Hl Hd Hns) as (R1 & Hc1 & Ht1 & Hnv1 & Hl1 & Hd1 & Hp1 & Hv1).
  assert (∀ cp' r', hdrop H [l] cp' r' = hupd H cp r ns cp' r') as Heq.
  { intros cp' r'. rewrite (hdrop_cons R H [] l cp r ns n [] Hl Hns Hloc). rewrite app_nil_r. unfold hupd.
    case_decide; [|apply hdrop_nil]. apply filter_keep_all, Forall_true. intros. apply not_elem_of_nil. }
  assert (l ∉ ls) as Hnot.
  { intros Hx. apply StronglySorted_inv in Hs as [_ Hlt]. rewrite Forall_forall in Hlt. specialize (Hlt _ Hx). lia. }
  destruct (IH R1 (hdrop H [l]) num) as (R' & Hc' & Ht' & Hnv' & Hl' & Hd' & Hp' & Hv').
  { by eapply links_wf_ext. }
  { by eapply data_wf_ext. }
  { by apply StronglySorted_inv in Hs as [? _]. }
  { destruct Hold as [Hin Hmin]. split.
    - intros l'. rewrite linked_hdrop, Hin. set_solver.
    - intros l' num' [Hx _]%linked_hdrop. by eapply Hmin. }
  exists R'. cbn [cleanup_rows]. rewrite <- Hloc, Hc1. run. rewrite Hloc.
  split_and!; try done; try congruence.
  - eapply links_wf_ext; [|exact Hl']. intros. by rewrite hdrop_hdrop.
  - eapply data_wf_ext; [|exact Hd']. intros. by rewrite hdrop_hdrop.
  - by eapply places_trans.
  - intros tx Hsee. eapply same_view_ext; [intros; symmetry; apply (hdrop_hdrop H [l] ls)|].
    eapply same_view_trans; [|by apply Hv']. eapply same_view_ext; [exact Heq|]. apply Hv1. by rewrite Hnn.
Qed.

(** ** Commit *)

Definition stamp (ls : list nat) (num : Z) (n : vnode) : vnode :=
  if decide (n_loc n ∈ ls) then mkNode (n_loc n) num (n_old n) else n.
Definition hstamp (H : hist) (ls : list nat) (num : Z) : hist := fun cp r => stamp ls num <$> H cp r.

Lemma stamp_fields ls num n :
  n_loc (stamp ls num n) = n_loc n ∧ n_old (stamp ls num n) = n_old n ∧
  n_num (stamp ls num n) = if decide (n_loc n ∈ ls) then num else n_num n.
Proof. unfold stamp. by case_decide. Qed.

Lemma hstamp_nil H num cp r : hstamp H [] num cp r = H cp r.
Proof.
  unfold hstamp. rewrite <- (list_fmap_id (H cp r)) at 2. apply list_fmap_ext. intros i n _.
  unfold stamp. by rewrite decide_False by apply not_elem_of_nil.
Qed.

Lemma hstamp_hstamp H ks ls num cp r : hstamp (hstamp H ks num) ls num cp r = hstamp H (ks ++ ls) num cp r.
Proof.
  unfold hstamp. rewrite <- list_fmap_compose. apply list_fmap_ext. intros i n _. simpl. unfold stamp.
  destruct (decide (n_loc n ∈ ks)); simpl.
  - rewrite (decide_True (P:=n_loc n ∈ ks ++ ls)) by set_solver. by case_decide.
  - destruct (decide (n_loc n ∈ ls)).
    + by rewrite decide_True by set_solver.
    + by rewrite decide_False by set_solver.
Qed.

Lemma linked_hstamp H ls num l z :
  linked (hstamp H ls num) l z ↔
  (∃ z', linked H l z' ∧ z = if decide (l ∈ ls) then num else z').
Proof.
  unfold linked, hstamp. split.
  - intros (cp & r & n & (m & -> & Hm)%list_elem_of_fmap & <- & <-).
    destruct (stamp_fields ls num m) as (-> & _ & ->). exists (n_num m). split; [by exists cp, r, m|done].
  - intros (z' & (cp & r & n & Hn & <- & <-) & ->). exists cp, r, (stamp ls num n).
    destruct (stamp_fields ls num n) as (-> & _ & ->). split; [by apply list_elem_of_fmap_2|done].
Qed.

(** Stamping the one node [n]. *)
Lemma hstamp_one R H num cp r ns1 n ns2 :
  links_wf R H → H cp r = ns1 ++ n :: ns2 →
  ∀ cp' r', hstamp H [n_loc n] num cp' r' =
    hupd H cp r (ns1 ++ mkNode (n_loc n) num (n_old n) :: ns2) cp' r'.
Proof.
  intros Hwf Hns cp' r'. assert (n ∈ H cp r) as Hin by (rewrite Hns; apply elem_of_app; right; left).
  assert (∀ ns : list vnode, (∀ m, m ∈ ns → n_loc m ≠ n_loc n) → stamp [n_loc n] num <$> ns = ns) as Hid.
  { intros ns Hne. rewrite <- (list_fmap_id ns) at 2. apply list_fmap_ext. intros i m Hm.
    unfold stamp. rewrite decide_False; [done|]. rewrite list_elem_of_singleton. apply Hne.
    by eapply list_elem_of_lookup_2. }
  unfold hstamp, hupd. case_decide as Hd.
  - destruct Hd as [-> ->]. rewrite Hns, fmap_app. csimpl.
    pose proof (rep_row_NoDup R H cp r Hwf) as Hnd. rewrite Hns, fmap_app in Hnd. csimpl in Hnd.
    apply NoDup_app in Hnd as (_ & Hd1 & [Hnot _]%NoDup_cons). rewrite !Hid.
    + f_equal. f_equal. unfold stamp. by rewrite decide_True by left.
    + intros m Hm E. apply Hnot. rewrite <- E. by apply list_elem_of_fmap_2.
    + intros m Hm E. apply (Hd1 (n_loc m)); [by apply list_elem_of_fmap_2|]. rewrite E. left.
  - apply Hid. intros m Hm E. apply Hd. by destruct (links_disjoint R H cp' r' cp r m n Hwf Hm Hin).
Qed.

(** Reading renumbered histories. *)
Lemma visible_renumber tx tx' (f : vnode → vnode) v ns :
  (∀ n, n ∈ ns → n_old (f n) = n_old n ∧ sees tx (n_num (f n)) = sees tx' (n_num n)) →
  visible tx v (f <$> ns) = visible tx' v ns.
Proof.
  revert v. induction ns as [|n ns IH]; intros v Hf; [done|]. csimpl.
  destruct (Hf n) as [-> ->]; [left|]. destruct (sees tx' (n_num n)); [done|].
  apply IH. intros m Hm. apply Hf. by right.
Qed.

(** [ls] are the nodes of the committing transaction [num]; nodes already
    stamped with [cid] are older than they are. *)
Definition committing (H : hist) (num cid : Z) (ls : list nat) : Prop :=
  (∀ l, linked H l num ↔ l ∈ ls) ∧
  (∀ l z, linked H l z → (z < TRANSACTION_ID_START)%Z →
     (z ≤ cid)%Z ∧ (z = cid → Forall (fun l' => l < l') ls)).

Lemma commit_sorted R H num cid l ls cp r ns1 n ns2 :
  links_wf R H → (cid < TRANSACTION_ID_START ≤ num)%Z → StronglySorted lt (l :: ls) →
  committing H num cid (l :: ls) → H cp r = ns1 ++ n :: ns2 → n_loc n = l → n_num n = num →
  StronglySorted newer (ns1 ++ mkNode l cid (n_old n) :: ns2).
Proof.
  intros Hwf Hnum Hs [Hin Hlow] Hns Hloc Hnn. apply StronglySorted_inv in Hs as [_ Hlt].
  pose proof (lw_sorted _ _ Hwf cp r) as Hsort. rewrite Hns in Hsort.
  assert (∀ m, m ∈ ns1 ++ n :: ns2 → linked H (n_loc m) (n_num m)) as Hlk
    by (intros m Hm; exists cp, r, m; by rewrite Hns).
  apply StronglySorted_app in Hsort as (Hcross & Hs1 & Hs2).
  apply StronglySorted_inv in Hs2 as [Hs2 Hall2].
  apply StronglySorted_app. split_and!.
  - intros a b Ha [->|Hb]%elem_of_cons; [|apply Hcross; [done|by right]].
    specialize (Hcross a n Ha ltac:(left)). destruct Hcross as [[E1 E2]|[E1 E2]]; [|lia].
    right. simpl. lia.
  - done.
  - constructor; [done|]. apply Forall_forall. intros b Hb. rewrite Forall_forall in Hall2.
    specialize (Hall2 b Hb). specialize (Hlk b ltac:(apply elem_of_app; right; by right)).
    destruct Hall2 as [[E1 E2]|[E1 E2]].
    + exfalso. rewrite E1, Hnn in Hlk. apply Hin in Hlk as [E|Hx]%elem_of_cons; [lia|].
      rewrite Forall_forall in Hlt. specialize (Hlt _ Hx). lia.
    + destruct (Hlow _ _ Hlk E2) as [Hle Heq]. unfold newer. simpl.
      destruct (decide (n_num b = cid)) as [E|Hne]; [|right; lia].
      specialize (Heq E). apply Forall_cons in Heq as [Heq _]. left. lia.
Qed.

(** Changing the cardinality of a table. *)
Lemma set_cardinality_wf R H tp t t' :
  links_wf R H → data_wf R H → tables R !! tp = Some t →
  dt_types t' = dt_types t → dt_serializer t' = dt_serializer t →
  dt_accumulative_tuple_size t' = dt_accumulative_tuple_size t →
  dt_chunk_list t' = dt_chunk_list t → dt_tail_chunk t' = dt_tail_chunk t →
  links_wf (set_table R tp t') H ∧ data_wf (set_table R tp t') H.
Proof.
  intros Hl Hd Ht Ety Eser Eacc Ecl Etl. split; [destruct Hl; by constructor|].
  assert (∀ tp' tbl', tables (set_table R tp t') !! tp' = Some tbl' →
    ∃ tbl, tables R !! tp' = Some tbl ∧ dt_types tbl' = dt_types tbl ∧
      (table_ok tbl → table_ok tbl') ∧ dt_chunk_list tbl' = dt_chunk_list tbl ∧
      dt_tail_chunk tbl' = dt_tail_chunk tbl) as Hback.
  { simpl. intros tp' tbl' [[<- <-]|[Hne Ht']]%lookup_insert_Some; [|by exists tbl'].
    exists t. unfold table_ok. by rewrite Ety, Eser, Eacc. }
  constructor; simpl.
  - intros cp c Hc. destruct (dw_table _ _ Hd _ _ Hc) as (tbl & Htbl & Hlen & Hok).
    destruct (decide (tp = sc_table c)) as [->|Hne].
    + exists t'. rewrite lookup_insert_eq. rewrite Ht in Htbl. injection Htbl as <-.
      unfold table_ok in *. rewrite Ety, Eser, Eacc. naive_solver.
    + exists tbl. by rewrite lookup_insert_ne.
  - intros cp c tbl r Hc Htb Hr. destruct (Hback _ _ Htb) as (tbl0 & Ht0 & -> & _). by eapply dw_row.
  - intros cp c tbl r n tu Hc Htb Hn Ho. destruct (Hback _ _ Htb) as (tbl0 & Ht0 & -> & _). by eapply dw_old.
  - apply (dw_unused _ _ Hd).
  - apply (dw_count _ _ Hd).
  - apply (dw_fresh _ _ Hd).
  - intros tp' tbl' Htb. destruct (Hback _ _ Htb) as (tbl0 & Ht0 & _ & _ & E1 & E2).
    destruct (dw_list _ _ Hd _ _ Ht0) as (cps & Hhd & Hlist). exists cps. unfold table_list.
    rewrite E1, E2. split; [done|]. eapply chunk_list_wf_ext; [|done]. intros cp c _ Hc. exists c. by repeat split.
Qed.

(** Tables that differ in their cardinality only. *)
Definition same_layout (R R' : rows) : Prop :=
  ∀ tp t, tables R !! tp = Some t → ∃ t', tables R' !! tp = Some t' ∧ dt_types t' = dt_types t ∧
    dt_schema t' = dt_schema t ∧ dt_table t' = dt_table t ∧
    dt_chunk_list t' = dt_chunk_list t ∧ dt_tail_chunk t' = dt_tail_chunk t.

Lemma same_layout_refl R : same_layout R R.
Proof. intros tp t Ht. exists t. by split_and!. Qed.
Lemma same_layout_trans R1 R2 R3 : same_layout R1 R2 → same_layout R2 R3 → same_layout R1 R3.
Proof.
  intros E F tp t Ht. destruct (E _ _ Ht) as (t2 & Ht2 & ? & ? & ? & ? & ?).
  destruct (F _ _ Ht2) as (t3 & Ht3 & ? & ? & ? & ? & ?). exists t3. split_and!; congruence.
Qed.

Lemma add_cardinality_spec R H l vi t d :
  links_wf R H → data_wf R H → versions R !! l = Some vi → tables R !! vi_table vi = Some t →
  ∃ R', add_cardinality R l d = Ok R' ∧ chunks R' = chunks R ∧ next_version R' = next_version R ∧
    same_layout R R' ∧ links_wf R' H ∧ data_wf R' H.
Proof.
  intros Hl Hd Hvi Ht. unfold add_cardinality. rewrite Hvi. run. rewrite Ht. run.
  eexists. split; [done|]. split; [done|]. split; [done|]. split; [|by eapply set_cardinality_wf].
  intros tp t0 Ht0. simpl. destruct (decide (vi_table vi = tp)) as [<-|Hne].
  - rewrite lookup_insert_eq. rewrite Ht in Ht0. injection Ht0 as <-. eexists. split; [done|]. by split_and!.
  - rewrite lookup_insert_ne by done. exists t0. by split_and!.
Qed.

Lemma commit_version_spec R H num cid l ls fl :
  links_wf R H → data_wf R H → (cid < TRANSACTION_ID_START ≤ num)%Z → StronglySorted lt (l :: ls) →
  committing H num cid (l :: ls) →
  ∃ R', commit_version R fl l cid = Ok R' ∧ chunks R' = chunks R ∧ next_version R' = next_version R ∧
    same_layout R R' ∧ links_wf R' (hstamp H [l] cid) ∧ data_wf R' (hstamp H [l] cid).
Proof.
  intros Hl Hd Hnum Hs Hc. destruct (proj2 (proj1 Hc l)) as (cp & r & n & Hn & Hloc & Hnn); [left|].
  destruct (history_row R H cp r n Hl Hd Hn) as (c & Hch & Hr).
  apply list_elem_of_split in Hn as (ns1 & ns2 & Hns).
  pose proof (commit_sorted R H num cid l ls cp r ns1 n ns2 Hl Hnum Hs Hc Hns Hloc Hnn) as Hsort.
  rewrite <- Hloc in Hsort |- *.
  destruct (set_version_number_spec R H cp c r Hl Hch ns1 n ns2 cid Hns Hsort)
    as (R1 & Hu & Hch1 & Htb1 & Hnv1 & Hnc1 & Hl1).
  pose proof (hstamp_one R H cid cp r ns1 n ns2 Hl Hns) as Heq.
  assert (data_wf R1 (hupd H cp r (ns1 ++ mkNode (n_loc n) cid (n_old n) :: ns2))) as Hd1.
  { eapply (data_update R R1 H cp c c r); try done.
    - by rewrite insert_id.
    - intros tbl r' Ht Hr'. by eapply dw_row.
    - intros tbl m t Ht Hm Ho. apply elem_of_app in Hm as [Hm|[->|Hm]%elem_of_cons].
      + eapply dw_old; [done|done|done| |exact Ho]. rewrite Hns. apply elem_of_app. by left.
      + simpl in Ho. eapply dw_old; [done|done|done| |exact Ho]. rewrite Hns. apply elem_of_app. right. left.
      + eapply dw_old; [done|done|done| |exact Ho]. rewrite Hns. apply elem_of_app. right. by right.
    - intros. by right. }
  pose proof (links_wf_ext _ _ _ Heq Hl1) as Hl2. pose proof (data_wf_ext _ _ _ Heq Hd1) as Hd2.
  assert (chunks R1 !! cp = Some c) as Hc1 by (by rewrite Hch1).
  pose proof (lw_rep _ _ _ _ r Hl1 Hc1) as Hrep. unfold hupd in Hrep. rewrite decide_True in Hrep by done.
  apply rep_app in Hrep. simpl n_loc in Hrep.
  destruct (dw_table _ _ Hd1 _ _ Hc1) as (tbl & Ht & _).
  unfold commit_version. rewrite Hu. run.
  assert (∀ d, ∃ R', add_cardinality R1 (n_loc n) d = Ok R' ∧ chunks R' = chunks R ∧
    next_version R' = next_version R ∧ same_layout R R' ∧
    links_wf R' (hstamp H [n_loc n] cid) ∧ data_wf R' (hstamp H [n_loc n] cid)) as Hadd.
  { intros d. destruct (add_cardinality_spec R1 _ (n_loc n) _ tbl d Hl2 Hd2 Hrep Ht)
      as (R' & Ha & Hch' & Hnv' & Hlay & Hl' & Hd').
    exists R'. split_and!; try done; try congruence. intros tp t Htp. apply Hlay. by rewrite Htb1. }
  destruct fl; try (exists R1; split_and!; try done; intros tp t Htp; exists t; rewrite Htb1; by split_and!);
    apply Hadd.
Qed.

(** Stamping the oldest of the nodes leaves the others to be stamped. *)
Lemma committing_step H num cid l ls :
  (cid < TRANSACTION_ID_START ≤ num)%Z → StronglySorted lt (l :: ls) →
  committing H num cid (l :: ls) → committing (hstamp H [l] cid) num cid ls.
Proof.
  intros Hnum [Hs Hlt]%StronglySorted_inv [Hin Hlow].
  assert (l ∉ ls) as Hnot.
  { intros Hx. rewrite Forall_forall in Hlt. specialize (Hlt _ Hx). lia. }
  split.
  - intros l'. rewrite linked_hstamp. split.
    + intros (z & Hz & E). case_decide as Hd'; [lia|]. subst z. apply Hin in Hz. set_solver.
    + intros Hl'. exists num. split; [apply Hin; by right|]. rewrite decide_False; [done|]. set_solver.
  - intros l' z (z' & Hz & E)%linked_hstamp Hlt'. case_decide as Hd'.
    + apply list_elem_of_singleton in Hd' as ->. subst z. split; [lia|]. intros _. done.
    + subst z. destruct (Hlow _ _ Hz Hlt') as [Hle Heq]. split; [done|]. intros E.
      specialize (Heq E). by apply Forall_cons in Heq as [_ ?].
Qed.

(** An address is linked once. *)
Lemma linked_node R H cp r cp' r' n m :
  links_wf R H → n ∈ H cp r → m ∈ H cp' r' → n_loc m = n_loc n → m = n.
Proof.
  intros Hwf Hn Hm E. destruct (links_disjoint R H cp r cp' r' n m Hwf Hn Hm) as [<- <-]; [done|].
  apply list_elem_of_lookup in Hn as [i Hi]. apply list_elem_of_lookup in Hm as [j Hj].
  pose proof (rep_row_NoDup R H cp r Hwf) as Hnd.
  assert (i = j) as <-; [|congruence].
  eapply (NoDup_lookup _ i j (n_loc n) Hnd); rewrite list_lookup_fmap; [rewrite Hi|rewrite Hj]; simpl; congruence.
Qed.

Lemma linked_unique R H l z z' : links_wf R H → linked H l z → linked H l z' → z = z'.
Proof.
  intros Hwf (cp & r & n & Hn & <- & <-) (cp' & r' & m & Hm & E & <-).
  by rewrite (linked_node R H cp r cp' r' n m Hwf Hn Hm E).
Qed.

(** What is read after a commit. *)
Lemma commit_view R R' H ls cid num tx tx' :
  links_wf R H → chunks R' = chunks R → (∀ l, linked H l num ↔ l ∈ ls) →
  (∀ l z, linked H l z → sees tx (if decide (z = num) then cid else z) = sees tx' z) →
  ∀ cp r, view R' (hstamp H ls cid) tx cp r = view R H tx' cp r.
Proof.
  intros Hwf Hch Hin Hsee cp r. unfold view. rewrite Hch. destruct (chunks R !! cp) as [c|]; [|done].
  case_decide; [|done]. apply visible_renumber. intros n Hn.
  destruct (stamp_fields ls cid n) as (_ & -> & ->). split; [done|].
  assert (linked H (n_loc n) (n_num n)) as Hlk by (by exists cp, r, n).
  rewrite <- (Hsee _ _ Hlk). f_equal.
  destruct (decide (n_num n = num)) as [E|Hne].
  - rewrite decide_True; [done|]. apply Hin. by rewrite <- E.
  - rewrite decide_False; [done|]. intros Hx. apply Hin in Hx. by apply Hne, (linked_unique R H (n_loc n)).
Qed.

(** ** The undo buffer as a whole: rows and catalog entries *)

(** The cases of a well-formed entry. *)
Lemma entry_ok_cases e :
  entry_ok e →
  (∃ l, ue_data e = UVersion l ∧ is_tuple_entry (ue_type e) = true ∧ ue_type e ≠ CATALOG_ENTRY) ∨
  (∃ c, ue_data e = UCatalog c ∧ ue_type e = CATALOG_ENTRY) ∨
  (∃ q, ue_data e = UQuery q ∧ ue_type e = QUERY).
Proof.
  unfold entry_ok. destruct (ue_data e) as [l|c|q]; intros Hok.
  - left. exists l. destruct Hok as [->|[->| ->]]; by split_and!.
  - right. left. eauto.
  - right. right. eauto.
Qed.

Section catalog.
Context {CS E Q : Type} `{!CatalogUndo CS E Q}.

Lemma rollback_entries_split es R cs R' cs' :
  Forall entry_ok es → rollback_rows R (omap entry_loc es) = Ok R' →
  rollback_cats cs (omap entry_cat es) = Ok cs' →
  rollback_entries (mkUState R cs) es = Ok (mkUState R' cs').
Proof.
  intros Hok. revert R' cs'. induction Hok as [|e es He _ IH]; intros R' cs' HR HC.
  { simpl in HR, HC. injection HR as <-. by injection HC as <-. }
  cbn [omap list_omap] in HR, HC. cbn [rollback_entries]. unfold rollback_entry, version_of, catalog_of.
  destruct (entry_ok_cases e He) as [(l & Hd & Ht & Hne)|[(k & Hd & Ht)|(q & Hd & Ht)]];
    unfold entry_loc at 1 in HR; unfold entry_cat at 1 in HC; rewrite Hd in HR, HC; rewrite Hd.
  - cbn [rollback_rows] in HR. apply bind_Ok in HR as (R1 & HR1 & HR).
    rewrite (IH _ _ HR1 HC). run. rewrite bool_decide_eq_false_2, Ht by done. run. simpl.
    by rewrite HR.
  - cbn [rollback_cats] in HC. apply bind_Ok in HC as (c1 & HC1 & HC).
    rewrite (IH _ _ HR HC1). run. rewrite Ht. simpl. by rewrite HC.
  - rewrite (IH _ _ HR HC). run. by rewrite Ht.
Qed.

Lemma cleanup_entries_split es R cs R' cs' :
  Forall entry_ok es → cleanup_rows R (omap entry_loc es) = Ok R' →
  cleanup_cats cs (omap entry_cat es) = Ok cs' →
  UndoBuffer_Cleanup (mkUState R cs) es = Ok (mkUState R' cs').
Proof.
  intros Hok. revert R cs. induction Hok as [|e es He _ IH]; intros R cs HR HC.
  { simpl in HR, HC. injection HR as <-. by injection HC as <-. }
  cbn [omap list_omap] in HR, HC. cbn [UndoBuffer_Cleanup]. unfold cleanup_entry, version_of, catalog_of.
  destruct (entry_ok_cases e He) as [(l & Hd & Ht & Hne)|[(k & Hd & Ht)|(q & Hd & Ht)]];
    unfold entry_loc at 1 in HR; unfold entry_cat at 1 in HC; rewrite Hd in HR, HC; rewrite Hd.
  - cbn [cleanup_rows] in HR. apply bind_Ok in HR as (R1 & HR1 & HR).
    rewrite bool_decide_eq_false_2, Ht by done. run. simpl. rewrite HR1. run. by apply IH.
  - cbn [cleanup_cats] in HC. apply bind_Ok in HC as (c1 & HC1 & HC).
    rewrite Ht. simpl. rewrite HC1. run. by apply IH.
  - rewrite Ht. simpl. by apply IH.
Qed.
End catalog.

(** ** Logging the inserted tuples *)

Lemma StronglySorted_filter_any {A} (Rel : relation A) (P : A → Prop) `{!∀ x, Decision (P x)} l :
  StronglySorted Rel l → StronglySorted Rel (filter P l).
Proof.
  induction 1 as [|x l _ IH Hall]; [constructor|]. rewrite filter_cons. case_decide; [|done].
  constructor; [done|]. apply Forall_forall. intros y [_ Hy]%list_elem_of_filter.
  rewrite Forall_forall in Hall. auto.
Qed.

Lemma inserts_last_hdrop H ls : inserts_last H → inserts_last (hdrop H ls).
Proof. intros Hi cp r. apply StronglySorted_filter_any, Hi. Qed.

Lemma inserts_last_hstamp H ls num : inserts_last H → inserts_last (hstamp H ls num).
Proof.
  intros Hi cp r. specialize (Hi cp r). unfold hstamp. induction Hi as [|n ns _ IH Hall]; [constructor|].
  csimpl. constructor; [done|]. apply Forall_fmap. eapply Forall_impl; [exact Hall|]. intros m Hm. simpl.
  by destruct (stamp_fields ls num n) as (_ & -> & _).
Qed.

Lemma find_storage_spec R tbl cp r ns1 n ns2 fuel :
  rep (versions R) tbl (InChunk cp r) (ns1 ++ n :: ns2) → length ns1 < fuel →
  find_storage fuel R (n_loc n) = Ok cp.
Proof.
  revert n ns2 fuel. induction ns1 as [|m ns1 IH] using rev_ind; intros n ns2 [|fuel] Hrep Hf;
    try (rewrite ?length_app in Hf; simpl in Hf; lia); pose proof (rep_app _ _ _ _ _ _ Hrep) as Hn.
  - cbn [find_storage]. rewrite Hn. done.
  - cbn [find_storage]. rewrite Hn, last_snoc. run. simpl. apply (IH m (n :: ns2)).
    + by rewrite <- app_assoc in Hrep.
    + rewrite length_app in Hf. simpl in Hf. lia.
Qed.

Section write_tuple.
Context {E Q : Type}.
Context (R : rows) (H : hist) (Hl : links_wf R H) (Hd : data_wf R H) (Hi : inserts_last H).

Lemma inserted_tuple_spec cp c r n :
  chunks R !! cp = Some c → n ∈ H cp r → n_old n = None →
  ∃ vi t, versions R !! n_loc n = Some vi ∧ tuple_data vi = None ∧
    find_storage (S (size (versions R))) R (n_loc n) = Ok cp ∧ inserted_tuple R c vi = Ok t.
Proof.
  intros Hc Hn Hold. destruct (history_row R H cp r n Hl Hd Hn) as (c' & Hc' & Hr).
  rewrite Hc in Hc'. injection Hc' as <-.
  pose proof (lw_rep _ _ _ _ r Hl Hc) as Hrep.
  pose proof (rep_length _ _ _ _ Hrep (lw_sorted _ _ Hl cp r)) as Hlen.
  pose proof (Hi cp r) as Hins.
  apply list_elem_of_split in Hn as (ns1 & ns2 & Hns). rewrite Hns in Hrep, Hlen, Hins.
  pose proof (rep_app _ _ _ _ _ _ Hrep) as Hvi. eexists _.
  destruct (exists_last_or_nil ns1) as [->|(ns1' & m & ->)].
  - destruct (dw_table _ _ Hd _ _ Hc) as (tbl & Ht & _).
    destruct (dw_row _ _ Hd _ _ _ _ Hc Ht Hr) as (t & Hrow & _). exists t.
    split_and!; [exact Hvi|done| |].
    + eapply find_storage_spec; [exact Hrep|]. simpl. lia.
    + unfold inserted_tuple. simpl. by rewrite Hrow.
  - apply StronglySorted_app in Hins as (Hcross & _ & _).
    assert (is_Some (n_old m)) as [t Ht].
    { apply (Hcross m n); [apply elem_of_app; right; left|left]. }
    exists t. split_and!; [exact Hvi|done| |].
    + eapply find_storage_spec; [exact Hrep|]. rewrite length_app in Hlen. lia.
    + unfold inserted_tuple. rewrite last_snoc. simpl.
      rewrite <- app_assoc in Hrep. apply rep_app in Hrep. rewrite Hrep. simpl. by rewrite Ht.
Qed.

Definition pending_ok (ap : appends) : Prop := ∀ tp, is_Some (ap !! tp) → is_Some (tables R !! tp).

Lemma WriteTuple_spec cp r n ap (log : list (wal_entry E Q)) :
  n ∈ H cp r → pending_ok ap →
  ∃ ap' log', WriteTuple R (n_loc n) ap log = Ok (ap', log') ∧ pending_ok ap'.
Proof.
  intros Hn Hp. destruct (history_row R H cp r n Hl Hd Hn) as (c & Hc & Hr).
  destruct (n_old n) as [t|] eqn:Hold.
  - pose proof (lw_rep _ _ _ _ r Hl Hc) as Hrep.
    destruct (rep_lookup _ _ _ _ _ Hn Hrep) as (lk & next & Hvi).
    exists ap, log. unfold WriteTuple. rewrite Hvi. run. simpl. rewrite Hold. done.
  - destruct (inserted_tuple_spec cp c r n Hc Hn Hold) as (vi & t & Hvi & Htd & Hfind & Hins).
    destruct (dw_table _ _ Hd _ _ Hc) as (tbl & Ht & _).
    unfold WriteTuple. rewrite Hvi. run. rewrite Htd, Hfind. run. rewrite Hc. run. rewrite Ht. run.
    destruct (match ap !! sc_table c with Some _ => _ | None => _ end) as [chunk log'].
    rewrite Hins. run. eexists _, _. split; [done|]. intros tp [x Hx].
    destruct (decide (sc_table c = tp)) as [<-|Hne]; [eauto|].
    rewrite lookup_insert_ne in Hx by done. apply Hp. eauto.
Qed.

Lemma FlushAppends_spec ap (log : list (wal_entry E Q)) :
  pending_ok ap → ∃ log', FlushAppends R ap log = Ok log'.
Proof.
  intros Hp. unfold FlushAppends.
  assert (∃ es : list (wal_entry E Q), mapM (fun tc : nat * DataChunk =>
    t ← deref (tables R !! tc.1); mret (WInsert (dt_schema t) (dt_table t) tc.2)) (map_to_list ap) = Ok es)
    as [es Hes]; [|rewrite Hes; run; eauto].
  assert (∀ l : list (nat * DataChunk), (∀ k x, (k, x) ∈ l → is_Some (tables R !! k)) →
    ∃ es : list (wal_entry E Q), mapM (fun tc : nat * DataChunk =>
    t ← deref (tables R !! tc.1); mret (WInsert (dt_schema t) (dt_table t) tc.2)) l = Ok es) as Hall.
  { induction l as [|[k x] l IH]; intros Hk; [by exists []|].
    destruct IH as [es Hes]; [intros k' x' Hx'; apply (Hk k' x'); by right|].
    destruct (Hk k x) as [t Ht]; [left|]. exists (WInsert (dt_schema t) (dt_table t) x :: es).
    cbn [mapM]. simpl. rewrite Ht. run. by rewrite Hes. }
  apply Hall. intros k x Hx. apply Hp. apply elem_of_map_to_list in Hx. eauto.
Qed.
End write_tuple.

(** ** Committing all entries *)

Section commit.
Context {CS E Q : Type} `{!CatalogUndo CS E Q}.

Lemma pending_ok_layout R R' ap : same_layout R R' → pending_ok R ap → pending_ok R' ap.
Proof.
  intros Hlay Hp tp Hx. destruct (Hp tp Hx) as [t Ht]. destruct (Hlay _ _ Ht) as (t' & Ht' & _). eauto.
Qed.

(** The effect of a commit on the rows. *)
Definition committed (R R' : rows) (H : hist) (ls : list nat) (cid : Z) : Prop :=
  chunks R' = chunks R ∧ next_version R' = next_version R ∧ same_layout R R' ∧
  links_wf R' (hstamp H ls cid) ∧ data_wf R' (hstamp H ls cid) ∧ inserts_last (hstamp H ls cid).

Lemma committed_nil R H cid :
  links_wf R H → data_wf R H → inserts_last H → committed R R H [] cid.
Proof.
  intros Hl Hd Hi. split_and!; try done; [apply same_layout_refl| | |by apply inserts_last_hstamp].
  - eapply links_wf_ext; [|done]. apply hstamp_nil.
  - eapply data_wf_ext; [|done]. apply hstamp_nil.
Qed.

Lemma committed_cons R R1 R' H l ls cid :
  chunks R1 = chunks R → next_version R1 = next_version R → same_layout R R1 → inserts_last H →
  committed R1 R' (hstamp H [l] cid) ls cid → committed R R' H (l :: ls) cid.
Proof.
  intros Hch Hnv Hlay Hi (Hch' & Hnv' & Hlay' & Hl' & Hd' & _). split_and!.
  - congruence.
  - congruence.
  - by eapply same_layout_trans.
  - eapply links_wf_ext; [|exact Hl']. intros. symmetry. apply (hstamp_hstamp H [l] ls).
  - eapply data_wf_ext; [|exact Hd']. intros. symmetry. apply (hstamp_hstamp H [l] ls).
  - by apply inserts_last_hstamp.
Qed.

(** One entry that saved a version. *)
Lemma commit_tuple_entry R H num cid l ls e (s : cstate (CS:=CS) (E:=E) (Q:=Q)) :
  links_wf R H → data_wf R H → inserts_last H → (cid < TRANSACTION_ID_START ≤ num)%Z →
  StronglySorted lt (l :: ls) → committing H num cid (l :: ls) →
  ue_data e = UVersion l → is_tuple_entry (ue_type e) = true → ue_type e ≠ CATALOG_ENTRY →
  u_rows (c_state s) = R → pending_ok R (c_appends s) →
  ∃ R1 ap log, commit_entry cid s e = Ok (mkCState (mkUState R1 (u_catalog (c_state s))) ap log) ∧
    (log = None ↔ c_log s = None) ∧ pending_ok R1 ap ∧
    chunks R1 = chunks R ∧ next_version R1 = next_version R ∧ same_layout R R1 ∧
    links_wf R1 (hstamp H [l] cid) ∧ data_wf R1 (hstamp H [l] cid).
Proof.
  intros Hl Hd Hi Hnum Hs Hc Hdata Ht Hne HR Hp.
  destruct (commit_version_spec R H num cid l ls (ue_type e) Hl Hd Hnum Hs Hc)
    as (R1 & Hc1 & Hch1 & Hnv1 & Hlay1 & Hl1 & Hd1).
  pose proof (pending_ok_layout _ _ _ Hlay1 Hp) as Hp1.
  assert (∃ cp r n, n ∈ hstamp H [l] cid cp r ∧ n_loc n = l) as (cp & r & n & Hn & Hloc).
  { destruct (proj2 (proj1 Hc l)) as (cp & r & n & Hn & Hloc & _); [left|].
    exists cp, r, (stamp [l] cid n). split; [by apply list_elem_of_fmap_2|].
    by destruct (stamp_fields [l] cid n) as (-> & _). }
  unfold commit_entry, version_of. rewrite bool_decide_eq_false_2, Ht, Hdata by done. run.
  rewrite HR, Hc1. run. destruct (c_log s) as [log|].
  - destruct (WriteTuple_spec R1 _ Hl1 Hd1 (inserts_last_hstamp _ _ _ Hi) cp r n (c_appends s) log Hn Hp1)
      as (ap' & log' & Hw & Hp').
    rewrite Hloc in Hw. rewrite Hw. run. eexists R1, ap', (Some log'). by split_and!.
  - eexists R1, _, None. by split_and!.
Qed.

Lemma commit_entries_spec es : ∀ R H num cid cs cs' ap log,
  Forall entry_ok es → links_wf R H → data_wf R H → inserts_last H →
  (cid < TRANSACTION_ID_START ≤ num)%Z → StronglySorted lt (omap entry_loc es) →
  committing H num cid (omap entry_loc es) → pending_ok R ap →
  commit_cats cs (omap entry_cat es) cid (bool_decide (is_Some log)) = Ok cs' →
  ∃ R' ap' log', commit_entries cid (mkCState (mkUState R cs) ap log) es
      = Ok (mkCState (mkUState R' cs') ap' log') ∧
    (log' = None ↔ log = None) ∧ pending_ok R' ap' ∧ committed R R' H (omap entry_loc es) cid.
Proof.
  induction es as [|e es IH]; intros R H num cid cs cs' ap log Hok Hl Hd Hi Hnum Hs Hc Hp Hcat.
  { simpl in Hcat. injection Hcat as <-. exists R, ap, log. split_and!; try done. by apply committed_nil. }
  apply Forall_cons in Hok as [He Hok]. cbn [omap list_omap] in *. cbn [commit_entries].
  destruct (entry_ok_cases e He) as [(l & Hdata & Ht & Hne)|[(k & Hdata & Ht)|(q & Hdata & Ht)]];
    unfold entry_loc at 1 in Hs; unfold entry_loc at 1 in Hc; unfold entry_loc at 1;
    unfold entry_cat at 1 in Hcat; rewrite Hdata in *.
  - destruct (commit_tuple_entry R H num cid l (omap entry_loc es) e (mkCState (mkUState R cs) ap log))
      as (R1 & ap1 & log1 & Hce & Hlog & Hp1 & Hch1 & Hnv1 & Hlay1 & Hl1 & Hd1); try done.
    rewrite Hce. run.
    destruct (IH R1 (hstamp H [l] cid) num cid cs cs' ap1 log1) as (R' & ap' & log' & Hces & Hlog' & Hp' & Hcm);
      try done.
    { by apply inserts_last_hstamp. }
    { by apply StronglySorted_inv in Hs as [? _]. }
    { by apply committing_step. }
    { rewrite <- Hcat. f_equal. apply bool_decide_ext. simpl in Hlog. rewrite <- !not_eq_None_Some. naive_solver. }
    exists R', ap', log'. simpl in Hlog. split_and!; try done; [naive_solver|]. by eapply committed_cons.
  - cbn [commit_cats] in Hcat. apply bind_Ok in Hcat as (c1 & Hc1 & Hcat).
    apply bind_Ok in Hcat as ([] & Hlg & Hcat).
    unfold commit_entry, catalog_of. rewrite Ht, Hdata. simpl. rewrite Hc1. run.
    destruct log as [log|]; simpl in *.
    + apply bind_Ok in Hlg as (en & Hen & _). rewrite Hen. run.
      destruct (IH R H num cid c1 cs' ap (Some (log ++ option_list en))) as (R' & ap' & log' & Hces & Hlog' & Hp' & Hcm);
        try done.
      exists R', ap', log'. split_and!; try done. naive_solver.
    + by apply (IH R H num cid c1 cs' ap None).
  - unfold commit_entry. rewrite Ht, Hdata. simpl. destruct log as [log|]; simpl in *.
    + destruct (FlushAppends_spec R ap log Hp) as [log1 Hf]. rewrite Hf. run.
      destruct (IH R H num cid cs cs' ∅ (Some (log1 ++ [WQuery q]))) as (R' & ap' & log' & Hces & Hlog' & Hp' & Hcm);
        try done.
      { intros tp [x Hx]. by rewrite lookup_empty in Hx. }
      exists R', ap', log'. split_and!; try done. naive_solver.
    + by apply (IH R H num cid cs cs' ap None).
Qed.
End commit.

(** ** The three walks of an undo buffer *)

Section walks.
Context {CS E Q : Type} `{!CatalogUndo CS E Q}.

(** Committing gives every node of the buffer the commit number. *)
Lemma UndoBuffer_Commit_spec es R H num cid cs cs' (log : bool) :
  Forall entry_ok es → links_wf R H → data_wf R H → inserts_last H →
  (cid < TRANSACTION_ID_START ≤ num)%Z → StronglySorted lt (omap entry_loc es) →
  committing H num cid (omap entry_loc es) →
  commit_cats cs (omap entry_cat es) cid log = Ok cs' →
  ∃ R' logged, UndoBuffer_Commit (mkUState R cs) log es cid = Ok (mkUState R' cs', logged) ∧
    (is_Some logged ↔ log = true) ∧ committed R R' H (omap entry_loc es) cid.
Proof.
  intros Hok Hl Hd Hi Hnum Hs Hc Hcat.
  destruct (commit_entries_spec es R H num cid cs cs' ∅ (if log then Some [] else None))
    as (R' & ap' & log' & Hces & Hlog' & Hp' & Hcm); try done.
  { intros tp [x Hx]. by rewrite lookup_empty in Hx. }
  { by destruct log. }
  unfold UndoBuffer_Commit. rewrite Hces. run. simpl. destruct log' as [log'|].
  - destruct (FlushAppends_spec R' ap' log' Hp') as [log1 ->]. run. exists R', (Some log1).
    split_and!; try done. destruct log; naive_solver.
  - exists R', None. split_and!; try done. destruct log; [naive_solver|]. split; [by intros []|done].
Qed.

(** Rolling back takes every node of the buffer out of its row. *)
Lemma UndoBuffer_Rollback_spec es R H num cs cs' :
  Forall entry_ok es → links_wf R H → data_wf R H → inserts_last H →
  (TRANSACTION_ID_START ≤ num)%Z → StronglySorted lt (omap entry_loc es) →
  newest_nodes H num (omap entry_loc es) → rollback_cats cs (omap entry_cat es) = Ok cs' →
  ∃ R' es', UndoBuffer_Rollback (mkUState R cs) es = Ok (mkUState R' cs', es') ∧
    omap entry_loc es' = omap entry_loc es ∧ Forall (fun e => ue_type e = EMPTY_ENTRY) es' ∧
    tables R' = tables R ∧ next_version R' = next_version R ∧
    links_wf R' (hdrop H (omap entry_loc es)) ∧ data_wf R' (hdrop H (omap entry_loc es)) ∧
    inserts_last (hdrop H (omap entry_loc es)) ∧ places R R' ∧
    ∀ tx, sees tx num = false → same_view tx R R' H (hdrop H (omap entry_loc es)).
Proof.
  intros Hok Hl Hd Hi Hnum Hs Hnew Hcat.
  destruct (rollback_rows_spec R H num _ Hl Hd Hnum Hs Hnew) as (R' & Hr & Ht & Hnv & Hl' & Hd' & Hp & Hv).
  exists R', ((fun e => mkUndoEntry EMPTY_ENTRY (ue_data e)) <$> es). split_and!; try done.
  - unfold UndoBuffer_Rollback. by rewrite (rollback_entries_split _ _ _ _ _ Hok Hr Hcat).
  - by rewrite omap_fmap_compose.
  - apply Forall_fmap, Forall_true. done.
  - by apply inserts_last_hdrop.
Qed.

(** Cleaning up takes the nodes of the oldest transaction out of their rows. *)
Lemma UndoBuffer_Cleanup_spec es R H num cs cs' :
  Forall entry_ok es → links_wf R H → data_wf R H → inserts_last H →
  StronglySorted lt (omap entry_loc es) → oldest_nodes H num (omap entry_loc es) →
  cleanup_cats cs (omap entry_cat es) = Ok cs' →
  ∃ R', UndoBuffer_Cleanup (mkUState R cs) es = Ok (mkUState R' cs') ∧
    tables R' = tables R ∧ next_version R' = next_version R ∧
    links_wf R' (hdrop H (omap entry_loc es)) ∧ data_wf R' (hdrop H (omap entry_loc es)) ∧
    inserts_last (hdrop H (omap entry_loc es)) ∧ places R R' ∧
    ∀ tx, sees tx num = true → same_view tx R R' H (hdrop H (omap entry_loc es)).
Proof.
  intros Hok Hl Hd Hi Hs Hold Hcat.
  destruct (cleanup_rows_spec _ R H num Hl Hd Hs Hold) as (R' & Hr & Ht & Hnv & Hl' & Hd' & Hp & Hv).
  exists R'. split_and!; try done; [|by apply inserts_last_hdrop].
  by apply cleanup_entries_split.
Qed.
End walks.

(** ** What happens to the catalog *)

Section catalog_laws.
Context {CS E Q : Type} `{!CatalogUndo CS E Q, !CatalogLaws CS E Q}.

Definition same_catalog (tx : Transaction) (cs cs' : CS) : Prop :=
  ∀ s name, cat_view cs' tx s name = cat_view cs tx s name.

Lemma rollback_cats_spec ks cs num :
  cat_wf cs → (TRANSACTION_ID_START ≤ num)%Z → ∀ ks0, cat_owns cs num (ks0 ++ ks) →
  ∃ cs', rollback_cats cs ks = Ok cs' ∧ cat_wf cs' ∧ (∀ z, cat_below cs z → cat_below cs' z) ∧
    cat_owns cs' num ks0 ∧
    (∀ z ks', z ≠ num → cat_owns cs z ks' ↔ cat_owns cs' z ks') ∧
    (∀ tx, sees tx num = false → same_catalog tx cs cs').
Proof.
  intros Hwf Hnum. induction ks as [|k ks IH]; intros ks0 Ho.
  { exists cs. rewrite app_nil_r in Ho. by split_and!. }
  destruct (IH (ks0 ++ [k])) as (c1 & Hc1 & Hwf1 & Hb1 & Ho1 & Hoth1 & Hv1); [by rewrite <- app_assoc|].
  destruct (cat_undo_ok c1 num ks0 k Hwf1 Hnum Ho1) as (cs' & Hcs & Hwf' & Hb' & Ho' & Hoth' & Hv').
  exists cs'. cbn [rollback_cats]. rewrite Hc1. run. split_and!; try done; [auto| |].
  - intros z ks' Hz. by rewrite (Hoth1 z ks' Hz), (Hoth' z ks' Hz).
  - intros tx Hs s name. rewrite (Hv' tx s name Hs). by apply Hv1.
Qed.

Lemma cleanup_cats_spec ks : ∀ cs num,
  cat_wf cs → (num < TRANSACTION_ID_START)%Z → cat_owns cs num ks →
  (∀ z k' ks', cat_owns cs z (k' :: ks') → (num ≤ z)%Z) →
  ∃ cs', cleanup_cats cs ks = Ok cs' ∧ cat_wf cs' ∧ (∀ z, cat_below cs z → cat_below cs' z) ∧
    cat_owns cs' num [] ∧
    (∀ z ks', z ≠ num → cat_owns cs z ks' ↔ cat_owns cs' z ks') ∧
    (∀ tx, sees tx num = true → same_catalog tx cs cs').
Proof.
  induction ks as [|k ks IH]; intros cs num Hwf Hn Ho Hb.
  { exists cs. by split_and!. }
  destruct (cat_cleanup_ok cs num k ks Hwf Hn Ho Hb) as (c1 & Hc1 & Hwf1 & Hb1 & Ho1 & Hoth1 & Hv1).
  destruct (IH c1 num Hwf1 Hn Ho1) as (cs' & Hcs & Hwf' & Hb' & Ho' & Hoth' & Hv').
  { intros z k' ks' Hz. destruct (decide (z = num)) as [->|Hne]; [lia|]. by eapply Hb, Hoth1. }
  exists cs'. cbn [cleanup_cats]. rewrite Hc1. run. split_and!; try done; [auto| |].
  - intros z ks' Hz. by rewrite (Hoth1 z ks' Hz), (Hoth' z ks' Hz).
  - intros tx Hs s name. rewrite (Hv' tx Hs). by apply Hv1.
Qed.
End catalog_laws.
