(* ===== verification/TransactionManager.v ===== *)
(** * The transaction manager

    Models [src/src/transaction/transaction_manager.cpp] and
    [src/src/transaction/transaction_context.cpp]: handing out start times and
    identifiers, committing and rolling back, and the garbage collection of
    undo buffers that no running transaction can need.

    A pointer to a transaction is its identifier: identifiers are never reused
    ([inv_ids] below).  A function that holds [transaction_lock] is one step. *)

From Stdlib Require Import ZArith Lia.
From stdpp Require Import base gmap list strings option numbers sorting.
From S2P Require Import Prelude Types Vector Tuple Storage Versions WriteAheadLog UndoBuffer.

Record TransactionManager : Type := mkTransactionManager {
  current_query_number : Z;
  current_start_timestamp : Z;
  current_transaction_id : Z;
  active_transactions : list Transaction;
  recently_committed_transactions : list Transaction;
  old_transactions : list Transaction }.

Definition NewTransactionManager : TransactionManager :=
  mkTransactionManager 1 0 TRANSACTION_ID_START [] [] [].

Definition set_commit_id (z : Z) (t : Transaction) : Transaction :=
  mkTransaction (start_time t) (transaction_id t) z (highest_active_query t) (active_query t) (undo_buffer t).
Definition set_highest_active_query (z : Z) (t : Transaction) : Transaction :=
  mkTransaction (start_time t) (transaction_id t) (commit_id t) z (active_query t) (undo_buffer t).
Definition set_active_query (z : Z) (t : Transaction) : Transaction :=
  mkTransaction (start_time t) (transaction_id t) (commit_id t) (highest_active_query t) z (undo_buffer t).
Definition set_undo_buffer (es : list UndoEntry) (t : Transaction) : Transaction :=
  mkTransaction (start_time t) (transaction_id t) (commit_id t) (highest_active_query t) (active_query t) es.

Definition set_active (ts : list Transaction) (tm : TransactionManager) : TransactionManager :=
  mkTransactionManager (current_query_number tm) (current_start_timestamp tm) (current_transaction_id tm)
    ts (recently_committed_transactions tm) (old_transactions tm).
Definition next_timestamp (tm : TransactionManager) : TransactionManager :=
  mkTransactionManager (current_query_number tm) (current_start_timestamp tm + 1) (current_transaction_id tm)
    (active_transactions tm) (recently_committed_transactions tm) (old_transactions tm).

(** [TransactionManager::StartTransaction] *)
Definition StartTransaction (tm : TransactionManager) : result (TransactionManager * Z) :=
  if (TRANSACTION_ID_START <=? current_start_timestamp tm)%Z then Throw GenericException else
  let id := current_transaction_id tm in
  Ok (mkTransactionManager (current_query_number tm) (current_start_timestamp tm + 1) (id + 1)
        (active_transactions tm ++ [NewTransaction (current_start_timestamp tm) id])
        (recently_committed_transactions tm) (old_transactions tm), id).

(** [TransactionManager::GetQueryNumber] *)
Definition GetQueryNumber (tm : TransactionManager) : Z * TransactionManager :=
  (current_query_number tm,
   mkTransactionManager (current_query_number tm + 1) (current_start_timestamp tm) (current_transaction_id tm)
     (active_transactions tm) (recently_committed_transactions tm) (old_transactions tm)).

(** The transaction behind a pointer. *)
Definition find_transaction (id : Z) (ts : list Transaction) : option (nat * Transaction) :=
  list_find (fun t => transaction_id t = id) ts.

Definition lowest (f : Transaction -> Z) (init : Z) (ts : list Transaction) : Z :=
  foldl (fun z t => Z.min z (f t)) init ts.

(** Freeing undo buffers frees the versions they hold. *)
Definition free_versions (R : rows) (ls : list nat) : rows :=
  set_versions R (foldr delete (versions R) ls).

Definition buffer_versions (es : list UndoEntry) : list nat :=
  omap (fun e => match ue_data e with UVersion l => Some l | _ => None end) es.

(** The transactions at the front of [old_transactions] that can go. *)
Fixpoint freeable (lowest_active_query : Z) (old : list Transaction)
    : result (list Transaction * list Transaction) :=
  match old with
  | [] => Ok ([], [])
  | t :: old' =>
    _ ← assert_ (0 <? highest_active_query t)%Z;
    if (lowest_active_query <=? highest_active_query t)%Z then Ok ([], old)
    else '(freed, kept) ← freeable lowest_active_query old'; mret (t :: freed, kept)
  end.

Section manager.
Context {CS E Q : Type} `{!CatalogUndo CS E Q}.

(** The storage the manager works on; the write-ahead log, if there is one,
    as the entries of each flushed transaction. *)
Record Database : Type := mkDatabase {
  db_rows : rows;
  db_catalog : CS;
  db_log : option (list (list (wal_entry E Q)));
  db_tm : TransactionManager }.

Definition db_ustate (db : Database) : ustate CS := mkUState (db_rows db) (db_catalog db).

(** Cleaning up the committed transactions that every running transaction
    sees. *)
Fixpoint collect (u : ustate CS) (lowest_start_time query : Z) (recent old : list Transaction)
    : result (ustate CS * list Transaction * list Transaction) :=
  match recent with
  | [] => Ok (u, [], old)
  | t :: recent' =>
    if (commit_id t <? lowest_start_time)%Z then
      u ← UndoBuffer_Cleanup u (undo_buffer t);
      collect u lowest_start_time query recent' (old ++ [set_highest_active_query query t])
    else Ok (u, recent, old)
  end.

(** [TransactionManager::RemoveTransaction] *)
Definition RemoveTransaction (db : Database) (id : Z) : result Database :=
  let tm := db_tm db in
  '(t_index, current_transaction) ← deref (find_transaction id (active_transactions tm));
  let others := filter (fun t => transaction_id t ≠ id) (active_transactions tm) in
  let lowest_start_time := lowest start_time TRANSACTION_ID_START others in
  let lowest_active_query := lowest active_query MAXIMUM_QUERY_ID others in
  let query := current_query_number tm in
  let '(recent, old) :=
    if (commit_id current_transaction =? 0)%Z
    then (recently_committed_transactions tm,
          old_transactions tm ++ [set_highest_active_query query current_transaction])
    else (recently_committed_transactions tm ++ [current_transaction], old_transactions tm) in
  let active := delete t_index (active_transactions tm) in
  '(u, recent, old) ← collect (db_ustate db) lowest_start_time query recent old;
  '(freed, old) ← (if length active =? 0 then Ok (old, []) else freeable lowest_active_query old);
  mret (mkDatabase (free_versions (u_rows u) (concat (buffer_versions ∘ undo_buffer <$> freed)))
          (u_catalog u) (db_log db)
          (mkTransactionManager query (current_start_timestamp tm) (current_transaction_id tm)
             active recent old)).

(** [TransactionManager::CommitTransaction] with [Transaction::Commit] *)
Definition CommitTransaction (db : Database) (id : Z) : result Database :=
  let commit_id := current_start_timestamp (db_tm db) in
  let tm := next_timestamp (db_tm db) in
  '(i, t) ← deref (find_transaction id (active_transactions tm));
  '(u, logged) ← UndoBuffer_Commit (db_ustate db) (bool_decide (is_Some (db_log db))) (undo_buffer t) commit_id;
  let log := match db_log db, logged with Some log, Some es => Some (log ++ [es]) | log, _ => log end in
  RemoveTransaction (mkDatabase (u_rows u) (u_catalog u) log
    (set_active (<[i := set_commit_id commit_id t]> (active_transactions tm)) tm)) id.

(** [TransactionManager::RollbackTransaction] with [Transaction::Rollback] *)
Definition RollbackTransaction (db : Database) (id : Z) : result Database :=
  let tm := db_tm db in
  '(i, t) ← deref (find_transaction id (active_transactions tm));
  '(u, es) ← UndoBuffer_Rollback (db_ustate db) (undo_buffer t);
  RemoveTransaction (mkDatabase (u_rows u) (u_catalog u) (db_log db)
    (set_active (<[i := set_undo_buffer es t]> (active_transactions tm)) tm)) id.

(** ** A connection's transaction: [TransactionContext] *)

Record TransactionContext : Type := mkTransactionContext {
  auto_commit : bool;
  is_invalidated : bool;
  current_transaction : option Z }.

Definition set_current (t : option Z) (cx : TransactionContext) : TransactionContext :=
  mkTransactionContext (auto_commit cx) (is_invalidated cx) t.

Definition set_tm (db : Database) (tm : TransactionManager) : Database :=
  mkDatabase (db_rows db) (db_catalog db) (db_log db) tm.

Definition BeginTransaction (cx : TransactionContext) (db : Database) : result (TransactionContext * Database) :=
  match current_transaction cx with
  | Some _ => Throw TransactionException
  | None =>
    '(tm, id) ← StartTransaction (db_tm db);
    mret (set_current (Some id) cx, set_tm db tm)
  end.

Definition Commit (cx : TransactionContext) (db : Database) : result (TransactionContext * Database) :=
  match current_transaction cx with
  | None => Throw TransactionException
  | Some id => db ← CommitTransaction db id; mret (set_current None cx, db)
  end.

Definition Rollback (cx : TransactionContext) (db : Database) : result (TransactionContext * Database) :=
  match current_transaction cx with
  | None => Throw TransactionException
  | Some id => db ← RollbackTransaction db id; mret (set_current None cx, db)
  end.

(** [TransactionContext::~TransactionContext]: exceptions of the rollback are
    swallowed. *)
Definition destroy_context (cx : TransactionContext) (db : Database) : Database :=
  if is_invalidated cx then db else
  match current_transaction cx with
  | None => db
  | Some id => match RollbackTransaction db id with Ok db' => db' | _ => db end
  end.
End manager.
Arguments Database CS E Q : clear implicits.
