(* ===== verification/TransactionProofs.v ===== *)
(** * The invariant of the transaction manager

    Every version that is linked into a row, and every catalog entry that was
    replaced, belongs to exactly one running or recently committed transaction
    ([core]); committing, rolling back and collecting garbage keep the
    accounts.  From this follow memory safety of the undo buffers and what
    each transaction reads across the steps of the others. *)

From Stdlib Require Import ZArith Lia.
From stdpp Require Import base gmap list strings option numbers sorting.
From S2P Require Import Prelude Types Vector Tuple Storage Versions DataTable TableOps TableAppend WriteAheadLog UndoBuffer UndoProofs TransactionManager.

(** The numbers under which live versions are kept: the identifiers of the
    running transactions and the commit numbers of those not yet collected. *)
Definition live (active recent : list Transaction) : list (Z * list UndoEntry) :=
  ((fun t => (transaction_id t, undo_buffer t)) <$> active) ++
  ((fun t => (commit_id t, undo_buffer t)) <$> recent).

Lemma elem_of_live active recent z es :
  (z, es) ∈ live active recent ↔
  (∃ t, t ∈ active ∧ z = transaction_id t ∧ es = undo_buffer t) ∨
  (∃ t, t ∈ recent ∧ z = commit_id t ∧ es = undo_buffer t).
Proof.
  unfold live. rewrite elem_of_app, !list_elem_of_fmap. naive_solver.
Qed.

Section invariant.
Context {CS E Q : Type} `{!CatalogUndo CS E Q, !CatalogLaws CS E Q}.

(** The lists of transactions account for every version and every replaced
    catalog entry. *)
Record core (R : rows) (cs : CS) (H : hist) (active recent old : list Transaction) (ts : Z) : Prop := {
  co_links : links_wf R H;
  co_data : data_wf R H;
  co_inserts : inserts_last H;
  co_ids : NoDup (transaction_id <$> active);
  co_active : ∀ t, t ∈ active →
    (TRANSACTION_ID_START ≤ transaction_id t)%Z ∧ (0 ≤ start_time t < ts)%Z ∧
    (start_time t < TRANSACTION_ID_START)%Z ∧ commit_id t = 0%Z;
  co_recent : ∀ t, t ∈ recent → (0 < commit_id t < ts)%Z ∧ (commit_id t < TRANSACTION_ID_START)%Z;
  co_order : StronglySorted Z.lt (commit_id <$> recent);
  co_entries : ∀ z es, (z, es) ∈ live active recent →
    Forall entry_ok es ∧ StronglySorted lt (omap entry_loc es);
  co_ledger : ∀ l z, linked H l z ↔ ∃ es, (z, es) ∈ live active recent ∧ l ∈ omap entry_loc es;
  co_old : ∀ t, t ∈ old → (0 < highest_active_query t)%Z ∧
    ∀ l, l ∈ undo_locs t → l < next_version R ∧ ∀ z, ¬ linked H l z;
  co_cat : cat_wf cs;
  co_below : cat_below cs ts;
  co_cats : ∀ z es, (z, es) ∈ live active recent → cat_owns cs z (omap entry_cat es);
  co_nocats : ∀ z, z ∉ (live active recent).*1 → cat_owns cs z [] }.

Section facts.
Context (R : rows) (cs : CS) (H : hist) (active recent old : list Transaction) (ts : Z).
Context (Hco : core R cs H active recent old ts).

Lemma commit_ids_inj t t' : t ∈ recent → t' ∈ recent → commit_id t = commit_id t' → t = t'.
Proof.
  pose proof (co_order _ _ _ _ _ _ _ Hco) as Hs. clear Hco. induction recent as [|x l IH]; [set_solver|].
  csimpl in Hs. apply StronglySorted_inv in Hs as [Hs Hall].
  rewrite Forall_fmap, Forall_forall in Hall. intros [->|H1]%elem_of_cons [->|H2]%elem_of_cons Heq; auto.
  - specialize (Hall _ H2). simpl in Hall. lia.
  - specialize (Hall _ H1). simpl in Hall. lia.
Qed.

Lemma ids_inj t t' : t ∈ active → t' ∈ active → transaction_id t = transaction_id t' → t = t'.
Proof.
  pose proof (co_ids _ _ _ _ _ _ _ Hco) as Hs. clear Hco. induction active as [|x l IH]; [set_solver|].
  csimpl in Hs. apply NoDup_cons in Hs as [Hx Hs].
  intros [->|H1]%elem_of_cons [->|H2]%elem_of_cons Heq; auto; exfalso; apply Hx.
  - rewrite Heq. by apply list_elem_of_fmap_2.
  - rewrite <- Heq. by apply list_elem_of_fmap_2.
Qed.

Lemma live_unique z es es' :
  (z, es) ∈ live active recent → (z, es') ∈ live active recent → es = es'.
Proof.
  intros [(t & Ht & -> & ->)|(t & Ht & -> & ->)]%elem_of_live
    [(t' & Ht' & Hz & ->)|(t' & Ht' & Hz & ->)]%elem_of_live.
  - by rewrite (ids_inj t t').
  - pose proof (co_active _ _ _ _ _ _ _ Hco _ Ht). pose proof (co_recent _ _ _ _ _ _ _ Hco _ Ht'). lia.
  - pose proof (co_active _ _ _ _ _ _ _ Hco _ Ht'). pose proof (co_recent _ _ _ _ _ _ _ Hco _ Ht). lia.
  - by rewrite (commit_ids_inj t t').
Qed.

Lemma live_linked z es l :
  (z, es) ∈ live active recent → linked H l z ↔ l ∈ omap entry_loc es.
Proof.
  intros Hz. rewrite (co_ledger _ _ _ _ _ _ _ Hco). split.
  - intros (es' & Hz' & Hl). by rewrite (live_unique z es es').
  - intros Hl. by exists es.
Qed.

Lemma owns_live z k ks :
  cat_owns cs z (k :: ks) → ∃ es, (z, es) ∈ live active recent ∧ omap entry_cat es = k :: ks.
Proof.
  intros Ho. destruct (decide (z ∈ (live active recent).*1)) as [Hz|Hz].
  - apply list_elem_of_fmap in Hz as ([z' es] & -> & Hz). exists es. split; [done|].
    symmetry. eapply cat_owns_inj; [apply Hco|exact Ho|]. by apply (co_cats _ _ _ _ _ _ _ Hco).
  - pose proof (co_nocats _ _ _ _ _ _ _ Hco z Hz) as Hn.
    by pose proof (cat_owns_inj _ _ _ _ (co_cat _ _ _ _ _ _ _ Hco) Ho Hn).
Qed.

Lemma live_range z es : (z, es) ∈ live active recent →
  (TRANSACTION_ID_START ≤ z ∨ 0 < z < ts ∧ z < TRANSACTION_ID_START)%Z.
Proof.
  intros [(t & Ht & -> & _)|(t & Ht & -> & _)]%elem_of_live.
  - left. by apply (co_active _ _ _ _ _ _ _ Hco).
  - right. by apply (co_recent _ _ _ _ _ _ _ Hco).
Qed.
End facts.
End invariant.

Section moves.
Context {CS E Q : Type} `{!CatalogUndo CS E Q, !CatalogLaws CS E Q}.

(** The nodes of one number leave their rows; its buffer is kept, but
    nothing points into it any more. *)
Lemma core_drop R (cs : CS) H active recent old ts R' cs' active' recent' t' z0 es0 :
  core R cs H active recent old ts →
  (∀ x, x ∈ live active recent ↔ x = (z0, es0) ∨ x ∈ live active' recent') →
  z0 ∉ (live active' recent').*1 →
  NoDup (transaction_id <$> active') → active' ⊆ active →
  StronglySorted Z.lt (commit_id <$> recent') → recent' ⊆ recent →
  let H' := hdrop H (omap entry_loc es0) in
  links_wf R' H' → data_wf R' H' → inserts_last H' → next_version R' = next_version R →
  cat_wf cs' → (∀ z, cat_below cs z → cat_below cs' z) → cat_owns cs' z0 [] →
  (∀ z ks', z ≠ z0 → cat_owns cs z ks' ↔ cat_owns cs' z ks') →
  undo_locs t' = omap entry_loc es0 → (0 < highest_active_query t')%Z →
  core R' cs' H' active' recent' (old ++ [t']) ts.
Proof.
  intros Hco Hlive Hz0 Hnd Hact Hord Hrec H' Hl Hd Hi Hnv Hwf Hbel Hno Hoth Hlocs Hq.
  assert ((z0, es0) ∈ live active recent) as Hin by (apply Hlive; by left).
  assert (∀ z es, (z, es) ∈ live active' recent' → z ≠ z0) as Hne.
  { intros z es Hz ->. apply Hz0. change z0 with ((z0, es).1). by apply list_elem_of_fmap_2. }
  constructor; try done.
  - intros t Ht. by apply (co_active _ _ _ _ _ _ _ Hco), Hact.
  - intros t Ht. by apply (co_recent _ _ _ _ _ _ _ Hco), Hrec.
  - intros z es Hz. apply (co_entries _ _ _ _ _ _ _ Hco z). apply Hlive. by right.
  - intros l z. unfold H'. rewrite linked_hdrop, <- (live_linked _ _ _ _ _ _ _ Hco _ _ l Hin).
    rewrite (co_ledger _ _ _ _ _ _ _ Hco). split.
    + intros [(es & [[= -> ->]|Hz]%Hlive & Hl') Hno']; [|eauto].
      exfalso. apply Hno'. by apply (live_linked _ _ _ _ _ _ _ Hco _ _ l Hin).
    + intros (es & Hz & Hl'). split; [exists es; split; [apply Hlive; by right|done]|].
      intros Hl0. apply (Hne z es Hz). eapply linked_unique; [apply Hco| |exact Hl0].
      apply (co_ledger _ _ _ _ _ _ _ Hco). exists es. split; [apply Hlive; by right|done].
  - intros t [Ht| ->%list_elem_of_singleton]%elem_of_app.
    + destruct (co_old _ _ _ _ _ _ _ Hco t Ht) as [Hqt Hlt]. split; [done|]. intros l Hlt'.
      destruct (Hlt l Hlt') as [Hn Hx]. rewrite Hnv. split; [done|]. intros z [? _]%linked_hdrop. by eapply Hx.
    + split; [done|]. intros l Hl'. rewrite Hlocs in Hl'. split.
      * rewrite Hnv. apply (live_linked _ _ _ _ _ _ _ Hco _ _ l Hin) in Hl' as (cp & r & n & Hn & <- & _).
        eapply links_fresh; [apply Hco|exact Hn].
      * intros z [_ Hx]%linked_hdrop. done.
  - apply Hbel, Hco.
  - intros z es Hz. apply Hoth; [by eapply Hne|]. apply (co_cats _ _ _ _ _ _ _ Hco). apply Hlive. by right.
  - intros z Hz. destruct (decide (z = z0)) as [->|Hz']; [done|]. apply Hoth; [done|].
    apply (co_nocats _ _ _ _ _ _ _ Hco). intros ([z' es] & -> & Hx)%list_elem_of_fmap.
    apply Hlive in Hx as [[= -> ->]|Hx]; [done|]. apply Hz. by apply list_elem_of_fmap_2.
Qed.

Lemma live_cons_recent active t recent x :
  x ∈ live active (t :: recent) ↔ x = (commit_id t, undo_buffer t) ∨ x ∈ live active recent.
Proof. unfold live. csimpl. rewrite !elem_of_app, elem_of_cons. tauto. Qed.

Lemma live_middle_active a1 t a2 recent x :
  x ∈ live (a1 ++ t :: a2) recent ↔ x = (transaction_id t, undo_buffer t) ∨ x ∈ live (a1 ++ a2) recent.
Proof. unfold live. rewrite !fmap_app. csimpl. rewrite !elem_of_app, elem_of_cons. tauto. Qed.

(** One collected transaction. *)
Lemma core_cleanup R (cs : CS) H active t recent old ts q :
  core R cs H active (t :: recent) old ts → (0 < q)%Z →
  ∃ R' cs', UndoBuffer_Cleanup (mkUState R cs) (undo_buffer t) = Ok (mkUState R' cs') ∧
    core R' cs' (hdrop H (undo_locs t)) active recent (old ++ [set_highest_active_query q t]) ts ∧
    tables R' = tables R ∧ places R R' ∧
    ∀ tx, sees tx (commit_id t) = true →
      same_view tx R R' H (hdrop H (undo_locs t)) ∧ same_catalog tx cs cs'.
Proof.
  intros Hco Hq.
  assert ((commit_id t, undo_buffer t) ∈ live active (t :: recent)) as Hin by (apply live_cons_recent; by left).
  destruct (co_entries _ _ _ _ _ _ _ Hco _ _ Hin) as [Hok Hs].
  pose proof (co_order _ _ _ _ _ _ _ Hco) as Hord. csimpl in Hord.
  apply StronglySorted_inv in Hord as [Hord Hmin]. rewrite Forall_fmap, Forall_forall in Hmin.
  assert (commit_id t < TRANSACTION_ID_START)%Z as Hcid by (apply (co_recent _ _ _ _ _ _ _ Hco); left).
  assert (∀ z es, (z, es) ∈ live active recent → (commit_id t < z)%Z) as Hlow.
  { intros z es [(t' & Ht' & -> & _)|(t' & Ht' & -> & _)]%elem_of_live; [|by apply Hmin].
    pose proof (co_active _ _ _ _ _ _ _ Hco _ Ht'). lia. }
  assert (∀ z es, (z, es) ∈ live active (t :: recent) → (commit_id t ≤ z)%Z) as Hlow'.
  { intros z es [[= -> _]|Hz]%live_cons_recent; [lia|]. by apply Hlow in Hz; lia. }
  destruct (cleanup_cats_spec (omap entry_cat (undo_buffer t)) cs (commit_id t))
    as (cs' & Hcs & Hwf & Hbel & Hno & Hoth & Hcv).
  { apply Hco. }
  { done. }
  { by apply (co_cats _ _ _ _ _ _ _ Hco). }
  { intros z k ks (es & Hz & _)%(owns_live _ _ _ _ _ _ _ Hco). by eapply Hlow'. }
  destruct (UndoBuffer_Cleanup_spec (undo_buffer t) R H (commit_id t) cs cs')
    as (R' & Hcl & Ht & Hnv & Hl & Hd & Hi & Hp & Hv); try done; try apply Hco.
  { split; [intros l; by apply (live_linked _ _ _ _ _ _ _ Hco)|].
    intros l z (es & Hz & _)%(co_ledger _ _ _ _ _ _ _ Hco). by eapply Hlow'. }
  exists R', cs'. split_and!; try done; [|auto].
  eapply (core_drop _ _ _ _ _ _ _ _ _ _ _ _ (commit_id t) (undo_buffer t)); try done.
  - intros x. apply live_cons_recent.
  - intros ([z es] & E' & Hz)%list_elem_of_fmap. simpl in E'. subst z. apply Hlow in Hz. lia.
  - apply Hco.
  - set_solver.
Qed.
End moves.

Section ends.
Context {CS E Q : Type} `{!CatalogUndo CS E Q, !CatalogLaws CS E Q}.

Lemma active_middle R (cs : CS) H a1 t a2 recent old ts :
  core R cs H (a1 ++ t :: a2) recent old ts →
  NoDup (transaction_id <$> a1 ++ a2) ∧ (a1 ++ a2) ⊆ (a1 ++ t :: a2) ∧
  (transaction_id t ∉ (live (a1 ++ a2) recent).*1) ∧
  (TRANSACTION_ID_START ≤ transaction_id t)%Z ∧
  (transaction_id t, undo_buffer t) ∈ live (a1 ++ t :: a2) recent.
Proof.
  intros Hco. pose proof (co_ids _ _ _ _ _ _ _ Hco) as Hnd. rewrite fmap_app in Hnd. csimpl in Hnd.
  assert (t ∈ a1 ++ t :: a2) as Ht by set_solver.
  destruct (co_active _ _ _ _ _ _ _ Hco t Ht) as [Hid _].
  apply NoDup_app in Hnd as (Hn1 & Hx & [Ht2 Hn2]%NoDup_cons).
  split_and!; try done.
  - rewrite fmap_app. apply NoDup_app. split_and!; try done. set_solver.
  - set_solver.
  - intros ([z es] & E' & [(t' & Ht' & -> & _)|(t' & Ht' & -> & _)]%elem_of_live)%list_elem_of_fmap;
      simpl in E'.
    + apply elem_of_app in Ht' as [Ht'|Ht'].
      * apply (Hx (transaction_id t)); [|left]. rewrite E'. by apply list_elem_of_fmap_2.
      * apply Ht2. rewrite E'. by apply list_elem_of_fmap_2.
    + pose proof (co_recent _ _ _ _ _ _ _ Hco _ Ht'). lia.
  - apply live_middle_active. by left.
Qed.

(** A transaction that is rolled back. *)
Lemma core_rollback R (cs : CS) H a1 t a2 recent old ts :
  core R cs H (a1 ++ t :: a2) recent old ts →
  ∃ R' cs' es', UndoBuffer_Rollback (mkUState R cs) (undo_buffer t) = Ok (mkUState R' cs', es') ∧
    (∀ q, (0 < q)%Z → core R' cs' (hdrop H (undo_locs t)) (a1 ++ a2) recent
       (old ++ [set_highest_active_query q (set_undo_buffer es' t)]) ts) ∧
    tables R' = tables R ∧ places R R' ∧
    ∀ tx, sees tx (transaction_id t) = false →
      same_view tx R R' H (hdrop H (undo_locs t)) ∧ same_catalog tx cs cs'.
Proof.
  intros Hco. destruct (active_middle _ _ _ _ _ _ _ _ _ Hco) as (Hnd & Hsub & Hnot & Hid & Hin).
  destruct (co_entries _ _ _ _ _ _ _ Hco _ _ Hin) as [Hok Hs].
  destruct (rollback_cats_spec (omap entry_cat (undo_buffer t)) cs (transaction_id t)
    (co_cat _ _ _ _ _ _ _ Hco) Hid []) as (cs' & Hcs & Hwf & Hbel & Hno & Hoth & Hcv).
  { by apply (co_cats _ _ _ _ _ _ _ Hco). }
  destruct (UndoBuffer_Rollback_spec (undo_buffer t) R H (transaction_id t) cs cs')
    as (R' & es' & Hrb & Hlocs & _ & Ht & Hnv & Hl & Hd & Hi & Hp & Hv); try done; try apply Hco.
  { split; intros l; [intros Hx; by apply (live_linked _ _ _ _ _ _ _ Hco _ _ l Hin)|].
    intros Hx. left. by apply (live_linked _ _ _ _ _ _ _ Hco _ _ l Hin). }
  exists R', cs', es'. split_and!; try done; [|auto]. intros q Hq.
  eapply (core_drop _ _ _ _ _ _ _ _ _ _ _ _ (transaction_id t) (undo_buffer t)); try done.
  - intros x. apply live_middle_active.
  - apply Hco.
Qed.

Lemma live_commit a1 t a2 recent cid x :
  x ∈ live (a1 ++ a2) (recent ++ [set_commit_id cid t]) ↔
  x = (cid, undo_buffer t) ∨ x ∈ live (a1 ++ a2) recent.
Proof. unfold live. rewrite !fmap_app. csimpl. rewrite !elem_of_app, list_elem_of_singleton. tauto. Qed.

(** The nodes of a running transaction get its commit number. *)
Lemma core_stamp R (cs : CS) H a1 t a2 recent old ts R' cs' :
  core R cs H (a1 ++ t :: a2) recent old ts → (0 < ts < TRANSACTION_ID_START)%Z →
  ts ∉ (live (a1 ++ t :: a2) recent).*1 →
  let H' := hstamp H (undo_locs t) ts in
  links_wf R' H' → data_wf R' H' → inserts_last H' → next_version R' = next_version R →
  cat_wf cs' → cat_below cs' (ts + 1) → cat_owns cs' (transaction_id t) [] → cat_owns cs' ts (omap entry_cat (undo_buffer t)) →
  (∀ z ks', z ≠ transaction_id t → z ≠ ts → cat_owns cs z ks' ↔ cat_owns cs' z ks') →
  core R' cs' H' (a1 ++ a2) (recent ++ [set_commit_id ts t]) old (ts + 1).
Proof.
  intros Hco Hts Hfresh H' Hl Hd Hi Hnv Hwf Hbel Hno Hown Hoth.
  destruct (active_middle _ _ _ _ _ _ _ _ _ Hco) as (Hnd & Hsub & Hnot & Hid & Hin).
  destruct (co_entries _ _ _ _ _ _ _ Hco _ _ Hin) as [Hok Hs].
  assert (∀ z es, (z, es) ∈ live (a1 ++ a2) recent → z ≠ transaction_id t ∧ z ≠ ts) as Hne.
  { intros z es Hz. split; intros ->.
    - apply Hnot. change (transaction_id t) with ((transaction_id t, es).1). by apply list_elem_of_fmap_2.
    - apply Hfresh. change ts with ((ts, es).1). apply list_elem_of_fmap_2, live_middle_active. by right. }
  constructor; try done.
  - intros t' Ht'. destruct (co_active _ _ _ _ _ _ _ Hco t' (Hsub _ Ht')). lia.
  - intros t' [Ht'| ->%list_elem_of_singleton]%elem_of_app; [|simpl; lia].
    pose proof (co_recent _ _ _ _ _ _ _ Hco _ Ht'). lia.
  - rewrite fmap_app. apply StronglySorted_app_2; [|apply Hco|by repeat constructor].
    intros z z' (t' & -> & Ht')%list_elem_of_fmap ->%list_elem_of_singleton. simpl.
    pose proof (co_recent _ _ _ _ _ _ _ Hco _ Ht'). lia.
  - intros z es [[= -> ->]|Hz]%live_commit; [done|]. apply (co_entries _ _ _ _ _ _ _ Hco z).
    apply live_middle_active. by right.
  - intros l z. unfold H'. rewrite linked_hstamp. setoid_rewrite live_commit. split.
    + intros (z' & Hz' & E'). case_decide as Hd'; [subst z; exists (undo_buffer t); eauto|]. subst z'.
      apply (co_ledger _ _ _ _ _ _ _ Hco) in Hz' as (es & [[= -> ->]|Hz]%live_middle_active & Hl'); [done|eauto].
    + intros (es & [[= -> ->]|Hz] & Hl').
      * exists (transaction_id t). rewrite decide_True by done. split; [|done].
        by apply (live_linked _ _ _ _ _ _ _ Hco _ _ l Hin).
      * exists z. assert (linked H l z) as Hlk.
        { apply (co_ledger _ _ _ _ _ _ _ Hco). exists es. split; [apply live_middle_active; by right|done]. }
        split; [done|]. rewrite decide_False; [done|].
        intros Hx%(live_linked _ _ _ _ _ _ _ Hco _ _ l Hin). destruct (Hne z es Hz) as [Hz' _]. apply Hz'.
        eapply linked_unique; [apply Hco|exact Hlk|exact Hx].
  - intros t' Ht'. destruct (co_old _ _ _ _ _ _ _ Hco t' Ht') as [Hq Hlt]. split; [done|]. intros l Hl'.
    destruct (Hlt l Hl') as [Hn Hx]. rewrite Hnv. split; [done|].
    intros z (z' & Hz' & _)%linked_hstamp. by eapply Hx.
  - intros z es [[= -> ->]|Hz]%live_commit; [done|]. destruct (Hne z es Hz).
    apply Hoth; [done|done|]. apply (co_cats _ _ _ _ _ _ _ Hco), live_middle_active. by right.
  - intros z Hz. destruct (decide (z = transaction_id t)) as [->|Hz1]; [done|].
    assert (z ≠ ts) as Hz2.
    { intros ->. apply Hz. change ts with ((ts, undo_buffer t).1).
      apply list_elem_of_fmap_2, live_commit. by left. }
    apply Hoth; [done|done|]. apply (co_nocats _ _ _ _ _ _ _ Hco).
    intros ([z' es] & -> & [[= -> ->]|Hx]%live_middle_active)%list_elem_of_fmap; [done|].
    apply Hz, list_elem_of_fmap_2, live_commit. by right.
Qed.

(** A transaction that commits. *)
Lemma core_commit R (cs : CS) H a1 t a2 recent old ts (log : bool) :
  core R cs H (a1 ++ t :: a2) recent old ts → (ts < TRANSACTION_ID_START)%Z →
  ∃ R' cs' logged, UndoBuffer_Commit (mkUState R cs) log (undo_buffer t) ts = Ok (mkUState R' cs', logged) ∧
    (is_Some logged ↔ log = true) ∧
    core R' cs' (hstamp H (undo_locs t) ts) (a1 ++ a2) (recent ++ [set_commit_id ts t]) old (ts + 1) ∧
    chunks R' = chunks R ∧ same_layout R R' ∧
    ∀ tx, sees tx (transaction_id t) = sees tx ts → same_catalog tx cs cs'.
Proof.
  intros Hco Hts. destruct (active_middle _ _ _ _ _ _ _ _ _ Hco) as (Hnd & Hsub & Hnot & Hid & Hin).
  destruct (co_entries _ _ _ _ _ _ _ Hco _ _ Hin) as [Hok Hs].
  assert (0 < ts)%Z as Hpos by (destruct (co_active _ _ _ _ _ _ _ Hco t ltac:(set_solver)); lia).
  assert (∀ z es, (z, es) ∈ live (a1 ++ t :: a2) recent → (z < TRANSACTION_ID_START)%Z → (z < ts)%Z) as Hlow.
  { intros z es Hz Hlt. destruct (live_range _ _ _ _ _ _ _ Hco _ _ Hz); lia. }
  assert (ts ∉ (live (a1 ++ t :: a2) recent).*1) as Hfresh.
  { intros ([z es] & E' & Hz)%list_elem_of_fmap. simpl in E'. subst z. apply Hlow in Hz; lia. }
  destruct (cat_commit_ok cs (transaction_id t) ts (omap entry_cat (undo_buffer t)) log)
    as (cs' & Hcs & Hwf & Hbel & Hno & Hown & Hoth & Hcv);
    [apply Hco|done|done|apply Hco|by apply (co_cats _ _ _ _ _ _ _ Hco)|
     by apply (co_nocats _ _ _ _ _ _ _ Hco)|].
  destruct (UndoBuffer_Commit_spec (undo_buffer t) R H (transaction_id t) ts cs cs' log)
    as (R' & logged & Hc & Hlog & Hch & Hnv & Hlay & Hl & Hd & Hi); try done; try apply Hco.
  { split; [intros l; by apply (live_linked _ _ _ _ _ _ _ Hco)|].
    intros l z (es & Hz & _)%(co_ledger _ _ _ _ _ _ _ Hco) Hlt. apply Hlow in Hz; lia. }
  exists R', cs', logged. split_and!; try done; [by eapply core_stamp|].
  intros tx Htx s name. by apply Hcv.
Qed.
End ends.

(** ** Garbage collection *)

Lemma lowest_le f init ts t : t ∈ ts → (lowest f init ts ≤ f t)%Z.
Proof.
  unfold lowest. revert init. induction ts as [|x ts IH]; [set_solver|]. intros init. simpl.
  assert (∀ l z, foldl (fun z t => Z.min z (f t)) z l ≤ z)%Z as Hle.
  { induction l as [|y l IHl]; simpl; intros z; [lia|]. specialize (IHl (Z.min z (f y))). lia. }
  intros [->|Hin]%elem_of_cons; [|by apply IH]. specialize (Hle ts (Z.min init (f x))). lia.
Qed.

Lemma freeable_spec low old :
  (∀ t, t ∈ old → 0 < highest_active_query t)%Z →
  ∃ freed kept, freeable low old = Ok (freed, kept) ∧ old = freed ++ kept ∧
    Forall (fun t => highest_active_query t < low)%Z freed.
Proof.
  induction old as [|t old IH]; intros Hpos; [exists [], []; split_and!; by try constructor|].
  cbn [freeable]. assert (0 < highest_active_query t)%Z as Hq by (apply Hpos; left).
  rewrite (proj2 (Z.ltb_lt _ _) Hq). run. destruct (Z.leb_spec low (highest_active_query t)).
  - exists [], (t :: old). by split_and!.
  - destruct IH as (freed & kept & Hf & -> & Hlow); [intros; apply Hpos; by right|].
    exists (t :: freed), kept. rewrite Hf. run. split_and!; try done. by constructor.
Qed.

Section collect.
Context {CS E Q : Type} `{!CatalogUndo CS E Q, !CatalogLaws CS E Q}.

(** What every transaction of [txs] reads is the same in both states. *)
Definition unchanged (txs : Transaction → Prop) (R R' : rows) (H H' : hist) (cs cs' : CS) : Prop :=
  ∀ tx, txs tx → same_view tx R R' H H' ∧ same_catalog tx cs cs'.

Lemma unchanged_refl txs R H cs : unchanged txs R R H H cs cs.
Proof. intros tx _. split; [apply same_view_refl|done]. Qed.

Lemma unchanged_trans txs R1 R2 R3 H1 H2 H3 cs1 cs2 cs3 :
  unchanged txs R1 R2 H1 H2 cs1 cs2 → unchanged txs R2 R3 H2 H3 cs2 cs3 →
  unchanged txs R1 R3 H1 H3 cs1 cs3.
Proof.
  intros U1 U2 tx Htx. destruct (U1 tx Htx) as [V1 C1], (U2 tx Htx) as [V2 C2]. split.
  - by eapply same_view_trans.
  - intros s name. by rewrite (C2 s name).
Qed.

(** The loop over the recently committed transactions takes a prefix of them,
    and no transaction that started later than those notices. *)
Lemma collect_spec recent : ∀ R (cs : CS) H active old ts low q,
  core R cs H active recent old ts → (0 < q)%Z →
  ∃ R' cs' H' gone recent',
    collect (mkUState R cs) low q recent old
      = Ok (mkUState R' cs', recent', old ++ (set_highest_active_query q <$> gone)) ∧
    recent = gone ++ recent' ∧ Forall (fun t => commit_id t < low)%Z gone ∧
    (∀ t, head recent' = Some t → (low ≤ commit_id t)%Z) ∧
    core R' cs' H' active recent' (old ++ (set_highest_active_query q <$> gone)) ts ∧
    tables R' = tables R ∧ places R R' ∧
    unchanged (fun tx => low ≤ start_time tx ∨ ts ≤ start_time tx)%Z R R' H H' cs cs'.
Proof.
  induction recent as [|t recent IH]; intros R cs H active old ts low q Hco Hq; cbn [collect].
  { exists R, cs, H, [], []. csimpl. rewrite app_nil_r. split_and!; auto using places_refl, unchanged_refl. done. }
  destruct (Z.ltb_spec (commit_id t) low) as [Hlt|Hge].
  - destruct (core_cleanup R cs H active t recent old ts q Hco Hq) as (R1 & cs1 & Hcl & Hco1 & Ht1 & Hp1 & Hu1).
    destruct (IH R1 cs1 _ active _ ts low q Hco1 Hq)
      as (R' & cs' & H' & gone & recent' & Hcol & -> & Hgone & Hhd & Hco' & Ht' & Hp' & Hu').
    exists R', cs', H', (t :: gone), recent'. rewrite Hcl. run. csimpl. rewrite <- app_assoc in Hcol, Hco'.
    split_and!; try done; [by constructor|by rewrite Ht'|by eapply places_trans|].
    eapply unchanged_trans; [|exact Hu']. intros tx Htx. apply Hu1. unfold sees.
    pose proof (co_recent _ _ _ _ _ _ _ Hco t ltac:(left)).
    rewrite (proj2 (Z.ltb_lt _ _)) by lia. apply orb_true_r.
  - exists R, cs, H, [], (t :: recent). csimpl. rewrite app_nil_r.
    split_and!; auto using places_refl, unchanged_refl. by intros ? [= <-].
Qed.

(** Buffers to which nothing points can be freed. *)
Lemma core_free R (cs : CS) H active recent freed kept ts :
  core R cs H active recent (freed ++ kept) ts →
  core (free_versions R (concat (buffer_versions ∘ undo_buffer <$> freed))) cs H active recent kept ts.
Proof.
  intros Hco. set (ls := concat _).
  assert (∀ l z, linked H l z → l ∉ ls) as Hkeep.
  { intros l z Hlk (ks & Hks & Hl)%list_elem_of_In%in_concat.
    apply list_elem_of_In, list_elem_of_fmap in Hks as (t & -> & Ht). apply list_elem_of_In in Hl.
    destruct (co_old _ _ _ _ _ _ _ Hco t) as [_ Hx]; [apply elem_of_app; by left|].
    by destruct (Hx l Hl) as [_ Hno]; eapply Hno. }
  destruct Hco as [Hl Hd ? ? ? ? ? ? ? Hold ? ? ? ?]. constructor; try done.
  - destruct Hl as [Hrow ? ? Hfresh]. constructor; try done.
    + intros cp c r Hc. destruct (Hrow cp c r Hc) as [Hrep Hp]. split; [|done].
      eapply rep_ext; [|exact Hrep]. intros n Hn. simpl. apply lookup_foldr_delete_not_elem_of.
      eapply Hkeep. by exists cp, r, n.
    + intros l vi. simpl. intros Hl. destruct (decide (l ∈ ls)) as [Hin|Hnot].
      * by rewrite lookup_foldr_delete in Hl.
      * rewrite lookup_foldr_delete_not_elem_of in Hl by done. by eapply Hfresh.
  - destruct Hd as [? ? ? ? ? ? Hlist]. constructor; try done.
    intros tp tbl Ht. destruct (Hlist tp tbl Ht) as (cps & Hhd & Hcps). exists cps. split; [done|].
    eapply chunk_list_wf_ext; [|exact Hcps]. intros cp c _ Hc. exists c. by repeat split.
  - intros t Ht. apply Hold. apply elem_of_app. by right.
Qed.

Lemma free_view R H tx ls : same_view tx R (free_versions R ls) H H.
Proof. done. Qed.

(** The transaction behind a pointer, and the list without it. *)
Lemma find_middle a1 t a2 :
  transaction_id t ∉ transaction_id <$> a1 → transaction_id t ∉ transaction_id <$> a2 →
  find_transaction (transaction_id t) (a1 ++ t :: a2) = Some (length a1, t) ∧
  filter (fun t' => transaction_id t' ≠ transaction_id t) (a1 ++ t :: a2) = a1 ++ a2 ∧
  delete (length a1) (a1 ++ t :: a2) = a1 ++ a2.
Proof.
  intros H1 H2. split_and!.
  - unfold find_transaction. rewrite list_find_app_r.
    + cbn [list_find]. rewrite decide_True by done. done.
    + apply list_find_None, Forall_forall. intros x Hx Heq. apply H1. rewrite <- Heq.
      by apply list_elem_of_fmap_2.
  - rewrite filter_app, filter_cons_False by (intros Hx; by apply Hx).
    f_equal; apply filter_all; intros x Hx Heq;
      [apply H1|apply H2]; rewrite <- Heq; by apply list_elem_of_fmap_2.
  - induction a1 as [|x a1 IH]; [done|]. cbn [length app delete list_delete]. f_equal. apply IH.
    csimpl in H1. set_solver.
Qed.
End collect.

(** ** Ending a transaction *)

Section database.
Context {CS E Q : Type} `{!CatalogUndo CS E Q, !CatalogLaws CS E Q}.
Implicit Types db : Database CS E Q.

Record db_inv db (H : hist) : Prop := {
  inv_core : core (db_rows db) (db_catalog db) H (active_transactions (db_tm db))
    (recently_committed_transactions (db_tm db)) (old_transactions (db_tm db))
    (current_start_timestamp (db_tm db));
  inv_ids : ∀ t, t ∈ active_transactions (db_tm db) →
    (transaction_id t < current_transaction_id (db_tm db))%Z;
  inv_next_id : (TRANSACTION_ID_START ≤ current_transaction_id (db_tm db))%Z;
  inv_time : (0 ≤ current_start_timestamp (db_tm db) ≤ TRANSACTION_ID_START)%Z;
  inv_query : (0 < current_query_number (db_tm db))%Z;
  inv_quiet : active_transactions (db_tm db) = [] →
    recently_committed_transactions (db_tm db) = [] ∧ old_transactions (db_tm db) = [] }.

(** The transactions that run, or may start from now on. *)
Definition observer db (tx : Transaction) : Prop :=
  tx ∈ active_transactions (db_tm db) ∨ (current_start_timestamp (db_tm db) ≤ start_time tx)%Z.

(** What is left of a database when a transaction has ended. *)
Record ended db db' (active : list Transaction) : Prop := {
  en_active : active_transactions (db_tm db') = active;
  en_time : current_start_timestamp (db_tm db') = current_start_timestamp (db_tm db);
  en_id : current_transaction_id (db_tm db') = current_transaction_id (db_tm db);
  en_query : current_query_number (db_tm db') = current_query_number (db_tm db);
  en_log : db_log db' = db_log db;
  en_tables : tables (db_rows db') = tables (db_rows db);
  en_places : places (db_rows db) (db_rows db') }.

Lemma RemoveTransaction_spec db H a1 t a2 recent old :
  let tm := db_tm db in
  active_transactions tm = a1 ++ t :: a2 →
  transaction_id t ∉ transaction_id <$> a1 → transaction_id t ∉ transaction_id <$> a2 →
  (if (commit_id t =? 0)%Z
   then (recently_committed_transactions tm,
         old_transactions tm ++ [set_highest_active_query (current_query_number tm) t])
   else (recently_committed_transactions tm ++ [t], old_transactions tm)) = (recent, old) →
  core (db_rows db) (db_catalog db) H (a1 ++ a2) recent old (current_start_timestamp tm) →
  (0 < current_query_number tm)%Z →
  ∃ db' H', RemoveTransaction db (transaction_id t) = Ok db' ∧ ended db db' (a1 ++ a2) ∧
    core (db_rows db') (db_catalog db') H' (a1 ++ a2) (recently_committed_transactions (db_tm db'))
      (old_transactions (db_tm db')) (current_start_timestamp tm) ∧
    (a1 ++ a2 = [] → recently_committed_transactions (db_tm db') = [] ∧ old_transactions (db_tm db') = []) ∧
    unchanged (observer db') (db_rows db) (db_rows db') H H' (db_catalog db) (db_catalog db').
Proof.
  intros tm Hact H1 H2 Hmove Hco Hq.
  destruct (find_middle a1 t a2 H1 H2) as (Hfind & Hfilter & Hdel).
  destruct (collect_spec recent _ _ _ _ _ _ (lowest start_time TRANSACTION_ID_START (a1 ++ a2)) _ Hco Hq)
    as (R1 & cs1 & H' & gone & recent' & Hcol & _ & _ & Hhd & Hco' & Htab & Hpl & Hun).
  set (old' := old ++ (set_highest_active_query (current_query_number tm) <$> gone)) in *.
  assert (∃ freed kept, (if length (a1 ++ a2) =? 0 then Ok (old', [])
     else freeable (lowest active_query MAXIMUM_QUERY_ID (a1 ++ a2)) old') = Ok (freed, kept) ∧
     old' = freed ++ kept ∧ (a1 ++ a2 = [] → kept = [])) as (freed & kept & Hfree & Hsplit & Hkept).
  { destruct (Nat.eqb_spec (length (a1 ++ a2)) 0) as [|Hne]; [exists old', []; rewrite app_nil_r; by split_and!|].
    destruct (freeable_spec (lowest active_query MAXIMUM_QUERY_ID (a1 ++ a2)) old') as (f & k & Hf & Hs & _);
      [|exists f, k; split_and!; try done; intros Hn; by rewrite Hn in Hne].
    intros x Hx. by apply (co_old _ _ _ _ _ _ _ Hco'). }
  eexists _, H'. split.
  { unfold RemoveTransaction. fold tm. rewrite Hact, Hfind. run. rewrite Hfilter, Hdel, Hmove.
    unfold db_ustate. rewrite Hcol. run. rewrite Hfree. run. reflexivity. }
  rewrite Hsplit in Hco'. split_and!.
  - by constructor.
  - simpl. by apply core_free.
  - intros Hnil. simpl. split; [|by apply Hkept]. destruct recent' as [|t' recent']; [done|]. exfalso.
    specialize (Hhd t' eq_refl). rewrite Hnil in Hhd. unfold lowest in Hhd. simpl in Hhd.
    destruct (co_recent _ _ _ _ _ _ _ Hco' t'); [left|]. lia.
  - intros tx Htx. destruct (Hun tx) as [Hv Hc].
    { destruct Htx as [Htx|Htx]; [left; by apply lowest_le|by right]. }
    split; [|done]. eapply same_view_trans; [exact Hv|]. apply free_view.
Qed.

Lemma ended_inv db db' H' active :
  ended db db' active →
  core (db_rows db') (db_catalog db') H' active (recently_committed_transactions (db_tm db'))
    (old_transactions (db_tm db')) (current_start_timestamp (db_tm db)) →
  (∀ t, t ∈ active → transaction_id t < current_transaction_id (db_tm db))%Z →
  (TRANSACTION_ID_START ≤ current_transaction_id (db_tm db))%Z →
  (0 ≤ current_start_timestamp (db_tm db) ≤ TRANSACTION_ID_START)%Z →
  (0 < current_query_number (db_tm db))%Z →
  (active = [] → recently_committed_transactions (db_tm db') = [] ∧ old_transactions (db_tm db') = []) →
  db_inv db' H'.
Proof. intros [Ha Ht Hi Hq _ _ _]. intros. constructor; rewrite ?Ha, ?Ht, ?Hi, ?Hq; done. Qed.

Lemma active_split db H t :
  db_inv db H → t ∈ active_transactions (db_tm db) →
  ∃ a1 a2, active_transactions (db_tm db) = a1 ++ t :: a2 ∧
    (transaction_id t ∉ transaction_id <$> a1) ∧ (transaction_id t ∉ transaction_id <$> a2).
Proof.
  intros Hinv (a1 & a2 & Hact)%list_elem_of_split. exists a1, a2. split; [done|].
  pose proof (co_ids _ _ _ _ _ _ _ (inv_core _ _ Hinv)) as Hnd. rewrite Hact, fmap_app in Hnd. csimpl in Hnd.
  apply NoDup_app in Hnd as (_ & Hx & [H2 _]%NoDup_cons). split; [|done]. intros H1. apply (Hx _ H1). left.
Qed.

Lemma insert_middle {A} (a1 : list A) t a2 t' : <[length a1 := t']> (a1 ++ t :: a2) = a1 ++ t' :: a2.
Proof. rewrite insert_app_r_alt, Nat.sub_diag by done. done. Qed.

(** Rolling back: no other transaction notices. *)
Lemma RollbackTransaction_spec db H t :
  db_inv db H → t ∈ active_transactions (db_tm db) →
  ∃ db' H', RollbackTransaction db (transaction_id t) = Ok db' ∧ db_inv db' H' ∧
    ended db db' (filter (fun t' => transaction_id t' ≠ transaction_id t) (active_transactions (db_tm db))) ∧
    unchanged (fun tx => observer db' tx ∧ other t tx) (db_rows db) (db_rows db') H H'
      (db_catalog db) (db_catalog db').
Proof.
  intros Hinv Ht. destruct (active_split db H t Hinv Ht) as (a1 & a2 & Hact & H1 & H2).
  destruct (find_middle a1 t a2 H1 H2) as (Hfind & Hfilter & _).
  destruct Hinv as [Hco Hids Hnid Htime Hq _]. rewrite Hact in *.
  assert (commit_id t = 0)%Z as Hcid by (apply (co_active _ _ _ _ _ _ _ Hco); set_solver).
  destruct (core_rollback _ _ _ _ _ _ _ _ _ Hco) as (R1 & cs1 & es1 & Hrb & Hco1 & Htab1 & Hpl1 & Hun1).
  set (t1 := set_undo_buffer es1 t).
  set (db1 := mkDatabase R1 cs1 (db_log db) (set_active (a1 ++ t1 :: a2) (db_tm db)) : Database CS E Q).
  destruct (RemoveTransaction_spec db1 (hdrop H (undo_locs t)) a1 t1 a2
    (recently_committed_transactions (db_tm db))
    (old_transactions (db_tm db) ++ [set_highest_active_query (current_query_number (db_tm db)) t1]) eq_refl H1 H2)
    as (db' & H' & Hrem & Hend & Hco' & Hquiet & Hun).
  { simpl. by rewrite Hcid. }
  { simpl. by apply Hco1. }
  { done. }
  exists db', H'. rewrite Hfilter. split_and!.
  - unfold RollbackTransaction. rewrite Hact, Hfind. run. unfold db_ustate. rewrite Hrb. run.
    rewrite insert_middle. exact Hrem.
  - eapply ended_inv; try done. intros t' Ht'. apply Hids. set_solver.
  - destruct Hend as [? ? ? ? ? Ht' Hp']. constructor; simpl in *; try congruence. by eapply places_trans.
  - intros tx [Hobs Ho]. destruct (Hun tx Hobs) as [Hv Hc], (Hun1 tx (other_sees _ _ Ho)) as [Hv1 Hc1].
    split; [by eapply same_view_trans|]. intros s name. by rewrite (Hc s name).
Qed.

(** ** Committing *)

(** A transaction like [tx] that also sees the uncommitted work of [t]. *)
Definition as_of (t tx : Transaction) : Transaction :=
  mkTransaction (start_time tx) (transaction_id t) 0 0 MAXIMUM_QUERY_ID [].

(** A transaction that is not running yet. *)
Definition newcomer (active : list Transaction) (ts : Z) (tx : Transaction) : Prop :=
  (ts ≤ start_time tx)%Z ∧ (TRANSACTION_ID_START ≤ transaction_id tx)%Z ∧
  transaction_id tx ∉ transaction_id <$> active.

Lemma newcomer_sees R (cs : CS) H a1 t a2 recent old ts tx z es :
  core R cs H (a1 ++ t :: a2) recent old ts → newcomer (a1 ++ a2) (ts + 1) tx →
  (z, es) ∈ live (a1 ++ t :: a2) recent →
  sees tx (if decide (z = transaction_id t) then ts else z) = sees (as_of t tx) z.
Proof.
  intros Hco (Hst & Hid & Hnew) Hz. unfold sees, as_of. simpl. case_decide as Hd.
  - subst z. rewrite Z.eqb_refl, (proj2 (Z.ltb_lt _ _)) by lia. apply orb_true_r.
  - rewrite (proj2 (Z.eqb_neq z (transaction_id t)) Hd). simpl.
    destruct (Z.eqb_spec z (transaction_id tx)) as [->|]; [|done]. exfalso.
    apply live_middle_active in Hz as [[= E' _]|Hz]; [done|].
    apply elem_of_live in Hz as [(t' & Ht' & E' & _)|(t' & Ht' & E' & _)].
    + apply Hnew. rewrite E'. by apply list_elem_of_fmap_2.
    + pose proof (co_recent _ _ _ _ _ _ _ Hco t' Ht'). lia.
Qed.

(** What is read between the stamping and the garbage collection. *)
Lemma core_commit_views R (cs : CS) H a1 t a2 recent old ts R' cs' :
  core R cs H (a1 ++ t :: a2) recent old ts → (ts < TRANSACTION_ID_START)%Z →
  core R' cs' (hstamp H (undo_locs t) ts) (a1 ++ a2) (recent ++ [set_commit_id ts t]) old (ts + 1) →
  chunks R' = chunks R →
  (∀ tx, sees tx (transaction_id t) = sees tx ts → same_catalog tx cs cs') →
  unchanged (fun tx => tx ∈ a1 ++ a2) R R' H (hstamp H (undo_locs t) ts) cs cs' ∧
  ∀ tx, newcomer (a1 ++ a2) (ts + 1) tx →
    (∀ cp r, view R' (hstamp H (undo_locs t) ts) tx cp r = view R H (as_of t tx) cp r) ∧
    (∀ s name, cat_view cs' tx s name = cat_view cs (as_of t tx) s name).
Proof.
  intros Hco Hts Hco' Hch Hcat.
  destruct (active_middle _ _ _ _ _ _ _ _ _ Hco) as (_ & Hsub & Hnot & Hid & Hin).
  assert (∀ l, linked H l (transaction_id t) ↔ l ∈ undo_locs t) as Hlk
    by (intros l; by apply (live_linked _ _ _ _ _ _ _ Hco)).
  split.
  - intros tx Htx. pose proof (co_active _ _ _ _ _ _ _ Hco tx (Hsub _ Htx)) as Hact.
    assert (transaction_id tx ≠ transaction_id t) as Hne.
    { intros E'. apply Hnot. change (transaction_id t) with ((transaction_id t, undo_buffer tx).1).
      apply list_elem_of_fmap_2, elem_of_live. left. by exists tx. }
    assert (sees tx (transaction_id t) = sees tx ts) as Hs by (unfold sees; lia).
    split; [|by apply Hcat]. intros cp r.
    apply (commit_view R R' H (undo_locs t) ts (transaction_id t)); [apply Hco|done|done|].
    intros l z _. case_decide; [by subst z|done].
  - intros tx Hnew. split.
    + apply (commit_view R R' H (undo_locs t) ts (transaction_id t)); [apply Hco|done|done|].
      intros l z (es & Hz & _)%(co_ledger _ _ _ _ _ _ _ Hco). by eapply newcomer_sees.
    + intros s name. rewrite <- (Hcat (as_of t tx)).
      * apply cat_view_ext; [apply Hco'|].
        intros z k ks (es & Hz & _)%(owns_live _ _ _ _ _ _ _ Hco').
        apply live_commit in Hz as [[= -> _]|Hz].
        { unfold sees, as_of. destruct Hnew as (? & ? & _). simpl. lia. }
        rewrite <- (newcomer_sees _ _ _ _ _ _ _ _ _ tx z es Hco Hnew);
          [|apply live_middle_active; by right].
        rewrite decide_False; [done|]. intros ->. apply Hnot.
        change (transaction_id t) with ((transaction_id t, es).1). by apply list_elem_of_fmap_2.
      * unfold sees, as_of. destruct Hnew as (? & ? & _). simpl. lia.
Qed.

Lemma layout_grows R R' : chunks R' = chunks R → same_layout R R' → grows R R'.
Proof.
  intros Hch Hlay. constructor; rewrite ?Hch.
  - intros tp tbl Ht. destruct (Hlay tp tbl Ht) as (tbl' & Ht' & ?). exists tbl'. split_and!; naive_solver.
  - intros cp c Hc. exists c. split_and!; try done. by left.
  - congruence.
Qed.

(** Committing: the running transactions do not notice; those that start
    later read what the transaction itself would have read at that time. *)
Lemma CommitTransaction_spec db H t :
  db_inv db H → t ∈ active_transactions (db_tm db) →
  (current_start_timestamp (db_tm db) < TRANSACTION_ID_START)%Z →
  ∃ db' H' logged, CommitTransaction db (transaction_id t) = Ok db' ∧ db_inv db' H' ∧
    active_transactions (db_tm db')
      = filter (fun t' => transaction_id t' ≠ transaction_id t) (active_transactions (db_tm db)) ∧
    current_start_timestamp (db_tm db') = (current_start_timestamp (db_tm db) + 1)%Z ∧
    db_log db' = (fun log => log ++ [logged]) <$> db_log db ∧ grows (db_rows db) (db_rows db') ∧
    unchanged (fun tx => tx ∈ active_transactions (db_tm db')) (db_rows db) (db_rows db') H H'
      (db_catalog db) (db_catalog db') ∧
    ∀ tx, newcomer (active_transactions (db_tm db')) (current_start_timestamp (db_tm db')) tx →
      (∀ cp r, view (db_rows db') H' tx cp r = view (db_rows db) H (as_of t tx) cp r) ∧
      (∀ s name, cat_view (db_catalog db') tx s name = cat_view (db_catalog db) (as_of t tx) s name).
Proof.
  intros Hinv Ht Hts. destruct (active_split db H t Hinv Ht) as (a1 & a2 & Hact & H1 & H2).
  destruct (find_middle a1 t a2 H1 H2) as (Hfind & Hfilter & _).
  destruct Hinv as [Hco Hids Hnid Htime Hq _]. rewrite Hact in *.
  destruct (core_commit _ _ _ _ _ _ _ _ _ (bool_decide (is_Some (db_log db))) Hco Hts)
    as (R1 & cs1 & logged & Hc & Hlog & Hco1 & Hch & Hlay & Hcat1).
  destruct (core_commit_views _ _ _ _ _ _ _ _ _ _ _ Hco Hts Hco1 Hch Hcat1) as [Hrun Hnew].
  set (ts := current_start_timestamp (db_tm db)) in *.
  assert (0 < ts)%Z as Hpos by (destruct (co_active _ _ _ _ _ _ _ Hco t Ht); lia).
  set (log1 := match db_log db, logged with Some log, Some es => Some (log ++ [es]) | log, _ => log end).
  set (db1 := mkDatabase R1 cs1 log1
    (set_active (a1 ++ set_commit_id ts t :: a2) (next_timestamp (db_tm db))) : Database CS E Q).
  destruct (RemoveTransaction_spec db1 (hstamp H (undo_locs t) ts) a1 (set_commit_id ts t) a2
    (recently_committed_transactions (db_tm db) ++ [set_commit_id ts t])
    (old_transactions (db_tm db)) eq_refl H1 H2) as (db' & H' & Hrem & Hend & Hco' & Hquiet & Hun); try done.
  { simpl. rewrite (proj2 (Z.eqb_neq ts 0)) by lia. done. }
  exists db', H', (default [] logged). rewrite Hfilter, (en_active _ _ _ Hend), (en_time _ _ _ Hend), (en_log _ _ _ Hend).
  split_and!; try done.
  - unfold CommitTransaction. cbn [active_transactions next_timestamp]. rewrite Hact, Hfind. run.
    fold ts. unfold db_ustate. rewrite Hc. run. rewrite insert_middle. exact Hrem.
  - eapply ended_inv; try done; simpl; [|lia].
    intros t' Ht'. apply Hids. set_solver.
  - simpl. unfold log1. destruct (db_log db), logged; try done. by destruct Hlog as [_ []].
  - eapply grows_trans; [by apply layout_grows|].
    apply places_grows; [apply (en_places _ _ _ Hend)|apply (en_tables _ _ _ Hend)].
  - eapply unchanged_trans; [exact Hrun|]. intros tx Htx. apply Hun. left. by rewrite (en_active _ _ _ Hend).
  - intros tx Htx. destruct (Hnew tx Htx) as [Hv Hcv]. destruct (Hun tx) as [Hv' Hcv'].
    { right. rewrite (en_time _ _ _ Hend). apply Htx. }
    split; [intros cp r; by rewrite Hv'|]. intros s name. by rewrite (Hcv' s name).
Qed.
End database.
