(* ===== verification/Database.v ===== *)
(** * The database as a transition system

    The steps that connections can take - start a transaction, run a table
    operation or a query in it, create a table, commit, roll back - and what
    holds in every state they can reach: the invariant of the transaction
    manager, and that a transaction reads the same rows from its start to its
    end except for its own changes. *)

From Stdlib Require Import ZArith Lia.
From stdpp Require Import base gmap list strings option numbers sorting relations.
From S2P Require Import Prelude Types Vector Tuple Storage Versions DataTable TableScan TableOps TableAppend WriteAheadLog UndoBuffer UndoProofs TransactionManager TransactionProofs.

(** ** Creating a table *)

Section new_table.
Context (R R' : rows) (H : hist) (tp : nat) (schema table : string) (types : list TypeId).
Context (Hl : links_wf R H) (Hd : data_wf R H) (Hnone : tables R !! tp = None).
Context (Hnew : NewDataTable R tp schema table types = Ok R').

Lemma new_table_fresh :
  chunks R !! next_chunk R = None ∧
  ∀ cp c, chunks R !! cp = Some c → cp ≠ next_chunk R ∧ sc_table c ≠ tp.
Proof using All.
  assert (chunks R !! next_chunk R = None) as Hfresh.
  { destruct (chunks R !! next_chunk R) as [c|] eqn:Hc; [|done]. apply (dw_fresh _ _ Hd) in Hc. lia. }
  split; [done|]. intros cp c Hc. split; [congruence|]. intros E.
  destruct (dw_table _ _ Hd _ _ Hc) as (tbl & Ht & _). congruence.
Qed.

Lemma new_table_heap : ∃ t, table_ok t ∧ dt_types t = types ∧ dt_chunk_list t = next_chunk R ∧
  dt_tail_chunk t = next_chunk R ∧ dt_schema t = schema ∧ dt_table t = table ∧
  R' = mkRows (versions R) (<[next_chunk R := NewStorageChunk tp types 0]> (chunks R))
         (<[tp := t]> (tables R)) (next_version R) (S (next_chunk R)).
Proof using All.
  unfold NewDataTable in Hnew. apply bind_Ok in Hnew as (sizes & Hsz & Hser).
  apply bind_Ok in Hser as (ser & Hser & HR). injection HR as <-.
  exists (mkDataTable schema table types ser (sum_list sizes) (accumulate sizes 0) 0 (next_chunk R) (next_chunk R)).
  split; [|by split_and!]. split; [done|]. simpl. apply table_serializer_inv in Hser as [_ Hs%mapM_Ok]. congruence.
Qed.

Lemma new_table_cases cp c :
  chunks R' !! cp = Some c →
  (cp = next_chunk R ∧ c = NewStorageChunk tp types 0) ∨ (cp ≠ next_chunk R ∧ chunks R !! cp = Some c).
Proof using All.
  destruct new_table_heap as (t & _ & _ & _ & _ & _ & _ & ->). simpl. rewrite lookup_insert_Some. naive_solver.
Qed.

Lemma new_table_tables :
  ∃ t, tables R' !! tp = Some t ∧ table_ok t ∧ dt_types t = types ∧
    table_list R' tp t [next_chunk R] ∧
    ∀ tp', tp' ≠ tp → tables R' !! tp' = tables R !! tp'.
Proof using All.
  destruct new_table_heap as (t & Hok & Hty & Hcl & Htl & _ & _ & HR'). exists t. rewrite HR'. simpl.
  rewrite lookup_insert_eq. split_and!; try done.
  - split; [by rewrite Hcl|]. eexists. simpl. rewrite lookup_insert_eq. by repeat split; rewrite ?Htl.
  - intros tp' Hne. by rewrite lookup_insert_ne.
Qed.

Lemma new_table_links : links_wf R' H.
Proof using All.
  destruct new_table_fresh as [Hfresh _]. destruct Hl as [Hrow Hno Hs Hf].
  destruct new_table_heap as (t & _ & _ & _ & _ & _ & _ & HR'). constructor; try done.
  - intros cp c r [[-> ->]|[_ Hc]]%new_table_cases; [|rewrite HR'; by apply Hrow].
    rewrite Hno by done. split; [done|]. apply lookup_empty.
  - intros cp r. rewrite HR'. simpl. intros [? _]%lookup_insert_None. by apply Hno.
  - rewrite HR'. done.
Qed.

Lemma new_table_data : data_wf R' H.
Proof using All.
  destruct new_table_fresh as [Hfresh Hold]. destruct Hd as [Dt Dr Do Du Dc Df Dl].
  destruct new_table_tables as (t & Ht & Hok & Hty & Hlist & Hother).
  pose proof (lw_nochunk _ _ Hl) as Hno. constructor.
  - intros cp c [[-> ->]|[_ Hc]]%new_table_cases.
    + exists t. simpl. rewrite length_fmap, Hty. by split_and!.
    + rewrite Hother by (by eapply Hold). by eapply Dt.
  - intros cp c tbl r [[-> ->]|[_ Hc]]%new_table_cases; [simpl; lia|].
    rewrite Hother by (by eapply Hold). by eapply Dr.
  - intros cp c tbl r n o [[-> ->]|[_ Hc]]%new_table_cases.
    + rewrite Hno by done. by intros _ ?%not_elem_of_nil.
    + rewrite Hother by (by eapply Hold). by eapply Do.
  - intros cp c r [[-> ->]|[_ Hc]]%new_table_cases; [|by eapply Du]. intros _.
    split; [by apply Hno|]. simpl. set_solver.
  - intros cp c [[-> ->]|[_ Hc]]%new_table_cases; [simpl; lia|by eapply Dc].
  - destruct new_table_heap as (t' & _ & _ & _ & _ & _ & _ & HR').
    intros cp c Hc. apply new_table_cases in Hc. rewrite HR'. simpl.
    destruct Hc as [[-> ->]|[_ Hc]]; [lia|]. apply Df in Hc. lia.
  - intros tp' tbl Ht'. destruct (decide (tp = tp')) as [<-|Hne].
    + rewrite Ht in Ht'. injection Ht' as <-. eauto.
    + rewrite Hother in Ht' by done. destruct (Dl tp' tbl Ht') as (cps & Hhd & Hcps).
      exists cps. split; [done|]. eapply chunk_list_wf_ext; [|exact Hcps].
      intros cp c _ Hc. exists c. destruct new_table_heap as (t' & _ & _ & _ & _ & _ & _ & ->). simpl.
      rewrite lookup_insert_ne by (apply not_eq_sym; by eapply Hold). by repeat split.
Qed.

Lemma new_table_grows : grows R R'.
Proof using All.
  destruct new_table_fresh as [Hfresh Hold]. destruct new_table_tables as (t & _ & _ & _ & _ & Hother).
  constructor.
  - intros tp' tbl Ht'. rewrite Hother by congruence. eauto.
  - intros cp c Hc. exists c. destruct new_table_heap as (t' & _ & _ & _ & _ & _ & _ & ->). simpl.
    rewrite lookup_insert_ne by (apply not_eq_sym; by eapply Hold). split_and!; try done. by left.
  - intros cp c Hc [[-> ->]|[_ Hc']]%new_table_cases; [done|congruence].
Qed.

Lemma new_table_view tx : same_view tx R R' H H.
Proof using All.
  destruct new_table_fresh as [Hfresh _]. intros cp r. unfold view.
  destruct new_table_heap as (t & _ & _ & _ & _ & _ & _ & ->). cbn [chunks].
  destruct (decide (cp = next_chunk R)) as [->|Hne].
  - rewrite lookup_insert_eq, Hfresh. cbn [sc_count NewStorageChunk]. case_decide; [lia|done].
  - by rewrite lookup_insert_ne.
Qed.
End new_table.

(** ** A history is determined by the heap *)

Lemma rep_unique vs tbl lk ns ns' :
  rep vs tbl lk ns → rep vs tbl lk ns' → head_loc ns = head_loc ns' → ns = ns'.
Proof.
  revert lk ns'. induction ns as [|n ns IH]; intros lk [|n' ns'] Hr Hr' Hhd; try done.
  unfold head_loc in Hhd. simpl in Hhd. injection Hhd as Hloc.
  destruct Hr as [Hn Hr], Hr' as [Hn' Hr']. rewrite Hloc, Hn' in Hn.
  injection Hn as Hnext Hnum Hold. rewrite Hloc in Hr.
  rewrite (IH _ ns' Hr Hr') by done. f_equal. destruct n, n'. simpl in *. congruence.
Qed.

Lemma hist_unique R H H' : links_wf R H → links_wf R H' → ∀ cp r, H cp r = H' cp r.
Proof.
  intros Hl Hl' cp r. destruct (chunks R !! cp) as [c|] eqn:Hc.
  - destruct (lw_row _ _ Hl cp c r Hc) as [Hr Hp], (lw_row _ _ Hl' cp c r Hc) as [Hr' Hp'].
    eapply rep_unique; [exact Hr|exact Hr'|congruence].
  - by rewrite (lw_nochunk _ _ Hl), (lw_nochunk _ _ Hl').
Qed.

(** ** Table operations in any outcome *)

Section outcomes.
Context {IX : Type} `{!TableIndexes IX}.
Implicit Types s : tstate IX.

(** What a table operation of [st_tx s] does to the rows, whether it returns
    or throws. *)
Definition acted s s' (H H' : hist) : Prop :=
  extends (st_tx s) (st_tx s') (st_rows s) (st_rows s') H H'.

Lemma acted_idle s s' H :
  wf_state s H → st_tx s' = st_tx s → st_rows s' = st_rows s → acted s s' H H ∧ same_views s s' H H.
Proof.
  intros (Hl & Hd & _) Et Er. unfold acted, same_views. rewrite Et, Er.
  split; [by apply extends_refl|]. intros tx' _. apply same_view_refl.
Qed.

Lemma Append_outcome s H tp t info chunk r s' :
  wf_state s H → tables (st_rows s) !! tp = Some t → chunk_ok (dt_types t) chunk →
  chunk_size chunk ≤ STANDARD_VECTOR_SIZE →
  Append tp info chunk s = (r, s') → r ≠ Undef →
  ∃ H', acted s s' H H' ∧ same_views s s' H H'.
Proof.
  intros Hwf Ht Hok Hsize Happ Hr. pose proof Happ as Happ0.
  unfold Append in Happ. destruct (Nat.eqb_spec (chunk_size chunk) 0) as [|Hpos].
  { injection Happ as <- <-. exists H. by apply acted_idle. }
  destruct (Nat.eqb_spec (column_count chunk) (length (tc_columns info))) as [Hcol|]; simpl negb in Happ; cbv iota in Happ;
    [|injection Happ as <- <-; exists H; by apply acted_idle].
  assert (∃ c, chunks (st_rows s) !! dt_tail_chunk t = Some c) as [c Hc].
  { destruct Hwf as (_ & Hd & _). destruct (dw_list _ _ Hd _ _ Ht) as (cps & _ & Hlist).
    destruct (chunk_list_last _ _ _ _ _ Hlist) as (c & Hc & _). eauto. }
  destruct (VerifyConstraints (tc_constraints info) chunk) as [[]|e|] eqn:Hcons;
    [|injection Happ as <- <-; exists H; by apply acted_idle|by injection Happ as <- <-].
  run_in Happ. rewrite Ht in Happ. run_in Happ. rewrite Hc in Happ.
  run_in Happ.
  destruct (tail_chunk (st_rows s) H tp t c (proj1 (proj2 Hwf)) Ht Hc) as (_ & Hnext & _).
  rewrite bool_decide_eq_true_2 in Happ by done. run_in Happ.
  destruct (unique_append (st_ix s) (st_tx s) (st_rows s) chunk (sc_start c + sc_count c)) as [ix1|e|] eqn:Hu;
    [|injection Happ as <- <-; exists H; by apply acted_idle|by injection Happ as <- <-].
  unfold set_ix in Happ. run_in Happ.
  destruct (index_append _ chunk (sc_start c + sc_count c)) as [ix2|e|] eqn:Hi;
    [|injection Happ as <- <-; exists H; by apply acted_idle|by injection Happ as <- <-].
  destruct (Append_spec s H tp t c info chunk ix1 ix2) as (s1 & H' & Hrun & _ & Hex & Hv & _); try done; [lia|].
  rewrite Happ0 in Hrun. injection Hrun as -> ->. exists H'. by split.
Qed.

Lemma Update_outcome s H tp info ids column_ids updates cp rs c tbl xss r s' :
  wf_state s H → row_targets (st_rows s) tp ids cp rs →
  chunks (st_rows s) !! cp = Some c → tables (st_rows s) !! sc_table c = Some tbl →
  length column_ids = length (dc_data updates) →
  Forall2 (fun cv xs => update_values tbl cv.1 cv.2 (Exec ids 0 0) xs)
    (zip column_ids (dc_data updates)) xss →
  Update tp info ids column_ids updates s = (r, s') → r ≠ Undef →
  ∃ H', acted s s' H H' ∧ (Forall (isolated s H cp) rs → same_views s s' H H').
Proof.
  intros Hwf Htgt Hc Ht Hlen Hvals Hupd Hr. pose proof Htgt as (Hty & Hcnt & c0 & id & Hc0 & Hid & Hget & _).
  pose proof Hupd as Hupd0. unfold Update in Hupd. rewrite bool_decide_eq_true_2 in Hupd by done.
  cbn [negb] in Hupd. destruct (Nat.eqb_spec (v_count ids) 0); [done|].
  assert (∀ s1, st_tx s1 = st_tx s → st_rows s1 = st_rows s → s' = s1 →
    ∃ H', acted s s' H H' ∧ (Forall (isolated s H cp) rs → same_views s s' H H')) as Hidle.
  { intros s1 E1 E2 ->. exists H. destruct (acted_idle s s1 H Hwf E1 E2). auto. }
  destruct (VerifyConstraints (tc_constraints info) updates) as [[]|e|] eqn:Hcons;
    [|injection Hupd as <- <-; by apply (Hidle s)|by injection Hupd as <- <-].
  run_in Hupd. rewrite Hid in Hupd. run_in Hupd. rewrite Hget in Hupd.
  run_in Hupd.
  destruct (unique_update (st_ix s) (st_tx s) (st_rows s) cp column_ids updates ids) as [ix1|e|] eqn:Hu;
    [|injection Hupd as <- <-; by apply (Hidle s)|by injection Hupd as <- <-].
  unfold set_ix in Hupd. run_in Hupd.
  destruct (index_update ix1 column_ids updates ids) as [ix2|e|] eqn:Hi;
    [|injection Hupd as <- <-; eapply Hidle; [| |reflexivity]; done|by injection Hupd as <- <-].
  destruct (Update_spec s H tp info ids column_ids updates cp rs c tbl xss ix1 ix2)
    as (s1 & H' & Hrun & Hchg & Hv & _); try done.
  rewrite Hupd0 in Hrun. injection Hrun as -> ->. exists H'. split; [apply Hchg|done].
Qed.
End outcomes.

(** ** Steps *)

Section steps.
Context {CS E Q : Type} `{!CatalogUndo CS E Q, !CatalogLaws CS E Q} {IX : Type} `{!TableIndexes IX}.
Implicit Types db : Database CS E Q.
Implicit Types s : tstate IX.

(** The table operations a query plan runs; with [safe], no row is written
    that a transaction deleted which committed after the writer started. *)
Inductive table_op (safe : bool) s : M (tstate IX) unit → Prop :=
| op_append tp t info chunk :
    tables (st_rows s) !! tp = Some t → chunk_ok (dt_types t) chunk →
    chunk_size chunk ≤ STANDARD_VECTOR_SIZE → table_op safe s (Append tp info chunk)
| op_delete tp ids cp rs :
    row_targets (st_rows s) tp ids cp rs →
    (safe = true → ∀ H, links_wf (st_rows s) H → Forall (isolated s H cp) rs) →
    table_op safe s (Delete tp ids)
| op_update tp info ids column_ids updates cp rs c tbl xss :
    row_targets (st_rows s) tp ids cp rs →
    (safe = true → ∀ H, links_wf (st_rows s) H → Forall (isolated s H cp) rs) →
    chunks (st_rows s) !! cp = Some c → tables (st_rows s) !! sc_table c = Some tbl →
    length column_ids = length (dc_data updates) →
    Forall2 (fun cv xs => update_values tbl cv.1 cv.2 (Exec ids 0 0) xs)
      (zip column_ids (dc_data updates)) xss →
    table_op safe s (Update tp info ids column_ids updates).

Lemma table_op_outcome safe s H f r s' :
  wf_state s H → table_op safe s f → f s = (r, s') → r ≠ Undef →
  ∃ H', acted s s' H H' ∧ (safe = true → same_views s s' H H').
Proof.
  intros Hwf Hop Hf Hr. destruct Hop as [tp t info chunk Ht Hok Hsz|tp ids cp rs Htgt Hsafe|
    tp info ids column_ids updates cp rs c tbl xss Htgt Hsafe Hc Ht Hlen Hvals].
  - destruct (Append_outcome s H tp t info chunk r s') as (H' & ? & ?); eauto.
  - destruct (Delete_spec s H tp ids cp rs Hwf Htgt) as (s1 & H' & Hrun & Hchg & _ & Hv & _).
    rewrite Hf in Hrun. injection Hrun as -> ->. exists H'. split; [apply Hchg|]. intros Hs.
    apply Hv, Hsafe; [done|apply Hwf].
  - destruct (Update_outcome s H tp info ids column_ids updates cp rs c tbl xss r s') as (H' & ? & Hv); try done.
    exists H'. split; [done|]. intros Hs. apply Hv, Hsafe; [done|apply Hwf].
Qed.

(** Running an operation in the transaction at position [i]. *)
Definition run_op db (i : nat) (t : Transaction) (ix : IX) (f : M (tstate IX) unit) : result unit * Database CS E Q :=
  let '(r, s) := f (mkTState t (db_rows db) ix) in
  (r, mkDatabase (st_rows s) (db_catalog db) (db_log db)
        (set_active (<[i := st_tx s]> (active_transactions (db_tm db))) (db_tm db))).

Definition set_transaction db (i : nat) (t : Transaction) : Database CS E Q :=
  set_tm db (set_active (<[i := t]> (active_transactions (db_tm db))) (db_tm db)).

(** A transaction replaced the catalog entry [k]. *)
Definition cat_replaced (cs cs' : CS) (id : Z) (k : nat) : Prop :=
  cat_wf cs' ∧ (∀ z, cat_below cs z → cat_below cs' z) ∧
  (∀ ks, cat_owns cs id ks → cat_owns cs' id (ks ++ [k])) ∧
  (∀ z ks, z ≠ id → cat_owns cs z ks ↔ cat_owns cs' z ks) ∧
  (∀ tx, sees tx id = false → same_catalog tx cs cs').

(** The steps, each with the transaction that takes it. *)
Inductive step (safe : bool) : Z → Database CS E Q → Database CS E Q → Prop :=
| step_start db tm id :
    StartTransaction (db_tm db) = Ok (tm, id) → step safe id db (set_tm db tm)
| step_query db i t q tm :
    active_transactions (db_tm db) !! i = Some t → GetQueryNumber (db_tm db) = (q, tm) →
    step safe (transaction_id t) db (set_transaction (set_tm db tm) i (set_active_query q t))
| step_end_query db i t :
    active_transactions (db_tm db) !! i = Some t →
    step safe (transaction_id t) db (set_transaction db i (set_active_query MAXIMUM_QUERY_ID t))
| step_log_query db i t q :
    active_transactions (db_tm db) !! i = Some t →
    step safe (transaction_id t) db (set_transaction db i (PushQuery t q))
| step_write db db' i t ix f r :
    active_transactions (db_tm db) !! i = Some t →
    table_op safe (mkTState t (db_rows db) ix) f →
    run_op db i t ix f = (r, db') → r ≠ Undef → step safe (transaction_id t) db db'
| step_create_table db i t tp schema table types R :
    active_transactions (db_tm db) !! i = Some t → tables (db_rows db) !! tp = None →
    NewDataTable (db_rows db) tp schema table types = Ok R →
    step safe (transaction_id t) db (mkDatabase R (db_catalog db) (db_log db) (db_tm db))
| step_catalog db i t cs k :
    active_transactions (db_tm db) !! i = Some t →
    cat_replaced (db_catalog db) cs (transaction_id t) k →
    step safe (transaction_id t) db
      (mkDatabase (db_rows db) cs (db_log db)
        (set_active (<[i := PushCatalogEntry t k]> (active_transactions (db_tm db))) (db_tm db)))
| step_commit db db' i t :
    active_transactions (db_tm db) !! i = Some t →
    (current_start_timestamp (db_tm db) < TRANSACTION_ID_START)%Z →
    CommitTransaction db (transaction_id t) = Ok db' → step safe (transaction_id t) db db'
| step_rollback db db' i t :
    active_transactions (db_tm db) !! i = Some t →
    RollbackTransaction db (transaction_id t) = Ok db' → step safe (transaction_id t) db db'.
End steps.

(** ** Every step keeps the invariant *)

Section preservation.
Context {CS E Q : Type} `{!CatalogUndo CS E Q, !CatalogLaws CS E Q} {IX : Type} `{!TableIndexes IX}.
Implicit Types db : Database CS E Q.

Lemma seq_sorted a n : StronglySorted lt (seq a n).
Proof.
  revert a. induction n as [|n IH]; intros a; [constructor|]. cbn [seq]. constructor; [done|].
  apply Forall_forall. intros x Hx%elem_of_seq. lia.
Qed.

Lemma elem_of_middle {A} (x t : A) a1 a2 : x ∈ a1 ++ t :: a2 ↔ x = t ∨ x ∈ a1 ++ a2.
Proof. rewrite !elem_of_app, elem_of_cons. tauto. Qed.

(** A running transaction adds entries to its buffer. *)
Lemma core_act R R' (cs cs' : CS) H H' a1 t t' a2 recent old ts es :
  core R cs H (a1 ++ t :: a2) recent old ts →
  transaction_id t' = transaction_id t → start_time t' = start_time t → commit_id t' = commit_id t →
  undo_buffer t' = undo_buffer t ++ es → Forall entry_ok es →
  omap entry_loc es = seq (next_version R) (next_version R' - next_version R) →
  next_version R ≤ next_version R' →
  (∀ l num, linked H' l num ↔
    linked H l num ∨ (next_version R ≤ l < next_version R' ∧ num = transaction_id t)) →
  links_wf R' H' → data_wf R' H' → inserts_last H' → cat_wf cs' → cat_below cs' ts →
  cat_owns cs' (transaction_id t) (omap entry_cat (undo_buffer t) ++ omap entry_cat es) →
  (∀ z ks, z ≠ transaction_id t → cat_owns cs z ks ↔ cat_owns cs' z ks) →
  core R' cs' H' (a1 ++ t' :: a2) recent old ts.
Proof.
  intros Hco Eid Est Ecm Eun Hok Hloc Hnv Hlk Hl Hd Hi Hwf Hbel Hown Hoth.
  destruct (active_middle _ _ _ _ _ _ _ _ _ Hco) as (Hnd & Hsub & Hnot & Hid & Hin).
  assert (∀ z es', (z, es') ∈ live (a1 ++ a2) recent → z ≠ transaction_id t) as Hne.
  { intros z es' Hz ->. apply Hnot. change (transaction_id t) with ((transaction_id t, es').1).
    by apply list_elem_of_fmap_2. }
  assert (∀ z es', (z, es') ∈ live (a1 ++ a2) recent → (z, es') ∈ live (a1 ++ t :: a2) recent) as Hup
    by (intros; apply live_middle_active; by right).
  assert (∀ l, linked H l (transaction_id t) → l < next_version R) as Hfr.
  { intros l (cp & r & n & Hn & <- & _). eapply links_fresh; [apply Hco|done]. }
  constructor; try done.
  - pose proof (co_ids _ _ _ _ _ _ _ Hco) as Hids. rewrite fmap_app in *. csimpl in *. by rewrite Eid.
  - intros x Hx. apply elem_of_middle in Hx as [->|Hx]; [rewrite Eid, Est, Ecm|];
      apply (co_active _ _ _ _ _ _ _ Hco), elem_of_middle; auto.
  - apply Hco.
  - apply Hco.
  - intros z es' [[= -> ->]|Hz]%live_middle_active; [|by apply (co_entries _ _ _ _ _ _ _ Hco z), Hup].
    destruct (co_entries _ _ _ _ _ _ _ Hco _ _ Hin) as [Hok0 Hs0]. rewrite Eun. split; [by apply Forall_app|].
    rewrite omap_app, Hloc. apply StronglySorted_app_2; [|done|apply seq_sorted].
    intros x y Hx [Hy _]%elem_of_seq. apply (live_linked _ _ _ _ _ _ _ Hco _ _ x Hin), Hfr in Hx. lia.
  - intros l z. rewrite Hlk, (co_ledger _ _ _ _ _ _ _ Hco). setoid_rewrite live_middle_active.
    rewrite Eid, Eun. split.
    + intros [(es' & [[= -> ->]|Hz] & Hl')|[Hrange ->]]; [|by exists es'; auto|].
      * eexists. split; [by left|]. rewrite omap_app. apply elem_of_app. by left.
      * eexists. split; [by left|]. rewrite omap_app, Hloc. apply elem_of_app. right. apply elem_of_seq. lia.
    + intros (es' & [[= -> ->]|Hz] & Hl'); [|left; by eauto].
      rewrite omap_app, Hloc in Hl'. apply elem_of_app in Hl' as [Hl'|Hl'%elem_of_seq]; [left; eauto|right; lia].
  - intros x Hx. destruct (co_old _ _ _ _ _ _ _ Hco x Hx) as [Hq Hlt]. split; [done|]. intros l Hl'.
    destruct (Hlt l Hl') as [Hn Hz]. split; [lia|]. intros z [Hz'|[? _]]%Hlk; [by eapply Hz|lia].
  - intros z es' [[= -> ->]|Hz]%live_middle_active; [by rewrite Eid, Eun, omap_app|].
    apply Hoth; [by eapply Hne|]. by apply (co_cats _ _ _ _ _ _ _ Hco), Hup.
  - assert (transaction_id t ∈ (live (a1 ++ t' :: a2) recent).*1) as Ht.
    { rewrite <- Eid. change (transaction_id t') with ((transaction_id t', undo_buffer t').1).
      apply list_elem_of_fmap_2, live_middle_active. by left. }
    intros z Hz. apply Hoth; [by intros ->|].
    apply (co_nocats _ _ _ _ _ _ _ Hco). intros ([z' es'] & -> & Hx)%list_elem_of_fmap. apply Hz.
    apply live_middle_active in Hx as [[= -> ->]|Hx]; [done|].
    apply list_elem_of_fmap_2, live_middle_active. by right.
Qed.

(** What a step of the transaction [id] leaves as it was. *)
Definition preserved (safe : bool) (id : Z) db db' (H H' : hist) : Prop :=
  db_inv db' H' ∧ grows (db_rows db) (db_rows db') ∧
  (∀ t, t ∈ active_transactions (db_tm db) → transaction_id t ≠ id → t ∈ active_transactions (db_tm db')) ∧
  (safe = true → unchanged (fun tx => tx ∈ active_transactions (db_tm db) ∧ transaction_id tx ≠ id)
     (db_rows db) (db_rows db') H H' (db_catalog db) (db_catalog db')).

(** Steps that only change the transaction [t], the rows and the catalog. *)
Lemma act_preserved safe db db' H H' i t t' es :
  db_inv db H → active_transactions (db_tm db) !! i = Some t →
  active_transactions (db_tm db') = <[i := t']> (active_transactions (db_tm db)) →
  recently_committed_transactions (db_tm db') = recently_committed_transactions (db_tm db) →
  old_transactions (db_tm db') = old_transactions (db_tm db) →
  current_start_timestamp (db_tm db') = current_start_timestamp (db_tm db) →
  current_transaction_id (db_tm db') = current_transaction_id (db_tm db) →
  (current_query_number (db_tm db) ≤ current_query_number (db_tm db'))%Z →
  transaction_id t' = transaction_id t → start_time t' = start_time t → commit_id t' = commit_id t →
  undo_buffer t' = undo_buffer t ++ es → Forall entry_ok es →
  omap entry_loc es = seq (next_version (db_rows db)) (next_version (db_rows db') - next_version (db_rows db)) →
  next_version (db_rows db) ≤ next_version (db_rows db') →
  (∀ l num, linked H' l num ↔ linked H l num ∨
    (next_version (db_rows db) ≤ l < next_version (db_rows db') ∧ num = transaction_id t)) →
  links_wf (db_rows db') H' → data_wf (db_rows db') H' → inserts_last H' → cat_wf (db_catalog db') →
  (∀ z, cat_below (db_catalog db) z → cat_below (db_catalog db') z) →
  (∀ ks, cat_owns (db_catalog db) (transaction_id t) ks →
     cat_owns (db_catalog db') (transaction_id t) (ks ++ omap entry_cat es)) →
  (∀ z ks, z ≠ transaction_id t → cat_owns (db_catalog db) z ks ↔ cat_owns (db_catalog db') z ks) →
  grows (db_rows db) (db_rows db') →
  (safe = true → ∀ tx, other t tx → same_view tx (db_rows db) (db_rows db') H H' ∧
     same_catalog tx (db_catalog db) (db_catalog db')) →
  preserved safe (transaction_id t) db db' H H'.
Proof.
  intros Hinv Hi Ea Er Eo Et Eid Eq E1 E2 E3 E4 Hok Hloc Hnv Hlk Hl Hd Hins Hwf Hbel Hown Hoth Hg Hun.
  destruct Hinv as [Hco Hids Hnid Htime Hq Hquiet].
  assert (∃ a1 a2, active_transactions (db_tm db) = a1 ++ t :: a2 ∧ i = length a1) as (a1 & a2 & Hact & ->).
  { apply list_elem_of_split_length in Hi as (a1 & a2 & -> & ->). by exists a1, a2. }
  rewrite Hact in *. rewrite insert_middle in Ea.
  destruct (active_middle _ _ _ _ _ _ _ _ _ Hco) as (_ & _ & _ & Hid & Hin).
  split_and!; try done.
  - constructor; rewrite ?Ea, ?Er, ?Eo, ?Et, ?Eid; try done; [| |lia|by destruct a1].
    + eapply core_act; try done; [apply Hbel, Hco|]. apply Hown. by apply (co_cats _ _ _ _ _ _ _ Hco).
    + intros x [->|Hx]%elem_of_middle; [rewrite E1|]; apply Hids, elem_of_middle; auto.
  - rewrite Hact. intros x [->|Hx]%elem_of_middle Hne; [done|]. rewrite Ea. apply elem_of_middle. auto.
  - rewrite Hact. intros Hs tx [Htx Hne]. apply Hun; [done|]. split; [done|].
    pose proof (co_active _ _ _ _ _ _ _ Hco tx Htx). lia.
Qed.
End preservation.

Section step_theorem.
Context {CS E Q : Type} `{!CatalogUndo CS E Q, !CatalogLaws CS E Q} {IX : Type} `{!TableIndexes IX}.
Implicit Types db : Database CS E Q.

(** A transaction changes nothing but its own buffer, without versions. *)
Lemma idle_preserved safe db db' H i t t' es :
  db_inv db H → active_transactions (db_tm db) !! i = Some t →
  active_transactions (db_tm db') = <[i := t']> (active_transactions (db_tm db)) →
  recently_committed_transactions (db_tm db') = recently_committed_transactions (db_tm db) →
  old_transactions (db_tm db') = old_transactions (db_tm db) →
  current_start_timestamp (db_tm db') = current_start_timestamp (db_tm db) →
  current_transaction_id (db_tm db') = current_transaction_id (db_tm db) →
  (current_query_number (db_tm db) ≤ current_query_number (db_tm db'))%Z →
  transaction_id t' = transaction_id t → start_time t' = start_time t → commit_id t' = commit_id t →
  undo_buffer t' = undo_buffer t ++ es → Forall entry_ok es → omap entry_loc es = [] →
  db_rows db' = db_rows db → cat_wf (db_catalog db') →
  (∀ z, cat_below (db_catalog db) z → cat_below (db_catalog db') z) →
  (∀ ks, cat_owns (db_catalog db) (transaction_id t) ks →
     cat_owns (db_catalog db') (transaction_id t) (ks ++ omap entry_cat es)) →
  (∀ z ks, z ≠ transaction_id t → cat_owns (db_catalog db) z ks ↔ cat_owns (db_catalog db') z ks) →
  (∀ tx, sees tx (transaction_id t) = false → same_catalog tx (db_catalog db) (db_catalog db')) →
  preserved safe (transaction_id t) db db' H H.
Proof.
  intros Hinv Hi Ea Er Eo Et Eid Eq E1 E2 E3 E4 Hok Hloc ER Hwf Hbel Hown Hoth Hv.
  pose proof (inv_core _ _ Hinv) as Hco.
  eapply act_preserved; try done; rewrite ?ER; try apply Hco.
  - by rewrite Nat.sub_diag.
  - done.
  - intros l num. split; [by left|]. intros [?|[? _]]; [done|lia].
  - apply grows_refl.
  - intros _ tx Ho. split; [apply same_view_refl|]. by apply Hv, other_sees.
Qed.

Lemma start_preserved safe db H tm id :
  db_inv db H → StartTransaction (db_tm db) = Ok (tm, id) → preserved safe id db (set_tm db tm) H H.
Proof.
  intros [Hco Hids Hnid Htime Hq _] Hst. unfold StartTransaction in Hst.
  destruct (Z.leb_spec TRANSACTION_ID_START (current_start_timestamp (db_tm db))) as [|Hlt]; [done|].
  injection Hst as <- <-. set (t := NewTransaction _ _).
  assert (∀ a2, live (a2 ++ [t]) (recently_committed_transactions (db_tm db)) ≡ₚ
    (transaction_id t, []) :: live a2 (recently_committed_transactions (db_tm db))) as Hlive.
  { intros a2. unfold live. rewrite fmap_app. csimpl. rewrite <- app_assoc. simpl.
    by rewrite Permutation_middle. }
  split_and!.
  - constructor; simpl; try lia.
    + destruct Hco. constructor; try done.
      * rewrite fmap_app. apply NoDup_app. split_and!; [done| |apply NoDup_singleton].
        intros z (t' & -> & Ht')%list_elem_of_fmap Eq%list_elem_of_singleton. specialize (Hids t' Ht'). simpl in Eq. lia.
      * intros t' [Ht'| ->%list_elem_of_singleton]%elem_of_app; [|simpl; lia].
        specialize (co_active t' Ht'). lia.
      * intros t' Ht'. specialize (co_recent t' Ht'). lia.
      * intros z es. rewrite Hlive, elem_of_cons. intros [[= -> ->]|Hz]; [|by eapply co_entries].
        split; constructor.
      * intros l z. rewrite co_ledger. setoid_rewrite Hlive. setoid_rewrite elem_of_cons. split.
        -- intros (es & Hz & Hl'). eauto.
        -- intros (es & [[= -> ->]|Hz] & Hl'); [by apply not_elem_of_nil in Hl'|eauto].
      * eapply cat_below_mono; [done|lia].
      * intros z es. rewrite Hlive, elem_of_cons. intros [[= -> ->]|Hz]; [|by apply co_cats].
        apply co_nocats. intros ([z es] & Eq & Hz)%list_elem_of_fmap. simpl in Eq. subst z.
        apply elem_of_live in Hz as [(t' & Ht' & Eq & _)|(t' & Ht' & Eq & _)].
        -- specialize (Hids t' Ht'). lia.
        -- specialize (co_recent t' Ht'). lia.
      * intros z Hz. apply co_nocats. intros Hx. apply Hz. rewrite Hlive. csimpl. by right.
    + intros t' [Ht'| ->%list_elem_of_singleton]%elem_of_app; [|simpl; lia]. specialize (Hids t' Ht'). lia.
    + by destruct (active_transactions (db_tm db)).
  - apply grows_refl.
  - intros t' Ht' _. simpl. apply elem_of_app. by left.
  - intros _. apply unchanged_refl.
Qed.

Lemma write_preserved safe db db' H i t ix f r :
  db_inv db H → active_transactions (db_tm db) !! i = Some t →
  table_op safe (mkTState t (db_rows db) ix) f → run_op db i t (ix : IX) f = (r, db') → r ≠ Undef →
  ∃ H', preserved safe (transaction_id t) db db' H H'.
Proof.
  intros Hinv Hi Hop Hrun Hr.
  unfold run_op in Hrun. destruct (f (mkTState t (db_rows db) ix)) as [r' s'] eqn:Hf. injection Hrun as -> <-.
  pose proof (inv_core _ _ Hinv) as Hco.
  destruct (co_active _ _ _ _ _ _ _ Hco t) as [Hid _]; [by eapply list_elem_of_lookup_2|].
  destruct (table_op_outcome safe (mkTState t (db_rows db) ix) H f r s') as (H' & Hact & Hv); try done.
  { split; [apply Hco|]. split; [apply Hco|done]. }
  exists H'. destruct Hact as [A1 A2 A3 _ (es & A4 & Hok & Hloc & Hcat) Hnv Hlk Hl Hd Hins Hg]. simpl in *.
  eapply act_preserved; simpl; try done; try apply Hco.
  - apply Hins, Hco.
  - intros ks. by rewrite Hcat, app_nil_r.
  - intros Hs tx Ho. split; [by apply Hv|done].
Qed.

Lemma table_preserved safe db H id tp schema table types R :
  db_inv db H → tables (db_rows db) !! tp = None →
  NewDataTable (db_rows db) tp schema table types = Ok R →
  preserved safe id db (mkDatabase R (db_catalog db) (db_log db) (db_tm db)) H H.
Proof.
  intros Hinv Hnone Hnew. pose proof (inv_core _ _ Hinv) as Hco.
  pose proof (co_links _ _ _ _ _ _ _ Hco) as Hl. pose proof (co_data _ _ _ _ _ _ _ Hco) as Hd.
  destruct (new_table_heap _ _ H _ _ _ _ Hl Hd Hnone Hnew) as (tb & _ & _ & _ & _ & _ & _ & HR).
  split_and!; simpl; try done.
  - destruct Hinv. constructor; try done. destruct Hco. constructor; try done; simpl.
    + by eapply new_table_links.
    + by eapply new_table_data.
    + by rewrite HR.
  - by eapply new_table_grows.
  - intros _ tx _. split; [by eapply new_table_view|done].
Qed.

Lemma commit_preserved safe db db' H t :
  db_inv db H → t ∈ active_transactions (db_tm db) →
  (current_start_timestamp (db_tm db) < TRANSACTION_ID_START)%Z →
  CommitTransaction db (transaction_id t) = Ok db' →
  ∃ H', preserved safe (transaction_id t) db db' H H'.
Proof.
  intros Hinv Ht Hts Hc.
  destruct (CommitTransaction_spec db H t Hinv Ht Hts) as (db1 & H' & logged & Hc' & Hinv' & Ha & _ & _ & Hg & Hun & _).
  rewrite Hc in Hc'. injection Hc' as <-. exists H'. split_and!; try done.
  - intros t' Ht' Hne. rewrite Ha. by apply list_elem_of_filter.
  - intros _ tx [Htx Hne]. apply Hun. rewrite Ha. by apply list_elem_of_filter.
Qed.

Lemma rollback_preserved safe db db' H t :
  db_inv db H → t ∈ active_transactions (db_tm db) →
  RollbackTransaction db (transaction_id t) = Ok db' →
  ∃ H', preserved safe (transaction_id t) db db' H H'.
Proof.
  intros Hinv Ht Hrb.
  destruct (RollbackTransaction_spec db H t Hinv Ht) as (db1 & H' & Hc' & Hinv' & Hend & Hun).
  rewrite Hrb in Hc'. injection Hc' as <-. exists H'. split_and!; try done.
  - apply places_grows; [apply (en_places _ _ _ Hend)|apply (en_tables _ _ _ Hend)].
  - intros t' Ht' Hne. rewrite (en_active _ _ _ Hend). by apply list_elem_of_filter.
  - intros _ tx [Htx Hne]. apply Hun. split.
    + left. rewrite (en_active _ _ _ Hend). by apply list_elem_of_filter.
    + split; [done|]. pose proof (co_active _ _ _ _ _ _ _ (inv_core _ _ Hinv) tx Htx).
      pose proof (co_active _ _ _ _ _ _ _ (inv_core _ _ Hinv) t Ht). lia.
Qed.

(** The invariant survives every step, and no step is noticed by the other
    transactions if it is safe. *)
Lemma step_preserved safe id db db' H :
  db_inv db H → step (IX:=IX) safe id db db' → ∃ H', preserved safe id db db' H H'.
Proof.
  intros Hinv Hstep. pose proof (co_cat _ _ _ _ _ _ _ (inv_core _ _ Hinv)) as Hwf0. destruct Hstep as
    [db tm id Hst|db i t q tm Hi Hq|db i t Hi|db i t q Hi|db db' i t ix f r Hi Hop Hrun Hr|
     db i t tp schema table types R Hi Hnone Hnew|db i t cs k Hi Hrep|db db' i t Hi Hts Hc|db db' i t Hi Hrb].
  - exists H. by apply start_preserved.
  - exists H. unfold GetQueryNumber in Hq. injection Hq as <- <-.
    eapply idle_preserved with (es := []); simpl; rewrite ?app_nil_r; try done; [lia|].
    intros ks. by rewrite app_nil_r.
  - exists H. eapply idle_preserved with (es := []); simpl; rewrite ?app_nil_r; try done.
    intros ks. by rewrite app_nil_r.
  - exists H. eapply idle_preserved with (es := [mkUndoEntry QUERY (UQuery q)]); simpl; try done.
    + by repeat constructor.
    + intros ks. by rewrite app_nil_r.
  - by eapply write_preserved.
  - exists H. by eapply table_preserved.
  - exists H. destruct Hrep as (Hwf & Hbel & Hown & Hoth & Hv).
    eapply idle_preserved with (es := [mkUndoEntry CATALOG_ENTRY (UCatalog k)]); simpl; try done.
    by repeat constructor.
  - eapply commit_preserved; try done. by eapply list_elem_of_lookup_2.
  - eapply rollback_preserved; try done. by eapply list_elem_of_lookup_2.
Qed.
End step_theorem.

(** ** Scanning a whole table *)

(** The calls of a table scan operator, until the empty chunk: each chunk of
    the table takes at most [S STORAGE_CHUNK_SIZE] rounds. *)
Definition ScanTable (R : rows) (tx : Transaction) (tp : nat) (types : list TypeId)
    (column_ids : list column_t) : result (list DataChunk) :=
  s ← InitializeScan R tp;
  let n := size (chunks R) * S STORAGE_CHUNK_SIZE in
  scan_table (S n) n tx R types column_ids s.

Lemma chunk_chain_list R tp start tail cps :
  chunk_list_wf R tp start tail cps → chunk_chain R tp (head cps) cps.
Proof.
  revert start. induction cps as [|cp cps IH]; intros start; [done|].
  intros (c & Hc & Ht & _ & Hn & Hrest). split; [done|]. exists c. split_and!; try done. rewrite Hn.
  destruct cps as [|cp' cps]; [done|]. destruct Hrest as [_ Hrest]. by eapply IH.
Qed.

Section scan_table.
Context (R : rows) (H : hist) (tx : Transaction) (tp : nat) (tbl : DataTable) (cps : list nat).
Context (Hl : links_wf R H) (Hd : data_wf R H) (Ht : tables R !! tp = Some tbl).
Context (Hlist : table_list R tp tbl cps).

Lemma rounds_bound ks s :
  Forall (fun cp => is_Some (chunks R !! cp)) ks →
  rounds R s ks ≤ length ks * S STORAGE_CHUNK_SIZE.
Proof using Hd.
  assert (∀ cp off, is_Some (chunks R !! cp) → chunk_rounds R cp off ≤ S STORAGE_CHUNK_SIZE) as Hone.
  { intros cp off [c Hc]. unfold chunk_rounds. rewrite Hc. pose proof (dw_count _ _ Hd _ _ Hc). lia. }
  generalize dependent (S STORAGE_CHUNK_SIZE). intros N Hone.
  assert (∀ l, Forall (fun cp => is_Some (chunks R !! cp)) l →
    sum_list ((fun cp => chunk_rounds R cp 0) <$> l) ≤ length l * N) as Hsum.
  { induction 1 as [|cp l Hcp _ IH]; cbn [fmap list_fmap sum_list length]; [lia|]. specialize (Hone cp 0 Hcp). unfold id in *. lia. }
  intros Hall. destruct Hall as [|cp l Hcp Hall]; simpl rounds; [lia|].
  specialize (Hsum l Hall). specialize (Hone cp (ss_offset s) Hcp). simpl length. nia.
Qed.

Lemma table_list_chunks : NoDup cps ∧ Forall (fun cp => is_Some (chunks R !! cp)) cps.
Proof using Hlist.
  destruct Hlist as [_ Hcps]. split; [by eapply chunk_list_NoDup|].
  apply Forall_forall. intros cp Hcp. destruct (chunk_list_lookup _ _ _ _ _ _ Hcps Hcp) as (c & Hc & _). eauto.
Qed.

Lemma ScanTable_spec types cid column_ids :
  result_layout (dt_types tbl) (cid :: column_ids) (EmptyVector <$> types) →
  ∃ out tss, ScanTable R tx tp types (cid :: column_ids) = Ok out ∧
    concat tss ≡ₚ table_tuples R H tx cps ∧
    Forall2 (fun ch ts => ts ≠ [] ∧ holds_tuples (cid :: column_ids) (dc_data ch) ts) out tss.
Proof using All.
  intros Hlay. unfold ScanTable, InitializeScan. rewrite Ht. run.
  set (s := mkScanStructure (Some (dt_chunk_list tbl)) 0 None).
  set (n := size (chunks R) * S STORAGE_CHUNK_SIZE).
  destruct table_list_chunks as [Hnd Hall]. destruct Hlist as [Hhd Hcps].
  assert (rounds R s cps ≤ n) as Hb.
  { pose proof (rounds_bound cps s Hall) as Hr.
    assert (length cps ≤ size (chunks R)) as Hlen by (by eapply chunk_list_length). unfold n. nia. }
  assert (scan_pos R tp s cps) as Hpos.
  { split; [simpl; rewrite <- Hhd; by eapply chunk_chain_list|]. destruct cps; [done|]. simpl. intros; lia. }
  destruct (scan_table_spec R H tx tp tbl Hl Hd Ht types cid column_ids s cps n (S n) Hlay Hpos)
    as (out & tss & Hout & Hperm & Hh); [done|lia|].
  exists out, tss. split_and!; try done. rewrite Hperm. by destruct cps.
Qed.
End scan_table.

(** The tuples of a table depend on what the transaction sees only. *)
Lemma chunk_tuples_view R H tx cp n :
  (∀ c, chunks R !! cp = Some c → sc_count c ≤ n) →
  chunk_tuples R H tx cp 0 = omap (view R H tx cp) (seq 0 n).
Proof.
  intros Hn. unfold chunk_tuples, view. destruct (chunks R !! cp) as [c|] eqn:Hc.
  - specialize (Hn c eq_refl). rewrite Nat.sub_0_r. unfold visible_rows.
    replace n with (sc_count c + (n - sc_count c)) by lia. rewrite seq_app, omap_app.
    assert (∀ m k, sc_count c ≤ k →
      omap (fun r => if decide (r < sc_count c) then visible tx (base_value c r) (H cp r) else None) (seq k m) = [])
      as Hnil.
    { induction m as [|m IH]; intros k Hk; [done|]. cbn [seq omap list_omap].
      rewrite decide_False by lia. apply IH. lia. }
    rewrite (Hnil (n - sc_count c) (0 + sc_count c)) by lia. rewrite app_nil_r.
    assert (∀ l : list nat, (∀ r, r ∈ l → r < sc_count c) →
      snd <$> omap (fun i => pair (0 + i) <$> visible tx (base_value c (0 + i)) (H cp (0 + i))) l =
      omap (fun r => if decide (r < sc_count c) then visible tx (base_value c r) (H cp r) else None) l) as Hind.
    { induction l as [|r l IH]; intros Hr; [done|]. cbn [omap list_omap].
      rewrite decide_True by (apply Hr; left). simpl plus.
      destruct (visible tx (base_value c r) (H cp r)); csimpl; [f_equal|]; apply IH; intros; apply Hr; by right. }
    apply Hind. intros r Hr%elem_of_seq. lia.
  - clear Hn. by induction (seq 0 n).
Qed.

Lemma chunk_tuples_same R R' H H' tx cp :
  same_view tx R R' H H' → chunk_tuples R' H' tx cp 0 = chunk_tuples R H tx cp 0.
Proof.
  intros Hv. set (f := fun R : rows => from_option sc_count 0 (chunks R !! cp)).
  rewrite (chunk_tuples_view R' H' tx cp (Nat.max (f R) (f R'))).
  - rewrite (chunk_tuples_view R H tx cp (Nat.max (f R) (f R'))).
    + generalize (seq 0 (Nat.max (f R) (f R'))). intros l. induction l as [|r l IH]; [done|].
      cbn [omap list_omap]. rewrite (Hv cp r). destruct (view R H tx cp r); [f_equal|]; exact IH.
    + intros c Hc. unfold f. rewrite Hc. simpl. lia.
  - intros c Hc. unfold f. rewrite Hc. simpl. lia.
Qed.

(** The chunk lists of a table before and after. *)
Lemma fresh_chain R R' tp p cps :
  grows R R' → chunk_chain R' tp p cps → (∀ n, p = Some n → chunks R !! n = None) →
  Forall (fun cp => chunks R !! cp = None) cps.
Proof.
  intros Hg. revert p. induction cps as [|cp cps IH]; intros p Hch Hp; [constructor|].
  destruct Hch as (-> & c & Hc & _ & Hch). specialize (Hp cp eq_refl). constructor; [done|].
  eapply IH; [exact Hch|]. intros n Hn. by eapply (gr_new _ _ Hg cp c).
Qed.

Lemma grown_chain R R' tp p p' cps cps' :
  grows R R' → chunk_chain R tp p cps → chunk_chain R' tp p' cps' →
  (p' = p ∨ p = None ∧ ∀ n, p' = Some n → chunks R !! n = None) →
  ∃ extra, cps' = cps ++ extra ∧ Forall (fun cp => chunks R !! cp = None) extra.
Proof.
  intros Hg. revert p p' cps'. induction cps as [|cp cps IH]; intros p p' cps' Hch Hch' Hp.
  - exists cps'. split; [done|]. simpl in Hch. subst p.
    eapply fresh_chain; [exact Hg|exact Hch'|]. intros n Hn. destruct Hp as [->|[_ Hp]]; [done|by apply Hp].
  - destruct Hch as (-> & c & Hc & _ & Hch). destruct Hp as [->|[Hp _]]; [|done].
    destruct (gr_chunk _ _ Hg cp c Hc) as (c1 & Hc1 & _ & Hnext).
    destruct cps' as [|cp' cps']; [done|]. destruct Hch' as ([= <-] & c' & Hc' & _ & Hch').
    rewrite Hc' in Hc1. injection Hc1 as <-.
    destruct (IH _ _ cps' Hch Hch' Hnext) as (extra & -> & Hx). by exists extra.
Qed.

(** A transaction to which nothing changed finds the same tuples. *)
Lemma table_tuples_same R R' H H' tx tp tbl tbl' cps cps' :
  grows R R' → same_view tx R R' H H' →
  tables R !! tp = Some tbl → tables R' !! tp = Some tbl' →
  table_list R tp tbl cps → table_list R' tp tbl' cps' →
  table_tuples R' H' tx cps' = table_tuples R H tx cps.
Proof.
  intros Hg Hv Ht Ht' [Hhd Hcps] [Hhd' Hcps'].
  destruct (gr_table _ _ Hg tp tbl Ht) as (tbl1 & Ht1 & Ecl & _). rewrite Ht' in Ht1. injection Ht1 as <-.
  destruct (grown_chain R R' tp (head cps) (head cps') cps cps' Hg) as (extra & -> & Hx).
  - by eapply chunk_chain_list.
  - by eapply chunk_chain_list.
  - left. congruence.
  - unfold table_tuples. rewrite bind_app.
    assert (extra ≫= (fun cp => chunk_tuples R' H' tx cp 0) = []) as ->.
    { clear Hhd' Hcps'. induction Hx as [|cp extra Hcp _ IH]; [done|]. cbn [mbind list_bind].
      rewrite (chunk_tuples_same R R' H H' tx cp Hv). unfold chunk_tuples at 1. rewrite Hcp. exact IH. }
    rewrite app_nil_r. clear -Hv. induction cps as [|cp cps IH]; [done|]. cbn [mbind list_bind].
    rewrite (chunk_tuples_same R R' H H' tx cp Hv). f_equal. exact IH.
Qed.
