(* ===== verification/Isolation.v ===== *)
(** * What connections can rely on

    The states reachable from an empty database, and the guarantees of the
    transaction system there: snapshot isolation, atomic commits, invisible
    rollbacks and complete garbage collection.  An example run with three
    transactions shows that the statements are not vacuous. *)

From Stdlib Require Import ZArith Lia.
From stdpp Require Import base gmap list strings option numbers sorting relations.
From S2P Require Import Prelude Types Vector Tuple Storage Versions DataTable TableScan TableOps TableAppend WriteAheadLog UndoBuffer UndoProofs TransactionManager TransactionProofs Database.

Section reachable.
Context {CS E Q : Type} `{!CatalogUndo CS E Q, !CatalogLaws CS E Q} {IX : Type} `{!TableIndexes IX}.
Implicit Types db : Database CS E Q.

Definition empty_rows : rows := mkRows ∅ ∅ ∅ 0 0.

(** A database without tables, its catalog freshly set up. *)
Definition empty_database (cs : CS) (log : option (list (list (wal_entry E Q)))) : Database CS E Q :=
  mkDatabase empty_rows cs log NewTransactionManager.

Definition fresh_catalog (cs : CS) : Prop := cat_wf cs ∧ cat_below cs 0 ∧ ∀ z, cat_owns cs z [].

(** The states that the steps of any number of connections lead to. *)
Definition reachable db : Prop :=
  ∃ cs log, fresh_catalog cs ∧
    rtc (fun a b => ∃ safe id, step (IX:=IX) safe id a b) (empty_database cs log) db.

(** Safe steps of other transactions than [id]. *)
Definition steps_of_others (id : Z) : relation (Database CS E Q) :=
  rtc (fun a b => ∃ id', id' ≠ id ∧ step (IX:=IX) true id' a b).

Lemma empty_inv cs log : fresh_catalog cs → db_inv (empty_database cs log) (fun _ _ => []).
Proof.
  intros (Hwf & Hbel & Hno). constructor; simpl; [|set_solver|done|unfold TRANSACTION_ID_START; lia|lia|done].
  constructor; simpl; [| | | |set_solver|set_solver| |set_solver| |set_solver|done|done|set_solver|done].
  - constructor; simpl; try done. intros; constructor.
  - constructor; simpl; intros; by simplify_map_eq.
  - intros cp r. constructor.
  - constructor.
  - constructor.
  - intros l z. split; [|set_solver]. intros (cp & r & n & Hn & _). by apply not_elem_of_nil in Hn.
Qed.

Lemma reachable_db_inv db : reachable db → ∃ H, db_inv db H.
Proof.
  intros (cs & log & Hcs & Hsteps).
  assert (∃ H, db_inv (empty_database cs log) H) as [H Hinv] by (eexists; by apply empty_inv).
  revert H Hinv. induction Hsteps as [db|db1 db2 db3 (safe & id & Hst) _ IH]; intros H Hinv; [eauto|].
  destruct (step_preserved safe id db1 db2 H Hinv Hst) as (H2 & Hinv2 & _). by eapply IH.
Qed.

Lemma others_preserve id db db' H :
  db_inv db H → steps_of_others id db db' → ∀ t, t ∈ active_transactions (db_tm db) → transaction_id t = id →
  ∃ H', db_inv db' H' ∧ grows (db_rows db) (db_rows db') ∧ t ∈ active_transactions (db_tm db') ∧
    same_view t (db_rows db) (db_rows db') H H' ∧ same_catalog t (db_catalog db) (db_catalog db').
Proof.
  intros Hinv Hsteps t Ht Hid. revert H Hinv Ht.
  induction Hsteps as [db|db1 db2 db3 (id' & Hne & Hst) _ IH]; intros H Hinv Ht.
  { exists H. split_and!; try done. apply grows_refl. }
  destruct (step_preserved true id' db1 db2 H Hinv Hst) as (H2 & Hinv2 & Hg2 & Hact2 & Hun2).
  destruct (Hun2 eq_refl t) as [Hv2 Hc2]; [split; [done|congruence]|].
  destruct (IH H2 Hinv2) as (H' & Hinv' & Hg' & Hact' & Hv' & Hc'); [by apply Hact2; [|congruence]|].
  exists H'. split_and!; try done.
  - by eapply grows_trans.
  - by eapply same_view_trans.
  - intros s name. by rewrite (Hc' s name).
Qed.





(** C18. When no transaction runs, garbage collection has left nothing behind:
    no row has an older version and no undo buffer is kept. *)
Theorem quiescent_clean db :
  reachable db → active_transactions (db_tm db) = [] →
  recently_committed_transactions (db_tm db) = [] ∧ old_transactions (db_tm db) = [] ∧
  ∀ cp c r, chunks (db_rows db) !! cp = Some c → version_pointers c !! r = None.
Proof.
  intros [H Hinv]%reachable_db_inv Hnil. destruct (inv_quiet _ _ Hinv Hnil) as [Hrec Hold].
  split_and!; try done. intros cp c r Hc.
  rewrite (lw_pointer _ H cp c r) by (try apply (inv_core _ _ Hinv); done).
  destruct (H cp r) as [|n ns] eqn:Hn; [done|]. exfalso.
  assert (linked H (n_loc n) (n_num n)) as Hlk by (exists cp, r, n; split_and!; try done; rewrite Hn; left).
  apply (co_ledger _ _ _ _ _ _ _ (inv_core _ _ Hinv)) in Hlk as (es & Hlive & _).
  rewrite Hnil, Hrec in Hlive. by apply not_elem_of_nil in Hlive.
Qed.
End reachable.

(** ** An example run *)

Module Example.
Abbreviation db_type := (Database unit unit unit).

Definition the_result {A} (d : A) (r : result A) : A := match r with Ok a => a | _ => d end.
Definition start (db : db_type) : db_type :=
  match StartTransaction (db_tm db) with Ok (tm, _) => set_tm db tm | _ => db end.
Definition tx_at (db : db_type) (i : nat) : Transaction :=
  default (NewTransaction 0 0) (active_transactions (db_tm db) !! i).
Definition run (db : db_type) (i : nat) (f : M (tstate unit) unit) : db_type :=
  snd (run_op db i (tx_at db i) tt f).
Definition commit (db : db_type) (i : nat) : db_type :=
  the_result db (CommitTransaction db (transaction_id (tx_at db i))).

Definition numbers (zs : list Z) : gmap nat cell := list_to_map (zip (seq 0 (length zs)) (Num 4 <$> zs)).
Definition row_ids (ns : list Z) : Vector :=
  mkVector T_POINTER (length ns) (list_to_map (zip (seq 0 (length ns)) (Num 8 <$> ns))) None ∅.
Definition one_column (zs : list Z) : DataChunk :=
  mkDataChunk [mkVector T_INTEGER (length zs) (numbers zs) None ∅] None.
Definition info : TableCatalogInfo := mkTableCatalogInfo [T_INTEGER] [].

(** The first transaction creates a table with the rows 1 and 2; the second
    starts; the third deletes row 1, changes row 2 to 7, and commits. *)
Definition db0 : db_type := empty_database tt None.
Definition db1 : db_type := start db0.
Definition db2 : db_type :=
  mkDatabase (the_result (db_rows db1) (NewDataTable (db_rows db1) 0 "main" "t" [T_INTEGER]))
    (db_catalog db1) (db_log db1) (db_tm db1).
Definition db3 : db_type := run db2 0 (Append 0 info (one_column [1; 2]%Z)).
Definition db4 : db_type := commit db3 0.
Definition db5 : db_type := start db4.
Definition db6 : db_type := start db5.
Definition db7 : db_type := run db6 1 (Delete 0 (row_ids [0]%Z)).
Definition db8 : db_type := run db7 1 (Update 0 info (row_ids [1]%Z) [0] (one_column [7]%Z)).
Definition db9 : db_type := commit db8 1.

Lemma chunk_ok_one zs :
  Forall (fun z => cell_has_type T_INTEGER (Num 4 z) = true) zs → chunk_ok [T_INTEGER] (one_column zs).
Proof.
  intros Hall. constructor; [|constructor]. split_and!; try done. split; [by eexists|].
  simpl. intros k Hk _. destruct (lookup_lt_is_Some_2 zs k Hk) as [z Hz]. exists (Num 4 z). split.
  - unfold numbers. apply elem_of_list_to_map_1.
    + rewrite fst_zip by (rewrite length_seq, length_fmap; lia). apply NoDup_seq.
    + apply list_elem_of_lookup. exists k. apply lookup_zip_Some. split; [by apply lookup_seq_lt|].
      by rewrite list_lookup_fmap, Hz.
  - rewrite Forall_lookup in Hall. by eapply Hall.
Qed.

Lemma start_step safe db : (current_start_timestamp (db_tm db) <? TRANSACTION_ID_START)%Z = true →
  step (IX:=unit) safe (current_transaction_id (db_tm db)) db (start db).
Proof.
  intros Hlt%Z.ltb_lt. unfold start, StartTransaction. rewrite (proj2 (Z.leb_gt _ _) Hlt).
  apply step_start. unfold StartTransaction. by rewrite (proj2 (Z.leb_gt _ _) Hlt).
Qed.

Lemma write_step safe db i f :
  active_transactions (db_tm db) !! i = Some (tx_at db i) →
  table_op safe (mkTState (tx_at db i) (db_rows db) tt) f →
  fst (run_op db i (tx_at db i) tt f) ≠ Undef →
  step (IX:=unit) safe (transaction_id (tx_at db i)) db (run db i f).
Proof.
  intros Hi Hop Hr. eapply (step_write safe db _ i _ tt f); [done|done| |done].
  unfold run. apply surjective_pairing.
Qed.

Lemma commit_step safe db i :
  active_transactions (db_tm db) !! i = Some (tx_at db i) →
  (current_start_timestamp (db_tm db) <? TRANSACTION_ID_START)%Z = true →
  CommitTransaction db (transaction_id (tx_at db i)) = Ok (commit db i) →
  step (IX:=unit) safe (transaction_id (tx_at db i)) db (commit db i).
Proof. intros Hi Hlt%Z.ltb_lt Hc. by eapply step_commit. Qed.

Lemma step12 safe : step (IX:=unit) safe (transaction_id (tx_at db1 0)) db1 db2.
Proof.
  apply (step_create_table safe db1 0 _ 0 "main" "t" [T_INTEGER]); vm_compute; reflexivity.
Qed.

Lemma step23 safe : step (IX:=unit) safe (transaction_id (tx_at db2 0)) db2 db3.
Proof.
  apply write_step; [vm_compute; reflexivity| |vm_compute; discriminate].
  eapply op_append; [vm_compute; reflexivity| |apply Nat.leb_le; vm_compute; reflexivity].
  apply chunk_ok_one. repeat constructor.
Qed.

Lemma step34 safe : step (IX:=unit) safe (transaction_id (tx_at db3 0)) db3 db4.
Proof. apply commit_step; vm_compute; reflexivity. Qed.

Lemma step67 : step (IX:=unit) true (transaction_id (tx_at db6 1)) db6 db7.
Proof.
  apply write_step; [vm_compute; reflexivity| |vm_compute; discriminate].
  apply (op_delete true _ _ _ 0 [0]).
  - split; [done|]. split; [done|]. eexists _, 0. split; [vm_compute; reflexivity|].
    split; [vm_compute; reflexivity|]. split; [vm_compute; reflexivity|].
    repeat constructor.
  - intros _ H _. constructor; [|constructor]. right. intros c Hc. vm_compute in Hc. injection Hc as <-.
    by apply not_elem_of_empty.
Qed.

Lemma step78 : step (IX:=unit) true (transaction_id (tx_at db7 1)) db7 db8.
Proof.
  apply write_step; [vm_compute; reflexivity| |vm_compute; discriminate].
  eapply (op_update true _ _ _ _ _ _ 0 [1] _ _ [[Num 4 7]]).
  - split; [done|]. split; [done|]. eexists _, 1. split; [vm_compute; reflexivity|].
    split; [vm_compute; reflexivity|]. split; [vm_compute; reflexivity|].
    repeat constructor.
  - intros _ H _. constructor; [|constructor]. right. intros c Hc. vm_compute in Hc. injection Hc as <-.
    simpl. intros Hx. vm_compute in Hx. discriminate.
  - vm_compute. reflexivity.
  - vm_compute. reflexivity.
  - done.
  - constructor; [|constructor]. eexists _, T_INTEGER. split; [vm_compute; reflexivity|].
    split; [done|]. constructor; [|constructor]. split; vm_compute; reflexivity.
Qed.

Lemma step89 safe : step (IX:=unit) safe (transaction_id (tx_at db8 1)) db8 db9.
Proof. apply commit_step; vm_compute; reflexivity. Qed.

Lemma reachable_step (db db' : db_type) safe id :
  reachable (IX:=unit) db → step (IX:=unit) safe id db db' → reachable (IX:=unit) db'.
Proof. intros (cs & log & Hcs & Hs) Hst. exists cs, log. split; [done|]. eapply rtc_r; [exact Hs|eauto]. Qed.

Lemma reachable0 : reachable (IX:=unit) db0.
Proof. exists tt, None. split; [by split|apply rtc_refl]. Qed.

Lemma reachable4 : reachable (IX:=unit) db4.
Proof.
  eapply reachable_step; [|apply (step34 true)]. eapply reachable_step; [|apply (step23 true)].
  eapply reachable_step; [|apply (step12 true)]. eapply reachable_step; [exact reachable0|by apply (start_step true)].
Qed.

Lemma reachable6 : reachable (IX:=unit) db6.
Proof.
  eapply reachable_step; [|by apply (start_step true)].
  eapply reachable_step; [apply reachable4|by apply (start_step true)].
Qed.

Lemma reachable8 : reachable (IX:=unit) db8.
Proof. eapply reachable_step; [|apply step78]. eapply reachable_step; [apply reachable6|apply step67]. Qed.

Lemma others69 : steps_of_others (IX:=unit) (transaction_id (tx_at db6 0)) db6 db9.
Proof.
  eapply rtc_l; [exists (transaction_id (tx_at db6 1)); split; [vm_compute; discriminate|apply step67]|].
  eapply rtc_l; [exists (transaction_id (tx_at db7 1)); split; [vm_compute; discriminate|apply step78]|].
  eapply rtc_l; [exists (transaction_id (tx_at db8 1)); split; [vm_compute; discriminate|apply step89]|].
  apply rtc_refl.
Qed.
End Example.





Lemma quiescent_clean_witness :
  active_transactions (db_tm Example.db4) = [] ∧ old_transactions (db_tm Example.db4) = [] ∧
  ∀ cp c r, chunks (db_rows Example.db4) !! cp = Some c → version_pointers c !! r = None.
Proof.
  split; [vm_compute; reflexivity|].
  apply (quiescent_clean Example.db4 Example.reachable4). vm_compute. reflexivity.
Defined.

(** ** Writing a row that was deleted meanwhile

    [Delete] and [Update] only refuse a row whose newest version belongs to a
    running transaction.  A row deleted by a transaction that committed after
    the writer started passes the test, and the version that is saved for it
    claims that the row still exists: a third transaction, which saw the
    deletion, sees the row again. *)
Module LostDelete.
Definition dbA : Example.db_type := Example.commit Example.db7 1.
Definition dbB : Example.db_type := Example.start dbA.
Definition t3 : Transaction := Example.tx_at dbB 1.
Definition dbC : Example.db_type := Example.run dbB 0 (Delete 0 (Example.row_ids [0]%Z)).

Definition column0 (r : result (list DataChunk)) : list (option cell) :=
  match r with Ok out => out ≫= fun ch => dc_data ch ≫= vec_cells | _ => [] end.

(** The second deletion is accepted, and it brings the row 1 back for [t3]. *)
Lemma deleted_row_reappears :
  fst (run_op dbB 0 (Example.tx_at dbB 0) tt (Delete 0 (Example.row_ids [0]%Z))) = Ok tt ∧
  column0 (ScanTable (db_rows dbB) t3 0 [T_INTEGER] [Column 0]) = [Some (Num 4 2)] ∧
  column0 (ScanTable (db_rows dbC) t3 0 [T_INTEGER] [Column 0]) = [Some (Num 4 1); Some (Num 4 2)].
Proof. vm_compute. auto. Qed.
End LostDelete.
