(* ===== verification/Statements.v ===== *)
(** * What a statement does

    The table operations as a transaction of a reachable database runs them:
    scans return the tuples the transaction sees, each once; appends, deletes
    and updates change what the transaction itself sees in the intended way,
    and nothing that another transaction sees; a conflict or a violated
    constraint is an error. *)

From Stdlib Require Import ZArith Lia.
From stdpp Require Import base gmap list strings option numbers sorting relations.
From S2P Require Import Prelude Types Vector Tuple Storage Versions DataTable TableScan TableOps TableAppend WriteAheadLog UndoBuffer UndoProofs TransactionManager TransactionProofs Database Isolation.

Section statements.
Context {CS E Q : Type} `{!CatalogUndo CS E Q, !CatalogLaws CS E Q} {IX : Type} `{!TableIndexes IX}.
Implicit Types db : Database CS E Q.

(** The state a statement of the transaction [t] starts from. *)
Definition statement_state db (t : Transaction) (ix : IX) : tstate IX := mkTState t (db_rows db) ix.

Lemma statement_wf db H t ix :
  db_inv db H → t ∈ active_transactions (db_tm db) → wf_state (statement_state db t ix) H.
Proof.
  intros Hinv Ht. pose proof (inv_core _ _ Hinv) as Hco. split; [apply Hco|]. split; [apply Hco|].
  simpl. by destruct (co_active _ _ _ _ _ _ _ Hco t Ht).
Qed.


(** C7. An append that passes the constraints and the unique keys succeeds:
    the rows of the chunk are added after the last row, in order, visible to
    the transaction and to nobody else. *)
Theorem append_visible db H t ix tp tbl c info chunk ix1 ix2 :
  db_inv db H → t ∈ active_transactions (db_tm db) →
  tables (db_rows db) !! tp = Some tbl → chunks (db_rows db) !! dt_tail_chunk tbl = Some c →
  chunk_ok (dt_types tbl) chunk → 0 < chunk_size chunk ≤ STANDARD_VECTOR_SIZE →
  column_count chunk = length (tc_columns info) →
  VerifyConstraints (tc_constraints info) chunk = Ok tt →
  unique_append ix t (db_rows db) chunk (sc_start c + sc_count c) = Ok ix1 →
  index_append (update_statistics ix1 0 (take (length (dt_types tbl)) (dc_data chunk))) chunk
    (sc_start c + sc_count c) = Ok ix2 →
  ∃ s' H', Append tp info chunk (statement_state db t ix) = (Ok tt, s') ∧ st_ix s' = ix2 ∧
    extends t (st_tx s') (db_rows db) (st_rows s') H H' ∧
    same_views (statement_state db t ix) s' H H' ∧
    ∀ k, k < chunk_size chunk →
      row_added (st_rows s') H' (st_tx s') tp (sc_start c + sc_count c) (dc_data chunk) k.
Proof.
  intros Hinv Ht. intros. eapply (Append_spec (statement_state db t ix) H); [by apply statement_wf|done..].
Qed.

(** C9. A delete hides the rows from the transaction, or reports a conflict
    when one of them has a newer version of another running transaction; no
    other transaction sees a difference, unless one of the rows was deleted by
    someone else before. *)
Theorem delete_outcome db H t (ix : IX) tp ids cp rs :
  db_inv db H → t ∈ active_transactions (db_tm db) → row_targets (db_rows db) tp ids cp rs →
  ∃ s' H', Delete tp ids (statement_state db t ix) =
      ((if decide (Forall (fun r => conflict_free t (H cp r)) rs) then Ok tt
        else Throw TransactionException), s') ∧
    changes (statement_state db t ix) s' H H' ∧ st_ix s' = ix ∧
    (Forall (isolated (statement_state db t ix) H cp) rs → same_views (statement_state db t ix) s' H H') ∧
    (Forall (fun r => conflict_free t (H cp r)) rs → ∀ r, r ∈ rs → view (st_rows s') H' (st_tx s') cp r = None).
Proof.
  intros Hinv Ht Hr. exact (Delete_spec (statement_state db t ix) H tp ids cp rs (statement_wf _ _ _ _ Hinv Ht) Hr).
Qed.

(** C8. An update that passes the constraints and the unique keys gives the
    rows their new values in the updated columns and keeps the others, or
    reports a conflict; no other transaction sees a difference, unless one of
    the rows was deleted by someone else before. *)
Theorem update_outcome db H t ix tp info ids column_ids updates cp rs c tbl xss ix1 ix2 :
  db_inv db H → t ∈ active_transactions (db_tm db) → row_targets (db_rows db) tp ids cp rs →
  chunks (db_rows db) !! cp = Some c → tables (db_rows db) !! sc_table c = Some tbl →
  VerifyConstraints (tc_constraints info) updates = Ok tt →
  unique_update ix t (db_rows db) cp column_ids updates ids = Ok ix1 →
  index_update ix1 column_ids updates ids = Ok ix2 →
  length column_ids = length (dc_data updates) →
  Forall2 (fun cv xs => update_values tbl cv.1 cv.2 (Exec ids 0 0) xs)
    (zip column_ids (dc_data updates)) xss →
  ∃ s' H', Update tp info ids column_ids updates (statement_state db t ix) =
      ((if decide (Forall (fun r => conflict_free t (H cp r)) rs) then Ok tt
        else Throw TransactionException), s') ∧
    changes (statement_state db t ix) s' H H' ∧
    (Forall (isolated (statement_state db t ix) H cp) rs → same_views (statement_state db t ix) s' H H') ∧
    (Forall (fun r => conflict_free t (H cp r)) rs → ∀ r, r ∈ rs → r ∉ deleted c →
       view (st_rows s') H' (st_tx s') cp r
       = update_tuple (zip column_ids (zip rs <$> xss)) r <$> row_at (columns c) r).
Proof.
  intros Hinv Ht. intros. eapply (Update_spec (statement_state db t ix) H); [by apply statement_wf|done..].
Qed.

End statements.

(** ** The statements of the example run *)

Lemma example_tx (db : Example.db_type) i : is_Some (active_transactions (db_tm db) !! i) →
  Example.tx_at db i ∈ active_transactions (db_tm db).
Proof. intros [t Ht]. unfold Example.tx_at. rewrite Ht. by eapply list_elem_of_lookup_2. Qed.

Lemma reachable2 : reachable (IX:=unit) Example.db2.
Proof.
  eapply Example.reachable_step; [|apply (Example.step12 true)].
  eapply Example.reachable_step; [exact Example.reachable0|by apply (Example.start_step true)].
Qed.

Lemma reachable7 : reachable (IX:=unit) Example.db7.
Proof. eapply Example.reachable_step; [apply Example.reachable6|apply Example.step67]. Qed.

Lemma targets (db : Example.db_type) (i : nat) :
  chunks (db_rows db) !! 0 ≠ None →
  GetChunk (db_rows db) 0 i = Ok 0 →
  row_id (Example.row_ids [Z.of_nat i]) 0 = Ok i →
  (∀ c, chunks (db_rows db) !! 0 = Some c → chunk_row c (Example.row_ids [Z.of_nat i]) 0 = Ok i) →
  row_targets (db_rows db) 0 (Example.row_ids [Z.of_nat i]) 0 [i].
Proof.
  intros Hc Hg Hid Hrow. destruct (chunks (db_rows db) !! 0) as [c|] eqn:E; [|done].
  split; [done|]. split; [done|]. exists c, i. split_and!; try done. constructor; [by apply Hrow|constructor].
Qed.


Lemma append_visible_witness : ∃ s',
  Append 0 Example.info (Example.one_column [5; 6]%Z) (statement_state Example.db2 (Example.tx_at Example.db2 0) tt)
    = (Ok tt, s').
Proof.
  destruct (reachable_db_inv (IX:=unit) Example.db2 reachable2) as [H Hinv].
  destruct (tables (db_rows Example.db2) !! 0) as [tbl|] eqn:Ht; [|vm_compute in Ht; discriminate].
  assert (dt_tail_chunk tbl = 0 ∧ dt_types tbl = [T_INTEGER]) as [Htail Hty]
    by (vm_compute in Ht; injection Ht as <-; split; reflexivity).
  destruct (chunks (db_rows Example.db2) !! 0) as [c|] eqn:Hc; [|vm_compute in Hc; discriminate].
  destruct (append_visible Example.db2 H (Example.tx_at Example.db2 0) tt 0 tbl c Example.info
    (Example.one_column [5; 6]%Z) tt tt) as (s' & _ & Hs & _).
  - exact Hinv.
  - apply example_tx. vm_compute. eexists. reflexivity.
  - exact Ht.
  - rewrite Htail. exact Hc.
  - rewrite Hty. apply Example.chunk_ok_one. repeat constructor.
  - split; [apply Nat.ltb_lt; vm_compute; reflexivity|]. apply Nat.leb_le. vm_compute. reflexivity.
  - reflexivity.
  - reflexivity.
  - reflexivity.
  - destruct (update_statistics _ _ _). reflexivity.
  - exists s'. exact Hs.
Defined.

Lemma delete_outcome_witness : ∃ H s' H',
  Delete 0 (Example.row_ids [0]%Z) (statement_state Example.db6 (Example.tx_at Example.db6 1) tt) =
    ((if decide (Forall (fun r => conflict_free (Example.tx_at Example.db6 1) (H 0 r)) [0]) then Ok tt
      else Throw TransactionException), s') ∧
  changes (statement_state Example.db6 (Example.tx_at Example.db6 1) tt) s' H H'.
Proof.
  destruct (reachable_db_inv (IX:=unit) Example.db6 Example.reachable6) as [H Hinv].
  destruct (delete_outcome Example.db6 H (Example.tx_at Example.db6 1) tt 0 (Example.row_ids [0]%Z) 0 [0])
    as (s' & H' & Hs & Hch & _);
    [exact Hinv|apply example_tx; vm_compute; eexists; reflexivity| |exists H, s', H'; split; [exact Hs|exact Hch]].
  apply (targets Example.db6 0); [vm_compute; discriminate|vm_compute; reflexivity..|].
  intros c Hc. vm_compute in Hc. injection Hc as <-. reflexivity.
Defined.

Lemma update_outcome_witness : ∃ H s' H',
  Update 0 Example.info (Example.row_ids [1]%Z) [0] (Example.one_column [7]%Z)
    (statement_state Example.db7 (Example.tx_at Example.db7 1) tt) =
    ((if decide (Forall (fun r => conflict_free (Example.tx_at Example.db7 1) (H 0 r)) [1]) then Ok tt
      else Throw TransactionException), s') ∧
  changes (statement_state Example.db7 (Example.tx_at Example.db7 1) tt) s' H H'.
Proof.
  destruct (reachable_db_inv (IX:=unit) Example.db7 reachable7) as [H Hinv].
  destruct (chunks (db_rows Example.db7) !! 0) as [c|] eqn:Hc; [|vm_compute in Hc; discriminate].
  assert (sc_table c = 0) as Htab by (vm_compute in Hc; injection Hc as <-; reflexivity).
  destruct (tables (db_rows Example.db7) !! 0) as [tbl|] eqn:Ht; [|vm_compute in Ht; discriminate].
  destruct (update_outcome Example.db7 H (Example.tx_at Example.db7 1) tt 0 Example.info (Example.row_ids [1]%Z) [0]
    (Example.one_column [7]%Z) 0 [1] c tbl [[Num 4 7]] tt tt) as (s' & H' & Hs & Hch & _).
  - exact Hinv.
  - apply example_tx. vm_compute. eexists. reflexivity.
  - apply (targets Example.db7 1); [vm_compute; discriminate|vm_compute; reflexivity..|].
    intros c' Hc'. vm_compute in Hc'. injection Hc' as <-. reflexivity.
  - exact Hc.
  - rewrite Htab. exact Ht.
  - reflexivity.
  - reflexivity.
  - reflexivity.
  - reflexivity.
  - constructor; [|constructor]. eexists _, T_INTEGER. split; [vm_compute; reflexivity|].
    split; [vm_compute in Ht; injection Ht as <-; reflexivity|]. constructor; [|constructor]. split; vm_compute; reflexivity.
  - exists H, s', H'. split; [exact Hs|exact Hch].
Defined.

(** A table whose column must not be NULL. *)
Definition strict_info : TableCatalogInfo := mkTableCatalogInfo [T_INTEGER] [CNotNull 0].
Definition a_null : DataChunk := mkDataChunk [mkVector T_INTEGER 1 (Example.numbers [0]%Z) None {[0]}] None.

