(* ===== verification/CatalogSet.v ===== *)
(** * Catalog sets

    Models [src/src/catalog/catalog_set.cpp],
    [src/src/include/catalog/catalog_entry.hpp] and the catalog part of
    [src/src/transaction/undo_buffer.cpp]: named entries with their older
    versions, chained by [child] and [parent] pointers, created, altered,
    dropped and looked up by concurrent transactions.  The entries live in a
    heap; a [CatalogSet] is a member of the object that owns it, so it is
    identified by the address of that object.

    An entry is freed when the [unique_ptr] to it is overwritten.  The sets
    inside a freed schema are not reclaimed here; nothing below reaches them
    through a freed entry. *)

From Stdlib Require Import ZArith Lia.
From stdpp Require Import base gmap list strings option numbers sorting.
From S2P Require Import Prelude Types Vector Tuple Storage Versions WriteAheadLog UndoBuffer.

(** ** Entries *)

Inductive CatalogType : Type :=
| CT_INVALID | CT_TABLE | CT_SCHEMA | CT_TABLE_FUNCTION | CT_SCALAR_FUNCTION
| CT_VIEW | CT_INDEX | CT_UPDATED_ENTRY | CT_DELETED_ENTRY | CT_PREPARED_STATEMENT.

#[export] Instance CatalogType_eq_dec : EqDecision CatalogType.
Proof. solve_decision. Defined.

(** The sets: the schemas of the catalog, the four members of the schema at an
    address, and the prepared statements of a connection. *)
Inductive set_id : Type :=
| Schemas
| Tables (schema : nat)
| Indexes (schema : nat)
| TableFunctions (schema : nat)
| ScalarFunctions (schema : nat)
| PreparedStatements (connection : nat).

#[export] Instance set_id_eq_dec : EqDecision set_id.
Proof. solve_decision. Defined.
#[export] Instance set_id_countable : Countable set_id.
Proof.
  refine (inj_countable'
    (fun s => match s with
              | Schemas => (0, 0) | Tables n => (1, n) | Indexes n => (2, n)
              | TableFunctions n => (3, n) | ScalarFunctions n => (4, n)
              | PreparedStatements n => (5, n)
              end)
    (fun p => match p with
              | (1, n) => Tables n | (2, n) => Indexes n | (3, n) => TableFunctions n
              | (4, n) => ScalarFunctions n | (5, n) => PreparedStatements n | _ => Schemas
              end) _).
  by intros [].
Defined.

(** What the subclasses of [CatalogEntry] add: a table its definition and its
    storage, a view its definition, a function its number of arguments, a
    prepared statement the tables it uses. *)
Inductive entry_data (E Q : Type) : Type :=
| DNone
| DTable (info : CreateTableInformation E) (storage : nat)
| DView (info : CreateViewInformation Q)
| DFunction (arguments : nat)
| DPrepared (tables : list nat).
Arguments DNone {E Q}.
Arguments DTable {E Q}.
Arguments DView {E Q}.
Arguments DFunction {E Q}.
Arguments DPrepared {E Q}.

(** A value that is not in a set yet. *)
Record EntryValue (E Q : Type) : Type := mkValue {
  ev_type : CatalogType;
  ev_name : string;
  ev_deleted : bool;
  ev_data : entry_data E Q }.
Arguments mkValue {E Q}.
Arguments ev_type {E Q}.
Arguments ev_name {E Q}.
Arguments ev_deleted {E Q}.
Arguments ev_data {E Q}.

Record CatalogEntry (E Q : Type) : Type := mkEntry {
  ce_value : EntryValue E Q;
  ce_set : set_id;
  ce_timestamp : Z;
  ce_child : option nat;
  ce_parent : option nat }.
Arguments mkEntry {E Q}.
Arguments ce_value {E Q}.
Arguments ce_set {E Q}.
Arguments ce_timestamp {E Q}.
Arguments ce_child {E Q}.
Arguments ce_parent {E Q}.

Record catalog (E Q : Type) : Type := mkCatalog {
  cat_entries : gmap nat (CatalogEntry E Q);
  cat_sets : gmap set_id (gmap string nat);
  next_entry : nat;
  connections : list nat }.
Arguments mkCatalog {E Q}.
Arguments cat_entries {E Q}.
Arguments cat_sets {E Q}.
Arguments next_entry {E Q}.
Arguments connections {E Q}.

Section sets.
Context {E Q : Type}.
Implicit Types (cs : catalog E Q) (e : CatalogEntry E Q) (v : EntryValue E Q).

(** The member [data] of a set. *)
Definition set_data cs (s : set_id) : gmap string nat := default ∅ (cat_sets cs !! s).

Definition set_entry cs (k : nat) e : catalog E Q :=
  mkCatalog (<[k := e]> (cat_entries cs)) (cat_sets cs) (next_entry cs) (connections cs).
Definition free_entry cs (k : nat) : catalog E Q :=
  mkCatalog (delete k (cat_entries cs)) (cat_sets cs) (next_entry cs) (connections cs).
Definition set_head cs (s : set_id) (name : string) (k : nat) : catalog E Q :=
  mkCatalog (cat_entries cs) (<[s := <[name := k]> (set_data cs s)]> (cat_sets cs))
    (next_entry cs) (connections cs).

Definition set_parent (p : option nat) e : CatalogEntry E Q :=
  mkEntry (ce_value e) (ce_set e) (ce_timestamp e) (ce_child e) p.
Definition set_child (c : option nat) e : CatalogEntry E Q :=
  mkEntry (ce_value e) (ce_set e) (ce_timestamp e) c (ce_parent e).
Definition set_timestamp (z : Z) e : CatalogEntry E Q :=
  mkEntry (ce_value e) (ce_set e) z (ce_child e) (ce_parent e).

(** [make_unique<CatalogEntry>]: an entry on the heap that is in no chain yet. *)
Definition alloc_entry cs e : catalog E Q :=
  mkCatalog (<[next_entry cs := e]> (cat_entries cs)) (cat_sets cs) (S (next_entry cs)) (connections cs).

(** ** Looking up *)

(** [CatalogSet::GetEntryForTransaction]: down the chain to the first version
    the transaction may see.  The fuel is the number of entries, which bounds
    the length of a chain. *)
Fixpoint GetEntryForTransaction (fuel : nat) cs (tx : Transaction) (current : nat) : result nat :=
  match fuel with
  | 0 => Undef
  | S fuel' =>
    e ← deref (cat_entries cs !! current);
    match ce_child e with
    | None => Ok current
    | Some child =>
      if (ce_timestamp e =? transaction_id tx)%Z then Ok current
      else if (ce_timestamp e <? start_time tx)%Z then Ok current
      else GetEntryForTransaction fuel' cs tx child
    end
  end.

Definition version_for cs (tx : Transaction) (k : nat) : result nat :=
  GetEntryForTransaction (size (cat_entries cs)) cs tx k.

(** [CatalogSet::GetEntry] *)
Definition GetEntry cs (tx : Transaction) (s : set_id) (name : string) : result (option nat) :=
  match set_data cs s !! name with
  | None => Ok None
  | Some k =>
    k ← version_for cs tx k;
    e ← deref (cat_entries cs !! k);
    mret (if ev_deleted (ce_value e) then None else Some k)
  end.

(** [CatalogSet::Scan]: the entries the callback is called with. *)
Definition Scan_set cs (tx : Transaction) (s : set_id) : result (list nat) :=
  ks ← mapM (fun nk : string * nat =>
          k ← version_for cs tx nk.2;
          e ← deref (cat_entries cs !! k);
          mret (if ev_deleted (ce_value e) then None else Some k))
        (map_to_list (set_data cs s));
  mret (omap id ks).

(** [CatalogSet::IsEmpty] *)
Definition IsEmpty cs (tx : Transaction) (s : set_id) : result bool :=
  ks ← Scan_set cs tx s;
  mret (bool_decide (ks = [])).

(** ** Changing a set *)

(** The state of a call: the transaction with its undo buffer, the catalog. *)
Record cat_state : Type := mkCatState { cx_tx : Transaction; cx_cat : catalog E Q }.

(** The write-write conflict test of [CreateEntry], [AlterEntry] and
    [DropEntry]. *)
Definition entry_conflict (tx : Transaction) e : bool :=
  (TRANSACTION_ID_START <=? ce_timestamp e)%Z && negb (ce_timestamp e =? transaction_id tx)%Z.

(** Putting a new version in front of the current one, which goes to the undo
    buffer. *)
Definition push_entry (s : set_id) (name : string) v : M cat_state unit :=
  st ← get_M;
  let cs := cx_cat st in
  child ← lift_M (deref (set_data cs s !! name));
  c ← lift_M (deref (cat_entries cs !! child));
  let value := next_entry cs in
  let cs := alloc_entry cs (mkEntry v s (transaction_id (cx_tx st)) (Some child) None) in
  let cs := set_entry cs child (set_parent (Some value) c) in
  modify_M (fun st => mkCatState (PushCatalogEntry (cx_tx st) child) (set_head cs s name value)).

(** The dummy below an entry that never existed before. *)
Definition dummy_value (name : string) : EntryValue E Q := mkValue CT_INVALID name true DNone.
Definition add_dummy cs (s : set_id) (name : string) : catalog E Q :=
  set_head (alloc_entry cs (mkEntry (dummy_value name) s 0 None None)) s name (next_entry cs).

(** [CatalogSet::CreateEntry] *)
Definition CreateEntry_set (s : set_id) (name : string) v : M cat_state bool :=
  st ← get_M;
  match set_data (cx_cat st) s !! name with
  | None =>
    _ ← modify_M (fun st => mkCatState (cx_tx st) (add_dummy (cx_cat st) s name));
    _ ← push_entry s name v;
    mret true
  | Some k =>
    current ← lift_M (deref (cat_entries (cx_cat st) !! k));
    if entry_conflict (cx_tx st) current then throw_M TransactionException else
    if negb (ev_deleted (ce_value current)) then mret false else
    _ ← push_entry s name v;
    mret true
  end.

(** [CatalogSet::AlterEntry]; [alter] is the virtual [CatalogEntry::AlterEntry]. *)
Definition AlterEntry (alter : EntryValue E Q -> result (EntryValue E Q)) (s : set_id) (name : string)
    : M cat_state bool :=
  st ← get_M;
  match set_data (cx_cat st) s !! name with
  | None => mret false
  | Some k =>
    current ← lift_M (deref (cat_entries (cx_cat st) !! k));
    if entry_conflict (cx_tx st) current then throw_M TransactionException else
    v ← lift_M (alter (ce_value current));
    _ ← push_entry s name v;
    mret true
  end.

(** [SchemaCatalogEntry::HasDependents], [TableCatalogEntry::HasDependents]
    and the default of [CatalogEntry]. *)
Definition HasDependents cs (tx : Transaction) (k : nat) v : result bool :=
  match ev_type v with
  | CT_SCHEMA =>
    tables ← IsEmpty cs tx (Tables k);
    table_functions ← IsEmpty cs tx (TableFunctions k);
    scalar_functions ← IsEmpty cs tx (ScalarFunctions k);
    mret (negb tables || negb table_functions || negb scalar_functions)
  | CT_TABLE =>
    kss ← mapM (fun c => Scan_set cs tx (PreparedStatements c)) (connections cs);
    mret (existsb (fun p =>
      match ev_data ∘ ce_value <$> cat_entries cs !! p with
      | Some (DPrepared tables) => bool_decide (k ∈ tables)
      | _ => false
      end) (concat kss))
  | _ => Ok false
  end.

Definition deleted_value (name : string) : EntryValue E Q := mkValue CT_DELETED_ENTRY name true DNone.

(** [CatalogSet::DropEntry(transaction, current, cascade)].  Dropping a schema
    drops the entries of its sets, which contain no schemas: a depth of two is
    enough. *)
Fixpoint DropEntry_at (depth : nat) (s : set_id) (k : nat) (cascade : bool) : M cat_state bool :=
  match depth with
  | 0 => lift_M Undef
  | S depth' =>
    st ← get_M;
    current ← lift_M (deref (cat_entries (cx_cat st) !! k));
    let v := ce_value current in
    if entry_conflict (cx_tx st) current then throw_M TransactionException else
    if ev_deleted v then mret false else
    let drop_all (s' : set_id) : M cat_state unit :=
      st ← get_M;
      for_M (map_to_list (set_data (cx_cat st) s')).*1 (fun name =>
        st ← get_M;
        k' ← lift_M (deref (set_data (cx_cat st) s' !! name));
        _ ← DropEntry_at depth' s' k' true;
        mret tt) in
    _ ← (if cascade then
           if bool_decide (ev_type v = CT_SCHEMA) then
             _ ← drop_all (Tables k);
             _ ← drop_all (TableFunctions k);
             drop_all (ScalarFunctions k)
           else mret tt
         else
           dependents ← lift_M (HasDependents (cx_cat st) (cx_tx st) k v);
           if dependents : bool then throw_M CatalogException else mret tt);
    _ ← push_entry s (ev_name v) (deleted_value (ev_name v));
    mret true
  end.

Definition DROP_DEPTH : nat := 2.

(** [CatalogSet::DropEntry(transaction, name, cascade)] *)
Definition DropEntry (s : set_id) (name : string) (cascade : bool) : M cat_state bool :=
  st ← get_M;
  match set_data (cx_cat st) s !! name with
  | None => mret false
  | Some k => DropEntry_at DROP_DEPTH s k cascade
  end.

(** ** The undo buffer's operations *)

(** [CatalogSet::Undo]: with a parent above the node to be removed, the
    sources read the node after freeing it. *)
Definition Undo cs (k : nat) : result (catalog E Q) :=
  e ← deref (cat_entries cs !! k);
  p ← deref (ce_parent e);
  to_be_removed ← deref (cat_entries cs !! p);
  match ce_parent to_be_removed with
  | Some _ => Undef
  | None =>
    head ← deref (ce_child to_be_removed);
    let cs := set_head cs (ce_set e) (ev_name (ce_value e)) head in
    mret (set_entry (free_entry cs p) k (set_parent None e))
  end.

(** The catalog branch of [UndoBuffer::Cleanup]. *)
Definition cleanup_catalog cs (k : nat) : result (catalog E Q) :=
  e ← deref (cat_entries cs !! k);
  p ← deref (ce_parent e);
  parent ← deref (cat_entries cs !! p);
  if bool_decide (ev_type (ce_value parent) = CT_UPDATED_ENTRY) then Ok cs
  else mret (free_entry (set_entry cs p (set_child (ce_child e) parent)) k).

(** The catalog branch of [UndoBuffer::Commit]. *)
Definition commit_catalog cs (k : nat) (commit_id : Z) : result (catalog E Q) :=
  e ← deref (cat_entries cs !! k);
  p ← deref (ce_parent e);
  parent ← deref (cat_entries cs !! p);
  mret (set_entry cs p (set_timestamp commit_id parent)).

Definition log_create v : result (option (wal_entry E Q)) :=
  match ev_type v, ev_data v with
  | CT_TABLE, DTable info _ => Ok (Some (WCreateTable info))
  | CT_SCHEMA, _ => Ok (Some (WCreateSchema (ev_name v)))
  | CT_VIEW, DView info => Ok (Some (WCreateView info))
  | _, _ => Undef
  end.

Definition log_drop v : result (option (wal_entry E Q)) :=
  match ev_type v, ev_data v with
  | CT_TABLE, DTable info _ => Ok (Some (WDropTable (ct_schema info) (ev_name v)))
  | CT_SCHEMA, _ => Ok (Some (WDropSchema (ev_name v)))
  | CT_VIEW, DView info => Ok (Some (WDropView (cv_schema info) (ev_name v)))
  | CT_PREPARED_STATEMENT, _ => Ok None
  | (CT_TABLE | CT_VIEW), _ => Undef
  | _, _ => Throw NotImplementedException
  end.

(** [WriteCatalogEntry(log, entry)], from the values of the entry and of its
    parent. *)
Definition WriteCatalogEntry (entry parent : EntryValue E Q) : result (option (wal_entry E Q)) :=
  match ev_type parent with
  | CT_TABLE => if bool_decide (ev_type entry = CT_TABLE) then Ok None else log_create parent
  | CT_SCHEMA => if bool_decide (ev_type entry = CT_SCHEMA) then Ok None else log_create parent
  | CT_VIEW => log_create parent
  | CT_DELETED_ENTRY => log_drop entry
  | CT_PREPARED_STATEMENT => Ok None
  | _ => Throw NotImplementedException
  end.

Definition log_catalog cs (k : nat) : result (option (wal_entry E Q)) :=
  e ← deref (cat_entries cs !! k);
  p ← deref (ce_parent e);
  parent ← deref (cat_entries cs !! p);
  WriteCatalogEntry (ce_value e) (ce_value parent).

#[export] Instance catalog_undo : CatalogUndo (catalog E Q) E Q := {
  cat_commit := commit_catalog;
  cat_log := log_catalog;
  cat_undo := Undo;
  cat_cleanup := cleanup_catalog }.
End sets.
Arguments cat_state E Q : clear implicits.
