(* ===== verification/CatalogProofs.v ===== *)
(** * Catalog sets: the chains of versions and what transactions see

    The well-formedness of the heap of [CatalogSet.v]: every entry sits in the
    chain of its set and name, chains are ordered by the transactions that
    wrote them, and every replacement has a form that the write-ahead log
    knows.  The last part shows that the catalog keeps the promises
    [CatalogLaws] that the undo buffer and the transaction manager rely on. *)

From Stdlib Require Import ZArith Lia.
From stdpp Require Import base gmap list strings option numbers sorting.
From S2P Require Import Prelude Types Vector Tuple Storage Versions WriteAheadLog UndoBuffer CatalogSet.

Section theory.
Context {E Q : Type}.
Implicit Types (cs : catalog E Q) (e : CatalogEntry E Q) (v : EntryValue E Q) (h : gmap nat (CatalogEntry E Q)).

(** ** Chains *)

(** The heap holds the chain [l] from the pointer [o] on, its first entry
    below [parent]. *)
Fixpoint chain h (parent o : option nat) (l : list nat) : Prop :=
  match l with
  | [] => o = None
  | k :: l' => o = Some k ∧ ∃ e, h !! k = Some e ∧ ce_parent e = parent ∧ chain h (Some k) (ce_child e) l'
  end.

(** [p] comes before [k] in a chain: it was allocated later, and unless [k] is
    the end of its chain, it was written by the same transaction or [k] was
    committed before. *)
Definition supersedes h (p k : nat) : Prop :=
  k < p ∧ ∀ ep ek, h !! p = Some ep → h !! k = Some ek → is_Some (ce_child ek) →
    ce_timestamp ek = ce_timestamp ep ∨
    (ce_timestamp ek < ce_timestamp ep ∧ ce_timestamp ek < TRANSACTION_ID_START)%Z.

(** The type tag of an entry, where its data and its set agree with it. *)
Definition value_typed (s : set_id) v : Prop :=
  if ev_deleted v then ev_type v = CT_INVALID ∨ ev_type v = CT_DELETED_ENTRY
  else match s, ev_type v, ev_data v with
       | Schemas, CT_SCHEMA, _ => True
       | Tables _, CT_TABLE, DTable _ _ => True
       | Tables _, CT_VIEW, DView _ => True
       | Indexes _, CT_INDEX, _ => True
       | TableFunctions _, CT_TABLE_FUNCTION, DFunction _ => True
       | ScalarFunctions _, CT_SCALAR_FUNCTION, DFunction _ => True
       | PreparedStatements _, CT_PREPARED_STATEMENT, DPrepared _ => True
       | _, _, _ => False
       end.

(** The replacement of [v] by [v'] can be written to the log. *)
Definition loggable v v' : Prop := ∃ o, WriteCatalogEntry v v' = Ok o.

Definition history : Type := set_id → string → list nat.

Definition gupd (G : history) (s : set_id) (name : string) (l : list nat) : history :=
  fun s' name' => if decide (s' = s ∧ name' = name) then l else G s' name'.

Record chains_wf cs (G : history) : Prop := {
  cw_chain : ∀ s name, chain (cat_entries cs) None (set_data cs s !! name) (G s name);
  cw_place : ∀ k e, cat_entries cs !! k = Some e → k ∈ G (ce_set e) (ev_name (ce_value e));
  cw_member : ∀ s name k, k ∈ G s name → ∃ e, cat_entries cs !! k = Some e ∧
    ce_set e = s ∧ ev_name (ce_value e) = name;
  cw_sorted : ∀ s name, StronglySorted (supersedes (cat_entries cs)) (G s name);
  cw_last : ∀ k e, cat_entries cs !! k = Some e → ce_child e = None → (ce_timestamp e < TRANSACTION_ID_START)%Z;
  cw_fresh : ∀ k e, cat_entries cs !! k = Some e → k < next_entry cs;
  cw_typed : ∀ k e, cat_entries cs !! k = Some e → value_typed (ce_set e) (ce_value e);
  cw_log : ∀ p ep k ek, cat_entries cs !! p = Some ep → ce_child ep = Some k →
    cat_entries cs !! k = Some ek → loggable (ce_value ek) (ce_value ep) }.

Definition catalog_wf cs : Prop := ∃ G, chains_wf cs G.


(** A chain split at one of its entries. *)
Lemma chain_split h parent o l1 k l2 :
  chain h parent o (l1 ++ k :: l2) →
  ∃ e, h !! k = Some e ∧ ce_parent e = match last l1 with Some p => Some p | None => parent end ∧
    chain h (Some k) (ce_child e) l2.
Proof.
  revert parent o. induction l1 as [|x l1 IH]; intros parent o; cbn [chain app].
  - intros (_ & e & He & Hp & Hc). eauto.
  - intros (_ & e & He & Hp & Hc). destruct (IH _ _ Hc) as (e' & He' & Hp' & Hc').
    exists e'. split_and!; try done. rewrite last_cons. by destruct (last l1).
Qed.

Lemma chain_head h parent o l : chain h parent o l → o = head l.
Proof. by destruct l; [|intros [-> _]]. Qed.

Lemma chain_frame h h' parent o l :
  chain h parent o l → (∀ k, k ∈ l → h' !! k = h !! k) → chain h' parent o l.
Proof.
  revert parent o. induction l as [|k l IH]; intros parent o; cbn [chain]; [done|].
  intros (-> & e & He & Hp & Hc) Hf. split; [done|]. exists e.
  split_and!; [rewrite Hf by left; done|done|]. apply IH; [done|]. intros k' Hk'. apply Hf. by right.
Qed.

Lemma sorted_NoDup h l : StronglySorted (supersedes h) l → NoDup l.
Proof.
  induction 1 as [|k l _ IH Hk]; constructor; [|done]. intros Hin.
  rewrite Forall_forall in Hk. destruct (Hk _ Hin) as [? _]. lia.
Qed.

Section wf.
Context cs (G : history) (Hwf : chains_wf cs G).

(** The two ends of a link between consecutive entries. *)
Lemma link_child p ep k :
  cat_entries cs !! p = Some ep → ce_child ep = Some k →
  ∃ l1 l2 ek, G (ce_set ep) (ev_name (ce_value ep)) = l1 ++ p :: k :: l2 ∧
    cat_entries cs !! k = Some ek ∧ ce_parent ek = Some p ∧
    ce_set ek = ce_set ep ∧ ev_name (ce_value ek) = ev_name (ce_value ep) ∧
    ce_child ek = head l2 ∧ ce_parent ep = last l1.
Proof.
  intros Hp Hc. pose proof (cw_place _ _ Hwf _ _ Hp) as (l1 & l & Hl)%list_elem_of_split.
  pose proof (cw_chain _ _ Hwf (ce_set ep) (ev_name (ce_value ep))) as Hch. rewrite Hl in Hch.
  destruct (chain_split _ _ _ _ _ _ Hch) as (ep' & Hp' & Hpar & Hch').
  assert (ep' = ep) as -> by congruence. rewrite Hc in Hch'.
  destruct l as [|k' l2]; [done|]. destruct Hch' as ([= <-] & ek & Hk & Hkp & Hkc).
  destruct (cw_member _ _ Hwf (ce_set ep) (ev_name (ce_value ep)) k) as (ek' & Hk' & Hks & Hkn).
  { rewrite Hl. apply elem_of_app. right. right. left. }
  assert (ek' = ek) as -> by congruence. exists l1, l2, ek. split_and!; try done.
  - by apply chain_head in Hkc.
  - rewrite Hpar. by destruct (last l1).
Qed.

Lemma link_parent k ek p :
  cat_entries cs !! k = Some ek → ce_parent ek = Some p →
  ∃ ep, cat_entries cs !! p = Some ep ∧ ce_child ep = Some k.
Proof.
  intros Hk Hp. pose proof (cw_place _ _ Hwf _ _ Hk) as (l1 & l2 & Hl)%list_elem_of_split.
  pose proof (cw_chain _ _ Hwf (ce_set ek) (ev_name (ce_value ek))) as Hch. rewrite Hl in Hch.
  destruct (chain_split _ _ _ _ _ _ Hch) as (ek' & Hk' & Hpar & _).
  assert (ek' = ek) as -> by congruence.
  destruct (exists_last_or_nil l1) as [->|(l & x & ->)]; [simpl in *; congruence|].
  rewrite last_snoc in Hpar. assert (x = p) as -> by congruence.
  rewrite <- app_assoc in Hch. destruct (chain_split _ _ _ _ _ _ Hch) as (ep & Hep & _ & Hc).
  apply chain_head in Hc. eauto.
Qed.

(** Entries of different names are different. *)
Lemma chain_disjoint s name s' name' k :
  k ∈ G s name → k ∈ G s' name' → s' = s ∧ name' = name.
Proof.
  intros (e & He & <- & <-)%(cw_member _ _ Hwf) (e' & He' & <- & <-)%(cw_member _ _ Hwf).
  by simplify_eq.
Qed.

Lemma chain_length s name : length (G s name) ≤ size (cat_entries cs).
Proof.
  rewrite <- size_dom, <- (size_list_to_set (C:=gset nat) (G s name)) by (eapply sorted_NoDup, Hwf).
  apply subseteq_size. intros k Hk%elem_of_list_to_set.
  destruct (cw_member _ _ Hwf _ _ _ Hk) as (e & He & _). by apply elem_of_dom_2 in He.
Qed.
End wf.
End theory.

Section views.
Context {E Q : Type}.
Implicit Types (cs : catalog E Q) (e : CatalogEntry E Q) (v : EntryValue E Q) (h : gmap nat (CatalogEntry E Q)).

(** ** What a transaction finds *)

(** The entry of a chain that a transaction stops at. *)
Fixpoint seen h (tx : Transaction) (l : list nat) : option nat :=
  match l with
  | [] => None
  | k :: l' =>
    match h !! k with
    | Some e => if bool_decide (l' = []) || sees tx (ce_timestamp e) then Some k else seen h tx l'
    | None => None
    end
  end.

Definition found cs (tx : Transaction) (l : list nat) : option (nat * CatalogType * entry_data E Q) :=
  k ← seen (cat_entries cs) tx l;
  e ← cat_entries cs !! k;
  if ev_deleted (ce_value e) then None else Some (k, ev_type (ce_value e), ev_data (ce_value e)).

(** What [GetEntry] gives, with the contents of the entry. *)
Definition catalog_view cs (tx : Transaction) (s : set_id) (name : string)
    : option (nat * CatalogType * entry_data E Q) :=
  match GetEntry cs tx s name with
  | Ok (Some k) => e ← cat_entries cs !! k; Some (k, ev_type (ce_value e), ev_data (ce_value e))
  | _ => None
  end.

Lemma seen_spec cs tx parent hd l fuel :
  chain (cat_entries cs) parent (Some hd) l → length l ≤ fuel →
  ∃ k, seen (cat_entries cs) tx l = Some k ∧ GetEntryForTransaction fuel cs tx hd = Ok k ∧ k ∈ l.
Proof.
  revert parent hd fuel. induction l as [|k l IH]; intros parent hd fuel Hch Hf; [done|].
  destruct Hch as ([= ->] & e & He & _ & Hch). destruct fuel as [|fuel]; simpl in Hf; [lia|].
  cbn [seen GetEntryForTransaction]. rewrite He, deref_Some, bind_ret_Ok. unfold sees.
  assert (∃ k0, Some k = Some k0 ∧ Ok k = Ok k0 ∧ k0 ∈ k :: l) as Hhere by (exists k; split_and!; try done; left).
  destruct (ce_child e) as [c|]; destruct (bool_decide_reflect (l = [])) as [->|Hl]; simpl; try done.
  - destruct (ce_timestamp e =? transaction_id tx)%Z; [done|].
    destruct (ce_timestamp e <? start_time tx)%Z; [done|]. simpl.
    destruct (IH (Some k) c fuel Hch) as (k' & Hs & Hget & Hin); [lia|].
    exists k'. split_and!; try done. by right.
  - destruct l; [done|by destruct Hch].
Qed.

Section wf.
Context cs (G : history) (Hwf : chains_wf cs G).

Lemma version_for_spec tx s name k :
  set_data cs s !! name = Some k →
  ∃ k' e, version_for cs tx k = Ok k' ∧ seen (cat_entries cs) tx (G s name) = Some k' ∧
    cat_entries cs !! k' = Some e ∧ ce_set e = s ∧ ev_name (ce_value e) = name.
Proof.
  intros Hk. pose proof (cw_chain _ _ Hwf s name) as Hch. rewrite Hk in Hch.
  destruct (seen_spec cs tx _ _ _ (size (cat_entries cs)) Hch) as (k' & Hs & Hget & Hin).
  { by apply chain_length. }
  destruct (cw_member _ _ Hwf _ _ _ Hin) as (e & He & Hes & Hen). by exists k', e.
Qed.

(** [GetEntry] always returns, with the entry at which the chain is seen. *)
Lemma GetEntry_spec tx s name :
  GetEntry cs tx s name = Ok ((fun x => x.1.1) <$> found cs tx (G s name)).
Proof.
  unfold GetEntry, found. destruct (set_data cs s !! name) as [k|] eqn:Hk.
  - destruct (version_for_spec tx s name k Hk) as (k' & e & Hv & Hs & He & _).
    rewrite Hv, bind_ret_Ok, Hs, He, deref_Some, bind_ret_Ok. cbn. rewrite He. cbn.
    by destruct (ev_deleted (ce_value e)).
  - pose proof (cw_chain _ _ Hwf s name) as Hch. rewrite Hk in Hch. apply chain_head in Hch.
    by destruct (G s name).
Qed.

Lemma catalog_view_spec tx s name : catalog_view cs tx s name = found cs tx (G s name).
Proof.
  unfold catalog_view. rewrite GetEntry_spec. unfold found.
  destruct (seen _ tx (G s name)) as [k|]; cbn; [|done].
  destruct (cat_entries cs !! k) as [e|] eqn:He; cbn; [|done].
  destruct (ev_deleted (ce_value e)); cbn; [done|]. by rewrite He.
Qed.

Lemma GetEntry_typed tx s name k :
  GetEntry cs tx s name = Ok (Some k) →
  ∃ e, cat_entries cs !! k = Some e ∧ ce_set e = s ∧ ev_name (ce_value e) = name ∧
    ev_deleted (ce_value e) = false ∧ value_typed s (ce_value e).
Proof.
  unfold GetEntry. destruct (set_data cs s !! name) as [hd|] eqn:Hk; [|done].
  destruct (version_for_spec tx s name hd Hk) as (k' & e & Hv & Hs & He & Hes & Hen).
  rewrite Hv, bind_ret_Ok, He, deref_Some, bind_ret_Ok.
  destruct (ev_deleted (ce_value e)) eqn:Hd; [done|]. intros [= <-]. exists e. split_and!; try done.
  rewrite <- Hes. by apply (cw_typed _ _ Hwf k').
Qed.
End wf.

(** ** Changing one chain *)

Lemma seen_ext h h' tx tx' l :
  (∀ l1 k l2, l = l1 ++ k :: l2 → ∃ e e', h !! k = Some e ∧ h' !! k = Some e' ∧
    (l2 ≠ [] → sees tx (ce_timestamp e) = sees tx' (ce_timestamp e'))) →
  seen h' tx' l = seen h tx l.
Proof.
  induction l as [|k l IH]; intros Hext; cbn [seen]; [done|].
  destruct (Hext [] k l eq_refl) as (e & e' & He & He' & Hs). rewrite He, He'.
  rewrite IH.
  - destruct (bool_decide_reflect (l = [])); simpl; [done|]. by rewrite Hs.
  - intros l1 k' l2 ->. apply (Hext (k :: l1)). done.
Qed.

Lemma found_frame cs cs' tx l :
  (∀ k, k ∈ l → cat_entries cs' !! k = cat_entries cs !! k) → (∀ k, k ∈ l → is_Some (cat_entries cs !! k)) →
  found cs' tx l = found cs tx l.
Proof.
  intros Hf Hs. unfold found.
  assert (seen (cat_entries cs') tx l = seen (cat_entries cs) tx l) as ->.
  { apply seen_ext. intros l1 k l2 ->. assert (k ∈ l1 ++ k :: l2) as Hk by (apply elem_of_app; right; left).
    destruct (Hs _ Hk) as [e He]. exists e, e. rewrite Hf by done. done. }
  destruct (seen _ tx l) as [k|] eqn:Hk; [|done]. cbn.
  rewrite Hf; [done|]. clear -Hk. induction l as [|x l IH]; [done|]. cbn [seen] in Hk.
  destruct (cat_entries cs !! x) as [e|]; [|done]. case_match; [simplify_eq; left|right; auto].
Qed.

(** A change inside the chain of one name. *)
Record chain_change cs cs' (G : history) (s : set_id) (name : string) (l : list nat) : Prop := {
  cc_data : ∀ s' name', ¬ (s' = s ∧ name' = name) → set_data cs' s' !! name' = set_data cs s' !! name';
  cc_frame : ∀ k, k ∉ G s name → k ∉ l → cat_entries cs' !! k = cat_entries cs !! k;
  cc_gone : ∀ k, k ∈ G s name → k ∉ l → cat_entries cs' !! k = None;
  cc_new : ∀ k, k ∈ l → k ∈ G s name ∨ cat_entries cs !! k = None;
  cc_chain : chain (cat_entries cs') None (set_data cs' s !! name) l;
  cc_sorted : StronglySorted (supersedes (cat_entries cs')) l;
  cc_next : next_entry cs ≤ next_entry cs';
  cc_entry : ∀ k, k ∈ l → ∃ e, cat_entries cs' !! k = Some e ∧ ce_set e = s ∧ ev_name (ce_value e) = name ∧
    k < next_entry cs' ∧ value_typed s (ce_value e) ∧
    (ce_child e = None → (ce_timestamp e < TRANSACTION_ID_START)%Z);
  cc_log : ∀ p ep k ek, p ∈ l → cat_entries cs' !! p = Some ep → ce_child ep = Some k →
    cat_entries cs' !! k = Some ek → loggable (ce_value ek) (ce_value ep) }.

Lemma supersedes_frame h h' p k :
  supersedes h p k → h' !! p = h !! p → h' !! k = h !! k → supersedes h' p k.
Proof. intros [Hlt Hs] Ep Ek. split; [done|]. rewrite Ep, Ek. apply Hs. Qed.

Lemma sorted_frame h h' l :
  StronglySorted (supersedes h) l → (∀ k, k ∈ l → h' !! k = h !! k) → StronglySorted (supersedes h') l.
Proof.
  induction 1 as [|k l _ IH Hk]; intros Hf; constructor.
  - apply IH. intros k' Hk'. apply Hf. by right.
  - rewrite Forall_forall in *. intros k' Hk'. eapply supersedes_frame; [by apply Hk|apply Hf; left|].
    apply Hf. by right.
Qed.

Lemma chain_update cs cs' G s name l :
  chains_wf cs G → chain_change cs cs' G s name l → chains_wf cs' (gupd G s name l).
Proof.
  intros Hwf Hcc.
  assert (∀ s' name' k, ¬ (s' = s ∧ name' = name) → k ∈ G s' name' →
            cat_entries cs' !! k = cat_entries cs !! k) as Hfr.
  { intros s' name' k Hne Hk. apply (cc_frame _ _ _ _ _ _ Hcc).
    - intros Hk'. apply Hne, (chain_disjoint cs G Hwf s name s' name' k Hk' Hk).
    - intros [Hk'|Hk']%(cc_new _ _ _ _ _ _ Hcc).
      + apply Hne, (chain_disjoint cs G Hwf s name s' name' k Hk' Hk).
      + destruct (cw_member _ _ Hwf _ _ _ Hk) as (e & He & _). congruence. }
  assert (∀ k e, cat_entries cs' !! k = Some e → k ∉ l → cat_entries cs !! k = Some e ∧ k ∉ G s name) as Hold.
  { intros k e He Hk. assert (k ∉ G s name) as Hng.
    { intros Hin. rewrite (cc_gone _ _ _ _ _ _ Hcc k Hin Hk) in He. done. }
    by rewrite (cc_frame _ _ _ _ _ _ Hcc) in He. }
  unfold gupd. constructor.
  - intros s' name'. destruct (decide _) as [[-> ->]|Hne]; [apply Hcc|].
    rewrite (cc_data _ _ _ _ _ _ Hcc) by done. eapply chain_frame; [apply Hwf|]. intros k; by apply Hfr.
  - intros k e He. destruct (decide (k ∈ l)) as [Hk|Hk].
    + destruct (cc_entry _ _ _ _ _ _ Hcc k Hk) as (e' & He' & Hs & Hn & _). simplify_eq.
      by rewrite decide_True.
    + destruct (Hold k e He Hk) as [He' Hng]. pose proof (cw_place _ _ Hwf _ _ He') as Hpl.
      rewrite decide_False; [done|]. intros [Es En]. rewrite Es, En in Hpl. done.
  - intros s' name' k. destruct (decide _) as [[-> ->]|Hne]; intros Hk.
    + destruct (cc_entry _ _ _ _ _ _ Hcc k Hk) as (e' & He' & Hs & Hn & _). eauto.
    + rewrite (Hfr s' name') by done. by apply (cw_member _ _ Hwf).
  - intros s' name'. destruct (decide _) as [[-> ->]|Hne]; [apply Hcc|].
    eapply sorted_frame; [apply Hwf|]. intros k; by apply Hfr.
  - intros k e He. destruct (decide (k ∈ l)) as [Hk|Hk].
    + destruct (cc_entry _ _ _ _ _ _ Hcc k Hk) as (e' & He' & _ & _ & _ & _ & Hlast). by simplify_eq.
    + destruct (Hold k e He Hk) as [He' _]. by apply (cw_last _ _ Hwf k).
  - intros k e He. destruct (decide (k ∈ l)) as [Hk|Hk].
    + by destruct (cc_entry _ _ _ _ _ _ Hcc k Hk) as (e' & He' & _ & _ & Hlt & _).
    + destruct (Hold k e He Hk) as [He' _]. pose proof (cw_fresh _ _ Hwf _ _ He').
      pose proof (cc_next _ _ _ _ _ _ Hcc). lia.
  - intros k e He. destruct (decide (k ∈ l)) as [Hk|Hk].
    + destruct (cc_entry _ _ _ _ _ _ Hcc k Hk) as (e' & He' & Hs & _ & _ & Ht & _). simplify_eq. done.
    + destruct (Hold k e He Hk) as [He' _]. by apply (cw_typed _ _ Hwf k).
  - intros p ep k ek Hp Hc Hk. destruct (decide (p ∈ l)) as [Hpl|Hpl]; [by eapply (cc_log _ _ _ _ _ _ Hcc)|].
    destruct (Hold p ep Hp Hpl) as [Hp' Hng].
    destruct (link_child cs G Hwf p ep k Hp' Hc) as (l1 & l2 & ek' & Hl & Hk' & _ & Hs & Hn & _).
    rewrite (Hfr (ce_set ep) (ev_name (ce_value ep)) k) in Hk.
    + by eapply (cw_log _ _ Hwf p).
    + intros [Es En]. apply Hng. rewrite <- Es, <- En. rewrite Hl. apply elem_of_app. right. left.
    + rewrite Hl. apply elem_of_app. right. right. left.
Qed.

(** Other names are found as before. *)
Lemma view_frame cs cs' G s name l tx s' name' :
  chains_wf cs G → chain_change cs cs' G s name l → ¬ (s' = s ∧ name' = name) →
  catalog_view cs' tx s' name' = catalog_view cs tx s' name'.
Proof.
  intros Hwf Hcc Hne. pose proof (chain_update _ _ _ _ _ _ Hwf Hcc) as Hwf'.
  rewrite (catalog_view_spec cs' _ Hwf'), (catalog_view_spec cs _ Hwf). unfold gupd.
  rewrite decide_False by done. apply found_frame.
  - intros k Hk. apply (cc_frame _ _ _ _ _ _ Hcc).
    + intros Hk'. apply Hne, (chain_disjoint cs G Hwf s name s' name' k Hk' Hk).
    + intros [Hk'|Hk']%(cc_new _ _ _ _ _ _ Hcc).
      * apply Hne, (chain_disjoint cs G Hwf s name s' name' k Hk' Hk).
      * destruct (cw_member _ _ Hwf _ _ _ Hk) as (e & He & _). congruence.
  - intros k Hk. destruct (cw_member _ _ Hwf _ _ _ Hk) as (e & He & _). eauto.
Qed.
End views.

(** ** Lists picked out of an interval *)

Lemma omap_seq_cons {A} (f : nat → option A) a n :
  omap f (seq a (S n)) = option_list (f a) ++ omap f (seq (S a) n).
Proof. cbn. by destruct (f a). Qed.

Lemma omap_seq_ext {A} (f f' : nat → option A) a n :
  (∀ q, a ≤ q < a + n → f' q = f q) → omap f' (seq a n) = omap f (seq a n).
Proof.
  revert a. induction n as [|n IH]; intros a Hq; [done|]. rewrite !omap_seq_cons, Hq, IH; [done| |lia].
  intros q ?. apply Hq. lia.
Qed.

Lemma omap_seq_first {A} (f f' : nat → option A) a n k ks :
  omap f (seq a n) = k :: ks →
  ∃ p, a ≤ p < a + n ∧ f p = Some k ∧ (∀ q, a ≤ q < p → f q = None) ∧
    (f' p = None → (∀ q, q ≠ p → f' q = f q) → omap f' (seq a n) = ks).
Proof.
  revert a. induction n as [|n IH]; intros a; [done|]. rewrite !omap_seq_cons.
  destruct (f a) as [x|] eqn:Hx; cbn [option_list app].
  - intros [= -> <-]. exists a. split_and!; [lia|lia|done|intros; lia|]. intros Hn Ho. rewrite Hn.
    apply omap_seq_ext. intros q ?. apply Ho. lia.
  - intros Hks. destruct (IH (S a) Hks) as (p & Hp & Hf & Hq & Hdrop). exists p. split_and!; try lia; try done.
    + intros q Hqa. destruct (decide (q = a)) as [->|]; [done|]. apply Hq. lia.
    + intros Hn Ho. rewrite Ho by lia. rewrite Hx. by apply Hdrop.
Qed.

Lemma omap_seq_snoc {A} (f : nat → option A) a n :
  omap f (seq a (S n)) = omap f (seq a n) ++ option_list (f (a + n)).
Proof. rewrite seq_S, omap_app. f_equal. Qed.

Lemma omap_seq_last {A} (f f' : nat → option A) a n k ks :
  omap f (seq a n) = ks ++ [k] →
  ∃ p, a ≤ p < a + n ∧ f p = Some k ∧ (∀ q, p < q < a + n → f q = None) ∧
    (f' p = None → (∀ q, q ≠ p → f' q = f q) → omap f' (seq a n) = ks).
Proof.
  revert ks. induction n as [|n IH]; intros ks; [by destruct ks|].
  rewrite !omap_seq_snoc. destruct (f (a + n)) as [x|] eqn:Hx; cbn [option_list].
  - intros [Hks [= ->]]%app_inj_tail. exists (a + n). split_and!; [lia|lia|done|intros; lia|].
    intros Hn Ho. rewrite Hn, app_nil_r, <- Hks. apply omap_seq_ext. intros q ?. apply Ho. lia.
  - rewrite app_nil_r. intros Hks. destruct (IH ks Hks) as (p & Hp & Hf & Hq & Hdrop).
    exists p. split_and!; try lia; try done.
    + intros q Hqa. destruct (decide (q = a + n)) as [->|]; [done|]. apply Hq. lia.
    + intros Hn Ho. rewrite Ho by lia. rewrite Hx, app_nil_r. by apply Hdrop.
Qed.

Section ownership.
Context {E Q : Type}.
Implicit Types (cs : catalog E Q) (e : CatalogEntry E Q) (v : EntryValue E Q) (h : gmap nat (CatalogEntry E Q)).

(** ** Who replaced what *)

(** The entry that the entry [p] replaced under the number [z]. *)
Definition replaced_by cs (z : Z) (p : nat) : option nat :=
  match cat_entries cs !! p with
  | Some e => if (ce_timestamp e =? z)%Z then ce_child e else None
  | None => None
  end.

(** All of them, in the order of the replacements. *)
Definition owned cs (z : Z) : list nat := omap (replaced_by cs z) (seq 0 (next_entry cs)).

Definition committed_below cs (z : Z) : Prop :=
  ∀ p e, cat_entries cs !! p = Some e → is_Some (ce_child e) →
    (ce_timestamp e < TRANSACTION_ID_START)%Z → (ce_timestamp e < z)%Z.

Lemma replaced_by_Some cs z p k :
  replaced_by cs z p = Some k ↔
  ∃ e, cat_entries cs !! p = Some e ∧ ce_timestamp e = z ∧ ce_child e = Some k.
Proof.
  unfold replaced_by. destruct (cat_entries cs !! p) as [e|]; [|naive_solver].
  destruct (Z.eqb_spec (ce_timestamp e) z); naive_solver.
Qed.

Section wf.
Context cs (G : history) (Hwf : chains_wf cs G).

Lemma elem_of_owned z k :
  k ∈ owned cs z ↔ ∃ p e, cat_entries cs !! p = Some e ∧ ce_timestamp e = z ∧ ce_child e = Some k.
Proof.
  unfold owned. rewrite list_elem_of_omap. setoid_rewrite elem_of_seq. setoid_rewrite replaced_by_Some. split.
  - intros (p & _ & e & ?). eauto.
  - intros (p & e & He & ?). exists p. split; [pose proof (cw_fresh _ _ Hwf _ _ He); lia|eauto].
Qed.

(** The newest replacement of an uncommitted transaction is the head of its
    chain. *)
Lemma owned_last num ks k cs' :
  (TRANSACTION_ID_START ≤ num)%Z → owned cs num = ks ++ [k] →
  ∃ p ep ek l, cat_entries cs !! p = Some ep ∧ ce_timestamp ep = num ∧ ce_child ep = Some k ∧
    ce_parent ep = None ∧ cat_entries cs !! k = Some ek ∧ ce_parent ek = Some p ∧
    ce_set ek = ce_set ep ∧ ev_name (ce_value ek) = ev_name (ce_value ep) ∧
    G (ce_set ep) (ev_name (ce_value ep)) = p :: k :: l ∧
    (next_entry cs' = next_entry cs → replaced_by cs' num p = None →
      (∀ q, q ≠ p → replaced_by cs' num q = replaced_by cs num q) → owned cs' num = ks).
Proof.
  intros Hnum Hown.
  destruct (omap_seq_last _ (replaced_by cs' num) _ _ _ _ Hown) as (p & Hp & Hrep & Hlater & Hdrop).
  apply replaced_by_Some in Hrep as (ep & Hep & Hts & Hc).
  destruct (link_child cs G Hwf p ep k Hep Hc) as (l1 & l2 & ek & Hl & Hk & Hkp & Hks & Hkn & _ & Hpar).
  destruct (exists_last_or_nil l1) as [->|(l & x & ->)].
  { exists p, ep, ek, l2. split_and!; try done. intros En. unfold owned at 1. rewrite En. apply Hdrop. }
  exfalso. rewrite last_snoc in Hpar.
  destruct (link_parent cs G Hwf p ep x Hep Hpar) as (ex & Hex & Hcx).
  pose proof (cw_sorted _ _ Hwf (ce_set ep) (ev_name (ce_value ep))) as Hs. rewrite Hl in Hs.
  rewrite <- app_assoc in Hs. apply StronglySorted_app in Hs as (_ & _ & Hs). inversion_clear Hs as [|?? _ Hx].
  rewrite Forall_cons in Hx. destruct Hx as [[Hlt Hx] _].
  destruct (Hx ex ep Hex Hep) as [Heq|[_ ?]]; [by rewrite Hc|  |lia].
  assert (replaced_by cs num x = Some p) as Hrx by (apply replaced_by_Some; exists ex; split_and!; congruence).
  rewrite Hlater in Hrx; [done|]. pose proof (cw_fresh _ _ Hwf _ _ Hex). lia.
Qed.

(** The oldest replacement of the oldest transaction is the end of its
    chain. *)
Lemma owned_first num ks k cs' :
  owned cs num = k :: ks → (∀ z k' ks', owned cs z = k' :: ks' → (num ≤ z)%Z) →
  ∃ p ep ek l, cat_entries cs !! p = Some ep ∧ ce_timestamp ep = num ∧ ce_child ep = Some k ∧
    cat_entries cs !! k = Some ek ∧ ce_parent ek = Some p ∧ ce_child ek = None ∧
    ce_set ek = ce_set ep ∧ ev_name (ce_value ek) = ev_name (ce_value ep) ∧
    G (ce_set ep) (ev_name (ce_value ep)) = l ++ [p; k] ∧
    (next_entry cs' = next_entry cs → replaced_by cs' num p = None →
      (∀ q, q ≠ p → replaced_by cs' num q = replaced_by cs num q) → owned cs' num = ks).
Proof.
  intros Hown Hmin.
  destruct (omap_seq_first _ (replaced_by cs' num) _ _ _ _ Hown) as (p & Hp & Hrep & Hbefore & Hdrop).
  apply replaced_by_Some in Hrep as (ep & Hep & Hts & Hc).
  destruct (link_child cs G Hwf p ep k Hep Hc) as (l1 & l2 & ek & Hl & Hk & Hkp & Hks & Hkn & Hkc & _).
  destruct l2 as [|g l2].
  { exists p, ep, ek, l1. split_and!; try done. intros En. unfold owned at 1. rewrite En. apply Hdrop. }
  exfalso. simpl in Hkc.
  pose proof (cw_sorted _ _ Hwf (ce_set ep) (ev_name (ce_value ep))) as Hs. rewrite Hl in Hs.
  apply StronglySorted_app in Hs as (_ & _ & Hs). inversion_clear Hs as [|?? _ Hx].
  rewrite Forall_cons in Hx. destruct Hx as [[Hlt Hx] _].
  assert (g ∈ owned cs (ce_timestamp ek)) as Hg by (apply elem_of_owned; eauto).
  destruct (owned cs (ce_timestamp ek)) as [|k' ks'] eqn:Ho; [by apply not_elem_of_nil in Hg|].
  pose proof (Hmin _ _ _ Ho). destruct (Hx ep ek Hep Hk) as [Heq|[? _]]; [by rewrite Hkc| |lia].
  assert (replaced_by cs num k = Some g) as Hrk by (apply replaced_by_Some; exists ek; split_and!; congruence).
  rewrite Hbefore in Hrk; [done|lia].
Qed.
End wf.

Lemma owned_ext cs cs' z :
  next_entry cs' = next_entry cs → (∀ q, replaced_by cs' z q = replaced_by cs z q) → owned cs' z = owned cs z.
Proof. intros En Hq. unfold owned. rewrite En. apply omap_seq_ext. auto. Qed.
End ownership.

(** ** Undoing, cleaning up, committing *)

Section laws.
Context {E Q : Type}.
Implicit Types (cs : catalog E Q) (e : CatalogEntry E Q) (v : EntryValue E Q) (h : gmap nat (CatalogEntry E Q)).

Lemma set_data_head cs s name k s' name' :
  set_data (set_head cs s name k) s' !! name' =
  if decide (s' = s ∧ name' = name) then Some k else set_data cs s' !! name'.
Proof.
  unfold set_data at 1, set_head. simpl. destruct (decide (s' = s)) as [->|Hs].
  - rewrite lookup_insert_eq. simpl. destruct (decide (name' = name)) as [->|Hn].
    + by rewrite lookup_insert_eq, decide_True.
    + rewrite lookup_insert_ne, decide_False by naive_solver. done.
  - rewrite lookup_insert_ne by done. by rewrite decide_False by naive_solver.
Qed.

(** Facts that only depend on the links. *)
Lemma chain_replace h h' parent o l1 p ep ep' l2 l2' :
  chain h parent o (l1 ++ p :: l2) → (∀ x, x ∈ l1 → h' !! x = h !! x) →
  h !! p = Some ep → h' !! p = Some ep' → ce_parent ep' = ce_parent ep →
  chain h' (Some p) (ce_child ep') l2' → chain h' parent o (l1 ++ p :: l2').
Proof.
  intros Hch Hf Hp Hp' Hpar Hch'. revert parent o Hch.
  induction l1 as [|x l1 IH]; intros parent o; cbn [app chain].
  - intros (-> & e & He & Hpe & _). simplify_eq. split; [done|]. exists ep'. by rewrite Hpar.
  - intros (-> & e & He & Hpe & Hc). split; [done|]. exists e. rewrite Hf by left.
    split_and!; try done. apply IH; [|done]. intros y Hy. apply Hf. by right.
Qed.

(** An operation that frees entries and cuts links, and changes no entry
    otherwise. *)
Definition keeps cs cs' : Prop :=
  next_entry cs' = next_entry cs ∧
  ∀ k e', cat_entries cs' !! k = Some e' → ∃ e, cat_entries cs !! k = Some e ∧
    ce_value e' = ce_value e ∧ ce_set e' = ce_set e ∧ ce_timestamp e' = ce_timestamp e ∧
    (ce_child e' = ce_child e ∨ ce_child e' = None ∧ (ce_timestamp e < TRANSACTION_ID_START)%Z).

Lemma keeps_below cs cs' z : keeps cs cs' → committed_below cs z → committed_below cs' z.
Proof.
  intros [_ Hk] Hb p e' He' [c Hc] Hts. destruct (Hk _ _ He') as (e & He & _ & _ & Et & Ec).
  rewrite Et in *. apply (Hb p); [done| |done]. destruct Ec as [Ec|[Ec _]]; [|congruence]. rewrite <- Ec. eauto.
Qed.

Lemma keeps_owned cs cs' num z :
  keeps cs cs' → z ≠ num →
  (∀ q e, cat_entries cs !! q = Some e → is_Some (ce_child e) → ce_timestamp e ≠ num →
    ∃ e', cat_entries cs' !! q = Some e' ∧ ce_child e' = ce_child e) →
  owned cs' z = owned cs z.
Proof.
  intros [En Hk] Hz Hq. apply owned_ext; [done|]. intros q. apply option_eq. intros c.
  rewrite !replaced_by_Some. split.
  - intros (e' & He' & Hts & Hc). destruct (Hk _ _ He') as (e & He & _ & _ & Et & Ec).
    exists e. split_and!; [done|congruence|]. destruct Ec as [Ec|[Ec _]]; congruence.
  - intros (e & He & Hts & Hc). destruct (Hq q e) as (e' & He' & Ec); [done|by rewrite Hc|congruence|].
    destruct (Hk _ _ He') as (e2 & He2 & _ & _ & Et & _). exists e'. split_and!; congruence.
Qed.

Lemma sorted_sublist h l l' : sublist l' l → StronglySorted (supersedes h) l → StronglySorted (supersedes h) l'.
Proof.
  induction 1 as [|x l' l Hsub IH|x l' l Hsub IH]; inversion_clear 1 as [|?? Hs Hx]; [constructor| |auto].
  constructor; [auto|]. rewrite Forall_forall in *. intros y Hy. apply Hx. by eapply elem_of_sublist.
Qed.

Lemma keeps_change cs cs' G s name l :
  chains_wf cs G → keeps cs cs' → sublist l (G s name) →
  (∀ s' name', ¬ (s' = s ∧ name' = name) → set_data cs' s' !! name' = set_data cs s' !! name') →
  (∀ k, k ∉ G s name → cat_entries cs' !! k = cat_entries cs !! k) →
  (∀ k, k ∈ G s name → k ∉ l → cat_entries cs' !! k = None) →
  chain (cat_entries cs') None (set_data cs' s !! name) l → chain_change cs cs' G s name l.
Proof.
  intros Hwf [En Hk] Hsub Hdata Hfr Hgone Hch.
  assert (∀ k, k ∈ l → ∃ e', cat_entries cs' !! k = Some e') as Hsome.
  { intros k (l1 & l2 & ->)%list_elem_of_split. apply chain_split in Hch as (e & He & _). eauto. }
  constructor; try done.
  - auto.
  - intros k Hin. left. by eapply elem_of_sublist.
  - pose proof (sorted_sublist _ _ _ Hsub (cw_sorted _ _ Hwf s name)) as Hs. clear -Hs Hk.
    induction Hs as [|x l _ IH Hx]; constructor; [done|]. rewrite Forall_forall in *. intros y Hy.
    destruct (Hx y Hy) as [Hlt Hts]. split; [done|]. intros ep' ek' Hp' Hk' [c Hc].
    destruct (Hk _ _ Hp') as (ep & Hp & _ & _ & -> & _), (Hk _ _ Hk') as (ek & Hk2 & _ & _ & -> & Ec).
    apply Hts; [done|done|]. destruct Ec as [Ec|[Ec _]]; [rewrite <- Ec; eauto|congruence].
  - by rewrite En.
  - intros k Hin. destruct (Hsome k Hin) as (e' & He'). destruct (Hk _ _ He') as (e & He & Ev & Es & Et & Ec).
    destruct (cw_member _ _ Hwf s name k) as (e2 & He2 & Hs2 & Hn2); [by eapply elem_of_sublist|].
    assert (e2 = e) as -> by congruence. exists e'. rewrite Ev, Es, Et, En.
    split_and!; [done|done|done|by eapply (cw_fresh _ _ Hwf)|rewrite <- Hs2; by eapply (cw_typed _ _ Hwf)|].
    intros Hn. destruct Ec as [Ec|[_ ?]]; [|done]. eapply (cw_last _ _ Hwf); [done|congruence].
  - intros p ep' k ek' _ Hp' Hc' Hk'. destruct (Hk _ _ Hp') as (ep & Hp & -> & _ & _ & Ec).
    destruct (Hk _ _ Hk') as (ek & Hk2 & -> & _). apply (cw_log _ _ Hwf p ep k ek); try done.
    destruct Ec as [Ec|[Ec _]]; congruence.
Qed.

Lemma seen_elem h tx l k : seen h tx l = Some k → k ∈ l.
Proof.
  induction l as [|x l IH]; [done|]. cbn [seen]. destruct (h !! x); [|done].
  case_match; [intros [= ->]; left|intros; right; auto].
Qed.

Lemma keeps_found cs cs' tx l l' :
  keeps cs cs' → (∀ k, k ∈ l' → is_Some (cat_entries cs' !! k)) →
  seen (cat_entries cs) tx l' = seen (cat_entries cs) tx l → found cs' tx l' = found cs tx l.
Proof.
  intros [_ Hk] Hsome Hseen. unfold found. rewrite <- Hseen.
  rewrite (seen_ext (cat_entries cs) (cat_entries cs') tx tx l').
  - destruct (seen _ tx l') as [k|] eqn:Hs; [|done]. cbn.
    destruct (Hsome k) as [e' He']; [by eapply seen_elem|]. destruct (Hk _ _ He') as (e & He & Ev & _).
    rewrite He, He'. cbn. by rewrite Ev.
  - intros l1 k l2 ->. destruct (Hsome k) as [e' He']; [apply elem_of_app; right; left|].
    destruct (Hk _ _ He') as (e & He & _ & _ & Et & _). exists e, e'. split_and!; try done. by rewrite Et.
Qed.

(** What the laws ask of the numbers besides the one that is worked on. *)
Definition same_owners (num : Z) cs cs' : Prop :=
  (∀ z, z ≠ num → owned cs' z = owned cs z) ∧ (∀ z, committed_below cs z → committed_below cs' z).

Lemma Undo_spec cs G num ks k :
  chains_wf cs G → (TRANSACTION_ID_START ≤ num)%Z → owned cs num = ks ++ [k] →
  ∃ cs' s name l, Undo cs k = Ok cs' ∧ chain_change cs cs' G s name l ∧ same_owners num cs cs' ∧
    owned cs' num = ks ∧
    (∀ tx, sees tx num = false → found cs' tx l = found cs tx (G s name)).
Proof.
  intros Hwf Hnum Hown.
  assert (∃ p ep ek, cat_entries cs !! k = Some ek ∧ ce_parent ek = Some p ∧ cat_entries cs !! p = Some ep)
    as (p & ep & ek & Hk & Hkp & Hp).
  { destruct (owned_last cs G Hwf num ks k cs Hnum Hown)
      as (p & ep & ek & l & Hp & _ & _ & _ & Hk & Hkp & _). eauto 10. }
  set (cs' := set_entry (free_entry (set_head cs (ce_set ep) (ev_name (ce_value ep)) k) p) k (set_parent None ek)).
  destruct (owned_last cs G Hwf num ks k cs' Hnum Hown)
    as (p2 & ep2 & ek2 & l & Hp2 & Hts & Hc & Hpp & Hk2 & Hkp2 & Hks & Hkn & Hl & Hdrop).
  assert (p2 = p) as -> by congruence. assert (ep2 = ep) as -> by congruence.
  assert (ek2 = ek) as -> by congruence. clear Hp2 Hk2 Hkp2.
  assert (p ≠ k ∧ (k ∉ l) ∧ (p ∉ l)) as (Hpk & Hkl & Hpl).
  { pose proof (sorted_NoDup _ _ (cw_sorted _ _ Hwf (ce_set ep) (ev_name (ce_value ep)))) as Hnd.
    rewrite Hl, !NoDup_cons, not_elem_of_cons in Hnd. naive_solver. }
  assert (cat_entries cs' !! p = None) as Hp'.
  { simpl. rewrite lookup_insert_ne by done. apply lookup_delete_eq. }
  assert (cat_entries cs' !! k = Some (set_parent None ek)) as Hk' by apply lookup_insert_eq.
  assert (∀ q, q ≠ p → q ≠ k → cat_entries cs' !! q = cat_entries cs !! q) as Hq'.
  { intros q Hqp Hqk. simpl. rewrite lookup_insert_ne, lookup_delete_ne by done. done. }
  assert (keeps cs cs') as Hkeeps.
  { split; [done|]. intros q e' He'. destruct (decide (q = k)) as [->|Hqk].
    - rewrite Hk' in He'. injection He' as <-. exists ek. split_and!; try done. by left.
    - assert (q ≠ p) by congruence. rewrite Hq' in He' by done. exists e'. split_and!; try done. by left. }
  assert (∀ x, x ∈ l → cat_entries cs' !! x = cat_entries cs !! x) as Hfl.
  { intros x Hx. apply Hq'; intros ->; done. }
  assert (chain (cat_entries cs) (Some k) (ce_child ek) l) as Hch.
  { pose proof (cw_chain _ _ Hwf (ce_set ep) (ev_name (ce_value ep))) as Hch. rewrite Hl in Hch.
    destruct (chain_split _ _ _ [p] k l Hch) as (e & He & _ & Hch'). by simplify_eq. }
  exists cs', (ce_set ep), (ev_name (ce_value ep)), (k :: l). split_and!.
  - unfold Undo. rewrite Hk, deref_Some, bind_ret_Ok, Hkp, deref_Some, bind_ret_Ok, Hp, deref_Some, bind_ret_Ok.
    rewrite Hpp, Hc, deref_Some, bind_ret_Ok. unfold cs'. by rewrite Hks, Hkn.
  - apply keeps_change; try done.
    + rewrite Hl. by apply sublist_cons.
    + intros s' name' Hne. change (set_data cs' s') with (set_data (set_head cs (ce_set ep) (ev_name (ce_value ep)) k) s').
      by rewrite set_data_head, decide_False.
    + rewrite Hl. intros q. rewrite !not_elem_of_cons. intros (Hqp & Hqk & _). by apply Hq'.
    + rewrite Hl. intros q [->|Hq]%elem_of_cons Hq2; done.
    + change (set_data cs' (ce_set ep)) with (set_data (set_head cs (ce_set ep) (ev_name (ce_value ep)) k) (ce_set ep)).
      rewrite set_data_head, decide_True by done. split; [done|]. eexists. split; [exact Hk'|].
      split; [done|]. eapply chain_frame; [exact Hch|done].
  - split; [|intros z; by apply keeps_below].
    intros z Hz. apply (keeps_owned _ _ num); [done|done|]. intros q e He _ Hne.
    assert (q ≠ p) by congruence. destruct (decide (q = k)) as [->|Hqk]; [|exists e; by rewrite Hq'].
    eexists. split; [exact Hk'|]. by simplify_eq.
  - apply Hdrop; [done|by unfold replaced_by; rewrite Hp'|]. intros q Hqp. unfold replaced_by.
    destruct (decide (q = k)) as [->|Hqk]; [by rewrite Hk', Hk|by rewrite Hq'].
  - intros tx Htx. apply keeps_found; [done| |].
    + intros x [->|Hx]%elem_of_cons; [eauto|]. rewrite Hfl by done.
      destruct (cw_member _ _ Hwf (ce_set ep) (ev_name (ce_value ep)) x) as (e & He & _); [|eauto].
      rewrite Hl. by do 2 right.
    + rewrite Hl. cbn [seen]. by rewrite Hp, Hts, Htx.
Qed.
End laws.

Section cleanup.
Context {E Q : Type}.
Implicit Types (cs : catalog E Q) (e : CatalogEntry E Q) (v : EntryValue E Q) (h : gmap nat (CatalogEntry E Q)).

Lemma seen_stop h tx l1 p ep l2 :
  h !! p = Some ep → sees tx (ce_timestamp ep) = true → seen h tx (l1 ++ [p]) = seen h tx (l1 ++ p :: l2).
Proof.
  intros Hp Hs. induction l1 as [|x l1 IH]; cbn [app seen].
  - rewrite Hp, Hs. by rewrite !orb_true_r.
  - destruct (h !! x); [|done]. rewrite IH, !bool_decide_false by (by destruct l1). done.
Qed.

(** Cleaning up the oldest replacement cuts the end off its chain. *)
Lemma cleanup_catalog_spec cs G num k ks :
  chains_wf cs G → (num < TRANSACTION_ID_START)%Z → owned cs num = k :: ks →
  (∀ z k' ks', owned cs z = k' :: ks' → (num ≤ z)%Z) →
  ∃ cs' s name l, cleanup_catalog cs k = Ok cs' ∧ chain_change cs cs' G s name l ∧ same_owners num cs cs' ∧
    owned cs' num = ks ∧
    (∀ tx, sees tx num = true → found cs' tx l = found cs tx (G s name)).
Proof.
  intros Hwf Hnum Hown Hmin.
  assert (∃ p ep ek, cat_entries cs !! k = Some ek ∧ ce_parent ek = Some p ∧ cat_entries cs !! p = Some ep)
    as (p & ep & ek & Hk & Hkp & Hp).
  { destruct (owned_first cs G Hwf num ks k cs Hown Hmin)
      as (p & ep & ek & l & Hp & _ & _ & Hk & Hkp & _). eauto 10. }
  set (cs' := free_entry (set_entry cs p (set_child None ep)) k).
  destruct (owned_first cs G Hwf num ks k cs' Hown Hmin)
    as (p2 & ep2 & ek2 & l & Hp2 & Hts & Hc & Hk2 & Hkp2 & Hkc & Hks & Hkn & Hl & Hdrop).
  assert (p2 = p) as -> by congruence. assert (ep2 = ep) as -> by congruence.
  assert (ek2 = ek) as -> by congruence. clear Hp2 Hk2 Hkp2.
  assert (p ≠ k ∧ (k ∉ l) ∧ (p ∉ l)) as (Hpk & Hkl & Hpl).
  { pose proof (sorted_NoDup _ _ (cw_sorted _ _ Hwf (ce_set ep) (ev_name (ce_value ep)))) as Hnd.
    rewrite Hl in Hnd. apply NoDup_app in Hnd as (_ & Hd & Hnd). rewrite NoDup_cons in Hnd.
    split_and!; [|intros ?%Hd|intros ?%Hd]; set_solver. }
  assert (cat_entries cs' !! k = None) as Hk' by apply lookup_delete_eq.
  assert (cat_entries cs' !! p = Some (set_child None ep)) as Hp'.
  { simpl. rewrite lookup_delete_ne by done. apply lookup_insert_eq. }
  assert (∀ q, q ≠ p → q ≠ k → cat_entries cs' !! q = cat_entries cs !! q) as Hq'.
  { intros q Hqp Hqk. simpl. rewrite lookup_delete_ne, lookup_insert_ne by done. done. }
  assert (keeps cs cs') as Hkeeps.
  { split; [done|]. intros q e' He'. assert (q ≠ k) by congruence. destruct (decide (q = p)) as [->|Hqp].
    - rewrite Hp' in He'. injection He' as <-. exists ep. split_and!; try done. right. split; [done|lia].
    - rewrite Hq' in He' by done. exists e'. split_and!; try done. by left. }
  assert (∀ x, x ∈ l → cat_entries cs' !! x = cat_entries cs !! x) as Hfl.
  { intros x Hx. apply Hq'; intros ->; done. }
  exists cs', (ce_set ep), (ev_name (ce_value ep)), (l ++ [p]). split_and!.
  - unfold cleanup_catalog.
    rewrite Hk, deref_Some, bind_ret_Ok, Hkp, deref_Some, bind_ret_Ok, Hp, deref_Some, bind_ret_Ok, Hkc.
    destruct (cw_log _ _ Hwf p ep k ek Hp Hc Hk) as [o Ho]. rewrite bool_decide_false; [done|].
    intros Ht. unfold WriteCatalogEntry in Ho. by rewrite Ht in Ho.
  - apply keeps_change; try done.
    + rewrite Hl. change [p; k] with ([p] ++ [k]). rewrite app_assoc. by apply sublist_inserts_r.
    + rewrite Hl. intros q. rewrite not_elem_of_app, !not_elem_of_cons. intros (_ & Hqp & Hqk & _). by apply Hq'.
    + rewrite Hl. intros q. rewrite !elem_of_app, !elem_of_cons. intros [?|[->|[->|?%not_elem_of_nil]]] Hn; naive_solver.
    + change (set_data cs' (ce_set ep)) with (set_data cs (ce_set ep)).
      pose proof (cw_chain _ _ Hwf (ce_set ep) (ev_name (ce_value ep))) as Hch. rewrite Hl in Hch.
      by eapply (chain_replace _ (cat_entries cs')).
  - split; [|intros z; by apply keeps_below].
    intros z Hz. apply (keeps_owned _ _ num); [done|done|]. intros q e He [c Hce] Hne.
    assert (q ≠ p) by congruence. assert (q ≠ k) by congruence. exists e. by rewrite Hq'.
  - apply Hdrop; [done|unfold replaced_by; rewrite Hp'; simpl; by case_match|]. intros q Hqp. unfold replaced_by.
    destruct (decide (q = k)) as [->|Hqk]; [rewrite Hk', Hk, Hkc; by case_match|by rewrite Hq'].
  - intros tx Htx. apply keeps_found; [done| |].
    + intros x [Hx| ->%list_elem_of_singleton]%elem_of_app; [|eauto]. rewrite Hfl by done.
      destruct (cw_member _ _ Hwf (ce_set ep) (ev_name (ce_value ep)) x) as (e & He & _); [|eauto].
      rewrite Hl. apply elem_of_app. by left.
    + rewrite Hl. apply (seen_stop _ _ _ _ ep); [done|congruence].
Qed.

(** Committing stamps the replacements of a transaction one by one. *)
Definition stamp_below (num cid : Z) (b : nat) cs : catalog E Q :=
  mkCatalog (map_imap (fun p e => Some (if decide (p < b ∧ ce_timestamp e = num) then set_timestamp cid e else e))
      (cat_entries cs)) (cat_sets cs) (next_entry cs) (connections cs).

Lemma stamp_lookup num cid b cs p :
  cat_entries (stamp_below num cid b cs) !! p =
  (fun e => if decide (p < b ∧ ce_timestamp e = num) then set_timestamp cid e else e) <$> cat_entries cs !! p.
Proof. simpl. rewrite map_lookup_imap. by destruct (cat_entries cs !! p). Qed.

Lemma stamp_eq num cid b b' cs :
  (∀ p e, cat_entries cs !! p = Some e → ce_timestamp e = num → p < b ↔ p < b') →
  stamp_below num cid b cs = stamp_below num cid b' cs.
Proof.
  intros Hb. unfold stamp_below. f_equal. apply map_eq. intros p. rewrite !map_lookup_imap.
  destruct (cat_entries cs !! p) as [e|] eqn:He; [|done]. simpl. f_equal.
  destruct (decide (ce_timestamp e = num)) as [Ht|Ht].
  - specialize (Hb p e He Ht). by repeat case_decide; naive_solver.
  - by rewrite !decide_False by naive_solver.
Qed.

(** The calls on a replaced entry whose parent is known. *)
Lemma commit_link cs k ek p ep cid :
  cat_entries cs !! k = Some ek → ce_parent ek = Some p → cat_entries cs !! p = Some ep →
  commit_catalog cs k cid = Ok (set_entry cs p (set_timestamp cid ep)).
Proof. intros Hk Hp He. unfold commit_catalog. rewrite Hk. cbn. rewrite Hp. cbn. by rewrite He. Qed.

Lemma log_link cs k ek p ep :
  cat_entries cs !! k = Some ek → ce_parent ek = Some p → cat_entries cs !! p = Some ep →
  log_catalog cs k = WriteCatalogEntry (ce_value ek) (ce_value ep).
Proof. intros Hk Hp He. unfold log_catalog. rewrite Hk. cbn. rewrite Hp. cbn. by rewrite He. Qed.

(** What stamping keeps of an entry. *)
Lemma stamp_entry num cid b cs k e :
  cat_entries cs !! k = Some e → ∃ e', cat_entries (stamp_below num cid b cs) !! k = Some e' ∧
    ce_value e' = ce_value e ∧ ce_set e' = ce_set e ∧ ce_child e' = ce_child e ∧ ce_parent e' = ce_parent e ∧
    ce_timestamp e' = if decide (k < b ∧ ce_timestamp e = num) then cid else ce_timestamp e.
Proof. intros He. rewrite stamp_lookup, He. eexists. split; [done|]. by case_decide. Qed.

Lemma stamp_one num cid b cs e :
  cat_entries cs !! b = Some e → ce_timestamp e = num →
  set_entry (stamp_below num cid b cs) b (set_timestamp cid e) = stamp_below num cid (S b) cs.
Proof.
  intros He Hts. unfold set_entry, stamp_below. simpl. f_equal. apply map_eq. intros p.
  destruct (decide (p = b)) as [->|Hne].
  - rewrite lookup_insert_eq, map_lookup_imap, He. simpl. by rewrite decide_True by (split; [lia|done]).
  - rewrite lookup_insert_ne, !map_lookup_imap by done. destruct (cat_entries cs !! p) as [e'|]; [|done].
    simpl. f_equal. repeat case_decide; try done; exfalso; naive_solver lia.
Qed.

Lemma commit_cats_stamp cs G num cid log :
  chains_wf cs G → (TRANSACTION_ID_START ≤ num)%Z → ∀ n b,
  commit_cats (stamp_below num cid b cs) (omap (replaced_by cs num) (seq b n)) cid log =
  Ok (stamp_below num cid (b + n) cs).
Proof.
  intros Hwf Hnum. induction n as [|n IH]; intros b.
  { cbn. by rewrite Nat.add_0_r. }
  rewrite omap_seq_cons. replace (b + S n) with (S b + n) by lia.
  destruct (replaced_by cs num b) as [k|] eqn:Hr.
  - apply replaced_by_Some in Hr as (e & He & Hts & Hc).
    destruct (link_child cs G Hwf b e k He Hc) as (l1 & l2 & ek & Hl & Hk & Hkp & _).
    change (option_list (Some k) ++ ?l) with (k :: l). cbn [commit_cats].
    change (cat_commit ?cs ?k ?c) with (commit_catalog cs k c).
    destruct (stamp_entry num cid b cs k ek Hk) as (ek1 & Hk1 & _ & _ & _ & Hp1 & _).
    rewrite (commit_link _ k ek1 b e); [|done|congruence|].
    2:{ rewrite stamp_lookup, He. cbn. by rewrite decide_False by lia. }
    rewrite bind_ret_Ok, (stamp_one num cid b cs e He Hts), IH. destruct log; [|done].
    change (cat_log ?cs ?k) with (log_catalog cs k).
    destruct (stamp_entry num cid (S b) cs k ek Hk) as (ek2 & Hk2 & Hv2 & _ & _ & Hp2 & _).
    destruct (stamp_entry num cid (S b) cs b e He) as (e2 & He2 & Hve2 & _).
    rewrite (log_link _ k ek2 b e2), Hv2, Hve2 by congruence.
    destruct (cw_log _ _ Hwf b e k ek He Hc Hk) as [o Ho]. by rewrite Ho.
  - change (option_list None ++ ?l) with l. rewrite <- IH. f_equal. apply stamp_eq. intros p e He Hts.
    split; [lia|]. intros Hp. destruct (decide (p = b)) as [->|]; [|lia]. exfalso.
    destruct (ce_child e) as [c|] eqn:Hc.
    + assert (replaced_by cs num b = Some c) by (apply replaced_by_Some; eauto). congruence.
    + pose proof (cw_last _ _ Hwf _ _ He Hc). lia.
Qed.
End cleanup.

Section commit.
Context {E Q : Type}.
Implicit Types (cs : catalog E Q) (e : CatalogEntry E Q) (v : EntryValue E Q) (h : gmap nat (CatalogEntry E Q)).

Section stamped.
Context cs (G : history) (num cid : Z) (Hwf : chains_wf cs G)
  (Hcid : (cid < TRANSACTION_ID_START)%Z) (Hnum : (TRANSACTION_ID_START ≤ num)%Z)
  (Hbelow : committed_below cs cid).
Let cs' := stamp_below num cid (next_entry cs) cs.

(** Every entry stays where it is, with its contents; the number of the
    transaction becomes the commit number. *)
Lemma stamped_entry k e :
  cat_entries cs !! k = Some e → ∃ e', cat_entries cs' !! k = Some e' ∧
    ce_value e' = ce_value e ∧ ce_set e' = ce_set e ∧ ce_child e' = ce_child e ∧ ce_parent e' = ce_parent e ∧
    ce_timestamp e' = if decide (ce_timestamp e = num) then cid else ce_timestamp e.
Proof.
  intros He. destruct (stamp_entry num cid (next_entry cs) cs k e He) as (e' & He' & ? & ? & ? & ? & Ht).
  exists e'. split_and!; try done. rewrite Ht. pose proof (cw_fresh _ _ Hwf _ _ He).
  repeat case_decide; tauto.
Qed.

Lemma stamped_inv k e' :
  cat_entries cs' !! k = Some e' → ∃ e, cat_entries cs !! k = Some e ∧
    ce_value e' = ce_value e ∧ ce_set e' = ce_set e ∧ ce_child e' = ce_child e ∧ ce_parent e' = ce_parent e ∧
    ce_timestamp e' = if decide (ce_timestamp e = num) then cid else ce_timestamp e.
Proof.
  intros He'. destruct (cat_entries cs !! k) as [e|] eqn:He.
  - destruct (stamped_entry k e He) as (e2 & He2 & ?). assert (e2 = e') as -> by congruence. eauto.
  - unfold cs' in He'. by rewrite stamp_lookup, He in He'.
Qed.

Lemma stamped_chain parent o l : chain (cat_entries cs) parent o l → chain (cat_entries cs') parent o l.
Proof.
  revert parent o. induction l as [|k l IH]; intros parent o; cbn [chain]; [done|].
  intros (-> & e & He & Hp & Hc). split; [done|].
  destruct (stamped_entry k e He) as (e' & He' & _ & _ & Hc' & Hp' & _).
  exists e'. rewrite Hc', Hp'. split_and!; auto.
Qed.

Lemma stamped_wf : chains_wf cs' G.
Proof.
  constructor.
  - intros s name. apply stamped_chain. apply (cw_chain _ _ Hwf).
  - intros k e' (e & He & -> & -> & _)%stamped_inv. by apply (cw_place _ _ Hwf).
  - intros s name k (e & He & Hs & Hn)%(cw_member _ _ Hwf).
    destruct (stamped_entry k e He) as (e' & He' & Hv & Hs' & _). exists e'. by rewrite Hv, Hs'.
  - intros s name. induction (cw_sorted _ _ Hwf s name) as [|x l _ IH Hx]; constructor; [done|].
    rewrite Forall_forall in *. intros y Hy. destruct (Hx y Hy) as [Hlt Hts]. split; [done|].
    intros ep' ek' (ep & Hp & _ & _ & _ & _ & ->)%stamped_inv (ek & Hk & _ & _ & -> & _ & ->)%stamped_inv Hc.
    destruct (Hts ep ek Hp Hk Hc) as [Heq|[Hlt1 Hlt2]]; [left; by rewrite Heq|right].
    pose proof (Hbelow y ek Hk Hc Hlt2). repeat case_decide; lia.
  - intros k e' (e & He & _ & _ & -> & _ & ->)%stamped_inv Hc. pose proof (cw_last _ _ Hwf _ _ He Hc).
    case_decide; lia.
  - intros k e' (e & He & _)%stamped_inv. by apply (cw_fresh _ _ Hwf _ _ He).
  - intros k e' (e & He & -> & -> & _)%stamped_inv. by apply (cw_typed _ _ Hwf k).
  - intros p ep' k ek' (ep & Hp & -> & _ & -> & _)%stamped_inv Hc (ek & Hk & -> & _)%stamped_inv.
    by apply (cw_log _ _ Hwf p ep k ek).
Qed.

Lemma stamped_below : committed_below cs' (cid + 1).
Proof.
  intros p e' (e & He & _ & _ & -> & _ & ->)%stamped_inv Hc Hlt. case_decide; [lia|].
  pose proof (Hbelow p e He Hc Hlt). lia.
Qed.

Lemma stamped_replaced z q :
  replaced_by cs' z q = if decide (z = num) then None else
    match replaced_by cs z q with
    | Some k => Some k
    | None => if decide (z = cid) then replaced_by cs num q else None
    end.
Proof.
  unfold replaced_by at 1. destruct (cat_entries cs !! q) as [e|] eqn:He.
  - destruct (stamped_entry q e He) as (e' & He' & _ & _ & Hc & _ & Ht).
    rewrite He', Hc, Ht. unfold replaced_by. rewrite He.
    repeat case_decide; repeat case_match; repeat match goal with H : (_ =? _)%Z = _ |- _ =>
      first [apply Z.eqb_eq in H|apply Z.eqb_neq in H] end; try done; lia || congruence.
  - unfold cs' at 1. rewrite stamp_lookup, He. simpl. unfold replaced_by. rewrite He. by repeat case_decide.
Qed.

Lemma stamped_owned z :
  owned cs cid = [] →
  owned cs' z = if decide (z = num) then [] else if decide (z = cid) then owned cs num else owned cs z.
Proof.
  intros Hno. assert (num ≠ cid) by lia. unfold owned. change (next_entry cs') with (next_entry cs).
  case_decide as Hz; [|case_decide as Hz'].
  - erewrite omap_seq_ext; [|intros q _; rewrite stamped_replaced, decide_True by done; reflexivity].
    clear. generalize 0. induction (next_entry cs) as [|n IH]; intros a; [done|]. rewrite omap_seq_cons. apply IH.
  - apply omap_seq_ext. intros q Hq. rewrite stamped_replaced, decide_False, (decide_True _ _ Hz') by done.
    destruct (replaced_by cs z q) as [k|] eqn:Hr; [|done]. exfalso. subst z.
    apply replaced_by_Some in Hr as (e & He & Ht & Hc).
    assert (k ∈ owned cs cid) as Hin by (apply (elem_of_owned cs G Hwf); eauto).
    rewrite Hno in Hin. by apply not_elem_of_nil in Hin.
  - apply omap_seq_ext. intros q Hq. rewrite stamped_replaced, !decide_False by done.
    by destruct (replaced_by cs z q).
Qed.

Lemma stamped_view tx s name :
  sees tx num = sees tx cid → catalog_view cs' tx s name = catalog_view cs tx s name.
Proof.
  intros Htx. rewrite (catalog_view_spec cs' G stamped_wf), (catalog_view_spec cs G Hwf). unfold found.
  rewrite (seen_ext (cat_entries cs) (cat_entries cs') tx tx).
  - destruct (seen (cat_entries cs) tx (G s name)) as [k|] eqn:Hs; [|done].
    apply seen_elem in Hs. destruct (cw_member _ _ Hwf _ _ _ Hs) as (e & He & _).
    destruct (stamped_entry k e He) as (e' & He' & Hv & _).
    cbn [mbind option_bind]. rewrite He, He'. cbn [mbind option_bind]. by rewrite Hv.
  - intros l1 k l2 Hl. destruct (cw_member _ _ Hwf s name k) as (e & He & _).
    { rewrite Hl. apply elem_of_app. right. left. }
    destruct (stamped_entry k e He) as (e' & He' & _ & _ & _ & _ & Ht). exists e, e'.
    split_and!; try done. intros _. rewrite Ht. case_decide as Hn; [by rewrite Hn|done].
Qed.
End stamped.

(** ** The catalog keeps its promises *)

#[export, program] Instance catalog_laws : CatalogLaws (catalog E Q) E Q := {
  cat_set := set_id;
  cat_object := nat * CatalogType * entry_data E Q;
  cat_wf := catalog_wf;
  cat_owns cs z ks := ks = owned cs z;
  cat_below := committed_below;
  cat_view := catalog_view }.
Next Obligation. intros cs z z' Hb Hz p e He Hc Hlt. pose proof (Hb p e He Hc Hlt). lia. Qed.
Next Obligation.
  intros cs num cid ks log [G Hwf] [Hc0 Hcid] Hnum Hb -> Hno.
  exists (stamp_below num cid (next_entry cs) cs). split_and!.
  - etransitivity; [|apply (commit_cats_stamp cs G num cid log Hwf Hnum (next_entry cs) 0)].
    f_equal. unfold stamp_below. destruct cs as [h ss n cn]. simpl. f_equal. apply map_eq. intros p.
    rewrite map_lookup_imap. by destruct (h !! p).
  - exists G. by apply stamped_wf.
  - by apply stamped_below with G.
  - rewrite (stamped_owned cs G) by done. by rewrite decide_True.
  - rewrite (stamped_owned cs G) by done. rewrite decide_False, decide_True by lia. done.
  - intros z ks' Hz1 Hz2. rewrite (stamped_owned cs G) by done. by rewrite !decide_False.
  - intros tx s name Htx. by apply stamped_view with G.
Qed.
Next Obligation.
  intros cs num ks k [G Hwf] Hnum Hown. symmetry in Hown.
  destruct (Undo_spec cs G num ks k Hwf Hnum Hown) as (cs' & s & name & l & Hu & Hcc & [Hso Hsb] & Ho & Hv).
  pose proof (chain_update _ _ _ _ _ _ Hwf Hcc) as Hwf'.
  exists cs'. split_and!; try done; [by eexists| |].
  - intros z ks' Hz. by rewrite Hso.
  - intros tx s' name' Htx. destruct (decide (s' = s ∧ name' = name)) as [[-> ->]|Hne].
    + rewrite (catalog_view_spec cs' _ Hwf'), (catalog_view_spec cs G Hwf). unfold gupd.
      rewrite decide_True by done. by apply Hv.
    + by eapply view_frame.
Qed.
Next Obligation.
  intros cs num k ks [G Hwf] Hnum Hown Hmin. symmetry in Hown.
  destruct (cleanup_catalog_spec cs G num k ks Hwf Hnum Hown) as (cs' & s & name & l & Hu & Hcc & [Hso Hsb] & Ho & Hv).
  { intros z k' ks' Hz. by eapply Hmin. }
  pose proof (chain_update _ _ _ _ _ _ Hwf Hcc) as Hwf'.
  exists cs'. split_and!; try done; [by eexists| |].
  - intros z ks' Hz. by rewrite Hso.
  - intros tx s' name' Htx. destruct (decide (s' = s ∧ name' = name)) as [[-> ->]|Hne].
    + rewrite (catalog_view_spec cs' _ Hwf'), (catalog_view_spec cs G Hwf). unfold gupd.
      rewrite decide_True by done. by apply Hv.
    + by eapply view_frame.
Qed.
Next Obligation. intros cs z ks ks' _ -> ->. done. Qed.
Next Obligation.
  intros cs tx tx' [G Hwf] Hsee s name. rewrite !(catalog_view_spec cs G Hwf). unfold found.
  rewrite (seen_ext (cat_entries cs) (cat_entries cs) tx tx'); [done|]. intros l1 k l2 Hl.
  destruct (cw_member _ _ Hwf s name k) as (e & He & Hes & Hen).
  { rewrite Hl. apply elem_of_app. right. left. }
  exists e, e. split_and!; try done. intros Hne.
  pose proof (cw_chain _ _ Hwf s name) as Hch. rewrite Hl in Hch.
  destruct (chain_split _ _ _ _ _ _ Hch) as (e2 & He2 & _ & Hc). assert (e2 = e) as -> by congruence.
  destruct l2 as [|g l2]; [done|]. destruct Hc as [Hc _].
  assert (g ∈ owned cs (ce_timestamp e)) as Hg by (apply (elem_of_owned cs G Hwf); eauto).
  destruct (owned cs (ce_timestamp e)) as [|k' ks'] eqn:Ho; [by apply not_elem_of_nil in Hg|].
  by apply (Hsee _ k' ks').
Qed.
End commit.
