(* ===== verification/CatalogOps.v ===== *)
(** * Catalog sets: creating, altering and dropping entries

    What [CreateEntry], [AlterEntry] and [DropEntry] of [CatalogSet.v] do, on
    every branch: one replacement at a time, invisible to other transactions,
    undone by a rollback.  [Catalog.v] builds the operations on schemas, tables
    and views on top. *)

From Stdlib Require Import ZArith Lia.
From stdpp Require Import base gmap list strings option numbers sorting relations.
From S2P Require Import Prelude Types Vector Tuple Storage Versions DataTable TableScan TableOps TableAppend WriteAheadLog UndoBuffer UndoProofs TransactionManager TransactionProofs Database CatalogSet CatalogProofs.

Section ops.
Context {E Q : Type}.
Implicit Types (cs : catalog E Q) (e : CatalogEntry E Q) (v : EntryValue E Q) (st : cat_state E Q).

(** ** One replacement *)

(** A change that no transaction notices and no number owns. *)
Definition inert cs cs' : Prop :=
  catalog_wf cs' ∧ (∀ z, committed_below cs z → committed_below cs' z) ∧
  (∀ z, owned cs' z = owned cs z) ∧ (∀ tx s name, catalog_view cs' tx s name = catalog_view cs tx s name).

Lemma inert_refl cs : catalog_wf cs → inert cs cs.
Proof. by intros. Qed.

Lemma inert_replaced cs cs1 cs' id k : inert cs cs1 → cat_replaced cs1 cs' id k → cat_replaced cs cs' id k.
Proof.
  intros (_ & Hb & Ho & Hv) (Hwf & Hb' & Hown & Hoth & Hview).
  split_and!; [done|intros z Hz; apply Hb', Hb, Hz| | |].
  - intros ks Hks. apply Hown. rewrite Hks. symmetry. apply Ho.
  - intros z ks Hz. rewrite <- (Hoth z ks Hz). cbn. by rewrite Ho.
  - intros tx Htx s name. rewrite (Hview tx Htx s name). apply Hv.
Qed.

(** A chain of one deleted entry is found like no chain. *)
Lemma add_dummy_spec cs s name :
  catalog_wf cs → set_data cs s !! name = None →
  inert cs (add_dummy cs s name) ∧
  set_data (add_dummy cs s name) s !! name = Some (next_entry cs) ∧
  cat_entries (add_dummy cs s name) !! next_entry cs = Some (mkEntry (dummy_value name) s 0 None None) ∧
  (∀ s' name', ¬ (s' = s ∧ name' = name) → set_data (add_dummy cs s name) s' !! name' = set_data cs s' !! name') ∧
  (∀ k, k ≠ next_entry cs → cat_entries (add_dummy cs s name) !! k = cat_entries cs !! k).
Proof.
  intros [G Hwf] Hnone. set (cs' := add_dummy cs s name). set (d := next_entry cs).
  set (ed := mkEntry (dummy_value name) s 0 None None : CatalogEntry E Q).
  assert (cat_entries cs !! d = None) as Hd.
  { destruct (cat_entries cs !! d) as [e|] eqn:He; [|done]. pose proof (cw_fresh _ _ Hwf _ _ He). unfold d in *. lia. }
  assert (G s name = []) as Hnil.
  { pose proof (cw_chain _ _ Hwf s name) as Hch. rewrite Hnone in Hch. by destruct (G s name); [|destruct Hch]. }
  assert (cat_entries cs' !! d = Some ed) as Hd' by apply lookup_insert_eq.
  assert (∀ k, k ≠ d → cat_entries cs' !! k = cat_entries cs !! k) as Hk' by (intros; by apply lookup_insert_ne).
  assert (∀ s' name', set_data cs' s' !! name' =
    if decide (s' = s ∧ name' = name) then Some d else set_data cs s' !! name') as Hdata.
  { intros s' name'. unfold cs', add_dummy. rewrite set_data_head. done. }
  assert (chain_change cs cs' G s name [d]) as Hcc.
  { constructor.
    - intros s' name' Hne. by rewrite Hdata, decide_False.
    - intros k _ Hk. apply Hk'. by intros ->; apply Hk; left.
    - rewrite Hnil. by intros k Hk%not_elem_of_nil.
    - intros k ->%list_elem_of_singleton. by right.
    - rewrite Hdata, decide_True by done. split; [done|]. by exists ed.
    - repeat constructor.
    - unfold cs', add_dummy. simpl. lia.
    - intros k ->%list_elem_of_singleton. exists ed. split_and!; try done; [unfold cs', add_dummy, d; simpl; lia|by left].
    - intros p ep k ek ->%list_elem_of_singleton Hp Hc. by simplify_eq. }
  pose proof (chain_update _ _ _ _ _ _ Hwf Hcc) as Hwf'.
  split_and!; try done.
  - split_and!; [by eexists| | |].
    + intros z Hb p e He Hc. destruct (decide (p = d)) as [->|Hne]; [rewrite Hd' in He; simplify_eq; by destruct Hc|].
      rewrite Hk' in He by done. by apply (Hb p).
    + intros z. unfold owned. change (next_entry cs') with (S d). rewrite omap_seq_snoc.
      change (0 + d) with d. assert (replaced_by cs' z d = None) as -> by (unfold replaced_by; rewrite Hd'; simpl; by case_match).
      rewrite app_nil_r.
      apply omap_seq_ext. intros q Hq. unfold replaced_by. rewrite Hk' by lia. done.
    + intros tx s' name'. destruct (decide (s' = s ∧ name' = name)) as [[-> ->]|Hne]; [|by eapply view_frame].
      rewrite (catalog_view_spec cs' _ Hwf'), (catalog_view_spec cs G Hwf). unfold gupd.
      rewrite decide_True by done. rewrite Hnil. unfold found. cbn [seen]. rewrite Hd', bool_decide_true by done.
      cbn [orb mbind option_bind]. by rewrite Hd'.
  - by rewrite Hdata, decide_True.
  - intros s' name' Hne. by rewrite Hdata, decide_False.
Qed.

(** The effect of [push_entry]: the new entry is in front, the one it replaced
    is in the undo buffer, other transactions see what they saw, the writer
    finds the new entry. *)
Record pushed st st' (s : set_id) (name : string) (hd new : nat) v : Prop := {
  pd_tx : cx_tx st' = PushCatalogEntry (cx_tx st) hd;
  pd_replaced : cat_replaced (cx_cat st) (cx_cat st') (transaction_id (cx_tx st)) hd;
  pd_view : ∀ tx, transaction_id tx = transaction_id (cx_tx st) →
    catalog_view (cx_cat st') tx s name =
    if ev_deleted v then None else Some (new, ev_type v, ev_data v);
  pd_names : ∀ tx s' name', ¬ (s' = s ∧ name' = name) →
    catalog_view (cx_cat st') tx s' name' = catalog_view (cx_cat st) tx s' name';
  pd_data : ∀ s' name', set_data (cx_cat st') s' !! name' =
    if decide (s' = s ∧ name' = name) then Some new else set_data (cx_cat st) s' !! name';
  pd_head : ∀ eh, cat_entries (cx_cat st) !! hd = Some eh → ce_set eh = s;
  pd_entry : ∀ k, is_Some (cat_entries (cx_cat st) !! k) → k ≠ hd →
    cat_entries (cx_cat st') !! k = cat_entries (cx_cat st) !! k;
  pd_connections : connections (cx_cat st') = connections (cx_cat st) }.

Lemma head_newer cs G s name hd eh tx :
  chains_wf cs G → set_data cs s !! name = Some hd → cat_entries cs !! hd = Some eh →
  entry_conflict tx eh = false → (TRANSACTION_ID_START ≤ transaction_id tx)%Z →
  ∃ l, G s name = hd :: l ∧ ∀ k ek, k ∈ hd :: l → cat_entries cs !! k = Some ek → is_Some (ce_child ek) →
    ce_timestamp ek = transaction_id tx ∨
    (ce_timestamp ek < transaction_id tx ∧ ce_timestamp ek < TRANSACTION_ID_START)%Z.
Proof.
  intros Hwf Hhd Hh Hconf Hid. pose proof (cw_chain _ _ Hwf s name) as Hch. rewrite Hhd in Hch.
  destruct (G s name) as [|x l] eqn:Hl; [done|]. destruct Hch as ([= ->] & _). exists l. split; [done|].
  assert (ce_timestamp eh = transaction_id tx ∨ (ce_timestamp eh < TRANSACTION_ID_START)%Z) as Hts.
  { unfold entry_conflict in Hconf. apply andb_false_iff in Hconf as [?%Z.leb_gt|Hc]; [by right|left].
    by apply negb_false_iff, Z.eqb_eq in Hc. }
  pose proof (cw_sorted _ _ Hwf s name) as Hs. rewrite Hl in Hs. inversion_clear Hs as [|?? _ Hx].
  rewrite Forall_forall in Hx. intros k ek [->|Hk]%elem_of_cons Hek Hc.
  - assert (ek = eh) as -> by congruence. destruct Hts; [by left|right; lia].
  - destruct (Hx k Hk) as [_ Hsup]. destruct (Hsup eh ek Hh Hek Hc) as [Heq|[? ?]]; destruct Hts; try (left; lia); right; lia.
Qed.
End ops.

Section push.
Context {E Q : Type}.
Implicit Types (cs : catalog E Q) (e : CatalogEntry E Q) (v : EntryValue E Q) (st : cat_state E Q).

(** The heap after a push. *)
Section pushing.
Context cs (G : history) (s : set_id) (name : string) (hd : nat) (eh : CatalogEntry E Q)
  (tx : Transaction) (v : EntryValue E Q)
  (Hwf : chains_wf cs G) (Hhd : set_data cs s !! name = Some hd) (Hh : cat_entries cs !! hd = Some eh)
  (Hconf : entry_conflict tx eh = false) (Hid : (TRANSACTION_ID_START ≤ transaction_id tx)%Z)
  (Htyped : value_typed s v) (Hname : ev_name v = name) (Hlog : loggable (ce_value eh) v).
Let n := next_entry cs.
Let en := mkEntry v s (transaction_id tx) (Some hd) None.
Let cs' := set_head (set_entry (alloc_entry cs en) hd (set_parent (Some n) eh)) s name n.

Lemma push_new : hd ≠ n.
Proof. pose proof (cw_fresh _ _ Hwf _ _ Hh). unfold n. lia. Qed.

Lemma push_lookup k :
  cat_entries cs' !! k = if decide (k = n) then Some en else if decide (k = hd) then Some (set_parent (Some n) eh)
                         else cat_entries cs !! k.
Proof.
  pose proof push_new. unfold cs'. simpl. case_decide as Hkn; [subst k|case_decide as Hkh; [subst k|]].
  - rewrite lookup_insert_ne by done. apply lookup_insert_eq.
  - apply lookup_insert_eq.
  - by rewrite !lookup_insert_ne by done.
Qed.

Lemma push_data s' name' :
  set_data cs' s' !! name' = if decide (s' = s ∧ name' = name) then Some n else set_data cs s' !! name'.
Proof. unfold cs'. by rewrite set_data_head. Qed.

Lemma push_older l k : G s name = hd :: l → k ∈ hd :: l → k < n.
Proof.
  intros Hl Hk. rewrite <- Hl in Hk. destruct (cw_member _ _ Hwf _ _ _ Hk) as (e & He & _).
  by apply (cw_fresh _ _ Hwf _ _ He).
Qed.

(** The older entries of the chain only get a parent. *)
Lemma push_old l k ek :
  G s name = hd :: l → k ∈ hd :: l → cat_entries cs' !! k = Some ek →
  ∃ e, cat_entries cs !! k = Some e ∧ ce_value ek = ce_value e ∧ ce_set ek = ce_set e ∧
    ce_child ek = ce_child e ∧ ce_timestamp ek = ce_timestamp e.
Proof.
  intros Hl Hk. rewrite push_lookup, decide_False by (pose proof (push_older l k Hl Hk); lia).
  case_decide as Hkh; [subst k|]; [intros [= <-]|]; eauto 10.
Qed.

Lemma push_chain l : G s name = hd :: l → chain (cat_entries cs') None (set_data cs' s !! name) (n :: hd :: l).
Proof.
  intros Hl. pose proof push_new as Hne.
  assert (hd ∉ l) as Hhl.
  { pose proof (sorted_NoDup _ _ (cw_sorted _ _ Hwf s name)) as Hnd. rewrite Hl in Hnd. by apply NoDup_cons in Hnd as [? _]. }
  pose proof (cw_chain _ _ Hwf s name) as Hch. rewrite Hl in Hch. destruct Hch as (_ & eh' & Hh' & _ & Hch).
  assert (eh' = eh) as -> by congruence.
  rewrite push_data, decide_True by done. split; [done|]. exists en. rewrite push_lookup, decide_True by done.
  split; [done|]. split; [done|]. split; [done|]. exists (set_parent (Some n) eh).
  rewrite push_lookup, decide_False, decide_True by done.
  split_and!; try done. eapply chain_frame; [exact Hch|]. intros k Hk.
  pose proof (push_older l k Hl ltac:(by right)).
  rewrite push_lookup, !decide_False; [done| |lia]. intros ->. done.
Qed.

Lemma push_sorted l :
  G s name = hd :: l →
  (∀ k ek, k ∈ hd :: l → cat_entries cs !! k = Some ek → is_Some (ce_child ek) →
    ce_timestamp ek = transaction_id tx ∨
    (ce_timestamp ek < transaction_id tx ∧ ce_timestamp ek < TRANSACTION_ID_START)%Z) →
  StronglySorted (supersedes (cat_entries cs')) (n :: hd :: l).
Proof.
  intros Hl Hts. pose proof (fun k ek => push_old l k ek Hl) as Hent. constructor.
  - pose proof (cw_sorted _ _ Hwf s name) as Hs. rewrite Hl in Hs. clear -Hs Hent.
    induction Hs as [|x l0 _ IH Hx]; constructor.
    { apply IH. intros k ek Hk. apply Hent. by right. }
    rewrite Forall_forall in *. intros y Hy. destruct (Hx y Hy) as [Hlt Hsup]. split; [done|].
    intros ep ek Hep Hek. destruct (Hent x ep ltac:(left) Hep) as (ep0 & Hp0 & _ & _ & _ & ->).
    destruct (Hent y ek ltac:(by right) Hek) as (ek0 & Hk0 & _ & _ & -> & ->). by apply Hsup.
  - apply Forall_forall. intros k Hk. split; [by apply (push_older l)|]. intros ep ek.
    rewrite push_lookup, decide_True by done. intros [= <-] Hek.
    destruct (Hent k ek Hk Hek) as (e0 & Hk0 & _ & _ & -> & ->). by apply (Hts k).
Qed.

Lemma push_logged l p ep k ek :
  G s name = hd :: l → p ∈ n :: hd :: l → cat_entries cs' !! p = Some ep → ce_child ep = Some k →
  cat_entries cs' !! k = Some ek → loggable (ce_value ek) (ce_value ep).
Proof.
  intros Hl [->|Hp]%elem_of_cons Hep Hc Hek.
  - rewrite push_lookup, decide_True in Hep by done. injection Hep as <-. injection Hc as <-.
    destruct (push_old l hd ek Hl ltac:(left) Hek) as (e0 & Hk0 & -> & _). by assert (e0 = eh) as -> by congruence.
  - destruct (push_old l p ep Hl Hp Hep) as (ep0 & Hp0 & -> & _ & Hc0 & _). rewrite Hc0 in Hc.
    destruct (link_child cs G Hwf p ep0 k Hp0 Hc) as (l1 & l2 & ek0 & Hl0 & Hk0 & _).
    assert (k ∈ G s name) as Hin.
    { rewrite <- Hl in Hp. destruct (cw_member _ _ Hwf _ _ _ Hp) as (e & He & <- & <-).
      assert (e = ep0) as -> by congruence. rewrite Hl0. apply elem_of_app. right. right. left. }
    rewrite Hl in Hin. destruct (push_old l k ek Hl Hin Hek) as (ek1 & Hk1 & -> & _).
    by apply (cw_log _ _ Hwf p ep0 k ek1).
Qed.

Lemma push_change : ∃ l, G s name = hd :: l ∧ chain_change cs cs' G s name (n :: hd :: l).
Proof.
  destruct (head_newer cs G s name hd eh tx Hwf Hhd Hh Hconf Hid) as (l & Hl & Hts). exists l. split; [done|].
  assert (next_entry cs' = S n) as En by done. constructor.
  - intros s' name' Hn. by rewrite push_data, decide_False.
  - intros k Hk1 Hk2. rewrite !not_elem_of_cons in Hk2. rewrite push_lookup, !decide_False by naive_solver. done.
  - rewrite Hl. intros k Hk1 Hk2. rewrite not_elem_of_cons in Hk2. naive_solver.
  - rewrite Hl. intros k [->|Hk]%elem_of_cons; [right|by left]. destruct (cat_entries cs !! n) as [e|] eqn:He; [|done].
    pose proof (cw_fresh _ _ Hwf _ _ He). unfold n in *. lia.
  - by apply push_chain.
  - by apply push_sorted.
  - rewrite En. unfold n. lia.
  - intros k [->|Hk]%elem_of_cons.
    { exists en. rewrite push_lookup, decide_True by done. split_and!; try done. rewrite En. lia. }
    assert (k ∈ G s name) as Hin by (by rewrite Hl). destruct (cw_member _ _ Hwf _ _ _ Hin) as (e & He & Hes & Hen).
    destruct (cat_entries cs' !! k) as [ek|] eqn:Hek.
    2:{ rewrite push_lookup in Hek. repeat case_decide; congruence. }
    destruct (push_old l k ek Hl Hk Hek) as (e0 & Hk0 & Hv0 & Hs0 & Hc0 & Ht0). assert (e0 = e) as -> by congruence.
    exists ek. rewrite Hv0, Hs0, Hc0, Ht0, En. split_and!; try done.
    + pose proof (push_older l k Hl Hk). lia.
    + rewrite <- Hes. by apply (cw_typed _ _ Hwf k).
    + by apply (cw_last _ _ Hwf k).
  - intros p ep k ek. by apply push_logged.
Qed.

(** What the number of the writer owns. *)
Lemma push_owned z :
  owned cs' z = if decide (z = transaction_id tx) then owned cs z ++ [hd] else owned cs z.
Proof.
  assert (∀ q, q < n → replaced_by cs' z q = replaced_by cs z q) as Hq.
  { intros q Hq. unfold replaced_by. rewrite push_lookup, decide_False by lia.
    case_decide; [subst q; by rewrite Hh|done]. }
  unfold owned. change (next_entry cs') with (S n). rewrite omap_seq_snoc. change (0 + n) with n.
  rewrite (omap_seq_ext (replaced_by cs z)) by (intros q ?; apply Hq; lia).
  assert (replaced_by cs' z n = if decide (z = transaction_id tx) then Some hd else None) as ->.
  { unfold replaced_by. rewrite push_lookup, decide_True by done. simpl.
    destruct (Z.eqb_spec (transaction_id tx) z); case_decide; congruence. }
  case_decide; [done|apply app_nil_r].
Qed.

Lemma push_replaced : cat_replaced cs cs' (transaction_id tx) hd.
Proof.
  destruct push_change as (l & Hl & Hcc). pose proof (chain_update _ _ _ _ _ _ Hwf Hcc) as Hwf'.
  split_and!.
  - by eexists.
  - intros z Hb p e. rewrite push_lookup. intros He Hc Hlt. case_decide; [injection He as <-; simpl in *; lia|].
    case_decide; [injection He as <-; subst p; by apply (Hb hd eh)|by apply (Hb p)].
  - intros ks Hks. change (ks = owned cs (transaction_id tx)) in Hks.
    change (ks ++ [hd] = owned cs' (transaction_id tx)). rewrite push_owned, decide_True by done. by rewrite Hks.
  - intros z ks Hz. change (ks = owned cs z ↔ ks = owned cs' z). by rewrite push_owned, decide_False.
  - intros tx' Htx s' name'. change (catalog_view cs' tx' s' name' = catalog_view cs tx' s' name'). destruct (decide (s' = s ∧ name' = name)) as [[-> ->]|Hne]; [|by eapply view_frame].
    rewrite (catalog_view_spec cs' _ Hwf'), (catalog_view_spec cs G Hwf). unfold gupd.
    rewrite decide_True, Hl by done. unfold found.
    assert (seen (cat_entries cs') tx' (n :: hd :: l) = seen (cat_entries cs) tx' (hd :: l)) as ->.
    { rewrite <- (seen_ext (cat_entries cs) (cat_entries cs') tx' tx' (hd :: l)).
      - cbn [seen]. rewrite push_lookup, decide_True by done. cbn. by rewrite Htx.
      - intros l1 k l2 Hk. assert (k ∈ hd :: l) as Hin by (rewrite Hk; apply elem_of_app; right; left).
        destruct (cc_entry _ _ _ _ _ _ Hcc k) as (ek & Hek & _); [by right|].
        destruct (push_old l k ek Hl Hin Hek) as (e0 & Hk0 & _ & _ & _ & Ht0). exists e0, ek.
        split_and!; try done. by rewrite Ht0. }
    destruct (seen (cat_entries cs) tx' (hd :: l)) as [k|] eqn:Hseen; [|done]. cbn [mbind option_bind].
    apply seen_elem in Hseen as Hin. destruct (cc_entry _ _ _ _ _ _ Hcc k) as (ek & Hek & _); [by right|].
    destruct (push_old l k ek Hl Hin Hek) as (e0 & Hk0 & Hv0 & _). rewrite Hek, Hk0.
    cbn [mbind option_bind]. by rewrite Hv0.
Qed.

Lemma push_entry_spec : ∃ st', push_entry s name v (mkCatState tx cs) = (Ok tt, st') ∧
  pushed (mkCatState tx cs) st' s name hd n v.
Proof.
  exists (mkCatState (PushCatalogEntry tx hd) cs'). split.
  { unfold push_entry. run. cbn [cx_cat cx_tx]. rewrite Hhd. run. rewrite Hh. run. done. }
  destruct push_change as (l & Hl & Hcc). pose proof (chain_update _ _ _ _ _ _ Hwf Hcc) as Hwf'.
  constructor; cbn [cx_tx cx_cat].
  - done.
  - apply push_replaced.
  - intros tx' Htx. rewrite (catalog_view_spec cs' _ Hwf'). unfold gupd. rewrite decide_True by done.
    unfold found. cbn [seen]. rewrite push_lookup, decide_True by done.
    assert (sees tx' (ce_timestamp en) = true) as ->.
    { unfold sees. simpl. rewrite Htx, Z.eqb_refl. done. }
    rewrite orb_true_r. cbn [mbind option_bind]. rewrite push_lookup, decide_True by done. done.
  - intros tx' s' name' Hne. by eapply view_frame.
  - apply push_data.
  - intros e He. assert (e = eh) as -> by congruence. assert (hd ∈ G s name) as Hin by (rewrite Hl; left).
    destruct (cw_member _ _ Hwf _ _ _ Hin) as (e & He' & Hs & _). congruence.
  - intros k [e He] Hk. pose proof (cw_fresh _ _ Hwf _ _ He). rewrite push_lookup, !decide_False; [done|done|].
    unfold n. lia.
  - done.
Qed.
End pushing.
End push.

Section scans.
Context {E Q : Type}.
Implicit Types (cs : catalog E Q) (e : CatalogEntry E Q) (v : EntryValue E Q) (st : cat_state E Q).

(** ** Scanning a set *)

Definition view_address cs (tx : Transaction) (s : set_id) (name : string) : option nat :=
  (fun x => x.1.1) <$> catalog_view cs tx s name.

Lemma GetEntry_view cs tx s name : catalog_wf cs → GetEntry cs tx s name = Ok (view_address cs tx s name).
Proof.
  intros [G Hwf]. unfold view_address. by rewrite (GetEntry_spec cs G Hwf), (catalog_view_spec cs G Hwf).
Qed.

(** [Scan] calls its callback with exactly the entries that [GetEntry] finds. *)
Lemma Scan_set_spec cs tx s :
  catalog_wf cs →
  Scan_set cs tx s = Ok (omap (fun nk => view_address cs tx s nk.1) (map_to_list (set_data cs s))).
Proof.
  intros Hwf. unfold Scan_set.
  rewrite (mapM_Ok_ext _ (fun nk => view_address cs tx s nk.1)).
  - run. change (mret ?x) with (Ok x). f_equal. by rewrite omap_fmap_compose.
  - intros [name k] Hin%elem_of_map_to_list. cbn [fst snd]. rewrite <- (GetEntry_view cs tx s name Hwf).
    unfold GetEntry. by rewrite Hin.
Qed.

Lemma elem_of_scan cs tx s ks k :
  catalog_wf cs → Scan_set cs tx s = Ok ks → k ∈ ks ↔ ∃ name, GetEntry cs tx s name = Ok (Some k).
Proof.
  intros Hwf. rewrite (Scan_set_spec cs tx s Hwf). intros [= <-]. rewrite list_elem_of_omap.
  setoid_rewrite (GetEntry_view cs tx s _ Hwf). split.
  - intros ([name hd] & _ & Hv). exists name. by f_equal.
  - intros (name & [= Hv]). destruct (set_data cs s !! name) as [hd|] eqn:Hhd.
    + exists (name, hd). split; [by apply elem_of_map_to_list|done].
    + exfalso. pose proof (GetEntry_view cs tx s name Hwf) as Hg. unfold GetEntry in Hg.
      rewrite Hhd in Hg. rewrite Hv in Hg. done.
Qed.

Lemma IsEmpty_spec cs tx s :
  catalog_wf cs → ∃ b, IsEmpty cs tx s = Ok b ∧ (b = true ↔ ∀ name, GetEntry cs tx s name = Ok None).
Proof.
  intros Hwf. unfold IsEmpty. destruct (Scan_set cs tx s) as [ks| |] eqn:Hs.
  2,3: by rewrite (Scan_set_spec cs tx s Hwf) in Hs.
  run. eexists. split; [done|]. pose proof (fun k => elem_of_scan cs tx s ks k Hwf Hs) as Hel.
  rewrite bool_decide_eq_true. split.
  - intros -> name. rewrite (GetEntry_view cs tx s name Hwf). destruct (view_address cs tx s name) as [k|] eqn:Hk; [|done].
    exfalso. apply (not_elem_of_nil k), Hel. exists name. by rewrite (GetEntry_view cs tx s name Hwf), Hk.
  - intros Hno. destruct ks as [|k ks]; [done|]. exfalso. destruct (proj1 (Hel k)) as [name Hn]; [left|].
    by rewrite Hno in Hn.
Qed.

Lemma HasDependents_total cs tx k v : catalog_wf cs → ∃ b, HasDependents cs tx k v = Ok b.
Proof.
  intros Hwf. unfold HasDependents. destruct (ev_type v); eauto.
  - rewrite (mapM_Ok_ext _ (fun c => omap (fun nk => view_address cs tx (PreparedStatements c) nk.1)
      (map_to_list (set_data cs (PreparedStatements c))))) by (intros c _; by apply Scan_set_spec).
    run. eauto.
  - destruct (IsEmpty_spec cs tx (Tables k) Hwf) as (b1 & -> & _), (IsEmpty_spec cs tx (TableFunctions k) Hwf) as (b2 & -> & _),
      (IsEmpty_spec cs tx (ScalarFunctions k) Hwf) as (b3 & -> & _). run. eauto.
Qed.
End scans.

Section operations.
Context {E Q : Type}.
Implicit Types (cs : catalog E Q) (e : CatalogEntry E Q) (v : EntryValue E Q) (st : cat_state E Q).

(** ** Creating, altering, dropping *)

Definition ready st : Prop :=
  catalog_wf (cx_cat st) ∧ (TRANSACTION_ID_START ≤ transaction_id (cx_tx st))%Z.

(** The sets whose changes the write-ahead log can express. *)
Definition logged_set (s : set_id) : Prop :=
  match s with Schemas | Tables _ | PreparedStatements _ => True | _ => False end.

Lemma create_loggable s (c v : EntryValue E Q) :
  logged_set s → value_typed s c → ev_deleted c = true → value_typed s v → ev_deleted v = false → loggable c v.
Proof.
  unfold value_typed, loggable, WriteCatalogEntry, log_create. intros Hs Hc Hdc Hv Hdv.
  rewrite Hdc in Hc. rewrite Hdv in Hv.
  destruct s, (ev_type v), (ev_data v); try done; destruct Hc as [Ec|Ec]; try rewrite Ec; eauto.
Qed.

Lemma drop_loggable s (c : EntryValue E Q) name :
  logged_set s → value_typed s c → ev_deleted c = false → loggable c (deleted_value name).
Proof.
  unfold value_typed, loggable, WriteCatalogEntry, log_drop. intros Hs Hc Hdc. rewrite Hdc in Hc. simpl.
  destruct s, (ev_type c), (ev_data c); try done; eauto.
Qed.

Lemma head_entry cs s name k :
  catalog_wf cs → set_data cs s !! name = Some k →
  ∃ e, cat_entries cs !! k = Some e ∧ ce_set e = s ∧ ev_name (ce_value e) = name ∧ value_typed s (ce_value e).
Proof.
  intros [G Hwf] Hk. pose proof (cw_chain _ _ Hwf s name) as Hch. rewrite Hk in Hch. apply chain_head in Hch.
  assert (k ∈ G s name) as Hin by (destruct (G s name); [done|injection Hch as ->; left]).
  destruct (cw_member _ _ Hwf _ _ _ Hin) as (e & He & <- & <-). exists e. split_and!; try done.
  by apply (cw_typed _ _ Hwf k).
Qed.

Lemma push_over st s name k e v :
  ready st → set_data (cx_cat st) s !! name = Some k → cat_entries (cx_cat st) !! k = Some e →
  entry_conflict (cx_tx st) e = false → value_typed s v → ev_name v = name → loggable (ce_value e) v →
  ∃ st' new, push_entry s name v st = (Ok tt, st') ∧ pushed st st' s name k new v.
Proof.
  intros [[G Hwf] Hid] Hk He Hc Ht Hn Hl. destruct st as [tx cs].
  destruct (push_entry_spec cs G s name k e tx v Hwf Hk He Hc Hid Ht Hn Hl) as (st' & ? & ?). eauto.
Qed.

Lemma pushed_dummy tx cs st' s name new v :
  catalog_wf cs → set_data cs s !! name = None →
  pushed (mkCatState tx (add_dummy cs s name)) st' s name (next_entry cs) new v →
  pushed (mkCatState tx cs) st' s name (next_entry cs) new v.
Proof.
  intros Hwf Hnone Hp. destruct (add_dummy_spec cs s name Hwf Hnone) as (Hin & Hd & He & Hdata & Hent).
  assert (cat_entries cs !! next_entry cs = None) as Hfree.
  { destruct Hwf as [G Hwf]. destruct (cat_entries cs !! next_entry cs) as [e|] eqn:Hn; [|done].
    pose proof (cw_fresh _ _ Hwf _ _ Hn). lia. }
  destruct Hp as [Htx Hrep Hview Hnames Hdata' Hhead Hentry Hconn]. cbn [cx_tx cx_cat] in *. constructor; cbn [cx_tx cx_cat]; try done.
  - by eapply inert_replaced.
  - intros tx' s' name' Hne. rewrite Hnames by done. apply Hin.
  - intros s' name'. rewrite Hdata'. case_decide; [done|]. by apply Hdata.
  - congruence.
  - intros k Hk Hne. rewrite <- (Hent k Hne). apply Hentry; [by rewrite Hent|done].
Qed.

(** The outcomes of [CreateEntry]. *)
Inductive create_outcome st s name v : result bool → cat_state E Q → Prop :=
| create_ok st' hd new : pushed st st' s name hd new v → create_outcome st s name v (Ok true) st'
| create_conflict k e :
    set_data (cx_cat st) s !! name = Some k → cat_entries (cx_cat st) !! k = Some e →
    entry_conflict (cx_tx st) e = true → create_outcome st s name v (Throw TransactionException) st
| create_exists k e :
    set_data (cx_cat st) s !! name = Some k → cat_entries (cx_cat st) !! k = Some e →
    entry_conflict (cx_tx st) e = false → ev_deleted (ce_value e) = false →
    create_outcome st s name v (Ok false) st.

Lemma CreateEntry_spec st s name v :
  ready st → logged_set s → value_typed s v → ev_deleted v = false → ev_name v = name →
  ∃ r st', CreateEntry_set s name v st = (r, st') ∧ create_outcome st s name v r st'.
Proof.
  intros Hr Hs Ht Hdel Hn. unfold CreateEntry_set. run.
  destruct (set_data (cx_cat st) s !! name) as [k|] eqn:Hk.
  - destruct (head_entry _ _ _ _ (proj1 Hr) Hk) as (e & He & _ & _ & Hte). rewrite He. run.
    destruct (entry_conflict (cx_tx st) e) eqn:Hc; [eexists _, _; split; [done|by econstructor]|].
    destruct (ev_deleted (ce_value e)) eqn:Hd; cbn [negb].
    + destruct (push_over st s name k e v Hr Hk He Hc Ht Hn) as (st' & new & Hp & Hpd).
      { by eapply create_loggable. }
      run_using Hp. eexists _, _. split; [done|by econstructor].
    + eexists _, _. split; [done|by econstructor].
  - destruct st as [tx cs]. cbn [cx_tx cx_cat] in *. destruct Hr as [Hwf Hid]. cbn [cx_tx cx_cat] in *.
    destruct (add_dummy_spec cs s name Hwf Hk) as (Hin & Hd & He & _).
    destruct (push_over (mkCatState tx (add_dummy cs s name)) s name (next_entry cs)
      (mkEntry (dummy_value name) s 0 None None) v) as (st' & new & Hp & Hpd); try done.
    { split; [apply Hin|done]. }
    { eapply create_loggable; try done. by left. }
    run. cbn [cx_tx cx_cat]. run_using Hp. eexists _, _. split; [done|]. econstructor. by apply pushed_dummy.
Qed.

(** The outcomes of [AlterEntry]. *)
Lemma AlterEntry_spec alter st s name :
  ready st → logged_set s →
  (∀ v v', value_typed s v → alter v = Ok v' →
    value_typed s v' ∧ ev_name v' = ev_name v ∧ ev_deleted v' = false ∧ loggable v v') →
  (∀ k e, set_data (cx_cat st) s !! name = Some k → cat_entries (cx_cat st) !! k = Some e →
    alter (ce_value e) ≠ Undef) →
  ∃ r st', AlterEntry alter s name st = (r, st') ∧ r ≠ Undef ∧
    (st' = st ∧ r ≠ Ok true ∨ r = Ok true ∧ ∃ k e new v', set_data (cx_cat st) s !! name = Some k ∧
       cat_entries (cx_cat st) !! k = Some e ∧ alter (ce_value e) = Ok v' ∧ pushed st st' s name k new v').
Proof.
  intros Hr Hs Hok Hdef. unfold AlterEntry. run.
  destruct (set_data (cx_cat st) s !! name) as [k|] eqn:Hk; [|eexists _, _; split; [done|]; split; [done|by left]].
  destruct (head_entry _ _ _ _ (proj1 Hr) Hk) as (e & He & _ & Hen & Hte). rewrite He. run.
  destruct (entry_conflict (cx_tx st) e) eqn:Hc; [eexists _, _; split; [done|]; split; [done|by left]|].
  destruct (alter (ce_value e)) as [v'|x|] eqn:Ha; [|eexists _, _; split; [done|]; split; [done|by left]|by apply (Hdef k e) in Ha].
  destruct (Hok _ _ Hte Ha) as (Ht' & Hn' & _ & Hl').
  destruct (push_over st s name k e v' Hr Hk He Hc Ht') as (st' & new & Hp & Hpd); [congruence|done|].
  run. run_using Hp. eexists _, _. split; [done|]. split; [done|]. right. split; [done|]. by exists k, e, new, v'.
Qed.
End operations.

Section drops.
Context {E Q : Type}.
Implicit Types (cs : catalog E Q) (e : CatalogEntry E Q) (v : EntryValue E Q) (st : cat_state E Q).

(** ** Sequences of replacements *)

Definition push_step (P : set_id → Prop) st st' : Prop :=
  ∃ s name hd new v, P s ∧ pushed st st' s name hd new v.

(** Replacements in the sets [P]. *)
Definition pushes (P : set_id → Prop) : relation (cat_state E Q) := rtc (push_step P).

Lemma pushed_ready st st' s name hd new v : ready st → pushed st st' s name hd new v → ready st'.
Proof.
  intros [_ Hid] Hp. split; [apply (pd_replaced _ _ _ _ _ _ _ Hp)|]. by rewrite (pd_tx _ _ _ _ _ _ _ Hp).
Qed.

Lemma pushed_id st st' s name hd new v :
  pushed st st' s name hd new v → transaction_id (cx_tx st') = transaction_id (cx_tx st).
Proof. intros Hp. by rewrite (pd_tx _ _ _ _ _ _ _ Hp). Qed.

Lemma push_one P st st' s name hd new v : P s → pushed st st' s name hd new v → pushes P st st'.
Proof. intros HP Hp. apply rtc_once. by exists s, name, hd, new, v. Qed.

Lemma pushes_mono P P' st st' : (∀ s, P s → P' s) → pushes P st st' → pushes P' st st'.
Proof.
  intros HP. induction 1 as [|st1 st2 st3 (s & name & hd & new & v & Hs & Hp) _ IH]; [constructor|].
  eapply rtc_l; [|exact IH]. exists s, name, hd, new, v. auto.
Qed.

(** What a sequence of replacements keeps. *)
Record pushes_facts (P : set_id → Prop) st st' : Prop := {
  pf_ready : ready st';
  pf_id : transaction_id (cx_tx st') = transaction_id (cx_tx st);
  pf_present : ∀ s name, is_Some (set_data (cx_cat st) s !! name) → is_Some (set_data (cx_cat st') s !! name);
  pf_data : ∀ s name, ¬ P s → set_data (cx_cat st') s !! name = set_data (cx_cat st) s !! name;
  pf_entry : ∀ k e, cat_entries (cx_cat st) !! k = Some e → ¬ P (ce_set e) → cat_entries (cx_cat st') !! k = Some e;
  pf_view : ∀ tx s name, ¬ P s → catalog_view (cx_cat st') tx s name = catalog_view (cx_cat st) tx s name;
  pf_others : ∀ tx s name, sees tx (transaction_id (cx_tx st)) = false →
    catalog_view (cx_cat st') tx s name = catalog_view (cx_cat st) tx s name }.

Lemma pushes_keep P st st' : ready st → pushes P st st' → pushes_facts P st st'.
Proof.
  intros Hr Hps. induction Hps as [st|st1 st2 st3 (s & name & hd & new & v & Hs & Hp) _ IH]; [by constructor|].
  pose proof (pushed_ready _ _ _ _ _ _ _ Hr Hp) as Hr2. pose proof (pushed_id _ _ _ _ _ _ _ Hp) as Hid.
  destruct (IH Hr2) as [Hr3 Hid3 Hpr Hda Hen Hvw Hot]. constructor; [done|congruence| | | | |].
  - intros s' name' Hsome. apply Hpr. rewrite (pd_data _ _ _ _ _ _ _ Hp). case_decide; [eauto|done].
  - intros s' name' HnP. rewrite Hda by done. rewrite (pd_data _ _ _ _ _ _ _ Hp).
    rewrite decide_False; [done|]. intros [-> _]. done.
  - intros k e He HnP. apply Hen; [|done]. rewrite (pd_entry _ _ _ _ _ _ _ Hp); [done|eauto|].
    intros ->. apply HnP. by rewrite (pd_head _ _ _ _ _ _ _ Hp e He).
  - intros tx s' name' HnP. rewrite Hvw by done. apply (pd_names _ _ _ _ _ _ _ Hp). intros [-> _]. done.
  - intros tx s' name' Htx. rewrite Hot by (by rewrite Hid).
    by apply (pd_replaced _ _ _ _ _ _ _ Hp).
Qed.

(** ** Dropping *)

(** What dropping leaves: nothing for the writer, if it says so. *)
Definition dropped (P : set_id → Prop) st (s : set_id) (name : string) (r : result bool) st' : Prop :=
  r ≠ Undef ∧ pushes P st st' ∧
  (r = Ok true → ∀ tx, transaction_id tx = transaction_id (cx_tx st) →
    catalog_view (cx_cat st') tx s name = None) ∧
  (r = Ok false → st' = st ∧ ∃ k e, set_data (cx_cat st) s !! name = Some k ∧
    cat_entries (cx_cat st) !! k = Some e ∧ ev_deleted (ce_value e) = true).

(** An entry without a set of its own. *)
Lemma DropEntry_leaf depth st s name k cascade :
  ready st → logged_set s → s ≠ Schemas → set_data (cx_cat st) s !! name = Some k →
  ∃ r st', DropEntry_at (S depth) s k cascade st = (r, st') ∧ dropped (eq s) st s name r st'.
Proof.
  intros Hr Hs Hleaf Hk. cbn [DropEntry_at]. run.
  destruct (head_entry _ _ _ _ (proj1 Hr) Hk) as (e & He & _ & Hen & Hte). rewrite He. run.
  destruct (entry_conflict (cx_tx st) e) eqn:Hc.
  { eexists _, _. split; [done|]. by split_and!. }
  destruct (ev_deleted (ce_value e)) eqn:Hd.
  { eexists _, _. split; [done|]. split_and!; try done. eauto 10. }
  destruct (push_over st s name k e (deleted_value name) Hr Hk He Hc) as (st' & new & Hp & Hpd); try done.
  { by right. } { by eapply drop_loggable. }
  rewrite Hen.
  assert (∃ r' st', (push_entry s name (deleted_value name) ≫= λ _ : (), mret true) st = (r', st') ∧
    dropped (eq s) st s name r' st') as Hfin.
  { run_using Hp. eexists _, _. split; [done|]. split_and!; try done; [by eapply push_one|].
    intros _ tx Htx. by rewrite (pd_view _ _ _ _ _ _ _ Hpd tx Htx). }
  destruct cascade.
  - rewrite bool_decide_false; [run; exact Hfin|]. intros Ht. unfold value_typed in Hte. rewrite Hd, Ht in Hte.
    by destruct s, (ev_data (ce_value e)).
  - destruct (HasDependents_total (cx_cat st) (cx_tx st) k (ce_value e) (proj1 Hr)) as [b Hb]. rewrite Hb. run.
    destruct b; [|run; exact Hfin].
    eexists _, _. split; [done|]. by split_and!.
Qed.

(** Dropping the tables and views of a schema, name by name. *)
Definition drop_all (depth : nat) (s : set_id) : M (cat_state E Q) unit :=
  st ← get_M;
  for_M (map_to_list (set_data (cx_cat st) s)).*1 (fun name =>
    st ← get_M;
    k' ← lift_M (deref (set_data (cx_cat st) s !! name));
    _ ← DropEntry_at depth s k' true;
    mret tt).

Lemma drop_names depth s names : ∀ st,
  ready st → logged_set s → s ≠ Schemas → (∀ name, name ∈ names → is_Some (set_data (cx_cat st) s !! name)) →
  ∃ r st', for_M names (fun name =>
    st ← get_M;
    k' ← lift_M (deref (set_data (cx_cat st) s !! name));
    _ ← DropEntry_at (S depth) s k' true;
    mret tt) st = (r, st') ∧ r ≠ Undef ∧ pushes (eq s) st st'.
Proof.
  induction names as [|name names IH]; intros st Hr Hs Hleaf Hin.
  { eexists _, _. split; [done|]. split; [done|apply rtc_refl]. }
  destruct (Hin name) as [k Hk]; [left|].
  destruct (DropEntry_leaf depth st s name k true Hr Hs Hleaf Hk) as (r & st1 & Hd & Hr1 & Hps & _).
  cbn [for_M]. destruct r as [b|x|]; [| |done].
  - assert ((st ← get_M; k' ← lift_M (deref (set_data (cx_cat st) s !! name));
             _ ← DropEntry_at (S depth) s k' true; mret tt) st = (Ok tt, st1)) as Hbody.
    { run. rewrite Hk. run. run_using Hd. done. }
    run_using Hbody. pose proof (pushes_keep _ _ _ Hr Hps) as Hf.
    destruct (IH st1) as (r2 & st2 & Hfor & Hr2 & Hps2); try done.
    { apply Hf. }
    { intros n Hn. apply (pf_present _ _ _ Hf), Hin. by right. }
    eexists _, _. split; [exact Hfor|]. split; [done|]. by etrans.
  - assert ((st ← get_M; k' ← lift_M (deref (set_data (cx_cat st) s !! name));
             _ ← DropEntry_at (S depth) s k' true; mret tt) st = (Throw x, st1)) as Hbody.
    { run. rewrite Hk. run. run_using Hd. done. }
    run_using Hbody. eexists _, _. split; [done|]. split; [done|done].
Qed.
End drops.

Section schemas.
Context {E Q : Type}.
Implicit Types (cs : catalog E Q) (e : CatalogEntry E Q) (v : EntryValue E Q) (st : cat_state E Q).

(** The log cannot express that functions are dropped. *)
Definition no_functions cs (k : nat) : Prop :=
  set_data cs (TableFunctions k) = ∅ ∧ set_data cs (ScalarFunctions k) = ∅.

Lemma drop_all_tables depth st k :
  ready st → ∃ r st', drop_all (S depth) (Tables k) st = (r, st') ∧ r ≠ Undef ∧ pushes (eq (Tables k)) st st'.
Proof.
  intros Hr. unfold drop_all. run. apply (drop_names depth); try done. intros name Hn.
  apply list_elem_of_fmap in Hn as ([name' k'] & -> & Hin). apply elem_of_map_to_list in Hin. eauto.
Qed.

Lemma drop_all_empty depth st s : set_data (cx_cat st) s = ∅ → drop_all depth s st = (Ok tt, st).
Proof. intros Hs. unfold drop_all. run. by rewrite Hs, map_to_list_empty. Qed.

Lemma pushes_empty P st st' s :
  pushes_facts P st st' → ¬ P s → set_data (cx_cat st) s = ∅ → set_data (cx_cat st') s = ∅.
Proof. intros Hf HP Hs. apply map_eq. intros name. by rewrite (pf_data _ _ _ Hf) by done; rewrite Hs. Qed.

Lemma entry_conflict_id tx tx' e :
  transaction_id tx' = transaction_id tx → entry_conflict tx' e = entry_conflict tx e.
Proof. intros Hid. unfold entry_conflict. by rewrite Hid. Qed.

Lemma push_drop st st1 P s name k e :
  ready st → pushes P st st1 → ¬ P s → logged_set s →
  set_data (cx_cat st) s !! name = Some k → cat_entries (cx_cat st) !! k = Some e →
  entry_conflict (cx_tx st) e = false → ev_deleted (ce_value e) = false →
  ∃ st', (push_entry s name (deleted_value name) ≫= λ _ : (), mret true) st1 = (Ok true, st') ∧
    dropped (fun s' => P s' ∨ s' = s) st s name (Ok true) st'.
Proof.
  intros Hr Hps HnP Hs Hk He Hc Hd. pose proof (pushes_keep _ _ _ Hr Hps) as Hf.
  destruct (head_entry _ _ _ _ (proj1 Hr) Hk) as (e' & He' & Hes & Hen & Hte).
  assert (e' = e) as -> by congruence.
  destruct (push_over st1 s name k e (deleted_value name)) as (st' & new & Hp & Hpd); try done.
  { apply Hf. } { by rewrite (pf_data _ _ _ Hf). } { apply (pf_entry _ _ _ Hf); [done|by rewrite Hes]. }
  { by rewrite (entry_conflict_id (cx_tx st)) by apply Hf. } { by right. } { by eapply drop_loggable. }
  exists st'. run_using Hp. split; [done|]. split_and!; try done.
  - etrans; [eapply pushes_mono; [|exact Hps]; intros; by left|].
    eapply push_one; [|exact Hpd]. by right.
  - intros _ tx Htx. rewrite (pd_view _ _ _ _ _ _ _ Hpd tx); [done|]. by rewrite (pf_id _ _ _ Hf).
Qed.

Lemma DropEntry_schema depth st name k cascade :
  ready st → set_data (cx_cat st) Schemas !! name = Some k → no_functions (cx_cat st) k →
  ∃ r st', DropEntry_at (S (S depth)) Schemas k cascade st = (r, st') ∧
    dropped (fun s => s = Tables k ∨ s = Schemas) st Schemas name r st'.
Proof.
  intros Hr Hk [Htf Hsf].
  destruct (head_entry _ _ _ _ (proj1 Hr) Hk) as (e & He & _ & Hen & Hte).
  change (DropEntry_at (S (S depth)) Schemas k cascade st) with
    ((st ← get_M;
      current ← lift_M (deref (cat_entries (cx_cat st) !! k));
      let v := ce_value current in
      if entry_conflict (cx_tx st) current then throw_M TransactionException else
      if ev_deleted v then mret false else
      _ ← (if cascade then
             if bool_decide (ev_type v = CT_SCHEMA) then
               _ ← drop_all (S depth) (Tables k);
               _ ← drop_all (S depth) (TableFunctions k);
               drop_all (S depth) (ScalarFunctions k)
             else mret tt
           else
             dependents ← lift_M (HasDependents (cx_cat st) (cx_tx st) k v);
             if dependents : bool then throw_M CatalogException else mret tt);
      _ ← push_entry Schemas (ev_name v) (deleted_value (ev_name v));
      mret true) st).
  run. rewrite He. run. rewrite Hen.
  destruct (entry_conflict (cx_tx st) e) eqn:Hc; [eexists _, _; split; [done|by split_and!]|].
  destruct (ev_deleted (ce_value e)) eqn:Hd.
  { eexists _, _. split; [done|]. split_and!; try done. eauto 10. }
  destruct cascade.
  - rewrite bool_decide_true by (unfold value_typed in Hte; rewrite Hd in Hte; by destruct (ev_type (ce_value e))).
    destruct (drop_all_tables depth st k Hr) as (r1 & st1 & H1 & Hr1 & Hps1).
    pose proof (pushes_keep _ _ _ Hr Hps1) as Hf.
    destruct r1 as [[]|x|]; [| |done].
    + assert ((_ ← drop_all (S depth) (Tables k); _ ← drop_all (S depth) (TableFunctions k);
               drop_all (S depth) (ScalarFunctions k)) st = (Ok tt, st1)) as Hall.
      { assert (¬ Tables k = TableFunctions k ∧ ¬ Tables k = ScalarFunctions k) as [Hn1 Hn2] by done.
        pose proof (drop_all_empty (S depth) st1 _ (pushes_empty _ _ _ _ Hf Hn1 Htf)) as H2.
        pose proof (drop_all_empty (S depth) st1 _ (pushes_empty _ _ _ _ Hf Hn2 Hsf)) as H3.
        run_using H1. run_using H2. done. }
      run_using Hall.
      destruct (push_drop st st1 (eq (Tables k)) Schemas name k e) as (st' & -> & Hdr); try done.
      exists (Ok true), st'. split; [done|]. destruct Hdr as (? & Hps & ? & ?). split_and!; try done.
      eapply pushes_mono; [|exact Hps]. naive_solver.
    + assert ((_ ← drop_all (S depth) (Tables k); _ ← drop_all (S depth) (TableFunctions k);
               drop_all (S depth) (ScalarFunctions k)) st = (Throw x, st1)) as Hall by (run_using H1; done).
      run_using Hall. eexists _, _. split; [done|]. split_and!; try done.
      eapply pushes_mono; [|exact Hps1]. naive_solver.
  - destruct (HasDependents_total (cx_cat st) (cx_tx st) k (ce_value e) (proj1 Hr)) as [b Hb]. rewrite Hb. run.
    destruct b; [eexists _, _; split; [done|by split_and!]|]. run.
    destruct (push_drop st st (fun _ => False) Schemas name k e) as (st' & Hst & Hdr); try done.
    { by intros []. }
    exists (Ok true), st'. split; [exact Hst|]. destruct Hdr as (? & Hps & ? & ?). split_and!; try done.
    eapply pushes_mono; [|exact Hps]. naive_solver.
Qed.

(** [DropEntry] by name: it always returns or throws, and only replaces
    entries. *)
Lemma DropEntry_spec st s name cascade :
  ready st → logged_set s →
  (∀ k, s = Schemas → set_data (cx_cat st) s !! name = Some k → no_functions (cx_cat st) k) →
  ∃ r st', DropEntry s name cascade st = (r, st') ∧ r ≠ Undef ∧ pushes logged_set st st' ∧
    (r = Ok true → ∀ tx, transaction_id tx = transaction_id (cx_tx st) →
      catalog_view (cx_cat st') tx s name = None) ∧
    (r = Ok false → st' = st ∧ ∀ k e, set_data (cx_cat st) s !! name = Some k →
      cat_entries (cx_cat st) !! k = Some e → ev_deleted (ce_value e) = true).
Proof.
  intros Hr Hs Hnf. unfold DropEntry. run. destruct (set_data (cx_cat st) s !! name) as [k|] eqn:Hk.
  2:{ eexists _, _. split; [done|]. by split_and!. }
  assert (∃ P r st', DropEntry_at DROP_DEPTH s k cascade st = (r, st') ∧ (∀ s, P s → logged_set s) ∧
    dropped P st s name r st') as (P & r & st' & -> & HP & Hne & Hps & Ht & Hfalse).
  { destruct (decide (s = Schemas)) as [->|Hleaf].
    - destruct (DropEntry_schema 0 st name k cascade Hr Hk) as (r & st' & ? & ?); [by apply Hnf|].
      eexists _, r, st'. split; [done|]. split; [|done]. by intros ? [->| ->].
    - destruct (DropEntry_leaf 1 st s name k cascade Hr Hs Hleaf Hk) as (r & st' & ? & ?).
      eexists _, r, st'. split; [done|]. split; [|done]. by intros ? <-. }
  eexists _, _. split; [done|]. split_and!; try done.
  - by eapply pushes_mono.
  - intros ->. destruct (Hfalse eq_refl) as (-> & k' & e' & Hk' & He' & Hd). split; [done|].
    intros k2 e2 [= <-] He2. congruence.
Qed.
End schemas.
