(* ===== verification/Catalog.v ===== *)
(** * The catalog: schemas, tables, views, indexes and functions

    Models [src/src/catalog/catalog.cpp],
    [src/src/catalog/catalog_entry/schema_catalog_entry.cpp] and
    [src/src/catalog/catalog_entry/table_catalog_entry.cpp] on top of the
    catalog sets.  A call returns an answer to the binder or changes the
    catalog and the undo buffer of its transaction; creating a table also
    creates its storage, which is freed again when the entry is refused. *)

From Stdlib Require Import ZArith Lia.
From stdpp Require Import base gmap list strings option numbers sorting relations.
From S2P Require Import Prelude Types Vector Tuple Storage Versions DataTable TableScan TableOps TableAppend WriteAheadLog UndoBuffer UndoProofs TransactionManager TransactionProofs Database Isolation CatalogSet CatalogProofs CatalogOps.

(** ** Tables *)

Section tables.
Context {E Q : Type}.
Abbreviation columns_t := (list (string * SQLType)).

(** [name_map.find(name)]: the index of a column. *)
Definition find_column (columns : columns_t) (name : string) : option nat :=
  fst <$> list_find (fun c => c.1 = name) columns.

Definition ColumnExists (columns : columns_t) (name : string) : bool :=
  bool_decide (is_Some (find_column columns name)).

(** [TableCatalogEntry::Initialize]: the columns one by one, no name twice. *)
Fixpoint Initialize_columns (columns : columns_t) (todo : columns_t) : result columns_t :=
  match todo with
  | [] => Ok columns
  | entry :: todo' =>
    if ColumnExists columns entry.1 then Throw CatalogException
    else Initialize_columns (columns ++ [entry]) todo'
  end.

(** [TableCatalogEntry::GetTypes()] and [GetTypes(column_ids)] *)
Definition Table_GetTypes (columns : columns_t) : result (list TypeId) :=
  mapM (fun c => GetInternalType c.2) columns.

Definition Table_GetTypes_of (columns : columns_t) (column_ids : list column_t) : result (list TypeId) :=
  mapM (fun id => match id with
                  | COLUMN_IDENTIFIER_ROW_ID => Ok T_POINTER
                  | Column c => col ← deref (columns !! c); GetInternalType col.2
                  end) column_ids.

(** [TableCatalogEntry::GetColumn] *)
Definition GetColumn (columns : columns_t) (name : string) : result (string * SQLType) :=
  match find_column columns name with
  | None => Throw CatalogException
  | Some i => deref (columns !! i)
  end.

(** The arguments a [UniqueIndex] is created with. *)
Record IndexDefinition : Type := mkIndexDefinition {
  ix_types : list TypeId;
  ix_keys : list nat;
  ix_allow_nulls : bool }.

Definition CONSTRAINT_PRIMARY_KEY : Z := 3.
Definition CONSTRAINT_UNIQUE : Z := 4.

(** The columns named by a key. *)
Fixpoint resolve_names (columns : columns_t) (names : list string) (keys : list nat) : result (list nat) :=
  match names with
  | [] => Ok keys
  | keyname :: names' =>
    match find_column columns keyname with
    | None => Throw ParserException
    | Some i =>
      if bool_decide (i ∈ keys) then Throw ParserException
      else _ ← (col ← deref (columns !! i); GetInternalType col.2); resolve_names columns names' (keys ++ [i])
    end
  end.

(** One round of the loop over the constraints: the index it asks for. *)
Definition resolve_constraint (columns : columns_t) (has_primary_key : bool) (c : parsed_constraint E)
    : result (bool * option IndexDefinition) :=
  match c with
  | ParsedConstraint ctype index names =>
    keys ← (if negb (index =? NO_INDEX)%Z then
              col ← deref (columns !! Z.to_nat index); _ ← GetInternalType col.2; mret [Z.to_nat index]
            else resolve_names columns names []);
    types ← mapM (fun k => col ← deref (columns !! k); GetInternalType col.2) keys;
    if (ctype =? CONSTRAINT_PRIMARY_KEY)%Z then
      if has_primary_key then Throw ParserException
      else mret (true, Some (mkIndexDefinition types keys false))
    else
      _ ← assert_ (ctype =? CONSTRAINT_UNIQUE)%Z;
      mret (has_primary_key, Some (mkIndexDefinition types keys true))
  | _ => Ok (has_primary_key, None)
  end.

Fixpoint resolve_constraints (columns : columns_t) (has_primary_key : bool)
    (cs : list (parsed_constraint E)) : result (list IndexDefinition) :=
  match cs with
  | [] => Ok []
  | c :: cs' =>
    '(has_primary_key, index) ← resolve_constraint columns has_primary_key c;
    rest ← resolve_constraints columns has_primary_key cs';
    mret (option_list index ++ rest)
  end.

(** [TableCatalogEntry(catalog, schema, info)]: the value, the storage at
    address [tp], and the definitions of its indexes. *)
Definition NewTableEntry (R : rows) (tp : nat) (schema : string) (info : CreateTableInformation E)
    : result (EntryValue E Q * rows * list IndexDefinition) :=
  columns ← Initialize_columns [] (ct_columns info);
  types ← Table_GetTypes columns;
  R ← NewDataTable R tp schema (ct_table info) types;
  indexes ← resolve_constraints columns false (ct_constraints info);
  mret (mkValue CT_TABLE (ct_table info) false
          (DTable (mkCreateTable schema (ct_table info) columns (ct_constraints info)) tp), R, indexes).

(** The columns with one renamed; the name must occur. *)
Definition rename_columns (columns : columns_t) (name new_name : string) : columns_t :=
  (fun c => if bool_decide (c.1 = name) then (new_name, c.2) else c) <$> columns.

(** [TableCatalogEntry::AlterEntry] for a renamed column, with the constructor
    that takes over the storage; [CatalogEntry::AlterEntry] for the others. *)
Definition is_parsed (c : parsed_constraint E) : bool :=
  match c with ParsedConstraint _ _ _ => true | _ => false end.

Definition RenameColumn (name new_name : string) (v : EntryValue E Q) : result (EntryValue E Q) :=
  match ev_type v, ev_data v with
  | CT_TABLE, DTable info storage =>
    if negb (existsb (fun c => bool_decide (c.1 = name)) (ct_columns info)) then Throw CatalogException else
    columns ← Initialize_columns [] (rename_columns (ct_columns info) name new_name);
    _ ← assert_ (negb (existsb is_parsed (ct_constraints info)));
    mret (mkValue CT_TABLE (ev_name v) false
            (DTable (mkCreateTable (ct_schema info) (ct_table info) columns (ct_constraints info)) storage))
  | CT_TABLE, _ => Undef
  | _, _ => Throw CatalogException
  end.
End tables.

(** ** Schemas and the catalog *)

Section catalog.
Context {E Q : Type}.
Abbreviation cat := (cat_state E Q).

(** A lookup in the current state. *)
Definition find_entry (s : set_id) (name : string) : M cat (option nat) :=
  st ← get_M; lift_M (GetEntry (cx_cat st) (cx_tx st) s name).

Definition entry_type (k : nat) : M cat CatalogType :=
  st ← get_M; e ← lift_M (deref (cat_entries (cx_cat st) !! k)); mret (ev_type (ce_value e)).

(** [Catalog::CreateSchema], [Catalog::DropSchema], [Catalog::GetSchema] *)
Definition CreateSchema (schema : string) (if_not_exists : bool) : M cat unit :=
  created ← CreateEntry_set Schemas schema (mkValue CT_SCHEMA schema false DNone);
  if (created : bool) then mret tt else if if_not_exists then mret tt else throw_M CatalogException.

Definition DropSchema (schema : string) (if_exists cascade : bool) : M cat unit :=
  dropped ← DropEntry Schemas schema cascade;
  if (dropped : bool) then mret tt else if if_exists then mret tt else throw_M CatalogException.

Definition GetSchema (schema : string) : M cat nat :=
  entry ← find_entry Schemas schema;
  match entry with None => throw_M CatalogException | Some k => mret k end.

(** [SchemaCatalogEntry::GetTableOrView] and [GetTable], through [Catalog] *)
Definition GetTableOrView (schema table : string) : M cat nat :=
  k ← GetSchema schema;
  entry ← find_entry (Tables k) table;
  match entry with None => throw_M CatalogException | Some t => mret t end.

Definition GetTable (schema table : string) : M cat nat :=
  t ← GetTableOrView schema table;
  type ← entry_type t;
  if bool_decide (type = CT_TABLE) then mret t else throw_M CatalogException.

(** [SchemaCatalogEntry::CreateTable], for a value that its constructor
    returned. *)
Definition CreateTable_in (k : nat) (table : string) (v : EntryValue E Q) (if_not_exists : bool) : M cat bool :=
  created ← CreateEntry_set (Tables k) table v;
  if (created : bool) then mret true else if if_not_exists then mret false else throw_M CatalogException.

(** [SchemaCatalogEntry::CreateView] and [DropView] *)
Definition CreateView (info : CreateViewInformation Q) (replace : bool) : M cat unit :=
  k ← GetSchema (cv_schema info);
  let v := mkValue CT_VIEW (cv_view_name info) false (DView info) in
  old_view ← find_entry (Tables k) (cv_view_name info);
  _ ← match old_view with
      | Some o =>
        if replace then
          type ← entry_type o;
          if bool_decide (type = CT_VIEW)
          then _ ← DropEntry (Tables k) (cv_view_name info) false; mret tt
          else throw_M CatalogException
        else mret tt
      | None => mret tt
      end;
  created ← CreateEntry_set (Tables k) (cv_view_name info) v;
  if (created : bool) then mret tt else throw_M CatalogException.

Definition DropView (schema view_name : string) (if_exists : bool) : M cat unit :=
  k ← GetSchema schema;
  existing_view ← find_entry (Tables k) view_name;
  _ ← match existing_view with
      | Some o => type ← entry_type o;
                  if bool_decide (type = CT_VIEW) then mret tt else throw_M CatalogException
      | None => mret tt
      end;
  dropped ← DropEntry (Tables k) view_name false;
  if (dropped : bool) then mret tt else if if_exists then mret tt else throw_M CatalogException.

(** [SchemaCatalogEntry::DropTable]: the type is only looked at with
    [IF EXISTS]. *)
Definition DropTable (schema table : string) (if_exists cascade : bool) : M cat unit :=
  k ← GetSchema schema;
  old_table ← find_entry (Tables k) table;
  _ ← match old_table with
      | Some o => if if_exists then
                    type ← entry_type o;
                    if bool_decide (type = CT_TABLE) then mret tt else throw_M CatalogException
                  else mret tt
      | None => mret tt
      end;
  dropped ← DropEntry (Tables k) table cascade;
  if (dropped : bool) then mret tt else if if_exists then mret tt else throw_M CatalogException.

(** [SchemaCatalogEntry::AlterTable] *)
Definition AlterTable (schema table name new_name : string) : M cat unit :=
  k ← GetSchema schema;
  altered ← AlterEntry (RenameColumn name new_name) (Tables k) table;
  if (altered : bool) then mret tt else throw_M CatalogException.

(** [SchemaCatalogEntry::CreateIndex] and [DropIndex] *)
Definition CreateIndex (k : nat) (index_name : string) (if_not_exists : bool) : M cat bool :=
  created ← CreateEntry_set (Indexes k) index_name (mkValue CT_INDEX index_name false DNone);
  if (created : bool) then mret true else if if_not_exists then mret false else throw_M CatalogException.

Definition DropIndex (schema name : string) (if_exists : bool) : M cat unit :=
  k ← GetSchema schema;
  dropped ← DropEntry (Indexes k) name false;
  if (dropped : bool) then mret tt else if if_exists then mret tt else throw_M CatalogException.

(** [CreateTableFunction] and [CreateScalarFunction]: [OR REPLACE] drops and
    creates again. *)
Definition CreateFunction (s : set_id) (name : string) (v : EntryValue E Q) (or_replace : bool) : M cat unit :=
  created ← CreateEntry_set s name v;
  if (created : bool) then mret tt else
  if negb or_replace then throw_M CatalogException else
  dropped ← DropEntry s name false;
  if negb dropped then throw_M CatalogException else
  created ← CreateEntry_set s name v;
  if (created : bool) then mret tt else throw_M CatalogException.

Definition CreateTableFunction (schema name : string) (arguments : nat) (or_replace : bool) : M cat unit :=
  k ← GetSchema schema;
  CreateFunction (TableFunctions k) name (mkValue CT_TABLE_FUNCTION name false (DFunction arguments)) or_replace.

Definition CreateScalarFunction (schema name : string) (arguments : nat) (or_replace : bool) : M cat unit :=
  k ← GetSchema schema;
  CreateFunction (ScalarFunctions k) name (mkValue CT_SCALAR_FUNCTION name false (DFunction arguments)) or_replace.

(** [SchemaCatalogEntry::DropTableFunction] *)
Definition DropTableFunction (k : nat) (name : string) (if_exists cascade : bool) : M cat unit :=
  dropped ← DropEntry (TableFunctions k) name cascade;
  if (dropped : bool) then mret tt else if if_exists then mret tt else throw_M CatalogException.

(** [GetTableFunction] compares the number of arguments, [GetScalarFunction]
    does not. *)
Definition GetTableFunction (schema name : string) (children : nat) : M cat nat :=
  k ← GetSchema schema;
  entry ← find_entry (TableFunctions k) name;
  match entry with
  | None => throw_M CatalogException
  | Some f =>
    st ← get_M;
    e ← lift_M (deref (cat_entries (cx_cat st) !! f));
    match ev_data (ce_value e) with
    | DFunction arguments => if children =? arguments then mret f else throw_M CatalogException
    | _ => lift_M Undef
    end
  end.

Definition GetScalarFunction (schema name : string) : M cat nat :=
  k ← GetSchema schema;
  entry ← find_entry (ScalarFunctions k) name;
  match entry with None => throw_M CatalogException | Some f => mret f end.
End catalog.

(** ** Creating a table: catalog and storage *)

Section ddl.
Context {E Q : Type}.

Record ddl_state : Type := mkDdlState { dd_cat : cat_state E Q; dd_rows : rows }.

Definition on_catalog {A} (f : M (cat_state E Q) A) : M ddl_state A := fun s =>
  let '(r, c) := f (dd_cat s) in (r, mkDdlState c (dd_rows s)).

(** [Catalog::CreateTable]; [tp] is the address of the new storage. *)
Definition CreateTable (tp : nat) (info : CreateTableInformation E) (if_not_exists : bool)
    : M ddl_state (list IndexDefinition) :=
  k ← on_catalog (GetSchema (ct_schema info));
  s ← get_M;
  '(v, R, indexes) ← lift_M (NewTableEntry (Q:=Q) (dd_rows s) tp (ct_schema info) info);
  created ← on_catalog (CreateTable_in k (ct_table info) v if_not_exists);
  if (created : bool) then
    _ ← modify_M (fun s => mkDdlState (dd_cat s) R);
    mret indexes
  else mret [].
End ddl.
Arguments ddl_state E Q : clear implicits.

(** ** Calls that only replace entries *)

Section behaviour.
Context {E Q : Type}.
Implicit Types (st : cat_state E Q) (v : EntryValue E Q).

Definition behaved {A} (f : M (cat_state E Q) A) st : Prop :=
  ∃ r st', f st = (r, st') ∧ r ≠ Undef ∧ pushes logged_set st st'.

Lemma behaved_ret {A} (a : A) st : behaved (mret a) st.
Proof. by exists (Ok a), st. Qed.
Lemma behaved_throw {A} x st : behaved (throw_M x : M _ A) st.
Proof. by exists (Throw x), st. Qed.

Lemma behaved_bind {A B} (f : M (cat_state E Q) A) (g : A → M (cat_state E Q) B) st :
  ready st → behaved f st → (∀ a st', f st = (Ok a, st') → pushes logged_set st st' → ready st' → behaved (g a) st') →
  behaved (f ≫= g) st.
Proof.
  intros Hr (r & st1 & Hf & Hne & Hps) Hg. destruct r as [a|x|]; [| |done].
  - destruct (Hg a st1 Hf Hps) as (r2 & st2 & Hg2 & Hne2 & Hps2).
    { apply (pushes_keep logged_set st st1 Hr Hps). }
    exists r2, st2. run_using Hf. split_and!; try done. by etrans.
  - exists (Throw x), st1. run_using Hf. done.
Qed.

Lemma behaved_find s name st : ready st → behaved (find_entry s name) st.
Proof.
  intros [Hwf _]. eexists _, st. unfold find_entry. run. rewrite (GetEntry_view _ _ _ _ Hwf). done.
Qed.

Lemma behaved_type k st : is_Some (cat_entries (cx_cat st) !! k) → behaved (entry_type k) st.
Proof. intros [e He]. eexists _, st. unfold entry_type. run. rewrite He. done. Qed.

Lemma found_some s name k st st' :
  ready st → find_entry s name st = (Ok (Some k), st') →
  st' = st ∧ ∃ e, cat_entries (cx_cat st) !! k = Some e ∧ ce_set e = s ∧ ev_name (ce_value e) = name ∧
    ev_deleted (ce_value e) = false ∧ value_typed s (ce_value e).
Proof.
  intros [[G Hwf] _] Hf. unfold find_entry in Hf. run_in Hf. injection Hf as Hg <-. split; [done|].
  by apply (GetEntry_typed _ G Hwf (cx_tx st)).
Qed.

Lemma behaved_create s name v st :
  ready st → logged_set s → value_typed s v → ev_deleted v = false → ev_name v = name →
  behaved (CreateEntry_set s name v) st.
Proof.
  intros Hr Hs Ht Hd Hn. destruct (CreateEntry_spec st s name v Hr Hs Ht Hd Hn) as (r & st' & Hc & Hout).
  exists r, st'. split; [done|]. destruct Hout as [st' hd new Hp|? ? ? ? ?|? ? ? ? ? ?]; split; try done.
  by eapply push_one.
Qed.

Lemma behaved_drop s name cascade st :
  ready st → logged_set s →
  (∀ k, s = Schemas → set_data (cx_cat st) s !! name = Some k → no_functions (cx_cat st) k) →
  behaved (DropEntry s name cascade) st.
Proof.
  intros Hr Hs Hnf. destruct (DropEntry_spec st s name cascade Hr Hs Hnf) as (r & st' & ? & ? & ? & _). by exists r, st'.
Qed.

Lemma find_entry_spec s name st :
  ready st → find_entry s name st = (Ok (view_address (cx_cat st) (cx_tx st) s name), st).
Proof. intros [Hwf _]. unfold find_entry. run. by rewrite (GetEntry_view _ _ _ _ Hwf). Qed.

Lemma GetSchema_spec schema st :
  ready st → GetSchema schema st =
    (match view_address (cx_cat st) (cx_tx st) Schemas schema with
     | Some k => Ok k | None => Throw CatalogException end, st).
Proof.
  intros Hr. unfold GetSchema. run_using (find_entry_spec Schemas schema st Hr). by destruct (view_address _ _ _ _).
Qed.

Lemma behaved_schema schema st : ready st → behaved (GetSchema schema) st.
Proof.
  intros Hr. apply behaved_bind; [done|by apply behaved_find|]. intros [k|] st' _ _ _; [apply behaved_ret|apply behaved_throw].
Qed.

(** The schemas, tables and views that users create, replace, rename and
    drop. *)
Lemma CreateSchema_behaved schema ine st : ready st → behaved (CreateSchema schema ine) st.
Proof.
  intros Hr. apply behaved_bind; [done|by apply behaved_create|].
  intros [] st' _ _ _; [apply behaved_ret|]. destruct ine; [apply behaved_ret|apply behaved_throw].
Qed.

Lemma DropSchema_behaved schema ie cascade st :
  ready st → (∀ k, set_data (cx_cat st) Schemas !! schema = Some k → no_functions (cx_cat st) k) →
  behaved (DropSchema schema ie cascade) st.
Proof.
  intros Hr Hnf. apply behaved_bind; [done|apply behaved_drop; [done|done|intros k _; apply Hnf]|].
  intros [] st' _ _ _; [apply behaved_ret|]. destruct ie; [apply behaved_ret|apply behaved_throw].
Qed.

Lemma CreateTable_behaved k table info tp ine st :
  ready st → behaved (CreateTable_in k table (mkValue CT_TABLE table false (DTable info tp)) ine) st.
Proof.
  intros Hr. apply behaved_bind; [done|by apply behaved_create|].
  intros [] st' _ _ _; [apply behaved_ret|]. destruct ine; [apply behaved_ret|apply behaved_throw].
Qed.

(** The type test of the operations on tables and views. *)
Lemma behaved_check s name o t st st' :
  ready st → find_entry s name st = (Ok (Some o), st') →
  behaved (type ← entry_type o; if bool_decide (type = t) then mret tt else throw_M CatalogException) st'.
Proof.
  intros Hr Hf. destruct (found_some _ _ _ _ _ Hr Hf) as (-> & e & He & _).
  apply behaved_bind; [done|by apply behaved_type|]. intros ty st' _ _ _.
  case_bool_decide; [apply behaved_ret|apply behaved_throw].
Qed.

Lemma CreateView_behaved info replace st : ready st → behaved (CreateView info replace) st.
Proof.
  intros Hr. apply behaved_bind; [done|by apply behaved_schema|]. intros k st1 _ _ Hr1.
  apply behaved_bind; [done|by apply behaved_find|]. intros old st2 Hold _ Hr2.
  apply behaved_bind; [done| |].
  - destruct old as [o|]; [|apply behaved_ret]. destruct replace; [|apply behaved_ret].
    destruct (found_some _ _ _ _ _ Hr1 Hold) as (-> & e & He & _).
    apply behaved_bind; [done|by apply behaved_type|]. intros ty st3 _ _ Hr3.
    case_bool_decide; [|apply behaved_throw].
    apply behaved_bind; [done|by apply behaved_drop|]. intros b st4 _ _ _. apply behaved_ret.
  - intros _ st3 _ _ Hr3. apply behaved_bind; [done|by apply behaved_create|].
    intros [] st4 _ _ _; [apply behaved_ret|apply behaved_throw].
Qed.

Lemma DropView_behaved schema view ie st : ready st → behaved (DropView schema view ie) st.
Proof.
  intros Hr. apply behaved_bind; [done|by apply behaved_schema|]. intros k st1 _ _ Hr1.
  apply behaved_bind; [done|by apply behaved_find|]. intros old st2 Hold _ Hr2.
  apply behaved_bind; [done| |].
  - destruct old as [o|]; [exact (behaved_check _ _ o _ _ _ Hr1 Hold)|apply behaved_ret].
  - intros _ st3 _ _ Hr3. apply behaved_bind; [done|by apply behaved_drop|].
    intros [] st4 _ _ _; [apply behaved_ret|]. destruct ie; [apply behaved_ret|apply behaved_throw].
Qed.

Lemma DropTable_behaved schema table ie cascade st : ready st → behaved (DropTable schema table ie cascade) st.
Proof.
  intros Hr. apply behaved_bind; [done|by apply behaved_schema|]. intros k st1 _ _ Hr1.
  apply behaved_bind; [done|by apply behaved_find|]. intros old st2 Hold _ Hr2.
  apply behaved_bind; [done| |].
  - destruct old as [o|]; [|apply behaved_ret]. destruct ie; [exact (behaved_check _ _ o _ _ _ Hr1 Hold)|apply behaved_ret].
  - intros _ st3 _ _ Hr3. apply behaved_bind; [done|by apply behaved_drop|].
    intros [] st4 _ _ _; [apply behaved_ret|]. destruct ie; [apply behaved_ret|apply behaved_throw].
Qed.

(** Renaming a column fails an assertion on a table with a primary key or a
    unique constraint. *)
Definition renamable v : Prop :=
  match ev_data v with DTable info _ => existsb is_parsed (ct_constraints info) = false | _ => True end.

Lemma Initialize_columns_defined todo : ∀ columns, Initialize_columns columns todo ≠ Undef.
Proof. induction todo as [|c todo IH]; intros columns; cbn [Initialize_columns]; [done|]. case_match; [done|apply IH]. Qed.

Lemma RenameColumn_defined n n' s v : value_typed s v → renamable v → RenameColumn n n' v ≠ Undef.
Proof.
  unfold value_typed, renamable, RenameColumn. intros Ht Hr.
  destruct (ev_type v) eqn:Ety; try done. destruct (ev_deleted v); [naive_solver|].
  destruct s, (ev_data v) as [|info storage| | |]; try done.
  case_match; [done|]. rewrite Hr. pose proof (Initialize_columns_defined (rename_columns (ct_columns info) n n') []).
  by destruct (Initialize_columns _ _).
Qed.

Lemma RenameColumn_value n n' s v v' :
  value_typed s v → RenameColumn n n' v = Ok v' →
  value_typed s v' ∧ ev_name v' = ev_name v ∧ ev_deleted v' = false ∧ loggable v v'.
Proof.
  unfold RenameColumn, loggable, WriteCatalogEntry. intros Ht. destruct (ev_type v) eqn:Ety; try done.
  destruct (ev_data v) as [|info storage| | |] eqn:Ed; try done. case_match; [done|].
  destruct (Initialize_columns _ _) as [columns| |]; try done. run. destruct (existsb is_parsed _); [done|]. run.
  intros [= <-]. split_and!; try done; [|simpl; eauto]. unfold value_typed in *. simpl.
  destruct (ev_deleted v); [rewrite Ety in Ht; naive_solver|]. rewrite Ety, Ed in Ht. by destruct s.
Qed.

Lemma AlterTable_behaved schema table n n' st :
  ready st →
  (∀ k t e, set_data (cx_cat st) (Tables k) !! table = Some t → cat_entries (cx_cat st) !! t = Some e →
    renamable (ce_value e)) →
  behaved (AlterTable schema table n n') st.
Proof.
  intros Hr Hren. apply behaved_bind; [done|by apply behaved_schema|]. intros k st1 Hk _ _.
  rewrite (GetSchema_spec schema st Hr) in Hk. apply pair_eq in Hk as [_ <-].
  destruct (AlterEntry_spec (RenameColumn n n') st (Tables k) table) as (r & st' & Ha & Hne & Hout); try done.
  { intros v v'. apply RenameColumn_value. }
  { intros t e Ht He. destruct (head_entry _ _ _ _ (proj1 Hr) Ht) as (e' & He' & _ & _ & Hte).
    assert (e' = e) as -> by congruence. eapply RenameColumn_defined; [done|]. by eapply Hren. }
  assert (pushes logged_set st st') as Hps.
  { destruct Hout as [[-> _]|(_ & k' & e & new & v' & _ & _ & _ & Hpd)]; [apply rtc_refl|by eapply push_one; [|exact Hpd]]. }
  apply behaved_bind; [done|by exists r, st'|]. intros [] st2 _ _ _; [apply behaved_ret|apply behaved_throw].
Qed.
End behaviour.

(** ** Catalog calls as steps of the database *)

Section database.
Context {E Q : Type} {IX : Type} `{!TableIndexes IX}.
Abbreviation database := (Database (catalog E Q) E Q).
Implicit Types db : database.

(** Running a call for the transaction at position [i]. *)
Definition with_catalog db (i : nat) (st : cat_state E Q) : database :=
  mkDatabase (db_rows db) (cx_cat st) (db_log db)
    (set_active (<[i := cx_tx st]> (active_transactions (db_tm db))) (db_tm db)).

Definition run_catalog {A} db (i : nat) (t : Transaction) (f : M (cat_state E Q) A) : result A * database :=
  let '(r, st) := f (mkCatState t (db_catalog db)) in (r, with_catalog db i st).

Lemma with_catalog_id db i t :
  active_transactions (db_tm db) !! i = Some t → with_catalog db i (mkCatState t (db_catalog db)) = db.
Proof.
  intros Ht. unfold with_catalog, set_active. simpl. rewrite list_insert_id by done. by destruct db as [? ? ? []].
Qed.

Lemma pushes_steps safe P st st' :
  pushes P st st' → ∀ db i, active_transactions (db_tm db) !! i = Some (cx_tx st) → db_catalog db = cx_cat st →
  rtc (step (IX:=IX) safe (transaction_id (cx_tx st))) db (with_catalog db i st').
Proof.
  induction 1 as [st|st1 st2 st3 (s & name & hd & new & v & _ & Hp) _ IH]; intros db i Hi Hc.
  { destruct st as [tx cs]. cbn [cx_tx cx_cat] in *. subst cs. by rewrite with_catalog_id. }
  pose proof (lookup_lt_Some _ _ _ Hi) as Hlt.
  pose proof (pd_tx _ _ _ _ _ _ _ Hp) as Htx.
  eapply rtc_l.
  - apply (step_catalog safe db i (cx_tx st1) (cx_cat st2) hd); [done|]. rewrite Hc. apply Hp.
  - specialize (IH (with_catalog db i st2) i). unfold with_catalog in IH. simpl in IH.
    rewrite list_lookup_insert_eq, list_insert_insert_eq in IH by done.
    rewrite Htx in IH at 4. rewrite (pushed_id _ _ _ _ _ _ _ Hp) in IH.
    rewrite <- Htx. unfold with_catalog. rewrite Htx in IH. rewrite Htx. by apply IH.
Qed.

Lemma reachable_steps safe id db db' :
  reachable (IX:=IX) db → rtc (step (IX:=IX) safe id) db db' → reachable (IX:=IX) db'.
Proof.
  intros (cs & log & Hcs & Hsteps) Hrtc. exists cs, log. split; [done|]. etrans; [exact Hsteps|].
  clear -Hrtc. induction Hrtc; [apply rtc_refl|]. eapply rtc_l; [|done]. by exists safe, id.
Qed.

Lemma active_ready db i t :
  reachable (IX:=IX) db → active_transactions (db_tm db) !! i = Some t → ready (mkCatState t (db_catalog db)).
Proof.
  intros [H Hinv]%reachable_db_inv Ht. split; cbn [cx_tx cx_cat].
  - apply (co_cat _ _ _ _ _ _ _ (inv_core _ _ Hinv)).
  - apply (co_active _ _ _ _ _ _ _ (inv_core _ _ Hinv)). by apply list_elem_of_lookup_2 in Ht.
Qed.

Lemma behaved_reachable {A} db i t (f : M (cat_state E Q) A) :
  reachable (IX:=IX) db → active_transactions (db_tm db) !! i = Some t →
  behaved f (mkCatState t (db_catalog db)) →
  ∃ r db', run_catalog db i t f = (r, db') ∧ r ≠ Undef ∧
    rtc (step (IX:=IX) true (transaction_id t)) db db' ∧ reachable (IX:=IX) db'.
Proof.
  intros Hre Ht (r & st' & Hf & Hne & Hps). exists r, (with_catalog db i st').
  unfold run_catalog. rewrite Hf. split; [done|]. split; [done|].
  pose proof (pushes_steps true _ _ _ Hps db i Ht eq_refl) as Hrtc. split; [exact Hrtc|].
  by eapply reachable_steps.
Qed.

(** The statements on schemas, tables and views, with what they must not
    meet: functions in a dropped schema, which the log cannot express, and
    keys in a table whose column is renamed. *)
Inductive catalog_statement (cs : catalog E Q) : M (cat_state E Q) unit → Prop :=
| stmt_create_schema schema ine : catalog_statement cs (CreateSchema schema ine)
| stmt_drop_schema schema ie cascade :
    (∀ k, set_data cs Schemas !! schema = Some k → no_functions cs k) →
    catalog_statement cs (DropSchema schema ie cascade)
| stmt_create_view info replace : catalog_statement cs (CreateView info replace)
| stmt_drop_view schema view ie : catalog_statement cs (DropView schema view ie)
| stmt_drop_table schema table ie cascade : catalog_statement cs (DropTable schema table ie cascade)
| stmt_alter_table schema table n n' :
    (∀ k t e, set_data cs (Tables k) !! table = Some t → cat_entries cs !! t = Some e → renamable (ce_value e)) →
    catalog_statement cs (AlterTable schema table n n').

Lemma statement_behaved st f : ready st → catalog_statement (cx_cat st) f → behaved f st.
Proof.
  intros Hr Hs. destruct Hs.
  - by apply CreateSchema_behaved.
  - by apply DropSchema_behaved.
  - by apply CreateView_behaved.
  - by apply DropView_behaved.
  - by apply DropTable_behaved.
  - by apply AlterTable_behaved.
Qed.

(** *** Creating tables *)

Definition with_ddl db (i : nat) (s : ddl_state E Q) : database :=
  mkDatabase (dd_rows s) (cx_cat (dd_cat s)) (db_log db)
    (set_active (<[i := cx_tx (dd_cat s)]> (active_transactions (db_tm db))) (db_tm db)).

Definition run_ddl {A} db (i : nat) (t : Transaction) (f : M (ddl_state E Q) A) : result A * database :=
  let '(r, s) := f (mkDdlState (mkCatState t (db_catalog db)) (db_rows db)) in (r, with_ddl db i s).

(** Keys that the parser produces. *)
Definition keys_ok (columns : list (string * SQLType)) (cs : list (parsed_constraint E)) : Prop :=
  Forall (fun c => match c with
    | ParsedConstraint ctype index names =>
      (ctype = CONSTRAINT_PRIMARY_KEY ∨ ctype = CONSTRAINT_UNIQUE) ∧
      (index = NO_INDEX ∨ Z.to_nat index < length columns)
    | _ => True
    end) cs.

Lemma find_column_Some columns name i :
  find_column columns name = Some i → ∃ t, columns !! i = Some (name, t).
Proof.
  unfold find_column. destruct (list_find _ columns) as [[j [n t]]|] eqn:Hf; [|done]. intros [= <-].
  apply list_find_Some in Hf as (Hj & Hn & _). simpl in Hn. subst n. eauto.
Qed.

Lemma find_column_None columns name : find_column columns name = None ↔ name ∉ columns.*1.
Proof.
  unfold find_column. rewrite fmap_None, list_find_None, Forall_forall. split.
  - intros Hf ([n t] & -> & Hin)%list_elem_of_fmap. by apply (Hf _ Hin).
  - intros Hn [n t] Hin Heq. simpl in Heq. subst n. apply Hn. by apply (list_elem_of_fmap_2 fst) in Hin.
Qed.

Lemma internal_type_defined (t : SQLType) : GetInternalType t ≠ Undef.
Proof. unfold GetInternalType. by destruct (sql_id t). Qed.

Lemma key_type_defined (columns : list (string * SQLType)) i :
  i < length columns → (col ← deref (columns !! i); GetInternalType col.2) ≠ Undef.
Proof. intros [c Hc]%lookup_lt_is_Some. rewrite Hc. cbn. apply internal_type_defined. Qed.

Lemma resolve_names_defined columns names keys :
  resolve_names columns names keys ≠ Undef ∧
  ∀ ks, Forall (fun k => k < length columns) keys → resolve_names columns names keys = Ok ks →
    Forall (fun k => k < length columns) ks.
Proof.
  revert keys. induction names as [|n names IH]; intros keys; cbn [resolve_names]; [by split; [|intros ks Hk [= <-]]|].
  destruct (find_column columns n) as [i|] eqn:Hi; [|done]. case_bool_decide; [done|].
  apply find_column_Some in Hi as [t Hi]. rewrite Hi. cbn. pose proof (internal_type_defined t) as Hd.
  destruct (GetInternalType t); [|done|done]. cbn. destruct (IH (keys ++ [i])) as [Hne Hall]. split; [done|].
  intros ks Hks. apply Hall, Forall_app. split; [done|]. constructor; [|done]. by apply lookup_lt_Some in Hi.
Qed.

Lemma mapM_defined {A B} (f : A → result B) l : Forall (fun x => f x ≠ Undef) l → mapM f l ≠ Undef.
Proof.
  induction 1 as [|x l Hx _ IH]; [done|]. cbn [mapM]. destruct (f x); try done. run. by destruct (mapM f l).
Qed.

Lemma resolve_constraint_defined columns pk c : keys_ok columns [c] → resolve_constraint columns pk c ≠ Undef.
Proof.
  intros Hk. unfold keys_ok in Hk. rewrite Forall_singleton in Hk. destruct c as [index|expression|ctype index names]; [done|done|].
  destruct Hk as [Hty Hix]. cbn [resolve_constraint].
  assert (∀ keys, Forall (fun k => k < length columns) keys →
    (types ← mapM (fun k => col ← deref (columns !! k); GetInternalType col.2) keys;
     if (ctype =? CONSTRAINT_PRIMARY_KEY)%Z then
       if pk then Throw ParserException else mret (true, Some (mkIndexDefinition types keys false))
     else _ ← assert_ (ctype =? CONSTRAINT_UNIQUE)%Z; mret (pk, Some (mkIndexDefinition types keys true))) ≠ Undef) as Hrest.
  { intros keys Hkeys. assert (mapM (fun k => col ← deref (columns !! k); GetInternalType col.2) keys ≠ Undef) as Hm.
    { apply mapM_defined. eapply Forall_impl; [exact Hkeys|]. apply key_type_defined. }
    destruct (mapM _ keys); [|done|done]. run. destruct (Z.eqb_spec ctype CONSTRAINT_PRIMARY_KEY); [by destruct pk|].
    destruct Hty as [?| ->]; [done|]. by rewrite Z.eqb_refl. }
  destruct (Z.eqb_spec index NO_INDEX) as [->|Hne]; cbn [negb].
  - destruct (resolve_names_defined columns names []) as [Hd Hall].
    destruct (resolve_names columns names []) as [ks| |]; [|done|done]. run. by apply Hrest, Hall.
  - destruct Hix as [?|Hlt]; [done|]. apply lookup_lt_is_Some in Hlt as Hs. destruct Hs as [col Hcol].
    rewrite Hcol. run. pose proof (internal_type_defined col.2). destruct (GetInternalType col.2); [|done|done].
    run. apply Hrest. by constructor.
Qed.

Lemma resolve_constraints_defined columns pk cs :
  keys_ok columns cs → resolve_constraints columns pk cs ≠ Undef.
Proof.
  intros Hk. revert pk. induction Hk as [|c cs Hc _ IH]; intros pk; cbn [resolve_constraints]; [done|].
  pose proof (resolve_constraint_defined columns pk c ltac:(by constructor)) as Hd.
  destruct (resolve_constraint columns pk c) as [[pk' ix]| |]; [|done|done]. run. specialize (IH pk').
  by destruct (resolve_constraints columns pk' cs).
Qed.

(** The columns of a table are those of the statement, all named
    differently. *)
Lemma Initialize_columns_spec todo columns cols :
  Initialize_columns columns todo = Ok cols → cols = columns ++ todo ∧ (NoDup columns.*1 → NoDup cols.*1).
Proof.
  revert columns. induction todo as [|c todo IH]; intros columns; cbn [Initialize_columns].
  { intros [= <-]. by rewrite app_nil_r. }
  unfold ColumnExists. case_bool_decide as Hf; [done|]. intros Hi. destruct (IH _ Hi) as [-> Hnd].
  rewrite <- app_assoc in *. split; [done|]. intros Hcols. apply Hnd. rewrite fmap_app. apply NoDup_app.
  split_and!; [done| |by apply NoDup_singleton]. intros n Hn ->%list_elem_of_singleton.
  apply Hf. destruct (find_column columns c.1) eqn:He; [eauto|]. by apply find_column_None in He.
Qed.

Lemma new_table_defined R tp schema table types :
  Forall (fun t => t ≠ T_VARBINARY) types → NewDataTable R tp schema table types ≠ Undef.
Proof.
  intros Hty. unfold NewDataTable, TupleSerializer_Initialize. simpl. rewrite length_seq, Nat.eqb_refl.
  assert (mapM GetTypeIdSize types ≠ Undef) as Hm by (apply mapM_defined, Forall_forall; by intros []).
  destruct (mapM GetTypeIdSize types); [|done|done]. run.
  assert (forallb (fun t => TypeIsConstantSize t || bool_decide (t = T_VARCHAR)) types = true) as ->; [|done].
  apply forallb_forall. intros t Ht%list_elem_of_In. rewrite Forall_forall in Hty. specialize (Hty t Ht). by destruct t.
Qed.
End database.

Section create_table.
Context {E Q : Type} {IX : Type} `{!TableIndexes IX}.
Abbreviation database := (Database (catalog E Q) E Q).
Implicit Types (db : database) (s : ddl_state E Q).

(** A statement whose column types have a storage representation. *)
Definition storable (info : CreateTableInformation E) : Prop :=
  Forall (fun c => sql_id c.2 ≠ SQL_VARBINARY) (ct_columns info) ∧
  keys_ok (ct_columns info) (ct_constraints info).

(** The entry of a created table. *)
Definition table_value (info : CreateTableInformation E) (tp : nat) : EntryValue E Q :=
  mkValue CT_TABLE (ct_table info) false
    (DTable (mkCreateTable (ct_schema info) (ct_table info) (ct_columns info) (ct_constraints info)) tp).

Lemma storable_types columns types :
  Forall (fun c : string * SQLType => sql_id c.2 ≠ SQL_VARBINARY) columns → Table_GetTypes columns = Ok types →
  Forall (fun t => t ≠ T_VARBINARY) types.
Proof.
  intros Hc Ht. apply mapM_Ok in Ht. induction Ht as [|c t columns types Hct _ IH]; [constructor|].
  inversion_clear Hc as [|?? Hc1 Hc2]. constructor; [|auto]. unfold GetInternalType in Hct.
  by destruct (sql_id c.2); simplify_eq.
Qed.

(** The value that the constructor makes, with the storage it allocates. *)
Lemma NewTableEntry_spec R tp info :
  storable info →
  ∃ r, NewTableEntry (Q:=Q) R tp (ct_schema info) info = r ∧ r ≠ Undef ∧
    ∀ v R' ixs, r = Ok (v, R', ixs) → v = table_value info tp ∧
      ∃ types, Table_GetTypes (ct_columns info) = Ok types ∧
        NewDataTable R tp (ct_schema info) (ct_table info) types = Ok R'.
Proof.
  intros [Hc Hk]. eexists. split; [done|]. unfold NewTableEntry.
  pose proof (Initialize_columns_defined (ct_columns info) []) as Hd1.
  destruct (Initialize_columns [] (ct_columns info)) as [cols| |] eqn:Hi; [|done|done]. run.
  apply Initialize_columns_spec in Hi as [-> _]. cbn [app].
  assert (Table_GetTypes (ct_columns info) ≠ Undef) as Hd2.
  { apply mapM_defined, Forall_forall. intros c _. apply internal_type_defined. }
  destruct (Table_GetTypes (ct_columns info)) as [types| |] eqn:Hty; [|done|done]. run.
  pose proof (new_table_defined R tp (ct_schema info) (ct_table info) types (storable_types _ _ Hc Hty)) as Hd3.
  destruct (NewDataTable R tp (ct_schema info) (ct_table info) types) as [R1| |] eqn:Hn; [|done|done]. run.
  pose proof (resolve_constraints_defined (ct_columns info) false _ Hk) as Hd4.
  destruct (resolve_constraints (ct_columns info) false (ct_constraints info)); [|done|done]. run.
  split; [done|]. intros v R' ixs [= <- <- <-]. split; [done|]. eauto.
Qed.

(** The outcomes of [CREATE TABLE]: nothing happened, or storage and entry
    were created. *)
Lemma CreateTable_spec tp info ine s :
  ready (dd_cat s) → storable info →
  ∃ r s', CreateTable tp info ine s = (r, s') ∧ r ≠ Undef ∧
    ((s' = s ∧ (ine = false → ∀ ixs, r ≠ Ok ixs)) ∨
     ∃ k hd new types, view_address (cx_cat (dd_cat s)) (cx_tx (dd_cat s)) Schemas (ct_schema info) = Some k ∧
       Table_GetTypes (ct_columns info) = Ok types ∧
       NewDataTable (dd_rows s) tp (ct_schema info) (ct_table info) types = Ok (dd_rows s') ∧
       pushed (dd_cat s) (dd_cat s') (Tables k) (ct_table info) hd new (table_value info tp)).
Proof.
  intros Hr Hst. destruct s as [st R]. cbn [dd_cat dd_rows] in *. unfold CreateTable.
  assert (∀ {A} (f : M (cat_state E Q) A) r st', f st = (r, st') →
    on_catalog f (mkDdlState st R) = (r, mkDdlState st' R)) as Hon.
  { intros A f r st' Hf. unfold on_catalog. cbn [dd_cat dd_rows]. by rewrite Hf. }
  pose proof (Hon _ _ _ _ (GetSchema_spec (ct_schema info) st Hr)) as Hgs.
  destruct (view_address (cx_cat st) (cx_tx st) Schemas (ct_schema info)) as [k|] eqn:Hk.
  2:{ run_using Hgs. eexists _, _. split; [done|]. split; [done|by left]. }
  run_using Hgs. cbn [dd_rows].
  destruct (NewTableEntry_spec R tp info Hst) as (r & Hne & Hdef & Hval). rewrite Hne.
  destruct r as [[[v R'] ixs]|x|]; [| |done]; run.
  2:{ eexists _, _. split; [done|]. split; [done|by left]. }
  destruct (Hval v R' ixs eq_refl) as (-> & types & Hty & Hnew).
  destruct (CreateEntry_spec st (Tables k) (ct_table info) (table_value info tp) Hr) as (rc & st' & Hc & Hout); try done.
  destruct Hout as [st' hd new Hp|? ? ? ? ?|? ? ? ? ? ?].
  - assert (CreateTable_in k (ct_table info) (table_value info tp) ine st = (Ok true, st')) as Hin.
    { unfold CreateTable_in. run_using Hc. done. }
    run_using (Hon _ _ _ _ Hin). eexists _, _. split; [done|]. split; [done|]. right.
    exists k, hd, new, types. done.
  - assert (CreateTable_in k (ct_table info) (table_value info tp) ine st = (Throw TransactionException, st)) as Hin.
    { unfold CreateTable_in. run_using Hc. done. }
    run_using (Hon _ _ _ _ Hin). eexists _, _. split; [done|]. split; [done|by left].
  - assert (CreateTable_in k (ct_table info) (table_value info tp) ine st =
      (if ine then Ok false else Throw CatalogException, st)) as Hin.
    { unfold CreateTable_in. run_using Hc. by destruct ine. }
    pose proof (Hon _ _ _ _ Hin) as Hin'. destruct ine; run_using Hin'; eexists _, _; (split; [done|]); (split; [done|by left]).
Qed.

Lemma CreateTable_steps db i t tp info ine :
  reachable (IX:=IX) db → active_transactions (db_tm db) !! i = Some t → storable info →
  tables (db_rows db) !! tp = None →
  ∃ r db', run_ddl db i t (CreateTable tp info ine) = (r, db') ∧ r ≠ Undef ∧
    rtc (step (IX:=IX) true (transaction_id t)) db db' ∧ reachable (IX:=IX) db'.
Proof.
  intros Hre Ht Hst Htp.
  destruct (CreateTable_spec tp info ine (mkDdlState (mkCatState t (db_catalog db)) (db_rows db)))
    as (r & s' & Hc & Hne & Hout); [by eapply active_ready|done|].
  exists r, (with_ddl db i s'). unfold run_ddl. rewrite Hc. split; [done|]. split; [done|].
  assert (rtc (step (IX:=IX) true (transaction_id t)) db (with_ddl db i s')) as Hrtc.
  { destruct Hout as [[-> _]|(k & hd & new & types & Hk & Hty & Hnew & Hp)].
    - unfold with_ddl. cbn [dd_cat dd_rows cx_cat cx_tx].
      pose proof (with_catalog_id db i t Ht) as Hid. unfold with_catalog in Hid. cbn [cx_cat cx_tx] in Hid.
      by rewrite Hid.
    - cbn [dd_cat dd_rows cx_cat cx_tx] in *. eapply rtc_l; [by eapply step_create_table|].
      destruct s' as [st' R']. cbn [dd_cat dd_rows] in *.
      assert (pushes logged_set (mkCatState t (db_catalog db)) st') as Hps by (by eapply push_one; [|exact Hp]).
      exact (pushes_steps true _ _ _ Hps (mkDatabase R' (db_catalog db) (db_log db) (db_tm db)) i Ht eq_refl). }
  split; [done|]. by eapply reachable_steps.
Qed.
End create_table.
