(* ===== verification/DataDefinition.v ===== *)
(** * Data definition: what connections can rely on

    The guarantees of the catalog for running transactions: statements on
    schemas, tables and views are isolated from each other and can always be
    committed or rolled back, a created table is found, a dropped one is gone,
    and lookups are repeatable.  The last part shows where the sources do not
    meet the expectations of their callers. *)

From Stdlib Require Import ZArith Lia.
From stdpp Require Import base gmap list strings option numbers sorting relations.
From S2P Require Import Prelude Types Vector Tuple Storage Versions DataTable TableScan TableOps TableAppend WriteAheadLog UndoBuffer UndoProofs TransactionManager TransactionProofs Database Isolation CatalogSet CatalogProofs CatalogOps Catalog.

Section theorems.
Context {E Q : Type} {IX : Type} `{!TableIndexes IX}.
Abbreviation database := (Database (catalog E Q) E Q).
Implicit Types (db : database) (st : cat_state E Q).

(** ** Looking tables up *)

(** The table or view that a transaction finds under a qualified name. *)
Definition lookup_table (cs : catalog E Q) (tx : Transaction) (schema table : string)
    : option (nat * CatalogType * entry_data E Q) :=
  k ← view_address cs tx Schemas schema;
  catalog_view cs tx (Tables k) table.

Lemma view_entry (cs : catalog E Q) tx s name t ty d :
  catalog_wf cs → catalog_view cs tx s name = Some (t, ty, d) →
  ∃ e, cat_entries cs !! t = Some e ∧ ev_type (ce_value e) = ty ∧ ev_data (ce_value e) = d.
Proof.
  intros Hwf. unfold catalog_view. rewrite (GetEntry_view cs tx s name Hwf).
  destruct (view_address cs tx s name) as [k|]; [|done]. destruct (cat_entries cs !! k) as [e|] eqn:He; [|done].
  intros [= <- <- <-]. eauto.
Qed.

(** [GetTable] answers with the table the transaction finds, if it is one. *)
Lemma GetTable_spec st schema table :
  ready st → GetTable schema table st =
    (match lookup_table (cx_cat st) (cx_tx st) schema table with
     | Some (t, CT_TABLE, _) => Ok t
     | _ => Throw CatalogException
     end, st).
Proof.
  intros Hr. unfold GetTable, lookup_table.
  assert (GetTableOrView schema table st =
    (match view_address (cx_cat st) (cx_tx st) Schemas schema ≫= fun k =>
        view_address (cx_cat st) (cx_tx st) (Tables k) table with
     | Some t => Ok t | None => Throw CatalogException end, st)) as Hg.
  { unfold GetTableOrView. pose proof (GetSchema_spec schema st Hr) as Hs.
    destruct (view_address (cx_cat st) (cx_tx st) Schemas schema) as [k|]; [|by run_using Hs].
    run_using Hs. run_using (find_entry_spec (Tables k) table st Hr). cbn [mbind option_bind].
    by destruct (view_address _ _ (Tables k) table). }
  destruct (view_address (cx_cat st) (cx_tx st) Schemas schema) as [k|]; cbn [mbind option_bind] in *; [|by run_using Hg].
  unfold view_address in Hg. destruct (catalog_view (cx_cat st) (cx_tx st) (Tables k) table) as [[[t ty] d]|] eqn:Hv.
  2:{ by run_using Hg. }
  cbn in Hg. run_using Hg. destruct (view_entry _ _ _ _ _ _ _ (proj1 Hr) Hv) as (e & He & Hty & _).
  assert (entry_type t st = (Ok ty, st)) as Het by (unfold entry_type; run; by rewrite He, <- Hty).
  run_using Het. by destruct ty.
Qed.

Lemma catalog_view_tx (cs : catalog E Q) tx tx' s name :
  catalog_wf cs → transaction_id tx' = transaction_id tx ∧ start_time tx' = start_time tx →
  catalog_view cs tx' s name = catalog_view cs tx s name.
Proof.
  intros Hwf [Hid Hst].
  assert (∀ z k ks, cat_owns (E:=E) (Q:=Q) cs z (k :: ks) → sees tx' z = sees tx z) as Hsee
    by (intros; unfold sees; by rewrite Hid, Hst).
  exact (cat_view_ext (E:=E) (Q:=Q) cs tx' tx Hwf Hsee s name).
Qed.

Lemma new_table_found R tp schema table types R' :
  NewDataTable R tp schema table types = Ok R' →
  ∃ tbl, tables R' !! tp = Some tbl ∧ dt_types tbl = types ∧ dt_cardinality tbl = 0%Z.
Proof.
  unfold NewDataTable. intros H. apply bind_Ok in H as (sizes & _ & H). apply bind_Ok in H as (ser & _ & H).
  apply Ok_inj in H as <-. simpl. rewrite lookup_insert_eq. eauto.
Qed.

(** ** What other transactions see *)

Lemma running_sees db t tx :
  reachable (IX:=IX) db → t ∈ active_transactions (db_tm db) → tx ∈ active_transactions (db_tm db) →
  transaction_id tx ≠ transaction_id t → sees tx (transaction_id t) = false.
Proof.
  intros [H Hinv]%reachable_db_inv Ht Htx Hne. unfold sees. apply orb_false_iff. split; [by apply Z.eqb_neq|].
  apply Z.ltb_ge. pose proof (co_active _ _ _ _ _ _ _ (inv_core _ _ Hinv) _ Ht).
  pose proof (co_active _ _ _ _ _ _ _ (inv_core _ _ Hinv) _ Htx). pose proof (inv_time _ _ Hinv). lia.
Qed.


(** C15. CREATE TABLE runs to an answer or an exception.  If it reports success
    (without IF NOT EXISTS), its transaction finds the table under its name,
    with the columns and constraints of the statement and fresh storage of the
    right types; no other running transaction sees it. *)
Theorem create_table_found db i t tp info :
  reachable (IX:=IX) db → active_transactions (db_tm db) !! i = Some t → storable info →
  tables (db_rows db) !! tp = None →
  ∃ r db', run_ddl db i t (CreateTable tp info false) = (r, db') ∧ r ≠ Undef ∧ reachable (IX:=IX) db' ∧
    (∀ tx, tx ∈ active_transactions (db_tm db) → transaction_id tx ≠ transaction_id t →
      ∀ s name, catalog_view (db_catalog db') tx s name = catalog_view (db_catalog db) tx s name) ∧
    (∀ ixs, r = Ok ixs →
      ∃ t' k types tbl, active_transactions (db_tm db') !! i = Some t' ∧
        transaction_id t' = transaction_id t ∧
        GetTable (ct_schema info) (ct_table info) (mkCatState t' (db_catalog db')) =
          (Ok k, mkCatState t' (db_catalog db')) ∧
        ev_data ∘ ce_value <$> cat_entries (db_catalog db') !! k = Some (DTable info tp) ∧
        Table_GetTypes (ct_columns info) = Ok types ∧
        tables (db_rows db') !! tp = Some tbl ∧ dt_types tbl = types ∧ dt_cardinality tbl = 0%Z).
Proof.
  intros Hre Ht Hst Htp. pose proof (active_ready db i t Hre Ht) as Hr.
  destruct (CreateTable_spec tp info false (mkDdlState (mkCatState t (db_catalog db)) (db_rows db)) Hr Hst)
    as (r & s' & Hc & Hne & Hout).
  destruct (CreateTable_steps db i t tp info false Hre Ht Hst Htp) as (r2 & db' & Hrun & _ & _ & Hre').
  unfold run_ddl in Hrun |- *. rewrite Hc in Hrun |- *. apply pair_eq in Hrun as [_ <-].
  exists r, (with_ddl db i s'). split_and!; try done.
  - intros tx Htx Hid s name. destruct Hout as [[-> _]|(k & hd & new & types & _ & _ & _ & Hp)]; [done|].
    apply (pd_replaced _ _ _ _ _ _ _ Hp). apply (running_sees db); try done. by apply list_elem_of_lookup_2 in Ht.
  - intros ixs ->. destruct Hout as [[-> Hno]|(k & hd & new & types & Hk & Hty & Hnew & Hp)]; [by destruct (Hno eq_refl ixs)|].
    pose proof (pushed_ready _ _ _ _ _ _ _ Hr Hp) as Hr'. pose proof (pushed_id _ _ _ _ _ _ _ Hp) as Hid.
    pose proof (pd_tx _ _ _ _ _ _ _ Hp) as Htx.
    destruct s' as [[t' cs'] R']. cbn [dd_cat dd_rows cx_tx cx_cat] in *.
    assert (lookup_table cs' t' (ct_schema info) (ct_table info) = Some (new, CT_TABLE, DTable info tp)) as Hl.
    { unfold lookup_table, view_address. rewrite (pd_names _ _ _ _ _ _ _ Hp) by naive_solver. cbn [cx_cat].
      rewrite (catalog_view_tx (db_catalog db) t t' _ _ (proj1 Hr)) by (by rewrite Htx). unfold view_address in Hk. rewrite Hk.
      cbn [mbind option_bind].
      pose proof (pd_view _ _ _ _ _ _ _ Hp t' Hid) as Hv. cbn [cx_cat] in Hv. rewrite Hv. by destruct info. }
    destruct (new_table_found _ _ _ _ _ _ Hnew) as (tbl & Htbl & Hdt & Hcard).
    exists t', new, types, tbl. split_and!; try done.
    + unfold with_ddl, set_active. simpl. apply list_lookup_insert_eq. by apply lookup_lt_Some in Ht.
    + change (mkCatState t' (db_catalog (with_ddl db i (mkDdlState (mkCatState t' cs') R')))) with (mkCatState t' cs').
      rewrite (GetTable_spec (mkCatState t' cs') _ _ Hr'). cbn [cx_cat cx_tx]. by rewrite Hl.
    + unfold lookup_table in Hl. destruct (view_address cs' t' Schemas (ct_schema info)) as [k'|]; [|done].
      destruct (view_entry cs' t' (Tables k') _ _ _ _ (proj1 Hr') Hl) as (e & He & _ & Hd).
      change (db_catalog _) with cs'. by rewrite He; cbn; rewrite Hd.
Qed.
End theorems.

Section more_theorems.
Context {E Q : Type} {IX : Type} `{!TableIndexes IX}.
Abbreviation database := (Database (catalog E Q) E Q).
Implicit Types (db : database) (st : cat_state E Q).

Lemma DropEntry_table st k name cascade :
  ready st → ∃ r st', DropEntry (Tables k) name cascade st = (r, st') ∧ r ≠ Undef ∧
    pushes (eq (Tables k)) st st' ∧
    (r = Ok true → ∀ tx, transaction_id tx = transaction_id (cx_tx st) →
      catalog_view (cx_cat st') tx (Tables k) name = None).
Proof.
  intros Hr. unfold DropEntry. run. destruct (set_data (cx_cat st) (Tables k) !! name) as [t|] eqn:Ht.
  - destruct (DropEntry_leaf 1 st (Tables k) name t cascade Hr I ltac:(done) Ht) as (r & st' & Hd & Hne & Hps & Hv & _).
    by exists r, st'.
  - exists (Ok false), st. split_and!; try done.
Qed.

(** C16. After DROP TABLE (without IF EXISTS) has reported success, its
    transaction no longer finds the table. *)
Theorem drop_table_gone st schema table cascade st' :
  ready st → DropTable schema table false cascade st = (Ok tt, st') →
  GetTable schema table st' = (Throw CatalogException, st').
Proof.
  intros Hr. unfold DropTable. pose proof (GetSchema_spec schema st Hr) as Hs.
  destruct (view_address (cx_cat st) (cx_tx st) Schemas schema) as [k|] eqn:Hk; [|by run_using Hs].
  run_using Hs. run_using (find_entry_spec (Tables k) table st Hr).
  assert (∀ (o : option nat) (f : unit → M (cat_state E Q) unit),
    ((match o with Some _ => mret tt | None => mret tt end : M (cat_state E Q) unit) ≫= f) st = f tt st) as Hm
    by (by intros []).
  rewrite Hm. clear Hm.
  destruct (DropEntry_table st k table cascade Hr) as (r & st1 & Hd & Hne & Hps & Hgone).
  destruct r as [[]|x|]; [| | |done]; run_using Hd; try done.
  intros [= <-]. pose proof (pushes_keep _ _ _ Hr Hps) as Hf. rewrite (GetTable_spec st1 schema table) by apply Hf.
  unfold lookup_table. destruct (view_address (cx_cat st1) (cx_tx st1) Schemas schema) as [k'|] eqn:Hk'; [|done].
  assert (k' = k) as ->.
  { unfold view_address in *. rewrite (pf_view _ _ _ Hf) in Hk' by done.
    rewrite (catalog_view_tx (cx_cat st) (cx_tx st) (cx_tx st1)) in Hk'; [congruence|apply Hr|].
    split; [apply Hf|]. clear -Hps. induction Hps as [|x y z (? & ? & ? & ? & ? & _ & Hp) _ IH]; [done|].
    rewrite IH. by rewrite (pd_tx _ _ _ _ _ _ _ Hp). }
  cbn [mbind option_bind]. by rewrite (Hgone eq_refl) by apply Hf.
Qed.

Lemma inv_ready db H t :
  db_inv db H → t ∈ active_transactions (db_tm db) → ready (mkCatState t (db_catalog db)).
Proof.
  intros Hinv Ht. split; cbn [cx_cat cx_tx]; [apply (co_cat _ _ _ _ _ _ _ (inv_core _ _ Hinv))|].
  by apply (co_active _ _ _ _ _ _ _ (inv_core _ _ Hinv)).
Qed.

(** C14. Lookups are repeatable: whatever other transactions do (creating,
    altering, dropping, committing, rolling back, cleaning up), a running
    transaction keeps finding the same entries with the same contents, so
    [GetTable] keeps giving the same answer. *)
Theorem catalog_repeatable_read db db' t schema table :
  reachable (IX:=IX) db → t ∈ active_transactions (db_tm db) →
  steps_of_others (IX:=IX) (transaction_id t) db db' →
  (∀ s name, catalog_view (db_catalog db') t s name = catalog_view (db_catalog db) t s name) ∧
  fst (GetTable schema table (mkCatState t (db_catalog db'))) =
  fst (GetTable schema table (mkCatState t (db_catalog db))).
Proof.
  intros Hre Ht Hsteps. pose proof Hre as [H Hinv]%reachable_db_inv.
  destruct (others_preserve _ _ _ _ Hinv Hsteps t Ht eq_refl) as (H' & Hinv' & _ & Ht' & _ & Hcat).
  assert (∀ s name, catalog_view (db_catalog db') t s name = catalog_view (db_catalog db) t s name) as Hv
    by (intros s name; apply (Hcat s name)).
  split; [exact Hv|].
  pose proof (inv_ready db H t Hinv Ht) as Hr. pose proof (inv_ready db' H' t Hinv' Ht') as Hr'.
  rewrite (GetTable_spec _ schema table Hr), (GetTable_spec _ schema table Hr'). cbn [fst cx_cat cx_tx].
  unfold lookup_table, view_address. rewrite Hv. destruct (catalog_view (db_catalog db) t Schemas schema); [|done].
  cbn. by rewrite Hv.
Qed.

(** C17. [CreateEntry] on every branch: with no current entry, or a deleted one
    that the transaction may overwrite, the new entry is put in front and is
    what the transaction finds from then on; a current entry written by another
    running transaction is a conflict; a live current entry is reported.  In
    the last two cases nothing changes. *)
Theorem create_entry_outcomes st s name v :
  ready st → logged_set s → value_typed s v → ev_deleted v = false → ev_name v = name →
  CreateEntry_set s name v st =
    match set_data (cx_cat st) s !! name ≫= fun k => cat_entries (cx_cat st) !! k with
    | Some e => if entry_conflict (cx_tx st) e then (Throw TransactionException, st)
                else if ev_deleted (ce_value e) then (Ok true, snd (CreateEntry_set s name v st))
                else (Ok false, st)
    | None => (Ok true, snd (CreateEntry_set s name v st))
    end ∧
  (fst (CreateEntry_set s name v st) = Ok true →
    ∃ new, ∀ tx, transaction_id tx = transaction_id (cx_tx st) →
      catalog_view (cx_cat (snd (CreateEntry_set s name v st))) tx s name = Some (new, ev_type v, ev_data v)).
Proof.
  intros Hr Hs Ht Hd Hn. destruct (CreateEntry_spec st s name v Hr Hs Ht Hd Hn) as (r & st' & Hc & Hout).
  rewrite Hc. cbn [fst snd]. destruct Hout as [st' hd new Hp|k e Hk He Hco|k e Hk He Hco Hde].
  - split.
    + assert (fst (CreateEntry_set s name v st) = Ok true) as Hok by (by rewrite Hc). unfold CreateEntry_set in Hok.
      run_in Hok. destruct (set_data (cx_cat st) s !! name) as [k|] eqn:Hk; [|done]. cbn [mbind option_bind].
      destruct (cat_entries (cx_cat st) !! k) as [e|] eqn:He; [|done]. run_in Hok.
      destruct (entry_conflict (cx_tx st) e); [done|]. by destruct (ev_deleted (ce_value e)).
    + intros _. exists new. intros tx Htx. rewrite (pd_view _ _ _ _ _ _ _ Hp tx Htx). by rewrite Hd.
  - split; [|done]. rewrite Hk. cbn [mbind option_bind]. by rewrite He, Hco.
  - split; [|done]. rewrite Hk. cbn [mbind option_bind]. by rewrite He, Hco, Hde.
Qed.
End more_theorems.

(** ** A database with a catalog *)

Module CatalogExample.
Abbreviation cat_type := (catalog unit unit).
Abbreviation db_type := (Database (catalog unit unit) unit unit).

(** The catalog at startup: the schema [main], committed long ago. *)
Definition main_value : EntryValue unit unit := mkValue CT_SCHEMA "main" false DNone.
Definition cs0 : cat_type :=
  mkCatalog {[0 := mkEntry main_value Schemas 0 None None]} {[Schemas := {["main"%string := 0]}]} 1 [].

Definition history0 : history := fun s name => if decide (s = Schemas ∧ name = "main"%string) then [0] else [].

Lemma entries0 k e : cat_entries cs0 !! k = Some e → k = 0 ∧ e = mkEntry main_value Schemas 0 None None.
Proof. unfold cs0. simpl. by intros [<- <-]%lookup_singleton_Some. Qed.

Lemma chains0 : chains_wf cs0 history0.
Proof.
  constructor; unfold history0.
  - intros s name. case_decide as Hd; [destruct Hd as [-> ->]|].
    + split; [done|]. eexists. split; [done|]. done.
    + unfold set_data. simpl. destruct (decide (s = Schemas)) as [->|Hs].
      * rewrite lookup_singleton_eq. simpl. rewrite lookup_singleton_ne by naive_solver. done.
      * by rewrite lookup_singleton_ne by done.
  - intros k e [-> ->]%entries0. simpl. left.
  - intros s name k. case_decide as Hd; [|by intros ?%not_elem_of_nil]. destruct Hd as [-> ->].
    intros ->%list_elem_of_singleton. eexists. split; [done|]. done.
  - intros s name. case_decide; repeat constructor.
  - intros k e [-> ->]%entries0. done.
  - intros k e [-> ->]%entries0. simpl. lia.
  - intros k e [-> ->]%entries0. done.
  - intros p ep k ek [-> ->]%entries0. done.
Qed.

Lemma fresh0 : fresh_catalog (E:=unit) (Q:=unit) cs0.
Proof.
  split; [by exists history0; apply chains0|]. split.
  - intros p e [-> ->]%entries0 [c Hc]. done.
  - intros z. cbn. by destruct z.
Qed.

Definition start (db : db_type) : db_type :=
  match StartTransaction (db_tm db) with Ok (tm, _) => set_tm db tm | _ => db end.
Definition tx_at (db : db_type) (i : nat) : Transaction :=
  default (NewTransaction 0 0) (active_transactions (db_tm db) !! i).
Definition statement {A} (db : db_type) (i : nat) (f : M (cat_state unit unit) A) : db_type :=
  snd (run_catalog db i (tx_at db i) f).
Definition commit (db : db_type) (i : nat) : db_type :=
  match CommitTransaction db (transaction_id (tx_at db i)) with Ok db' => db' | _ => db end.

Definition int_type : SQLType := mkSQLType SQL_INTEGER 0 0.
Definition info : CreateTableInformation unit := mkCreateTable "main" "t" [("a"%string, int_type)] [].

(** Two transactions; the second creates the schema [s] and commits. *)
Definition e0 : db_type := empty_database cs0 (Some []).
Definition e1 : db_type := start e0.
Definition e2 : db_type := start e1.
Definition e3 : db_type := statement e2 1 (CreateSchema "s" false).
Definition e4 : db_type := commit e3 1.

Lemma start_reachable db :
  reachable (IX:=unit) db → (current_start_timestamp (db_tm db) <? TRANSACTION_ID_START)%Z = true →
  reachable (IX:=unit) (start db).
Proof.
  intros Hre Hlt%Z.ltb_lt. eapply (reachable_steps true (current_transaction_id (db_tm db))); [exact Hre|].
  apply rtc_once. unfold start, StartTransaction. rewrite (proj2 (Z.leb_gt _ _) Hlt).
  apply step_start. unfold StartTransaction. by rewrite (proj2 (Z.leb_gt _ _) Hlt).
Qed.

Lemma catalog_reachable0 : reachable (IX:=unit) e0.
Proof. exists cs0, (Some []). split; [apply fresh0|apply rtc_refl]. Qed.
Lemma catalog_reachable1 : reachable (IX:=unit) e1.
Proof. apply start_reachable; [apply catalog_reachable0|vm_compute; reflexivity]. Qed.
Lemma catalog_reachable2 : reachable (IX:=unit) e2.
Proof. apply start_reachable; [apply catalog_reachable1|vm_compute; reflexivity]. Qed.

Lemma rtc_others (id id' : Z) (db db' : db_type) :
  id' ≠ id → rtc (step (IX:=unit) true id') db db' → steps_of_others (IX:=unit) id db db'.
Proof. intros Hne. induction 1; [apply rtc_refl|]. eapply rtc_l; [|done]. by exists id'. Qed.

Lemma others24 : steps_of_others (IX:=unit) (transaction_id (tx_at e2 0)) e2 e4.
Proof.
  assert (rtc (step (IX:=unit) true (transaction_id (tx_at e2 1))) e2 e3) as H23.
  { destruct (behaved_reachable (IX:=unit) e2 1 (tx_at e2 1) (CreateSchema "s" false) catalog_reachable2)
      as (r & db' & Hrun & _ & Hrtc & _); [vm_compute; reflexivity| |].
    - apply CreateSchema_behaved. eapply (active_ready (IX:=unit) e2 1); [apply catalog_reachable2|vm_compute; reflexivity].
    - unfold e3, statement. by rewrite Hrun. }
  assert (step (IX:=unit) true (transaction_id (tx_at e2 1)) e3 e4) as H34.
  { replace (transaction_id (tx_at e2 1)) with (transaction_id (tx_at e3 1)) by (vm_compute; reflexivity).
    eapply (step_commit _ _ _ 1); vm_compute; reflexivity. }
  assert (transaction_id (tx_at e2 1) ≠ transaction_id (tx_at e2 0)) as Hne by (vm_compute; discriminate).
  apply (rtc_others _ _ _ _ Hne). by eapply rtc_r.
Qed.
End CatalogExample.


Lemma create_table_found_witness :
  ∃ r (db' : CatalogExample.db_type),
    run_ddl CatalogExample.e2 1 (CatalogExample.tx_at CatalogExample.e2 1)
      (CreateTable 0 CatalogExample.info false) = (r, db') ∧ r ≠ Undef ∧ reachable (IX:=unit) db'.
Proof.
  destruct (create_table_found (IX:=unit) CatalogExample.e2 1 (CatalogExample.tx_at CatalogExample.e2 1) 0
    CatalogExample.info CatalogExample.catalog_reachable2) as (r & db' & H1 & H2 & H3 & _).
  - vm_compute. reflexivity.
  - split; repeat constructor. discriminate.
  - vm_compute. reflexivity.
  - exists r, db'. split; [exact H1|]. split; [exact H2|exact H3].
Defined.

Lemma catalog_repeatable_read_witness :
  fst (GetTable "main" "t" (mkCatState (CatalogExample.tx_at CatalogExample.e2 0) (db_catalog CatalogExample.e4))) =
  fst (GetTable "main" "t" (mkCatState (CatalogExample.tx_at CatalogExample.e2 0) (db_catalog CatalogExample.e2))).
Proof.
  apply (catalog_repeatable_read (IX:=unit) CatalogExample.e2 CatalogExample.e4
    (CatalogExample.tx_at CatalogExample.e2 0) "main" "t" CatalogExample.catalog_reachable2).
  - apply (list_elem_of_lookup_2 _ 0). vm_compute. reflexivity.
  - exact CatalogExample.others24.
Defined.

(** The second transaction creates the table [t] instead. *)
Module TableExample.
Import CatalogExample.
Definition e5 : db_type := snd (run_ddl e2 1 (tx_at e2 1) (CreateTable 0 info false)).
Definition st5 : cat_state unit unit := mkCatState (tx_at e5 1) (db_catalog e5).

Lemma catalog_reachable5 : reachable (IX:=unit) e5.
Proof.
  destruct (CreateTable_steps (IX:=unit) e2 1 (tx_at e2 1) 0 info false catalog_reachable2)
    as (r & db' & Hrun & _ & _ & Hre); [vm_compute; reflexivity|split; repeat constructor; discriminate
    |vm_compute; reflexivity|]. unfold e5. by rewrite Hrun.
Qed.

Lemma ready5 : ready st5.
Proof. eapply (active_ready (IX:=unit) e5 1); [apply catalog_reachable5|vm_compute; reflexivity]. Qed.
End TableExample.

Lemma drop_table_gone_witness :
  DropTable "main" "t" false false TableExample.st5 =
    (Ok tt, snd (DropTable "main" "t" false false TableExample.st5)) ∧
  fst (GetTable "main" "t" (snd (DropTable "main" "t" false false TableExample.st5))) = Throw CatalogException.
Proof.
  assert (DropTable "main" "t" false false TableExample.st5 =
    (Ok tt, snd (DropTable "main" "t" false false TableExample.st5))) as Hd by (vm_compute; reflexivity).
  split; [exact Hd|]. rewrite (drop_table_gone TableExample.st5 "main" "t" false _ TableExample.ready5 Hd). reflexivity.
Defined.

Lemma create_entry_outcomes_witness :
  fst (CreateEntry_set (Tables 0) "t" (table_value CatalogExample.info 1) TableExample.st5) = Ok false.
Proof.
  destruct (create_entry_outcomes TableExample.st5 (Tables 0) "t" (table_value CatalogExample.info 1)
    TableExample.ready5) as [Hc _]; [exact I|exact I|reflexivity|reflexivity|].
  rewrite Hc. vm_compute. reflexivity.
Defined.

(** ** Where the sources surprise their callers *)

Module Surprises.
Import CatalogExample.

(** [CREATE INDEX] succeeds, but its transaction cannot be committed when
    there is a write-ahead log. *)
Lemma index_commit_throws :
  fst (run_catalog e2 1 (tx_at e2 1) (CreateIndex 0 "i" false)) = Ok true ∧
  CommitTransaction (statement e2 1 (CreateIndex 0 "i" false)) (transaction_id (tx_at e2 1)) =
    Throw NotImplementedException.
Proof. split; vm_compute; reflexivity. Qed.

(** [DROP TABLE] without [IF EXISTS] drops a view. *)
Definition view_info : CreateViewInformation unit := mkCreateView "main" "v" tt [].
Definition st_view : cat_state unit unit :=
  snd (CreateView view_info false (mkCatState (tx_at e2 1) (db_catalog e2))).
Lemma drop_table_drops_view :
  fst (DropTable "main" "v" false false st_view) = Ok tt ∧
  fst (GetTableOrView "main" "v" (snd (DropTable "main" "v" false false st_view))) = Throw CatalogException.
Proof. split; vm_compute; reflexivity. Qed.

(** Rows inserted into a table that the same transaction then drops are logged
    after the table is gone: replaying the log looks for a table that does not
    exist. *)
Definition e6 : db_type := start (commit TableExample.e5 1).
Definition e7 : db_type :=
  snd (run_op e6 1 (tx_at e6 1) tt (Append 0 (mkTableCatalogInfo [T_INTEGER] []) (Example.one_column [1]%Z))).
Definition e8 : db_type := statement e7 1 (DropTable "main" "t" false false).
Definition names {E' Q'} (e : wal_entry E' Q') : string :=
  match e with WDropTable _ _ => "drop table" | WInsert _ _ _ => "insert" | _ => "other" end.
Lemma insert_logged_after_drop :
  match db_log (commit e8 1) with Some log => names <$> default [] (last log) | None => [] end =
  ["drop table"; "insert"]%string.
Proof. vm_compute. reflexivity. Qed.

(** Renaming a column of a table with a primary key fails an assertion. *)
Definition key_info : CreateTableInformation unit :=
  mkCreateTable "main" "k" [("a"%string, int_type)] [ParsedConstraint CONSTRAINT_PRIMARY_KEY 0 []].
Lemma rename_with_key_asserts :
  RenameColumn (E:=unit) (Q:=unit) "a" "b" (table_value key_info 0) = Undef.
Proof. vm_compute. reflexivity. Qed.
End Surprises.
