(* ===== verification/StringStream.v ===== *)
(** * Text input and output of integers

    What the sources use of the C++ standard library to read and print
    integers: [istringstream >> int32_t] and [>> char] (dates, times, values)
    and the [%0<w>d] conversion of [StringUtil::Format].  Characters are the
    byte codes of [Serializer.v].  A stream is the list of the characters not
    yet read; an extraction that sets [failbit] is [None], and every later one
    on the same stream fails too, which is the bind of [option]. *)

From Stdlib Require Import ZArith Lia Ascii.
From stdpp Require Import base list strings option numbers.
From S2P Require Import Prelude Types Vector Serializer.

Local Open Scope Z_scope.

Definition int32_min : Z := - 2 ^ 31.
Definition int32_max : Z := 2 ^ 31 - 1.
Definition fits32 (z : Z) : bool := (int32_min <=? z) && (z <=? int32_max).

(** Conversion of a wider integer to [int32_t]. *)
Definition int32_of (z : Z) : Z := (z + 2 ^ 31) mod 2 ^ 32 - 2 ^ 31.

Definition is_space (c : byte) : bool := (c =? 32) || ((9 <=? c) && (c <=? 13)).
Definition is_digit (c : byte) : bool := (48 <=? c) && (c <=? 57).

Fixpoint skip_space (cs : list byte) : list byte :=
  match cs with c :: cs' => if is_space c then skip_space cs' else cs | [] => [] end.

(** The longest prefix of digits, as their values, and the rest. *)
Fixpoint span_digits (cs : list byte) : list Z * list byte :=
  match cs with
  | c :: cs' =>
      if is_digit c then let '(ds, r) := span_digits cs' in ((c - 48) :: ds, r) else ([], cs)
  | [] => ([], [])
  end.

Definition digits_value (ds : list Z) : Z := foldl (fun a d => 10 * a + d) 0 ds.

(** [ss >> n] for an [int32_t]. *)
Definition read_int (cs : list byte) : option (Z * list byte) :=
  let cs := skip_space cs in
  let '(neg, cs) :=
    match cs with
    | c :: cs' => if c =? 45 then (true, cs') else if c =? 43 then (false, cs') else (false, cs)
    | [] => (false, [])
    end in
  match span_digits cs with
  | ([], _) => None
  | (ds, r) =>
      let v := if neg then - digits_value ds else digits_value ds in
      if fits32 v then Some (v, r) else None
  end.

(** [ss >> c] for a [char]. *)
Definition read_char (cs : list byte) : option (byte * list byte) :=
  match skip_space cs with c :: cs' => Some (c, cs') | [] => None end.

(** The decimal digits of [n], 20 are enough for 64 bits. *)
Fixpoint dec_digits (fuel : nat) (n : Z) : list Z :=
  match fuel with
  | O => []
  | S fuel' => if n <? 10 then [n] else dec_digits fuel' (n / 10) ++ [n mod 10]
  end.

(** [%0<w>d] *)
Definition format_d (w : nat) (z : Z) : list byte :=
  let sign := if z <? 0 then [45] else [] in
  let ds := dec_digits 20 (Z.abs z) in
  sign ++ replicate (w - length sign - length ds) 48 ++ ((Z.add 48) <$> ds).

(** ** Reading back what was printed *)

Definition digit (d : Z) : Prop := 0 ≤ d < 10.

Definition no_digit (cs : list byte) : Prop :=
  match cs with c :: _ => is_digit c = false | [] => True end.

Lemma dec_digits_spec fuel n :
  0 ≤ n < 10 ^ Z.of_nat fuel → (0 < fuel)%nat →
  Forall digit (dec_digits fuel n) ∧ digits_value (dec_digits fuel n) = n ∧ dec_digits fuel n ≠ [].
Proof.
  revert n. induction fuel as [|fuel IH]; intros n Hn Hf; [lia|]. cbn [dec_digits].
  destruct (Z.ltb_spec n 10).
  { split_and!; [|unfold digits_value; simpl; lia|done]. apply Forall_singleton. unfold digit. lia. }
  assert (0 ≤ n / 10 < 10 ^ Z.of_nat fuel) as Hd.
  { rewrite Nat2Z.inj_succ, Z.pow_succ_r in Hn by lia.
    split; [apply Z.div_pos; lia|]. apply Z.div_lt_upper_bound; lia. }
  assert (0 < fuel)%nat as Hf'.
  { destruct fuel; [|lia]. rewrite Z.pow_0_r in Hd. assert (1 ≤ n / 10); [|lia].
    apply Z.div_le_lower_bound; lia. }
  destruct (IH (n / 10) Hd Hf') as (Hds & Hv & _). split_and!.
  - apply Forall_app. split; [done|]. apply Forall_singleton.
    pose proof (Z.mod_pos_bound n 10 ltac:(lia)). unfold digit. lia.
  - unfold digits_value in *. rewrite foldl_app, Hv. simpl. pose proof (Z.div_mod n 10). lia.
  - intros Hnil. by apply app_eq_nil in Hnil as [_ ?].
Qed.

Lemma span_digits_app ds r :
  Forall digit ds → no_digit r → span_digits (((Z.add 48) <$> ds) ++ r) = (ds, r).
Proof.
  intros Hds Hr. induction Hds as [|d ds Hd Hds IH]; cbn [fmap list_fmap app].
  - destruct r as [|c r]; [done|]. simpl. by rewrite Hr.
  - cbn [span_digits]. unfold digit in Hd.
    assert (is_digit (48 + d) = true) as -> by (unfold is_digit; lia).
    rewrite IH. do 2 f_equal. lia.
Qed.

Lemma digits_value_zeros k ds : digits_value (replicate k 0 ++ ds) = digits_value ds.
Proof. unfold digits_value. induction k as [|k IH]; [done|exact IH]. Qed.

Lemma skip_space_digit d cs : digit d → skip_space ((48 + d) :: cs) = (48 + d) :: cs.
Proof. intros Hd. unfold digit in Hd. simpl. by replace (is_space (48 + d)) with false by (unfold is_space; lia). Qed.

(** The digits of [format_d], padding included. *)
Lemma format_d_digits w z :
  fits32 z = true →
  ∃ ds, format_d w z = (if z <? 0 then [45] else []) ++ ((Z.add 48) <$> ds) ∧
    Forall digit ds ∧ digits_value ds = Z.abs z ∧ ds ≠ [].
Proof.
  intros Hz. destruct (dec_digits_spec 20 (Z.abs z)) as (Hds & Hv & Hne); [|lia|].
  { unfold fits32, int32_min, int32_max in Hz. lia. }
  set (k := (w - length (if (z <? 0)%Z then [45%Z] else []) - length (dec_digits 20 (Z.abs z)))%nat).
  exists (replicate k 0 ++ dec_digits 20 (Z.abs z)). split_and!.
  - unfold format_d. fold k. rewrite fmap_app, fmap_replicate. reflexivity.
  - apply Forall_app. split; [|done]. apply Forall_replicate. unfold digit. lia.
  - by rewrite digits_value_zeros.
  - intros Hnil. by apply app_eq_nil in Hnil as [_ ?].
Qed.

(** Extraction returns the printed integer and stops at the next character. *)
Lemma read_format w z r :
  fits32 z = true → no_digit r → read_int (format_d w z ++ r) = Some (z, r).
Proof.
  intros Hz Hr. destruct (format_d_digits w z Hz) as (ds & -> & Hds & Hv & Hne).
  pose proof (span_digits_app ds r Hds Hr) as Hspan.
  unfold read_int. destruct (Z.ltb_spec z 0) as [Hneg|Hpos].
  - cbn [app skip_space is_space].
    change (is_space 45) with false. cbn beta iota. change (45 =? 45) with true. cbn beta iota.
    cbn [app]. rewrite Hspan. destruct ds as [|d ds]; [done|]. rewrite Hv.
    replace (- Z.abs z) with z by lia. by rewrite Hz.
  - destruct ds as [|d ds]; [done|]. inversion Hds as [|? ? Hd _]; subst.
    cbn [app fmap list_fmap] in Hspan |- *. rewrite skip_space_digit by done.
    unfold digit in Hd. destruct (Z.eqb_spec (48 + d) 45); [lia|].
    destruct (Z.eqb_spec (48 + d) 43); [lia|]. rewrite Hspan, Hv.
    replace (Z.abs z) with z by lia. by rewrite Hz.
Qed.

Lemma read_char_cons c r : is_space c = false → read_char (c :: r) = Some (c, r).
Proof. intros Hc. unfold read_char. simpl. by rewrite Hc. Qed.

Lemma int32_of_small z : fits32 z = true → int32_of z = z.
Proof.
  unfold fits32, int32_min, int32_max, int32_of. intros Hz.
  rewrite Z.mod_small; lia.
Qed.

Lemma dec_digits_length fuel n w :
  0 ≤ n < 10 ^ Z.of_nat w → (0 < w)%nat → (length (dec_digits fuel n) ≤ w)%nat.
Proof.
  revert n w. induction fuel as [|fuel IH]; intros n w Hn Hw; cbn [dec_digits length]; [lia|].
  destruct (Z.ltb_spec n 10); [done|]. destruct w as [|w]; [lia|].
  rewrite Nat2Z.inj_succ, Z.pow_succ_r in Hn by lia. rewrite length_app. cbn [length].
  destruct w as [|w]; [rewrite Z.pow_0_r in Hn; lia|].
  assert (length (dec_digits fuel (n / 10)) ≤ S w)%nat; [|lia]. apply IH; [|lia].
  split; [apply Z.div_pos; lia|]. apply Z.div_lt_upper_bound; lia.
Qed.

(** A non-negative integer of at most [w] digits is printed in [w] characters. *)
Lemma format_d_length w z : 0 ≤ z < 10 ^ Z.of_nat w → (0 < w)%nat → length (format_d w z) = w.
Proof.
  intros Hz Hw. unfold format_d. destruct (Z.ltb_spec z 0); [lia|].
  pose proof (dec_digits_length 20 (Z.abs z) w). rewrite !length_app, length_replicate, length_fmap.
  cbn [length app]. lia.
Qed.
