(* ===== verification/DateTime.v ===== *)
(** * Dates, times and timestamps

    Models [src/src/common/types/date.cpp], [time.cpp] and [timestamp.cpp].  A
    [date_t] counts the days since January 1 of the year 0 of the proleptic
    Gregorian calendar ([int32_t]); a [dtime_t] counts milliseconds
    ([int32_t]); a [timestamp_t] packs both in 64 bits.  Integers are [Z] with
    the truncating division of C++ ([Z.quot], [Z.rem]); where an operation can
    leave [int32_t] the model says so ([Undef]).  The tables are only read at
    the indexes 0..12: every caller tests the month first. *)

From Stdlib Require Import ZArith Lia Ascii.
From stdpp Require Import base list strings option numbers.
From S2P Require Import Prelude Types Vector Serializer StringStream.

Local Open Scope Z_scope.

(** ** The calendar *)

Definition NORMALDAYS : list Z := [0; 31; 28; 31; 30; 31; 30; 31; 31; 30; 31; 30; 31].
Definition LEAPDAYS : list Z := [0; 31; 29; 31; 30; 31; 30; 31; 31; 30; 31; 30; 31].
Definition CUMDAYS : list Z := [0; 31; 59; 90; 120; 151; 181; 212; 243; 273; 304; 334; 365].
Definition CUMLEAPDAYS : list Z := [0; 31; 60; 91; 121; 152; 182; 213; 244; 274; 305; 335; 366].

Definition at_ (t : list Z) (i : Z) : Z := default 0 (t !! Z.to_nat i).

Definition YEAR_MAX : Z := 5867411.
Definition YEAR_MIN : Z := - YEAR_MAX.
Definition EPOCH_DATE : Z := 719528.
Definition SECONDS_PER_DAY : Z := 60 * 60 * 24.

Definition leapyear (y : Z) : bool :=
  (Z.rem y 4 =? 0) && (negb (Z.rem y 100 =? 0) || (Z.rem y 400 =? 0)).

Definition MONTHDAYS (m y : Z) : Z :=
  if negb (m =? 2) then at_ LEAPDAYS m else if leapyear y then 29 else 28.

Definition YEARDAYS (y : Z) : Z := if leapyear y then 366 else 365.

Definition DATE (d m y : Z) : bool :=
  (0 <? m) && (m <=? 12) && (0 <? d) && negb (y =? 0) && (YEAR_MIN <=? y) && (y <=? YEAR_MAX) &&
  (d <=? MONTHDAYS m y).

Definition leapyears (year : Z) : Z :=
  let y4 := Z.quot year 4 in
  let y100 := Z.quot year 100 in
  let y400 := Z.quot year 400 in
  y4 + y400 - y100 + (if 0 <=? year then 1 else 0).

(** [while (day >= 0) { year++; day -= YEARDAYS(year); }] *)
Fixpoint years_up (fuel : nat) (year day : Z) : result (Z * Z) :=
  if 0 <=? day then
    match fuel with
    | O => Undef
    | S fuel' => years_up fuel' (year + 1) (day - YEARDAYS (year + 1))
    end
  else Ok (year, day).

(** [while (day < 0) { year--; day += YEARDAYS(year); }] *)
Fixpoint years_down (fuel : nat) (year day : Z) : result (Z * Z) :=
  if day <? 0 then
    match fuel with
    | O => Undef
    | S fuel' => years_down fuel' (year - 1) (day + YEARDAYS (year - 1))
    end
  else Ok (year, day).

(** The [for] loop over the months of a year with cumulative days [cum]; it
    starts at 1 or later, so 12 rounds leave it. *)
Fixpoint find_month (fuel : nat) (cum : list Z) (day month : Z) : Z :=
  match fuel with
  | O => month
  | S fuel' =>
      if month <=? 12 then
        if (at_ cum (month - 1) <? day) && (day <=? at_ cum month) then month
        else find_month fuel' cum day (month + 1)
      else month
  end.

Definition number_to_date (n : Z) : result (Z * Z * Z) :=
  let year := Z.quot n 365 in
  let day := (n - year * 365) - leapyears (if 0 <=? year then year - 1 else year) in
  let fuel := S (Z.to_nat (Z.abs day)) in
  '(year, day) ←
    (if n <? 0 then
       '(year, day) ← years_up fuel (year - 1) day;
       Ok (year, YEARDAYS year + day)
     else years_down fuel year day);
  let day := day + 1 in
  let cum := if leapyear year then CUMLEAPDAYS else CUMDAYS in
  let month := find_month 12 cum day (if Z.quot day 31 =? 0 then 1 else Z.quot day 31) in
  let day := day - at_ cum (month - 1) in
  let year := if year <=? 0 then year - 1 else year in
  Ok (year, month, day).

Definition date_to_number (year month day : Z) : result Z :=
  if negb (DATE day month year) then Throw GenericException
  else
    let year := if year <? 0 then year + 1 else year in
    let n := day - 1 in
    let n := if (2 <? month) && leapyear year then n + 1 else n in
    let n := n + at_ CUMDAYS (month - 1) in
    Ok (n + (365 * year + leapyears (if 0 <=? year then year - 1 else year))).

(** ** [class Date] *)

Definition Date_FromDate (year month day : Z) : result Z := date_to_number year month day.

Definition Date_Convert (date : Z) : result (Z * Z * Z) := number_to_date date.

Definition Date_IsLeapYear (year : Z) : bool :=
  (Z.rem year 4 =? 0) && (negb (Z.rem year 100 =? 0) || (Z.rem year 400 =? 0)).

Definition Date_IsValidDay (year month day : Z) : bool :=
  if (month <? 1) || (12 <? month) then false
  else if day <? 1 then false
  else if (year <? YEAR_MIN) || (YEAR_MAX <? year) then false
  else if Date_IsLeapYear year then day <=? at_ LEAPDAYS month else day <=? at_ NORMALDAYS month.

(** The five extractions of [Date_FromString]. *)
Definition read_fields (cs : list byte) : option (Z * byte * Z * byte * Z) :=
  '(a, cs) ← read_int cs;
  '(sep, cs) ← read_char cs;
  '(b, cs) ← read_int cs;
  '(sep2, cs) ← read_char cs;
  '(c, cs) ← read_int cs;
  Some (a, sep, b, sep2, c).

Definition Date_FromString (str : list byte) : result Z :=
  match read_fields str with
  | None => Throw ConversionException
  | Some (year, sep, month, sep2, day) =>
      if negb (Date_IsValidDay year month day) || negb (sep =? sep2) || negb (sep =? 45)
      then Throw ConversionException
      else Date_FromDate year month day
  end.

Definition Date_ToString (date : Z) : result (list byte) :=
  '(year, month, day) ← number_to_date date;
  Ok (format_d 4 year ++ 45 :: format_d 2 month ++ 45 :: format_d 2 day).

Definition Date_Format (year month day : Z) : result (list byte) := Date_FromDate year month day ≫= Date_ToString.

Definition Date_EpochToDate (epoch : Z) : Z := int32_of (Z.quot epoch SECONDS_PER_DAY + EPOCH_DATE).

(** The product is computed in [int]. *)
Definition Date_Epoch (date : Z) : result Z :=
  let e := (date - EPOCH_DATE) * SECONDS_PER_DAY in
  if fits32 (date - EPOCH_DATE) && fits32 e then Ok e else Undef.

Definition Date_ExtractYear (date : Z) : result Z := '(y, m, d) ← Date_Convert date; Ok y.
Definition Date_ExtractMonth (date : Z) : result Z := '(y, m, d) ← Date_Convert date; Ok m.
Definition Date_ExtractDay (date : Z) : result Z := '(y, m, d) ← Date_Convert date; Ok d.

Definition Date_ExtractDayOfTheYear (date : Z) : result Z :=
  '(y, m, d) ← Date_Convert date;
  Ok (if 1 <=? m then d + (if Date_IsLeapYear y then at_ CUMLEAPDAYS (m - 1) else at_ CUMDAYS (m - 1))
      else d).

Definition Date_ExtractISODayOfTheWeek (date : Z) : Z :=
  if date <? 2 then Z.rem (date - 1) 7 + 7 else Z.rem (date - 2) 7 + 1.

(** Recursive at most once: in month 12 no day comes before the first week. *)
Fixpoint Date_GetWeek (fuel : nat) (year month day : Z) : result Z :=
  let day_of_the_year := (if leapyear year then at_ CUMLEAPDAYS month else at_ CUMDAYS month) + day in
  fourth ← Date_FromDate year 1 4;
  let day_of_the_fourth := Date_ExtractISODayOfTheWeek fourth in
  let first_day_of_the_first_week := if 4 <=? day_of_the_fourth then 0 else 5 - day_of_the_fourth in
  if day_of_the_year <? first_day_of_the_first_week then
    match fuel with O => Undef | S fuel' => Date_GetWeek fuel' (year - 1) 12 day end
  else Ok (Z.quot (day_of_the_year - first_day_of_the_first_week) 7 + 1).

Definition Date_ExtractWeekNumber (date : Z) : result Z :=
  '(year, month, day) ← Date_Convert date;
  Date_GetWeek 1 year (month - 1) (day - 1).

(** ** [class Time] *)

Definition TIME (h m s x : Z) : bool :=
  (0 <=? h) && (h <? 24) && (0 <=? m) && (m <? 60) && (0 <=? s) && (s <=? 60) && (0 <=? x) && (x <? 1000).

Definition time_to_number (hour min sec msec : Z) : result Z :=
  if negb (TIME hour min sec msec) then Throw GenericException
  else Ok ((((hour * 60) + min) * 60 + sec) * 1000 + msec).

Definition number_to_time (n : Z) : Z * Z * Z * Z :=
  let h := Z.quot n 3600000 in
  let n := n - h * 3600000 in
  let m := Z.quot n 60000 in
  let n := n - m * 60000 in
  let s := Z.quot n 1000 in
  let n := n - s * 1000 in
  (h, m, s, n).

Definition Time_FromTime (hour minute second : Z) : result Z := time_to_number hour minute second 0.

Definition Time_IsValidTime (hour minute second : Z) : bool := TIME hour minute second 0.

Definition Time_FromString (str : list byte) : result Z :=
  match read_fields str with
  | None => Throw ConversionException
  | Some (hour, sep, minute, sep2, second) =>
      if negb (Time_IsValidTime hour minute second) || negb (sep =? sep2) || negb (sep =? 58)
      then Throw ConversionException
      else Time_FromTime hour minute second
  end.

Definition Time_ToString (time : Z) : result (list byte) :=
  let '(hour, min, sec, msec) := number_to_time time in
  assert_ (msec =? 0) ≫= fun _ =>
  Ok (format_d 2 hour ++ 58 :: format_d 2 min ++ 58 :: format_d 2 sec).

Definition Time_Format (hour minute second : Z) : result (list byte) :=
  Time_FromTime hour minute second ≫= Time_ToString.

(** ** [class Timestamp] *)

(** [((int64_t)date << 32 | (int32_t)time)] *)
Definition Timestamp_pack (date time : Z) : Z := Z.lor (Z.shiftl date 32) time.

Definition Timestamp_GetDate (timestamp : Z) : Z := int32_of (Z.shiftr timestamp 32).

Definition Timestamp_GetTime (timestamp : Z) : Z := int32_of timestamp.

(** [str.substr(10)] of a shorter string throws [std::out_of_range]. *)
Definition Timestamp_FromString (str : list byte) : result Z :=
  date ← Date_FromString (take 10 str);
  time ← (if (length str <? 10)%nat then Throw OutOfRangeException else Time_FromString (drop 10 str));
  Ok (Timestamp_pack date time).

Definition Timestamp_ToString (timestamp : Z) : result (list byte) :=
  d ← Date_ToString (Timestamp_GetDate timestamp);
  t ← Time_ToString (Timestamp_GetTime timestamp);
  Ok (d ++ 84 :: t ++ [90]).

(** ** The calendar: years *)

(** The number of the first day of the (astronomical) year [y]. *)
Definition year_start (y : Z) : Z := 365 * y + leapyears (if 0 <=? y then y - 1 else y).

Lemma YEARDAYS_bounds y : 365 ≤ YEARDAYS y ≤ 366.
Proof. unfold YEARDAYS. destruct (leapyear y); lia. Qed.

Lemma leapyear_opp y : leapyear (- y) = leapyear y.
Proof. unfold leapyear. rewrite !Z.rem_opp_l by lia. lia. Qed.

(** The leap years among 0..y-1, for a non-negative [y]. *)
Definition leaps_before (y : Z) : Z := (y + 3) / 4 - (y + 99) / 100 + (y + 399) / 400.

Lemma leapyear_nonneg y :
  0 ≤ y → leapyear y = (y mod 4 =? 0) && (negb (y mod 100 =? 0) || (y mod 400 =? 0)).
Proof. intros Hy. unfold leapyear. by rewrite !Z.rem_mod_nonneg by lia. Qed.

Lemma leaps_before_succ y :
  0 ≤ y → leaps_before (y + 1) = leaps_before y + (if leapyear y then 1 else 0).
Proof.
  intros Hy. rewrite leapyear_nonneg by done. unfold leaps_before.
  destruct (Z.eqb_spec (y mod 4) 0), (Z.eqb_spec (y mod 100) 0), (Z.eqb_spec (y mod 400) 0);
    cbn [andb orb negb]; Z.to_euclidean_division_equations; lia.
Qed.

Lemma year_start_nonneg y : 0 ≤ y → year_start y = 365 * y + leaps_before y.
Proof.
  intros Hy. unfold year_start, leapyears, leaps_before. destruct (Z.leb_spec 0 y); [|lia].
  destruct (Z.leb_spec 0 (y - 1)).
  - rewrite !Z.quot_div_nonneg by lia. Z.to_euclidean_division_equations; lia.
  - assert (y = 0) as -> by lia. done.
Qed.

Lemma year_start_neg y : y < 0 → year_start y = 365 * y - (leaps_before (- y + 1) - 1).
Proof.
  intros Hy. unfold year_start, leapyears, leaps_before.
  assert ((0 <=? y) = false) as -> by lia. assert ((0 <=? y) = false) as -> by lia.
  assert (∀ c, 0 < c → Z.quot y c = - (- y / c)) as Hq.
  { intros c Hc. rewrite <- (Z.opp_involutive y) at 1. by rewrite Z.quot_opp_l, Z.quot_div_nonneg by lia. }
  rewrite !Hq by lia. Z.to_euclidean_division_equations; lia.
Qed.

Lemma year_start_succ y : year_start (y + 1) = year_start y + YEARDAYS y.
Proof.
  unfold YEARDAYS. destruct (Z.le_gt_cases 0 y) as [Hy|Hy].
  - rewrite !year_start_nonneg, leaps_before_succ by lia. destruct (leapyear y); lia.
  - rewrite (year_start_neg y) by lia. rewrite leaps_before_succ by lia. rewrite leapyear_opp.
    destruct (Z.eq_dec y (-1)) as [->|Hne]; [by vm_compute|].
    rewrite (year_start_neg (y + 1)) by lia.
    replace (- (y + 1) + 1) with (- y) by lia. destruct (leapyear y); lia.
Qed.

Lemma year_start_lt y z : y < z → year_start y + YEARDAYS y ≤ year_start z.
Proof.
  intros Hyz. rewrite <- year_start_succ.
  assert (∃ k, z = y + 1 + Z.of_nat k) as [k ->] by (exists (Z.to_nat (z - y - 1)); lia). clear Hyz.
  induction k as [|k IH]; [by rewrite Z.add_0_r|].
  replace (y + 1 + Z.of_nat (S k)) with (y + 1 + Z.of_nat k + 1) by lia.
  rewrite (year_start_succ (y + 1 + Z.of_nat k)). pose proof (YEARDAYS_bounds (y + 1 + Z.of_nat k)). lia.
Qed.

(** A day lies in exactly one year. *)
Lemma year_unique y d y' d' :
  year_start y + d = year_start y' + d' → 0 ≤ d < YEARDAYS y → 0 ≤ d' < YEARDAYS y' → y = y' ∧ d = d'.
Proof.
  intros E Hd Hd'. destruct (Z.lt_trichotomy y y') as [Hl|[->|Hl]]; [|lia|];
    apply year_start_lt in Hl; lia.
Qed.

Lemma years_up_spec fuel y d :
  - YEARDAYS y ≤ d → d < Z.of_nat fuel →
  ∃ y' d', years_up fuel y d = Ok (y', d') ∧
    year_start (y' + 1) + d' = year_start (y + 1) + d ∧ - YEARDAYS y' ≤ d' < 0.
Proof.
  revert y d. induction fuel as [|fuel IH]; intros y d Hd Hf; cbn [years_up].
  - destruct (Z.leb_spec 0 d); [lia|]. exists y, d. split_and!; done || lia.
  - destruct (Z.leb_spec 0 d); [|exists y, d; split_and!; done || lia]. pose proof (YEARDAYS_bounds (y + 1)).
    destruct (IH (y + 1) (d - YEARDAYS (y + 1))) as (y' & d' & -> & E & Hd'); [lia|lia|].
    exists y', d'. split_and!; [done| |lia|lia]. rewrite E, (year_start_succ (y + 1)). lia.
Qed.

Lemma years_down_spec fuel y d :
  d < YEARDAYS y → - d < Z.of_nat fuel →
  ∃ y' d', years_down fuel y d = Ok (y', d') ∧
    year_start y' + d' = year_start y + d ∧ 0 ≤ d' < YEARDAYS y'.
Proof.
  revert y d. induction fuel as [|fuel IH]; intros y d Hd Hf; cbn [years_down].
  - destruct (Z.ltb_spec d 0); [lia|]. exists y, d. split_and!; done || lia.
  - destruct (Z.ltb_spec d 0); [|exists y, d; split_and!; done || lia]. pose proof (YEARDAYS_bounds (y - 1)).
    destruct (IH (y - 1) (d + YEARDAYS (y - 1))) as (y' & d' & -> & E & Hd'); [lia|lia|].
    exists y', d'. split_and!; [done| |lia|lia]. rewrite E.
    pose proof (year_start_succ (y - 1)) as Hs. replace (y - 1 + 1) with y in Hs by lia. lia.
Qed.

(** ** The calendar: months *)

Definition cum_days (y : Z) : list Z := if leapyear y then CUMLEAPDAYS else CUMDAYS.

(** The month loop finds the month of the day [d] (counted from 0) of a year. *)
Lemma find_month_table cum :
  cum = CUMDAYS ∨ cum = CUMLEAPDAYS → ∀ d, 0 ≤ d < at_ cum 12 →
  let m := find_month 12 cum (d + 1) (if Z.quot (d + 1) 31 =? 0 then 1 else Z.quot (d + 1) 31) in
  1 ≤ m ≤ 12 ∧ at_ cum (m - 1) ≤ d < at_ cum m.
Proof.
  intros Hcum.
  assert (forallb (fun k =>
    let d := Z.of_nat k in
    let m := find_month 12 cum (d + 1) (if Z.quot (d + 1) 31 =? 0 then 1 else Z.quot (d + 1) 31) in
    (1 <=? m) && (m <=? 12) && (at_ cum (m - 1) <=? d) && (d <? at_ cum m))
    (seq 0 (Z.to_nat (at_ cum 12))) = true) as Hall by (destruct Hcum as [-> | ->]; by vm_compute).
  intros d Hd. rewrite forallb_forall in Hall. specialize (Hall (Z.to_nat d)).
  rewrite Z2Nat.id in Hall by lia. cbv zeta in *.
  enough (In (Z.to_nat d) (seq 0 (Z.to_nat (at_ cum 12)))) as Hin by (apply Hall in Hin; lia).
  apply in_seq. lia.
Qed.

(** The months of a year do not overlap. *)
Lemma month_table y :
  ∀ m, 1 ≤ m ≤ 12 →
  at_ (cum_days y) m = at_ (cum_days y) (m - 1) + MONTHDAYS m y ∧
  at_ (cum_days y) (m - 1) = at_ CUMDAYS (m - 1) + (if (2 <? m) && leapyear y then 1 else 0) ∧
  0 < MONTHDAYS m y.
Proof.
  unfold cum_days, MONTHDAYS. intros m Hm.
  assert (m = 1 ∨ m = 2 ∨ m = 3 ∨ m = 4 ∨ m = 5 ∨ m = 6 ∨ m = 7 ∨ m = 8 ∨ m = 9 ∨ m = 10 ∨ m = 11 ∨ m = 12)
    as Hcases by lia.
  destruct_or! Hcases; subst; destruct (leapyear y); by vm_compute.
Qed.

Lemma cum_days_lt y m m' :
  1 ≤ m → m < m' → m' ≤ 12 → at_ (cum_days y) m ≤ at_ (cum_days y) (m' - 1).
Proof.
  intros Hm Hlt Hm'. assert (∃ k, m' = m + 1 + Z.of_nat k) as [k ->] by (exists (Z.to_nat (m' - m - 1)); lia).
  clear Hlt. induction k as [|k IH]; [by replace (m + 1 + Z.of_nat 0 - 1) with m by lia|].
  etrans; [apply IH; lia|]. destruct (month_table y (m + 1 + Z.of_nat k)) as (E & _ & Hp); [lia|].
  replace (m + 1 + Z.of_nat (S k) - 1) with (m + 1 + Z.of_nat k) by lia. lia.
Qed.

Lemma cum_days_12 y : at_ (cum_days y) 12 = YEARDAYS y.
Proof. unfold cum_days, YEARDAYS. by destruct (leapyear y). Qed.

(** A day of a year lies in exactly one month. *)
Lemma month_unique y m d m' d' :
  1 ≤ m ≤ 12 → 1 ≤ m' ≤ 12 → 0 < d ≤ MONTHDAYS m y → 0 < d' ≤ MONTHDAYS m' y →
  at_ (cum_days y) (m - 1) + d = at_ (cum_days y) (m' - 1) + d' → m = m' ∧ d = d'.
Proof.
  intros Hm Hm' Hd Hd' E. destruct (month_table y m Hm) as [E1 _], (month_table y m' Hm') as [E2 _].
  destruct (Z.lt_trichotomy m m') as [Hl|[->|Hl]]; [|lia|].
  - pose proof (cum_days_lt y m m'). lia.
  - pose proof (cum_days_lt y m' m). lia.
Qed.

Lemma day_in_year y m d :
  1 ≤ m ≤ 12 → 0 < d ≤ MONTHDAYS m y → 0 ≤ at_ (cum_days y) (m - 1) + (d - 1) < YEARDAYS y.
Proof.
  intros Hm Hd. destruct (month_table y m Hm) as [E1 _]. rewrite <- cum_days_12. split.
  - destruct (Z.eq_dec m 1) as [->|]; [unfold cum_days; destruct (leapyear y); vm_compute at_; lia|].
    pose proof (cum_days_lt y 1 m). destruct (month_table y 1) as (E2 & _ & Hp); [lia|].
    assert (at_ (cum_days y) (1 - 1) = 0) by (unfold cum_days; by destruct (leapyear y)). lia.
  - destruct (Z.eq_dec m 12) as [->|]; [lia|]. pose proof (cum_days_lt y m 12).
    destruct (month_table y 12) as (E2 & _ & Hp); lia.
Qed.

(** ** Day numbers and dates *)

(** The sources print the astronomical year 0 as the year -1: there is no
    year 0 in a date. *)
Definition astro (y : Z) : Z := if y <? 0 then y + 1 else y.
Definition shown (y : Z) : Z := if y <=? 0 then y - 1 else y.

Definition day_number (y m d : Z) : Z := year_start y + (at_ (cum_days y) (m - 1) + (d - 1)).

(** A day of a month of the astronomical year [y]. *)
Definition real_day (y m d : Z) : Prop := 1 ≤ m ≤ 12 ∧ 0 < d ≤ MONTHDAYS m y.

Lemma astro_shown y : astro (shown y) = y.
Proof. unfold astro, shown. destruct (Z.leb_spec y 0); case_match; lia. Qed.

Lemma shown_astro y : y ≠ 0 → shown (astro y) = y.
Proof. unfold astro, shown. destruct (Z.ltb_spec y 0); case_match; lia. Qed.

Lemma day_number_unique y m d y' m' d' :
  real_day y m d → real_day y' m' d' → day_number y m d = day_number y' m' d' → y = y' ∧ m = m' ∧ d = d'.
Proof.
  intros [Hm Hd] [Hm' Hd'] E.
  destruct (year_unique _ _ _ _ E (day_in_year _ _ _ Hm Hd) (day_in_year _ _ _ Hm' Hd')) as [<- E'].
  destruct (month_unique y m d m' d' Hm Hm' Hd Hd'); [lia|done].
Qed.

(** Later dates have larger numbers. *)
Lemma day_number_lt y m d y' m' d' :
  real_day y m d → real_day y' m' d' →
  y < y' ∨ (y = y' ∧ (m < m' ∨ (m = m' ∧ d < d'))) → day_number y m d < day_number y' m' d'.
Proof.
  intros [Hm Hd] [Hm' Hd'] Hlt. unfold day_number.
  pose proof (day_in_year _ _ _ Hm Hd). pose proof (day_in_year _ _ _ Hm' Hd').
  destruct Hlt as [Hlt|[<- [Hlt|[<- Hlt]]]].
  - pose proof (year_start_lt _ _ Hlt). lia.
  - destruct (month_table y m Hm) as [E _]. pose proof (cum_days_lt y m m'). lia.
  - lia.
Qed.

(** The two [while] loops end in the year of the day. *)
Lemma year_loops n :
  let year := Z.quot n 365 in
  let day := (n - year * 365) - leapyears (if 0 <=? year then year - 1 else year) in
  let fuel := S (Z.to_nat (Z.abs day)) in
  ∃ y d, (if n <? 0 then
       '(year, day) ← years_up fuel (year - 1) day;
       Ok (year, YEARDAYS year + day)
     else years_down fuel year day) = Ok (y, d) ∧ n = year_start y + d ∧ 0 ≤ d < YEARDAYS y.
Proof.
  intros year day fuel.
  assert (year_start year + day = n) as E by (subst day; unfold year_start; lia).
  assert (day < Z.of_nat fuel ∧ - day < Z.of_nat fuel) as [Hf1 Hf2] by (subst fuel; lia).
  destruct (Z.ltb_spec n 0) as [Hn|Hn].
  - assert (365 * (year - 1) < n ≤ 365 * year ∧ year ≤ 0) as [Hb Hy]
      by (subst year; Z.to_euclidean_division_equations; lia).
    assert (year_start year ≤ 365 * year) as Hle.
    { destruct (Z.eq_dec year 0) as [->|]; [done|]. rewrite year_start_neg by lia.
      unfold leaps_before. Z.to_euclidean_division_equations; lia. }
    pose proof (YEARDAYS_bounds (year - 1)).
    destruct (years_up_spec fuel (year - 1) day) as (y & d & -> & E' & Hd); [lia|done|].
    replace (year - 1 + 1) with year in E' by lia. rewrite year_start_succ in E'.
    exists y, (YEARDAYS y + d). split_and!; [done|lia..].
  - assert (365 * year ≤ n < 365 * (year + 1) ∧ 0 ≤ year) as [Hb Hy]
      by (subst year; Z.to_euclidean_division_equations; lia).
    assert (365 * (year + 1) ≤ year_start (year + 1)) as Hle.
    { rewrite year_start_nonneg by lia. unfold leaps_before. Z.to_euclidean_division_equations; lia. }
    rewrite year_start_succ in Hle.
    destruct (years_down_spec fuel year day) as (y & d & -> & E' & Hd); [lia|done|].
    exists y, d. split_and!; [done|lia..].
Qed.

Lemma number_to_date_spec n :
  ∃ y m d, number_to_date n = Ok (shown y, m, d) ∧ real_day y m d ∧ n = day_number y m d.
Proof.
  unfold number_to_date. cbv zeta.
  destruct (year_loops n) as (y & d & Hl & -> & Hd). cbv zeta in Hl. rewrite Hl. clear Hl.
  cbn [mbind result_bind]. fold (cum_days y).
  destruct (find_month_table (cum_days y)) with (d := d) as [Hm Hr].
  { unfold cum_days. destruct (leapyear y); auto. }
  { by rewrite cum_days_12. }
  revert Hm Hr. generalize (find_month 12 (cum_days y) (d + 1)
    (if Z.quot (d + 1) 31 =? 0 then 1 else Z.quot (d + 1) 31)). intros m Hm Hr.
  destruct (month_table y m Hm) as [E _].
  exists y, m, (d + 1 - at_ (cum_days y) (m - 1)). split_and!; [reflexivity|split; [done|lia]|unfold day_number; lia].
Qed.

Lemma date_to_number_spec y m d :
  DATE d m y = true → date_to_number y m d = Ok (day_number (astro y) m d).
Proof.
  intros HD. unfold date_to_number. rewrite HD. cbn [negb]. cbv zeta. fold (astro y). fold (year_start (astro y)).
  destruct (month_table (astro y) m) as (_ & E & _); [unfold DATE in HD; lia|].
  unfold day_number. rewrite E. f_equal. destruct ((2 <? m) && leapyear (astro y)); lia.
Qed.

Lemma date_to_number_invalid y m d : DATE d m y = false → date_to_number y m d = Throw GenericException.
Proof. intros HD. unfold date_to_number. by rewrite HD. Qed.

Lemma year_start_range y : YEAR_MIN ≤ y ≤ YEAR_MAX → int32_min + 366 < year_start y < int32_max - 732.
Proof.
  intros Hy. pose proof (year_start_lt (YEAR_MIN - 1) y). pose proof (year_start_lt y (YEAR_MAX + 1)).
  pose proof (YEARDAYS_bounds y). pose proof (YEARDAYS_bounds (YEAR_MIN - 1)).
  assert (year_start (YEAR_MIN - 1) = -2143028227) as E1 by by vm_compute.
  assert (year_start (YEAR_MAX + 1) = 2143028227) as E2 by by vm_compute.
  unfold int32_min, int32_max. lia.
Qed.

(** ** Dates as text *)

Lemma read_fields_format w1 w2 w3 a b c s r :
  fits32 a = true → fits32 b = true → fits32 c = true → is_space s = false → is_digit s = false → no_digit r →
  read_fields (format_d w1 a ++ s :: format_d w2 b ++ s :: format_d w3 c ++ r) = Some (a, s, b, s, c).
Proof.
  intros Ha Hb Hc Hsp Hdg Hr. unfold read_fields.
  rewrite read_format by done. cbn [mbind option_bind]. rewrite read_char_cons by done.
  cbn [mbind option_bind]. rewrite read_format by done. cbn [mbind option_bind].
  rewrite read_char_cons by done. cbn [mbind option_bind]. by rewrite read_format.
Qed.

Lemma normal_days m : 1 ≤ m ≤ 12 → at_ NORMALDAYS m = if m =? 2 then 28 else at_ LEAPDAYS m.
Proof.
  intros Hm.
  assert (m = 1 ∨ m = 2 ∨ m = 3 ∨ m = 4 ∨ m = 5 ∨ m = 6 ∨ m = 7 ∨ m = 8 ∨ m = 9 ∨ m = 10 ∨ m = 11 ∨ m = 12)
    as Hcases by lia.
  destruct_or! Hcases; subst; by vm_compute.
Qed.

(** The two validity tests agree but for the year 0. *)
Lemma IsValidDay_DATE y m d : Date_IsValidDay y m d && negb (y =? 0) = DATE d m y.
Proof.
  unfold Date_IsValidDay, DATE, MONTHDAYS. fold (leapyear y). change (Date_IsLeapYear y) with (leapyear y).
  destruct (Z.ltb_spec m 1), (Z.ltb_spec 12 m), (Z.ltb_spec d 1), (Z.ltb_spec y YEAR_MIN),
    (Z.ltb_spec YEAR_MAX y); cbn [orb andb]; try lia.
  rewrite normal_days by lia.
  destruct (Z.eqb_spec m 2) as [->|]; [change (at_ LEAPDAYS 2) with 29|]; destruct (leapyear y); cbn [negb]; lia.
Qed.

Lemma DATE_valid y m d : DATE d m y = true → Date_IsValidDay y m d = true.
Proof. rewrite <- IsValidDay_DATE. intros [? _]%andb_prop. done. Qed.

(** A real day in the range of years with the year read as in the sources. *)
Lemma DATE_real y m d :
  0 < y → real_day y m d → y ≤ YEAR_MAX → DATE d m y = true.
Proof. intros Hy [Hm Hd] Hmax. unfold DATE, YEAR_MIN. lia. Qed.

Lemma real_DATE y m d : 0 < y → DATE d m y = true → real_day y m d.
Proof. intros Hy HD. unfold DATE in HD. unfold real_day. lia. Qed.

Lemma MONTHDAYS_31 m y : 1 ≤ m ≤ 12 → MONTHDAYS m y ≤ 31.
Proof.
  intros Hm. unfold MONTHDAYS.
  assert (m = 1 ∨ m = 2 ∨ m = 3 ∨ m = 4 ∨ m = 5 ∨ m = 6 ∨ m = 7 ∨ m = 8 ∨ m = 9 ∨ m = 10 ∨ m = 11 ∨ m = 12)
    as Hcases by lia.
  destruct_or! Hcases; subst; destruct (leapyear y); by vm_compute.
Qed.

(** The numbers of the days from 0001-01-01 to the end of the last year. *)
Definition ad_day (n : Z) : Prop := year_start 1 ≤ n < year_start (YEAR_MAX + 1).

Lemma ad_day_spec n :
  ad_day n → ∃ y m d, number_to_date n = Ok (y, m, d) ∧ DATE d m y = true ∧ 0 < y ∧ n = day_number y m d.
Proof.
  intros [Hlo Hhi]. destruct (number_to_date_spec n) as (y & m & d & E & [Hm Hd] & ->).
  pose proof (day_in_year _ _ _ Hm Hd). unfold day_number in *.
  assert (0 < y). { destruct (Z.le_gt_cases y 0); [|lia]. pose proof (year_start_lt y 1). lia. }
  assert (y ≤ YEAR_MAX).
  { destruct (Z.le_gt_cases y YEAR_MAX); [done|]. destruct (Z.eq_dec y (YEAR_MAX + 1)) as [->|]; [lia|].
    pose proof (year_start_lt (YEAR_MAX + 1) y). pose proof (YEARDAYS_bounds (YEAR_MAX + 1)). lia. }
  exists y, m, d. rewrite E. unfold shown. destruct (Z.leb_spec y 0); [lia|].
  split_and!; [done| |lia|done]. by apply DATE_real.
Qed.

Lemma date_to_number_ad n y m d :
  DATE d m y = true → 0 < y → n = day_number y m d → date_to_number y m d = Ok n.
Proof.
  intros HD Hy ->. rewrite date_to_number_spec by done. unfold astro. by destruct (Z.ltb_spec y 0); [lia|].
Qed.

Lemma FromString_Format y m d :
  DATE d m y = true →
  Date_FromString (format_d 4 y ++ 45 :: format_d 2 m ++ 45 :: format_d 2 d) = date_to_number y m d.
Proof.
  intros HD. assert (1 ≤ m ≤ 12 ∧ 0 < d ∧ d ≤ MONTHDAYS m y ∧ YEAR_MIN ≤ y ≤ YEAR_MAX) as (Hm & Hd & Hd' & Hy)
    by (unfold DATE in HD; lia).
  pose proof (MONTHDAYS_31 m y Hm). unfold Date_FromString, YEAR_MIN, YEAR_MAX in *.
  rewrite <- (app_nil_r (format_d 2 d)).
  rewrite read_fields_format; [|unfold fits32, int32_min, int32_max; lia..|done|done|done].
  by rewrite DATE_valid by done.
Qed.

Lemma weekday_mod n : Date_ExtractISODayOfTheWeek n = (n - 2) mod 7 + 1.
Proof.
  unfold Date_ExtractISODayOfTheWeek. destruct (Z.ltb_spec n 2);
    Z.to_euclidean_division_equations; lia.
Qed.

(** ** Weeks *)

Lemma cum_nonneg y m : 0 ≤ m ≤ 12 → 0 ≤ at_ (cum_days y) m ≤ YEARDAYS y.
Proof.
  intros Hm. rewrite <- cum_days_12. destruct (Z.eq_dec m 0) as [->|].
  { unfold cum_days. destruct (leapyear y); vm_compute; split; congruence. }
  pose proof (day_in_year y m 1) as H1. destruct (month_table y m) as (E & _ & Hp); [lia|].
  destruct (Z.eq_dec m 12) as [->|]; [lia|]. pose proof (cum_days_lt y m 12).
  destruct (month_table y 12) as (E' & _ & Hp'); lia.
Qed.

Lemma GetWeek_unfold fuel y m d :
  DATE 4 1 y = true →
  ∃ f, 0 ≤ f ≤ 4 ∧ Date_GetWeek fuel y m d =
    if at_ (cum_days y) m + d <? f then
      match fuel with O => Undef | S fuel' => Date_GetWeek fuel' (y - 1) 12 d end
    else Ok (Z.quot (at_ (cum_days y) m + d - f) 7 + 1).
Proof.
  intros HD. set (w := Date_ExtractISODayOfTheWeek (day_number (astro y) 1 4)).
  exists (if 4 <=? w then 0 else 5 - w). split.
  { assert (1 ≤ w ≤ 7) by (subst w; rewrite weekday_mod; Z.to_euclidean_division_equations; lia).
    destruct (Z.leb_spec 4 w); lia. }
  destruct fuel; cbn [Date_GetWeek]; unfold Date_FromDate; rewrite (date_to_number_spec y 1 4 HD);
    cbn [mbind result_bind]; fold w; unfold cum_days; by destruct (leapyear y).
Qed.

(** One recursive call is enough, and the week is one of 1..53. *)
Lemma GetWeek_total y m d :
  1 < y ≤ YEAR_MAX → real_day y m d → ∃ w, Date_GetWeek 1 y (m - 1) (d - 1) = Ok w ∧ 1 ≤ w ≤ 53.
Proof.
  intros Hy [Hm Hd]. assert (∀ y', 1 ≤ y' ≤ YEAR_MAX → DATE 4 1 y' = true) as HD.
  { intros y' Hy'. apply DATE_real; [lia| |lia]. unfold real_day, MONTHDAYS. simpl. vm_compute (at_ _ _). lia. }
  pose proof (day_in_year y m d Hm Hd). pose proof (YEARDAYS_bounds y). pose proof (YEARDAYS_bounds (y - 1)).
  destruct (GetWeek_unfold 1 y (m - 1) (d - 1)) as (f & Hf & ->); [apply HD; lia|].
  destruct (Z.ltb_spec (at_ (cum_days y) (m - 1) + (d - 1)) f) as [Hlt|Hge].
  - destruct (GetWeek_unfold 0 (y - 1) 12 (d - 1)) as (f' & Hf' & ->); [apply HD; lia|].
    pose proof (cum_nonneg y (m - 1)). rewrite cum_days_12.
    destruct (Z.ltb_spec (YEARDAYS (y - 1) + (d - 1)) f'); [lia|].
    eexists; split; [done|]. rewrite Z.quot_div_nonneg by lia. Z.to_euclidean_division_equations; lia.
  - eexists; split; [done|]. rewrite Z.quot_div_nonneg by lia. Z.to_euclidean_division_equations; lia.
Qed.

(** ** Seconds since 1970 *)

Lemma EpochToDate_Epoch n e : fits32 n = true → Date_Epoch n = Ok e → Date_EpochToDate e = n.
Proof.
  intros Hn. unfold Date_Epoch, Date_EpochToDate. destruct (fits32 _ && fits32 _); [|done].
  intros [= <-]. unfold SECONDS_PER_DAY. rewrite Z.quot_mul by done.
  replace (n - EPOCH_DATE + EPOCH_DATE) with n by lia. by apply int32_of_small.
Qed.

(** ** Times and timestamps *)

Lemma number_to_time_spec n :
  0 ≤ n → ∃ h m s x, number_to_time n = (h, m, s, x) ∧ n = ((h * 60 + m) * 60 + s) * 1000 + x ∧
    0 ≤ h ∧ 0 ≤ m < 60 ∧ 0 ≤ s < 60 ∧ 0 ≤ x < 1000.
Proof.
  intros Hn. unfold number_to_time. do 4 eexists. split; [reflexivity|].
  Z.to_euclidean_division_equations; lia.
Qed.

Lemma number_to_time_unique h m s x :
  0 ≤ h → 0 ≤ m < 60 → 0 ≤ s < 60 → 0 ≤ x < 1000 →
  number_to_time (((h * 60 + m) * 60 + s) * 1000 + x) = (h, m, s, x).
Proof.
  intros. destruct (number_to_time_spec (((h * 60 + m) * 60 + s) * 1000 + x))
    as (h' & m' & s' & x' & -> & E & ?); [lia|].
  assert (x = x' ∧ s = s' ∧ m = m' ∧ h = h') as (-> & -> & -> & ->) by lia. done.
Qed.

(** Parsing a printed time; a [Z] or anything else but a digit may follow. *)
Lemma Time_FromString_format h m s r :
  0 ≤ h < 24 → 0 ≤ m < 60 → 0 ≤ s < 60 → no_digit r →
  Time_FromString (format_d 2 h ++ 58 :: format_d 2 m ++ 58 :: format_d 2 s ++ r) =
    Ok (((h * 60 + m) * 60 + s) * 1000).
Proof.
  intros Hh Hm Hs Hr. unfold Time_FromString.
  rewrite read_fields_format; [|unfold fits32, int32_min, int32_max; lia..|done|done|done].
  assert (TIME h m s 0 = true) as HT by (unfold TIME; lia).
  unfold Time_IsValidTime, Time_FromTime, time_to_number. rewrite HT. cbn. f_equal. lia.
Qed.

Lemma pack_spec date time :
  0 ≤ time < 2 ^ 32 → Timestamp_pack date time = date * 2 ^ 32 + time.
Proof.
  intros Ht. unfold Timestamp_pack. rewrite Z.shiftl_mul_pow2 by lia.
  symmetry. apply Z.add_nocarry_lor. apply Z.bits_inj'. intros k Hk.
  rewrite Z.land_spec, Z.bits_0, Z.mul_pow2_bits by lia.
  destruct (Z.lt_ge_cases k 32) as [Hlt|Hge].
  - by rewrite Z.testbit_neg_r by lia.
  - destruct (Z.eq_dec time 0) as [->|]; [by rewrite Z.bits_0, andb_false_r|].
    assert (Z.log2 time < k) as Hlog.
    { apply Z.log2_lt_pow2; [lia|]. eapply Z.lt_le_trans; [apply Ht|]. apply Z.pow_le_mono_r; lia. }
    rewrite (Z.bits_above_log2 time) by lia. by rewrite andb_false_r.
Qed.

Lemma GetDate_pack date time :
  fits32 date = true → 0 ≤ time < 2 ^ 32 → Timestamp_GetDate (Timestamp_pack date time) = date.
Proof.
  intros Hd Ht. unfold Timestamp_GetDate. rewrite pack_spec by done. rewrite Z.shiftr_div_pow2 by lia.
  rewrite Z.div_add_l, Z.div_small by lia. rewrite Z.add_0_r. by apply int32_of_small.
Qed.

Lemma GetTime_pack date time : 0 ≤ time < 2 ^ 31 → Timestamp_GetTime (Timestamp_pack date time) = time.
Proof.
  intros Ht. unfold Timestamp_GetTime, int32_of. rewrite pack_spec by lia.
  replace (date * 2 ^ 32 + time + 2 ^ 31) with (time + 2 ^ 31 + date * 2 ^ 32) by lia.
  rewrite Z.mod_add, Z.mod_small by lia. lia.
Qed.

Lemma Time_ToString_spec t :
  0 ≤ t < 86400000 → t mod 1000 = 0 →
  ∃ h m s, 0 ≤ h < 24 ∧ 0 ≤ m < 60 ∧ 0 ≤ s < 60 ∧ ((h * 60 + m) * 60 + s) * 1000 = t ∧
    Time_ToString t = Ok (format_d 2 h ++ 58 :: format_d 2 m ++ 58 :: format_d 2 s).
Proof.
  intros Ht Hms. destruct (number_to_time_spec t) as (h & m & s & x & E & Hn & Hh & Hm & Hs & Hx); [lia|].
  assert (x = 0) as -> by (Z.to_euclidean_division_equations; lia).
  exists h, m, s. split_and!; try lia. unfold Time_ToString. by rewrite E.
Qed.

Lemma Date_ToString_spec n :
  ad_day n → ∃ y m d, DATE d m y = true ∧ 0 < y ∧ n = day_number y m d ∧
    Date_ToString n = Ok (format_d 4 y ++ 45 :: format_d 2 m ++ 45 :: format_d 2 d).
Proof.
  intros Hn. destruct (ad_day_spec n Hn) as (y & m & d & E & HD & Hy & ->).
  exists y, m, d. split_and!; try done. unfold Date_ToString. by rewrite E.
Qed.

(** Dates up to 9999-12-31 are ten characters. *)
Lemma Date_ToString_length y m d :
  0 < y ≤ 9999 → 1 ≤ m ≤ 12 → 0 < d ≤ 31 →
  length (format_d 4 y ++ 45 :: format_d 2 m ++ 45 :: format_d 2 d) = 10%nat.
Proof.
  intros Hy Hm Hd. rewrite length_app. cbn [length]. rewrite length_app. cbn [length].
  rewrite !format_d_length by lia. done.
Qed.

Lemma Timestamp_FromString_spec n t y m d tail :
  DATE d m y = true → 0 < y ≤ 9999 → n = day_number y m d → Time_FromString tail = Ok t →
  Timestamp_FromString ((format_d 4 y ++ 45 :: format_d 2 m ++ 45 :: format_d 2 d) ++ tail) =
    Ok (Timestamp_pack n t).
Proof.
  intros HD Hy Hn Ht. assert (1 ≤ m ≤ 12 ∧ 0 < d ≤ MONTHDAYS m y) as [Hm Hd] by (unfold DATE in HD; lia).
  pose proof (MONTHDAYS_31 m y Hm). pose proof (Date_ToString_length y m d Hy Hm ltac:(lia)) as Hlen.
  pose proof (FromString_Format y m d HD) as Hf.
  revert Hlen Hf. generalize (format_d 4 y ++ 45 :: format_d 2 m ++ 45 :: format_d 2 d). intros ds Hlen Hf.
  unfold Timestamp_FromString. rewrite take_app_length', drop_app_length' by done.
  rewrite Hf, (date_to_number_ad n) by (done || lia). cbn [mbind result_bind].
  rewrite length_app. destruct (Nat.ltb_spec (length ds + length tail) 10); [lia|]. by rewrite Ht.
Qed.

Lemma Time_FromString_blank cs : Time_FromString (32 :: cs) = Time_FromString cs.
Proof. done. Qed.

Lemma Time_FromString_T cs : Time_FromString (84 :: cs) = Throw ConversionException.
Proof. done. Qed.

(** ** The calendar is right *)

(** C37. For every day number, the loops of [number_to_date] end and yield a
    day that exists in that month of that year; the number is the number of
    that day, so no two numbers print as the same date. *)
Theorem convert_total n :
  ∃ y m d, Date_Convert n = Ok (shown y, m, d) ∧ real_day y m d ∧ n = day_number y m d.
Proof. apply number_to_date_spec. Qed.

(** C38. From the year 1 to [YEAR_MAX], dates and day numbers are in bijection:
    a valid date has an [int32_t] number that converts back to it, and a
    number in the range converts to a valid date with that number. *)
Theorem calendar_bijection :
  (∀ y m d, 0 < y → DATE d m y = true →
     ∃ n, Date_FromDate y m d = Ok n ∧ fits32 n = true ∧ ad_day n ∧ Date_Convert n = Ok (y, m, d)) ∧
  (∀ n, ad_day n →
     ∃ y m d, Date_Convert n = Ok (y, m, d) ∧ DATE d m y = true ∧ 0 < y ∧ Date_FromDate y m d = Ok n).
Proof.
  split.
  - intros y m d Hy HD. pose proof (real_DATE y m d Hy HD) as Hr.
    exists (day_number y m d).
    assert (ad_day (day_number y m d)) as Had.
    { pose proof Hr as [Hm Hd]. pose proof (day_in_year _ _ _ Hm Hd). unfold ad_day, day_number.
      assert (y ≤ YEAR_MAX) by (unfold DATE in HD; lia). pose proof (year_start_lt y (YEAR_MAX + 1)).
      destruct (Z.eq_dec y 1) as [->|]; [lia|]. pose proof (year_start_lt 1 y).
      pose proof (YEARDAYS_bounds 1). lia. }
    split_and!; [by apply date_to_number_ad| |done|].
    + unfold ad_day in Had. pose proof (year_start_range 1). pose proof (year_start_range YEAR_MAX).
      rewrite year_start_succ in Had. pose proof (YEARDAYS_bounds YEAR_MAX).
      unfold YEAR_MIN, YEAR_MAX, fits32 in *. lia.
    + unfold Date_Convert. destruct (number_to_date_spec (day_number y m d)) as (y' & m' & d' & -> & Hr' & E).
      destruct (day_number_unique _ _ _ _ _ _ Hr Hr' E) as (<- & <- & <-).
      unfold shown. by destruct (Z.leb_spec y 0); [lia|].
  - intros n Hn. destruct (ad_day_spec n Hn) as (y & m & d & E & HD & Hy & Hnum).
    exists y, m, d. split_and!; [done..|]. by apply date_to_number_ad.
Qed.

(** The comparison of [date_t] values is the comparison of the dates: if
    two valid dates compare as (year, month, day), their numbers do. *)
Theorem calendar_order y m d y' m' d' n n' :
  0 < y → 0 < y' → Date_FromDate y m d = Ok n → Date_FromDate y' m' d' = Ok n' →
  (n < n' ↔ y < y' ∨ (y = y' ∧ (m < m' ∨ (m = m' ∧ d < d')))).
Proof.
  intros Hy Hy' E E'. unfold Date_FromDate in *.
  destruct (DATE d m y) eqn:HD; [|by rewrite date_to_number_invalid in E].
  destruct (DATE d' m' y') eqn:HD'; [|by rewrite date_to_number_invalid in E'].
  rewrite (date_to_number_ad (day_number y m d)) in E by done.
  rewrite (date_to_number_ad (day_number y' m' d')) in E' by done. simplify_eq.
  apply real_DATE in HD, HD'; [|done..]. split; [|by apply day_number_lt].
  intros Hlt. destruct (decide (y < y' ∨ (y = y' ∧ (m < m' ∨ (m = m' ∧ d < d'))))) as [|Hn]; [done|].
  destruct (decide (y = y' ∧ m = m' ∧ d = d')) as [(-> & -> & ->)|Hne]; [lia|].
  pose proof (day_number_lt y' m' d' y m d HD' HD). lia.
Qed.

Lemma calendar_order_witness :
  Date_FromDate 2019 2 28 = Ok 737483 ∧ Date_FromDate 2019 3 1 = Ok 737484 ∧
  (737483 < 737484 ↔ 2019 < 2019 ∨ (2019 = 2019 ∧ (2 < 3 ∨ (2 = 3 ∧ 28 < 1)))).
Proof.
  assert (Date_FromDate 2019 2 28 = Ok 737483) as E by (vm_compute; reflexivity).
  assert (Date_FromDate 2019 3 1 = Ok 737484) as E' by (vm_compute; reflexivity).
  split; [exact E|split; [exact E'|]]. apply (calendar_order 2019 2 28 2019 3 1); [lia|lia|exact E|exact E'].
Defined.

(** Printing a date and reading it back gives the date. *)
Theorem date_text_roundtrip n : ad_day n → Date_ToString n ≫= Date_FromString = Ok n.
Proof.
  intros Hn. destruct (Date_ToString_spec n Hn) as (y & m & d & HD & Hy & -> & ->).
  cbn [mbind result_bind]. rewrite FromString_Format by done. by apply date_to_number_ad.
Qed.

Lemma date_text_roundtrip_witness : Date_ToString 737483 ≫= Date_FromString = Ok 737483.
Proof. apply date_text_roundtrip. vm_compute. split; congruence. Defined.

(** Days of the week follow each other from Monday (1) to Sunday (7), over
    the whole range of dates, and 1970-01-01 is a Thursday. *)
Theorem weekday_succ n :
  1 ≤ Date_ExtractISODayOfTheWeek n ≤ 7 ∧
  Date_ExtractISODayOfTheWeek (n + 1) =
    (if Date_ExtractISODayOfTheWeek n =? 7 then 1 else Date_ExtractISODayOfTheWeek n + 1) ∧
  Date_ExtractISODayOfTheWeek EPOCH_DATE = 4.
Proof.
  rewrite !weekday_mod. split_and!; [Z.to_euclidean_division_equations; lia..| |done].
  destruct (Z.eqb_spec ((n - 2) mod 7 + 1) 7); Z.to_euclidean_division_equations; lia.
Qed.

(** From the year 2 on, the week number of every date is computed with at
    most one recursive call of [GetWeek] and lies between 1 and 53. *)
Theorem week_number_total n :
  year_start 2 ≤ n < year_start (YEAR_MAX + 1) → ∃ w, Date_ExtractWeekNumber n = Ok w ∧ 1 ≤ w ≤ 53.
Proof.
  intros Hn. assert (ad_day n) as Had. { pose proof (year_start_lt 1 2). pose proof (YEARDAYS_bounds 1). unfold ad_day. lia. }
  destruct (ad_day_spec n Had) as (y & m & d & E & HD & Hy & ->).
  pose proof (real_DATE _ _ _ Hy HD) as [Hm Hd]. pose proof (day_in_year _ _ _ Hm Hd).
  assert (1 < y). { destruct (Z.eq_dec y 1) as [->|]; [|lia]. pose proof (year_start_lt 1 2).
    unfold day_number in Hn. lia. }
  unfold Date_ExtractWeekNumber, Date_Convert. rewrite E. cbn [mbind result_bind].
  apply GetWeek_total; [unfold DATE in HD; lia|done].
Qed.

Lemma week_number_total_witness : ∃ w, Date_ExtractWeekNumber 737483 = Ok w ∧ 1 ≤ w ≤ 53.
Proof. apply week_number_total. vm_compute. split; congruence. Defined.



(** [Date::Epoch] is only defined within 24855 days (68 years) of
    1970-01-01, where [EpochToDate] inverts it: the product is computed in
    32 bits although the result has 64. *)
Theorem epoch_range n :
  fits32 n = true →
  (Z.abs (n - EPOCH_DATE) ≤ 24855 → ∃ e, Date_Epoch n = Ok e ∧ Date_EpochToDate e = n) ∧
  (24855 < Z.abs (n - EPOCH_DATE) → Date_Epoch n = Undef).
Proof.
  intros Hn. split; intros Hd.
  - assert (Date_Epoch n = Ok ((n - EPOCH_DATE) * SECONDS_PER_DAY)) as E.
    { unfold Date_Epoch.
      assert (fits32 (n - EPOCH_DATE) = true) as -> by (unfold fits32, int32_min, int32_max; lia).
      assert (fits32 ((n - EPOCH_DATE) * SECONDS_PER_DAY) = true) as ->
        by (unfold fits32, int32_min, int32_max, SECONDS_PER_DAY; lia). done. }
    eexists; split; [exact E|]. by apply EpochToDate_Epoch.
  - unfold Date_Epoch.
    assert (fits32 ((n - EPOCH_DATE) * SECONDS_PER_DAY) = false) as ->
      by (unfold fits32, int32_min, int32_max, SECONDS_PER_DAY; lia). by rewrite andb_false_r.
Qed.

Lemma epoch_range_witness :
  (Z.abs (743000 - EPOCH_DATE) ≤ 24855 → ∃ e, Date_Epoch 743000 = Ok e ∧ Date_EpochToDate e = 743000) ∧
  (24855 < Z.abs (743000 - EPOCH_DATE) → Date_Epoch 743000 = Undef).
Proof. apply epoch_range. vm_compute. reflexivity. Defined.

(** ** Where the functions leave the calendar *)

Module DateSurprises.

(** The text of a timestamp is never read back: after the date comes [T],
    which the extraction of the hour refuses. *)
Lemma timestamp_text_rejected ts cs :
  Timestamp_ToString ts = Ok cs → year_start 1 ≤ Timestamp_GetDate ts < year_start 10000 →
  Timestamp_FromString cs = Throw ConversionException.
Proof.
  unfold Timestamp_ToString. intros E Hn.
  assert (ad_day (Timestamp_GetDate ts)) as Had.
  { unfold ad_day. change (year_start (YEAR_MAX + 1)) with 2143028227.
    change (year_start 10000) with 3652425 in Hn. lia. }
  destruct (Date_ToString_spec _ Had) as (y & m & d & HD & Hy & En & Hds). rewrite Hds in E. cbn [mbind result_bind] in E.
  destruct (Time_ToString _) as [t| |]; simplify_eq/=.
  pose proof (real_DATE _ _ _ Hy HD) as [Hm Hd]. pose proof (MONTHDAYS_31 m y Hm).
  pose proof (day_in_year _ _ _ Hm Hd). rewrite En in Hn. unfold day_number in Hn.
  assert (y ≤ 9999).
  { destruct (Z.le_gt_cases y 9999); [done|]. destruct (Z.eq_dec y 10000) as [->|]; [lia|].
    pose proof (year_start_lt 10000 y). pose proof (YEARDAYS_bounds 10000). lia. }
  pose proof (Date_ToString_length y m d ltac:(lia) Hm ltac:(lia)) as Hlen.
  pose proof (FromString_Format y m d HD) as Hf.
  revert Hlen Hf. generalize (format_d 4 y ++ 45 :: format_d 2 m ++ 45 :: format_d 2 d). intros ds Hlen Hf.
  unfold Timestamp_FromString. rewrite take_app_length', drop_app_length' by done.
  rewrite Hf, date_to_number_spec by done. cbn [mbind result_bind]. rewrite length_app.
  by destruct (Nat.ltb_spec (length ds + length (84 :: t ++ [90])) 10); [lia|].
Qed.

(** Monday 2010-01-04 is the first day of the first week of 2010; the code
    says week 53.  2019-01-07 is in the second week; the code says 1. *)
Lemma week_of_january_4 :
  (Date_FromDate 2010 1 4 ≫= Date_ExtractWeekNumber) = Ok 53 ∧
  (Date_ExtractISODayOfTheWeek <$> match Date_FromDate 2010 1 4 with Ok n => [n] | _ => [] end) = [1] ∧
  (Date_FromDate 2019 1 7 ≫= Date_ExtractWeekNumber) = Ok 1.
Proof. vm_compute. auto. Qed.

(** 0000-01-01 passes [IsValidDay] and then fails with a plain exception
    instead of the conversion error of [FromString]. *)
Lemma year_zero_passes_validation :
  Date_IsValidDay 0 1 1 = true ∧ Date_FromString (string_bytes "0000-01-01") = Throw GenericException ∧
  Date_FromString (string_bytes "2019-02-29") = Throw ConversionException.
Proof. vm_compute. auto. Qed.

(** Before the year 1 the leap year test is made on the printed year, which
    is off by one: -4-02-29 is accepted and is -4-03-01, the leap day that
    does exist, -1-02-29, is refused. *)
Lemma leap_day_before_christ :
  (Date_FromDate (-4) 2 29 ≫= Date_Convert) = Ok (-4, 3, 1) ∧
  Date_Convert 59 = Ok (-1, 2, 29) ∧ Date_FromDate (-1) 2 29 = Throw GenericException.
Proof. vm_compute. auto. Qed.

(** 23:59:60 is a valid time that prints as a text that is not one. *)
Lemma leap_second_not_read_back :
  (Time_FromString (string_bytes "23:59:60") ≫= Time_ToString) = Ok (string_bytes "24:00:00") ∧
  Time_FromString (string_bytes "24:00:00") = Throw ConversionException.
Proof. vm_compute. auto. Qed.

(** One second before 1970 is converted to 1970-01-01. *)
Lemma negative_epoch_rounds_up : Date_Convert (Date_EpochToDate (-1)) = Ok (1970, 1, 1).
Proof. by vm_compute. Qed.

End DateSurprises.
