(* ===== verification/KeyTuples.v ===== *)
(** * Key tuples: serialization from chunks and comparison

    The rest of [src/src/common/types/tuple.cpp], as the unique indexes use it:
    [TupleSerializer::Serialize] of a data chunk, [SerializeUpdate],
    [TupleSerializer::Compare] and [TupleComparer]. *)

From Stdlib Require Import ZArith Lia.
From stdpp Require Import base gmap list strings option numbers sorting.
From S2P Require Import Prelude Types Vector Tuple Serializer.

(** ** memcmp and strcmp *)

Fixpoint lex_compare (l k : list Z) : comparison :=
  match l, k with
  | [], [] => Eq
  | [], _ => Lt
  | _, [] => Gt
  | a :: l', b :: k' => match (a ?= b)%Z with Eq => lex_compare l' k' | c => c end
  end.

(** [memcmp(a, b, size)] of two fixed-width elements. *)
Definition memcmp_cell (a b : cell) (size : nat) : result comparison :=
  match a, b with
  | Num n x, Num m y =>
    if (n =? size) && (m =? size) then Ok (lex_compare (le_bytes n x) (le_bytes m y)) else Undef
  | _, _ => Undef
  end.

(** [strcmp] of two [char*] elements; a null pointer is undefined. *)
Definition strcmp_cell (a b : cell) : result comparison :=
  match a, b with
  | Str (Some s), Str (Some t) => Ok (lex_compare (string_bytes s) (string_bytes t))
  | _, _ => Undef
  end.

(** ** [TupleSerializer::Compare] *)

(** The bytes of a block of fixed-width elements. *)
Definition block_bytes (t : tuple) : result (list byte) :=
  bs ← mapM (fun c => match c with Num n z => Ok (le_bytes n z) | Str _ => Undef end) t;
  mret (concat bs).

Fixpoint compare_columns (is_variable : list bool) (type_sizes : list nat) (a b : tuple) (pos : nat)
    : result comparison :=
  match is_variable, type_sizes with
  | v :: is_variable', type_size :: type_sizes' =>
    x ← deref (cell_at a pos);
    y ← deref (cell_at b pos);
    cmp ← (if v : bool then strcmp_cell x y else memcmp_cell x y type_size);
    match cmp with
    | Eq => compare_columns is_variable' type_sizes' a b (pos + type_size)
    | _ => Ok cmp
    end
  | _, _ => Ok Eq
  end.

Definition Tuple_Compare (s : TupleSerializer) (a b : tuple) : result comparison :=
  if negb (ts_has_variable_columns s) then
    x ← block_bytes a;
    y ← block_bytes b;
    _ ← assert_ ((length x =? ts_base_size s) && (length y =? ts_base_size s));
    Ok (lex_compare x y)
  else compare_columns (ts_is_variable s) (ts_type_sizes s) a b 0.

(** ** [TupleComparer] *)

Record TupleComparer : Type := mkTupleComparer {
  tcmp_left : TupleSerializer;
  left_offsets : list nat;
  right_offsets : list nat }.

(** The offset of the column [c] in the blocks of the right serializer. *)
Fixpoint find_offset (c : nat) (ty : TypeId) (columns : list nat) (types : list TypeId) (sizes : list nat)
    (right_offset : nat) : result nat :=
  match columns, types, sizes with
  | c' :: columns', ty' :: types', sz :: sizes' =>
    if c =? c' then _ ← assert_ (bool_decide (ty = ty')); Ok right_offset
    else find_offset c ty columns' types' sizes' (right_offset + sz)
  | _, _, _ => Undef
  end.

Fixpoint comparer_offsets (right : TupleSerializer) (columns : list nat) (types : list TypeId)
    (sizes : list nat) (left_offset : nat) : result (list (nat * nat)) :=
  match columns, types, sizes with
  | c :: columns', ty :: types', sz :: sizes' =>
    r ← find_offset c ty (ts_columns right) (ts_types right) (ts_type_sizes right) 0;
    rest ← comparer_offsets right columns' types' sizes' (left_offset + sz);
    Ok ((left_offset, r) :: rest)
  | _, _, _ => Ok []
  end.

Definition NewTupleComparer (left right : TupleSerializer) : result TupleComparer :=
  _ ← assert_ (length (ts_columns left) <=? length (ts_columns right));
  offs ← comparer_offsets right (ts_columns left) (ts_types left) (ts_type_sizes left) 0;
  Ok (mkTupleComparer left offs.*1 offs.*2).

Fixpoint comparer_loop (is_variable : list bool) (sizes lefts rights : list nat) (l r : tuple)
    : result comparison :=
  match lefts, rights, is_variable, sizes with
  | lo :: lefts', ro :: rights', v :: is_variable', size :: sizes' =>
    x ← deref (cell_at l lo);
    y ← deref (cell_at r ro);
    cmp ← (if v : bool then strcmp_cell x y else memcmp_cell x y size);
    match cmp with
    | Eq => comparer_loop is_variable' sizes' lefts' rights' l r
    | _ => Ok cmp
    end
  | _, _, _, _ => Ok Eq
  end.

Definition TupleComparer_Compare (c : TupleComparer) (l r : tuple) : result comparison :=
  comparer_loop (ts_is_variable (tcmp_left c)) (ts_type_sizes (tcmp_left c))
    (left_offsets c) (right_offsets c) l r.

(** ** Serializing the rows of a chunk *)

Definition SerializeValue (v : Vector) (i : nat) : result cell :=
  if bool_decide (i ∈ v_null v) then SetNullValue (v_type v) else deref (v_data v !! i).

(** The cells one column contributes to the tuples. *)
Definition SerializeColumn (s : TupleSerializer) (chunk : DataChunk) (column_index : nat) : result (list cell) :=
  column ← deref (ts_columns s !! column_index);
  v ← deref (dc_data chunk !! column);
  ty ← deref (ts_types s !! column_index);
  _ ← assert_ (bool_decide (ty = v_type v));
  mapM (fun ik => SerializeValue v ik.1) (Exec v 0 0).

(** The [k]-th tuple made of the [k]-th cells of the columns. *)
Definition row_of (cols : list (list cell)) (k : nat) : tuple := omap (fun col => col !! k) cols.

(** [Serialize(chunk, targets)] *)
Definition Serialize_chunk (s : TupleSerializer) (chunk : DataChunk) : result (list tuple) :=
  cols ← mapM (SerializeColumn s chunk) (seq 0 (length (ts_columns s)));
  Ok (row_of cols <$> seq 0 (chunk_size chunk)).

(** One column of [SerializeUpdate]: from the base table where the column is
    not updated ([None]), from the update chunk where it is. *)
Definition update_cell (column_data : list column) (column : nat) (update_column : option nat)
    (update_chunk : DataChunk) (index_vector : Vector) (index_offset j : nat) : result cell :=
  match update_column with
  | None =>
    c ← deref (v_data index_vector !! sel_at (v_sel index_vector) j);
    match c with
    | Num _ z =>
      col ← deref (column_data !! column);
      if (z <? Z.of_nat index_offset)%Z then Undef
      else deref ((col : Tuple.column) !! (Z.to_nat z - index_offset))
    | Str _ => Undef
    end
  | Some u =>
    v ← deref (dc_data update_chunk !! u);
    deref (v_data v !! sel_at (dc_sel update_chunk) j)
  end.

Definition SerializeUpdate (s : TupleSerializer) (column_data : list column) (affected_columns : list (option nat))
    (update_chunk : DataChunk) (index_vector : Vector) (index_offset : nat) : result (list tuple) :=
  _ ← assert_ (v_count index_vector =? chunk_size update_chunk);
  mapM (fun j =>
    mapM (fun cu => update_cell column_data cu.1 cu.2 update_chunk index_vector index_offset j)
      (zip (ts_columns s) affected_columns))
    (seq 0 (v_count index_vector)).

(** ** Lexicographic order *)

Lemma lex_refl l : lex_compare l l = Eq.
Proof. induction l as [|a l IH]; simpl; [done|]. by rewrite Z.compare_refl. Qed.

Lemma lex_eq l k : lex_compare l k = Eq → l = k.
Proof.
  revert k. induction l as [|a l IH]; intros [|b k]; simpl; try done.
  destruct (Z.compare_spec a b); try done. intros. f_equal; auto.
Qed.

Lemma lex_antisym l k : lex_compare k l = CompOpp (lex_compare l k).
Proof.
  revert k. induction l as [|a l IH]; intros [|b k]; simpl; try done.
  rewrite (Z.compare_antisym a b). destruct (a ?= b)%Z; simpl; auto.
Qed.

Lemma lex_trans l k m : lex_compare l k = Lt → lex_compare k m = Lt → lex_compare l m = Lt.
Proof.
  revert k m. induction l as [|a l IH]; intros [|b k] [|c m]; simpl; try done.
  destruct (Z.compare_spec a b) as [->|Hab|Hab]; [|intros _|done].
  - destruct (b ?= c)%Z; eauto.
  - destruct (Z.compare_spec b c) as [->|Hbc|Hbc]; [|intros _|done].
    + apply Z.compare_lt_iff in Hab as ->. done.
    + assert ((a ?= c) = Lt)%Z as -> by (apply Z.compare_lt_iff; lia). done.
Qed.

Lemma lex_app l k l' k' :
  length l = length k →
  lex_compare (l ++ l') (k ++ k') = match lex_compare l k with Eq => lex_compare l' k' | c => c end.
Proof.
  revert k. induction l as [|a l IH]; intros [|b k] Hlen; simplify_eq/=; [done|].
  destruct (a ?= b)%Z; auto.
Qed.

(** A terminator smaller than every character makes [strcmp] lexicographic
    on what follows. *)
Lemma lex_terminated l k l' k' :
  Forall (fun c => 0 ≤ c)%Z l → Forall (fun c => 0 ≤ c)%Z k →
  lex_compare ((l ++ [-1]) ++ l')%Z ((k ++ [-1]) ++ k')%Z =
  match lex_compare l k with Eq => lex_compare l' k' | c => c end.
Proof.
  intros Hl. revert k. induction Hl as [|a l Ha Hl IH]; intros k Hk.
  - destruct Hk as [|b k Hb Hk]; cbn [lex_compare app]; [by rewrite Z.compare_refl|].
    destruct (Z.compare_spec (-1) b); [lia|done|lia].
  - destruct Hk as [|b k Hb Hk]; cbn [lex_compare app]; [destruct (Z.compare_spec a (-1)); [lia|lia|done]|].
    destruct (a ?= b)%Z; [by apply IH|done|done].
Qed.

(** ** The order of the keys *)

(** A key as a list of numbers whose lexicographic order is the order of the
    index. *)
Definition enc_cell (c : cell) : list Z :=
  match c with Num n z => le_bytes n z | Str (Some s) => string_bytes s ++ [-1]%Z | Str None => [] end.
Definition enc (t : tuple) : list Z := concat (enc_cell <$> t).

Lemma string_bytes_nonneg s : Forall (fun c => 0 ≤ c)%Z (string_bytes s).
Proof.
  unfold string_bytes. apply Forall_fmap, Forall_forall. intros a _. unfold byte_of_ascii. simpl. lia.
Qed.

(** The comparison of one element. *)
Definition compare_cell (v : bool) (x y : cell) (size : nat) : result comparison :=
  if v then strcmp_cell x y else memcmp_cell x y size.

Lemma compare_cell_spec ty x y size :
  cell_has_type ty x = true → cell_has_type ty y = true → GetTypeIdSize ty = Ok size → ty ≠ T_VARBINARY →
  ∃ c, compare_cell (negb (TypeIsConstantSize ty)) x y size = Ok c ∧
    ∀ l k, lex_compare (enc_cell x ++ l) (enc_cell y ++ k) =
      match c with Eq => lex_compare l k | Lt => Lt | Gt => Gt end.
Proof.
  intros Hx Hy Hsz Hnb. pose proof (cell_has_type_size _ _ Hx) as Hsx. pose proof (cell_has_type_size _ _ Hy) as Hsy.
  destruct x as [n x|[s|]], y as [m y|[t|]]; try done; simpl in Hx, Hy.
  - assert (TypeIsConstantSize ty = true) as -> by (by destruct ty). simpl in *.
    assert (n = size ∧ m = size) as [-> ->] by (split; congruence). rewrite Nat.eqb_refl. simpl.
    eexists; split; [done|]. intros l k. apply lex_app. by rewrite !le_bytes_length.
  - apply bool_decide_eq_true_1 in Hy as ->. done.
  - apply bool_decide_eq_true_1 in Hx as ->. done.
  - apply bool_decide_eq_true_1 in Hx as ->. simpl. eexists; split; [done|].
    intros l k. apply lex_terminated; apply string_bytes_nonneg.
Qed.

(** The serializer of an index: the key columns, in order. *)
Definition key_serializer (types : list TypeId) (keys : list nat) (s : TupleSerializer) : Prop :=
  TupleSerializer_Initialize types keys = Ok s ∧ keys ≠ [].

Lemma key_serializer_inv types keys s :
  key_serializer types keys s →
  ts_types s = types ∧ ts_columns s = keys ∧ length types = length keys ∧
  Forall2 (fun ty n => GetTypeIdSize ty = Ok n) types (ts_type_sizes s) ∧
  ts_base_size s = sum_list (ts_type_sizes s) ∧
  ts_is_variable s = (fun t => negb (TypeIsConstantSize t)) <$> types ∧
  ts_has_variable_columns s = existsb id (ts_is_variable s) ∧
  Forall (fun t => t <> T_VARBINARY) types.
Proof.
  intros [H Hne]. unfold TupleSerializer_Initialize in H. destruct keys as [|k0 ks]; [done|]. cbn [length Nat.eqb] in H.
  destruct (length types =? S (length ks)) eqn:El; [|done]. apply Nat.eqb_eq in El.
  apply bind_Ok in H as (? & _ & H). apply bind_Ok in H as (sz & Hsz & H).
  apply bind_Ok in H as (? & Ha & H). injection H as <-. simpl. apply mapM_Ok in Hsz.
  split_and!; try done.
  destruct (forallb _ types) eqn:E; [|done]. apply Forall_forall. intros t Ht ->.
  rewrite forallb_forall in E. by apply list_elem_of_In, E in Ht.
Qed.

Lemma compare_columns_spec types sizes pa pb a b :
  Forall2 (fun ty n => GetTypeIdSize ty = Ok n) types sizes → Forall (fun t => t <> T_VARBINARY) types →
  well_typed types a → well_typed types b →
  cell_size <$> pa = cell_size <$> pb → Forall (fun c => 0 < cell_size c) pa → Forall (fun c => 0 < cell_size c) pb →
  compare_columns ((fun t => negb (TypeIsConstantSize t)) <$> types) sizes (pa ++ a) (pb ++ b)
    (sum_list (cell_size <$> pa)) = Ok (lex_compare (enc a) (enc b)).
Proof.
  intros Hs Hnb Ha. revert sizes Hs Hnb pa pb b.
  induction Ha as [|ty x types a Hx Ha IH]; intros sizes Hs Hnb pa pb b Hb Hp Hpa Hpb.
  { inversion Hb; inversion Hs; subst. done. }
  inversion Hb as [|? y ? b' Hy Hb']; subst. inversion Hs as [|? n ? sizes' Hn Hs']; subst.
  inversion Hnb as [|? ? Hnbt Hnb']; subst. rewrite fmap_cons. cbn [compare_columns].
  rewrite cell_at_prefix by done. run.
  assert (cell_at (pb ++ y :: b') (sum_list (cell_size <$> pa)) = Some y) as -> by (rewrite Hp; by apply cell_at_prefix). run.
  destruct (compare_cell_spec ty x y n Hx Hy Hn Hnbt) as (c & Hc & Hlex).
  unfold compare_cell in Hc. rewrite Hc. run. unfold enc. rewrite !fmap_cons. cbn [concat]. rewrite Hlex.
  pose proof (cell_has_type_size _ _ Hx) as Hsx. pose proof (cell_has_type_size _ _ Hy) as Hsy.
  destruct c; [|done|done].
  specialize (IH sizes' Hs' Hnb' (pa ++ [x]) (pb ++ [y]) b' Hb'). rewrite <- !app_assoc in IH. simpl in IH.
  fold (enc a) (enc b'). rewrite <- IH.
  - f_equal. rewrite fmap_app, sum_list_with_app. simpl. assert (n = cell_size x) by congruence. lia.
  - rewrite !fmap_app. simpl. rewrite Hp. do 2 f_equal. congruence.
  - apply Forall_app. split; [done|]. apply Forall_singleton. eapply GetTypeIdSize_pos; eauto.
  - apply Forall_app. split; [done|]. apply Forall_singleton. eapply GetTypeIdSize_pos; eauto.
Qed.

Lemma block_bytes_spec types t :
  well_typed types t → Forall (fun ty => TypeIsConstantSize ty = true) types →
  block_bytes t = Ok (enc t) ∧ length (enc t) = sum_list (cell_size <$> t).
Proof.
  intros Ht Hc. unfold block_bytes. induction Ht as [|ty x types t Hx Ht IH]; [done|].
  inversion Hc as [|? ? Hty Hc']; subst. destruct (IH Hc') as [Hb Hl]. cbn [mapM].
  destruct x as [n z|[s|]]; simpl in Hx; [|apply bool_decide_eq_true_1 in Hx; by subst|done]. run.
  apply bind_Ok in Hb as (bs & Hbs & Heq). rewrite Hbs. run. unfold enc in *. rewrite !fmap_cons. cbn [concat].
  injection Heq as Heq. rewrite Heq. split; [done|]. rewrite length_app, Hl. simpl. by rewrite le_bytes_length.
Qed.

(** Both ways of comparing (one [memcmp] of the whole block, or column by
    column with [strcmp]) compute the order of the keys. *)
Lemma Tuple_Compare_spec types keys s a b :
  key_serializer types keys s → well_typed types a → well_typed types b →
  Tuple_Compare s a b = Ok (lex_compare (enc a) (enc b)).
Proof.
  intros Hs Ha Hb. destruct (key_serializer_inv _ _ _ Hs) as (_ & _ & _ & Hsz & Hbase & Hvar & Hhas & Hnb).
  unfold Tuple_Compare. destruct (ts_has_variable_columns s) eqn:Ev; cbn [negb].
  - rewrite Hvar. apply (compare_columns_spec types (ts_type_sizes s) [] [] a b); done.
  - assert (Forall (fun ty => TypeIsConstantSize ty = true) types) as Hc.
    { apply Forall_forall. intros ty Hty. destruct (TypeIsConstantSize ty) eqn:E; [done|]. exfalso.
      assert (existsb id (ts_is_variable s) = true); [|congruence]. apply existsb_exists. exists true.
      split; [|done]. apply list_elem_of_In. rewrite Hvar. apply list_elem_of_fmap. exists ty. by rewrite E. }
    destruct (block_bytes_spec types a Ha Hc) as [-> Hla]. destruct (block_bytes_spec types b Hb Hc) as [-> Hlb]. run.
    destruct (well_typed_sizes _ _ Ha) as [Hsa _]. destruct (well_typed_sizes _ _ Hb) as [Hsb _].
    rewrite Hla, Hlb, Hbase.
    rewrite (type_sizes_unique _ _ _ Hsa Hsz), (type_sizes_unique _ _ _ Hsb Hsz), Nat.eqb_refl. done.
Qed.

(** ** Comparing a key with a row of the table *)

(** The key columns of a row. *)
Definition key_of (keys : list nat) (row : tuple) : tuple := omap (fun k => row !! k) keys.

Lemma table_serializer_ts_types types s : table_serializer types s → ts_types s = types.
Proof.
  unfold table_serializer, TupleSerializer_Initialize. simpl. intros H.
  apply bind_Ok in H as (? & _ & H). apply bind_Ok in H as (sz & _ & H). apply bind_Ok in H as (? & _ & H).
  by injection H as <-.
Qed.

Lemma find_offset_spec types sizes k i ty off :
  Forall2 (fun ty n => GetTypeIdSize ty = Ok n) types sizes → types !! i = Some ty →
  find_offset (k + i) ty (seq k (length types)) types sizes off = Ok (off + sum_list (take i sizes)).
Proof.
  intros Hs. revert k i off. induction Hs as [|t n types sizes Hn Hs IH]; intros k i off Hi; [done|].
  cbn [length seq find_offset]. destruct i as [|i]; cbn in Hi.
  - injection Hi as <-. rewrite Nat.add_0_r, Nat.eqb_refl, bool_decide_eq_true_2 by done. run. by rewrite Nat.add_0_r.
  - destruct (Nat.eqb_spec (k + S i) k); [lia|]. rewrite <- Nat.add_succ_comm, IH by done.
    f_equal. simpl. lia.
Qed.

Lemma cell_at_lookup types row i c :
  well_typed types row → row !! i = Some c → cell_at row (sum_list (take i (cell_size <$> row))) = Some c.
Proof.
  intros Hw Hi. rewrite <- (take_drop_middle _ _ _ Hi) at 1. rewrite <- fmap_take.
  apply cell_at_prefix. apply Forall_take. by apply well_typed_sizes in Hw as [_ ?].
Qed.

Lemma key_of_cons k keys row c : row !! k = Some c → key_of (k :: keys) row = c :: key_of keys row.
Proof. intros H. unfold key_of. simpl. by rewrite H. Qed.

Lemma comparer_from ttypes right row keys types sizes pa a :
  table_serializer ttypes right → well_typed ttypes row →
  Forall2 (fun k ty => ttypes !! k = Some ty) keys types →
  Forall2 (fun ty n => GetTypeIdSize ty = Ok n) types sizes → Forall (fun t => t <> T_VARBINARY) types →
  well_typed types a → Forall (fun c => 0 < cell_size c) pa →
  ∃ offs, comparer_offsets right keys types sizes (sum_list (cell_size <$> pa)) = Ok offs ∧
    comparer_loop ((fun t => negb (TypeIsConstantSize t)) <$> types) sizes offs.*1 offs.*2 (pa ++ a) row
      = Ok (lex_compare (enc a) (enc (key_of keys row))).
Proof.
  intros Hright Hrow Hkeys. revert sizes pa a.
  destruct (table_serializer_inv _ _ Hright) as [Hcols Htsz]. pose proof (table_serializer_ts_types _ _ Hright) as Htt.
  induction Hkeys as [|k ty keys types Hk Hkeys IH]; intros sizes pa a Hsz Hnb Ha Hpa.
  { inversion Hsz; inversion Ha; subst. by exists []. }
  inversion Ha as [|? x ? a' Hx Ha']; subst. inversion Hsz as [|? n ? sizes' Hn Hs']; subst.
  inversion Hnb as [|? ? Hnbt Hnb']; subst.
  destruct (Forall2_lookup_l _ _ _ _ _ Hrow Hk) as (y & Hy & Hyt).
  destruct (IH sizes' (pa ++ [x]) a' Hs' Hnb' Ha') as (offs & Hoffs & Hloop).
  { apply Forall_app. split; [done|]. apply Forall_singleton.
    eapply GetTypeIdSize_pos, cell_has_type_size; eauto. }
  rewrite <- app_assoc in Hloop. cbn [app] in Hloop.
  pose proof (cell_has_type_size _ _ Hx) as Hsx.
  exists ((sum_list (cell_size <$> pa), 0 + sum_list (take k (ts_type_sizes right))) :: offs). split.
  - cbn [comparer_offsets]. rewrite Hcols.
    pose proof (find_offset_spec _ _ 0 k ty 0 Htsz Hk) as Hf. cbn [Nat.add] in Hf. rewrite Hf. run.
    replace (sum_list (cell_size <$> pa) + n) with (sum_list (cell_size <$> pa ++ [x]))
      by (rewrite fmap_app, sum_list_with_app; simpl; assert (n = cell_size x) by congruence; lia).
    rewrite Hoffs. done.
  - rewrite !fmap_cons. cbn [comparer_loop fst snd]. rewrite cell_at_prefix by done. run.
    destruct (well_typed_sizes _ _ Hrow) as [Hrs _].
    rewrite Nat.add_0_l, (type_sizes_unique _ _ _ Htsz Hrs), (cell_at_lookup _ _ _ _ Hrow Hy). run.
    destruct (compare_cell_spec ty x y n Hx Hyt Hn Hnbt) as (c & Hc & Hlex). unfold compare_cell in Hc. rewrite Hc. run.
    rewrite (key_of_cons _ _ _ _ Hy). unfold enc. rewrite !fmap_cons. cbn [concat]. rewrite Hlex.
    destruct c; [exact Hloop|done|done].
Qed.

(** The comparer of an index compares a key with the key columns of a row. *)
Lemma TupleComparer_Compare_spec ttypes right types keys left cmp a row :
  table_serializer ttypes right → key_serializer types keys left →
  Forall2 (fun k ty => ttypes !! k = Some ty) keys types → NewTupleComparer left right = Ok cmp →
  well_typed types a → well_typed ttypes row →
  TupleComparer_Compare cmp a row = Ok (lex_compare (enc a) (enc (key_of keys row))).
Proof.
  intros Hright Hleft Hkeys Hnew Ha Hrow.
  destruct (key_serializer_inv _ _ _ Hleft) as (Ht & Hc & _ & Hsz & _ & Hvar & _ & Hnb).
  unfold NewTupleComparer in Hnew. apply bind_Ok in Hnew as (? & _ & Hnew). rewrite Ht, Hc in Hnew.
  destruct (comparer_from _ _ _ _ _ (ts_type_sizes left) [] a Hright Hrow Hkeys Hsz Hnb Ha)
    as (offs & Hoffs & Hloop); [done|].
  change (sum_list (cell_size <$> [])) with 0 in Hoffs. rewrite Hoffs in Hnew. cbn in Hnew. injection Hnew as <-.
  unfold TupleComparer_Compare. cbn [tcmp_left left_offsets right_offsets]. by rewrite Hvar.
Qed.

(** ** The tuples of a chunk *)

(** The cell that row [k] of the chunk contributes to a key. *)
Definition key_cell (chunk : DataChunk) (k column : nat) : option cell :=
  v ← dc_data chunk !! column; stored_cell v k.

Definition chunk_key (chunk : DataChunk) (keys : list nat) (k : nat) : tuple := omap (key_cell chunk k) keys.

Lemma SerializeValue_stored v k x :
  v_type v ≠ T_POINTER → stored_cell v k = Some x → SerializeValue v (sel_at (v_sel v) k) = Ok x.
Proof.
  unfold SerializeValue, stored_cell. intros Hp Hx. case_decide.
  - rewrite bool_decide_eq_true_2 by done. destruct (v_type v); simplify_eq/=; done.
  - rewrite bool_decide_eq_false_2 by done. by rewrite Hx.
Qed.

(** The key columns of a chunk are vectors of the key types. *)
Definition key_columns_ok (chunk : DataChunk) (keys : list nat) (types : list TypeId) : Prop :=
  Forall2 (fun k ty => ty ≠ T_POINTER ∧ ∃ v, dc_data chunk !! k = Some v ∧ vector_ok v ∧
    v_type v = ty ∧ v_count v = chunk_size chunk) keys types.

Lemma chunk_key_typed chunk keys types k :
  key_columns_ok chunk keys types → k < chunk_size chunk → well_typed types (chunk_key chunk keys k).
Proof.
  intros Hk Hlt. unfold chunk_key. induction Hk as [|c ty keys types (Hp & v & Hv & Hok & Hty & Hn) _ IH]; [constructor|].
  simpl. unfold key_cell at 1. rewrite Hv. simpl.
  destruct (stored_cell_typed v k Hok) as (x & Hx & Hxt); [lia|]. rewrite Hx. subst ty. by constructor.
Qed.

Lemma mapM_seq_Ok {A} (f : nat → result A) (g : nat → A) off n :
  (∀ i, off ≤ i < off + n → f i = Ok (g i)) → mapM f (seq off n) = Ok (g <$> seq off n).
Proof.
  revert off. induction n as [|n IH]; intros off H; [done|]. cbn [seq mapM]. rewrite H by lia. run.
  rewrite IH by (intros; apply H; lia). done.
Qed.

Lemma mapM_fmap_Ok {A B C} (f : B → result C) (h : A → B) l : mapM f (h <$> l) = mapM (fun x => f (h x)) l.
Proof. induction l as [|x l IH]; [done|]. rewrite fmap_cons. cbn [mapM]. by rewrite IH. Qed.

Lemma SerializeColumn_spec s chunk keys types i c ty :
  ts_columns s = keys → ts_types s = types → key_columns_ok chunk keys types →
  keys !! i = Some c → types !! i = Some ty →
  ∃ cs, SerializeColumn s chunk i = Ok cs ∧ ∀ k, k < chunk_size chunk → cs !! k = key_cell chunk k c.
Proof.
  intros Hc Ht Hok Hi Hty. destruct (Forall2_lookup_lr _ _ _ _ _ _ Hok Hi Hty) as (Hp & v & Hv & Hvok & Hvt & Hn).
  unfold SerializeColumn. rewrite Hc, Hi. run. rewrite Hv. run. rewrite Ht, Hty. run.
  rewrite bool_decide_eq_true_2 by done. run. unfold Exec, exec_indexes. cbn [Nat.eqb]. rewrite Nat.sub_0_r.
  set (g := fun k => default (Num 0 0) (stored_cell v k)).
  assert (mapM (fun ik : nat * nat => SerializeValue v ik.1)
    ((fun k => (sel_at (v_sel v) k, k)) <$> seq 0 (v_count v)) = Ok (g <$> seq 0 (v_count v))) as ->.
  { rewrite mapM_fmap_Ok. apply mapM_seq_Ok. intros k Hk. unfold g.
    destruct (stored_cell_typed v k Hvok) as (x & Hx & _); [lia|]. rewrite Hx. simpl.
    apply SerializeValue_stored; [congruence|done]. }
  eexists; split; [done|]. intros k Hk. rewrite list_lookup_fmap, lookup_seq_lt by lia. simpl.
  unfold key_cell. rewrite Hv. simpl. unfold g.
  by destruct (stored_cell_typed v k Hvok) as (x & -> & _); [lia|].
Qed.

(** [Serialize] writes, for each row of the chunk, the stored cells of its key. *)
Lemma Serialize_chunk_spec s chunk keys types :
  ts_columns s = keys → ts_types s = types → key_columns_ok chunk keys types →
  Serialize_chunk s chunk = Ok (chunk_key chunk keys <$> seq 0 (chunk_size chunk)).
Proof.
  intros Hc Ht Hok. unfold Serialize_chunk. rewrite Hc.
  assert (∃ cols, mapM (SerializeColumn s chunk) (seq 0 (length keys)) = Ok cols ∧
    ∀ k, k < chunk_size chunk → row_of cols k = chunk_key chunk keys k) as (cols & -> & Hrows).
  { pose proof (Forall2_length _ _ _ Hok) as Hlen.
    assert (∀ n m, n + m = length keys → ∃ cols, mapM (SerializeColumn s chunk) (seq n m) = Ok cols ∧
      ∀ k, k < chunk_size chunk → row_of cols k = chunk_key chunk (drop n keys) k) as H;
      [|destruct (H 0 (length keys)) as (cols & ? & ?); [lia|]; eauto].
    intros n m. revert n. induction m as [|m IH]; intros n Hnm.
    - exists []. split; [done|]. intros k _. by rewrite drop_ge by lia.
    - destruct (IH (S n)) as (cols & Hcols & Hrows); [lia|].
      destruct (lookup_lt_is_Some_2 keys n) as [c Hcn]; [lia|].
      destruct (lookup_lt_is_Some_2 types n) as [ty Htn]; [lia|].
      destruct (SerializeColumn_spec s chunk keys types n c ty Hc Ht Hok Hcn Htn) as (cs & Hcs & Hlk).
      exists (cs :: cols). split; [cbn [seq mapM]; rewrite Hcs; run; rewrite Hcols; done|].
      intros k Hk. rewrite (drop_S _ _ _ Hcn). unfold row_of, chunk_key in *. simpl. rewrite Hlk by done.
      rewrite <- Hrows by done. done. }
  run. f_equal. apply list_fmap_ext. intros i k Hk. apply lookup_seq in Hk as [-> Hk]. by apply Hrows.
Qed.
