(* ===== verification/UniqueIndex.v ===== *)
(** * Unique indexes

    Models [src/src/storage/unique_index.cpp] and
    [src/src/include/storage/unique_index.hpp]: PRIMARY KEY and UNIQUE
    constraints are enforced by a binary search tree of (key, row number)
    nodes.  The tree lives in a heap of nodes with [left], [right] and the raw
    [parent] pointer of the sources; a pointer to a freed node is an address
    that is no longer in the heap, and reading it is [Undef].  Entries are
    never removed when rows are: an entry is only a hint that the row may hold
    the key, the versions of the row decide. *)

From Stdlib Require Import ZArith Lia.
From stdpp Require Import base gmap list strings option numbers sorting.
From S2P Require Import Prelude Types Vector Tuple Serializer KeyTuples Storage Versions DataTable.

Record UniqueIndexNode : Type := mkUNode {
  un_tuple : tuple;
  un_row : nat;
  un_parent : option nat;
  un_left : option nat;
  un_right : option nat }.

Record UniqueIndex : Type := mkUniqueIndex {
  ui_serializer : TupleSerializer;
  ui_comparer : TupleComparer;
  ui_table : nat;
  ui_keys : list nat;
  ui_allow_nulls : bool;
  ui_nodes : gmap nat UniqueIndexNode;
  ui_next : nat;
  ui_root : option nat }.

Definition set_tree (idx : UniqueIndex) (nodes : gmap nat UniqueIndexNode) (next : nat) (root : option nat)
    : UniqueIndex :=
  mkUniqueIndex (ui_serializer idx) (ui_comparer idx) (ui_table idx) (ui_keys idx) (ui_allow_nulls idx)
    nodes next root.

(** [UniqueIndex::UniqueIndex(table, types, keys, allow_nulls)] *)
Definition NewUniqueIndex (R : rows) (tp : nat) (types : list TypeId) (keys : list nat) (allow_nulls : bool)
    : result UniqueIndex :=
  t ← deref (tables R !! tp);
  s ← TupleSerializer_Initialize types keys;
  cmp ← NewTupleComparer s (dt_serializer t);
  Ok (mkUniqueIndex s cmp tp keys allow_nulls ∅ 0 None).

Definition is_eq (c : comparison) : bool := match c with Eq => true | _ => false end.
Definition is_lt (c : comparison) : bool := match c with Lt => true | _ => false end.

(** ** Does a row hold the key? *)

(** The [while (true)] along the versions of the row; the fuel is the number
    of versions. *)
Fixpoint walk_versions (fuel : nat) (tx : Transaction) (R : rows) (idx : UniqueIndex) (key : tuple)
    (version : VersionInformation) : result bool :=
  match fuel with
  | 0 => Undef
  | S fuel' =>
    conflict ← match tuple_data version with
               | None => Ok false
               | Some data => c ← TupleComparer_Compare (ui_comparer idx) key data; Ok (is_eq c)
               end;
    if conflict : bool then Ok true
    else
      match vi_next version with
      | None => Ok false
      | Some n =>
        next ← deref (versions R !! n);
        if (version_number next =? transaction_id tx)%Z then Ok false
        else if (version_number next <? start_time tx)%Z then Ok false
        else walk_versions fuel' tx R idx key next
      end
  end.

(** The test [AddEntry] makes at an entry whose key compares equal. *)
Definition key_conflict (tx : Transaction) (R : rows) (idx : UniqueIndex) (ignored : gset nat)
    (key : tuple) (row_identifier : nat) : result bool :=
  cp ← GetChunk R (ui_table idx) row_identifier;
  chunk ← deref (chunks R !! cp);
  let offset := row_identifier - sc_start chunk in
  conflict ←
    (if bool_decide (row_identifier ∉ ignored) then
       if bool_decide (offset ∈ deleted chunk) then Ok false
       else
         t ← deref (tables R !! sc_table chunk);
         data ← Serialize (dt_serializer t) (columns chunk) offset;
         c ← TupleComparer_Compare (ui_comparer idx) key data;
         Ok (is_eq c)
     else Ok false);
  match version_pointers chunk !! offset with
  | Some v =>
    if negb conflict then
      version ← deref (versions R !! v);
      if (version_number version =? transaction_id tx)%Z || (version_number version <? start_time tx)%Z
      then Ok false
      else walk_versions (S (size (versions R))) tx R idx key version
    else Ok conflict
  | None => Ok conflict
  end.

(** ** [AddEntry] *)

(** The traversal: [None] is a conflict, otherwise the node to hang the new
    entry under and the last comparison.  The fuel is the number of nodes. *)
Fixpoint find_place (fuel : nat) (tx : Transaction) (R : rows) (idx : UniqueIndex) (ignored : gset nat)
    (key : tuple) (prev : nat) (cmp : comparison) (entry : option nat) : result (option (nat * comparison)) :=
  match entry with
  | None => Ok (Some (prev, cmp))
  | Some e =>
    match fuel with
    | 0 => Undef
    | S fuel' =>
      node ← deref (ui_nodes idx !! e);
      cmp ← Tuple_Compare (ui_serializer idx) (un_tuple node) key;
      conflict ← (if is_eq cmp then key_conflict tx R idx ignored key (un_row node) else Ok false);
      if conflict : bool then Ok None
      else find_place fuel' tx R idx ignored key e cmp (if is_lt cmp then un_left node else un_right node)
    end
  end.

Definition set_left (n : UniqueIndexNode) (p : option nat) : UniqueIndexNode :=
  mkUNode (un_tuple n) (un_row n) (un_parent n) p (un_right n).
Definition set_right (n : UniqueIndexNode) (p : option nat) : UniqueIndexNode :=
  mkUNode (un_tuple n) (un_row n) (un_parent n) (un_left n) p.

(** [AddEntry]: [None] where the sources return [nullptr]. *)
Definition AddEntry (tx : Transaction) (R : rows) (ignored : gset nat) (idx : UniqueIndex) (key : tuple)
    (row_identifier : nat) : result (option (nat * UniqueIndex)) :=
  let p := ui_next idx in
  match ui_root idx with
  | None =>
    Ok (Some (p, set_tree idx (<[p := mkUNode key row_identifier None None None]> (ui_nodes idx)) (S p) (Some p)))
  | Some root =>
    place ← find_place (size (ui_nodes idx)) tx R idx ignored key root Eq (Some root);
    match place with
    | None => Ok None
    | Some (prev, cmp) =>
      node ← deref (ui_nodes idx !! prev);
      let node := if is_lt cmp then set_left node (Some p) else set_right node (Some p) in
      Ok (Some (p, set_tree idx (<[p := mkUNode key row_identifier (Some prev) None None]>
                                   (<[prev := node]> (ui_nodes idx))) (S p) (Some root)))
    end
  end.

(** ** [RemoveEntry] *)

(** Destroying a node destroys what hangs below it. *)
Fixpoint free_tree (fuel : nat) (nodes : gmap nat UniqueIndexNode) (p : option nat)
    : gmap nat UniqueIndexNode :=
  match fuel, p with
  | S fuel', Some q =>
    match nodes !! q with
    | Some n => free_tree fuel' (free_tree fuel' (delete q nodes) (un_left n)) (un_right n)
    | None => nodes
    end
  | _, _ => nodes
  end.

(** [while (n->left) n = n->left.get();] *)
Fixpoint leftmost (fuel : nat) (nodes : gmap nat UniqueIndexNode) (p : nat) : result nat :=
  match fuel with
  | 0 => Undef
  | S fuel' =>
    n ← deref (nodes !! p);
    match un_left n with Some q => leftmost fuel' nodes q | None => Ok p end
  end.

(** The pieces that move keep their [parent] pointer. *)
Definition RemoveEntry (idx : UniqueIndex) (entry : nat) : result UniqueIndex :=
  let nodes := ui_nodes idx in
  e ← deref (nodes !! entry);
  match un_parent e with
  | None =>
    match un_left e, un_right e with
    | Some l, Some r =>
      let nodes := delete entry nodes in
      root ← deref (nodes !! l);
      nodes ← match un_right root with
              | None => Ok nodes
              | Some rr =>
                n ← leftmost (size nodes) nodes r;
                node ← deref (nodes !! n);
                Ok (<[n := set_left node (Some rr)]> nodes)
              end;
      root ← deref (nodes !! l);
      Ok (set_tree idx (<[l := set_right root (Some r)]> nodes) (ui_next idx) (Some l))
    | Some l, None => Ok (set_tree idx (delete entry nodes) (ui_next idx) (Some l))
    | None, Some r => Ok (set_tree idx (delete entry nodes) (ui_next idx) (Some r))
    | None, None => Ok (set_tree idx (delete entry nodes) (ui_next idx) None)
    end
  | Some p =>
    match un_left e, un_right e with
    | None, None =>
      parent ← deref (nodes !! p);
      if bool_decide (un_left parent = Some entry) then
        Ok (set_tree idx (<[p := set_left parent None]> (free_tree (size nodes) nodes (un_left parent)))
              (ui_next idx) (ui_root idx))
      else
        Ok (set_tree idx (<[p := set_right parent None]> (free_tree (size nodes) nodes (un_right parent)))
              (ui_next idx) (ui_root idx))
    | _, _ => Undef
    end
  end.

(** ** Adding the rows of a chunk *)

(** [AddEntries]: the state is the index and the nodes added so far, the last
    one first.  A row is its number, its key and whether the key has a NULL. *)
Fixpoint AddEntries (tx : Transaction) (R : rows) (ignored : gset nat) (entries : list (nat * tuple * bool))
    : M (UniqueIndex * list nat) unit :=
  match entries with
  | [] => mret ()
  | (row_identifier, key, has_null) :: entries' =>
    if has_null : bool then
      s ← get_M;
      if ui_allow_nulls s.1 then AddEntries tx R ignored entries' else throw_M ConstraintException
    else
      s ← get_M;
      entry ← lift_M (AddEntry tx R ignored s.1 key row_identifier);
      match entry with
      | None => throw_M ConstraintException
      | Some (p, idx) => _ ← modify_M (fun _ => (idx, p :: s.2)); AddEntries tx R ignored entries'
      end
  end.

(** [~UniqueIndexAddedEntries]: the nodes are removed, last one first. *)
Fixpoint remove_added (idx : UniqueIndex) (nodes : list nat) : result UniqueIndex :=
  match nodes with
  | [] => Ok idx
  | p :: nodes' => idx ← RemoveEntry idx p; remove_added idx nodes'
  end.

(** [array\[k\] = mask\[sel\[k\]\]], false when a NULL is not allowed. *)
Definition boolean_array_from_nullmask (sel : option (list nat)) (count : nat) (mask : gset nat)
    (allow_nulls : bool) : option (list bool) :=
  let array := (fun ik => bool_decide (ik.1 ∈ mask)) <$> exec_indexes sel count 0 in
  if negb allow_nulls && existsb id array then None else Some array.

(** The null masks of the given columns of a chunk, or-ed. *)
Definition key_nulls (chunk : DataChunk) (keys : list nat) : result (gset nat) :=
  vs ← mapM (fun k => deref (dc_data chunk !! k)) keys;
  Ok (⋃ (v_null <$> vs)).

(** One round of the loop of [Append]. *)
Definition append_index (tx : Transaction) (R : rows) (chunk : DataChunk) (row_identifier_start : nat)
    : M (UniqueIndex * list nat) unit :=
  s ← get_M;
  nulls ← lift_M (key_nulls chunk (ui_keys s.1));
  match boolean_array_from_nullmask (dc_sel chunk) (chunk_size chunk) nulls (ui_allow_nulls s.1) with
  | None => throw_M ConstraintException
  | Some has_null =>
    tuples ← lift_M (Serialize_chunk (ui_serializer s.1) chunk);
    AddEntries tx R ∅ (zip (zip (seq row_identifier_start (chunk_size chunk)) tuples) has_null)
  end.

(** The loop over the indexes: when it throws, the entries of the current
    index are removed, then those of the earlier ones ([chain]), the latest
    first.  The state is the indexes. *)
Fixpoint indexes_loop (body : M (UniqueIndex * list nat) unit) (indexes : list UniqueIndex)
    : result unit * list UniqueIndex :=
  match indexes with
  | [] => (Ok tt, [])
  | idx :: indexes' =>
    let unwind (s : UniqueIndex * list nat) (r : result unit) (rest : list UniqueIndex) :=
      match remove_added s.1 s.2 with
      | Ok idx => (r, idx :: rest)
      | _ => (Undef, s.1 :: rest)
      end in
    match body (idx, []) with
    | (Ok _, s) =>
      match indexes_loop body indexes' with
      | (Ok _, rest) => (Ok tt, s.1 :: rest)
      | (Undef, rest) => (Undef, s.1 :: rest)
      | (Throw e, rest) => unwind s (Throw e) rest
      end
    | (Throw e, s) => unwind s (Throw e) indexes'
    | (Undef, s) => (Undef, s.1 :: indexes')
    end
  end.

(** [UniqueIndex::Append] *)
Definition UniqueIndex_Append (tx : Transaction) (R : rows) (indexes : list UniqueIndex) (chunk : DataChunk)
    (row_identifier_start : nat) : result unit * list UniqueIndex :=
  indexes_loop (append_index tx R chunk row_identifier_start) indexes.

(** ** Updates *)

(** Position of a key column among the updated columns. *)
Fixpoint affected_column (updated : list nat) (column i : nat) : option nat :=
  match updated with
  | [] => None
  | c :: updated' => if c =? column then Some i else affected_column updated' column (S i)
  end.

(** The [TupleSet]: equality of tuples is [Compare] in both directions. *)
Fixpoint tuple_set_has (s : TupleSerializer) (set : list tuple) (t : tuple) : result bool :=
  match set with
  | [] => Ok false
  | u :: set' => c ← Tuple_Compare s u t; if is_eq c then Ok true else tuple_set_has s set' t
  end.

Fixpoint has_duplicates (s : TupleSerializer) (set tuples : list tuple) : result bool :=
  match tuples with
  | [] => Ok false
  | t :: tuples' =>
    d ← tuple_set_has s set t;
    if d : bool then Ok true else has_duplicates s (t :: set) tuples'
  end.

(** One round of the loop of [Update]. *)
Definition update_index (tx : Transaction) (R : rows) (storage : StorageChunk) (updated_columns : list nat)
    (update_chunk : DataChunk) (row_identifiers : Vector) (ids : list nat) : M (UniqueIndex * list nat) unit :=
  s ← get_M;
  let affected_columns := (fun k => affected_column updated_columns k 0) <$> ui_keys s.1 in
  if forallb (fun a => bool_decide (a = None)) affected_columns then mret ()
  else
    nulls ← lift_M (key_nulls update_chunk (omap id affected_columns));
    match boolean_array_from_nullmask (dc_sel update_chunk) (chunk_size update_chunk) nulls (ui_allow_nulls s.1) with
    | None => throw_M ConstraintException
    | Some has_null =>
      tuples ← lift_M (SerializeUpdate (ui_serializer s.1) (columns storage) affected_columns update_chunk
                         row_identifiers (sc_start storage));
      d ← lift_M (has_duplicates (ui_serializer s.1) [] tuples);
      if d : bool then throw_M ConstraintException
      else AddEntries tx R (list_to_set ids) (zip (zip ids tuples) has_null)
    end.

(** [UniqueIndex::Update] *)
Definition UniqueIndex_Update (tx : Transaction) (R : rows) (indexes : list UniqueIndex) (cp : nat)
    (updated_columns : list nat) (update_chunk : DataChunk) (row_identifiers : Vector)
    : result unit * list UniqueIndex :=
  match indexes with
  | [] => (Ok tt, [])
  | _ =>
    match (ids ← mapM (fun ik => row_id row_identifiers ik.1) (Exec row_identifiers 0 0);
           storage ← deref (chunks R !! cp); Ok (ids, storage)) with
    | Ok (ids, storage) =>
      indexes_loop (update_index tx R storage updated_columns update_chunk row_identifiers ids) indexes
    | Throw e => (Throw e, indexes)
    | Undef => (Undef, indexes)
    end
  end.
