(* ===== verification/UniqueProofs.v ===== *)
(** * Unique indexes: the tree and what it guarantees

    The heap of nodes of [UniqueIndex.v] represents a binary search tree;
    [AddEntry] inserts a leaf or reports a conflict, and removing the entries
    of a failed statement restores the tree.  On top of that: an index that
    has an entry for every row refuses every key that a live row, or the
    version of a row that the transaction sees, already holds. *)

From Stdlib Require Import ZArith Lia.
From stdpp Require Import base gmap list strings option numbers sorting.
From S2P Require Import Prelude Types Vector Tuple Serializer KeyTuples Storage Versions DataTable TableScan TableOps TableAppend UniqueIndex.

(** ** Trees *)

Inductive tree : Type :=
| Leaf
| Node (p : nat) (key : tuple) (row : nat) (l r : tree).

Definition tree_root (t : tree) : option nat := match t with Leaf => None | Node p _ _ _ _ => Some p end.

Fixpoint addrs (t : tree) : list nat :=
  match t with Leaf => [] | Node p _ _ l r => p :: addrs l ++ addrs r end.

Fixpoint entries (t : tree) : list (tuple * nat) :=
  match t with Leaf => [] | Node _ k row l r => (k, row) :: entries l ++ entries r end.

(** The heap holds the tree, with the right parent pointers. *)
Fixpoint tree_at (nodes : gmap nat UniqueIndexNode) (parent : option nat) (t : tree) : Prop :=
  match t with
  | Leaf => True
  | Node p k row l r =>
    nodes !! p = Some (mkUNode k row parent (tree_root l) (tree_root r)) ∧
    tree_at nodes (Some p) l ∧ tree_at nodes (Some p) r
  end.

(** Greater keys to the left, smaller or equal keys to the right. *)
Definition key_lt (a b : tuple) : Prop := lex_compare (enc a) (enc b) = Lt.

Fixpoint ordered (t : tree) : Prop :=
  match t with
  | Leaf => True
  | Node _ k _ l r =>
    Forall (fun e => key_lt k e.1) (entries l) ∧ Forall (fun e => ¬ key_lt k e.1) (entries r) ∧
    ordered l ∧ ordered r
  end.

(** Inserting a leaf. *)
Fixpoint ins (p : nat) (key : tuple) (row : nat) (t : tree) : tree :=
  match t with
  | Leaf => Node p key row Leaf Leaf
  | Node q k r lt rt =>
    if is_lt (lex_compare (enc k) (enc key)) then Node q k r (ins p key row lt) rt
    else Node q k r lt (ins p key row rt)
  end.

(** The tests made on the way down, in order. *)
Fixpoint path_conflict (conflict : nat → result bool) (key : tuple) (t : tree) : result bool :=
  match t with
  | Leaf => Ok false
  | Node _ k row l r =>
    let cmp := lex_compare (enc k) (enc key) in
    c ← (if is_eq cmp then conflict row else Ok false);
    if c : bool then Ok true else path_conflict conflict key (if is_lt cmp then l else r)
  end.

Record tree_ok (types : list TypeId) (idx : UniqueIndex) (t : tree) : Prop := {
  to_root : ui_root idx = tree_root t;
  to_at : tree_at (ui_nodes idx) None t;
  to_dom : dom (ui_nodes idx) = list_to_set (addrs t);
  to_nodup : NoDup (addrs t);
  to_fresh : Forall (fun p => p < ui_next idx) (addrs t);
  to_ordered : ordered t;
  to_typed : Forall (fun e => well_typed types e.1) (entries t) }.

Lemma entries_ins p key row t e : e ∈ entries (ins p key row t) ↔ e = (key, row) ∨ e ∈ entries t.
Proof.
  induction t as [|q k r lt IHl rt IHr]; cbn [ins entries].
  - rewrite elem_of_cons. simpl. rewrite elem_of_nil. done.
  - destruct (is_lt _); cbn [entries]; rewrite !elem_of_cons, !elem_of_app; rewrite ?IHl, ?IHr; tauto.
Qed.

Lemma addrs_ins p key row t : addrs (ins p key row t) ≡ₚ p :: addrs t.
Proof.
  induction t as [|q k r lt IHl rt IHr]; cbn [ins addrs]; [done|].
  destruct (is_lt _); cbn [addrs].
  - rewrite IHl. simpl. apply Permutation_swap.
  - rewrite IHr, <- Permutation_middle. apply Permutation_swap.
Qed.

Lemma ordered_ins p key row t : ordered t → ordered (ins p key row t).
Proof.
  induction t as [|q k r lt IHl rt IHr]; cbn [ins ordered]; [intros _; by repeat constructor|].
  intros (Hl & Hr & Ol & Or). destruct (is_lt (lex_compare (enc k) (enc key))) eqn:E; cbn [ordered];
    split_and!; auto; apply Forall_forall; intros e [->|He]%entries_ins;
    try (by apply (proj1 (Forall_forall _ _) Hl)); try (by apply (proj1 (Forall_forall _ _) Hr)); unfold key_lt; simpl.
  - by destruct (lex_compare _ _).
  - intros Hc. by rewrite Hc in E.
Qed.

(** ** Every equal key is on the way down *)

Lemma path_conflict_spec conflict key t :
  ordered t →
  path_conflict conflict key t = Ok false →
  ∀ k row, (k, row) ∈ entries t → enc k = enc key → conflict row = Ok false.
Proof.
  induction t as [|q k r lt IHl rt IHr]; cbn [path_conflict ordered entries]; [by intros _ _ ? ? ?%elem_of_nil|].
  intros (Hl & Hr & Ol & Or). destruct (lex_compare (enc k) (enc key)) eqn:E; cbn [is_eq is_lt].
  - apply lex_eq in E. destruct (conflict r) as [[]| |] eqn:Hc; try done. cbn. intros Hp k' row' Hin Hk.
    apply elem_of_cons in Hin as [[= -> ->]|[Hin|Hin]%elem_of_app]; [done| |by eapply IHr].
    apply (proj1 (Forall_forall _ _) Hl) in Hin. unfold key_lt in Hin. simpl in Hin.
    by rewrite E, Hk, lex_refl in Hin.
  - cbn. intros Hp k' row' Hin Hk.
    apply elem_of_cons in Hin as [[= -> ->]|[Hin|Hin]%elem_of_app]; [by rewrite Hk, lex_refl in E|by eapply IHl|].
    apply (proj1 (Forall_forall _ _) Hr) in Hin. unfold key_lt in Hin. simpl in Hin. by rewrite Hk in Hin.
  - cbn. intros Hp k' row' Hin Hk.
    apply elem_of_cons in Hin as [[= -> ->]|[Hin|Hin]%elem_of_app]; [by rewrite Hk, lex_refl in E| |by eapply IHr].
    apply (proj1 (Forall_forall _ _) Hl) in Hin. unfold key_lt in Hin. simpl in Hin. by rewrite Hk, E in Hin.
Qed.

(** A conflict is reported only for an entry with that key. *)
Lemma path_conflict_true conflict key t :
  path_conflict conflict key t = Ok true →
  ∃ k row, (k, row) ∈ entries t ∧ enc k = enc key ∧ conflict row = Ok true.
Proof.
  induction t as [|q k r lt IHl rt IHr]; cbn [path_conflict entries]; [done|].
  assert (∀ t', path_conflict conflict key t' = Ok true →
    (path_conflict conflict key t' = Ok true → ∃ k row, (k, row) ∈ entries t' ∧ enc k = enc key ∧ conflict row = Ok true) →
    (∀ e, e ∈ entries t' → e ∈ (k, r) :: entries lt ++ entries rt) →
    ∃ k' row, (k', row) ∈ (k, r) :: entries lt ++ entries rt ∧ enc k' = enc key ∧ conflict row = Ok true) as Hsub.
  { intros t' Hp IH Hin. destruct (IH Hp) as (k' & row & ? & ? & ?). exists k', row. auto. }
  destruct (lex_compare (enc k) (enc key)) eqn:E; cbn [is_eq is_lt].
  - apply lex_eq in E. destruct (conflict r) as [[]| |] eqn:Hc; try done; cbn; intros Hp.
    + exists k, r. split_and!; [by constructor|done|done].
    + apply (Hsub rt Hp IHr). intros e He. apply elem_of_cons. right. apply elem_of_app. auto.
  - cbn. intros Hp. apply (Hsub lt Hp IHl). intros e He. apply elem_of_cons. right. apply elem_of_app. auto.
  - cbn. intros Hp. apply (Hsub rt Hp IHr). intros e He. apply elem_of_cons. right. apply elem_of_app. auto.
Qed.

(** ** Inserting into the heap *)

Lemma tree_at_frame nodes nodes' parent t :
  (∀ p, p ∈ addrs t → nodes' !! p = nodes !! p) → tree_at nodes parent t → tree_at nodes' parent t.
Proof.
  revert parent. induction t as [|q k r lt IHl rt IHr]; intros parent Hag; cbn [tree_at]; [done|].
  intros (Hq & Hl & Hr). cbn [addrs] in Hag.
  split_and!; [rewrite Hag; [done|by constructor]|apply IHl|apply IHr]; try done;
    intros p Hp; apply Hag, elem_of_cons; right; apply elem_of_app; auto.
Qed.

(** Where the traversal stops. *)
Fixpoint place (key : tuple) (t : tree) (prev : nat) (cmp : comparison) : nat * comparison :=
  match t with
  | Leaf => (prev, cmp)
  | Node p k _ l r =>
    let c := lex_compare (enc k) (enc key) in place key (if is_lt c then l else r) p c
  end.

Section add.
Context (types : list TypeId) (idx : UniqueIndex).
Context (Hser : key_serializer types (ui_keys idx) (ui_serializer idx)).
Context (tx : Transaction) (R : rows) (ignored : gset nat) (key : tuple) (Hkey : well_typed types key).

Let conf := key_conflict tx R idx ignored key.

Lemma find_place_spec fuel parent t prev cmp :
  tree_at (ui_nodes idx) parent t → Forall (fun e => well_typed types e.1) (entries t) → length (addrs t) ≤ fuel →
  find_place fuel tx R idx ignored key prev cmp (tree_root t) =
    (b ← path_conflict conf key t; Ok (if b : bool then None else Some (place key t prev cmp))).
Proof.
  revert fuel parent prev cmp. induction t as [|q k r lt IHl rt IHr]; intros fuel parent prev cmp Hat Hty Hf;
    cbn [tree_root find_place path_conflict place addrs length entries] in *.
  { by destruct fuel. }
  destruct fuel as [|fuel]; [lia|]. destruct Hat as (Hq & Hl & Hr). rewrite length_app in Hf.
  inversion Hty as [|? ? Hk Hty']; subst. apply Forall_app in Hty' as [Htl Htr]. simpl in Hk.
  cbn [find_place]. rewrite Hq. run. cbn [un_tuple un_row un_left un_right].
  rewrite (Tuple_Compare_spec types (ui_keys idx)) by done. run.
  destruct (lex_compare (enc k) (enc key)) eqn:E; cbn [is_eq is_lt].
  - fold (conf r). destruct (conf r) as [[]| |]; cbn; try done. apply (IHr _ (Some q)); [done|done|lia].
  - cbn. apply (IHl _ (Some q)); [done|done|lia].
  - cbn. apply (IHr _ (Some q)); [done|done|lia].
Qed.

End add.

Lemma root_ins p key row t : t ≠ Leaf → tree_root (ins p key row t) = tree_root t.
Proof. destruct t as [|q k r lt rt]; [done|]. intros _. cbn [ins]. by destruct (is_lt _). Qed.

Definition hang (node : UniqueIndexNode) (cmp : comparison) (p : nat) : UniqueIndexNode :=
  if is_lt cmp then set_left node (Some p) else set_right node (Some p).

Lemma insert_tree_at nodes parent p key row t d c :
  t ≠ Leaf → tree_at nodes parent t → NoDup (addrs t) → p ∉ addrs t →
  ∃ node, let '(prev, cmp) := place key t d c in
    nodes !! prev = Some node ∧ prev ∈ addrs t ∧
    tree_at (<[p := mkUNode key row (Some prev) None None]> (<[prev := hang node cmp p]> nodes)) parent (ins p key row t).
Proof.
  revert parent d c. induction t as [|q k r lt IHl rt IHr]; intros parent d c Hne Hat Hnd Hp; [done|]. clear Hne.
  cbn [place ins addrs] in *. destruct Hat as (Hq & Hl & Hr).
  apply NoDup_cons in Hnd as [Hnq Hnd]. apply NoDup_app in Hnd as (Hndl & Hdisj & Hndr).
  rewrite elem_of_cons, elem_of_app in Hp. rewrite elem_of_app in Hnq.
  destruct (is_lt (lex_compare (enc k) (enc key))) eqn:E.
  - destruct lt as [|q' k' r' l' rt'] eqn:Elt; [|rewrite <- Elt in *].
    + cbn [place]. eexists. split_and!; [exact Hq|by constructor|]. unfold hang. rewrite E. cbn [ins tree_at tree_root].
      split_and!; [rewrite lookup_insert_ne by naive_solver; by rewrite lookup_insert_eq|by rewrite lookup_insert_eq|done|done|].
      apply (tree_at_frame nodes); [|done]. intros x Hx. rewrite !lookup_insert_ne by naive_solver. done.
    + destruct (IHl (Some q) q (lex_compare (enc k) (enc key))) as (node & Hpl); [by subst|done|done|naive_solver|].
      destruct (place key lt q _) as [prev cmp] eqn:Epl. destruct Hpl as (Hprev & Hin & Hat').
      exists node. split_and!; [done|apply elem_of_cons; right; apply elem_of_app; auto|]. cbn [tree_at].
      split_and!; [|done|].
      * rewrite !lookup_insert_ne by naive_solver. rewrite root_ins by (by subst). done.
      * apply (tree_at_frame nodes); [|done]. intros x Hx. rewrite !lookup_insert_ne by naive_solver. done.
  - destruct rt as [|q' k' r' l' rt'] eqn:Ert; [|rewrite <- Ert in *].
    + cbn [place]. eexists. split_and!; [exact Hq|by constructor|]. unfold hang. rewrite E. cbn [ins tree_at tree_root].
      split_and!; [rewrite lookup_insert_ne by naive_solver; by rewrite lookup_insert_eq| |by rewrite lookup_insert_eq|done|done].
      apply (tree_at_frame nodes); [|done]. intros x Hx. rewrite !lookup_insert_ne by naive_solver. done.
    + destruct (IHr (Some q) q (lex_compare (enc k) (enc key))) as (node & Hpl); [by subst|done|done|naive_solver|].
      destruct (place key rt q _) as [prev cmp] eqn:Epl. destruct Hpl as (Hprev & Hin & Hat').
      exists node. split_and!; [done|apply elem_of_cons; right; apply elem_of_app; auto|]. cbn [tree_at].
      split_and!; [|  |done].
      * rewrite !lookup_insert_ne by naive_solver. rewrite root_ins by (by subst). done.
      * apply (tree_at_frame nodes); [|done]. intros x Hx. rewrite !lookup_insert_ne by naive_solver. done.
Qed.

(** ** [AddEntry] and [RemoveEntry] on well-formed trees *)

Definition same_params (a b : UniqueIndex) : Prop := ∃ nodes next root, b = set_tree a nodes next root.

#[export] Instance same_params_preorder : PreOrder same_params.
Proof.
  split.
  - intros []. by do 3 eexists.
  - intros a b c (? & ? & ? & ->) (? & ? & ? & ->). by do 3 eexists.
Qed.

Lemma tree_ok_size types idx t : tree_ok types idx t → size (ui_nodes idx) = length (addrs t).
Proof.
  intros H. rewrite <- size_dom, (to_dom _ _ _ H). apply size_list_to_set, (to_nodup _ _ _ H).
Qed.

Lemma next_fresh types idx t : tree_ok types idx t → ui_next idx ∉ addrs t.
Proof. intros H Hin. apply (proj1 (Forall_forall _ _) (to_fresh _ _ _ H)) in Hin. lia. Qed.

Lemma typed_ins types p key row t :
  well_typed types key → Forall (fun e => well_typed types e.1) (entries t) →
  Forall (fun e => well_typed types e.1) (entries (ins p key row t)).
Proof.
  intros Hk Ht. apply Forall_forall. intros e [->|He]%entries_ins; [done|].
  by apply (proj1 (Forall_forall _ _) Ht).
Qed.

Lemma AddEntry_spec types idx t tx R ignored key row :
  tree_ok types idx t → key_serializer types (ui_keys idx) (ui_serializer idx) → well_typed types key →
  match path_conflict (key_conflict tx R idx ignored key) key t with
  | Ok true => AddEntry tx R ignored idx key row = Ok None
  | Ok false => ∃ idx', AddEntry tx R ignored idx key row = Ok (Some (ui_next idx, idx')) ∧
      same_params idx idx' ∧ tree_ok types idx' (ins (ui_next idx) key row t)
  | Throw e => AddEntry tx R ignored idx key row = Throw e
  | Undef => AddEntry tx R ignored idx key row = Undef
  end.
Proof.
  intros Hok Hser Hkey. pose proof (next_fresh _ _ _ Hok) as Hfr. unfold AddEntry.
  rewrite (to_root _ _ _ Hok). destruct t as [|q k r lt rt] eqn:Et; cbn [tree_root].
  { cbn [path_conflict]. eexists. split_and!; [done|by do 3 eexists|].
    split; cbn [set_tree ui_root ui_nodes ui_next ins tree_root tree_at addrs entries ordered app].
    - done.
    - split; [by rewrite lookup_insert_eq|done].
    - rewrite dom_insert_L, (to_dom _ _ _ Hok). done.
    - apply NoDup_singleton.
    - apply Forall_singleton. lia.
    - by repeat constructor.
    - by apply Forall_singleton. }
  rewrite <- Et in *.
  assert (Some q = tree_root t) as Hroot by (by rewrite Et).
  rewrite Hroot.
  rewrite (find_place_spec types idx Hser tx R ignored key Hkey _ None); [|apply Hok..|by rewrite (tree_ok_size _ _ _ Hok)].
  destruct (path_conflict _ key t) as [[]| |] eqn:Hp; cbn; try done.
  destruct (insert_tree_at (ui_nodes idx) None (ui_next idx) key row t q Eq) as (node & Hpl);
    [by subst|apply Hok|apply Hok|done|].
  destruct (place key t q Eq) as [prev cmp]. destruct Hpl as (Hprev & Hin & Hat). cbn. rewrite Hprev. cbn.
  eexists. split_and!; [done|by do 3 eexists|].
  split; cbn [set_tree ui_root ui_nodes ui_next].
  - rewrite root_ins by (by subst). done.
  - exact Hat.
  - rewrite !dom_insert_L, (to_dom _ _ _ Hok). rewrite (list_to_set_perm_L _ _ (addrs_ins _ _ _ _)). cbn [list_to_set].
    f_equal. apply subseteq_union_1_L, singleton_subseteq_l. by apply elem_of_list_to_set.
  - rewrite (addrs_ins _ _ _ _). constructor; [done|apply Hok].
  - rewrite (addrs_ins _ _ _ _). constructor; [lia|]. eapply Forall_impl; [apply Hok|]. simpl. lia.
  - apply ordered_ins, Hok.
  - apply typed_ins; [done|apply Hok].
Qed.

Lemma remove_tree_at nodes parent p key row t :
  t ≠ Leaf → tree_at nodes parent (ins p key row t) → NoDup (addrs t) → p ∉ addrs t →
  ∃ prev node, nodes !! p = Some (mkUNode key row (Some prev) None None) ∧ nodes !! prev = Some node ∧ prev ∈ addrs t ∧
    ((un_left node = Some p ∧ tree_at (<[prev := set_left node None]> (delete p nodes)) parent t) ∨
     (un_left node ≠ Some p ∧ un_right node = Some p ∧
      tree_at (<[prev := set_right node None]> (delete p nodes)) parent t)).
Proof.
  revert parent. induction t as [|q k r lt IHl rt IHr]; intros parent Hne Hat Hnd Hp; [done|]. clear Hne.
  cbn [ins addrs] in *.
  apply NoDup_cons in Hnd as [Hnq Hnd]. apply NoDup_app in Hnd as (Hndl & Hdisj & Hndr).
  rewrite elem_of_cons, elem_of_app in Hp. rewrite elem_of_app in Hnq.
  assert (∀ t' parent' (prev : nat) node, (∀ x, x ∈ addrs t' → x ≠ prev ∧ x ≠ p) → tree_at nodes parent' t' →
    tree_at (<[prev := node]> (delete p nodes)) parent' t') as Hframe.
  { intros t' parent' prev node Hx Ht'. apply (tree_at_frame nodes); [|done]. intros x [? ?]%Hx.
    rewrite lookup_insert_ne, lookup_delete_ne by done. done. }
  assert (∀ t', p ∉ addrs t' → tree_root t' ≠ Some p) as Hroot.
  { intros [] Hn; simpl in *; [done|]. intros [= ->]. apply Hn. by constructor. }
  destruct (is_lt (lex_compare (enc k) (enc key))) eqn:E; destruct Hat as (Hq & Hl & Hr).
  - destruct lt as [|q' k' r' l' rt'] eqn:Elt; [|rewrite <- Elt in *].
    + destruct Hl as (Hpn & _ & _). exists q. eexists. split_and!; [done|exact Hq|by constructor|]. left.
      cbn [ins tree_root un_left] in *. split; [done|]. unfold set_left. cbn. split_and!; [by rewrite lookup_insert_eq|done|].
      apply Hframe; [|done]. naive_solver.
    + destruct (IHl (Some q)) as (prev & node & Hpn & Hprev & Hin & Hcase); [by subst|done|done|naive_solver|].
      exists prev, node. split_and!; [done|done|apply elem_of_cons; right; apply elem_of_app; auto|].
      rewrite root_ins in Hq by (by subst).
      destruct Hcase as [[Hlf Ht]|(Hnl & Hrt & Ht)]; [left|right; split; [done|]]; (split; [done|]); cbn [tree_at];
        (split_and!; [by rewrite lookup_insert_ne, lookup_delete_ne by naive_solver|done|]); apply Hframe; naive_solver.
  - destruct rt as [|q' k' r' l' rt'] eqn:Ert; [|rewrite <- Ert in *].
    + destruct Hr as (Hpn & _ & _). exists q. eexists. split_and!; [done|exact Hq|by constructor|]. right.
      cbn [ins tree_root un_left un_right] in *. split_and!; [apply Hroot; naive_solver|done|]. unfold set_right. cbn.
      split_and!; [by rewrite lookup_insert_eq| |done]. apply Hframe; [|done]. naive_solver.
    + destruct (IHr (Some q)) as (prev & node & Hpn & Hprev & Hin & Hcase); [by subst|done|done|naive_solver|].
      exists prev, node. split_and!; [done|done|apply elem_of_cons; right; apply elem_of_app; auto|].
      rewrite root_ins in Hq by (by subst).
      destruct Hcase as [[Hlf Ht]|(Hnl & Hrt & Ht)]; [left|right; split; [done|]]; (split; [done|]); cbn [tree_at];
        (split_and!; [by rewrite lookup_insert_ne, lookup_delete_ne by naive_solver| |done]); apply Hframe; naive_solver.
Qed.

Lemma free_leaf fuel (nodes : gmap nat UniqueIndexNode) p n :
  nodes !! p = Some n → un_left n = None → un_right n = None → 0 < fuel →
  free_tree fuel nodes (Some p) = delete p nodes.
Proof.
  intros Hp Hl Hr Hf. destruct fuel as [|fuel]; [lia|]. cbn [free_tree]. rewrite Hp, Hl, Hr. by destruct fuel.
Qed.

(** Removing the entry added last restores the tree. *)
Lemma RemoveEntry_spec types idx p key row t :
  tree_ok types idx (ins p key row t) → p ∉ addrs t → NoDup (addrs t) → ordered t →
  ∃ idx', RemoveEntry idx p = Ok idx' ∧ same_params idx idx' ∧ tree_ok types idx' t.
Proof.
  intros Hok Hp Hnd Hord. unfold RemoveEntry.
  assert (dom (ui_nodes idx) = {[p]} ∪ list_to_set (addrs t)) as Hdom.
  { by rewrite (to_dom _ _ _ Hok), (list_to_set_perm_L _ _ (addrs_ins _ _ _ _)). }
  assert (Forall (fun q => q < ui_next idx) (addrs t)) as Hfr.
  { pose proof (to_fresh _ _ _ Hok) as H. rewrite (addrs_ins _ _ _ _) in H. by apply Forall_cons_1 in H as [_ ?]. }
  assert (Forall (fun e => well_typed types e.1) (entries t)) as Hty.
  { apply Forall_forall. intros e He. apply (proj1 (Forall_forall _ _) (to_typed _ _ _ Hok)), entries_ins. auto. }
  assert (dom (delete p (ui_nodes idx)) = list_to_set (addrs t)) as Hdom'.
  { rewrite dom_delete_L, Hdom. apply set_eq. intros x.
    rewrite elem_of_difference, elem_of_union, !elem_of_singleton, elem_of_list_to_set. naive_solver. }
  destruct t as [|q k r lt rt] eqn:Et.
  { pose proof (to_at _ _ _ Hok) as (Hn & _). rewrite Hn. cbn. eexists. split_and!; [done|by do 3 eexists|].
    split; cbn [set_tree ui_root ui_nodes ui_next tree_root tree_at]; done. }
  rewrite <- Et in *.
  destruct (remove_tree_at (ui_nodes idx) None p key row t) as (prev & node & Hpn & Hprev & Hin & Hcase);
    [by subst|apply Hok|done|done|].
  assert (0 < size (ui_nodes idx)) as Hsz.
  { rewrite (tree_ok_size _ _ _ Hok). rewrite (addrs_ins _ _ _ _). simpl. lia. }
  rewrite Hpn. cbn. rewrite Hprev. cbn.
  assert (tree_root (ins p key row t) = tree_root t) as Hroot by (apply root_ins; by subst).
  assert (∀ n, dom (<[prev := n]> (delete p (ui_nodes idx))) = list_to_set (addrs t)) as Hdom2.
  { intros n. rewrite dom_insert_L, Hdom'. apply subseteq_union_1_L, singleton_subseteq_l. by apply elem_of_list_to_set. }
  destruct Hcase as [[Hlf Hat]|(Hnl & Hrt & Hat)].
  - rewrite bool_decide_eq_true_2 by done. rewrite Hlf, (free_leaf _ _ _ _ Hpn) by done.
    eexists. split_and!; [done|by do 3 eexists|]. split; cbn [set_tree ui_root ui_nodes ui_next]; try done.
    rewrite (to_root _ _ _ Hok). done.
  - rewrite bool_decide_eq_false_2 by done. rewrite Hrt, (free_leaf _ _ _ _ Hpn) by done.
    eexists. split_and!; [done|by do 3 eexists|]. split; cbn [set_tree ui_root ui_nodes ui_next]; try done.
    rewrite (to_root _ _ _ Hok). done.
Qed.

(** The tree determines the heap. *)
Lemma tree_at_lookup nodes nodes' parent t p :
  tree_at nodes parent t → tree_at nodes' parent t → p ∈ addrs t → nodes !! p = nodes' !! p.
Proof.
  revert parent. induction t as [|q k r lt IHl rt IHr]; intros parent; cbn [tree_at addrs]; [by intros _ _ ?%elem_of_nil|].
  intros (Hq & Hl & Hr) (Hq' & Hl' & Hr') [->|[Hp|Hp]%elem_of_app]%elem_of_cons; [congruence|eauto..].
Qed.

Lemma tree_ok_unique types idx idx' t :
  tree_ok types idx t → tree_ok types idx' t → ui_nodes idx = ui_nodes idx' ∧ ui_root idx = ui_root idx'.
Proof.
  intros H H'. split; [|by rewrite (to_root _ _ _ H), (to_root _ _ _ H')].
  apply map_eq. intros p. destruct (decide (p ∈ addrs t)) as [Hp|Hp].
  - by eapply tree_at_lookup; [apply H|apply H'|].
  - transitivity (@None UniqueIndexNode); [|symmetry]; apply not_elem_of_dom.
    + by rewrite (to_dom _ _ _ H), elem_of_list_to_set.
    + by rewrite (to_dom _ _ _ H'), elem_of_list_to_set.
Qed.

(** ** What the conflict test means *)

(** The values the test looks at below the current one: those of the versions
    the transaction does not see past. *)
Fixpoint passed (tx : Transaction) (ns : list vnode) : list (option tuple) :=
  match ns with
  | [] => []
  | n :: ns' => if sees tx (n_num n) then [] else n_old n :: passed tx ns'
  end.

(** The version the transaction reads is the last of them. *)
Lemma visible_passed tx v ns : visible tx v ns ∈ v :: passed tx ns.
Proof.
  revert v. induction ns as [|n ns IH]; intros v; simpl; [by constructor|].
  destruct (sees tx (n_num n)); [by constructor|]. right. apply IH.
Qed.

Definition holds_key (keys : list nat) (key : tuple) (v : option tuple) : bool :=
  match v with Some t => is_eq (lex_compare (enc key) (enc (key_of keys t))) | None => false end.

Lemma holds_key_true keys key t : holds_key keys key (Some t) = true ↔ enc (key_of keys t) = enc key.
Proof.
  simpl. split.
  - destruct (lex_compare _ _) eqn:E; [|done|done]. by apply lex_eq in E.
  - intros ->. by rewrite lex_refl.
Qed.

(** An index of a table: its serializer and comparer are those of its key
    columns. *)
Record index_of (R : rows) (tp : nat) (tbl : DataTable) (types : list TypeId) (idx : UniqueIndex) : Prop := {
  io_table : ui_table idx = tp;
  io_tbl : tables R !! tp = Some tbl;
  io_ok : table_ok tbl;
  io_serializer : key_serializer types (ui_keys idx) (ui_serializer idx);
  io_types : Forall2 (fun k ty => dt_types tbl !! k = Some ty) (ui_keys idx) types;
  io_comparer : NewTupleComparer (ui_serializer idx) (dt_serializer tbl) = Ok (ui_comparer idx) }.

Section conflict.
Context (R : rows) (H : hist) (tp : nat) (tbl : DataTable) (types : list TypeId) (idx : UniqueIndex).
Context (Hl : links_wf R H) (Hd : data_wf R H) (Hidx : index_of R tp tbl types idx).
Context (tx : Transaction) (ignored : gset nat) (key : tuple) (Hkey : well_typed types key).

Lemma compare_row row :
  well_typed (dt_types tbl) row →
  (c ← TupleComparer_Compare (ui_comparer idx) key row; Ok (is_eq c)) = Ok (holds_key (ui_keys idx) key (Some row)).
Proof.
  intros Hrow. destruct Hidx as [? ? [Htbl _] ? ? ?].
  rewrite (TupleComparer_Compare_spec (dt_types tbl) (dt_serializer tbl) types (ui_keys idx) (ui_serializer idx)) by done.
  done.
Qed.

Lemma walk_versions_spec fuel lk n ns :
  rep (versions R) tp lk (n :: ns) → length (n :: ns) ≤ fuel →
  (∀ m t, m ∈ n :: ns → n_old m = Some t → well_typed (dt_types tbl) t) →
  walk_versions fuel tx R idx key (node_vi tp lk n (head_loc ns)) =
    Ok (existsb (holds_key (ui_keys idx) key) (n_old n :: passed tx ns)).
Proof.
  revert fuel lk n. induction ns as [|m ns IH]; intros fuel lk n Hrep Hf Hty; destruct fuel as [|fuel]; simpl in Hf; try lia.
  - cbn [walk_versions node_vi tuple_data vi_next head_loc head fmap option_fmap option_map passed existsb].
    destruct (n_old n) as [t|] eqn:Ho; [|done]. rewrite compare_row by (eapply Hty; [by left|done]). run.
    destruct (holds_key _ _ _); done.
  - destruct Hrep as [_ Hrep]. pose proof Hrep as [Hm _].
    cbn [walk_versions node_vi tuple_data vi_next head_loc head fmap option_fmap option_map].
    assert ((conflict ← match n_old n with
               | None => Ok false
               | Some data => c ← TupleComparer_Compare (ui_comparer idx) key data; Ok (is_eq c)
               end; mret conflict : result bool) = Ok (holds_key (ui_keys idx) key (n_old n))) as Hc.
    { destruct (n_old n) as [t|] eqn:Ho; [|done]. rewrite compare_row by (eapply Hty; [by left|done]). done. }
    apply bind_Ok in Hc as (b & Hb & [= ->]). rewrite Hb. run. cbn [existsb].
    destruct (holds_key _ _ (n_old n)); [done|]. cbn [orb].
    rewrite Hm. run. cbn [passed]. unfold sees. cbn [version_number node_vi].
    destruct (n_num m =? transaction_id tx)%Z; [done|]. destruct (n_num m <? start_time tx)%Z; [done|].
    cbn [orb]. apply IH; [done|simpl; lia|]. intros m' t Hin. apply Hty. by right.
Qed.

(** The test at an entry: some value that the transaction may still see or
    that is current holds the key. *)
Lemma key_conflict_spec row cp c :
  GetChunk R tp row = Ok cp → chunks R !! cp = Some c → sc_table c = tp →
  sc_start c ≤ row < sc_start c + sc_count c →
  key_conflict tx R idx ignored key row =
    Ok (existsb (holds_key (ui_keys idx) key)
          ((if decide (row ∈ ignored) then [] else [base_value c (row - sc_start c)]) ++
           passed tx (H cp (row - sc_start c)))).
Proof.
  intros Hg Hc Htp Hrow. destruct Hidx as [Ht Htb [Htbl Hacc] Hser Hkt Hcmp].
  unfold key_conflict. rewrite Ht, Hg. run. rewrite Hc. run. set (r := row - sc_start c).
  destruct (dw_row _ _ Hd cp c tbl r Hc) as (tup & Htup & Hwt); [by rewrite Htp|lia|].
  destruct (dw_table _ _ Hd _ _ Hc) as (tbl' & Htb' & Hlen & _). rewrite Htp, Htb in Htb'. injection Htb' as <-.
  assert ((if bool_decide (row ∉ ignored) then
       if bool_decide (r ∈ deleted c) then Ok false
       else t ← deref (tables R !! sc_table c);
         data ← Serialize (dt_serializer t) (columns c) r;
         c ← TupleComparer_Compare (ui_comparer idx) key data; Ok (is_eq c)
     else Ok false) = Ok (existsb (holds_key (ui_keys idx) key) (if decide (row ∈ ignored) then [] else [base_value c r]))) as Hbase.
  { destruct (decide (row ∈ ignored)); [by rewrite bool_decide_eq_false_2 by tauto|].
    rewrite bool_decide_eq_true_2 by done. unfold base_value. destruct (decide (r ∈ deleted c)).
    { by rewrite bool_decide_eq_true_2. }
    rewrite bool_decide_eq_false_2 by done. rewrite Htp, Htb. run.
    rewrite (Serialize_row _ _ _ _ _ Htbl Hlen Htup). run. rewrite compare_row by done. rewrite Htup. cbn [existsb].
    by rewrite orb_false_r. }
  rewrite Hbase. run. rewrite existsb_app. rewrite (lw_pointer _ _ _ _ r Hl Hc).
  destruct (H cp r) as [|n ns] eqn:EH; cbn [head_loc head fmap option_fmap option_map passed].
  { by rewrite orb_false_r. }
  destruct (existsb _ (if decide _ then _ else _)); cbn [negb orb]; [done|].
  pose proof (lw_rep _ _ _ _ r Hl Hc) as Hrep. rewrite EH in Hrep. pose proof Hrep as [Hn _]. rewrite Hn. run.
  cbn [version_number node_vi]. unfold sees. destruct (_ || _); [done|].
  rewrite Htp in *. apply walk_versions_spec.
  - exact Hrep.
  - pose proof (rep_length _ _ _ _ Hrep) as Hlen'. rewrite <- EH in Hlen' at 1. specialize (Hlen' (lw_sorted _ _ Hl _ _)). lia.
  - intros m t Hm Ho. eapply (dw_old _ _ Hd cp c tbl r m t Hc); [by rewrite Htp|by rewrite EH|done].
Qed.
End conflict.

(** ** Statements: all the entries or none *)

Lemma walk_versions_params fuel tx R idx nodes next root key v :
  walk_versions fuel tx R (set_tree idx nodes next root) key v = walk_versions fuel tx R idx key v.
Proof.
  revert v. induction fuel as [|fuel IH]; intros v; [done|]. cbn [walk_versions].
  destruct (match tuple_data v with Some _ => _ | None => _ end) as [[]| |]; cbn; try done.
  destruct (vi_next v); [|done]. destruct (versions R !! _); [|done]. cbn.
  destruct (_ =? _)%Z; [done|]. destruct (_ <? _)%Z; [done|]. apply IH.
Qed.

Lemma key_conflict_params tx R idx idx' ignored key row :
  same_params idx idx' → key_conflict tx R idx' ignored key row = key_conflict tx R idx ignored key row.
Proof.
  intros (nodes & next & root & ->). unfold key_conflict. cbn [set_tree ui_table ui_comparer].
  destruct (GetChunk _ _ _) as [cp| |]; cbn; try done. destruct (chunks R !! cp) as [c|]; cbn; [|done].
  match goal with |- ((?x ≫= _) = _) => destruct x as [[]| |] end; cbn; try done;
    destruct (version_pointers c !! _); cbn; try done. destruct (versions R !! _); cbn; [|done].
  destruct (_ || _); [done|]. exact (walk_versions_params (S (size (versions R))) tx R idx nodes next root key _).
Qed.

Lemma path_conflict_ext f g key t : (∀ row, f row = g row) → path_conflict f key t = path_conflict g key t.
Proof.
  intros Hfg. induction t as [|q k r lt IHl rt IHr]; cbn [path_conflict]; [done|]. rewrite Hfg.
  by destruct (lex_compare _ _); cbn [is_eq is_lt]; rewrite ?IHl, ?IHr.
Qed.

Section statement.
Context (tx : Transaction) (R : rows) (ignored : gset nat) (types : list TypeId).

(** The entries of a statement go in one after the other without conflict. *)
Inductive adds (idx0 : UniqueIndex) : tree → list (nat * tuple * bool) → tree → Prop :=
| adds_nil t : adds idx0 t [] t
| adds_null t row key es t' :
    ui_allow_nulls idx0 = true → adds idx0 t es t' → adds idx0 t ((row, key, true) :: es) t'
| adds_entry t p row key es t' :
    path_conflict (key_conflict tx R idx0 ignored key) key t = Ok false →
    adds idx0 (ins p key row t) es t' → adds idx0 t ((row, key, false) :: es) t'.

(** [t'] is [t] with the nodes [l], the last one first, added. *)
Inductive grown (t : tree) : list nat → tree → Prop :=
| grown_nil : grown t [] t
| grown_cons l t' p key row :
    grown t l t' → p ∉ addrs t' → NoDup (addrs t') → ordered t' → grown t (p :: l) (ins p key row t').

Lemma remove_added_spec idx t l t' :
  grown t l t' → tree_ok types idx t' →
  ∃ idx', remove_added idx l = Ok idx' ∧ same_params idx idx' ∧ tree_ok types idx' t.
Proof.
  intros Hg. revert idx. induction Hg as [|l t' p key row Hg IH Hp Hnd Ho]; intros idx Hok; cbn [remove_added].
  { exists idx. done. }
  destruct (RemoveEntry_spec _ _ _ _ _ _ Hok Hp Hnd Ho) as (idx1 & -> & Hs1 & Hok1). run.
  destruct (IH idx1 Hok1) as (idx2 & -> & Hs2 & Hok2). exists idx2. split_and!; [done|by etrans|done].
Qed.

Definition typed_entry (e : nat * tuple * bool) : Prop := e.2 = false → well_typed types e.1.2.

Lemma adds_params idx idx1 t es t' : same_params idx idx1 → adds idx1 t es t' → adds idx t es t'.
Proof.
  intros Hs. induction 1 as [t|t row key es t' Hn Ha IH|t p row key es t' Hp Ha IH].
  - constructor.
  - constructor; [by destruct Hs as (? & ? & ? & ->)|done].
  - apply (adds_entry _ _ p); [|done]. erewrite path_conflict_ext; [done|]. intros. symmetry. by apply key_conflict_params.
Qed.

Lemma AddEntries_spec es idx t l t0 :
  tree_ok types idx t → key_serializer types (ui_keys idx) (ui_serializer idx) → grown t0 l t →
  Forall typed_entry es →
  let '(r, (idx', l')) := AddEntries tx R ignored es (idx, l) in
  r = Undef ∨ (same_params idx idx' ∧ ∃ t', tree_ok types idx' t' ∧ grown t0 l' t' ∧
    (r = Ok tt → adds idx t es t') ∧ r ≠ Undef).
Proof.
  intros Hok Hser Hg Hes. revert idx t l Hok Hser Hg.
  induction Hes as [|[[row key] nl] es Hty Hes IH]; intros idx t l Hok Hser Hg; cbn [AddEntries].
  { right. cbn. split; [done|]. exists t. split_and!; try done. intros _. constructor. }
  destruct nl.
  - run. cbn [fst]. destruct (ui_allow_nulls idx) eqn:Ean.
    + specialize (IH idx t l Hok Hser Hg). destruct (AddEntries tx R ignored es (idx, l)) as [r [idx' l']].
      destruct IH as [->|(Hs & t' & Hok' & Hg' & Ha & Hr)]; [by left|]. right. split; [done|]. exists t'.
      split_and!; try done. intros ->. constructor; auto.
    + right. cbn. split; [done|]. exists t. split_and!; done.
  - run. cbn [fst snd]. specialize (Hty eq_refl). cbn [fst snd] in Hty.
    pose proof (AddEntry_spec types idx t tx R ignored key row Hok Hser Hty) as Hadd.
    destruct (path_conflict (key_conflict tx R idx ignored key) key t) as [[]| e|] eqn:Hpc.
    + rewrite Hadd. run. right. cbn. split; [done|]. exists t. done.
    + destruct Hadd as (idx1 & -> & Hs1 & Hok1). run.
      assert (key_serializer types (ui_keys idx1) (ui_serializer idx1)) as Hser1 by (by destruct Hs1 as (? & ? & ? & ->)).
      specialize (IH idx1 (ins (ui_next idx) key row t) (ui_next idx :: l) Hok1 Hser1).
      destruct (AddEntries tx R ignored es (idx1, ui_next idx :: l)) as [r [idx' l']].
      destruct IH as [->|(Hs & t' & Hok' & Hg' & Ha & Hr)]; [|by left|].
      { constructor; [done|by eapply next_fresh|apply Hok|apply Hok]. }
      right. split; [by etrans|]. exists t'. split_and!; try done. intros ->.
      apply (adds_entry _ _ (ui_next idx)); [done|]. eapply adds_params; eauto.
    + rewrite Hadd. run. right. cbn. split; [done|]. exists t. split_and!; done.
    + rewrite Hadd. run. by left.
Qed.

(** Nothing undefined happens when the conflict test is defined. *)
Lemma path_conflict_defined conflict key t :
  (∀ row, conflict row ≠ Undef) → path_conflict conflict key t ≠ Undef.
Proof.
  intros Hc. induction t as [|q k r lt IHl rt IHr]; cbn [path_conflict]; [done|]. specialize (Hc r).
  destruct (lex_compare _ _); cbn [is_eq is_lt]; [|done|done]. by destruct (conflict r) as [[]| |].
Qed.

Lemma AddEntries_defined es idx t l :
  tree_ok types idx t → key_serializer types (ui_keys idx) (ui_serializer idx) → Forall typed_entry es →
  (∀ key row, well_typed types key → key_conflict tx R idx ignored key row ≠ Undef) →
  (AddEntries tx R ignored es (idx, l)).1 ≠ Undef.
Proof.
  intros Hok Hser Hes. revert idx t l Hok Hser. induction Hes as [|[[row key] nl] es Hty Hes IH];
    intros idx t l Hok Hser Hdef; cbn [AddEntries]; [done|]. destruct nl.
  - run. cbn [fst]. destruct (ui_allow_nulls idx); [by eapply IH|done].
  - run. cbn [fst snd]. specialize (Hty eq_refl). cbn [fst snd] in Hty.
    pose proof (AddEntry_spec types idx t tx R ignored key row Hok Hser Hty) as Hadd.
    destruct (path_conflict (key_conflict tx R idx ignored key) key t) as [[]| e|] eqn:Hpc.
    + by rewrite Hadd.
    + destruct Hadd as (idx1 & -> & Hs1 & Hok1). run. eapply IH; [done|by destruct Hs1 as (? & ? & ? & ->)|].
      intros key' row' Hk'. rewrite (key_conflict_params _ _ idx) by done. by apply Hdef.
    + by rewrite Hadd.
    + by apply path_conflict_defined in Hpc; [|intros; apply Hdef].
Qed.

(** What a successful statement has checked and added. *)
Lemma adds_entries idx t es t' k row :
  adds idx t es t' → (k, row) ∈ entries t' ↔ (k, row) ∈ entries t ∨ (row, k, false) ∈ es.
Proof.
  induction 1 as [t|t row' key es t' Hn Ha IH|t p row' key es t' Hp Ha IH].
  - rewrite elem_of_nil. tauto.
  - rewrite IH, elem_of_cons. split; [tauto|]. intros [?|[?|?]]; [tauto|simplify_eq|tauto].
  - rewrite IH, entries_ins, elem_of_cons. split; intros [H|H]; try tauto.
    + destruct H; [right; left; by simplify_eq|tauto].
    + destruct H; [left; left; by simplify_eq|tauto].
Qed.

Lemma adds_checked idx t es t' k r row key :
  ordered t → adds idx t es t' → (row, key, false) ∈ es → (k, r) ∈ entries t → enc k = enc key →
  key_conflict tx R idx ignored key r = Ok false.
Proof.
  intros Ho Ha. revert Ho. induction Ha as [t|t row' key' es t' Hn Ha IH|t p row' key' es t' Hp Ha IH]; intros Ho Hin He Hk.
  - by apply elem_of_nil in Hin.
  - apply elem_of_cons in Hin as [?|Hin]; [simplify_eq|auto].
  - apply elem_of_cons in Hin as [?|Hin]; simplify_eq.
    + by eapply path_conflict_spec.
    + apply IH; [by apply ordered_ins|done|apply entries_ins; auto|done].
Qed.

Lemma adds_distinct idx t es t' i j ri rj ki kj :
  ordered t → adds idx t es t' → es !! i = Some (ri, ki, false) → es !! j = Some (rj, kj, false) → i < j →
  enc ki = enc kj → key_conflict tx R idx ignored kj ri = Ok false.
Proof.
  intros Ho Ha. revert i j Ho. induction Ha as [t|t row' key' es t' Hn Ha IH|t p row' key' es t' Hp Ha IH];
    intros i j Ho Hi Hj Hlt Hk; [done| |]; destruct j as [|j]; try lia; destruct i as [|i]; simplify_eq/=.
  - eapply IH; [done|exact Hi|exact Hj|lia|done].
  - eapply adds_checked; [by apply ordered_ins|exact Ha|by eapply list_elem_of_lookup_2|apply entries_ins; by left|done].
  - eapply IH; [by apply ordered_ins|exact Hi|exact Hj|lia|done].
Qed.
End statement.

(** ** Several indexes *)

(** The same tree (the next free address may differ). *)
Definition same_tree (a b : UniqueIndex) : Prop :=
  same_params a b ∧ ui_nodes a = ui_nodes b ∧ ui_root a = ui_root b.

(** A round of the loop that leaves a trace to unwind. *)
Definition unwindable (types : list TypeId) (body : M (UniqueIndex * list nat) unit) (idx : UniqueIndex) : Prop :=
  ∃ t, tree_ok types idx t ∧
  let '(r, (idx', l)) := body (idx, []) in
  r ≠ Undef ∧ same_params idx idx' ∧ ∃ t', tree_ok types idx' t' ∧ grown t l t'.

Lemma unwind_index types body idx r idx' l :
  unwindable types body idx → body (idx, []) = (r, (idx', l)) →
  ∃ idx'', remove_added idx' l = Ok idx'' ∧ same_tree idx idx''.
Proof.
  intros (t & Hok & Hb) E. rewrite E in Hb. destruct Hb as (_ & Hs & t' & Hok' & Hg).
  destruct (remove_added_spec types idx' t l t' Hg Hok') as (idx'' & -> & Hs' & Hok''). exists idx''.
  split; [done|]. split; [by etrans|]. eapply tree_ok_unique; eauto.
Qed.

Lemma indexes_loop_spec body indexes :
  Forall (fun idx => ∃ types, unwindable types body idx) indexes →
  match indexes_loop body indexes with
  | (Undef, _) => False
  | (Throw _, rest) => Forall2 same_tree indexes rest
  | (Ok _, rest) => Forall2 (fun idx idx' => ∃ l, body (idx, []) = (Ok tt, (idx', l))) indexes rest
  end.
Proof.
  induction 1 as [|idx indexes [types Hu] _ IH]; [constructor|]. cbn [indexes_loop].
  destruct (body (idx, [])) as [r [idx' l]] eqn:Eb. pose proof (unwind_index _ _ _ _ _ _ Hu Eb) as (idx'' & Hr & Hst).
  destruct Hu as (t & Hok & Hb). rewrite Eb in Hb. destruct Hb as (Hdef & _).
  destruct r as [[]| e|]; cbn [fst snd]; [|rewrite Hr|done].
  - destruct (indexes_loop body indexes) as [[[]|e|] rest]; cbn [fst snd]; [|rewrite Hr|done].
    + constructor; eauto.
    + by constructor.
  - constructor; [done|]. clear. induction indexes; constructor; [|done].
    split; [by destruct a; do 3 eexists|done].
Qed.

(** ** Rows of the table *)

(** Row number [n] of the table lives in the chunk [cp]. *)
Definition table_row (R : rows) (tp n cp : nat) (c : StorageChunk) : Prop :=
  GetChunk R tp n = Ok cp ∧ chunks R !! cp = Some c.

Lemma table_row_place R H tp tbl n cp c :
  data_wf R H → tables R !! tp = Some tbl → table_row R tp n cp c →
  sc_table c = tp ∧ sc_start c ≤ n < sc_start c + sc_count c.
Proof.
  intros Hd Ht [Hg Hc]. destruct (GetChunk_spec R H tp tbl n Hd Ht) as (cps & [_ Hlist] & Hm). rewrite Hg in Hm.
  destruct Hm as [Hin (c' & Hc' & Hr)]. rewrite Hc in Hc'. injection Hc' as <-.
  destruct (chunk_list_lookup _ _ _ _ _ _ Hlist Hin) as (c' & Hc' & Htp & _). rewrite Hc in Hc'. by injection Hc' as <-.
Qed.

(** The conflict test is defined; past the end of the table it throws. *)
Lemma key_conflict_cases R H tp tbl types idx tx ignored key n :
  links_wf R H → data_wf R H → index_of R tp tbl types idx → well_typed types key →
  (key_conflict tx R idx ignored key n = Throw OutOfRangeException ∧ (∀ cp, GetChunk R tp n ≠ Ok cp)) ∨
  ∃ cp c, table_row R tp n cp c ∧ key_conflict tx R idx ignored key n =
    Ok (existsb (holds_key (ui_keys idx) key)
          ((if decide (n ∈ ignored) then [] else [base_value c (n - sc_start c)]) ++ passed tx (H cp (n - sc_start c)))).
Proof.
  intros Hl Hd Hidx Hkey. pose proof Hidx as [Ht Htb _ _ _ _].
  destruct (GetChunk_spec R H tp tbl n Hd Htb) as (cps & [_ Hlist] & Hm).
  destruct (GetChunk R tp n) as [cp|e|] eqn:Hg; [|left|done].
  - right. destruct Hm as [Hin (c & Hc & Hr)]. exists cp, c. split; [done|].
    destruct (chunk_list_lookup _ _ _ _ _ _ Hlist Hin) as (c' & Hc' & Htp & _). rewrite Hc in Hc'. injection Hc' as <-.
    by eapply key_conflict_spec.
  - destruct Hm as [-> _]. split; [|done]. unfold key_conflict. by rewrite Ht, Hg.
Qed.

(** Past the last chunk there are no rows. *)
Lemma no_row_past_end R H tp tbl c n :
  data_wf R H → tables R !! tp = Some tbl → chunks R !! dt_tail_chunk tbl = Some c →
  sc_start c + sc_count c ≤ n → ∀ cp, GetChunk R tp n ≠ Ok cp.
Proof.
  intros Hd Ht Hc Hn cp Hg. destruct (GetChunk_spec R H tp tbl n Hd Ht) as (cps & [_ Hlist] & Hm). rewrite Hg in Hm.
  destruct Hm as [Hin (c' & Hc' & Hr)]. revert Hlist Hin. clear Hg. generalize 0. induction cps as [|cp0 cps IH]; intros st.
  { intros [] . }
  intros (c0 & Hc0 & Htp & Hst & Hnx & Hrest) Hin. destruct cps as [|cp1 cps].
  - apply list_elem_of_singleton in Hin as ->. subst cp0. simplify_eq. lia.
  - destruct Hrest as [Hcnt Hrest]. apply elem_of_cons in Hin as [->|Hin]; [|by eapply IH].
    simplify_eq. assert (∀ l st', chunk_list_wf R (sc_table c') st' (dt_tail_chunk tbl) l → st' ≤ sc_start c) as Hle.
    { clear -Hc. induction l as [|x l IH]; intros st'; [by intros []|]. intros (cx & Hcx & _ & Hs & _ & Hr).
      destruct l as [|y l]; [subst; by simplify_eq|]. destruct Hr as [_ Hr]. apply IH in Hr. lia. }
    apply Hle in Hrest. lia.
Qed.

(** ** Appending rows *)

Section append.
Context (R : rows) (H : hist) (tp : nat) (tbl : DataTable) (last : StorageChunk).
Context (Hl : links_wf R H) (Hd : data_wf R H) (Ht : tables R !! tp = Some tbl).
Context (Hlast : chunks R !! dt_tail_chunk tbl = Some last).
Context (chunk : DataChunk) (Hok : chunk_ok (dt_types tbl) chunk) (tx : Transaction).

Let first := sc_start last + sc_count last.

(** Row [k] of the chunk has a NULL in a key column. *)
Definition key_null (keys : list nat) (k : nat) : Prop :=
  ∃ c v, c ∈ keys ∧ dc_data chunk !! c = Some v ∧ sel_at (dc_sel chunk) k ∈ v_null v.

Definition null_bit (keys : list nat) (k : nat) : bool :=
  existsb (fun c => match dc_data chunk !! c with Some v => bool_decide (sel_at (dc_sel chunk) k ∈ v_null v) | None => false end) keys.

Lemma null_bit_spec keys k : null_bit keys k = true ↔ key_null keys k.
Proof.
  unfold null_bit, key_null. rewrite existsb_exists. split.
  - intros (c & Hin%list_elem_of_In & Hb). destruct (dc_data chunk !! c) as [v|] eqn:E; [|done].
    apply bool_decide_eq_true_1 in Hb. eauto.
  - intros (c & v & Hin & Hv & Hn). exists c. split; [by apply list_elem_of_In|]. rewrite Hv. by apply bool_decide_eq_true_2.
Qed.

Lemma key_columns types keys :
  Forall2 (fun k ty => dt_types tbl !! k = Some ty) keys types → T_POINTER ∉ types → key_columns_ok chunk keys types.
Proof.
  intros Hk Hp. unfold key_columns_ok. induction Hk as [|k ty keys types Hty _ IH]; [constructor|].
  constructor; [|apply IH; intros ?; apply Hp; by right]. split; [intros ->; apply Hp; by left|].
  destruct (Forall2_lookup_l _ _ _ _ _ Hok Hty) as (v & Hv & Hvt & Hvok & Hn). exists v. done.
Qed.

Lemma key_nulls_spec types keys :
  Forall2 (fun k ty => dt_types tbl !! k = Some ty) keys types →
  ∃ nulls, key_nulls chunk keys = Ok nulls ∧
    ∀ k, bool_decide (sel_at (dc_sel chunk) k ∈ nulls) = null_bit keys k.
Proof.
  intros Hk. unfold key_nulls.
  assert (∃ vs, mapM (fun k => deref (dc_data chunk !! k)) keys = Ok vs ∧
    Forall2 (fun k v => dc_data chunk !! k = Some v) keys vs) as (vs & -> & Hvs).
  { induction Hk as [|k ty keys types Hty _ (vs & Hm & IH)]; [by exists []|].
    destruct (Forall2_lookup_l _ _ _ _ _ Hok Hty) as (v & Hv & _). exists (v :: vs). cbn [mapM]. rewrite Hv. run.
    rewrite Hm. split; [done|]. by constructor. }
  run. eexists; split; [done|]. intros k. apply eq_true_iff_eq. rewrite bool_decide_eq_true, null_bit_spec.
  rewrite elem_of_union_list. unfold key_null. split.
  - intros (X & (v & -> & [i Hi]%list_elem_of_lookup)%list_elem_of_fmap & Hk'). destruct (Forall2_lookup_r _ _ _ _ _ Hvs Hi) as (c & Hc & Hv).
    exists c, v. split_and!; [by eapply list_elem_of_lookup_2|done|done].
  - intros (c & v & [i Hi]%list_elem_of_lookup & Hv & Hk'). destruct (Forall2_lookup_l _ _ _ _ _ Hvs Hi) as (v' & Hv' & E).
    assert (v' = v) as -> by congruence. exists (v_null v). split; [|done]. apply list_elem_of_fmap. exists v. split; [done|].
    by eapply list_elem_of_lookup_2.
Qed.

(** The entries [Append] adds to an index. *)
Definition append_entries (keys : list nat) : list (nat * tuple * bool) :=
  (fun k => (first + k, chunk_key chunk keys k, null_bit keys k)) <$> seq 0 (chunk_size chunk).

Lemma zip_append_entries keys :
  zip (zip (seq first (chunk_size chunk)) (chunk_key chunk keys <$> seq 0 (chunk_size chunk)))
    (null_bit keys <$> seq 0 (chunk_size chunk)) = append_entries keys.
Proof.
  unfold append_entries. apply list_eq. intros i. rewrite list_lookup_fmap, !lookup_zip_with, !list_lookup_fmap.
  destruct (decide (i < chunk_size chunk)).
  - rewrite !lookup_seq_lt by done. done.
  - rewrite !lookup_seq_ge by lia. done.
Qed.

Lemma append_index_unfold types idx l :
  index_of R tp tbl types idx → T_POINTER ∉ types →
  append_index tx R chunk first (idx, l) =
    (if negb (ui_allow_nulls idx) && existsb id (null_bit (ui_keys idx) <$> seq 0 (chunk_size chunk))
     then (Throw ConstraintException, (idx, l))
     else AddEntries tx R ∅ (append_entries (ui_keys idx)) (idx, l)).
Proof.
  intros Hidx Hp. unfold append_index. run. cbn [fst].
  destruct (key_nulls_spec types (ui_keys idx) (io_types _ _ _ _ _ Hidx)) as (nulls & -> & Hn). run.
  unfold boolean_array_from_nullmask, exec_indexes. rewrite Nat.sub_0_r.
  assert ((fun ik : nat * nat => bool_decide (ik.1 ∈ nulls)) <$> ((fun k => (sel_at (dc_sel chunk) k, k)) <$> seq 0 (chunk_size chunk))
    = null_bit (ui_keys idx) <$> seq 0 (chunk_size chunk)) as ->.
  { rewrite <- list_fmap_compose. apply list_fmap_ext. intros i k _. simpl. apply Hn. }
  destruct (negb _ && _); [done|].
  destruct (key_serializer_inv _ _ _ (io_serializer _ _ _ _ _ Hidx)) as (Hts & Htc & _).
  rewrite (Serialize_chunk_spec _ _ _ _ Htc Hts) by (apply key_columns; [apply Hidx|done]). run.
  by rewrite zip_append_entries.
Qed.

Lemma append_entries_typed types keys :
  Forall2 (fun k ty => dt_types tbl !! k = Some ty) keys types → T_POINTER ∉ types →
  Forall (typed_entry types) (append_entries keys).
Proof.
  intros Hk Hp. apply Forall_forall. intros e (k & -> & Hin)%list_elem_of_fmap. intros _. cbn [fst snd].
  apply elem_of_seq in Hin. apply chunk_key_typed; [by apply key_columns|lia].
Qed.

Lemma append_index_spec types idx t :
  index_of R tp tbl types idx → tree_ok types idx t → T_POINTER ∉ types →
  let '(r, (idx', l)) := append_index tx R chunk first (idx, []) in
  r ≠ Undef ∧ same_params idx idx' ∧ ∃ t', tree_ok types idx' t' ∧ grown t l t' ∧
    (r = Ok tt → adds tx R ∅ idx t (append_entries (ui_keys idx)) t').
Proof.
  intros Hidx Htree Hp. rewrite (append_index_unfold types) by done. destruct (negb _ && _).
  { split; [done|]. split; [done|]. exists t. split_and!; [done|constructor|done]. }
  pose proof (append_entries_typed types (ui_keys idx) (io_types _ _ _ _ _ Hidx) Hp) as Hty.
  pose proof (AddEntries_spec tx R ∅ types (append_entries (ui_keys idx)) idx t [] t Htree
    (io_serializer _ _ _ _ _ Hidx) (grown_nil t) Hty) as Hs.
  pose proof (AddEntries_defined tx R ∅ types (append_entries (ui_keys idx)) idx t [] Htree
    (io_serializer _ _ _ _ _ Hidx) Hty) as Hdef.
  destruct (AddEntries tx R ∅ _ (idx, [])) as [r [idx' l]]. cbn [fst] in Hdef.
  destruct Hs as [->|(Hsp & t' & Hok' & Hg & Ha & Hr)].
  - exfalso. apply Hdef; [|done]. intros key row Hkey.
    destruct (key_conflict_cases R H tp tbl types idx tx ∅ key row Hl Hd Hidx Hkey) as [[-> _]|(cp & c & _ & ->)]; done.
  - split_and!; [done|done|]. exists t'. done.
Qed.

Lemma append_unwindable types idx t :
  index_of R tp tbl types idx → tree_ok types idx t → T_POINTER ∉ types →
  unwindable types (append_index tx R chunk first) idx.
Proof.
  intros Hidx Htree Hp. exists t. split; [done|]. pose proof (append_index_spec types idx t Hidx Htree Hp) as Hs.
  destruct (append_index _ _ _ _ _) as [r [idx' l]]. destruct Hs as (? & ? & t' & ? & ? & _). eauto 10.
Qed.

(** The index has an entry for every value of every row whose key is not NULL. *)
Definition null_free (types : list TypeId) (key : tuple) : Prop :=
  Forall2 (fun ty x => IsNullValue ty x = Ok false) types key.

Definition covers (types : list TypeId) (keys : list nat) (t : tree) : Prop :=
  ∀ n cp c tup, table_row R tp n cp c →
    Some tup ∈ base_value c (n - sc_start c) :: (n_old <$> H cp (n - sc_start c)) →
    null_free types (key_of keys tup) → ∃ k, (k, n) ∈ entries t ∧ enc k = enc (key_of keys tup).

Lemma visible_old tx' v ns : visible tx' v ns ∈ v :: (n_old <$> ns).
Proof.
  revert v. induction ns as [|n ns IH]; intros v; simpl; [by constructor|].
  destruct (sees tx' (n_num n)); [by constructor|]. right. apply IH.
Qed.

Lemma appended_key types idx t t' k :
  index_of R tp tbl types idx → tree_ok types idx t → T_POINTER ∉ types →
  adds tx R ∅ idx t (append_entries (ui_keys idx)) t' → k < chunk_size chunk → ¬ key_null (ui_keys idx) k →
  (first + k, chunk_key chunk (ui_keys idx) k, false) ∈ append_entries (ui_keys idx).
Proof.
  intros _ _ _ _ Hk Hn. apply list_elem_of_fmap. exists k. split; [|apply elem_of_seq; lia].
  do 2 f_equal. destruct (null_bit (ui_keys idx) k) eqn:E; [|done]. by apply null_bit_spec in E.
Qed.

(** A successful append: no current value and no value the transaction sees
    holds one of the new keys, the new keys are different, and the index has
    an entry for each of them. *)
Lemma append_sound types idx t t' :
  index_of R tp tbl types idx → tree_ok types idx t → T_POINTER ∉ types → covers types (ui_keys idx) t →
  adds tx R ∅ idx t (append_entries (ui_keys idx)) t' →
  (∀ k n cp c tup, k < chunk_size chunk → ¬ key_null (ui_keys idx) k → table_row R tp n cp c →
     base_value c (n - sc_start c) = Some tup ∨ view R H tx cp (n - sc_start c) = Some tup →
     null_free types (key_of (ui_keys idx) tup) →
     enc (key_of (ui_keys idx) tup) ≠ enc (chunk_key chunk (ui_keys idx) k)) ∧
  (∀ k k', k < k' → k' < chunk_size chunk → ¬ key_null (ui_keys idx) k → ¬ key_null (ui_keys idx) k' →
     enc (chunk_key chunk (ui_keys idx) k) ≠ enc (chunk_key chunk (ui_keys idx) k')) ∧
  (∀ k, k < chunk_size chunk → ¬ key_null (ui_keys idx) k →
     (chunk_key chunk (ui_keys idx) k, first + k) ∈ entries t').
Proof.
  intros Hidx Htree Hp Hcov Ha. pose proof (key_columns _ _ (io_types _ _ _ _ _ Hidx) Hp) as Hkc. split_and!.
  - intros k n cp c tup Hk Hn Hrow Hval Hnf Heq.
    destruct (table_row_place R H tp tbl n cp c Hd Ht Hrow) as [Htp Hr].
    assert (Some tup ∈ base_value c (n - sc_start c) :: passed tx (H cp (n - sc_start c))) as Hin.
    { destruct Hval as [<-|Hv]; [by constructor|]. unfold view in Hv. destruct Hrow as [_ Hc]. rewrite Hc in Hv.
      rewrite decide_True in Hv by lia. rewrite <- Hv. apply visible_passed. }
    assert (Some tup ∈ base_value c (n - sc_start c) :: (n_old <$> H cp (n - sc_start c))) as Hin'.
    { destruct Hval as [<-|Hv]; [by constructor|]. unfold view in Hv. destruct Hrow as [_ Hc]. rewrite Hc in Hv.
      rewrite decide_True in Hv by lia. rewrite <- Hv. apply visible_old. }
    destruct (Hcov n cp c tup Hrow Hin' Hnf) as (k' & Hent & Hek).
    pose proof (adds_checked tx R ∅ idx t _ t' k' n (first + k) (chunk_key chunk (ui_keys idx) k) (to_ordered _ _ _ Htree) Ha
      (appended_key types idx t t' k Hidx Htree Hp Ha Hk Hn) Hent ltac:(congruence)) as Hc.
    destruct (key_conflict_cases R H tp tbl types idx tx ∅ (chunk_key chunk (ui_keys idx) k) n Hl Hd Hidx) as [[E _]|(cp' & c' & [Hg' Hc'] & E)];
      [by apply chunk_key_typed|congruence|]. destruct Hrow as [Hg Hcc]. assert (cp' = cp ∧ c' = c) as [-> ->] by (split; congruence).
    rewrite E in Hc. injection Hc as Hc. rewrite decide_False in Hc by set_solver.
    assert (existsb (holds_key (ui_keys idx) (chunk_key chunk (ui_keys idx) k))
      ([base_value c (n - sc_start c)] ++ passed tx (H cp (n - sc_start c))) = true) as Hex; [|congruence].
    apply existsb_exists. exists (Some tup). split; [by apply list_elem_of_In|]. by apply holds_key_true.
  - intros k k' Hlt Hk' Hn Hn' Heq.
    assert (∀ j, j < chunk_size chunk → ¬ key_null (ui_keys idx) j →
      append_entries (ui_keys idx) !! j = Some (first + j, chunk_key chunk (ui_keys idx) j, false)) as Hlk.
    { intros j Hj Hnj. unfold append_entries. rewrite list_lookup_fmap, lookup_seq_lt by done. simpl. do 2 f_equal.
      destruct (null_bit (ui_keys idx) j) eqn:E; [|done]. by apply null_bit_spec in E. }
    pose proof (adds_distinct tx R ∅ idx t _ t' k k' _ _ _ _ (to_ordered _ _ _ Htree) Ha (Hlk k ltac:(lia) Hn) (Hlk k' Hk' Hn') Hlt Heq) as Hc.
    destruct (key_conflict_cases R H tp tbl types idx tx ∅ (chunk_key chunk (ui_keys idx) k') (first + k) Hl Hd Hidx) as [[E _]|(cp & c & [Hg _] & _)];
      [by apply chunk_key_typed|congruence|].
    by eapply (no_row_past_end R H tp tbl last (first + k)) in Hg; [| | | |unfold first; lia].
  - intros k Hk Hn. eapply adds_entries; [done|]. right. by eapply appended_key.
Qed.
End append.
