(* ===== verification/UniqueKeys.v ===== *)
(** * Primary keys and unique constraints

    What a statement can rely on when it goes through the unique indexes of a
    table: it succeeds only if its keys are new, and a failing statement
    leaves every index as it was. *)

From Stdlib Require Import ZArith Lia.
From stdpp Require Import base gmap list strings option numbers sorting.
From S2P Require Import Prelude Types Vector Tuple Serializer KeyTuples Storage Versions DataTable TableScan TableOps TableAppend WriteAheadLog UndoBuffer UndoProofs TransactionManager TransactionProofs Database Isolation UniqueIndex UniqueProofs.

(** An index in use: it belongs to the table, its tree is well formed, and it
    has an entry for every value of every row. *)
Record index_wf (R : rows) (H : hist) (tp : nat) (tbl : DataTable) (types : list TypeId) (idx : UniqueIndex)
    (t : tree) : Prop := {
  iw_of : index_of R tp tbl types idx;
  iw_tree : tree_ok types idx t;
  iw_types : T_POINTER ∉ types;
  iw_covers : covers R H tp types (ui_keys idx) t }.

(** Row [k] of a chunk adds a key that the table does not have yet: no current
    value and no value the transaction sees holds it, no other row of the
    chunk does, and the index [t'] has an entry for it. *)
Definition new_key (R : rows) (H : hist) (tx : Transaction) (tp : nat) (chunk : DataChunk) (types : list TypeId)
    (keys : list nat) (first : nat) (t' : tree) (k : nat) : Prop :=
  (∀ n cp c tup, table_row R tp n cp c →
     base_value c (n - sc_start c) = Some tup ∨ view R H tx cp (n - sc_start c) = Some tup →
     null_free types (key_of keys tup) → enc (key_of keys tup) ≠ enc (chunk_key chunk keys k)) ∧
  (∀ k', k' < chunk_size chunk → k' ≠ k → ¬ key_null chunk keys k' →
     enc (chunk_key chunk keys k') ≠ enc (chunk_key chunk keys k)) ∧
  (chunk_key chunk keys k, first + k) ∈ entries t'.

Section theorems.
Context (R : rows) (H : hist) (tp : nat) (tbl : DataTable) (last : StorageChunk).
Context (Hl : links_wf R H) (Hd : data_wf R H) (Ht : tables R !! tp = Some tbl).
Context (Hlast : chunks R !! dt_tail_chunk tbl = Some last).
Context (chunk : DataChunk) (Hok : chunk_ok (dt_types tbl) chunk) (tx : Transaction).
Context (indexes : list UniqueIndex).
Context (Hidx : Forall (fun idx => ∃ types t, index_wf R H tp tbl types idx t) indexes).

Lemma append_loop :
  Forall (fun idx => ∃ types, unwindable types (append_index tx R chunk (sc_start last + sc_count last)) idx) indexes.
Proof.
  eapply Forall_impl; [exact Hidx|]. intros idx (types & t & [Hof Htree Hp _]). exists types.
  by eapply append_unwindable.
Qed.

(** C11. A statement that the unique indexes accept adds only new keys: for
    every index and every row whose key has no NULL, the key is held by no
    current row, by no row version the transaction sees and by no other row of
    the statement, and the index has got an entry for it. *)
Theorem unique_append_new_keys indexes' :
  UniqueIndex_Append tx R indexes chunk (sc_start last + sc_count last) = (Ok tt, indexes') →
  Forall2 (fun idx idx' => ∀ types t, index_wf R H tp tbl types idx t →
    ∃ t', tree_ok types idx' t' ∧
      ∀ k, k < chunk_size chunk → ¬ key_null chunk (ui_keys idx) k →
        new_key R H tx tp chunk types (ui_keys idx) (sc_start last + sc_count last) t' k) indexes indexes'.
Proof.
  intros Happ. pose proof (indexes_loop_spec _ _ append_loop) as Hs. unfold UniqueIndex_Append in Happ. rewrite Happ in Hs.
  eapply Forall2_impl; [exact Hs|]. intros idx idx' [l Hb] types t [Hof Htree Hp Hcov].
  pose proof (append_index_spec R H tp tbl last Hl Hd chunk Hok tx types idx t Hof Htree Hp) as Hspec.
  rewrite Hb in Hspec. destruct Hspec as (_ & _ & t' & Htree' & _ & Ha). exists t'. split; [done|].
  destruct (append_sound R H tp tbl last Hl Hd Ht Hlast chunk Hok tx types idx t t' Hof Htree Hp Hcov (Ha eq_refl))
    as (Hnew & Hdist & Hent).
  intros k Hk Hn. split_and!; [intros; by eapply Hnew| |by apply Hent].
  intros k' Hk' Hne Hn'. destruct (decide (k < k')); [|by apply Hdist; [lia|..]].
  intros E. by eapply (Hdist k k').
Qed.

(** C12. A statement that violates a constraint of one index leaves all indexes
    with the trees they had: the entries it had already added, to this and to
    the earlier indexes, are removed again.  Neither way runs into a dangling
    pointer or a failed assertion. *)
Theorem unique_append_atomic :
  match UniqueIndex_Append tx R indexes chunk (sc_start last + sc_count last) with
  | (Ok _, indexes') => length indexes' = length indexes
  | (Throw _, indexes') => Forall2 same_tree indexes indexes'
  | (Undef, _) => False
  end.
Proof.
  pose proof (indexes_loop_spec _ _ append_loop) as Hs. unfold UniqueIndex_Append.
  destruct (indexes_loop _ _) as [[]]; [|done|done]. symmetry. by eapply Forall2_length.
Qed.
End theorems.

(** ** An example: a primary key on a table with the rows 1 and 2 *)

Module KeyExample.
Import Isolation.Example.
Definition R : rows := db_rows db4.
Definition tx : Transaction := tx_at db5 0.
Definition idx0 : UniqueIndex :=
  the_result (mkUniqueIndex (mkTupleSerializer [] [] [] 0 [] false) (mkTupleComparer (mkTupleSerializer [] [] [] 0 [] false) [] []) 0 [] false ∅ 0 None)
    (NewUniqueIndex (db_rows db2) 0 [T_INTEGER] [0] false).
Definition tbl : DataTable := default (mkDataTable "" "" [] (ui_serializer idx0) 0 [] 0 0 0) (tables R !! 0).
Definition last : StorageChunk := default (NewStorageChunk 0 [] 0) (chunks R !! dt_tail_chunk tbl).
(** The index after the rows 1 and 2 went through it. *)
Definition indexes : list UniqueIndex :=
  snd (UniqueIndex_Append (tx_at db2 0) (db_rows db2) [idx0] (one_column [1; 2]%Z) 0).
Definition idx1 : UniqueIndex := default idx0 (indexes !! 0).
Definition t1 : tree := Node 0 [Num 4 1] 0 (Node 1 [Num 4 2] 1 Leaf Leaf) Leaf.

(** A new key, a key of the table, the same key twice. *)
Lemma outcomes :
  fst (UniqueIndex_Append tx R indexes (one_column [3; 4]%Z) 2) = Ok tt ∧
  fst (UniqueIndex_Append tx R indexes (one_column [3; 2]%Z) 2) = Throw ConstraintException ∧
  fst (UniqueIndex_Append tx R indexes (one_column [3; 3]%Z) 2) = Throw OutOfRangeException.
Proof. vm_compute. auto. Qed.

Lemma index_of1 : index_of R 0 tbl [T_INTEGER] idx1.
Proof.
  split; [vm_compute; reflexivity|vm_compute; reflexivity|split; vm_compute; reflexivity| | |vm_compute; reflexivity].
  - split; [vm_compute; reflexivity|discriminate].
  - change (Forall2 (fun k ty => dt_types tbl !! k = Some ty) [0] [T_INTEGER]). repeat constructor.
Qed.

Lemma tree_ok1 : tree_ok [T_INTEGER] idx1 t1.
Proof.
  split; [vm_compute; reflexivity| |vm_compute; reflexivity| | | |].
  - split; [vm_compute; reflexivity|]. split; [|done]. split; [vm_compute; reflexivity|done].
  - apply (bool_decide_unpack _). vm_compute. exact I.
  - change (Forall (fun p => p < 2) [0; 1]). repeat constructor; lia.
  - cbn [t1 ordered entries app]. split_and!; try done; repeat constructor; vm_compute; congruence.
  - repeat constructor.
Qed.

Lemma history_empty H cp r : links_wf R H → H cp r = [].
Proof.
  intros Hl. destruct (chunks R !! cp) as [c|] eqn:Hc; [|by apply (lw_nochunk _ _ Hl)].
  pose proof (lw_pointer R H cp c r Hl Hc) as Hp. destruct (H cp r) as [|n ns]; [done|]. exfalso.
  assert (chunks R = {[0 := last]}) as E by (vm_compute; reflexivity). rewrite E in Hc.
  apply lookup_singleton_Some in Hc as [<- <-].
  assert (version_pointers last = ∅) as Ev by (vm_compute; reflexivity). by rewrite Ev, lookup_empty in Hp.
Qed.
Lemma covers1 H : links_wf R H → data_wf R H → covers R H 0 [T_INTEGER] (ui_keys idx1) t1.
Proof.
  intros Hl Hd n cp c tup Hrow Hin Hnf. destruct (table_row_place R H 0 tbl n cp c Hd) as [_ Hn];
    [vm_compute; reflexivity|done|]. destruct Hrow as [_ Hc]. rewrite history_empty in Hin by done.
  assert (chunks R = {[0 := last]}) as E by (vm_compute; reflexivity). rewrite E in Hc.
  apply lookup_singleton_Some in Hc as [<- <-]. apply list_elem_of_singleton in Hin.
  change (sc_start last) with 0 in Hn. change (sc_count last) with 2 in Hn.
  assert (n = 0 ∨ n = 1) as [->| ->] by lia.
  - vm_compute in Hin. injection Hin as ->. exists [Num 4 1]. split; [left|reflexivity].
  - vm_compute in Hin. injection Hin as ->. exists [Num 4 2]. split; [right; left|reflexivity].
Qed.

Lemma wf : ∃ H, links_wf R H ∧ data_wf R H ∧ Forall (fun idx => ∃ types t, index_wf R H 0 tbl types idx t) indexes.
Proof.
  destruct (reachable_db_inv (IX:=unit) db4 reachable4) as [H Hinv].
  pose proof (co_links _ _ _ _ _ _ _ (inv_core _ _ Hinv)) as Hl.
  exists H. split; [exact Hl|]. split; [apply (co_data _ _ _ _ _ _ _ (inv_core _ _ Hinv))|].
  assert (indexes = [idx1]) as -> by (vm_compute; reflexivity). constructor; [|constructor].
  exists [T_INTEGER], t1. split; [apply index_of1|apply tree_ok1|by intros ?%list_elem_of_singleton|apply covers1; [done|apply (co_data _ _ _ _ _ _ _ (inv_core _ _ Hinv))]].
Qed.

Lemma chunk_ok1 zs : Forall (fun z => cell_has_type T_INTEGER (Num 4 z) = true) zs → chunk_ok (dt_types tbl) (one_column zs).
Proof. change (dt_types tbl) with [T_INTEGER]. apply chunk_ok_one. Qed.
End KeyExample.

Lemma unique_append_new_keys_witness :
  ∃ H indexes', UniqueIndex_Append KeyExample.tx KeyExample.R KeyExample.indexes (Isolation.Example.one_column [3; 4]%Z) 2
      = (Ok tt, indexes') ∧
    Forall2 (fun idx idx' => ∀ types t, index_wf KeyExample.R H 0 KeyExample.tbl types idx t →
      ∃ t', tree_ok types idx' t' ∧
        ∀ k, k < 2 → ¬ key_null (Isolation.Example.one_column [3; 4]%Z) (ui_keys idx) k →
          new_key KeyExample.R H KeyExample.tx 0 (Isolation.Example.one_column [3; 4]%Z) types (ui_keys idx) 2 t' k)
      KeyExample.indexes indexes'.
Proof.
  destruct KeyExample.wf as (H & Hl & Hd & Hidx). exists H.
  exists (snd (UniqueIndex_Append KeyExample.tx KeyExample.R KeyExample.indexes (Isolation.Example.one_column [3; 4]%Z) 2)).
  assert (UniqueIndex_Append KeyExample.tx KeyExample.R KeyExample.indexes (Isolation.Example.one_column [3; 4]%Z) 2
    = (Ok tt, snd (UniqueIndex_Append KeyExample.tx KeyExample.R KeyExample.indexes (Isolation.Example.one_column [3; 4]%Z) 2)))
    as Happ by (vm_compute; reflexivity).
  split; [exact Happ|].
  pose proof (unique_append_new_keys KeyExample.R H 0 KeyExample.tbl KeyExample.last Hl Hd
    ltac:(vm_compute; reflexivity) ltac:(vm_compute; reflexivity) (Isolation.Example.one_column [3; 4]%Z)
    (KeyExample.chunk_ok1 [3; 4]%Z ltac:(repeat constructor)) KeyExample.tx KeyExample.indexes Hidx) as Hnew.
  change (sc_start KeyExample.last + sc_count KeyExample.last) with 2 in Hnew.
  change (chunk_size (Isolation.Example.one_column [3; 4]%Z)) with 2 in Hnew. exact (Hnew _ Happ).
Defined.

Lemma unique_append_atomic_witness :
  Forall2 same_tree KeyExample.indexes
    (snd (UniqueIndex_Append KeyExample.tx KeyExample.R KeyExample.indexes (Isolation.Example.one_column [3; 2]%Z) 2)).
Proof.
  destruct KeyExample.wf as (H & Hl & Hd & Hidx).
  pose proof (unique_append_atomic KeyExample.R H 0 KeyExample.tbl KeyExample.last Hl Hd
    (Isolation.Example.one_column [3; 2]%Z)
    (KeyExample.chunk_ok1 [3; 2]%Z ltac:(repeat constructor)) KeyExample.tx KeyExample.indexes Hidx) as Hat.
  change (sc_start KeyExample.last + sc_count KeyExample.last) with 2 in Hat.
  assert (fst (UniqueIndex_Append KeyExample.tx KeyExample.R KeyExample.indexes (Isolation.Example.one_column [3; 2]%Z) 2)
    = Throw ConstraintException) as E by (vm_compute; reflexivity).
  destruct (UniqueIndex_Append _ _ _ _ _) as [r l]. simpl in E. subst r. exact Hat.
Defined.

(** ** Where the constraint check is wrong *)

Module UniqueSurprises.
Import Isolation.Example KeyExample.
(** The same table with a UNIQUE constraint instead of the primary key. *)
Definition unique1 : UniqueIndex :=
  mkUniqueIndex (ui_serializer idx1) (ui_comparer idx1) (ui_table idx1) (ui_keys idx1) true (ui_nodes idx1) (ui_next idx1) (ui_root idx1).
(** [UPDATE t SET i = NULL]: both new values are NULL (the data below is 0). *)
Definition nulls : DataChunk := mkDataChunk [mkVector T_INTEGER 2 (numbers [0; 0]%Z) None {[0; 1]}] None.

(** NULLs do not violate UNIQUE: inserting two is accepted, but changing two
    rows to NULL is refused, since the duplicate test compares what lies under
    the NULLs. *)
Lemma update_to_null_refused :
  fst (UniqueIndex_Append tx R [unique1] nulls 2) = Ok tt ∧
  fst (UniqueIndex_Update tx R [unique1] 0 [0] nulls (row_ids [0; 1]%Z)) = Throw ConstraintException.
Proof. vm_compute. auto. Qed.

(** A key that occurs twice in one statement is reported as a row number out
    of range: the first of the two rows is in the index but not yet in the
    table. *)
Lemma duplicate_in_statement :
  fst (UniqueIndex_Append tx R indexes (one_column [3; 3]%Z) 2) = Throw OutOfRangeException.
Proof. by vm_compute. Qed.

(** Removing the root of the tree leaves its child with a dangling parent. *)
Lemma remove_root_dangles :
  match RemoveEntry idx1 0 with
  | Ok idx => (un_parent <$> ui_nodes idx !! 1 = Some (Some 0)) ∧ ui_nodes idx !! 0 = None ∧ RemoveEntry idx 1 = Undef
  | _ => False
  end.
Proof. vm_compute. auto. Qed.
End UniqueSurprises.
