(* ===== verification/Operators.v ===== *)
(** * Operators on single values

    Models [src/src/include/common/operator/comparison_operators.hpp],
    [numeric_binary_operators.hpp], [numeric_bitwise_operators.hpp] and
    [boolean_operators.hpp]: what the templates compute when they are
    instantiated at the C++ type of a [TypeId].  Integers keep their width: the
    result of an 8 or 16 bit operation is truncated, overflow of a 32 or 64 bit
    signed operation is undefined in C++ ([Undef]), [uint64_t] wraps.
    [float] and [double] elements are bit patterns, their arithmetic is the
    IEEE-754 arithmetic of the Standard Library's [SpecFloat]. *)

From Stdlib Require Import ZArith Lia SpecFloat.
From stdpp Require Import base gmap list strings option numbers sorting.
From S2P Require Import Prelude Types Vector Serializer KeyTuples.

Local Open Scope Z_scope.

(** ** Floating point bit patterns *)

(** Sign, exponent and mantissa of a pattern with [mbits] mantissa bits and
    [ebits] exponent bits. *)
Definition float_of_bits (mbits ebits : Z) (z : Z) : spec_float :=
  let u := z mod 2 ^ (mbits + ebits + 1) in
  let s := 2 ^ (mbits + ebits) <=? u in
  let e := (u / 2 ^ mbits) mod 2 ^ ebits in
  let m := u mod 2 ^ mbits in
  if e =? 0 then match m with Zpos p => S754_finite s p (3 - 2 ^ (ebits - 1) - (mbits + 1)) | _ => S754_zero s end
  else if e =? 2 ^ ebits - 1 then (if m =? 0 then S754_infinity s else S754_nan)
  else match m + 2 ^ mbits with
       | Zpos p => S754_finite s p (e - (2 ^ (ebits - 1) - 1) - mbits)
       | _ => S754_zero s
       end.

Definition bits_of_float (mbits ebits : Z) (f : spec_float) : Z :=
  let sign (s : bool) := if s then - 2 ^ (mbits + ebits) else 0 in
  match f with
  | S754_zero s => sign s
  | S754_infinity s => sign s + (2 ^ ebits - 1) * 2 ^ mbits
  | S754_nan => (2 ^ ebits - 1) * 2 ^ mbits + 2 ^ (mbits - 1)
  | S754_finite s m e =>
    if Zpos m <? 2 ^ mbits then sign s + Zpos m
    else sign s + (e + (2 ^ (ebits - 1) - 1) + mbits) * 2 ^ mbits + (Zpos m - 2 ^ mbits)
  end.

Definition as_float (z : Z) : spec_float := float_of_bits 23 8 z.
Definition as_double (z : Z) : spec_float := float_of_bits 52 11 z.

(** ** Comparison *)

Inductive comparison_op : Type := OpEquals | OpNotEquals | OpGreaterThan | OpGreaterThanEquals | OpLessThan | OpLessThanEquals.

#[export] Instance comparison_op_eq_dec : EqDecision comparison_op.
Proof. solve_decision. Defined.

(** The outcome of an operator when the operands compare as [c]; unordered
    operands (a NaN) are only different. *)
Definition holds (op : comparison_op) (c : option comparison) : bool :=
  match op, c with
  | OpEquals, Some Eq => true
  | OpNotEquals, Some Eq => false
  | OpNotEquals, _ => true
  | OpGreaterThan, Some Gt => true
  | OpGreaterThanEquals, Some (Gt | Eq) => true
  | OpLessThan, Some Lt => true
  | OpLessThanEquals, Some (Lt | Eq) => true
  | _, _ => false
  end.

(** The order of two elements of a type; [char*] by [strcmp]. *)
Definition compare_values (ty : TypeId) (a b : cell) : result (option comparison) :=
  match ty, a, b with
  | (T_BOOLEAN | T_TINYINT | T_SMALLINT | T_INTEGER | T_BIGINT), Num _ x, Num _ y => Ok (Some (x ?= y))
  | T_POINTER, Num _ x, Num _ y => Ok (Some (x mod 2 ^ 64 ?= y mod 2 ^ 64))
  | T_FLOAT, Num _ x, Num _ y => Ok (SFcompare (as_float x) (as_float y))
  | T_DOUBLE, Num _ x, Num _ y => Ok (SFcompare (as_double x) (as_double y))
  | T_VARCHAR, Str (Some s), Str (Some t) => Ok (Some (lex_compare (string_bytes s) (string_bytes t)))
  | _, _, _ => Undef
  end.

Definition compare_op (op : comparison_op) (ty : TypeId) (a b : cell) : result bool :=
  c ← compare_values ty a b; Ok (holds op c).

(** ** Arithmetic *)

Inductive numeric_op : Type := OpAdd | OpSubtract | OpMultiply | OpDivide | OpModulo.

(** The mathematical result; [assert(right != 0)] for the last two. *)
Definition numeric_Z (op : numeric_op) (x y : Z) : result Z :=
  match op with
  | OpAdd => Ok (x + y)
  | OpSubtract => Ok (x - y)
  | OpMultiply => Ok (x * y)
  | OpDivide => if y =? 0 then Undef else Ok (Z.quot x y)
  | OpModulo => if y =? 0 then Undef else Ok (Z.rem x y)
  end.

(** The value read through a signed type of [n] bytes. *)
Definition wrap_signed (n : nat) (z : Z) : Z := to_signed n (z mod 2 ^ (8 * Z.of_nat n)).

Definition in_signed (n : nat) (z : Z) : bool :=
  (- 2 ^ (8 * Z.of_nat n - 1) <=? z) && (z <? 2 ^ (8 * Z.of_nat n - 1)).

(** [x % y] is only defined where [x / y] is. *)
Definition overflows (op : numeric_op) (n : nat) (x y z : Z) : bool :=
  match op with
  | OpModulo => negb (in_signed n (Z.quot x y))
  | _ => negb (in_signed n z)
  end.

Definition float_op (op : numeric_op) (prec emax : Z) (x y : spec_float) : result spec_float :=
  match op with
  | OpAdd => Ok (SFadd prec emax x y)
  | OpSubtract => Ok (SFsub prec emax x y)
  | OpMultiply => Ok (SFmul prec emax x y)
  | OpDivide => match y with S754_zero _ => Undef | _ => Ok (SFdiv prec emax x y) end
  | OpModulo => Undef
  end.

(** [OP::Operation<T>(left, right)] for the type [T] of [ty]. *)
Definition numeric_value (op : numeric_op) (ty : TypeId) (a b : cell) : result cell :=
  match ty, a, b with
  | T_TINYINT, Num _ x, Num _ y => z ← numeric_Z op x y; Ok (Num 1 (wrap_signed 1 z))
  | T_SMALLINT, Num _ x, Num _ y => z ← numeric_Z op x y; Ok (Num 2 (wrap_signed 2 z))
  | T_INTEGER, Num _ x, Num _ y =>
    z ← numeric_Z op x y; if overflows op 4 x y z then Undef else Ok (Num 4 z)
  | T_BIGINT, Num _ x, Num _ y =>
    z ← numeric_Z op x y; if overflows op 8 x y z then Undef else Ok (Num 8 z)
  | T_POINTER, Num _ x, Num _ y =>
    z ← numeric_Z op (x mod 2 ^ 64) (y mod 2 ^ 64); Ok (Num 8 (z mod 2 ^ 64))
  | T_FLOAT, Num _ x, Num _ y =>
    f ← float_op op 24 128 (as_float x) (as_float y); Ok (Num 4 (bits_of_float 23 8 f))
  | T_DOUBLE, Num _ x, Num _ y =>
    f ← float_op op 53 1024 (as_double x) (as_double y); Ok (Num 8 (bits_of_float 52 11 f))
  | _, _, _ => Undef
  end.

(** [data\[i\] == 0] *)
Definition is_zero (ty : TypeId) (a : cell) : bool :=
  match ty, a with
  | T_FLOAT, Num _ x => match as_float x with S754_zero _ => true | _ => false end
  | T_DOUBLE, Num _ x => match as_double x with S754_zero _ => true | _ => false end
  | _, Num _ x => x =? 0
  | _, Str _ => false
  end.

(** ** Bitwise operators *)

Inductive bitwise_op : Type := OpXOR | OpAND | OpOR | OpShiftLeft | OpShiftRight.

(** A shift by a negative amount or by the width of the promoted operand is
    undefined, and so is shifting a negative value or a bit out to the left. *)
Definition bitwise_Z (op : bitwise_op) (bits : Z) (x y : Z) : result Z :=
  match op with
  | OpXOR => Ok (Z.lxor x y)
  | OpAND => Ok (Z.land x y)
  | OpOR => Ok (Z.lor x y)
  | OpShiftLeft =>
    if (0 <=? y) && (y <? bits) && (0 <=? x) && (Z.shiftl x y <? 2 ^ (bits - 1)) then Ok (Z.shiftl x y) else Undef
  | OpShiftRight => if (0 <=? y) && (y <? bits) then Ok (Z.shiftr x y) else Undef
  end.

Definition bitwise_value (op : bitwise_op) (ty : TypeId) (a b : cell) : result cell :=
  match ty, a, b with
  | T_TINYINT, Num _ x, Num _ y => z ← bitwise_Z op 32 x y; Ok (Num 1 (wrap_signed 1 z))
  | T_SMALLINT, Num _ x, Num _ y => z ← bitwise_Z op 32 x y; Ok (Num 2 (wrap_signed 2 z))
  | T_INTEGER, Num _ x, Num _ y => z ← bitwise_Z op 32 x y; Ok (Num 4 z)
  | T_BIGINT, Num _ x, Num _ y => z ← bitwise_Z op 64 x y; Ok (Num 8 z)
  | T_POINTER, Num _ x, Num _ y => z ← bitwise_Z op 64 (x mod 2 ^ 64) (y mod 2 ^ 64); Ok (Num 8 (z mod 2 ^ 64))
  | _, _, _ => Undef
  end.

(** ** Boolean operators and their null masks *)

Definition And_Operation (left right : bool) : bool := left && right.
Definition AndMask_Operation (left right left_null right_null : bool) : bool :=
  (left_null && (right_null || right)) || (right_null && left).
Definition Or_Operation (left right : bool) : bool := left || right.
Definition OrMask_Operation (left right left_null right_null : bool) : bool :=
  (left_null && (right_null || negb right)) || (right_null && negb left).

(** ** Facts *)

(** The three-valued logic of SQL, [None] being NULL. *)
Definition sql_and (a b : option bool) : option bool :=
  match a, b with
  | Some false, _ | _, Some false => Some false
  | Some true, Some true => Some true
  | _, _ => None
  end.
Definition sql_or (a b : option bool) : option bool :=
  match a, b with
  | Some true, _ | _, Some true => Some true
  | Some false, Some false => Some false
  | _, _ => None
  end.

(** A boolean with its null bit; what lies under a NULL is arbitrary. *)
Definition sql_bool (null value : bool) : option bool := if null then None else Some value.

Lemma And_sql l r ln rn :
  sql_bool (AndMask_Operation l r ln rn) (And_Operation l r) = sql_and (sql_bool ln l) (sql_bool rn r).
Proof. by destruct l, r, ln, rn. Qed.

Lemma Or_sql l r ln rn :
  sql_bool (OrMask_Operation l r ln rn) (Or_Operation l r) = sql_or (sql_bool ln l) (sql_bool rn r).
Proof. by destruct l, r, ln, rn. Qed.

Lemma compare_values_total ty a b :
  cell_has_type ty a = true → cell_has_type ty b = true → ty ≠ T_VARBINARY →
  ∃ c, compare_values ty a b = Ok c.
Proof.
  intros Ha Hb Hne. destruct a as [n x|[s|]], b as [m y|[t|]]; try done; destruct ty; simpl in *; try done; eauto.
Qed.
