(* ===== verification/VectorOps.v ===== *)
(** * Operators on vectors

    Models the expression operators of [src/src/common/vector_operations/]:
    [comparison_operators.cpp], [boolean_operators.cpp],
    [numeric_binary_operators.cpp], [numeric_bitwise_operators.cpp],
    [null_operations.cpp], [case.cpp], with the loops of
    [binary_loops.hpp] and [unary_loops.hpp].  A vector with one value and no
    selection vector is a constant and stands for that value in every row.
    What the loops compute under a NULL is never read; the model leaves those
    cells as they were. *)

From Stdlib Require Import ZArith Lia SpecFloat.
From stdpp Require Import base gmap list strings option numbers sorting.
From S2P Require Import Prelude Types Vector Serializer KeyTuples Operators.

Definition IsConstant (v : Vector) : bool :=
  (v_count v =? 1) && bool_decide (v_sel v = None).

(** [nullmask.set()] *)
Definition all_nulls : gset nat := list_to_set (seq 0 STANDARD_VECTOR_SIZE).

(** [data\[i\] = f(i)] for the selected positions; [None] writes nothing. *)
Fixpoint write_rows (f : nat → result (option cell)) (ixs : list (nat * nat)) (data : gmap nat cell)
    : result (gmap nat cell) :=
  match ixs with
  | [] => Ok data
  | (i, _) :: ixs' =>
    o ← f i;
    write_rows f ixs' (match o with Some x => <[i := x]> data | None => data end)
  end.

(** A cell of the result from the cells of the operands, nothing under NULL. *)
Definition binary_cell (op : cell → cell → result cell) (nulls : gset nat) (l r : option cell) (i : nat)
    : result (option cell) :=
  if bool_decide (i ∈ nulls) then Ok None
  else x ← deref l; y ← deref r; z ← op x y; Ok (Some z).

(** [templated_binary_loop] *)
Definition binary_loop (op : cell → cell → result cell) (left right result_ : Vector) : result Vector :=
  if IsConstant left then
    if bool_decide (0 ∈ v_null left) then
      Ok (mkVector (v_type result_) (v_count right) (v_data result_) (v_sel right) all_nulls)
    else
      data ← write_rows (fun i => binary_cell op (v_null right) (v_data left !! 0) (v_data right !! i) i)
               (exec_indexes (v_sel right) (v_count right) 0) (v_data result_);
      Ok (mkVector (v_type result_) (v_count right) data (v_sel right) (v_null right))
  else if IsConstant right then
    if bool_decide (0 ∈ v_null right) then
      Ok (mkVector (v_type result_) (v_count left) (v_data result_) (v_sel left) all_nulls)
    else
      data ← write_rows (fun i => binary_cell op (v_null left) (v_data left !! i) (v_data right !! 0) i)
               (exec_indexes (v_sel left) (v_count left) 0) (v_data result_);
      Ok (mkVector (v_type result_) (v_count left) data (v_sel left) (v_null left))
  else
    _ ← assert_ (v_count left =? v_count right);
    _ ← assert_ (bool_decide (v_sel left = v_sel right));
    let nulls := v_null left ∪ v_null right in
    data ← write_rows (fun i => binary_cell op nulls (v_data left !! i) (v_data right !! i) i)
             (exec_indexes (v_sel left) (v_count left) 0) (v_data result_);
    Ok (mkVector (v_type result_) (v_count left) data (v_sel left) nulls).

(** ** Comparisons *)

Definition bool_cell (b : bool) : cell := Num 1 (if b then 1 else 0).

Definition cardinality_check (left right : Vector) : result unit :=
  if negb (IsConstant left) && negb (IsConstant right) && negb (v_count left =? v_count right)
  then Throw GenericException else Ok tt.

Definition COMPARISON_TYPE_CHECK (left right result_ : Vector) : result unit :=
  if negb (bool_decide (v_type left = v_type right)) then Throw TypeMismatchException
  else if negb (bool_decide (v_type result_ = T_BOOLEAN)) then Throw InvalidTypeException
  else cardinality_check left right.

Definition templated_boolean_operation (op : comparison_op) (left right result_ : Vector) : result Vector :=
  _ ← COMPARISON_TYPE_CHECK left right result_;
  match v_type left with
  | T_BOOLEAN | T_TINYINT | T_SMALLINT | T_INTEGER | T_BIGINT | T_POINTER | T_FLOAT | T_DOUBLE | T_VARCHAR =>
    binary_loop (fun x y => b ← compare_op op (v_type left) x y; Ok (bool_cell b)) left right result_
  | T_INVALID | T_VARBINARY => Throw InvalidTypeException
  end.

(** ** AND, OR, NOT *)

(** The boolean read at a position; under a NULL it may be anything. *)
Definition bool_at (v : Vector) (i : nat) : result bool :=
  match v_data v !! i with
  | Some (Num _ z) => Ok (negb (z =? 0)%Z)
  | _ => if bool_decide (i ∈ v_null v) then Ok false else Undef
  end.

Fixpoint boolean_rows (OP : bool → bool → bool) (NULLOP : bool → bool → bool → bool → bool)
    (left : nat → result (bool * bool)) (right : Vector) (ixs : list (nat * nat))
    (data : gmap nat cell) (nulls : gset nat) : result (gmap nat cell * gset nat) :=
  match ixs with
  | [] => Ok (data, nulls)
  | (i, _) :: ixs' =>
    '(l, left_null) ← left i;
    r ← bool_at right i;
    let right_null := bool_decide (i ∈ v_null right) in
    boolean_rows OP NULLOP left right ixs' (<[i := bool_cell (OP l r)]> data)
      (if NULLOP l r left_null right_null then {[i]} ∪ nulls else nulls ∖ {[i]})
  end.

Definition bool_and_null (v : Vector) (i : nat) : result (bool * bool) :=
  b ← bool_at v i; Ok (b, bool_decide (i ∈ v_null v)).

(** [templated_boolean_nullmask]; with a constant on the right the operands
    are exchanged. *)
Definition templated_boolean_nullmask (OP : bool → bool → bool) (NULLOP : bool → bool → bool → bool → bool)
    (left right result_ : Vector) : result Vector :=
  if negb (bool_decide (v_type left = T_BOOLEAN)) || negb (bool_decide (v_type right = T_BOOLEAN))
  then Throw TypeMismatchException
  else
    let constant_left (left right : Vector) :=
      c ← bool_and_null left 0;
      '(data, nulls) ← boolean_rows OP NULLOP (fun _ => Ok c) right
        (exec_indexes (v_sel right) (v_count right) 0) (v_data result_) (v_null result_);
      Ok (mkVector (v_type result_) (v_count right) data (v_sel right) nulls) in
    if IsConstant left then constant_left left right
    else if IsConstant right then constant_left right left
    else if v_count left =? v_count right then
      _ ← assert_ (bool_decide (v_sel left = v_sel right));
      '(data, nulls) ← boolean_rows OP NULLOP (bool_and_null left) right
        (exec_indexes (v_sel left) (v_count left) 0) (v_data result_) (v_null result_);
      Ok (mkVector (v_type result_) (v_count left) data (v_sel left) nulls)
    else Throw GenericException.

Definition Vector_And := templated_boolean_nullmask And_Operation AndMask_Operation.
Definition Vector_Or := templated_boolean_nullmask Or_Operation OrMask_Operation.

(** [templated_unary_loop] *)
Definition unary_loop (op : cell → result cell) (input result_ : Vector) : result Vector :=
  data ← write_rows (fun i => if bool_decide (i ∈ v_null input) then Ok None
                              else x ← deref (v_data input !! i); z ← op x; Ok (Some z))
           (exec_indexes (v_sel input) (v_count input) 0) (v_data result_);
  Ok (mkVector (v_type result_) (v_count input) data (v_sel input) (v_null input)).

Definition not_cell (x : cell) : result cell :=
  match x with Num _ z => Ok (bool_cell (z =? 0)%Z) | Str _ => Undef end.

Definition Vector_Not (left result_ : Vector) : result Vector :=
  if negb (bool_decide (v_type left = T_BOOLEAN)) then Throw InvalidTypeException
  else unary_loop not_cell left result_.

(** ** Arithmetic *)

Definition BINARY_TYPE_CHECK (left right result_ : Vector) : result unit :=
  if negb (bool_decide (v_type left = v_type right)) then Throw TypeMismatchException
  else if negb (bool_decide (v_type left = v_type result_)) then Throw TypeMismatchException
  else cardinality_check left right.

(** The types an operator has a case for. *)
Definition numeric_type (ty : TypeId) : bool :=
  match ty with
  | T_TINYINT | T_SMALLINT | T_INTEGER | T_BIGINT | T_FLOAT | T_DOUBLE | T_POINTER => true
  | _ => false
  end.
Definition integer_type (ty : TypeId) : bool :=
  match ty with T_TINYINT | T_SMALLINT | T_INTEGER | T_BIGINT | T_POINTER => true | _ => false end.

(** [Add], [Subtract], [Multiply] *)
Definition Vector_arithmetic (op : numeric_op) (left right result_ : Vector) : result Vector :=
  _ ← BINARY_TYPE_CHECK left right result_;
  if numeric_type (v_type left) then binary_loop (numeric_value op (v_type left)) left right result_
  else Throw InvalidTypeException.

(** A row of [templated_divmod_loop]: a zero divisor gives NULL. *)
Fixpoint divmod_rows (op : numeric_op) (ty : TypeId) (left : nat → result cell) (right : Vector)
    (ixs : list (nat * nat)) (data : gmap nat cell) (nulls : gset nat) : result (gmap nat cell * gset nat) :=
  match ixs with
  | [] => Ok (data, nulls)
  | (i, _) :: ixs' =>
    if bool_decide (i ∈ nulls) then divmod_rows op ty left right ixs' data nulls
    else
      y ← deref (v_data right !! i);
      if is_zero ty y then divmod_rows op ty left right ixs' data ({[i]} ∪ nulls)
      else
        x ← left i;
        z ← numeric_value op ty x y;
        divmod_rows op ty left right ixs' (<[i := z]> data) nulls
  end.

Definition templated_divmod_loop (op : numeric_op) (left right result_ : Vector) : result Vector :=
  let ty := v_type left in
  if IsConstant left then
    if bool_decide (0 ∈ v_null left) then
      Ok (mkVector (v_type result_) (v_count right) (v_data result_) (v_sel right) all_nulls)
    else
      '(data, nulls) ← divmod_rows op ty (fun _ => deref (v_data left !! 0)) right
        (exec_indexes (v_sel right) (v_count right) 0) (v_data result_) (v_null right);
      Ok (mkVector (v_type result_) (v_count right) data (v_sel right) nulls)
  else if IsConstant right then
    zero ← (if bool_decide (0 ∈ v_null right) then Ok true
            else y ← deref (v_data right !! 0); Ok (is_zero ty y));
    if zero : bool then
      Ok (mkVector (v_type result_) (v_count left) (v_data result_) (v_sel left) all_nulls)
    else
      data ← write_rows (fun i => binary_cell (numeric_value op ty) (v_null left) (v_data left !! i) (v_data right !! 0) i)
               (exec_indexes (v_sel left) (v_count left) 0) (v_data result_);
      Ok (mkVector (v_type result_) (v_count left) data (v_sel left) (v_null left))
  else
    _ ← assert_ (v_count left =? v_count right);
    _ ← assert_ (bool_decide (v_sel left = v_sel right));
    '(data, nulls) ← divmod_rows op ty (fun i => deref (v_data left !! i)) right
      (exec_indexes (v_sel left) (v_count left) 0) (v_data result_) (v_null left ∪ v_null right);
    Ok (mkVector (v_type result_) (v_count left) data (v_sel left) nulls).

Definition Vector_Divide (left right result_ : Vector) : result Vector :=
  _ ← BINARY_TYPE_CHECK left right result_;
  if numeric_type (v_type left) then templated_divmod_loop OpDivide left right result_
  else Throw InvalidTypeException.

Definition Vector_Modulo (left right result_ : Vector) : result Vector :=
  _ ← BINARY_TYPE_CHECK left right result_;
  if integer_type (v_type left) then templated_divmod_loop OpModulo left right result_
  else Throw InvalidTypeException.

(** [templated_binary_bitwise_operation] *)
Definition Vector_bitwise (op : bitwise_op) (left right result_ : Vector) : result Vector :=
  _ ← BINARY_TYPE_CHECK left right result_;
  if integer_type (v_type left) then binary_loop (bitwise_value op (v_type left)) left right result_
  else Throw InvalidTypeException.

(** ** IS NULL, CASE *)

Definition is_null_loop (inverse : bool) (input result_ : Vector) : result Vector :=
  if negb (bool_decide (v_type result_ = T_BOOLEAN)) then Throw InvalidTypeException
  else
    data ← write_rows (fun i => let null := bool_decide (i ∈ v_null input) in
                                Ok (Some (bool_cell (if inverse then negb null else null))))
             (exec_indexes (v_sel input) (v_count input) 0) (v_data result_);
    Ok (mkVector (v_type result_) (v_count input) data (v_sel input) ∅).

(** [TernaryExec]: the selection vector and count of the first operand that is
    not a constant. *)
Definition ternary_shape (a b c : Vector) : option (list nat) * nat :=
  if negb (IsConstant a) then (v_sel a, v_count a)
  else if negb (IsConstant b) then (v_sel b, v_count b)
  else if negb (IsConstant c) then (v_sel c, v_count c)
  else (None, 1).

(** [x_mul * i] *)
Definition operand_index (v : Vector) (i : nat) : nat := if IsConstant v then 0 else i.

Fixpoint case_rows (check res_true res_false : Vector) (ixs : list (nat * nat)) (data : gmap nat cell)
    (nulls : gset nat) : result (gmap nat cell * gset nat) :=
  match ixs with
  | [] => Ok (data, nulls)
  | (i, _) :: ixs' =>
    cond ← bool_at check (operand_index check i);
    let branch := cond && negb (bool_decide (operand_index check i ∈ v_null check)) in
    let source := if branch then res_true else res_false in
    let j := operand_index source i in
    if bool_decide (j ∈ v_null source) then case_rows check res_true res_false ixs' data ({[i]} ∪ nulls)
    else
      x ← deref (v_data source !! j);
      case_rows check res_true res_false ixs' (<[i := x]> data) (nulls ∖ {[i]})
  end.

Definition Vector_Case (check res_true res_false result_ : Vector) : result Vector :=
  if negb (bool_decide (v_type check = T_BOOLEAN)) then Throw InvalidTypeException
  else if negb (bool_decide (v_type result_ = v_type res_true)) || negb (bool_decide (v_type result_ = v_type res_false))
  then Throw TypeMismatchException
  else
    match v_type result_ with
    | T_INVALID | T_VARBINARY => Throw NotImplementedException
    | _ =>
      let '(sel, count) := ternary_shape check res_true res_false in
      let fits v := IsConstant v || (v_count v =? count) in
      _ ← assert_ (fits check && fits res_true && fits res_false);
      '(data, nulls) ← case_rows check res_true res_false (exec_indexes sel count 0) (v_data result_) (v_null result_);
      Ok (mkVector (v_type result_) count data sel nulls)
    end.

(** ** Rows *)

(** The value of row [k], [None] for NULL; a constant has it in every row. *)
Definition cell_index (v : Vector) (k : nat) : nat := if IsConstant v then 0 else sel_at (v_sel v) k.
Definition row_value (v : Vector) (k : nat) : option cell :=
  if decide (cell_index v k ∈ v_null v) then None else v_data v !! cell_index v k.

(** The rows an operator produces. *)
Definition rows_of (left right : Vector) : nat := if IsConstant left then v_count right else v_count left.

(** A vector whose rows are in the buffer and hold values of its type. *)
Definition operand_ok (v : Vector) : Prop :=
  vector_ok v ∧ ∀ k, k < v_count v → sel_at (v_sel v) k < STANDARD_VECTOR_SIZE.

(** Operands that fit together. *)
Definition aligned (left right : Vector) : Prop :=
  IsConstant left = true ∨ IsConstant right = true ∨ (v_count left = v_count right ∧ v_sel left = v_sel right).

Lemma IsConstant_true v : IsConstant v = true ↔ v_count v = 1 ∧ v_sel v = None.
Proof. unfold IsConstant. rewrite andb_true_iff, Nat.eqb_eq, bool_decide_eq_true. done. Qed.

Lemma cell_index_row v k : k < v_count v → cell_index v k = sel_at (v_sel v) k.
Proof.
  intros Hk. unfold cell_index. destruct (IsConstant v) eqn:E; [|done].
  apply IsConstant_true in E as [Hc Hs]. rewrite Hs. simpl. lia.
Qed.

Lemma cell_index_const v k : IsConstant v = true → cell_index v k = 0.
Proof. intros E. unfold cell_index. by rewrite E. Qed.

Lemma operand_present v k :
  operand_ok v → (k < v_count v ∨ IsConstant v = true) → cell_index v k ∉ v_null v →
  ∃ x, v_data v !! cell_index v k = Some x ∧ row_value v k = Some x ∧ cell_has_type (v_type v) x = true.
Proof.
  intros [[_ Hv] _] Hk Hn.
  assert (∃ k', k' < v_count v ∧ sel_at (v_sel v) k' = cell_index v k) as (k' & Hk' & E).
  { destruct Hk as [Hk|Hk].
    - exists k. by rewrite cell_index_row.
    - exists 0. rewrite (cell_index_const v k Hk). apply IsConstant_true in Hk as [-> ->]. split; [lia|done]. }
  rewrite <- E in Hn |- *. destruct (Hv k' Hk' Hn) as (x & Hx & Ht). exists x. split; [done|].
  unfold row_value. rewrite <- E. by rewrite decide_False.
Qed.

Lemma row_value_null v k : cell_index v k ∈ v_null v → row_value v k = None.
Proof. intros Hn. unfold row_value. by rewrite decide_True. Qed.

(** Row [k] holds [o]; unlike [row_value], NULL means the null bit. *)
Definition row_is (v : Vector) (k : nat) (o : option cell) : Prop :=
  match o with
  | None => cell_index v k ∈ v_null v
  | Some x => (cell_index v k ∉ v_null v) ∧ v_data v !! cell_index v k = Some x
  end.

Lemma row_is_value v k o : row_is v k o → row_value v k = o.
Proof. unfold row_value. destruct o as [x|]; [intros [Hn Hx]|intros Hn]; by case_decide. Qed.

Lemma row_is_vector ty count d sel nulls k o :
  k < count → row_is (mkVector ty count d sel nulls) k o ↔
    match o with None => sel_at sel k ∈ nulls | Some x => (sel_at sel k ∉ nulls) ∧ d !! sel_at sel k = Some x end.
Proof. intros Hk. unfold row_is. rewrite cell_index_row by done. done. Qed.

Lemma write_rows_spec f ixs data :
  (∀ i, i ∈ ixs.*1 → ∃ o, f i = Ok o) →
  ∃ d, write_rows f ixs data = Ok d ∧ ∀ i x, i ∈ ixs.*1 → f i = Ok (Some x) → d !! i = Some x.
Proof.
  intros Hf. cut (∃ d, write_rows f ixs data = Ok d ∧ (∀ i x, i ∈ ixs.*1 → f i = Ok (Some x) → d !! i = Some x) ∧
    (∀ i, i ∉ ixs.*1 → d !! i = data !! i)); [intros (d & ? & ? & _); eauto|].
  revert data Hf. induction ixs as [|[i k] ixs IH]; intros data Hf.
  { exists data. split; [done|]. split; [by intros i x ?%elem_of_nil|done]. }
  destruct (Hf i) as [o Ho]; [by left|]. cbn [write_rows]. rewrite Ho. run.
  destruct (IH (match o with Some x => <[i:=x]> data | None => data end)) as (d & Hd & Hin & Hout).
  { intros j Hj. apply Hf. by right. }
  exists d. split; [done|]. split.
  - intros j x Hj Hx. destruct (decide (j ∈ ixs.*1)) as [Hj'|Hj']; [by apply Hin|].
    apply elem_of_cons in Hj as [->|?]; [|done]. rewrite Hout by done. simpl in Hx, Ho. rewrite Ho in Hx. injection Hx as ->.
    by rewrite lookup_insert_eq.
  - intros j Hj. rewrite fmap_cons, not_elem_of_cons in Hj. destruct Hj as [Hne Hj]. rewrite Hout by done.
    destruct o; [|done]. by rewrite lookup_insert_ne.
Qed.

Lemma exec_index_elem sel count i : i ∈ (exec_indexes sel count 0).*1 ↔ ∃ k, k < count ∧ i = sel_at sel k.
Proof.
  unfold exec_indexes. rewrite Nat.sub_0_r, <- list_fmap_compose. rewrite list_elem_of_fmap. split.
  - intros (k & -> & Hk%elem_of_seq). exists k. split; [lia|done].
  - intros (k & Hk & ->). exists k. split; [done|]. apply elem_of_seq. lia.
Qed.

(** What a row of a binary operator holds. *)
Definition binary_row (op : cell → cell → result cell) (left right v : Vector) (k : nat) : Prop :=
  match row_value left k, row_value right k with
  | Some x, Some y => ∃ z, op x y = Ok z ∧ row_is v k (Some z)
  | _, _ => row_is v k None
  end.

Lemma row_of_vector ty count d sel nulls k :
  k < count → row_value (mkVector ty count d sel nulls) k =
    if decide (sel_at sel k ∈ nulls) then None else d !! sel_at sel k.
Proof. intros Hk. unfold row_value. by rewrite !cell_index_row. Qed.

Lemma loop_rows op sel count nulls (L Rr : nat → option cell) data :
  (∀ k, k < count → sel_at sel k ∉ nulls →
     ∃ x y z, L (sel_at sel k) = Some x ∧ Rr (sel_at sel k) = Some y ∧ op x y = Ok z) →
  ∃ d, write_rows (fun i => binary_cell op nulls (L i) (Rr i) i) (exec_indexes sel count 0) data = Ok d ∧
    ∀ k x y z, k < count → sel_at sel k ∉ nulls → L (sel_at sel k) = Some x → Rr (sel_at sel k) = Some y →
      op x y = Ok z → d !! sel_at sel k = Some z.
Proof.
  intros Hop. destruct (write_rows_spec (fun i => binary_cell op nulls (L i) (Rr i) i) (exec_indexes sel count 0) data)
    as (d & Hd & Hrow).
  { intros i (k & Hk & ->)%exec_index_elem. unfold binary_cell. case_bool_decide; [eauto|].
    destruct (Hop k Hk) as (x & y & z & -> & -> & Hz); [done|]. run. rewrite Hz. eauto. }
  exists d. split; [done|]. intros k x y z Hk Hn Hx Hy Hz. apply Hrow.
  - apply exec_index_elem. eauto.
  - unfold binary_cell. rewrite bool_decide_eq_false_2 by done. rewrite Hx, Hy. run. by rewrite Hz.
Qed.

(** The row [k] of an operand exists. *)
Definition has_row (v : Vector) (k : nat) : Prop := k < v_count v ∨ IsConstant v = true.

Section loop.
Context (op : cell → cell → result cell) (left right : Vector).
Context (Hl : operand_ok left) (Hr : operand_ok right).

(** A loop over the rows of a shape, whose null mask is that of the operands
    and which reads their cells. *)
Lemma loop_case sel count nulls (L Rr : nat → option cell) data ty :
  (∀ k, k < count → has_row left k ∧ has_row right k ∧
     L (sel_at sel k) = v_data left !! cell_index left k ∧ Rr (sel_at sel k) = v_data right !! cell_index right k ∧
     (sel_at sel k ∈ nulls ↔ cell_index left k ∈ v_null left ∨ cell_index right k ∈ v_null right)) →
  (∀ k x y, k < count → row_value left k = Some x → row_value right k = Some y → ∃ z, op x y = Ok z) →
  ∃ d, write_rows (fun i => binary_cell op nulls (L i) (Rr i) i) (exec_indexes sel count 0) data = Ok d ∧
    ∀ k, k < count → binary_row op left right (mkVector ty count d sel nulls) k.
Proof.
  intros Hsh Hop.
  assert (∀ k, k < count → sel_at sel k ∉ nulls → ∃ x y z, L (sel_at sel k) = Some x ∧ Rr (sel_at sel k) = Some y ∧
    op x y = Ok z ∧ row_value left k = Some x ∧ row_value right k = Some y) as Hval.
  { intros k Hk Hn. destruct (Hsh k Hk) as (Hkl & Hkr & -> & -> & Hnulls).
    destruct (operand_present left k Hl Hkl) as (x & Hx & Hrx & _); [tauto|].
    destruct (operand_present right k Hr Hkr) as (y & Hy & Hry & _); [tauto|].
    destruct (Hop k x y Hk Hrx Hry) as [z Hz]. eauto 10. }
  destruct (loop_rows op sel count nulls L Rr data) as (d & Hd & Hrow).
  { intros k Hk Hn. destruct (Hval k Hk Hn) as (x & y & z & ? & ? & ? & _). eauto 10. }
  exists d. split; [done|]. intros k Hk. unfold binary_row.
  destruct (Hsh k Hk) as (_ & _ & _ & _ & Hnulls). destruct (decide (sel_at sel k ∈ nulls)) as [Hn|Hn].
  - assert (row_is (mkVector ty count d sel nulls) k None) by (by apply row_is_vector).
    apply Hnulls in Hn as [Hn|Hn]; rewrite (row_value_null _ _ Hn); [done|by destruct (row_value left k)].
  - destruct (Hval k Hk Hn) as (x & y & z & Hx & Hy & Hz & -> & ->). exists z. split; [done|].
    apply row_is_vector; [done|]. split; [done|]. by eapply Hrow.
Qed.

(** A constant NULL makes every row NULL. *)
Lemma null_case sel count data ty :
  (∀ k, k < count → sel_at sel k < STANDARD_VECTOR_SIZE ∧
     (cell_index left k ∈ v_null left ∨ cell_index right k ∈ v_null right)) →
  ∀ k, k < count → binary_row op left right (mkVector ty count data sel all_nulls) k.
Proof.
  intros Hn k Hk. destruct (Hn k Hk) as [Hb Hnull]. unfold binary_row.
  assert (row_is (mkVector ty count data sel all_nulls) k None) as Hall.
  { apply row_is_vector; [done|]. apply elem_of_list_to_set, elem_of_seq; lia. }
  destruct Hnull as [H|H]; rewrite (row_value_null _ _ H); [done|by destruct (row_value left k)].
Qed.

(** The loop of every binary operator: row by row, NULL where an operand is. *)
Lemma binary_loop_spec result_ :
  aligned left right →
  (∀ k x y, k < rows_of left right → row_value left k = Some x → row_value right k = Some y → ∃ z, op x y = Ok z) →
  ∃ v, binary_loop op left right result_ = Ok v ∧ v_type v = v_type result_ ∧ v_count v = rows_of left right ∧
    v_sel v = (if IsConstant left then v_sel right else v_sel left) ∧
    ∀ k, k < rows_of left right → binary_row op left right v k.
Proof.
  intros Hal Hop. unfold binary_loop, rows_of in *. destruct (IsConstant left) eqn:El; [|destruct (IsConstant right) eqn:Er].
  - case_bool_decide as Hn.
    { eexists. split_and!; [done..|]. apply null_case. intros k Hk. split; [by apply Hr|left; by rewrite cell_index_const]. }
    destruct (loop_case (v_sel right) (v_count right) (v_null right) (fun _ => v_data left !! 0) (fun i => v_data right !! i)
      (v_data result_) (v_type result_)) as (d & -> & Hrow); [|done|run; by eauto 10].
    intros k Hk. rewrite (cell_index_const left) by done. rewrite (cell_index_row right) by done.
    split_and!; [by right|by left|done|done|]. tauto.
  - case_bool_decide as Hn.
    { eexists. split_and!; [done..|]. apply null_case. intros k Hk. split; [by apply Hl|right; by rewrite cell_index_const]. }
    destruct (loop_case (v_sel left) (v_count left) (v_null left) (fun i => v_data left !! i) (fun _ => v_data right !! 0)
      (v_data result_) (v_type result_)) as (d & -> & Hrow); [|done|run; by eauto 10].
    intros k Hk. rewrite (cell_index_const right) by done. rewrite (cell_index_row left) by done.
    split_and!; [by left|by right|done|done|]. tauto.
  - destruct Hal as [?|[?|[Hc Hs]]]; [congruence..|]. rewrite Hc in *. rewrite Nat.eqb_refl. run.
    rewrite bool_decide_eq_true_2 by done. run.
    destruct (loop_case (v_sel left) (v_count right) (v_null left ∪ v_null right) (fun i => v_data left !! i) (fun i => v_data right !! i)
      (v_data result_) (v_type result_)) as (d & -> & Hrow); [|done|run; by eauto 10].
    intros k Hk. rewrite (cell_index_row left) by lia. rewrite (cell_index_row right) by done. rewrite Hs.
    split_and!; [left; lia|by left|done|done|]. by rewrite elem_of_union.
Qed.
End loop.

(** ** Division *)

Lemma divmod_rows_spec op ty (left : nat → result cell) right ixs data nulls :
  (∀ i, i ∈ ixs.*1 → i ∉ nulls → ∃ y, v_data right !! i = Some y ∧
     (is_zero ty y = false → ∃ x z, left i = Ok x ∧ numeric_value op ty x y = Ok z)) →
  ∃ d n, divmod_rows op ty left right ixs data nulls = Ok (d, n) ∧
    (∀ i, i ∈ n ↔ i ∈ nulls ∨ (i ∈ ixs.*1 ∧ ∃ y, v_data right !! i = Some y ∧ is_zero ty y = true)) ∧
    ∀ i, i ∈ ixs.*1 → i ∉ n → ∃ x y z, left i = Ok x ∧ v_data right !! i = Some y ∧
      numeric_value op ty x y = Ok z ∧ d !! i = Some z.
Proof.
  intros Hok.
  cut (∃ d n, divmod_rows op ty left right ixs data nulls = Ok (d, n) ∧
    (∀ i, i ∈ n ↔ i ∈ nulls ∨ (i ∈ ixs.*1 ∧ ∃ y, v_data right !! i = Some y ∧ is_zero ty y = true)) ∧
    (∀ i, i ∈ ixs.*1 → i ∉ n → ∃ x y z, left i = Ok x ∧ v_data right !! i = Some y ∧
      numeric_value op ty x y = Ok z ∧ d !! i = Some z) ∧ (∀ i, i ∉ ixs.*1 → d !! i = data !! i)); [naive_solver|].
  revert data nulls Hok. induction ixs as [|[i k] ixs IH]; intros data nulls Hok.
  { exists data, nulls. split_and!; [done| |by intros ? ?%elem_of_nil|done]. intros i. split; [auto|].
    intros [?|[?%elem_of_nil _]]; done. }
  cbn [divmod_rows]. case_bool_decide as Hn; [|].
  - destruct (IH data nulls) as (d & n & -> & Hnul & Hrow & Hout).
    { intros j Hj. apply Hok. by right. }
    exists d, n. rewrite fmap_cons. cbn [fst].
    assert (i ∈ n) as Hin by (apply Hnul; auto). split_and!; [done| | |].
    + intros j. rewrite Hnul, elem_of_cons. split; [naive_solver|]. intros [?|[[->|?] ?]]; auto.
    + intros j [->|Hj]%elem_of_cons; [done|auto].
    + intros j [_ ?]%not_elem_of_cons. auto.
  - destruct (Hok i) as (y & Hy & Hxz); [by left|done|]. rewrite Hy. run. destruct (is_zero ty y) eqn:Hz.
    + destruct (IH data ({[i]} ∪ nulls)) as (d & n & -> & Hnul & Hrow & Hout).
      { intros j Hj Hjn. apply not_elem_of_union in Hjn as [_ ?]. apply Hok; [by right|done]. }
      exists d, n. rewrite fmap_cons. cbn [fst].
      assert (i ∈ n) as Hin by (apply Hnul; left; set_solver). split_and!; [done| | |].
      * intros j. rewrite Hnul, elem_of_cons, elem_of_union, elem_of_singleton. split; [naive_solver|].
        intros [?|[[->|?] ?]]; naive_solver.
      * intros j [->|Hj]%elem_of_cons; [done|auto].
      * intros j [_ ?]%not_elem_of_cons. auto.
    + destruct (Hxz eq_refl) as (x & z & Hx & Hop). rewrite Hx. run. rewrite Hop. run.
      destruct (IH (<[i := z]> data) nulls) as (d & n & -> & Hnul & Hrow & Hout).
      { intros j Hj. apply Hok. by right. }
      exists d, n. rewrite fmap_cons. cbn [fst]. split_and!; [done| | |].
      * intros j. rewrite Hnul, elem_of_cons. split; [naive_solver|]. intros [?|[[->|?] Hj]]; [naive_solver| |naive_solver].
        destruct Hj as (y' & Hy' & Hz'). congruence.
      * intros j Hj Hjn. destruct (decide (j ∈ ixs.*1)) as [Hj'|Hj']; [auto|].
        apply elem_of_cons in Hj as [->|?]; [|done]. rewrite Hout by done. rewrite lookup_insert_eq. by exists x, y, z.
      * intros j [? ?]%not_elem_of_cons. rewrite Hout by done. by rewrite lookup_insert_ne.
Qed.

(** What a row of a division holds. *)
Definition divmod_row (op : numeric_op) (ty : TypeId) (left right v : Vector) (k : nat) : Prop :=
  match row_value left k, row_value right k with
  | Some x, Some y =>
    if is_zero ty y then row_is v k None
    else ∃ z, numeric_value op ty x y = Ok z ∧ row_is v k (Some z)
  | _, _ => row_is v k None
  end.

Section divmod.
Context (op : numeric_op) (left right : Vector).
Context (Hl : operand_ok left) (Hr : operand_ok right).
Let ty := v_type left.
Context (Hop : ∀ k x y, k < rows_of left right → row_value left k = Some x → row_value right k = Some y →
  is_zero ty y = false → ∃ z, numeric_value op ty x y = Ok z).

Lemma divmod_case sel count nulls (leftf : nat → result cell) data ty' :
  count = rows_of left right →
  (∀ k, k < count → has_row left k ∧ has_row right k ∧ cell_index right k = sel_at sel k ∧
     leftf (sel_at sel k) = deref (v_data left !! cell_index left k) ∧
     (sel_at sel k ∈ nulls ↔ cell_index left k ∈ v_null left ∨ cell_index right k ∈ v_null right)) →
  ∃ d n, divmod_rows op ty leftf right (exec_indexes sel count 0) data nulls = Ok (d, n) ∧
    ∀ k, k < count → divmod_row op ty left right (mkVector ty' count d sel n) k.
Proof.
  intros Hcount Hsh.
  assert (∀ k, k < count → sel_at sel k ∉ nulls → ∃ x y, leftf (sel_at sel k) = Ok x ∧ v_data right !! sel_at sel k = Some y ∧
    row_value left k = Some x ∧ row_value right k = Some y) as Hval.
  { intros k Hk Hn. destruct (Hsh k Hk) as (Hkl & Hkr & Hci & -> & Hnulls).
    destruct (operand_present left k Hl Hkl) as (x & Hx & Hrx & _); [tauto|].
    destruct (operand_present right k Hr Hkr) as (y & Hy & Hry & _); [tauto|].
    exists x, y. rewrite Hx, <- Hci. done. }
  destruct (divmod_rows_spec op ty leftf right (exec_indexes sel count 0) data nulls) as (d & n & Hd & Hnul & Hrow).
  { intros i (k & Hk & ->)%exec_index_elem Hn. destruct (Hval k Hk Hn) as (x & y & Hx & Hy & Hrx & Hry).
    exists y. split; [done|]. intros Hz. destruct (Hop k x y) as [z Hz']; [lia|done|done|done|]. eauto. }
  exists d, n. split; [done|]. intros k Hk. unfold divmod_row.
  destruct (Hsh k Hk) as (_ & _ & Hci & _ & Hnulls).
  assert (sel_at sel k ∈ n → row_is (mkVector ty' count d sel n) k None) as Hnone by (by intros; apply row_is_vector).
  destruct (decide (sel_at sel k ∈ nulls)) as [Hn|Hn].
  { specialize (Hnone (proj2 (Hnul _) (or_introl Hn))).
    apply Hnulls in Hn as [Hn|Hn]; rewrite (row_value_null _ _ Hn); [done|by destruct (row_value left k)]. }
  destruct (Hval k Hk Hn) as (x & y & Hx & Hy & Hrx & Hry). rewrite Hrx, Hry.
  assert (sel_at sel k ∈ (exec_indexes sel count 0).*1) as Hin by (apply exec_index_elem; eauto).
  destruct (is_zero ty y) eqn:Hz; [apply Hnone, Hnul; eauto|].
  assert (sel_at sel k ∉ n) as Hnn by (intros [?|(_ & y' & ? & ?)]%Hnul; congruence).
  destruct (Hrow _ Hin Hnn) as (x' & y' & z & Hx' & Hy' & Hz' & Hd').
  assert (x' = x ∧ y' = y) as [-> ->] by (split; congruence). exists z. split; [done|]. by apply row_is_vector.
Qed.

(** [Divide] and [Modulo]: NULL where an operand is NULL or the divisor is 0. *)
Lemma divmod_loop_spec result_ :
  aligned left right →
  ∃ v, templated_divmod_loop op left right result_ = Ok v ∧ v_type v = v_type result_ ∧ v_count v = rows_of left right ∧
    v_sel v = (if IsConstant left then v_sel right else v_sel left) ∧
    ∀ k, k < rows_of left right → divmod_row op ty left right v k.
Proof.
  intros Hal. unfold templated_divmod_loop. fold ty. pose proof divmod_case as Hcase. unfold rows_of in *.
  assert (∀ sel count data ty', (∀ k, k < count → sel_at sel k < STANDARD_VECTOR_SIZE ∧
     (cell_index left k ∈ v_null left ∨ cell_index right k ∈ v_null right ∨
      ∃ y, row_value right k = Some y ∧ is_zero ty y = true)) →
     ∀ k, k < count → divmod_row op ty left right (mkVector ty' count data sel all_nulls) k) as Hnullc.
  { intros sel count data ty' Hn k Hk. destruct (Hn k Hk) as [Hb Hnull]. unfold divmod_row.
    assert (row_is (mkVector ty' count data sel all_nulls) k None) as Hall.
    { apply row_is_vector; [done|]. apply elem_of_list_to_set, elem_of_seq; lia. }
    destruct Hnull as [H|[H|(y & -> & ->)]]; [| |by destruct (row_value left k)];
      rewrite (row_value_null _ _ H); [done|by destruct (row_value left k)]. }
  destruct (IsConstant left) eqn:El; [|destruct (IsConstant right) eqn:Er].
  - case_bool_decide as Hn.
    { eexists. split_and!; [done..|]. apply Hnullc. intros k Hk. split; [by apply Hr|left; by rewrite cell_index_const]. }
    destruct (Hcase (v_sel right) (v_count right) (v_null right) (fun _ => deref (v_data left !! 0)) (v_data result_) (v_type result_))
      as (d & n & -> & Hrow); [done| |run; by eauto 10].
    intros k Hk. rewrite (cell_index_const left) by done. rewrite (cell_index_row right) by done.
    split_and!; [by right|by left|done|done|]. tauto.
  - assert (∀ k, cell_index right k = 0) as Hci by (intros; by apply cell_index_const).
    destruct (decide (0 ∈ v_null right)) as [Hn|Hn].
    { rewrite bool_decide_eq_true_2 by done. run. eexists. split_and!; [done..|]. apply Hnullc. intros k Hk.
      split; [by apply Hl|right; left; by rewrite Hci]. }
    rewrite bool_decide_eq_false_2 by done.
    destruct (operand_present right 0 Hr) as (y & Hy & _); [by right|by rewrite Hci|]. rewrite Hci in Hy. rewrite Hy. run.
    assert (∀ k, row_value right k = Some y) as Hry.
    { intros k. unfold row_value. rewrite Hci. by rewrite decide_False. }
    destruct (is_zero ty y) eqn:Hz.
    { eexists. split_and!; [done..|]. apply Hnullc. intros k Hk. split; [by apply Hl|]. right; right. eauto. }
    rewrite <- Hy. destruct (loop_case (numeric_value op ty) left right Hl Hr (v_sel left) (v_count left) (v_null left)
      (fun i => v_data left !! i) (fun _ => v_data right !! 0) (v_data result_) (v_type result_)) as (d & -> & Hrow).
    + intros k Hk. rewrite Hci. rewrite (cell_index_row left) by done. split_and!; [by left|by right|done|done|]. tauto.
    + intros k x y' Hk Hx Hy'. rewrite Hry in Hy'. injection Hy' as <-. by eapply Hop.
    + run. eexists. split_and!; [done..|]. intros k Hk. specialize (Hrow k Hk). unfold binary_row, divmod_row in *.
      rewrite Hry, Hz in *. done.
  - destruct Hal as [?|[?|[Hc Hs]]]; [congruence..|]. rewrite Hc in *. rewrite Nat.eqb_refl. run.
    rewrite bool_decide_eq_true_2 by done. run.
    destruct (Hcase (v_sel left) (v_count right) (v_null left ∪ v_null right) (fun i => deref (v_data left !! i)) (v_data result_) (v_type result_))
      as (d & n & -> & Hrow); [done| |run; by eauto 10].
    intros k Hk. rewrite (cell_index_row left) by lia. rewrite (cell_index_row right) by done. rewrite Hs.
    split_and!; [left; lia|by left|done|done|]. by rewrite elem_of_union.
Qed.
End divmod.

(** ** The logic of SQL *)

(** A boolean row, [None] for NULL. *)
Definition row_bool (v : Vector) (k : nat) : option bool :=
  match row_value v k with Some (Num _ z) => Some (negb (z =? 0)%Z) | _ => None end.

Lemma row_is_bool v k o : row_is v k (bool_cell <$> o) → row_bool v k = o.
Proof. intros Hv. unfold row_bool. rewrite (row_is_value _ _ _ Hv). by destruct o as [[]|]. Qed.

Lemma boolean_rows_spec OP NULLOP left right ixs data nulls :
  (∀ i, i ∈ ixs.*1 → ∃ l ln r, left i = Ok (l, ln) ∧ bool_at right i = Ok r) →
  ∃ d n, boolean_rows OP NULLOP left right ixs data nulls = Ok (d, n) ∧
    (∀ i l ln r, i ∈ ixs.*1 → left i = Ok (l, ln) → bool_at right i = Ok r →
       d !! i = Some (bool_cell (OP l r)) ∧ (i ∈ n ↔ NULLOP l r ln (bool_decide (i ∈ v_null right)) = true)) ∧
    (∀ i, i ∉ ixs.*1 → d !! i = data !! i ∧ (i ∈ n ↔ i ∈ nulls)).
Proof.
  revert data nulls. induction ixs as [|[i k] ixs IH]; intros data nulls Hv.
  { exists data, nulls. split_and!; [done|by intros i l ln r ?%elem_of_nil|done]. }
  destruct (Hv i) as (l & ln & r & Hl & Hr); [by left|]. cbn [boolean_rows]. run. rewrite Hl. run. rewrite Hr. run.
  match goal with |- context [boolean_rows _ _ _ _ _ ?d ?n] => destruct (IH d n) as (d' & n' & Hd & Hin & Hout) end.
  { intros j Hj. apply Hv. by right. }
  exists d', n'. split; [done|]. split.
  - intros j l' ln' r' Hj Hl' Hr'. destruct (decide (j ∈ ixs.*1)) as [Hj'|Hj']; [by apply Hin|].
    apply elem_of_cons in Hj as [->|?]; [|done]. cbn [fst] in *. destruct (Hout i Hj') as [-> ->].
    assert (l' = l ∧ ln' = ln ∧ r' = r) as (-> & -> & ->) by (split_and!; congruence).
    split; [apply lookup_insert_eq|]. destruct (NULLOP l r ln _); set_solver.
  - intros j [Hne Hj]%not_elem_of_cons. destruct (Hout j Hj) as [-> ->].
    split; [by rewrite lookup_insert_ne|]. simpl in Hne. destruct (NULLOP l r ln _); set_solver.
Qed.

Lemma bool_at_row v k :
  operand_ok v → v_type v = T_BOOLEAN → has_row v k →
  ∃ b, bool_at v (cell_index v k) = Ok b ∧ row_bool v k = sql_bool (bool_decide (cell_index v k ∈ v_null v)) b.
Proof.
  intros Hok Hty Hk. unfold bool_at, row_bool. case_bool_decide as Hn.
  - rewrite row_value_null by done. destruct (v_data v !! _) as [[w z|s]|]; eauto.
  - destruct (operand_present v k Hok Hk Hn) as (x & Hx & -> & Ht). rewrite Hx. rewrite Hty in Ht.
    destruct x as [w z|[s|]]; try done. eauto.
Qed.

Section logic.
Context (OP : bool → bool → bool) (NULLOP : bool → bool → bool → bool → bool) (sql : option bool → option bool → option bool).
Context (Hsql : ∀ l r ln rn, sql_bool (NULLOP l r ln rn) (OP l r) = sql (sql_bool ln l) (sql_bool rn r)).
Context (Hcomm : ∀ a b, sql a b = sql b a).

Lemma boolean_case left right sel count f data nulls ty :
  operand_ok left → operand_ok right → v_type left = T_BOOLEAN → v_type right = T_BOOLEAN →
  (∀ k, k < count → has_row left k ∧ has_row right k ∧ cell_index right k = sel_at sel k ∧
     f (sel_at sel k) = bool_and_null left (cell_index left k)) →
  ∃ d n, boolean_rows OP NULLOP f right (exec_indexes sel count 0) data nulls = Ok (d, n) ∧
    ∀ k, k < count → row_is (mkVector ty count d sel n) k (bool_cell <$> sql (row_bool left k) (row_bool right k)).
Proof.
  intros Hl Hr Htl Htr Hsh.
  assert (∀ k, k < count → ∃ l ln r, f (sel_at sel k) = Ok (l, ln) ∧ bool_at right (sel_at sel k) = Ok r ∧
    row_bool left k = sql_bool ln l ∧ row_bool right k = sql_bool (bool_decide (sel_at sel k ∈ v_null right)) r) as Hval.
  { intros k Hk. destruct (Hsh k Hk) as (Hkl & Hkr & Hci & ->).
    destruct (bool_at_row left k Hl Htl Hkl) as (l & Hbl & ->). destruct (bool_at_row right k Hr Htr Hkr) as (r & Hbr & ->).
    rewrite Hci in *. unfold bool_and_null. rewrite Hbl. run. eauto 10. }
  destruct (boolean_rows_spec OP NULLOP f right (exec_indexes sel count 0) data nulls) as (d & n & Hd & Hrow & _).
  { intros i (k & Hk & ->)%exec_index_elem. destruct (Hval k Hk) as (l & ln & r & ? & ? & _). eauto. }
  exists d, n. split; [done|]. intros k Hk. destruct (Hval k Hk) as (l & ln & r & Hfl & Hbr & -> & ->).
  rewrite <- Hsql. destruct (Hrow (sel_at sel k) l ln r) as [Hdk Hnk]; [apply exec_index_elem; eauto|done..|].
  apply row_is_vector; [done|]. destruct (NULLOP l r ln _); simpl; [tauto|]. split; [|done].
  by intros ?%Hnk.
Qed.

Lemma boolean_nullmask_spec left right result_ :
  operand_ok left → operand_ok right → v_type left = T_BOOLEAN → v_type right = T_BOOLEAN → aligned left right →
  ∃ v, templated_boolean_nullmask OP NULLOP left right result_ = Ok v ∧ v_type v = v_type result_ ∧
    v_count v = rows_of left right ∧ v_sel v = (if IsConstant left then v_sel right else v_sel left) ∧
    ∀ k, k < rows_of left right → row_is v k (bool_cell <$> sql (row_bool left k) (row_bool right k)).
Proof.
  intros Hl Hr Htl Htr Hal. unfold templated_boolean_nullmask, rows_of.
  rewrite !bool_decide_eq_true_2 by done. cbn [negb orb].
  assert (∀ c v, operand_ok c → operand_ok v → v_type c = T_BOOLEAN → v_type v = T_BOOLEAN → IsConstant c = true →
    ∃ w, (c0 ← bool_and_null c 0;
      '(data, nulls) ← boolean_rows OP NULLOP (fun _ => Ok c0) v (exec_indexes (v_sel v) (v_count v) 0) (v_data result_) (v_null result_);
      Ok (mkVector (v_type result_) (v_count v) data (v_sel v) nulls)) = Ok w ∧ v_type w = v_type result_ ∧
      v_count w = v_count v ∧ v_sel w = v_sel v ∧
      ∀ k, k < v_count v → row_is w k (bool_cell <$> sql (row_bool c k) (row_bool v k))) as Hconst.
  { intros c v Hc Hv Htc Htv E. destruct (bool_at_row c 0 Hc Htc) as (b & Hb & _); [by right|].
    rewrite cell_index_const in Hb by done. unfold bool_and_null. rewrite Hb. run.
    destruct (boolean_case c v (v_sel v) (v_count v) (fun _ => Ok (b, bool_decide (0 ∈ v_null c))) (v_data result_)
      (v_null result_) (v_type result_)) as (d & n & -> & Hrow); [done..| |run; by eauto 10].
    intros k Hk. split_and!; [by right|by left|by apply cell_index_row|].
    unfold bool_and_null. rewrite cell_index_const by done. by rewrite Hb. }
  destruct (IsConstant left) eqn:El; [by apply Hconst|]. destruct (IsConstant right) eqn:Er.
  { destruct (Hconst right left Hr Hl Htr Htl Er) as (w & -> & ? & ? & ? & Hrow). exists w. split_and!; [done..|].
    intros k Hk. rewrite Hcomm. by apply Hrow. }
  destruct Hal as [?|[?|[Hc Hs]]]; [congruence..|]. rewrite <- Hc, Nat.eqb_refl.
  rewrite bool_decide_eq_true_2 by done. run.
  destruct (boolean_case left right (v_sel left) (v_count left) (bool_and_null left) (v_data result_) (v_null result_)
    (v_type result_)) as (d & n & -> & Hrow); [done..| |run; by eauto 10].
  intros k Hk. rewrite (cell_index_row left) by done. rewrite (cell_index_row right), Hs by lia.
  split_and!; [by left|left; lia|done..].
Qed.
End logic.

(** ** CASE and IS NULL *)

(** The branch a CASE takes: the condition must be true, not just not false. *)
Definition case_source (check res_true res_false : Vector) (i : nat) : result Vector :=
  cond ← bool_at check (operand_index check i);
  Ok (if cond && negb (bool_decide (operand_index check i ∈ v_null check)) then res_true else res_false).

Lemma case_rows_spec check res_true res_false ixs data nulls :
  (∀ i, i ∈ ixs.*1 → ∃ s, case_source check res_true res_false i = Ok s ∧
     (operand_index s i ∉ v_null s → is_Some (v_data s !! operand_index s i))) →
  ∃ d n, case_rows check res_true res_false ixs data nulls = Ok (d, n) ∧
    (∀ i s, i ∈ ixs.*1 → case_source check res_true res_false i = Ok s →
       (i ∈ n ↔ operand_index s i ∈ v_null s) ∧ (i ∉ n → d !! i = v_data s !! operand_index s i)) ∧
    (∀ i, i ∉ ixs.*1 → d !! i = data !! i ∧ (i ∈ n ↔ i ∈ nulls)).
Proof.
  revert data nulls. induction ixs as [|[i k] ixs IH]; intros data nulls Hv.
  { exists data, nulls. split_and!; [done|by intros i s ?%elem_of_nil|done]. }
  destruct (Hv i) as (s & Hs & Hx); [by left|]. cbn [case_rows]. pose proof Hs as Hs'. unfold case_source in Hs.
  destruct (bool_at check _) as [cond| |] eqn:Hb; [|done..]. cbn in Hs. injection Hs as Hs. run. rewrite Hs.
  assert (∀ d0 n0, d0 = (if bool_decide (operand_index s i ∈ v_null s) then data
      else partial_alter (fun _ => v_data s !! operand_index s i) i data) →
    n0 = (if bool_decide (operand_index s i ∈ v_null s) then {[i]} ∪ nulls else nulls ∖ {[i]}) →
    ∃ d n, case_rows check res_true res_false ixs d0 n0 = Ok (d, n) ∧
    (∀ j s, j ∈ i :: ixs.*1 → case_source check res_true res_false j = Ok s →
       (j ∈ n ↔ operand_index s j ∈ v_null s) ∧ (j ∉ n → d !! j = v_data s !! operand_index s j)) ∧
    (∀ j, j ∉ i :: ixs.*1 → d !! j = data !! j ∧ (j ∈ n ↔ j ∈ nulls))) as Hgo.
  { intros d0 n0 -> ->. edestruct IH as (d & n & Hd & Hin & Hout); [intros j Hj; apply Hv; by right|].
    exists d, n. split; [exact Hd|]. split.
    - intros j s' Hj Hsj. destruct (decide (j ∈ ixs.*1)) as [Hj'|Hj']; [by apply Hin|].
      apply elem_of_cons in Hj as [->|?]; [|done]. assert (s' = s) as -> by congruence. destruct (Hout i Hj') as [-> ->].
      case_bool_decide; [set_solver|]. split; [set_solver|]. intros _. by rewrite lookup_partial_alter_eq.
    - intros j [Hne Hj]%not_elem_of_cons. destruct (Hout j Hj) as [-> ->].
      case_bool_decide; [set_solver|]. split; [by rewrite lookup_partial_alter_ne|set_solver]. }
  case_bool_decide as Hn; [apply Hgo; by rewrite ?bool_decide_eq_true_2|].
  destruct (Hx Hn) as [x Hx']. rewrite Hx'. run. apply Hgo; [|done].
  apply map_eq. intros j. destruct (decide (i = j)) as [->|]; [by rewrite lookup_insert_eq, lookup_partial_alter_eq|].
  by rewrite lookup_insert_ne, lookup_partial_alter_ne.
Qed.

(** An operand that follows the shape of a CASE. *)
Definition case_operand (sel : option (list nat)) (count : nat) (v : Vector) : Prop :=
  operand_ok v ∧ (IsConstant v = true ∨ (v_count v = count ∧ v_sel v = sel)).

Lemma case_operand_row sel count v k :
  case_operand sel count v → k < count → has_row v k ∧ operand_index v (sel_at sel k) = cell_index v k.
Proof.
  intros [_ Hs] Hk. unfold has_row, operand_index, cell_index. destruct (IsConstant v) eqn:E; [auto|].
  destruct Hs as [?|[-> ->]]; [done|]. auto.
Qed.

Lemma Vector_Case_spec check res_true res_false result_ sel count :
  ternary_shape check res_true res_false = (sel, count) →
  case_operand sel count check → case_operand sel count res_true → case_operand sel count res_false →
  v_type check = T_BOOLEAN → v_type res_true = v_type result_ → v_type res_false = v_type result_ →
  v_type result_ ≠ T_INVALID → v_type result_ ≠ T_VARBINARY →
  ∃ v, Vector_Case check res_true res_false result_ = Ok v ∧ v_type v = v_type result_ ∧ v_count v = count ∧ v_sel v = sel ∧
    ∀ k, k < count → row_is v k
      (if bool_decide (row_bool check k = Some true) then row_value res_true k else row_value res_false k).
Proof.
  intros Hshape Hc Ht Hf Htc Htt Htf Hne Hne'. unfold Vector_Case. rewrite Htc, Htt, Htf, Hshape.
  rewrite !bool_decide_eq_true_2 by done. cbn [negb orb].
  assert (∀ v, case_operand sel count v → IsConstant v || (v_count v =? count) = true) as Hfits.
  { intros v [_ [->|[-> _]]]; [done|]. by rewrite Nat.eqb_refl, orb_true_r. }
  assert (∀ k, k < count → case_source check res_true res_false (sel_at sel k) =
    Ok (if bool_decide (row_bool check k = Some true) then res_true else res_false)) as Hsrc.
  { intros k Hk. unfold case_source. destruct (case_operand_row _ _ _ _ Hc Hk) as [Hrow ->].
    destruct (bool_at_row check k) as (b & -> & ->); [apply Hc|done|done|]. run.
    destruct b; case_bool_decide; done. }
  destruct (case_rows_spec check res_true res_false (exec_indexes sel count 0) (v_data result_) (v_null result_))
    as (d & n & Hd & Hrow & _).
  { intros i (k & Hk & ->)%exec_index_elem. eexists. split; [by apply Hsrc|].
    set (s := if bool_decide _ then res_true else res_false).
    assert (case_operand sel count s) as Hs by (unfold s; by case_bool_decide).
    destruct (case_operand_row _ _ _ _ Hs Hk) as [Hk' ->]. intros Hn.
    destruct (operand_present s k (proj1 Hs) Hk' Hn) as (x & Hx & _). eauto. }
  exists (mkVector (v_type result_) count d sel n). split; [|split_and!; [done..|]].
  { destruct (v_type result_); try done; run; rewrite !Hfits by done; run; by rewrite Hd. }
  intros k Hk.
  destruct (Hrow (sel_at sel k) _ (proj2 (exec_index_elem _ _ _) (ex_intro _ k (conj Hk eq_refl))) (Hsrc k Hk)) as [Hn Hx].
  assert (∀ s, case_operand sel count s → (sel_at sel k ∈ n ↔ operand_index s (sel_at sel k) ∈ v_null s) →
    (sel_at sel k ∉ n → d !! sel_at sel k = v_data s !! operand_index s (sel_at sel k)) →
    row_is (mkVector (v_type result_) count d sel n) k (row_value s k)) as Hs.
  { intros s Hs Hns Hxs. destruct (case_operand_row _ _ _ _ Hs Hk) as [Hks E]. rewrite E in *. apply row_is_vector; [done|].
    unfold row_value. destruct (decide (cell_index s k ∈ v_null s)) as [Hin|Hin]; [tauto|].
    destruct (operand_present s k (proj1 Hs) Hks Hin) as (x & Hx' & _). rewrite Hx'. rewrite <- Hx'. tauto. }
  case_bool_decide; by apply Hs.
Qed.

(** [IsNull] and [IsNotNull]: never NULL themselves. *)
Lemma is_null_spec inverse input result_ :
  v_type result_ = T_BOOLEAN →
  ∃ v, is_null_loop inverse input result_ = Ok v ∧ v_type v = T_BOOLEAN ∧ v_count v = v_count input ∧ v_sel v = v_sel input ∧
    ∀ k, k < v_count input →
      row_is v k (Some (bool_cell (xorb inverse (bool_decide (cell_index input k ∈ v_null input))))).
Proof.
  intros Hty. unfold is_null_loop. rewrite bool_decide_eq_true_2 by done. cbn [negb].
  match goal with |- context [write_rows ?f ?ix ?d] => destruct (write_rows_spec f ix d) as (d' & -> & Hrow); [eauto|] end.
  run. eexists. split_and!; [done..|]. intros k Hk. apply row_is_vector; [done|]. split; [set_solver|].
  erewrite Hrow; [|apply exec_index_elem; eauto|done]. rewrite (cell_index_row input) by done.
  by destruct inverse, (bool_decide _).
Qed.

Lemma Vector_Not_spec left result_ :
  operand_ok left → v_type left = T_BOOLEAN →
  ∃ v, Vector_Not left result_ = Ok v ∧ v_type v = v_type result_ ∧ v_count v = v_count left ∧ v_sel v = v_sel left ∧
    ∀ k, k < v_count left → row_is v k (bool_cell <$> (negb <$> row_bool left k)).
Proof.
  intros Hok Hty. unfold Vector_Not, unary_loop. rewrite bool_decide_eq_true_2 by done. cbn [negb].
  assert (∀ k, k < v_count left → sel_at (v_sel left) k ∉ v_null left → ∃ w z,
    v_data left !! sel_at (v_sel left) k = Some (Num w z) ∧ row_value left k = Some (Num w z)) as Hval.
  { intros k Hk Hn. rewrite <- cell_index_row in * by done.
    destruct (operand_present left k Hok) as (x & Hx & Hr & Ht); [by left|done|]. rewrite Hty in Ht.
    destruct x as [w z|[s|]]; try done. eauto. }
  match goal with |- context [write_rows ?f ?ix ?d] => destruct (write_rows_spec f ix d) as (d' & -> & Hrow) end.
  { intros i (k & Hk & ->)%exec_index_elem. case_bool_decide as Hn; [eauto|].
    destruct (Hval k Hk Hn) as (w & z & -> & _). run. eauto. }
  run. eexists. split_and!; [done..|]. intros k Hk. apply row_is_vector; [done|]. unfold row_bool.
  destruct (decide (sel_at (v_sel left) k ∈ v_null left)) as [Hn|Hn];
    [by rewrite row_value_null by (by rewrite cell_index_row)|].
  destruct (Hval k Hk Hn) as (w & z & Hx & ->). split; [done|]. erewrite Hrow; [|apply exec_index_elem; eauto|].
  2: { rewrite bool_decide_eq_false_2 by done. rewrite Hx. run. done. }
  simpl. by destruct (z =? 0)%Z.
Qed.

(** ** Integer division *)

Definition row_num (v : Vector) (k : nat) : option Z :=
  match row_value v k with Some (Num _ z) => Some z | _ => None end.

(** The widths of the signed types. *)
Definition signed_width (ty : TypeId) : option nat :=
  match ty with T_TINYINT => Some 1 | T_SMALLINT => Some 2 | T_INTEGER => Some 4 | T_BIGINT => Some 8 | _ => None end.

Lemma wrap_signed_id n z : n ≠ 0 → in_signed n z = true → wrap_signed n z = z.
Proof.
  unfold in_signed, wrap_signed. rewrite andb_true_iff, Z.leb_le, Z.ltb_lt. intros Hn Hz.
  rewrite <- (le_val_bytes n z). apply le_val_signed; lia.
Qed.

Lemma rem_in_signed n x y : y ≠ 0%Z → in_signed n x = true → in_signed n (Z.rem x y) = true.
Proof.
  unfold in_signed. rewrite !andb_true_iff, !Z.leb_le, !Z.ltb_lt. intros Hy Hx.
  assert (Z.abs (Z.rem x y) ≤ Z.abs x)%Z by (rewrite <- Z.rem_abs by done; apply Z.rem_le; lia).
  destruct (Z.le_gt_cases 0 x); [pose proof (Z.rem_nonneg x y Hy)|pose proof (Z.rem_nonpos x y Hy)]; lia.
Qed.

(** The quotient or the remainder of C++. *)
Definition divmod_Z (op : numeric_op) (x y : Z) : Z := match op with OpModulo => Z.rem x y | _ => Z.quot x y end.

Lemma divmod_value op ty n w w' x y :
  op = OpDivide ∨ op = OpModulo → signed_width ty = Some n → y ≠ 0%Z →
  in_signed n x = true → in_signed n (Z.quot x y) = true →
  numeric_value op ty (Num w x) (Num w' y) = Ok (Num n (divmod_Z op x y)).
Proof.
  intros Hop Hty Hy Hx Hq. pose proof (rem_in_signed n x y Hy Hx) as Hr.
  assert (n ≠ 0) as Hn by (intros ->; by destruct ty).
  assert (numeric_Z op x y = Ok (divmod_Z op x y)) as Hz.
  { apply Z.eqb_neq in Hy. by destruct Hop as [-> | ->]; simpl; rewrite Hy. }
  assert (in_signed n (divmod_Z op x y) = true) as Hin by (by destruct Hop as [-> | ->]).
  assert (overflows op n x y (divmod_Z op x y) = false) as Hov.
  { destruct Hop as [-> | ->]; simpl; by rewrite Hq. }
  destruct ty; try discriminate; injection Hty as <-; cbn [numeric_value]; rewrite Hz; run;
    rewrite ?wrap_signed_id by done; by rewrite ?Hov.
Qed.

Lemma row_num_value v k z : row_num v k = Some z → ∃ w, row_value v k = Some (Num w z).
Proof. unfold row_num. destruct (row_value v k) as [[w z'|s]|]; [intros [= ->]; eauto|done..]. Qed.

Lemma integer_row v k n :
  operand_ok v → has_row v k → signed_width (v_type v) = Some n → row_value v k = None ∨ ∃ w z, row_value v k = Some (Num w z).
Proof.
  intros Hok Hk Hty. destruct (decide (cell_index v k ∈ v_null v)) as [Hn|Hn]; [left; by apply row_value_null|].
  destruct (operand_present v k Hok Hk Hn) as (x & _ & -> & Ht). destruct x as [w z|[s|]]; [eauto| |done].
  destruct (v_type v); done.
Qed.

Lemma rows_present left right k :
  aligned left right → k < rows_of left right → has_row left k ∧ has_row right k.
Proof.
  unfold aligned, rows_of, has_row. destruct (IsConstant left); [tauto|]. intros [?|[?|[<- _]]]; [done|tauto..].
Qed.

Lemma integer_divmod op left right result_ n :
  op = OpDivide ∨ op = OpModulo →
  operand_ok left → operand_ok right → aligned left right → v_type right = v_type left →
  signed_width (v_type left) = Some n →
  (∀ k x y, k < rows_of left right → row_num left k = Some x → row_num right k = Some y → y ≠ 0%Z →
     in_signed n x = true ∧ in_signed n (Z.quot x y) = true) →
  ∃ v, templated_divmod_loop op left right result_ = Ok v ∧ v_count v = rows_of left right ∧
    ∀ k, k < rows_of left right → row_num v k =
      match row_num left k, row_num right k with
      | Some x, Some y => if (y =? 0)%Z then None else Some (divmod_Z op x y)
      | _, _ => None
      end.
Proof.
  intros Hop Hl Hr Hal Hty Hw Hdef.
  assert (∀ w z, is_zero (v_type left) (Num w z) = (z =? 0)%Z) as Hz by (intros; by destruct (v_type left)).
  destruct (divmod_loop_spec op left right Hl Hr) with (result_ := result_) as (v & Hv & _ & Hc & _ & Hrow); [|done|].
  { intros k x y Hk Hx Hy Hnz. destruct (rows_present left right k Hal Hk) as [Hkl Hkr].
    destruct (integer_row left k n Hl Hkl) as [?|(w & z & Hx')]; [done|congruence|].
    destruct (integer_row right k n Hr Hkr) as [?|(w' & z' & Hy')]; [by rewrite Hty|congruence|].
    assert (x = Num w z ∧ y = Num w' z') as [-> ->] by (split; congruence). rewrite Hz in Hnz. apply Z.eqb_neq in Hnz.
    destruct (Hdef k z z') as [? ?]; [done|unfold row_num; by rewrite ?Hx', ?Hy'..|done|].
    eexists. by apply divmod_value with (n := n). }
  exists v. split_and!; [done..|]. intros k Hk. specialize (Hrow k Hk). unfold divmod_row in Hrow.
  destruct (rows_present left right k Hal Hk) as [Hkl Hkr]. specialize (Hdef k). unfold row_num in *.
  destruct (integer_row left k n Hl Hkl) as [Hx|(w & z & Hx)];
    [done|rewrite Hx in *; by rewrite (row_is_value _ _ _ Hrow)|].
  destruct (integer_row right k n Hr Hkr) as [Hy|(w' & z' & Hy)];
    [by rewrite Hty|rewrite Hx, Hy in *; by rewrite (row_is_value _ _ _ Hrow)|].
  rewrite Hx, Hy, Hz in *. destruct (z' =? 0)%Z eqn:E; [by rewrite (row_is_value _ _ _ Hrow)|]. apply Z.eqb_neq in E.
  destruct (Hdef z z') as [? ?]; [done..|]. destruct Hrow as (c & Hc' & ->%row_is_value).
  rewrite (divmod_value op _ n) in Hc' by done. by injection Hc' as <-.
Qed.

(** ** The operators *)

Lemma cardinality_check_ok left right : aligned left right → cardinality_check left right = Ok tt.
Proof.
  intros Hal. unfold cardinality_check. destruct (IsConstant left) eqn:El; [done|].
  destruct (IsConstant right) eqn:Er; [done|]. destruct Hal as [?|[?|[-> _]]]; [congruence..|]. by rewrite Nat.eqb_refl.
Qed.

Lemma BINARY_TYPE_CHECK_ok left right result_ :
  aligned left right → v_type right = v_type left → v_type result_ = v_type left →
  BINARY_TYPE_CHECK left right result_ = Ok tt.
Proof.
  intros Hal Hr Hres. unfold BINARY_TYPE_CHECK. rewrite Hr, Hres, !bool_decide_eq_true_2 by done.
  by apply cardinality_check_ok.
Qed.

Lemma comparison_spec op left right result_ :
  operand_ok left → operand_ok right → aligned left right →
  v_type right = v_type left → v_type result_ = T_BOOLEAN → v_type left ≠ T_INVALID → v_type left ≠ T_VARBINARY →
  ∃ v, templated_boolean_operation op left right result_ = Ok v ∧ v_type v = T_BOOLEAN ∧ v_count v = rows_of left right ∧
    v_sel v = (if IsConstant left then v_sel right else v_sel left) ∧
    ∀ k, k < rows_of left right →
      match row_value left k, row_value right k with
      | Some x, Some y => ∃ c, compare_values (v_type left) x y = Ok c ∧ row_is v k (Some (bool_cell (holds op c)))
      | _, _ => row_is v k None
      end.
Proof.
  intros Hl Hr Hal Hty Hres Hi Hb. unfold templated_boolean_operation, COMPARISON_TYPE_CHECK.
  rewrite Hty, Hres, !bool_decide_eq_true_2 by done. cbn [negb]. rewrite cardinality_check_ok by done. run.
  assert (∀ v k x, operand_ok v → has_row v k → row_value v k = Some x → cell_has_type (v_type v) x = true) as Htyped.
  { intros v k x Hv Hk Hx. assert (cell_index v k ∉ v_null v) as Hn by (intros ?%row_value_null; congruence).
    destruct (operand_present v k Hv Hk Hn) as (x' & _ & ? & ?). congruence. }
  destruct (binary_loop_spec (fun x y => b ← compare_op op (v_type left) x y; Ok (bool_cell b)) left right Hl Hr result_ Hal)
    as (v & Hv & Htv & Hc & Hsel & Hrow).
  { intros k x y Hk Hx Hy. destruct (rows_present left right k Hal Hk) as [Hkl Hkr].
    destruct (compare_values_total (v_type left) x y) as [c Hc]; [by eapply Htyped|rewrite <- Hty; by eapply Htyped|done|].
    unfold compare_op. rewrite Hc. run. eauto. }
  exists v. split; [by destruct (v_type left)|]. rewrite Htv. split_and!; [done..|]. intros k Hk. specialize (Hrow k Hk).
  unfold binary_row in Hrow. destruct (row_value left k) as [x|]; [|done]. destruct (row_value right k) as [y|]; [|done].
  destruct Hrow as (z & Hz & Hvz). unfold compare_op in Hz. destruct (compare_values _ x y) as [c| |]; [|done..].
  cbn in Hz. injection Hz as <-. by exists c.
Qed.

(** The well-formedness of a vector, decided. *)
Definition operand_okb (v : Vector) : bool :=
  match NullValue (v_type v) with Ok _ => true | _ => false end &&
  forallb (fun k => let i := sel_at (v_sel v) k in
    (i <? STANDARD_VECTOR_SIZE) &&
    (bool_decide (i ∈ v_null v) ||
     match v_data v !! i with Some x => cell_has_type (v_type v) x | None => false end)) (seq 0 (v_count v)).

Lemma operand_okb_ok v : operand_okb v = true → operand_ok v.
Proof.
  unfold operand_okb. rewrite andb_true_iff, forallb_forall. intros [Hnull Hrows].
  assert (∀ k, k < v_count v → sel_at (v_sel v) k < STANDARD_VECTOR_SIZE ∧ (sel_at (v_sel v) k ∈ v_null v ∨
    ∃ x, v_data v !! sel_at (v_sel v) k = Some x ∧ cell_has_type (v_type v) x = true)) as Hk.
  { intros k Hk. specialize (Hrows k). rewrite andb_true_iff, orb_true_iff, Nat.ltb_lt, bool_decide_eq_true in Hrows.
    destruct Hrows as [? Hx]; [apply in_seq; lia|]. split; [done|]. destruct Hx as [?|Hx]; [by left|right].
    destruct (v_data v !! _) as [x|]; [eauto|done]. }
  split; [split|].
  - destruct (NullValue (v_type v)); [eauto|done..].
  - intros k Hlt Hn. destruct (Hk k Hlt) as [_ [?|?]]; done.
  - intros k Hlt. by apply Hk.
Qed.

Module VectorExample.
Definition flat (ty : TypeId) (values : list (option cell)) : Vector :=
  mkVector ty (length values)
    (list_to_map (imap (fun i o => (i, default (Num 1 0) o)) values)) None
    (list_to_set (filter (fun i => values !! i = Some None) (seq 0 (length values)))).
Definition ints (values : list (option Z)) : Vector := flat T_INTEGER (map (option_map (Num 4)) values).
Definition bools (values : list (option bool)) : Vector := flat T_BOOLEAN (map (option_map bool_cell) values).
Definition out (ty : TypeId) : Vector := mkVector ty 0 ∅ None ∅.

Definition dividends := ints [Some 7; Some (-7); None; Some 5; Some 6]%Z.
Definition divisors := ints [Some 2; Some 2; Some 3; Some 0; None]%Z.
Definition all_bools := bools [Some true; Some true; Some true; Some false; Some false; Some false; None; None; None].
Definition each_bool := bools [Some true; Some false; None; Some true; Some false; None; Some true; Some false; None].
Definition chosen := ints [Some 1; Some 2; None; Some 4; Some 5; Some 6; Some 7; Some 8; Some 9]%Z.
Definition otherwise := ints [Some 0]%Z.

Lemma operands_ok : operand_ok dividends ∧ operand_ok divisors ∧ operand_ok all_bools ∧ operand_ok each_bool ∧
  operand_ok chosen ∧ operand_ok otherwise.
Proof. split_and!; apply operand_okb_ok; vm_compute; reflexivity. Qed.

Lemma operands_aligned : aligned dividends divisors ∧ aligned all_bools each_bool.
Proof. split; right; right; by vm_compute. Qed.
End VectorExample.

(** C27. A comparison of two vectors produces, row by row, the comparison of the
    values, and NULL where an operand is NULL; a constant operand stands for
    all rows, and selection vectors are followed. *)
Theorem comparison_rows op left right result_ :
  operand_ok left → operand_ok right → aligned left right →
  v_type right = v_type left → v_type result_ = T_BOOLEAN → v_type left ≠ T_INVALID → v_type left ≠ T_VARBINARY →
  ∃ v, templated_boolean_operation op left right result_ = Ok v ∧ v_count v = rows_of left right ∧
    ∀ k, k < rows_of left right →
      match row_value left k, row_value right k with
      | Some x, Some y => ∃ c, compare_values (v_type left) x y = Ok c ∧ row_bool v k = Some (holds op c)
      | _, _ => row_value v k = None
      end.
Proof.
  intros. destruct (comparison_spec op left right result_) as (v & Hv & _ & Hc & _ & Hrow); [done..|].
  exists v. split_and!; [done..|]. intros k Hk. specialize (Hrow k Hk).
  destruct (row_value left k) as [x|]; [|by apply row_is_value]. destruct (row_value right k) as [y|]; [|by apply row_is_value].
  destruct Hrow as (c & ? & ?). exists c. split; [done|]. by apply row_is_bool.
Qed.

Lemma comparison_rows_witness : ∃ v,
  templated_boolean_operation OpGreaterThan VectorExample.dividends VectorExample.otherwise (VectorExample.out T_BOOLEAN) = Ok v ∧
  v_count v = 5.
Proof.
  destruct (comparison_rows OpGreaterThan VectorExample.dividends VectorExample.otherwise (VectorExample.out T_BOOLEAN))
    as (v & Hv & Hc & _);
    [apply VectorExample.operands_ok|apply VectorExample.operands_ok|right; by left|done..|]. by exists v.
Defined.

(** C28. AND, OR and NOT over vectors are the three-valued logic of SQL in every
    row, whatever bytes lie under a NULL and whichever operand is a constant. *)
Theorem kleene_logic left right result_ :
  operand_ok left → operand_ok right → v_type left = T_BOOLEAN → v_type right = T_BOOLEAN → aligned left right →
  (∃ v, Vector_And left right result_ = Ok v ∧ v_count v = rows_of left right ∧
     ∀ k, k < rows_of left right → row_bool v k = sql_and (row_bool left k) (row_bool right k)) ∧
  (∃ v, Vector_Or left right result_ = Ok v ∧ v_count v = rows_of left right ∧
     ∀ k, k < rows_of left right → row_bool v k = sql_or (row_bool left k) (row_bool right k)) ∧
  (∃ v, Vector_Not left result_ = Ok v ∧ v_count v = v_count left ∧
     ∀ k, k < v_count left → row_bool v k = negb <$> row_bool left k).
Proof.
  intros Hl Hr Htl Htr Hal. split_and!.
  - destruct (boolean_nullmask_spec _ _ sql_and And_sql ltac:(by intros [[]|] [[]|]) left right result_)
      as (v & Hv & _ & Hc & _ & Hrow); [done..|].
    exists v. split_and!; [done..|]. intros k Hk. apply row_is_bool. by apply Hrow.
  - destruct (boolean_nullmask_spec _ _ sql_or Or_sql ltac:(by intros [[]|] [[]|]) left right result_)
      as (v & Hv & _ & Hc & _ & Hrow); [done..|].
    exists v. split_and!; [done..|]. intros k Hk. apply row_is_bool. by apply Hrow.
  - destruct (Vector_Not_spec left result_) as (v & Hv & _ & Hc & _ & Hrow); [done..|].
    exists v. split_and!; [done..|]. intros k Hk. apply row_is_bool. by apply Hrow.
Qed.

Lemma kleene_logic_witness : ∃ v,
  Vector_And VectorExample.all_bools VectorExample.each_bool (VectorExample.out T_BOOLEAN) = Ok v ∧
  row_bool v 2 = None ∧ row_bool v 5 = Some false.
Proof.
  destruct (kleene_logic VectorExample.all_bools VectorExample.each_bool (VectorExample.out T_BOOLEAN)) as ((v & Hv & _ & Hrow) & _);
    [apply VectorExample.operands_ok ..|done|done|apply VectorExample.operands_aligned|].
  exists v. split; [done|]. rewrite !Hrow by (vm_compute; lia). by vm_compute.
Defined.

(** Integer division and modulo: NULL where an operand is NULL or the
    divisor is 0, and elsewhere the truncated quotient and its remainder,
    provided the quotient fits the type. *)
Theorem integer_division left right result_ n :
  operand_ok left → operand_ok right → aligned left right →
  v_type right = v_type left → v_type result_ = v_type left → signed_width (v_type left) = Some n →
  (∀ k x y, k < rows_of left right → row_num left k = Some x → row_num right k = Some y → y ≠ 0%Z →
     in_signed n x = true ∧ in_signed n (Z.quot x y) = true) →
  ∃ q r, Vector_Divide left right result_ = Ok q ∧ Vector_Modulo left right result_ = Ok r ∧
    v_count q = rows_of left right ∧ v_count r = rows_of left right ∧
    ∀ k, k < rows_of left right →
      match row_num left k, row_num right k with
      | Some x, Some y =>
        if (y =? 0)%Z then row_num q k = None ∧ row_num r k = None
        else row_num q k = Some (Z.quot x y) ∧ row_num r k = Some (Z.rem x y)
      | _, _ => row_num q k = None ∧ row_num r k = None
      end.
Proof.
  intros Hl Hr Hal Hty Hres Hw Hdef. unfold Vector_Divide, Vector_Modulo. rewrite BINARY_TYPE_CHECK_ok by done. run.
  assert (numeric_type (v_type left) = true ∧ integer_type (v_type left) = true) as [-> ->] by (by destruct (v_type left)).
  destruct (integer_divmod OpDivide left right result_ n) as (q & Hq & Hcq & Hrq); [by left|done..|].
  destruct (integer_divmod OpModulo left right result_ n) as (r & Hr' & Hcr & Hrr); [by right|done..|].
  exists q, r. split_and!; [done..|]. intros k Hk. rewrite (Hrq k Hk), (Hrr k Hk).
  destruct (row_num left k), (row_num right k); [|done..]. by destruct (_ =? 0)%Z.
Qed.

Lemma integer_division_witness : ∃ q r,
  Vector_Divide VectorExample.dividends VectorExample.divisors (VectorExample.out T_INTEGER) = Ok q ∧
  Vector_Modulo VectorExample.dividends VectorExample.divisors (VectorExample.out T_INTEGER) = Ok r ∧
  row_num q 1 = Some (-3)%Z ∧ row_num r 1 = Some (-1)%Z ∧ row_num q 3 = None.
Proof.
  destruct (integer_division VectorExample.dividends VectorExample.divisors (VectorExample.out T_INTEGER) 4)
    as (q & r & Hq & Hr & _ & _ & Hrow);
    [apply VectorExample.operands_ok|apply VectorExample.operands_ok|apply VectorExample.operands_aligned|done..| |].
  { intros k x y Hk Hx Hy Hnz. vm_compute in Hk. do 5 (destruct k as [|k];
      [vm_compute in Hx, Hy; first [discriminate Hx|discriminate Hy|injection Hx as <-; injection Hy as <-; by vm_compute]|]). lia. }
  exists q, r. split_and!; [done|done| | |].
  - exact (proj1 (Hrow 1 ltac:(vm_compute; lia))).
  - exact (proj2 (Hrow 1 ltac:(vm_compute; lia))).
  - exact (proj1 (Hrow 3 ltac:(vm_compute; lia))).
Defined.

(** CASE takes the first branch in the rows whose condition is true, and
    the second in those where it is false or NULL. *)
Theorem case_branches check res_true res_false result_ sel count :
  ternary_shape check res_true res_false = (sel, count) →
  case_operand sel count check → case_operand sel count res_true → case_operand sel count res_false →
  v_type check = T_BOOLEAN → v_type res_true = v_type result_ → v_type res_false = v_type result_ →
  v_type result_ ≠ T_INVALID → v_type result_ ≠ T_VARBINARY →
  ∃ v, Vector_Case check res_true res_false result_ = Ok v ∧ v_count v = count ∧
    ∀ k, k < count → row_value v k =
      if bool_decide (row_bool check k = Some true) then row_value res_true k else row_value res_false k.
Proof.
  intros. destruct (Vector_Case_spec check res_true res_false result_ sel count) as (v & Hv & _ & Hc & _ & Hrow); [done..|].
  exists v. split_and!; [done..|]. intros k Hk. apply row_is_value. by apply Hrow.
Qed.

Lemma case_branches_witness : ∃ v,
  Vector_Case VectorExample.each_bool VectorExample.chosen VectorExample.otherwise (VectorExample.out T_INTEGER) = Ok v ∧
  row_num v 0 = Some 1%Z ∧ row_num v 2 = Some 0%Z.
Proof.
  destruct (case_branches VectorExample.each_bool VectorExample.chosen VectorExample.otherwise (VectorExample.out T_INTEGER) None 9)
    as (v & Hv & _ & Hrow); [by vm_compute|split; [apply VectorExample.operands_ok|]..|done|done|done|done|done|];
    [by right|by right|by left|].
  exists v. split; [done|]. unfold row_num. rewrite !Hrow by lia. by vm_compute.
Defined.

(** The quotient of the smallest integer and -1 does not fit: the division is
    undefined behaviour. *)
Lemma divide_minimum_by_minus_one :
  Vector_Divide (VectorExample.ints [Some (-2147483648); Some 1]%Z) (VectorExample.ints [Some (-1)]%Z) (VectorExample.out T_INTEGER) = Undef.
Proof. vm_compute. reflexivity. Qed.
