(* ===== verification/Like.v ===== *)
(** * LIKE

    Models [src/src/common/operator/like_operators.cpp] and
    [src/src/common/vector_operations/like.cpp]: the matcher of SQL patterns,
    and what it accepts. *)

From Stdlib Require Import ZArith Lia.
From stdpp Require Import base gmap list strings option numbers sorting relations.
From S2P Require Import Prelude Types Vector Serializer Operators VectorOps.

Local Open Scope Z_scope.

(** ** The matcher *)

Definition PERCENT : byte := 37.
Definition UNDERSCORE : byte := 95.

(** The suffixes of the text that are not empty, longest first: what the
    pointer [t] runs through. *)
Fixpoint suffixes (t : list byte) : list (list byte) :=
  match t with [] => [] | _ :: t' => t :: suffixes t' end.

(** [Like::Operation(s, pattern, escape)]; the terminating 0 of a C string is
    the end of the list. *)
Fixpoint Like_Operation (escape : option byte) (p t : list byte) {struct p} : bool :=
  match p with
  | [] => match t with [] => true | _ => false end
  | c :: p' =>
    match t with
    | [] => (c =? PERCENT) && match p' with [] => true | _ => false end
    | d :: t' =>
      if bool_decide (escape = Some c) then
        match p' with
        | [] => false
        | c' :: p'' => if c' =? d then Like_Operation escape p'' t' else false
        end
      else if c =? UNDERSCORE then Like_Operation escape p' t'
      else if c =? PERCENT then
        (fix skip (q : list byte) : bool :=
           match q with
           | [] => true
           | c' :: q' => if c' =? PERCENT then skip q' else existsb (Like_Operation escape q) (suffixes t)
           end) p'
      else if c =? d then Like_Operation escape p' t'
      else false
    end
  end.

Definition NotLike_Operation (escape : option byte) (p t : list byte) : bool := negb (Like_Operation escape p t).

(** ** What LIKE means *)

(** [%] stands for any bytes, [_] for one byte, an escaped byte and any other
    byte for itself. *)
Inductive like_matches (escape : option byte) : list byte → list byte → Prop :=
| lm_nil : like_matches escape [] []
| lm_escape c d p t : escape = Some c → like_matches escape p t → like_matches escape (c :: d :: p) (d :: t)
| lm_one d p t : escape ≠ Some UNDERSCORE → like_matches escape p t → like_matches escape (UNDERSCORE :: p) (d :: t)
| lm_skip d p t : escape ≠ Some PERCENT → like_matches escape (PERCENT :: p) t → like_matches escape (PERCENT :: p) (d :: t)
| lm_stop p t : escape ≠ Some PERCENT → like_matches escape p t → like_matches escape (PERCENT :: p) t
| lm_byte c p t : escape ≠ Some c → c ≠ UNDERSCORE → c ≠ PERCENT → like_matches escape p t →
    like_matches escape (c :: p) (c :: t).

(** The step after a [%]: further [%] are skipped. *)
Fixpoint skip_percent (q : list byte) : list byte :=
  match q with c :: q' => if c =? PERCENT then skip_percent q' else q | [] => [] end.

Lemma Like_percent escape p d t :
  escape ≠ Some PERCENT →
  Like_Operation escape (PERCENT :: p) (d :: t) =
  match skip_percent p with [] => true | q => existsb (Like_Operation escape q) (suffixes (d :: t)) end.
Proof.
  intros He. cbn [Like_Operation]. rewrite bool_decide_eq_false_2 by done.
  change (PERCENT =? UNDERSCORE) with false. rewrite Z.eqb_refl.
  generalize (d :: t). intros t0. induction p as [|c p IH]; [done|]. cbn [skip_percent].
  destruct (c =? PERCENT) eqn:E; [exact IH|]. done.
Qed.

Lemma suffixes_elem t u : u ∈ suffixes t ↔ u ≠ [] ∧ u `suffix_of` t.
Proof.
  induction t as [|d t IH]; simpl.
  - rewrite elem_of_nil. split; [done|]. intros [Hu ->%suffix_nil_inv]. done.
  - rewrite elem_of_cons, IH. split.
    + intros [->|[? ?]]; [done|]. split; [done|]. by apply suffix_cons_r.
    + intros [Hu Hs]. destruct u as [|x u]; [done|]. apply suffix_cons_inv in Hs as [->|?]; auto.
Qed.

Lemma like_matches_drop escape p t u :
  escape ≠ Some PERCENT → u `suffix_of` t → like_matches escape (PERCENT :: p) u → like_matches escape (PERCENT :: p) t.
Proof. intros He [k ->] Hm. induction k as [|d k IH]; [done|]. by apply lm_skip. Qed.

Lemma like_matches_percents escape p t :
  escape ≠ Some PERCENT → like_matches escape (PERCENT :: skip_percent p) t → like_matches escape (PERCENT :: p) t.
Proof.
  intros He. induction p as [|c p IH]; [done|]. cbn [skip_percent]. destruct (c =? PERCENT) eqn:E; [|done].
  apply Z.eqb_eq in E as ->. intros Hm. apply lm_stop; [done|]. by apply IH.
Qed.

Section meaning.
Context (escape : option byte) (He : escape ≠ Some PERCENT).

Lemma matches_nothing p : like_matches escape p [] → Forall (fun c => c = PERCENT) p.
Proof.
  intros Hm. remember [] as t eqn:Ht. induction Hm; simplify_eq; [constructor|].
  constructor; [done|]. by apply IHHm.
Qed.

Lemma matches_percent p t : like_matches escape (PERCENT :: p) t → ∃ u, u `suffix_of` t ∧ like_matches escape p u.
Proof using He.
  intros Hm. remember (PERCENT :: p) as q eqn:Hq. revert p Hq. induction Hm; intros p0 Hq; simplify_eq; try done.
  - destruct (IHHm _ eq_refl) as (u & Hu & ?). exists u. split; [by apply suffix_cons_r|done].
  - exists t. by split.
Qed.

Lemma matches_skip p t : like_matches escape (PERCENT :: p) t → ∃ u, u `suffix_of` t ∧ like_matches escape (skip_percent p) u.
Proof using He.
  revert t. induction p as [|c p IH]; intros t Hm; [by apply matches_percent|]. cbn [skip_percent].
  destruct (c =? PERCENT) eqn:E; [|by apply matches_percent]. apply Z.eqb_eq in E as ->.
  destruct (matches_percent _ _ Hm) as (u & Hu & Hm'). destruct (IH u Hm') as (w & Hw & ?).
  exists w. split; [by trans u|done].
Qed.

Lemma skip_percent_head p c q : skip_percent p = c :: q → c ≠ PERCENT.
Proof.
  induction p as [|c' p IH]; [done|]. cbn [skip_percent]. destruct (Z.eqb_spec c' PERCENT); [done|]. congruence.
Qed.

Lemma skip_percent_length p : (length (skip_percent p) ≤ length p)%nat.
Proof. induction p as [|c p IH]; [done|]. cbn [skip_percent length]. destruct (c =? PERCENT); simpl; lia. Qed.

Lemma Like_sound p t : Like_Operation escape p t = true → like_matches escape p t.
Proof using He.
  remember (length p) as n eqn:Hn. revert p t Hn. induction (lt_wf n) as [n _ IH]. intros p t ->.
  destruct p as [|c p]; [by destruct t; [constructor|]|]. destruct t as [|d t].
  { simpl. rewrite andb_true_iff, Z.eqb_eq. intros [-> Hp]. destruct p; [|done]. apply lm_stop; [done|constructor]. }
  destruct (decide (c = PERCENT)) as [->|Hc].
  { rewrite Like_percent by done. intros Hp. apply like_matches_percents; [done|].
    pose proof (skip_percent_length p) as Hl. destruct (skip_percent p) as [|c q].
    - apply like_matches_drop with []; [done|apply suffix_nil|]. apply lm_stop; [done|constructor].
    - apply existsb_exists in Hp as (u & [_ Hu]%list_elem_of_In%suffixes_elem & Hm).
      apply like_matches_drop with u; [done|done|]. apply lm_stop; [done|]. eapply IH; [|done|exact Hm].
      simpl in Hl |- *. lia. }
  cbn [Like_Operation]. rewrite (proj2 (Z.eqb_neq c PERCENT)) by done. case_bool_decide as Hesc.
  - destruct p as [|c' p]; [done|]. destruct (Z.eqb_spec c' d) as [->|]; [|done]. intros Hm.
    apply lm_escape; [done|]. eapply IH; [|done|exact Hm]. simpl. lia.
  - destruct (Z.eqb_spec c UNDERSCORE) as [->|]; [|destruct (Z.eqb_spec c d) as [->|]; [|done]]; intros Hm.
    + apply lm_one; [done|]. eapply IH; [|done|exact Hm]. simpl. lia.
    + apply lm_byte; [done..|]. eapply IH; [|done|exact Hm]. simpl. lia.
Qed.

(** The pattern does not end in two [%]. *)
Definition single_tail (p : list byte) : Prop := ¬ [PERCENT; PERCENT] `suffix_of` p.

Lemma single_tail_suffix p q : q `suffix_of` p → single_tail p → single_tail q.
Proof. intros Hq Hp Hs. apply Hp. by trans q. Qed.

Lemma single_tail_percents p c : single_tail (c :: p) → Forall (fun c => c = PERCENT) (c :: p) → p = [].
Proof.
  intros Hs Ha. destruct (exists_last_or_nil p) as [->|(q & x & ->)]; [done|]. exfalso. apply Hs.
  rewrite Forall_forall in Ha.
  assert (x = PERCENT) as -> by (apply Ha; rewrite elem_of_cons, elem_of_app, list_elem_of_singleton; auto).
  assert (∃ k, c :: q = k ++ [PERCENT]) as [k Hk].
  { destruct (exists_last_or_nil q) as [->|(q' & y & ->)].
    - exists []. rewrite (Ha c) by (by left). done.
    - exists (c :: q'). rewrite (Ha y); [done|]. rewrite elem_of_cons, !elem_of_app, list_elem_of_singleton. auto. }
  exists k. by rewrite app_comm_cons, Hk, <- app_assoc.
Qed.

Lemma Like_complete p t : single_tail p → like_matches escape p t → Like_Operation escape p t = true.
Proof using He.
  remember (length p) as n eqn:Hn. revert p t Hn. induction (lt_wf n) as [n _ IH]. intros p t -> Hs Hm.
  destruct p as [|c p]; [by inversion Hm|]. destruct t as [|d t].
  { pose proof (matches_nothing _ Hm) as Ha. rewrite (single_tail_percents _ _ Hs Ha).
    apply Forall_cons in Ha as [-> _]. done. }
  assert (∀ q u, q `suffix_of` p → like_matches escape q u → Like_Operation escape q u = true) as Hrec.
  { intros q u Hq Hu. eapply IH; [|done| |done]; [destruct Hq as [? ->]; rewrite length_cons, length_app; lia|].
    eapply single_tail_suffix; [|done]. by apply suffix_cons_r. }
  destruct (decide (c = PERCENT)) as [->|Hc].
  { rewrite Like_percent by done. destruct (matches_skip _ _ Hm) as (u & Hu & Hm').
    assert (skip_percent p `suffix_of` p) as Hsuf.
    { clear. induction p as [|c p IH]; [done|]. cbn [skip_percent]. destruct (c =? PERCENT); [|done]. by apply suffix_cons_r. }
    destruct (skip_percent p) as [|c q] eqn:Hq; [done|]. apply existsb_exists. exists u.
    split; [|by apply Hrec]. apply list_elem_of_In, suffixes_elem. split; [|done]. intros ->.
    apply matches_nothing, Forall_cons in Hm' as [-> _]. by apply (skip_percent_head p PERCENT q). }
  cbn [Like_Operation]. rewrite (proj2 (Z.eqb_neq c PERCENT)) by done.
  inversion Hm as [|c' d' p' t' Hesc Hm'|d' p' t' Hesc Hm'| | |c' p' t' Hesc Hnu Hnp Hm']; simplify_eq; try done.
  - rewrite bool_decide_eq_true_2 by done. rewrite Z.eqb_refl. apply Hrec; [by apply suffix_cons_r|done].
  - rewrite bool_decide_eq_false_2 by done. rewrite Z.eqb_refl. by apply Hrec.
  - rewrite bool_decide_eq_false_2 by done. rewrite (proj2 (Z.eqb_neq _ UNDERSCORE)) by done.
    rewrite Z.eqb_refl. by apply Hrec.
Qed.
End meaning.

(** C40. LIKE: the matcher accepts only texts that the pattern describes, and
    all of them unless the pattern ends in two [%]. *)
Theorem like_meaning escape p t :
  escape ≠ Some PERCENT →
  (Like_Operation escape p t = true → like_matches escape p t) ∧
  (single_tail p → like_matches escape p t → Like_Operation escape p t = true).
Proof. intros He. split; [by apply Like_sound|by apply Like_complete]. Qed.

Lemma like_meaning_witness :
  Like_Operation None (string_bytes "%b_%d") (string_bytes "aabcdd") = true ∧
  like_matches None (string_bytes "%b_%d") (string_bytes "aabcdd").
Proof.
  assert (Like_Operation None (string_bytes "%b_%d") (string_bytes "aabcdd") = true) as Hb by (vm_compute; reflexivity).
  split; [exact Hb|]. apply (like_meaning None (string_bytes "%b_%d") (string_bytes "aabcdd")); [done|exact Hb].
Defined.

(** ['a' LIKE 'a%%'] and ['' LIKE '%%'] are false: only one trailing [%] is
    recognised at the end of the text. *)
Lemma double_percent_refused :
  Like_Operation None (string_bytes "a%%") (string_bytes "a") = false ∧
  like_matches None (string_bytes "a%%") (string_bytes "a") ∧
  Like_Operation None (string_bytes "a%%") (string_bytes "ab") = true.
Proof.
  split; [vm_compute; reflexivity|]. split; [|vm_compute; reflexivity].
  apply lm_byte; [done..|]. apply lm_stop; [done|]. apply lm_stop; [done|]. constructor.
Qed.

(** ** LIKE over vectors *)

Definition like_cell (negate : bool) (x y : cell) : result cell :=
  match x, y with
  | Str (Some s), Str (Some p) =>
    Ok (bool_cell (xorb negate (Like_Operation None (string_bytes p) (string_bytes s))))
  | _, _ => Undef
  end.

(** [templated_like] *)
Definition Vector_Like (negate : bool) (left right result_ : Vector) : result Vector :=
  if negb (bool_decide (v_type left = T_VARCHAR)) then Throw InvalidTypeException
  else if negb (bool_decide (v_type right = T_VARCHAR)) then Throw InvalidTypeException
  else if negb (bool_decide (v_type result_ = T_BOOLEAN)) then Throw InvalidTypeException
  else binary_loop (like_cell negate) left right result_.
