(* ===== verification/Casts.v ===== *)
(** * Casts

    Models [src/src/common/operator/cast_operators.cpp] with
    [include/common/operator/cast_operators.hpp] (the conversion of one value
    from one C++ type to another) and
    [src/src/common/vector_operations/cast_operators.cpp] (casts of vectors).
    A conversion that the sources leave to the C++ cast keeps its rules: an
    integer conversion truncates, a floating point value outside the range of
    the integer type is undefined.  How [float] and [double] are printed and
    read ([std::to_string], [std::stod]) is left to the class [FloatText]. *)

From Stdlib Require Import ZArith Lia SpecFloat.
From stdpp Require Import base gmap list strings option numbers sorting relations.
From S2P Require Import Prelude Types Vector Serializer KeyTuples StringStream DateTime Operators VectorOps.

Local Open Scope Z_scope.

(** The decimal notation of floating point numbers, by bit pattern. *)
Class FloatText : Type := {
  float_to_string : Z → string;
  double_to_string : Z → string;
  stod : string → option Z }.

(** ** Integers *)

(** [numeric_limits<T>] of the integer types. *)
Definition machine_range (t : TypeId) : option (Z * Z) :=
  match t with
  | T_BOOLEAN => Some (0, 1)
  | T_TINYINT => Some (- 2 ^ 7, 2 ^ 7 - 1)
  | T_SMALLINT => Some (- 2 ^ 15, 2 ^ 15 - 1)
  | T_INTEGER => Some (- 2 ^ 31, 2 ^ 31 - 1)
  | T_BIGINT => Some (- 2 ^ 63, 2 ^ 63 - 1)
  | T_POINTER => Some (0, 2 ^ 64 - 1)
  | _ => None
  end.

Definition in_range (t : TypeId) (z : Z) : bool :=
  match machine_range t with Some (lo, hi) => (lo <=? z) && (z <=? hi) | None => false end.

(** The integer a cell of an integer type holds, and the cell for it. *)
Definition int_of (t : TypeId) (z : Z) : Z := match t with T_POINTER => z mod 2 ^ 64 | _ => z end.

Definition int_cell (t : TypeId) (z : Z) : cell :=
  match t with
  | T_BOOLEAN => bool_cell (negb (z =? 0))
  | T_TINYINT => Num 1 (wrap_signed 1 z)
  | T_SMALLINT => Num 2 (wrap_signed 2 z)
  | T_INTEGER => Num 4 (wrap_signed 4 z)
  | T_BIGINT => Num 8 (wrap_signed 8 z)
  | _ => Num 8 (z mod 2 ^ 64)
  end.

Definition cast_with_overflow_check (dst : TypeId) (z : Z) : result cell :=
  b ← in_type_range dst z; if b : bool then Ok (int_cell dst z) else Throw ValueOutOfRangeException.

Definition cast_to_uint64_overflow_check (z : Z) : result cell :=
  if z <? 0 then Throw ValueOutOfRangeException else Ok (int_cell T_POINTER z).

(** The limit is that of the type the check is instantiated with, the result
    is then converted to the return type. *)
Definition cast_from_uint64_overflow_check (limit dst : TypeId) (z : Z) : result cell :=
  hi ← MaximumValue limit;
  if hi <? z then Throw ValueOutOfRangeException else Ok (int_cell dst z).

(** An integer conversion. *)
Definition Cast_int (src dst : TypeId) (z : Z) : result cell :=
  match dst, src with
  | T_TINYINT, (T_SMALLINT | T_INTEGER | T_BIGINT) => cast_with_overflow_check T_TINYINT z
  | T_TINYINT, T_POINTER => cast_from_uint64_overflow_check T_TINYINT T_TINYINT z
  | T_SMALLINT, (T_INTEGER | T_BIGINT) => cast_with_overflow_check T_SMALLINT z
  | T_SMALLINT, T_POINTER => cast_from_uint64_overflow_check T_SMALLINT T_SMALLINT z
  | T_INTEGER, T_BIGINT => cast_with_overflow_check T_INTEGER z
  | T_INTEGER, T_POINTER => cast_from_uint64_overflow_check T_POINTER T_INTEGER z
  | T_BIGINT, T_POINTER => cast_from_uint64_overflow_check T_POINTER T_BIGINT z
  | T_POINTER, (T_TINYINT | T_SMALLINT | T_INTEGER | T_BIGINT) => cast_to_uint64_overflow_check z
  | _, _ => Ok (int_cell dst z)
  end.

(** ** Floating point *)

Definition float_cell (t : TypeId) (f : spec_float) : cell :=
  match t with T_FLOAT => Num 4 (bits_of_float 23 8 f) | _ => Num 8 (bits_of_float 52 11 f) end.

Definition float_of (t : TypeId) (z : Z) : spec_float :=
  match t with T_FLOAT => as_float z | _ => as_double z end.

(** [(float)z], [(double)z] and conversions between the two, rounded to
    nearest even. *)
Definition round_to (t : TypeId) (s : bool) (m : Z) (e : Z) : spec_float :=
  match t with
  | T_FLOAT => binary_normalize 24 128 (if s then - m else m) e s
  | _ => binary_normalize 53 1024 (if s then - m else m) e s
  end.

Definition float_from_int (t : TypeId) (z : Z) : spec_float := round_to t (z <? 0) (Z.abs z) 0.

Definition float_from_float (t : TypeId) (f : spec_float) : spec_float :=
  match f with S754_finite s m e => round_to t s (Zpos m) e | _ => f end.

(** Truncation towards zero. *)
Definition truncate (f : spec_float) : option Z :=
  match f with
  | S754_zero _ => Some 0
  | S754_finite s m e =>
    let v := if 0 <=? e then Zpos m * 2 ^ e else Zpos m / 2 ^ (- e) in Some (if s then - v else v)
  | S754_infinity _ | S754_nan => None
  end.

Definition truncate_cast (dst : TypeId) (f : spec_float) : result cell :=
  match truncate f with
  | Some z => if in_range dst z then Ok (int_cell dst z) else Undef
  | None => Undef
  end.

(** [value < MinimumValue<DST>() || value > MaximumValue<DST>()] in [double]. *)
Definition double_overflow_check (dst : TypeId) (f : spec_float) : result cell :=
  lo ← MinimumValue dst; hi ← MaximumValue dst;
  if SFltb f (float_from_int T_DOUBLE lo) || SFltb (float_from_int T_DOUBLE hi) f
  then Throw ValueOutOfRangeException else truncate_cast dst f.

Definition Cast_float (src dst : TypeId) (f : spec_float) : result cell :=
  match dst with
  | T_BOOLEAN => Ok (bool_cell (negb (SFeqb f (S754_zero false))))
  | T_FLOAT | T_DOUBLE => Ok (float_cell dst (float_from_float dst f))
  | _ =>
    match src, dst with
    | T_DOUBLE, T_POINTER =>
      if SFltb f (S754_zero false) then Throw ValueOutOfRangeException else truncate_cast dst f
    | T_DOUBLE, _ => double_overflow_check dst f
    | _, _ => truncate_cast dst f
    end
  end.

(** ** Strings *)

Definition read_sign (cs : list byte) : bool * list byte :=
  match cs with
  | c :: cs' => if c =? 45 then (true, cs') else if c =? 43 then (false, cs') else (false, cs)
  | [] => (false, [])
  end.

(** [stoll(s, NULL, 10)]: anything may follow the digits. *)
Definition stoll (cs : list byte) : option Z :=
  let '(neg, cs) := read_sign (skip_space cs) in
  match span_digits cs with
  | ([], _) => None
  | (ds, _) =>
    let v := if neg then - digits_value ds else digits_value ds in
    if in_range T_BIGINT v then Some v else None
  end.

(** [stoull(s, NULL, 10)]: a negative number is negated modulo 2^64. *)
Definition stoull (cs : list byte) : option Z :=
  let '(neg, cs) := read_sign (skip_space cs) in
  match span_digits cs with
  | ([], _) => None
  | (ds, _) =>
    if digits_value ds <? 2 ^ 64
    then Some ((if neg then - digits_value ds else digits_value ds) mod 2 ^ 64) else None
  end.

(** [to_string(z)] *)
Definition to_string (z : Z) : list byte :=
  (if z <? 0 then [45] else []) ++ ((Z.add 48) <$> dec_digits 20 (Z.abs z)).

Definition text (bs : list byte) : cell := Str (Some (bytes_string bs)).

Section casts.
Context `{!FloatText}.

Definition Cast_from_string (dst : TypeId) (s : string) : result cell :=
  let cs := string_bytes s in
  let integer (t : TypeId) : result cell :=
    match stoll cs with
    | Some z => if in_range t z then Ok (int_cell t z) else Throw ValueOutOfRangeException
    | None => Throw ConversionException
    end in
  match dst with
  | T_BOOLEAN =>
    match cs with
    | c :: _ =>
      if (c =? 116) || (c =? 84) then Ok (bool_cell true)
      else if (c =? 102) || (c =? 70) then Ok (bool_cell false)
      else Throw ConversionException
    | [] => Throw ConversionException
    end
  | T_TINYINT | T_SMALLINT | T_INTEGER | T_BIGINT => integer dst
  | T_POINTER => match stoull cs with Some z => Ok (int_cell T_POINTER z) | None => Throw ConversionException end
  | T_FLOAT =>
    match stod s with
    | Some z => Ok (float_cell T_FLOAT (float_from_float T_FLOAT (as_double z)))
    | None => Throw ConversionException
    end
  | T_DOUBLE => match stod s with Some z => Ok (Num 8 z) | None => Throw ConversionException end
  | _ => Ok (Str (Some s))
  end.

Definition Cast_to_string (src : TypeId) (z : Z) : cell :=
  match src with
  | T_BOOLEAN => if z =? 0 then Str (Some "false"%string) else Str (Some "true"%string)
  | T_FLOAT => Str (Some (float_to_string z))
  | T_DOUBLE => Str (Some (double_to_string z))
  | _ => text (to_string (int_of src z))
  end.

(** [Cast::Operation<SRC, DST>] *)
Definition Cast_Operation (src dst : TypeId) (c : cell) : result cell :=
  match c with
  | Str (Some s) => Cast_from_string dst s
  | Str None => Undef
  | Num _ z =>
    match dst, src with
    | T_VARCHAR, _ => Ok (Cast_to_string src z)
    | (T_FLOAT | T_DOUBLE), (T_FLOAT | T_DOUBLE) => Cast_float src dst (float_of src z)
    | (T_FLOAT | T_DOUBLE), _ => Ok (float_cell dst (float_from_int dst (int_of src z)))
    | _, (T_FLOAT | T_DOUBLE) => Cast_float src dst (float_of src z)
    | _, _ => Cast_int src dst (int_of src z)
    end
  end.

(** [CastToDate], [CastFromDate], [CastToTimestamp], [CastFromTimestamp]: the
    C++ types they are specialised for, [NotImplementedException] otherwise. *)
Definition CastToDate (src : TypeId) (c : cell) : result cell :=
  match src, c with
  | T_VARCHAR, Str (Some s) => z ← Date_FromString (string_bytes s); Ok (Num 4 z)
  | (T_INTEGER | T_BIGINT), Num _ z => Ok (int_cell T_INTEGER z)
  | _, _ => Throw NotImplementedException
  end.

Definition CastToTimestamp (src : TypeId) (c : cell) : result cell :=
  match src, c with
  | T_VARCHAR, Str (Some s) => z ← Timestamp_FromString (string_bytes s); Ok (Num 8 z)
  | T_BIGINT, Num _ z => Ok (Num 8 z)
  | _, _ => Throw NotImplementedException
  end.

Definition CastFromDate (dst : TypeId) (c : cell) : result cell :=
  match dst, c with
  | T_VARCHAR, Num _ z => s ← Date_ToString z; Ok (text s)
  | (T_INTEGER | T_BIGINT), Num _ z => Ok (int_cell dst z)
  | _, _ => Throw NotImplementedException
  end.

Definition CastFromTimestamp (dst : TypeId) (c : cell) : result cell :=
  match dst, c with
  | T_VARCHAR, Num _ z => s ← Timestamp_ToString z; Ok (text s)
  | T_BIGINT, Num _ z => Ok (Num 8 z)
  | _, _ => Throw NotImplementedException
  end.

(** The operator that [Cast] picks for a source type, at the C++ types of
    source and target. *)
Definition source_cast (source : SQLTypeId) : option (TypeId * (TypeId → cell → result cell)) :=
  match source with
  | SQL_BOOLEAN => Some (T_BOOLEAN, Cast_Operation T_BOOLEAN)
  | SQL_TINYINT => Some (T_TINYINT, Cast_Operation T_TINYINT)
  | SQL_SMALLINT => Some (T_SMALLINT, Cast_Operation T_SMALLINT)
  | SQL_INTEGER => Some (T_INTEGER, Cast_Operation T_INTEGER)
  | SQL_BIGINT => Some (T_BIGINT, Cast_Operation T_BIGINT)
  | SQL_FLOAT => Some (T_FLOAT, Cast_Operation T_FLOAT)
  | SQL_DECIMAL | SQL_DOUBLE => Some (T_DOUBLE, Cast_Operation T_DOUBLE)
  | SQL_POINTER => Some (T_POINTER, Cast_Operation T_POINTER)
  | SQL_DATE => Some (T_INTEGER, CastFromDate)
  | SQL_TIMESTAMP => Some (T_BIGINT, CastFromTimestamp)
  | SQL_VARCHAR => Some (T_VARCHAR, Cast_Operation T_VARCHAR)
  | _ => None
  end.

(** [result_cast_switch]: the type of the result vector and the conversion of
    a value; casts to DATE and TIMESTAMP ignore the operator of the source. *)
Definition result_cast_switch (src : TypeId) (OP : TypeId → cell → result cell) (target : SQLTypeId)
    : option (TypeId * (cell → result cell)) :=
  match target with
  | SQL_BOOLEAN => Some (T_BOOLEAN, OP T_BOOLEAN)
  | SQL_TINYINT => Some (T_TINYINT, OP T_TINYINT)
  | SQL_SMALLINT => Some (T_SMALLINT, OP T_SMALLINT)
  | SQL_INTEGER => Some (T_INTEGER, OP T_INTEGER)
  | SQL_BIGINT => Some (T_BIGINT, OP T_BIGINT)
  | SQL_FLOAT => Some (T_FLOAT, OP T_FLOAT)
  | SQL_DECIMAL | SQL_DOUBLE => Some (T_DOUBLE, OP T_DOUBLE)
  | SQL_POINTER => Some (T_POINTER, OP T_POINTER)
  | SQL_DATE => Some (T_INTEGER, CastToDate src)
  | SQL_TIMESTAMP => Some (T_BIGINT, CastToTimestamp src)
  | SQL_VARCHAR => Some (T_VARCHAR, OP T_VARCHAR)
  | _ => None
  end.

(** [VectorOperations::Cast]: a NULL stays NULL, the other rows are converted;
    from SQLNULL nothing is converted. *)
Definition Vector_Cast (source result_ : Vector) (source_type target_type : SQLType) : result Vector :=
  if decide (source_type = target_type) then Throw NotImplementedException
  else
    let finish (data : gmap nat cell) := mkVector (v_type result_) (v_count source) data (v_sel source) (v_null source) in
    if decide (sql_id source_type = SQL_SQLNULL) then Ok (finish (v_data result_))
    else
      match source_cast (sql_id source_type) with
      | None => Throw NotImplementedException
      | Some (src, OP) =>
        _ ← assert_ (bool_decide (v_type source = src));
        match result_cast_switch src OP (sql_id target_type) with
        | None => Throw NotImplementedException
        | Some (dst, convert) =>
          _ ← assert_ (bool_decide (v_type result_ = dst));
          data ← write_rows (fun i => if bool_decide (i ∈ v_null source) then Ok None
                                      else x ← deref (v_data source !! i); z ← convert x; Ok (Some z))
                   (exec_indexes (v_sel source) (v_count source) 0) (v_data result_);
          Ok (finish data)
        end
      end.
End casts.

(** ** Facts *)

(** The integer types and the values their cells hold. *)
Definition integer_ty (t : TypeId) : bool :=
  match t with T_TINYINT | T_SMALLINT | T_INTEGER | T_BIGINT | T_POINTER => true | _ => false end.

(** Computes the width in the range of a signed type. *)
Ltac eval_width :=
  repeat match goal with |- context [8 * Z.of_nat ?n - 1] =>
    let k := eval vm_compute in (8 * Z.of_nat n - 1) in change (8 * Z.of_nat n - 1) with k end.

Lemma int_cell_value t z : integer_ty t = true → in_range t z = true →
  ∃ n, GetTypeIdSize t = Ok n ∧ int_cell t z = Num n z.
Proof.
  intros Ht Hz. destruct t; try done; cbv [in_range machine_range] in Hz; eexists; (split; [reflexivity|]);
    unfold int_cell; [rewrite wrap_signed_id..|rewrite Z.mod_small]; try done; unfold in_signed; eval_width; lia.
Qed.

(** The widening and the checked casts. *)
Definition checked_cast (src dst : TypeId) : bool :=
  integer_ty src && integer_ty dst && negb (bool_decide (src = T_POINTER ∧ dst = T_INTEGER)).

Lemma Cast_int_exact src dst z c :
  checked_cast src dst = true → in_range src z = true → Cast_int src dst z = Ok c →
  ∃ n, GetTypeIdSize dst = Ok n ∧ c = Num n z.
Proof.
  intros Hck Hz Hc.
  assert (integer_ty src = true ∧ integer_ty dst = true) as [Hs Hd] by (destruct src, dst; done).
  assert (in_range dst z = true ∧ c = int_cell dst z) as [Hr ->]; [|by apply int_cell_value].
  destruct src, dst; try discriminate; cbv [in_range machine_range] in Hz |- *; cbn [Cast_int] in Hc;
    unfold cast_with_overflow_check, cast_from_uint64_overflow_check, cast_to_uint64_overflow_check, in_type_range in Hc;
    cbn [MinimumValue MaximumValue mbind result_bind mret result_ret] in Hc;
    repeat match type of Hc with context [if ?b then _ else _] => destruct b eqn:? end; try discriminate;
    injection Hc as <-; split; (lia || reflexivity).
Qed.

(** Outside the range of the target a checked cast throws: the value is never
    changed silently. *)
Lemma Cast_int_throws src dst z :
  checked_cast src dst = true → in_range src z = true →
  (∃ c, Cast_int src dst z = Ok c) ∨ Cast_int src dst z = Throw ValueOutOfRangeException.
Proof.
  intros Hck Hz. destruct src, dst; try discriminate; cbn [Cast_int];
    unfold cast_with_overflow_check, cast_from_uint64_overflow_check, cast_to_uint64_overflow_check, in_type_range;
    cbn [MinimumValue MaximumValue mbind result_bind mret result_ret];
    try (repeat match goal with |- context [if ?b then _ else _] => destruct b end; eauto; fail); eauto.
Qed.

Lemma to_string_digits z :
  in_range T_BIGINT z = true →
  Forall digit (dec_digits 20 (Z.abs z)) ∧ digits_value (dec_digits 20 (Z.abs z)) = Z.abs z ∧ dec_digits 20 (Z.abs z) ≠ [].
Proof. intros Hz. cbv [in_range machine_range] in Hz. apply dec_digits_spec; lia. Qed.

(** [stoll] reads back what [to_string] printed. *)
Lemma stoll_to_string z : in_range T_BIGINT z = true → stoll (to_string z) = Some z.
Proof.
  intros Hz. destruct (to_string_digits z Hz) as (Hds & Hv & Hne). unfold to_string, stoll.
  set (ds := dec_digits 20 (Z.abs z)) in *.
  assert (span_digits ((Z.add 48) <$> ds) = (ds, [])) as Hspan.
  { rewrite <- (app_nil_r (Z.add 48 <$> ds)). by apply span_digits_app. }
  destruct (Z.ltb_spec z 0) as [Hneg|Hpos].
  - cbn [app]. change (skip_space (45 :: (Z.add 48 <$> ds))) with (45 :: (Z.add 48 <$> ds)).
    change (read_sign (45 :: (Z.add 48 <$> ds))) with (true, Z.add 48 <$> ds). cbn beta iota. rewrite Hspan.
    destruct ds as [|d ds']; [done|]. rewrite Hv. replace (- Z.abs z) with z by lia. by rewrite Hz.
  - destruct ds as [|d ds']; [done|]. inversion Hds as [|? ? Hd _]; subst. cbn [app fmap list_fmap] in *.
    rewrite skip_space_digit by done. unfold digit in Hd. unfold read_sign.
    destruct (Z.eqb_spec (48 + d) 45); [lia|]. destruct (Z.eqb_spec (48 + d) 43); [lia|].
    rewrite Hspan, Hv. replace (Z.abs z) with z by lia. by rewrite Hz.
Qed.

Lemma to_string_bytes z : in_range T_BIGINT z = true → string_bytes (bytes_string (to_string z)) = to_string z.
Proof.
  intros Hz. destruct (to_string_digits z Hz) as (Hds & _ & _).
  assert (Forall (fun b => 0 ≤ b < 256) (to_string z)) as Hb.
  { unfold to_string. apply Forall_app. split; [destruct (z <? 0); repeat constructor; lia|].
    apply Forall_fmap. eapply Forall_impl; [exact Hds|]. unfold digit. simpl. lia. }
  unfold string_bytes, bytes_string. generalize (to_string z) Hb. clear. intros bs Hb.
  induction Hb as [|b bs Hb _ IH]; [done|]. simpl. f_equal; [|exact IH].
  unfold byte_of_ascii, ascii_of_byte. rewrite Ascii.N_ascii_embedding by lia. lia.
Qed.

(** A row of a cast. *)
Lemma Vector_Cast_spec `{!FloatText} source result_ st tt src OP dst convert :
  operand_ok source → st ≠ tt → sql_id st ≠ SQL_SQLNULL →
  source_cast (sql_id st) = Some (src, OP) → result_cast_switch src OP (sql_id tt) = Some (dst, convert) →
  v_type source = src → v_type result_ = dst →
  (∀ k x, (k < v_count source)%nat → row_value source k = Some x → ∃ z, convert x = Ok z) →
  ∃ v, Vector_Cast source result_ st tt = Ok v ∧ v_type v = dst ∧ v_count v = v_count source ∧ v_sel v = v_sel source ∧
    ∀ k, (k < v_count source)%nat →
      match row_value source k with
      | Some x => ∃ z, convert x = Ok z ∧ row_is v k (Some z)
      | None => row_is v k None
      end.
Proof.
  intros Hok Hne Hnull Hsrc Hdst Hts Htr Hconv. unfold Vector_Cast.
  rewrite !decide_False by done. rewrite Hsrc, Hts, bool_decide_eq_true_2 by done. run.
  rewrite Hdst, Htr, bool_decide_eq_true_2 by done. run.
  assert (∀ k, (k < v_count source)%nat → sel_at (v_sel source) k ∉ v_null source →
    ∃ x z, v_data source !! sel_at (v_sel source) k = Some x ∧ row_value source k = Some x ∧ convert x = Ok z) as Hval.
  { intros k Hk Hn. rewrite <- cell_index_row in * by done.
    destruct (operand_present source k Hok) as (x & Hx & Hr & _); [by left|done|].
    destruct (Hconv k x Hk Hr) as [z Hz]. eauto. }
  match goal with |- context [write_rows ?f ?ix ?d] => destruct (write_rows_spec f ix d) as (d' & -> & Hrow) end.
  { intros i (k & Hk & ->)%exec_index_elem. case_bool_decide as Hn; [eauto|].
    destruct (Hval k Hk Hn) as (x & z & -> & _ & Hz). run. rewrite Hz. run. eauto. }
  run. eexists. split_and!; [done..|]. intros k Hk.
  destruct (decide (sel_at (v_sel source) k ∈ v_null source)) as [Hn|Hn].
  { rewrite row_value_null by (by rewrite cell_index_row). by apply row_is_vector. }
  destruct (Hval k Hk Hn) as (x & z & Hx & -> & Hz). exists z. split; [done|]. apply row_is_vector; [done|].
  split; [done|]. apply Hrow; [apply exec_index_elem; eauto|].
  rewrite bool_decide_eq_false_2 by done. rewrite Hx. run. rewrite Hz. run. done.
Qed.

(** C29. A cast between integer types never changes a value silently: it
    returns the same number in the new width, or throws
    [ValueOutOfRangeException]; the one exception is the cast from POINTER to
    INTEGER. *)
Theorem integer_cast_exact src dst z :
  checked_cast src dst = true → in_range src z = true →
  (∃ n, GetTypeIdSize dst = Ok n ∧ Cast_int src dst z = Ok (Num n z)) ∨
  Cast_int src dst z = Throw ValueOutOfRangeException.
Proof.
  intros Hck Hz. destruct (Cast_int_throws src dst z Hck Hz) as [[c Hc]|Ht]; [left|by right].
  destruct (Cast_int_exact src dst z c Hck Hz Hc) as (n & Hn & ->). eauto.
Qed.

Lemma integer_cast_exact_witness :
  (∃ n, GetTypeIdSize T_TINYINT = Ok n ∧ Cast_int T_BIGINT T_TINYINT 100 = Ok (Num n 100)) ∨
  Cast_int T_BIGINT T_TINYINT 100 = Throw ValueOutOfRangeException.
Proof. apply (integer_cast_exact T_BIGINT T_TINYINT 100); reflexivity. Defined.

(** C30. An integer cast to VARCHAR and back is the integer. *)
Theorem integer_text_roundtrip `{!FloatText} t n z :
  signed_width t = Some n → in_signed n z = true →
  ∃ s, Cast_Operation t T_VARCHAR (Num n z) = Ok (Str (Some s)) ∧
    Cast_Operation T_VARCHAR t (Str (Some s)) = Ok (Num n z).
Proof.
  intros Ht Hz.
  assert (in_range t z = true ∧ int_of t z = z ∧ in_range T_BIGINT z = true ∧ int_cell t z = Num n z)
    as (Hr & Hi & Hb & Hcell).
  { unfold in_signed in Hz. destruct t; try discriminate; injection Ht as <-; simpl Z.of_nat in Hz;
      repeat match type of Hz with context [8 * ?k - 1] => let v := eval vm_compute in (8 * k - 1) in change (8 * k - 1) with v in Hz end;
      cbv [in_range machine_range int_of]; split_and!; try lia; unfold int_cell; rewrite wrap_signed_id; try done;
      unfold in_signed; eval_width; lia. }
  exists (bytes_string (to_string z)). split.
  - destruct t; try discriminate; cbn [Cast_Operation Cast_to_string]; by rewrite Hi.
  - cbn [Cast_Operation]. unfold Cast_from_string. rewrite to_string_bytes by done. rewrite stoll_to_string by done.
    destruct t; try discriminate; by rewrite Hr, Hcell.
Qed.

(** A notation of numbers for the examples. *)
#[local] Instance no_text : FloatText :=
  {| float_to_string := fun _ => EmptyString; double_to_string := fun _ => EmptyString; stod := fun _ => None |}.

Lemma integer_text_roundtrip_witness :
  ∃ s, Cast_Operation T_INTEGER T_VARCHAR (Num 4 (-42)) = Ok (Str (Some s)) ∧
    Cast_Operation T_VARCHAR T_INTEGER (Str (Some s)) = Ok (Num 4 (-42)).
Proof. apply (integer_text_roundtrip T_INTEGER 4 (-42)); reflexivity. Defined.

Module CastSurprises.
(** The checks of the casts from [uint64_t] to [int32_t] are instantiated with
    [uint64_t]: large values are truncated. *)
Lemma pointer_to_integer_truncates : Cast_int T_POINTER T_INTEGER (2 ^ 32 + 5) = Ok (Num 4 5).
Proof. vm_compute. reflexivity. Qed.

(** A string can name the smallest integer, which a numeric cast refuses: it
    is the NULL of the storage. *)
Lemma text_makes_sentinel :
  Cast_Operation T_VARCHAR T_TINYINT (Str (Some "-128"%string)) = Ok (Num 1 (-128)) ∧
  Cast_Operation T_INTEGER T_TINYINT (Num 4 (-128)) = Throw ValueOutOfRangeException ∧
  NullValue T_TINYINT = Ok (Num 1 (-128)).
Proof. by vm_compute. Qed.

(** A timestamp cast to a date is its time of day, read as a day number. *)
Lemma timestamp_to_date_is_time : ∀ date time,
  fits32 date = true → 0 ≤ time < 2 ^ 31 →
  CastToDate T_BIGINT (Num 8 (Timestamp_pack date time)) = Ok (Num 4 time).
Proof.
  intros date time Hd Ht. simpl. do 2 f_equal. unfold wrap_signed, Timestamp_pack.
  assert (Z.lor (Z.shiftl date 32) time mod 2 ^ (8 * Z.of_nat 4) = time) as ->.
  { change (8 * Z.of_nat 4) with 32. rewrite <- Z.land_ones by lia. apply Z.bits_inj'. intros n Hn.
    rewrite Z.land_spec, Z.lor_spec, Z.shiftl_spec by lia. rewrite Z.testbit_ones by lia.
    destruct (Z.ltb_spec n 32).
    - rewrite Z.testbit_neg_r by lia. by rewrite (proj2 (Z.leb_le 0 n)), andb_true_r by lia.
    - rewrite andb_false_r, andb_false_r. symmetry. apply Z.bits_above_log2; [lia|].
      destruct (Z.eq_dec time 0) as [->|]; [simpl; lia|]. apply Z.log2_lt_pow2; [lia|].
      assert (2 ^ 31 ≤ 2 ^ n) by (apply Z.pow_le_mono_r; lia). lia. }
  unfold to_signed. change (8 * Z.of_nat 4 - 1) with 31. destruct (Z.ltb_spec time (2 ^ 31)); lia.
Qed.

(** The range check of a cast from [double] compares with 2^63, which passes. *)
Lemma double_to_bigint_undefined : Cast_Operation T_DOUBLE T_BIGINT (Num 8 4890909195324358656) = Undef.
Proof. vm_compute. reflexivity. Qed.
End CastSurprises.
