(* ===== verification/Value.v ===== *)
(** * Values

    Models [src/src/common/types/value.cpp] with
    [src/src/common/value_operations/comparison_operations.cpp] and
    [numeric_operations.cpp]: single values of any type, as the optimizer, the
    aggregates and the statistics use them. *)

From Stdlib Require Import ZArith Lia SpecFloat.
From stdpp Require Import base gmap list strings option numbers sorting relations.
From S2P Require Import Prelude Types Vector Serializer ChunkSerializer KeyTuples StringStream DateTime Operators VectorOps Casts.

Local Open Scope Z_scope.

(** A value: its type, and its element unless it is NULL. *)
Record Value : Type := mkValue { val_type : TypeId; val_data : option cell }.

#[export] Instance Value_eq_dec : EqDecision Value.
Proof. solve_decision. Defined.

Definition is_null (v : Value) : bool := match val_data v with None => true | Some _ => false end.

(** [Value(TypeId)] *)
Definition null_of (t : TypeId) : Value := mkValue t None.

(** [Value()] *)
Definition default_value : Value := null_of T_INTEGER.

Definition some_value (t : TypeId) (c : cell) : Value := mkValue t (Some c).

(** [Value::MinimumValue] and [Value::MaximumValue] are [numeric_limits]; for
    [float] and [double] the minimum is the smallest positive number. *)
Definition Value_MinimumValue (t : TypeId) : result Value :=
  match t with
  | T_TINYINT => Ok (some_value t (Num 1 (- 2 ^ 7)))
  | T_SMALLINT => Ok (some_value t (Num 2 (- 2 ^ 15)))
  | T_INTEGER => Ok (some_value t (Num 4 (- 2 ^ 31)))
  | T_BIGINT => Ok (some_value t (Num 8 (- 2 ^ 63)))
  | T_FLOAT => Ok (some_value t (Num 4 8388608))
  | T_DOUBLE => Ok (some_value t (Num 8 4503599627370496))
  | T_POINTER => Ok (some_value t (Num 8 0))
  | _ => Throw InvalidTypeException
  end.

Definition Value_MaximumValue (t : TypeId) : result Value :=
  match t with
  | T_TINYINT => Ok (some_value t (Num 1 (2 ^ 7 - 1)))
  | T_SMALLINT => Ok (some_value t (Num 2 (2 ^ 15 - 1)))
  | T_INTEGER => Ok (some_value t (Num 4 (2 ^ 31 - 1)))
  | T_BIGINT => Ok (some_value t (Num 8 (2 ^ 63 - 1)))
  | T_FLOAT => Ok (some_value t (Num 4 2139095039))
  | T_DOUBLE => Ok (some_value t (Num 8 9218868437227405311))
  | T_POINTER => Ok (some_value t (Num 8 (2 ^ 64 - 1)))
  | _ => Throw InvalidTypeException
  end.

Definition Value_BOOLEAN (b : bool) : Value := some_value T_BOOLEAN (bool_cell b).

(** [Value::Numeric(type, value)] *)
Definition Value_Numeric (t : TypeId) (z : Z) : result Value :=
  _ ← (if TypeIsIntegral t then b ← in_type_range t z; assert_ b else Ok tt);
  match t with
  | T_TINYINT | T_SMALLINT | T_INTEGER | T_BIGINT | T_POINTER => Ok (some_value t (int_cell t z))
  | T_FLOAT | T_DOUBLE => Ok (some_value t (float_cell t (float_from_int t z)))
  | _ => Throw InvalidTypeException
  end.

(** [GetNumericValue]; a floating point value outside [int64_t] is undefined. *)
Definition GetNumericValue (v : Value) : result Z :=
  match val_data v with
  | None => Throw ConversionException
  | Some c =>
    match val_type v, c with
    | (T_TINYINT | T_SMALLINT | T_INTEGER | T_BIGINT), Num _ z => Ok z
    | T_POINTER, Num _ z => Ok (wrap_signed 8 z)
    | (T_FLOAT | T_DOUBLE), Num _ z =>
      match truncate (float_of (val_type v) z) with
      | Some n => if in_range T_BIGINT n then Ok n else Undef
      | None => Undef
      end
    | (T_TINYINT | T_SMALLINT | T_INTEGER | T_BIGINT | T_POINTER | T_FLOAT | T_DOUBLE), Str _ => Undef
    | _, _ => Throw InvalidTypeException
    end
  end.

Section values.
Context `{!FloatText}.

(** [CastAs(source_type, target_type)]: a vector of one row is cast. *)
Definition CastAs_sql (v : Value) (source_type target_type : SQLType) : result Value :=
  if decide (source_type = target_type) then Ok v
  else
    t ← GetInternalType target_type;
    if decide (sql_id source_type = SQL_SQLNULL) then
      match val_data v with None => Ok (null_of t) | Some _ => Undef end
    else
      match source_cast (sql_id source_type) with
      | None => Throw NotImplementedException
      | Some (src, OP) =>
        _ ← assert_ (bool_decide (val_type v = src));
        match result_cast_switch src OP (sql_id target_type) with
        | None => Throw NotImplementedException
        | Some (dst, convert) =>
          _ ← assert_ (bool_decide (t = dst));
          match val_data v with
          | None => Ok (null_of t)
          | Some c => z ← convert c; Ok (some_value t z)
          end
        end
      end.

Definition CastAs (v : Value) (target : TypeId) : result Value :=
  s ← SQLTypeFromInternalType (val_type v); t ← SQLTypeFromInternalType target; CastAs_sql v s t.

(** ** Comparison *)

(** The comparison of two values of the same type. *)
Definition compare_same (op : comparison_op) (t : TypeId) (a b : option cell) : result bool :=
  match t with
  | T_INVALID | T_VARBINARY => Throw NotImplementedException
  | _ =>
    match a, b with
    | Some x, Some y => compare_op op t x y
    | _, _ => Undef
    end
  end.

Definition type_lt (a b : TypeId) : bool := TypeId_code a <? TypeId_code b.
Definition type_max (a b : TypeId) : TypeId := if type_lt a b then b else a.

(** [templated_boolean_operation]: one operand is cast to the type of the
    other first. *)
Definition Value_compare (op : comparison_op) (left right : Value) : result bool :=
  if decide (val_type left = val_type right) then compare_same op (val_type left) (val_data left) (val_data right)
  else
    let cast_left (t : TypeId) := l ← CastAs left t; compare_same op t (val_data l) (val_data right) in
    let cast_right (t : TypeId) := r ← CastAs right t; compare_same op t (val_data left) (val_data r) in
    if TypeIsNumeric (val_type left) && TypeIsNumeric (val_type right) then
      if type_lt (val_type left) (val_type right) then cast_left (val_type right) else cast_right (val_type left)
    else if decide (val_type left = T_BOOLEAN) then cast_right T_BOOLEAN
    else if decide (val_type right = T_BOOLEAN) then cast_left T_BOOLEAN
    else Ok false.

Definition Value_Equals (left right : Value) : result bool :=
  if is_null left && is_null right then Ok true
  else if negb (eqb (is_null left) (is_null right)) then Ok false
  else Value_compare OpEquals left right.

Definition Value_NotEquals (left right : Value) : result bool :=
  b ← Value_Equals left right; Ok (negb b).

Definition Value_GreaterThan (left right : Value) : result bool :=
  if is_null left && is_null right then Ok false
  else if is_null right then Ok true
  else if is_null left then Ok false
  else Value_compare OpGreaterThan left right.

Definition Value_GreaterThanEquals (left right : Value) : result bool :=
  if is_null left && is_null right then Ok true
  else if is_null right then Ok true
  else if is_null left then Ok false
  else Value_compare OpGreaterThanEquals left right.

Definition Value_LessThan (left right : Value) : result bool := Value_GreaterThan right left.
Definition Value_LessThanEquals (left right : Value) : result bool := Value_GreaterThanEquals right left.

(** [value == n] and [value < n] for a number. *)
Definition Value_eq_num (v : Value) (n : Z) : result bool := r ← Value_Numeric (val_type v) n; Value_Equals v r.
Definition Value_lt_num (v : Value) (n : Z) : result bool := r ← Value_Numeric (val_type v) n; Value_LessThan v r.

(** ** Arithmetic *)

(** The operators of [templated_binary_operation]. *)
Inductive value_op : Type := VNumeric (op : numeric_op) | VMin | VMax.

(** [std::min(l, r)] and [std::max(l, r)] return [l] unless [r] is smaller or
    greater. *)
Definition min_max (greatest : bool) (t : TypeId) (x y : cell) : result cell :=
  b ← (if greatest then compare_op OpLessThan t x y else compare_op OpLessThan t y x);
  Ok (if b : bool then y else x).

(** [OP::Operation] on two elements of a type; BOOLEAN is computed in [int8_t]. *)
Definition value_op_cells (op : value_op) (t : TypeId) (x y : cell) : result cell :=
  match t with
  | T_INVALID | T_VARCHAR | T_VARBINARY => Throw NotImplementedException
  | _ =>
    match op with
    | VNumeric o => numeric_value o (match t with T_BOOLEAN => T_TINYINT | _ => t end) x y
    | VMin => min_max false t x y
    | VMax => min_max true t x y
    end
  end.

Definition ignores_null (op : value_op) : bool := match op with VNumeric _ => false | _ => true end.

(** Operands of the same type. *)
Definition value_op_same (op : value_op) (left right : Value) : result Value :=
  match val_data left, val_data right with
  | Some x, Some y => z ← value_op_cells op (val_type left) x y; Ok (some_value (val_type left) z)
  | None, Some y => Ok (if ignores_null op then right else null_of (type_max (val_type left) (val_type right)))
  | _, None => Ok (if ignores_null op then left else null_of (type_max (val_type left) (val_type right)))
  end.

(** [templated_binary_operation]: small integers of different types are
    computed in BIGINT, and the result narrowed to the smallest type that
    holds it, but not below the types of the operands. *)
Definition value_binary (op : value_op) (left right : Value) : result Value :=
  let lt := val_type left in
  let rt := val_type right in
  if is_null left || is_null right || bool_decide (lt = rt) then value_op_same op left right
  else if TypeIsIntegral lt && TypeIsIntegral rt && (type_lt lt T_BIGINT || type_lt rt T_BIGINT) then
    l ← CastAs left T_BIGINT;
    r ← CastAs right T_BIGINT;
    res ← value_op_same op l r;
    if is_null res then Ok (null_of (type_max lt rt))
    else n ← GetNumericValue res; m ← MinimalType n; CastAs res (type_max m (type_max lt rt))
  else if TypeIsIntegral lt && TypeIsNumeric rt then l ← CastAs left rt; value_op_same op l right
  else if TypeIsNumeric lt && TypeIsIntegral rt then r ← CastAs right lt; value_op_same op left r
  else Throw TypeMismatchException.

Definition Value_Add := value_binary (VNumeric OpAdd).
Definition Value_Subtract := value_binary (VNumeric OpSubtract).
Definition Value_Multiply := value_binary (VNumeric OpMultiply).
Definition Value_Min := value_binary VMin.
Definition Value_Max := value_binary VMax.

Definition Value_Divide (left right : Value) : result Value :=
  _ ← Value_Numeric (val_type right) 0;
  zero ← Value_eq_num right 0;
  if zero : bool then Ok (null_of (type_max (val_type left) (val_type right)))
  else value_binary (VNumeric OpDivide) left right.

(** [Modulo] on operands of the same type. *)
Definition modulo_same (t : TypeId) (left right : Value) : result Value :=
  match val_data left, val_data right with
  | Some x, Some y =>
    match t with
    | T_TINYINT | T_SMALLINT | T_INTEGER | T_BIGINT => z ← numeric_value OpModulo t x y; Ok (some_value t z)
    | _ => Throw NotImplementedException
    end
  | _, _ => Ok (null_of t)
  end.

Definition Value_Modulo (left right : Value) : result Value :=
  let lt := val_type left in
  let rt := val_type right in
  if negb (TypeIsIntegral lt) || negb (TypeIsIntegral rt) then Throw InvalidTypeException
  else if decide (lt = rt) then modulo_same lt left right
  else if type_lt lt rt then l ← CastAs left rt; modulo_same rt l right
  else r ← CastAs right lt; modulo_same lt left r.
End values.

(** ** Serialization *)

(** [Value::Serialize]: a FLOAT is written as a [double]. *)
Definition Value_Serialize (s : Serializer) (v : Value) : result Serializer :=
  s ← WriteInt 4 s (TypeId_code (val_type v));
  s ← WriteInt 1 s (if is_null v then 1 else 0);
  match val_data v with
  | None => Ok s
  | Some c =>
    match val_type v, c with
    | (T_BOOLEAN | T_TINYINT), Num _ z => WriteInt 1 s z
    | T_SMALLINT, Num _ z => WriteInt 2 s z
    | T_INTEGER, Num _ z => WriteInt 4 s z
    | (T_BIGINT | T_DOUBLE | T_POINTER), Num _ z => WriteInt 8 s z
    | T_FLOAT, Num _ z => WriteInt 8 s (bits_of_float 52 11 (float_from_float T_DOUBLE (as_float z)))
    | T_VARCHAR, Str (Some str) => WriteString s str
    | (T_INVALID | T_VARBINARY), _ => Throw NotImplementedException
    | _, _ => Undef
    end
  end.

(** [Value::Deserialize]: a FLOAT is read as a [float]. *)
Definition Value_Deserialize : M (list byte) Value :=
  code ← ReadInt 4;
  t ← lift_M (deref (TypeId_of_code (to_signed 4 code)));
  null ← ReadInt 1;
  if negb (null =? 0) then mret (null_of t)
  else
    match t with
    | T_BOOLEAN | T_TINYINT => z ← ReadInt 1; mret (some_value t (Num 1 (to_signed 1 z)))
    | T_SMALLINT => z ← ReadInt 2; mret (some_value t (Num 2 (to_signed 2 z)))
    | T_INTEGER => z ← ReadInt 4; mret (some_value t (Num 4 (to_signed 4 z)))
    | T_BIGINT => z ← ReadInt 8; mret (some_value t (Num 8 (to_signed 8 z)))
    | T_FLOAT => z ← ReadInt 4; mret (some_value t (Num 4 (to_signed 4 z)))
    | T_DOUBLE => z ← ReadInt 8; mret (some_value t (Num 8 (to_signed 8 z)))
    | T_POINTER => z ← ReadInt 8; mret (some_value t (Num 8 z))
    | T_VARCHAR => str ← ReadString; mret (some_value t (Str (Some str)))
    | T_INVALID | T_VARBINARY => lift_M (Throw NotImplementedException)
    end.

(** Values that can be written: elements of their type, in its range. *)
Definition writable_value (v : Value) : Prop :=
  val_type v ≠ T_FLOAT ∧ val_type v ≠ T_INVALID ∧ val_type v ≠ T_VARBINARY ∧
  match val_data v with
  | None => True
  | Some (Num n z) =>
    GetTypeIdSize (val_type v) = Ok n ∧ val_type v ≠ T_VARCHAR ∧
    if decide (val_type v = T_POINTER) then 0 ≤ z < 2 ^ 64
    else - 2 ^ (8 * Z.of_nat n - 1) ≤ z < 2 ^ (8 * Z.of_nat n - 1)
  | Some (Str o) => val_type v = T_VARCHAR ∧ ∃ s, o = Some s ∧ Z.of_nat (String.length s) < 2 ^ 32
  end.

Definition value_encoding (v : Value) : list byte :=
  le_bytes 4 (TypeId_code (val_type v)) ++ le_bytes 1 (if is_null v then 1 else 0) ++
  match val_data v with
  | None => []
  | Some (Num n z) => le_bytes n z
  | Some (Str o) => string_encoding (default EmptyString o)
  end.

Lemma Value_Serialize_spec v s :
  writable_value v → ser_ok s → ∃ s', Value_Serialize s v = Ok s' ∧ wrote s s' (value_encoding v).
Proof.
  intros (Hf & Hi & Hb & Hv) Hs. unfold Value_Serialize, value_encoding.
  destruct (WriteInt_spec 4 s (TypeId_code (val_type v)) Hs) as (s1 & -> & Hw1). run.
  destruct (WriteInt_spec 1 s1 (if is_null v then 1 else 0) (proj2 Hw1)) as (s2 & -> & Hw2). run.
  destruct (val_data v) as [[n z|o]|].
  - destruct Hv as (Hn & Hne & _). destruct (WriteInt_spec n s2 z (proj2 Hw2)) as (s3 & Hs3 & Hw3).
    exists s3. split; [|eauto using wrote_trans]. destruct (val_type v); try done; injection Hn as <-; exact Hs3.
  - destruct Hv as (Ht & str & -> & _). destruct (WriteString_spec s2 str (proj2 Hw2)) as (s3 & Hs3 & Hw3).
    exists s3. rewrite Ht in *. split; [exact Hs3|]. change (default EmptyString (Some str)) with str. eauto using wrote_trans.
  - exists s2. split; [done|]. rewrite app_nil_r. eauto using wrote_trans.
Qed.

Lemma TypeId_code_decode t : TypeId_of_code (to_signed 4 (TypeId_code t)) = Some t.
Proof. by destruct t; vm_compute. Qed.

Lemma ReadInt_signed n z rest :
  (0 < n)%nat → - 2 ^ (8 * Z.of_nat n - 1) ≤ z < 2 ^ (8 * Z.of_nat n - 1) →
  ∃ u, ReadInt n (le_bytes n z ++ rest) = (Ok u, rest) ∧ to_signed n u = z.
Proof.
  intros Hn Hz. exists (le_val (le_bytes n z)). split; [|by apply le_val_signed].
  unfold ReadInt. run_using (ReadData_app n (le_bytes n z) rest (le_bytes_length n z)). done.
Qed.

Lemma Value_Deserialize_app v rest :
  writable_value v → Value_Deserialize (value_encoding v ++ rest) = (Ok v, rest).
Proof.
  intros (Hf & Hi & Hb & Hv). unfold value_encoding. rewrite <- !app_assoc. unfold Value_Deserialize.
  assert (0 ≤ TypeId_code (val_type v) < 2 ^ (8 * Z.of_nat 4)) as Hc by (destruct (val_type v); simpl; lia).
  run_using (ReadInt_app 4 _ (le_bytes 1 (if is_null v then 1 else 0) ++
    match val_data v with Some (Num n z) => le_bytes n z | Some (Str o) => string_encoding (default EmptyString o) | None => [] end ++ rest) Hc).
  rewrite TypeId_code_decode. run.
  assert (0 ≤ (if is_null v then 1 else 0) < 2 ^ (8 * Z.of_nat 1)) as Hn by (destruct (is_null v); simpl; lia).
  run_using (ReadInt_app 1 _ (match val_data v with Some (Num n z) => le_bytes n z | Some (Str o) => string_encoding (default EmptyString o) | None => [] end ++ rest) Hn).
  destruct v as [t [[n z|o]|]]; cbn [is_null val_data val_type] in *; [| |done]; simpl (negb _).
  - destruct Hv as (Hsz & Hne & Hz).
    destruct (decide (t = T_POINTER)) as [->|Hp].
    + injection Hsz as <-. assert (0 ≤ z < 2 ^ (8 * Z.of_nat 8)) as Hz' by (simpl; lia). by run_using (ReadInt_app 8 z rest Hz').
    + assert (0 < n)%nat as Hpos by (destruct t; try discriminate Hsz; injection Hsz as <-; lia).
      destruct (ReadInt_signed n z rest Hpos Hz) as (u & Hu & Hzu).
      destruct t; try done; injection Hsz as <-; cbv iota; run_using Hu; by rewrite Hzu.
  - destruct Hv as (-> & str & -> & Hlen). cbn [default]. cbv iota.
    assert (ReadString (string_encoding str ++ rest) = (Ok str, rest)) as Hr by (by apply ReadString_app).
    by run_using Hr.
Qed.

(** A value read back from its serialization is the value, and nothing
    after it is consumed; FLOAT values are excepted. *)
Theorem value_roundtrip v s :
  writable_value v → ser_ok s →
  ∃ s' bs, Value_Serialize s v = Ok s' ∧ blob s' = blob s ++ bs ∧
    ∀ rest, Value_Deserialize (bs ++ rest) = (Ok v, rest).
Proof.
  intros Hv Hs. destruct (Value_Serialize_spec v s Hv Hs) as (s' & Hw & Hb & _).
  exists s', (value_encoding v). split_and!; [done..|]. intros rest. by apply Value_Deserialize_app.
Qed.

Lemma value_roundtrip_witness :
  ∃ s' bs, Value_Serialize NewSerializer (some_value T_INTEGER (Num 4 (-7))) = Ok s' ∧ blob s' = blob NewSerializer ++ bs ∧
    ∀ rest, Value_Deserialize (bs ++ rest) = (Ok (some_value T_INTEGER (Num 4 (-7))), rest).
Proof.
  apply (value_roundtrip (some_value T_INTEGER (Num 4 (-7))) NewSerializer); [|apply NewSerializer_ok].
  repeat split; discriminate.
Defined.

(** A FLOAT is written in eight bytes and read from four: the value is not the
    one written, and the next read starts in its middle. *)
Lemma float_value_not_read_back :
  ∃ s', Value_Serialize NewSerializer (some_value T_FLOAT (Num 4 1065353216)) = Ok s' ∧
    Value_Deserialize (blob s') = (Ok (some_value T_FLOAT (Num 4 0)), [0; 0; 240; 63]).
Proof. eexists. split; [vm_compute; reflexivity|vm_compute; reflexivity]. Qed.

(** ** Strings *)

Definition is_continuation (b : byte) : bool := Z.land b 192 =? 128.

Fixpoint utf8_loop (cs : list byte) : bool :=
  match cs with
  | [] => true
  | c :: cs =>
    if Z.land c 128 =? 0 then utf8_loop cs
    else
      match cs with
      | [] => false
      | c1 :: cs =>
        if negb (is_continuation c1) then false
        else if Z.land c 224 =? 192 then utf8_loop cs
        else
          match cs with
          | [] => false
          | c2 :: cs =>
            if negb (is_continuation c2) then false
            else if Z.land c 240 =? 224 then utf8_loop cs
            else
              match cs with
              | [] => false
              | c3 :: cs =>
                if negb (is_continuation c3) then false
                else if Z.land c 248 =? 240 then utf8_loop cs else false
              end
          end
      end
  end.

(** [Value::IsUTF8String] on the characters before the terminator; the reads
    behind a lead byte stop at the terminator, which is no continuation. *)
Definition IsUTF8String (cs : list byte) : bool :=
  if decide (cs = [128]) then true else utf8_loop cs.

(** The UTF-8 encoding of a code point. *)
Definition utf8_encode (n : Z) : list byte :=
  if n <? 128 then [n]
  else if n <? 2 ^ 11 then [192 + n / 64; 128 + n mod 64]
  else if n <? 2 ^ 16 then [224 + n / 4096; 128 + n / 64 mod 64; 128 + n mod 64]
  else [240 + n / 262144; 128 + n / 4096 mod 64; 128 + n / 64 mod 64; 128 + n mod 64].

(** A property of a range of bytes, checked for each of them. *)
Lemma bytes_checked (p : Z → bool) (lo n : Z) b :
  forallb p (seqZ lo n) = true → lo ≤ b < lo + n → p b = true.
Proof. rewrite forallb_forall. intros Hp Hb. apply Hp, list_elem_of_In, elem_of_seqZ. lia. Qed.

Lemma continuation_byte n : 0 ≤ n < 64 → is_continuation (128 + n) = true.
Proof.
  intros Hn. apply (bytes_checked (fun b => is_continuation b) 128 64); [by vm_compute|lia].
Qed.

(** The branch of the loop that a lead byte selects. *)
Definition lead_length (c : byte) : nat :=
  if Z.land c 128 =? 0 then 0 else if Z.land c 224 =? 192 then 1 else if Z.land c 240 =? 224 then 2
  else if Z.land c 248 =? 240 then 3 else 4.

Lemma lead_bytes k lo n b :
  forallb (fun c => Nat.eqb (lead_length c) k) (seqZ lo n) = true → lo ≤ b < lo + n → lead_length b = k.
Proof. intros Hp Hb. apply Nat.eqb_eq. exact (bytes_checked (fun c => Nat.eqb (lead_length c) k) lo n b Hp Hb). Qed.

Lemma utf8_loop_lead c tail cs :
  length tail = lead_length c → (lead_length c ≤ 3)%nat → Forall (fun b => is_continuation b = true) tail →
  utf8_loop (c :: tail ++ cs) = utf8_loop cs.
Proof.
  intros Hlen Hle Hall. unfold lead_length in *. cbn [utf8_loop].
  destruct (Z.land c 128 =? 0); [by destruct tail|].
  destruct (Z.land c 224 =? 192).
  { destruct tail as [|c1 [|]]; try done. rewrite Forall_singleton in Hall. cbn [app]. by rewrite Hall. }
  destruct (Z.land c 240 =? 224).
  { destruct tail as [|c1 [|c2 [|]]]; try done. rewrite !Forall_cons in Hall. destruct Hall as (H1 & H2 & _). cbn beta in H1, H2. cbn [app].
    by rewrite H1, H2. }
  destruct (Z.land c 248 =? 240); [|lia].
  destruct tail as [|c1 [|c2 [|c3 [|]]]]; try done. rewrite !Forall_cons in Hall. destruct Hall as (H1 & H2 & H3 & _). cbn beta in H1, H2, H3.
  cbn [app]. by rewrite H1, H2, H3.
Qed.

Lemma utf8_loop_encode n cs : 0 ≤ n < 2 ^ 21 → utf8_loop (utf8_encode n ++ cs) = utf8_loop cs.
Proof.
  intros Hn. unfold utf8_encode.
  assert (∀ a, 0 ≤ a mod 64 < 64) as Hm by (intros; apply Z.mod_pos_bound; lia).
  assert (∀ a, is_continuation (128 + a mod 64) = true) as Hc by (intros; by apply continuation_byte).
  destruct (Z.ltb_spec n 128) as [?|H1]; [|destruct (Z.ltb_spec n (2 ^ 11)) as [?|H2]; [|destruct (Z.ltb_spec n (2 ^ 16)) as [?|H3]]].
  - assert (lead_length n = 0%nat) as E by (apply (lead_bytes 0 0 128); [by vm_compute|lia]).
    apply (utf8_loop_lead n []); rewrite ?E; [done|lia|constructor].
  - assert (lead_length (192 + n / 64) = 1%nat) as E.
    { apply (lead_bytes 1 192 32); [by vm_compute|]. Z.to_euclidean_division_equations; lia. }
    apply (utf8_loop_lead _ [_]); rewrite ?E; [done|lia|]. by repeat constructor.
  - assert (lead_length (224 + n / 4096) = 2%nat) as E.
    { apply (lead_bytes 2 224 16); [by vm_compute|]. Z.to_euclidean_division_equations; lia. }
    apply (utf8_loop_lead _ [_; _]); rewrite ?E; [done|lia|]. by repeat constructor.
  - assert (lead_length (240 + n / 262144) = 3%nat) as E.
    { apply (lead_bytes 3 240 8); [by vm_compute|]. Z.to_euclidean_division_equations; lia. }
    apply (utf8_loop_lead _ [_; _; _]); rewrite ?E; [done|lia|]. by repeat constructor.
Qed.

(** Every text that is encoded in UTF-8 is accepted. *)
Lemma utf8_accepted ns :
  Forall (fun n => 0 ≤ n < 2 ^ 21) ns → IsUTF8String (concat (utf8_encode <$> ns)) = true.
Proof.
  intros Hall. unfold IsUTF8String. case_decide; [done|]. induction Hall as [|n ns Hn Hall IH]; [done|].
  cbn [fmap list_fmap concat]. rewrite utf8_loop_encode by done.
  destruct (decide (concat (utf8_encode <$> ns) = [128])) as [E|]; [|by apply IH].
  exfalso. destruct Hall as [|m ms Hm _]; [done|]. cbn [fmap list_fmap concat] in E. unfold utf8_encode at 1 in E.
  repeat match type of E with context [if ?b then _ else _] => destruct b eqn:? end; cbn [app] in E; try done;
    injection E as E _; lia.
Qed.

(** What is accepted splits into lead bytes with their continuation bytes: a
    byte that could start no character ends the text. *)
Inductive utf8_text : list byte → Prop :=
| utf8_empty : utf8_text []
| utf8_char c tail cs :
  length tail = lead_length c → (lead_length c ≤ 3)%nat → Forall (fun b => is_continuation b = true) tail →
  utf8_text cs → utf8_text (c :: tail ++ cs).

Lemma utf8_loop_text cs : utf8_loop cs = true → utf8_text cs.
Proof.
  induction cs as [cs IH] using (induction_ltof1 _ (@length byte)). unfold ltof in IH.
  assert (∀ c tail cs', cs = c :: tail ++ cs' → length tail = lead_length c → (lead_length c ≤ 3)%nat →
    Forall (fun b => is_continuation b = true) tail → utf8_loop cs' = true → utf8_text cs) as Hgo.
  { intros c tail cs' -> Hl Hle Hall Hcs. constructor; [done..|]. apply IH; [|done]. simpl. rewrite length_app. lia. }
  destruct cs as [|c cs]; [constructor|]. cbn [utf8_loop]. intros Hcs.
  destruct (Z.land c 128 =? 0) eqn:E0; [apply (Hgo c [] cs); [done|unfold lead_length; rewrite E0; (done || lia)..|constructor|done]|].
  destruct cs as [|c1 cs]; [done|]. destruct (is_continuation c1) eqn:E1; [|done]. cbn [negb] in Hcs.
  destruct (Z.land c 224 =? 192) eqn:L1.
  { apply (Hgo c [c1] cs); [done|unfold lead_length; rewrite E0, L1; (done || lia)..|by repeat constructor|done]. }
  destruct cs as [|c2 cs]; [done|]. destruct (is_continuation c2) eqn:E2; [|done]. cbn [negb] in Hcs.
  destruct (Z.land c 240 =? 224) eqn:L2.
  { apply (Hgo c [c1; c2] cs); [done|unfold lead_length; rewrite E0, L1, L2; (done || lia)..|by repeat constructor|done]. }
  destruct cs as [|c3 cs]; [done|]. destruct (is_continuation c3) eqn:E3; [|done]. cbn [negb] in Hcs.
  destruct (Z.land c 248 =? 240) eqn:L3; [|done].
  apply (Hgo c [c1; c2; c3] cs); [done|unfold lead_length; rewrite E0, L1, L2, L3; (done || lia)..|by repeat constructor|done].
Qed.

Lemma utf8_text_loop cs : utf8_text cs → utf8_loop cs = true.
Proof. induction 1 as [|c tail cs Hl Hle Hall _ IH]; [done|]. by rewrite utf8_loop_lead. Qed.

(** The strings that are accepted are those that split into characters, a
    lead byte with the continuation bytes it announces, and the NULL string of
    the storage. *)
Theorem utf8_recognised cs : IsUTF8String cs = true ↔ cs = [128] ∨ utf8_text cs.
Proof.
  unfold IsUTF8String. case_decide as E; [tauto|]. split; [right; by apply utf8_loop_text|].
  intros [?|?]; [done|by apply utf8_text_loop].
Qed.
