(* ===== verification/Aggregates.v ===== *)
(** * Aggregates over a vector, and statistics

    Models [src/src/common/vector_operations/aggregate_operators.cpp] with
    [include/common/vector_operations/fold_loops.hpp], the statistics that a
    table keeps of a column ([src/src/storage/column_statistics.cpp]) and the
    statistics of an expression ([src/src/common/types/statistics.cpp] and
    [src/src/common/statistics_operations/]). *)

From Stdlib Require Import ZArith Lia SpecFloat.
From stdpp Require Import base gmap list strings option numbers sorting relations.
From S2P Require Import Prelude Types Vector Serializer ChunkSerializer KeyTuples StringStream DateTime Operators VectorOps Casts Value.

Local Open Scope Z_scope.

(** ** Aggregates *)

(** [fold_loop_function]: the rows that are not NULL, in order. *)
Fixpoint fold_rows (f : cell → cell → result cell) (v : Vector) (ixs : list (nat * nat)) (acc : cell) : result cell :=
  match ixs with
  | [] => Ok acc
  | (i, _) :: ixs' =>
    if bool_decide (i ∈ v_null v) then fold_rows f v ixs' acc
    else x ← deref (v_data v !! i); acc ← f x acc; fold_rows f v ixs' acc
  end.

(** [templated_unary_fold] *)
Definition unary_fold (f : cell → cell → result cell) (v : Vector) (acc : cell) : result cell :=
  fold_rows f v (exec_indexes (v_sel v) (v_count v) 0) acc.

(** The operators folded with. *)
Inductive fold_op : Type := FoldAdd | FoldAddOne | FoldMax | FoldMin.

Definition fold_cell (op : fold_op) (t : TypeId) (x acc : cell) : result cell :=
  match op with
  | FoldAdd => numeric_value OpAdd t x acc
  | FoldAddOne => numeric_value OpAdd t acc (match t with
      | T_FLOAT => float_cell T_FLOAT (float_from_int T_FLOAT 1)
      | T_DOUBLE => float_cell T_DOUBLE (float_from_int T_DOUBLE 1)
      | _ => int_cell t 1 end)
  | FoldMax => min_max true t x acc
  | FoldMin => min_max false t x acc
  end.

(** [generic_fold_loop]; BOOLEAN is folded as [int8_t]. *)
Definition generic_fold_loop (op : fold_op) (v : Vector) (acc : cell) : result cell :=
  match v_type v with
  | T_BOOLEAN | T_TINYINT => unary_fold (fold_cell op T_TINYINT) v acc
  | T_SMALLINT | T_INTEGER | T_BIGINT | T_FLOAT | T_DOUBLE | T_POINTER => unary_fold (fold_cell op (v_type v)) v acc
  | _ => Throw InvalidTypeException
  end.

(** [StaticVector<bool>] *)
Definition static_bool : Vector := mkVector T_BOOLEAN 0 ∅ None ∅.

Fixpoint all_true_rows (v : Vector) (ixs : list (nat * nat)) (acc : bool) : result bool :=
  match ixs with
  | [] => Ok acc
  | (i, _) :: ixs' =>
    if bool_decide (i ∈ v_null v) then all_true_rows v ixs' false
    else b ← bool_at v i; all_true_rows v ixs' (acc && b)
  end.

Definition AllTrue (v : Vector) : result bool :=
  if negb (bool_decide (v_type v = T_BOOLEAN)) then Throw InvalidTypeException
  else if (v_count v =? 0)%nat then Ok false
  else all_true_rows v (exec_indexes (v_sel v) (v_count v) 0) true.

Fixpoint any_true_rows (v : Vector) (ixs : list (nat * nat)) (acc : bool) : result bool :=
  match ixs with
  | [] => Ok acc
  | (i, _) :: ixs' =>
    if bool_decide (i ∈ v_null v) then any_true_rows v ixs' acc
    else b ← bool_at v i; any_true_rows v ixs' (acc || b)
  end.

Definition AnyTrue (v : Vector) : result bool :=
  if negb (bool_decide (v_type v = T_BOOLEAN)) then Throw InvalidTypeException
  else any_true_rows v (exec_indexes (v_sel v) (v_count v) 0) false.

Section aggregates.
Context `{!FloatText}.

Definition Vector_Sum (v : Vector) : result Value :=
  if (v_count v =? 0)%nat || negb (TypeIsNumeric (v_type v)) then Ok default_value
  else
    zero ← Value_Numeric (v_type v) 0;
    nulls ← is_null_loop false v static_bool;
    all_null ← AllTrue nulls;
    if all_null : bool then Ok (null_of (v_type v))
    else
      acc ← deref (val_data zero);
      res ← generic_fold_loop FoldAdd v acc;
      Ok (some_value (v_type v) res).

Definition Vector_Count (v : Vector) : result Value :=
  zero ← Value_Numeric (v_type v) 0;
  acc ← deref (val_data zero);
  res ← generic_fold_loop FoldAddOne v acc;
  Ok (some_value (v_type v) res).

(** [Max] and [Min] answer NULL if the result is the starting value. *)
Definition Vector_extreme (op : fold_op) (start : TypeId → result Value) (v : Vector) : result Value :=
  if (v_count v =? 0)%nat || negb (TypeIsNumeric (v_type v)) then Ok default_value
  else
    first ← start (v_type v);
    acc ← deref (val_data first);
    res ← generic_fold_loop op v acc;
    none ← Value_Equals (some_value (v_type v) res) first;
    Ok (if none : bool then null_of (v_type v) else some_value (v_type v) res).

Definition Vector_Max := Vector_extreme FoldMax Value_MinimumValue.
Definition Vector_Min := Vector_extreme FoldMin Value_MaximumValue.

(** [strlen] *)
Definition MaximumStringLength_cell (x acc : cell) : result cell :=
  match x, acc with
  | Str (Some s), Num n z => Ok (Num n (Z.max (Z.of_nat (String.length s)) z))
  | _, _ => Undef
  end.

Definition Vector_MaximumStringLength (v : Vector) : result Value :=
  if negb (bool_decide (v_type v = T_VARCHAR)) then Throw InvalidTypeException
  else if (v_count v =? 0)%nat then Ok (some_value T_POINTER (Num 8 0))
  else res ← unary_fold MaximumStringLength_cell v (Num 8 0); Ok (some_value T_POINTER res).

(** [Contains]: some row equals the value. *)
Definition Vector_Contains (v : Vector) (value : Value) : result bool :=
  if (v_count v =? 0)%nat then Ok false
  else
    r ← CastAs value (v_type v);
    let right := mkVector (v_type v) 1 (match val_data r with Some c => {[0%nat := c]} | None => ∅ end) None
                   (if is_null r then {[0%nat]} else ∅) in
    res ← templated_boolean_operation OpEquals v right static_bool;
    AnyTrue res.

(** ** Statistics of a column *)

Record ColumnStatistics : Type := mkColumnStatistics {
  cs_can_have_null : bool;
  cs_min : Value;
  cs_max : Value;
  cs_maximum_string_length : Z }.

Definition NewColumnStatistics : ColumnStatistics := mkColumnStatistics false default_value default_value 0.

(** [HasNull] looks at the whole mask. *)
Definition Vector_HasNull (v : Vector) : bool := negb (bool_decide (v_null v = ∅)).

Definition ColumnStatistics_Update (s : ColumnStatistics) (v : Vector) : result ColumnStatistics :=
  let can_have_null := cs_can_have_null s || Vector_HasNull v in
  '(mn, mx) ← (if TypeIsNumeric (v_type v) then
      new_min ← Vector_Min v;
      new_max ← Vector_Max v;
      '(new_min, new_max) ← (if TypeIsIntegral (val_type new_min) && negb (bool_decide (val_type new_min = T_BIGINT)) then
          a ← CastAs new_min T_BIGINT; b ← CastAs new_max T_BIGINT; Ok (a, b)
        else Ok (new_min, new_max));
      a ← Value_Min (cs_min s) new_min;
      b ← Value_Max (cs_max s) new_max;
      Ok (a, b)
    else Ok (cs_min s, cs_max s));
  len ← (if decide (v_type v = T_VARCHAR) then
      l ← Vector_MaximumStringLength v;
      match val_data l with Some (Num _ z) => Ok (Z.max (cs_maximum_string_length s) z) | _ => Undef end
    else Ok (cs_maximum_string_length s));
  Ok (mkColumnStatistics can_have_null mn mx len).
End aggregates.

(** ** Aggregates of integers *)

(** The numbers in a vector, without the NULLs. *)
Definition row_nums (v : Vector) : list Z := omap (row_num v) (seq 0 (v_count v)).

(** A vector of a signed integer type whose rows are in its range. *)
Definition int_vector (n : nat) (v : Vector) : Prop :=
  operand_ok v ∧ signed_width (v_type v) = Some n ∧ Forall (fun z => in_signed n z = true) (row_nums v).

Lemma signed_width_size t n : signed_width t = Some n → GetTypeIdSize t = Ok n ∧ t ≠ T_VARCHAR.
Proof. by destruct t; intros [= <-]. Qed.

Lemma int_row v n k :
  operand_ok v → signed_width (v_type v) = Some n → (k < v_count v)%nat →
  if decide (sel_at (v_sel v) k ∈ v_null v) then row_num v k = None
  else ∃ z, v_data v !! sel_at (v_sel v) k = Some (Num n z) ∧ row_num v k = Some z.
Proof.
  intros Hok Hw Hk. unfold row_num, row_value. rewrite cell_index_row by done. case_decide as Hn; [done|].
  destruct (operand_present v k Hok) as (x & Hx & _ & Ht); [by left|by rewrite cell_index_row|].
  rewrite cell_index_row in Hx by done. destruct (signed_width_size _ _ Hw) as [Hsz Hne].
  destruct x as [m z|s]; [|by destruct s, (v_type v)]. pose proof (cell_has_type_size _ _ Ht) as E.
  rewrite Hsz in E. injection E as ->. rewrite Hx. eauto.
Qed.

Lemma fold_rows_nums f v n (g : Z → Z → Z) (ok : Z → Prop) a0 :
  operand_ok v → signed_width (v_type v) = Some n →
  (∀ x a, x ∈ row_nums v → ok a → f (Num n x) (Num n a) = Ok (Num n (g x a)) ∧ ok (g x a)) → ok a0 →
  unary_fold f v (Num n a0) = Ok (Num n (foldl (fun a x => g x a) a0 (row_nums v))) ∧
  ok (foldl (fun a x => g x a) a0 (row_nums v)).
Proof.
  intros Hok Hw. unfold unary_fold, exec_indexes, row_nums. rewrite Nat.sub_0_r.
  assert (∀ k, k ∈ seq 0 (v_count v) → (k < v_count v)%nat) as Hlt by (intros k Hk%elem_of_seq; lia).
  revert a0 Hlt. induction (seq 0 (v_count v)) as [|k ks IH]; intros a0 Hlt Hf H0; [done|].
  cbn [fmap list_fmap fold_rows omap list_omap] in *. cbn [fst snd] in *.
  pose proof (int_row v n k Hok Hw (Hlt k (list_elem_of_here _ _))) as Hrow.
  case_decide as Hn.
  - rewrite bool_decide_eq_true_2 by done. rewrite Hrow in *. apply IH; [intros; apply Hlt; by right|done..].
  - rewrite bool_decide_eq_false_2 by done. destruct Hrow as (z & Hz & Hr). rewrite Hz. run. rewrite Hr in *.
    destruct (Hf z a0 (list_elem_of_here _ _) H0) as [-> H1]. run. cbn [foldl].
    apply IH; [intros; apply Hlt; by right| |done]. intros x a Hx. apply Hf. by right.
Qed.

Lemma min_max_int greatest t n x a :
  signed_width t = Some n →
  min_max greatest t (Num n x) (Num n a) = Ok (Num n (if greatest : bool then Z.max x a else Z.min x a)).
Proof.
  intros Hw. unfold min_max, compare_op.
  assert (∀ p q, compare_values t (Num n p) (Num n q) = Ok (Some (p ?= q))) as Hc by (intros; by destruct t).
  destruct greatest; rewrite Hc; run; unfold holds; do 2 f_equal.
  - destruct (Z.compare_spec x a); f_equal; lia.
  - destruct (Z.compare_spec a x); f_equal; lia.
Qed.

Lemma add_int t n x a :
  signed_width t = Some n → in_signed n (x + a) = true →
  numeric_value OpAdd t (Num n x) (Num n a) = Ok (Num n (x + a)).
Proof.
  intros Hw Hin. assert (n ≠ 0%nat) as Hn by (intros ->; by destruct t).
  destruct t; try discriminate; injection Hw as <-; cbn [numeric_value numeric_Z]; run;
    rewrite ?wrap_signed_id by done; unfold overflows; by rewrite ?Hin.
Qed.

Lemma generic_fold_int op v n acc :
  signed_width (v_type v) = Some n → generic_fold_loop op v acc = unary_fold (fold_cell op (v_type v)) v acc.
Proof. unfold generic_fold_loop. by destruct (v_type v). Qed.

Lemma signed_numeric t n : signed_width t = Some n → TypeIsNumeric t = true ∧ TypeIsIntegral t = true.
Proof. by destruct t. Qed.

(** The smallest and the largest number of a width. *)
Definition int_min (n : nat) : Z := - 2 ^ (8 * Z.of_nat n - 1).
Definition int_max (n : nat) : Z := 2 ^ (8 * Z.of_nat n - 1) - 1.

Lemma extreme_start t n :
  signed_width t = Some n →
  Value_MinimumValue t = Ok (some_value t (Num n (int_min n))) ∧ Value_MaximumValue t = Ok (some_value t (Num n (int_max n))).
Proof. by destruct t; intros [= <-]; vm_compute. Qed.

Lemma Value_Equals_int `{!FloatText} t n x y :
  signed_width t = Some n → Value_Equals (some_value t (Num n x)) (some_value t (Num n y)) = Ok (x =? y).
Proof.
  intros Hw. unfold Value_Equals, Value_compare, compare_same, compare_op. cbn [is_null val_data some_value val_type andb negb eqb].
  rewrite decide_True by done.
  assert (compare_values t (Num n x) (Num n y) = Ok (Some (x ?= y))) as Hc by (by destruct t).
  assert (∀ c, holds OpEquals (Some c) = match c with Eq => true | _ => false end) as Hh by (by intros []).
  destruct t; try discriminate; rewrite Hc; run; rewrite Hh, Z.eqb_compare; done.
Qed.

Definition max_of (n : nat) (zs : list Z) : Z := foldl (fun a x => Z.max x a) (int_min n) zs.
Definition min_of (n : nat) (zs : list Z) : Z := foldl (fun a x => Z.min x a) (int_max n) zs.

(** [Max] and [Min] of integers; the smallest (largest) number of the type
    counts as no number. *)
Lemma Vector_Max_int `{!FloatText} v n :
  int_vector n v → (0 < v_count v)%nat →
  Vector_Max v = Ok (if max_of n (row_nums v) =? int_min n then null_of (v_type v)
                     else some_value (v_type v) (Num n (max_of n (row_nums v)))).
Proof.
  intros (Hok & Hw & Hall) Hc. unfold Vector_Max, Vector_extreme.
  rewrite (proj2 (Nat.eqb_neq (v_count v) 0)) by lia. rewrite (proj1 (signed_numeric _ _ Hw)). cbn [orb negb].
  rewrite (proj1 (extreme_start _ _ Hw)). run. cbn [val_data some_value]. run. rewrite generic_fold_int with (n := n) by done.
  destruct (fold_rows_nums (fold_cell FoldMax (v_type v)) v n Z.max (fun _ => True) (int_min n)) as [-> _]; [done..| |done|].
  { intros x a _ _. split; [|done]. by apply (min_max_int true). }
  run. rewrite Value_Equals_int by done. run. done.
Qed.

Lemma Vector_Min_int `{!FloatText} v n :
  int_vector n v → (0 < v_count v)%nat →
  Vector_Min v = Ok (if min_of n (row_nums v) =? int_max n then null_of (v_type v)
                     else some_value (v_type v) (Num n (min_of n (row_nums v)))).
Proof.
  intros (Hok & Hw & Hall) Hc. unfold Vector_Min, Vector_extreme.
  rewrite (proj2 (Nat.eqb_neq (v_count v) 0)) by lia. rewrite (proj1 (signed_numeric _ _ Hw)). cbn [orb negb].
  rewrite (proj2 (extreme_start _ _ Hw)). run. cbn [val_data some_value]. run. rewrite generic_fold_int with (n := n) by done.
  destruct (fold_rows_nums (fold_cell FoldMin (v_type v)) v n Z.min (fun _ => True) (int_max n)) as [-> _]; [done..| |done|].
  { intros x a _ _. split; [|done]. by apply (min_max_int false). }
  run. rewrite Value_Equals_int by done. run. done.
Qed.

Lemma max_of_spec n zs : Forall (fun z => z ≤ max_of n zs) zs ∧ int_min n ≤ max_of n zs ∧ (max_of n zs ∈ zs ∨ max_of n zs = int_min n).
Proof.
  unfold max_of. generalize (int_min n). induction zs as [|z zs IH]; intros m; [split_and!; [constructor|simpl; lia|by right]|]. cbn [foldl].
  destruct (IH (Z.max z m)) as (Hall & Hle & Hin). split_and!; [constructor; [lia|done]|lia|].
  destruct Hin as [?|Hin]; [left; by right|]. rewrite Hin. destruct (Z.max_spec z m) as [[_ ->]|[_ ->]]; [by right|left; left].
Qed.

Lemma min_of_spec n zs : Forall (fun z => min_of n zs ≤ z) zs ∧ min_of n zs ≤ int_max n ∧ (min_of n zs ∈ zs ∨ min_of n zs = int_max n).
Proof.
  unfold min_of. generalize (int_max n). induction zs as [|z zs IH]; intros m; [split_and!; [constructor|simpl; lia|by right]|]. cbn [foldl].
  destruct (IH (Z.min z m)) as (Hall & Hle & Hin). split_and!; [constructor; [lia|done]|lia|].
  destruct Hin as [?|Hin]; [left; by right|]. rewrite Hin. destruct (Z.min_spec z m) as [[_ ->]|[_ ->]]; [left; left|by right].
Qed.

(** ** The sum *)

Lemma all_true_rows_spec v ixs acc (b : nat → bool) :
  (∀ i, i ∈ ixs.*1 → (i ∉ v_null v) ∧ bool_at v i = Ok (b i)) →
  all_true_rows v ixs acc = Ok (acc && forallb b (ixs.*1)).
Proof.
  revert acc. induction ixs as [|[i k] ixs IH]; intros acc Hb; cbn [all_true_rows fmap list_fmap forallb].
  { by rewrite andb_true_r. }
  destruct (Hb i) as [Hn Hi]; [by left|]. rewrite bool_decide_eq_false_2 by done. rewrite Hi. run.
  rewrite IH by (intros j Hj; apply Hb; by right). cbn [fst]. by rewrite andb_assoc.
Qed.

(** Whether all rows are NULL, as [Sum] asks. *)
Lemma all_null_spec v :
  (0 < v_count v)%nat →
  ∃ nulls, is_null_loop false v static_bool = Ok nulls ∧
    AllTrue nulls = Ok (forallb (fun k => bool_decide (sel_at (v_sel v) k ∈ v_null v)) (seq 0 (v_count v))).
Proof.
  intros Hc. unfold is_null_loop. rewrite bool_decide_eq_true_2 by done. cbn [negb].
  match goal with |- context [write_rows ?f ?ix ?d] => destruct (write_rows_spec f ix d) as (d' & -> & Hrow); [eauto|] end.
  run. eexists. split; [done|]. unfold AllTrue. cbn [v_type v_count v_sel static_bool].
  rewrite bool_decide_eq_true_2 by done. rewrite (proj2 (Nat.eqb_neq (v_count v) 0)) by lia. cbn [negb].
  rewrite (all_true_rows_spec _ _ _ (fun i => bool_decide (i ∈ v_null v))).
  - unfold exec_indexes. rewrite Nat.sub_0_r, <- list_fmap_compose. cbn [andb]. f_equal. simpl.
    induction (seq 0 (v_count v)) as [|k ks IH]; [done|]. cbn. by rewrite IH.
  - intros i Hi. split; [set_solver|]. unfold bool_at. cbn [v_data]. erewrite Hrow; [|done|done].
    by case_bool_decide.
Qed.

Lemma row_nums_nil v n :
  operand_ok v → signed_width (v_type v) = Some n →
  forallb (fun k => bool_decide (sel_at (v_sel v) k ∈ v_null v)) (seq 0 (v_count v)) = bool_decide (row_nums v = []).
Proof.
  intros Hok Hw. unfold row_nums.
  assert (∀ k, k ∈ seq 0 (v_count v) → (k < v_count v)%nat) as Hlt by (intros k Hk%elem_of_seq; lia).
  induction (seq 0 (v_count v)) as [|k ks IH]; [done|]. cbn [forallb omap list_omap].
  pose proof (int_row v n k Hok Hw (Hlt k (list_elem_of_here _ _))) as Hrow. case_decide as Hn.
  - rewrite bool_decide_eq_true_2, Hrow by done. apply IH. intros; apply Hlt. by right.
  - destruct Hrow as (z & _ & ->). by rewrite bool_decide_eq_false_2 by done.
Qed.

(** The sums of the beginnings of a list. *)
Definition partial_sums_ok (n : nat) (zs : list Z) : Prop :=
  ∀ k, in_signed n (foldr Z.add 0 (take k zs)) = true.

Lemma fold_rows_sum f v n t ixs zs a0 :
  (∀ x a, in_signed n (x + a) = true → f (Num n x) (Num n a) = Ok (Num n (x + a))) →
  Forall2 (fun i o => if decide (i ∈ v_null v) then o = None else ∃ z, v_data v !! i = Some (Num n z) ∧ o = Some z) ixs.*1 t →
  zs = omap id t →
  (∀ k, in_signed n (a0 + foldr Z.add 0 (take k zs)) = true) →
  fold_rows f v ixs (Num n a0) = Ok (Num n (a0 + foldr Z.add 0 zs)).
Proof.
  intros Hf. revert t zs a0. induction ixs as [|[i k] ixs IH]; intros t zs a0 Hall -> Hsum; cbn [fold_rows].
  { inversion Hall; subst. simpl. do 2 f_equal. lia. }
  cbn [fmap list_fmap fst] in Hall. apply Forall2_cons_inv_l in Hall as (o & t' & Ho & Hall & ->).
  destruct (decide (i ∈ v_null v)) as [Hn|Hn].
  - subst o. rewrite bool_decide_eq_true_2 by done. by eapply IH.
  - destruct Ho as (z & Hz & ->). rewrite bool_decide_eq_false_2 by done. rewrite Hz. run. cbn [omap list_omap id] in *.
    assert (in_signed n (z + a0) = true) as Hin.
    { specialize (Hsum 1%nat). cbn in Hsum. by replace (z + a0) with (a0 + (z + 0)) by lia. }
    rewrite Hf by done. run. rewrite (IH t' (omap id t') (z + a0)); [cbn [foldr]; do 2 f_equal; lia|done|done|].
    intros j. specialize (Hsum (S j)). cbn in Hsum. by replace (z + a0 + foldr Z.add 0 (take j (omap id t')))
      with (a0 + (z + foldr Z.add 0 (take j (omap id t')))) by lia.
Qed.

Lemma Vector_Sum_int `{!FloatText} v n :
  int_vector n v → (0 < v_count v)%nat → partial_sums_ok n (row_nums v) →
  Vector_Sum v = Ok (if bool_decide (row_nums v = []) then null_of (v_type v)
                     else some_value (v_type v) (Num n (foldr Z.add 0 (row_nums v)))).
Proof.
  intros (Hok & Hw & Hall) Hc Hsum. unfold Vector_Sum.
  rewrite (proj2 (Nat.eqb_neq (v_count v) 0)) by lia. destruct (signed_numeric _ _ Hw) as [Hnum Hint].
  rewrite Hnum. cbn [orb negb].
  assert (Value_Numeric (v_type v) 0 = Ok (some_value (v_type v) (Num n 0))) as ->.
  { destruct (v_type v); try discriminate; by injection Hw as <-. }
  run. destruct (all_null_spec v Hc) as (nulls & -> & Hat). run. rewrite Hat, (row_nums_nil v n Hok Hw). run.
  case_bool_decide as Hnil; [done|]. cbn [val_data some_value]. run. rewrite (generic_fold_int _ _ n) by done.
  unfold unary_fold. rewrite (fold_rows_sum _ v n (row_num v <$> seq 0 (v_count v)) _ (row_nums v) 0); [done| | | |].
  - intros x a Hin. by apply add_int.
  - unfold exec_indexes. rewrite Nat.sub_0_r, <- list_fmap_compose. apply Forall2_fmap.
    apply Forall_Forall2_diag, Forall_forall. intros k Hk%elem_of_seq. exact (int_row v n k Hok Hw ltac:(lia)).
  - unfold row_nums. by rewrite omap_fmap_compose.
  - intros k. apply Hsum.
Qed.

(** ** Statistics of a column are sound *)

(** A bound kept in the statistics: nothing, or a BIGINT. *)
Definition bound_of (v : Value) (b : option Z) : Prop :=
  match b with
  | None => val_data v = None
  | Some z => v = some_value T_BIGINT (Num 8 z)
  end.

Lemma cast_to_bigint `{!FloatText} t n z :
  signed_width t = Some n → t ≠ T_BIGINT → in_signed n z = true →
  CastAs (some_value t (Num n z)) T_BIGINT = Ok (some_value T_BIGINT (Num 8 z)).
Proof.
  intros Hw Hne Hz.
  assert (in_signed 8 z = true) as H8.
  { unfold in_signed in *. destruct t; try discriminate; injection Hw as <-; revert Hz; eval_width; lia. }
  destruct t; try discriminate; try done; unfold CastAs; cbn [val_type some_value SQLTypeFromInternalType]; run;
    unfold CastAs_sql; rewrite decide_False by done; cbn [GetInternalType sql_id]; run;
    rewrite decide_False by done; cbn [source_cast result_cast_switch sql_id]; cbn [val_type some_value];
    rewrite !bool_decide_eq_true_2 by done; run; cbn [val_data some_value Cast_Operation Cast_int int_of int_cell]; run;
    by rewrite wrap_signed_id.
Qed.

Lemma cast_null_bigint `{!FloatText} t n :
  signed_width t = Some n → t ≠ T_BIGINT → CastAs (null_of t) T_BIGINT = Ok (null_of T_BIGINT).
Proof. intros Hw Hne. destruct t; try discriminate; done. Qed.

(** What [Update] makes of the extreme value of a new vector. *)
Lemma widened `{!FloatText} t n (b : option Z) :
  signed_width t = Some n → (∀ z, b = Some z → in_signed n z = true) →
  let v := match b with Some z => some_value t (Num n z) | None => null_of t end in
  ∃ w, (if TypeIsIntegral (val_type v) && negb (bool_decide (val_type v = T_BIGINT)) then CastAs v T_BIGINT else Ok v) = Ok w ∧
    bound_of w b ∧ val_type w = T_BIGINT.
Proof.
  intros Hw Hb v. assert (val_type v = t) as Ht by (subst v; by destruct b). rewrite Ht.
  rewrite (proj2 (signed_numeric _ _ Hw)). cbn [andb]. case_bool_decide as E; cbn [negb].
  - exists v. split; [done|]. split; [|congruence]. subst v. subst t. injection Hw as <-. by destruct b.
  - subst v. destruct b as [z|].
    + rewrite (cast_to_bigint t n z) by auto. by eexists.
    + rewrite (cast_null_bigint t n) by done. by eexists.
Qed.

(** [Min] and [Max] of two bounds ignore what is not known. *)
Definition combine_bound (f : Z → Z → Z) (a b : option Z) : option Z :=
  match a, b with Some x, Some y => Some (f x y) | Some x, None => Some x | None, b => b end.

Lemma Value_min_max_bound `{!FloatText} greatest v w a b :
  bound_of v a → bound_of w b →
  ∃ r, value_binary (if greatest : bool then VMax else VMin) v w = Ok r ∧
    bound_of r (combine_bound (if greatest then Z.max else Z.min) a b).
Proof.
  intros Ha Hb. unfold value_binary, value_op_same, is_null.
  destruct a as [x|], b as [y|]; cbn [bound_of combine_bound] in *.
  - subst v w. cbn [val_data some_value val_type orb]. rewrite bool_decide_eq_true_2 by done.
    destruct greatest; cbn [value_op_cells].
    + rewrite (min_max_int true T_BIGINT 8) by done. run. eexists. split; reflexivity.
    + rewrite (min_max_int false T_BIGINT 8) by done. run. eexists. split; reflexivity.
  - subst v. rewrite Hb. cbn [val_data some_value orb]. destruct greatest; cbn [ignores_null]; eauto.
  - subst w. rewrite Ha. cbn [val_data some_value orb]. destruct greatest; cbn [ignores_null]; eauto.
  - rewrite Ha, Hb. cbn [orb]. destruct greatest; cbn [ignores_null]; eauto.
Qed.


(** The bounds of a list of numbers, unknown when they are the limits of the type. *)
Definition min_bound (n : nat) (zs : list Z) : option Z :=
  if min_of n zs =? int_max n then None else Some (min_of n zs).
Definition max_bound (n : nat) (zs : list Z) : option Z :=
  if max_of n zs =? int_min n then None else Some (max_of n zs).

Lemma min_of_app n zs zs' : min_of n (zs ++ zs') = Z.min (min_of n zs) (min_of n zs').
Proof.
  unfold min_of. rewrite foldl_app.
  assert (∀ l a m, foldl (fun a x => Z.min x a) (Z.min a m) l = Z.min a (foldl (fun a x => Z.min x a) m l)) as H.
  { induction l as [|z l IH]; intros a m; cbn [foldl]; [done|]. rewrite <- IH. f_equal. lia. }
  rewrite <- H. f_equal. pose proof (min_of_spec n zs) as (_ & ? & _). unfold min_of in *. lia.
Qed.

Lemma max_of_app n zs zs' : max_of n (zs ++ zs') = Z.max (max_of n zs) (max_of n zs').
Proof.
  unfold max_of. rewrite foldl_app.
  assert (∀ l a m, foldl (fun a x => Z.max x a) (Z.max a m) l = Z.max a (foldl (fun a x => Z.max x a) m l)) as H.
  { induction l as [|z l IH]; intros a m; cbn [foldl]; [done|]. rewrite <- IH. f_equal. lia. }
  rewrite <- H. f_equal. pose proof (max_of_spec n zs) as (_ & ? & _). unfold max_of in *. lia.
Qed.

Lemma combine_min n zs zs' : combine_bound Z.min (min_bound n zs) (min_bound n zs') = min_bound n (zs ++ zs').
Proof.
  unfold min_bound. rewrite min_of_app. pose proof (min_of_spec n zs) as (_ & ? & _). pose proof (min_of_spec n zs') as (_ & ? & _).
  destruct (Z.eqb_spec (min_of n zs) (int_max n)), (Z.eqb_spec (min_of n zs') (int_max n)),
    (Z.eqb_spec (Z.min (min_of n zs) (min_of n zs')) (int_max n)); cbn; try lia; try done; f_equal; lia.
Qed.

Lemma combine_max n zs zs' : combine_bound Z.max (max_bound n zs) (max_bound n zs') = max_bound n (zs ++ zs').
Proof.
  unfold max_bound. rewrite max_of_app. pose proof (max_of_spec n zs) as (_ & ? & _). pose proof (max_of_spec n zs') as (_ & ? & _).
  destruct (Z.eqb_spec (max_of n zs) (int_min n)), (Z.eqb_spec (max_of n zs') (int_min n)),
    (Z.eqb_spec (Z.max (max_of n zs) (max_of n zs')) (int_min n)); cbn; try lia; try done; f_equal; lia.
Qed.

(** The statistics describe the numbers [zs] of a column of width [n]. *)
Definition stats_of (n : nat) (s : ColumnStatistics) (zs : list Z) : Prop :=
  bound_of (cs_min s) (min_bound n zs) ∧ bound_of (cs_max s) (max_bound n zs).

Lemma in_signed_limits n z : in_signed n z = true ↔ int_min n ≤ z ≤ int_max n.
Proof. unfold in_signed, int_min, int_max. lia. Qed.

Lemma bounds_in_signed n zs :
  (0 < n)%nat → Forall (fun z => in_signed n z = true) zs →
  (∀ z, min_bound n zs = Some z → in_signed n z = true) ∧ (∀ z, max_bound n zs = Some z → in_signed n z = true).
Proof.
  intros Hn Hall. assert (int_min n ≤ int_max n) as Hle.
  { unfold int_min, int_max. assert (0 < 2 ^ (8 * Z.of_nat n - 1)) by (apply Z.pow_pos_nonneg; lia). lia. }
  split; intros z; unfold min_bound, max_bound.
  - destruct (Z.eqb_spec (min_of n zs) (int_max n)); intros [= <-].
    destruct (min_of_spec n zs) as (_ & _ & [Hin|?]); [|lia]. rewrite Forall_forall in Hall. by apply Hall.
  - destruct (Z.eqb_spec (max_of n zs) (int_min n)); intros [= <-].
    destruct (max_of_spec n zs) as (_ & _ & [Hin|?]); [|lia]. rewrite Forall_forall in Hall. by apply Hall.
Qed.

Lemma row_nums_empty v : v_count v = 0%nat → row_nums v = [].
Proof. intros E. unfold row_nums. by rewrite E. Qed.

Lemma new_bounds `{!FloatText} v n :
  int_vector n v →
  ∃ mn mx, Vector_Min v = Ok mn ∧ Vector_Max v = Ok mx ∧
    ∃ a b, (if TypeIsIntegral (val_type mn) && negb (bool_decide (val_type mn = T_BIGINT)) then
              a ← CastAs mn T_BIGINT; b ← CastAs mx T_BIGINT; Ok (a, b) else Ok (mn, mx)) = Ok (a, b) ∧
      bound_of a (min_bound n (row_nums v)) ∧ bound_of b (max_bound n (row_nums v)).
Proof.
  intros Hv. pose proof Hv as (Hok & Hw & Hall).
  assert (0 < n)%nat as Hn by (destruct (v_type v); try discriminate Hw; injection Hw as <-; lia).
  destruct (Nat.eq_dec (v_count v) 0%nat) as [E|E].
  { unfold Vector_Min, Vector_Max, Vector_extreme. rewrite E. cbn [Nat.eqb orb]. do 2 eexists. split; [done|]. split; [done|].
    do 2 eexists. split; [reflexivity|]. rewrite row_nums_empty by done. unfold min_bound, max_bound, min_of, max_of.
    cbn [foldl]. by rewrite !Z.eqb_refl. }
  rewrite (Vector_Min_int v n Hv), (Vector_Max_int v n Hv) by lia.
  destruct (bounds_in_signed n (row_nums v) Hn Hall) as [Hmin Hmax].
  destruct (widened (v_type v) n (min_bound n (row_nums v)) Hw Hmin) as (a & Ha & Hba & _).
  destruct (widened (v_type v) n (max_bound n (row_nums v)) Hw Hmax) as (b & Hb & Hbb & _).
  unfold min_bound, max_bound in *. do 2 eexists. split; [done|]. split; [done|]. exists a, b. split; [|done].
  destruct (min_of n (row_nums v) =? int_max n), (max_of n (row_nums v) =? int_min n); cbn [val_type null_of some_value] in *;
    destruct (TypeIsIntegral (v_type v) && negb (bool_decide (v_type v = T_BIGINT)));
    cbv iota in Ha, Hb;
    first [rewrite Ha; run; first [rewrite Hb; run; done|congruence]|by injection Ha as <-; injection Hb as <-].
Qed.

Lemma Update_spec_int `{!FloatText} n s v zs :
  int_vector n v → stats_of n s zs →
  ∃ s', ColumnStatistics_Update s v = Ok s' ∧ stats_of n s' (zs ++ row_nums v) ∧
    cs_can_have_null s' = cs_can_have_null s || Vector_HasNull v ∧
    cs_maximum_string_length s' = cs_maximum_string_length s.
Proof.
  intros Hv [Hmin Hmax]. pose proof Hv as (_ & Hw & _).
  destruct (new_bounds v n Hv) as (mn & mx & Hmn & Hmx & a & b & Hab & Ha & Hb).
  unfold ColumnStatistics_Update. rewrite (proj1 (signed_numeric _ _ Hw)), Hmn. run. rewrite Hmx. run. rewrite Hab. run.
  destruct (Value_min_max_bound false (cs_min s) a _ _ Hmin Ha) as (r & Hr & Hbr).
  destruct (Value_min_max_bound true (cs_max s) b _ _ Hmax Hb) as (r' & Hr' & Hbr').
  unfold Value_Min, Value_Max. rewrite Hr. run. rewrite Hr'. run.
  rewrite decide_False by (by destruct (v_type v)). run. eexists. split; [done|]. split; [|done].
  split; cbn; [rewrite <- combine_min|rewrite <- combine_max]; done.
Qed.

(** Statistics that have seen the vectors [vs]. *)
Fixpoint update_all `{!FloatText} (s : ColumnStatistics) (vs : list Vector) : result ColumnStatistics :=
  match vs with [] => Ok s | v :: vs' => s ← ColumnStatistics_Update s v; update_all s vs' end.

Lemma update_all_spec `{!FloatText} n vs s zs :
  Forall (int_vector n) vs → stats_of n s zs →
  ∃ s', update_all s vs = Ok s' ∧ stats_of n s' (zs ++ (vs ≫= row_nums)) ∧
    cs_can_have_null s' = cs_can_have_null s || existsb Vector_HasNull vs.
Proof.
  intros Hall. revert s zs. induction Hall as [|v vs Hv _ IH]; intros s zs Hs; cbn [update_all existsb].
  { exists s. rewrite app_nil_r, orb_false_r. done. }
  destruct (Update_spec_int n s v zs Hv Hs) as (s1 & -> & Hs1 & Hn1 & _). run.
  destruct (IH s1 _ Hs1) as (s' & Hs' & Hst & Hn'). exists s'. split; [done|]. cbn [mbind list_bind].
  rewrite <- app_assoc in Hst. split; [done|]. by rewrite Hn', Hn1, orb_assoc.
Qed.

(** C36. The statistics of an integer column are sound and tight: whatever
    vectors it has received, the minimum and the maximum are numbers of the
    column and bound all of them, and unless NULLs are announced no row of a
    vector is NULL. *)
Theorem column_statistics_sound `{!FloatText} n vs :
  Forall (int_vector n) vs →
  ∃ s, update_all NewColumnStatistics vs = Ok s ∧
    (∀ c, val_data (cs_min s) = Some c → ∃ m, c = Num 8 m ∧ m ∈ (vs ≫= row_nums) ∧ Forall (fun z => m ≤ z) (vs ≫= row_nums)) ∧
    (∀ c, val_data (cs_max s) = Some c → ∃ m, c = Num 8 m ∧ m ∈ (vs ≫= row_nums) ∧ Forall (fun z => z ≤ m) (vs ≫= row_nums)) ∧
    (cs_can_have_null s = false → Forall (fun v => v_null v = ∅) vs).
Proof.
  intros Hall. destruct (update_all_spec n vs NewColumnStatistics []) as (s & Hs & [Hmin Hmax] & Hn); [done| |].
  { unfold stats_of, min_bound, max_bound, min_of, max_of. cbn [foldl]. by rewrite !Z.eqb_refl. }
  exists s. cbn [app] in *. split; [done|]. split_and!.
  - intros c Hc. unfold min_bound in Hmin. destruct (min_of_spec n (vs ≫= row_nums)) as (Hle & _ & Hin).
    destruct (Z.eqb_spec (min_of n (vs ≫= row_nums)) (int_max n)); cbn in Hmin; [congruence|].
    rewrite Hmin in Hc. injection Hc as <-. eexists. split; [done|]. split; [by destruct Hin|done].
  - intros c Hc. unfold max_bound in Hmax. destruct (max_of_spec n (vs ≫= row_nums)) as (Hle & _ & Hin).
    destruct (Z.eqb_spec (max_of n (vs ≫= row_nums)) (int_min n)); cbn in Hmax; [congruence|].
    rewrite Hmax in Hc. injection Hc as <-. eexists. split; [done|]. split; [by destruct Hin|done].
  - rewrite Hn. cbn [cs_can_have_null NewColumnStatistics orb]. intros He. apply Forall_forall. intros v Hv.
    destruct (decide (v_null v = ∅)) as [|Hne]; [done|].
    assert (existsb Vector_HasNull vs = true) as Ht; [|congruence]. apply existsb_exists. exists v.
    split; [by apply list_elem_of_In|]. unfold Vector_HasNull. by rewrite bool_decide_eq_false_2.
Qed.

#[local] Instance example_text : FloatText :=
  {| float_to_string := fun _ => EmptyString; double_to_string := fun _ => EmptyString; stod := fun _ => None |}.

Lemma example_vector zs :
  forallb (in_signed 4) (row_nums (VectorExample.ints zs)) = true → operand_okb (VectorExample.ints zs) = true →
  int_vector 4 (VectorExample.ints zs).
Proof.
  intros Hz Hok. split; [by apply operand_okb_ok|]. split; [done|]. apply Forall_forall. intros z Hin.
  rewrite forallb_forall in Hz. by apply Hz, list_elem_of_In.
Qed.

Lemma column_statistics_sound_witness :
  ∃ s, update_all NewColumnStatistics [VectorExample.ints [Some 4; None; Some (-2)]; VectorExample.ints [Some 9]] = Ok s ∧
    cs_can_have_null s = true.
Proof.
  destruct (column_statistics_sound 4 [VectorExample.ints [Some 4; None; Some (-2)]; VectorExample.ints [Some 9]])
    as (s & Hs & _).
  { apply Forall_cons_2; [|apply Forall_cons_2; [|constructor]]; apply example_vector; vm_compute; reflexivity. }
  exists s. split; [exact Hs|]. vm_compute in Hs. injection Hs as <-. reflexivity.
Defined.
