(* ===== verification/Recovery.v ===== *)
(** * Crash recovery

    The writing half of a commit and the replay of the log, put together
    ([src/src/storage/write_ahead_log.cpp]): what is left of a log after a
    crash replays to the transactions that were completely written. *)

From Stdlib Require Import ZArith Lia.
From stdpp Require Import base gmap list strings option numbers sorting relations.
From S2P Require Import Prelude Types Vector Serializer ChunkSerializer WriteAheadLog.

(** ** Replaying one entry *)

Section recovery.
Context {E Q : Type} `{!Codec E, !Codec Q} {DB : Type}.
Context (BeginTransaction Commit Rollback : DB -> result DB).
Context (apply_entry : wal_entry E Q -> DB -> result (bool * DB)).

(** [ReplayEntry]: the payload is read as the type byte says, and its effect
    is run. *)
Definition ReplayEntry (db : DB) (r : record) : result (bool * DB) :=
  match fst (read_entry (E:=E) (Q:=Q) r.1 r.2) with
  | Ok (Some e) => apply_entry e db
  | Ok None => Ok (false, db)
  | Throw x => Throw x
  | Undef => Undef
  end.

(** What committing the transactions [txs] appends to the file: the entries of
    each, then a flush marker. *)
Fixpoint log_commits (file : list byte) (txs : list (list (wal_entry E Q))) : result (list byte) :=
  match txs with
  | [] => Ok file
  | es :: txs' => file ← log_entries file es; log_commits (Flush file) txs'
  end.

(** What replaying should do: run the entries of the transactions, each
    transaction as one. *)
Fixpoint apply_entries (es : list (wal_entry E Q)) (db : DB) : result (bool * DB) :=
  match es with
  | [] => Ok (true, db)
  | e :: es' =>
    '(ok, db) ← apply_entry e db;
    if ok : bool then apply_entries es' db else Ok (false, db)
  end.
Fixpoint apply_commits (txs : list (list (wal_entry E Q))) (db : DB) : result DB :=
  match txs with
  | [] => Ok db
  | es :: txs' =>
    db ← BeginTransaction db;
    '(ok, db) ← apply_entries es db;
    if ok : bool then db ← Commit db; apply_commits txs' db else Rollback db
  end.

Context `{!CodecLaws E, !CodecLaws Q}.

(** An entry whose payload fits the 32-bit size of the format. *)
Definition loggable (e : wal_entry E Q) : Prop :=
  wal_entry_ok e ∧ ∀ s, write_payload NewSerializer e = Ok s → (Z.of_nat (length (blob s)) < 2 ^ 32)%Z.

(** A record that reads back as the entry. *)
Definition carries (r : record) (e : wal_entry E Q) : Prop :=
  ∃ e', fst (read_entry r.1 r.2) = Ok (Some e') ∧ same_entry e e'.

Lemma entry_records_carry es :
  Forall loggable es →
  ∃ rs, entry_records es = Ok rs ∧ Forall record_ok rs ∧ Forall2 carries rs (filter (fun e => is_logged e = true) es).
Proof using CodecLaws0 CodecLaws1.
  intros Hok. induction Hok as [|e es [He Hsize] _ IH]; [by exists []|].
  destruct IH as (rs & Hrs & Hall & Hc). cbn [entry_records]. rewrite Hrs. run.
  destruct (is_logged e) eqn:Hl; [|exists rs; by rewrite filter_cons_False by congruence].
  rewrite filter_cons_True by done.
  destruct (entry_roundtrip e He) as (bs & Hlen & Hw & Hr).
  destruct (Hw _ NewSerializer_ok) as (s & Hs & Hwr & _). rewrite Hs. run.
  pose proof (Hsize s Hs) as Hn. simpl in Hwr. rewrite Hwr in Hn |- *.
  eexists. split; [done|]. split; constructor; try done.
  - split; [|split; simpl; lia]. by destruct e; vm_compute.
  - destruct (Hr []) as (o & Ho & e' & -> & Hsame). rewrite app_nil_r in Ho. exists e'. simpl.
    by rewrite Ho.
Qed.

Lemma commit_records_carry txs :
  Forall (Forall loggable) txs →
  ∃ rss, Forall2 (fun es rs => entry_records es = Ok rs) txs rss ∧ Forall (Forall record_ok) rss ∧
    Forall2 (Forall2 carries) rss (filter (fun e => is_logged e = true) <$> txs).
Proof using CodecLaws0 CodecLaws1.
  intros Hok. induction Hok as [|es txs He _ (rss & H1 & H2 & H3)]; [by exists []|].
  destruct (entry_records_carry es He) as (rs & ? & ? & ?). exists (rs :: rss). csimpl. by split_and!; constructor.
Qed.

Lemma log_commits_bytes txs rss file :
  Forall2 (fun es rs => entry_records es = Ok rs) txs rss →
  log_commits file txs = Ok (file ++ log_bytes rss).
Proof.
  intros Hrs. revert file. induction Hrs as [|es rs txs rss Hr _ IH]; intros file.
  { unfold log_bytes. simpl. by rewrite app_nil_r. }
  cbn [log_commits]. rewrite (log_entries_records _ file _ Hr). run. rewrite IH.
  unfold log_bytes, tx_bytes, Flush. csimpl. by rewrite <- !app_assoc.
Qed.

Lemma replay_entries_carry rs es :
  Forall2 carries rs es →
  ∃ es', Forall2 same_entry es es' ∧ ∀ db, replay_entries ReplayEntry db rs = apply_entries es' db.
Proof.
  intros Hc. induction Hc as [|r e rs es (e' & He' & Hsame) _ (es' & Hes' & IH)]; [by exists []|].
  exists (e' :: es'). split; [by constructor|]. intros db'. cbn [replay_entries apply_entries].
  assert (ReplayEntry db' r = apply_entry e' db') as -> by (unfold ReplayEntry; by rewrite He').
  destruct (apply_entry e' db') as [[[] db'']|x|]; [|done..].
  run. apply IH.
Qed.

Lemma replay_transactions_carry rss ess :
  Forall2 (Forall2 carries) rss ess →
  ∃ ess', Forall2 (Forall2 same_entry) ess ess' ∧
    ∀ db, replay_transactions BeginTransaction Commit Rollback ReplayEntry db rss = apply_commits ess' db.
Proof.
  intros Hc. induction Hc as [|rs es rss ess Hr _ (ess' & Hess' & IH)]; [by exists []|].
  destruct (replay_entries_carry rs es Hr) as (es' & Hes' & Hrep).
  exists (es' :: ess'). split; [by constructor|]. intros db. cbn [replay_transactions apply_commits].
  destruct (BeginTransaction db) as [db0|x|]; [|done..]. run. rewrite Hrep.
  destruct (apply_entries es' db0) as [[[] db1]|x|]; [|done..]. run.
  destruct (Commit db1); [|done..]. run. apply IH.
Qed.

(** The transactions complete in the first [n] bytes of a log. *)
Definition survivors (txs : list (list (wal_entry E Q))) (n : nat) : result nat :=
  rss ← mapM entry_records txs; mret (complete rss n).

(** What a log of transactions holds after a crash at any point of writing it:
    the replayed state is the one of the complete transactions. *)
Lemma crash_spec txs file all fuel db :
  Forall (Forall loggable) txs → log_commits [] txs = Ok all → file `prefix_of` all → length file < fuel →
  ∃ n ess, survivors txs (length file) = Ok n ∧
    Forall2 (Forall2 same_entry) (filter (fun e => is_logged e = true) <$> take n txs) ess ∧
    Replay BeginTransaction Commit Rollback ReplayEntry fuel db [] file = apply_commits ess db.
Proof using All.
  intros Hok Hall Hp Hf.
  destruct (commit_records_carry txs Hok) as (rss & Hrss & Hrec & Hc).
  rewrite (log_commits_bytes _ _ [] Hrss) in Hall. injection Hall as <-.
  rewrite (Replay_prefix BeginTransaction Commit Rollback ReplayEntry rss file fuel db Hrec Hp Hf).
  destruct (replay_transactions_carry (take (complete rss (length file)) rss)
    (filter (fun e => is_logged e = true) <$> take (complete rss (length file)) txs)) as (ess & Hess & Hrep).
  { rewrite fmap_take. by apply Forall2_take. }
  exists (complete rss (length file)), ess. split; [|by rewrite Hrep].
  unfold survivors. assert (mapM entry_records txs = Ok rss) as -> by (by apply mapM_Ok). done.
Qed.
End recovery.

(** ** Recovery *)

(** C5. Crash safety of the log: cut it off after any number of bytes, and
    replaying what is left has exactly the effect of the transactions whose
    flush marker is still complete, in order, each as one transaction and with
    the rows it inserted; replaying always ends. *)
Theorem crash_recovery {E Q} `{!Codec E, !Codec Q, !CodecLaws E, !CodecLaws Q} {DB}
    (BeginTransaction Commit Rollback : DB → result DB) (apply_entry : wal_entry E Q → DB → result (bool * DB))
    txs file all fuel db :
  Forall (Forall loggable) txs → log_commits [] txs = Ok all → file `prefix_of` all → length file < fuel →
  ∃ n ess, survivors txs (length file) = Ok n ∧
    Forall2 (Forall2 same_entry) (filter (fun e => is_logged e = true) <$> take n txs) ess ∧
    Replay BeginTransaction Commit Rollback (ReplayEntry apply_entry) fuel db [] file =
    apply_commits BeginTransaction Commit Rollback apply_entry ess db.
Proof. intros. by apply (crash_spec _ _ _ _ txs file all). Qed.

(** C35. Every kind of log entry reads back from its payload: the same entry,
    for an insert the same rows; nothing after the payload is consumed. *)
Theorem wal_entry_roundtrip {E Q} `{!Codec E, !Codec Q, !CodecLaws E, !CodecLaws Q} (e : wal_entry E Q) s :
  wal_entry_ok e → ser_ok s →
  ∃ s' bs, write_payload s e = Ok s' ∧ blob s' = blob s ++ bs ∧
    ∀ rest, ∃ e', read_entry (wal_type e) (bs ++ rest) = (Ok (Some e'), rest) ∧ same_entry e e'.
Proof.
  intros He Hs. destruct (entry_roundtrip e He) as (bs & _ & Hw & Hr).
  destruct (Hw s Hs) as (s' & Hs' & Hblob & _). exists s', bs. split; [done|]. split; [done|].
  intros rest. destruct (Hr rest) as (o & Ho & e' & -> & Hsame). eauto.
Qed.


Module RecoveryExample.
#[local] Instance unit_codec : Codec unit := {| serialize := fun s _ => Ok s; deserialize := mret tt; codec_ok := fun _ => True |}.
#[local] Instance unit_codec_laws : CodecLaws unit.
Proof. intros [] _. apply roundtrips_ret. Qed.

Definition txs : list (list (wal_entry unit unit)) :=
  [[WCreateSchema "s"; WDropView "s" "v"]; [WDropSchema "s"]].
Definition journal := list (wal_entry unit unit).
Definition apply (e : wal_entry unit unit) (db : journal) : result (bool * journal) := Ok (true, db ++ [e]).
Definition bytes : list byte := match log_commits [] txs with Ok bs => bs | _ => [] end.

Definition fits (e : wal_entry unit unit) : bool :=
  match write_payload NewSerializer e with
  | Ok s => (Z.of_nat (length (blob s)) <? 2 ^ 32)%Z
  | _ => true
  end.

Lemma fits_size e s : fits e = true → write_payload NewSerializer e = Ok s → (Z.of_nat (length (blob s)) < 2 ^ 32)%Z.
Proof. unfold fits. intros Hf Hs. rewrite Hs in Hf. by apply Z.ltb_lt. Qed.

Lemma txs_loggable : Forall (Forall loggable) txs.
Proof.
  unfold txs. rewrite !Forall_cons, !Forall_nil. unfold loggable, wal_entry_ok, string_ok.
  split_and!; try (apply Z.ltb_lt; vm_compute; reflexivity); try exact I; intros s; apply fits_size; vm_compute; reflexivity.
Qed.

Definition rows : DataChunk :=
  mkDataChunk [mkVector T_INTEGER 2 {[0 := Num 4 7; 1 := Num 4 0]} None {[1]}] None.

Lemma rows_writable : writable_chunk rows.
Proof.
  split; [|split; [by vm_compute; lia|by vm_compute]]. constructor; [|constructor].
  split; [|done]. split; [|split; [done|split; [|done]]].
  - split; [by eexists|]. intros k Hk Hnull. cbn [v_count] in Hk.
    destruct k as [|[|k]]; [|exfalso; apply Hnull; vm_compute; reflexivity|lia].
    exists (Num 4 7). by vm_compute.
  - intros k x Hk Hx. cbn [v_count] in Hk. destruct k as [|[|k]]; [| |lia]; vm_compute in Hx; injection Hx as <-.
    + split; [lia|vm_compute; split; congruence].
    + split; [lia|vm_compute; split; congruence].
Qed.

Lemma crash_recovery_witness :
  ∃ n ess, survivors txs 30 = Ok n ∧
    Forall2 (Forall2 same_entry) (filter (fun e => is_logged e = true) <$> take n txs) ess ∧
    Replay Ok Ok Ok (ReplayEntry apply) 31 [] [] (take 30 bytes) = apply_commits Ok Ok Ok apply ess [].
Proof.
  apply (crash_recovery Ok Ok Ok apply txs (take 30 bytes) bytes 31 []).
  - exact txs_loggable.
  - by vm_compute.
  - apply prefix_take.
  - vm_compute. lia.
Defined.

Lemma wal_entry_roundtrip_witness :
  ∃ s' bs, write_payload NewSerializer (WInsert "s" "t" rows : wal_entry unit unit) = Ok s' ∧
    blob s' = blob NewSerializer ++ bs ∧
    ∀ rest, ∃ e', read_entry 7 (bs ++ rest) = (Ok (Some e'), rest) ∧
      same_entry (WInsert "s" "t" rows : wal_entry unit unit) e'.
Proof.
  apply (wal_entry_roundtrip (WInsert "s" "t" rows : wal_entry unit unit) NewSerializer);
    [|exact NewSerializer_ok].
  split; [by vm_compute|]. split; [by vm_compute|]. split; [done|]. exact rows_writable.
Defined.

End RecoveryExample.
