(* ===== verification/Expressions.v ===== *)
(** * Expressions and their execution

    Models the bound expressions of [src/src/include/planner/expression/] and
    the expression executor of [src/src/execution/expression_executor.cpp] and
    [src/src/execution/expression_executor/]: an expression is evaluated over
    a chunk, one vector per node. *)

From Stdlib Require Import ZArith Lia.
From stdpp Require Import base gmap list strings option numbers sorting relations.
From S2P Require Import Prelude Types Vector Serializer Operators VectorOps Like Casts Value.

(** ** Expressions *)

Inductive ExpressionType : Type :=
| ET_INVALID
| OPERATOR_ADD | OPERATOR_SUBTRACT | OPERATOR_MULTIPLY | OPERATOR_DIVIDE | OPERATOR_CONCAT | OPERATOR_MOD
| OPERATOR_CAST | OPERATOR_NOT | OPERATOR_IS_NULL | OPERATOR_IS_NOT_NULL
| COMPARE_EQUAL | COMPARE_NOTEQUAL | COMPARE_LESSTHAN | COMPARE_GREATERTHAN
| COMPARE_LESSTHANOREQUALTO | COMPARE_GREATERTHANOREQUALTO | COMPARE_LIKE | COMPARE_NOTLIKE
| COMPARE_IN | COMPARE_NOT_IN | COMPARE_DISTINCT_FROM | COMPARE_BETWEEN | COMPARE_NOT_BETWEEN
| CONJUNCTION_AND | CONJUNCTION_OR
| VALUE_CONSTANT | VALUE_PARAMETER | VALUE_TUPLE | VALUE_TUPLE_ADDRESS | VALUE_NULL | VALUE_VECTOR
| VALUE_SCALAR | VALUE_DEFAULT
| AGGREGATE_COUNT | AGGREGATE_COUNT_STAR | AGGREGATE_COUNT_DISTINCT | AGGREGATE_SUM | AGGREGATE_SUM_DISTINCT
| AGGREGATE_MIN | AGGREGATE_MAX | AGGREGATE_AVG | AGGREGATE_FIRST | AGGREGATE_STDDEV_SAMP
| WINDOW_SUM | WINDOW_COUNT_STAR | WINDOW_MIN | WINDOW_MAX | WINDOW_AVG | WINDOW_RANK | WINDOW_RANK_DENSE
| WINDOW_NTILE | WINDOW_PERCENT_RANK | WINDOW_CUME_DIST | WINDOW_ROW_NUMBER | WINDOW_FIRST_VALUE
| WINDOW_LAST_VALUE | WINDOW_LEAD | WINDOW_LAG
| ET_FUNCTION | ET_BOUND_FUNCTION | OPERATOR_CASE_EXPR | OPERATOR_NULLIF | OPERATOR_COALESCE
| ET_SUBQUERY | ET_STAR | ET_PLACEHOLDER | ET_COLUMN_REF | ET_FUNCTION_REF | ET_TABLE_REF
| ET_CAST | COMMON_SUBEXPRESSION | BOUND_REF | BOUND_COLUMN_REF.

#[export] Instance ExpressionType_eq_dec : EqDecision ExpressionType.
Proof. solve_decision. Defined.

(** The expressions of [planner/expression/]; [t] is the [return_type] field.
    A bound function is identified by a number, a common subexpression by the
    address of its child.  Aggregates, windows and subqueries occur in plans
    but are computed by operators: only their children are kept, and of a
    window the number of what is not an expression. *)
#[warnings="-register-all"]
Inductive Expression : Type :=
| BoundReference (t : TypeId) (index : nat)
| BoundColumnRef (t : TypeId) (table_index column_index depth : nat)
| BoundConstant (v : Value)
| BoundParameter (t : TypeId) (parameter_nr : nat) (value : option Value)
| BoundDefault (t : TypeId)
| BoundCase (t : TypeId) (check result_if_true result_if_false : Expression)
| BoundCast (t : TypeId) (child : Expression) (source_type target_type : SQLType)
| BoundComparison (type : ExpressionType) (left right : Expression)
| BoundConjunction (type : ExpressionType) (left right : Expression)
| BoundOperator (type : ExpressionType) (t : TypeId) (children : list Expression)
| BoundFunction (t : TypeId) (function : nat) (children : list Expression)
| BoundAggregate (type : ExpressionType) (t : TypeId) (children : list Expression)
| BoundWindow (type : ExpressionType) (t : TypeId) (frame : nat) (children : list Expression)
| BoundSubquery (t : TypeId) (children : list Expression)
| CommonSubExpression (t : TypeId) (child_id : nat) (owned : bool) (child : Expression).

Definition return_type (e : Expression) : TypeId :=
  match e with
  | BoundReference t _ | BoundColumnRef t _ _ _ | BoundParameter t _ _ | BoundDefault t | BoundCase t _ _ _
  | BoundCast t _ _ _ | BoundOperator _ t _ | BoundFunction t _ _ | BoundAggregate _ t _ | BoundWindow _ t _ _
  | BoundSubquery t _ | CommonSubExpression t _ _ _ => t
  | BoundConstant v => val_type v
  | BoundComparison _ _ _ | BoundConjunction _ _ _ => T_BOOLEAN
  end.

(** The [type] field. *)
Definition expression_type (e : Expression) : ExpressionType :=
  match e with
  | BoundReference _ _ => BOUND_REF
  | BoundColumnRef _ _ _ _ => BOUND_COLUMN_REF
  | BoundConstant _ => VALUE_CONSTANT
  | BoundParameter _ _ _ => VALUE_PARAMETER
  | BoundDefault _ => VALUE_DEFAULT
  | BoundCase _ _ _ _ => OPERATOR_CASE_EXPR
  | BoundCast _ _ _ _ => OPERATOR_CAST
  | BoundComparison type _ _ | BoundConjunction type _ _ | BoundOperator type _ _
  | BoundAggregate type _ _ | BoundWindow type _ _ _ => type
  | BoundFunction _ _ _ => ET_BOUND_FUNCTION
  | BoundSubquery _ _ => ET_SUBQUERY
  | CommonSubExpression _ _ _ _ => COMMON_SUBEXPRESSION
  end.

(** [ExpressionIterator::EnumerateChildren] *)
Definition EnumerateChildren (e : Expression) : list Expression :=
  match e with
  | BoundReference _ _ | BoundColumnRef _ _ _ _ | BoundConstant _ | BoundParameter _ _ _ | BoundDefault _ => []
  | BoundCase _ a b c => [a; b; c]
  | BoundCast _ a _ _ => [a]
  | CommonSubExpression _ _ owned a => if owned then [a] else []
  | BoundComparison _ a b | BoundConjunction _ a b => [a; b]
  | BoundOperator _ _ l | BoundFunction _ _ l | BoundAggregate _ _ l | BoundWindow _ _ _ l | BoundSubquery _ l => l
  end.

(** The same with a callback that replaces the children. *)
Definition with_children (e : Expression) (cs : list Expression) : Expression :=
  match e, cs with
  | BoundCase t _ _ _, [a; b; c] => BoundCase t a b c
  | BoundCast t _ source_type target_type, [a] => BoundCast t a source_type target_type
  | CommonSubExpression t id owned _, [a] => CommonSubExpression t id owned a
  | BoundComparison type _ _, [a; b] => BoundComparison type a b
  | BoundConjunction type _ _, [a; b] => BoundConjunction type a b
  | BoundOperator type t _, l => BoundOperator type t l
  | BoundFunction t f _, l => BoundFunction t f l
  | BoundAggregate type t _, l => BoundAggregate type t l
  | BoundWindow type t frame _, l => BoundWindow type t frame l
  | BoundSubquery t _, l => BoundSubquery t l
  | _, _ => e
  end.

(** The children, those of other owners included. *)
Definition children_of (e : Expression) : list Expression :=
  match e with CommonSubExpression _ _ _ a => [a] | _ => EnumerateChildren e end.

(** Induction with a hypothesis for every child. *)
Lemma Expression_ind_children (P : Expression → Prop) :
  (∀ e, Forall P (children_of e) → P e) → ∀ e, P e.
Proof.
  intros HP. fix IH 1. intros e. apply HP.
  assert (∀ l, Forall P l) as Hl by (fix IHl 1; intros [|x l]; constructor; [apply IH|apply IHl]).
  destruct e; simpl; repeat constructor; try apply IH; apply Hl.
Qed.

(** [IsScalar], [IsAggregate], [IsWindow], [HasParameter] *)
Fixpoint IsScalar (e : Expression) : bool :=
  match e with
  | BoundReference _ _ | BoundColumnRef _ _ _ _ | BoundDefault _ | BoundSubquery _ _ | CommonSubExpression _ _ _ _ => false
  | BoundConstant _ | BoundParameter _ _ _ => true
  | BoundCase _ a b c => IsScalar a && IsScalar b && IsScalar c
  | BoundCast _ a _ _ => IsScalar a
  | BoundComparison _ a b | BoundConjunction _ a b => IsScalar a && IsScalar b
  | BoundOperator _ _ l | BoundFunction _ _ l | BoundAggregate _ _ l | BoundWindow _ _ _ l => forallb IsScalar l
  end.

Fixpoint has_node (p : Expression → bool) (e : Expression) : bool :=
  p e ||
  match e with
  | BoundReference _ _ | BoundColumnRef _ _ _ _ | BoundConstant _ | BoundParameter _ _ _ | BoundDefault _ => false
  | BoundCase _ a b c => has_node p a || has_node p b || has_node p c
  | BoundCast _ a _ _ => has_node p a
  | CommonSubExpression _ _ owned a => owned && has_node p a
  | BoundComparison _ a b | BoundConjunction _ a b => has_node p a || has_node p b
  | BoundOperator _ _ l | BoundFunction _ _ l | BoundAggregate _ _ l | BoundWindow _ _ _ l | BoundSubquery _ l =>
    existsb (has_node p) l
  end.

Definition IsAggregate : Expression → bool := has_node (fun e => match e with BoundAggregate _ _ _ => true | _ => false end).
Definition IsWindow : Expression → bool := has_node (fun e => match e with BoundWindow _ _ _ _ => true | _ => false end).
Definition HasParameter : Expression → bool := has_node (fun e => match e with BoundParameter _ _ _ => true | _ => false end).
Definition IsFoldable (e : Expression) : bool := IsScalar e && negb (IsAggregate e) && negb (IsWindow e) && negb (HasParameter e).

(** ** The executor *)

(** [Vector::Reference(Value&)]; the string of a NULL is empty. *)
Definition reference_data (v : Value) : gmap nat cell :=
  match val_data v with
  | Some x => {[0 := x]}
  | None => match val_type v with T_VARCHAR => {[0 := Str (Some EmptyString)]} | _ => ∅ end
  end.

Definition Vector_Reference (v : Value) : result Vector :=
  match val_type v with
  | T_INVALID | T_VARBINARY => Throw NotImplementedException
  | t => Ok (mkVector t 1 (reference_data v) None (match val_data v with Some _ => ∅ | None => {[0]} end))
  end.

(** [Vector::GetValue] *)
Definition GetValue (v : Vector) (index : nat) : result Value :=
  if v_count v <=? index then Throw OutOfRangeException
  else if ValueIsNull v index then Ok (null_of (v_type v))
  else
    x ← deref (v_data v !! sel_at (v_sel v) index);
    match v_type v, x with
    | (T_INVALID | T_VARBINARY), _ => Throw NotImplementedException
    | _, Str None => Undef
    | t, x => Ok (some_value t x)
    end.

(** The [i]-th comparison of the switch in [Execute(BoundComparisonExpression)]. *)
Definition comparison_of (type : ExpressionType) : option comparison_op :=
  match type with
  | COMPARE_EQUAL => Some OpEquals
  | COMPARE_NOTEQUAL => Some OpNotEquals
  | COMPARE_LESSTHAN => Some OpLessThan
  | COMPARE_GREATERTHAN => Some OpGreaterThan
  | COMPARE_LESSTHANOREQUALTO => Some OpLessThanEquals
  | COMPARE_GREATERTHANOREQUALTO => Some OpGreaterThanEquals
  | _ => None
  end.

Definition execute_comparison (type : ExpressionType) (left right : Vector) : result Vector :=
  let result_ := EmptyVector T_BOOLEAN in
  match comparison_of type with
  | Some op => templated_boolean_operation op left right result_
  | None =>
    match type with
    | COMPARE_LIKE => Vector_Like false left right result_
    | COMPARE_NOTLIKE => Vector_Like true left right result_
    | _ => Throw NotImplementedException
    end
  end.

Definition execute_conjunction (type : ExpressionType) (left right : Vector) : result Vector :=
  match type with
  | CONJUNCTION_AND => Vector_And left right (EmptyVector T_BOOLEAN)
  | CONJUNCTION_OR => Vector_Or left right (EmptyVector T_BOOLEAN)
  | _ => Throw NotImplementedException
  end.

(** [Execute(BoundOperatorExpression)] with one and with two children. *)
Definition execute_unary (type : ExpressionType) (child : Vector) : result Vector :=
  match type with
  | OPERATOR_NOT => Vector_Not child (EmptyVector T_BOOLEAN)
  | OPERATOR_IS_NULL => is_null_loop false child (EmptyVector T_BOOLEAN)
  | OPERATOR_IS_NOT_NULL => is_null_loop true child (EmptyVector T_BOOLEAN)
  | _ => Throw NotImplementedException
  end.

Definition execute_binary (type : ExpressionType) (left right : Vector) : result Vector :=
  let result_ := EmptyVector (v_type left) in
  match type with
  | OPERATOR_ADD => Vector_arithmetic OpAdd left right result_
  | OPERATOR_SUBTRACT => Vector_arithmetic OpSubtract left right result_
  | OPERATOR_MULTIPLY => Vector_arithmetic OpMultiply left right result_
  | OPERATOR_DIVIDE => Vector_Divide left right result_
  | OPERATOR_MOD => Vector_Modulo left right result_
  | _ => Throw NotImplementedException
  end.

Definition is_in (type : ExpressionType) : bool :=
  match type with COMPARE_IN | COMPARE_NOT_IN => true | _ => false end.

Section executor.
Context `{!FloatText}.

(** The scalar functions of the catalog. *)
Context (function_call : nat → list Vector → result Vector).

(** The executor keeps the vectors of common subexpressions that were computed
    before, by the address of the expression. *)
Definition cse_cache : Type := gmap nat Vector.

(** [ExpressionExecutor::Verify] *)
Definition Verify (chunk : option DataChunk) (e : Expression) (v : Vector) : result Vector :=
  _ ← assert_ (match chunk with Some c => IsConstant v || bool_decide (v_sel v = dc_sel c) | None => true end);
  _ ← assert_ (bool_decide (return_type e = v_type v));
  Ok v.

Definition execute_cast (t : TypeId) (source_type target_type : SQLType) (child : Vector) : result Vector :=
  if bool_decide (v_type child = t) then Ok child
  else Vector_Cast child (EmptyVector t) source_type target_type.

(** [Execute(Expression&, Vector&)] *)
Fixpoint Execute (chunk : option DataChunk) (e : Expression) : M cse_cache Vector :=
  v ← match e with
      | BoundReference _ index =>
        lift_M (c ← deref chunk; deref (dc_data c !! index))
      | BoundCase _ check a b =>
        check ← Execute chunk check;
        a ← Execute chunk a;
        b ← Execute chunk b;
        lift_M (Vector_Case check a b (EmptyVector (v_type a)))
      | BoundCast t child source_type target_type =>
        child ← Execute chunk child;
        lift_M (execute_cast t source_type target_type child)
      | CommonSubExpression _ id _ child =>
        s ← get_M;
        match s !! id with
        | Some v => mret v
        | None => v ← Execute chunk child; _ ← modify_M (<[id := v]>); mret v
        end
      | BoundComparison type l r =>
        lv ← Execute chunk l;
        rv ← Execute chunk r;
        lift_M (execute_comparison type lv rv)
      | BoundConjunction type l r =>
        lv ← Execute chunk l;
        rv ← Execute chunk r;
        lift_M (execute_conjunction type lv rv)
      | BoundConstant v => lift_M (Vector_Reference v)
      | BoundFunction t f children =>
        arguments ← (fix execute_all (l : list Expression) : M cse_cache (list Vector) :=
          match l with
          | [] => mret []
          | c :: l' => v ← Execute chunk c; vs ← execute_all l'; mret (v :: vs)
          end) children;
        v ← lift_M (function_call f arguments);
        if bool_decide (v_type v = t) then mret v else throw_M TypeMismatchException
      | BoundOperator type _ children =>
        if is_in type then
          match children with
          | l :: first :: rest =>
            lv ← Execute chunk l;
            first ← Execute chunk first;
            found ← lift_M (execute_comparison COMPARE_EQUAL lv first);
            found ← (fix execute_in (found : Vector) (l : list Expression) : M cse_cache Vector :=
              match l with
              | [] => mret found
              | c :: l' =>
                v ← Execute chunk c;
                comp_res ← lift_M (execute_comparison COMPARE_EQUAL lv v);
                found ← lift_M (Vector_Or found comp_res (EmptyVector T_BOOLEAN));
                execute_in found l'
              end) found rest;
            match type with
            | COMPARE_NOT_IN => lift_M (Vector_Not found (EmptyVector T_BOOLEAN))
            | _ => mret found
            end
          | _ => throw_M GenericException
          end
        else
          match children with
          | [child] => child ← Execute chunk child; lift_M (execute_unary type child)
          | [l; r] =>
            lv ← Execute chunk l;
            rv ← Execute chunk r;
            lift_M (execute_binary type lv rv)
          | _ => throw_M NotImplementedException
          end
      | BoundParameter t _ value =>
        lift_M (v ← deref value; _ ← assert_ (bool_decide (val_type v = t)); Vector_Reference v)
      | BoundColumnRef _ _ _ _ | BoundDefault _ | BoundAggregate _ _ _ | BoundWindow _ _ _ _ | BoundSubquery _ _ =>
        lift_M Undef
      end;
  lift_M (Verify chunk e v).

(** [VectorOperations::Set] *)
Definition Vector_Set (result_ : Vector) (value : Value) : result Vector :=
  value ← (if bool_decide (val_type value = v_type result_) then Ok value else CastAs value (v_type result_));
  match val_data value with
  | None => Ok (mkVector (v_type result_) (v_count result_) (v_data result_) (v_sel result_) all_nulls)
  | Some x =>
    match v_type result_ with
    | T_INVALID | T_VARBINARY => Throw NotImplementedException
    | _ =>
      data ← write_rows (fun _ => Ok (Some x)) (exec_indexes (v_sel result_) (v_count result_) 0) (v_data result_);
      Ok (mkVector (v_type result_) (v_count result_) data (v_sel result_) ∅)
    end
  end.

(** [ExecuteExpression]; [t] is the type of the result vector. *)
Definition ExecuteExpression (chunk : option DataChunk) (e : Expression) (t : TypeId) : M cse_cache Vector :=
  v ← Execute chunk e;
  v ← match chunk with
      | None => mret v
      | Some c =>
        v ← (if (v_count v =? 1) && ((1 <? chunk_size c) || negb (bool_decide (v_sel v = dc_sel c))) then
               value ← lift_M (GetValue v 0);
               lift_M (Vector_Set (mkVector t (chunk_size c) ∅ (dc_sel c) ∅) value)
             else if negb (v_count v =? chunk_size c) then throw_M GenericException
             else mret v);
        _ ← lift_M (assert_ (bool_decide (v_sel v = dc_sel c)));
        mret v
      end;
  _ ← lift_M (assert_ (bool_decide (v_type v = t)));
  mret v.

(** [ExpressionExecutor::EvaluateScalar] *)
Definition EvaluateScalar (e : Expression) : result Value :=
  _ ← assert_ (IsScalar e);
  v ← fst (ExecuteExpression None e (return_type e) ∅);
  _ ← assert_ (v_count v =? 1);
  GetValue v 0.

(** [Execute(expressions, result)]: the columns of a projection. *)
Fixpoint Execute_list (chunk : option DataChunk) (es : list Expression) (ts : list TypeId) : M cse_cache (list Vector) :=
  match es, ts with
  | [], [] => mret []
  | e :: es', t :: ts' =>
    v ← ExecuteExpression chunk e t;
    vs ← Execute_list chunk es' ts';
    mret (v :: vs)
  | _, _ => lift_M Undef
  end.

Definition Execute_chunk (chunk : option DataChunk) (es : list Expression) (ts : list TypeId) : M cse_cache DataChunk :=
  data ← Execute_list chunk es ts;
  v ← lift_M (deref (head data));
  mret (mkDataChunk data (v_sel v)).

(** [Merge]: the conjunction of the predicates of a filter. *)
Fixpoint Merge_rest (chunk : option DataChunk) (es : list Expression) (v : Vector) : M cse_cache Vector :=
  match es with
  | [] => mret v
  | e :: es' =>
    intermediate ← Execute chunk e;
    _ ← lift_M (assert_ (bool_decide (v_type v = T_BOOLEAN)));
    _ ← lift_M (assert_ (bool_decide (v_type intermediate = T_BOOLEAN)));
    v ← lift_M (Vector_And v intermediate (EmptyVector T_BOOLEAN));
    Merge_rest chunk es' v
  end.

Definition Merge (chunk : option DataChunk) (es : list Expression) : M cse_cache Vector :=
  match es with
  | [] => lift_M Undef
  | e :: es' => v ← ExecuteExpression chunk e T_BOOLEAN; Merge_rest chunk es' v
  end.
End executor.
