(* ===== verification/ExpressionRows.v ===== *)
(** * The meaning of expressions, row by row

    A reference semantics of bound expressions on one row, the types of
    expressions, and the proof that a well-typed expression gives a value of
    its type. *)

From Stdlib Require Import ZArith Lia.
From stdpp Require Import base gmap list strings option numbers sorting relations.
From S2P Require Import Prelude Types Vector Serializer StringStream DateTime Operators VectorOps Like Casts Value Expressions.

Local Open Scope Z_scope.

(** ** Well-formed cells *)

(** A cell of the type, an integer or boolean in the range of the type. *)
Definition cell_ok (t : TypeId) (x : cell) : bool :=
  cell_has_type t x &&
  match t, x with
  | (T_BOOLEAN | T_TINYINT | T_SMALLINT | T_INTEGER | T_BIGINT), Num _ z => in_range t z
  | _, _ => true
  end.

Lemma cell_ok_typed t x : cell_ok t x = true → cell_has_type t x = true.
Proof. unfold cell_ok. by intros [? _]%andb_true_iff. Qed.

Lemma bool_cell_ok b : cell_ok T_BOOLEAN (bool_cell b) = true.
Proof. by destruct b. Qed.

(** The numbers of a signed type. *)
Lemma wrap_signed_range n z : (0 < n)%nat → in_signed n (wrap_signed n z) = true.
Proof.
  intros Hn. unfold in_signed, wrap_signed, to_signed.
  assert (2 ^ (8 * Z.of_nat n) = 2 * 2 ^ (8 * Z.of_nat n - 1)) as E.
  { rewrite <- Z.pow_succ_r by lia. f_equal. lia. }
  pose proof (Z.mod_pos_bound z (2 ^ (8 * Z.of_nat n)) ltac:(lia)).
  destruct (Z.ltb_spec (z mod 2 ^ (8 * Z.of_nat n)) (2 ^ (8 * Z.of_nat n - 1))); lia.
Qed.

Lemma signed_in_range t n z : signed_width t = Some n → in_signed n z = in_range t z.
Proof.
  destruct t; intros [= <-]; unfold in_signed, in_range, machine_range; eval_width; apply Bool.eq_true_iff_eq; lia.
Qed.

Lemma cell_ok_signed t n z : signed_width t = Some n → cell_ok t (Num n z) = in_signed n z.
Proof.
  intros Hn. rewrite (signed_in_range t n z Hn). unfold cell_ok. destruct t; simplify_eq/=; done.
Qed.

Lemma cell_ok_num t n x : signed_width t = Some n → cell_ok t x = true → ∃ z, x = Num n z ∧ in_signed n z = true.
Proof.
  intros Hn Hx. pose proof (cell_ok_typed _ _ Hx) as Ht. destruct x as [m z|[s|]]; [|by destruct t|by destruct t].
  assert (m = n) as -> by (destruct t; simplify_eq/=; by apply Nat.eqb_eq in Ht).
  exists z. split; [done|]. by rewrite <- (cell_ok_signed t n z Hn).
Qed.

Lemma int_cell_ok t z : match t with T_FLOAT | T_DOUBLE | T_VARCHAR | T_VARBINARY | T_INVALID => False | _ => True end →
  cell_ok t (int_cell t z) = true.
Proof.
  intros Ht. destruct t; try done; unfold int_cell; try apply bool_cell_ok; try done;
    (erewrite cell_ok_signed by reflexivity); apply wrap_signed_range; lia.
Qed.

Lemma date_fits n y m d : date_to_number y m d = Ok n → fits32 n = true.
Proof.
  unfold date_to_number. destruct (DATE d m y) eqn:HD; [|done]. intros [= <-].
  assert (1 ≤ m ≤ 12 ∧ 0 < d ∧ d ≤ MONTHDAYS m y ∧ YEAR_MIN ≤ y ≤ YEAR_MAX ∧ y ≠ 0) as (Hm & Hd & Hd' & Hy & Hy0)
    by (unfold DATE in HD; lia).
  pose proof (MONTHDAYS_31 m y Hm). set (y' := if y <? 0 then y + 1 else y).
  assert (YEAR_MIN ≤ y' ≤ YEAR_MAX) as Hy' by (unfold y', YEAR_MIN, YEAR_MAX in *; destruct (Z.ltb_spec y 0); lia).
  pose proof (year_start_range y' Hy') as Hs. unfold year_start in Hs.
  assert (0 ≤ at_ CUMDAYS (m - 1) ≤ 334) as Hc.
  { assert (m = 1 ∨ m = 2 ∨ m = 3 ∨ m = 4 ∨ m = 5 ∨ m = 6 ∨ m = 7 ∨ m = 8 ∨ m = 9 ∨ m = 10 ∨ m = 11 ∨ m = 12) as Hc by lia.
    repeat (destruct Hc as [->|Hc]; [vm_compute; split; congruence|]). subst m. vm_compute; split; congruence. }
  unfold fits32, int32_min, int32_max in *. destruct ((2 <? m) && leapyear y'); lia.
Qed.

Lemma date_text_fits cs n : Date_FromString cs = Ok n → fits32 n = true.
Proof.
  unfold Date_FromString. destruct (read_fields cs) as [[[[[y s] m] s2] d]|]; [|done].
  destruct (negb (Date_IsValidDay y m d) || negb (s =? s2) || negb (s =? 45)); [done|]. apply date_fits.
Qed.

Lemma time_text_range cs n : Time_FromString cs = Ok n → 0 ≤ n < 2 ^ 32.
Proof.
  unfold Time_FromString. destruct (read_fields cs) as [[[[[y s] m] s2] d]|]; [|done].
  destruct (negb (Time_IsValidTime y m d) || negb (s =? s2) || negb (s =? 58)); [done|].
  unfold Time_FromTime, time_to_number. destruct (TIME y m d 0) eqn:HT; [|done]. intros [= <-].
  unfold TIME in HT. lia.
Qed.

Lemma fits32_signed n : fits32 n = in_signed 4 n.
Proof. unfold fits32, in_signed, int32_min, int32_max. eval_width. apply Bool.eq_true_iff_eq. lia. Qed.

Lemma timestamp_text_fits cs n : Timestamp_FromString cs = Ok n → in_signed 8 n = true.
Proof.
  unfold Timestamp_FromString. intros (d & Hd & Ht)%bind_Ok. apply bind_Ok in Ht as (t & Ht & [= <-]).
  destruct (length cs <? 10)%nat; [done|]. apply time_text_range in Ht. apply date_text_fits in Hd.
  rewrite pack_spec by done. unfold fits32, int32_min, int32_max in Hd. unfold in_signed. eval_width. lia.
Qed.

(** ** Results of the operators *)

Lemma bits_num op t x y z : numeric_value op t x y = Ok z → cell_has_type t z = true.
Proof.
  unfold numeric_value. destruct t, x as [m a|], y as [k b|]; try done; intros Hz;
    apply bind_Ok in Hz as (w & _ & Hw); simplify_eq/=; try done; by destruct (overflows _ _ _ _ _); simplify_eq/=.
Qed.

Lemma not_overflows op n x y z :
  in_signed n x = true → numeric_Z op x y = Ok z → overflows op n x y z = false → in_signed n z = true.
Proof.
  intros Hx Hz Ho. destruct op; simpl in *; try by apply negb_false_iff in Ho.
  destruct (Z.eqb_spec y 0); [done|]. simplify_eq. by apply rem_in_signed.
Qed.

Lemma numeric_value_ok op t x y z : cell_ok t x = true → numeric_value op t x y = Ok z → cell_ok t z = true.
Proof.
  intros Hx Hz. unfold numeric_value in Hz.
  destruct t, x as [m a|], y as [k b|]; try done; apply bind_Ok in Hz as (w & Hw & Hz).
  1,2: simplify_eq/=; (erewrite cell_ok_signed by reflexivity); apply wrap_signed_range; lia.
  1,2: edestruct cell_ok_num as (a' & Heq & Ha); [|exact Hx|]; [reflexivity|]; simplify_eq;
    destruct (overflows _ _ _ _ _) eqn:E; [done|]; simplify_eq; (erewrite cell_ok_signed by reflexivity);
    by eapply not_overflows.
  all: by simplify_eq/=.
Qed.

Lemma Cast_from_string_ok `{!FloatText} t s z :
  t ≠ T_INVALID → t ≠ T_VARBINARY → Cast_from_string t s = Ok z → cell_ok t z = true.
Proof.
  intros Hi Hb. unfold Cast_from_string. destruct t; try done.
  all: repeat case_match; intros; simplify_eq; try done; try apply bool_cell_ok;
    match goal with |- cell_ok ?t _ = true => by apply (int_cell_ok t) end.
Qed.

Lemma Cast_int_ok src dst z c :
  match dst with T_FLOAT | T_DOUBLE | T_VARCHAR | T_VARBINARY | T_INVALID => False | _ => True end →
  Cast_int src dst z = Ok c → cell_ok dst c = true.
Proof.
  intros Hd. assert (∀ r, r = Ok (int_cell dst z) → r = Ok c → cell_ok dst c = true) as Hr.
  { intros r -> [= <-]. by apply int_cell_ok. }
  destruct dst; try done; destruct src; cbn [Cast_int];
    unfold cast_with_overflow_check, cast_from_uint64_overflow_check, cast_to_uint64_overflow_check, in_type_range;
    cbn [MinimumValue MaximumValue mbind result_bind mret result_ret]; repeat case_match; intros Hc; try done; by eapply Hr.
Qed.

Lemma Cast_float_ok src dst f c :
  match dst with T_VARCHAR | T_VARBINARY | T_INVALID => False | _ => True end →
  Cast_float src dst f = Ok c → cell_ok dst c = true.
Proof.
  intros Hd.
  assert (∀ c, truncate_cast dst f = Ok c → match dst with T_FLOAT | T_DOUBLE => False | _ => True end → cell_ok dst c = true) as Ht.
  { unfold truncate_cast. intros c'. destruct (truncate f); [|done]. destruct (in_range dst z); [|done].
    intros [= <-] ?. apply int_cell_ok. by destruct dst. }
  unfold Cast_float, double_overflow_check. destruct dst; try done; intros Hc; simplify_eq; try apply bool_cell_ok; try done.
  all: destruct src; cbn [MinimumValue MaximumValue mbind result_bind] in Hc; try by apply Ht.
  all: match type of Hc with context [if ?b then _ else _] => destruct b end; try done; by apply Ht.
Qed.

Lemma Cast_Operation_ok `{!FloatText} src dst x z :
  dst ≠ T_INVALID → dst ≠ T_VARBINARY → Cast_Operation src dst x = Ok z → cell_ok dst z = true.
Proof.
  intros Hi Hb Hz. destruct x as [n a|[s|]]; [|by eapply Cast_from_string_ok|done]. cbn [Cast_Operation] in Hz.
  destruct dst; try done; destruct src; simplify_eq; try done;
    try (by eapply Cast_int_ok); try (by eapply Cast_float_ok); by unfold Cast_to_string; case_match.
Qed.

Lemma bigint_ok n a : cell_ok T_BIGINT (Num n a) = true → cell_ok T_BIGINT (Num 8 a) = true.
Proof. intros Hx. destruct (cell_ok_num T_BIGINT 8 _ eq_refl Hx) as (z & [= -> ->] & ?). done. Qed.

(** A cast gives a cell of its target type. *)
Lemma convert_ok `{!FloatText} st tt src OP dst convert x z :
  source_cast st = Some (src, OP) → result_cast_switch src OP tt = Some (dst, convert) →
  cell_ok src x = true → convert x = Ok z → cell_ok dst z = true.
Proof.
  intros Hs Ht Hx Hz.
  assert (∀ t, t ≠ T_INVALID → t ≠ T_VARBINARY → OP t x = Ok z → cell_ok t z = true) as HOP.
  { intros t Hi Hb Ho. unfold source_cast in Hs. destruct st; simplify_eq; try by eapply Cast_Operation_ok.
    all: destruct x as [n a|[s|]]; unfold CastFromDate, CastFromTimestamp in Ho; destruct t; try done.
    all: try (apply bind_Ok in Ho as (w & _ & [= <-]); done).
    all: injection Ho as <-; try (by eapply bigint_ok);
      match goal with |- cell_ok ?t _ = true => by apply (int_cell_ok t) end. }
  assert (∀ a, int_cell T_INTEGER a = z → cell_ok T_INTEGER z = true) as Hint.
  { intros a <-. by apply (int_cell_ok T_INTEGER). }
  unfold result_cast_switch in Ht. destruct tt; simplify_eq; try by apply HOP.
  - unfold CastToDate in Hz. destruct src, x as [n a|[s|]]; try done; try (injection Hz as Hz; by eapply Hint).
    apply bind_Ok in Hz as (w & Hw%date_text_fits & [= <-]). rewrite fits32_signed in Hw. by rewrite (cell_ok_signed T_INTEGER 4).
  - unfold CastToTimestamp in Hz. destruct src, x as [n a|[s|]]; try done.
    + injection Hz as <-. by eapply bigint_ok.
    + apply bind_Ok in Hz as (w & Hw%timestamp_text_fits & [= <-]). by rewrite (cell_ok_signed T_BIGINT 8).
Qed.

Local Open Scope nat_scope.
(** ** The semantics of a row *)

(** The columns of the row, by position (after column binding) and by table
    and column index (before). *)
Record row_env : Type := mkRowEnv {
  env_ref : nat → option cell;
  env_col : nat → nat → nat → option cell }.

Definition cell_bool (o : option cell) : option bool :=
  match o with Some (Num _ z) => Some (negb (z =? 0)%Z) | _ => None end.

(** NULL if an operand is NULL. *)
Definition both (f : cell → cell → result (option cell)) (a b : option cell) : result (option cell) :=
  match a, b with Some x, Some y => f x y | _, _ => Ok None end.

Definition eval_comparison (type : ExpressionType) (t : TypeId) : option cell → option cell → result (option cell) :=
  match comparison_of type with
  | Some op => both (fun x y => b ← compare_op op t x y; Ok (Some (bool_cell b)))
  | None =>
    match type with
    | COMPARE_LIKE => both (fun x y => z ← like_cell false x y; Ok (Some z))
    | COMPARE_NOTLIKE => both (fun x y => z ← like_cell true x y; Ok (Some z))
    | _ => fun _ _ => Undef
    end
  end.

Definition eval_conjunction (type : ExpressionType) (a b : option cell) : result (option cell) :=
  match type with
  | CONJUNCTION_AND => Ok (bool_cell <$> sql_and (cell_bool a) (cell_bool b))
  | CONJUNCTION_OR => Ok (bool_cell <$> sql_or (cell_bool a) (cell_bool b))
  | _ => Undef
  end.

Definition eval_unary (type : ExpressionType) (a : option cell) : result (option cell) :=
  match type with
  | OPERATOR_NOT => Ok (bool_cell <$> (negb <$> cell_bool a))
  | OPERATOR_IS_NULL => Ok (Some (bool_cell (bool_decide (a = None))))
  | OPERATOR_IS_NOT_NULL => Ok (Some (bool_cell (negb (bool_decide (a = None)))))
  | _ => Undef
  end.

Definition arithmetic_of (type : ExpressionType) : option numeric_op :=
  match type with
  | OPERATOR_ADD => Some OpAdd
  | OPERATOR_SUBTRACT => Some OpSubtract
  | OPERATOR_MULTIPLY => Some OpMultiply
  | OPERATOR_DIVIDE => Some OpDivide
  | OPERATOR_MOD => Some OpModulo
  | _ => None
  end.

Definition divides (op : numeric_op) : bool := match op with OpDivide | OpModulo => true | _ => false end.

Definition eval_binary (type : ExpressionType) (t : TypeId) : option cell → option cell → result (option cell) :=
  match arithmetic_of type with
  | Some op => both (fun x y => if divides op && is_zero t y then Ok None else z ← numeric_value op t x y; Ok (Some z))
  | None => fun _ _ => Undef
  end.

Section rows.
Context `{!FloatText}.
Context (function_row : nat → list (option cell) → result (option cell)).

Definition eval_cast (from to : TypeId) (source_type target_type : SQLType) (a : option cell) : result (option cell) :=
  if bool_decide (from = to) then Ok a
  else
    match source_cast (sql_id source_type) with
    | None => Undef
    | Some (src, OP) =>
      match result_cast_switch src OP (sql_id target_type) with
      | None => Undef
      | Some (_, convert) =>
        match a with Some x => z ← convert x; Ok (Some z) | None => Ok None end
      end
    end.

(** The value of an expression in a row: all operands are evaluated. *)
Fixpoint eval (env : row_env) (e : Expression) {struct e} : result (option cell) :=
  match e with
  | BoundReference _ index => Ok (env_ref env index)
  | BoundColumnRef _ table_index column_index depth => Ok (env_col env table_index column_index depth)
  | BoundConstant v => Ok (val_data v)
  | BoundParameter _ _ value => v ← deref value; Ok (val_data v)
  | BoundCase _ check a b =>
    c ← eval env check;
    x ← eval env a;
    y ← eval env b;
    Ok (if bool_decide (cell_bool c = Some true) then x else y)
  | BoundCast t child source_type target_type =>
    x ← eval env child;
    eval_cast (return_type child) t source_type target_type x
  | BoundComparison type l r =>
    x ← eval env l;
    y ← eval env r;
    eval_comparison type (return_type l) x y
  | BoundConjunction type l r =>
    x ← eval env l;
    y ← eval env r;
    eval_conjunction type x y
  | BoundOperator type _ children =>
    if is_in type then
      match children with
      | l :: first :: rest =>
        x ← eval env l;
        y ← eval env first;
        found ← eval_comparison COMPARE_EQUAL (return_type l) x y;
        found ← (fix eval_in (es : list Expression) (found : option cell) : result (option cell) :=
          match es with
          | [] => Ok found
          | c :: es' =>
            y ← eval env c;
            comp_res ← eval_comparison COMPARE_EQUAL (return_type l) x y;
            found ← eval_conjunction CONJUNCTION_OR found comp_res;
            eval_in es' found
          end) rest found;
        match type with COMPARE_NOT_IN => eval_unary OPERATOR_NOT found | _ => Ok found end
      | _ => Undef
      end
    else
      match children with
      | [child] => x ← eval env child; eval_unary type x
      | [l; r] => x ← eval env l; y ← eval env r; eval_binary type (return_type l) x y
      | _ => Undef
      end
  | BoundFunction _ f children =>
    arguments ← (fix eval_all (es : list Expression) : result (list (option cell)) :=
      match es with [] => Ok [] | c :: es' => x ← eval env c; xs ← eval_all es'; Ok (x :: xs) end) children;
    function_row f arguments
  | CommonSubExpression _ _ _ child => eval env child
  | BoundDefault _ | BoundAggregate _ _ _ | BoundWindow _ _ _ _ | BoundSubquery _ _ => Undef
  end.

(** ** Well-typed expressions *)

Context (function_type : nat → list TypeId → option TypeId).
Context (ref_type : nat → option TypeId) (col_type : nat → nat → nat → option TypeId).

(** The types vectors can have. *)
Definition proper (t : TypeId) : bool := match t with T_INVALID | T_VARBINARY => false | _ => true end.

Definition value_ok (v : Value) : bool :=
  proper (val_type v) && match val_data v with Some x => cell_ok (val_type v) x | None => true end.

Definition cast_typed (from to : TypeId) (source_type target_type : SQLType) : bool :=
  bool_decide (from = to) ||
  (negb (bool_decide (source_type = target_type)) && negb (bool_decide (sql_id source_type = SQL_SQLNULL)) &&
   match source_cast (sql_id source_type) with
   | Some (src, OP) =>
     bool_decide (src = from) &&
     match result_cast_switch src OP (sql_id target_type) with Some (dst, _) => bool_decide (dst = to) | None => false end
   | None => false
   end).

Definition comparison_typed (type : ExpressionType) (l r : TypeId) : bool :=
  bool_decide (l = r) &&
  match comparison_of type with
  | Some _ => true
  | None => match type with COMPARE_LIKE | COMPARE_NOTLIKE => bool_decide (l = T_VARCHAR) | _ => false end
  end.

Definition operator_typed (type : ExpressionType) (t : TypeId) (ts : list TypeId) : bool :=
  if is_in type then
    match ts with
    | l :: r :: rest => bool_decide (t = T_BOOLEAN) && forallb (fun r => bool_decide (l = r)) (r :: rest)
    | _ => false
    end
  else
    match ts with
    | [a] =>
      bool_decide (t = T_BOOLEAN) &&
      match type with
      | OPERATOR_NOT => bool_decide (a = T_BOOLEAN)
      | OPERATOR_IS_NULL | OPERATOR_IS_NOT_NULL => true
      | _ => false
      end
    | [a; b] =>
      bool_decide (a = t) && bool_decide (b = t) &&
      match arithmetic_of type with
      | Some OpModulo => integer_type t
      | Some _ => numeric_type t
      | None => false
      end
    | _ => false
    end.

Fixpoint typed (e : Expression) : bool :=
  match e with
  | BoundReference t index => proper t && bool_decide (ref_type index = Some t)
  | BoundColumnRef t a b c => proper t && bool_decide (col_type a b c = Some t)
  | BoundConstant v => value_ok v
  | BoundParameter t _ value => match value with Some v => value_ok v && bool_decide (val_type v = t) | None => false end
  | BoundCase t c a b =>
    typed c && typed a && typed b && bool_decide (return_type c = T_BOOLEAN) &&
    bool_decide (return_type a = t) && bool_decide (return_type b = t)
  | BoundCast t a source_type target_type => typed a && cast_typed (return_type a) t source_type target_type
  | BoundComparison type l r => typed l && typed r && comparison_typed type (return_type l) (return_type r)
  | BoundConjunction type l r =>
    typed l && typed r && bool_decide (return_type l = T_BOOLEAN) && bool_decide (return_type r = T_BOOLEAN) &&
    match type with CONJUNCTION_AND | CONJUNCTION_OR => true | _ => false end
  | BoundOperator type t l => forallb typed l && operator_typed type t (map return_type l)
  | BoundFunction t f l => forallb typed l && proper t && bool_decide (function_type f (map return_type l) = Some t)
  | CommonSubExpression t _ _ a => typed a && bool_decide (return_type a = t)
  | BoundDefault _ | BoundAggregate _ _ _ | BoundWindow _ _ _ _ | BoundSubquery _ _ => false
  end.

(** ** Unfolding *)

Definition eval_in (env : row_env) (t : TypeId) (x : option cell) : list Expression → option cell → result (option cell) :=
  fix eval_in (es : list Expression) (found : option cell) : result (option cell) :=
    match es with
    | [] => Ok found
    | c :: es' =>
      y ← eval env c;
      comp_res ← eval_comparison COMPARE_EQUAL t x y;
      found ← eval_conjunction CONJUNCTION_OR found comp_res;
      eval_in es' found
    end.

Lemma eval_operator_in env type t l first rest :
  is_in type = true →
  eval env (BoundOperator type t (l :: first :: rest)) =
  (x ← eval env l;
   y ← eval env first;
   found ← eval_comparison COMPARE_EQUAL (return_type l) x y;
   found ← eval_in env (return_type l) x rest found;
   match type with COMPARE_NOT_IN => eval_unary OPERATOR_NOT found | _ => Ok found end).
Proof. intros Hin. cbn [eval]. rewrite Hin. done. Qed.

Lemma eval_function env t f children :
  eval env (BoundFunction t f children) = (arguments ← mapM (eval env) children; function_row f arguments).
Proof. done. Qed.

(** ** Values have the type of their expression *)

Definition cells_ok (t : TypeId) (o : option cell) : Prop := ∀ x, o = Some x → cell_ok t x = true.

Definition env_ok (env : row_env) : Prop :=
  (∀ i t, ref_type i = Some t → cells_ok t (env_ref env i)) ∧
  (∀ a b c t, col_type a b c = Some t → cells_ok t (env_col env a b c)).

(** What the catalog promises of a scalar function on rows. *)
Definition functions_typed : Prop := ∀ f ts t os o,
  function_type f ts = Some t → Forall2 cells_ok ts os → function_row f os = Ok o → cells_ok t o.

Lemma bool_cells_ok o : cells_ok T_BOOLEAN (bool_cell <$> o).
Proof. intros x Hx. apply fmap_Some in Hx as (b & _ & ->). apply bool_cell_ok. Qed.

Lemma eval_comparison_ok type t a b o : eval_comparison type t a b = Ok o → cells_ok T_BOOLEAN o.
Proof.
  unfold eval_comparison. intros Ho.
  assert (∀ f : cell → cell → result (option cell), (∀ x y z, f x y = Ok (Some z) → cell_ok T_BOOLEAN z = true) →
    both f a b = Ok o → cells_ok T_BOOLEAN o) as Hb.
  { intros f Hf. unfold both. destruct a, b; intros Hz z ->; try done. by eapply Hf. }
  assert (∀ n x y z, like_cell n x y = Ok z → cell_ok T_BOOLEAN z = true) as Hl.
  { intros n [n1 z1|[s|]] [n2 z2|[p|]] z; simpl; try done. intros [= <-]. apply bool_cell_ok. }
  destruct (comparison_of type); [|destruct type; try done]; revert Ho; apply Hb; intros x y z Hz;
    apply bind_Ok in Hz as (w & Hw & [= <-]); [apply bool_cell_ok|by eapply Hl..].
Qed.

Lemma eval_conjunction_ok type a b o : eval_conjunction type a b = Ok o → cells_ok T_BOOLEAN o.
Proof. destruct type; try done; intros [= <-]; apply bool_cells_ok. Qed.

Lemma eval_unary_ok type a o : eval_unary type a = Ok o → cells_ok T_BOOLEAN o.
Proof.
  destruct type; try done; intros [= <-]; [apply bool_cells_ok|..]; intros x [= <-]; apply bool_cell_ok.
Qed.

Lemma eval_binary_ok type t a b o : cells_ok t a → eval_binary type t a b = Ok o → cells_ok t o.
Proof.
  intros Ha. unfold eval_binary. destruct (arithmetic_of type) as [op|]; [|done]. unfold both.
  destruct a as [x|], b as [y|]; try (by intros [= <-]). destruct (divides op && is_zero t y); [by intros [= <-]|].
  intros (z & Hz & [= <-])%bind_Ok w [= <-]. eapply numeric_value_ok; [by apply Ha|done].
Qed.

Lemma eval_cast_ok from to st tt a o :
  cast_typed from to st tt = true → cells_ok from a → eval_cast from to st tt a = Ok o → cells_ok to o.
Proof.
  unfold cast_typed, eval_cast. intros Ht Ha Ho. case_bool_decide; [by simplify_eq|].
  apply andb_true_iff in Ht as [_ Ht]. destruct (source_cast (sql_id st)) as [[src OP]|] eqn:Hs; [|done].
  apply andb_true_iff in Ht as [->%bool_decide_eq_true Ht].
  destruct (result_cast_switch _ _ _) as [[dst convert]|] eqn:Hd; [|done]. apply bool_decide_eq_true in Ht as ->.
  destruct a as [x|]; [|by simplify_eq]. apply bind_Ok in Ho as (z & Hz & [= <-]). intros w [= <-].
  eapply convert_ok; [done|done|by apply Ha|done].
Qed.

Lemma eval_in_ok env t x es found o :
  cells_ok T_BOOLEAN found → eval_in env t x es found = Ok o → cells_ok T_BOOLEAN o.
Proof.
  revert found. induction es as [|e es IH]; intros found Hf; simpl; [by intros [= <-]|].
  intros (y & _ & Ho)%bind_Ok. apply bind_Ok in Ho as (c & _ & Ho).
  eapply IH; [|done]. apply bool_cells_ok.
Qed.

(** A well-typed expression gives a value of its type in every row. *)
Lemma eval_ok env e o :
  functions_typed → env_ok env → typed e = true → eval env e = Ok o → cells_ok (return_type e) o.
Proof.
  intros Hfun [Href Hcol]. revert o. induction e as [e IH] using Expression_ind_children. intros o Ht Ho.
  destruct e as [t i|t a b c|v|t nr value|t|t c a b|t a st tt|type l r|type l r|type t l|t f l|type t l|type t fr l|t l|t id own a];
    cbn [typed] in Ht; cbn [children_of EnumerateChildren] in IH; cbn [return_type]; try done.
  - injection Ho as <-. apply andb_true_iff in Ht as [_ Ht%bool_decide_eq_true]. by apply Href.
  - injection Ho as <-. apply andb_true_iff in Ht as [_ Ht%bool_decide_eq_true]. by apply Hcol.
  - injection Ho as <-. apply andb_true_iff in Ht as [_ Ht]. by intros x Hx; rewrite Hx in Ht.
  - destruct value as [v|]; [|done]. injection Ho as <-. apply andb_true_iff in Ht as [[_ Hv]%andb_true_iff <-%bool_decide_eq_true].
    by intros x Hx; rewrite Hx in Hv.
  - rewrite !andb_true_iff, !bool_decide_eq_true in Ht. destruct Ht as (((((_ & Hta) & Htb) & _) & Ha) & Hb).
    cbn [eval] in Ho. apply bind_Ok in Ho as (c' & _ & Ho). apply bind_Ok in Ho as (x & Hx & Ho). apply bind_Ok in Ho as (y & Hy & [= <-]).
    rewrite !Forall_cons in IH. destruct IH as (_ & IHa & IHb & _).
    case_bool_decide; [rewrite <- Ha; by apply IHa|rewrite <- Hb; by apply IHb].
  - apply andb_true_iff in Ht as [Hta Hc]. cbn [eval] in Ho. apply bind_Ok in Ho as (x & Hx & Ho).
    rewrite Forall_singleton in IH. eapply eval_cast_ok; [done| |done]. by apply IH.
  - cbn [eval] in Ho. apply bind_Ok in Ho as (x & _ & Ho). apply bind_Ok in Ho as (y & _ & Ho). by eapply eval_comparison_ok.
  - cbn [eval] in Ho. apply bind_Ok in Ho as (x & _ & Ho). apply bind_Ok in Ho as (y & _ & Ho). by eapply eval_conjunction_ok.
  - apply andb_true_iff in Ht as [Htl Ht]. unfold operator_typed in Ht. destruct (is_in type) eqn:Hin.
    { destruct l as [|l [|first rest]]; [done..|]. cbn [map] in Ht. apply andb_true_iff in Ht as [->%bool_decide_eq_true _].
      rewrite eval_operator_in in Ho by done. apply bind_Ok in Ho as (x & _ & Ho). apply bind_Ok in Ho as (y & _ & Ho).
      apply bind_Ok in Ho as (f & Hf & Ho). apply bind_Ok in Ho as (f' & Hf' & Ho).
      apply eval_in_ok in Hf'; [|by eapply eval_comparison_ok]. destruct type; simplify_eq; try done. by eapply (eval_unary_ok OPERATOR_NOT). }
    cbn [eval] in Ho. rewrite Hin in Ho. destruct l as [|l [|r [|]]]; try done; cbn [map] in Ht.
    + apply andb_true_iff in Ht as [->%bool_decide_eq_true _]. apply bind_Ok in Ho as (x & _ & Ho). by eapply eval_unary_ok.
    + apply andb_true_iff in Ht as [[Hl%bool_decide_eq_true Hr%bool_decide_eq_true]%andb_true_iff _].
      apply bind_Ok in Ho as (x & Hx & Ho). apply bind_Ok in Ho as (y & _ & Ho). rewrite Hl in Ho.
      eapply eval_binary_ok; [|done]. rewrite <- Hl. rewrite !Forall_cons in IH. apply IH; [|done].
      cbn [forallb] in Htl. by apply andb_true_iff in Htl as [? _].
  - apply andb_true_iff in Ht as [[Htl _]%andb_true_iff Hf%bool_decide_eq_true]. rewrite eval_function in Ho.
    apply bind_Ok in Ho as (os & Hos%mapM_Ok & Ho). eapply Hfun; [done| |done]. rewrite forallb_forall in Htl. clear Hf Ho f.
    induction Hos as [|e x l os Hex _ IHl]; [constructor|]. cbn [map]. apply Forall_cons in IH as [IHe IH].
    constructor; [apply IHe; [apply Htl; by left|done]|]. apply IHl; [done|]. intros e' He'. apply Htl. by right.
  - apply andb_true_iff in Ht as [Hta <-%bool_decide_eq_true]. rewrite Forall_singleton in IH. by apply IH.
Qed.
End rows.

Section congruence.
Context `{!FloatText}.
Context (function_row : nat → list (option cell) → result (option cell)).
Context (env env' : row_env).

Abbreviation eval := (eval function_row).

(** [c'] has the value of [c], if [c] has one. *)
Definition same_value (c c' : Expression) : Prop :=
  return_type c' = return_type c ∧ ∀ o, eval env c = Ok o → eval env' c' = Ok o.

Lemma eval_in_congruence t x es es' : Forall2 same_value es es' → ∀ found o,
  eval_in function_row env t x es found = Ok o → eval_in function_row env' t x es' found = Ok o.
Proof.
  induction 1 as [|c c' es es' [_ Hc] _ IH]; intros found o; [done|]. cbn [eval_in].
  intros (y & Hy & Ho)%bind_Ok. rewrite (Hc y Hy). run. apply bind_Ok in Ho as (r & Hr & Ho). rewrite Hr. run.
  apply bind_Ok in Ho as (f & Hf & Ho). rewrite Hf. run. by apply IH.
Qed.

Lemma mapM_congruence es es' os : Forall2 same_value es es' → mapM (eval env) es = Ok os → mapM (eval env') es' = Ok os.
Proof.
  intros Hes. rewrite !mapM_Ok. revert os. induction Hes as [|c c' es es' [_ Hc] _ IH]; intros os Hos.
  - inversion Hos. constructor.
  - inversion Hos; subst. constructor; auto.
Qed.

Ltac open_children :=
  repeat match goal with
    | H : Forall2 _ (_ :: _) _ |- _ => apply Forall2_cons_inv_l in H as (? & ? & ? & H & ->)
    | H : Forall2 _ [] _ |- _ => apply Forall2_nil_inv_l in H as ->
    end.
Ltac child_values :=
  repeat match goal with
    | Ho : (eval env ?c ≫= _) = Ok _, Hs : same_value ?c ?c' |- _ =>
      let Hv := fresh "Hv" in apply bind_Ok in Ho as (? & Hv & Ho); cbv beta in Ho; rewrite (proj2 Hs _ Hv); autorewrite with run; cbv beta
    end.

(** The value of an expression is determined by those of its children. *)
Lemma eval_with_children e cs o :
  match e with BoundReference _ _ | BoundColumnRef _ _ _ _ => env = env' | _ => True end →
  Forall2 same_value (children_of e) cs → eval env e = Ok o → eval env' (with_children e cs) = Ok o.
Proof.
  intros Hleaf Hcs Ho.
  destruct e as [t i|t a b c|v|t nr value|t|t c a b|t a st tt|type l r|type l r|type t l|t f l|type t l|type t fr l|t l|t id own a];
    cbn [children_of EnumerateChildren] in Hcs; try done; try (apply Forall2_nil_inv_l in Hcs as ->; by rewrite <- ?Hleaf).
  - open_children. cbn [with_children ExpressionRows.eval] in *. by child_values.
  - open_children. cbn [with_children ExpressionRows.eval] in *. child_values. by destruct H0 as [-> _].
  - open_children. cbn [with_children ExpressionRows.eval] in *. child_values. by destruct H0 as [-> _].
  - open_children. cbn [with_children ExpressionRows.eval] in *. by child_values.
  - cbn [with_children]. destruct (is_in type) eqn:Hin.
    + destruct l as [|l [|first rest]]; [by cbn [ExpressionRows.eval] in Ho; rewrite Hin in Ho..|]. open_children.
      rewrite eval_operator_in in * by done. child_values. destruct H0 as [-> _].
      apply bind_Ok in Ho as (f & Hf & Ho). rewrite Hf. run. apply bind_Ok in Ho as (g & Hg & Ho).
      erewrite eval_in_congruence by eassumption. by run.
    + cbn [ExpressionRows.eval] in *. rewrite Hin in *. destruct l as [|l [|r [|]]]; try done; open_children; child_values; [done|].
      by destruct H0 as [-> _].
  - cbn [with_children]. rewrite eval_function in *. apply bind_Ok in Ho as (os & Hos & Ho).
    by rewrite (mapM_congruence _ _ _ Hcs Hos).
  - open_children. cbn [with_children ExpressionRows.eval] in *. by apply H0.
Qed.
End congruence.
