(* ===== verification/ExecutorProofs.v ===== *)
(** * The executor computes the value of every row

    The vectorised executor of [Expressions.v] refines the reference semantics
    of [ExpressionRows.v]: in every row of a chunk the vector of an expression
    holds the value of the expression in that row, constants and common
    subexpressions included. *)

From Stdlib Require Import ZArith Lia.
From stdpp Require Import base gmap list strings option numbers sorting relations.
From S2P Require Import Prelude Types Vector Serializer StringStream DateTime Operators VectorOps Like Casts Value Expressions ExpressionRows.

(** ** Vectors of a chunk *)

Section shapes.
(** The selection vector and the number of rows of the chunk. *)
Context (sel : option (list nat)) (n : nat) (Hn : 0 < n).

(** A vector is constant or has the shape of the chunk. *)
Definition fits (v : Vector) : Prop := IsConstant v = true ∨ (v_count v = n ∧ v_sel v = sel).

Definition vec (t : TypeId) (v : Vector) : Prop := operand_ok v ∧ v_type v = t ∧ fits v.

Definition typed_cell (t : TypeId) (o : option cell) : Prop := ∀ x, o = Some x → cell_has_type t x = true.

Lemma fits_aligned l r : fits l → fits r → aligned l r.
Proof. intros [Hl|[Hlc Hls]] [Hr|[Hrc Hrs]]; unfold aligned; [tauto..|]. right; right. split; congruence. Qed.

Lemma row_value_const v k k' : IsConstant v = true → row_value v k = row_value v k'.
Proof. intros Hc. unfold row_value. by rewrite !cell_index_const. Qed.

Lemma proper_null t : proper t = true → ∃ x, NullValue t = Ok x.
Proof. destruct t; try done; by eexists. Qed.

(** A vector from its rows. *)
Lemma vec_intro t v (o : nat → option cell) :
  proper t = true → v_type v = t → fits v → (∀ k, k < v_count v → sel_at (v_sel v) k < STANDARD_VECTOR_SIZE) →
  (∀ k, k < v_count v → row_is v k (o k) ∧ typed_cell t (o k)) →
  vec t v ∧ ∀ k, k < v_count v → row_value v k = o k.
Proof.
  intros Hp Ht Hf Hb Hrow. split; [|intros k Hk; by apply row_is_value, Hrow].
  split; [|done]. split; [|done]. split; [rewrite Ht; by apply proper_null|].
  intros k Hk Hnull. destruct (Hrow k Hk) as [Hr Hty]. rewrite <- cell_index_row in Hnull |- * by done.
  destruct (o k) as [x|]; [|done]. destruct Hr as [_ Hx]. exists x. rewrite Ht. auto.
Qed.

(** Every row of the chunk is a row of the operands. *)
Lemma binary_rows l r :
  fits l → fits r → ∀ k, k < n → ∃ k', k' < rows_of l r ∧ row_value l k' = row_value l k ∧ row_value r k' = row_value r k ∧
    ∀ v, v_count v = rows_of l r → v_sel v = (if IsConstant l then v_sel r else v_sel l) →
      row_value v k' = row_value v k.
Proof using Hn.
  intros Hl Hr k Hk. unfold rows_of. destruct (IsConstant l) eqn:El.
  - destruct (IsConstant r) eqn:Er.
    + exists 0. pose proof (proj1 (IsConstant_true r) Er) as [Hc Hs]. rewrite Hc, Hs.
      split_and!; [lia|by apply row_value_const..|]. intros v Hv Hvs. apply row_value_const. by apply IsConstant_true.
    + destruct Hr as [?|[Hc Hs]]; [congruence|]. exists k. split; [lia|]. split; [by apply row_value_const|done].
  - destruct Hl as [?|[Hc Hs]]; [congruence|]. exists k. split; [lia|]. done.
Qed.

Lemma binary_rows_back l r : fits l → fits r → ∀ k, k < rows_of l r → ∃ k', k' < n ∧
  row_value l k' = row_value l k ∧ row_value r k' = row_value r k.
Proof using Hn.
  intros Hl Hr k Hk. unfold rows_of in Hk. destruct (IsConstant l) eqn:El.
  - destruct (IsConstant r) eqn:Er.
    + exists 0. split; [done|]. by split; apply row_value_const.
    + destruct Hr as [?|[Hc Hs]]; [congruence|]. exists k. split; [lia|]. split; [by apply row_value_const|done].
  - destruct Hl as [?|[Hc Hs]]; [congruence|]. exists k. split; [lia|]. done.
Qed.

Lemma binary_fits l r v :
  fits l → fits r → v_count v = rows_of l r → v_sel v = (if IsConstant l then v_sel r else v_sel l) → fits v.
Proof.
  intros Hl Hr Hc Hs. unfold rows_of in Hc. destruct (IsConstant l) eqn:El.
  - destruct Hr as [Hr|[Hrc Hrs]]; [left|right; split; congruence].
    apply IsConstant_true in Hr as [? ?]. apply IsConstant_true. split; congruence.
  - destruct Hl as [?|[? ?]]; [congruence|]. right. split; congruence.
Qed.

(** An operator on vectors that computes [F] in every row. *)
Definition computes (OP : Vector → Vector → result Vector) (F : option cell → option cell → result (option cell))
    (tl tr t : TypeId) : Prop := ∀ l r,
  operand_ok l → operand_ok r → v_type l = tl → v_type r = tr → aligned l r →
  (∀ k, k < rows_of l r → ∃ o, F (row_value l k) (row_value r k) = Ok o) →
  ∃ v, OP l r = Ok v ∧ v_type v = t ∧ v_count v = rows_of l r ∧
    v_sel v = (if IsConstant l then v_sel r else v_sel l) ∧
    ∀ k o, k < rows_of l r → F (row_value l k) (row_value r k) = Ok o → row_is v k o.

Lemma lift_binary OP F tl tr t l r :
  computes OP F tl tr t → proper t = true → vec tl l → vec tr r →
  (∀ k, k < n → ∃ o, F (row_value l k) (row_value r k) = Ok o ∧ typed_cell t o) →
  ∃ v, OP l r = Ok v ∧ vec t v ∧ ∀ k, k < n → F (row_value l k) (row_value r k) = Ok (row_value v k).
Proof using Hn.
  intros HOP Hp (Hl & Htl & Hfl) (Hr & Htr & Hfr) HF.
  assert (∀ k, k < rows_of l r → ∃ o, F (row_value l k) (row_value r k) = Ok o ∧ typed_cell t o) as HF'.
  { intros k Hk. destruct (binary_rows_back l r Hfl Hfr k Hk) as (k' & Hk' & <- & <-). by apply HF. }
  destruct (HOP l r Hl Hr Htl Htr) as (v & Hv & Hty & Hc & Hs & Hrow); [by apply fits_aligned|naive_solver|].
  pose proof (binary_fits l r v Hfl Hfr Hc Hs) as Hfv. exists v. split; [done|].
  destruct (vec_intro t v (fun k => row_value v k)) as [Hvec Hval]; [done..| | |].
  - rewrite Hc, Hs. unfold rows_of. destruct (IsConstant l); [apply Hr|apply Hl].
  - rewrite Hc. intros k Hk. destruct (HF' k Hk) as (o & Ho & Hto). specialize (Hrow k o Hk Ho).
    by rewrite (row_is_value _ _ _ Hrow).
  - split; [done|]. intros k Hk. destruct (binary_rows l r Hfl Hfr k Hk) as (k' & Hk' & <- & <- & Heq).
    rewrite <- (Heq v Hc Hs). destruct (HF' k' Hk') as (o & Ho & _). rewrite Ho. f_equal. symmetry.
    apply row_is_value. by apply Hrow.
Qed.

(** The same for operators with one operand. *)
Lemma lift_unary (OP : Vector → result Vector) (F : option cell → result (option cell)) t t' a :
  (operand_ok a → v_type a = t → (∀ k, k < v_count a → ∃ o, F (row_value a k) = Ok o) →
    ∃ v, OP a = Ok v ∧ v_type v = t' ∧ v_count v = v_count a ∧ v_sel v = v_sel a ∧
      ∀ k o, k < v_count a → F (row_value a k) = Ok o → row_is v k o) →
  proper t' = true → vec t a → (∀ k, k < n → ∃ o, F (row_value a k) = Ok o ∧ typed_cell t' o) →
  ∃ v, OP a = Ok v ∧ vec t' v ∧ ∀ k, k < n → F (row_value a k) = Ok (row_value v k).
Proof using Hn.
  intros HOP Hp (Ha & Hta & Hfa) HF.
  assert (∀ k, k < v_count a → ∃ o, F (row_value a k) = Ok o ∧ typed_cell t' o) as HF'.
  { intros k Hk. destruct Hfa as [Hc|[Hc _]]; [|apply HF; lia]. rewrite (row_value_const a k 0 Hc). by apply HF. }
  destruct (HOP Ha Hta) as (v & Hv & Hty & Hc & Hs & Hrow); [naive_solver|]. exists v. split; [done|].
  assert (fits v) as Hfv.
  { destruct Hfa as [[? ?]%IsConstant_true|[? ?]]; [left; apply IsConstant_true|right]; split; congruence. }
  destruct (vec_intro t' v (fun k => row_value v k)) as [Hvec _]; [done..| | |].
  - rewrite Hc, Hs. apply Ha.
  - rewrite Hc. intros k Hk. destruct (HF' k Hk) as (o & Ho & Hto). specialize (Hrow k o Hk Ho).
    by rewrite (row_is_value _ _ _ Hrow).
  - split; [done|]. intros k Hk. destruct (HF k Hk) as (o & Ho & _). rewrite Ho. f_equal. symmetry.
    destruct Hfa as [Hca|[Hca _]]; [|apply row_is_value, Hrow; [lia|done]].
    destruct Hfv as [Hcv|[? ?]]; [|apply row_is_value, Hrow; [lia|done]].
    rewrite (row_value_const v k 0 Hcv). apply row_is_value, Hrow; [apply IsConstant_true in Hca; lia|].
    by rewrite (row_value_const a 0 k).
Qed.
End shapes.

(** ** The operators of the executor *)

Lemma row_bool_cell v k : row_bool v k = cell_bool (row_value v k).
Proof. done. Qed.

Lemma comparison_computes type t :
  comparison_typed type t t = true → proper t = true →
  computes (execute_comparison type) (eval_comparison type t) t t T_BOOLEAN.
Proof.
  unfold comparison_typed, execute_comparison, eval_comparison. intros Hty Hp l r Hl Hr Htl Htr Hal HF.
  rewrite bool_decide_eq_true_2 in Hty by done. simpl in Hty. destruct (comparison_of type) as [op|].
  - destruct (comparison_spec op l r (EmptyVector T_BOOLEAN)) as (v & Hv & Htv & Hc & Hs & Hrow);
      try done; try congruence; try (rewrite Htl; by destruct t).
    exists v. split_and!; [done..|]. intros k o Hk. specialize (Hrow k Hk). unfold both, compare_op.
    destruct (row_value l k) as [x|], (row_value r k) as [y|]; try by intros [= <-].
    destruct Hrow as (c & Hc' & Hrow). rewrite <- Htl, Hc'. run. by intros [= <-].
  - assert (t = T_VARCHAR ∧ ∃ b, (match type with COMPARE_LIKE => Vector_Like false l r (EmptyVector T_BOOLEAN)
        | COMPARE_NOTLIKE => Vector_Like true l r (EmptyVector T_BOOLEAN) | _ => Throw NotImplementedException end)
        = Vector_Like b l r (EmptyVector T_BOOLEAN) ∧ ∀ a a', (match type with
        | COMPARE_LIKE => both (fun x y => z ← like_cell false x y; Ok (Some z))
        | COMPARE_NOTLIKE => both (fun x y => z ← like_cell true x y; Ok (Some z))
        | _ => fun _ _ => Undef end) a a' = both (fun x y => z ← like_cell b x y; Ok (Some z)) a a') as (-> & b & -> & HFb).
    { destruct type; try done; apply bool_decide_eq_true in Hty; (split; [done|]); eauto. }
    unfold Vector_Like. rewrite Htl, Htr, !bool_decide_eq_true_2 by done. cbn [negb].
    destruct (binary_loop_spec (like_cell b) l r Hl Hr (EmptyVector T_BOOLEAN) Hal) as (v & Hv & Htv & Hc & Hs & Hrow).
    { intros k x y Hk Hx Hy. destruct (HF k Hk) as (o & Ho). rewrite HFb, Hx, Hy in Ho. simpl in Ho.
      destruct (like_cell b x y); try done. eauto. }
    exists v. split_and!; [done..|]. intros k o Hk. specialize (Hrow k Hk). rewrite HFb. unfold both, binary_row in *.
    destruct (row_value l k) as [x|], (row_value r k) as [y|]; try by intros [= <-].
    destruct Hrow as (z & -> & Hrow). run. by intros [= <-].
Qed.

Lemma conjunction_computes type :
  match type with CONJUNCTION_AND | CONJUNCTION_OR => true | _ => false end = true →
  computes (execute_conjunction type) (eval_conjunction type) T_BOOLEAN T_BOOLEAN T_BOOLEAN.
Proof.
  intros Ht l r Hl Hr Htl Htr Hal HF.
  destruct type; try done; simpl;
    [destruct (boolean_nullmask_spec _ _ sql_and And_sql ltac:(by intros [[]|] [[]|]) l r (EmptyVector T_BOOLEAN))
       as (v & Hv & Htv & Hc & Hs & Hrow)
    |destruct (boolean_nullmask_spec _ _ sql_or Or_sql ltac:(by intros [[]|] [[]|]) l r (EmptyVector T_BOOLEAN))
       as (v & Hv & Htv & Hc & Hs & Hrow)]; try done;
    exists v; (split_and!; [done..|]); intros k o Hk [= <-]; by apply Hrow.
Qed.

Lemma arithmetic_computes type t op :
  arithmetic_of type = Some op →
  match op with OpModulo => integer_type t | _ => numeric_type t end = true →
  computes (execute_binary type) (eval_binary type t) t t t.
Proof.
  intros Hop Ht l r Hl Hr Htl Htr Hal HF. unfold eval_binary in *. rewrite Hop in *.
  pose proof (BINARY_TYPE_CHECK_ok l r (EmptyVector (v_type l)) Hal ltac:(congruence) eq_refl) as Hck.
  destruct (divides op) eqn:Hd; cbn [andb] in *.
  - destruct (divmod_loop_spec op l r Hl Hr) with (result_ := EmptyVector (v_type l)) as (v & Hv & Htv & Hc & Hs & Hrow).
    { intros k x y Hk Hx Hy Hz. destruct (HF k Hk) as (o & Ho). rewrite Hx, Hy in Ho. simpl in Ho.
      rewrite Htl in *. rewrite Hz in Ho. destruct (numeric_value op t x y); try done. eauto. }
    { done. }
    exists v. rewrite Htl in *. split_and!; [|done..|].
    { destruct type; try done; injection Hop as <-; try done; unfold execute_binary, Vector_Divide, Vector_Modulo; cbv zeta; rewrite Htl, Hck; run;
        by rewrite Ht. }
    intros k o Hk. specialize (Hrow k Hk). unfold both, divmod_row in *.
    destruct (row_value l k) as [x|], (row_value r k) as [y|]; try by intros [= <-].
    destruct (is_zero t y); [by intros [= <-]|]. destruct Hrow as (z & -> & Hrow). run. by intros [= <-].
  - destruct (binary_loop_spec (numeric_value op t) l r Hl Hr (EmptyVector (v_type l)) Hal) as (v & Hv & Htv & Hc & Hs & Hrow).
    { intros k x y Hk Hx Hy. destruct (HF k Hk) as (o & Ho). rewrite Hx, Hy in Ho. simpl in Ho.
      destruct (numeric_value op t x y); try done. eauto. }
    exists v. rewrite Htl in *. split_and!; [|done..|].
    { destruct type; try done; injection Hop as <-; try done; unfold execute_binary, Vector_arithmetic; cbv zeta; rewrite Htl, Hck; run; try done;
        by rewrite Ht. }
    intros k o Hk. specialize (Hrow k Hk). unfold both, binary_row in *.
    destruct (row_value l k) as [x|], (row_value r k) as [y|]; try by intros [= <-].
    destruct Hrow as (z & -> & Hrow). run. by intros [= <-].
Qed.

Lemma unary_computes type ta v :
  match type with OPERATOR_NOT => ta = T_BOOLEAN | OPERATOR_IS_NULL | OPERATOR_IS_NOT_NULL => True | _ => False end →
  operand_ok v → v_type v = ta →
  ∃ w, execute_unary type v = Ok w ∧ v_type w = T_BOOLEAN ∧ v_count w = v_count v ∧ v_sel w = v_sel v ∧
    ∀ k o, k < v_count v → eval_unary type (row_value v k) = Ok o → row_is w k o.
Proof.
  intros Hty Hv Ht.
  assert (∀ k, k < v_count v → bool_decide (row_value v k = None) = bool_decide (cell_index v k ∈ v_null v)) as Hnull.
  { intros k Hk. apply bool_decide_ext. split; [|by apply row_value_null]. intros Hr.
    destruct (decide (cell_index v k ∈ v_null v)) as [|Hn]; [done|].
    destruct (operand_present v k Hv) as (x & _ & Hx & _); [by left|done|congruence]. }
  destruct type; try done; simpl.
  - rewrite Hty in Ht. destruct (Vector_Not_spec v (EmptyVector T_BOOLEAN) Hv Ht) as (w & Hw & H1 & H2 & H3 & Hrow).
    exists w. split_and!; [done..|]. intros k o Hk [= <-]. by apply Hrow.
  - destruct (is_null_spec false v (EmptyVector T_BOOLEAN)) as (w & Hw & H1 & H2 & H3 & Hrow); [done|].
    exists w. split_and!; [done..|]. intros k o Hk [= <-]. rewrite Hnull by done. by apply (Hrow k).
  - destruct (is_null_spec true v (EmptyVector T_BOOLEAN)) as (w & Hw & H1 & H2 & H3 & Hrow); [done|].
    exists w. split_and!; [done..|]. intros k o Hk [= <-]. rewrite Hnull by done. by apply (Hrow k).
Qed.

Lemma cast_computes `{!FloatText} from to st tt v :
  cast_typed from to st tt = true → operand_ok v → v_type v = from →
  (∀ k, k < v_count v → ∃ o, eval_cast from to st tt (row_value v k) = Ok o) →
  from ≠ to →
  ∃ w, execute_cast to st tt v = Ok w ∧ v_type w = to ∧ v_count w = v_count v ∧ v_sel w = v_sel v ∧
    ∀ k o, k < v_count v → eval_cast from to st tt (row_value v k) = Ok o → row_is w k o.
Proof.
  unfold cast_typed, eval_cast, execute_cast. intros Hty Hv Ht HF Hne. rewrite Ht.
  rewrite bool_decide_eq_false_2 in * by done. cbn [orb] in Hty.
  destruct (source_cast (sql_id st)) as [[src OP]|] eqn:Hs; [|by rewrite andb_false_r in Hty].
  destruct (result_cast_switch src OP (sql_id tt)) as [[dst convert]|] eqn:Hd; [|by rewrite !andb_false_r in Hty].
  rewrite !andb_true_iff, !negb_true_iff, !bool_decide_eq_false, !bool_decide_eq_true in Hty.
  destruct Hty as ((Hst & Hnull) & -> & ->).
  destruct (Vector_Cast_spec v (EmptyVector to) st tt from OP to convert) as (w & Hw & H1 & H2 & H3 & Hrow); try done.
  { intros k x Hk Hx. destruct (HF k Hk) as [o Ho]. rewrite Hx in Ho. apply bind_Ok in Ho as (z & ? & _). eauto. }
  exists w. split_and!; [done..|]. intros k o Hk. specialize (Hrow k Hk).
  destruct (row_value v k) as [x|]; [|by intros [= <-]]. destruct Hrow as (z & -> & Hrow). run. by intros [= <-].
Qed.

Lemma typed_proper `{!FloatText} function_type ref_type col_type e :
  typed function_type ref_type col_type e = true → proper (return_type e) = true.
Proof.
  induction e as [e IH] using Expression_ind_children. intros Ht.
  destruct e as [t i|t a b c|v|t nr value|t|t c a b|t a st tt|type l r|type l r|type t l|t f l|type t l|type t fr l|t l|t id own a];
    cbn [typed] in Ht; cbn [children_of EnumerateChildren] in IH; cbn [return_type]; try done.
  - by apply andb_true_iff in Ht as [? _].
  - by apply andb_true_iff in Ht as [? _].
  - by apply andb_true_iff in Ht as [? _].
  - destruct value as [v|]; [|done]. apply andb_true_iff in Ht as [[? _]%andb_true_iff <-%bool_decide_eq_true]. done.
  - rewrite !andb_true_iff, !bool_decide_eq_true in Ht. destruct Ht as (((((_ & Hta) & _) & _) & <-) & _).
    rewrite !Forall_cons in IH. by apply IH.
  - apply andb_true_iff in Ht as [Hta Hc]. rewrite Forall_singleton in IH. specialize (IH Hta). unfold cast_typed in Hc.
    apply orb_true_iff in Hc as [<-%bool_decide_eq_true|Hc]; [done|].
    destruct (source_cast (sql_id st)) as [[src OP]|] eqn:Hs; [|by rewrite andb_false_r in Hc].
    destruct (result_cast_switch src OP (sql_id tt)) as [[dst convert]|] eqn:Hd; [|by rewrite !andb_false_r in Hc].
    rewrite !andb_true_iff, !bool_decide_eq_true in Hc. destruct Hc as (_ & _ & <-). unfold result_cast_switch in Hd.
    by destruct (sql_id tt); simplify_eq.
  - apply andb_true_iff in Ht as [_ Ht]. unfold operator_typed in Ht. destruct (is_in type).
    { destruct l as [|? [|? ?]]; try done. by apply andb_true_iff in Ht as [->%bool_decide_eq_true _]. }
    destruct l as [|? [|? [|? ?]]]; try done; cbn [map] in Ht.
    + by apply andb_true_iff in Ht as [->%bool_decide_eq_true _].
    + apply andb_true_iff in Ht as [_ Ht]. destruct (arithmetic_of type) as [[]|]; try done; by destruct t.
  - by apply andb_true_iff in Ht as [[_ ?]%andb_true_iff _].
  - apply andb_true_iff in Ht as [Hta <-%bool_decide_eq_true]. rewrite Forall_singleton in IH. by apply IH.
Qed.

Section lifting.
Context (sel : option (list nat)) (n : nat) (Hn : 0 < n).
Abbreviation vec := (vec sel n).
Abbreviation fits := (fits sel n).

Lemma vec_cell t v k : vec t v → k < n → typed_cell t (row_value v k).
Proof using.
  intros (Hok & <- & Hf) Hk x Hx.
  destruct (decide (cell_index v k ∈ v_null v)) as [Hnull|Hnull]; [by rewrite row_value_null in Hx|].
  destruct (operand_present v k Hok) as (y & _ & Hy & Hty); [|done|congruence].
  destruct Hf as [Hc|[-> _]]; auto.
Qed.

Lemma lift_case t c a b :
  proper t = true → vec T_BOOLEAN c → vec t a → vec t b →
  ∃ v, Vector_Case c a b (EmptyVector (v_type a)) = Ok v ∧ vec t v ∧
    ∀ k, k < n → row_value v k = (if bool_decide (cell_bool (row_value c k) = Some true) then row_value a k else row_value b k).
Proof using Hn.
  intros Hp (Hc & Htc & Hfc) (Ha & Hta & Hfa) (Hb & Htb & Hfb).
  destruct (ternary_shape c a b) as [sel' n'] eqn:Hshape.
  assert ((sel' = sel ∧ n' = n) ∨
    (IsConstant c = true ∧ IsConstant a = true ∧ IsConstant b = true ∧ sel' = None ∧ n' = 1)) as Hcase.
  { assert (∀ v, fits v → IsConstant v = false → v_sel v = sel ∧ v_count v = n) as Hf by (intros v [?|[? ?]] ?; [congruence|done]).
    revert Hshape. unfold ternary_shape. destruct (IsConstant c) eqn:Ec, (IsConstant a) eqn:Ea, (IsConstant b) eqn:Eb; cbn [negb];
      intros [= <- <-]; first [left; by apply Hf|right; by split_and!]. }
  assert (∀ v, operand_ok v → fits v → v = c ∨ v = a ∨ v = b → case_operand sel' n' v) as Hop.
  { intros v Hv Hf Hin. split; [done|]. destruct Hcase as [[-> ->]|(? & ? & ? & _)]; [done|]. left. naive_solver. }
  destruct (Vector_Case_spec c a b (EmptyVector (v_type a)) sel' n') as (v & Hv & Hty & Hcv & Hsv & Hrow);
    try (apply Hop; tauto); try (simpl; rewrite Hta; by destruct t); [done|done|].
  assert (∀ k, k < n → ∃ k', k' < n' ∧ row_value c k' = row_value c k ∧ row_value a k' = row_value a k ∧
    row_value b k' = row_value b k ∧ row_value v k' = row_value v k) as Hto.
  { intros k Hk. destruct Hcase as [[-> ->]|(E1 & E2 & E3 & E4 & E5)]; [by exists k|]. subst sel' n'. exists 0.
    split; [lia|]. assert (IsConstant v = true) by (by apply IsConstant_true).
    by split_and!; apply row_value_const. }
  assert (∀ k, k < n → row_value v k = (if bool_decide (cell_bool (row_value c k) = Some true) then row_value a k else row_value b k)) as Hval.
  { intros k Hk. destruct (Hto k Hk) as (k' & Hk' & <- & <- & <- & <-). by apply row_is_value, Hrow. }
  exists v. split; [done|]. split; [|done].
  apply (vec_intro sel n t v (fun k => row_value v k)); [done|by rewrite Hty| | |].
  - destruct Hcase as [[-> ->]|(_ & _ & _ & -> & ->)]; [by right|left; by apply IsConstant_true].
  - rewrite Hcv, Hsv. destruct Hcase as [[-> ->]|(_ & _ & _ & -> & ->)]; [|intros k Hk; simpl; unfold STANDARD_VECTOR_SIZE; lia].
    revert Hshape. unfold ternary_shape. repeat case_match; intros [= <- <-]; try apply Hc; try apply Ha; try apply Hb.
    intros k Hk. simpl. unfold STANDARD_VECTOR_SIZE. lia.
  - rewrite Hcv. intros k Hk. specialize (Hrow k Hk). split; [by rewrite (row_is_value _ _ _ Hrow)|].
    assert (∃ k', k' < n ∧ row_value v k = row_value v k') as (k' & Hk' & ->).
    { destruct Hcase as [[-> ->]|(_ & _ & _ & -> & ->)]; [eauto|]. exists 0. split; [done|]. apply row_value_const.
      by apply IsConstant_true. }
    rewrite Hval by done. clear Hrow. case_bool_decide; by apply vec_cell.
Qed.

Lemma vec_reference v :
  value_ok v = true → ∃ w, Vector_Reference v = Ok w ∧ vec (val_type v) w ∧ ∀ k, row_value w k = val_data v.
Proof using.
  unfold value_ok. rewrite andb_true_iff. intros [Hp Hv]. unfold Vector_Reference.
  set (w := mkVector (val_type v) 1 (reference_data v) None (match val_data v with Some _ => ∅ | None => {[0]} end)).
  assert (row_is w 0 (val_data v)) as Hw.
  { apply row_is_vector; [simpl; apply Nat.lt_0_1|]. simpl. unfold reference_data. destruct (val_data v); [|by apply elem_of_singleton].
    split; [apply not_elem_of_empty|]. by rewrite lookup_singleton_eq. }
  exists w. split; [by destruct (val_type v)|]. split; [|intros k; rewrite (row_value_const w k 0) by done; by apply row_is_value].
  apply (vec_intro sel n _ w (fun _ => val_data v)); [done|done|by left|..]; clear Hn; intros k Hk; simpl in Hk;
    assert (k = 0) as -> by lia; [simpl; unfold STANDARD_VECTOR_SIZE; lia|].
  split; [done|]. intros x Hx. rewrite Hx in Hv. by apply cell_ok_typed.
Qed.
End lifting.

(** ** The executor *)

(** The expressions below an expression, itself included. *)
Inductive subexpression (x : Expression) : Expression → Prop :=
| sub_self : subexpression x x
| sub_child e c : c ∈ children_of e → subexpression x c → subexpression x e.

Section execution.
Context `{!FloatText}.
Context (function_call : nat → list Vector → result Vector).
Context (function_row : nat → list (option cell) → result (option cell)).
Context (function_type : nat → list TypeId → option TypeId).
Context (ref_type : nat → option TypeId) (cse_of : nat → option Expression).
Context (sel : option (list nat)) (n : nat) (Hn : 0 < n).

Abbreviation vec := (vec sel n).
Abbreviation eval := (eval function_row).
Abbreviation typed := (typed function_type ref_type (fun _ _ _ => None)).
Abbreviation Execute := (Execute function_call).

(** The types of the columns of a chunk, and a chunk of that shape: a column
    is constant or has the selection vector and the rows of the chunk. *)
Definition chunk_fits (chunk : option DataChunk) : Prop :=
  match chunk with
  | None => ∀ i, ref_type i = None
  | Some c => dc_sel c = sel ∧ ∀ i t, ref_type i = Some t → ∃ v, dc_data c !! i = Some v ∧ vec t v
  end.

(** Row [k] of the chunk. *)
Definition chunk_row (chunk : option DataChunk) (k : nat) : row_env :=
  mkRowEnv (fun i => match chunk with Some c => v ← dc_data c !! i; row_value v k | None => None end) (fun _ _ _ => None).

(** What the executor relies on of a scalar function: it computes the same
    function of its arguments in every row. *)
Definition functions_rowwise : Prop := ∀ f ts t vs,
  function_type f ts = Some t → Forall2 vec ts vs →
  (∀ k, k < n → ∃ o, function_row f ((fun v => row_value v k) <$> vs) = Ok o) →
  ∃ v, function_call f vs = Ok v ∧ vec t v ∧
    ∀ k, k < n → function_row f ((fun v => row_value v k) <$> vs) = Ok (row_value v k).

(** The numbers of common subexpressions identify them. *)
Definition shares (e : Expression) : Prop := ∀ t id own a, subexpression (CommonSubExpression t id own a) e → cse_of id = Some a.

Lemma shares_child e c : shares e → c ∈ children_of e → shares c.
Proof. intros He Hc t id own a Hs. eapply He, sub_child; eauto. Qed.

Context (chunk : option DataChunk).
Context (Hfun : functions_typed function_row function_type) (Hrowwise : functions_rowwise).
Context (Hchunk : chunk_fits chunk) (Henv : ∀ k, k < n → env_ok ref_type (fun _ _ _ => None) (chunk_row chunk k)).

(** [v] holds the value of [e] in every row. *)
Definition computed (e : Expression) (v : Vector) : Prop :=
  vec (return_type e) v ∧ ∀ k, k < n → eval (chunk_row chunk k) e = Ok (row_value v k).

(** The vectors of the cache are those of their expressions. *)
Definition cache_ok (s : cse_cache) : Prop := ∀ id v, s !! id = Some v → ∃ e, cse_of id = Some e ∧ computed e v.

Definition succeeds (e : Expression) : Prop := ∀ k, k < n → ∃ o, eval (chunk_row chunk k) e = Ok o.

Definition executes (e : Expression) : Prop := ∀ s, shares e → succeeds e → cache_ok s →
  ∃ v s', Execute chunk e s = (Ok v, s') ∧ computed e v ∧ cache_ok s'.

Lemma Verify_ok e v : vec (return_type e) v → Verify chunk e v = Ok v.
Proof using Hchunk.
  intros (_ & Ht & Hf). unfold Verify. rewrite Ht, (bool_decide_eq_true_2 (_ = return_type e)) by done.
  assert (match chunk with Some c => IsConstant v || bool_decide (v_sel v = dc_sel c) | None => true end = true) as ->; [|done].
  clear Henv. destruct chunk as [c|]; [|done]. destruct Hchunk as [-> _]. destruct Hf as [->|[_ ->]]; [done|].
  by rewrite bool_decide_eq_true_2, orb_true_r.
Qed.

(** The value of an expression has its type. *)
Lemma eval_cell e o k : typed e = true → k < n → eval (chunk_row chunk k) e = Ok o → typed_cell (return_type e) o.
Proof using Hfun Henv.
  intros Ht Hk Ho x Hx. apply cell_ok_typed. eapply eval_ok; eauto.
Qed.

Lemma execute_verified e body s v s' :
  Execute chunk e = (v ← body; lift_M (Verify chunk e v)) → body s = (Ok v, s') → computed e v → cache_ok s' →
  ∃ v s', Execute chunk e s = (Ok v, s') ∧ computed e v ∧ cache_ok s'.
Proof using Hchunk.
  intros Heq Hbody Hv Hs. exists v, s'. split; [|done]. rewrite Heq. run_using Hbody.
  by rewrite Verify_ok by apply Hv.
Qed.

Lemma run_two {B} a b (f : Vector → Vector → M cse_cache B) s :
  executes a → executes b → shares a → shares b → succeeds a → succeeds b → cache_ok s →
  ∃ va vb s', (x ← Execute chunk a; y ← Execute chunk b; f x y) s = f va vb s' ∧ computed a va ∧ computed b vb ∧ cache_ok s'.
Proof.
  intros Ha Hb Hsa Hsb Hca Hcb Hs. destruct (Ha s Hsa Hca Hs) as (va & s1 & Hva & ? & Hs1).
  destruct (Hb s1 Hsb Hcb Hs1) as (vb & s2 & Hvb & ? & Hs2). exists va, vb, s2. split; [|done].
  by run_using Hva; run_using Hvb.
Qed.

(** An expression with two operands whose operator computes [F]. *)
Lemma binary_step e a b OP F va vb :
  (∀ env, eval env e = (x ← eval env a; y ← eval env b; F x y)) →
  computes OP F (return_type a) (return_type b) (return_type e) →
  typed e = true → succeeds e → computed a va → computed b vb → ∃ v, OP va vb = Ok v ∧ computed e v.
Proof using Hn Hfun Henv.
  intros Heval HOP Ht Hok [Hva Hra] [Hvb Hrb].
  assert (∀ k, k < n → eval (chunk_row chunk k) e = F (row_value va k) (row_value vb k)) as HF.
  { intros k Hk. by rewrite Heval, Hra, Hrb by done. }
  destruct (lift_binary sel n Hn OP F _ _ _ va vb HOP) as (v & Hv & Hvec & Hrow); [by eapply typed_proper|done|done| |].
  { intros k Hk. destruct (Hok k Hk) as [o Ho]. exists o. split; [by rewrite <- HF|by eapply eval_cell]. }
  exists v. split; [done|]. split; [done|]. intros k Hk. rewrite HF by done. auto.
Qed.

Lemma succeeds_two e a b F :
  (∀ env, eval env e = (x ← eval env a; y ← eval env b; F x y)) → succeeds e → succeeds a ∧ succeeds b.
Proof.
  intros Heval He. split; intros k Hk; destruct (He k Hk) as [o Ho]; rewrite Heval in Ho;
    apply bind_Ok in Ho as (x & Hx & Ho); [eauto|]. apply bind_Ok in Ho as (y & Hy & _). eauto.
Qed.

Lemma binary_executes e a b OP F :
  Execute chunk e = (v ← (x ← Execute chunk a; y ← Execute chunk b; lift_M (OP x y)); lift_M (Verify chunk e v)) →
  (∀ env, eval env e = (x ← eval env a; y ← eval env b; F x y)) →
  computes OP F (return_type a) (return_type b) (return_type e) →
  typed e = true → a ∈ children_of e → b ∈ children_of e → executes a → executes b → executes e.
Proof using Hn Hfun Henv Hchunk.
  intros Hex Heval HOP Ht Hina Hinb Ha Hb s Hsh Hok Hs. destruct (succeeds_two _ _ _ _ Heval Hok) as [Hoa Hob].
  destruct (run_two a b (fun x y => lift_M (OP x y)) s Ha Hb) as (va & vb & s' & Hrun & Hva & Hvb & Hs');
    eauto using shares_child.
  destruct (binary_step e a b OP F va vb Heval HOP Ht Hok Hva Hvb) as (v & Hv & Hcomp).
  eapply execute_verified; [exact Hex| |done|done]. by rewrite Hrun, Hv.
Qed.

(** An expression with one operand. *)
Lemma unary_executes e a OP F :
  Execute chunk e = (v ← (x ← Execute chunk a; lift_M (OP x)); lift_M (Verify chunk e v)) →
  (∀ env, eval env e = (x ← eval env a; F x)) →
  (∀ v, vec (return_type a) v → (∀ k, k < n → ∃ o, F (row_value v k) = Ok o ∧ typed_cell (return_type e) o) →
    ∃ w, OP v = Ok w ∧ vec (return_type e) w ∧ ∀ k, k < n → F (row_value v k) = Ok (row_value w k)) →
  typed e = true → a ∈ children_of e → executes a → executes e.
Proof using Hn Hfun Henv Hchunk.
  intros Hex Heval HOP Ht Hin Ha s Hsh Hok Hs.
  assert (succeeds a) as Hoa.
  { intros k Hk. destruct (Hok k Hk) as [o Ho]. rewrite Heval in Ho. apply bind_Ok in Ho as (x & Hx & _). eauto. }
  destruct (Ha s) as (va & s' & Hrun & [Hva Hra] & Hs'); eauto using shares_child.
  assert (∀ k, k < n → eval (chunk_row chunk k) e = F (row_value va k)) as HF.
  { intros k Hk. by rewrite Heval, Hra. }
  destruct (HOP va Hva) as (w & Hw & Hvw & Hrw).
  { intros k Hk. destruct (Hok k Hk) as [o Ho]. exists o. split; [by rewrite <- HF|by eapply eval_cell]. }
  eapply execute_verified; [exact Hex| |split; [done|]|done].
  - run_using Hrun. by rewrite Hw.
  - intros k Hk. rewrite HF by done. auto.
Qed.

Lemma reference_column t i : ref_type i = Some t →
  ∃ v, (c ← deref chunk; deref (dc_data c !! i)) = Ok v ∧ vec t v ∧ ∀ k, env_ref (chunk_row chunk k) i = row_value v k.
Proof using Hchunk.
  clear Henv. intros Ht. destruct chunk as [c|]; [|by rewrite Hchunk in Ht].
  destruct Hchunk as [_ Hcols]. destruct (Hcols i t Ht) as (v & Hi & Hv). exists v. run. rewrite Hi.
  split; [done|]. split; [done|]. intros k. simpl. by rewrite Hi.
Qed.

Lemma reference_executes t i : typed (BoundReference t i) = true → executes (BoundReference t i).
Proof using Hchunk.
  simpl. intros [_ Ht%bool_decide_eq_true]%andb_true_iff s _ _ Hs.
  destruct (reference_column t i Ht) as (v & Hv & Hvec & Hrow).
  eapply execute_verified; [done| |split; [done|]|done].
  - by rewrite Hv.
  - intros k Hk. cbn [ExpressionRows.eval]. by rewrite Hrow.
Qed.

Lemma constant_executes v : typed (BoundConstant v) = true → executes (BoundConstant v).
Proof using Hchunk.
  intros Ht s _ _ Hs. destruct (vec_reference sel n v Ht) as (w & Hw & Hvec & Hrow).
  eapply (execute_verified _ (lift_M (Vector_Reference v))); [done| | |done].
  - by rewrite Hw.
  - split; [done|]. intros k Hk. by rewrite Hrow.
Qed.

Lemma parameter_executes t nr value : typed (BoundParameter t nr value) = true → executes (BoundParameter t nr value).
Proof using Hchunk.
  simpl. destruct value as [v|]; [|done]. intros [Hv Ht]%andb_true_iff s _ _ Hs.
  destruct (vec_reference sel n v Hv) as (w & Hw & Hvec & Hrow). pose proof (proj1 (bool_decide_eq_true _) Ht) as Ht'.
  eapply execute_verified; [done| | |done].
  - cbn [deref]. run. rewrite Ht. run. rewrite Hw. done.
  - split; [by rewrite <- Ht'|]. intros k Hk. by rewrite Hrow.
Qed.

Lemma case_executes t c a b :
  typed (BoundCase t c a b) = true → executes c → executes a → executes b → executes (BoundCase t c a b).
Proof using Hn Hfun Hchunk.
  intros Ht Hc Ha Hb s Hsh Hok Hs. pose proof (typed_proper _ _ _ _ Ht) as Hp. cbn [Expressions.return_type] in Hp.
  simpl in Ht. rewrite !andb_true_iff, !bool_decide_eq_true in Ht. destruct Ht as (((((_ & _) & _) & Hbc) & Hat) & Hbt).
  assert (succeeds c ∧ succeeds a ∧ succeeds b) as (Hoc & Hoa & Hob).
  { split_and!; intros k Hk; destruct (Hok k Hk) as [o Ho]; apply bind_Ok in Ho as (x & Hx & Ho);
      apply bind_Ok in Ho as (y & Hy & Ho); apply bind_Ok in Ho as (z & Hz & Ho); eauto. }
  destruct (Hc s) as (vc & s0 & Hrunc & [Hvc Hrc] & Hs0); [eapply shares_child; [done|set_solver+]|done|done|].
  destruct (run_two a b (fun x y => lift_M (Vector_Case vc x y (EmptyVector (v_type x)))) s0 Ha Hb)
    as (va & vb & s' & Hrun & [Hva Hra] & [Hvb Hrb] & Hs'); [eapply shares_child; [done|set_solver+]..|done|done|done|].
  rewrite Hbc in Hvc. rewrite Hat in Hva. rewrite Hbt in Hvb.
  destruct (lift_case sel n Hn t vc va vb Hp Hvc Hva Hvb) as (v & Hv & Hvec & Hrow).
  eapply execute_verified; [done| |split; [done|]|done].
  - run_using Hrunc. etransitivity; [exact Hrun|]. by rewrite Hv.
  - intros k Hk. cbn [ExpressionRows.eval]. rewrite Hrc, Hra, Hrb by done. run. by rewrite Hrow.
Qed.

Lemma cast_executes t a st tt : typed (BoundCast t a st tt) = true → executes a → executes (BoundCast t a st tt).
Proof using Hn Hfun Henv Hchunk.
  intros Ht Ha. eapply (unary_executes _ a (execute_cast t st tt) (eval_cast (return_type a) t st tt)); try done; [|set_solver+].
  intros v Hv HF. pose proof (typed_proper _ _ _ _ Ht) as Hp. cbn [typed] in Ht. apply andb_true_iff in Ht as [_ Ht].
  cbn [Expressions.return_type] in *. destruct (decide (return_type a = t)) as [E|Hne].
  - exists v. destruct Hv as (Hok & Hty & Hf). unfold execute_cast, eval_cast. rewrite Hty, !bool_decide_eq_true_2 by done.
    split; [done|]. split; [|done]. split; [done|]. split; [by rewrite Hty|done].
  - eapply lift_unary; [done| |done|exact Hv|exact HF]. intros Hok Hty HF'. by apply cast_computes.
Qed.

Lemma comparison_executes type a b :
  typed (BoundComparison type a b) = true → executes a → executes b → executes (BoundComparison type a b).
Proof using Hn Hfun Henv Hchunk.
  intros Ht Ha Hb. eapply binary_executes; try done; [|set_solver+..]. simpl in Ht.
  apply andb_true_iff in Ht as [[Hta _]%andb_true_iff Ht]. pose proof Ht as Heq.
  unfold comparison_typed in Heq. apply andb_true_iff in Heq as [Heq%bool_decide_eq_true _].
  rewrite <- Heq in *. eapply comparison_computes; [done|by eapply typed_proper].
Qed.

Lemma conjunction_executes type a b :
  typed (BoundConjunction type a b) = true → executes a → executes b → executes (BoundConjunction type a b).
Proof using Hn Hfun Henv Hchunk.
  intros Ht Ha Hb. eapply binary_executes; try done; [|set_solver+..]. simpl in Ht.
  rewrite !andb_true_iff, !bool_decide_eq_true in Ht. destruct Ht as (((_ & ->) & ->) & Ht).
  by apply conjunction_computes.
Qed.

(** The loop of IN. *)
Definition execute_in (lv : Vector) : Vector → list Expression → M cse_cache Vector :=
  fix execute_in (found : Vector) (l : list Expression) : M cse_cache Vector :=
    match l with
    | [] => mret found
    | c :: l' =>
      v ← Execute chunk c;
      comp_res ← lift_M (execute_comparison COMPARE_EQUAL lv v);
      found ← lift_M (Vector_Or found comp_res (EmptyVector T_BOOLEAN));
      execute_in found l'
    end.

Lemma equal_step t lv v :
  proper t = true → vec t lv → vec t v →
  (∀ k, k < n → ∃ o, eval_comparison COMPARE_EQUAL t (row_value lv k) (row_value v k) = Ok o) →
  ∃ w, execute_comparison COMPARE_EQUAL lv v = Ok w ∧ vec T_BOOLEAN w ∧
    ∀ k, k < n → eval_comparison COMPARE_EQUAL t (row_value lv k) (row_value v k) = Ok (row_value w k).
Proof using Hn.
  intros Hp Hl Hv HF. eapply lift_binary; [done| |done|exact Hl|exact Hv|].
  - apply comparison_computes; [|done]. unfold comparison_typed. by rewrite bool_decide_eq_true_2.
  - intros k Hk. destruct (HF k Hk) as [o Ho]. exists o. split; [done|]. intros x Hx. apply cell_ok_typed.
    by eapply eval_comparison_ok.
Qed.

Lemma or_step v w :
  vec T_BOOLEAN v → vec T_BOOLEAN w →
  ∃ u, Vector_Or v w (EmptyVector T_BOOLEAN) = Ok u ∧ vec T_BOOLEAN u ∧
    ∀ k, k < n → eval_conjunction CONJUNCTION_OR (row_value v k) (row_value w k) = Ok (row_value u k).
Proof using Hn.
  intros Hv Hw. eapply (lift_binary sel n Hn (execute_conjunction CONJUNCTION_OR)); [by apply conjunction_computes|done|exact Hv|exact Hw|].
  intros k Hk. eexists. split; [done|]. intros x Hx. by eapply cell_ok_typed, bool_cells_ok.
Qed.

Lemma in_loop t lv : proper t = true → vec t lv → ∀ es found s,
  vec T_BOOLEAN found → cache_ok s →
  Forall (fun e => executes e ∧ shares e ∧ return_type e = t) es →
  (∀ k, k < n → ∃ o, eval_in function_row (chunk_row chunk k) t (row_value lv k) es (row_value found k) = Ok o) →
  ∃ v s', execute_in lv found es s = (Ok v, s') ∧ vec T_BOOLEAN v ∧ cache_ok s' ∧
    ∀ k, k < n → eval_in function_row (chunk_row chunk k) t (row_value lv k) es (row_value found k) = Ok (row_value v k).
Proof using Hn.
  intros Hp Hlv es. induction es as [|e es IH]; intros found s Hfound Hs Hes HF.
  { exists found, s. done. }
  apply Forall_cons in Hes as [(Hex & Hsh & Ht) Hes]. cbn [eval_in] in HF.
  assert (succeeds e) as Hoe.
  { intros k Hk. destruct (HF k Hk) as [o Ho]. apply bind_Ok in Ho as (y & Hy & _). eauto. }
  destruct (Hex s Hsh Hoe Hs) as (v & s1 & Hrun & [Hv Hr] & Hs1). rewrite Ht in Hv.
  destruct (equal_step t lv v Hp Hlv Hv) as (w & Hw & Hvw & Hrw).
  { intros k Hk. destruct (HF k Hk) as [o Ho]. rewrite Hr in Ho by done. run_in Ho. apply bind_Ok in Ho as (y & Hy & _). eauto. }
  destruct (or_step found w Hfound Hvw) as (u & Hu & Hvu & Hru).
  assert (∀ k, k < n → eval_in function_row (chunk_row chunk k) t (row_value lv k) (e :: es) (row_value found k) =
    eval_in function_row (chunk_row chunk k) t (row_value lv k) es (row_value u k)) as Hstep.
  { intros k Hk. cbn [eval_in]. rewrite Hr by done. run. rewrite Hrw by done. run. by rewrite Hru by done. }
  destruct (IH u s1 Hvu Hs1 Hes) as (v' & s' & Hrun' & Hv' & Hs' & Hr').
  { intros k Hk. rewrite <- Hstep by done. apply HF, Hk. }
  exists v', s'. split; [|split; [done|split; [done|]]].
  - cbn [execute_in]. run_using Hrun. rewrite Hw. run. rewrite Hu. run. exact Hrun'.
  - intros k Hk. rewrite Hstep by done. auto.
Qed.

Lemma not_step found :
  vec T_BOOLEAN found → ∃ v, Vector_Not found (EmptyVector T_BOOLEAN) = Ok v ∧ vec T_BOOLEAN v ∧
    ∀ k, k < n → eval_unary OPERATOR_NOT (row_value found k) = Ok (row_value v k).
Proof using Hn.
  intros Hf. apply (lift_unary sel n Hn (execute_unary OPERATOR_NOT) (eval_unary OPERATOR_NOT) T_BOOLEAN); [|done|done|].
  - intros Hok Hty _. by apply (unary_computes OPERATOR_NOT T_BOOLEAN).
  - intros k Hk. eexists. split; [done|]. intros x Hx. by eapply cell_ok_typed, bool_cells_ok.
Qed.

Lemma in_executes type t l first rest :
  is_in type = true → typed (BoundOperator type t (l :: first :: rest)) = true →
  executes l → executes first → Forall executes rest → executes (BoundOperator type t (l :: first :: rest)).
Proof using Hn Hfun Hchunk.
  intros Hin Ht Hl Hfirst Hrest s Hsh Hok Hs. simpl in Ht. unfold operator_typed in Ht. rewrite Hin in Ht.
  rewrite !andb_true_iff, bool_decide_eq_true in Ht. destruct Ht as ((Htl & _) & -> & Hty).
  pose proof (typed_proper _ _ _ _ Htl) as Hp. rewrite forallb_forall in Hty.
  assert (return_type l = return_type first) as Hf by (eapply bool_decide_eq_true_1, Hty; by left).
  assert (succeeds l ∧ succeeds first) as [Hol Hof].
  { split; intros k Hk; destruct (Hok k Hk) as [o Ho]; rewrite eval_operator_in in Ho by done;
      apply bind_Ok in Ho as (x & Hx & Ho); apply bind_Ok in Ho as (y & Hy & Ho); eauto. }
  destruct (Hl s) as (lv & s0 & Hrunl & [Hvl Hrl] & Hs0); [eapply shares_child; [done|set_solver+]|done|done|].
  destruct (Hfirst s0) as (fv & s1 & Hrunf & [Hvf Hrf] & Hs1); [eapply shares_child; [done|set_solver+]|done|done|].
  rewrite <- Hf in Hvf.
  assert (∀ k, k < n → ∃ o, (found ← eval_comparison COMPARE_EQUAL (return_type l) (row_value lv k) (row_value fv k);
    eval_in function_row (chunk_row chunk k) (return_type l) (row_value lv k) rest found) = Ok o) as HF.
  { intros k Hk. destruct (Hok k Hk) as [o Ho]. rewrite eval_operator_in in Ho by done. rewrite Hrl, Hrf in Ho by done. run_in Ho.
    apply bind_Ok in Ho as (w & Hw & Ho). apply bind_Ok in Ho as (w' & Hw' & _). rewrite Hw. eauto. }
  destruct (equal_step _ lv fv Hp Hvl Hvf) as (w & Hw & Hvw & Hrw).
  { intros k Hk. destruct (HF k Hk) as [o Ho]. apply bind_Ok in Ho as (z & ? & _). eauto. }
  destruct (in_loop _ lv Hp Hvl rest w s1) as (v & s' & Hrun & Hv & Hs' & Hr); [done|done| | |].
  { apply Forall_forall. intros e He. rewrite Forall_forall in Hrest. split_and!; [by apply Hrest| |].
    - eapply shares_child; [done|]. simpl. by do 2 right.
    - symmetry. eapply bool_decide_eq_true_1, Hty. right. apply in_map. by apply list_elem_of_In. }
  { intros k Hk. destruct (HF k Hk) as [o Ho]. rewrite Hrw in Ho by done. eauto. }
  destruct (not_step v Hv) as (v' & Hv' & Hvec' & Hr').
  set (res := match type with COMPARE_NOT_IN => v' | _ => v end).
  eapply (execute_verified _ _ s res s'); [done| | |done].
  - rewrite Hin. run_using Hrunl. run_using Hrunf. rewrite Hw. run. etransitivity; [exact (mbind_M_run _ _ _ _ _ Hrun)|].
    unfold res. destruct type; try done. by rewrite Hv'.
  - split; [unfold res; by destruct type|]. intros k Hk. rewrite eval_operator_in, Hrl, Hrf by done. run.
    rewrite Hrw by done. run. rewrite Hr by done. run. unfold res. destruct type; try done. by rewrite Hr'.
Qed.

Lemma operator_executes type t l :
  typed (BoundOperator type t l) = true → Forall executes l → executes (BoundOperator type t l).
Proof using Hn Hfun Henv Hchunk.
  intros Ht Hl. destruct (is_in type) eqn:Hin.
  { destruct l as [|l [|first rest]];
      [by simpl in Ht; unfold operator_typed in Ht; rewrite Hin, ?andb_false_r in Ht..|].
    rewrite !Forall_cons in Hl. destruct Hl as (? & ? & ?). by apply in_executes. }
  pose proof Ht as Hty. simpl in Hty. apply andb_true_iff in Hty as [_ Hty]. unfold operator_typed in Hty. rewrite Hin in Hty.
  destruct l as [|a [|b [|]]]; try done; cbn [map] in Hty.
  - rewrite Forall_singleton in Hl. apply andb_true_iff in Hty as [->%bool_decide_eq_true Hty].
    eapply (unary_executes _ a (execute_unary type) (eval_unary type)); try done; [..|set_solver+].
    + by destruct type.
    + by destruct type.
    + intros v Hv HF. eapply lift_unary; [done| |done|exact Hv|exact HF]. intros Hok Hva _.
      eapply unary_computes; [|done|done]. destruct type; try done. by apply bool_decide_eq_true in Hty.
  - rewrite !Forall_cons in Hl. destruct Hl as (Ha & Hb & _). rewrite !andb_true_iff, !bool_decide_eq_true in Hty.
    destruct Hty as [[Hta Htb] Hty]. destruct (arithmetic_of type) as [op|] eqn:Hop; [|done].
    eapply (binary_executes _ a b (execute_binary type) (eval_binary type t)); try done; [..|set_solver+|set_solver+].
    + by destruct type.
    + intros env. cbn [ExpressionRows.eval]. by rewrite Hin, Hta.
    + simpl. rewrite Hta, Htb. eapply arithmetic_computes; [done|]. by destruct op.
Qed.

(** The arguments of a function. *)
Definition execute_all : list Expression → M cse_cache (list Vector) :=
  fix execute_all (l : list Expression) : M cse_cache (list Vector) :=
    match l with
    | [] => mret []
    | c :: l' => v ← Execute chunk c; vs ← execute_all l'; mret (v :: vs)
    end.

Lemma all_executes l : ∀ s,
  Forall (fun e => executes e ∧ shares e ∧ succeeds e) l → cache_ok s →
  ∃ vs s', execute_all l s = (Ok vs, s') ∧ Forall2 computed l vs ∧ cache_ok s'.
Proof.
  induction l as [|e l IH]; intros s Hl Hs; [by exists [], s|].
  apply Forall_cons in Hl as [(Hex & Hsh & Hoe) Hl]. destruct (Hex s Hsh Hoe Hs) as (v & s1 & Hrun & Hv & Hs1).
  destruct (IH s1 Hl Hs1) as (vs & s' & Hruns & Hvs & Hs'). exists (v :: vs), s'.
  split; [|by split; [constructor|]]. cbn [execute_all]. run_using Hrun. etransitivity; [exact (mbind_M_run _ _ _ _ _ Hruns)|done].
Qed.

Lemma computed_rows l vs k : Forall2 computed l vs → k < n →
  mapM (eval (chunk_row chunk k)) l = Ok ((fun v => row_value v k) <$> vs).
Proof. intros Hvs Hk. apply mapM_Ok. induction Hvs as [|e v l vs [_ Hr] _ IH]; constructor; auto. Qed.

Lemma function_executes t f l :
  typed (BoundFunction t f l) = true → Forall executes l → executes (BoundFunction t f l).
Proof using Hn Hfun Hrowwise Hchunk.
  intros Ht Hl s Hsh Hok Hs. simpl in Ht. apply andb_true_iff in Ht as [[Htl _]%andb_true_iff Hf%bool_decide_eq_true].
  destruct (all_executes l s) as (vs & s' & Hrun & Hvs & Hs'); [|done|].
  { apply Forall_forall. intros e He. rewrite Forall_forall in Hl. split_and!; [by apply Hl|by eapply shares_child|].
    intros k Hk. destruct (Hok k Hk) as [o Ho]. rewrite eval_function in Ho. apply bind_Ok in Ho as (os & Hos%mapM_Ok & _).
    apply list_elem_of_lookup in He as [i Hi]. destruct (Forall2_lookup_l _ _ _ _ _ Hos Hi) as (o' & _ & ?). eauto. }
  destruct (Hrowwise f (map return_type l) t vs Hf) as (v & Hv & Hvec & Hrow).
  { clear -Hvs. induction Hvs as [|e v l vs [Hv _] _ IH]; constructor; auto. }
  { intros k Hk. destruct (Hok k Hk) as [o Ho]. rewrite eval_function, (computed_rows l vs k Hvs Hk) in Ho. eauto. }
  eapply (execute_verified _ _ s v s'); [done| | |done].
  - etransitivity; [exact (mbind_M_run _ _ _ _ _ Hrun)|]. rewrite Hv. run. destruct Hvec as (_ & -> & _).
    by rewrite bool_decide_eq_true_2.
  - split; [done|]. intros k Hk. rewrite eval_function, (computed_rows l vs k Hvs Hk). run. auto.
Qed.

Lemma cse_executes t id own a :
  typed (CommonSubExpression t id own a) = true → executes a → executes (CommonSubExpression t id own a).
Proof using Hchunk.
  intros Ht Ha s Hsh Hok Hs. simpl in Ht. apply andb_true_iff in Ht as [_ Ht%bool_decide_eq_true].
  assert (cse_of id = Some a) as Hid by (eapply Hsh; constructor).
  assert (∀ v, computed a v → computed (CommonSubExpression t id own a) v) as Hc.
  { intros v [Hv Hr]. split; [simpl; by rewrite <- Ht|done]. }
  destruct (s !! id) as [v|] eqn:E.
  - destruct (Hs id v E) as (e & He & Hv). rewrite Hid in He. injection He as <-.
    eapply (execute_verified _ _ s v s); [done| |by apply Hc|done]. run. by rewrite E.
  - destruct (Ha s) as (v & s' & Hrun & Hv & Hs'); [eapply shares_child; [done|set_solver+]|done|done|].
    eapply (execute_verified _ _ s v (<[id := v]> s')); [done| |by apply Hc|].
    + run. rewrite E. by run_using Hrun.
    + intros id' v' [[<- <-]|[_ Hv']]%lookup_insert_Some; [eauto|by apply Hs'].
Qed.

Lemma expression_executes e : typed e = true → executes e.
Proof using Hn Hfun Hrowwise Henv Hchunk.
  induction e as [e IH] using Expression_ind_children. intros Ht.
  assert (∀ c, c ∈ children_of e → typed c = true → executes c) as Hc by (rewrite Forall_forall in IH; auto).
  destruct e as [t i|t a b c|v|t nr value|t|t c a b|t a st tt|type l r|type l r|type t l|t f l|type t l|type t fr l|t l|t id own a];
    try done; clear IH; pose proof Ht as Hts; cbn [typed] in Hts; rewrite ?andb_true_iff in Hts; cbn [children_of EnumerateChildren] in Hc.
  - by apply reference_executes.
  - rewrite bool_decide_eq_true in Hts. by destruct Hts.
  - by apply constant_executes.
  - by apply parameter_executes.
  - apply case_executes; [done|apply Hc; [set_solver+|tauto]..].
  - apply cast_executes; [done|apply Hc; [set_solver+|tauto]].
  - apply comparison_executes; [done|apply Hc; [set_solver+|tauto]..].
  - apply conjunction_executes; [done|apply Hc; [set_solver+|tauto]..].
  - apply operator_executes; [done|]. destruct Hts as [Hts _]. rewrite forallb_forall in Hts.
    apply Forall_forall. intros e He. apply Hc; [done|]. by apply Hts, list_elem_of_In.
  - apply function_executes; [done|]. destruct Hts as [[Hts _] _]. rewrite forallb_forall in Hts.
    apply Forall_forall. intros e He. apply Hc; [done|]. by apply Hts, list_elem_of_In.
  - apply cse_executes; [done|apply Hc; [set_solver+|tauto]].
Qed.

(** ** Results of the shape of the chunk *)

Context (Hbuf : ∀ k, k < n → sel_at sel k < STANDARD_VECTOR_SIZE).

Lemma GetValue_row t v : proper t = true → vec t v → 0 < v_count v → GetValue v 0 = Ok (mkValue t (row_value v 0)).
Proof using.
  intros Hp (Hok & Ht & _) Hc. unfold GetValue, ValueIsNull. rewrite (proj2 (Nat.leb_gt (v_count v) 0)) by done.
  rewrite <- (cell_index_row v 0) by done. destruct (decide (cell_index v 0 ∈ v_null v)) as [Hnull|Hnull].
  - by rewrite bool_decide_eq_true_2, row_value_null, Ht.
  - rewrite bool_decide_eq_false_2 by done. destruct (operand_present v 0 Hok) as (x & -> & -> & Hx); [by left|done|]. run.
    rewrite Ht in *. destruct x as [w z|[str|]]; [|by destruct t|done]. by destruct t.
Qed.

(** A vector of the rows of the chunk. *)
Definition full (e : Expression) (v : Vector) : Prop := computed e v ∧ v_count v = n ∧ v_sel v = sel.

Lemma Vector_Set_rows t o :
  proper t = true → typed_cell t o →
  ∃ v, Vector_Set (mkVector t n ∅ sel ∅) (mkValue t o) = Ok v ∧ v_type v = t ∧ v_count v = n ∧ v_sel v = sel ∧
    ∀ k, k < n → row_is v k o.
Proof using Hbuf.
  intros Hp Ho. unfold Vector_Set. cbn [val_type val_data v_type v_count v_data v_sel]. rewrite bool_decide_eq_true_2 by done. run. cbn [val_data].
  destruct o as [x|].
  - match goal with |- context [write_rows ?f ?ix ?d] => destruct (write_rows_spec f ix d) as (d' & Hd & Hrow); [eauto|] end.
    eexists. split; [rewrite Hd; run; destruct t; done|]. split_and!; [done..|]. intros k Hk.
    apply row_is_vector; [done|]. split; [apply not_elem_of_empty|]. eapply Hrow; [|done]. apply exec_index_elem. eauto.
  - eexists. split_and!; [done..|]. intros k Hk. apply row_is_vector; [done|]. apply elem_of_list_to_set, elem_of_seq.
    split; [apply Nat.le_0_l|]. by apply Hbuf.
Qed.

Lemma ExecuteExpression_full c e s :
  chunk = Some c → chunk_size c = n → typed e = true → shares e → succeeds e → cache_ok s →
  ∃ v s', ExecuteExpression function_call chunk e (return_type e) s = (Ok v, s') ∧ full e v ∧ cache_ok s'.
Proof using Hn Hfun Hrowwise Henv Hchunk Hbuf.
  intros Hc Hsize Ht Hsh Hok Hs. destruct (expression_executes e Ht s Hsh Hok Hs) as (v & s' & Hrun & [Hv Hr] & Hs').
  assert (dc_sel c = sel) as Hsel by (pose proof Hchunk as H'; rewrite Hc in H'; apply H').
  pose proof (typed_proper _ _ _ _ Ht) as Hp. pose proof Hv as (Hvok & Hty & Hfits).
  unfold ExecuteExpression. setoid_rewrite (mbind_M_run _ _ _ _ _ Hrun). rewrite Hc, Hsize, Hsel.
  destruct ((v_count v =? 1) && ((1 <? n) || negb (bool_decide (v_sel v = sel)))) eqn:Hexp.
  - apply andb_true_iff in Hexp as [Hone%Nat.eqb_eq Hor].
    assert (IsConstant v = true) as Hconst.
    { destruct Hfits as [?|[Hcount Hs1]]; [done|]. rewrite Hs1, (bool_decide_eq_true_2 (sel = sel)), orb_false_r in Hor by done.
      apply Nat.ltb_lt in Hor. lia. }
    rewrite (GetValue_row (return_type e) v) by (done || lia).
    destruct (Vector_Set_rows (return_type e) (row_value v 0)) as (w & Hw & Htw & Hcw & Hsw & Hrow); [done|by eapply vec_cell|].
    exists w, s'. split; [|split; [split; [|done]|done]].
    + erewrite mbind_M_run; [by run; rewrite Htw, bool_decide_eq_true_2|].
      erewrite mbind_M_run; [by run; rewrite Hsw, bool_decide_eq_true_2|].
      run. by rewrite Hw.
    + assert (∀ k, k < n → row_value w k = row_value v k) as Hwv.
      { intros k Hk. rewrite (row_value_const v k 0 Hconst). by apply row_is_value, Hrow. }
      split; [|intros k Hk; rewrite Hwv by done; auto].
      apply (vec_intro sel n _ w (fun _ => row_value v 0)); [done..|by right| |].
      * rewrite Hcw, Hsw. done.
      * rewrite Hcw. intros k Hk. split; [by apply Hrow|by eapply vec_cell].
  - assert (v_count v = n ∧ v_sel v = sel) as [Hcount Hs1].
    { destruct Hfits as [[Hc1 Hs1]%IsConstant_true|?]; [|done]. rewrite Hc1 in *. cbn [Nat.eqb andb] in Hexp.
      apply orb_false_iff in Hexp as [Hlt%Nat.ltb_ge Heq]. apply negb_false_iff, bool_decide_eq_true in Heq. split; [lia|done]. }
    exists v, s'. split; [|done]. rewrite Hcount, Nat.eqb_refl. cbn [negb].
    erewrite mbind_M_run; [by run; rewrite Hty, bool_decide_eq_true_2|].
    erewrite mbind_M_run; [by run; rewrite Hs1, bool_decide_eq_true_2|done].
Qed.

(** A projection computes its columns. *)
Lemma Execute_list_full c es : chunk = Some c → chunk_size c = n → ∀ s,
  Forall (fun e => typed e = true ∧ shares e ∧ succeeds e) es → cache_ok s →
  ∃ vs s', Execute_list function_call chunk es (return_type <$> es) s = (Ok vs, s') ∧ Forall2 full es vs ∧ cache_ok s'.
Proof using Hn Hfun Hrowwise Henv Hchunk Hbuf.
  intros Hc Hsize. induction es as [|e es IH]; intros s Hes Hs; [by exists [], s|].
  apply Forall_cons in Hes as [(Ht & Hsh & Hok) Hes].
  destruct (ExecuteExpression_full c e s Hc Hsize Ht Hsh Hok Hs) as (v & s1 & Hrun & Hv & Hs1).
  destruct (IH s1 Hes Hs1) as (vs & s' & Hruns & Hvs & Hs'). exists (v :: vs), s'. split; [|by split; [constructor|]].
  cbn [Execute_list fmap list_fmap]. run_using Hrun. by run_using Hruns.
Qed.

Lemma and_step v w :
  vec T_BOOLEAN v → vec T_BOOLEAN w →
  ∃ u, Vector_And v w (EmptyVector T_BOOLEAN) = Ok u ∧ vec T_BOOLEAN u ∧
    ∀ k, k < n → eval_conjunction CONJUNCTION_AND (row_value v k) (row_value w k) = Ok (row_value u k).
Proof using Hn.
  intros Hv Hw. eapply (lift_binary sel n Hn (execute_conjunction CONJUNCTION_AND)); [by apply conjunction_computes|done|exact Hv|exact Hw|].
  intros k Hk. eexists. split; [done|]. intros x Hx. by eapply cell_ok_typed, bool_cells_ok.
Qed.

(** The predicate holds in row [k]. *)
Definition passes (k : nat) (e : Expression) : Prop := ∃ o, eval (chunk_row chunk k) e = Ok o ∧ cell_bool o = Some true.

Definition predicate (e : Expression) : Prop := typed e = true ∧ return_type e = T_BOOLEAN ∧ shares e ∧ succeeds e.

Lemma cell_bool_id o : cell_bool (bool_cell <$> o) = o.
Proof. by destruct o as [[]|]. Qed.

Lemma and_true v w u k :
  eval_conjunction CONJUNCTION_AND (row_value v k) (row_value w k) = Ok (row_value u k) →
  cell_bool (row_value u k) = Some true ↔ cell_bool (row_value v k) = Some true ∧ cell_bool (row_value w k) = Some true.
Proof.
  intros [= <-]. rewrite cell_bool_id.
  destruct (cell_bool (row_value v k)) as [[]|], (cell_bool (row_value w k)) as [[]|]; simpl; naive_solver.
Qed.

(** The conjunction with a vector of the shape of the chunk has that shape. *)
Definition shaped (v : Vector) : Prop := v_count v = n ∧ v_sel v = sel.

Lemma and_shape v w u : shaped v → fits sel n w → Vector_And v w (EmptyVector T_BOOLEAN) = Ok u → shaped u.
Proof using.
  unfold shaped. intros [Hc Hs] Hw. unfold Vector_And, templated_boolean_nullmask. destruct (_ || _); [done|].
  destruct (IsConstant v) eqn:Hv; [|destruct (IsConstant w) eqn:Hcw; [|destruct (v_count v =? v_count w); [|done]]].
  - intros (b & _ & ([d nl] & _ & Hu)%bind_Ok)%bind_Ok. injection Hu as <-. cbn [v_count v_sel]. apply IsConstant_true in Hv as [H1 H2].
    destruct Hw as [[H3 H4]%IsConstant_true|?]; [|done]. split; congruence.
  - intros (b & _ & ([d nl] & _ & Hu)%bind_Ok)%bind_Ok. by injection Hu as <-.
  - intros (b & _ & ([d nl] & _ & Hu)%bind_Ok)%bind_Ok. by injection Hu as <-.
Qed.

Lemma Merge_rest_rows es : ∀ v s, Forall predicate es → vec T_BOOLEAN v → shaped v → cache_ok s →
  ∃ u s', Merge_rest function_call chunk es v s = (Ok u, s') ∧ vec T_BOOLEAN u ∧ cache_ok s' ∧ shaped u ∧
    ∀ k, k < n → cell_bool (row_value u k) = Some true ↔ cell_bool (row_value v k) = Some true ∧ Forall (passes k) es.
Proof using Hn Hfun Hrowwise Henv Hchunk.
  induction es as [|e es IH]; intros v s Hes Hv Hshape Hs.
  { exists v, s. split_and!; try done. intros k Hk. split; [by split|by intros [? _]]. }
  apply Forall_cons in Hes as [(Ht & Hb & Hsh & Hok) Hes].
  destruct (expression_executes e Ht s Hsh Hok Hs) as (w & s1 & Hrun & [Hw Hr] & Hs1). rewrite Hb in Hw.
  destruct (and_step v w Hv Hw) as (x & Hx & Hvx & Hrx).
  assert (shaped x) as Hshx by (eapply and_shape; [exact Hshape|apply Hw|exact Hx]).
  destruct (IH x s1 Hes Hvx Hshx Hs1) as (u & s' & Hrun' & Hu & Hs' & Hshu & Hru). exists u, s'. split; [|split_and!; [done..|]].
  - cbn [Merge_rest]. run_using Hrun. pose proof Hv as (_ & -> & _). pose proof Hw as (_ & -> & _).
    rewrite bool_decide_eq_true_2 by done. run. by rewrite Hx.
  - intros k Hk. rewrite Hru, (and_true v w x k) by auto. rewrite Forall_cons. unfold passes at 2. rewrite Hr by done. naive_solver.
Qed.

(** The vector of a filter is true in the rows in which all its predicates are. *)
Lemma Merge_rows c es s : chunk = Some c → chunk_size c = n → es ≠ [] → Forall predicate es → cache_ok s →
  ∃ v s', Merge function_call chunk es s = (Ok v, s') ∧ vec T_BOOLEAN v ∧ shaped v ∧
    ∀ k, k < n → cell_bool (row_value v k) = Some true ↔ Forall (passes k) es.
Proof using Hn Hfun Hrowwise Henv Hchunk Hbuf.
  intros Hc Hsize Hne Hes Hs. destruct es as [|e es]; [done|]. apply Forall_cons in Hes as [(Ht & Hb & Hsh & Hok) Hes].
  destruct (ExecuteExpression_full c e s Hc Hsize Ht Hsh Hok Hs) as (v & s1 & Hrun & [[Hv Hr] Hshape] & Hs1). rewrite Hb in *.
  destruct (Merge_rest_rows es v s1 Hes Hv Hshape Hs1) as (u & s' & Hrun' & Hu & _ & Hshu & Hru). exists u, s'.
  split; [|split_and!; [done..|]]; [cbn [Merge]; by run_using Hrun|].
  intros k Hk. rewrite Hru, Forall_cons by done. unfold passes at 2. rewrite Hr by done. naive_solver.
Qed.
End execution.

(** ** Constant expressions *)

Lemma with_own_children e : with_children e (children_of e) = e.
Proof. by destruct e. Qed.

Lemma scalar_children e c : IsScalar e = true → c ∈ children_of e → IsScalar c = true.
Proof.
  intros Hs Hc.
  assert (∀ l, forallb IsScalar l = true → c ∈ l → IsScalar c = true) as Hl.
  { intros l Hl Hin. rewrite forallb_forall in Hl. by apply Hl, list_elem_of_In. }
  destruct e; cbn [IsScalar children_of EnumerateChildren] in *; rewrite ?andb_true_iff in Hs;
    try (by apply elem_of_nil in Hc); try (by eapply Hl); try done; set_solver.
Qed.

Section scalars.
Context `{!FloatText}.
Context (function_call : nat → list Vector → result Vector).
Context (function_row : nat → list (option cell) → result (option cell)).
Context (function_type : nat → list TypeId → option TypeId).
Context (Hfun : functions_typed function_row function_type).
Context (Hrowwise : functions_rowwise function_call function_row function_type None 1).

Abbreviation eval := (eval function_row).
Abbreviation typed := (typed function_type).

(** A scalar expression has the same value in every row. *)
Lemma eval_scalar env env' e o : IsScalar e = true → eval env e = Ok o → eval env' e = Ok o.
Proof using.
  clear. revert o. induction e as [e IH] using Expression_ind_children. intros o Hs Ho.
  rewrite <- (with_own_children e). eapply eval_with_children; [|..|done]; [by destruct e|].
  assert (∀ c, c ∈ children_of e → same_value function_row env env' c c) as Hc.
  { intros c Hc. split; [done|]. rewrite Forall_forall in IH. intros o' Ho'. apply IH; [done| |done]. by eapply scalar_children. }
  clear -Hc. induction (children_of e) as [|c l IHl]; constructor; [apply Hc; left|]. apply IHl. intros c' Hc'. apply Hc. by right.
Qed.

(** and the types of the columns do not matter. *)
Lemma typed_scalar ref_type col_type ref_type' col_type' e :
  IsScalar e = true → typed ref_type col_type e = true → typed ref_type' col_type' e = true.
Proof using.
  clear. induction e as [e IH] using Expression_ind_children. intros Hs Ht.
  assert (∀ c, c ∈ children_of e → typed ref_type col_type c = true → typed ref_type' col_type' c = true) as Hc.
  { rewrite Forall_forall in IH. intros c Hc. apply IH; [done|]. by eapply scalar_children. }
  assert (∀ l, children_of e = l → forallb (typed ref_type col_type) l = true → forallb (typed ref_type' col_type') l = true) as Hl.
  { intros l <- Hts. rewrite forallb_forall in *. intros c Hin. apply Hc; [by apply list_elem_of_In|by apply Hts]. }
  clear IH. destruct e; cbn [ExpressionRows.typed IsScalar] in *; rewrite ?andb_true_iff in *; cbn [children_of EnumerateChildren] in *;
    try done; try (split_and!; try tauto; apply Hl; [done|tauto]); try tauto.
  all: split_and!; try tauto; apply Hc; try tauto; set_solver+.
Qed.

Lemma scalar_shares e : IsScalar e = true → shares (fun _ => None) e.
Proof using.
  intros Hs t id own a Hsub. exfalso. induction Hsub as [|e c Hc _ IH]; [done|]. apply IH. by eapply scalar_children.
Qed.

(** [EvaluateScalar] gives the value of a scalar expression. *)
Lemma EvaluateScalar_value ref_type col_type env e o :
  typed ref_type col_type e = true → IsScalar e = true → eval env e = Ok o →
  EvaluateScalar function_call e = Ok (mkValue (return_type e) o).
Proof using Hfun Hrowwise.
  intros Ht Hs Ho. apply (typed_scalar _ _ (fun _ => None) (fun _ _ _ => None)) in Ht; [|done].
  pose proof (typed_proper _ _ _ _ Ht) as Hp. unfold EvaluateScalar. rewrite Hs. run.
  destruct (expression_executes function_call function_row function_type (fun _ => None) (fun _ => None) None 1 Nat.lt_0_1 None
    Hfun Hrowwise ltac:(done) ltac:(by intros; split) e Ht ∅) as (v & s' & Hrun & [Hv Hr] & _).
  { by apply scalar_shares. }
  { intros k _. exists o. by eapply eval_scalar. }
  { intros id v Hid. exact (False_ind _ (lookup_empty_Some id v Hid)). }
  unfold ExecuteExpression. rewrite (mbind_M_run _ _ _ _ _ Hrun). pose proof Hv as (_ & Hty & Hf).
  assert (v_count v = 1) as Hone by (by destruct Hf as [[? _]%IsConstant_true|[? _]]).
  rewrite (mbind_M_run _ _ _ v s') by done. rewrite Hty, bool_decide_eq_true_2 by done. run. cbn [mret M_ret mret_M fst]. run.
  rewrite (GetValue_row None 1 (return_type e) v), Hone by (done || lia). cbn [Nat.eqb]. run.
  specialize (Hr 0 Nat.lt_0_1). rewrite (eval_scalar env _ e o Hs Ho) in Hr. congruence.
Qed.
End scalars.
