(* ===== verification/ChunkCollection.v ===== *)
(** * Collections of chunks

    Copying and appending of vectors and chunks, and the collection of chunks
    that the blocking operators materialise their input in (chunk_collection.cpp):
    appending adds the rows of a chunk, and a position addresses the row of that
    number. *)

From Stdlib Require Import ZArith Lia.
From stdpp Require Import base gmap list strings option numbers sorting relations.
From S2P Require Import Prelude Types Vector Serializer StringStream DateTime KeyTuples Operators VectorOps Like Casts Value Expressions ExpressionRows ExecutorProofs.

(** ** The rows of chunks *)

Abbreviation row := (list (option cell)).

(** The values of a vector, and the rows of a chunk. *)
Definition column_values (v : Vector) : list (option cell) := row_value v <$> seq 0 (v_count v).
Definition row_at (c : DataChunk) (k : nat) : row := (fun v => row_value v k) <$> dc_data c.
Definition chunk_rows (c : DataChunk) : list row := row_at c <$> seq 0 (chunk_size c).

(** A column of [n] values of type [t], selected by [sel]. *)
Record column_ok (sel : option (list nat)) (n : nat) (t : TypeId) (v : Vector) : Prop := {
  col_type : v_type v = t;
  col_count : v_count v = n;
  col_sel : v_sel v = sel;
  col_operand : operand_ok v;
  col_cells : ∀ k, k < n → cells_ok t (row_value v k) }.

(** A chunk with columns of the types [ts]. *)
Record typed_chunk (ts : list TypeId) (c : DataChunk) : Prop := {
  tc_nonempty : ts ≠ [];
  tc_columns : Forall2 (column_ok (dc_sel c) (chunk_size c)) ts (dc_data c);
  tc_size : chunk_size c ≤ STANDARD_VECTOR_SIZE }.

Lemma chunk_rows_length c : length (chunk_rows c) = chunk_size c.
Proof. unfold chunk_rows. by rewrite length_fmap, length_seq. Qed.

Lemma chunk_rows_lookup c k : k < chunk_size c → chunk_rows c !! k = Some (row_at c k).
Proof. intros Hk. unfold chunk_rows. rewrite list_lookup_fmap, lookup_seq_lt by done. done. Qed.

Lemma typed_chunk_types ts c : typed_chunk ts c → GetTypes c = ts.
Proof.
  intros [_ Hc _]. unfold GetTypes. induction Hc as [|t v ts vs Hv _ IH]; [done|]. cbn [fmap list_fmap]. by rewrite IH, (col_type _ _ _ _ Hv).
Qed.

Lemma typed_chunk_columns ts c : typed_chunk ts c → column_count c = length ts.
Proof. intros [_ Hc _]. unfold column_count. symmetry. by eapply Forall2_length. Qed.

(** A value of a vector without selection vector. *)
Lemma flat_value v k : v_sel v = None → k < v_count v → row_value v k = if decide (k ∈ v_null v) then None else v_data v !! k.
Proof. intros Hs Hk. unfold row_value. rewrite cell_index_row by done. by rewrite Hs. Qed.

Lemma selected_value v k : k < v_count v →
  row_value v k = if decide (sel_at (v_sel v) k ∈ v_null v) then None else v_data v !! sel_at (v_sel v) k.
Proof. intros Hk. unfold row_value. by rewrite cell_index_row. Qed.

(** Vectors with the same values are equally good columns. *)
Lemma column_ok_flat sel n t v w m (f : nat → nat) :
  column_ok sel n t v → v_type w = t → v_count w = m → v_sel w = None → m ≤ STANDARD_VECTOR_SIZE →
  (∀ k, k < m → f k < n ∧ row_value w k = row_value v (f k) ∧ (k ∈ v_null w ↔ sel_at sel (f k) ∈ v_null v)) →
  column_ok None m t w.
Proof.
  intros [Ht Hc Hs [[Hnull Hd] Hb] Hcells] Htw Hcw Hsw Hm Hrows. split; try done.
  - split; [split|].
    + by rewrite Htw, <- Ht.
    + rewrite Hcw, Hsw, Htw. intros k Hk Hn. simpl in *. destruct (Hrows k Hk) as (Hf & Hval & Hiff).
      destruct (Hd (f k)) as (x & Hx & Hty); [by rewrite Hc|rewrite Hs; tauto|]. exists x. rewrite Ht in Hty. split; [|done].
      rewrite (flat_value w) in Hval by (rewrite ?Hcw; done). rewrite decide_False in Hval by done.
      rewrite selected_value in Hval by (by rewrite Hc). rewrite Hs in Hval, Hx. rewrite decide_False in Hval by tauto. congruence.
    + rewrite Hcw, Hsw. simpl. intros k Hk. lia.
  - intros k Hk. destruct (Hrows k Hk) as (Hf & -> & _). auto.
Qed.

(** ** Copies *)

Lemma set_nulls_spec s at_ bs k :
  k ∈ set_nulls s at_ bs ↔ if decide (at_ ≤ k < at_ + length bs) then bs !! (k - at_) = Some true else k ∈ s.
Proof.
  unfold set_nulls. revert s. induction bs as [|b bs IH] using rev_ind; intros s.
  { simpl. rewrite decide_False by lia. done. }
  rewrite imap_app, foldl_app. simpl. rewrite length_app. simpl. rewrite Nat.add_0_r.
  destruct (decide (k = at_ + length bs)) as [->|Hne].
  - rewrite decide_True by lia. replace (at_ + length bs - at_) with (length bs) by lia.
    rewrite lookup_app_r, Nat.sub_diag by lia. simpl. destruct b; set_solver.
  - assert (k ∈ (if b then {[at_ + length bs]} ∪ foldl (fun s (ib : nat * bool) =>
      if ib.2 then {[at_ + ib.1]} ∪ s else s ∖ {[at_ + ib.1]}) s (imap pair bs)
      else foldl (fun s (ib : nat * bool) => if ib.2 then {[at_ + ib.1]} ∪ s else s ∖ {[at_ + ib.1]}) s (imap pair bs) ∖ {[at_ + length bs]})
      ↔ k ∈ foldl (fun s (ib : nat * bool) => if ib.2 then {[at_ + ib.1]} ∪ s else s ∖ {[at_ + ib.1]}) s (imap pair bs)) as ->
      by (destruct b; set_solver).
    rewrite IH. destruct (decide (at_ ≤ k < at_ + length bs)).
    + rewrite decide_True by lia. by rewrite lookup_app_l by lia.
    + rewrite decide_False by lia. done.
Qed.

(** The positions of the copies of the elements from [offset] on. *)
Definition positions (v : Vector) (offset : nat) : list (nat * nat) := exec_indexes (v_sel v) (v_count v) offset.

Lemma positions_lookup v offset k : k < v_count v - offset → positions v offset !! k = Some (sel_at (v_sel v) (offset + k), offset + k).
Proof.
  intros Hk. unfold positions, exec_indexes. rewrite list_lookup_fmap, lookup_seq_lt by done. done.
Qed.

Lemma positions_length v offset : length (positions v offset) = v_count v - offset.
Proof. unfold positions, exec_indexes. by rewrite length_fmap, length_seq. Qed.

Lemma positions_in v offset ik : ik ∈ positions v offset → ∃ k, k < v_count v ∧ ik = (sel_at (v_sel v) k, k).
Proof.
  unfold positions, exec_indexes. intros (k & -> & Hk%elem_of_seq)%list_elem_of_fmap. exists k. split; [lia|done].
Qed.

Definition copied (v : Vector) (string : bool) (ik : nat * nat) : option cell :=
  if string && bool_decide (ik.1 ∈ v_null v) then Some (Str None) else v_data v !! ik.1.

Lemma copied_cells v offset : vector_ok v → mapM (copied_cell v) (positions v offset) = Ok (copied v false <$> positions v offset).
Proof.
  intros [_ Hv]. apply mapM_Ok_ext. intros ik (k & Hk & ->)%positions_in. unfold copied_cell, copied. simpl.
  case_bool_decide as Hn; [done|]. destruct (Hv k Hk Hn) as (x & -> & _). by run.
Qed.

Lemma copied_strings v offset : vector_ok v → mapM (copied_string v) (positions v offset) = Ok (copied v true <$> positions v offset).
Proof.
  intros [_ Hv]. apply mapM_Ok_ext. intros ik (k & Hk & ->)%positions_in. unfold copied_string, copied. simpl.
  case_bool_decide as Hn; [done|]. destruct (Hv k Hk Hn) as (x & -> & _). by run.
Qed.

(** What is written at the position of the value [k]. *)
Lemma copied_lookup v s offset k : k < v_count v - offset →
  (copied v s <$> positions v offset) !! k = Some (copied v s (sel_at (v_sel v) (offset + k), offset + k)).
Proof. intros Hk. by rewrite list_lookup_fmap, positions_lookup. Qed.

Definition nulls_of (v : Vector) (offset : nat) : list bool := (fun ik => bool_decide (ik.1 ∈ v_null v)) <$> positions v offset.

Lemma nulls_of_lookup v offset k : k < v_count v - offset →
  nulls_of v offset !! k = Some (bool_decide (sel_at (v_sel v) (offset + k) ∈ v_null v)).
Proof. intros Hk. unfold nulls_of. by rewrite list_lookup_fmap, positions_lookup. Qed.

Lemma nulls_of_length v offset : length (nulls_of v offset) = v_count v - offset.
Proof. unfold nulls_of. by rewrite length_fmap, positions_length. Qed.

Lemma Vector_Copy_spec sel n t v offset : column_ok sel n t v → offset < n → n ≤ STANDARD_VECTOR_SIZE →
  ∃ w, Vector_Copy v (EmptyVector t) offset = Ok w ∧ column_ok None (n - offset) t w ∧ ∀ k, k < n - offset → row_value w k = row_value v (offset + k).
Proof.
  intros Hv Hoff Hn. pose proof Hv as [Ht Hc Hs [Hok Hb] Hcells]. destruct (proj1 Hok) as [null Hnull].
  assert (∃ s, Vector_Copy v (EmptyVector t) offset = Ok (mkVector t (n - offset) (write_cells ∅ 0 (copied v s <$> positions v offset)) None
    (mark_nulls ∅ 0 (nulls_of v offset)))) as (s & ->).
  { unfold Vector_Copy. cbn [EmptyVector v_type v_sel v_data]. rewrite Ht, bool_decide_eq_true_2, Hc by done. cbn [negb].
    replace (offset <=? n) with true by (symmetry; apply Nat.leb_le; lia). fold (positions v offset).
    unfold Copy_data. rewrite Ht, Hc. destruct (TypeIsConstantSize t) eqn:E; cbn [negb].
    - exists false. run. rewrite (proj2 (Nat.eqb_neq n 0)), (proj2 (Nat.eqb_neq (n - offset) 0)) by lia.
      replace (offset + (n - offset) <=? n) with true by (symmetry; apply Nat.leb_le; lia). run. rewrite <- Ht, Hnull. run.
      replace (n - offset + offset) with n by lia. rewrite <- Hc. fold (positions v offset). rewrite copied_cells by done. by run.
    - exists true. rewrite bool_decide_eq_true_2 by (rewrite <- Ht in *; destruct (v_type v); done). cbn [andb]. run.
      rewrite <- Hc. fold (positions v offset). rewrite copied_strings by done. by run. }
  eexists. split; [done|].
  assert (∀ k, k < n - offset → row_value (mkVector t (n - offset) (write_cells ∅ 0 (copied v s <$> positions v offset)) None
    (mark_nulls ∅ 0 (nulls_of v offset))) k = row_value v (offset + k) ∧
    (k ∈ mark_nulls ∅ 0 (nulls_of v offset) ↔ sel_at sel (offset + k) ∈ v_null v)) as Hrows.
  { intros k Hk. assert (k ∈ mark_nulls ∅ 0 (nulls_of v offset) ↔ sel_at sel (offset + k) ∈ v_null v) as Hiff.
    { rewrite mark_nulls_spec, Nat.sub_0_r, nulls_of_lookup, Hs by (rewrite Hc; lia).
      destruct (bool_decide_reflect (sel_at sel (offset + k) ∈ v_null v)); set_solver by lia. }
    split; [|done]. rewrite flat_value by done. cbn [v_null v_data]. rewrite selected_value by (rewrite Hc; lia). rewrite Hs.
    destruct (decide (sel_at sel (offset + k) ∈ v_null v)) as [Hnl|Hnl].
    - by rewrite decide_True by tauto.
    - rewrite decide_False by tauto. rewrite write_cells_lookup, decide_True by (rewrite length_fmap, positions_length, Hc; lia).
      rewrite Nat.sub_0_r, copied_lookup by (rewrite Hc; lia). simpl. unfold copied. simpl. rewrite Hs, bool_decide_eq_false_2, andb_false_r by done. done. }
  split; [|by apply Hrows]. eapply (column_ok_flat sel n t v _ _ (fun k => offset + k)); try done; [cbn [v_count]; lia|].
  intros k Hk. destruct (Hrows k Hk) as [Hval Hiff]. split; [lia|]. done.
Qed.

(** Truncating a column to its first values. *)
Definition with_count (m : nat) (v : Vector) : Vector := mkVector (v_type v) m (v_data v) (v_sel v) (v_null v).

Lemma with_count_value v m k : k < m → m ≤ v_count v → row_value (with_count m v) k = row_value v k.
Proof. intros Hk Hm. by rewrite !selected_value by (cbn [with_count v_count]; lia). Qed.

Lemma with_count_ok sel n t v m : column_ok sel n t v → m ≤ n → column_ok sel m t (with_count m v).
Proof.
  intros [Ht Hc Hs [[Hnull Hd] Hb] Hcells] Hm. split; try done.
  - split; [split; [done|]|]; cbn [with_count v_count v_sel v_data v_type v_null]; intros k Hk; [apply Hd|apply Hb]; lia.
  - intros k Hk. rewrite with_count_value by lia. apply Hcells. lia.
Qed.

Lemma Vector_Append_spec sel n m t v other : column_ok None n t v → column_ok sel m t other → 0 < m → n + m ≤ STANDARD_VECTOR_SIZE →
  ∃ w, Vector_Append v other = Ok w ∧ column_ok None (n + m) t w ∧
    (∀ k, k < n → row_value w k = row_value v k) ∧ ∀ k, k < m → row_value w (n + k) = row_value other k.
Proof.
  intros Hv Ho Hm0 Hsize. pose proof Hv as [Ht Hc Hs [Hok Hb] Hcells]. pose proof Ho as [Hto Hco Hso [Hoko Hbo] Hcellso].
  destruct (proj1 Hoko) as [null Hnull].
  assert (∃ s, Vector_Append v other = Ok (mkVector t (n + m) (write_cells (v_data v) n (copied other s <$> positions other 0)) None
    (set_nulls (v_null v) n (nulls_of other 0)))) as (s & ->).
  { unfold Vector_Append. rewrite Hs, Ht, Hto, Hc, Hco, bool_decide_eq_true_2 by done. cbn [negb].
    rewrite (proj2 (Nat.ltb_ge STANDARD_VECTOR_SIZE (n + m))) by done. rewrite <- Hco. fold (positions other 0).
    unfold Copy_data. rewrite Hto. destruct (TypeIsConstantSize t) eqn:E; cbn [negb].
    - exists false. rewrite (proj2 (Nat.eqb_neq (v_count other) 0)) by lia. cbn [Nat.eqb]. rewrite Nat.add_0_l, Nat.add_0_r, Nat.leb_refl. run.
      rewrite <- Hto, Hnull. run. fold (positions other 0). rewrite copied_cells by done. by run.
    - exists true. rewrite bool_decide_eq_true_2 by (rewrite <- Hto in *; destruct (v_type other); done). run.
      rewrite copied_strings by done. by run. }
  set (w := mkVector _ _ _ _ _). exists w. split; [done|].
  assert (∀ k, k < n → row_value w k = row_value v k ∧ (k ∈ v_null w ↔ k ∈ v_null v)) as Hold.
  { intros k Hk. assert (k ∈ v_null w ↔ k ∈ v_null v) as Hiff.
    { unfold w. cbn [v_null]. rewrite set_nulls_spec, decide_False by lia. done. }
    split; [|done]. rewrite !flat_value by (cbn [w v_count]; first [done|lia]).
    destruct (decide (k ∈ v_null v)); [by rewrite decide_True by tauto|]. rewrite decide_False by tauto. unfold w. cbn [v_data].
    rewrite write_cells_lookup, decide_False by lia. done. }
  assert (∀ k, k < m → row_value w (n + k) = row_value other k ∧ (n + k ∈ v_null w ↔ sel_at sel k ∈ v_null other)) as Hnew.
  { intros k Hk. assert (n + k ∈ v_null w ↔ sel_at sel k ∈ v_null other) as Hiff.
    { unfold w. cbn [v_null]. rewrite set_nulls_spec, decide_True by (rewrite nulls_of_length; lia).
      replace (n + k - n) with k by lia. rewrite nulls_of_lookup, Hso by lia. simpl. split; [intros [= ?%bool_decide_eq_true]; done|].
      intros Hn. by rewrite bool_decide_eq_true_2. }
    split; [|done]. rewrite flat_value by (cbn [w v_count]; first [done|lia]). rewrite selected_value by lia. rewrite Hso.
    destruct (decide (sel_at sel k ∈ v_null other)); [by rewrite decide_True by tauto|]. rewrite decide_False by tauto. unfold w. cbn [v_data].
    rewrite write_cells_lookup, decide_True by (rewrite length_fmap, positions_length; lia). replace (n + k - n) with k by lia.
    rewrite copied_lookup by lia. simpl. unfold copied. simpl. rewrite Hso, bool_decide_eq_false_2, andb_false_r by done. done. }
  split; [|split; [apply Hold|apply Hnew]]. split; try done.
  - split; [split|].
    + cbn [w v_type]. rewrite <- Ht. apply Hok.
    + cbn [w v_count v_sel v_type]. intros k Hk Hn. simpl in Hn |- *. destruct (decide (k < n)) as [Hlt|Hge].
      * destruct (Hold k Hlt) as [Hval Hiff]. destruct (proj2 Hok k) as (x & Hx & Hty); [lia|rewrite Hs; simpl; tauto|].
        rewrite Hs in Hx. simpl in Hx. exists x. rewrite <- Ht. split; [|done]. rewrite !flat_value in Hval by (cbn [w v_count]; first [done|lia]).
        rewrite !decide_False in Hval by tauto. rewrite Hx in Hval. exact Hval.
      * replace k with (n + (k - n)) in * by lia. destruct (Hnew (k - n)) as [Hval Hiff]; [lia|].
        destruct (proj2 Hoko (k - n)) as (x & Hx & Hty); [lia|rewrite Hso; tauto|]. exists x. rewrite <- Hto. split; [|done].
        rewrite flat_value in Hval by (cbn [w v_count]; first [done|lia]). rewrite selected_value, Hso in Hval by lia. rewrite Hso in Hx.
        rewrite !decide_False in Hval by tauto. rewrite Hx in Hval. exact Hval.
    + cbn [w v_count v_sel]. simpl. intros k Hk. lia.
  - intros k Hk. destruct (decide (k < n)) as [Hlt|Hge]; [rewrite (proj1 (Hold k Hlt)); auto|].
    replace k with (n + (k - n)) by lia. rewrite (proj1 (Hnew (k - n) ltac:(lia))). apply Hcellso. lia.
Qed.

(** ** Chunks *)

Lemma columns_size sel m ts vs : ts ≠ [] → Forall2 (column_ok sel m) ts vs → ∀ s, chunk_size (mkDataChunk vs s) = m.
Proof. intros Hne Hvs s. destruct Hvs as [|t v ts vs Hv _]; [done|]. apply Hv. Qed.

Lemma columns_chunk sel m ts vs : ts ≠ [] → Forall2 (column_ok sel m) ts vs → m ≤ STANDARD_VECTOR_SIZE → typed_chunk ts (mkDataChunk vs sel).
Proof. intros Hne Hvs Hm. split; [done| |]; rewrite (columns_size sel m ts) by done; done. Qed.

Lemma columns_row (vs ws : list Vector) k k' :
  Forall2 (fun w v => row_value w k = row_value v k') ws vs → (fun v => row_value v k) <$> ws = (fun v => row_value v k') <$> vs.
Proof. induction 1 as [|w v ws vs Hwv _ IH]; [done|]. cbn [fmap list_fmap]. by rewrite Hwv, IH. Qed.

Lemma map2M_columns (f : Vector → Vector → result Vector) P Q (R : TypeId → Vector → Prop) (S : Vector → Vector → Vector → Prop) ts vs os :
  Forall2 P ts vs → Forall2 Q ts os → (∀ t v o, P t v → Q t o → ∃ w, f v o = Ok w ∧ R t w ∧ S w v o) →
  ∃ ws, map2M f vs os = Ok ws ∧ Forall2 R ts ws ∧ Forall3 S ws vs os.
Proof.
  intros Hvs. revert os. induction Hvs as [|t v ts vs Hv _ IH]; intros os Hos Hf.
  - apply Forall2_nil_inv_l in Hos as ->. exists []. split; [done|]. split; constructor.
  - apply Forall2_cons_inv_l in Hos as (o & os' & Ho & Hos & ->). destruct (Hf t v o Hv Ho) as (w & Hw & HR & HS).
    destruct (IH os' Hos Hf) as (ws & Hws & HRs & HSs). exists (w :: ws). cbn [map2M]. rewrite Hw. run. rewrite Hws. run.
    split; [done|]. by split; constructor.
Qed.

Lemma Forall3_12 {A B C} (S : A → B → C → Prop) (R : A → B → Prop) l k m : (∀ x y z, S x y z → R x y) → Forall3 S l k m → Forall2 R l k.
Proof. intros H. induction 1; constructor; eauto. Qed.

Lemma Forall3_13 {A B C} (S : A → B → C → Prop) (R : A → C → Prop) l k m : (∀ x y z, S x y z → R x z) → Forall3 S l k m → Forall2 R l m.
Proof. intros H. induction 1; constructor; eauto. Qed.

Lemma Forall2_same {A B} (P : A → B → Prop) (f : A → B) l : (∀ x, P x (f x)) → Forall2 P l (f <$> l).
Proof. intros H. induction l; constructor; auto. Qed.

Lemma DataChunk_Copy_spec ts c offset : typed_chunk ts c → offset < chunk_size c →
  ∃ d, DataChunk_Copy c (DataChunk_Initialize ts) offset = Ok d ∧ typed_chunk ts d ∧ dc_sel d = None ∧ chunk_rows d = drop offset (chunk_rows c).
Proof.
  intros Hc Hoff. pose proof Hc as [Hne Hcols Hsize].
  destruct (map2M_columns (fun v o => Vector_Copy v o offset) (column_ok (dc_sel c) (chunk_size c)) (fun t o => o = EmptyVector t)
    (column_ok None (chunk_size c - offset)) (fun w v _ => ∀ k, k < chunk_size c - offset → row_value w k = row_value v (offset + k))
    ts (dc_data c) (EmptyVector <$> ts) Hcols) as (ws & Hws & Hokw & Hval).
  { by apply Forall2_same. }
  { intros t v o Hv ->. by eapply Vector_Copy_spec. }
  exists (mkDataChunk ws None). split.
  { unfold DataChunk_Copy. unfold column_count at 2. cbn [DataChunk_Initialize dc_data]. rewrite length_fmap, (typed_chunk_columns ts) by done.
    rewrite Nat.eqb_refl. run. rewrite Hws. by run. }
  split; [eapply columns_chunk; [done|done|lia]|]. split; [done|].
  unfold chunk_rows. rewrite (columns_size None (chunk_size c - offset) ts) by done.
  apply list_eq. intros k. rewrite lookup_drop, !list_lookup_fmap. destruct (decide (k < chunk_size c - offset)) as [Hk|Hk].
  - rewrite !lookup_seq_lt by lia. simpl. f_equal. apply columns_row. eapply Forall3_12; [|exact Hval]. intros w v o Hwv. by apply Hwv.
  - rewrite !lookup_seq_ge by lia. done.
Qed.

Lemma DataChunk_Append_spec ts c d : typed_chunk ts c → dc_sel c = None → typed_chunk ts d → 0 < chunk_size d →
  chunk_size c + chunk_size d ≤ STANDARD_VECTOR_SIZE →
  ∃ r, DataChunk_Append c d = Ok r ∧ typed_chunk ts r ∧ dc_sel r = None ∧ chunk_rows r = chunk_rows c ++ chunk_rows d.
Proof.
  intros Hc Hsel Hd Hpos Hsize. pose proof Hc as [Hne Hcols _]. pose proof Hd as [_ Hcold _]. rewrite Hsel in Hcols.
  destruct (map2M_columns Vector_Append (column_ok None (chunk_size c)) (column_ok (dc_sel d) (chunk_size d))
    (column_ok None (chunk_size c + chunk_size d)) (fun w v o => (∀ k, k < chunk_size c → row_value w k = row_value v k) ∧
      ∀ k, k < chunk_size d → row_value w (chunk_size c + k) = row_value o k)
    ts (dc_data c) (dc_data d) Hcols Hcold) as (ws & Hws & Hokw & Hval).
  { intros t v o Hv Ho. by eapply Vector_Append_spec. }
  exists (mkDataChunk ws None). split.
  { unfold DataChunk_Append. rewrite (proj2 (Nat.eqb_neq (chunk_size d) 0)) by lia.
    rewrite (typed_chunk_columns ts c), (typed_chunk_columns ts d), Nat.eqb_refl, Hws, Hsel by done. by run. }
  split; [eapply columns_chunk; [done|done|lia]|]. split; [done|].
  unfold chunk_rows. rewrite (columns_size None (chunk_size c + chunk_size d) ts), seq_app, fmap_app by done. f_equal.
  - apply list_fmap_ext. intros i k [Hk ?]%lookup_seq. apply columns_row. eapply Forall3_12; [|exact Hval]. intros w v o [Hwv _]. apply Hwv. lia.
  - apply list_eq. intros k. rewrite !list_lookup_fmap. destruct (decide (k < chunk_size d)) as [Hk|Hk].
    + rewrite !lookup_seq_lt by lia. simpl. f_equal. apply columns_row. eapply Forall3_13; [|exact Hval]. intros w v o [_ Hwo]. by apply Hwo.
    + rewrite !lookup_seq_ge by lia. done.
Qed.

(** The first rows of a chunk. *)
Definition chunk_prefix (m : nat) (c : DataChunk) : DataChunk := mkDataChunk (with_count m <$> dc_data c) (dc_sel c).

Lemma chunk_prefix_spec ts c m : typed_chunk ts c → m ≤ chunk_size c →
  typed_chunk ts (chunk_prefix m c) ∧ chunk_size (chunk_prefix m c) = m ∧ chunk_rows (chunk_prefix m c) = take m (chunk_rows c).
Proof.
  intros [Hne Hcols Hsize] Hm.
  assert (Forall2 (column_ok (dc_sel c) m) ts (with_count m <$> dc_data c)) as Hokw.
  { apply Forall2_fmap_r. eapply Forall2_impl; [exact Hcols|]. intros t v Hv. by eapply with_count_ok. }
  assert (chunk_size (chunk_prefix m c) = m) as Hs by (by eapply columns_size).
  split; [eapply columns_chunk; [done|done|lia]|]. split; [done|]. unfold chunk_rows. rewrite Hs.
  apply list_eq. intros k. destruct (decide (k < m)) as [Hk|Hk].
  - rewrite lookup_take_lt by done. rewrite !list_lookup_fmap, !lookup_seq_lt by lia. simpl. f_equal. unfold row_at, chunk_prefix. cbn [dc_data].
    rewrite <- list_fmap_compose. apply list_fmap_ext. intros i v Hi. simpl. apply with_count_value; [done|].
    apply (Forall2_lookup_r _ _ _ _ _ Hcols) in Hi as (t & _ & Hv). rewrite (col_count _ _ _ _ Hv). done.
  - rewrite lookup_take_ge by lia. apply lookup_ge_None. rewrite length_fmap, length_seq. lia.
Qed.

(** ** Collections of chunks *)

Record ChunkCollection : Type := mkCollection {
  cc_count : nat;
  cc_chunks : list DataChunk;
  cc_types : list TypeId }.

Definition EmptyCollection : ChunkCollection := mkCollection 0 [] [].

(** The last chunk is filled up first; what is left makes a new chunk. *)
Definition Collection_Append (col : ChunkCollection) (new_chunk : DataChunk) : result ChunkCollection :=
  if chunk_size new_chunk =? 0 then Ok col
  else
    let count := cc_count col + chunk_size new_chunk in
    let remaining_data := chunk_size new_chunk in
    '(chunks, types, offset) ←
      match last (cc_chunks col) with
      | None => Ok (cc_chunks col, GetTypes new_chunk, 0)
      | Some last_chunk =>
        _ ← assert_ (bool_decide (GetTypes new_chunk = cc_types col));
        let added_data := remaining_data `min` (STANDARD_VECTOR_SIZE - chunk_size last_chunk) in
        if 0 <? added_data then
          last_chunk ← DataChunk_Append last_chunk (chunk_prefix added_data new_chunk);
          Ok (<[pred (length (cc_chunks col)) := last_chunk]> (cc_chunks col), cc_types col, added_data)
        else Ok (cc_chunks col, cc_types col, 0)
      end;
    if 0 <? remaining_data - offset then
      chunk ← DataChunk_Copy new_chunk (DataChunk_Initialize types) offset;
      Ok (mkCollection count (chunks ++ [chunk]) types)
    else Ok (mkCollection count chunks types).

Definition LocateChunk (col : ChunkCollection) (index : nat) : result nat :=
  let result_ := index / STANDARD_VECTOR_SIZE in
  _ ← assert_ (result_ <? length (cc_chunks col));
  Ok result_.

Definition Collection_GetValue (col : ChunkCollection) (column index : nat) : result Value :=
  i ← LocateChunk col index;
  chunk ← deref (cc_chunks col !! i);
  v ← deref (dc_data chunk !! column);
  GetValue v (index mod STANDARD_VECTOR_SIZE).

Definition GetRow (col : ChunkCollection) (index : nat) : result (list Value) :=
  mapM (fun p_idx => Collection_GetValue col p_idx index) (seq 0 (length (cc_types col))).

Definition collection_rows (col : ChunkCollection) : list row := concat (chunk_rows <$> cc_chunks col).

(** All chunks but the last are full. *)
Record collection_ok (ts : list TypeId) (col : ChunkCollection) : Prop := {
  co_types : cc_chunks col ≠ [] → cc_types col = ts;
  co_chunks : Forall (fun c => typed_chunk ts c ∧ dc_sel c = None ∧ 0 < chunk_size c) (cc_chunks col);
  co_full : ∀ i c, cc_chunks col !! i = Some c → S i < length (cc_chunks col) → chunk_size c = STANDARD_VECTOR_SIZE;
  co_count : cc_count col = length (collection_rows col) }.

Lemma EmptyCollection_ok ts : collection_ok ts EmptyCollection.
Proof. split; [done|constructor|by intros|done]. Qed.

Lemma collection_rows_app a b n ts : collection_rows (mkCollection n (a ++ b) ts) = concat (chunk_rows <$> a) ++ concat (chunk_rows <$> b).
Proof. unfold collection_rows. cbn [cc_chunks]. by rewrite fmap_app, concat_app. Qed.

Lemma concat_rows_snoc cs c : concat (chunk_rows <$> (cs ++ [c])) = concat (chunk_rows <$> cs) ++ chunk_rows c.
Proof. rewrite fmap_app, concat_app. simpl. by rewrite app_nil_r. Qed.

Lemma full_snoc cs c : (∀ i d, (cs ++ [c]) !! i = Some d → S i < length (cs ++ [c]) → chunk_size d = STANDARD_VECTOR_SIZE) ↔
  Forall (fun d => chunk_size d = STANDARD_VECTOR_SIZE) cs.
Proof.
  rewrite Forall_lookup, length_app. simpl. split.
  - intros H i d Hi. apply (H i); [by apply lookup_app_l_Some|]. apply lookup_lt_Some in Hi. lia.
  - intros H i d Hi Hlt. apply lookup_app_Some in Hi as [Hi|[Hge Hi]]; [by eapply H|lia].
Qed.

(** A new chunk of the rows that are left. *)
Lemma append_new_chunk ts n cs new_chunk offset : typed_chunk ts new_chunk → offset < chunk_size new_chunk →
  Forall (fun c => typed_chunk ts c ∧ dc_sel c = None ∧ 0 < chunk_size c) cs → Forall (fun d => chunk_size d = STANDARD_VECTOR_SIZE) cs →
  n = length (concat (chunk_rows <$> cs)) + (chunk_size new_chunk - offset) →
  ∃ c, DataChunk_Copy new_chunk (DataChunk_Initialize ts) offset = Ok c ∧ collection_ok ts (mkCollection n (cs ++ [c]) ts) ∧
    collection_rows (mkCollection n (cs ++ [c]) ts) = concat (chunk_rows <$> cs) ++ drop offset (chunk_rows new_chunk).
Proof.
  intros Hnew Hoff Hcs Hfull Hn. destruct (DataChunk_Copy_spec ts new_chunk offset Hnew Hoff) as (c & Hc & Htc & Hsel & Hrows).
  exists c. split; [done|]. assert (chunk_size c = chunk_size new_chunk - offset) as Hsize.
  { by rewrite <- (chunk_rows_length c), Hrows, length_drop, chunk_rows_length. }
  assert (collection_rows (mkCollection n (cs ++ [c]) ts) = concat (chunk_rows <$> cs) ++ drop offset (chunk_rows new_chunk)) as Hr.
  { unfold collection_rows. cbn [cc_chunks]. by rewrite concat_rows_snoc, Hrows. }
  split; [|done]. split; cbn [cc_types cc_chunks cc_count]; [done| | |].
  - apply Forall_app. split; [done|]. apply Forall_singleton. split_and!; [done|done|lia].
  - by apply full_snoc.
  - rewrite Hr, length_app, length_drop, chunk_rows_length. done.
Qed.

Lemma typed_chunk_nonempty ts c : typed_chunk ts c → ts ≠ [].
Proof. by intros []. Qed.

(** Appending adds the rows of the chunk. *)
Lemma Collection_Append_spec ts col new_chunk : collection_ok ts col → typed_chunk ts new_chunk →
  ∃ col', Collection_Append col new_chunk = Ok col' ∧ collection_ok ts col' ∧ collection_rows col' = collection_rows col ++ chunk_rows new_chunk.
Proof.
  intros [Htypes Hcs Hfull Hcount] Hnew. unfold Collection_Append. destruct (Nat.eqb_spec (chunk_size new_chunk) 0) as [Hz|Hpos].
  { exists col. split; [done|]. split; [done|]. assert (chunk_rows new_chunk = []) as -> by (unfold chunk_rows; by rewrite Hz). by rewrite app_nil_r. }
  destruct col as [n cs types]. cbn [cc_chunks cc_types cc_count] in *. rewrite (typed_chunk_types ts) by done.
  destruct (exists_last_or_nil cs) as [->|(cs' & l & ->)].
  { simpl last. run. cbv zeta. rewrite Nat.sub_0_r, (proj2 (Nat.ltb_lt 0 (chunk_size new_chunk))) by lia.
    destruct (append_new_chunk ts (n + chunk_size new_chunk) [] new_chunk 0) as (c & -> & Hok & Hr); [done|lia|constructor|constructor| |].
    - rewrite Nat.sub_0_r. simpl. by rewrite Hcount.
    - run. eexists. split; [done|]. split; [done|]. by rewrite Hr. }
  rewrite Htypes in * by (by destruct cs'). rewrite last_snoc. run. rewrite bool_decide_eq_true_2 by done. run.
  apply Forall_app in Hcs as [Hcs [(Hl & Hlsel & Hlpos) _]%Forall_cons]. apply full_snoc in Hfull.
  set (added := chunk_size new_chunk `min` (STANDARD_VECTOR_SIZE - chunk_size l)). destruct (Nat.ltb_spec 0 added) as [Hadd|Hadd].
  - destruct (chunk_prefix_spec ts new_chunk added Hnew) as (Hpt & Hps & Hpr); [lia|].
    destruct (DataChunk_Append_spec ts l (chunk_prefix added new_chunk)) as (l' & Hl' & Htl' & Hsl' & Hrl'); [done|done|done|lia|lia|].
    rewrite Hl'. run. rewrite length_app. cbn [length]. rewrite Nat.add_1_r. cbn [pred].
    rewrite insert_app_r_alt, Nat.sub_diag by lia. cbn [insert list_insert].
    assert (chunk_size l' = chunk_size l + added) as Hsz by (by rewrite <- (chunk_rows_length l'), Hrl', length_app, !chunk_rows_length, Hps).
    assert (Forall (fun c => typed_chunk ts c ∧ dc_sel c = None ∧ 0 < chunk_size c) (cs' ++ [l'])) as Hcs2.
    { apply Forall_app. split; [done|]. apply Forall_singleton. split_and!; [done|done|lia]. }
    assert (concat (chunk_rows <$> (cs' ++ [l'])) = concat (chunk_rows <$> (cs' ++ [l])) ++ take added (chunk_rows new_chunk)) as Hrows2.
    { by rewrite !concat_rows_snoc, Hrl', Hpr, app_assoc. }
    destruct (Nat.ltb_spec 0 (chunk_size new_chunk - added)) as [Hrest|Hrest].
    + destruct (append_new_chunk ts (n + chunk_size new_chunk) (cs' ++ [l']) new_chunk added) as (c & -> & Hok & Hr); [done|lia|done| | |].
      * apply Forall_app. split; [done|]. apply Forall_singleton. lia.
      * rewrite Hrows2, Hcount. unfold collection_rows. cbn [cc_chunks]. rewrite length_app, length_take, chunk_rows_length. lia.
      * run. eexists. split; [done|]. split; [done|]. rewrite Hr, Hrows2, <- app_assoc, take_drop. done.
    + eexists. split; [done|]. assert (take added (chunk_rows new_chunk) = chunk_rows new_chunk) as Hall by (apply take_ge; rewrite chunk_rows_length; lia).
      assert (∀ k, collection_rows (mkCollection k (cs' ++ [l']) ts) = collection_rows (mkCollection n (cs' ++ [l]) ts) ++ chunk_rows new_chunk) as Hr.
      { intros k. unfold collection_rows. cbn [cc_chunks]. by rewrite Hrows2, Hall. }
      split; [|by apply Hr]. split; cbn [cc_types cc_chunks cc_count]; [done|done|by apply full_snoc|].
      rewrite Hr, length_app, chunk_rows_length, <- Hcount. done.
  - cbv zeta. run. rewrite Nat.sub_0_r, (proj2 (Nat.ltb_lt 0 (chunk_size new_chunk))) by lia.
    destruct (append_new_chunk ts (n + chunk_size new_chunk) (cs' ++ [l]) new_chunk 0) as (c & -> & Hok & Hr); [done|lia| | | |].
    + apply Forall_app. split; [done|]. by apply Forall_singleton.
    + apply Forall_app. split; [done|]. apply Forall_singleton. pose proof (tc_size _ _ Hl). lia.
    + rewrite Hcount. unfold collection_rows. cbn [cc_chunks]. lia.
    + run. eexists. split; [done|]. split; [done|]. by rewrite Hr.
Qed.

(** ** Access by position *)

Lemma concat_lookup {A} (N : nat) (ls : list (list A)) i : 0 < N →
  (∀ j l, ls !! j = Some l → if decide (S j < length ls) then length l = N else length l ≤ N) →
  concat ls !! i = l ← ls !! (i / N); l !! (i mod N).
Proof.
  intros HN. revert i. induction ls as [|l ls IH]; intros i Hls; [done|]. simpl concat.
  assert (∀ j l, ls !! j = Some l → if decide (S j < length ls) then length l = N else length l ≤ N) as Hls'.
  { intros j k Hj. specialize (Hls (S j) k Hj). simpl in Hls. destruct (decide (S j < length ls)), (decide (S (S j) < S (length ls))); try lia; done. }
  specialize (Hls 0 l eq_refl). destruct ls as [|l' ls].
  - rewrite decide_False in Hls by (simpl; lia). simpl. rewrite app_nil_r. destruct (decide (i < N)) as [Hi|Hi].
    + rewrite Nat.div_small, Nat.mod_small by done. done.
    + rewrite lookup_ge_None_2 by lia. destruct (i / N) as [|q] eqn:E; [apply Nat.div_small_iff in E; lia|done].
  - rewrite decide_True in Hls by (simpl; lia). destruct (decide (i < N)) as [Hi|Hi].
    + rewrite lookup_app_l, Nat.div_small, Nat.mod_small by lia. done.
    + rewrite lookup_app_r, IH, Hls by (done || lia). assert (i / N = S ((i - N) / N) ∧ i mod N = (i - N) mod N) as [-> ->]; [|done].
      replace i with (i - N + 1 * N) at 1 3 by lia. rewrite Nat.div_add, Nat.Div0.mod_add by lia. lia.
Qed.

Lemma collection_lookup ts col i : collection_ok ts col →
  collection_rows col !! i = c ← cc_chunks col !! (i / STANDARD_VECTOR_SIZE); chunk_rows c !! (i mod STANDARD_VECTOR_SIZE).
Proof.
  intros [_ Hcs Hfull _]. unfold collection_rows. rewrite (concat_lookup STANDARD_VECTOR_SIZE); [|by apply Nat.ltb_lt|].
  - rewrite list_lookup_fmap. by destruct (cc_chunks col !! _).
  - intros j l Hj. rewrite list_lookup_fmap in Hj. apply fmap_Some in Hj as (c & Hc & ->). rewrite length_fmap, chunk_rows_length.
    destruct (decide _); [by eapply Hfull|]. rewrite Forall_lookup in Hcs. apply Hcs in Hc as [Hc _]. apply Hc.
Qed.

Lemma GetValue_at sel n t v k : column_ok sel n t v → k < n → GetValue v k = Ok (mkValue t (row_value v k)).
Proof.
  intros [Ht Hc Hs [[[null Hnull] Hd] _] _] Hk. unfold GetValue, ValueIsNull. rewrite (proj2 (Nat.leb_gt (v_count v) k)) by lia.
  rewrite selected_value by lia. destruct (decide (sel_at (v_sel v) k ∈ v_null v)) as [Hn|Hn].
  - by rewrite bool_decide_eq_true_2, Ht.
  - rewrite bool_decide_eq_false_2 by done. destruct (Hd k) as (x & -> & Hx); [lia|done|]. run. rewrite Ht in *.
    destruct x as [w z|[str|]]; [by destruct t|by destruct t|done].
Qed.

(** The chunk of a position. *)
Lemma collection_chunk ts col i : collection_ok ts col → i < cc_count col →
  ∃ c, cc_chunks col !! (i / STANDARD_VECTOR_SIZE) = Some c ∧ typed_chunk ts c ∧ dc_sel c = None ∧
    i mod STANDARD_VECTOR_SIZE < chunk_size c ∧ collection_rows col !! i = Some (row_at c (i mod STANDARD_VECTOR_SIZE)).
Proof.
  intros Hok Hi. pose proof (collection_lookup ts col i Hok) as Hl. rewrite (co_count _ _ Hok) in Hi.
  destruct (lookup_lt_is_Some_2 _ _ Hi) as [r Hr]. rewrite Hr in Hl. symmetry in Hl. apply bind_Some in Hl as (c & Hc & Hrow).
  pose proof (co_chunks _ _ Hok) as Hcs. rewrite Forall_lookup in Hcs. destruct (Hcs _ _ Hc) as (Ht & Hs & _). exists c.
  assert (i mod STANDARD_VECTOR_SIZE < chunk_size c) as Hlt by (rewrite <- chunk_rows_length; by eapply lookup_lt_Some).
  split_and!; try done. rewrite chunk_rows_lookup in Hrow by done. congruence.
Qed.

Lemma Collection_GetValue_spec ts col column index t : collection_ok ts col → index < cc_count col → ts !! column = Some t →
  ∃ r o, collection_rows col !! index = Some r ∧ r !! column = Some o ∧ Collection_GetValue col column index = Ok (mkValue t o).
Proof.
  intros Hok Hi Ht. destruct (collection_chunk ts col index Hok Hi) as (c & Hc & [_ Hcols _] & Hs & Hlt & Hr).
  destruct (Forall2_lookup_l _ _ _ _ _ Hcols Ht) as (v & Hv & Hcol). exists (row_at c (index mod STANDARD_VECTOR_SIZE)), (row_value v (index mod STANDARD_VECTOR_SIZE)).
  split; [done|]. split; [unfold row_at; by rewrite list_lookup_fmap, Hv|]. unfold Collection_GetValue, LocateChunk.
  rewrite (proj2 (Nat.ltb_lt _ _)) by (by eapply lookup_lt_Some). run. rewrite Hc. run. rewrite Hv. run. by eapply GetValue_at.
Qed.

(** ** Chunks built by columns *)

Lemma mapM_columns (f : nat → result Vector) (P : TypeId → Vector → Prop) (Q : nat → Vector → Prop) ts i :
  (∀ c t, ts !! c = Some t → ∃ v, f (i + c) = Ok v ∧ P t v ∧ Q (i + c) v) →
  ∃ vs, mapM f (seq i (length ts)) = Ok vs ∧ Forall2 P ts vs ∧ ∀ c v, vs !! c = Some v → Q (i + c) v.
Proof.
  revert i. induction ts as [|t ts IH]; intros i Hf; [exists []; split_and!; [done|constructor|by intros ? ? ?]|].
  destruct (Hf 0 t) as (v & Hv & HP & HQ); [done|]. destruct (IH (S i)) as (vs & Hvs & HPs & HQs).
  { intros c t' Hc. destruct (Hf (S c) t' Hc) as (w & Hw & ? & ?). rewrite Nat.add_succ_r in *. eauto. }
  rewrite Nat.add_0_r in *. exists (v :: vs). cbn [length seq mapM]. rewrite Hv. run. rewrite Hvs. run. split_and!; [done|by constructor|].
  intros [|c] w Hc; simplify_eq/=; [by rewrite Nat.add_0_r|]. rewrite Nat.add_succ_r. by apply HQs.
Qed.

Lemma columns_rows ts n vs rows s : ts ≠ [] → Forall2 (column_ok None n) ts vs → length rows = n → Forall (fun r => length r = length ts) rows →
  (∀ k c v, k < n → vs !! c = Some v → rows !! k ≫= (.!! c) = Some (row_value v k)) → chunk_rows (mkDataChunk vs s) = rows.
Proof.
  intros Hne Hvs Hlen Hwidth Hrows. apply list_eq. intros k. unfold chunk_rows. rewrite (columns_size None n ts), list_lookup_fmap by done.
  destruct (decide (k < n)) as [Hk|Hk]; [|by rewrite lookup_seq_ge, lookup_ge_None_2 by lia].
  rewrite lookup_seq_lt by done. destruct (lookup_lt_is_Some_2 rows k) as [r Hr]; [lia|]. rewrite Hr. simpl. f_equal. unfold row_at. cbn [dc_data].
  assert (length r = length ts) as Hw by (by eapply Forall_lookup in Hwidth).
  apply list_eq. intros c. rewrite list_lookup_fmap. destruct (vs !! c) as [v|] eqn:Hv.
  - specialize (Hrows k c v Hk Hv). rewrite Hr in Hrows. simpl in Hrows. by rewrite Hrows.
  - symmetry. simpl. apply lookup_ge_None_2. apply lookup_ge_None_1 in Hv. apply Forall2_length in Hvs. lia.
Qed.

Lemma elem_of_take_drop {A} (x : A) n m l : x ∈ take n (drop m l) → x ∈ l.
Proof.
  intros Hx. rewrite <- (take_drop m l). apply elem_of_app. right. rewrite <- (take_drop n (drop m l)). apply elem_of_app. by left.
Qed.
