(* ===== verification/ChunkSort.v ===== *)
(** * Sorting a collection of chunks

    The comparison of rows, the quicksort of [ChunkCollection::Sort] and the
    chunks of sorted rows of [MaterializeSortedChunk] (chunk_collection.cpp).
    The sort works on an array of row positions; it terminates, stays within
    the array and returns a permutation for every comparison, and the rows are
    in order when the comparison is a total preorder. *)

From Stdlib Require Import ZArith Lia SpecFloat.
From stdpp Require Import base gmap list strings option numbers sorting relations.
From S2P Require Import Prelude Types Vector Serializer StringStream DateTime KeyTuples Operators VectorOps Like Casts Value Expressions ExpressionRows ExecutorProofs ChunkCollection.

Local Open Scope Z_scope.

(** ** Comparison of rows *)

Inductive OrderType : Type := ORDER_INVALID | ORDER_ASCENDING | ORDER_DESCENDING.

#[export] Instance OrderType_eq_dec : EqDecision OrderType.
Proof. solve_decision. Defined.

(** The C library fixes the sign of the result of [strcmp] only. *)
Class Strcmp : Type := {
  strcmp : string → string → Z;
  strcmp_sign : ∀ s t, (strcmp s t ?= 0) = lex_compare (string_bytes s) (string_bytes t) }.

Definition templated_compare_value (left_vec right_vec : Vector) (left_idx right_idx : nat) : result Z :=
  _ ← assert_ (bool_decide (v_type left_vec = v_type right_vec));
  left_val ← deref (v_data left_vec !! left_idx);
  right_val ← deref (v_data right_vec !! right_idx);
  c ← compare_values (v_type left_vec) left_val right_val;
  if holds OpEquals c then Ok 0
  else if holds OpLessThan c then Ok (-1)
  else Ok 1.

Section compare.
Context `{Strcmp}.

(** The result of [strcmp] is returned as an [int8_t]. *)
Definition compare_value (left_vec right_vec : Vector) (vector_idx_left vector_idx_right : nat) : result Z :=
  let left_null := bool_decide (vector_idx_left ∈ v_null left_vec) in
  let right_null := bool_decide (vector_idx_right ∈ v_null right_vec) in
  if left_null && right_null then Ok 0
  else if right_null then Ok 1
  else if left_null then Ok (-1)
  else
    match v_type left_vec with
    | T_BOOLEAN | T_TINYINT | T_SMALLINT | T_INTEGER | T_BIGINT | T_DOUBLE =>
      templated_compare_value left_vec right_vec vector_idx_left vector_idx_right
    | T_VARCHAR =>
      left_val ← deref (v_data left_vec !! vector_idx_left);
      right_val ← deref (v_data right_vec !! vector_idx_right);
      match left_val, right_val with
      | Str (Some s), Str (Some t) => Ok (wrap_signed 1 (strcmp s t))
      | _, _ => Undef
      end
    | _ => Throw NotImplementedException
    end.

(** [for (col_idx = 0; col_idx < desc.size(); col_idx++)] *)
Fixpoint compare_columns (desc : list OrderType) (left_data right_data : list Vector) (vector_idx_left vector_idx_right : nat) : result Z :=
  match desc with
  | [] => Ok 0
  | order_type :: desc =>
    match left_data, right_data with
    | left_vec :: left_data, right_vec :: right_data =>
      _ ← assert_ (bool_decide (v_sel left_vec = None));
      _ ← assert_ (bool_decide (v_sel right_vec = None));
      _ ← assert_ (bool_decide (v_type left_vec = v_type right_vec));
      comp_res ← compare_value left_vec right_vec vector_idx_left vector_idx_right;
      if comp_res =? 0 then compare_columns desc left_data right_data vector_idx_left vector_idx_right
      else if comp_res <? 0 then Ok (if decide (order_type = ORDER_ASCENDING) then -1 else 1)
      else Ok (if decide (order_type = ORDER_ASCENDING) then 1 else -1)
    | _, _ => Undef
    end
  end.

Definition compare_tuple (sort_by : ChunkCollection) (desc : list OrderType) (left right : nat) : result Z :=
  left_chunk ← deref (cc_chunks sort_by !! (left / STANDARD_VECTOR_SIZE)%nat);
  right_chunk ← deref (cc_chunks sort_by !! (right / STANDARD_VECTOR_SIZE)%nat);
  compare_columns desc (dc_data left_chunk) (dc_data right_chunk) (left mod STANDARD_VECTOR_SIZE) (right mod STANDARD_VECTOR_SIZE).
End compare.

(** ** The array of row positions *)

(** [result[i]], and assignment to it; [i] is an [int64_t]. *)
Definition read (result_ : list nat) (i : Z) : result nat :=
  if i <? 0 then Undef else deref (result_ !! Z.to_nat i).

Definition write (result_ : list nat) (i : Z) (x : nat) : result (list nat) :=
  if (0 <=? i) && (i <? Z.of_nat (length result_)) then Ok (<[Z.to_nat i := x]> result_) else Undef.

(** [std::swap(result[i], result[j])] *)
Definition swap (result_ : list nat) (i j : Z) : result (list nat) :=
  x ← read result_ i;
  y ← read result_ j;
  result_ ← write result_ i y;
  write result_ j x.

(** ** Quicksort *)

Section quicksort.
(** [compare_tuple(sort_by, desc, left, right)] *)
Context (compare : nat → nat → result Z).

(** The first pass fills the array from both ends, around the row 0. *)
Fixpoint initial_loop (rows : list nat) (low high : Z) (result_ : list nat) : result (Z * Z * list nat) :=
  match rows with
  | [] => Ok (low, high, result_)
  | i :: rows =>
    c ← compare i 0%nat;
    if c <=? 0 then
      result_ ← write result_ low i;
      initial_loop rows (low + 1) high result_
    else
      result_ ← write result_ high i;
      initial_loop rows low (high - 1) result_
  end.

Definition quicksort_initial (count : nat) (result_ : list nat) : result (Z * list nat) :=
  '(low, high, result_) ← initial_loop (seq 1 (count - 1)) 0 (Z.of_nat count - 1) result_;
  _ ← assert_ (low =? high);
  result_ ← write result_ low 0%nat;
  Ok (low, result_).

(** The two inner loops: skip what is on the right side of the pivot already. *)
Fixpoint skip_low (fuel : nat) (result_ : list nat) (pivot : nat) (i j : Z) : result Z :=
  match fuel with
  | O => Undef
  | S fuel =>
    if i <=? j then
      x ← read result_ i;
      c ← compare x pivot;
      if c <=? 0 then skip_low fuel result_ pivot (i + 1) j else Ok i
    else Ok i
  end.

Fixpoint skip_high (fuel : nat) (result_ : list nat) (pivot : nat) (i j : Z) : result Z :=
  match fuel with
  | O => Undef
  | S fuel =>
    if i <=? j then
      x ← read result_ j;
      c ← compare x pivot;
      if 0 <? c then skip_high fuel result_ pivot i (j - 1) else Ok j
    else Ok j
  end.

(** As many steps as there are positions between [i] and [j], and two more. *)
Definition steps (i j : Z) : nat := S (S (Z.to_nat (j - i + 1))).

(** [while (i <= j)] *)
Fixpoint partition_loop (fuel : nat) (result_ : list nat) (pivot : nat) (i j : Z) : result (list nat * Z) :=
  match fuel with
  | O => Undef
  | S fuel =>
    if i <=? j then
      i ← skip_low (steps i j) result_ pivot i j;
      j ← skip_high (steps i j) result_ pivot i j;
      if i <? j then
        result_ ← swap result_ i j;
        partition_loop fuel result_ pivot i j
      else partition_loop fuel result_ pivot i j
    else Ok (result_, i)
  end.

Fixpoint quicksort_inplace (fuel : nat) (result_ : list nat) (left right : Z) : result (list nat) :=
  match fuel with
  | O => Undef
  | S fuel =>
    if right <=? left then Ok result_
    else
      let middle := left + Z.quot (right - left) 2 in
      pivot ← read result_ middle;
      result_ ← swap result_ middle left;
      '(result_, i) ← partition_loop (steps (left + 1) right) result_ pivot (left + 1) right;
      result_ ← swap result_ (i - 1) left;
      let part := i - 1 in
      result_ ← quicksort_inplace fuel result_ left (part - 1);
      quicksort_inplace fuel result_ (part + 1) right
  end.

(** [ChunkCollection::Sort] for [count] rows. *)
Definition sort_positions (count : nat) (result_ : list nat) : result (list nat) :=
  if (count =? 0)%nat then Ok result_
  else
    '(part, result_) ← quicksort_initial count result_;
    result_ ← quicksort_inplace (steps 0 part) result_ 0 part;
    quicksort_inplace (steps (part + 1) (Z.of_nat count - 1)) result_ (part + 1) (Z.of_nat count - 1).
End quicksort.

Definition Sort `{Strcmp} (col : ChunkCollection) (desc : list OrderType) (result_ : list nat) : result (list nat) :=
  sort_positions (compare_tuple col desc) (cc_count col) result_.

(** ** Materialising the sorted rows *)

(** [templated_set_values], for the rows [row_idxs]. *)
Fixpoint templated_set_values (src_coll : ChunkCollection) (tgt_vec : Vector) (order : list nat) (col_idx start_offset : nat) (row_idxs : list nat) : result Vector :=
  match row_idxs with
  | [] => Ok tgt_vec
  | row_idx :: row_idxs =>
    o ← deref (order !! (start_offset + row_idx)%nat);
    src_chunk ← deref (cc_chunks src_coll !! (o / STANDARD_VECTOR_SIZE)%nat);
    src_vec ← deref (dc_data src_chunk !! col_idx);
    let vector_idx_src := (o mod STANDARD_VECTOR_SIZE)%nat in
    if decide (vector_idx_src ∈ v_null src_vec) then
      let tgt_vec := mkVector (v_type tgt_vec) (v_count tgt_vec) (v_data tgt_vec) (v_sel tgt_vec) ({[row_idx]} ∪ v_null tgt_vec) in
      templated_set_values src_coll tgt_vec order col_idx start_offset row_idxs
    else
      x ← deref (v_data src_vec !! vector_idx_src);
      let tgt_vec := mkVector (v_type tgt_vec) (v_count tgt_vec) (<[row_idx := x]> (v_data tgt_vec)) (v_sel tgt_vec) (v_null tgt_vec ∖ {[row_idx]}) in
      templated_set_values src_coll tgt_vec order col_idx start_offset row_idxs
  end.

(** The types that can be sorted and materialised. *)
Definition set_type (t : TypeId) : bool :=
  match t with
  | T_BOOLEAN | T_TINYINT | T_SMALLINT | T_INTEGER | T_BIGINT | T_DOUBLE | T_VARCHAR => true
  | _ => false
  end.

Definition sorted_column (col : ChunkCollection) (target : DataChunk) (order : list nat) (start_offset remaining_data col_idx : nat) : result Vector :=
  tgt ← deref (dc_data target !! col_idx);
  t ← deref (cc_types col !! col_idx);
  let tgt := mkVector (v_type tgt) remaining_data (v_data tgt) (v_sel tgt) (v_null tgt) in
  if set_type t then templated_set_values col tgt order col_idx start_offset (seq 0 remaining_data)
  else Throw NotImplementedException.

Definition MaterializeSortedChunk (col : ChunkCollection) (target : DataChunk) (order : list nat) (start_offset : nat) : result DataChunk :=
  let remaining_data := (STANDARD_VECTOR_SIZE `min` (cc_count col - start_offset))%nat in
  _ ← assert_ (bool_decide (GetTypes target = cc_types col));
  data ← mapM (sorted_column col target order start_offset remaining_data) (seq 0 (length (cc_types col)));
  Ok (mkDataChunk data (dc_sel target)).

(** ** Array accesses *)

Definition in_bounds (a : list nat) (i : Z) : Prop := 0 ≤ i < Z.of_nat (length a).

Lemma read_Ok a i x : read a i = Ok x ↔ 0 ≤ i ∧ a !! Z.to_nat i = Some x.
Proof.
  unfold read. destruct (Z.ltb_spec i 0); [split; [done|lia]|]. rewrite deref_Ok. naive_solver lia.
Qed.

Lemma read_total a i : in_bounds a i → ∃ x, read a i = Ok x.
Proof.
  intros [Hi Hlt]. destruct (lookup_lt_is_Some_2 a (Z.to_nat i)) as [x Hx]; [lia|]. exists x. by apply read_Ok.
Qed.

Lemma read_elem a i x : read a i = Ok x → x ∈ a.
Proof. intros [_ ?]%read_Ok. by eapply list_elem_of_lookup_2. Qed.

Lemma write_spec a i x : in_bounds a i →
  ∃ a', write a i x = Ok a' ∧ length a' = length a ∧ ∀ k, read a' k = if decide (k = i) then Ok x else read a k.
Proof.
  intros [Hi Hlt]. unfold write. rewrite (proj2 (Z.leb_le _ _) Hi), (proj2 (Z.ltb_lt _ _) Hlt). eexists. split; [done|].
  split; [by rewrite length_insert|]. intros k. unfold read. destruct (Z.ltb_spec k 0); [by rewrite decide_False by lia|].
  case_decide as Hk; [subst; by rewrite list_lookup_insert_eq by lia|]. by rewrite list_lookup_insert_ne by lia.
Qed.

(** [a'] has the elements of [a], moved only between [l] and [r]. *)
Record rearranged (l r : Z) (a a' : list nat) : Prop := {
  re_perm : a' ≡ₚ a;
  re_outside : ∀ k, k < l ∨ r < k → read a' k = read a k;
  re_inside : ∀ k, l ≤ k ≤ r → ∃ k', l ≤ k' ≤ r ∧ read a' k = read a k' }.

Lemma rearranged_refl l r a : rearranged l r a a.
Proof. split; [done|done|eauto]. Qed.

Lemma rearranged_trans l r a b c : rearranged l r a b → rearranged l r b c → rearranged l r a c.
Proof.
  intros [Hp Ho Hi] [Hp' Ho' Hi']. split; [by rewrite Hp'|intros k Hk; by rewrite Ho', Ho|].
  intros k Hk. destruct (Hi' k Hk) as (k1 & Hk1 & ->). auto.
Qed.

Lemma rearranged_weaken l r l' r' a b : l ≤ l' → r' ≤ r → rearranged l' r' a b → rearranged l r a b.
Proof.
  intros Hl Hr [Hp Ho Hi]. split; [done|intros k Hk; apply Ho; lia|]. intros k Hk.
  destruct (decide (l' ≤ k ≤ r')) as [Hin|Hout]; [|exists k; split; [done|apply Ho; lia]].
  destruct (Hi k Hin) as (k' & Hk' & ->). exists k'. split; [lia|done].
Qed.

Lemma rearranged_in_bounds l r a b i : rearranged l r a b → in_bounds a i → in_bounds b i.
Proof. intros [Hp _ _]. unfold in_bounds. by rewrite Hp. Qed.

Lemma swap_spec a i j : in_bounds a i → in_bounds a j →
  ∃ a', swap a i j = Ok a' ∧ a' ≡ₚ a ∧
    ∀ k, read a' k = if decide (k = i) then read a j else if decide (k = j) then read a i else read a k.
Proof.
  intros Hi Hj. destruct (read_total a i Hi) as [x Hx], (read_total a j Hj) as [y Hy]. unfold swap. rewrite Hx, Hy. run.
  destruct (write_spec a i y Hi) as (b & -> & Hlb & Hb). run.
  assert (in_bounds b j) as Hj' by (unfold in_bounds in *; by rewrite Hlb). destruct (write_spec b j x Hj') as (c & -> & Hlc & Hc).
  exists c. split; [done|]. assert (∀ k, read c k = if decide (k = i) then Ok y else if decide (k = j) then Ok x else read a k) as Hr.
  { intros k. rewrite Hc, Hb. repeat case_decide; subst; congruence. }
  split; [|done]. apply Permutation_inj. split; [congruence|].
  set (f := fun k : nat => if decide (Z.of_nat k = i) then Z.to_nat j else if decide (Z.of_nat k = j) then Z.to_nat i else k).
  destruct Hi as [Hi _], Hj as [Hj _]. exists f. split; [intros k m; unfold f; repeat case_decide; lia|].
  assert (∀ (l : list nat) k, l !! k = match read l (Z.of_nat k) with Ok z => Some z | _ => None end) as Hlookup.
  { intros l k. unfold read. rewrite (proj2 (Z.ltb_ge (Z.of_nat k) 0)), Nat2Z.id by lia. by destruct (l !! k). }
  intros k. rewrite (Hlookup c k), (Hlookup a (f k)), Hr. unfold f. repeat case_decide; rewrite ?Z2Nat.id by done; by rewrite ?Hx, ?Hy.
Qed.

Lemma swap_rearranged a i j l r : in_bounds a i → in_bounds a j → l ≤ i ≤ r → l ≤ j ≤ r →
  ∃ a', swap a i j = Ok a' ∧ rearranged l r a a' ∧
    ∀ k, read a' k = if decide (k = i) then read a j else if decide (k = j) then read a i else read a k.
Proof.
  intros Hi Hj Hli Hlj. destruct (swap_spec a i j Hi Hj) as (a' & Ha & Hp & Hr). exists a'. split_and!; [done| |done].
  split; [done| |].
  - intros k Hk. rewrite Hr, !decide_False by lia. done.
  - intros k Hk. rewrite Hr. repeat case_decide; eauto.
Qed.

(** ** Partitioning *)

Section partition.
(** Rows in [D] can be compared. *)
Context (compare : nat → nat → result Z) (D : nat → Prop) (c : nat → nat → Z).
Context (Hcompare : ∀ x y, D x → D y → compare x y = Ok (c x y)).

(** All elements of the positions from [l] to [r] satisfy [P]. *)
Definition segment (P : nat → Prop) (a : list nat) (l r : Z) : Prop := ∀ k x, l ≤ k ≤ r → read a k = Ok x → P x.

Lemma segment_rearranged P l r a b : rearranged l r a b → segment P a l r → segment P b l r.
Proof. intros [_ _ Hi] HP k x Hk Hx. destruct (Hi k Hk) as (k' & Hk' & Heq). rewrite Heq in Hx. by eapply HP. Qed.

Lemma segment_outside P l r l' r' a b : rearranged l' r' a b → r < l' ∨ r' < l → segment P a l r → segment P b l r.
Proof. intros [_ Ho _] Hout HP k x Hk Hx. rewrite Ho in Hx by lia. by eapply HP. Qed.

Lemma segment_one (P : nat → Prop) a i x : read a i = Ok x → P x → segment P a i i.
Proof. intros Hx HP k y Hk Hy. assert (k = i) as -> by lia. congruence. Qed.

Lemma segment_join P a l m m' r : m' ≤ m + 1 → segment P a l m → segment P a m' r → segment P a l r.
Proof. intros Hm H1 H2 k x Hk Hx. destruct (decide (k ≤ m)); [by eapply (H1 k); [lia|]|by eapply (H2 k); [lia|]]. Qed.

Abbreviation low p := (fun x => c x p ≤ 0).
Abbreviation high p := (fun x => 0 < c x p).

Lemma skip_low_spec fuel a p i j : Forall D a → D p → 0 ≤ i → j < Z.of_nat (length a) → (Z.to_nat (j - i + 1) < fuel)%nat → i ≤ j + 1 →
  ∃ i', skip_low compare fuel a p i j = Ok i' ∧ i ≤ i' ≤ j + 1 ∧ segment (low p) a i (i' - 1) ∧ (i' ≤ j → segment (high p) a i' i').
Proof using Hcompare.
  intros HD Hp. revert i. induction fuel as [|fuel IH]; intros i Hi Hj Hf Hij; [lia|]. cbn [skip_low].
  destruct (Z.leb_spec i j) as [Hle|Hgt]; [|exists i; split_and!; [done|lia|lia|intros k ? ?; lia|lia]].
  destruct (read_total a i) as [x Hx]; [by split; lia|]. rewrite Hx. run. rewrite Hcompare; [|by eapply Forall_forall, read_elem|done].
  run. destruct (Z.leb_spec (c x p) 0) as [Hc|Hc].
  - destruct (IH (i + 1)) as (i' & -> & Hi' & Hlow & Hhigh); [lia|lia|lia|lia|]. exists i'. split_and!; [done|lia|lia| |done].
    eapply (segment_join _ _ _ i); [|by eapply segment_one|exact Hlow]. lia.
  - exists i. split_and!; [done|lia|lia|intros k ? ?; lia|]. intros _. by eapply segment_one.
Qed.

Lemma skip_high_spec fuel a p i j : Forall D a → D p → 0 ≤ i → j < Z.of_nat (length a) → (Z.to_nat (j - i + 1) < fuel)%nat → i ≤ j + 1 →
  ∃ j', skip_high compare fuel a p i j = Ok j' ∧ i - 1 ≤ j' ≤ j ∧ segment (high p) a (j' + 1) j ∧ (i ≤ j' → segment (low p) a j' j').
Proof using Hcompare.
  intros HD Hp. revert j. induction fuel as [|fuel IH]; intros j Hi Hj Hf Hij; [lia|]. cbn [skip_high].
  destruct (Z.leb_spec i j) as [Hle|Hgt]; [|exists j; split_and!; [done|lia|lia|intros k ? ?; lia|lia]].
  destruct (read_total a j) as [x Hx]; [by split; lia|]. rewrite Hx. run. rewrite Hcompare; [|by eapply Forall_forall, read_elem|done].
  run. destruct (Z.ltb_spec 0 (c x p)) as [Hc|Hc].
  - destruct (IH (j - 1)) as (j' & -> & Hj' & Hhigh & Hlow); [lia|lia|lia|lia|]. exists j'. split_and!; [done|lia|lia| |done].
    eapply (segment_join _ _ _ (j - 1) j); [lia|exact Hhigh|]. by eapply segment_one.
  - exists j. split_and!; [done|lia|lia|intros k ? ?; lia|]. intros _. by eapply segment_one.
Qed.

(** The elements up to the pivot's come first. *)
Lemma partition_loop_spec fuel a p i j : Forall D a → D p → 0 ≤ i → j < Z.of_nat (length a) → i ≤ j + 1 →
  (Z.to_nat (j - i + 1) + 1 < fuel)%nat ∨ ((Z.to_nat (j - i + 1) < fuel)%nat ∧ segment (low p) a i i) →
  ∃ a' i', partition_loop compare fuel a p i j = Ok (a', i') ∧ rearranged i j a a' ∧ i ≤ i' ≤ j + 1 ∧
    segment (low p) a' i (i' - 1) ∧ segment (high p) a' i' j.
Proof using Hcompare.
  revert a i j. induction fuel as [|fuel IH]; intros a i j HD Hp Hi Hj Hij Hf; [lia|]. cbn [partition_loop].
  destruct (Z.leb_spec i j) as [Hle|Hgt].
  2:{ exists a, i. split_and!; [done|apply rearranged_refl|lia|lia|intros k ? ?; lia|intros k ? ?; lia]. }
  destruct (skip_low_spec (steps i j) a p i j) as (i1 & -> & Hi1 & Hlow & Hhigh1); [done|done|lia|lia|unfold steps; lia|lia|]. run.
  destruct (skip_high_spec (steps i1 j) a p i1 j) as (j1 & -> & Hj1 & Hhigh & Hlow1); [done|done|lia|lia|unfold steps; lia|lia|]. run.
  destruct (Z.ltb_spec i1 j1) as [Hlt|Hge].
  - destruct (swap_rearranged a i1 j1 i1 j1) as (b & -> & Hre & Hb); [by split; lia|by split; lia|lia|lia|]. run.
    assert (∃ y, read a j1 = Ok y ∧ c y p ≤ 0) as (y & Hy & Hyp).
    { destruct (read_total a j1) as [y Hy]; [by split; lia|]. exists y. split; [done|]. by eapply (Hlow1 ltac:(lia) j1); [lia|]. }
    destruct (IH b i1 j1) as (a' & i' & -> & Hre' & Hi' & Hl' & Hh'); [by rewrite (re_perm _ _ _ _ Hre)|done|lia| |lia| |].
    { rewrite (re_perm _ _ _ _ Hre). lia. }
    { right. split.
      - destruct Hf as [Hf|[Hf Hlowi]]; [lia|]. destruct (Z.eq_dec i1 i) as [->|]; [|lia].
        destruct (read_total a i) as [x Hx]; [by split; lia|].
        specialize (Hhigh1 ltac:(lia) i x ltac:(lia) Hx). specialize (Hlowi i x ltac:(lia) Hx). simpl in *. lia.
      - apply (segment_one _ _ _ y); [|done]. by rewrite Hb, decide_True. }
    assert (rearranged i1 j1 a a') as Hre2 by (by eapply rearranged_trans). exists a', i'. split_and!; [done| |lia|lia| |].
    + eapply rearranged_weaken; [| |exact Hre2]; lia.
    + eapply (segment_join _ _ _ (i1 - 1) i1); [lia| |done]. eapply segment_outside; [exact Hre2|lia|done].
    + eapply (segment_join _ _ _ j1 (j1 + 1)); [lia|done|]. eapply segment_outside; [exact Hre2|lia|done].
  - assert (j1 < i1) as Hcross.
    { destruct (Z.eq_dec i1 j1) as [Heq|]; [|lia]. subst j1. destruct (read_total a i1) as [x Hx]; [by split; lia|].
      specialize (Hhigh1 ltac:(lia) i1 x ltac:(lia) Hx). specialize (Hlow1 ltac:(lia) i1 x ltac:(lia) Hx). simpl in *. lia. }
    assert (j1 = i1 - 1) as -> by lia. destruct fuel as [|fuel]; [lia|]. cbn [partition_loop]. rewrite (proj2 (Z.leb_gt i1 (i1 - 1))) by lia.
    exists a, i1. split_and!; [done|apply rearranged_refl|lia|lia|done|]. by rewrite Z.sub_add in Hhigh.
Qed.

(** ** Sorting *)

(** [c] is a total preorder of the rows. *)
Record total_preorder : Prop := {
  pre_total : ∀ x y, D x → D y → 0 < c x y → c y x ≤ 0;
  pre_trans : ∀ x y z, D x → D y → D z → c x y ≤ 0 → c y z ≤ 0 → c x z ≤ 0 }.

Definition ordered (a : list nat) (l r : Z) : Prop :=
  ∀ i j x y, l ≤ i ≤ j → j ≤ r → read a i = Ok x → read a j = Ok y → c x y ≤ 0.

Lemma ordered_outside l r l' r' a b : rearranged l' r' a b → r < l' ∨ r' < l → ordered a l r → ordered b l r.
Proof. intros [_ Ho _] Hout HP i j x y Hij Hj Hx Hy. rewrite Ho in Hx, Hy by lia. by eapply (HP i j). Qed.

Lemma preorder_refl x : total_preorder → D x → c x x ≤ 0.
Proof. intros Hpre Hx. destruct (Z.le_gt_cases (c x x) 0) as [|Hgt]; [done|]. by apply (pre_total Hpre). Qed.

Lemma ordered_short a l r : total_preorder → Forall D a → r ≤ l → ordered a l r.
Proof.
  intros Hpre HD Hlr i j x y Hij Hj Hx Hy. assert (i = j) as -> by lia. assert (x = y) as -> by congruence.
  apply preorder_refl; [done|]. eapply Forall_forall; [exact HD|by eapply read_elem].
Qed.

(** Sorted parts on both sides of a pivot. *)
Lemma ordered_around a l m r p : total_preorder → Forall D a → l ≤ m ≤ r → read a m = Ok p →
  segment (low p) a l (m - 1) → segment (high p) a (m + 1) r → ordered a l (m - 1) → ordered a (m + 1) r → ordered a l r.
Proof using Hcompare.
  clear Hcompare. intros Hpre HD Hm Hp Hlow Hhigh Hl Hr i j x y Hij Hj Hx Hy.
  assert (∀ k z, read a k = Ok z → D z) as HDr by (intros k z Hz; eapply Forall_forall; [exact HD|by eapply read_elem]).
  assert (c x p ≤ 0 ∨ m + 1 ≤ i) as [Hxp|Hi]; [| |by eapply (Hr i j); [lia|..]].
  { destruct (Z.lt_trichotomy i m) as [Hlt|[->|Hgt]]; [left; by eapply (Hlow i); [lia|]| |right; lia].
    left. assert (x = p) as -> by congruence. apply preorder_refl; eauto. }
  destruct (Z.lt_trichotomy j m) as [Hlt|[->|Hgt]].
  - eapply (Hl i j); [lia..|done|done].
  - assert (y = p) as -> by congruence. done.
  - assert (0 < c y p) as Hyp by (by eapply (Hhigh j); [lia|]). apply (pre_trans Hpre) with p; eauto. by apply (pre_total Hpre); eauto.
Qed.

Lemma quicksort_inplace_spec fuel a l r : Forall D a → 0 ≤ l → r < Z.of_nat (length a) → (Z.to_nat (r - l + 1) < fuel)%nat →
  ∃ a', quicksort_inplace compare fuel a l r = Ok a' ∧ rearranged l r a a' ∧ (total_preorder → ordered a' l r).
Proof using Hcompare.
  revert a l r. induction fuel as [|fuel IH]; intros a l r HD Hl Hr Hf; [lia|]. cbn [quicksort_inplace].
  destruct (Z.leb_spec r l) as [Hle|Hgt]; [exists a; split_and!; [done|apply rearranged_refl|intros; by apply ordered_short]|].
  cbv zeta. assert (l ≤ l + Z.quot (r - l) 2 ≤ r) as Hm by (Z.to_euclidean_division_equations; lia). set (m := l + Z.quot (r - l) 2) in *. clearbody m.
  destruct (read_total a m) as [p Hp]; [by split; lia|]. rewrite Hp. run.
  assert (D p) as HDp by (eapply Forall_forall; [exact HD|by eapply read_elem]).
  destruct (swap_rearranged a m l l r) as (b & -> & Hab & Hb); [by split; lia|by split; lia|lia|lia|]. run.
  assert (Forall D b) as HDb by (by rewrite (re_perm _ _ _ _ Hab)). assert (length b = length a) as Hlb by (by rewrite (re_perm _ _ _ _ Hab)).
  destruct (partition_loop_spec (steps (l + 1) r) b p (l + 1) r) as (d & i & -> & Hbd & Hi & Hlow & Hhigh); [done|done|lia|lia|lia|left; unfold steps; lia|]. run.
  assert (length d = length b) as Hld by (by rewrite (re_perm _ _ _ _ Hbd)).
  assert (read d l = Ok p) as Hdl by (rewrite (re_outside _ _ _ _ Hbd), Hb by lia; case_decide; [by subst|by rewrite decide_True]).
  destruct (swap_rearranged d (i - 1) l l (i - 1)) as (e & -> & Hde & He); [by split; lia|by split; lia|lia|lia|]. run.
  assert (Forall D e) as HDe by (by rewrite (re_perm _ _ _ _ Hde), (re_perm _ _ _ _ Hbd)).
  assert (length e = length a) as Hle by (by rewrite (re_perm _ _ _ _ Hde), (re_perm _ _ _ _ Hbd)).
  assert (read e (i - 1) = Ok p) as Hei by (by rewrite He, decide_True).
  assert (segment (low p) e l (i - 1 - 1)) as Hlow_e.
  { intros k x Hk. rewrite He, decide_False by lia. case_decide; intros Hx; [apply (Hlow (i - 1) x)|apply (Hlow k x)]; (lia || done). }
  assert (segment (high p) e (i - 1 + 1) r) as Hhigh_e by (rewrite Z.sub_add; eapply segment_outside; [exact Hde|lia|done]).
  destruct (IH e l (i - 1 - 1)) as (f & -> & Hef & Hof); [done|lia|lia|lia|]. run.
  destruct (IH f (i - 1 + 1) r) as (g & -> & Hfg & Hog); [by rewrite (re_perm _ _ _ _ Hef)|lia|rewrite (re_perm _ _ _ _ Hef); lia|lia|].
  exists g. split; [done|]. split.
  - eapply rearranged_trans; [exact Hab|]. eapply rearranged_trans; [eapply rearranged_weaken; [| |exact Hbd]; lia|].
    eapply rearranged_trans; [eapply rearranged_weaken; [| |exact Hde]; lia|].
    eapply rearranged_trans; eapply rearranged_weaken; [| |exact Hef| | |exact Hfg]; lia.
  - intros Hpre. apply (ordered_around g l (i - 1) r p); [done| |lia| | | | |by apply Hog].
    + by rewrite (re_perm _ _ _ _ Hfg), (re_perm _ _ _ _ Hef).
    + rewrite (re_outside _ _ _ _ Hfg), (re_outside _ _ _ _ Hef) by lia. done.
    + eapply segment_outside; [exact Hfg|lia|]. by eapply segment_rearranged.
    + eapply segment_rearranged; [exact Hfg|]. eapply segment_outside; [exact Hef|lia|done].
    + eapply ordered_outside; [exact Hfg|lia|by apply Hof].
Qed.

(** Everything up to [m] is at most [p], everything above is greater. *)
Lemma ordered_join a l m r p : total_preorder → Forall D a → D p →
  segment (low p) a l m → segment (high p) a (m + 1) r → ordered a l m → ordered a (m + 1) r → ordered a l r.
Proof using Hcompare.
  clear Hcompare. intros Hpre HD Hp Hlow Hhigh Hl Hr i j x y Hij Hj Hx Hy.
  assert (∀ k z, read a k = Ok z → D z) as HDr by (intros k z Hz; eapply Forall_forall; [exact HD|by eapply read_elem]).
  destruct (Z.le_gt_cases j m) as [Hjm|Hjm]; [by eapply (Hl i j)|]. destruct (Z.le_gt_cases i m) as [Him|Him]; [|by eapply (Hr i j); [lia|..]].
  apply (pre_trans Hpre) with p; [by eauto|done|by eauto| |].
  - by eapply (Hlow i); [lia|].
  - apply (pre_total Hpre); [by eauto|done|]. by eapply (Hhigh j); [lia|].
Qed.

Lemma write_app L f F x i : i = Z.of_nat (length L) → write (L ++ f :: F) i x = Ok (L ++ x :: F).
Proof.
  intros ->. unfold write. rewrite length_app. cbn [length]. rewrite (proj2 (Z.leb_le 0 _)), (proj2 (Z.ltb_lt _ _)) by lia. cbn [andb].
  by rewrite Nat2Z.id, insert_app_r_alt, Nat.sub_diag by lia.
Qed.

(** The positions still to be filled lie between the two parts. *)
Lemma initial_loop_spec rows L F H : Forall D rows → D 0%nat → length F = S (length rows) →
  Forall (low 0%nat) L → Forall (high 0%nat) H →
  ∃ L' f H', initial_loop compare rows (Z.of_nat (length L)) (Z.of_nat (length L + length rows)) (L ++ F ++ H) =
      Ok (Z.of_nat (length L'), Z.of_nat (length L'), L' ++ f :: H') ∧
    L' ++ H' ≡ₚ rows ++ L ++ H ∧ Forall (low 0%nat) L' ∧ Forall (high 0%nat) H'.
Proof using Hcompare.
  revert L F H. induction rows as [|i rows IH]; intros L F H HD H0 HF HL HH; cbn [initial_loop].
  { destruct F as [|f [|]]; try done. exists L, f, H. rewrite Nat.add_0_r. done. }
  apply Forall_cons in HD as [Hi HD]. rewrite Hcompare by done. run. destruct (Z.leb_spec (c i 0%nat) 0) as [Hc|Hc].
  - destruct F as [|f F]; [done|]. cbn [length] in HF |- *. rewrite <- app_comm_cons, write_app by done. run.
    destruct (IH (L ++ [i]) F H) as (L' & f' & H' & Hres & Hp & HL' & HH'); [done|done|lia| |done|].
    { apply Forall_app. split; [done|]. by apply Forall_singleton. }
    exists L', f', H'. split_and!; [|by rewrite Hp; solve_Permutation|done|done]. rewrite <- Hres, length_app, <- app_assoc. cbn [length app].
    f_equal; lia.
  - destruct (exists_last (l := F)) as (F' & f & ->); [by destruct F|]. rewrite length_app in HF. cbn [length] in HF |- *.
    rewrite <- app_assoc, (app_assoc L F'). cbn [app]. rewrite write_app by (rewrite length_app; lia). run.
    destruct (IH L F' (i :: H)) as (L' & f' & H' & Hres & Hp & HL' & HH'); [done|done|lia|done|by apply Forall_cons|].
    exists L', f', H'. split_and!; [|by rewrite Hp; solve_Permutation|done|done]. rewrite <- Hres, <- app_assoc. f_equal; lia.
Qed.

Lemma read_app_l L R k x : read (L ++ R) k = Ok x → k < Z.of_nat (length L) → x ∈ L.
Proof. intros [Hk Hx]%read_Ok Hlt. rewrite lookup_app_l in Hx by lia. by eapply list_elem_of_lookup_2. Qed.

Lemma read_app_r L R k x : read (L ++ R) k = Ok x → Z.of_nat (length L) ≤ k → x ∈ R.
Proof. intros [Hk Hx]%read_Ok Hlt. rewrite lookup_app_r in Hx by lia. by eapply list_elem_of_lookup_2. Qed.

Lemma quicksort_initial_spec count a0 : (0 < count)%nat → length a0 = count → Forall D (seq 0 count) →
  ∃ L H, quicksort_initial compare count a0 = Ok (Z.of_nat (length L), L ++ 0%nat :: H) ∧ L ++ 0%nat :: H ≡ₚ seq 0 count ∧
    Forall (low 0%nat) L ∧ Forall (high 0%nat) H.
Proof using Hcompare.
  intros Hcount Hlen HD. destruct count as [|n]; [lia|]. rewrite <- cons_seq in HD. apply Forall_cons in HD as [H0 HD].
  unfold quicksort_initial. rewrite Nat.sub_1_r. cbn [pred].
  destruct (initial_loop_spec (seq 1 n) [] a0 []) as (L & f & H & Hres & Hp & HL & HH); [done|done|by rewrite length_seq|constructor|constructor|].
  rewrite length_seq, app_nil_r in Hres. cbn [length app Nat.add] in Hres. rewrite Nat2Z.inj_0 in Hres. replace (Z.of_nat (S n) - 1) with (Z.of_nat n) by lia. rewrite Hres. run.
  rewrite Z.eqb_refl. run. rewrite write_app by done. run. exists L, H. split_and!; [done| |done|done].
  rewrite <- cons_seq, <- Permutation_middle, Hp. by rewrite !app_nil_r.
Qed.

(** The positions come out as a permutation of the rows, in order when the
    comparison is one. *)
Lemma sort_positions_spec count a0 : length a0 = count → Forall D (seq 0 count) →
  ∃ a, sort_positions compare count a0 = Ok a ∧ a ≡ₚ seq 0 count ∧ (total_preorder → ordered a 0 (Z.of_nat count - 1)).
Proof using Hcompare.
  intros Hlen HD. unfold sort_positions. destruct (Nat.eqb_spec count 0) as [->|Hn].
  { destruct a0; [|done]. exists []. split_and!; [done|done|]. intros _ i j x y ? ?. lia. }
  destruct (quicksort_initial_spec count a0) as (L & H & -> & Hp & HL & HH); [lia|done|done|]. run.
  set (a := L ++ 0%nat :: H) in *. assert (length a = count) as Hla by (by rewrite Hp, length_seq).
  assert (Forall D a) as HDa by (by rewrite Hp).
  assert (D 0%nat) as H0 by (eapply Forall_forall; [exact HD|apply elem_of_seq; lia]).
  assert (length L < count)%nat as HLc by (rewrite <- Hla; unfold a; rewrite length_app; cbn [length]; lia).
  destruct (quicksort_inplace_spec (steps 0 (Z.of_nat (length L))) a 0 (Z.of_nat (length L))) as (b & -> & Hab & Hob); [done|lia|lia|unfold steps; lia|]. run.
  destruct (quicksort_inplace_spec (steps (Z.of_nat (length L) + 1) (Z.of_nat count - 1)) b (Z.of_nat (length L) + 1) (Z.of_nat count - 1))
    as (d & -> & Hbd & Hod); [by rewrite (re_perm _ _ _ _ Hab)|lia|rewrite (re_perm _ _ _ _ Hab); lia|unfold steps; lia|].
  exists d. split; [done|]. split; [by rewrite (re_perm _ _ _ _ Hbd), (re_perm _ _ _ _ Hab)|]. intros Hpre.
  apply (ordered_join d 0 (Z.of_nat (length L)) _ 0%nat); [done|by rewrite (re_perm _ _ _ _ Hbd), (re_perm _ _ _ _ Hab)|done| | | |by apply Hod].
  - eapply segment_outside; [exact Hbd|lia|]. eapply segment_rearranged; [exact Hab|]. intros k x Hk Hx. unfold a in Hx.
    rewrite cons_middle, app_assoc in Hx. apply read_app_l in Hx; [|rewrite length_app; cbn [length]; lia].
    apply elem_of_app in Hx as [Hx|Hx%list_elem_of_singleton]; [by eapply Forall_forall in Hx; [|exact HL]|]. subst. by apply preorder_refl.
  - eapply segment_rearranged; [exact Hbd|]. eapply segment_outside; [exact Hab|lia|]. intros k x Hk Hx. unfold a in Hx.
    rewrite cons_middle, app_assoc in Hx. apply read_app_r in Hx; [|rewrite length_app; cbn [length]; lia].
    by eapply Forall_forall in Hx; [|exact HH].
  - eapply ordered_outside; [exact Hbd|lia|by apply Hob].
Qed.
End partition.

(** ** The order of rows *)

(** A number ordered as its floating point value. *)
Definition float_key (f : spec_float) : list Z :=
  match f with
  | S754_nan => []
  | S754_infinity s => if s then [-2] else [2]
  | S754_finite s m e => if s then [-1; - e; - Zpos m] else [1; e; Zpos m]
  | S754_zero _ => [0]
  end.

Lemma SFcompare_key f g : f ≠ S754_nan → g ≠ S754_nan → SFcompare f g = Some (lex_compare (float_key f) (float_key g)).
Proof.
  intros Hf Hg. destruct f as [|[]| |[] m e], g as [|[]| |[] m' e']; try done; unfold SFcompare, float_key, lex_compare.
  - rewrite Z.compare_refl, Z.compare_opp, (Z.compare_antisym e e'). destruct (e ?= e'); try done.
    change (- Z.pos m ?= - Z.pos m') with (CompOpp (Pos.compare_cont Eq m m')). cbn [CompOpp]. by destruct (Pos.compare_cont Eq m m').
  - rewrite Z.compare_refl. destruct (e ?= e'); try done. change (Z.pos m ?= Z.pos m') with (Pos.compare_cont Eq m m'). by destruct (Pos.compare_cont Eq m m').
Qed.

(** Values that the sort can order: of a supported type and not NaN. *)
Definition orderable (t : TypeId) (x : cell) : bool :=
  match t, x with
  | (T_BOOLEAN | T_TINYINT | T_SMALLINT | T_INTEGER | T_BIGINT), Num _ _ => true
  | T_DOUBLE, Num _ z => match as_double z with S754_nan => false | _ => true end
  | T_VARCHAR, Str (Some _) => true
  | _, _ => false
  end.

(** NULL comes first. *)
Definition value_key (t : TypeId) (o : option cell) : list Z :=
  match o with
  | None => []
  | Some (Num _ z) => if decide (t = T_DOUBLE) then float_key (as_double z) else [z]
  | Some (Str (Some s)) => 0 :: string_bytes s
  | Some (Str None) => []
  end.

Lemma float_key_nonempty z : as_double z ≠ S754_nan → float_key (as_double z) ≠ [].
Proof. by destruct (as_double z) as [|[]| |[]]. Qed.

Lemma compare_values_key t x y : orderable t x = true → orderable t y = true →
  compare_values t x y = Ok (Some (lex_compare (value_key t (Some x)) (value_key t (Some y)))).
Proof.
  intros Hx Hy. destruct t; try done; destruct x as [n z|[s|]], y as [m w|[u|]]; try done; cbn [compare_values value_key lex_compare].
  all: try (rewrite !decide_False by done; cbn [lex_compare]; by destruct (z ?= w)).
  rewrite !decide_True by done. cbn [orderable] in *. rewrite SFcompare_key; [done|by intros E; rewrite E in *..].
Qed.

Definition orderable_value (t : TypeId) (o : option cell) : Prop := ∀ x, o = Some x → orderable t x = true.

(** The order of the rows by the columns of [desc]. *)
Fixpoint row_compare (desc : list OrderType) (ts : list TypeId) (r s : row) : comparison :=
  match desc, ts, r, s with
  | order_type :: desc, t :: ts, x :: r, y :: s =>
    match lex_compare (value_key t x) (value_key t y) with
    | Eq => row_compare desc ts r s
    | c => if decide (order_type = ORDER_ASCENDING) then c else CompOpp c
    end
  | _, _, _, _ => Eq
  end.

Lemma row_compare_antisym desc ts r s : row_compare desc ts s r = CompOpp (row_compare desc ts r s).
Proof.
  revert ts r s. induction desc as [|o desc IH]; intros [|t ts] [|x r] [|y s]; try done. cbn [row_compare].
  rewrite (lex_antisym (value_key t x)). destruct (lex_compare _ _); cbn [CompOpp]; [apply IH|by case_decide..].
Qed.

Lemma row_compare_trans desc ts r s u : length r = length ts → length s = length ts → length u = length ts →
  row_compare desc ts r s ≠ Gt → row_compare desc ts s u ≠ Gt → row_compare desc ts r u ≠ Gt.
Proof.
  revert ts r s u. induction desc as [|o desc IH]; intros [|t ts] [|x r] [|y s] [|z u]; try done. cbn [row_compare length].
  intros [= Hr] [= Hs] [= Hu]. destruct (lex_compare (value_key t x) (value_key t y)) eqn:E1.
  - apply lex_eq in E1 as ->. destruct (lex_compare (value_key t y) (value_key t z)); [by apply IH|done..].
  - destruct (lex_compare (value_key t y) (value_key t z)) eqn:E2.
    + apply lex_eq in E2 as <-. by rewrite E1.
    + by rewrite (lex_trans _ _ _ E1 E2).
    + by case_decide.
  - destruct (lex_compare (value_key t y) (value_key t z)) eqn:E2.
    + apply lex_eq in E2 as <-. by rewrite E1.
    + by case_decide.
    + assert (lex_compare (value_key t x) (value_key t z) = Gt) as ->; [|done].
      rewrite lex_antisym, (lex_trans (value_key t z) (value_key t y)); [done|by rewrite lex_antisym, E2|by rewrite lex_antisym, E1].
Qed.

Local Close Scope Z_scope.

Lemma value_key_nonempty t x : orderable t x = true → ∃ z l, value_key t (Some x) = z :: l.
Proof.
  destruct t; try done; destruct x as [n z|[s|]]; try done; cbn [orderable value_key]; intros Hx; rewrite ?decide_False by done; eauto.
  rewrite decide_True by done. destruct (as_double z) as [|[]| |[]]; try done; eauto.
Qed.

(** The element of a vector without selection vector. *)
Lemma flat_cell n t v k : column_ok None n t v → k < n →
  if decide (k ∈ v_null v) then row_value v k = None else ∃ x, v_data v !! k = Some x ∧ row_value v k = Some x.
Proof.
  intros [Ht Hc Hs [[_ Hd] _] _] Hk. rewrite flat_value by (done || lia). case_decide as Hn; [done|].
  destruct (Hd k) as (x & Hx & _); [lia|by rewrite Hs|]. rewrite Hs in Hx. simpl in Hx. eauto.
Qed.

Section sorted.
Context `{Strcmp}.

(** The truncation to [int8_t] keeps the sign of the result of [strcmp]. *)
Definition small_strcmp : Prop := ∀ s t, in_signed 1 (strcmp s t) = true.

Lemma strcmp_key s t : small_strcmp → (wrap_signed 1 (strcmp s t) ?= 0)%Z = lex_compare (0%Z :: string_bytes s) (0%Z :: string_bytes t).
Proof. intros Hs. rewrite wrap_signed_id; [|done|apply Hs]. rewrite strcmp_sign. done. Qed.

Lemma compare_value_spec n m t v w i j : column_ok None n t v → column_ok None m t w → i < n → j < m →
  orderable_value t (row_value v i) → orderable_value t (row_value w j) → (t = T_VARCHAR → small_strcmp) →
  ∃ z, compare_value v w i j = Ok z ∧ (z ?= 0)%Z = lex_compare (value_key t (row_value v i)) (value_key t (row_value w j)).
Proof.
  intros Hv Hw Hi Hj Hov How Hsmall. pose proof (flat_cell _ _ _ _ Hv Hi) as Hx. pose proof (flat_cell _ _ _ _ Hw Hj) as Hy.
  unfold compare_value. destruct (decide (i ∈ v_null v)) as [Hni|Hni], (decide (j ∈ v_null w)) as [Hnj|Hnj];
    rewrite ?(bool_decide_eq_true_2 _ Hni), ?(bool_decide_eq_false_2 _ Hni), ?(bool_decide_eq_true_2 _ Hnj), ?(bool_decide_eq_false_2 _ Hnj); cbn [andb].
  - rewrite Hx, Hy. by exists 0%Z.
  - destruct Hy as (y & _ & Hy). rewrite Hx, Hy. destruct (value_key_nonempty t y) as (z & l & ->); [by apply How|]. by exists (-1)%Z.
  - destruct Hx as (x & _ & Hx). rewrite Hx, Hy. destruct (value_key_nonempty t x) as (z & l & ->); [by apply Hov|]. by exists 1%Z.
  - destruct Hx as (x & Hdx & Hx), Hy as (y & Hdy & Hy). specialize (Hov x Hx). specialize (How y Hy). rewrite Hx, Hy.
    rewrite (col_type _ _ _ _ Hv).
    assert (t ≠ T_VARCHAR → ∃ z, templated_compare_value v w i j = Ok z ∧ (z ?= 0)%Z = lex_compare (value_key t (Some x)) (value_key t (Some y))) as Htemplate.
    { intros _. unfold templated_compare_value. rewrite (col_type _ _ _ _ Hv), (col_type _ _ _ _ Hw), bool_decide_eq_true_2, Hdx, Hdy by done. run.
      rewrite compare_values_key by done. run. destruct (lex_compare _ _); cbn [holds]; eauto. }
    destruct t; try done; try (by apply Htemplate). rewrite Hdx, Hdy. run.
    destruct x as [|[s|]], y as [|[u|]]; try done. eexists. split; [done|]. apply strcmp_key. by apply Hsmall.
Qed.

Definition sign (c : comparison) : Z := match c with Lt => -1 | Eq => 0 | Gt => 1 end.

Lemma compare_columns_rows n m ts desc vs ws i j : Forall2 (column_ok None n) ts vs → Forall2 (column_ok None m) ts ws → i < n → j < m →
  length desc ≤ length ts → (T_VARCHAR ∈ ts → small_strcmp) →
  Forall2 orderable_value ts ((fun v => row_value v i) <$> vs) → Forall2 orderable_value ts ((fun v => row_value v j) <$> ws) →
  compare_columns desc vs ws i j =
    Ok (sign (row_compare desc ts ((fun v => row_value v i) <$> vs) ((fun v => row_value v j) <$> ws))).
Proof.
  intros Hvs. revert desc ws. induction Hvs as [|t v ts vs Hv Hvs IH]; intros desc ws Hws Hi Hj Hlen Hsmall Hov How;
    apply Forall2_cons_inv_l in Hws as (w & ws' & Hw & Hws & ->) || inversion Hws; subst; (destruct desc as [|o desc]; [done|]); [cbn [length] in Hlen; lia|].
  cbn [fmap list_fmap] in Hov, How |- *. apply Forall2_cons_1 in Hov as [Hov1 Hov], How as [How1 How]. cbn [compare_columns row_compare].
  rewrite (col_sel _ _ _ _ Hv), (col_sel _ _ _ _ Hw), (col_type _ _ _ _ Hv), (col_type _ _ _ _ Hw), !bool_decide_eq_true_2 by done. run.
  destruct (compare_value_spec n m t v w i j) as (z & -> & Hz); [done..| |].
  { intros ->. apply Hsmall. by left. }
  run. rewrite <- Hz. destruct (Z.compare_spec z 0) as [Heq|Hlt|Hgt].
  - rewrite Heq, Z.eqb_refl. apply IH; try done; [cbn [length] in Hlen; lia|]. intros Hin. apply Hsmall. by right.
  - rewrite (proj2 (Z.eqb_neq z 0)), (proj2 (Z.ltb_lt z 0)) by lia. by case_decide.
  - rewrite (proj2 (Z.eqb_neq z 0)), (proj2 (Z.ltb_ge z 0)) by lia. by case_decide.
Qed.

(** A collection of rows that can be sorted by the columns of [desc]. *)
Record sortable (ts : list TypeId) (desc : list OrderType) (col : ChunkCollection) : Prop := {
  so_collection : collection_ok ts col;
  so_desc : length desc ≤ length ts;
  so_rows : Forall (Forall2 orderable_value ts) (collection_rows col);
  so_strcmp : T_VARCHAR ∈ ts → small_strcmp }.

Lemma compare_tuple_spec ts desc col left right : sortable ts desc col → left < cc_count col → right < cc_count col →
  ∃ l r, collection_rows col !! left = Some l ∧ collection_rows col !! right = Some r ∧
    compare_tuple col desc left right = Ok (sign (row_compare desc ts l r)).
Proof.
  intros [Hok Hlen Hrows Hsmall] Hl Hr. destruct (collection_chunk ts col left Hok Hl) as (c & Hc & [_ Hcols _] & Hs & Hlt & Hrow).
  destruct (collection_chunk ts col right Hok Hr) as (d & Hd & [_ Hdols _] & Hsd & Hltd & Hrowd).
  rewrite Forall_lookup in Hrows. pose proof (Hrows _ _ Hrow). pose proof (Hrows _ _ Hrowd). rewrite Hs in Hcols. rewrite Hsd in Hdols.
  eexists _, _. split; [done|]. split; [done|]. unfold compare_tuple. rewrite Hc, Hd. run. by eapply compare_columns_rows.
Qed.

Definition row_le (desc : list OrderType) (ts : list TypeId) (r s : row) : Prop := row_compare desc ts r s ≠ Gt.

(** The order of the positions. *)
Definition position_order (ts : list TypeId) (desc : list OrderType) (rows : list row) (i j : nat) : Z :=
  match rows !! i, rows !! j with Some l, Some r => sign (row_compare desc ts l r) | _, _ => 0 end.

Lemma position_preorder ts desc rows : Forall (fun r => length r = length ts) rows →
  total_preorder (fun i => i < length rows) (position_order ts desc rows).
Proof.
  intros Hrows. rewrite Forall_lookup in Hrows. unfold position_order. split.
  - intros i j Hi Hj. destruct (rows !! i) as [l|], (rows !! j) as [r|]; try lia.
    rewrite (row_compare_antisym desc ts l r). by destruct (row_compare desc ts l r).
  - intros i j k Hi Hj Hk. destruct (lookup_lt_is_Some_2 rows i Hi) as [l Hl], (lookup_lt_is_Some_2 rows j Hj) as [m Hm], (lookup_lt_is_Some_2 rows k Hk) as [r Hr].
    rewrite Hl, Hm, Hr. intros H1 H2. assert (row_compare desc ts l r ≠ Gt) as Hlr; [|by destruct (row_compare desc ts l r)].
    apply row_compare_trans with m; eauto; [by destruct (row_compare desc ts l m)|by destruct (row_compare desc ts m r)].
Qed.

(** The rows at the positions of a permutation. *)
Lemma rows_at_positions {A} (rows : list A) a : a ≡ₚ seq 0 (length rows) → ∃ rs, mapM (rows !!.) a = Some rs ∧ rs ≡ₚ rows.
Proof.
  intros Hp. assert (∀ b, Forall (fun i => i < length rows) b → ∃ rs, mapM (rows !!.) b = Some rs ∧ rs = omap (rows !!.) b) as Hb.
  { intros b. induction 1 as [|i b Hi _ (rs & Hrs & Heq)]; [by exists []|]. destruct (lookup_lt_is_Some_2 rows i Hi) as [r Hr].
    exists (r :: rs). simpl. rewrite Hr, Hrs. simpl. split; [done|]. by rewrite Heq. }
  destruct (Hb a) as (rs & Hrs & Heq).
  { rewrite Hp. apply Forall_forall. intros i Hi%elem_of_seq. lia. }
  exists rs. split; [done|]. rewrite Heq, Hp. clear. induction rows as [|r rows IH] using rev_ind; [done|].
  rewrite length_app, Nat.add_1_r, seq_S, omap_app. simpl. rewrite lookup_app_r, Nat.sub_diag by lia. simpl. apply Permutation_app_tail.
  erewrite list_omap_ext; [exact IH|]. apply Forall_Forall2_diag, Forall_forall. intros i Hi%elem_of_seq. apply lookup_app_l. lia.
Qed.

Lemma ordered_rows ts desc rows a rs : mapM (rows !!.) a = Some rs →
  ordered (position_order ts desc rows) a 0 (Z.of_nat (length a) - 1) → StronglySorted (row_le desc ts) rs.
Proof.
  intros Hrs. apply mapM_Some in Hrs. induction Hrs as [|i r a rs Hi Hrs IH]; intros Hord; [constructor|].
  constructor.
  - apply IH. intros k j x y Hk Hj [Hk0 Hx]%read_Ok [Hj0 Hy]%read_Ok. apply (Hord (k + 1)%Z (j + 1)%Z); [lia|cbn [length]; lia|..];
      apply read_Ok; (split; [lia|]); rewrite Z2Nat.inj_add by lia; by rewrite Nat.add_1_r.
  - apply Forall_lookup. intros k s Hs. destruct (Forall2_lookup_r _ _ _ _ _ Hrs Hs) as (j & Hj & Hlj).
    assert (position_order ts desc rows i j <= 0)%Z as Hle.
    { apply (Hord 0%Z (Z.of_nat (S k))); [lia|apply lookup_lt_Some in Hj; cbn [length]; lia|by apply read_Ok|].
      apply read_Ok. rewrite Nat2Z.id. split; [lia|done]. }
    unfold position_order in Hle. rewrite Hi, Hlj in Hle. unfold row_le. by destruct (row_compare desc ts r s).
Qed.

(** The positions that [Sort] computes list the rows in order. *)
Lemma Sort_spec ts desc col a0 : sortable ts desc col → length a0 = cc_count col →
  ∃ a rs, Sort col desc a0 = Ok a ∧ a ≡ₚ seq 0 (cc_count col) ∧
    mapM (collection_rows col !!.) a = Some rs ∧ rs ≡ₚ collection_rows col ∧ StronglySorted (row_le desc ts) rs.
Proof.
  intros Hs Hlen. pose proof (co_count _ _ (so_collection _ _ _ Hs)) as Hcount. set (rows := collection_rows col) in *.
  destruct (sort_positions_spec (compare_tuple col desc) (fun i => i < length rows) (position_order ts desc rows)) with (cc_count col) a0
    as (a & Ha & Hp & Hord); [|done| |].
  - intros x y Hx Hy. destruct (compare_tuple_spec ts desc col x y) as (l & r & Hl & Hr & ->); [done|lia|lia|].
    unfold position_order. fold rows in Hl, Hr. by rewrite Hl, Hr.
  - apply Forall_forall. intros i Hi%elem_of_seq. lia.
  - rewrite Hcount in Hp. destruct (rows_at_positions rows a Hp) as (rs & Hrs & Hperm). exists a, rs. rewrite Hcount. split_and!; try done.
    eapply ordered_rows; [exact Hrs|]. apply Permutation_length in Hp. rewrite length_seq in Hp. rewrite Hp, <- Hcount. apply Hord, position_preorder.
    eapply Forall_impl; [apply (so_rows _ _ _ Hs)|]. intros r Hr. symmetry. by eapply Forall2_length.
Qed.
End sorted.

(** ** The sorted rows *)

Section materialise.
Context (ts : list TypeId) (col : ChunkCollection) (order : list nat) (rs : list row).
Context (Hok : collection_ok ts col) (Hrs : mapM (collection_rows col !!.) order = Some rs).

Lemma order_lookup k r : rs !! k = Some r → ∃ o, order !! k = Some o ∧ collection_rows col !! o = Some r.
Proof using Hrs. intros Hk. apply mapM_Some in Hrs. by destruct (Forall2_lookup_r _ _ _ _ _ Hrs Hk) as (o & Ho & Hr); eauto. Qed.

(** The value of the row [k] in a column, where [templated_set_values] finds it. *)
Lemma source_value k c t : k < length rs → ts !! c = Some t →
  ∃ o chunk v value, order !! k = Some o ∧ cc_chunks col !! (o / STANDARD_VECTOR_SIZE) = Some chunk ∧ dc_data chunk !! c = Some v ∧
    rs !! k ≫= (.!! c) = Some value ∧ cells_ok t value ∧
    if decide (o mod STANDARD_VECTOR_SIZE ∈ v_null v) then value = None
    else ∃ x, v_data v !! (o mod STANDARD_VECTOR_SIZE) = Some x ∧ value = Some x.
Proof using Hok Hrs.
  intros Hk Ht. destruct (lookup_lt_is_Some_2 rs k Hk) as [r Hr]. destruct (order_lookup k r Hr) as (o & Ho & Hor).
  assert (o < cc_count col) as Hlt by (rewrite (co_count _ _ Hok); by eapply lookup_lt_Some).
  destruct (collection_chunk ts col o Hok Hlt) as (chunk & Hchunk & [_ Hcols _] & Hs & Hpos & Hrow). rewrite Hs in Hcols.
  destruct (Forall2_lookup_l _ _ _ _ _ Hcols Ht) as (v & Hv & Hcol). exists o, chunk, v, (row_value v (o mod STANDARD_VECTOR_SIZE)).
  split_and!; [done|done|done| |by apply (col_cells _ _ _ _ Hcol)|].
  - rewrite Hr. simpl. rewrite Hor in Hrow. injection Hrow as ->. unfold row_at. by rewrite list_lookup_fmap, Hv.
  - pose proof (flat_cell _ _ _ _ Hcol Hpos) as Hc. case_decide; [done|]. destruct Hc as (x & Hx & Hval). eauto.
Qed.

(** What is known of the position [k] of the target. *)
Definition holds_value (c start : nat) (tgt : Vector) (k : nat) : Prop :=
  ∃ value, rs !! (start + k) ≫= (.!! c) = Some value ∧ (k ∈ v_null tgt ↔ value = None) ∧ (∀ x, value = Some x → v_data tgt !! k = Some x).

Lemma set_values_spec c t start n i tgt : ts !! c = Some t → start + i + n ≤ length rs →
  ∃ tgt', templated_set_values col tgt order c start (seq i n) = Ok tgt' ∧
    v_type tgt' = v_type tgt ∧ v_count tgt' = v_count tgt ∧ v_sel tgt' = v_sel tgt ∧
    (∀ k, i ≤ k < i + n → holds_value c start tgt' k) ∧
    (∀ k, k < i → (k ∈ v_null tgt' ↔ k ∈ v_null tgt) ∧ v_data tgt' !! k = v_data tgt !! k).
Proof using Hok Hrs.
  intros Ht. revert i tgt. induction n as [|n IH]; intros i tgt Hlen; [exists tgt; split_and!; try done; lia|]. cbn [seq templated_set_values].
  destruct (source_value (start + i) c t) as (o & chunk & v & value & -> & Hchunk & Hv & Hval & Hcells & Hcase); [lia|done|]. run. rewrite Hchunk. run. rewrite Hv. run.
  destruct (decide (o mod STANDARD_VECTOR_SIZE ∈ v_null v)) as [Hn|Hn].
  - edestruct (IH (S i)) as (tgt' & -> & Htype & Hcount & Hsel & Hin & Hout); [lia|]. exists tgt'. split; [done|]. simpl in *. split_and!; try done.
    + intros k Hk. destruct (decide (k = i)) as [->|Hne]; [|apply Hin; lia]. exists value. destruct (Hout i) as [Hi1 Hi2]; [lia|].
      split; [done|]. subst value. split; [|done]. rewrite Hi1. split; [done|set_solver+].
    + intros k Hk. destruct (Hout k) as [Hk1 Hk2]; [lia|]. rewrite Hk1, Hk2. split; [|done]. split; [intros [Hbad%elem_of_singleton|]%elem_of_union; [lia|done]|set_solver+].
  - destruct Hcase as (x & -> & ->). run. edestruct (IH (S i)) as (tgt' & -> & Htype & Hcount & Hsel & Hin & Hout); [lia|]. exists tgt'. split; [done|].
    simpl in *. split_and!; try done.
    + intros k Hk. destruct (decide (k = i)) as [->|Hne]; [|apply Hin; lia]. exists (Some x). destruct (Hout i) as [Hi1 Hi2]; [lia|].
      split; [done|]. split; [rewrite Hi1; set_solver+|]. intros y [= <-]. rewrite Hi2. by rewrite lookup_insert_eq.
    + intros k Hk. destruct (Hout k) as [Hk1 Hk2]; [lia|]. rewrite Hk1, Hk2, lookup_insert_ne by lia. split; [|done].
      rewrite elem_of_difference, elem_of_singleton. split; [tauto|]. intros Hin'. split; [done|lia].
Qed.

Lemma set_type_null t : set_type t = true → ∃ null, NullValue t = Ok null.
Proof. destruct t; try done; intros _; by eexists. Qed.

Lemma sorted_column_spec c t start n : ts !! c = Some t → set_type t = true → n ≤ STANDARD_VECTOR_SIZE → start + n ≤ length rs →
  cc_types col = ts →
  ∃ v, sorted_column col (DataChunk_Initialize ts) order start n c = Ok v ∧ column_ok None n t v ∧
    ∀ k, k < n → rs !! (start + k) ≫= (.!! c) = Some (row_value v k).
Proof using Hok Hrs.
  intros Ht Hset Hn Hlen Htypes. unfold sorted_column. cbn [DataChunk_Initialize dc_data]. rewrite list_lookup_fmap, Htypes, Ht. cbn [fmap option_fmap option_map]. run.
  rewrite Hset. destruct (set_values_spec c t start n 0 (mkVector t n ∅ None ∅)) as (v & Hv & Htype & Hcount & Hsel & Hin & _); [done|lia|].
  cbn [EmptyVector v_type v_data v_sel v_null] in *. exists v. split; [done|].
  assert (∀ k, k < n → rs !! (start + k) ≫= (.!! c) = Some (row_value v k)) as Hrow.
  { intros k Hk. destruct (Hin k) as (value & Hval & Hnull & Hdata); [lia|]. rewrite Hval. f_equal.
    rewrite flat_value by (done || cbn [v_count] in Hcount; lia). case_decide as Hd; [by apply Hnull|].
    destruct value as [x|]; [by rewrite (Hdata x)|]. by destruct Hd; apply Hnull. }
  split; [|done]. cbn [v_count] in Hcount. split; [done|done|done| |].
  - split; [split|]; rewrite ?Htype, ?Hsel, ?Hcount; [by apply set_type_null| |intros k Hk; simpl; lia].
    intros k Hk Hd. simpl in Hd |- *. destruct (Hin k) as (value & Hval & Hnull & Hdata); [lia|]. destruct value as [x|]; [|by destruct Hd; apply Hnull].
    exists x. split; [by apply Hdata|]. destruct (source_value (start + k) c t) as (o & chunk & w & value' & _ & _ & _ & Hval' & Hcells & _); [lia|done|].
    assert (value' = Some x) as -> by congruence. by apply cell_ok_typed, Hcells.
  - intros k Hk. destruct (source_value (start + k) c t) as (o & chunk & w & value' & _ & _ & _ & Hval' & Hcells & _); [lia|done|].
    rewrite Hrow in Hval' by done. by injection Hval' as ->.
Qed.

Lemma rs_width r : r ∈ rs → length r = length ts.
Proof using Hok Hrs.
  intros [k Hk]%list_elem_of_lookup_1. destruct (order_lookup k r Hk) as (o & _ & Ho).
  assert (o < cc_count col) as Hlt by (rewrite (co_count _ _ Hok); by eapply lookup_lt_Some).
  destruct (collection_chunk ts col o Hok Hlt) as (chunk & _ & Htc & _ & _ & Hrow). rewrite Ho in Hrow. injection Hrow as ->.
  unfold row_at. rewrite length_fmap. by apply typed_chunk_columns.
Qed.

(** The chunk of the sorted rows from [start] on. *)
Lemma MaterializeSortedChunk_spec start : ts ≠ [] → Forall (fun t => set_type t = true) ts → length order = cc_count col → start < cc_count col →
  ∃ c, MaterializeSortedChunk col (DataChunk_Initialize ts) order start = Ok c ∧ typed_chunk ts c ∧ dc_sel c = None ∧
    chunk_rows c = take STANDARD_VECTOR_SIZE (drop start rs).
Proof using Hok Hrs.
  intros Hne Hset Hlen Hstart. set (n := STANDARD_VECTOR_SIZE `min` (cc_count col - start)).
  assert (cc_types col = ts) as Htypes.
  { apply (co_types _ _ Hok). intros Hnil. rewrite (co_count _ _ Hok) in Hstart. unfold collection_rows in Hstart. rewrite Hnil in Hstart. simpl in Hstart. lia. }
  assert (length rs = cc_count col) as Hlrs by (rewrite <- Hlen; symmetry; by eapply Forall2_length, mapM_Some).
  assert (∃ vs, mapM (sorted_column col (DataChunk_Initialize ts) order start n) (seq 0 (length ts)) = Ok vs ∧
    Forall2 (column_ok None n) ts vs ∧ ∀ c v, vs !! c = Some v → ∀ k, k < n → rs !! (start + k) ≫= (.!! c) = Some (row_value v k)) as (vs & Hvs & Hcols & Hrows).
  { destruct (mapM_columns (sorted_column col (DataChunk_Initialize ts) order start n) (column_ok None n)
      (fun c v => ∀ k, k < n → rs !! (start + k) ≫= (.!! c) = Some (row_value v k)) ts 0) as (vs & Hvs & Hcols & Hrows); [|by eauto].
    intros c t Hc. eapply sorted_column_spec; [done| |lia|lia|done]. by eapply Forall_lookup in Hset. }
  exists (mkDataChunk vs None). unfold MaterializeSortedChunk. fold n. rewrite Htypes, Hvs. unfold GetTypes. cbn [DataChunk_Initialize dc_data].
  rewrite bool_decide_eq_true_2 by (rewrite <- list_fmap_compose; by rewrite list_fmap_id). run.
  split; [done|]. split; [eapply columns_chunk; [done|done|lia]|]. split; [done|]. eapply columns_rows; [done|exact Hcols| | |].
  - rewrite length_take, length_drop. lia.
  - apply Forall_forall. intros r Hr%elem_of_take_drop. by apply rs_width.
  - intros k c v Hk Hv. rewrite lookup_take_lt, lookup_drop by lia. by apply Hrows.
Qed.
End materialise.

(** ** Examples *)

Module SortExample.
(** A [strcmp] that returns a sign. *)
Definition sign_strcmp : Strcmp.
Proof.
  refine {| strcmp s t := sign (lex_compare (string_bytes s) (string_bytes t)) |}.
  intros s t. by destruct (lex_compare _ _).
Defined.

(** A [strcmp] that returns the difference of the first bytes that differ. *)
Fixpoint byte_difference (l k : list Z) : Z :=
  match l, k with
  | [], [] => 0
  | [], b :: _ => - Z.max 1 b
  | a :: _, [] => Z.max 1 a
  | a :: l, b :: k => if (a =? b)%Z then byte_difference l k else (a - b)%Z
  end.

Lemma byte_difference_sign l k : (byte_difference l k ?= 0)%Z = lex_compare l k.
Proof.
  revert k. induction l as [|a l IH]; intros [|b k]; cbn [byte_difference lex_compare]; [done|apply Z.compare_lt_iff; lia|apply Z.compare_gt_iff; lia|].
  destruct (Z.eqb_spec a b) as [->|Hne]; [by rewrite Z.compare_refl|]. destruct (Z.compare_spec a b); [lia|apply Z.compare_lt_iff; lia|apply Z.compare_gt_iff; lia].
Qed.

Definition difference_strcmp : Strcmp :=
  {| strcmp s t := byte_difference (string_bytes s) (string_bytes t); strcmp_sign s t := byte_difference_sign _ _ |}.

(** Rows of an INTEGER and a VARCHAR column. *)
Definition example_chunk (numbers : list (option Z)) (names : list string) : DataChunk :=
  mkDataChunk [mkVector T_INTEGER (length numbers) (list_to_map (imap (fun i o => (i, Num 4 (default 0%Z o))) numbers)) None
                 (list_to_set (omap (fun io => match io.2 with None => Some io.1 | Some _ => None end) (imap pair numbers)));
               mkVector T_VARCHAR (length names) (list_to_map (imap (fun i s => (i, Str (Some s))) names)) None ∅] None.

Definition example_types : list TypeId := [T_INTEGER; T_VARCHAR].

Definition people : DataChunk := example_chunk [Some 3; None; Some 1; Some 3]%Z ["d"; "c"; "b"; "a"]%string.

Definition people_collection : ChunkCollection := mkCollection 4 [people] example_types.

Definition typed_chunkb (ts : list TypeId) (c : DataChunk) : bool :=
  negb (bool_decide (ts = [])) && bool_decide (length ts = length (dc_data c)) && (chunk_size c <=? STANDARD_VECTOR_SIZE) &&
  forallb (fun tv => bool_decide (v_type tv.2 = tv.1) && bool_decide (v_count tv.2 = chunk_size c) && bool_decide (v_sel tv.2 = dc_sel c) &&
    operand_okb tv.2 && forallb (fun k => match row_value tv.2 k with Some x => cell_ok tv.1 x | None => true end) (seq 0 (chunk_size c))) (zip ts (dc_data c)).

Lemma typed_chunkb_ok ts c : typed_chunkb ts c = true → typed_chunk ts c.
Proof.
  unfold typed_chunkb. intros [[[Hne%negb_true_iff%bool_decide_eq_false Hlen%bool_decide_eq_true]%andb_true_iff Hsize%Nat.leb_le]%andb_true_iff Hcols]%andb_true_iff.
  split; [done| |done]. apply Forall2_same_length_lookup. split; [done|]. intros i t v Ht Hv.
  rewrite forallb_forall in Hcols. assert (In (t, v) (zip ts (dc_data c))) as Hin.
  { apply list_elem_of_In, list_elem_of_lookup. exists i. apply lookup_zip_Some. done. }
  apply Hcols in Hin. simpl in Hin. apply andb_true_iff in Hin as [[[[H1%bool_decide_eq_true H2%bool_decide_eq_true]%andb_true_iff H3%bool_decide_eq_true]%andb_true_iff H4]%andb_true_iff H5].
  split; [done|done|done|by apply operand_okb_ok|]. intros k Hk x Hx. rewrite forallb_forall in H5. specialize (H5 k). rewrite Hx in H5. apply H5, in_seq. lia.
Qed.

Definition orderable_rowb (ts : list TypeId) (r : row) : bool :=
  bool_decide (length ts = length r) && forallb (fun to => match to.2 with Some x => orderable to.1 x | None => true end) (zip ts r).

Lemma orderable_rowb_ok ts r : orderable_rowb ts r = true → Forall2 orderable_value ts r.
Proof.
  intros [Hlen%bool_decide_eq_true Hall]%andb_true_iff. rewrite forallb_forall in Hall. apply Forall2_same_length_lookup. split; [done|].
  intros i t o Ht Ho x ->. apply (Hall (t, Some x)), list_elem_of_In, list_elem_of_lookup. exists i. by apply lookup_zip_Some.
Qed.

Lemma people_sortable : @sortable sign_strcmp example_types [ORDER_ASCENDING; ORDER_DESCENDING] people_collection.
Proof.
  split.
  - split; [done| | |by vm_compute].
    + apply Forall_singleton. split; [apply typed_chunkb_ok; by vm_compute|]. split; [done|]. unfold people, example_chunk, chunk_size. simpl. lia.
    + intros i c Hi Hlt. simpl in Hlt. lia.
  - by vm_compute; lia.
  - apply Forall_forall. intros r Hr. apply orderable_rowb_ok. assert (forallb (orderable_rowb example_types) (collection_rows people_collection) = true) as Hall by (by vm_compute).
    rewrite forallb_forall in Hall. by apply Hall, list_elem_of_In.
  - intros _ s t. unfold strcmp, sign_strcmp. by destruct (lex_compare _ _).
Qed.

(** The strings of two rows in the wrong order: the difference of the first
    bytes, 65 - 195, is truncated to a positive number. *)
Definition accents : ChunkCollection := mkCollection 2 [mkDataChunk [mkVector T_VARCHAR 2
  {[0 := Str (Some (bytes_string [195; 137]%Z)); 1 := Str (Some "A"%string)]} None ∅] None] [T_VARCHAR].

Lemma strcmp_truncated : @Sort difference_strcmp accents [ORDER_ASCENDING] [7; 7] = Ok [0; 1] ∧
  @Sort sign_strcmp accents [ORDER_ASCENDING] [7; 7] = Ok [1; 0].
Proof. by vm_compute. Qed.
End SortExample.


