(* ===== verification/PhysicalOperators.v ===== *)
(** * Physical operators

    The pull-based execution model (physical_operator.cpp) and the operators
    that scan, filter, project, limit, prune, unite, multiply and order rows
    (src/src/execution/operator).  An operator returns one chunk per call of
    [GetChunk] and keeps its position in an operator state; an empty chunk is
    the end.  [DataChunk::Verify] only acts in debug builds and is left out. *)

From Stdlib Require Import ZArith Lia.
From stdpp Require Import base gmap list strings option numbers sorting relations.
From S2P Require Import Prelude Types Vector Serializer StringStream DateTime KeyTuples Operators VectorOps Like Casts Value Expressions ExpressionRows ExecutorProofs ChunkCollection ChunkSort.

(** ** Operators *)

(** The rows of a table, read chunk by chunk: what the table scan uses of
    [DataTable].  [scan_table] is [DataTable::Scan] of the transaction of the
    query, on a chunk that has been reset. *)
Class TableSource : Type := {
  scan_state : Type;
  initialize_scan : nat → result scan_state;
  scan_table : nat → list nat → DataChunk → scan_state → result (DataChunk * scan_state) }.

Record BoundOrderByNode : Type := mkOrderBy { ob_type : OrderType; ob_expression : Expression }.

Inductive PhysicalOperator : Type :=
| PhysicalTableScan (types : list TypeId) (table : nat) (column_ids : list nat)
| PhysicalChunkScan (types : list TypeId) (collection : ChunkCollection)
| PhysicalDummyScan (types : list TypeId)
| PhysicalEmptyResult (types : list TypeId)
| PhysicalFilter (types : list TypeId) (expressions : list Expression) (child : PhysicalOperator)
| PhysicalProjection (types : list TypeId) (select_list : list Expression) (child : PhysicalOperator)
| PhysicalLimit (types : list TypeId) (limit offset : Z) (child : PhysicalOperator)
| PhysicalPruneColumns (types : list TypeId) (column_limit : nat) (child : PhysicalOperator)
| PhysicalUnion (types : list TypeId) (top bottom : PhysicalOperator)
| PhysicalCrossProduct (types : list TypeId) (left right : PhysicalOperator)
| PhysicalOrder (types : list TypeId) (orders : list BoundOrderByNode) (child : PhysicalOperator).

Definition op_types (op : PhysicalOperator) : list TypeId :=
  match op with
  | PhysicalTableScan types _ _ | PhysicalChunkScan types _ | PhysicalDummyScan types | PhysicalEmptyResult types
  | PhysicalFilter types _ _ | PhysicalProjection types _ _ | PhysicalLimit types _ _ _ | PhysicalPruneColumns types _ _
  | PhysicalUnion types _ _ | PhysicalCrossProduct types _ _ | PhysicalOrder types _ _ => types
  end.

Definition InitializeChunk (op : PhysicalOperator) : DataChunk := DataChunk_Initialize (op_types op).

(** [chunk.data[i].Reference(child.data[i])] for the columns before [n]. *)
Definition reference_columns (n : nat) (chunk child : DataChunk) : result (list Vector) :=
  _ ← assert_ (n <=? column_count chunk);
  columns ← mapM (fun i => deref (dc_data child !! i)) (seq 0 n);
  Ok (columns ++ drop n (dc_data chunk)).

(** The buffer of a vector from element [start] on. *)
Definition shift_data (start : nat) (m : gmap nat cell) : gmap nat cell :=
  list_to_map (omap (fun ix : nat * cell => if start <=? ix.1 then Some (ix.1 - start, ix.2) else None) (map_to_list m)).

Section operators.
Context `{!FloatText} `{!Strcmp} `{!TableSource}.
(** The scalar functions, the interrupt flag of the connection, and what
    uninitialised memory holds. *)
Context (function_call : nat → list Vector → result Vector) (interrupted : bool).
Context (uninitialised : nat → list nat) (garbage : Z).

(** [PhysicalOperatorState] and its subclasses. *)
Inductive OperatorState : Type :=
| TableScanState (scan_offset : scan_state)
| ChunkScanState (chunk_index : nat)
| LeafState (finished : bool)
| ChildState (child_state : OperatorState)
| LimitState (child_state : OperatorState) (current_offset : Z)
| UnionState (finished top_done : bool) (top_state bottom_state : OperatorState)
| CrossProductState (child_state : OperatorState) (child_chunk : DataChunk) (left_position right_position : nat) (right_data : ChunkCollection)
| OrderState (child_state : OperatorState) (position : nat) (sorted_data : ChunkCollection) (sorted_vector : list nat).

Definition finished (state : OperatorState) : bool :=
  match state with LeafState b | UnionState b _ _ _ => b | _ => false end.

(** [GetOperatorState] *)
Fixpoint GetOperatorState (op : PhysicalOperator) : result OperatorState :=
  match op with
  | PhysicalTableScan _ table _ => s ← initialize_scan table; Ok (TableScanState s)
  | PhysicalChunkScan _ _ => Ok (ChunkScanState 0)
  | PhysicalDummyScan _ | PhysicalEmptyResult _ => Ok (LeafState false)
  | PhysicalFilter _ _ child | PhysicalProjection _ _ child | PhysicalPruneColumns _ _ child =>
    s ← GetOperatorState child; Ok (ChildState s)
  | PhysicalLimit _ _ _ child => s ← GetOperatorState child; Ok (LimitState s 0)
  | PhysicalUnion _ top bottom =>
    s ← GetOperatorState top; t ← GetOperatorState bottom; Ok (UnionState false false s t)
  | PhysicalCrossProduct _ lhs _ =>
    s ← GetOperatorState lhs; Ok (CrossProductState s (InitializeChunk lhs) 0 0 EmptyCollection)
  | PhysicalOrder _ _ child => s ← GetOperatorState child; Ok (OrderState s 0 EmptyCollection [])
  end.

(** A call of [GetChunk] of a child with the chunk that is reused for it. *)
Abbreviation puller := (OperatorState → result (DataChunk * OperatorState)).

(** *** Scans *)

Definition ChunkScan_GetChunk (collection : ChunkCollection) (chunk : DataChunk) (chunk_index : nat) : result (DataChunk * OperatorState) :=
  if cc_count collection =? 0 then Ok (chunk, ChunkScanState chunk_index)
  else
    _ ← assert_ (bool_decide (GetTypes chunk = cc_types collection));
    if length (cc_chunks collection) <=? chunk_index then Ok (chunk, ChunkScanState chunk_index)
    else
      collection_chunk ← deref (cc_chunks collection !! chunk_index);
      data ← reference_columns (column_count chunk) chunk collection_chunk;
      Ok (mkDataChunk data (dc_sel chunk), ChunkScanState (S chunk_index)).

(** One row, with whatever the INTEGER column happens to hold. *)
Definition DummyScan_GetChunk (chunk : DataChunk) : result (DataChunk * OperatorState) :=
  match dc_data chunk with
  | v :: vs => Ok (mkDataChunk (mkVector (v_type v) 1 {[0 := Num 4 garbage]} (v_sel v) (v_null v) :: vs) (dc_sel chunk), LeafState true)
  | [] => Undef
  end.

(** *** Filter and projection *)

(** The loop of [PhysicalFilter::_GetChunk]. *)
Fixpoint Filter_GetChunk (fuel : nat) (next : puller) (expressions : list Expression) (chunk : DataChunk) (child_state : OperatorState) : result (DataChunk * OperatorState) :=
  match fuel with
  | O => Undef
  | S fuel =>
    '(child_chunk, child_state) ← next child_state;
    if chunk_size child_chunk =? 0 then Ok (chunk, ChildState child_state)
    else
      _ ← assert_ (0 <? length expressions);
      result_ ← fst (Merge function_call (Some child_chunk) expressions ∅);
      data ← reference_columns (column_count chunk) chunk child_chunk;
      chunk ← SetSelectionVector (mkDataChunk data (dc_sel child_chunk)) result_;
      if chunk_size chunk =? 0 then Filter_GetChunk fuel next expressions chunk child_state
      else Ok (chunk, ChildState child_state)
  end.

Definition Projection_GetChunk (next : puller) (select_list : list Expression) (chunk : DataChunk) (child_state : OperatorState) : result (DataChunk * OperatorState) :=
  _ ← assert_ (0 <? length select_list);
  '(child_chunk, child_state) ← next child_state;
  if chunk_size child_chunk =? 0 then Ok (chunk, ChildState child_state)
  else
    chunk ← fst (Execute_chunk function_call (Some child_chunk) select_list (GetTypes chunk) ∅);
    Ok (chunk, ChildState child_state).

Definition PruneColumns_GetChunk (next : puller) (column_limit : nat) (chunk : DataChunk) (child_state : OperatorState) : result (DataChunk * OperatorState) :=
  '(child_chunk, child_state) ← next child_state;
  if chunk_size child_chunk =? 0 then Ok (chunk, ChildState child_state)
  else
    _ ← assert_ (column_limit <=? column_count child_chunk);
    data ← reference_columns column_limit chunk child_chunk;
    Ok (mkDataChunk data (dc_sel child_chunk), ChildState child_state).

(** *** Limit *)

Local Open Scope Z_scope.

(** The columns of [child], cut to [n] rows. *)
Definition limit_columns (n : Z) (chunk child : DataChunk) : result (list Vector) :=
  data ← reference_columns (column_count chunk) chunk child;
  Ok (with_count (Z.to_nat n) <$> (data : list Vector)).

(** The branch that starts within the chunk: the data pointer moves, the null
    mask and the selection vector do not. *)
Definition offset_columns (start : nat) (n : Z) (chunk child : DataChunk) : result (list Vector) :=
  data ← reference_columns (column_count chunk) chunk child;
  Ok ((fun v => mkVector (v_type v) (Z.to_nat n) (shift_data start (v_data v)) (v_sel v) (v_null v)) <$> (data : list Vector)).

Definition Limit_GetChunk (next : puller) (limit offset : Z) (chunk : DataChunk) (child_state : OperatorState) (current_offset : Z) : result (DataChunk * OperatorState) :=
  let max_element := (limit + offset) mod 2 ^ 64 in
  if max_element <=? current_offset then Ok (chunk, LimitState child_state current_offset)
  else
    '(child_chunk, child_state) ← next child_state;
    let size := Z.of_nat (chunk_size child_chunk) in
    if size =? 0 then Ok (chunk, LimitState child_state current_offset)
    else
      chunk ←
        (if current_offset <? offset then
           if offset <=? current_offset + size then
             let start_position := offset - current_offset in
             let chunk_count := limit `min` (size - start_position) in
             data ← offset_columns (Z.to_nat start_position) chunk_count chunk child_chunk;
             Ok (mkDataChunk data (dc_sel child_chunk))
           else Ok chunk
         else
           let chunk_count := if max_element <=? current_offset + size then max_element - current_offset else size in
           data ← limit_columns chunk_count chunk child_chunk;
           Ok (mkDataChunk data (dc_sel child_chunk)));
      Ok (chunk, LimitState child_state (current_offset + size)).

Local Close Scope Z_scope.

(** *** Union *)

Definition Union_GetChunk (next_top next_bottom : puller) (top_done : bool) (top_state bottom_state : OperatorState) : result (DataChunk * OperatorState) :=
  '(chunk, top_done, top_state) ←
    (if top_done then Ok (None, true, top_state)
     else
       '(chunk, top_state) ← next_top top_state;
       Ok (Some chunk, chunk_size chunk =? 0, top_state));
  match chunk, top_done with
  | Some chunk, false => Ok (chunk, UnionState (chunk_size chunk =? 0) false top_state bottom_state)
  | _, _ =>
    '(chunk, bottom_state) ← next_bottom bottom_state;
    Ok (chunk, UnionState (chunk_size chunk =? 0) top_done top_state bottom_state)
  end.

(** *** Cross product *)

(** The loop that collects the chunks of a child. *)
Fixpoint materialize (fuel : nat) (next : puller) (state : OperatorState) (data : ChunkCollection) : result (ChunkCollection * OperatorState) :=
  match fuel with
  | O => Undef
  | S fuel =>
    '(new_chunk, state) ← next state;
    if chunk_size new_chunk =? 0 then Ok (data, state)
    else
      data ← Collection_Append data new_chunk;
      materialize fuel next state data
  end.

(** The row at [left_position] of the left chunk, next to the right chunk. *)
Definition cross_chunk (chunk left_chunk right_chunk : DataChunk) (left_position : nat) : result DataChunk :=
  let l := column_count left_chunk in
  _ ← assert_ (l + column_count right_chunk <=? column_count chunk);
  left_columns ← map2M (fun target v =>
      value ← GetValue v left_position;
      Vector_Set (with_count (chunk_size right_chunk) target) value) (take l (dc_data chunk)) (dc_data left_chunk);
  Ok (mkDataChunk (left_columns ++ dc_data right_chunk ++ drop (l + column_count right_chunk) (dc_data chunk)) (dc_sel chunk)).

Definition cross_step (next : puller) (chunk : DataChunk) (child_state : OperatorState) (child_chunk : DataChunk)
    (left_position right_position : nat) (right_data : ChunkCollection) : result (DataChunk * OperatorState) :=
  if chunk_size child_chunk <=? left_position then Ok (chunk, CrossProductState child_state child_chunk left_position right_position right_data)
  else
    right_chunk ← deref (cc_chunks right_data !! right_position);
    chunk ← cross_chunk chunk child_chunk right_chunk left_position;
    if chunk_size child_chunk <=? S left_position then
      if length (cc_chunks right_data) <=? S right_position then
        '(child_chunk, child_state) ← next child_state;
        Ok (chunk, CrossProductState child_state child_chunk 0 0 right_data)
      else Ok (chunk, CrossProductState child_state child_chunk 0 (S right_position) right_data)
    else Ok (chunk, CrossProductState child_state child_chunk (S left_position) right_position right_data).

Definition CrossProduct_GetChunk (fuel : nat) (next : puller) (right_state : result OperatorState) (next_right : puller) (chunk : DataChunk)
    (child_state : OperatorState) (child_chunk : DataChunk) (left_position right_position : nat) (right_data : ChunkCollection) :
    result (DataChunk * OperatorState) :=
  if length (cc_types right_data) =? 0 then
    right_state ← right_state;
    '(right_data, _) ← materialize fuel next_right right_state right_data;
    if cc_count right_data =? 0 then Ok (chunk, CrossProductState child_state child_chunk left_position right_position right_data)
    else
      '(child_chunk, child_state) ← next child_state;
      cross_step next chunk child_state child_chunk 0 0 right_data
  else cross_step next chunk child_state child_chunk left_position right_position right_data.

(** *** Order *)

(** The sort keys of the rows, chunk by chunk. *)
Fixpoint sort_keys (orders : list BoundOrderByNode) (chunks : list DataChunk) (sort_collection : ChunkCollection) : result ChunkCollection :=
  match chunks with
  | [] => Ok sort_collection
  | chunk :: chunks =>
    let expressions := ob_expression <$> orders in
    sort_chunk ← fst (Execute_chunk function_call (Some chunk) expressions (return_type <$> expressions) ∅);
    sort_collection ← Collection_Append sort_collection sort_chunk;
    sort_keys orders chunks sort_collection
  end.

Definition Order_GetChunk (fuel : nat) (next : puller) (orders : list BoundOrderByNode) (chunk : DataChunk)
    (child_state : OperatorState) (position : nat) (sorted_data : ChunkCollection) (sorted_vector : list nat) : result (DataChunk * OperatorState) :=
  '(big_data, sorted_vector, child_state) ←
    (if position =? 0 then
       '(big_data, child_state) ← materialize fuel next child_state sorted_data;
       sort_collection ← sort_keys orders (cc_chunks big_data) EmptyCollection;
       _ ← assert_ (cc_count sort_collection =? cc_count big_data);
       sorted_vector ← Sort sort_collection (ob_type <$> orders) (uninitialised (cc_count sort_collection));
       Ok (big_data, sorted_vector, child_state)
     else Ok (sorted_data, sorted_vector, child_state));
  if cc_count big_data <=? position then Ok (chunk, OrderState child_state position big_data sorted_vector)
  else
    chunk ← MaterializeSortedChunk big_data chunk sorted_vector position;
    Ok (chunk, OrderState child_state (position + STANDARD_VECTOR_SIZE) big_data sorted_vector).

(** ** [GetChunk] *)

(** [PhysicalOperator::GetChunk].  The fuel bounds the loops over the chunks of
    a child. *)
Fixpoint GetChunk (fuel : nat) (op : PhysicalOperator) (chunk : DataChunk) (state : OperatorState) {struct op} : result (DataChunk * OperatorState) :=
  if interrupted then Throw InterruptException
  else
    let chunk := DataChunk_Reset chunk in
    if finished state then Ok (chunk, state)
    else
      match op, state with
      | PhysicalTableScan _ table column_ids, TableScanState s =>
        if length column_ids =? 0 then Ok (chunk, state)
        else '(chunk, s) ← scan_table table column_ids chunk s; Ok (chunk, TableScanState s)
      | PhysicalChunkScan _ collection, ChunkScanState chunk_index => ChunkScan_GetChunk collection chunk chunk_index
      | PhysicalDummyScan _, LeafState _ => DummyScan_GetChunk chunk
      | PhysicalEmptyResult _, LeafState _ => Ok (chunk, LeafState true)
      | PhysicalFilter _ expressions child, ChildState s =>
        Filter_GetChunk fuel (GetChunk fuel child (InitializeChunk child)) expressions chunk s
      | PhysicalProjection _ select_list child, ChildState s =>
        Projection_GetChunk (GetChunk fuel child (InitializeChunk child)) select_list chunk s
      | PhysicalLimit _ limit offset child, LimitState s current_offset =>
        Limit_GetChunk (GetChunk fuel child (InitializeChunk child)) limit offset chunk s current_offset
      | PhysicalPruneColumns _ column_limit child, ChildState s =>
        PruneColumns_GetChunk (GetChunk fuel child (InitializeChunk child)) column_limit chunk s
      | PhysicalUnion _ top bottom, UnionState _ top_done s t =>
        Union_GetChunk (GetChunk fuel top chunk) (GetChunk fuel bottom chunk) top_done s t
      | PhysicalCrossProduct _ lhs rhs, CrossProductState s child_chunk left_position right_position right_data =>
        CrossProduct_GetChunk fuel (GetChunk fuel lhs (InitializeChunk lhs)) (GetOperatorState rhs) (GetChunk fuel rhs (InitializeChunk rhs))
          chunk s child_chunk left_position right_position right_data
      | PhysicalOrder _ orders child, OrderState s position sorted_data sorted_vector =>
        Order_GetChunk fuel (GetChunk fuel child (InitializeChunk child)) orders chunk s position sorted_data sorted_vector
      | _, _ => Undef
      end.
End operators.
