(* ===== verification/OperatorRows.v ===== *)
(** * The rows of operators

    What filters and projections do to the rows of one chunk, and what it means
    that a sequence of calls yields a list of rows. *)

From Stdlib Require Import ZArith Lia.
From stdpp Require Import base gmap list strings option numbers sorting relations.
From S2P Require Import Prelude Types Vector Serializer StringStream DateTime KeyTuples Operators VectorOps Like Casts Value Expressions ExpressionRows ExecutorProofs ChunkCollection ChunkSort PhysicalOperators.

(** ** Selections *)

(** The rows [f 0], [f 1], ... of a column. *)
Lemma reselected_column sel n t v sel' m (f : nat → nat) : column_ok sel n t v → m ≤ STANDARD_VECTOR_SIZE →
  (∀ k, k < m → f k < n ∧ sel_at sel' k = sel_at sel (f k)) →
  let w := mkVector (v_type v) m (v_data v) sel' (v_null v) in
  column_ok sel' m t w ∧ ∀ k, k < m → row_value w k = row_value v (f k).
Proof.
  intros [Ht Hcount Hs [[Hnull Hd] Hb] Hcells] Hm Hf w.
  assert (∀ k, k < m → row_value w k = row_value v (f k)) as Hrow.
  { intros k Hk. destruct (Hf k Hk) as [Hlt Hsel]. rewrite !selected_value by (cbn [w v_count]; lia). cbn [w v_sel v_null v_data]. by rewrite Hs, Hsel. }
  split; [|done]. split; [done|done|done| |].
  - split; [split|]; cbn [w v_type v_count v_sel v_null v_data]; [done| |].
    + intros k Hk Hn. destruct (Hf k Hk) as [Hlt Hsel]. rewrite Hsel in *. rewrite <- Hs. apply Hd; [lia|by rewrite Hs].
    + intros k Hk. destruct (Hf k Hk) as [Hlt Hsel]. rewrite Hsel, <- Hs. apply Hb. lia.
  - intros k Hk. rewrite Hrow by done. apply Hcells. by apply Hf.
Qed.

Lemma reselected_chunk ts c sel' m f : typed_chunk ts c → m ≤ STANDARD_VECTOR_SIZE →
  (∀ k, k < m → f k < chunk_size c ∧ sel_at sel' k = sel_at (dc_sel c) (f k)) →
  let d := mkDataChunk ((fun v => mkVector (v_type v) m (v_data v) sel' (v_null v)) <$> dc_data c) sel' in
  typed_chunk ts d ∧ chunk_rows d = (fun k => row_at c (f k)) <$> seq 0 m.
Proof.
  intros [Hne Hcols Hsize] Hm Hf d.
  assert (Forall2 (column_ok sel' m) ts (dc_data d)) as Hcols'.
  { apply Forall2_fmap_r. eapply Forall2_impl; [exact Hcols|]. intros t v Hv. by eapply reselected_column. }
  split; [by eapply columns_chunk|]. unfold chunk_rows. unfold d at 2. rewrite (columns_size sel' m ts) by done.
  apply list_fmap_ext. intros i k [-> Hk]%lookup_seq. unfold row_at. cbn [d dc_data]. rewrite <- list_fmap_compose. apply list_fmap_ext. intros j v Hv.
  simpl. destruct (Forall2_lookup_r _ _ _ _ _ Hcols Hv) as (t & _ & Hcol). by eapply reselected_column.
Qed.

Lemma filter_fmap_list {A B} (p : B → bool) (f : A → B) l : List.filter p (f <$> l) = f <$> List.filter (p ∘ f) l.
Proof. induction l as [|x l IH]; [done|]. cbn [fmap list_fmap List.filter compose]. destruct (p (f x)); cbn [fmap list_fmap]; by rewrite IH. Qed.

Lemma filter_ext_list {A} (p q : A → bool) l : (∀ x, x ∈ l → p x = q x) → List.filter p l = List.filter q l.
Proof.
  induction l as [|x l IH]; intros Hpq; [done|]. cbn [List.filter]. rewrite (Hpq x) by left. rewrite IH; [done|]. intros y Hy. apply Hpq. by right.
Qed.

Lemma filter_length_all {A} (p : A → bool) l : length l ≤ length (List.filter p l) → List.filter p l = l.
Proof.
  induction l as [|x l IH]; [done|]. cbn [List.filter length]. pose proof (filter_length_le p l). destruct (p x); cbn [length]; intros Hle; [|lia].
  f_equal. apply IH. lia.
Qed.

Lemma fmap_lookup_seq {A B} (g : A → B) (l : list A) d : (fun k => g (nth k l d)) <$> seq 0 (length l) = g <$> l.
Proof.
  apply list_eq. intros k. rewrite !list_lookup_fmap. destruct (decide (k < length l)) as [Hk|Hk].
  - rewrite lookup_seq_lt by done. simpl. destruct (lookup_lt_is_Some_2 l k Hk) as [x Hx]. by rewrite (nth_lookup_Some _ _ _ _ Hx), Hx.
  - by rewrite lookup_seq_ge, lookup_ge_None_2 by lia.
Qed.

(** The row [k] is selected by the vector. *)
Definition selects (v : Vector) (k : nat) : bool := bool_decide (cell_bool (row_value v k) = Some true).

Lemma is_match_selects v k : operand_ok v → v_type v = T_BOOLEAN → k < v_count v → is_match v (sel_at (v_sel v) k) = selects v k.
Proof.
  intros [[_ Hd] _] Ht Hk. unfold is_match, selects. rewrite selected_value by done. case_decide as Hn.
  - rewrite (bool_decide_eq_false_2 (cell_bool None = Some true)) by done. destruct (v_data v !! _) as [[w z|]|]; try done. rewrite bool_decide_eq_true_2 by done. by rewrite andb_false_r.
  - destruct (Hd k Hk Hn) as (x & -> & Hx). rewrite Ht in Hx. destruct x as [w z|]; [|done]. cbn [cell_bool].
    rewrite (bool_decide_eq_false_2 (_ ∈ _)), andb_true_r by done. by destruct (z =? 0)%Z.
Qed.

Lemma SetSelectionVector_spec ts c v : typed_chunk ts c → operand_ok v → v_type v = T_BOOLEAN → v_count v = chunk_size c → v_sel v = dc_sel c →
  ∃ d, SetSelectionVector c v = Ok d ∧ typed_chunk ts d ∧ chunk_rows d = row_at c <$> List.filter (selects v) (seq 0 (chunk_size c)).
Proof.
  intros Hc Hv Ht Hcount Hsel. unfold SetSelectionVector. rewrite Ht, bool_decide_eq_true_2, Hsel by done. cbn [negb].
  set (ks := List.filter (selects v) (seq 0 (chunk_size c))). pose proof (filter_length_le (selects v) (seq 0 (chunk_size c))) as Hle. fold ks in Hle. rewrite length_seq in Hle.
  pose proof (tc_size _ _ Hc) as Hmax.
  assert (∀ k, k < length ks → nth k ks 0 < chunk_size c) as Hks.
  { intros k Hk. destruct (lookup_lt_is_Some_2 ks k Hk) as [x Hx]. rewrite (nth_lookup_Some _ _ _ _ Hx). apply list_elem_of_lookup_2, list_elem_of_In, filter_In in Hx as [Hx _]. apply in_seq in Hx. lia. }
  assert (List.filter (is_match v) ((fun k => sel_at (dc_sel c) k) <$> seq 0 (v_count v)) = sel_at (dc_sel c) <$> ks) as Hchosen.
  { rewrite filter_fmap_list, Hcount. f_equal. apply filter_ext_list. intros k Hk%elem_of_seq. simpl. rewrite <- Hsel. apply is_match_selects; [done|done|lia]. }
  destruct (dc_sel c) as [s|] eqn:Hs.
  - cbn [sel_at] in Hchosen. rewrite Hchosen. run.
    rewrite length_fmap. eexists. split; [done|]. rewrite <- (fmap_lookup_seq (row_at c) ks 0). apply reselected_chunk; [done|lia|].
    intros k Hk. split; [by apply Hks|]. rewrite Hs. cbn [sel_at]. destruct (lookup_lt_is_Some_2 ks k Hk) as [x Hx].
    rewrite (nth_lookup_Some _ _ _ _ Hx). apply nth_lookup_Some. by rewrite list_lookup_fmap, Hx.
  - cbn [sel_at] in Hchosen. rewrite !list_fmap_id in Hchosen. rewrite Hchosen. run. eexists. split; [done|].
    rewrite <- (fmap_lookup_seq (row_at c) ks 0). apply reselected_chunk; [done|lia|]. intros k Hk. split; [by apply Hks|]. rewrite Hs. cbn [sel_at].
    destruct (Nat.ltb_spec (length ks) (v_count v)) as [Hlt|Hge]; [done|]. cbn [sel_at].
    assert (ks = seq 0 (chunk_size c)) as -> by (apply filter_length_all; rewrite length_seq; fold ks; lia). by rewrite seq_nth by lia.
Qed.

(** ** Expressions over the rows of a chunk *)

(** The columns of a row. *)
Definition row_env_of (r : row) : row_env := mkRowEnv (fun i => mjoin (r !! i)) (fun _ _ _ => None).

Lemma Forall2_with_l {A B} (P : A → Prop) (R : A → B → Prop) l k : Forall P l → Forall2 R l k → Forall2 (fun x y => P x ∧ R x y) l k.
Proof. intros HP. induction 1; [constructor|]. apply Forall_cons in HP as [? ?]. constructor; auto. Qed.

Section rows.
Context `{!FloatText}.
Context (function_call : nat → list Vector → result Vector).
Context (function_row : nat → list (option cell) → result (option cell)).
Context (function_type : nat → list TypeId → option TypeId) (cse_of : nat → option Expression).

Abbreviation eval := (eval function_row).

(** The value of an expression depends on the columns only. *)
Lemma eval_columns env env' e o : (∀ i, env_ref env i = env_ref env' i) → (∀ a b c, env_col env a b c = env_col env' a b c) →
  eval env e = Ok o → eval env' e = Ok o.
Proof.
  intros Hr Hcol. revert o. induction e as [e IH] using Expression_ind_children. intros o Ho.
  assert (∀ c, c ∈ children_of e → same_value function_row env env' c c) as Hc.
  { intros c Hc. split; [done|]. rewrite Forall_forall in IH. intros o' Ho'. by apply IH. }
  assert (Forall2 (same_value function_row env env') (children_of e) (children_of e)) as Hcs.
  { clear -Hc. induction (children_of e) as [|c l IHl]; constructor; [apply Hc; left|]. apply IHl. intros c' Hc'. apply Hc. by right. }
  destruct (match e with BoundReference _ _ | BoundColumnRef _ _ _ _ => true | _ => false end) eqn:E.
  - destruct e; try done; cbn [ExpressionRows.eval] in *; by rewrite <- ?Hr, <- ?Hcol.
  - rewrite <- (with_own_children e). apply (eval_with_children function_row env env'); [by destruct e|exact Hcs|exact Ho].
Qed.

Lemma eval_row c k e o : eval (row_env_of (row_at c k)) e = Ok o ↔ eval (chunk_row (Some c) k) e = Ok o.
Proof.
  assert (∀ i, env_ref (row_env_of (row_at c k)) i = env_ref (chunk_row (Some c) k) i) as Hr.
  { intros i. cbn [row_env_of chunk_row env_ref]. unfold row_at. rewrite list_lookup_fmap. by destruct (dc_data c !! i). }
  split; apply eval_columns; done.
Qed.

(** What operators assume of the scalar functions and of an expression over
    columns of the types [ts]. *)
Record functions_ok : Prop := {
  fo_typed : functions_typed function_row function_type;
  fo_rowwise : ∀ sel n, 0 < n → functions_rowwise function_call function_row function_type sel n }.

Definition expression_ok (ts : list TypeId) (e : Expression) : Prop :=
  typed function_type (ts !!.) (fun _ _ _ => None) e = true ∧ shares cse_of e.

Definition has_value (e : Expression) (r : row) : Prop := ∃ o, eval (row_env_of r) e = Ok o.

Context (Hfunctions : functions_ok).

Section chunk.
Context (ts : list TypeId) (c : DataChunk) (Hc : typed_chunk ts c) (Hsize : 0 < chunk_size c).

Lemma typed_chunk_column i t : ts !! i = Some t → ∃ v, dc_data c !! i = Some v ∧ column_ok (dc_sel c) (chunk_size c) t v.
Proof using Hc. intros Ht. destruct (Forall2_lookup_l _ _ _ _ _ (tc_columns _ _ Hc) Ht) as (v & Hv & Hcol). eauto. Qed.

Lemma typed_chunk_buffer k : k < chunk_size c → sel_at (dc_sel c) k < STANDARD_VECTOR_SIZE.
Proof using Hc.
  intros Hk. assert (∃ t, ts !! 0 = Some t) as [t Ht] by (pose proof (tc_nonempty _ _ Hc); destruct ts; [done|by eexists]).
  destruct (typed_chunk_column 0 t Ht) as (v & _ & Hv).
  pose proof (col_operand _ _ _ _ Hv) as [_ Hb]. rewrite <- (col_sel _ _ _ _ Hv). apply Hb. by rewrite (col_count _ _ _ _ Hv).
Qed.

Lemma column_vec sel n t v : column_ok sel n t v → vec sel n t v.
Proof. intros [Ht Hn Hs Ho _]. split; [done|]. split; [done|]. right. done. Qed.

Lemma typed_chunk_fits : chunk_fits (ts !!.) (dc_sel c) (chunk_size c) (Some c).
Proof using Hc. split; [done|]. intros i t Ht. destruct (typed_chunk_column i t Ht) as (v & Hv & Hcol). exists v. split; [done|by apply column_vec]. Qed.

Lemma typed_chunk_env k : k < chunk_size c → env_ok (ts !!.) (fun _ _ _ => None) (chunk_row (Some c) k).
Proof using Hc.
  intros Hk. split; [|done]. intros i t Ht. destruct (typed_chunk_column i t Ht) as (v & Hv & Hcol). cbn [chunk_row env_ref]. rewrite Hv. simpl.
  by apply (col_cells _ _ _ _ Hcol).
Qed.

Lemma row_at_in k : k < chunk_size c → row_at c k ∈ chunk_rows c.
Proof. intros Hk. eapply list_elem_of_lookup_2. by apply chunk_rows_lookup. Qed.

Lemma chunk_succeeds e : (∀ r, r ∈ chunk_rows c → has_value e r) → succeeds function_row (chunk_size c) (Some c) e.
Proof. intros He k Hk. destruct (He (row_at c k)) as [o Ho%eval_row]; [by apply row_at_in|]. by exists o. Qed.

Lemma empty_cache_ok : cache_ok function_row cse_of (dc_sel c) (chunk_size c) (Some c) ∅.
Proof. intros id v Hid. exact (False_ind _ (lookup_empty_Some id v Hid)). Qed.

(** The chunk of a projection. *)
Lemma execute_projection es : es ≠ [] → Forall (expression_ok ts) es → (∀ e r, e ∈ es → r ∈ chunk_rows c → has_value e r) →
  ∃ d s, Execute_chunk function_call (Some c) es (return_type <$> es) ∅ = (Ok d, s) ∧ typed_chunk (return_type <$> es) d ∧
    chunk_size d = chunk_size c ∧ dc_sel d = dc_sel c ∧ Forall2 (fun r r' => mapM (eval (row_env_of r)) es = Ok r') (chunk_rows c) (chunk_rows d).
Proof using Hfunctions Hc Hsize.
  intros Hne Hes Hval.
  edestruct (Execute_list_full function_call function_row function_type (ts !!.) cse_of (dc_sel c) (chunk_size c) Hsize (Some c)
    (fo_typed Hfunctions) (fo_rowwise Hfunctions _ _ Hsize) typed_chunk_fits typed_chunk_env typed_chunk_buffer c es eq_refl eq_refl ∅) as (vs & s & Hrun & Hvs & _).
  { rewrite Forall_forall in *. intros e He. destruct (Hes e He). split_and!; [done|done|]. apply chunk_succeeds. intros r Hr. by apply Hval. }
  { apply empty_cache_ok. }
  assert (Forall2 (column_ok (dc_sel c) (chunk_size c)) (return_type <$> es) vs) as Hcols.
  { apply Forall2_fmap_l. eapply Forall2_impl; [exact (Forall2_with_l _ _ _ _ Hes Hvs)|]. intros e v [He [[(Ho & Ht & _) Hr] [Hcount Hsel]]]. split; try done.
    intros k Hk. eapply eval_ok; [apply Hfunctions|by apply typed_chunk_env|apply He|by apply Hr]. }
  assert (return_type <$> es ≠ []) as Hne' by (by destruct es).
  assert (∃ v, head vs = Some v ∧ v_sel v = dc_sel c) as (v & Hv & Hsv).
  { destruct Hvs as [|e v es vs Hv _]; [done|]. exists v. split; [done|]. apply Hv. }
  exists (mkDataChunk vs (dc_sel c)), s. split; [unfold Execute_chunk; run_using Hrun; rewrite Hv; run; by rewrite Hsv|].
  pose proof (columns_size _ _ _ _ Hne' Hcols (dc_sel c)) as Hsz. split; [eapply columns_chunk; [done|done|apply Hc]|]. split_and!; [done|done|].
  unfold chunk_rows. rewrite Hsz. apply Forall2_fmap_2, Forall_Forall2_diag, Forall_forall. intros k Hk%elem_of_seq.
  unfold row_at at 2. cbn [dc_data]. clear -Hvs Hk. induction Hvs as [|e v es vs [[_ Hr] _] _ IH]; [done|]. cbn [mapM fmap list_fmap].
  rewrite (proj2 (eval_row c k e _) (Hr k ltac:(lia))). run. rewrite IH. by run.
Qed.

(** All predicates hold in the row. *)
Definition passes (es : list Expression) (r : row) : bool :=
  forallb (fun e => match eval (row_env_of r) e with Ok o => bool_decide (cell_bool o = Some true) | _ => false end) es.

Definition predicate_ok (e : Expression) : Prop := expression_ok ts e ∧ return_type e = T_BOOLEAN.

(** The chunk of a filter. *)
Lemma execute_filter es : es ≠ [] → Forall predicate_ok es → (∀ e r, e ∈ es → r ∈ chunk_rows c → has_value e r) →
  ∃ v s d, Merge function_call (Some c) es ∅ = (Ok v, s) ∧ SetSelectionVector c v = Ok d ∧ typed_chunk ts d ∧
    chunk_rows d = List.filter (passes es) (chunk_rows c).
Proof using Hfunctions Hc Hsize.
  intros Hne Hes Hval.
  edestruct (Merge_rows function_call function_row function_type (ts !!.) cse_of (dc_sel c) (chunk_size c) Hsize (Some c)
    (fo_typed Hfunctions) (fo_rowwise Hfunctions _ _ Hsize) typed_chunk_fits typed_chunk_env typed_chunk_buffer c es ∅ eq_refl eq_refl Hne)
    as (v & s & Hrun & (Hv & Ht & _) & [Hcount Hsel] & Hr).
  { rewrite Forall_forall in *. intros e He. destruct (Hes e He) as [[? ?] ?]. split_and!; [done..|]. apply chunk_succeeds. intros r Hr. by apply Hval. }
  { apply empty_cache_ok. }
  destruct (SetSelectionVector_spec ts c v) as (d & Hd & Htd & Hrows); [done..|]. exists v, s, d. split_and!; [done..|].
  rewrite Hrows. unfold chunk_rows. rewrite filter_fmap_list. f_equal. apply filter_ext_list. intros k Hk%elem_of_seq.
  unfold selects, passes. simpl. apply Bool.eq_true_iff_eq. rewrite bool_decide_eq_true, Hr, Forall_forall, forallb_forall by lia.
  split; intros Hall e He.
  - apply list_elem_of_In in He. destruct (Hall e He) as (o & Ho%eval_row & Hb). rewrite Ho. by apply bool_decide_eq_true_2.
  - destruct (Hval e (row_at c k)) as [o Ho]; [done|apply row_at_in; lia|]. exists o. split; [by apply eval_row|].
    apply list_elem_of_In in He. specialize (Hall e He). rewrite Ho in Hall. by apply bool_decide_eq_true in Hall.
Qed.
End chunk.
End rows.

(** ** The chunks of a producer *)

(** Calls of [next] from [st] on return the rows [l] in [n] chunks, and then an
    empty chunk. *)
Inductive yields {S} (ts : list TypeId) (next : S → result (DataChunk * S)) : nat → S → list row → Prop :=
| yields_end st c st' : next st = Ok (c, st') → chunk_size c = 0 → yields ts next 0 st []
| yields_chunk n st c st' l : next st = Ok (c, st') → typed_chunk ts c → 0 < chunk_size c → yields ts next n st' l →
    yields ts next (Datatypes.S n) st (chunk_rows c ++ l).

(** A producer that maps the chunks of another. *)
Lemma yields_map {S T} ts ts' (next : S → result (DataChunk * S)) (next' : T → result (DataChunk * T)) (wrap : S → T) (R : row → row → Prop) (P : row → Prop) n st l :
  (∀ st c st', next st = Ok (c, st') → chunk_size c = 0 → ∃ d, next' (wrap st) = Ok (d, wrap st') ∧ chunk_size d = 0) →
  (∀ st c st', next st = Ok (c, st') → typed_chunk ts c → 0 < chunk_size c → Forall P (chunk_rows c) →
     ∃ d, next' (wrap st) = Ok (d, wrap st') ∧ typed_chunk ts' d ∧ Forall2 R (chunk_rows c) (chunk_rows d)) →
  yields ts next n st l → Forall P l → ∃ l', yields ts' next' n (wrap st) l' ∧ Forall2 R l l'.
Proof.
  intros Hend Hstep Hy. induction Hy as [st c st' Hn Hz|n st c st' l Hn Ht Hp _ IH]; intros HP.
  - destruct (Hend _ _ _ Hn Hz) as (d & Hd & Hdz). exists []. split; [by eapply yields_end|constructor].
  - apply Forall_app in HP as [HPc HP]. destruct (IH HP) as (l' & Hl' & Hll). destruct (Hstep _ _ _ Hn Ht Hp HPc) as (d & Hd & Htd & HR).
    exists (chunk_rows d ++ l'). split; [|by apply Forall2_app]. eapply yields_chunk; try done.
    apply Forall2_length in HR. rewrite !chunk_rows_length in HR. lia.
Qed.

Lemma yields_fmap {S T} ts (next : S → result (DataChunk * S)) (next' : T → result (DataChunk * T)) (wrap : S → T) n st l :
  (∀ st c st', next st = Ok (c, st') → next' (wrap st) = Ok (c, wrap st')) → yields ts next n st l → yields ts next' n (wrap st) l.
Proof. intros Hs. induction 1; [by eapply yields_end; [apply Hs|]|eapply yields_chunk; [by apply Hs|done..]]. Qed.

Lemma Reset_Initialize ts : DataChunk_Reset (DataChunk_Initialize ts) = DataChunk_Initialize ts.
Proof. unfold DataChunk_Reset, DataChunk_Initialize. cbn [dc_data]. rewrite <- list_fmap_compose. done. Qed.

Lemma Initialize_size ts : chunk_size (DataChunk_Initialize ts) = 0.
Proof. by destruct ts. Qed.

Lemma Initialize_columns ts : column_count (DataChunk_Initialize ts) = length ts.
Proof. unfold column_count, DataChunk_Initialize. cbn [dc_data]. by rewrite length_fmap. Qed.

Lemma Initialize_types ts : GetTypes (DataChunk_Initialize ts) = ts.
Proof. unfold GetTypes, DataChunk_Initialize. cbn [dc_data]. rewrite <- list_fmap_compose. by rewrite list_fmap_id. Qed.

Lemma mapM_lookup (l : list Vector) n : n ≤ length l → mapM (fun i => deref (l !! i)) (seq 0 n) = Ok (take n l).
Proof.
  intros Hn. assert (∀ m i, i + m ≤ length l → mapM (fun i => deref (l !! i)) (seq i m) = Ok (take m (drop i l))) as Hm; [|by apply Hm].
  induction m as [|m IH]; intros i Hi; [done|]. cbn [seq mapM]. destruct (lookup_lt_is_Some_2 l i) as [v Hv]; [lia|]. rewrite Hv. run.
  rewrite IH by lia. run. by rewrite (drop_S l v i Hv).
Qed.

(** Referencing the first columns of a chunk. *)
Lemma reference_columns_spec n chunk child : n ≤ column_count chunk → n ≤ column_count child →
  reference_columns n chunk child = Ok (take n (dc_data child) ++ drop n (dc_data chunk)).
Proof.
  intros Hn Hc. unfold reference_columns. rewrite (proj2 (Nat.leb_le _ _)) by done. run. rewrite mapM_lookup by done. by run.
Qed.

Lemma reference_all ts chunk child : column_count chunk = length ts → typed_chunk ts child →
  reference_columns (column_count chunk) chunk child = Ok (dc_data child).
Proof.
  intros Hn Hc. pose proof (typed_chunk_columns _ _ Hc) as Hcols. rewrite reference_columns_spec by lia. unfold column_count in *.
  by rewrite drop_all, app_nil_r, take_ge by lia.
Qed.

(** The first rows of a producer. *)
Lemma chunk_eta c : mkDataChunk (dc_data c) (dc_sel c) = c.
Proof. by destruct c. Qed.
