(* ===== verification/OperatorProofs.v ===== *)
(** * Each operator computes its rows

    Filter, projection, limit, union, cross product and order as relations
    between the rows of the children and the rows of the operator, for any
    children that yield rows. *)

From Stdlib Require Import ZArith Lia.
From stdpp Require Import base gmap list strings option numbers sorting relations.
From S2P Require Import Prelude Types Vector Serializer StringStream DateTime KeyTuples Operators VectorOps Like Casts Value Expressions ExpressionRows ExecutorProofs ChunkCollection ChunkSort PhysicalOperators OperatorRows.

(** ** Each operator *)

Section proofs.
Context `{!FloatText} `{!Strcmp} `{!TableSource}.
Context (function_call : nat → list Vector → result Vector).
Context (function_row : nat → list (option cell) → result (option cell)).
Context (function_type : nat → list TypeId → option TypeId) (cse_of : nat → option Expression).
Context (uninitialised : nat → list nat) (garbage : Z).
Context (Hfunctions : functions_ok function_call function_row function_type).

Abbreviation passes := (passes function_row).
Abbreviation has_value := (has_value function_row).
Abbreviation expression_ok := (expression_ok function_type cse_of).
Abbreviation predicate_ok := (predicate_ok function_type cse_of).
Abbreviation puller := (OperatorState → result (DataChunk * OperatorState)).

(** A step of an operator with one child, as a producer. *)
Definition with_child (step : OperatorState → result (DataChunk * OperatorState)) : puller :=
  fun s => match s with ChildState s => step s | _ => Undef end.

(** *** Filter *)

Section filter.
Context (ts : list TypeId) (es : list Expression) (next : puller).
Context (Hne : es ≠ []) (Hes : Forall (predicate_ok ts) es).

(** One call of the filter reads chunks of the child up to one with a row that
    passes. *)
Lemma Filter_step n st l fuel chunk : yields ts next n st l → (∀ e r, e ∈ es → r ∈ l → has_value e r) → n < fuel →
  column_count chunk = length ts → chunk_size chunk = 0 →
  ∃ d st', Filter_GetChunk function_call fuel next es chunk st = Ok (d, ChildState st') ∧
    ((chunk_size d = 0 ∧ List.filter (passes es) l = []) ∨
     ∃ m l', m < n ∧ yields ts next m st' l' ∧ l' ⊆ l ∧ typed_chunk ts d ∧ 0 < chunk_size d ∧
       List.filter (passes es) l = chunk_rows d ++ List.filter (passes es) l').
Proof using Hfunctions Hne Hes.
  intros Hy. revert fuel chunk. induction Hy as [st c st' Hn Hz|n st c st' l Hn Ht Hp Hy IH]; intros fuel chunk Hval Hf Hcols Hsize;
    (destruct fuel as [|fuel]; [lia|]); cbn [Filter_GetChunk]; rewrite Hn; run.
  { rewrite (proj2 (Nat.eqb_eq _ _) Hz). exists chunk, st'. split; [done|]. by left. }
  rewrite (proj2 (Nat.eqb_neq _ _)) by lia. rewrite (proj2 (Nat.ltb_lt _ _)) by (destruct es; [done|simpl; lia]). run.
  destruct (execute_filter function_call function_row function_type cse_of Hfunctions ts c Ht Hp es Hne Hes) as (v & s & d & Hm & Hd & Htd & Hrows).
  { intros e r He Hr. apply Hval; [done|]. apply elem_of_app. by left. }
  rewrite Hm. cbn [fst]. run. rewrite (reference_all ts) by done. run. rewrite chunk_eta, Hd. run. rewrite List.filter_app, <- Hrows.
  destruct (Nat.eqb_spec (chunk_size d) 0) as [Hz|Hnz].
  - assert (chunk_rows d = []) as Hnil by (apply nil_length_inv; by rewrite chunk_rows_length). rewrite Hnil. cbn [app].
    destruct (IH fuel d) as (e & st2 & He & Hcase); [|lia|by apply typed_chunk_columns|done|].
    { intros e r He Hr. apply Hval; [done|]. apply elem_of_app. by right. }
    exists e, st2. split; [done|]. destruct Hcase as [?|(m & l' & Hlt & Hyl & Hsub & Hrest)]; [by left|right]. exists m, l'.
    split; [lia|]. split; [done|]. split; [|done]. intros r Hr. apply elem_of_app. right. by apply Hsub.
  - exists d, st'. split; [done|]. right. exists n, l. split_and!; [lia|done| |done|lia|done]. intros r Hr. apply elem_of_app. by right.
Qed.

Lemma Filter_yields n st l fuel : yields ts next n st l → (∀ e r, e ∈ es → r ∈ l → has_value e r) → n < fuel →
  ∃ m, yields ts (with_child (Filter_GetChunk function_call fuel next es (DataChunk_Initialize ts))) m (ChildState st) (List.filter (passes es) l).
Proof using Hfunctions Hne Hes.
  revert st l. induction n as [n IH] using lt_wf_ind. intros st l Hy Hval Hf.
  destruct (Filter_step n st l fuel (DataChunk_Initialize ts) Hy Hval Hf (Initialize_columns ts) (Initialize_size ts)) as (d & st' & Hd & Hcase).
  destruct Hcase as [[Hz ->]|(m & l' & Hlt & Hyl & Hsub & Htd & Hp & ->)]; [exists 0; by eapply yields_end|].
  destruct (IH m Hlt st' l') as [k Hk]; [done| |lia|]; [intros e r He Hr; apply Hval; [done|by apply Hsub]|].
  exists (S k). by eapply yields_chunk.
Qed.
End filter.

(** *** Projection *)

Lemma Projection_yields ts es next n st l : es ≠ [] → Forall (expression_ok ts) es → yields ts next n st l →
  (∀ e r, e ∈ es → r ∈ l → has_value e r) →
  ∃ l', yields (return_type <$> es) (with_child (Projection_GetChunk function_call next es (DataChunk_Initialize (return_type <$> es)))) n (ChildState st) l' ∧
    Forall2 (fun r r' => mapM (eval function_row (row_env_of r)) es = Ok r') l l'.
Proof using Hfunctions.
  intros Hne Hes Hy Hval. eapply (yields_map ts _ next _ ChildState _ (fun r => ∀ e, e ∈ es → has_value e r)); [| |exact Hy|].
  - intros s c s' Hn Hz. cbn [with_child]. unfold Projection_GetChunk. rewrite (proj2 (Nat.ltb_lt _ _)) by (destruct es; [done|simpl; lia]). run.
    rewrite Hn. run. rewrite (proj2 (Nat.eqb_eq _ _) Hz). eexists. split; [done|apply Initialize_size].
  - intros s c s' Hn Ht Hp HP. cbn [with_child]. unfold Projection_GetChunk. rewrite (proj2 (Nat.ltb_lt _ _)) by (destruct es; [done|simpl; lia]). run.
    rewrite Hn. run. rewrite (proj2 (Nat.eqb_neq _ _)), Initialize_types by lia.
    destruct (execute_projection function_call function_row function_type cse_of Hfunctions ts c Ht Hp es Hne Hes) as (d & x & Hd & Htd & _ & _ & HR).
    { intros e r He Hr. rewrite Forall_forall in HP. by apply HP. }
    rewrite Hd. cbn [fst]. run. by exists d.
  - apply Forall_forall. intros r Hr e He. by apply Hval.
Qed.

(** *** Columns *)

Lemma pruned_chunk ts c m : typed_chunk ts c → take m ts ≠ [] →
  typed_chunk (take m ts) (mkDataChunk (take m (dc_data c)) (dc_sel c)) ∧
  Forall2 (fun r r' => r' = take m r) (chunk_rows c) (chunk_rows (mkDataChunk (take m (dc_data c)) (dc_sel c))).
Proof.
  intros [Hne Hcols Hsize] Hm. assert (Forall2 (column_ok (dc_sel c) (chunk_size c)) (take m ts) (take m (dc_data c))) as Hcols' by (by apply Forall2_take).
  split; [by eapply columns_chunk|]. unfold chunk_rows. rewrite (columns_size _ _ _ _ Hm Hcols').
  apply Forall2_fmap_2, Forall_Forall2_diag, Forall_forall. intros k _. unfold row_at. cbn [dc_data]. by rewrite fmap_take.
Qed.

Lemma PruneColumns_yields ts m next n st l : m ≤ length ts → take m ts ≠ [] → yields ts next n st l →
  ∃ l', yields (take m ts) (with_child (PruneColumns_GetChunk next m (DataChunk_Initialize (take m ts)))) n (ChildState st) l' ∧ l' = take m <$> l.
Proof.
  intros Hm Hne Hy. destruct (yields_map ts (take m ts) next (with_child (PruneColumns_GetChunk next m (DataChunk_Initialize (take m ts)))) ChildState
    (fun r r' => r' = take m r) (fun _ => True) n st l) as (l' & Hl' & Heq); [| |done|by apply Forall_forall|].
  - intros s c s' Hn Hz. cbn [with_child]. unfold PruneColumns_GetChunk. rewrite Hn. run. rewrite (proj2 (Nat.eqb_eq _ _) Hz). eexists. split; [done|apply Initialize_size].
  - intros s c s' Hn Ht Hp _. cbn [with_child]. unfold PruneColumns_GetChunk. rewrite Hn. run. rewrite (proj2 (Nat.eqb_neq _ _)) by lia.
    pose proof (typed_chunk_columns _ _ Ht) as Hcols. rewrite (proj2 (Nat.leb_le _ _)) by lia. run.
    rewrite reference_columns_spec by (rewrite ?Initialize_columns, ?length_take; lia). run. eexists. split; [done|].
    rewrite drop_ge, app_nil_r by (cbn [DataChunk_Initialize dc_data]; rewrite length_fmap, length_take; lia). by apply pruned_chunk.
  - exists l'. split; [done|]. clear -Heq. induction Heq as [|r r' l l' -> _ IH]; [done|]. cbn [fmap list_fmap]. by rewrite IH.
Qed.

(** *** Scans *)

Definition chunk_scan (ts : list TypeId) (col : ChunkCollection) : puller :=
  fun s => match s with ChunkScanState i => ChunkScan_GetChunk col (DataChunk_Initialize ts) i | _ => Undef end.

Lemma collection_empty ts col : collection_ok ts col → cc_count col = 0 → cc_chunks col = [].
Proof.
  intros [_ Hcs _ Hcount] Hz. unfold collection_rows in Hcount. destruct (cc_chunks col) as [|c cs]; [done|]. apply Forall_cons in Hcs as [(_ & _ & Hp) _].
  cbn [fmap list_fmap concat] in Hcount. rewrite length_app, chunk_rows_length in Hcount. lia.
Qed.

Lemma ChunkScan_yields ts col i : collection_ok ts col → i ≤ length (cc_chunks col) →
  yields ts (chunk_scan ts col) (length (cc_chunks col) - i) (ChunkScanState i) (concat (chunk_rows <$> drop i (cc_chunks col))).
Proof.
  intros Hok Hi. destruct (Nat.eq_dec (cc_count col) 0) as [Hz|Hnz].
  { pose proof (collection_empty ts col Hok Hz) as Hnil. rewrite Hnil in *. cbn [length] in *. assert (i = 0) as -> by lia.
    eapply (yields_end _ _ _ (DataChunk_Initialize ts) (ChunkScanState 0)); [|apply Initialize_size]. cbn [chunk_scan]. unfold ChunkScan_GetChunk.
    by rewrite (proj2 (Nat.eqb_eq _ _) Hz). }
  assert (cc_types col = ts) as Htypes.
  { apply (co_types _ _ Hok). intros Hnil. pose proof (co_count _ _ Hok) as Hc. unfold collection_rows in Hc. rewrite Hnil in Hc. done. }
  remember (length (cc_chunks col) - i) as n eqn:Hn. revert i Hi Hn. induction n as [|n IH]; intros i Hi Hn.
  - rewrite drop_ge by lia. eapply (yields_end _ _ _ (DataChunk_Initialize ts) (ChunkScanState i)); [|apply Initialize_size]. cbn [chunk_scan]. unfold ChunkScan_GetChunk.
    rewrite (proj2 (Nat.eqb_neq _ _) Hnz), Initialize_types, Htypes, bool_decide_eq_true_2 by done. run. by rewrite (proj2 (Nat.leb_le _ _)) by lia.
  - destruct (lookup_lt_is_Some_2 (cc_chunks col) i) as [c Hc]; [lia|]. rewrite (drop_S _ c i Hc). cbn [fmap list_fmap concat].
    pose proof (co_chunks _ _ Hok) as Hcs. rewrite Forall_lookup in Hcs. destruct (Hcs _ _ Hc) as (Ht & Hs & Hp).
    eapply yields_chunk; [|exact Ht|done|apply IH; lia]. cbn [chunk_scan]. unfold ChunkScan_GetChunk.
    rewrite (proj2 (Nat.eqb_neq _ _) Hnz), Initialize_types, Htypes, bool_decide_eq_true_2 by done. run.
    rewrite (proj2 (Nat.leb_gt _ _)), Hc by lia. run. rewrite (reference_all ts) by (done || apply Initialize_columns). run.
    cbn [DataChunk_Initialize dc_sel]. by rewrite <- Hs, chunk_eta.
Qed.

Definition dummy_scan : puller :=
  fun s => match s with
           | LeafState true => Ok (DataChunk_Initialize [T_INTEGER], s)
           | LeafState false => DummyScan_GetChunk garbage (DataChunk_Initialize [T_INTEGER])
           | _ => Undef
           end.

Lemma DummyScan_yields : in_range T_INTEGER garbage = true → yields [T_INTEGER] dummy_scan 1 (LeafState false) [[Some (Num 4 garbage)]].
Proof.
  intros Hg. set (v := mkVector T_INTEGER 1 {[0 := Num 4 garbage]} None ∅).
  assert (row_value v 0 = Some (Num 4 garbage)) as Hrow by done.
  assert (column_ok None 1 T_INTEGER v) as Hv.
  { split; [done|done|done| |].
    - split; [split; [by eexists|]|intros k Hk; cbn; assert (k = 0) as -> by (cbn in Hk; lia); by apply Nat.ltb_lt].
      intros k Hk _. cbn in Hk. assert (k = 0) as -> by lia. by eexists.
    - intros k Hk x. assert (k = 0) as -> by lia. rewrite Hrow. intros [= <-]. unfold cell_ok. by rewrite Hg. }
  change [[Some (Num 4 garbage)]] with (chunk_rows (mkDataChunk [v] None) ++ []). eapply (yields_chunk _ _ _ _ _ (LeafState true)); [done| |by apply Nat.ltb_lt|].
  - eapply (columns_chunk None 1); [done|constructor; [exact Hv|constructor]|by apply Nat.leb_le].
  - by eapply yields_end.
Qed.

(** *** Limit *)

Definition limit_scan (next : puller) (ts : list TypeId) (limit : Z) : puller :=
  fun s => match s with LimitState s cur => Limit_GetChunk next limit 0 (DataChunk_Initialize ts) s cur | _ => Undef end.

Lemma limit_columns_spec ts c m : typed_chunk ts c → m ≤ chunk_size c →
  limit_columns (Z.of_nat m) (DataChunk_Initialize ts) c = Ok (dc_data (chunk_prefix m c)).
Proof. intros Hc Hm. unfold limit_columns. rewrite (reference_all ts) by (done || apply Initialize_columns). run. by rewrite Nat2Z.id. Qed.

Lemma Limit_yields ts next n st l limit cur : yields ts next n st l → (Z.of_nat limit < 2 ^ 64)%Z → cur ≤ limit →
  ∃ m, yields ts (limit_scan next ts (Z.of_nat limit)) m (LimitState st (Z.of_nat cur)) (take (limit - cur) l).
Proof.
  intros Hy Hlim. revert cur. induction Hy as [st c st' Hn Hz|n st c st' l Hn Ht Hp Hy IH]; intros cur Hcur.
  - destruct (Nat.eq_dec cur limit) as [->|Hne].
    + exists 0. rewrite take_nil. eapply yields_end; [|apply Initialize_size]. cbn [limit_scan]. unfold Limit_GetChunk.
      rewrite Z.add_0_r, Z.mod_small, (proj2 (Z.leb_le _ _)) by lia. done.
    + exists 0. rewrite take_nil. eapply yields_end; [|apply Initialize_size]. cbn [limit_scan]. unfold Limit_GetChunk.
      rewrite Z.add_0_r, Z.mod_small, (proj2 (Z.leb_gt _ _)) by lia. rewrite Hn. run. by rewrite Hz.
  - destruct (Nat.eq_dec cur limit) as [->|Hne].
    { exists 0. rewrite Nat.sub_diag, take_0. eapply yields_end; [|apply Initialize_size]. cbn [limit_scan]. unfold Limit_GetChunk.
      rewrite Z.add_0_r, Z.mod_small, (proj2 (Z.leb_le _ _)) by lia. done. }
    set (k := chunk_size c `min` (limit - cur)).
    assert (limit_scan next ts (Z.of_nat limit) (LimitState st (Z.of_nat cur)) = Ok (chunk_prefix k c, LimitState st' (Z.of_nat (cur + chunk_size c)))) as Hstep.
    { cbn [limit_scan]. unfold Limit_GetChunk. rewrite Z.add_0_r, Z.mod_small, (proj2 (Z.leb_gt _ _)) by lia. rewrite Hn. run.
      rewrite (proj2 (Z.eqb_neq _ _)), (proj2 (Z.ltb_ge _ _)) by lia. rewrite Nat2Z.inj_add.
      match goal with |- context [if (?a <=? ?b)%Z then _ else _] => replace (if (a <=? b)%Z then (Z.of_nat limit - Z.of_nat cur)%Z else Z.of_nat (chunk_size c)) with (Z.of_nat k) by (destruct (Z.leb_spec a b); lia) end.
      rewrite (limit_columns_spec ts) by (done || lia). by run. }
    destruct (chunk_prefix_spec ts c k Ht) as (Htk & Hsk & Hrk); [lia|].
    destruct (Nat.le_gt_cases (cur + chunk_size c) limit) as [Hle|Hgt].
    + destruct (IH (cur + chunk_size c) Hle) as [m Hm]. exists (S m). assert (k = chunk_size c) as Hk by lia.
      rewrite take_app_ge, chunk_rows_length by (rewrite chunk_rows_length; lia). replace (limit - cur - chunk_size c) with (limit - (cur + chunk_size c)) by lia.
      replace (chunk_rows c) with (chunk_rows (chunk_prefix k c)) by (rewrite Hrk; apply take_ge; rewrite chunk_rows_length; lia).
      eapply yields_chunk; [exact Hstep|done|lia|exact Hm].
    + exists 1. rewrite take_app_le by (rewrite chunk_rows_length; lia). rewrite <- (app_nil_r (take _ _)).
      replace (limit - cur) with k by lia. rewrite <- Hrk. eapply yields_chunk; [exact Hstep|done|lia|].
      eapply yields_end; [|apply Initialize_size]. cbn [limit_scan]. unfold Limit_GetChunk.
      rewrite Z.add_0_r, Z.mod_small, (proj2 (Z.leb_le _ _)) by lia. done.
Qed.

(** *** Union *)

Definition union_scan (next_top next_bottom : puller) (chunk : DataChunk) : puller :=
  fun s => if finished s then Ok (chunk, s)
           else match s with UnionState _ top_done s t => Union_GetChunk next_top next_bottom top_done s t | _ => Undef end.

Lemma Union_bottom ts next_top next_bottom chunk m s t l : yields ts next_bottom m t l →
  yields ts (union_scan next_top next_bottom chunk) m (UnionState false true s t) l.
Proof.
  induction 1 as [t c t' Hn Hz|n t c t' l Hn Ht Hp _ IH]; [eapply yields_end; [|exact Hz]|eapply yields_chunk; [|exact Ht|exact Hp|exact IH]];
    cbn [union_scan finished]; unfold Union_GetChunk; run; rewrite Hn; run; [by rewrite Hz|]. by rewrite (proj2 (Nat.eqb_neq _ _)) by lia.
Qed.

Lemma Union_yields ts next_top next_bottom chunk n m s t l k : yields ts next_top n s l → yields ts next_bottom m t k →
  yields ts (union_scan next_top next_bottom chunk) (n + m) (UnionState false false s t) (l ++ k).
Proof.
  intros Hy Hbottom. induction Hy as [s c s' Hn Hz|n s c s' l Hn Ht Hp _ IH].
  - cbn [Nat.add app]. destruct Hbottom as [t d t' Hd Hdz|m t d t' k Hd Htd Hpd Hk]; [eapply yields_end; [|exact Hdz]|eapply yields_chunk; [|exact Htd|exact Hpd|by apply Union_bottom]];
      cbn [union_scan finished]; unfold Union_GetChunk; rewrite Hn; run; rewrite Hz; run; rewrite Hd; run; [by rewrite Hdz|].
    by rewrite (proj2 (Nat.eqb_neq (chunk_size d) 0)) by lia.
  - rewrite <- app_assoc. eapply yields_chunk; [|exact Ht|exact Hp|exact IH]. cbn [union_scan finished]; unfold Union_GetChunk; rewrite Hn; run.
    by rewrite (proj2 (Nat.eqb_neq (chunk_size c) 0)) by lia.
Qed.

(** *** Materialising a child *)

Lemma materialize_spec ts next n st l fuel data : yields ts next n st l → collection_ok ts data → n < fuel →
  ∃ data' st', materialize fuel next st data = Ok (data', st') ∧ collection_ok ts data' ∧ collection_rows data' = collection_rows data ++ l.
Proof.
  intros Hy. revert fuel data. induction Hy as [st c st' Hn Hz|n st c st' l Hn Ht Hp _ IH]; intros fuel data Hok Hf;
    (destruct fuel as [|fuel]; [lia|]); cbn [materialize]; rewrite Hn; run.
  - rewrite (proj2 (Nat.eqb_eq _ _) Hz). eexists _, _. split; [done|]. by rewrite app_nil_r.
  - rewrite (proj2 (Nat.eqb_neq _ _)) by lia. destruct (Collection_Append_spec ts data c Hok Ht) as (data1 & -> & Hok1 & Hr1). run.
    destruct (IH fuel data1 Hok1) as (data' & st2 & -> & Hok' & Hr'); [lia|]. eexists _, _. split; [done|]. split; [done|]. by rewrite Hr', Hr1, <- app_assoc.
Qed.

(** *** Cross product *)

Lemma null_proper t null : NullValue t = Ok null → proper t = true.
Proof. by destruct t. Qed.

(** A value of the left side, duplicated. *)
Lemma set_column sel n t v k m : column_ok sel n t v → k < n → m ≤ STANDARD_VECTOR_SIZE →
  ∃ w, (value ← GetValue v k; Vector_Set (with_count m (EmptyVector t)) value) = Ok w ∧ column_ok None m t w ∧ ∀ i, i < m → row_value w i = row_value v k.
Proof.
  intros Hv Hk Hm. rewrite (GetValue_at sel n t) by done. run. destruct Hv as [Ht Hc Hs [[[null Hnull] Hd] Hb] Hcells]. rewrite Ht in Hnull.
  destruct (Vector_Set_rows None m ltac:(simpl; lia) t (row_value v k)) as (w & Hw & Htw & Hcw & Hsw & Hrow); [by eapply null_proper| |].
  { intros x Hx. by apply cell_ok_typed, (Hcells k Hk). }
  exists w. split; [done|]. assert (∀ i, i < m → row_value w i = row_value v k) as Hval by (intros i Hi; by apply row_is_value, Hrow).
  split; [|done]. split; [done|done|done| |intros i Hi; rewrite Hval by done; by apply Hcells].
  apply (vec_intro None m t w (fun _ => row_value v k)); [by eapply null_proper|done|right; done|rewrite Hcw, Hsw; simpl; lia|].
  rewrite Hcw. intros i Hi. split; [by apply Hrow|]. intros x Hx. by apply cell_ok_typed, (Hcells k Hk).
Qed.

Lemma left_columns_spec sel n tsl vs m k : Forall2 (column_ok sel n) tsl vs → k < n → m ≤ STANDARD_VECTOR_SIZE →
  ∃ ws, map2M (fun target v => value ← GetValue v k; Vector_Set (with_count m target) value) (EmptyVector <$> tsl) vs = Ok ws ∧
    Forall2 (column_ok None m) tsl ws ∧ ∀ i, i < m → (fun w => row_value w i) <$> ws = (fun v => row_value v k) <$> vs.
Proof.
  intros Hvs Hk Hm. induction Hvs as [|t v tsl vs Hv _ (ws & Hws & Hcols & Hrows)]; [exists []; by split_and!|].
  destruct (set_column sel n t v k m Hv Hk Hm) as (w & Hw & Hcol & Hrow). exists (w :: ws). cbn [fmap list_fmap map2M]. rewrite Hw. run. rewrite Hws. run.
  split; [done|]. split; [by constructor|]. intros i Hi. by rewrite Hrow, Hrows.
Qed.

Lemma cross_chunk_spec tsl tsr left_chunk right_chunk k : typed_chunk tsl left_chunk → typed_chunk tsr right_chunk → dc_sel right_chunk = None →
  k < chunk_size left_chunk → 0 < chunk_size right_chunk →
  ∃ d, cross_chunk (DataChunk_Initialize (tsl ++ tsr)) left_chunk right_chunk k = Ok d ∧ typed_chunk (tsl ++ tsr) d ∧ 0 < chunk_size d ∧
    chunk_rows d = (app (row_at left_chunk k)) <$> chunk_rows right_chunk.
Proof.
  intros Hl Hr Hsel Hk Hp. pose proof (typed_chunk_columns _ _ Hl) as Hcl. pose proof (typed_chunk_columns _ _ Hr) as Hcr. destruct Hr as [Hner Hcols Hm]. rewrite Hsel in Hcols.
  destruct (left_columns_spec (dc_sel left_chunk) (chunk_size left_chunk) tsl (dc_data left_chunk) (chunk_size right_chunk) k) as (ws & Hws & Hcw & Hrw); [apply Hl|done|done|].
  assert (Forall2 (column_ok None (chunk_size right_chunk)) (tsl ++ tsr) (ws ++ dc_data right_chunk)) as Hall by (by apply Forall2_app).
  assert (tsl ++ tsr ≠ []) as Hne by (intros [? ?]%app_eq_nil; by destruct Hner).
  exists (mkDataChunk (ws ++ dc_data right_chunk) None). split_and!.
  - unfold cross_chunk. rewrite Initialize_columns, length_app, Hcl, Hcr, (proj2 (Nat.leb_le _ _)) by lia. run. cbn [DataChunk_Initialize dc_data dc_sel].
    rewrite fmap_app, take_app_length' by (by rewrite length_fmap). rewrite Hws. run.
    rewrite drop_ge by (rewrite length_app, !length_fmap; lia). by rewrite app_nil_r.
  - by eapply columns_chunk.
  - by rewrite (columns_size _ _ _ _ Hne Hall).
  - unfold chunk_rows. rewrite (columns_size _ _ _ _ Hne Hall), <- list_fmap_compose. apply list_fmap_ext. intros i j [-> Hj]%lookup_seq.
    unfold row_at. simpl. rewrite fmap_app, Hrw by lia. done.
Qed.

(** Every row of [a] next to every row of [b]. *)
Definition product (a b : list row) : list row := concat ((fun r => app r <$> b) <$> a).

Lemma product_app_l a a' b : product (a ++ a') b = product a b ++ product a' b.
Proof. unfold product. by rewrite fmap_app, concat_app. Qed.

Lemma product_app_r a b b' : product a (b ++ b') ≡ₚ product a b ++ product a b'.
Proof.
  unfold product. induction a as [|r a IH]; [done|]. cbn [fmap list_fmap concat]. rewrite fmap_app, IH. solve_Permutation.
Qed.

(** The order in which the chunks come out. *)
Lemma product_chunks a bs : concat (product a <$> bs) ≡ₚ product a (concat bs).
Proof.
  induction bs as [|b bs IH]; cbn [fmap list_fmap concat].
  - unfold product. induction a as [|r a IHa]; [done|]. simpl. by rewrite <- IHa.
  - by rewrite product_app_r, IH.
Qed.

Section cross.
Context (tsl tsr : list TypeId) (next : puller) (fuel : nat) (right_state : result OperatorState) (next_right : puller).
Context (rd : ChunkCollection) (Hrd : collection_ok tsr rd) (Hpos : 0 < cc_count rd).

Definition cross_scan : puller := fun s =>
  match s with
  | CrossProductState s child_chunk left_position right_position right_data =>
    CrossProduct_GetChunk fuel next right_state next_right (DataChunk_Initialize (tsl ++ tsr)) s child_chunk left_position right_position right_data
  | _ => Undef
  end.

Lemma cross_materialised s c lp rp : cross_scan (CrossProductState s c lp rp rd) = cross_step next (DataChunk_Initialize (tsl ++ tsr)) s c lp rp rd.
Proof using Hrd Hpos.
  cbn [cross_scan]. unfold CrossProduct_GetChunk. assert (cc_chunks rd ≠ []) as Hne.
  { intros Hnil. rewrite (co_count _ _ Hrd) in Hpos. unfold collection_rows in Hpos. rewrite Hnil in Hpos. simpl in Hpos. lia. }
  rewrite (co_types _ _ Hrd Hne). destruct (cc_chunks rd) as [|b bs] eqn:E; [done|]. pose proof (co_chunks _ _ Hrd) as Hcs. rewrite E in Hcs.
  apply Forall_cons in Hcs as [(Ht & _) _]. pose proof (tc_nonempty _ _ Ht). by destruct tsr.
Qed.

(** What follows the last row of the left chunk. *)
Definition after_rows (s : OperatorState) (c : DataChunk) (rp : nat) : result OperatorState :=
  if length (cc_chunks rd) <=? S rp then '(c', s') ← next s; Ok (CrossProductState s' c' 0 0 rd)
  else Ok (CrossProductState s c 0 (S rp) rd).

Lemma rows_loop s c rp b after m rest : typed_chunk tsl c → cc_chunks rd !! rp = Some b → after_rows s c rp = Ok after →
  yields (tsl ++ tsr) cross_scan m after rest → ∀ j lp, chunk_size c = lp + S j →
  yields (tsl ++ tsr) cross_scan (S j + m) (CrossProductState s c lp rp rd) (product (drop lp (chunk_rows c)) (chunk_rows b) ++ rest).
Proof using Hrd Hpos.
  intros Hc Hb Hafter Hrest. pose proof (co_chunks _ _ Hrd) as Hcs. rewrite Forall_lookup in Hcs. destruct (Hcs _ _ Hb) as (Htb & Hsb & Hpb).
  induction j as [|j IH]; intros lp Hlp; destruct (cross_chunk_spec tsl tsr c b lp Hc Htb Hsb ltac:(lia) Hpb) as (d & Hd & Htd & Hpd & Hrd');
    rewrite (drop_S _ (row_at c lp)) by (apply chunk_rows_lookup; lia); unfold product; cbn [fmap list_fmap concat]; rewrite <- Hrd', <- app_assoc;
    (eapply yields_chunk; [rewrite cross_materialised; unfold cross_step; rewrite (proj2 (Nat.leb_gt _ _)) by lia; rewrite Hb; run; rewrite Hd; run| exact Htd|exact Hpd|]).
  - rewrite (proj2 (Nat.leb_le _ _)) by lia. unfold after_rows in Hafter. destruct (length (cc_chunks rd) <=? S rp).
    + apply bind_Ok in Hafter as ([c' s'] & Hn & Hs). injection Hs as <-. rewrite Hn. by run.
    + by injection Hafter as <-.
  - rewrite drop_ge by (rewrite chunk_rows_length; lia). done.
  - by rewrite (proj2 (Nat.leb_gt _ _)) by lia.
  - apply (IH (S lp)). lia.
Qed.

Lemma chunks_loop s c c' s' m rest : typed_chunk tsl c → 0 < chunk_size c → next s = Ok (c', s') →
  yields (tsl ++ tsr) cross_scan m (CrossProductState s' c' 0 0 rd) rest → ∀ j rp, length (cc_chunks rd) = rp + S j →
  ∃ m', yields (tsl ++ tsr) cross_scan m' (CrossProductState s c 0 rp rd) (concat ((fun b => product (chunk_rows c) (chunk_rows b)) <$> drop rp (cc_chunks rd)) ++ rest).
Proof using Hrd Hpos.
  intros Hc Hp Hn Hrest. induction j as [|j IH]; intros rp Hrp; destruct (lookup_lt_is_Some_2 (cc_chunks rd) rp) as [b Hb]; [lia| |lia|];
    rewrite (drop_S _ b rp Hb); cbn [fmap list_fmap concat]; rewrite <- app_assoc.
  - rewrite (drop_ge _ (S rp)) by lia. exists (S (pred (chunk_size c)) + m). eapply (rows_loop s c rp b _ m _ Hc Hb); [|exact Hrest|lia].
    unfold after_rows. rewrite (proj2 (Nat.leb_le _ _)) by lia. rewrite Hn. by run.
  - destruct (IH (S rp)) as [m' Hm']; [lia|]. exists (S (pred (chunk_size c)) + m'). eapply (rows_loop s c rp b _ m' _ Hc Hb); [|exact Hm'|lia].
    unfold after_rows. by rewrite (proj2 (Nat.leb_gt _ _)) by lia.
Qed.

Lemma left_loop n s l c : yields tsl next n s l → typed_chunk tsl c → 0 < chunk_size c →
  ∃ m out, yields (tsl ++ tsr) cross_scan m (CrossProductState s c 0 0 rd) out ∧ out ≡ₚ product (chunk_rows c ++ l) (collection_rows rd).
Proof using Hrd Hpos.
  assert (0 < length (cc_chunks rd)) as Hlen.
  { rewrite (co_count _ _ Hrd) in Hpos. unfold collection_rows in Hpos. destruct (cc_chunks rd); [simpl in Hpos; lia|simpl; lia]. }
  intros Hy. revert c. induction Hy as [s c' s' Hn Hz|n s c' s' l Hn Ht Hp' Hy IH]; intros c Hc Hp.
  - assert (yields (tsl ++ tsr) cross_scan 0 (CrossProductState s' c' 0 0 rd) []) as Hend.
    { eapply yields_end; [rewrite cross_materialised; unfold cross_step; rewrite (proj2 (Nat.leb_le _ _)) by lia; done|apply Initialize_size]. }
    destruct (chunks_loop s c c' s' 0 [] Hc Hp Hn Hend (pred (length (cc_chunks rd))) 0) as [m Hm]; [lia|]. eexists m, _. split; [exact Hm|].
    rewrite !app_nil_r, drop_0, (list_fmap_compose chunk_rows (product (chunk_rows c))). apply product_chunks.
  - destruct (IH c' Ht Hp') as (m1 & out & Hout & Hperm).
    destruct (chunks_loop s c c' s' m1 out Hc Hp Hn Hout (pred (length (cc_chunks rd))) 0) as [m Hm]; [lia|]. eexists m, _. split; [exact Hm|].
    rewrite drop_0, (list_fmap_compose chunk_rows (product (chunk_rows c))), product_chunks, Hperm, (product_app_l (chunk_rows c)). done.
Qed.
End cross.

Lemma yields_same {S} ts (next : S → result (DataChunk * S)) n st st' l : next st = next st' → yields ts next n st l → yields ts next n st' l.
Proof. intros Heq Hy. destruct Hy as [st c st2 Hn Hz|m st c st2 k Hn Ht Hp Hk]; [eapply yields_end|eapply yields_chunk]; try done; by rewrite <- Heq. Qed.

Lemma product_nil_r a : product a [] = [].
Proof. unfold product. by induction a. Qed.

Lemma CrossProduct_yields tsl tsr next next_right n s a k t b fuel c0 : yields tsl next n s a → yields tsr next_right k t b → k < fuel →
  ∃ m out, yields (tsl ++ tsr) (cross_scan tsl tsr next fuel (Ok t) next_right) m (CrossProductState s c0 0 0 EmptyCollection) out ∧ out ≡ₚ product a b.
Proof.
  intros Ha Hb Hf. destruct (materialize_spec tsr next_right k t b fuel EmptyCollection Hb (EmptyCollection_ok tsr) Hf) as (rd & t' & Hm & Hok & Hrows).
  cbn [app collection_rows EmptyCollection cc_chunks fmap list_fmap concat] in Hrows.
  assert (∀ c s', 0 < cc_count rd → next s = Ok (c, s') →
    cross_scan tsl tsr next fuel (Ok t) next_right (CrossProductState s' c 0 0 rd) = cross_scan tsl tsr next fuel (Ok t) next_right (CrossProductState s c0 0 0 EmptyCollection)) as Hfirst.
  { intros c s' Hpos Hn. rewrite (cross_materialised tsl tsr next fuel (Ok t) next_right rd Hok Hpos). cbn [cross_scan]. unfold CrossProduct_GetChunk.
    cbn [EmptyCollection cc_types length Nat.eqb]. run. rewrite Hm. run. rewrite (proj2 (Nat.eqb_neq _ _)) by lia. rewrite Hn. by run. }
  destruct (Nat.eq_dec (cc_count rd) 0) as [Hz|Hnz].
  - exists 0, []. assert (b = []) as -> by (apply nil_length_inv; by rewrite <- Hrows, <- (co_count _ _ Hok)). rewrite product_nil_r. split; [|done].
    eapply yields_end; [|apply Initialize_size]. cbn [cross_scan]. unfold CrossProduct_GetChunk. cbn [EmptyCollection cc_types length Nat.eqb]. run. rewrite Hm. run.
    by rewrite (proj2 (Nat.eqb_eq _ _) Hz).
  - rewrite <- Hrows. destruct Ha as [s c s' Hn Hz|n s c s' l Hn Ht Hp Hl].
    + exists 0, []. split; [|done]. eapply yields_same; [apply (Hfirst c s'); [lia|done]|]. eapply yields_end; [|apply Initialize_size].
      rewrite (cross_materialised tsl tsr next fuel (Ok t) next_right rd Hok) by lia. unfold cross_step. by rewrite (proj2 (Nat.leb_le _ _)) by lia.
    + destruct (left_loop tsl tsr next fuel (Ok t) next_right rd Hok ltac:(lia) n s' l c Hl Ht Hp) as (m & out & Hout & Hperm).
      exists m, out. split; [|done]. eapply yields_same; [|exact Hout]. apply Hfirst; [lia|done].
Qed.

(** *** Order *)

Definition sort_key (orders : list BoundOrderByNode) (r : row) : result row := mapM (eval function_row (row_env_of r)) (ob_expression <$> orders).

Definition key_types (orders : list BoundOrderByNode) : list TypeId := return_type <$> (ob_expression <$> orders).

(** The sort keys of [r] do not come after those of [s]. *)
Definition order_le (orders : list BoundOrderByNode) (r s : row) : Prop :=
  ∀ kr ks, sort_key orders r = Ok kr → sort_key orders s = Ok ks → row_le (ob_type <$> orders) (key_types orders) kr ks.

Section order.
Context (ts : list TypeId) (orders : list BoundOrderByNode).
Context (Horders : orders ≠ []) (Hexpr : Forall (fun o => expression_ok ts (ob_expression o)) orders).

(** Rows that can be sorted. *)
Definition orderable_row (r : row) : Prop := ∃ k, sort_key orders r = Ok k ∧ Forall2 orderable_value (key_types orders) k.

Lemma sort_key_value r e : orderable_row r → e ∈ ob_expression <$> orders → has_value e r.
Proof.
  intros (k & Hk & _) He. unfold sort_key in Hk. apply mapM_Ok in Hk. apply list_elem_of_lookup_1 in He as [i Hi].
  destruct (Forall2_lookup_l _ _ _ _ _ Hk Hi) as (o & _ & Ho). by exists o.
Qed.

Lemma sort_keys_spec chunks acc : Forall (fun c => typed_chunk ts c ∧ dc_sel c = None ∧ 0 < chunk_size c) chunks →
  Forall orderable_row (concat (chunk_rows <$> chunks)) → collection_ok (key_types orders) acc →
  ∃ sc ks, sort_keys function_call orders chunks acc = Ok sc ∧ collection_ok (key_types orders) sc ∧ collection_rows sc = collection_rows acc ++ ks ∧
    Forall2 (fun r k => sort_key orders r = Ok k) (concat (chunk_rows <$> chunks)) ks.
Proof using Hfunctions Horders Hexpr.
  intros Hcs. revert acc. induction Hcs as [|c cs (Ht & Hs & Hp) _ IH]; intros acc Hrows Hacc.
  { exists acc, []. rewrite app_nil_r. by split_and!. }
  cbn [fmap list_fmap concat] in *. apply Forall_app in Hrows as [Hc Hrows]. cbn [sort_keys].
  destruct (execute_projection function_call function_row function_type cse_of Hfunctions ts c Ht Hp (ob_expression <$> orders)) as (d & x & Hd & Htd & _ & _ & HR).
  { by destruct orders. }
  { by apply Forall_fmap. }
  { intros e r He Hr. rewrite Forall_forall in Hc. apply sort_key_value; [by apply Hc|done]. }
  rewrite Hd. cbn [fst]. run. destruct (Collection_Append_spec (key_types orders) acc d Hacc Htd) as (acc' & -> & Hacc' & Hrows'). run.
  destruct (IH acc' Hrows Hacc') as (sc & ks & Hsc & Hok & Heq & Hks). exists sc, (chunk_rows d ++ ks). split_and!; [done|done| |by apply Forall2_app].
  by rewrite Heq, Hrows', app_assoc.
Qed.

(** Rows and their keys at the same positions. *)
Lemma keys_at (rows keys : list row) a rows' keys' : Forall2 (fun r k => sort_key orders r = Ok k) rows keys →
  mapM (rows !!.) a = Some rows' → mapM (keys !!.) a = Some keys' → Forall2 (fun r k => sort_key orders r = Ok k) rows' keys'.
Proof.
  intros Hk Hr%mapM_Some Hks%mapM_Some. revert keys' Hks. induction Hr as [|i r a rows' Hi _ IH]; intros keys' Hks.
  - apply Forall2_nil_inv_l in Hks as ->. done.
  - apply Forall2_cons_inv_l in Hks as (k & ks & Hik & Hks & ->). constructor; [|by apply IH]. exact (Forall2_lookup_lr _ _ _ _ _ _ Hk Hi Hik).
Qed.

Lemma sorted_by_key rows keys : Forall2 (fun r k => sort_key orders r = Ok k) rows keys →
  StronglySorted (row_le (ob_type <$> orders) (key_types orders)) keys → StronglySorted (order_le orders) rows.
Proof.
  induction 1 as [|r k rows keys Hk Hks IH]; intros Hs; [constructor|]. apply StronglySorted_inv in Hs as [Hs Hall]. constructor; [by apply IH|].
  apply Forall_lookup. intros i s Hi. destruct (Forall2_lookup_l _ _ _ _ _ Hks Hi) as (k' & Hk' & Hkey). rewrite Forall_lookup in Hall.
  intros kr ks Hr Hs'. assert (kr = k) as -> by congruence. assert (ks = k') as -> by congruence. by eapply Hall.
Qed.

Definition order_scan (next : puller) (fuel : nat) : puller := fun s =>
  match s with
  | OrderState s position data vector => Order_GetChunk function_call uninitialised fuel next orders (DataChunk_Initialize ts) s position data vector
  | _ => Undef
  end.

Context (Hne : ts ≠ []) (Hset : Forall (fun t => set_type t = true) ts).

(** The chunks after the first. *)
Lemma order_rest next fuel s big a rows : collection_ok ts big → mapM (collection_rows big !!.) a = Some rows → length a = cc_count big →
  ∀ j p, 0 < p → cc_count big ≤ p + j → ∃ m, yields ts (order_scan next fuel) m (OrderState s p big a) (drop p rows).
Proof using Hne Hset.
  intros Hok Hrows Hlen. assert (length rows = cc_count big) as Hlr by (rewrite <- Hlen; symmetry; by eapply Forall2_length, mapM_Some).
  induction j as [j IH] using lt_wf_ind. intros p Hp Hj. destruct (Nat.le_gt_cases (cc_count big) p) as [Hle|Hgt].
  - exists 0. rewrite drop_ge by lia. eapply yields_end; [|apply Initialize_size]. cbn [order_scan]. unfold Order_GetChunk.
    rewrite (proj2 (Nat.eqb_neq _ _)) by lia. run. by rewrite (proj2 (Nat.leb_le _ _)) by lia.
  - destruct (MaterializeSortedChunk_spec ts big a rows Hok Hrows p Hne Hset Hlen Hgt) as (c & Hc & Ht & _ & Hcr).
    assert (0 < STANDARD_VECTOR_SIZE) as Hsvs by (by apply Nat.ltb_lt).
    destruct (IH (j - STANDARD_VECTOR_SIZE) ltac:(lia) (p + STANDARD_VECTOR_SIZE)) as [m Hm]; [lia|lia|]. exists (S m).
    rewrite <- (take_drop STANDARD_VECTOR_SIZE (drop p rows)), <- Hcr, drop_drop. eapply yields_chunk; [|exact Ht| |exact Hm].
    + cbn [order_scan]. unfold Order_GetChunk. rewrite (proj2 (Nat.eqb_neq _ _)) by lia. run. rewrite (proj2 (Nat.leb_gt _ _)) by lia. rewrite Hc. by run.
    + rewrite <- chunk_rows_length, Hcr, length_take, length_drop. lia.
Qed.

Context (Huninit : ∀ n, length (uninitialised n) = n) (Hstrcmp : T_VARCHAR ∈ key_types orders → small_strcmp).

Lemma Order_yields next n st l fuel : yields ts next n st l → Forall orderable_row l → n < fuel →
  ∃ m out, yields ts (order_scan next fuel) m (OrderState st 0 EmptyCollection []) out ∧ out ≡ₚ l ∧ StronglySorted (order_le orders) out.
Proof using Hfunctions Horders Hexpr Hne Hset Huninit Hstrcmp.
  intros Hy Hrows Hf. destruct (materialize_spec ts next n st l fuel EmptyCollection Hy (EmptyCollection_ok ts) Hf) as (big & st' & Hm & Hok & Hbig).
  cbn [app collection_rows EmptyCollection cc_chunks fmap list_fmap concat] in Hbig. subst l.
  destruct (sort_keys_spec (cc_chunks big) EmptyCollection (co_chunks _ _ Hok) Hrows (EmptyCollection_ok _)) as (sc & ks & Hsc & Hoks & Hks & Hkeys).
  cbn [app collection_rows EmptyCollection cc_chunks fmap list_fmap concat] in Hks. fold (collection_rows big) in Hkeys. subst ks.
  assert (cc_count sc = cc_count big) as Hcount by (rewrite (co_count _ _ Hok), (co_count _ _ Hoks); symmetry; by eapply Forall2_length).
  destruct (Sort_spec (key_types orders) (ob_type <$> orders) sc (uninitialised (cc_count sc))) as (a & keys & Ha & Hp & Hka & _ & Hsorted); [|apply Huninit|].
  { split; [done|by unfold key_types; rewrite !length_fmap| |done]. clear -Hkeys Hrows. induction Hkeys as [|r k rs ks Hk _ IH]; [constructor|].
    apply Forall_cons in Hrows as [(k' & Hk' & Ho) Hrows]. constructor; [|by apply IH]. by assert (k' = k) as <- by congruence. }
  rewrite Hcount, (co_count _ _ Hok) in Hp. destruct (rows_at_positions (collection_rows big) a Hp) as (rows & Hra & Hperm).
  assert (length a = cc_count big) as Hlen by (rewrite (co_count _ _ Hok); apply Permutation_length in Hp; by rewrite length_seq in Hp).
  assert (length rows = cc_count big) as Hlr by (rewrite <- Hlen; symmetry; by eapply Forall2_length, mapM_Some).
  pose proof (sorted_by_key _ _ (keys_at _ _ _ _ _ Hkeys Hra Hka) Hsorted) as Hso.
  assert (order_scan next fuel (OrderState st 0 EmptyCollection []) = (if cc_count big <=? 0 then Ok (DataChunk_Initialize ts, OrderState st' 0 big a) else
    chunk ← MaterializeSortedChunk big (DataChunk_Initialize ts) a 0; Ok (chunk, OrderState st' STANDARD_VECTOR_SIZE big a))) as Hfirst.
  { cbn [order_scan]. unfold Order_GetChunk. cbn [Nat.eqb]. rewrite Hm. run. rewrite Hsc. run.
    rewrite Hcount in *. rewrite Nat.eqb_refl. run. rewrite Ha. by run. }
  destruct (Nat.leb_spec (cc_count big) 0) as [Hz|Hpos].
  - exists 0, []. assert (rows = []) as -> by (apply nil_length_inv; lia). split; [eapply yields_end; [exact Hfirst|apply Initialize_size]|done].
  - destruct (MaterializeSortedChunk_spec ts big a rows Hok Hra 0 Hne Hset Hlen Hpos) as (c & Hc & Ht & _ & Hcr). rewrite Hc in Hfirst. autorewrite with run in Hfirst.
    assert (0 < STANDARD_VECTOR_SIZE) as Hsvs by (by apply Nat.ltb_lt).
    destruct (order_rest next fuel st' big a rows Hok Hra Hlen (cc_count big) STANDARD_VECTOR_SIZE) as [m Hm']; [done|lia|].
    exists (S m), rows. split; [|done]. rewrite <- (take_drop STANDARD_VECTOR_SIZE rows). rewrite drop_0 in Hcr. rewrite <- Hcr.
    eapply yields_chunk; [exact Hfirst|exact Ht| |exact Hm']. rewrite <- chunk_rows_length, Hcr, length_take. lia.
Qed.
End order.
End proofs.
