(* ===== verification/ScalarFunctions.v ===== *)
(** * Scalar functions

    Models the functions of [src/src/function/scalar_function/] on vectors:
    [abs], [length], [upper], [lower], [concat], [substring] and the parts of
    a date.  The functions of one argument compute their result in every row,
    which is what the expression executor relies on; [length] and [substring]
    count characters of UTF-8 text. *)

From Stdlib Require Import ZArith Lia.
From Stdlib.Floats Require Import SpecFloat.
From stdpp Require Import base gmap list strings option numbers sorting relations.
From S2P Require Import Prelude Types Vector Serializer StringStream DateTime Operators VectorOps Like Casts Value Expressions ExpressionRows ExecutorProofs.

Local Open Scope Z_scope.

(** ** Operations on values *)

(** [operators::Abs]; the product of the smallest number and -1 is undefined,
    narrow types wrap around. *)
Definition Abs_Operation (t : TypeId) (x : cell) : result cell :=
  match t, x with
  | (T_TINYINT | T_SMALLINT), Num n z => Ok (Num n (if z <? 0 then wrap_signed n (z * -1) else z))
  | (T_INTEGER | T_BIGINT), Num n z =>
    if z <? 0 then (if in_signed n (z * -1) then Ok (Num n (z * -1)) else Undef) else Ok (Num n z)
  | (T_FLOAT | T_DOUBLE), Num n z =>
    match SFcompare (float_of t z) (S754_zero false) with
    | Some Lt => Ok (float_cell t (SFopp (float_of t z)))
    | _ => Ok (Num n z)
    end
  | _, _ => Undef
  end.

(** The bytes that start a character. *)
Definition starts_character (b : byte) : bool := negb (Z.land b 192 =? 128).

(** The loop of [length_function]. *)
Fixpoint count_characters (bs : list byte) : Z :=
  match bs with [] => 0 | b :: bs' => (if starts_character b then 1 else 0) + count_characters bs' end.

(** [length] is an [int64_t]. *)
Definition length_cell (s : string) : result cell :=
  let n := count_characters (string_bytes s) in if in_signed 8 n then Ok (Num 8 n) else Undef.

(** [toupper], [tolower] of the C locale *)
Definition toupper (b : byte) : byte := if (97 <=? b) && (b <=? 122) then b - 32 else b.
Definition tolower (b : byte) : byte := if (65 <=? b) && (b <=? 90) then b + 32 else b.
Definition strtoupper (s : string) : string := bytes_string (toupper <$> string_bytes s).
Definition strtolower (s : string) : string := bytes_string (tolower <$> string_bytes s).

(** The loop of [substring_function]: [chars] is [input_char_offset]. *)
Fixpoint substring_loop (offset length chars : Z) (bs : list byte) : list byte :=
  match bs with
  | [] => []
  | b :: bs' =>
    let chars := chars + (if starts_character b then 1 else 0) in
    if (offset + length) mod 2 ^ 64 <? chars then []
    else if offset <? chars then b :: substring_loop offset length chars bs'
    else substring_loop offset length chars bs'
  end.

(** [size_t offset = offset_data[i] - 1] and [size_t length = length_data[i]];
    the check for negative numbers compares unsigned ones. *)
Definition substring_cell (input offset length : cell) : result cell :=
  match input, offset, length with
  | Str (Some s), Num _ o, Num _ l =>
    if negb (in_signed 4 (o - 1)) then Undef
    else Ok (Str (Some (bytes_string (substring_loop ((o - 1) mod 2 ^ 64) (l mod 2 ^ 64) 0 (string_bytes s)))))
  | _, _, _ => Undef
  end.

(** ** Functions on vectors *)

(** [VectorOperations::Abs] *)
Definition Vector_Abs (input result_ : Vector) : result Vector :=
  if negb (bool_decide (v_type input = v_type result_)) then Throw TypeMismatchException
  else
    match v_type input with
    | T_TINYINT | T_SMALLINT | T_INTEGER | T_BIGINT | T_FLOAT | T_DOUBLE => unary_loop (Abs_Operation (v_type input)) input result_
    | _ => Throw InvalidTypeException
    end.

Definition abs_function (inputs : list Vector) : result Vector :=
  input ← deref (head inputs);
  Vector_Abs input (EmptyVector (v_type input)).

(** A loop over strings that leaves out the rows that are NULL. *)
Definition string_loop (f : string → result cell) (t : TypeId) (inputs : list Vector) : result Vector :=
  _ ← assert_ (bool_decide (length inputs = 1%nat));
  input ← deref (head inputs);
  _ ← assert_ (bool_decide (v_type input = T_VARCHAR));
  unary_loop (fun x => match x with Str (Some s) => f s | _ => Undef end) input (EmptyVector t).

Definition length_function : list Vector → result Vector := string_loop length_cell T_BIGINT.
Definition caseconvert_upper_function : list Vector → result Vector := string_loop (fun s => Ok (Str (Some (strtoupper s)))) T_VARCHAR.
Definition caseconvert_lower_function : list Vector → result Vector := string_loop (fun s => Ok (Str (Some (strtolower s)))) T_VARCHAR.

(** [BinaryExec] *)
Definition binary_shape (a b : Vector) : option (list nat) * nat :=
  if negb (IsConstant a) then (v_sel a, v_count a)
  else if negb (IsConstant b) then (v_sel b, v_count b)
  else (None, 1%nat).

Definition concat_cell (x y : cell) : result cell :=
  match x, y with Str (Some s), Str (Some t) => Ok (Str (Some (s +:+ t))) | _, _ => Undef end.

Definition concat_function (inputs : list Vector) : result Vector :=
  match inputs with
  | [input1; input2] =>
    _ ← assert_ (bool_decide (v_type input1 = T_VARCHAR));
    _ ← assert_ (bool_decide (v_type input2 = T_VARCHAR));
    let nulls := v_null input1 ∪ v_null input2 in
    let '(sel, count) := binary_shape input1 input2 in
    let fits v := IsConstant v || (v_count v =? count)%nat in
    _ ← assert_ (fits input1 && fits input2);
    data ← write_rows (fun i =>
      if bool_decide (i ∈ nulls) then Ok None
      else x ← deref (v_data input1 !! operand_index input1 i);
           y ← deref (v_data input2 !! operand_index input2 i);
           z ← concat_cell x y; Ok (Some z)) (exec_indexes sel count 0) ∅;
    Ok (mkVector T_VARCHAR count data sel nulls)
  | _ => Undef
  end.

Definition substring_function (inputs : list Vector) : result Vector :=
  match inputs with
  | [input; offset; length] =>
    _ ← assert_ (bool_decide (v_type input = T_VARCHAR));
    _ ← assert_ (bool_decide (v_type offset = T_INTEGER));
    _ ← assert_ (bool_decide (v_type length = T_INTEGER));
    let '(sel, count) := ternary_shape input offset length in
    let fits v := IsConstant v || (v_count v =? count)%nat in
    _ ← assert_ (fits input && fits offset && fits length);
    data ← write_rows (fun i =>
      if bool_decide (operand_index input i ∈ v_null input) then Ok None
      else x ← deref (v_data input !! operand_index input i);
           o ← deref (v_data offset !! operand_index offset i);
           l ← deref (v_data length !! operand_index length i);
           z ← substring_cell x o l; Ok (Some z)) (exec_indexes sel count 0) ∅;
    Ok (mkVector T_VARCHAR count data sel (v_null input))
  | _ => Undef
  end.

(** ** Rows *)

Lemma unary_loop_spec op v result_ :
  operand_ok v → (∀ k x, (k < v_count v)%nat → row_value v k = Some x → ∃ z, op x = Ok z) →
  ∃ w, unary_loop op v result_ = Ok w ∧ v_type w = v_type result_ ∧ v_count w = v_count v ∧ v_sel w = v_sel v ∧
    ∀ k, (k < v_count v)%nat →
      match row_value v k with Some x => ∃ z, op x = Ok z ∧ row_is w k (Some z) | None => row_is w k None end.
Proof.
  intros Hok Hop. unfold unary_loop.
  assert (∀ k, (k < v_count v)%nat → sel_at (v_sel v) k ∉ v_null v →
    ∃ x z, v_data v !! sel_at (v_sel v) k = Some x ∧ row_value v k = Some x ∧ op x = Ok z) as Hval.
  { intros k Hk Hn. rewrite <- cell_index_row in * by done.
    destruct (operand_present v k Hok) as (x & Hx & Hr & _); [by left|done|]. destruct (Hop k x Hk Hr) as [z Hz]. eauto. }
  match goal with |- context [write_rows ?f ?ix ?d] => destruct (write_rows_spec f ix d) as (d' & -> & Hrow) end.
  { intros i (k & Hk & ->)%exec_index_elem. case_bool_decide as Hn; [eauto|].
    destruct (Hval k Hk Hn) as (x & z & -> & _ & Hz). run. rewrite Hz. run. eauto. }
  run. eexists. split_and!; [done..|]. intros k Hk.
  destruct (decide (sel_at (v_sel v) k ∈ v_null v)) as [Hn|Hn].
  - rewrite row_value_null by (by rewrite cell_index_row). by apply row_is_vector.
  - destruct (Hval k Hk Hn) as (x & z & Hx & -> & Hz). exists z. split; [done|]. apply row_is_vector; [done|]. split; [done|].
    eapply Hrow; [apply exec_index_elem; eauto|]. rewrite bool_decide_eq_false_2 by done. rewrite Hx. run. by rewrite Hz.
Qed.

(** The bound functions with one argument. *)
Inductive unary_function : Type := F_length | F_upper | F_lower | F_abs (t : TypeId).

Definition call (f : unary_function) : list Vector → result Vector :=
  match f with
  | F_length => length_function
  | F_upper => caseconvert_upper_function
  | F_lower => caseconvert_lower_function
  | F_abs _ => abs_function
  end.

Definition signature (f : unary_function) : TypeId * TypeId :=
  match f with F_length => (T_VARCHAR, T_BIGINT) | F_upper | F_lower => (T_VARCHAR, T_VARCHAR) | F_abs t => (t, t) end.

Definition on_cell (f : unary_function) (x : cell) : result cell :=
  match f, x with
  | F_length, Str (Some s) => length_cell s
  | F_upper, Str (Some s) => Ok (Str (Some (strtoupper s)))
  | F_lower, Str (Some s) => Ok (Str (Some (strtolower s)))
  | F_abs t, x => Abs_Operation t x
  | _, _ => Undef
  end.

Definition available (f : unary_function) : bool :=
  match f with F_abs t => numeric_type t && negb (bool_decide (t = T_POINTER)) | _ => true end.

Section catalog.
(** The functions a database has, by number. *)
Context (functions : list unary_function).

Definition catalog_call (f : nat) (inputs : list Vector) : result Vector :=
  match functions !! f with Some g => call g inputs | None => Undef end.
Definition catalog_row (f : nat) (os : list (option cell)) : result (option cell) :=
  match functions !! f, os with
  | Some g, [Some x] => z ← on_cell g x; Ok (Some z)
  | Some g, [None] => Ok None
  | _, _ => Undef
  end.
Definition catalog_type (f : nat) (ts : list TypeId) : option TypeId :=
  match functions !! f with
  | Some g => if available g && bool_decide (ts = [fst (signature g)]) then Some (snd (signature g)) else None
  | None => None
  end.

Lemma call_loop g v : available g = true → v_type v = fst (signature g) →
  call g [v] = unary_loop (on_cell g) v (EmptyVector (snd (signature g))).
Proof.
  intros Ha Hv. destruct g as [| | |t]; cbn [call signature fst snd] in *;
    unfold length_function, caseconvert_upper_function, caseconvert_lower_function, string_loop; cbn [length head deref];
    run; try (rewrite Hv, bool_decide_eq_true_2 by done; run; done).
  unfold abs_function, Vector_Abs. cbn [head deref]. run. simpl in Ha. rewrite Hv. cbn [EmptyVector v_type].
  rewrite bool_decide_eq_true_2 by done. cbn [negb]. by destruct t.
Qed.

Lemma count_characters_bound bs : 0 ≤ count_characters bs ≤ Z.of_nat (length bs).
Proof. clear functions. induction bs as [|b bs IH]; simpl; [lia|]. destruct (starts_character b); lia. Qed.

Lemma Abs_ok t x z : available (F_abs t) = true → cell_ok t x = true → Abs_Operation t x = Ok z → cell_ok t z = true.
Proof.
  intros Ha Hx Hz. destruct t; try done; destruct x as [n a|]; try done; cbn [Abs_Operation] in Hz.
  1-4: edestruct cell_ok_num as (b & Heq & Hb); [|exact Hx|]; [reflexivity|]; simplify_eq; destruct (b <? 0); simplify_eq;
    (try done); (try (destruct (in_signed _ _) eqn:E; [|done]; simplify_eq));
    (erewrite cell_ok_signed by reflexivity); (done || (apply wrap_signed_range; lia)).
  all: repeat case_match; simplify_eq; done.
Qed.

Lemma on_cell_ok g x z :
  available g = true → cell_ok (fst (signature g)) x = true → on_cell g x = Ok z → cell_ok (snd (signature g)) z = true.
Proof.
  intros Ha Hx Hz. destruct g as [| | |t]; cbn [on_cell signature fst snd] in *; [..|by eapply Abs_ok].
  all: destruct x as [|[s|]]; try done. 2,3: by simplify_eq.
  unfold length_cell in Hz. destruct (in_signed 8 _) eqn:E; simplify_eq. by rewrite (cell_ok_signed T_BIGINT 8).
Qed.

Lemma catalog_typed : functions_typed catalog_row catalog_type.
Proof.
  intros f ts t os o Hf Hos Ho. unfold catalog_type, catalog_row in *. destruct (functions !! f) as [g|]; [|done].
  destruct (available g) eqn:Ha; [|done]. case_bool_decide; [|done]. simplify_eq/=.
  apply Forall2_cons_inv_l in Hos as (o' & os' & Ho' & Hnil & ->). apply Forall2_nil_inv_l in Hnil as ->.
  destruct o' as [x|]; [|by simplify_eq]. apply bind_Ok in Ho as (z & Hz & [= <-]). intros w [= <-].
  eapply on_cell_ok; [done|by apply Ho'|done].
Qed.

Lemma on_cell_typed g x z :
  available g = true → cell_has_type (fst (signature g)) x = true → on_cell g x = Ok z → cell_has_type (snd (signature g)) z = true.
Proof.
  intros Ha Hx Hz. destruct g as [| | |t]; cbn [on_cell signature fst snd] in *.
  1-3: destruct x as [|[s|]]; try done; unfold length_cell in Hz; by repeat case_match; simplify_eq.
  destruct t; try done; destruct x as [n a|]; try done; cbn [Abs_Operation] in Hz; by repeat case_match; simplify_eq.
Qed.

Lemma available_proper g : available g = true → proper (snd (signature g)) = true.
Proof. destruct g as [| | |[]]; done. Qed.

(** The functions do what the executor relies on. *)
Lemma catalog_rowwise sel n : (0 < n)%nat → functions_rowwise catalog_call catalog_row catalog_type sel n.
Proof.
  intros Hn f ts t vs Hf Hvs HF. unfold catalog_type, catalog_row, catalog_call in *. destruct (functions !! f) as [g|]; [|done].
  destruct (available g) eqn:Ha; [|done]. case_bool_decide; [|done]. simplify_eq/=.
  apply Forall2_cons_inv_l in Hvs as (v & vs' & Hv & Hnil & ->). apply Forall2_nil_inv_l in Hnil as ->.
  set (F o := match o with Some x => z ← on_cell g x; Ok (Some z) | None => Ok None end).
  assert (∀ k, (match (fun v => row_value v k) <$> [v] with
    | [Some x] => z ← on_cell g x; Ok (Some z) | [None] => Ok None | _ => Undef end) = F (row_value v k)) as HFk.
  { intros k. simpl. by destruct (row_value v k). }
  destruct (lift_unary sel n Hn (fun v => call g [v]) F (fst (signature g)) (snd (signature g)) v) as (w & Hw & Hvw & Hrw).
  - intros Hok Hty HF'. rewrite call_loop by done.
    destruct (unary_loop_spec (on_cell g) v (EmptyVector (snd (signature g))) Hok) as (w & Hw & Htw & Hcw & Hsw & Hrow).
    { intros k x Hk Hx. destruct (HF' k Hk) as [o Ho]. rewrite Hx in Ho. apply bind_Ok in Ho as (z & ? & _). eauto. }
    exists w. split_and!; [done..|]. intros k o Hk Ho. specialize (Hrow k Hk). unfold F in Ho. destruct (row_value v k) as [x|]; [|by simplify_eq].
    destruct Hrow as (z & Hz & Hrow). rewrite Hz in Ho. by simplify_eq/=.
  - by apply available_proper.
  - done.
  - intros k Hk. destruct (HF k Hk) as [o Ho]. exists o. rewrite HFk in Ho. split; [done|]. intros x ->.
    unfold F in Ho. destruct (row_value v k) as [y|] eqn:Hy; [|done]. apply bind_Ok in Ho as (z & Hz & [= <-]).
    eapply on_cell_typed; [done| |done]. by eapply (vec_cell sel n).
  - exists w. split; [done|]. split; [done|]. intros k Hk. etransitivity; [exact (HFk k)|auto].
Qed.
End catalog.

(** ** Characters *)

(** A character is a byte that starts one and the bytes that continue it. *)
Definition is_character (ch : list byte) : bool :=
  match ch with b :: bs => starts_character b && forallb (fun b => negb (starts_character b)) bs | [] => false end.

Lemma count_continuation bs rest :
  forallb (fun b => negb (starts_character b)) bs = true → count_characters (bs ++ rest) = count_characters rest.
Proof.
  induction bs as [|b bs IH]; [done|]. simpl. rewrite andb_true_iff, negb_true_iff. intros [-> Hbs]. rewrite IH by done. lia.
Qed.

Lemma count_concat chars : forallb is_character chars = true → count_characters (concat chars) = Z.of_nat (length chars).
Proof.
  induction chars as [|ch chars IH]; [done|]. cbn [forallb concat]. rewrite andb_true_iff. intros [Hch Hchars].
  destruct ch as [|b bs]; [done|]. simpl in Hch. apply andb_true_iff in Hch as [Hb Hbs].
  cbn [app count_characters]. rewrite Hb, count_continuation, IH by done. cbn [length]. lia.
Qed.

Section substring_loop.
Context (offset len : Z) (Ho : 0 ≤ offset) (Hl : 0 ≤ len) (Hs : offset + len < 2 ^ 64).

Lemma loop_step c b bs :
  substring_loop offset len c (b :: bs) =
  let c := c + (if starts_character b then 1 else 0) in
  if offset + len <? c then []
  else if offset <? c then b :: substring_loop offset len c bs else substring_loop offset len c bs.
Proof using Ho Hl Hs. cbn [substring_loop]. by rewrite (Z.mod_small (offset + len)) by lia. Qed.

Lemma loop_continuation c bs rest :
  forallb (fun b => negb (starts_character b)) bs = true → c ≤ offset + len →
  substring_loop offset len c (bs ++ rest) =
  (if offset <? c then bs else []) ++ substring_loop offset len c rest.
Proof using Ho Hl Hs.
  intros Hbs Hc. induction bs as [|b bs IH]; [by destruct (offset <? c)|]. simpl in Hbs.
  rewrite andb_true_iff, negb_true_iff in Hbs. destruct Hbs as [Hb Hbs]. cbn [app]. rewrite loop_step, Hb, Z.add_0_r. cbv zeta.
  rewrite (proj2 (Z.ltb_ge (offset + len) c)) by done. rewrite IH by done. by destruct (offset <? c).
Qed.

Lemma loop_characters chars : ∀ c, 0 ≤ c → forallb is_character chars = true →
  substring_loop offset len c (concat chars) =
  concat (drop (Z.to_nat (offset - c)) (take (Z.to_nat (offset + len - c)) chars)).
Proof using Ho Hl Hs.
  induction chars as [|ch chars IH]; intros c Hc Hchars; [by rewrite take_nil, drop_nil|].
  cbn [forallb] in Hchars. apply andb_true_iff in Hchars as [Hch Hchars]. destruct ch as [|b bs]; [done|].
  simpl in Hch. apply andb_true_iff in Hch as [Hb Hbs]. cbn [concat app]. rewrite loop_step, Hb. cbv zeta.
  destruct (Z.ltb_spec (offset + len) (c + 1)).
  { replace (Z.to_nat (offset + len - c)) with 0%nat by lia. by rewrite take_0, drop_nil. }
  replace (Z.to_nat (offset + len - c)) with (S (Z.to_nat (offset + len - (c + 1)))) by lia. cbn [take].
  rewrite loop_continuation, IH by (done || lia). destruct (Z.ltb_spec offset (c + 1)).
  - replace (Z.to_nat (offset - c)) with 0%nat by lia. replace (Z.to_nat (offset - (c + 1))) with 0%nat by lia. done.
  - replace (Z.to_nat (offset - c)) with (S (Z.to_nat (offset - (c + 1)))) by lia. done.
Qed.
End substring_loop.

(** [length] and [substring] count characters, not bytes: the length of a
    UTF-8 text is its number of characters, and the substring of [l]
    characters from character [o] on consists of exactly those characters, as
    many as there are. *)
Theorem text_by_characters s chars o l :
  string_bytes s = concat chars → forallb is_character chars = true → Z.of_nat (length chars) < 2 ^ 63 →
  1 ≤ o < 2 ^ 31 → 0 ≤ l < 2 ^ 31 →
  length_cell s = Ok (Num 8 (Z.of_nat (length chars))) ∧
  substring_cell (Str (Some s)) (Num 4 o) (Num 4 l) =
    Ok (Str (Some (bytes_string (concat (take (Z.to_nat l) (drop (Z.to_nat (o - 1)) chars)))))).
Proof.
  intros Hs Hchars Hlen Ho Hl. split.
  - unfold length_cell. rewrite Hs, count_concat by done. cbv zeta.
    assert (in_signed 8 (Z.of_nat (length chars)) = true) as -> by (unfold in_signed; eval_width; lia). done.
  - unfold substring_cell. assert (in_signed 4 (o - 1) = true) as -> by (unfold in_signed; eval_width; lia). cbn [negb].
    rewrite !Z.mod_small, Hs, loop_characters by (done || lia). rewrite Z.sub_0_r, skipn_firstn_comm.
    do 6 f_equal. lia.
Qed.

(** The characters of "déjà" and its substring of two characters from the second on. *)
Lemma text_by_characters_witness :
  let chars := [[100]; [195; 169]; [106]; [195; 160]] in
  let s := bytes_string (concat chars) in
  length_cell s = Ok (Num 8 4) ∧
  substring_cell (Str (Some s)) (Num 4 2) (Num 4 2) = Ok (Str (Some (bytes_string [195; 169; 106]))).
Proof.
  intros chars s. apply (text_by_characters s chars 2 2); [vm_compute; reflexivity|vm_compute; reflexivity|simpl; lia|lia|lia].
Defined.

(** ** Functions that do not compute row by row *)

(** [concat] with a constant that is NULL: only the row at position 0 is NULL. *)
Lemma concat_null_constant : ∃ null v,
  Vector_Reference (null_of T_VARCHAR) = Ok null ∧ row_value null 1 = None ∧
  concat_function [VectorExample.flat T_VARCHAR [Some (Str (Some "a")); Some (Str (Some "b"))]; null] = Ok v ∧
  row_value v 0 = None ∧ row_value v 1 = Some (Str (Some "b")).
Proof. eexists _, _. split; [reflexivity|]. split; [reflexivity|]. split; [vm_compute; reflexivity|]. split; reflexivity. Qed.

(** [substring] from character 0: the check for a negative offset compares an
    unsigned number, so the result is empty. *)
Lemma substring_from_zero : substring_cell (Str (Some "hello")) (Num 4 0) (Num 4 2) = Ok (Str (Some EmptyString)).
Proof. vm_compute. reflexivity. Qed.

(** [abs] of the smallest number of a narrow type is negative. *)
Lemma abs_tinyint_minimum : Abs_Operation T_TINYINT (Num 1 (-128)) = Ok (Num 1 (-128)).
Proof. reflexivity. Qed.

(** ** Parts of a date *)

Inductive SpecifierType : Type :=
| S_YEAR | S_MONTH | S_DAY | S_DECADE | S_CENTURY | S_MILLENIUM | S_MICROSECONDS | S_MILLISECONDS | S_SECOND | S_MINUTE
| S_HOUR | S_EPOCH | S_DOW | S_ISODOW | S_WEEK | S_QUARTER | S_DOY.

(** The names of the specifiers, in the order they are tried. *)
Definition specifiers : list (string * SpecifierType) :=
  [("year", S_YEAR); ("month", S_MONTH); ("day", S_DAY); ("decade", S_DECADE); ("century", S_CENTURY);
   ("millennium", S_MILLENIUM); ("microseconds", S_MICROSECONDS); ("milliseconds", S_MILLISECONDS); ("second", S_SECOND);
   ("minute", S_MINUTE); ("hour", S_HOUR); ("epoch", S_EPOCH); ("dow", S_DOW); ("isodow", S_ISODOW); ("week", S_WEEK);
   ("doy", S_DOY); ("quarter", S_QUARTER)]%string.

Definition GetSpecifierType (specifier : string) : result SpecifierType :=
  match list_find (fun p => strtolower specifier = fst p) specifiers with
  | Some (_, (_, t)) => Ok t
  | None => Throw ConversionException
  end.

Definition extract_element (type : SpecifierType) (element : Z) : result Z :=
  match type with
  | S_YEAR => Date_ExtractYear element
  | S_MONTH => Date_ExtractMonth element
  | S_DAY => Date_ExtractDay element
  | S_DECADE => y ← Date_ExtractYear element; Ok (Z.quot y 10)
  | S_CENTURY => y ← Date_ExtractYear element; Ok (Z.quot (y - 1) 100 + 1)
  | S_MILLENIUM => y ← Date_ExtractYear element; Ok (Z.quot (y - 1) 1000 + 1)
  | S_QUARTER => m ← Date_ExtractMonth element; Ok (Z.quot m 4)
  | S_EPOCH => Date_Epoch element
  | S_DOW => Ok (Z.rem (Date_ExtractISODayOfTheWeek element) 7)
  | S_ISODOW => Ok (Date_ExtractISODayOfTheWeek element)
  | S_DOY => Date_ExtractDayOfTheYear element
  | S_WEEK => Date_ExtractWeekNumber element
  | S_MICROSECONDS | S_MILLISECONDS | S_SECOND | S_MINUTE | S_HOUR => Ok 0
  end.

(** The quarter of a day in March is 0, of one in December 3. *)
Lemma quarter_of_march :
  (d ← Date_FromDate 2000 3 15; extract_element S_QUARTER d) = Ok 0 ∧
  (d ← Date_FromDate 2000 12 15; extract_element S_QUARTER d) = Ok 3.
Proof. split; vm_compute; reflexivity. Qed.

(** The names are read in any case. *)
Lemma specifier_case : GetSpecifierType "Quarter" = Ok S_QUARTER ∧ GetSpecifierType "fortnight" = Throw ConversionException.
Proof. split; vm_compute; reflexivity. Qed.
