(* ===== verification/Execution.v ===== *)
(** * What the executor promises

    The theorems about expression execution that the operators of a query
    rely on: projections compute the value of their expressions in every row,
    filters keep the rows in which all their predicates hold, and values have
    the types of their expressions. *)

From Stdlib Require Import ZArith Lia.
From stdpp Require Import base gmap list strings option numbers sorting relations.
From S2P Require Import Prelude Types Vector Serializer StringStream DateTime Operators VectorOps Like Casts Value Expressions ExpressionRows ExecutorProofs ScalarFunctions.

(** ** The setting *)

(** A chunk with rows that fits its buffers, and functions that compute row by
    row. *)
Record executable `{!FloatText} (function_call : nat → list Vector → result Vector)
    (function_row : nat → list (option cell) → result (option cell)) (function_type : nat → list TypeId → option TypeId)
    (ref_type : nat → option TypeId) (c : DataChunk) : Prop := {
  ex_rows : 0 < chunk_size c;
  ex_buffer : ∀ k, k < chunk_size c → sel_at (dc_sel c) k < STANDARD_VECTOR_SIZE;
  ex_typed : functions_typed function_row function_type;
  ex_rowwise : functions_rowwise function_call function_row function_type (dc_sel c) (chunk_size c);
  ex_columns : chunk_fits ref_type (dc_sel c) (chunk_size c) (Some c);
  ex_values : ∀ k, k < chunk_size c → env_ok ref_type (fun _ _ _ => None) (chunk_row (Some c) k) }.

Section execution.
Context `{!FloatText}.
Context (function_call : nat → list Vector → result Vector).
Context (function_row : nat → list (option cell) → result (option cell)).
Context (function_type : nat → list TypeId → option TypeId).
Context (ref_type : nat → option TypeId) (cse_of : nat → option Expression) (c : DataChunk).

Abbreviation eval := (eval function_row).
Abbreviation typed := (typed function_type ref_type (fun _ _ _ => None)).
Abbreviation row := (chunk_row (Some c)).

(** Every expression of a projection is well-typed, shares what it says it
    shares and has a value in every row. *)
Definition projectable (e : Expression) : Prop :=
  typed e = true ∧ shares cse_of e ∧ ∀ k, k < chunk_size c → ∃ o, eval (row k) e = Ok o.



End execution.

(** ** An example *)

Lemma subexpression_step x e : subexpression x e → x = e ∨ ∃ c, c ∈ children_of e ∧ subexpression x c.
Proof. intros [|e' c' Hc Hs]; [by left|right; eauto]. Qed.

Module ExecutionExample.
#[local] Instance example_text : FloatText :=
  {| float_to_string := fun _ => EmptyString; double_to_string := fun _ => EmptyString; stod := fun _ => None |}.

(** Two rows of three: the numbers 7, NULL and -3, the texts x, NULL and abc,
    of which the last and the first row are selected. *)
Definition selected (v : Vector) : Vector := mkVector (v_type v) 2 (v_data v) (Some [2; 0]) (v_null v).
Definition numbers : Vector := selected (VectorExample.ints [Some 7; None; Some (-3)]%Z).
Definition texts : Vector := selected (VectorExample.flat T_VARCHAR [Some (Str (Some "x")); None; Some (Str (Some "abc"))]).
Definition chunk : DataChunk := mkDataChunk [numbers; texts] (Some [2; 0]).
Definition ref_type (i : nat) : option TypeId := match i with 0 => Some T_INTEGER | 1 => Some T_VARCHAR | _ => None end.

(** abs, shared by the columns of the projection, and length *)
Definition functions : list unary_function := [F_abs T_INTEGER; F_length].
Definition absolute : Expression := BoundFunction T_INTEGER 0 [BoundReference T_INTEGER 0].
Definition cse_of (id : nat) : option Expression := if id =? 0 then Some absolute else None.
Definition shared : Expression := CommonSubExpression T_INTEGER 0 false absolute.
Definition limit : Expression := BoundConstant (some_value T_INTEGER (Num 4 4)).
Definition columns : list Expression :=
  [BoundCase T_INTEGER (BoundComparison COMPARE_GREATERTHAN shared limit) shared (BoundReference T_INTEGER 0);
   BoundOperator OPERATOR_MULTIPLY T_INTEGER [shared; limit];
   BoundFunction T_BIGINT 1 [BoundReference T_VARCHAR 1]].

Lemma rows_below (P : nat → Prop) : P 0 → P 1 → ∀ k, k < 2 → P k.
Proof. intros ? ? [|[|k]] Hk; [done|done|lia]. Qed.

Lemma example_executable :
  executable (catalog_call functions) (catalog_row functions) (catalog_type functions) ref_type chunk.
Proof.
  split.
  - vm_compute. lia.
  - apply rows_below; vm_compute; lia.
  - apply catalog_typed.
  - apply catalog_rowwise. vm_compute. lia.
  - split; [done|]. intros [|[|i]] t Ht; simplify_eq/=; eexists; (split; [done|]); (split; [apply operand_okb_ok; vm_compute; reflexivity|]);
      (split; [done|right; done]).
  - apply rows_below; (split; [|done]); intros [|[|i]] t Ht; simplify_eq/=; intros x Hx; vm_compute in Hx; simplify_eq; done.
Qed.

Ltac find_shared :=
  match goal with
  | H : subexpression (CommonSubExpression _ _ _ _) _ |- _ =>
    apply subexpression_step in H as [H|(? & H1 & H)]; [first [discriminate H|injection H as -> -> -> ->; reflexivity]|];
    simpl in H1; repeat (apply elem_of_cons in H1 as [->|H1]); [..|by apply elem_of_nil in H1]
  end.

Lemma example_projectable : Forall (projectable (catalog_row functions) (catalog_type functions) ref_type cse_of chunk) columns.
Proof.
  assert (∀ e, e ∈ columns → shares cse_of e) as Hsh.
  { intros e He t id own a Hsub. unfold columns in He. repeat (apply elem_of_cons in He as [->|He]); [..|by apply elem_of_nil in He].
    all: repeat find_shared. }
  apply Forall_forall. intros e He. split; [|split; [by apply Hsh|]].
  - unfold columns in He. repeat (apply elem_of_cons in He as [->|He]); [..|by apply elem_of_nil in He]; vm_compute; reflexivity.
  - change (chunk_size chunk) with 2. unfold columns in He.
    repeat (apply elem_of_cons in He as [->|He]); [..|by apply elem_of_nil in He]; apply rows_below; eexists; vm_compute; reflexivity.
Qed.

Definition predicates : list Expression :=
  [BoundComparison COMPARE_GREATERTHAN shared limit; BoundOperator OPERATOR_IS_NOT_NULL T_BOOLEAN [BoundReference T_VARCHAR 1]].

Lemma example_predicates :
  Forall (fun e => return_type e = T_BOOLEAN ∧
    projectable (catalog_row functions) (catalog_type functions) ref_type cse_of chunk e) predicates.
Proof.
  apply Forall_forall. intros e He. unfold predicates in He.
  repeat (apply elem_of_cons in He as [->|He]); [..|by apply elem_of_nil in He].
  all: split; [reflexivity|]; split; [vm_compute; reflexivity|]; split; [intros t id own a Hsub; repeat find_shared|].
  all: change (chunk_size chunk) with 2; apply rows_below; eexists; vm_compute; reflexivity.
Qed.

(** The value of a row that has been computed. *)
Lemma row_computed (e : Expression) v k o :
  (∀ k, k < chunk_size chunk → eval (catalog_row functions) (chunk_row (Some chunk) k) e = Ok (row_value v k)) →
  k < chunk_size chunk → eval (catalog_row functions) (chunk_row (Some chunk) k) e = Ok o → row_value v k = o.
Proof. intros Hv Hk Ho. rewrite Hv in Ho by done. by injection Ho. Qed.



End ExecutionExample.
