(* ===== verification/QueryExecution.v ===== *)
(** * Executing a query

    The operators composed: a tree of operators as it is built by the planner
    is pulled until the first empty chunk, and returns the rows of the
    relational expression it stands for.  The fuel of the loops is enough when
    it exceeds the number of chunks of every child; more fuel does not change a
    result. *)

From Stdlib Require Import ZArith Lia.
From stdpp Require Import base gmap list strings option numbers sorting relations.
From S2P Require Import Prelude Types Vector Serializer StringStream DateTime KeyTuples Operators VectorOps Like Casts Value Expressions ExpressionRows ExecutorProofs ChunkCollection ChunkSort PhysicalOperators OperatorRows OperatorProofs ScalarFunctions Execution.

(** ** More fuel does not change a result *)

Definition extends {S A} (f g : S → result A) : Prop := ∀ s x, f s = Ok x → g s = Ok x.

Lemma yields_extends {S} ts (next next' : S → result (DataChunk * S)) n st l : extends next next' → yields ts next n st l → yields ts next' n st l.
Proof. intros He. induction 1; [eapply yields_end|eapply yields_chunk]; eauto. Qed.

(** The first call in the goal is one of the smaller computation. *)
Ltac grow Hx := let y := fresh "y" in let Hy := fresh "Hy" in apply bind_Ok in Hx as (y & Hy & Hx).

Section fuel.
Context `{!FloatText} `{!Strcmp} `{!TableSource}.
Context (function_call : nat → list Vector → result Vector).
Context (uninitialised : nat → list nat) (garbage : Z).
Abbreviation puller := (OperatorState → result (DataChunk * OperatorState)).
Abbreviation GetChunk := (GetChunk function_call false uninitialised garbage).

Lemma Filter_extends (next next' : puller) es fuel fuel' chunk s x : extends next next' → fuel ≤ fuel' →
  Filter_GetChunk function_call fuel next es chunk s = Ok x → Filter_GetChunk function_call fuel' next' es chunk s = Ok x.
Proof.
  intros He. revert fuel' chunk s. induction fuel as [|fuel IH]; intros fuel' chunk s Hf Hx; [done|]. destruct fuel' as [|fuel']; [lia|]. cbn [Filter_GetChunk] in *.
  grow Hx. destruct y as [c s']. rewrite (He _ _ Hy). run. destruct (chunk_size c =? 0); [done|].
  grow Hx. rewrite Hy0. run. grow Hx. rewrite Hy1. run. grow Hx. rewrite Hy2. run. grow Hx. rewrite Hy3. run.
  destruct (chunk_size y2 =? 0); [|done]. apply IH; [lia|done].
Qed.

Lemma materialize_extends (next next' : puller) fuel fuel' s data x : extends next next' → fuel ≤ fuel' →
  materialize fuel next s data = Ok x → materialize fuel' next' s data = Ok x.
Proof.
  intros He. revert fuel' s data. induction fuel as [|fuel IH]; intros fuel' s data Hf Hx; [done|]. destruct fuel' as [|fuel']; [lia|]. cbn [materialize] in *.
  grow Hx. destruct y as [c s']. rewrite (He _ _ Hy). run. destruct (chunk_size c =? 0); [done|]. grow Hx. rewrite Hy0. run. apply IH; [lia|done].
Qed.

Lemma cross_step_extends (next next' : puller) chunk s c lp rp rd x : extends next next' →
  cross_step next chunk s c lp rp rd = Ok x → cross_step next' chunk s c lp rp rd = Ok x.
Proof.
  intros He Hx. unfold cross_step in *. destruct (_ <=? lp); [done|]. grow Hx. rewrite Hy. run. grow Hx. rewrite Hy0. run.
  destruct (_ <=? S lp); [|done]. destruct (_ <=? S rp); [|done]. grow Hx. by rewrite (He _ _ Hy1).
Qed.

Lemma CrossProduct_extends (next next' next_right next_right' : puller) fuel fuel' st chunk s c lp rp rd x : extends next next' → extends next_right next_right' → fuel ≤ fuel' →
  CrossProduct_GetChunk fuel next st next_right chunk s c lp rp rd = Ok x → CrossProduct_GetChunk fuel' next' st next_right' chunk s c lp rp rd = Ok x.
Proof.
  intros He Hr Hf Hx. unfold CrossProduct_GetChunk in *. destruct (_ =? 0); [|by eapply cross_step_extends]. grow Hx. rewrite Hy. run. grow Hx.
  rewrite (materialize_extends _ _ _ _ _ _ _ Hr Hf Hy0). run. destruct y0 as [rd' t]. destruct (_ =? 0); [done|]. grow Hx. rewrite (He _ _ Hy1). run.
  destruct y0 as [c' s']. by eapply cross_step_extends.
Qed.

Lemma Union_extends (top top' bottom bottom' : puller) td s t x : extends top top' → extends bottom bottom' →
  Union_GetChunk top bottom td s t = Ok x → Union_GetChunk top' bottom' td s t = Ok x.
Proof.
  intros Ht Hb Hx. unfold Union_GetChunk in *. grow Hx. destruct y as [[oc td'] s'].
  assert ((if td then Ok (None, true, s) else '(chunk, top_state) ← top' s; Ok (Some chunk, chunk_size chunk =? 0, top_state)) = Ok (oc, td', s')) as ->.
  { destruct td; [done|]. grow Hy. by rewrite (Ht _ _ Hy0). }
  run. destruct oc as [c|]; [destruct td'; [|done]|]; grow Hx; by rewrite (Hb _ _ Hy0).
Qed.

Lemma Limit_extends (next next' : puller) limit offset chunk s cur x : extends next next' →
  Limit_GetChunk next limit offset chunk s cur = Ok x → Limit_GetChunk next' limit offset chunk s cur = Ok x.
Proof. intros He Hx. unfold Limit_GetChunk in *. destruct (_ <=? cur)%Z; [done|]. grow Hx. by rewrite (He _ _ Hy). Qed.

Lemma Order_extends (next next' : puller) fuel fuel' orders chunk s p d v x : extends next next' → fuel ≤ fuel' →
  Order_GetChunk function_call uninitialised fuel next orders chunk s p d v = Ok x → Order_GetChunk function_call uninitialised fuel' next' orders chunk s p d v = Ok x.
Proof.
  intros He Hf Hx. unfold Order_GetChunk in *. destruct (p =? 0); [|done]. grow Hx. grow Hy. destruct y0 as [big s'].
  rewrite (materialize_extends _ _ _ _ _ _ _ He Hf Hy0). run. rewrite Hy. run. done.
Qed.

Lemma Projection_extends (next next' : puller) es chunk s x : extends next next' →
  Projection_GetChunk function_call next es chunk s = Ok x → Projection_GetChunk function_call next' es chunk s = Ok x.
Proof. intros He Hx. unfold Projection_GetChunk in *. grow Hx. rewrite Hy. run. grow Hx. by rewrite (He _ _ Hy0). Qed.

Lemma PruneColumns_extends (next next' : puller) m chunk s x : extends next next' →
  PruneColumns_GetChunk next m chunk s = Ok x → PruneColumns_GetChunk next' m chunk s = Ok x.
Proof. intros He Hx. unfold PruneColumns_GetChunk in *. grow Hx. by rewrite (He _ _ Hy). Qed.

Lemma GetChunk_extends op fuel fuel' chunk : fuel ≤ fuel' → extends (GetChunk fuel op chunk) (GetChunk fuel' op chunk).
Proof.
  intros Hf. revert chunk. induction op; intros chunk s x Hx; cbn [PhysicalOperators.GetChunk] in *; (destruct (finished s); [done|]); destruct s; try done.
  - by eapply Filter_extends.
  - by eapply Projection_extends.
  - by eapply Limit_extends.
  - by eapply PruneColumns_extends.
  - by eapply Union_extends.
  - by eapply CrossProduct_extends.
  - by eapply Order_extends.
Qed.
End fuel.

(** ** Operator trees *)

(** What a table promises to the scans that read it: its rows, chunk by
    chunk. *)
Class TableRows `{!TableSource} : Type := {
  table_rows : nat → list nat → list row → Prop;
  scannable : nat → list nat → list TypeId → Prop;
  table_scans table column_ids ts : scannable table column_ids ts →
    ∃ s n l, initialize_scan table = Ok s ∧ table_rows table column_ids l ∧
      yields ts (scan_table table column_ids (DataChunk_Initialize ts)) n s l }.

Section trees.
Context `{!FloatText} `{!Strcmp} `{!TableSource} `{!TableRows}.
Context (function_call : nat → list Vector → result Vector).
Context (function_row : nat → list (option cell) → result (option cell)).
Context (function_type : nat → list TypeId → option TypeId) (cse_of : nat → option Expression).
Context (uninitialised : nat → list nat) (garbage : Z).

(** The rows an operator computes, as relations on lists. *)
Fixpoint computes (op : PhysicalOperator) (l : list row) : Prop :=
  match op with
  | PhysicalTableScan _ table column_ids => table_rows table column_ids l
  | PhysicalChunkScan _ collection => l = collection_rows collection
  | PhysicalDummyScan _ => l = [[Some (Num 4 garbage)]]
  | PhysicalEmptyResult _ => l = []
  | PhysicalFilter _ es child => ∃ a, computes child a ∧ l = List.filter (passes function_row es) a
  | PhysicalProjection _ es child => ∃ a, computes child a ∧ Forall2 (fun r r' => mapM (eval function_row (row_env_of r)) es = Ok r') a l
  | PhysicalLimit _ limit _ child => ∃ a, computes child a ∧ l = take (Z.to_nat limit) a
  | PhysicalPruneColumns _ m child => ∃ a, computes child a ∧ l = take m <$> a
  | PhysicalUnion _ top bottom => ∃ a b, computes top a ∧ computes bottom b ∧ l = a ++ b
  | PhysicalCrossProduct _ lhs rhs => ∃ a b, computes lhs a ∧ computes rhs b ∧ l ≡ₚ product a b
  | PhysicalOrder _ orders child => ∃ a, computes child a ∧ l ≡ₚ a ∧ StronglySorted (order_le function_row orders) l
  end.

(** Plans as the planner makes them: the types fit together, and the
    expressions are well-typed and have a value in every row they see. *)
Fixpoint plan_wf (op : PhysicalOperator) : Prop :=
  match op with
  | PhysicalTableScan ts table column_ids => column_ids ≠ [] ∧ scannable table column_ids ts
  | PhysicalChunkScan ts collection => collection_ok ts collection
  | PhysicalDummyScan ts => ts = [T_INTEGER]
  | PhysicalEmptyResult ts => True
  | PhysicalFilter ts es child => plan_wf child ∧ ts = op_types child ∧ es ≠ [] ∧ Forall (predicate_ok function_type cse_of ts) es ∧
      ∀ l e r, computes child l → e ∈ es → r ∈ l → has_value function_row e r
  | PhysicalProjection ts es child => plan_wf child ∧ ts = return_type <$> es ∧ es ≠ [] ∧ Forall (expression_ok function_type cse_of (op_types child)) es ∧
      ∀ l e r, computes child l → e ∈ es → r ∈ l → has_value function_row e r
  | PhysicalLimit ts limit offset child => plan_wf child ∧ ts = op_types child ∧ (0 <= limit < 2 ^ 64)%Z ∧ offset = 0%Z
  | PhysicalPruneColumns ts m child => plan_wf child ∧ m ≤ length (op_types child) ∧ ts = take m (op_types child) ∧ ts ≠ []
  | PhysicalUnion ts top bottom => plan_wf top ∧ plan_wf bottom ∧ ts = op_types top ∧ ts = op_types bottom
  | PhysicalCrossProduct ts lhs rhs => plan_wf lhs ∧ plan_wf rhs ∧ ts = op_types lhs ++ op_types rhs
  | PhysicalOrder ts orders child => plan_wf child ∧ ts = op_types child ∧ orders ≠ [] ∧
      Forall (fun o => expression_ok function_type cse_of ts (ob_expression o)) orders ∧ ts ≠ [] ∧ Forall (fun t => set_type t = true) ts ∧
      (T_VARCHAR ∈ key_types orders → small_strcmp) ∧ ∀ l, computes child l → Forall (orderable_row function_row orders) l
  end.

Context (Hfunctions : functions_ok function_call function_row function_type) (Hgarbage : in_range T_INTEGER garbage = true).
Context (Huninit : ∀ n, length (uninitialised n) = n).

Abbreviation GetChunk := (GetChunk function_call false uninitialised garbage).

Definition pull (fuel : nat) (op : PhysicalOperator) : OperatorState → result (DataChunk * OperatorState) := GetChunk fuel op (InitializeChunk op).

(** An operator and the rows it returns. *)
Definition delivers (op : PhysicalOperator) : Prop :=
  ∃ st l n fuel, GetOperatorState op = Ok st ∧ computes op l ∧ yields (op_types op) (pull fuel op) n st l.

Lemma pull_extends op fuel fuel' : fuel ≤ fuel' → extends (pull fuel op) (pull fuel' op).
Proof. apply GetChunk_extends. Qed.

(** Enough fuel for a child and for the loop over its chunks. *)
Lemma delivers_fuel op : delivers op → ∃ st l n fuel, GetOperatorState op = Ok st ∧ computes op l ∧ n < fuel ∧ ∀ fuel', fuel ≤ fuel' → yields (op_types op) (pull fuel' op) n st l.
Proof.
  intros (st & l & n & fuel & Hst & Hl & Hy). exists st, l, n, (S (fuel + n)). split_and!; [done|done|lia|]. intros fuel' Hf.
  eapply yields_extends; [|exact Hy]. apply pull_extends. lia.
Qed.

Lemma reset_op op : DataChunk_Reset (InitializeChunk op) = DataChunk_Initialize (op_types op).
Proof. apply Reset_Initialize. Qed.

(** The calls of an operator are those of its step. *)
Ltac steps_of := let s := fresh "s" in let x := fresh "x" in let Hx := fresh "Hx" in intros s x Hx; unfold pull; cbn [PhysicalOperators.GetChunk]; rewrite ?reset_op; destruct s; try done.

Lemma TableScan_delivers ts table column_ids : plan_wf (PhysicalTableScan ts table column_ids) → delivers (PhysicalTableScan ts table column_ids).
Proof.
  intros [Hne Hs]. destruct (table_scans table column_ids ts Hs) as (s & n & l & Hi & Hl & Hy). exists (TableScanState s), l, n, 0.
  split; [cbn [GetOperatorState]; rewrite Hi; by run|]. split; [done|]. eapply yields_fmap; [|exact Hy]. intros s1 c s2 Hc. unfold pull. cbn [PhysicalOperators.GetChunk finished].
  rewrite reset_op. cbn [op_types]. rewrite (proj2 (Nat.eqb_neq _ _)) by (by destruct column_ids). rewrite Hc. by run.
Qed.

Lemma Filter_delivers ts es child : delivers child → plan_wf (PhysicalFilter ts es child) → delivers (PhysicalFilter ts es child).
Proof using Hfunctions.
  intros (st & l & n & fuel & Hst & Hl & Hlt & Hy)%delivers_fuel (_ & Hts & Hne & Hes & Hval).
  destruct (Filter_yields function_call function_row function_type cse_of Hfunctions ts es (pull fuel child) Hne Hes n st l fuel) as [m Hm]; [rewrite Hts; by apply Hy|by eauto|done|].
  exists (ChildState st), (List.filter (passes function_row es) l), m, fuel. split; [cbn [GetOperatorState]; rewrite Hst; by run|]. split; [by exists l|].
  eapply yields_extends; [|exact Hm]. steps_of.
Qed.

Lemma Projection_delivers ts es child : delivers child → plan_wf (PhysicalProjection ts es child) → delivers (PhysicalProjection ts es child).
Proof using Hfunctions.
  intros (st & l & n & fuel & Hst & Hl & Hlt & Hy)%delivers_fuel (_ & Hts & Hne & Hes & Hval).
  destruct (Projection_yields function_call function_row function_type cse_of Hfunctions (op_types child) es (pull fuel child) n st l Hne Hes) as (l' & Hl' & HR); [by apply Hy|by eauto|].
  exists (ChildState st), l', n, fuel. split; [cbn [GetOperatorState]; rewrite Hst; by run|]. split; [by exists l|]. cbn [op_types]. rewrite Hts.
  eapply yields_extends; [|exact Hl']. steps_of.
Qed.

Lemma Limit_delivers ts limit offset child : delivers child → plan_wf (PhysicalLimit ts limit offset child) → delivers (PhysicalLimit ts limit offset child).
Proof.
  intros (st & l & n & fuel & Hst & Hl & Hlt & Hy)%delivers_fuel (_ & Hts & Hlim & ->).
  destruct (Limit_yields ts (pull fuel child) n st l (Z.to_nat limit) 0) as [m Hm]; [rewrite Hts; by apply Hy|lia|lia|]. rewrite Nat.sub_0_r, Z2Nat.id in Hm by lia.
  exists (LimitState st 0), (take (Z.to_nat limit) l), m, fuel. split; [cbn [GetOperatorState]; rewrite Hst; by run|]. split; [by exists l|].
  eapply yields_extends; [|exact Hm]. steps_of.
Qed.

Lemma PruneColumns_delivers ts m child : delivers child → plan_wf (PhysicalPruneColumns ts m child) → delivers (PhysicalPruneColumns ts m child).
Proof.
  intros (st & l & n & fuel & Hst & Hl & Hlt & Hy)%delivers_fuel (_ & Hm & Hts & Hne). rewrite Hts in Hne.
  destruct (PruneColumns_yields (op_types child) m (pull fuel child) n st l Hm Hne) as (l' & Hl' & ->); [by apply Hy|].
  exists (ChildState st), (take m <$> l), n, fuel. split; [cbn [GetOperatorState]; rewrite Hst; by run|]. split; [by exists l|]. cbn [op_types]. rewrite Hts.
  eapply yields_extends; [|exact Hl']. steps_of.
Qed.

Lemma Union_delivers ts top bottom : delivers top → delivers bottom → plan_wf (PhysicalUnion ts top bottom) → delivers (PhysicalUnion ts top bottom).
Proof.
  intros (s & a & n & f1 & Hs & Ha & _ & Hya)%delivers_fuel (t & b & m & f2 & Ht & Hb & _ & Hyb)%delivers_fuel (_ & _ & Htop & Hbottom).
  set (fuel := f1 + f2). specialize (Hya fuel ltac:(lia)). specialize (Hyb fuel ltac:(lia)). rewrite <- Htop in Hya. rewrite <- Hbottom in Hyb.
  exists (UnionState false false s t), (a ++ b), (n + m), fuel. split; [cbn [GetOperatorState]; rewrite Hs; run; rewrite Ht; by run|]. split; [by exists a, b|].
  eapply yields_extends; [|exact (Union_yields ts _ _ (DataChunk_Initialize ts) n m s t a b Hya Hyb)].
  intros u x. unfold union_scan, pull. cbn [PhysicalOperators.GetChunk]. rewrite reset_op. cbn [op_types]. destruct (finished u); [done|]. destruct u; try done.
  unfold InitializeChunk. by rewrite <- Htop, <- Hbottom.
Qed.

Lemma CrossProduct_delivers ts lhs rhs : delivers lhs → delivers rhs → plan_wf (PhysicalCrossProduct ts lhs rhs) → delivers (PhysicalCrossProduct ts lhs rhs).
Proof.
  intros (s & a & n & f1 & Hs & Ha & _ & Hya)%delivers_fuel (t & b & m & f2 & Ht & Hb & Hlt & Hyb)%delivers_fuel (_ & _ & Hts).
  set (fuel := f1 + f2). specialize (Hya fuel ltac:(lia)). specialize (Hyb fuel ltac:(lia)).
  destruct (CrossProduct_yields (op_types lhs) (op_types rhs) (pull fuel lhs) (pull fuel rhs) n s a m t b fuel (InitializeChunk lhs) Hya Hyb) as (k & out & Hout & Hp); [lia|].
  exists (CrossProductState s (InitializeChunk lhs) 0 0 EmptyCollection), out, k, fuel. split; [cbn [GetOperatorState]; rewrite Hs; by run|]. split; [by exists a, b|].
  cbn [op_types]. rewrite Hts. eapply yields_extends; [|exact Hout]. steps_of. by rewrite Ht.
Qed.

Lemma Order_delivers ts orders child : delivers child → plan_wf (PhysicalOrder ts orders child) → delivers (PhysicalOrder ts orders child).
Proof using Hfunctions Huninit.
  intros (st & l & n & fuel & Hst & Hl & Hlt & Hy)%delivers_fuel (_ & Hts & Hne & Hex & Htne & Hset & Hstr & Hrows).
  destruct (Order_yields function_call function_row function_type cse_of uninitialised Hfunctions ts orders Hne Hex Htne Hset Huninit Hstr (pull fuel child) n st l fuel)
    as (m & out & Hout & Hp & Hso); [rewrite Hts; by apply Hy|by apply Hrows|done|].
  exists (OrderState st 0 EmptyCollection []), out, m, fuel. split; [cbn [GetOperatorState]; rewrite Hst; by run|]. split; [by exists l|].
  eapply yields_extends; [|exact Hout]. steps_of.
Qed.

(** Every well-formed tree delivers its rows. *)
Lemma operators_deliver op : plan_wf op → delivers op.
Proof using Hfunctions Hgarbage Huninit.
  induction op as [ts table cols|ts col|ts|ts|ts es child IH|ts es child IH|ts limit offset child IH|ts m child IH|ts top IHt bottom IHb|ts lhs IHl rhs IHr|ts orders child IH]; intros Hwf.
  - by apply TableScan_delivers.
  - exists (ChunkScanState 0), (collection_rows col), (length (cc_chunks col)), 0. split; [done|]. split; [done|].
    pose proof (ChunkScan_yields ts col 0 Hwf ltac:(lia)) as Hy. rewrite Nat.sub_0_r, drop_0 in Hy. eapply yields_extends; [|exact Hy]. steps_of.
  - cbn in Hwf. subst ts. exists (LeafState false), [[Some (Num 4 garbage)]], 1, 0. split; [done|]. split; [done|]. eapply yields_extends; [|by apply DummyScan_yields].
    intros s x. unfold dummy_scan, pull. cbn [PhysicalOperators.GetChunk]. rewrite reset_op. cbn [op_types]. by destruct s as [| |[]| | | | |].
  - exists (LeafState false), [], 0, 0. split; [done|]. split; [done|]. eapply yields_end; [done|]. rewrite reset_op. apply Initialize_size.
  - apply Filter_delivers; [apply IH, Hwf|done].
  - apply Projection_delivers; [apply IH, Hwf|done].
  - apply Limit_delivers; [apply IH, Hwf|done].
  - apply PruneColumns_delivers; [apply IH, Hwf|done].
  - apply Union_delivers; [apply IHt, Hwf|apply IHb, Hwf|done].
  - apply CrossProduct_delivers; [apply IHl, Hwf|apply IHr, Hwf|done].
  - apply Order_delivers; [apply IH, Hwf|done].
Qed.

(** ** Running a query *)

(** [ClientContext::FetchInternal], and the loop of [ExecuteStatementInternal]
    that collects the result of a query. *)
Definition execute_plan (fuel : nat) (op : PhysicalOperator) : result ChunkCollection :=
  physical_state ← GetOperatorState op;
  '(collection, _) ← materialize fuel (GetChunk fuel op (InitializeChunk op)) physical_state EmptyCollection;
  Ok collection.

Lemma execute_plan_rows op : plan_wf op →
  ∃ l fuel, computes op l ∧ ∀ fuel', fuel ≤ fuel' → ∃ collection, execute_plan fuel' op = Ok collection ∧
    collection_ok (op_types op) collection ∧ collection_rows collection = l.
Proof using Hfunctions Hgarbage Huninit.
  intros (st & l & n & fuel & Hst & Hl & Hlt & Hy)%operators_deliver%delivers_fuel. exists l, fuel. split; [done|]. intros fuel' Hf.
  destruct (materialize_spec (op_types op) (pull fuel' op) n st l fuel' EmptyCollection (Hy fuel' Hf) (EmptyCollection_ok _)) as (col & st' & Hm & Hok & Hrows); [lia|].
  exists col. split; [|done]. unfold execute_plan. rewrite Hst. run. unfold pull in Hm. rewrite Hm. by run.
Qed.
End trees.


(** ** Examples *)

Module QueryExample.
#[local] Instance example_text : FloatText :=
  {| float_to_string := fun _ => EmptyString; double_to_string := fun _ => EmptyString; stod := fun _ => None |}.
#[local] Existing Instance SortExample.sign_strcmp.
(** No tables. *)
#[local] Instance no_tables : TableSource :=
  {| scan_state := unit; initialize_scan := fun _ => Throw CatalogException; scan_table := fun _ _ _ _ => Undef |}.
#[local] Instance no_rows : TableRows.
Proof. refine {| table_rows := fun _ _ _ => False; scannable := fun _ _ _ => False |}. done. Defined.

Definition no_cse (_ : nat) : option Expression := None.
Definition uninitialised (n : nat) : list nat := repeat 7 n.

Abbreviation function_call := (catalog_call []).
Abbreviation function_row := (catalog_row []).
Abbreviation function_type := (catalog_type []).

(** Rows of an INTEGER and a VARCHAR column. *)
Definition scan_of (numbers : list (option Z)) (names : list string) : PhysicalOperator :=
  let chunk := SortExample.example_chunk numbers names in
  PhysicalChunkScan SortExample.example_types (mkCollection (chunk_size chunk) [chunk] SortExample.example_types).

Definition people : PhysicalOperator := scan_of [Some 3; None; Some 1; Some 3]%Z ["d"; "c"; "b"; "a"]%string.
Definition others : PhysicalOperator := scan_of [Some 2; Some 0]%Z ["f"; "e"]%string.

Definition number : Expression := BoundReference T_INTEGER 0.
Definition name : Expression := BoundReference T_VARCHAR 1.
Definition positive : Expression := BoundComparison COMPARE_GREATERTHAN number (BoundConstant (some_value T_INTEGER (Num 4 0))).

(** [SELECT * FROM (people UNION ALL others) WHERE number > 0 ORDER BY number, name DESC] *)
Definition filtered : PhysicalOperator :=
  PhysicalFilter SortExample.example_types [positive] (PhysicalUnion SortExample.example_types people others).
Definition orders : list BoundOrderByNode := [mkOrderBy ORDER_ASCENDING number; mkOrderBy ORDER_DESCENDING name].
Definition query : PhysicalOperator := PhysicalOrder SortExample.example_types orders filtered.

Lemma example_functions : functions_ok function_call function_row function_type.
Proof. split; [apply catalog_typed|]. intros sel n Hn. by apply catalog_rowwise. Qed.

Lemma scan_wf numbers names :
  SortExample.typed_chunkb SortExample.example_types (SortExample.example_chunk numbers names) = true →
  0 < chunk_size (SortExample.example_chunk numbers names) → plan_wf function_row function_type no_cse 0 (scan_of numbers names).
Proof.
  intros Hc%SortExample.typed_chunkb_ok Hp. split; cbn [cc_chunks cc_types cc_count]; [done| | |].
  - by apply Forall_singleton.
  - intros i c Hi Hlt. simpl in Hlt. lia.
  - unfold collection_rows. cbn [cc_chunks fmap list_fmap concat]. by rewrite app_nil_r, chunk_rows_length.
Qed.

Definition has_valueb (e : Expression) (r : row) : bool := match eval function_row (row_env_of r) e with Ok _ => true | _ => false end.

Lemma has_valueb_ok e r : has_valueb e r = true → has_value function_row e r.
Proof. unfold has_valueb. destruct (eval _ _ _) as [o| |] eqn:E; try done. by exists o. Qed.

Definition sortable_rowb (os : list BoundOrderByNode) (r : row) : bool :=
  match sort_key function_row os r with Ok k => SortExample.orderable_rowb (key_types os) k | _ => false end.

Lemma sortable_rowb_ok os r : sortable_rowb os r = true → orderable_row function_row os r.
Proof. unfold sortable_rowb. destruct (sort_key _ _ _) as [k| |] eqn:E; try done. intros Hk%SortExample.orderable_rowb_ok. by exists k. Qed.

Lemma filtered_wf : plan_wf function_row function_type no_cse 0 filtered.
Proof.
  split; [split_and!; [apply scan_wf; [by vm_compute|by apply Nat.ltb_lt]|apply scan_wf; [by vm_compute|by apply Nat.ltb_lt]|done|done]|].
  split_and!; [done|done|apply Forall_singleton; split; [split; [by vm_compute|]|done]|].
  - intros t id own a Hs. repeat (apply subexpression_step in Hs as [[=]|(c & Hc & Hs)]; repeat (apply elem_of_cons in Hc as [->|Hc]; [|]); try (by apply elem_of_nil in Hc)).
    all: by apply subexpression_step in Hs as [[=]|(c & Hc & Hs)].
  - intros l e r (a & b & -> & -> & ->) ->%list_elem_of_singleton Hr. apply has_valueb_ok.
    assert (forallb (has_valueb positive) (collection_rows (mkCollection 4 [SortExample.example_chunk [Some 3; None; Some 1; Some 3]%Z ["d"; "c"; "b"; "a"]%string] SortExample.example_types) ++
      collection_rows (mkCollection 2 [SortExample.example_chunk [Some 2; Some 0]%Z ["f"; "e"]%string] SortExample.example_types)) = true) as Hall by (by vm_compute).
    rewrite forallb_forall in Hall. by apply Hall, list_elem_of_In.
Qed.

Lemma query_wf : plan_wf function_row function_type no_cse 0 query.
Proof.
  split; [exact filtered_wf|]. split_and!; [done|done| |done|by repeat constructor| |].
  - repeat (apply Forall_cons_2; [split; [by vm_compute|]; intros t id own a Hs; by apply subexpression_step in Hs as [[=]|(c & Hc%elem_of_nil & Hs)]|]). constructor.
  - intros _ s t. unfold strcmp, SortExample.sign_strcmp. by destruct (lex_compare _ _).
  - intros l (a & (b & d & -> & -> & ->) & ->). apply Forall_forall. intros r Hr. apply sortable_rowb_ok.
    assert (forallb (sortable_rowb orders) (List.filter (passes function_row [positive])
      (collection_rows (mkCollection 4 [SortExample.example_chunk [Some 3; None; Some 1; Some 3]%Z ["d"; "c"; "b"; "a"]%string] SortExample.example_types) ++
       collection_rows (mkCollection 2 [SortExample.example_chunk [Some 2; Some 0]%Z ["f"; "e"]%string] SortExample.example_types))) = true) as Hall by (by vm_compute).
    rewrite forallb_forall in Hall. by apply Hall, list_elem_of_In.
Qed.


(** The rows of a result. *)
Definition result_rows (r : result ChunkCollection) : option (list row) := match r with Ok col => Some (collection_rows col) | _ => None end.

Abbreviation text s := (Some (Str (Some s%string))).
Abbreviation int z := (Some (Num 4 z%Z)).

Lemma query_rows : result_rows (execute_plan function_call uninitialised 0 5 query) =
  Some [[int 1; text "b"]; [int 2; text "f"]; [int 3; text "d"]; [int 3; text "a"]].
Proof. by vm_compute. Qed.

(** Six rows in chunks of four and two rows. *)
Definition both : PhysicalOperator := PhysicalUnion SortExample.example_types people others.

(** An offset past the first chunk makes the operator return an empty chunk,
    and the result is empty. *)
Lemma offset_past_first_chunk :
  result_rows (execute_plan function_call uninitialised 0 5 (PhysicalLimit SortExample.example_types 10 5 both)) = Some [] ∧
  result_rows (execute_plan function_call uninitialised 0 5 (PhysicalLimit SortExample.example_types 10 0 both)) =
    Some [[int 3; text "d"]; [None; text "c"]; [int 1; text "b"]; [int 3; text "a"]; [int 2; text "f"]; [int 0; text "e"]].
Proof. by vm_compute. Qed.

(** An offset within a chunk moves the values, but not the NULLs: the second
    row was (NULL, c) and the third (1, b). *)
Lemma offset_moves_values_only :
  result_rows (execute_plan function_call uninitialised 0 5 (PhysicalLimit SortExample.example_types 2 1 people)) =
    Some [[int 0; text "c"]; [None; text "b"]].
Proof. by vm_compute. Qed.

(** Nor does it move the selection vector of a filter: the rows (3, d), (1, b)
    and (3, a) pass, and instead of the last two of them the rows after the first
    two of them in the table come out, with the NULL of the first as a number. *)
Lemma offset_ignores_selection :
  result_rows (execute_plan function_call uninitialised 0 5
    (PhysicalLimit SortExample.example_types 2 1 (PhysicalFilter SortExample.example_types [positive] people))) =
    Some [[int 0; text "c"]; [int 3; text "a"]].
Proof. by vm_compute. Qed.
End QueryExample.
