(* ===== verification/Matchers.v ===== *)
(** * Pattern matching on expressions

    Models [src/src/optimizer/matcher/] and the headers of
    [src/src/include/optimizer/matcher/]: a matcher decides whether an
    expression has a shape and collects the subexpressions it bound.  Rules
    compare the bound subexpressions by address, so a binding carries its path
    from the matched expression. *)

From Stdlib Require Import ZArith Lia.
From stdpp Require Import base gmap list strings option numbers sorting relations.
From S2P Require Import Prelude Types Vector Serializer Operators VectorOps Casts Value Expressions.

(** ** Equality of expressions *)

Inductive ExpressionClass : Type :=
| C_BOUND_REF | C_BOUND_COLUMN_REF | C_BOUND_CONSTANT | C_BOUND_PARAMETER | C_BOUND_DEFAULT | C_BOUND_CASE | C_BOUND_CAST
| C_BOUND_COMPARISON | C_BOUND_CONJUNCTION | C_BOUND_OPERATOR | C_BOUND_FUNCTION | C_BOUND_AGGREGATE | C_BOUND_WINDOW
| C_BOUND_SUBQUERY | C_COMMON_SUBEXPRESSION.

#[export] Instance ExpressionClass_eq_dec : EqDecision ExpressionClass.
Proof. solve_decision. Defined.

Definition GetExpressionClass (e : Expression) : ExpressionClass :=
  match e with
  | BoundReference _ _ => C_BOUND_REF
  | BoundColumnRef _ _ _ _ => C_BOUND_COLUMN_REF
  | BoundConstant _ => C_BOUND_CONSTANT
  | BoundParameter _ _ _ => C_BOUND_PARAMETER
  | BoundDefault _ => C_BOUND_DEFAULT
  | BoundCase _ _ _ _ => C_BOUND_CASE
  | BoundCast _ _ _ _ => C_BOUND_CAST
  | BoundComparison _ _ _ => C_BOUND_COMPARISON
  | BoundConjunction _ _ _ => C_BOUND_CONJUNCTION
  | BoundOperator _ _ _ => C_BOUND_OPERATOR
  | BoundFunction _ _ _ => C_BOUND_FUNCTION
  | BoundAggregate _ _ _ => C_BOUND_AGGREGATE
  | BoundWindow _ _ _ _ => C_BOUND_WINDOW
  | BoundSubquery _ _ => C_BOUND_SUBQUERY
  | CommonSubExpression _ _ _ _ => C_COMMON_SUBEXPRESSION
  end.

(** [a && b] of calls that can throw. *)
Definition and_then (a b : result bool) : result bool := x ← a; if x : bool then b else Ok false.
Definition or_else (a b : result bool) : result bool := x ← a; if x : bool then Ok true else b.

Section equality.
Context `{!FloatText}.

(** [Expression::Equals]: the class and the type first, then what the class
    compares.  The target of a cast, the return type of an operator and the
    number of a parameter are not compared. *)
Fixpoint Equals (a b : Expression) {struct a} : result bool :=
  if negb (bool_decide (GetExpressionClass a = GetExpressionClass b)) || negb (bool_decide (expression_type a = expression_type b))
  then Ok false
  else
    let all_equal := fix all_equal (l m : list Expression) {struct l} : result bool :=
      match l, m with
      | [], [] => Ok true
      | x :: l', y :: m' => and_then (Equals x y) (all_equal l' m')
      | _, _ => Ok false
      end in
    match a, b with
    | BoundReference _ i, BoundReference _ j => Ok (i =? j)
    | BoundColumnRef _ i j d, BoundColumnRef _ i' j' d' => Ok ((i =? i') && (j =? j') && (d =? d'))
    | BoundConstant v, BoundConstant w => Value_Equals v w
    | BoundParameter _ _ _, BoundParameter _ _ _ | BoundDefault _, BoundDefault _ => Ok true
    | BoundCase _ c x y, BoundCase _ c' x' y' => and_then (Equals c c') (and_then (Equals x x') (Equals y y'))
    | BoundCast _ x _ _, BoundCast _ x' _ _ => Equals x x'
    | BoundComparison _ x y, BoundComparison _ x' y' => and_then (Equals x x') (Equals y y')
    | BoundConjunction _ x y, BoundConjunction _ x' y' =>
      or_else (and_then (Equals x x') (Equals y y')) (and_then (Equals x y') (Equals y x'))
    | BoundOperator _ _ l, BoundOperator _ _ m => if (length l =? length m) then all_equal l m else Ok false
    | BoundFunction _ f l, BoundFunction _ g m => if (f =? g) && (length l =? length m) then all_equal l m else Ok false
    | BoundAggregate _ _ l, BoundAggregate _ _ m => all_equal l m
    | BoundWindow _ _ f l, BoundWindow _ _ g m => if f =? g then all_equal l m else Ok false
    | CommonSubExpression _ id _ _, CommonSubExpression _ id' _ _ => Ok (id =? id')
    | _, _ => Ok false
    end.

(** [Copy]: subqueries and common subexpressions cannot be copied; the copy
    of a parameter has neither its type nor its value. *)
Fixpoint Copy (e : Expression) : result Expression :=
  let copy_all := fix copy_all (l : list Expression) : result (list Expression) :=
    match l with [] => Ok [] | x :: l' => y ← Copy x; m ← copy_all l'; Ok (y :: m) end in
  match e with
  | BoundReference _ _ | BoundColumnRef _ _ _ _ | BoundConstant _ | BoundDefault _ => Ok e
  | BoundParameter _ nr _ => Ok (BoundParameter T_INVALID nr None)
  | BoundCase t c x y => c ← Copy c; x ← Copy x; y ← Copy y; Ok (BoundCase t c x y)
  | BoundCast t x source_type target_type => x ← Copy x; Ok (BoundCast t x source_type target_type)
  | BoundComparison type x y => x ← Copy x; y ← Copy y; Ok (BoundComparison type x y)
  | BoundConjunction type x y => x ← Copy x; y ← Copy y; Ok (BoundConjunction type x y)
  | BoundOperator type t l => l ← copy_all l; Ok (BoundOperator type t l)
  | BoundFunction t f l => l ← copy_all l; Ok (BoundFunction t f l)
  | BoundAggregate type t l => l ← copy_all l; Ok (BoundAggregate type t l)
  | BoundWindow type t frame l => l ← copy_all l; Ok (BoundWindow type t frame l)
  | BoundSubquery _ _ | CommonSubExpression _ _ _ _ => Throw SerializationException
  end.

(** ** Matchers of sets *)

Inductive Policy : Type := ORDERED | UNORDERED | SOME.

#[export] Instance Policy_eq_dec : EqDecision Policy.
Proof. solve_decision. Defined.

Section sets.
Context {T : Type}.

(** A matcher adds what it binds to the bindings and can leave some behind
    when it fails. *)
Definition matcher : Type := T → M (list T) bool.

(** Every matcher has to match an entry of its own. *)
Fixpoint MatchRecursive (matchers : list matcher) (entries : list T) (excluded_entries : gset nat) : M (list T) bool :=
  match matchers with
  | [] => mret true
  | m :: matchers' =>
    bindings ← get_M;
    let previous_binding_count := length bindings in
    (fix try_entries (e_idx : nat) (es : list T) : M (list T) bool :=
       match es with
       | [] => mret false
       | e :: es' =>
         if bool_decide (e_idx ∈ excluded_entries) then try_entries (S e_idx) es'
         else
           matches ← m e;
           if matches : bool then
             found ← MatchRecursive matchers' entries ({[e_idx]} ∪ excluded_entries);
             if found : bool then mret true
             else
               _ ← modify_M (take previous_binding_count);
               try_entries (S e_idx) es'
           else try_entries (S e_idx) es'
       end) 0 entries
  end.

Fixpoint match_in_order (matchers : list matcher) (entries : list T) : M (list T) bool :=
  match matchers, entries with
  | m :: matchers', e :: entries' => ok ← m e; if ok : bool then match_in_order matchers' entries' else mret false
  | _, _ => mret true
  end.

(** [SetMatcher::Match] *)
Definition SetMatch (matchers : list matcher) (entries : list T) (policy : Policy) : M (list T) bool :=
  match policy with
  | ORDERED => if length matchers =? length entries then match_in_order matchers entries else mret false
  | UNORDERED => if length matchers =? length entries then MatchRecursive matchers entries ∅ else mret false
  | SOME => if length entries <? length matchers then mret false else MatchRecursive matchers entries ∅
  end.
End sets.

(** ** Matchers of expressions *)

Inductive TypeMatcher : Type := SpecificTypeMatcher (t : TypeId) | NumericTypeMatcher | IntegerTypeMatcher.
Definition match_type (m : TypeMatcher) (t : TypeId) : bool :=
  match m with
  | SpecificTypeMatcher u => bool_decide (t = u)
  | NumericTypeMatcher => TypeIsNumeric t
  | IntegerTypeMatcher => TypeIsInteger t
  end.

Inductive ExpressionTypeMatcher : Type :=
| SpecificExpressionTypeMatcher (type : ExpressionType)
| ManyExpressionTypeMatcher (types : list ExpressionType)
| ComparisonExpressionTypeMatcher.
Definition match_expression_type (m : ExpressionTypeMatcher) (type : ExpressionType) : bool :=
  match m with
  | SpecificExpressionTypeMatcher u => bool_decide (type = u)
  | ManyExpressionTypeMatcher types => bool_decide (type ∈ types)
  | ComparisonExpressionTypeMatcher =>
    match type with
    | COMPARE_EQUAL | COMPARE_GREATERTHANOREQUALTO | COMPARE_LESSTHANOREQUALTO | COMPARE_LESSTHAN | COMPARE_GREATERTHAN => true
    | _ => false
    end
  end.

(** The fields of [ExpressionMatcher]. *)
Record base_matcher : Type := mkBase {
  m_type : option TypeMatcher;
  m_expr_type : option ExpressionTypeMatcher;
  m_class : option ExpressionClass }.

#[warnings="-register-all"]
Inductive ExpressionMatcher : Type :=
| AnyMatcher (base : base_matcher)
| ExpressionEqualityMatcher (expression : Expression)
| CaseExpressionMatcher (base : base_matcher) (check result_if_true result_if_false : option ExpressionMatcher)
| CastExpressionMatcher (base : base_matcher) (child : option ExpressionMatcher)
| ComparisonExpressionMatcher (base : base_matcher) (matchers : list ExpressionMatcher) (policy : Policy)
| ConjunctionExpressionMatcher (base : base_matcher) (matchers : list ExpressionMatcher) (policy : Policy)
| OperatorExpressionMatcher (base : base_matcher) (matchers : list ExpressionMatcher) (policy : Policy)
| FoldableConstantMatcher
| ConstantFoldingExpressionMatcher.

Definition any_of_class (c : ExpressionClass) : base_matcher := mkBase None None (Some c).
Definition ConstantExpressionMatcher : ExpressionMatcher := AnyMatcher (any_of_class C_BOUND_CONSTANT).

(** A subexpression and its path from the expression that is matched. *)
Record node : Type := mkNode { node_path : list nat; node_expr : Expression }.

Definition children_nodes (n : node) (l : list Expression) : list node := imap (fun i c => mkNode (node_path n ++ [i]) c) l.

Definition bind_node (n : node) : M (list node) bool := _ ← modify_M (fun bindings => bindings ++ [n]); mret true.

Definition match_base (m : base_matcher) (n : node) : M (list node) bool :=
  let e := node_expr n in
  if match m_type m with Some t => negb (match_type t (return_type e)) | None => false end then mret false
  else if match m_expr_type m with Some t => negb (match_expression_type t (expression_type e)) | None => false end then mret false
  else if match m_class m with Some c => negb (bool_decide (c = GetExpressionClass e)) | None => false end then mret false
  else bind_node n.

Definition match_foldable (n : node) : M (list node) bool := if IsFoldable (node_expr n) then bind_node n else mret false.

(** [Match] of the classes of [expression_matcher.cpp]. *)
Fixpoint Match (m : ExpressionMatcher) (n : node) {struct m} : M (list node) bool :=
  let optional (m : option ExpressionMatcher) (c : node) : M (list node) bool :=
    match m with Some m => Match m c | None => mret true end in
  match m with
  | AnyMatcher base => match_base base n
  | ExpressionEqualityMatcher e =>
    equal ← lift_M (Equals e (node_expr n));
    if equal : bool then bind_node n else mret false
  | CaseExpressionMatcher base check result_if_true result_if_false =>
    ok ← match_base base n;
    match ok, node_expr n with
    | true, BoundCase _ c x y =>
      ok ← optional check (mkNode (node_path n ++ [0]) c);
      if negb ok then mret false
      else
        ok ← optional result_if_true (mkNode (node_path n ++ [1]) x);
        if negb ok then mret false else optional result_if_false (mkNode (node_path n ++ [2]) y)
    | _, _ => mret false
    end
  | CastExpressionMatcher base child =>
    ok ← match_base base n;
    match ok, node_expr n with
    | true, BoundCast _ x _ _ => optional child (mkNode (node_path n ++ [0]) x)
    | _, _ => mret false
    end
  | ComparisonExpressionMatcher base matchers policy =>
    ok ← match_base base n;
    match ok, node_expr n with
    | true, BoundComparison _ x y => SetMatch (map Match matchers) (children_nodes n [x; y]) policy
    | _, _ => mret false
    end
  | ConjunctionExpressionMatcher base matchers policy =>
    ok ← match_base base n;
    match ok, node_expr n with
    | true, BoundConjunction _ x y => SetMatch (map Match matchers) (children_nodes n [x; y]) policy
    | _, _ => mret false
    end
  | OperatorExpressionMatcher base matchers policy =>
    ok ← match_base base n;
    match ok, node_expr n with
    | true, BoundOperator _ _ l => SetMatch (map Match matchers) (children_nodes n l) policy
    | _, _ => mret false
    end
  | FoldableConstantMatcher => match_foldable n
  | ConstantFoldingExpressionMatcher =>
    if bool_decide (expression_type (node_expr n) = VALUE_CONSTANT) then mret false else match_foldable n
  end.
End equality.
Arguments matcher : clear implicits.
