(* ===== verification/Rewriting.v ===== *)
(** * Rewriting expressions

    Models [src/src/optimizer/rule/] and
    [src/src/optimizer/expression_rewriter.cpp]: the rules of the optimizer
    and the rewriter that applies them until nothing changes. *)

From Stdlib Require Import ZArith Lia.
From stdpp Require Import base gmap list strings option numbers sorting relations.
From S2P Require Import Prelude Types Vector Serializer Operators VectorOps Casts Value Expressions Matchers.

(** What the application of a rule does: nothing, return a new root, or change
    the expression in place. *)
Inductive outcome : Type := Unchanged | Returned (e : Expression) | ChangedTo (e : Expression).

(** [ComparisonExpression::FlipComparisionExpression] *)
Definition FlipComparisionExpression (type : ExpressionType) : result ExpressionType :=
  match type with
  | COMPARE_NOTEQUAL | COMPARE_EQUAL => Ok type
  | COMPARE_LESSTHAN => Ok COMPARE_GREATERTHAN
  | COMPARE_GREATERTHAN => Ok COMPARE_LESSTHAN
  | COMPARE_LESSTHANOREQUALTO => Ok COMPARE_GREATERTHANOREQUALTO
  | COMPARE_GREATERTHANOREQUALTO => Ok COMPARE_LESSTHANOREQUALTO
  | _ => Throw GenericException
  end.

(** [value_.boolean] of a value that is not NULL *)
Definition value_boolean (v : Value) : result bool :=
  match val_data v with Some (Num _ z) => Ok (negb (z =? 0)%Z) | _ => Undef end.

Section rules.
Context `{!FloatText}.
Context (function_call : nat → list Vector → result Vector).

Record Rule : Type := mkRule { rule_root : ExpressionMatcher; rule_Apply : list node → result outcome }.

(** The expressions of the first two bindings. *)
Definition binding (bindings : list node) (i : nat) : result node := deref (bindings !! i).

(** Is [n] the child [i] of [parent]? *)
Definition is_child (parent : node) (i : nat) (n : node) : bool := bool_decide (node_path n = node_path parent ++ [i]).

(** [ConstantFoldingRule] *)
Definition ConstantFolding_Apply (bindings : list node) : result outcome :=
  root ← binding bindings 0;
  let e := node_expr root in
  _ ← assert_ (IsScalar e && negb (bool_decide (expression_type e = VALUE_CONSTANT)));
  result_value ← EvaluateScalar function_call e;
  _ ← assert_ (bool_decide (val_type result_value = return_type e));
  Ok (Returned (BoundConstant result_value)).

Definition ConstantFoldingRule : Rule := mkRule ConstantFoldingExpressionMatcher ConstantFolding_Apply.

(** [ArithmeticSimplificationRule] *)
Definition ArithmeticSimplification_Apply (bindings : list node) : result outcome :=
  root ← binding bindings 0;
  constant ← binding bindings 1;
  match node_expr root, node_expr constant with
  | BoundOperator type t children, BoundConstant value =>
    let constant_child := if is_child root 0 constant then 0 else 1 in
    let other := c ← deref (children !! (1 - constant_child)); Ok (Returned c) in
    _ ← assert_ (length children =? 2);
    if is_null value then Ok (Returned (BoundConstant (null_of t)))
    else
      match type with
      | OPERATOR_ADD => zero ← Value_eq_num value 0; if zero : bool then other else Ok Unchanged
      | OPERATOR_SUBTRACT =>
        if constant_child =? 1 then zero ← Value_eq_num value 0; if zero : bool then other else Ok Unchanged
        else Ok Unchanged
      | OPERATOR_MULTIPLY => one ← Value_eq_num value 1; if one : bool then other else Ok Unchanged
      | OPERATOR_DIVIDE =>
        if constant_child =? 1 then
          one ← Value_eq_num value 1;
          if one : bool then other
          else zero ← Value_eq_num value 0; if zero : bool then Ok (Returned (BoundConstant (null_of t))) else Ok Unchanged
        else Ok Unchanged
      | _ => Undef
      end
  | _, _ => Undef
  end.

Definition ArithmeticSimplificationRule : Rule :=
  mkRule (OperatorExpressionMatcher
            (mkBase (Some IntegerTypeMatcher)
               (Some (ManyExpressionTypeMatcher [OPERATOR_ADD; OPERATOR_SUBTRACT; OPERATOR_MULTIPLY; OPERATOR_DIVIDE]))
               (Some C_BOUND_OPERATOR))
            [ConstantExpressionMatcher] SOME)
    ArithmeticSimplification_Apply.

(** [CaseSimplificationRule] *)
Definition CaseSimplification_Apply (bindings : list node) : result outcome :=
  root ← binding bindings 0;
  constant_expr ← binding bindings 1;
  _ ← assert_ (IsScalar (node_expr constant_expr));
  constant_value ← EvaluateScalar function_call (node_expr constant_expr);
  condition ← CastAs constant_value T_BOOLEAN;
  holds ← (if is_null condition then Ok false else value_boolean condition);
  match node_expr root with
  | BoundCase _ _ result_if_true result_if_false => Ok (Returned (if holds : bool then result_if_true else result_if_false))
  | _ => Undef
  end.

Definition CaseSimplificationRule : Rule :=
  mkRule (CaseExpressionMatcher (any_of_class C_BOUND_CASE) (Some FoldableConstantMatcher) None None) CaseSimplification_Apply.

(** [ConjunctionSimplificationRule] *)
Definition ConjunctionSimplification_Apply (bindings : list node) : result outcome :=
  root ← binding bindings 0;
  constant_expr ← binding bindings 1;
  _ ← assert_ (IsScalar (node_expr constant_expr));
  value ← EvaluateScalar function_call (node_expr constant_expr);
  constant_value ← CastAs value T_BOOLEAN;
  if is_null constant_value then Ok Unchanged
  else
    boolean ← value_boolean constant_value;
    match node_expr root with
    | BoundConjunction type l r =>
      let other := if is_child root 0 constant_expr then r else l in
      match type with
      | CONJUNCTION_AND => Ok (Returned (if boolean : bool then other else BoundConstant (Value_BOOLEAN false)))
      | CONJUNCTION_OR => Ok (Returned (if boolean : bool then BoundConstant (Value_BOOLEAN true) else other))
      | _ => Undef
      end
    | _ => Undef
    end.

Definition ConjunctionSimplificationRule : Rule :=
  mkRule (ConjunctionExpressionMatcher (any_of_class C_BOUND_CONJUNCTION) [FoldableConstantMatcher] SOME)
    ConjunctionSimplification_Apply.

(** [ComparisonSimplificationRule] *)
Definition ComparisonSimplification_Apply (bindings : list node) : result outcome :=
  constant_expr ← binding bindings 1;
  _ ← assert_ (IsScalar (node_expr constant_expr));
  constant_value ← EvaluateScalar function_call (node_expr constant_expr);
  if is_null constant_value then Ok (Returned (BoundConstant (null_of T_BOOLEAN))) else Ok Unchanged.

Definition ComparisonSimplificationRule : Rule :=
  mkRule (ComparisonExpressionMatcher (any_of_class C_BOUND_COMPARISON) [FoldableConstantMatcher] SOME)
    ComparisonSimplification_Apply.

(** [MoveConstantsRule]: the type of the comparison and its new constant, or
    nothing if the constant cannot be moved. *)
Definition moved_constant (arithmetic_type comparison_type : ExpressionType) (arithmetic_child_index : nat) (outer inner : Value)
    : result (option (ExpressionType * Value)) :=
  match arithmetic_type with
  | OPERATOR_ADD => v ← Value_Subtract outer inner; Ok (Some (comparison_type, v))
  | OPERATOR_SUBTRACT =>
    if arithmetic_child_index =? 0 then v ← Value_Add outer inner; Ok (Some (comparison_type, v))
    else
      v ← Value_Subtract inner outer;
      type ← FlipComparisionExpression comparison_type;
      Ok (Some (type, v))
  | OPERATOR_MULTIPLY =>
    zero ← Value_eq_num inner 0;
    if zero : bool then Ok None
    else
      modulo ← Value_Modulo outer inner;
      divides ← Value_eq_num modulo 0;
      if negb divides then Ok None
      else
        negative ← Value_lt_num inner 0;
        type ← (if negative : bool then FlipComparisionExpression comparison_type else Ok comparison_type);
        v ← Value_Divide outer inner;
        Ok (Some (type, v))
  | _ => Undef
  end.

Definition MoveConstants_Apply (bindings : list node) : result outcome :=
  comparison ← binding bindings 0;
  outer_constant ← binding bindings 1;
  arithmetic ← binding bindings 2;
  inner_constant ← binding bindings 3;
  match node_expr comparison, node_expr outer_constant, node_expr arithmetic, node_expr inner_constant with
  | BoundComparison type _ _, BoundConstant outer, BoundOperator arithmetic_type _ children, BoundConstant inner =>
    let arithmetic_child_index := if is_child arithmetic 0 inner_constant then 1 else 0 in
    moved ← moved_constant arithmetic_type type arithmetic_child_index outer inner;
    match moved with
    | None => Ok Unchanged
    | Some (type, v) =>
      arithmetic_child ← deref (children !! arithmetic_child_index);
      Ok (ChangedTo (if is_child comparison 0 outer_constant then BoundComparison type (BoundConstant v) arithmetic_child
                     else BoundComparison type arithmetic_child (BoundConstant v)))
    end
  | _, _, _, _ => Undef
  end.

Definition MoveConstantsRule : Rule :=
  mkRule (ComparisonExpressionMatcher (any_of_class C_BOUND_COMPARISON)
            [ConstantExpressionMatcher;
             OperatorExpressionMatcher
               (mkBase (Some IntegerTypeMatcher)
                  (Some (ManyExpressionTypeMatcher [OPERATOR_ADD; OPERATOR_SUBTRACT; OPERATOR_MULTIPLY])) (Some C_BOUND_OPERATOR))
               [ConstantExpressionMatcher] SOME] UNORDERED)
    MoveConstants_Apply.

(** ** Distributivity *)

(** [GatherAndExpressions] *)
Fixpoint GatherAndExpressions (path : list nat) (e : Expression) : list node :=
  match e with
  | BoundConjunction CONJUNCTION_AND l r => GatherAndExpressions (path ++ [0]) l ++ GatherAndExpressions (path ++ [1]) r
  | _ => [mkNode path e]
  end.

(** [GatherOrExpressions]: the conjuncts of every disjunct. *)
Fixpoint GatherOrExpressions (path : list nat) (e : Expression) : list (list node) :=
  match e with
  | BoundConjunction CONJUNCTION_OR l r => GatherOrExpressions (path ++ [0]) l ++ GatherOrExpressions (path ++ [1]) r
  | _ => [GatherAndExpressions path e]
  end.

(** The loop over [gathered_expressions[j]]: an entry whose type has been set
    to INVALID is equal to no other. *)
Fixpoint find_equal (invalid : gset (list nat)) (entry : node) (l : list node) : result (option node) :=
  match l with
  | [] => Ok None
  | other :: l' =>
    equal ← (if bool_decide (node_path other ∈ invalid) then Ok false else Equals (node_expr entry) (node_expr other));
    if equal : bool then Ok (Some other) else find_equal invalid entry l'
  end.

(** [matches[1..]], up to the first list without a match. *)
Fixpoint find_in_all (invalid : gset (list nat)) (entry : node) (ls : list (list node)) : result (option (list node)) :=
  match ls with
  | [] => Ok (Some [])
  | l :: ls' =>
    m ← find_equal invalid entry l;
    match m with
    | None => Ok None
    | Some n => ms ← find_in_all invalid entry ls'; Ok (option_map (cons n) ms)
    end
  end.

(** The loop over [gathered_expressions[0]]: the entries set to INVALID and the
    copies that are pushed up. *)
Fixpoint extract_common (first : list node) (others : list (list node)) (invalid : gset (list nat)) (copies : list Expression)
    : result (gset (list nat) * list Expression) :=
  match first with
  | [] => Ok (invalid, copies)
  | entry :: first' =>
    m ← find_in_all invalid entry others;
    match m with
    | None => extract_common first' others invalid copies
    | Some ms =>
      right_child ← Copy (node_expr entry);
      extract_common first' others (list_to_set (node_path <$> entry :: ms) ∪ invalid) (copies ++ [right_child])
    end
  end.

(** A conjunction of which one side or both may have been pruned. *)
Definition prune_conjunction (type : ExpressionType) (l r : option Expression) : option Expression :=
  match l, r with
  | Some l, Some r => Some (BoundConjunction type l r)
  | Some l, None => Some l
  | None, r => r
  end.

(** [Prune]; the expressions at the paths of [invalid] have type INVALID. *)
Fixpoint Prune (invalid : gset (list nat)) (path : list nat) (e : Expression) : option Expression :=
  if bool_decide (path ∈ invalid) then None
  else
    match e with
    | BoundConjunction (CONJUNCTION_OR as type) l r | BoundConjunction (CONJUNCTION_AND as type) l r =>
      prune_conjunction type (Prune invalid (path ++ [0]) l) (Prune invalid (path ++ [1]) r)
    | _ => Some e
    end.

(** [Prune] of the new root: the OR under the ANDs with the copies. *)
Definition prune_root (invalid : gset (list nat)) (initial_or : Expression) (copies : list Expression) : option Expression :=
  foldl (fun acc c => prune_conjunction CONJUNCTION_AND acc (Prune ∅ [] c)) (Prune invalid [] initial_or) copies.

Definition Distributivity_Apply (bindings : list node) : result outcome :=
  initial_or ← binding bindings 0;
  match node_expr initial_or, GatherOrExpressions [] (node_expr initial_or) with
  | BoundConjunction _ _ _, first :: others =>
    '(invalid, copies) ← extract_common first others ∅ [];
    match copies with
    | [] => Ok Unchanged
    | _ => new_root ← deref (prune_root invalid (node_expr initial_or) copies); Ok (Returned new_root)
    end
  | _, _ => Undef
  end.

Definition DistributivityRule : Rule :=
  mkRule (AnyMatcher (mkBase None (Some (SpecificExpressionTypeMatcher CONJUNCTION_OR)) None)) Distributivity_Apply.

(** ** The rewriter *)

(** The rules of the constructor of [Optimizer], in order. *)
Definition optimizer_rules : list Rule :=
  [ConstantFoldingRule; DistributivityRule; ArithmeticSimplificationRule; CaseSimplificationRule;
   ConjunctionSimplificationRule; ComparisonSimplificationRule; MoveConstantsRule].

(** The first rule that matches and changes something. *)
Fixpoint try_rules (rules : list Rule) (e : Expression) : result outcome :=
  match rules with
  | [] => Ok Unchanged
  | rule :: rules' =>
    match Match (rule_root rule) (mkNode [] e) [] with
    | (Ok true, bindings) =>
      o ← rule_Apply rule bindings;
      match o with Unchanged => try_rules rules' e | _ => Ok o end
    | (Ok false, _) => try_rules rules' e
    | (Throw x, _) => Throw x
    | (Undef, _) => Undef
    end
  end.

(** [ExpressionRewriter::ApplyRules]: the expression and whether there were
    changes; [None] if the fuel is not enough. *)
Fixpoint ApplyRules (fuel : nat) (rules : list Rule) (e : Expression) : option (result (Expression * bool)) :=
  match fuel with
  | 0 => None
  | S fuel =>
    match try_rules rules e with
    | Ok (Returned r) =>
      res ← ApplyRules fuel rules r;
      Some ('(e', _) ← res; Ok (e', true))
    | Ok (ChangedTo e') => Some (Ok (e', true))
    | Ok Unchanged =>
      res ← (fix apply_all (l : list Expression) : option (result (list Expression * bool)) :=
        match l with
        | [] => Some (Ok ([], false))
        | c :: l' =>
          res ← ApplyRules fuel rules c;
          match res with
          | Ok (c', changed) =>
            res ← apply_all l';
            Some ('(m, changed') ← res; Ok (c' :: m, changed || changed'))
          | Throw x => Some (Throw x)
          | Undef => Some Undef
          end
        end) (EnumerateChildren e);
      Some ('(cs, changed) ← res; Ok (with_children e cs, changed))
    | Throw x => Some (Throw x)
    | Undef => Some Undef
    end
  end.

(** The number of nodes, counting those that are not constants twice; every
    rule makes it smaller. *)
Fixpoint weight (e : Expression) : nat :=
  match e with
  | BoundConstant _ => 1
  | BoundReference _ _ | BoundColumnRef _ _ _ _ | BoundParameter _ _ _ | BoundDefault _ => 2
  | BoundCase _ a b c => 2 + weight a + weight b + weight c
  | BoundCast _ a _ _ | CommonSubExpression _ _ _ a => 2 + weight a
  | BoundComparison _ a b | BoundConjunction _ a b => 2 + weight a + weight b
  | BoundOperator _ _ l | BoundFunction _ _ l | BoundAggregate _ _ l | BoundWindow _ _ _ l | BoundSubquery _ l =>
    2 + list_sum (map weight l)
  end.

(** The loop of [Apply] over one expression. *)
Fixpoint rewrite_loop (fuel : nat) (rules : list Rule) (e : Expression) : option (result Expression) :=
  match fuel with
  | 0 => None
  | S fuel =>
    res ← ApplyRules (S (weight e)) rules e;
    match res with
    | Ok (e', changes_made) => if changes_made : bool then rewrite_loop fuel rules e' else Some (Ok e')
    | Throw x => Some (Throw x)
    | Undef => Some Undef
    end
  end.

Definition rewrite_expression (rules : list Rule) (e : Expression) : option (result Expression) :=
  rewrite_loop (S (weight e)) rules e.

(** ** Plans *)

Inductive LogicalOperatorType : Type :=
| LO_INVALID | LO_PROJECTION | LO_FILTER | LO_AGGREGATE_AND_GROUP_BY | LO_WINDOW | LO_LIMIT | LO_ORDER_BY | LO_COPY | LO_DISTINCT
| LO_GET | LO_CHUNK_GET | LO_DELIM_GET | LO_TABLE_FUNCTION | LO_SUBQUERY | LO_EMPTY_RESULT
| LO_JOIN | LO_DELIM_JOIN | LO_COMPARISON_JOIN | LO_ANY_JOIN | LO_CROSS_PRODUCT
| LO_UNION | LO_EXCEPT | LO_INTERSECT | LO_INSERT | LO_DELETE | LO_UPDATE | LO_CREATE_TABLE | LO_CREATE_INDEX
| LO_EXPLAIN | LO_PRUNE_COLUMNS | LO_PREPARE | LO_EXECUTE.

(** The type, the expressions and the children of a [LogicalOperator]. *)
#[warnings="-register-all"]
Inductive LogicalOperator : Type :=
| mkOperator (type : LogicalOperatorType) (expressions : list Expression) (children : list LogicalOperator).

(** [LogicalFilter::SplitPredicates]: the expressions from the current index
    on; those before it are not looked at again. *)
Fixpoint split_predicates (fuel : nat) (es : list Expression) : option (list Expression) :=
  match fuel with
  | 0 => None
  | S fuel =>
    match es with
    | [] => Some []
    | BoundConjunction CONJUNCTION_AND l r :: es' => split_predicates fuel (r :: es' ++ [l])
    | e :: es' => es'' ← split_predicates fuel es'; Some (e :: es'')
    end
  end.

Definition SplitPredicates (es : list Expression) : option (list Expression) :=
  split_predicates (S (list_sum (map weight es))) es.

(** The loop of [Apply] over the expressions. *)
Fixpoint rewrite_all (rules : list Rule) (es : list Expression) : option (result (list Expression)) :=
  match es with
  | [] => Some (Ok [])
  | e :: es' =>
    res ← rewrite_expression rules e;
    match res with
    | Ok e' => res ← rewrite_all rules es'; Some (m ← res; Ok (e' :: m))
    | Throw x => Some (Throw x)
    | Undef => Some Undef
    end
  end.

(** The end of [Apply]: the expressions of the node itself. *)
Definition apply_node (rules : list Rule) (type : LogicalOperatorType) (es : list Expression) : option (result (list Expression)) :=
  match es, rules with
  | [], _ | _, [] => Some (Ok es)
  | _, _ =>
    res ← rewrite_all rules es;
    match res, type with
    | Ok es', LO_FILTER => es'' ← SplitPredicates es'; Some (Ok es'')
    | _, _ => Some res
    end
  end.

(** [ExpressionRewriter::Apply] *)
Fixpoint Apply (rules : list Rule) (root : LogicalOperator) {struct root} : option (result LogicalOperator) :=
  match root with
  | mkOperator type es children =>
    res ← (fix apply_children (l : list LogicalOperator) : option (result (list LogicalOperator)) :=
      match l with
      | [] => Some (Ok [])
      | c :: l' =>
        res ← Apply rules c;
        match res with
        | Ok c' => res ← apply_children l'; Some (m ← res; Ok (c' :: m))
        | Throw x => Some (Throw x)
        | Undef => Some Undef
        end
      end) children;
    match res with
    | Ok children' =>
      res ← apply_node rules type es;
      Some (es' ← res; Ok (mkOperator type es' children'))
    | Throw x => Some (Throw x)
    | Undef => Some Undef
    end
  end.
End rules.
