(* ===== verification/RewritingProofs.v ===== *)
(** * The optimizer's rules preserve values

    The rules of the rewriter other than Distributivity keep the type and the
    value of a well-typed expression in every row in which the expression has a
    value, and so does the rewriter that applies them. *)

From Stdlib Require Import ZArith Lia.
From stdpp Require Import base gmap list strings option numbers sorting relations.
From S2P Require Import Prelude Types Vector Serializer StringStream DateTime Operators VectorOps Like Casts Value Expressions ExpressionRows ExecutorProofs Matchers Rewriting.

(** ** Matching *)

(** A matcher that binds the expression it matches and nothing else. *)
Definition simple (m : matcher node) (p : node → bool) : Prop :=
  ∀ n s, m n s = if p n then (Ok true, s ++ [n]) else (Ok false, s).

Definition is_constant (n : node) : bool := match node_expr n with BoundConstant _ => true | _ => false end.
Definition is_foldable (n : node) : bool := IsFoldable (node_expr n).

Section matching.
Context `{!FloatText}.

Lemma constant_simple : simple (Match ConstantExpressionMatcher) is_constant.
Proof. intros n s. unfold is_constant. cbn. unfold match_base. by destruct (node_expr n). Qed.

Lemma foldable_simple : simple (Match FoldableConstantMatcher) is_foldable.
Proof. intros n s. unfold is_foldable. cbn [Match]. unfold match_foldable. by destruct (IsFoldable (node_expr n)). Qed.

(** One simple matcher that has to match some entry. *)
Lemma SetMatch_some m p entries s b s' :
  simple m p → SetMatch [m] entries SOME s = (Ok b, s') →
  if b then ∃ n, n ∈ entries ∧ p n = true ∧ s' = s ++ [n] else s' = s.
Proof.
  intros Hm. cbn [SetMatch length]. destruct (length entries <? 1); [by intros [= <- <-]|]. cbn [MatchRecursive].
  rewrite mbind_get. generalize 0 as i. induction entries as [|e es IH]; intros i; [by intros [= <- <-]|].
  rewrite bool_decide_eq_false_2 by set_solver. specialize (Hm e s). destruct (p e) eqn:He.
  - rewrite (mbind_M_run _ _ _ _ _ Hm). intros [= <- <-]. exists e. split; [left|done].
  - rewrite (mbind_M_run _ _ _ _ _ Hm). intros Hrest. apply IH in Hrest. destruct b; [|done].
    destruct Hrest as (n & Hn & Hp & Hs'). exists n. split; [by right|done].
Qed.

(** The conditions of [ExpressionMatcher::Match]. *)
Definition base_ok (b : base_matcher) (e : Expression) : bool :=
  match m_type b with Some t => match_type t (return_type e) | None => true end &&
  match m_expr_type b with Some t => match_expression_type t (expression_type e) | None => true end &&
  match m_class b with Some c => bool_decide (c = GetExpressionClass e) | None => true end.

Lemma base_simple b : simple (match_base b) (fun n => base_ok b (node_expr n)).
Proof.
  intros n s. unfold match_base, base_ok. destruct (m_type b) as [t|]; [destruct (match_type _ _)|]; cbn [negb andb]; try done;
    (destruct (m_expr_type b) as [u|]; [destruct (match_expression_type _ _)|]); cbn [negb andb]; try done;
    (destruct (m_class b) as [c|]; [destruct (bool_decide _)|]); done.
Qed.

Lemma child_node n l c : c ∈ children_nodes n l ↔ ∃ i, l !! i = Some (node_expr c) ∧ node_path c = node_path n ++ [i].
Proof.
  unfold children_nodes. rewrite elem_of_lookup_imap. split.
  - intros (i & e & -> & Hi). exists i. done.
  - intros (i & Hi & Hp). exists i, (node_expr c). split; [|done]. destruct c. by simplify_eq/=.
Qed.

Lemma is_child_spec n i j c : node_path c = node_path n ++ [j] → is_child n i c = bool_decide (i = j).
Proof. intros Hp. unfold is_child. rewrite Hp. apply bool_decide_ext. split; [by intros [= ->]%app_inv_head|by intros ->]. Qed.

Lemma base_class b e c : base_ok b e = true → m_class b = Some c → GetExpressionClass e = c.
Proof. unfold base_ok. rewrite !andb_true_iff. intros [_ Hc] Hb. rewrite Hb in Hc. by apply bool_decide_eq_true in Hc. Qed.

(** An operator, comparison or conjunction with a child that matches. *)
Lemma operator_match base m p n s b s' :
  m_class base = Some C_BOUND_OPERATOR → simple (Match m) p →
  Match (OperatorExpressionMatcher base [m] SOME) n s = (Ok b, s') →
  if b then ∃ type t l c, node_expr n = BoundOperator type t l ∧ base_ok base (node_expr n) = true ∧
    c ∈ children_nodes n l ∧ p c = true ∧ s' = s ++ [n; c]
  else s' = s ∨ s' = s ++ [n].
Proof.
  intros Hc Hm. cbn [Match]. pose proof (base_simple base n s) as Hb. destruct (base_ok base (node_expr n)) eqn:Hok;
    rewrite (mbind_M_run _ _ _ _ _ Hb); [|intros [= <- <-]; by left].
  pose proof (base_class _ _ _ Hok Hc) as Hcl. destruct (node_expr n) as [| | | | | | | | |type t l| | | | |]; try done. intros Hs.
  apply (SetMatch_some _ p) in Hs; [|done]. destruct b; [|by right].
  destruct Hs as (c & Hin & Hp & ->). exists type, t, l, c. split_and!; [done..|by rewrite <- app_assoc].
Qed.

Lemma comparison_match m p n s b s' :
  simple (Match m) p → Match (ComparisonExpressionMatcher (any_of_class C_BOUND_COMPARISON) [m] SOME) n s = (Ok b, s') → b = true →
  ∃ type x y c, node_expr n = BoundComparison type x y ∧ c ∈ children_nodes n [x; y] ∧ p c = true ∧ s' = s ++ [n; c].
Proof.
  intros Hm Hs ->. cbn [Match] in Hs. pose proof (base_simple (any_of_class C_BOUND_COMPARISON) n s) as Hb.
  cbv beta in Hb. destruct (base_ok _ (node_expr n)) eqn:Hok; rewrite (mbind_M_run _ _ _ _ _ Hb) in Hs; [|done].
  pose proof (base_class (any_of_class C_BOUND_COMPARISON) _ _ Hok eq_refl) as Hcl. destruct (node_expr n) as [| | | | | | |type x y| | | | | | |]; try done.
  apply (SetMatch_some _ p) in Hs as (c & Hin & Hp & ->); [|done]. exists type, x, y, c. split_and!; [done..|by rewrite <- app_assoc].
Qed.

Lemma conjunction_match m p n s b s' :
  simple (Match m) p → Match (ConjunctionExpressionMatcher (any_of_class C_BOUND_CONJUNCTION) [m] SOME) n s = (Ok b, s') → b = true →
  ∃ type x y c, node_expr n = BoundConjunction type x y ∧ c ∈ children_nodes n [x; y] ∧ p c = true ∧ s' = s ++ [n; c].
Proof.
  intros Hm Hs ->. cbn [Match] in Hs. pose proof (base_simple (any_of_class C_BOUND_CONJUNCTION) n s) as Hb.
  cbv beta in Hb. destruct (base_ok _ (node_expr n)) eqn:Hok; rewrite (mbind_M_run _ _ _ _ _ Hb) in Hs; [|done].
  pose proof (base_class (any_of_class C_BOUND_CONJUNCTION) _ _ Hok eq_refl) as Hcl. destruct (node_expr n) as [| | | | | | | |type x y| | | | | |]; try done.
  apply (SetMatch_some _ p) in Hs as (c & Hin & Hp & ->); [|done]. exists type, x, y, c. split_and!; [done..|by rewrite <- app_assoc].
Qed.

(** A matcher that never throws and only adds bindings. *)
Definition adding (m : matcher node) : Prop := ∀ n s, ∃ b t, m n s = (Ok b, s ++ t).

Lemma match_other m n0 n1 s :
  adding m → MatchRecursive [m] [n0; n1] ({[0]} ∪ ∅) s = m n1 s ∧ MatchRecursive [m] [n0; n1] ({[1]} ∪ ∅) s = m n0 s.
Proof.
  intros Hm. cbn [MatchRecursive]. rewrite !mbind_get.
  rewrite (bool_decide_eq_true_2 (0 ∈ {[0]} ∪ ∅)), (bool_decide_eq_false_2 (1 ∈ {[0]} ∪ ∅)) by set_solver.
  rewrite (bool_decide_eq_true_2 (1 ∈ {[1]} ∪ ∅)), (bool_decide_eq_false_2 (0 ∈ {[1]} ∪ ∅)) by set_solver.
  destruct (Hm n0 s) as ([] & t & H0), (Hm n1 s) as ([] & t' & H1);
    rewrite (mbind_M_run _ _ _ _ _ H0), (mbind_M_run _ _ _ _ _ H1), H0, H1; done.
Qed.

(** A simple matcher and a second one that have to match two entries; what the
    second one leaves behind is removed. *)
Lemma SetMatch_pair m1 p m2 n0 n1 s s' :
  simple m1 p → adding m2 → SetMatch [m1; m2] [n0; n1] UNORDERED s = (Ok true, s') →
  (p n0 = true ∧ m2 n1 (s ++ [n0]) = (Ok true, s')) ∨ (p n1 = true ∧ m2 n0 (s ++ [n1]) = (Ok true, s')).
Proof.
  intros Hm1 Hm2. unfold SetMatch. cbn [length Nat.eqb]. remember [m2] as ms eqn:Hms. cbn [MatchRecursive]. subst ms. rewrite mbind_get.
  rewrite !(bool_decide_eq_false_2 (_ ∈ ∅)) by set_solver.
  match goal with |- (m1 n0 ≫= ?F) s = _ → _ => set (first := F) end.
  assert (∀ G : bool → M (list node) bool, (m1 n1 ≫= G) s = (if p n1 then G true (s ++ [n1]) else G false s)) as Hn1.
  { intros G. specialize (Hm1 n1 s). by destruct (p n1); rewrite (mbind_M_run _ _ _ _ _ Hm1). }
  assert (first false s = (Ok true, s') → p n1 = true ∧ m2 n0 (s ++ [n1]) = (Ok true, s')) as Hfalse.
  { unfold first. cbv beta iota. rewrite Hn1. destruct (p n1); [|done].
    destruct (Hm2 n0 (s ++ [n1])) as (b & t & H0). rewrite (mbind_M_run _ _ _ b (( s ++ [n1]) ++ t)) by (by rewrite (proj2 (match_other m2 n0 n1 _ Hm2))).
    destruct b; [|done]. rewrite H0. done. }
  pose proof (Hm1 n0 s) as H1. destruct (p n0); rewrite (mbind_M_run _ _ _ _ _ H1); [|by right; apply Hfalse].
  unfold first at 1. cbv beta iota. destruct (Hm2 n1 (s ++ [n0])) as (b & t & H0).
  rewrite (mbind_M_run _ _ _ b ((s ++ [n0]) ++ t)) by (by rewrite (proj1 (match_other m2 n0 n1 _ Hm2))).
  destruct b; [intros [= <-]; by left; rewrite H0|]. rewrite mbind_modify, <- app_assoc, take_app_length. intros Hs. right. by apply Hfalse.
Qed.

Lemma SetMatch_adding m p entries s : simple m p → ∃ b t, SetMatch [m] entries SOME s = (Ok b, s ++ t).
Proof.
  intros Hm. cbn [SetMatch length]. destruct (length entries <? 1); [exists false, []; by rewrite app_nil_r|]. cbn [MatchRecursive].
  rewrite mbind_get. generalize 0 as i. induction entries as [|e es IH]; intros i; [exists false, []; by rewrite app_nil_r|].
  rewrite bool_decide_eq_false_2 by set_solver. specialize (Hm e s). destruct (p e); rewrite (mbind_M_run _ _ _ _ _ Hm).
  - exists true, [e]. done.
  - apply IH.
Qed.

Lemma operator_adding base m p : simple (Match m) p → adding (Match (OperatorExpressionMatcher base [m] SOME)).
Proof.
  intros Hm n s. cbn [Match]. pose proof (base_simple base n s) as Hb. cbv beta in Hb.
  destruct (base_ok base (node_expr n)); rewrite (mbind_M_run _ _ _ _ _ Hb); [|exists false, []; by rewrite app_nil_r].
  destruct (node_expr n) as [| | | | | | | | |type t l| | | | |]; try (exists false, [n]; done).
  destruct (SetMatch_adding (Match m) p (children_nodes n l) (s ++ [n]) Hm) as (b & t' & Hs). exists b, (n :: t').
  etransitivity; [exact Hs|]. by rewrite <- app_assoc.
Qed.

Definition arithmetic_base : base_matcher :=
  mkBase (Some IntegerTypeMatcher) (Some (ManyExpressionTypeMatcher [OPERATOR_ADD; OPERATOR_SUBTRACT; OPERATOR_MULTIPLY]))
    (Some C_BOUND_OPERATOR).

Lemma move_match e bs :
  Match (rule_root MoveConstantsRule) (mkNode [] e) [] = (Ok true, bs) →
  ∃ type x y outer arithmetic inner at_ t l,
    e = BoundComparison type x y ∧ bs = [mkNode [] e; outer; arithmetic; inner] ∧
    ((outer = mkNode [0] x ∧ arithmetic = mkNode [1] y) ∨ (outer = mkNode [1] y ∧ arithmetic = mkNode [0] x)) ∧
    is_constant outer = true ∧ node_expr arithmetic = BoundOperator at_ t l ∧ base_ok arithmetic_base (BoundOperator at_ t l) = true ∧
    inner ∈ children_nodes arithmetic l ∧ is_constant inner = true.
Proof.
  cbn [MoveConstantsRule rule_root Match]. pose proof (base_simple (any_of_class C_BOUND_COMPARISON) (mkNode [] e) []) as Hb.
  cbv beta in Hb. destruct (base_ok _ (node_expr _)) eqn:Hok; rewrite (mbind_M_run _ _ _ _ _ Hb); [|done].
  pose proof (base_class (any_of_class C_BOUND_COMPARISON) _ _ Hok eq_refl) as Hcl. cbn [node_expr] in *.
  destruct e as [| | | | | | |type x y| | | | | | |]; try done. intros Hs.
  apply (SetMatch_pair (Match ConstantExpressionMatcher) is_constant
    (Match (OperatorExpressionMatcher arithmetic_base [ConstantExpressionMatcher] SOME))) in Hs;
    [|apply constant_simple|eapply operator_adding, constant_simple].
  destruct Hs as [[Hp Hm]|[Hp Hm]]; apply (operator_match _ _ is_constant) in Hm as (at_ & t & l & c & He & Hbase & Hin & Hc & ->);
    try done; try apply constant_simple; simpl in He; rewrite He in Hbase; eexists type, x, y, _, _, c, at_, t, l;
    (split; [done|]); (split; [done|]); eauto 10.
Qed.
End matching.

(** ** The rewriter *)

(** The loop over the children. *)
Definition apply_all (f : Expression → option (result (Expression * bool))) : list Expression → option (result (list Expression * bool)) :=
  fix apply_all (l : list Expression) : option (result (list Expression * bool)) :=
    match l with
    | [] => Some (Ok ([], false))
    | c :: l' =>
      res ← f c;
      match res with
      | Ok (c', changed) =>
        res ← apply_all l';
        Some ('(m, changed') ← res; Ok (c' :: m, changed || changed'))
      | Throw x => Some (Throw x)
      | Undef => Some Undef
      end
    end.

Lemma apply_all_Ok f l cs ch :
  apply_all f l = Some (Ok (cs, ch)) → ∃ chs, Forall2 (fun c cc => f c = Some (Ok cc)) l (zip cs chs) ∧ length cs = length chs ∧
    ch = existsb id chs.
Proof.
  revert cs ch. induction l as [|c l IH]; intros cs ch; cbn [apply_all]; [intros [= <- <-]; by exists []|].
  destruct (f c) as [[[c' b]| |]|] eqn:Hf; try done. simpl. destruct (apply_all f l) as [[[m b']| |]|] eqn:Hl; try done.
  intros [= <- <-]. destruct (IH m b' eq_refl) as (chs & Hall & Hlen & ->). exists (b :: chs).
  split; [by constructor|]. split; [simpl; by rewrite Hlen|done].
Qed.

(** The expressions the rules are sound for: no addition, subtraction or
    multiplication of narrow integers, which wrap around, and, unless
    [allow_or], no OR. *)
Definition clean_node (allow_or : bool) (e : Expression) : bool :=
  match e with
  | BoundOperator (OPERATOR_ADD | OPERATOR_SUBTRACT | OPERATOR_MULTIPLY) (T_TINYINT | T_SMALLINT) _ => false
  | BoundConjunction CONJUNCTION_OR _ _ => allow_or
  | _ => true
  end.

Definition clean (allow_or : bool) (e : Expression) : Prop := ∀ x, subexpression x e → clean_node allow_or x = true.

Lemma clean_child b e c : clean b e → c ∈ children_of e → clean b c.
Proof. intros He Hc x Hx. apply He. by eapply sub_child. Qed.

Lemma subexpression_inv x e : subexpression x e → x = e ∨ ∃ c, c ∈ children_of e ∧ subexpression x c.
Proof. intros [|e' c' Hc Hs]; [by left|right; eauto]. Qed.

Lemma clean_constant b v : clean b (BoundConstant v).
Proof. intros x [->|(c & Hc & _)]%subexpression_inv; [done|by apply elem_of_nil in Hc]. Qed.

Lemma clean_node_with_children b e cs : clean_node b (with_children e cs) = clean_node b e.
Proof. destruct e; simpl; try done; destruct cs as [|? [|? [|? [|]]]]; done. Qed.

Lemma clean_with_children b e cs : clean b e → length cs = length (children_of e) → Forall (clean b) cs → clean b (with_children e cs).
Proof.
  intros He Hlen Hcs x [->|(c & Hc & Hx)]%subexpression_inv; [rewrite clean_node_with_children; apply He; constructor|].
  rewrite Forall_forall in Hcs. apply (Hcs c); [|done]. revert Hc. clear -Hlen.
  destruct e; simpl in *; try done; try (destruct cs as [|? [|? [|? [|]]]]; done).
Qed.

Section soundness.
Context `{!FloatText}.
Context (function_row : nat → list (option cell) → result (option cell)).
Context (function_type : nat → list TypeId → option TypeId).
Context (ref_type : nat → option TypeId) (col_type : nat → nat → nat → option TypeId).
Context (env : row_env) (allow_or : bool).

Abbreviation eval := (eval function_row).
Abbreviation typed := (typed function_type ref_type col_type).
Abbreviation clean := (clean allow_or).

(** [e'] is a well-typed expression of the type of [e] with the value [o]. *)
Definition kept (e : Expression) (o : option cell) (e' : Expression) : Prop :=
  typed e' = true ∧ return_type e' = return_type e ∧ eval env e' = Ok o ∧ clean e'.

(** What a rule makes of a well-typed expression keeps its type and value. *)
Definition rule_sound (r : Rule) : Prop := ∀ e bs out o,
  typed e = true → eval env e = Ok o → clean e →
  Match (rule_root r) (mkNode [] e) [] = (Ok true, bs) → rule_Apply r bs = Ok out →
  match out with Unchanged => True | Returned e' | ChangedTo e' => kept e o e' end.

Lemma kept_trans e o e1 e2 : kept e o e1 → kept e1 o e2 → kept e o e2.
Proof. intros (_ & Ht1 & _ & _) (H1 & H2 & H3 & H4). split; [done|]. split; [congruence|done]. Qed.

Lemma typed_children e c : typed e = true → c ∈ children_of e → typed c = true.
Proof.
  intros Ht Hc.
  assert (∀ l, forallb typed l = true → c ∈ l → typed c = true) as Hl.
  { intros l Hl Hin. rewrite forallb_forall in Hl. by apply Hl, list_elem_of_In. }
  destruct e; cbn [ExpressionRows.typed children_of EnumerateChildren] in *; rewrite ?andb_true_iff in Ht;
    try (by apply elem_of_nil in Hc); try done; try (eapply Hl; [|done]; tauto).
  all: repeat (apply elem_of_cons in Hc as [->|Hc]); [tauto..|by apply elem_of_nil in Hc].
Qed.

Lemma typed_with_children e cs :
  typed e = true → Forall2 (fun c c' => typed c' = true ∧ return_type c' = return_type c) (children_of e) cs →
  typed (with_children e cs) = true ∧ return_type (with_children e cs) = return_type e.
Proof.
  intros Ht Hcs.
  assert (∀ l, Forall2 (fun c c' => typed c' = true ∧ return_type c' = return_type c) l cs →
    forallb typed cs = true ∧ map return_type cs = map return_type l) as Hl.
  { intros l Hall. clear -Hall. induction Hall as [|c c' l cs [Hc Hr] _ [IH IH']]; [done|]. simpl. by rewrite Hc, IH, Hr, IH'. }
  destruct e; cbn [ExpressionRows.typed children_of EnumerateChildren] in *; try done.
  all: try (apply Forall2_nil_inv_l in Hcs as ->; done).
  5,6: cbn [with_children]; destruct (Hl _ Hcs) as [H1 H2]; cbn [ExpressionRows.typed]; rewrite H1, H2; rewrite ?andb_true_iff in *; tauto.
  all: repeat match goal with
    | H : Forall2 _ (_ :: _) _ |- _ => apply Forall2_cons_inv_l in H as (? & ? & [? ?] & H & ->)
    | H : Forall2 _ [] _ |- _ => apply Forall2_nil_inv_l in H as ->
    end; cbn [with_children ExpressionRows.typed Expressions.return_type]; (split; [|done]).
  all: repeat match goal with H : typed _ = true |- _ => rewrite H | H : return_type _ = return_type _ |- _ => rewrite H end;
    rewrite ?andb_true_iff in *; tauto.
Qed.

(** All operands are evaluated. *)
Lemma eval_in_children t x es c : ∀ found o,
  eval_in function_row env t x es found = Ok o → c ∈ es → ∃ o', eval env c = Ok o'.
Proof.
  induction es as [|e es IH]; intros found o Ho Hc; [by apply elem_of_nil in Hc|]. cbn [eval_in] in Ho.
  apply bind_Ok in Ho as (y & Hy & Ho). apply elem_of_cons in Hc as [->|Hc]; [eauto|].
  apply bind_Ok in Ho as (r & _ & Ho). apply bind_Ok in Ho as (f & _ & Ho). by eapply IH.
Qed.

Lemma eval_children e o c : eval env e = Ok o → c ∈ children_of e → ∃ o', eval env c = Ok o'.
Proof.
  intros Ho Hc. destruct e as [t i|t a b d|v|t nr value|t|t a b d|t a st tt|type l r|type l r|type t l|t f l|type t l|type t fr l|t l|t id own a];
    cbn [children_of EnumerateChildren] in Hc; try (by apply elem_of_nil in Hc); try done.
  - cbn [ExpressionRows.eval] in Ho. apply bind_Ok in Ho as (u & Hu & Ho). apply bind_Ok in Ho as (v & Hv & Ho).
    apply bind_Ok in Ho as (w & Hw & Ho). repeat (apply elem_of_cons in Hc as [->|Hc]); [eauto..|by apply elem_of_nil in Hc].
  - cbn [ExpressionRows.eval] in Ho. apply bind_Ok in Ho as (u & Hu & Ho). apply list_elem_of_singleton in Hc as ->. eauto.
  - cbn [ExpressionRows.eval] in Ho. apply bind_Ok in Ho as (u & Hu & Ho). apply bind_Ok in Ho as (v & Hv & Ho).
    repeat (apply elem_of_cons in Hc as [->|Hc]); [eauto..|by apply elem_of_nil in Hc].
  - cbn [ExpressionRows.eval] in Ho. apply bind_Ok in Ho as (u & Hu & Ho). apply bind_Ok in Ho as (v & Hv & Ho).
    repeat (apply elem_of_cons in Hc as [->|Hc]); [eauto..|by apply elem_of_nil in Hc].
  - destruct (is_in type) eqn:Hin.
    + destruct l as [|l [|first rest]]; [by cbn [ExpressionRows.eval] in Ho; rewrite Hin in Ho..|].
      rewrite eval_operator_in in Ho by done. apply bind_Ok in Ho as (u & Hu & Ho). apply bind_Ok in Ho as (v & Hv & Ho).
      apply bind_Ok in Ho as (w & Hw & Ho). apply bind_Ok in Ho as (z & Hz & Ho).
      apply elem_of_cons in Hc as [->|Hc]; [eauto|]. apply elem_of_cons in Hc as [->|Hc]; [eauto|]. by eapply eval_in_children.
    + cbn [ExpressionRows.eval] in Ho. rewrite Hin in Ho. destruct l as [|l [|r [|]]]; try done.
      * apply bind_Ok in Ho as (u & Hu & Ho). apply list_elem_of_singleton in Hc as ->. eauto.
      * apply bind_Ok in Ho as (u & Hu & Ho). apply bind_Ok in Ho as (v & Hv & Ho).
        repeat (apply elem_of_cons in Hc as [->|Hc]); [eauto..|by apply elem_of_nil in Hc].
  - rewrite eval_function in Ho. apply bind_Ok in Ho as (os & Hos%mapM_Ok & _).
    apply list_elem_of_lookup in Hc as [i Hi]. destruct (Forall2_lookup_l _ _ _ _ _ Hos Hi) as (o' & _ & ?). eauto.
  - apply list_elem_of_singleton in Hc as ->. eauto.
Qed.

Lemma try_rules_sound rules e o out :
  Forall rule_sound rules → typed e = true → eval env e = Ok o → clean e → try_rules rules e = Ok out →
  match out with Unchanged => True | Returned e' | ChangedTo e' => kept e o e' end.
Proof.
  intros Hrules Ht Ho Hcl. induction Hrules as [|r rules Hr _ IH]; cbn [try_rules]; [by intros [= <-]|].
  destruct (Match (rule_root r) (mkNode [] e) []) as [[[]| |] bs] eqn:Hm; try done.
  intros (out' & Hout & Hnext)%bind_Ok. specialize (Hr e bs out' o Ht Ho Hcl Hm Hout). destruct out'; [by apply IH|by simplify_eq..].
Qed.

Lemma EnumerateChildren_cases e : EnumerateChildren e = children_of e ∨ EnumerateChildren e = [].
Proof. destruct e; auto. simpl. destruct owned; auto. Qed.

Lemma kept_children f e o cs ch :
  typed e = true → eval env e = Ok o → clean e →
  (∀ c c' b o', typed c = true → eval env c = Ok o' → clean c → f c = Some (Ok (c', b)) → kept c o' c') →
  apply_all f (EnumerateChildren e) = Some (Ok (cs, ch)) → kept e o (with_children e cs).
Proof.
  intros Ht Ho Hcl Hf Hall. apply apply_all_Ok in Hall as (chs & Hall & Hlen & _).
  destruct (EnumerateChildren_cases e) as [Hc|Hc]; rewrite Hc in Hall.
  2: { apply Forall2_nil_inv_l in Hall. destruct cs as [|c cs]; [|by destruct chs].
    destruct e; cbn [EnumerateChildren] in Hc; simplify_eq/=; done. }
  assert (Forall2 (fun c c' => ∀ o', eval env c = Ok o' → kept c o' c') (children_of e) cs) as Hkept.
  { assert (∀ c, c ∈ children_of e → typed c = true ∧ clean c) as Htc
      by (intros c Hc'; split; [by eapply typed_children|by eapply clean_child]).
    clear -Hall Hlen Hf Htc. revert cs chs Hall Hlen. induction (children_of e) as [|c l IH]; intros cs chs Hall Hlen.
    - apply Forall2_nil_inv_l in Hall. destruct cs; [constructor|by destruct chs].
    - apply Forall2_cons_inv_l in Hall as ([c' b] & k & Hfc & Hall & Heq). destruct cs as [|c0 cs], chs as [|b0 chs]; simplify_eq/=.
      constructor; [intros o' Ho'; eapply Hf; [apply Htc; left|done|apply Htc; left|done]|]. eapply IH; [|done|done].
      intros d Hd. apply Htc. by right. }
  assert (Forall2 (fun c c' => typed c' = true ∧ return_type c' = return_type c) (children_of e) cs ∧
    Forall2 (same_value function_row env env) (children_of e) cs ∧ Forall clean cs) as (Htyped & Hsame & Hclean).
  { assert (∀ c, c ∈ children_of e → ∃ o', eval env c = Ok o') as Hoc by (intros c; by eapply eval_children).
    clear -Hkept Hoc. induction Hkept as [|c c' l cs Hcc _ IH]; [by split|].
    destruct (Hoc c) as [o' Ho']; [left|]. destruct (Hcc o' Ho') as (H1 & H2 & H3 & H4).
    destruct IH as (IH1 & IH2 & IH3); [intros d Hd; apply Hoc; by right|]. split_and!; constructor; try done. split; [done|].
    intros o'' Ho''. congruence. }
  destruct (typed_with_children e cs Ht Htyped) as [H1 H2]. split; [done|]. split; [done|].
  split; [eapply eval_with_children; [by destruct e|done|done]|].
  apply clean_with_children; [done| |done]. symmetry. by eapply Forall2_length.
Qed.

(** The rewriter keeps types and values if its rules do. *)
Lemma ApplyRules_sound rules : Forall rule_sound rules → ∀ fuel e e' ch o,
  typed e = true → eval env e = Ok o → clean e → ApplyRules fuel rules e = Some (Ok (e', ch)) → kept e o e'.
Proof.
  intros Hrules fuel. induction fuel as [|fuel IH]; intros e e' ch o Ht Ho Hcl; [done|]. cbn [ApplyRules].
  destruct (try_rules rules e) as [out| |] eqn:Htry; try done. pose proof (try_rules_sound _ _ _ _ Hrules Ht Ho Hcl Htry) as Hout.
  destruct out as [|r|r].
  - fold (apply_all (ApplyRules fuel rules)). destruct (apply_all _ _) as [[[cs b]| |]|] eqn:Hall; try done. intros [= <- <-].
    eapply kept_children; [done|done|done| |done]. intros c c' b' o' Hc Ho' Hcc Hf. by eapply IH.
  - destruct (ApplyRules fuel rules r) as [[[e1 b]| |]|] eqn:Hr; try done. intros [= <- <-].
    eapply kept_trans; [done|]. eapply IH; [apply Hout|apply Hout|apply Hout|done].
  - intros [= <- <-]. done.
Qed.

Lemma rewrite_loop_sound rules : Forall rule_sound rules → ∀ fuel e e' o,
  typed e = true → eval env e = Ok o → clean e → rewrite_loop fuel rules e = Some (Ok e') → kept e o e'.
Proof.
  intros Hrules fuel. induction fuel as [|fuel IH]; intros e e' o Ht Ho Hcl; [done|]. cbn [rewrite_loop].
  destruct (ApplyRules _ rules e) as [[[e1 b]| |]|] eqn:Hr; try done. simpl.
  pose proof (ApplyRules_sound _ Hrules _ _ _ _ _ Ht Ho Hcl Hr) as Hk. destruct b; [|by intros [= <-]].
  intros He'. eapply kept_trans; [done|]. eapply IH; [apply Hk|apply Hk|apply Hk|done].
Qed.
End soundness.


(** ** The rules *)

Section rules.
Context `{!FloatText}.
Context (function_call : nat → list Vector → result Vector).
Context (function_row : nat → list (option cell) → result (option cell)).
Context (function_type : nat → list TypeId → option TypeId).
Context (ref_type : nat → option TypeId) (col_type : nat → nat → nat → option TypeId).
Context (env : row_env) (allow_or : bool).
Context (Hfun : functions_typed function_row function_type).
Context (Hrowwise : functions_rowwise function_call function_row function_type None 1).
Context (Henv : env_ok ref_type col_type env).

Abbreviation eval := (eval function_row).
Abbreviation typed := (typed function_type ref_type col_type).
Abbreviation kept := (kept function_row function_type ref_type col_type env allow_or).
Abbreviation rule_sound := (rule_sound function_row function_type ref_type col_type env allow_or).
Abbreviation clean := (clean allow_or).

Lemma value_typed e o : typed e = true → eval env e = Ok o → value_ok (mkValue (return_type e) o) = true.
Proof using Hfun Henv.
  intros Ht Ho. unfold value_ok. cbn [val_type val_data]. rewrite (typed_proper _ _ _ _ Ht). simpl.
  pose proof (eval_ok _ _ _ _ _ _ _ Hfun Henv Ht Ho) as Hc. destruct o; [by apply Hc|done].
Qed.

Lemma kept_constant e o v : typed e = true → eval env e = Ok o → v = mkValue (return_type e) o → kept e o (BoundConstant v).
Proof using Hfun Henv. intros Ht Ho ->. split; [by apply value_typed|]. split; [done|]. split; [done|apply clean_constant]. Qed.

Lemma scalar_value e o v : typed e = true → eval env e = Ok o → IsScalar e = true →
  EvaluateScalar function_call e = Ok v → v = mkValue (return_type e) o.
Proof using Hfun Hrowwise.
  intros Ht Ho Hs Hv. rewrite (EvaluateScalar_value function_call function_row function_type Hfun Hrowwise _ _ _ _ _ Ht Hs Ho) in Hv.
  by injection Hv.
Qed.

Lemma foldable_scalar e : IsFoldable e = true → IsScalar e = true.
Proof using. unfold IsFoldable. rewrite !andb_true_iff. tauto. Qed.

Lemma ConstantFolding_sound : rule_sound (ConstantFoldingRule function_call).
Proof using Hfun Hrowwise Henv.
  intros e bs out o Ht Ho Hcl. cbn [ConstantFoldingRule rule_root rule_Apply Match node_expr]. case_bool_decide; [done|].
  intros Hm. pose proof (foldable_simple (mkNode [] e) []) as Hf. cbn [Match] in Hf. rewrite Hf in Hm. unfold is_foldable in Hm. cbn [node_expr] in Hm.
  destruct (IsFoldable e) eqn:He; [|done]. injection Hm as <-. apply foldable_scalar in He.
  unfold ConstantFolding_Apply. cbn [binding app lookup list_lookup deref node_expr]. run.
  cbn [node_expr]. rewrite He, bool_decide_eq_false_2 by done. cbn [negb andb]. run. intros (v & Hv & Hout)%bind_Ok.
  pose proof (scalar_value e o v Ht Ho He Hv) as ->. cbn [val_type] in Hout. rewrite bool_decide_eq_true_2 in Hout by done.
  injection Hout as <-. by apply kept_constant.
Qed.

Lemma ComparisonSimplification_sound : rule_sound (ComparisonSimplificationRule function_call).
Proof using Hfun Hrowwise Henv.
  intros e bs out o Ht Ho Hcl Hm Hout. apply (comparison_match _ is_foldable) in Hm; [|apply foldable_simple|done].
  destruct Hm as (type & x & y & c & He & Hin & Hf & ->). cbn [node_expr] in He. subst e.
  cbn [ComparisonSimplificationRule rule_Apply] in Hout. unfold ComparisonSimplification_Apply in Hout.
  cbn [binding app lookup list_lookup deref] in Hout. run_in Hout. unfold is_foldable in Hf. apply foldable_scalar in Hf. rewrite Hf in Hout. run_in Hout.
  apply bind_Ok in Hout as (v & Hv & Hout).
  assert (node_expr c ∈ [x; y]) as Hc.
  { apply child_node in Hin as (i & Hi & _). by apply list_elem_of_lookup_2 in Hi. }
  destruct (eval_children function_row env _ _ (node_expr c) Ho) as [oc Hoc]; [done|].
  assert (typed (node_expr c) = true) as Htc by (by eapply typed_children).
  pose proof (scalar_value _ oc v Htc Hoc Hf Hv) as ->.
  unfold is_null in Hout. cbn [val_data] in Hout. destruct oc as [z|]; injection Hout as <-; [done|].
  apply kept_constant; [done|done|]. cbn [return_type]. unfold null_of. f_equal.
  cbn [ExpressionRows.eval] in Ho. apply bind_Ok in Ho as (a & Ha & Ho). apply bind_Ok in Ho as (b & Hb & Ho).
  assert (a = None ∨ b = None) as Hnull.
  { apply elem_of_cons in Hc as [Hc|Hc]; [left; rewrite Hc in Hoc; congruence|]. apply list_elem_of_singleton in Hc.
    right. rewrite Hc in Hoc. congruence. }
  assert (∀ f, both f a b = Ok None) as Hboth by (intros f; destruct Hnull as [-> | ->]; [done|by destruct a]).
  unfold eval_comparison in Ho. destruct (comparison_of type); [|destruct type; try done]; rewrite Hboth in Ho; congruence.
Qed.

(** A child that is evaluated when the rule is applied. *)
Lemma folded_child e o c v : typed e = true → eval env e = Ok o → c ∈ children_of e → IsScalar c = true →
  EvaluateScalar function_call c = Ok v → ∃ oc, eval env c = Ok oc ∧ typed c = true ∧ v = mkValue (return_type c) oc.
Proof using Hfun Hrowwise.
  intros Ht Ho Hc Hs Hv. destruct (eval_children function_row env _ _ c Ho Hc) as [oc Hoc].
  assert (typed c = true) as Htc by (by eapply typed_children). exists oc. split; [done|]. split; [done|]. by eapply scalar_value.
Qed.

Lemma CastAs_boolean o : CastAs (mkValue T_BOOLEAN o) T_BOOLEAN = Ok (mkValue T_BOOLEAN o).
Proof using. done. Qed.

Lemma boolean_canonical o : cells_ok T_BOOLEAN o → bool_cell <$> cell_bool o = o.
Proof using.
  intros Ho. destruct o as [x|]; [|done]. specialize (Ho x eq_refl). destruct x as [n z|[s|]]; [|done..].
  unfold cell_ok in Ho. apply andb_true_iff in Ho as [Hn%andb_true_iff Hz]. destruct Hn as [_ Hn%Nat.eqb_eq]. subst n.
  unfold in_range, machine_range in Hz. simpl. unfold bool_cell. do 3 f_equal. destruct (Z.eqb_spec z 0); simpl; lia.
Qed.

(** The truth value of a boolean that has been folded. *)
Lemma folded_boolean oc (b : bool) v :
  v = mkValue T_BOOLEAN oc → (if is_null v then Ok false else value_boolean v) = Ok b → b = bool_decide (cell_bool oc = Some true).
Proof using.
  intros -> Hb. unfold is_null, value_boolean in Hb. cbn [val_data] in Hb. destruct oc as [[n z|s]|]; simplify_eq/=; [|done].
  destruct (z =? 0)%Z; done.
Qed.

Lemma case_match e bs :
  Match (rule_root (CaseSimplificationRule function_call)) (mkNode [] e) [] = (Ok true, bs) →
  ∃ t c a b, e = BoundCase t c a b ∧ IsFoldable c = true ∧ bs = [mkNode [] e; mkNode [0] c].
Proof using.
  cbn [CaseSimplificationRule rule_root Match]. pose proof (base_simple (any_of_class C_BOUND_CASE) (mkNode [] e) []) as Hb.
  cbv beta in Hb. destruct (base_ok _ (node_expr _)) eqn:Hok; rewrite (mbind_M_run _ _ _ _ _ Hb); [|done].
  pose proof (base_class (any_of_class C_BOUND_CASE) _ _ Hok eq_refl) as Hcl. cbn [node_expr] in *.
  destruct e as [| | | | |t c a b| | | | | | | | |]; try done. pose proof (foldable_simple (mkNode [0] c) [mkNode [] (BoundCase t c a b)]) as Hf.
  cbn [Match] in Hf. unfold is_foldable in Hf. cbn [node_expr] in Hf. intros Hs. exists t, c, a, b.
  destruct (IsFoldable c); [|by rewrite (mbind_M_run _ _ _ _ _ Hf) in Hs].
  rewrite (mbind_M_run _ _ _ _ _ Hf) in Hs. injection Hs as <-. done.
Qed.

Lemma CaseSimplification_sound : rule_sound (CaseSimplificationRule function_call).
Proof using Hfun Hrowwise Henv.
  intros e bs out o Ht Ho Hcl Hm Hout. apply case_match in Hm as (t & c & a & b & -> & Hf%foldable_scalar & ->).
  cbn [CaseSimplificationRule rule_Apply] in Hout. unfold CaseSimplification_Apply in Hout.
  cbn [binding lookup list_lookup deref] in Hout. run_in Hout. cbn [node_expr] in Hout. rewrite Hf in Hout. run_in Hout.
  apply bind_Ok in Hout as (v & Hv & Hout). destruct (folded_child _ o c v Ht Ho) as (oc & Hoc & Htc & Hvc); [left|done|done|].
  simpl in Ht. rewrite !andb_true_iff, !bool_decide_eq_true in Ht. destruct Ht as (((((_ & Hta) & Htb) & Hcb) & Ha) & Hb).
  rewrite Hcb in Hvc. subst v. rewrite CastAs_boolean in Hout. run_in Hout. apply bind_Ok in Hout as (h & Hh & [= <-]).
  apply folded_boolean with (oc := oc) in Hh; [|done]. cbn [ExpressionRows.eval] in Ho. rewrite Hoc in Ho. run_in Ho.
  apply bind_Ok in Ho as (x & Hx & Ho). apply bind_Ok in Ho as (y & Hy & [= <-]). rewrite <- Hh.
  assert (clean a ∧ clean b) as [Hca Hcb'] by (split; eapply clean_child; [done|set_solver+|done|set_solver+]). by destruct h.
Qed.

Lemma ConjunctionSimplification_sound : rule_sound (ConjunctionSimplificationRule function_call).
Proof using Hfun Hrowwise Henv.
  intros e bs out o Ht Ho Hcl Hm Hout. apply (conjunction_match _ is_foldable) in Hm; [|apply foldable_simple|done].
  destruct Hm as (type & x & y & c & He & Hin & Hf & ->). cbn [node_expr] in He. subst e. apply foldable_scalar in Hf.
  cbn [ConjunctionSimplificationRule rule_Apply] in Hout. unfold ConjunctionSimplification_Apply in Hout.
  cbn [binding app lookup list_lookup deref] in Hout. run_in Hout. rewrite Hf in Hout. run_in Hout.
  apply bind_Ok in Hout as (v & Hv & Hout). apply child_node in Hin as (i & Hi & Hp).
  destruct (folded_child _ o (node_expr c) v Ht Ho) as (oc & Hoc & Htc & Hvc); [by eapply list_elem_of_lookup_2|done|done|].
  pose proof Ht as Hts. simpl in Hts. rewrite !andb_true_iff, !bool_decide_eq_true in Hts. destruct Hts as ((((Htx & Hty) & Hbx) & Hby) & Htype).
  assert (return_type (node_expr c) = T_BOOLEAN) as Hbc by (destruct i as [|[|i]]; simplify_eq/=; congruence).
  rewrite Hbc in Hvc. subst v. rewrite CastAs_boolean in Hout. run_in Hout. unfold is_null in Hout. cbn [val_data] in Hout.
  destruct oc as [z|]; [|by injection Hout as <-]. apply bind_Ok in Hout as (b & Hb & Hout).
  assert (b = bool_decide (cell_bool (Some z) = Some true)) as Hbz by (by eapply folded_boolean).
  assert (cell_bool (Some z) = Some b) as Hcb.
  { unfold value_boolean in Hb. cbn [val_data] in Hb. destruct z as [n z|]; [|done]. by injection Hb as <-. }
  clear Hbz Hb. rewrite (is_child_spec _ 0 i c Hp) in Hout. cbn [node_expr] in Hout.
  set (other := if bool_decide (0 = i) then y else x) in *.
  assert (∃ ov, eval env other = Ok ov ∧ cells_ok T_BOOLEAN ov ∧ typed other = true ∧ return_type other = T_BOOLEAN ∧
    ∀ f, eval_conjunction type (Some z) ov = f → eval_conjunction type ov (Some z) = f →
      eval env (BoundConjunction type x y) = f) as (ov & Hov & Hcov & Hto & Hbo & Hfinal).
  { cbn [ExpressionRows.eval] in *. destruct (eval env x) as [ox| |] eqn:Hox; try done. destruct (eval env y) as [oy| |] eqn:Hoy; try done. run.
    destruct i as [|[|i]]; simplify_eq/=; unfold other; cbn.
    - exists oy. split; [done|]. split; [rewrite <- Hby; by eapply eval_ok|]. rewrite Hoc in Hox. injection Hox as <-. done.
    - exists ox. split; [done|]. split; [rewrite <- Hbx; by eapply eval_ok|]. rewrite Hoc in Hoy. injection Hoy as <-. done. }
  assert (eval_conjunction type (Some z) ov = eval_conjunction type ov (Some z)) as Hcomm.
  { destruct type; try done; cbn [eval_conjunction]; do 2 f_equal; destruct (cell_bool (Some z)) as [[]|], (cell_bool ov) as [[]|]; done. }
  rewrite (Hfinal (eval_conjunction type (Some z) ov)) in Ho by done.
  assert (o = Some (bool_cell b) → kept (BoundConjunction type x y) o (BoundConstant (Value_BOOLEAN b))) as Hconst.
  { intros ->. split; [|split; [done|split; [done|apply clean_constant]]]. cbn [ExpressionRows.typed]. unfold value_ok, Value_BOOLEAN. cbn. by destruct b. }
  destruct type; try done; cbn [eval_conjunction] in Ho; apply Ok_inj in Ho; rewrite Hcb in Ho; injection Hout as <-; destruct b; simpl in Ho.
  all: try (apply Hconst; rewrite <- Ho; by destruct (cell_bool ov) as [[]|]).
  all: split; [done|]; split; [done|]; split; [rewrite Hov, <- Ho, <- (boolean_canonical ov Hcov) at 1; by destruct (cell_bool ov) as [[]|]|].
  all: unfold other; case_bool_decide; eapply clean_child; [done|set_solver+|done|set_solver+].
Qed.

Lemma integer_width t : TypeIsInteger t = true → ∃ n, signed_width t = Some n ∧ (0 < n)%nat.
Proof using. destruct t; try done; eexists; (split; [done|lia]). Qed.

Lemma numeric_exact op t n w x y z :
  signed_width t = Some n → op ≠ OpModulo → numeric_Z op x y = Ok z → in_signed n z = true →
  numeric_value op t (Num n x) (Num w y) = Ok (Num n z).
Proof using.
  intros Hn Hop Hz Hin. assert (overflows op n x y z = false) as Ho by (destruct op; try done; simpl; by rewrite Hin).
  destruct t; simplify_eq/=; rewrite Hz; simpl; rewrite ?Ho, ?wrap_signed_id by done; done.
Qed.

Lemma Value_Numeric_small t n (k : Z) : TypeIsInteger t = true → signed_width t = Some n → (0 ≤ k ≤ 1)%Z →
  Value_Numeric t k = Ok (some_value t (Num n k)).
Proof using.
  intros Ht Hn Hk. assert (k = 0%Z ∨ k = 1%Z) as [-> | ->] by lia; destruct t; try done; injection Hn as <-; vm_compute; reflexivity.
Qed.

Lemma Value_compare_int op t n w x y : TypeIsInteger t = true → signed_width t = Some n →
  Value_compare op (mkValue t (Some (Num n x))) (mkValue t (Some (Num w y))) = Ok (holds op (Some (x ?= y)%Z)).
Proof using.
  intros Ht Hn. unfold Value_compare. rewrite decide_True by done. cbn [val_type val_data]. by destruct t.
Qed.

Lemma Value_eq_small t n z (k : Z) : TypeIsInteger t = true → signed_width t = Some n → (0 ≤ k ≤ 1)%Z →
  Value_eq_num (mkValue t (Some (Num n z))) k = Ok (z =? k)%Z.
Proof using.
  intros Ht Hn Hk. unfold Value_eq_num. cbn [val_type]. rewrite (Value_Numeric_small t n) by done. run.
  unfold Value_Equals, some_value. cbn [is_null val_data andb negb eqb]. rewrite Value_compare_int by done.
  rewrite Z.eqb_compare. by destruct (z ?= k)%Z.
Qed.

(** The operand that is left. *)
Lemma identity_value type op t n x o :
  signed_width t = Some n → arithmetic_of type = Some op → (∀ z, x = Some z → cell_ok t z = true) →
  (op = OpAdd → eval_binary type t x (Some (Num n 0)) = Ok o ∨ eval_binary type t (Some (Num n 0)) x = Ok o → o = x) ∧
  (op = OpSubtract → eval_binary type t x (Some (Num n 0)) = Ok o → o = x) ∧
  (op = OpMultiply → eval_binary type t x (Some (Num n 1)) = Ok o ∨ eval_binary type t (Some (Num n 1)) x = Ok o → o = x) ∧
  (op = OpDivide → eval_binary type t x (Some (Num n 1)) = Ok o → o = x) ∧
  (op = OpDivide → eval_binary type t x (Some (Num n 0)) = Ok o → o = None).
Proof using.
  intros Hn Hop Hx. unfold eval_binary. rewrite Hop.
  assert (∀ k, is_zero t (Num n k) = (k =? 0)%Z) as Hzero by (intros k; by destruct t; simplify_eq/=).
  destruct x as [c|]; [|split_and!; intros ->; cbn [both]; intuition congruence].
  destruct (cell_ok_num t n c Hn (Hx c eq_refl)) as (z & -> & Hz).
  split_and!; intros ->; cbn [both divides andb]; rewrite ?Hzero.
  - assert (numeric_Z OpAdd z 0 = Ok z ∧ numeric_Z OpAdd 0 z = Ok z) as [H1 H2] by (cbn; by rewrite Z.add_0_r).
    by intros [Ho|Ho]; erewrite numeric_exact in Ho by done; injection Ho as <-.
  - assert (numeric_Z OpSubtract z 0 = Ok z) as H1 by (cbn; by rewrite Z.sub_0_r).
    by intros Ho; erewrite numeric_exact in Ho by done; injection Ho as <-.
  - assert (numeric_Z OpMultiply z 1 = Ok z ∧ numeric_Z OpMultiply 1 z = Ok z) as [H1 H2] by (cbn [numeric_Z]; by rewrite Z.mul_1_r, Z.mul_1_l).
    by intros [Ho|Ho]; erewrite numeric_exact in Ho by done; injection Ho as <-.
  - assert (numeric_Z OpDivide z 1 = Ok z) as H1 by (cbn [numeric_Z Z.eqb]; by rewrite Z.quot_1_r).
    by intros Ho; erewrite numeric_exact in Ho by done; injection Ho as <-.
  - by intros [= <-].
Qed.

(** The operands of an arithmetic operator one of which is a constant. *)
Lemma arithmetic_operands type t l o (c : node) n v :
  typed (BoundOperator type t l) = true → eval env (BoundOperator type t l) = Ok o → arithmetic_of type ≠ None →
  c ∈ children_nodes n l → node_expr c = BoundConstant v →
  ∃ i a b x y, l = [a; b] ∧ node_path c = node_path n ++ [i] ∧
    typed a = true ∧ typed b = true ∧ return_type a = t ∧ return_type b = t ∧ eval env a = Ok x ∧ eval env b = Ok y ∧
    eval_binary type t x y = Ok o ∧ val_type v = t ∧ ((i = 0 ∧ a = BoundConstant v) ∨ (i = 1 ∧ b = BoundConstant v)).
Proof using.
  intros Ht Ho Hop Hin Hc. apply child_node in Hin as (i & Hi & Hp). rewrite Hc in Hi.
  cbn [ExpressionRows.typed] in Ht. apply andb_true_iff in Ht as [Htl Ht]. unfold operator_typed in Ht.
  assert (is_in type = false) as Hnin by (destruct type; done). rewrite Hnin in Ht.
  destruct l as [|a [|b [|]]]; try done; cbn [map] in Ht.
  { apply andb_true_iff in Ht as [_ Ht]. by destruct type. }
  rewrite !andb_true_iff, !bool_decide_eq_true in Ht. destruct Ht as [[Ha Hb] _].
  cbn [forallb] in Htl. rewrite !andb_true_iff in Htl. cbn [ExpressionRows.eval] in Ho. rewrite Hnin in Ho.
  apply bind_Ok in Ho as (x & Hx & Ho). apply bind_Ok in Ho as (y & Hy & Ho). rewrite Ha in Ho.
  exists i, a, b, x, y. split_and!; try done; try tauto.
  all: destruct i as [|[|i]]; simplify_eq/=; auto.
Qed.

Lemma ArithmeticSimplification_sound : rule_sound ArithmeticSimplificationRule.
Proof using Hfun Henv.
  clear Hrowwise function_call. intros e bs out o Ht Ho Hcl Hm Hout.
  apply (operator_match _ _ is_constant) in Hm as (type & t & l & c & He & Hbase & Hin & Hc & ->); [|done|apply constant_simple].
  cbn [node_expr] in *. subst e. unfold is_constant in Hc. destruct (node_expr c) as [| |v| | | | | | | | | | | |] eqn:Hv; try done.
  unfold base_ok in Hbase. cbn [m_type m_expr_type m_class match_type match_expression_type return_type expression_type] in Hbase.
  rewrite !andb_true_iff, !bool_decide_eq_true in Hbase. destruct Hbase as [[Hint Htype] _].
  destruct (arithmetic_operands type t l o c (mkNode [] (BoundOperator type t l)) v Ht Ho) as (i & a & b & x & y & -> & Hp & Hta & Htb & Hra & Hrb & Hx & Hy & Hbin & Hvt & Hi);
    [by intros Hnone; set_unfold; destruct Htype as [->|[->|[->|[->|[]]]]]|done|done|].
  destruct (integer_width t Hint) as (n & Hn & _).
  assert (∀ e z, typed e = true → return_type e = t → eval env e = Ok z → ∀ w, z = Some w → cell_ok t w = true) as Hok.
  { intros e z Hte Hre Hez w ->. rewrite <- Hre. by eapply (eval_ok _ _ _ _ _ _ _ Hfun Henv Hte Hez). }
  assert (∀ e z, typed e = true → return_type e = t → eval env e = Ok z → e ∈ [a; b] → z = o → kept (BoundOperator type t [a; b]) o e) as Hkeep.
  { intros e z Hte Hre Hez Hin' ->. split; [done|]. split; [done|]. split; [done|]. by eapply clean_child. }
  assert (o = None → kept (BoundOperator type t [a; b]) o (BoundConstant (null_of t))) as Hnull.
  { intros ->. apply kept_constant; done. }
  cbn [ArithmeticSimplificationRule rule_Apply] in Hout. unfold ArithmeticSimplification_Apply in Hout.
  cbn [binding app lookup list_lookup deref] in Hout. run_in Hout. cbn [node_expr] in Hout. rewrite Hv in Hout.
  rewrite (is_child_spec _ 0 i c Hp) in Hout. cbn [length Nat.eqb] in Hout. run_in Hout. unfold is_null in Hout.
  destruct v as [vt vd]. cbn [val_type val_data] in *. subst vt. destruct vd as [w|].
  2: { injection Hout as <-. apply Hnull. unfold eval_binary in Hbin.
    destruct (arithmetic_of type); [|done]. unfold both in Hbin.
    destruct Hi as [[-> ->]|[-> ->]]; cbn [ExpressionRows.eval val_data] in Hx, Hy;
      [injection Hx as <-|injection Hy as <-; destruct x]; by injection Hbin as <-. }
  assert (∃ z, w = Num n z) as [z ->].
  { assert (cell_ok t w = true) as Hw.
    { destruct Hi as [[_ Ha]|[_ Hb]]; [rewrite Ha in Hta|rewrite Hb in Htb];
        by eapply (Hok (BoundConstant (mkValue t (Some w))) (Some w)). }
    destruct (cell_ok_num t n w Hn Hw) as (z & -> & _). eauto. }
  rewrite !Value_eq_small in Hout by (done || lia).
  assert (type = OPERATOR_ADD ∨ type = OPERATOR_SUBTRACT ∨ type = OPERATOR_MULTIPLY ∨ type = OPERATOR_DIVIDE) as Hcases by set_solver.
  clear Htype. destruct Hi as [[-> ->]|[-> ->]]; cbn [ExpressionRows.eval val_data] in Hx, Hy;
    [injection Hx as <-|injection Hy as <-]; cbn in Hout.
  - pose proof (fun op => identity_value type op t n y o Hn) as Hid. pose proof (Hok b y Htb Hrb Hy) as Hyok.
    destruct Hcases as [->|[->|[->| ->]]]; cbn in Hout; try (by injection Hout as <-).
    + destruct (Z.eqb_spec z 0) as [->|]; injection Hout as <-; [|done]. eapply Hkeep; [done|done|done|set_solver+|].
      symmetry. destruct (Hid OpAdd eq_refl Hyok) as (H1 & _). apply H1; [done|by right].
    + destruct (Z.eqb_spec z 1) as [->|]; injection Hout as <-; [|done]. eapply Hkeep; [done|done|done|set_solver+|].
      symmetry. destruct (Hid OpMultiply eq_refl Hyok) as (_ & _ & H1 & _). apply H1; [done|by right].
  - pose proof (fun op => identity_value type op t n x o Hn) as Hid. pose proof (Hok a x Hta Hra Hx) as Hxok.
    destruct Hcases as [->|[->|[->| ->]]]; cbn in Hout.
    + destruct (Z.eqb_spec z 0) as [->|]; injection Hout as <-; [|done]. eapply Hkeep; [done|done|done|set_solver+|].
      symmetry. destruct (Hid OpAdd eq_refl Hxok) as (H1 & _). apply H1; [done|by left].
    + destruct (Z.eqb_spec z 0) as [->|]; injection Hout as <-; [|done]. eapply Hkeep; [done|done|done|set_solver+|].
      symmetry. destruct (Hid OpSubtract eq_refl Hxok) as (_ & H1 & _). by apply H1.
    + destruct (Z.eqb_spec z 1) as [->|]; injection Hout as <-; [|done]. eapply Hkeep; [done|done|done|set_solver+|].
      symmetry. destruct (Hid OpMultiply eq_refl Hxok) as (_ & _ & H1 & _). apply H1; [done|by left].
    + destruct (Hid OpDivide eq_refl Hxok) as (_ & _ & _ & H1 & H0).
      destruct (Z.eqb_spec z 1) as [->|]; [injection Hout as <-; eapply Hkeep; [done|done|done|set_solver+|]; symmetry; by apply H1|].
      cbn in Hout. destruct (Z.eqb_spec z 0) as [->|]; injection Hout as <-; [|done]. apply Hnull. by apply H0.
Qed.

(** *** Moving constants *)

(** The wide integers; arithmetic on them does not wrap around. *)
Definition wide (t : TypeId) (n : nat) : Prop := (t = T_INTEGER ∧ n = 4) ∨ (t = T_BIGINT ∧ n = 8).

Lemma wide_value op t n v w x y z :
  wide t n → numeric_value op t (Num v x) (Num w y) = Ok z → ∃ r, numeric_Z op x y = Ok r ∧ z = Num n r ∧ (op ≠ OpModulo → in_signed n r = true).
Proof using.
  intros [[-> ->]|[-> ->]] Hz; simpl in Hz; apply bind_Ok in Hz as (r & Hr & Hz); destruct (overflows op _ x y r) eqn:Ho; try done;
    injection Hz as <-; exists r; (split; [done|]); (split; [done|]); intros Hop; destruct op; try done; by apply negb_false_iff in Ho.
Qed.

Lemma wide_binary op t n x y v : wide t n → op ≠ OpModulo →
  value_binary (VNumeric op) (mkValue t (Some (Num n x))) (mkValue t (Some (Num n y))) = Ok v →
  ∃ r, numeric_Z op x y = Ok r ∧ v = mkValue t (Some (Num n r)) ∧ in_signed n r = true.
Proof using.
  intros Hw Hop. unfold value_binary. cbn [is_null val_data val_type orb]. rewrite bool_decide_eq_true_2 by done.
  unfold value_op_same. cbn [val_data val_type]. intros (z & Hz & [= <-])%bind_Ok.
  assert (value_op_cells (VNumeric op) t (Num n x) (Num n y) = numeric_value op t (Num n x) (Num n y)) as E
    by (by destruct Hw as [[-> _]|[-> _]]).
  rewrite E in Hz. destruct (wide_value op t n n n x y z Hw Hz) as (r & Hr & -> & Hin). exists r. auto.
Qed.

Lemma wide_integer t n : wide t n → TypeIsInteger t = true ∧ signed_width t = Some n ∧ TypeIsIntegral t = true ∧ (0 < n)%nat.
Proof using. intros [[-> ->]|[-> ->]]; split_and!; done || lia. Qed.

(** The value of the arithmetic expression; [i] is the index of the operand
    that is not the constant [c]. *)
Definition arithmetic_Z (at_ : ExpressionType) (i : nat) (z c : Z) : result Z :=
  match arithmetic_of at_ with
  | Some op => if (i =? 0)%nat then numeric_Z op z c else numeric_Z op c z
  | None => Undef
  end.

Lemma compare_difference a b c d : (a - b = c - d)%Z → (a ?= b)%Z = (c ?= d)%Z.
Proof using. intros E. rewrite (Z.compare_sub a b), (Z.compare_sub c d). by rewrite E. Qed.

Lemma scaled_comparison c q :
  (0 < c → ∀ z, (c * z ?= c * q)%Z = (z ?= q)%Z)%Z ∧ (c < 0 → ∀ z, (c * z ?= c * q)%Z = CompOpp (z ?= q)%Z)%Z.
Proof using.
  split; intros Hc z.
  - destruct (Z.compare_spec z q); [subst; apply Z.compare_refl|apply Z.compare_lt_iff; nia|apply Z.compare_gt_iff; nia].
  - destruct (Z.compare_spec z q); [subst; apply Z.compare_refl|apply Z.compare_gt_iff; nia|apply Z.compare_lt_iff; nia].
Qed.

(** The comparison with the moved constant has the same outcome, in both
    orientations. *)
Definition equivalent_comparison (op op' : comparison_op) (r k z q : Z) : Prop :=
  holds op (Some (r ?= k)%Z) = holds op' (Some (z ?= q)%Z) ∧ holds op (Some (k ?= r)%Z) = holds op' (Some (q ?= z)%Z).

Lemma same_comparison op r k z q : (r ?= k)%Z = (z ?= q)%Z → equivalent_comparison op op r k z q.
Proof using. intros E. split; [by rewrite E|]. by rewrite (Z.compare_antisym r k), (Z.compare_antisym z q), E. Qed.

Lemma flip_comparison type type' op :
  FlipComparisionExpression type = Ok type' → comparison_of type = Some op →
  ∃ op', comparison_of type' = Some op' ∧ ∀ r k z q, (r ?= k)%Z = CompOpp (z ?= q)%Z → equivalent_comparison op op' r k z q.
Proof using.
  intros Hf Hop.
  assert (∀ op', (∀ c, holds op (Some (CompOpp c)) = holds op' (Some c)) →
    ∀ r k z q, (r ?= k)%Z = CompOpp (z ?= q)%Z → equivalent_comparison op op' r k z q) as Hflip.
  { intros op' Hh r k z q E. split; [by rewrite E, Hh|].
    by rewrite (Z.compare_antisym r k), (Z.compare_antisym z q), E, Hh. }
  destruct type; simpl in *; simplify_eq; eexists; (split; [reflexivity|]); apply Hflip; by intros [].
Qed.

Lemma moved_value at_ type op i t n k c type' v :
  wide t n → comparison_of type = Some op →
  moved_constant at_ type i (mkValue t (Some (Num n k))) (mkValue t (Some (Num n c))) = Ok (Some (type', v)) →
  ∃ op' q, comparison_of type' = Some op' ∧ v = mkValue t (Some (Num n q)) ∧ in_signed n q = true ∧
    ∀ z r, arithmetic_Z at_ i z c = Ok r → equivalent_comparison op op' r k z q.
Proof using.
  intros Hw Hop. destruct (wide_integer t n Hw) as (Hint & Hn & Hintegral & Hpos). unfold moved_constant, arithmetic_Z.
  destruct at_; try done; cbn [arithmetic_of].
  - intros (w & (q & [= <-] & -> & Hin)%(wide_binary _ _ n) & [= <- <-])%bind_Ok; [|done|done].
    exists op, (k - c)%Z. split_and!; [done..|]. intros z r Hr. apply same_comparison.
    destruct (i =? 0)%nat; injection Hr as <-; apply compare_difference; lia.
  - destruct (i =? 0)%nat eqn:Hi.
    + intros (w & (q & [= <-] & -> & Hin)%(wide_binary _ _ n) & [= <- <-])%bind_Ok; [|done|done].
      exists op, (k + c)%Z. split_and!; [done..|]. intros z r [= <-]. apply same_comparison, compare_difference. lia.
    + intros (w & (q & [= <-] & -> & Hin)%(wide_binary _ _ n) & Hrest)%bind_Ok; [|done|done].
      apply bind_Ok in Hrest as (ty & Hty & [= <- <-]). destruct (flip_comparison _ _ _ Hty Hop) as (op' & Hop' & Heq).
      exists op', (c - k)%Z. split_and!; [done..|]. intros z r [= <-]. apply Heq. rewrite <- Z.compare_antisym. apply compare_difference. lia.
  - rewrite (Value_eq_small t n c 0) by (done || lia). run. destruct (Z.eqb_spec c 0) as [|Hc]; [done|].
    unfold Value_Modulo. cbn [val_type]. rewrite Hintegral. cbn [negb orb]. rewrite decide_True by done. unfold modulo_same. cbn [val_data].
    intros (m & Hm & Hrest)%bind_Ok.
    assert (∃ z, numeric_value OpModulo t (Num n k) (Num n c) = Ok z ∧ m = some_value t z) as (z & Hz & ->).
    { destruct Hw as [[-> ->]|[-> ->]]; apply bind_Ok in Hm as (z & Hz & [= <-]); eauto. }
    destruct (wide_value _ _ _ _ _ _ _ _ Hw Hz) as (r & Hr & -> & _). cbn in Hr. destruct (Z.eqb_spec c 0); [done|]. injection Hr as <-.
    unfold some_value in Hrest. rewrite (Value_eq_small t n _ 0) in Hrest by (done || lia). run_in Hrest.
    destruct (Z.eqb_spec (Z.rem k c) 0) as [Hrem|]; [|done]. cbn [negb] in Hrest.
    apply bind_Ok in Hrest as (neg & Hneg & Hrest). apply bind_Ok in Hrest as (ty & Hty & Hrest).
    apply bind_Ok in Hrest as (w & Hw' & [= <- <-]).
    assert (neg = (c <? 0)%Z) as ->.
    { unfold Value_lt_num in Hneg. cbn [val_type] in Hneg. rewrite (Value_Numeric_small t n) in Hneg by (done || lia). run_in Hneg.
      unfold Value_LessThan, Value_GreaterThan, some_value in Hneg. cbn [is_null val_data andb] in Hneg.
      rewrite Value_compare_int in Hneg by done. apply Ok_inj in Hneg. rewrite <- Hneg. unfold holds.
      destruct (Z.compare_spec 0 c), (Z.ltb_spec c 0); done || lia. }
    unfold Value_Divide in Hw'. cbn [val_type] in Hw'. rewrite (Value_Numeric_small t n) in Hw' by (done || lia). run_in Hw'.
    rewrite (Value_eq_small t n c 0) in Hw' by (done || lia). run_in Hw'. destruct (Z.eqb_spec c 0); [done|].
    apply (wide_binary _ _ n) in Hw' as (q & Hq & -> & Hin); [|done|done]. cbn in Hq. destruct (Z.eqb_spec c 0); [done|]. injection Hq as <-.
    assert (k = c * Z.quot k c)%Z as Hk by (pose proof (Z.quot_rem' k c); lia).
    destruct (scaled_comparison c (Z.quot k c)) as [Hpos' Hneg'].
    destruct (Z.ltb_spec c 0) as [Hlt|Hge].
    + destruct (flip_comparison _ _ _ Hty Hop) as (op' & Hop' & Heq). exists op', (Z.quot k c). split_and!; [done..|].
      intros z r Hr. apply Heq. rewrite Hk at 1. rewrite <- Hneg' by done. destruct (i =? 0)%nat; injection Hr as <-; f_equal; lia.
    + injection Hty as <-. exists op, (Z.quot k c). split_and!; [done..|]. intros z r Hr. apply same_comparison. rewrite Hk at 1.
      rewrite <- Hpos' by lia. destruct (i =? 0)%nat; injection Hr as <-; f_equal; lia.
Qed.

Lemma wide_null op t n outer inner : wide t n → val_type outer = t → val_type inner = t → val_data outer = None ∨ val_data inner = None →
  value_binary (VNumeric op) outer inner = Ok (null_of t).
Proof using.
  intros Hw Ho Hi Hnull. unfold value_binary. rewrite Ho, Hi, (bool_decide_eq_true_2 (t = t)), orb_true_r by done.
  unfold value_op_same. rewrite Ho, Hi. assert (type_max t t = t) as -> by (by destruct Hw as [[-> _]|[-> _]]).
  destruct Hnull as [-> | ->]; [by destruct (val_data inner)|by destruct (val_data outer)].
Qed.

Lemma moved_null at_ type op i t n outer inner type' v :
  wide t n → comparison_of type = Some op → val_type outer = t → val_type inner = t → val_data outer = None ∨ val_data inner = None →
  moved_constant at_ type i outer inner = Ok (Some (type', v)) →
  v = null_of t ∧ ∃ op', comparison_of type' = Some op'.
Proof using.
  intros Hw Hop Ho Hi Hnull. destruct (wide_integer t n Hw) as (Hint & Hn & Hintegral & Hpos).
  pose proof (λ op, wide_null op t n outer inner Hw Ho Hi Hnull) as Hbin.
  assert (val_data inner = None ∨ val_data outer = None) as Hnull' by tauto.
  pose proof (λ op, wide_null op t n inner outer Hw Hi Ho Hnull') as Hbin'.
  assert (∀ ty, FlipComparisionExpression type = Ok ty → ∃ op', comparison_of ty = Some op') as Hflip.
  { intros ty Hty. destruct (flip_comparison _ _ _ Hty Hop) as (op' & ? & _). eauto. }
  unfold moved_constant, Value_Subtract, Value_Add. destruct at_; try done.
  - rewrite Hbin. intros [= <- <-]. eauto.
  - destruct (i =? 0)%nat; [rewrite Hbin; intros [= <- <-]; eauto|]. rewrite Hbin'. run.
    intros (ty & Hty & [= <- <-])%bind_Ok. eauto.
  - destruct (Value_eq_num inner 0) as [[]| |]; try done. run. intros (m & Hm & Hrest)%bind_Ok. unfold Value_Modulo in Hm.
    rewrite Ho, Hi, Hintegral in Hm. cbn [negb orb] in Hm. rewrite decide_True in Hm by done. unfold modulo_same in Hm.
    assert (m = null_of t) as ->.
    { destruct Hnull as [E|E]; rewrite E in Hm; [by injection Hm|by destruct (val_data outer); injection Hm]. }
    unfold Value_eq_num in Hrest. cbn [null_of val_type] in Hrest. rewrite (Value_Numeric_small t n) in Hrest by (done || lia). run_in Hrest.
    unfold Value_Equals, some_value in Hrest. cbn in Hrest. done.
Qed.

(** The arithmetic operand of a comparison. *)
Lemma arithmetic_value at_ i t n ox oy o c other :
  wide t n → arithmetic_of at_ ≠ None → at_ ≠ OPERATOR_DIVIDE → at_ ≠ OPERATOR_MOD → eval_binary at_ t ox oy = Ok o →
  (i = 0 ∧ oy = Some (Num n c) ∧ other = ox) ∨ (i = 1 ∧ ox = Some (Num n c) ∧ other = oy) →
  match other with
  | Some (Num w z) => ∃ r, arithmetic_Z at_ i z c = Ok r ∧ o = Some (Num n r)
  | Some _ => True
  | None => o = None
  end.
Proof using.
  intros Hw Hop Hd Hm Hbin Hcase. unfold eval_binary in Hbin. unfold arithmetic_Z.
  destruct (arithmetic_of at_) as [op|] eqn:Hat; [|done]. assert (divides op = false) as Hdiv by (destruct at_; try done; by injection Hat as <-).
  rewrite Hdiv in Hbin. cbn [andb] in Hbin. 
  destruct Hcase as [(-> & -> & ->)|(-> & -> & ->)].
  - destruct ox as [[w z|]|]; [|done|by injection Hbin as <-]. cbn [both] in Hbin. apply bind_Ok in Hbin as (x & Hx & [= <-]).
    destruct (wide_value _ _ _ _ _ _ _ _ Hw Hx) as (r & Hr & -> & _). eauto.
  - destruct oy as [[w z|]|]; [|done|by injection Hbin as <-]. cbn [both] in Hbin. apply bind_Ok in Hbin as (x & Hx & [= <-]).
    destruct (wide_value _ _ _ _ _ _ _ _ Hw Hx) as (r & Hr & -> & _). eauto.
Qed.

Lemma comparison_value type op t n p q : wide t n → comparison_of type = Some op →
  eval_comparison type t (Some (Num n p)) (Some (Num n q)) = Ok (Some (bool_cell (holds op (Some (p ?= q)%Z)))).
Proof using. intros Hw Hop. unfold eval_comparison, both, compare_op. rewrite Hop. by destruct Hw as [[-> ->]|[-> ->]]. Qed.

Lemma comparison_null type op t x y : comparison_of type = Some op → x = None ∨ y = None → eval_comparison type t x y = Ok None.
Proof using. intros Hop Hnull. unfold eval_comparison, both. rewrite Hop. destruct Hnull as [-> | ->]; [done|by destruct x]. Qed.

(** Both orientations of the comparison of an arithmetic expression, whose
    value is [oa], with a constant, before and after the constant is moved. *)
Lemma moved_comparison type op at_ i t n vo vi type' v ov oa :
  wide t n → comparison_of type = Some op → val_type vo = t → val_type vi = t →
  (∀ z, val_data vo = Some z → cell_ok t z = true) → (∀ z, val_data vi = Some z → cell_ok t z = true) → cells_ok t ov →
  moved_constant at_ type i vo vi = Ok (Some (type', v)) →
  match val_data vi with
  | Some (Num w c) => match ov with Some (Num _ z) => ∃ r, arithmetic_Z at_ i z c = Ok r ∧ oa = Some (Num n r) | Some _ => True | None => oa = None end
  | Some _ => True
  | None => oa = None
  end →
  value_ok v = true ∧ val_type v = t ∧ (∃ op', comparison_of type' = Some op') ∧
  eval_comparison type' t ov (val_data v) = eval_comparison type t oa (val_data vo) ∧
  eval_comparison type' t (val_data v) ov = eval_comparison type t (val_data vo) oa.
Proof using.
  intros Hw Hop Hto Hti Hoo Hoi Hov Hmoved Harith. destruct (wide_integer t n Hw) as (Hint & Hn & _ & _).
  assert (proper t = true) as Hp by (by destruct Hw as [[-> _]|[-> _]]).
  destruct vo as [to do], vi as [ti di]. cbn [val_type val_data] in *. subst to ti.
  destruct (decide (do = None ∨ di = None)) as [Hnull|Hnull].
  { destruct (moved_null at_ type op i t n (mkValue t do) (mkValue t di) type' v Hw Hop eq_refl eq_refl Hnull Hmoved) as [-> [op' Hop']].
    assert (do = None ∨ oa = None) as Hna by (destruct Hnull as [->| ->]; auto).
    split; [unfold value_ok; simpl; by rewrite Hp|]. split; [done|]. split; [eauto|]. cbn [null_of val_data].
    rewrite !(comparison_null type' op') by auto. rewrite !(comparison_null type op) by tauto. done. }
  destruct do as [x|]; [|tauto]. destruct di as [y|]; [|tauto]. clear Hnull.
  destruct (cell_ok_num t n x Hn (Hoo x eq_refl)) as (k & -> & Hk). destruct (cell_ok_num t n y Hn (Hoi y eq_refl)) as (c & -> & Hc).
  destruct (moved_value at_ type op i t n k c type' v Hw Hop Hmoved) as (op' & q & Hop' & -> & Hq & Heq).
  split; [unfold value_ok; cbn [val_type val_data]; by rewrite Hp, (cell_ok_signed t n)|]. split; [done|]. split; [eauto|]. cbn [val_data].
  destruct ov as [w|].
  - destruct (cell_ok_num t n w Hn (Hov w eq_refl)) as (z & -> & Hz). destruct Harith as (r & Hr & ->).
    destruct (Heq z r Hr) as [H1 H2]. rewrite !(comparison_value type' op' t n), !(comparison_value type op t n) by done. by rewrite H1, H2.
  - rewrite Harith. rewrite !(comparison_null type' op') by auto. by rewrite !(comparison_null type op) by auto.
Qed.

Lemma wide_of_clean at_ t l : clean_node allow_or (BoundOperator at_ t l) = true →
  base_ok arithmetic_base (BoundOperator at_ t l) = true → arithmetic_of at_ ≠ None ∧ at_ ≠ OPERATOR_DIVIDE ∧ at_ ≠ OPERATOR_MOD ∧ ∃ n, wide t n.
Proof using.
  intros Hcl Hb. unfold base_ok in Hb. cbn in Hb. rewrite !andb_true_iff in Hb. destruct Hb as [[Hint Hat%bool_decide_eq_true] _].
  assert (at_ = OPERATOR_ADD ∨ at_ = OPERATOR_SUBTRACT ∨ at_ = OPERATOR_MULTIPLY) as Hcases by (clear -Hat; set_solver).
  destruct Hcases as [->|[->| ->]]; (split; [done|]); (split; [done|]); (split; [done|]);
    destruct t; try done; [exists 4; by left|exists 8; by right|exists 4; by left|exists 8; by right|exists 4; by left|exists 8; by right].
Qed.

Lemma constant_cells v z : typed (BoundConstant v) = true → val_data v = Some z → cell_ok (val_type v) z = true.
Proof using. cbn [ExpressionRows.typed]. unfold value_ok. rewrite andb_true_iff. intros [_ Hv] E. by rewrite E in Hv. Qed.

(** The operand of the arithmetic expression that stays, and the value of the
    arithmetic expression. *)
Lemma arithmetic_rest at_ t n l o (arithmetic inner : node) vi :
  typed (BoundOperator at_ t l) = true → eval env (BoundOperator at_ t l) = Ok o → wide t n →
  arithmetic_of at_ ≠ None → at_ ≠ OPERATOR_DIVIDE → at_ ≠ OPERATOR_MOD →
  inner ∈ children_nodes arithmetic l → node_expr inner = BoundConstant vi →
  let j := if is_child arithmetic 0 inner then 1 else 0 in
  ∃ other ov, l !! j = Some other ∧ typed other = true ∧ return_type other = t ∧ eval env other = Ok ov ∧ cells_ok t ov ∧
    val_type vi = t ∧ typed (BoundConstant vi) = true ∧
    match val_data vi with
    | Some (Num w c) => match ov with Some (Num _ z) => ∃ r, arithmetic_Z at_ j z c = Ok r ∧ o = Some (Num n r) | Some _ => True | None => o = None end
    | Some _ => True
    | None => o = None
    end.
Proof using Hfun Henv.
  intros Ht Ho Hw Hop Hd Hm Hin Hvi j. destruct (wide_integer t n Hw) as (_ & Hn & _ & _).
  destruct (arithmetic_operands at_ t l o inner arithmetic vi Ht Ho Hop Hin Hvi)
    as (i & a & b & x & y & -> & Hp & Hta & Htb & Hra & Hrb & Hx & Hy & Hbin & Hvt & Hi).
  unfold j. rewrite (is_child_spec arithmetic 0 i inner Hp).
  assert (cells_ok t x ∧ cells_ok t y) as [Hcx Hcy].
  { split; [rewrite <- Hra; by eapply eval_ok|rewrite <- Hrb; by eapply eval_ok]. }
  assert (∀ w, val_data vi = Some w → cell_ok t w = true → ∃ c, w = Num n c) as Hnum.
  { intros w _ Hw'. destruct (cell_ok_num t n w Hn Hw') as (c & -> & _). eauto. }
  assert (x = None ∨ y = None → o = None) as Hnull.
  { intros Hxy. unfold eval_binary in Hbin. destruct (arithmetic_of at_); [|done]. unfold both in Hbin.
    destruct Hxy as [-> | ->]; [by injection Hbin|destruct x; by injection Hbin]. }
  destruct Hi as [[-> ->]|[-> ->]]; cbn [ExpressionRows.eval] in Hx, Hy.
  - injection Hx as <-. exists b, y. split_and!; try done. destruct (val_data vi) as [w|] eqn:E; [|auto].
    destruct (Hnum w eq_refl) as [c ->]; [by apply Hcx|]. eapply (arithmetic_value at_ 1 t n _ y o c y); eauto.
  - injection Hy as <-. exists a, x. split_and!; try done. destruct (val_data vi) as [w|] eqn:E; [|auto].
    destruct (Hnum w eq_refl) as [c ->]; [by apply Hcy|]. eapply (arithmetic_value at_ 0 t n x _ o c x); eauto.
Qed.

Lemma clean_comparison type a b : clean a → clean b → clean (BoundComparison type a b).
Proof using.
  intros Ha Hb x [->|(c & Hc & Hx)]%subexpression_inv; [done|]. simpl in Hc.
  repeat (apply elem_of_cons in Hc as [->|Hc]); [by apply Ha|by apply Hb|by apply elem_of_nil in Hc].
Qed.

Lemma MoveConstants_sound : rule_sound MoveConstantsRule.
Proof using Hfun Henv.
  intros e bs out o Ht Ho Hcl Hm Hout.
  apply move_match in Hm as (type & x & y & outer & arithmetic & inner & at_ & t & l & -> & -> & Horient & Hco & Harith & Hbase & Hin & Hci).
  unfold is_constant in Hco, Hci. destruct (node_expr outer) as [| |vo| | | | | | | | | | | |] eqn:Hvo; try done.
  destruct (node_expr inner) as [| |vi| | | | | | | | | | | |] eqn:Hvi; try done.
  assert (clean (node_expr arithmetic) ∧ typed x = true ∧ typed y = true ∧ return_type x = return_type y ∧
    (comparison_of type = None → return_type x = T_VARCHAR)) as (Hca & Htx & Hty & Heq & Hlike).
  { split; [destruct Horient as [[_ ->]|[_ ->]]; eapply clean_child; [done|set_solver+|done|set_solver+]|].
    simpl in Ht. unfold comparison_typed in Ht. rewrite !andb_true_iff, bool_decide_eq_true in Ht. destruct Ht as ((? & ?) & Heq & Hop).
    split_and!; try done. intros Hnone. rewrite Hnone in Hop. destruct type; try done; by apply bool_decide_eq_true in Hop. }
  rewrite Harith in Hca. destruct (wide_of_clean at_ t l) as (Hop & Hd & Hmod & n & Hw); [apply Hca; constructor|done|].
  cbn [ExpressionRows.eval] in Ho. apply bind_Ok in Ho as (ox & Hox & Ho). apply bind_Ok in Ho as (oy & Hoy & Ho).
  cbn [MoveConstantsRule rule_Apply] in Hout. unfold MoveConstants_Apply in Hout. cbn [binding lookup list_lookup deref] in Hout. run_in Hout.
  cbn [node_expr] in Hout. rewrite Hvo, Harith, Hvi in Hout. apply bind_Ok in Hout as (moved & Hmoved & Hout).
  destruct moved as [[type' v]|]; [|by injection Hout as <-].
  destruct Horient as [[-> ->]|[-> ->]]; cbn [node_expr] in *; subst.
  all: (destruct (arithmetic_rest at_ t n l _ _ inner vi Hty Hoy Hw Hop Hd Hmod Hin Hvi) as (other & ov & Hother & Hto & Hro & Hov & Hcov & Hti & Htvi & Hval)
    || destruct (arithmetic_rest at_ t n l _ _ inner vi Htx Hox Hw Hop Hd Hmod Hin Hvi) as (other & ov & Hother & Hto & Hro & Hov & Hcov & Hti & Htvi & Hval)).
  all: rewrite Hother in Hout; run_in Hout; injection Hout as <-.
  all: cbn [return_type] in Heq, Hlike, Ho; destruct (comparison_of type) as [op|] eqn:Hcomp; [|specialize (Hlike eq_refl); destruct Hw as [[-> _]|[-> _]]; congruence].
  all: assert (clean other) as Hclo by (eapply (clean_child _ (BoundOperator at_ t l)); [done|by eapply list_elem_of_lookup_2]).
  - injection Hox as <-. assert (∀ z, val_data vo = Some z → cell_ok t z = true) as H1 by (intros z Hz; rewrite <- Heq; by apply constant_cells).
    assert (∀ z, val_data vi = Some z → cell_ok t z = true) as H2 by (intros z Hz; rewrite <- Hti; by apply constant_cells).
    destruct (moved_comparison _ _ _ _ _ _ _ _ _ _ _ _ Hw Hcomp Heq Hti H1 H2 Hcov Hmoved Hval) as (Hvok & Hvt & [op' Hop'] & _ & Heval).
    change (is_child _ 0 _) with true. split_and!; [|done| |by apply clean_comparison; [apply clean_constant|]].
    + cbn [ExpressionRows.typed return_type]. unfold comparison_typed. rewrite Hvok, Hto, Hvt, Hro, Hop', bool_decide_eq_true_2 by done. done.
    + cbn [ExpressionRows.eval return_type]. rewrite Hov. run. rewrite Hvt, Heval, <- Heq. done.
  - injection Hoy as <-. assert (∀ z, val_data vo = Some z → cell_ok t z = true) as H1 by (intros z Hz; rewrite Heq; by apply constant_cells).
    assert (∀ z, val_data vi = Some z → cell_ok t z = true) as H2 by (intros z Hz; rewrite <- Hti; by apply constant_cells).
    destruct (moved_comparison _ _ _ _ _ _ _ _ _ _ _ _ Hw Hcomp (eq_sym Heq) Hti H1 H2 Hcov Hmoved Hval) as (Hvok & Hvt & [op' Hop'] & Heval & _).
    change (is_child _ 0 _) with false. split_and!; [|done| |by apply clean_comparison; [|apply clean_constant]].
    + cbn [ExpressionRows.typed return_type]. unfold comparison_typed. rewrite Hvok, Hto, Hvt, Hro, Hop', bool_decide_eq_true_2 by done. done.
    + cbn [ExpressionRows.eval return_type]. rewrite Hov. run. by rewrite Hro, Heval.
Qed.
End rules.
