(* ===== verification/RewritingTermination.v ===== *)
(** * The rewriter terminates

    Every rule of [src/src/optimizer/rule/] makes the expression it changes
    smaller, in the number of nodes where constants count half.  The fuel of
    the rewriter is the weight of the expression, and it is enough. *)

From Stdlib Require Import ZArith Lia.
From stdpp Require Import base gmap list strings option numbers sorting relations.
From S2P Require Import Prelude Types Vector Serializer StringStream DateTime Operators VectorOps Like Casts Value Expressions ExpressionRows ExecutorProofs Matchers Rewriting RewritingProofs.

(** ** The weight of expressions *)

Lemma assert_Ok b u : assert_ b = Ok u → b = true.
Proof. by destruct b. Qed.

Lemma weight_pos e : 1 ≤ weight e.
Proof. destruct e; simpl; lia. Qed.

Lemma weight_other e : GetExpressionClass e ≠ C_BOUND_CONSTANT → 2 ≤ weight e.
Proof. destruct e; simpl; try done; lia. Qed.

Lemma weight_list c l : c ∈ l → weight c ≤ list_sum (map weight l).
Proof. induction 1; simpl; lia. Qed.

Lemma weight_child e c : c ∈ children_of e → 2 + weight c ≤ weight e.
Proof.
  destruct e; cbn [children_of EnumerateChildren weight]; intros Hc; try (by apply elem_of_nil in Hc);
    try (apply weight_list in Hc; lia).
  all: repeat (apply elem_of_cons in Hc as [->|Hc]); [lia..|by apply elem_of_nil in Hc].
Qed.

Lemma weight_children e cs :
  length cs = length (children_of e) → list_sum (map weight cs) ≤ list_sum (map weight (children_of e)) →
  weight (with_children e cs) + list_sum (map weight (children_of e)) ≤ weight e + list_sum (map weight cs).
Proof.
  destruct e; cbn [children_of EnumerateChildren with_children weight]; intros Hlen Hle; try (simpl in *; lia).
  all: repeat (let c := fresh "c" in destruct cs as [|c cs]; [done|]); destruct cs; [|done]; simpl in *; lia.
Qed.

(** ** Rules that make expressions smaller *)

(** The number of nodes, constants counting half, gets smaller. *)
Definition decreasing `{!FloatText} (r : Rule) : Prop := ∀ e bs out,
  Match (rule_root r) (mkNode [] e) [] = (Ok true, bs) → rule_Apply r bs = Ok out →
  match out with Unchanged => True | Returned e' | ChangedTo e' => weight e' < weight e end.

Lemma try_rules_decreasing `{!FloatText} rules e out : Forall decreasing rules → try_rules rules e = Ok out →
  match out with Unchanged => True | Returned e' | ChangedTo e' => weight e' < weight e end.
Proof.
  intros Hrules. induction Hrules as [|r l Hr _ IH]; cbn [try_rules]; [by intros [= <-]|].
  destruct (Match (rule_root r) (mkNode [] e) []) as [[[]| |] bs] eqn:Hm; try done.
  intros (out' & Hout & Hnext)%bind_Ok. specialize (Hr e bs out' Hm Hout). destruct out'; [by apply IH|injection Hnext as <-; exact Hr..].
Qed.

Section rewriter.
Context `{!FloatText}.
Context (rules : list Rule) (Hrules : Forall decreasing rules).

(** What the rewriter returns is not larger, and smaller if it changed. *)
Definition no_larger (e : Expression) (res : result (Expression * bool)) : Prop :=
  match res with Ok (e', changed) => if changed : bool then weight e' < weight e else weight e' = weight e ∧ e' = e | _ => True end.

Lemma with_enumerated_children e : EnumerateChildren e = children_of e ∨ EnumerateChildren e = [] → with_children e (EnumerateChildren e) = e.
Proof using. destruct e; simpl; try done; by destruct owned. Qed.

Lemma apply_all_total f l :
  (∀ c, c ∈ l → ∃ res, f c = Some res ∧ no_larger c res) →
  ∃ res, apply_all f l = Some res ∧
    match res with
    | Ok (cs, changed) => length cs = length l ∧
      if changed : bool then list_sum (map weight cs) < list_sum (map weight l) else cs = l
    | _ => True
    end.
Proof using.
  induction l as [|c l IH]; intros Hf; cbn [apply_all]; [eexists; split; [done|]; by split|].
  destruct (Hf c) as (res & -> & Hres); [left|]. destruct res as [[c' b]| |]; simpl; [|by eexists; split..].
  destruct IH as (res & Hl & Hcs); [intros d Hd; apply Hf; by right|]. rewrite Hl. simpl.
  destruct res as [[cs b']| |]; simpl; [|by eexists; split..]. eexists. split; [done|]. destruct Hcs as [Hlen Hcs].
  split; [simpl; by rewrite Hlen|]. simpl in Hres. destruct b; simpl.
  - destruct b'; [lia|subst cs; lia].
  - destruct Hres as [_ ->]. destruct b'; [simpl; lia|by subst cs].
Qed.

Lemma ApplyRules_total : ∀ fuel e, weight e < fuel → ∃ res, ApplyRules fuel rules e = Some res ∧ no_larger e res.
Proof using Hrules.
  induction fuel as [|fuel IH]; intros e He; [lia|]. cbn [ApplyRules].
  destruct (try_rules rules e) as [out| |] eqn:Htry; [|by eexists; split..]. apply try_rules_decreasing in Htry; [|done]. destruct out as [|r|r].
  - fold (apply_all (ApplyRules fuel rules)). assert (∀ c, c ∈ EnumerateChildren e → c ∈ children_of e) as Hsub.
    { intros c Hc. destruct (EnumerateChildren_cases e) as [Heq|Heq]; rewrite Heq in Hc; [done|by apply elem_of_nil in Hc]. }
    destruct (apply_all_total (ApplyRules fuel rules) (EnumerateChildren e)) as (res & -> & Hcs).
    { intros c Hc%Hsub%weight_child. apply IH. lia. }
    destruct res as [[cs b]| |]; simpl; [|by eexists; split..]. eexists. split; [done|]. destruct Hcs as [Hlen Hcs]. simpl. destruct b.
    + destruct (EnumerateChildren_cases e) as [Heq|Heq]; rewrite Heq in Hlen, Hcs; [|simpl in Hcs; lia].
      pose proof (weight_children e cs Hlen). lia.
    + subst cs. rewrite with_enumerated_children by apply EnumerateChildren_cases. done.
  - destruct (IH r) as (res & -> & Hres); [lia|]. simpl. eexists. split; [done|]. destruct res as [[e1 []]| |]; simpl in *; try done; [lia|]. by destruct Hres as [_ ->].
  - eexists. split; [done|]. done.
Qed.

Lemma rewrite_loop_total : ∀ fuel e, weight e < fuel → ∃ res, rewrite_loop fuel rules e = Some res ∧
  match res with Ok e' => weight e' ≤ weight e | _ => True end.
Proof using Hrules.
  induction fuel as [|fuel IH]; intros e He; [lia|]. cbn [rewrite_loop].
  destruct (ApplyRules_total (S (weight e)) e) as (res & -> & Hres); [lia|]. simpl.
  destruct res as [[e' b]| |]; [|by eexists; split..]. simpl in Hres. destruct b; [|eexists; split; [done|]; by destruct Hres as [_ ->]].
  destruct (IH e') as (res & -> & Hw); [lia|]. eexists. split; [done|]. destruct res; try done. lia.
Qed.

(** When the loop ends no rule changes the expression any more. *)
Lemma rewrite_loop_fixpoint : ∀ fuel e e', rewrite_loop fuel rules e = Some (Ok e') →
  ApplyRules (S (weight e')) rules e' = Some (Ok (e', false)).
Proof using Hrules.
  induction fuel as [|fuel IH]; intros e e'; [done|]. cbn [rewrite_loop].
  destruct (ApplyRules_total (S (weight e)) e) as (res & Hres & Hle); [lia|]. rewrite Hres. simpl.
  destruct res as [[e1 b]| |]; try done. destruct b; [apply IH|]. intros [= <-]. simpl in Hle. destruct Hle as [_ ->]. done.
Qed.
End rewriter.

(** ** The rules *)

Section rules.
Context `{!FloatText}.
Context (function_call : nat → list Vector → result Vector).

(** Rules that return one of the children or a constant. *)
Definition child_or_constant (e e' : Expression) : Prop :=
  e' ∈ children_of e ∨ GetExpressionClass e' = C_BOUND_CONSTANT ∧ GetExpressionClass e ≠ C_BOUND_CONSTANT.

Lemma child_or_constant_weight e e' : child_or_constant e e' → weight e' < weight e.
Proof using.
  intros [Hc%weight_child|[Hc He%weight_other]]; [lia|]. by destruct e'.
Qed.

Lemma ConstantFolding_decreasing : decreasing (ConstantFoldingRule function_call).
Proof.
  intros e bs out Hm Hout. assert (bs = [mkNode [] e]) as ->.
  { cbn [ConstantFoldingRule rule_root Match] in Hm. unfold match_foldable in Hm. cbn [node_expr] in Hm.
    destruct (bool_decide _); [done|]. destruct (IsFoldable e); [|done]. by injection Hm as <-. }
  cbn [ConstantFoldingRule rule_Apply] in Hout. unfold ConstantFolding_Apply in Hout.
  cbn [binding lookup list_lookup deref node_expr] in Hout. run_in Hout.
  apply bind_Ok in Hout as ([] & Hne & Hout). apply assert_Ok in Hne. apply andb_true_iff in Hne as [_ Hne%negb_true_iff%bool_decide_eq_false].
  cbn [node_expr] in *. apply bind_Ok in Hout as (v & _ & Hout). apply bind_Ok in Hout as (? & _ & [= <-]).
  apply child_or_constant_weight. right. split; [done|]. by destruct e.
Qed.

Lemma ComparisonSimplification_decreasing : decreasing (ComparisonSimplificationRule function_call).
Proof.
  intros e bs out Hm Hout. apply (comparison_match _ is_foldable) in Hm; [|apply foldable_simple|done].
  destruct Hm as (type & x & y & c & He & _ & _ & ->). cbn [node_expr] in He. subst e.
  cbn [ComparisonSimplificationRule rule_Apply] in Hout. unfold ComparisonSimplification_Apply in Hout.
  apply bind_Ok in Hout as (? & _ & Hout). apply bind_Ok in Hout as (? & _ & Hout). apply bind_Ok in Hout as (v & _ & Hout).
  destruct (is_null v); injection Hout as <-; [|done]. apply child_or_constant_weight. by right.
Qed.

Lemma CaseSimplification_decreasing : decreasing (CaseSimplificationRule function_call).
Proof.
  intros e bs out Hm Hout. apply case_match in Hm as (t & c & a & b & -> & _ & ->).
  cbn [CaseSimplificationRule rule_Apply] in Hout. unfold CaseSimplification_Apply in Hout.
  cbn [binding lookup list_lookup deref node_expr] in Hout. run_in Hout. cbn [node_expr] in Hout.
  apply bind_Ok in Hout as (? & _ & Hout). apply bind_Ok in Hout as (? & _ & Hout). apply bind_Ok in Hout as (? & _ & Hout).
  apply bind_Ok in Hout as (h & _ & [= <-]). apply child_or_constant_weight. left. destruct h; set_solver+.
Qed.

Lemma ConjunctionSimplification_decreasing : decreasing (ConjunctionSimplificationRule function_call).
Proof.
  intros e bs out Hm Hout. apply (conjunction_match _ is_foldable) in Hm; [|apply foldable_simple|done].
  destruct Hm as (type & x & y & c & He & _ & _ & ->). cbn [node_expr] in He. subst e.
  cbn [ConjunctionSimplificationRule rule_Apply] in Hout. unfold ConjunctionSimplification_Apply in Hout.
  cbn [binding app lookup list_lookup deref] in Hout. run_in Hout. cbn [node_expr] in Hout.
  apply bind_Ok in Hout as (? & _ & Hout). apply bind_Ok in Hout as (? & _ & Hout). apply bind_Ok in Hout as (v & _ & Hout).
  destruct (is_null v); [by injection Hout as <-|]. apply bind_Ok in Hout as (b & _ & Hout).
  destruct type; try done; injection Hout as <-; apply child_or_constant_weight; destruct b;
    try (by right); left; destruct (is_child _ _ _); set_solver+.
Qed.

Lemma ArithmeticSimplification_decreasing : decreasing ArithmeticSimplificationRule.
Proof.
  intros e bs out Hm Hout. apply (operator_match _ _ is_constant) in Hm; [|done|apply constant_simple].
  destruct Hm as (type & t & l & c & He & _ & _ & Hc & ->). cbn [node_expr] in He. subst e.
  cbn [ArithmeticSimplificationRule rule_Apply] in Hout. unfold ArithmeticSimplification_Apply in Hout.
  cbn [binding app lookup list_lookup deref] in Hout. run_in Hout. cbn [node_expr] in Hout.
  unfold is_constant in Hc. destruct (node_expr c) as [| |v| | | | | | | | | | | |]; try done.
  set (i := if is_child _ 0 c then 0 else 1) in *.
  assert (∀ b : bool, (if b then c ← deref (l !! (1 - i)); Ok (Returned c) else Ok Unchanged) = Ok out →
    match out with Unchanged => True | Returned e' | ChangedTo e' => weight e' < weight (BoundOperator type t l) end) as Hother.
  { intros [] Hb; [|by injection Hb as <-]. apply bind_Ok in Hb as (d & Hd & [= <-]). apply child_or_constant_weight. left.
    eapply list_elem_of_lookup_2. by apply deref_Ok. }
  assert (∀ v, weight (BoundConstant v) < weight (BoundOperator type t l)) as Hconst by (intros; by apply child_or_constant_weight; right).
  apply bind_Ok in Hout as (? & _ & Hout). destruct (is_null v); [injection Hout as <-; apply Hconst|].
  destruct type; try done.
  - apply bind_Ok in Hout as (b & _ & Hout). by apply (Hother b).
  - destruct (i =? 1); [|by injection Hout as <-]. apply bind_Ok in Hout as (b & _ & Hout). by apply (Hother b).
  - apply bind_Ok in Hout as (b & _ & Hout). by apply (Hother b).
  - destruct (i =? 1); [|by injection Hout as <-]. apply bind_Ok in Hout as (b & _ & Hout). destruct b; [by apply (Hother true)|].
    apply bind_Ok in Hout as (b & _ & Hout). destruct b; injection Hout as <-; [apply Hconst|done].
Qed.

Lemma MoveConstants_decreasing : decreasing MoveConstantsRule.
Proof.
  intros e bs out Hm Hout.
  apply move_match in Hm as (type & x & y & outer & arithmetic & inner & at_ & t & l & -> & -> & Horient & Hco & Harith & _ & Hin & Hci).
  unfold is_constant in Hco, Hci. destruct (node_expr outer) as [| |vo| | | | | | | | | | | |] eqn:Hvo; try done.
  destruct (node_expr inner) as [| |vi| | | | | | | | | | | |] eqn:Hvi; try done.
  cbn [MoveConstantsRule rule_Apply] in Hout. unfold MoveConstants_Apply in Hout. cbn [binding lookup list_lookup deref] in Hout. run_in Hout.
  cbn [node_expr] in Hout. rewrite Hvo, Harith, Hvi in Hout. apply bind_Ok in Hout as ([[type' v]|] & _ & Hout); [|by injection Hout as <-].
  apply bind_Ok in Hout as (a & Ha & Hout). apply deref_Ok, list_elem_of_lookup_2 in Ha.
  assert (2 + weight a ≤ weight (BoundOperator at_ t l)) as Hw by (by apply weight_child).
  injection Hout as <-. destruct Horient as [[-> ->]|[-> ->]]; cbn [node_expr] in *; subst;
    destruct (is_child _ _ _); cbn [weight] in *; lia.
Qed.

(** *** Distributivity *)

(** What an entry and the conjunction above it contribute. *)
Definition cost (n : node) : nat := weight (node_expr n) + 2.
Definition total (l : list node) : nat := list_sum (map cost l).
Definition marked (invalid : gset (list nat)) (l : list node) : nat := total (filter (fun n => node_path n ∈ invalid) l).
Definition cost' (e : option Expression) : nat := from_option (fun e => weight e + 2) 0 e.

Lemma total_app l m : total (l ++ m) = total l + total m.
Proof using. unfold total. by rewrite map_app, list_sum_app. Qed.

Lemma marked_app inv l m : marked inv (l ++ m) = marked inv l + marked inv m.
Proof using. unfold marked. by rewrite filter_app, total_app. Qed.

Lemma marked_le inv l : marked inv l ≤ total l.
Proof using.
  induction l as [|n l IH]; [done|]. unfold marked. rewrite filter_cons.
  change (total (n :: l)) with (cost n + total l). unfold marked in IH.
  destruct (decide _); [change (total (n :: ?k)) with (cost n + total k)|]; lia.
Qed.

Lemma GatherAnd_total p e : total (GatherAndExpressions p e) = weight e + 2.
Proof using.
  revert p. induction e as [e IH] using Expression_ind_children. intros p.
  destruct e as [| | | | | | | |type l r| | | | | |]; try (unfold total, cost; simpl; lia).
  destruct type; try (unfold total, cost; simpl; lia). cbn [children_of EnumerateChildren] in IH.
  apply Forall_cons in IH as [IHl [IHr _]%Forall_cons]. cbn [GatherAndExpressions]. rewrite total_app, IHl, IHr. simpl. lia.
Qed.

Lemma GatherOr_total p e : total (concat (GatherOrExpressions p e)) = weight e + 2.
Proof using.
  revert p. induction e as [e IH] using Expression_ind_children. intros p.
  destruct e as [| | | | | | | |type l r| | | | | |]; try (cbn [GatherOrExpressions concat]; rewrite app_nil_r; apply GatherAnd_total).
  destruct type; try (cbn [GatherOrExpressions concat]; rewrite app_nil_r; apply GatherAnd_total).
  cbn [children_of EnumerateChildren] in IH. apply Forall_cons in IH as [IHl [IHr _]%Forall_cons].
  cbn [GatherOrExpressions]. rewrite concat_app, total_app, IHl, IHr. simpl. lia.
Qed.

Lemma prune_conjunction_cost type l r : cost' (prune_conjunction type l r) ≤ cost' l + cost' r.
Proof using. destruct l, r; simpl; lia. Qed.

(** A leaf of the gathered expressions, which can be a conjunction of the
    other kind. *)
Lemma Prune_cost inv p e : cost' (Prune inv p e) ≤ weight e + 2.
Proof using.
  revert p. induction e as [e IH] using Expression_ind_children. intros p.
  destruct e as [| | | | | | | |type l r| | | | | |]; cbn [Prune]; case_bool_decide; simpl; try lia.
  cbn [children_of EnumerateChildren] in IH. apply Forall_cons in IH as [IHl [IHr _]%Forall_cons].
  specialize (IHl (p ++ [0])). specialize (IHr (p ++ [1])).
  destruct type; simpl; try lia; etransitivity; try apply prune_conjunction_cost; lia.
Qed.

Lemma marked_leaf inv p e : p ∉ inv → marked inv [mkNode p e] = 0.
Proof using. intros Hp. unfold marked. by rewrite filter_cons_False. Qed.

Lemma Prune_and_cost inv p e : cost' (Prune inv p e) + marked inv (GatherAndExpressions p e) ≤ weight e + 2.
Proof using.
  revert p. induction e as [e IH] using Expression_ind_children. intros p.
  destruct (decide (p ∈ inv)) as [Hp|Hp].
  { pose proof (marked_le inv (GatherAndExpressions p e)) as Hm. rewrite GatherAnd_total in Hm.
    destruct e; cbn [Prune]; rewrite bool_decide_eq_true_2 by done; simpl in *; lia. }
  pose proof (Prune_cost inv p e) as Hle.
  destruct e as [| | | | | | | |type l r| | | | | |]; try (cbn [GatherAndExpressions]; rewrite marked_leaf by done; lia).
  destruct type; try (cbn [GatherAndExpressions]; rewrite marked_leaf by done; lia).
  cbn [children_of EnumerateChildren] in IH. apply Forall_cons in IH as [IHl [IHr _]%Forall_cons].
  cbn [GatherAndExpressions Prune]. rewrite bool_decide_eq_false_2, marked_app by done.
  specialize (IHl (p ++ [0])). specialize (IHr (p ++ [1])).
  match goal with |- cost' (prune_conjunction ?t ?a ?b) + _ ≤ _ => pose proof (prune_conjunction_cost t a b) end. simpl in *. lia.
Qed.

Lemma Prune_or_cost inv p e : cost' (Prune inv p e) + marked inv (concat (GatherOrExpressions p e)) ≤ weight e + 2.
Proof using.
  revert p. induction e as [e IH] using Expression_ind_children. intros p.
  destruct (decide (p ∈ inv)) as [Hp|Hp].
  { pose proof (marked_le inv (concat (GatherOrExpressions p e))) as Hm. rewrite GatherOr_total in Hm.
    destruct e; cbn [Prune]; rewrite bool_decide_eq_true_2 by done; simpl in *; lia. }
  destruct e as [| | | | | | | |type l r| | | | | |]; try (cbn [GatherOrExpressions concat]; rewrite app_nil_r; apply Prune_and_cost).
  destruct type; try (cbn [GatherOrExpressions concat]; rewrite app_nil_r; apply Prune_and_cost).
  cbn [children_of EnumerateChildren] in IH. apply Forall_cons in IH as [IHl [IHr _]%Forall_cons].
  cbn [GatherOrExpressions Prune]. rewrite bool_decide_eq_false_2, concat_app, marked_app by done.
  specialize (IHl (p ++ [0])). specialize (IHr (p ++ [1])).
  match goal with |- cost' (prune_conjunction ?t ?a ?b) + _ ≤ _ => pose proof (prune_conjunction_cost t a b) end. simpl in *. lia.
Qed.

Lemma Copy_weight e e' : Copy e = Ok e' → weight e' = weight e.
Proof using.
  revert e'. induction e as [e IH] using Expression_ind_children. intros e' He.
  assert (∀ l k, Forall (fun e => ∀ e', Copy e = Ok e' → weight e' = weight e) l →
    mapM Copy l = Ok k → list_sum (map weight k) = list_sum (map weight l)) as Hl.
  { intros l k Hall Hk%mapM_Ok. induction Hk as [|x y l k Hxy _ IHk]; [done|]. apply Forall_cons in Hall as [Hx Hall].
    simpl. rewrite (Hx _ Hxy), IHk; done. }
  destruct e; cbn [children_of EnumerateChildren] in IH; try (injection He as <-; done); try done.
  all: try (apply bind_Ok in He as (k & Hk & [= <-]); cbn [weight]; rewrite (Hl _ _ IH Hk); done).
  all: rewrite ?Forall_cons in IH; destruct_and? IH.
  all: cbn [Copy] in He; repeat (apply bind_Ok in He as (? & ? & He)); injection He as <-; cbn [weight];
    repeat match goal with H : Copy ?a = Ok ?b |- _ => assert (weight b = weight a) by eauto; clear H end; lia.
Qed.

Lemma find_equal_in inv entry l m : find_equal inv entry l = Ok (Some m) → m ∈ l.
Proof using.
  induction l as [|n l IH]; cbn [find_equal]; [done|]. intros ([] & _ & Hm)%bind_Ok; [injection Hm as <-; left|right; by apply IH].
Qed.

Lemma find_in_all_in inv entry ls ms : find_in_all inv entry ls = Ok (Some ms) → Forall2 (fun m l => m ∈ l) ms ls.
Proof using.
  revert ms. induction ls as [|l ls IH]; intros ms; cbn [find_in_all]; [intros [= <-]; constructor|].
  intros ([m|] & Hm & Hb)%bind_Ok; [|done]. apply bind_Ok in Hb as ([ms'|] & Hms & [= <-]).
  constructor; [by eapply find_equal_in|by apply IH].
Qed.

Lemma marked_cons inv n l : marked inv (n :: l) = (if decide (node_path n ∈ inv) then cost n else 0) + marked inv l.
Proof using. unfold marked. rewrite filter_cons. by destruct (decide _). Qed.

Lemma extract_common_cost first others inv copies inv' copies' :
  extract_common first others inv copies = Ok (inv', copies') →
  ∃ new, copies' = copies ++ new ∧ inv ⊆ inv' ∧ list_sum (map (fun c => weight c + 2) new) ≤ marked inv' first ∧
    (new ≠ [] → others ≠ [] → 0 < marked inv' (concat others)).
Proof using.
  revert inv copies. induction first as [|entry first IH]; intros inv copies; cbn [extract_common].
  { intros [= <- <-]. exists []. rewrite app_nil_r. split_and!; [done|done|simpl; lia|done]. }
  intros ([ms|] & Hms & Hrest)%bind_Ok.
  2: { apply IH in Hrest as (new & -> & Hsub & Hle & Hpos). exists new. split_and!; [done..| |done]. rewrite marked_cons. lia. }
  apply bind_Ok in Hrest as (c & Hc%Copy_weight & Hrest). apply IH in Hrest as (new & -> & Hsub & Hle & Hpos). exists (c :: new).
  rewrite <- app_assoc. split_and!; [done|set_solver| |].
  - rewrite marked_cons, decide_True by set_solver. unfold cost. simpl. lia.
  - intros _ Hne. apply find_in_all_in in Hms. destruct Hms as [|m l ms ls Hm _]; [done|]. simpl. rewrite marked_app.
    assert (∃ k1 k2, l = k1 ++ m :: k2) as (k1 & k2 & ->) by (by apply list_elem_of_split).
    rewrite marked_app, marked_cons, decide_True by set_solver. unfold cost. lia.
Qed.

Lemma prune_root_cost inv e copies :
  cost' (prune_root inv e copies) ≤ cost' (Prune inv [] e) + list_sum (map (fun c => weight c + 2) copies).
Proof using.
  unfold prune_root. generalize (Prune inv [] e) as acc. induction copies as [|c copies IH]; intros acc; simpl; [lia|].
  etransitivity; [apply IH|]. pose proof (prune_conjunction_cost CONJUNCTION_AND acc (Prune ∅ [] c)).
  pose proof (Prune_cost ∅ [] c). lia.
Qed.

Lemma GatherOr_nonempty p e : GatherOrExpressions p e ≠ [].
Proof using.
  revert p. induction e as [e IH] using Expression_ind_children. intros p.
  destruct e as [| | | | | | | |type l r| | | | | |]; try done. destruct type; try done.
  cbn [children_of EnumerateChildren] in IH. apply Forall_cons in IH as [IHl _]. cbn [GatherOrExpressions].
  intros [Hl _]%app_eq_nil. by apply IHl in Hl.
Qed.

Lemma distributivity_match e bs : Match (rule_root DistributivityRule) (mkNode [] e) [] = (Ok true, bs) →
  expression_type e = CONJUNCTION_OR ∧ bs = [mkNode [] e].
Proof using.
  cbn [DistributivityRule rule_root Match]. rewrite base_simple. unfold base_ok. cbn.
  destruct (bool_decide_reflect (expression_type e = CONJUNCTION_OR)); simpl; [|done]. by intros [= <-].
Qed.

Lemma Distributivity_decreasing : decreasing DistributivityRule.
Proof using.
  intros e bs out [Hor ->]%distributivity_match Hout. cbn [DistributivityRule rule_Apply] in Hout. unfold Distributivity_Apply in Hout.
  cbn [binding lookup list_lookup deref] in Hout. run_in Hout. cbn [node_expr] in Hout.
  destruct e as [| | | | | | | |type l r| | | | | |]; try done. simpl in Hor. subst type.
  destruct (GatherOrExpressions [] _) as [|first others] eqn:Hg; [done|].
  assert (others ≠ []) as Hothers.
  { intros ->. cbn [GatherOrExpressions app] in Hg. pose proof (GatherOr_nonempty [0] l). pose proof (GatherOr_nonempty [1] r).
    apply (f_equal length) in Hg. rewrite length_app in Hg.
    destruct (GatherOrExpressions [0] l), (GatherOrExpressions [1] r); simpl in Hg; try done; lia. }
  apply bind_Ok in Hout as ([inv copies] & Hex & Hout). apply extract_common_cost in Hex as (new & -> & _ & Hle & Hpos).
  destruct new as [|c new]; [by injection Hout as <-|]. cbn [app] in Hout. apply bind_Ok in Hout as (root & Hroot%deref_Ok & [= <-]).
  pose proof (prune_root_cost inv (BoundConjunction CONJUNCTION_OR l r) (c :: new)) as Hc.
  pose proof (Prune_or_cost inv [] (BoundConjunction CONJUNCTION_OR l r)) as Hp. rewrite Hroot in Hc. rewrite Hg in Hp.
  cbn [concat] in Hp. rewrite marked_app in Hp. specialize (Hpos ltac:(done) Hothers). change (cost' (Some root)) with (weight root + 2) in Hc. lia.
Qed.

Lemma optimizer_rules_decreasing : Forall decreasing (optimizer_rules function_call).
Proof using.
  repeat (apply Forall_cons_2); [apply ConstantFolding_decreasing|apply Distributivity_decreasing|apply ArithmeticSimplification_decreasing
    |apply CaseSimplification_decreasing|apply ConjunctionSimplification_decreasing|apply ComparisonSimplification_decreasing
    |apply MoveConstants_decreasing|constructor].
Qed.
End rules.

(** ** Plans *)

(** The operands of a tree of ANDs. *)
Fixpoint conjuncts (e : Expression) : list Expression :=
  match e with BoundConjunction CONJUNCTION_AND l r => conjuncts l ++ conjuncts r | _ => [e] end.

Lemma split_predicates_spec fuel es : list_sum (map weight es) < fuel →
  ∃ es', split_predicates fuel es = Some es' ∧ es' ≡ₚ concat (map conjuncts es).
Proof.
  revert es. induction fuel as [|fuel IH]; intros es Hf; [lia|]. destruct es as [|e es]; [by exists []|].
  assert (conjuncts e = [e] → ∃ es', (es'' ← split_predicates fuel es; Some (e :: es'')) = Some es' ∧
    es' ≡ₚ concat (map conjuncts (e :: es))) as Hone.
  { intros He. destruct (IH es) as (es' & -> & Hp); [pose proof (weight_pos e); simpl in Hf; lia|]. exists (e :: es').
    split; [done|]. simpl. by rewrite He, Hp. }
  cbn [split_predicates]. destruct e as [| | | | | | | |type l r| | | | | |]; try (by apply Hone). destruct type; try (by apply Hone).
  destruct (IH (r :: es ++ [l])) as (es' & -> & Hp).
  { simpl in *. rewrite map_app, list_sum_app. simpl. lia. }
  exists es'. split; [done|]. rewrite Hp. cbn [map concat conjuncts]. rewrite map_app, concat_app. cbn [map concat]. rewrite app_nil_r. solve_Permutation.
Qed.

Lemma SplitPredicates_spec es : ∃ es', SplitPredicates es = Some es' ∧ es' ≡ₚ concat (map conjuncts es).
Proof. apply split_predicates_spec. lia. Qed.

Section plans.
Context `{!FloatText}.
Context (rules : list Rule) (Hrules : Forall decreasing rules).

Lemma rewrite_expression_total e : ∃ res, rewrite_expression rules e = Some res.
Proof using Hrules. destruct (rewrite_loop_total rules Hrules (S (weight e)) e) as (res & Hres & _); [lia|eauto]. Qed.

Lemma rewrite_all_total es : ∃ res, rewrite_all rules es = Some res.
Proof using Hrules.
  induction es as [|e es [res' IH]]; cbn [rewrite_all]; [eauto|]. destruct (rewrite_expression_total e) as [[e'| |] ->]; simpl; [|by eauto..].
  rewrite IH. simpl. eauto.
Qed.

Lemma apply_node_total type es : ∃ res, apply_node rules type es = Some res.
Proof using Hrules.
  assert (∃ res, (res ← rewrite_all rules es;
    match res, type with
    | Ok es', LO_FILTER => es'' ← SplitPredicates es'; Some (Ok es'')
    | _, _ => Some res
    end) = Some res) as Hall.
  { destruct (rewrite_all_total es) as [res ->]. simpl. destruct res as [es'| |], type; eauto.
    destruct (SplitPredicates_spec es') as (es'' & -> & _). simpl. eauto. }
  unfold apply_node. clear Hrules. destruct es, rules; eauto.
Qed.

Definition apply_children (f : LogicalOperator → option (result LogicalOperator))
    : list LogicalOperator → option (result (list LogicalOperator)) :=
  fix apply_children (l : list LogicalOperator) : option (result (list LogicalOperator)) :=
    match l with
    | [] => Some (Ok [])
    | c :: l' =>
      res ← f c;
      match res with
      | Ok c' => res ← apply_children l'; Some (m ← res; Ok (c' :: m))
      | Throw x => Some (Throw x)
      | Undef => Some Undef
      end
    end.

Lemma Apply_total : ∀ root, ∃ res, Apply rules root = Some res.
Proof using Hrules.
  fix IH 1. intros [type es children]. cbn [Apply].
  assert (∃ res, apply_children (Apply rules) children = Some res) as [res Hres].
  { clear es. induction children as [|c children [res' IHc]]; cbn [apply_children]; [eauto|].
    destruct (IH c) as [[c'| |] ->]; simpl; [|by eauto..]. rewrite IHc. simpl. eauto. }
  unfold apply_children in Hres. rewrite Hres. simpl. destruct res as [children'| |]; [|by eauto..].
  destruct (apply_node_total type es) as [res ->]. simpl. eauto.
Qed.
End plans.

(** C24. The expression rewriter terminates: with the rules of the optimizer,
    [Apply] returns on every plan, and the loop over an expression ends with an
    expression that is not larger and that no rule changes any more. *)
Theorem rewriter_terminates `{!FloatText} function_call :
  (∀ root, ∃ res, Apply (optimizer_rules function_call) root = Some res) ∧
  (∀ e, ∃ res, rewrite_expression (optimizer_rules function_call) e = Some res ∧
    match res with
    | Ok e' => weight e' ≤ weight e ∧ ApplyRules (S (weight e')) (optimizer_rules function_call) e' = Some (Ok (e', false))
    | _ => True
    end).
Proof.
  pose proof (optimizer_rules_decreasing function_call) as Hrules. split; [by apply Apply_total|]. intros e.
  destruct (rewrite_loop_total _ Hrules (S (weight e)) e) as (res & Hres & Hle); [lia|]. exists res. split; [done|].
  destruct res as [e'| |]; try done. split; [done|]. by eapply rewrite_loop_fixpoint.
Qed.
