(* ===== verification/Distributivity.v ===== *)
(** * Distributivity

    [src/src/optimizer/rule/distributivity.cpp] pushes the conjuncts that all
    disjuncts of an OR have in common up into an AND.  The expressions are
    compared with [Equals] and the ones that are pushed up are copied with
    [Copy]; what is left of the disjunction is pruned.  In the three-valued
    logic of SQL the rule keeps the value of the disjunction, unless it empties
    some of the disjuncts and not others. *)

From Stdlib Require Import ZArith Lia.
From stdpp Require Import base gmap list strings option numbers sorting relations.
From S2P Require Import Prelude Types Vector Serializer StringStream DateTime KeyTuples Operators VectorOps Like Casts Value Expressions ExpressionRows ExecutorProofs Matchers Rewriting RewritingProofs.

(** ** Equality of expressions *)

(** Expressions that [Equals] only identifies when they have the same value:
    no casts and no parameters, whose target and number are not compared, no
    common subexpressions, and constants of VARCHAR and of one integer type. *)
Definition plain_constant (T : TypeId) (v : Value) : bool :=
  (bool_decide (val_type v = T_VARCHAR) || bool_decide (val_type v = T)) && negb (is_null v).

Fixpoint plain (T : TypeId) (e : Expression) : bool :=
  match e with
  | BoundReference _ _ | BoundColumnRef _ _ _ _ => true
  | BoundConstant v => plain_constant T v
  | BoundCase _ a b c => plain T a && plain T b && plain T c
  | BoundComparison _ a b | BoundConjunction _ a b => plain T a && plain T b
  | BoundOperator _ _ l | BoundFunction _ _ l => forallb (plain T) l
  | _ => false
  end.

Section equality.
Context `{!FloatText}.
Context (function_row : nat → list (option cell) → result (option cell)).
Context (function_type : nat → list TypeId → option TypeId).
Context (ref_type : nat → option TypeId) (col_type : nat → nat → nat → option TypeId).
Context (env : row_env) (T : TypeId) (HT : TypeIsInteger T = true).

Abbreviation eval := (eval function_row).
Abbreviation typed := (typed function_type ref_type col_type).

Lemma Value_Equals_plain v w : plain_constant T v = true → plain_constant T w = true → value_ok v = true → value_ok w = true →
  Value_Equals v w = Ok true → v = w.
Proof using HT.
  destruct v as [tv [x|]], w as [tw [y|]]; unfold plain_constant, value_ok; simpl; rewrite ?andb_false_r; try done.
  rewrite !andb_true_r, !orb_true_iff, !bool_decide_eq_true, !andb_true_iff. intros Hv Hw [_ Hx] [_ Hy]. unfold Value_Equals, Value_compare.
  cbn [is_null val_data val_type negb eqb andb]. destruct (decide (tv = tw)) as [<-|Hne].
  2: { destruct Hv as [->| ->], Hw as [->| ->]; try done; by destruct T. }
  intros Heq. assert (compare_op OpEquals tv x y = Ok true) as Hc by (by destruct tv). clear Heq.
  apply bind_Ok in Hc as (c & Hc & [= Hh]). assert (c = Some Eq) as -> by (by destruct c as [[]|]).
  destruct Hv as [->| ->].
  - apply cell_ok_typed in Hx, Hy. destruct x as [|[s|]], y as [|[u|]]; try done. injection Hc as Hc%lex_eq.
    do 3 f_equal. by rewrite <- (bytes_string_bytes s), Hc, bytes_string_bytes.
  - destruct (integer_width T HT) as (n & Hn & _). destruct (cell_ok_num _ _ _ Hn Hx) as (a & -> & _).
    destruct (cell_ok_num _ _ _ Hn Hy) as (b & -> & _). do 2 f_equal. destruct T; try done; injection Hc as Hc%Z.compare_eq; by subst.
Qed.

(** The loop over two lists of children. *)
Definition all_equal : list Expression → list Expression → result bool :=
  fix all_equal (l m : list Expression) {struct l} : result bool :=
    match l, m with
    | [], [] => Ok true
    | x :: l', y :: m' => and_then (Equals x y) (all_equal l' m')
    | _, _ => Ok false
    end.

Lemma and_then_true a b : and_then a b = Ok true → a = Ok true ∧ b = Ok true.
Proof using. intros ([] & -> & Hb)%bind_Ok; done. Qed.

Lemma all_equal_true l m : all_equal l m = Ok true → Forall2 (fun x y => Equals x y = Ok true) l m.
Proof using.
  revert m. induction l as [|x l IH]; intros [|y m]; cbn [all_equal]; try done. intros [Hx Hl]%and_then_true. auto.
Qed.

Lemma Equals_head a b : Equals a b = Ok true → GetExpressionClass a = GetExpressionClass b ∧ expression_type a = expression_type b.
Proof using.
  intros He. destruct (decide (GetExpressionClass a = GetExpressionClass b)) as [Hc|Hc];
    [destruct (decide (expression_type a = expression_type b)) as [Ht|Ht]; [done|]|];
    exfalso; destruct a; cbn [Equals] in He; rewrite ?(bool_decide_eq_false_2 _ Hc), ?(bool_decide_eq_false_2 _ Ht), ?orb_true_r in He; done.
Qed.

Definition equal_values (a b : Expression) : Prop := same_value function_row env env a b.

Lemma same_children l m :
  Forall (fun a => ∀ b, plain T a = true → plain T b = true → typed a = true → typed b = true → Equals a b = Ok true → equal_values a b) l →
  forallb (plain T) l = true → forallb (plain T) m = true → forallb typed l = true → forallb typed m = true →
  Forall2 (fun x y => Equals x y = Ok true) l m → Forall2 equal_values l m ∧ map return_type m = map return_type l.
Proof using.
  intros HIH Hpl Hpm Htl Htm Heq. revert HIH Hpl Hpm Htl Htm. induction Heq as [|x y l m Hxy _ IH]; intros HIH Hpl Hpm Htl Htm; [by split|].
  simpl in *. rewrite andb_true_iff in *. apply Forall_cons in HIH as [Hx HIH]. destruct_and!.
  assert (equal_values x y) as Hv by auto. destruct IH as [IH1 IH2]; [done..|]. split; [by constructor|]. f_equal; [apply Hv|done].
Qed.

Lemma operator_type_unique type t t' ts : operator_typed type t ts = true → operator_typed type t' ts = true → t = t'.
Proof using.
  unfold operator_typed. destruct (is_in type).
  - destruct ts as [|l [|r rest]]; try done. rewrite !andb_true_iff, !bool_decide_eq_true. intros [-> _] [-> _]. done.
  - destruct ts as [|a [|b [|]]]; try done; rewrite !andb_true_iff, !bool_decide_eq_true.
    + intros [-> _] [-> _]. done.
    + intros [[-> _] _] [[-> _] _]. done.
Qed.

(** Plain expressions that are equal have the same type and value. *)
Lemma Equals_plain : ∀ a b, plain T a = true → plain T b = true → typed a = true → typed b = true →
  Equals a b = Ok true → equal_values a b.
Proof using HT.
  intros a. induction a as [a IH] using Expression_ind_children. intros b Hpa Hpb Hta Htb He.
  destruct (Equals_head a b He) as [Hclass Htype].
  destruct a as [t i|t i j d|v|t nr value|t|t c x y|t x st tt|type x y|type x y|type t l|t f l|type t l|type t fr l|t l|t id own x]; try done;
    destruct b as [t' i'|t' i' j' d'|w|t' nr' value'|t'|t' c' x' y'|t' x' st' tt'|type' x' y'|type' x' y'|type' t' m|t' g m|type' t' m|type' t' fr' m|t' m|t' id' own' x'];
    try done; cbn [children_of EnumerateChildren] in IH; cbn [expression_type] in Htype.
  - cbn in He. injection He as He%Nat.eqb_eq. subst i'. simpl in Hta, Htb. rewrite !andb_true_iff, !bool_decide_eq_true in *.
    destruct Hta as [_ Hta], Htb as [_ Htb]. split; [simpl; congruence|done].
  - cbn in He. injection He as He. rewrite !andb_true_iff, !Nat.eqb_eq in He. destruct He as [[-> ->] ->]. simpl in Hta, Htb.
    rewrite !andb_true_iff, !bool_decide_eq_true in *. destruct Hta as [_ Hta], Htb as [_ Htb]. split; [simpl; congruence|done].
  - assert (v = w) as <- by (by apply Value_Equals_plain). by split.
  - assert (and_then (Equals c c') (and_then (Equals x x') (Equals y y')) = Ok true) as Hall by done.
    apply and_then_true in Hall as [Hc [Hx Hy]%and_then_true]. simpl in Hta, Htb, Hpa, Hpb. rewrite !andb_true_iff, !bool_decide_eq_true in *.
    destruct_and!. rewrite !Forall_cons in IH. destruct_and? IH.
    assert (equal_values c c' ∧ equal_values x x' ∧ equal_values y y') as (Hs1 & Hs2 & Hs3) by auto.
    assert (t' = t) as -> by (destruct Hs2 as [Hs2 _]; congruence). split; [done|]. intros o Ho.
    eapply (eval_with_children function_row env env (BoundCase t c x y) [c'; x'; y']); [done| |exact Ho]. repeat (apply Forall2_cons_2; [done|]); constructor.
  - subst type'. assert (and_then (Equals x x') (Equals y y') = Ok true) as [Hx Hy]%and_then_true.
    { cbn [Equals expression_type GetExpressionClass] in He. rewrite !bool_decide_eq_true_2 in He by done. done. }
    simpl in Hta, Htb, Hpa, Hpb. rewrite !andb_true_iff in *. destruct_and!. rewrite !Forall_cons in IH. destruct_and? IH.
    assert (equal_values x x' ∧ equal_values y y') as (Hs1 & Hs2) by auto. split; [done|]. intros o Ho.
    eapply (eval_with_children function_row env env (BoundComparison type x y) [x'; y']); [done| |exact Ho]. repeat (apply Forall2_cons_2; [done|]); constructor.
  - subst type'. assert (or_else (and_then (Equals x x') (Equals y y')) (and_then (Equals x y') (Equals y x')) = Ok true) as Hor.
    { cbn [Equals expression_type GetExpressionClass] in He. rewrite !bool_decide_eq_true_2 in He by done. done. }
    simpl in Hta, Htb, Hpa, Hpb. rewrite !andb_true_iff in *. destruct_and!. rewrite !Forall_cons in IH. destruct_and? IH.
    split; [done|]. intros o Ho. apply bind_Ok in Hor as ([] & Hfirst & Hsecond).
    + apply and_then_true in Hfirst as [Hx Hy]. assert (equal_values x x' ∧ equal_values y y') as (Hs1 & Hs2) by auto.
      eapply (eval_with_children function_row env env (BoundConjunction type x y) [x'; y']); [done| |exact Ho]. repeat (apply Forall2_cons_2; [done|]); constructor.
    + apply and_then_true in Hsecond as [Hx Hy]. assert (equal_values x y' ∧ equal_values y x') as ([_ Hs1] & [_ Hs2]) by auto.
      cbn [ExpressionRows.eval] in *. apply bind_Ok in Ho as (ox & Hox & Ho). apply bind_Ok in Ho as (oy & Hoy & Ho).
      rewrite (Hs2 _ Hoy), (Hs1 _ Hox). run. rewrite <- Ho. unfold eval_conjunction.
      destruct type; try done; do 2 f_equal; by destruct (cell_bool ox) as [[]|], (cell_bool oy) as [[]|].
  - subst type'. assert (all_equal l m = Ok true) as Hall%all_equal_true.
    { cbn [Equals expression_type GetExpressionClass] in He. rewrite !bool_decide_eq_true_2 in He by done.
      destruct (length l =? length m); [done|done]. }
    simpl in Hta, Htb, Hpa, Hpb. rewrite !andb_true_iff in *. destruct_and!.
    destruct (same_children l m) as [Hsame Hts]; [done..|]. rewrite Hts in *.
    assert (t' = t) as -> by (by eapply operator_type_unique). split; [done|]. intros o Ho.
    by eapply (eval_with_children function_row env env (BoundOperator type t l) m).
  - assert (f = g ∧ all_equal l m = Ok true) as [<- Hall%all_equal_true].
    { cbn [Equals expression_type GetExpressionClass] in He. rewrite !bool_decide_eq_true_2 in He by done. cbn [negb orb] in He.
      destruct (Nat.eqb_spec f g); [|done]. simpl in He. destruct (length l =? length m); done. }
    simpl in Hta, Htb, Hpa, Hpb. rewrite !andb_true_iff, !bool_decide_eq_true in *. destruct_and!.
    destruct (same_children l m) as [Hsame Hts]; [done..|]. rewrite Hts in *.
    assert (t' = t) as -> by congruence. split; [done|]. intros o Ho.
    by eapply (eval_with_children function_row env env (BoundFunction t f l) m).
Qed.

Lemma Copy_plain e : plain T e = true → Copy e = Ok e.
Proof using.
  induction e as [e IH] using Expression_ind_children. intros Hp.
  assert (∀ l, Forall (fun e => plain T e = true → Copy e = Ok e) l → forallb (plain T) l = true → mapM Copy l = Ok l) as Hl.
  { intros l Hall Hpl. apply mapM_Ok. induction Hall as [|x l Hx _ IHl]; [constructor|]. simpl in Hpl. apply andb_true_iff in Hpl as [? ?].
    constructor; auto. }
  destruct e; cbn [children_of EnumerateChildren] in IH; try done; simpl in Hp.
  4,5: specialize (Hl _ IH Hp); etransitivity; [exact (f_equal (fun r => k ← r; _) Hl)|done].
  all: rewrite ?andb_true_iff, ?Forall_cons in *; destruct_and!; cbn [Copy].
  all: repeat match goal with Hc : plain T ?a = true → _, Ha : plain T ?a = true |- _ => rewrite (Hc Ha); clear Hc; run end; done.
Qed.
End equality.

(** ** The truth of conjunctions and disjunctions *)

Section distribution.
Context `{!FloatText}.
Context (function_row : nat → list (option cell) → result (option cell)).
Context (function_type : nat → list TypeId → option TypeId).
Context (ref_type : nat → option TypeId) (col_type : nat → nat → nat → option TypeId).
Context (env : row_env).

Abbreviation eval := (eval function_row).
Abbreviation typed := (typed function_type ref_type col_type).

Definition truth (e : Expression) : option bool := match eval env e with Ok o => cell_bool o | _ => None end.

(** A predicate that has a value. *)
Definition valued (e : Expression) : Prop := typed e = true ∧ return_type e = T_BOOLEAN ∧ ∃ o, eval env e = Ok o.

Definition all_true (l : list Expression) : option bool := foldr (fun e a => sql_and (truth e) a) (Some true) l.
Definition some_true (ls : list (list Expression)) : option bool := foldr (fun l a => sql_or (all_true l) a) (Some false) ls.

Lemma sql_and_comm a b : sql_and a b = sql_and b a.
Proof using. by destruct a as [[]|], b as [[]|]. Qed.
Lemma sql_and_assoc a b c : sql_and a (sql_and b c) = sql_and (sql_and a b) c.
Proof using. by destruct a as [[]|], b as [[]|], c as [[]|]. Qed.
Lemma sql_or_assoc a b c : sql_or a (sql_or b c) = sql_or (sql_or a b) c.
Proof using. by destruct a as [[]|], b as [[]|], c as [[]|]. Qed.
Lemma sql_and_true_r a : sql_and a (Some true) = a.
Proof using. by destruct a as [[]|]. Qed.
Lemma sql_or_false_r a : sql_or a (Some false) = a.
Proof using. by destruct a as [[]|]. Qed.
Lemma sql_and_or a b c : sql_and a (sql_or b c) = sql_or (sql_and a b) (sql_and a c).
Proof using. by destruct a as [[]|], b as [[]|], c as [[]|]. Qed.

Lemma all_true_app l m : all_true (l ++ m) = sql_and (all_true l) (all_true m).
Proof using.
  induction l as [|e l IH]; simpl; [by destruct (all_true m) as [[]|]|]. by rewrite IH, sql_and_assoc.
Qed.

Lemma all_true_permutation l m : l ≡ₚ m → all_true l = all_true m.
Proof using.
  induction 1 as [|e l m _ IH|e f l|l m k _ IH1 _ IH2]; simpl; [done|by rewrite IH| |congruence].
  by rewrite !sql_and_assoc, (sql_and_comm (truth f)).
Qed.

Lemma some_true_app ls ms : some_true (ls ++ ms) = sql_or (some_true ls) (some_true ms).
Proof using.
  induction ls as [|l ls IH]; simpl; [by destruct (some_true ms) as [[]|]|]. by rewrite IH, sql_or_assoc.
Qed.

(** The lattice of the three truth values is distributive. *)
Lemma some_true_common c ls ms :
  Forall2 (fun l m => all_true l = sql_and c (all_true m)) ls ms → some_true ls = sql_and c (some_true ms).
Proof using.
  induction 1 as [|l m ls ms Hlm _ IH]; simpl; [by destruct c as [[]|]|]. by rewrite Hlm, IH, <- sql_and_or.
Qed.

Definition connective (type : ExpressionType) : option bool → option bool → option bool :=
  match type with CONJUNCTION_AND => sql_and | _ => sql_or end.

Lemma cell_bool_of b : cell_bool (bool_cell <$> b) = b.
Proof using. by destruct b as [[]|]. Qed.

Lemma valued_conjunction type l r : type = CONJUNCTION_AND ∨ type = CONJUNCTION_OR →
  valued (BoundConjunction type l r) ↔ valued l ∧ valued r.
Proof using.
  intros Htype. unfold valued. simpl. rewrite !andb_true_iff, !bool_decide_eq_true. split.
  - intros (((((Hl & Hr) & Hbl) & Hbr) & _) & _ & o & Ho). apply bind_Ok in Ho as (x & Hx & Ho). apply bind_Ok in Ho as (y & Hy & Ho). eauto 10.
  - intros ((Hl & Hbl & x & Hx) & (Hr & Hbr & y & Hy)). rewrite Hx, Hy. run. destruct Htype as [->| ->]; eauto 10.
Qed.

Lemma truth_conjunction type l r : type = CONJUNCTION_AND ∨ type = CONJUNCTION_OR → valued l → valued r →
  truth (BoundConjunction type l r) = connective type (truth l) (truth r).
Proof using.
  intros Htype (_ & _ & x & Hx) (_ & _ & y & Hy). unfold truth. cbn [ExpressionRows.eval]. rewrite Hx, Hy. run.
  destruct Htype as [->| ->]; cbn [eval_conjunction connective]; by rewrite cell_bool_of.
Qed.

(** ** What is gathered *)

Definition exprs (l : list node) : list Expression := node_expr <$> l.

Lemma GatherAnd_truth p e : valued e →
  Forall (fun n => valued (node_expr n)) (GatherAndExpressions p e) ∧ truth e = all_true (exprs (GatherAndExpressions p e)).
Proof using.
  revert p. induction e as [e IH] using Expression_ind_children. intros p He.
  assert (Forall (fun n => valued (node_expr n)) [mkNode p e] ∧ truth e = all_true (exprs [mkNode p e])) as Hleaf.
  { split; [by repeat constructor; apply He|]. simpl. by rewrite sql_and_true_r. }
  destruct e as [| | | | | | | |type l r| | | | | |]; try done. destruct type; try done. clear Hleaf.
  cbn [children_of EnumerateChildren] in IH. rewrite !Forall_cons in IH. destruct IH as (IHl & IHr & _).
  apply valued_conjunction in He as [Hl Hr]; [|by left]. destruct (IHl (p ++ [0]) Hl) as [Hvl Htl], (IHr (p ++ [1]) Hr) as [Hvr Htr].
  cbn [GatherAndExpressions]. split; [by apply Forall_app|]. unfold exprs in *. rewrite fmap_app, all_true_app, <- Htl, <- Htr.
  by apply truth_conjunction; [left|..].
Qed.

Lemma GatherOr_truth p e : valued e →
  Forall (Forall (fun n => valued (node_expr n))) (GatherOrExpressions p e) ∧ truth e = some_true (exprs <$> GatherOrExpressions p e).
Proof using.
  revert p. induction e as [e IH] using Expression_ind_children. intros p He.
  assert (Forall (Forall (fun n => valued (node_expr n))) [GatherAndExpressions p e] ∧ truth e = some_true (exprs <$> [GatherAndExpressions p e])) as Hleaf.
  { destruct (GatherAnd_truth p e He) as [Hv Ht]. split; [by repeat constructor|]. simpl. by rewrite sql_or_false_r. }
  destruct e as [| | | | | | | |type l r| | | | | |]; try done. destruct type; try done. clear Hleaf.
  cbn [children_of EnumerateChildren] in IH. rewrite !Forall_cons in IH. destruct IH as (IHl & IHr & _).
  apply valued_conjunction in He as [Hl Hr]; [|by right]. destruct (IHl (p ++ [0]) Hl) as [Hvl Htl], (IHr (p ++ [1]) Hr) as [Hvr Htr].
  cbn [GatherOrExpressions]. split; [by apply Forall_app|]. rewrite fmap_app, some_true_app, <- Htl, <- Htr.
  by apply truth_conjunction; [right|..].
Qed.

(** ** Paths *)

Lemma GatherAnd_path p e n : n ∈ GatherAndExpressions p e → ∃ q, node_path n = p ++ q.
Proof using.
  revert p. induction e as [e IH] using Expression_ind_children. intros p.
  assert (n ∈ [mkNode p e] → ∃ q, node_path n = p ++ q) as Hleaf.
  { intros ->%list_elem_of_singleton. exists []. by rewrite app_nil_r. }
  destruct e as [| | | | | | | |type l r| | | | | |]; try done. destruct type; try done. clear Hleaf.
  cbn [children_of EnumerateChildren] in IH. rewrite !Forall_cons in IH. destruct IH as (IHl & IHr & _).
  cbn [GatherAndExpressions]. intros [[q Hq]%IHl|[q Hq]%IHr]%elem_of_app; rewrite Hq, <- app_assoc; eauto.
Qed.

Lemma GatherOr_path p e n : n ∈ concat (GatherOrExpressions p e) → ∃ q, node_path n = p ++ q.
Proof using.
  revert p. induction e as [e IH] using Expression_ind_children. intros p.
  assert (n ∈ concat [GatherAndExpressions p e] → ∃ q, node_path n = p ++ q) as Hleaf.
  { simpl. rewrite app_nil_r. apply GatherAnd_path. }
  destruct e as [| | | | | | | |type l r| | | | | |]; try done. destruct type; try done. clear Hleaf.
  cbn [children_of EnumerateChildren] in IH. rewrite !Forall_cons in IH. destruct IH as (IHl & IHr & _).
  cbn [GatherOrExpressions]. rewrite concat_app. intros [[q Hq]%IHl|[q Hq]%IHr]%elem_of_app; rewrite Hq, <- app_assoc; eauto.
Qed.

Lemma paths_differ (p q r : list nat) : (p ++ [0]) ++ q = (p ++ [1]) ++ r → False.
Proof using. rewrite <- !app_assoc. intros Heq%app_inv_head. done. Qed.

Lemma NoDup_paths (l m : list node) p :
  NoDup (node_path <$> l) → NoDup (node_path <$> m) → (∀ n, n ∈ l → ∃ q, node_path n = (p ++ [0]) ++ q) →
  (∀ n, n ∈ m → ∃ q, node_path n = (p ++ [1]) ++ q) → NoDup (node_path <$> (l ++ m)).
Proof using.
  intros Hl Hm Hpl Hpm. rewrite fmap_app. apply NoDup_app. split_and!; [done| |done].
  intros x (n & -> & Hn)%list_elem_of_fmap (n' & Heq & Hn')%list_elem_of_fmap.
  destruct (Hpl n Hn) as [q Hq], (Hpm n' Hn') as [r Hr]. rewrite Hq, Hr in Heq. by eapply paths_differ.
Qed.

Lemma GatherAnd_NoDup p e : NoDup (node_path <$> GatherAndExpressions p e).
Proof using.
  revert p. induction e as [e IH] using Expression_ind_children. intros p.
  destruct e as [| | | | | | | |type l r| | | | | |]; try apply NoDup_singleton. destruct type; try apply NoDup_singleton.
  cbn [children_of EnumerateChildren] in IH. rewrite !Forall_cons in IH. destruct IH as (IHl & IHr & _).
  cbn [GatherAndExpressions]. apply (NoDup_paths _ _ p); [done|done|by intros n; apply GatherAnd_path..].
Qed.

Lemma GatherOr_NoDup p e : NoDup (node_path <$> concat (GatherOrExpressions p e)).
Proof using.
  revert p. induction e as [e IH] using Expression_ind_children. intros p.
  assert (NoDup (node_path <$> concat [GatherAndExpressions p e])) as Hleaf by (simpl; rewrite app_nil_r; apply GatherAnd_NoDup).
  destruct e as [| | | | | | | |type l r| | | | | |]; try done. destruct type; try done. clear Hleaf.
  cbn [children_of EnumerateChildren] in IH. rewrite !Forall_cons in IH. destruct IH as (IHl & IHr & _).
  cbn [GatherOrExpressions]. rewrite concat_app. apply (NoDup_paths _ _ p); [done|done|by intros n; apply GatherOr_path..].
Qed.

(** ** What is left after pruning *)

Implicit Types inv : gset (list nat).

Lemma Prune_untouched inv p e : (∀ q, p ++ q ∉ inv) → Prune inv p e = Some e.
Proof using.
  revert p. induction e as [e IH] using Expression_ind_children. intros p Hp.
  assert (p ∉ inv) as Hself by (specialize (Hp []); by rewrite app_nil_r in Hp).
  destruct e as [| | | | | | | |type l r| | | | | |]; cbn [Prune]; rewrite bool_decide_eq_false_2 by done; try done.
  cbn [children_of EnumerateChildren] in IH. rewrite !Forall_cons in IH. destruct IH as (IHl & IHr & _).
  assert (Prune inv (p ++ [0]) l = Some l ∧ Prune inv (p ++ [1]) r = Some r) as [Hl Hr].
  { split; [apply IHl|apply IHr]; intros q; rewrite <- app_assoc; apply Hp. }
  rewrite Hl, Hr. by destruct type.
Qed.

Definition rest (inv : gset (list nat)) (l : list node) : list node := filter (fun n => node_path n ∉ inv) l.

(** The disjuncts that are left. *)
Definition remaining (inv : gset (list nat)) (ls : list (list node)) : list (list node) := filter (fun l => l ≠ []) (rest inv <$> ls).

(** Under [p] only gathered expressions are invalid. *)
Definition closed inv (p : list nat) (l : list node) : Prop := ∀ q, p ++ q ∈ inv → ∃ n, n ∈ l ∧ node_path n = p ++ q.

Lemma closed_app inv p l m :
  (∀ n, n ∈ l → ∃ q, node_path n = (p ++ [0]) ++ q) → (∀ n, n ∈ m → ∃ q, node_path n = (p ++ [1]) ++ q) →
  closed inv p (l ++ m) → (p ∉ inv) ∧ closed inv (p ++ [0]) l ∧ closed inv (p ++ [1]) m.
Proof using.
  intros Hl Hm Hc. split_and!.
  - intros Hp. rewrite <- (app_nil_r p) in Hp. apply Hc in Hp as (n & [Hn|Hn]%elem_of_app & Heq); rewrite app_nil_r in Heq;
      [apply Hl in Hn as [q Hq]|apply Hm in Hn as [q Hq]]; rewrite Heq, <- app_assoc in Hq;
      by apply (f_equal length) in Hq; rewrite length_app in Hq; simpl in Hq; lia.
  - intros q Hq. rewrite <- app_assoc in Hq. apply Hc in Hq as (n & [Hn|Hn]%elem_of_app & Heq); [exists n; by rewrite <- app_assoc|].
    apply Hm in Hn as [r Hr]. rewrite Hr, app_assoc in Heq. symmetry in Heq. by apply paths_differ in Heq.
  - intros q Hq. rewrite <- app_assoc in Hq. apply Hc in Hq as (n & [Hn|Hn]%elem_of_app & Heq); [|exists n; by rewrite <- app_assoc].
    apply Hl in Hn as [r Hr]. rewrite Hr, app_assoc in Heq. by apply paths_differ in Heq.
Qed.

Lemma rest_app inv l m : rest inv (l ++ m) = rest inv l ++ rest inv m.
Proof using. apply filter_app. Qed.

Lemma remaining_app inv ls ms : remaining inv (ls ++ ms) = remaining inv ls ++ remaining inv ms.
Proof using. unfold remaining. by rewrite fmap_app, filter_app. Qed.

(** What [Prune] makes of a conjunction whose left operands are [l]. *)
Definition pruned_to (l : list node) (e : option Expression) : Prop :=
  match e with None => l = [] | Some e' => l ≠ [] ∧ valued e' ∧ truth e' = all_true (exprs l) end.

Lemma prune_and_cases l m x y : pruned_to l x → pruned_to m y → pruned_to (l ++ m) (prune_conjunction CONJUNCTION_AND x y).
Proof using.
  destruct x as [x|], y as [y|]; cbn [pruned_to prune_conjunction].
  - intros (Hl & Hvx & Hx) (Hm & Hvy & Hy). split; [by destruct l|]. split; [apply valued_conjunction; auto|].
    rewrite truth_conjunction by auto. unfold exprs in *. by rewrite fmap_app, all_true_app, <- Hx, <- Hy.
  - intros Hx ->. by rewrite app_nil_r.
  - by intros ->.
  - by intros -> ->.
Qed.

Lemma Prune_and inv p e : valued e → closed inv p (GatherAndExpressions p e) → pruned_to (rest inv (GatherAndExpressions p e)) (Prune inv p e).
Proof using.
  revert p. induction e as [e IH] using Expression_ind_children. intros p He.
  assert (closed inv p [mkNode p e] → pruned_to (rest inv [mkNode p e]) (Prune inv p e)) as Hleaf.
  { intros Hc. destruct (decide (p ∈ inv)) as [Hp|Hp].
    - unfold rest. rewrite filter_cons_False by (simpl; naive_solver). by destruct e; cbn [Prune]; rewrite bool_decide_eq_true_2 by done.
    - unfold rest. rewrite filter_cons_True by done. rewrite Prune_untouched.
      + split; [done|]. split; [done|]. simpl. by rewrite sql_and_true_r.
      + intros q Hq. destruct (Hc q Hq) as (n & ->%list_elem_of_singleton & Heq). simpl in Heq. by rewrite <- Heq in Hq. }
  destruct e as [| | | | | | | |type l r| | | | | |]; try done. destruct type; try done. clear Hleaf.
  cbn [children_of EnumerateChildren] in IH. rewrite !Forall_cons in IH. destruct IH as (IHl & IHr & _).
  apply valued_conjunction in He as [Hl Hr]; [|by left]. cbn [GatherAndExpressions]. intros Hc.
  apply closed_app in Hc as (Hp & Hcl & Hcr); [|by intros n; apply GatherAnd_path..].
  rewrite rest_app. cbn [Prune]. rewrite bool_decide_eq_false_2 by done. apply prune_and_cases; auto.
Qed.

Definition pruned_or (ls : list (list node)) (e : option Expression) : Prop :=
  match e with None => ls = [] | Some e' => ls ≠ [] ∧ valued e' ∧ truth e' = some_true (exprs <$> ls) end.

Lemma prune_or_cases l m x y : pruned_or l x → pruned_or m y → pruned_or (l ++ m) (prune_conjunction CONJUNCTION_OR x y).
Proof using.
  destruct x as [x|], y as [y|]; cbn [pruned_or prune_conjunction].
  - intros (Hl & Hvx & Hx) (Hm & Hvy & Hy). split; [by destruct l|]. split; [apply valued_conjunction; auto|].
    rewrite truth_conjunction by auto. by rewrite fmap_app, some_true_app, <- Hx, <- Hy.
  - intros Hx ->. by rewrite app_nil_r.
  - by intros ->.
  - by intros -> ->.
Qed.

Lemma Prune_or inv p e : valued e → closed inv p (concat (GatherOrExpressions p e)) →
  pruned_or (remaining inv (GatherOrExpressions p e)) (Prune inv p e).
Proof using.
  revert p. induction e as [e IH] using Expression_ind_children. intros p He.
  assert (closed inv p (concat [GatherAndExpressions p e]) → pruned_or (remaining inv [GatherAndExpressions p e]) (Prune inv p e)) as Hleaf.
  { simpl. rewrite app_nil_r. intros Hc. pose proof (Prune_and inv p e He Hc) as Hp. unfold remaining. cbn [fmap list_fmap].
    destruct (Prune inv p e) as [e'|]; cbn [pruned_to] in Hp.
    - destruct Hp as (Hne & Hv & Ht). rewrite filter_cons_True by done. split; [done|]. split; [done|]. simpl. by rewrite sql_or_false_r.
    - by rewrite Hp, filter_cons_False by auto. }
  destruct e as [| | | | | | | |type l r| | | | | |]; try done. destruct type; try done. clear Hleaf.
  cbn [children_of EnumerateChildren] in IH. rewrite !Forall_cons in IH. destruct IH as (IHl & IHr & _).
  apply valued_conjunction in He as [Hl Hr]; [|by right]. cbn [GatherOrExpressions]. rewrite concat_app. intros Hc.
  apply closed_app in Hc as (Hp & Hcl & Hcr); [|by intros n; apply GatherOr_path..].
  rewrite remaining_app. cbn [Prune]. rewrite bool_decide_eq_false_2 by done. apply prune_or_cases; auto.
Qed.

(** ** What is common to all disjuncts *)

Lemma rest_removed inv (X : gset (list nat)) l m :
  m ∈ l → node_path m ∉ inv → node_path m ∈ X → NoDup (node_path <$> l) → (∀ n, n ∈ l → node_path n ∈ X → node_path n = node_path m) →
  rest inv l ≡ₚ m :: rest (X ∪ inv) l.
Proof using.
  intros (k1 & k2 & ->)%list_elem_of_split Hinv HX Hnd Hother. rewrite !rest_app. unfold rest.
  rewrite (filter_cons_True _ m) by done. rewrite (filter_cons_False _ m) by set_solver.
  rewrite fmap_app, fmap_cons, NoDup_app, NoDup_cons in Hnd. destruct Hnd as (_ & Hk1 & Hk2 & _).
  assert (∀ n, n ∈ k1 ++ k2 → node_path n ∉ X) as Hn.
  { intros n Hn HnX. assert (node_path n = node_path m) as Heq by (apply Hother; [set_solver|done]).
    apply elem_of_app in Hn as [Hn|Hn]; [eapply (Hk1 (node_path n)); [by apply list_elem_of_fmap_2|rewrite Heq; left]|].
    apply Hk2. rewrite <- Heq. by apply list_elem_of_fmap_2. }
  rewrite (filter_ext_in (fun n => node_path n ∉ X ∪ inv) (fun n => node_path n ∉ inv) k1) by (intros n Hk; specialize (Hn n); set_solver).
  rewrite (filter_ext_in (fun n => node_path n ∉ X ∪ inv) (fun n => node_path n ∉ inv) k2) by (intros n Hk; specialize (Hn n); set_solver).
  by rewrite Permutation_middle.
Qed.

(** One entry of every list: no list has two of them. *)
Lemma one_of_each (xs : list node) ls :
  Forall2 (fun x l => x ∈ l) xs ls → NoDup (node_path <$> concat ls) →
  Forall2 (fun x l => ∀ n, n ∈ l → node_path n ∈ node_path <$> xs → node_path n = node_path x) xs ls.
Proof using.
  induction 1 as [|x l xs ls Hx Hxs IH]; intros Hnd; [constructor|]. simpl in Hnd. rewrite fmap_app, NoDup_app in Hnd.
  destruct Hnd as (_ & Hdisj & Hnd). specialize (IH Hnd).
  assert (∀ y, y ∈ xs → y ∈ concat ls) as Hin.
  { clear -Hxs. induction Hxs as [|x l xs ls Hx _ IH]; intros y Hy; [by apply elem_of_nil in Hy|]. simpl. rewrite elem_of_app.
    apply elem_of_cons in Hy as [->|Hy]; auto. }
  constructor.
  - intros n Hn [Heq|(y & Heq & Hy)%list_elem_of_fmap]%elem_of_cons; [done|]. destruct (Hdisj (node_path n)); [by apply list_elem_of_fmap_2|].
    rewrite Heq. apply list_elem_of_fmap_2. auto.
  - assert (∀ l', l' ∈ ls → ∀ n, n ∈ l' → node_path n ≠ node_path x) as Hne.
    { intros l' Hl' n Hn Heq. apply (Hdisj (node_path x)); [by apply list_elem_of_fmap_2|]. rewrite <- Heq. apply list_elem_of_fmap_2.
      apply list_elem_of_In, in_concat. exists l'. split; by apply list_elem_of_In. }
    cbn [fmap list_fmap]. revert IH. generalize (node_path <$> xs) as zs. clear -Hne. intros zs IH.
    induction IH as [|y l ys ls Hy _ IH]; constructor.
    + intros n Hn [Heq|Hn']%elem_of_cons; [exfalso; eapply Hne; [left|done|done]|by apply Hy].
    + apply IH. intros l' Hl'. apply Hne. by right.
Qed.

Context (T : TypeId) (HT : TypeIsInteger T = true).

Lemma find_equal_spec inv entry l m : find_equal inv entry l = Ok (Some m) →
  m ∈ l ∧ (node_path m ∉ inv) ∧ Equals (node_expr entry) (node_expr m) = Ok true.
Proof using.
  induction l as [|n l IH]; cbn [find_equal]; [done|]. intros ([] & Heq & Hm)%bind_Ok.
  - injection Hm as <-. case_bool_decide; [done|]. split_and!; [left|done|done].
  - destruct (IH Hm) as (? & ? & ?). split_and!; [by right|done|done].
Qed.

Lemma find_in_all_spec inv entry ls ms : find_in_all inv entry ls = Ok (Some ms) →
  Forall2 (fun m l => m ∈ l ∧ (node_path m ∉ inv) ∧ Equals (node_expr entry) (node_expr m) = Ok true) ms ls.
Proof using.
  revert ms. induction ls as [|l ls IH]; intros ms; cbn [find_in_all]; [intros [= <-]; constructor|].
  intros ([m|] & Hm & Hb)%bind_Ok; [|done]. apply bind_Ok in Hb as ([ms'|] & Hms & [= <-]).
  constructor; [by apply find_equal_spec|by apply IH].
Qed.

(** An entry that can be pushed up. *)
Definition extractable (e : Expression) : Prop := plain T e = true ∧ valued e.

Lemma equal_truth a b : extractable a → extractable b → Equals a b = Ok true → truth b = truth a.
Proof using HT.
  intros [Hpa (Hta & _ & o & Ho)] [Hpb (Htb & _)] Heq.
  destruct (Equals_plain function_row function_type ref_type col_type env T HT a b Hpa Hpb Hta Htb Heq) as [_ Hv].
  unfold truth. by rewrite Ho, (Hv o Ho).
Qed.

(** Every list is the copies and what is left of it. *)
Definition split_off inv copies (l : list node) : Prop :=
  all_true (exprs l) = sql_and (all_true copies) (all_true (exprs (rest inv l))).

Lemma split_off_step inv copies X c l m :
  split_off inv copies l → truth (node_expr m) = truth c → rest inv l ≡ₚ m :: rest (X ∪ inv) l →
  split_off (X ∪ inv) (copies ++ [c]) l.
Proof using.
  unfold split_off. intros -> Hm Hp. rewrite all_true_app. simpl. rewrite sql_and_true_r, <- sql_and_assoc. f_equal. rewrite <- Hm.
  etransitivity; [apply all_true_permutation, fmap_Permutation, Hp|done].
Qed.

(** The state of the loop over the first list, of which [todo] is left. *)
Definition loop_ok (lists : list (list node)) (todo : list node) inv (copies : list Expression) : Prop :=
  (∀ n, n ∈ todo → node_path n ∉ inv) ∧ (∀ q, q ∈ inv → q ∈ node_path <$> concat lists) ∧
  Forall extractable copies ∧ Forall (split_off inv copies) lists.

(** Pushing up an entry and its matches. *)
Lemma common_step first others entry todo inv copies ms :
  NoDup (node_path <$> concat (first :: others)) → Forall (Forall (fun n => extractable (node_expr n))) (first :: others) →
  suffix (entry :: todo) first → loop_ok (first :: others) (entry :: todo) inv copies →
  find_in_all inv entry others = Ok (Some ms) →
  loop_ok (first :: others) todo (list_to_set (node_path <$> entry :: ms) ∪ inv) (copies ++ [node_expr entry]).
Proof using HT.
  intros Hnd Hex [done_ Hfirst] (Htodo & Hinv & Hcopies & Hsplit) Hms%find_in_all_spec.
  assert (entry ∈ first) as Hentry by (rewrite Hfirst; set_solver+).
  assert (Forall2 (fun x l => x ∈ l) (entry :: ms) (first :: others)) as Hin.
  { constructor; [done|]. eapply Forall2_impl; [exact Hms|]. by intros x l [? _]. }
  pose proof (one_of_each _ _ Hin Hnd) as Hone.
  assert (Forall (fun l => NoDup (node_path <$> l)) (first :: others)) as Hnds.
  { clear -Hnd. induction (first :: others) as [|l ls IH]; constructor; simpl in Hnd; rewrite fmap_app, NoDup_app in Hnd; [|apply IH]; apply Hnd. }
  assert (Forall2 (fun m l => (node_path m ∉ inv) ∧ truth (node_expr m) = truth (node_expr entry)) (entry :: ms) (first :: others)) as Hm.
  { apply Forall_cons in Hex as [Hexf Hexo]. rewrite Forall_forall in Hexf. constructor; [split; [apply Htodo; left|done]|].
    clear -Hms Hexo Hexf Hentry HT. induction Hms as [|m l ms ls (Hl & Hi & Heq) _ IH]; constructor; [|by apply IH; inversion Hexo].
    split; [done|]. apply equal_truth; [by apply Hexf| |done]. apply Forall_cons in Hexo as [Hexl _]. rewrite Forall_forall in Hexl. auto. }
  split_and!.
  - intros n Hn. rewrite not_elem_of_union. split; [|apply Htodo; by right]. rewrite elem_of_list_to_set. intros Hx.
    apply Forall2_cons_1 in Hone as [Hone _]. assert (node_path n = node_path entry) as Heq by (apply Hone; [rewrite Hfirst; set_solver|done]).
    apply Forall_cons in Hnds as [Hndf _]. rewrite Hfirst, fmap_app, fmap_cons, NoDup_app, NoDup_cons in Hndf.
    apply (proj1 (proj2 (proj2 Hndf))). rewrite <- Heq. by apply list_elem_of_fmap_2.
  - intros q [Hq|Hq]%elem_of_union; [|auto]. apply elem_of_list_to_set, list_elem_of_fmap in Hq as (x & -> & Hx). apply list_elem_of_fmap_2.
    clear -Hin Hx. induction Hin as [|y l xs ls Hy _ IH]; [by apply elem_of_nil in Hx|]. simpl. rewrite elem_of_app.
    apply elem_of_cons in Hx as [->|Hx]; auto.
  - apply Forall_app. split; [done|]. apply Forall_singleton. apply Forall_cons in Hex as [Hexf _]. rewrite Forall_forall in Hexf. auto.
  - remember (list_to_set _) as X eqn:HX.
    assert (∀ m, m ∈ entry :: ms → node_path m ∈ X) as HmX by (intros m ?; rewrite HX, elem_of_list_to_set; by apply list_elem_of_fmap_2).
    assert (∀ q, q ∈ X → q ∈ node_path <$> entry :: ms) as HXm by (intros q; rewrite HX; apply elem_of_list_to_set).
    clear -Hin Hone Hnds Hm Hsplit HmX HXm. revert Hone HXm. generalize (node_path <$> entry :: ms) as paths. intros paths Hone HXm.
    revert HmX Hone Hnds Hsplit Hm. induction Hin as [|m l ms' ls Hl _ IH]; intros HmX Hone Hnds Hsplit Hm; constructor.
    + apply Forall2_cons_1 in Hone as [Hone _], Hm as [[Hi Ht] _]. apply Forall_cons in Hnds as [Hnd _], Hsplit as [Hsplit _].
      eapply split_off_step; [done|done|]. apply rest_removed; [done|done|apply HmX; left|done|auto].
    + apply Forall2_cons_1 in Hone as [_ Hone], Hm as [_ Hm]. apply Forall_cons in Hnds as [_ Hnds], Hsplit as [_ Hsplit].
      apply IH; try done. intros n Hn. apply HmX. by right.
Qed.

Lemma extract_common_spec first others : NoDup (node_path <$> concat (first :: others)) →
  Forall (Forall (fun n => extractable (node_expr n))) (first :: others) → ∀ todo inv copies inv' copies',
  suffix todo first → loop_ok (first :: others) todo inv copies → extract_common todo others inv copies = Ok (inv', copies') →
  loop_ok (first :: others) [] inv' copies'.
Proof using HT.
  intros Hnd Hex todo. induction todo as [|entry todo IH]; intros inv copies inv' copies' Hsuf Hok; cbn [extract_common].
  { by intros [= <- <-]. }
  assert (suffix todo first) as Hsuf' by (etransitivity; [|exact Hsuf]; by exists [entry]).
  intros ([ms|] & Hms & Hrest)%bind_Ok.
  - apply bind_Ok in Hrest as (c & Hc & Hrest). assert (c = node_expr entry) as ->.
    { apply Forall_cons in Hex as [Hexf _]. rewrite Forall_forall in Hexf. rewrite (Copy_plain T) in Hc; [by injection Hc|].
      apply Hexf. destruct Hsuf as [k ->]. set_solver+. }
    eapply (IH _ _ _ _ Hsuf'); [|exact Hrest]. by apply common_step.
  - eapply (IH _ _ _ _ Hsuf'); [|exact Hrest]. destruct Hok as (Htodo & Hok). split; [|done]. intros n Hn. apply Htodo. by right.
Qed.

Lemma prune_root_truth acc copies e : Forall extractable copies →
  foldl (fun acc c => prune_conjunction CONJUNCTION_AND acc (Prune ∅ [] c)) acc copies = Some e →
  match acc with Some a => valued a | None => True end →
  valued e ∧ truth e = sql_and (from_option truth (Some true) acc) (all_true copies).
Proof using.
  intros Hc. revert acc. induction Hc as [|c copies [_ Hv] _ IH]; intros acc; cbn [foldl].
  - intros -> He. split; [done|]. simpl. by rewrite sql_and_true_r.
  - rewrite Prune_untouched by set_solver+. intros He Hacc. apply IH in He as [Hve Hte].
    + split; [done|]. rewrite Hte. cbn [all_true foldr]. rewrite sql_and_assoc. f_equal. destruct acc as [a|]; simpl.
      * rewrite truth_conjunction by auto. done.
      * by destruct (truth c) as [[]|].
    + destruct acc; [apply valued_conjunction; auto|done].
Qed.

(** What is left of the disjuncts: something of each, or nothing of any. *)
Definition balanced inv (ls : list (list node)) : Prop :=
  Forall (fun l => rest inv l ≠ []) ls ∨ Forall (fun l => rest inv l = []) ls.

Lemma balanced_remaining inv ls : balanced inv ls → ls ≠ [] →
  remaining inv ls = rest inv <$> ls ∨ remaining inv ls = [] ∧ some_true (exprs <$> (rest inv <$> ls)) = Some true.
Proof using.
  intros [Hall|Hall] Hne; [left|right].
  - unfold remaining. apply filter_all. intros x (l & -> & Hl)%list_elem_of_fmap. rewrite Forall_forall in Hall. auto.
  - split.
    + unfold remaining. clear Hne. induction Hall as [|l ls Hl _ IH]; [done|]. cbn [fmap list_fmap]. by rewrite Hl, filter_cons_False by auto.
    + destruct Hall as [|l ls Hl _]; [done|]. cbn [fmap list_fmap]. rewrite Hl. by destruct (some_true (exprs <$> (rest inv <$> ls))) as [[]|] eqn:E; cbn [some_true foldr exprs fmap list_fmap all_true]; fold (some_true (exprs <$> (rest inv <$> ls))); rewrite E.
Qed.

Context (Hfun : functions_typed function_row function_type) (Henv : env_ok ref_type col_type env).

Lemma valued_eval a b o : valued a → valued b → truth a = truth b → eval env a = Ok o → eval env b = Ok o.
Proof using Hfun Henv.
  intros (Hta & Hra & oa & Hoa) (Htb & Hrb & ob & Hob) Htruth Ho. unfold truth in Htruth. rewrite Hoa, Hob in Htruth.
  rewrite Hoa in Ho. injection Ho as <-. rewrite Hob. f_equal.
  pose proof (eval_ok _ _ _ _ _ _ _ Hfun Henv Hta Hoa) as Hca. pose proof (eval_ok _ _ _ _ _ _ _ Hfun Henv Htb Hob) as Hcb.
  rewrite Hra in Hca. rewrite Hrb in Hcb. by rewrite <- (boolean_canonical oa Hca), <- (boolean_canonical ob Hcb), Htruth.
Qed.

(** Pushing common conjuncts up keeps the value, if it does not empty some of
    the disjuncts and not others. *)
Lemma Distributivity_value l r first others inv copies e' o :
  let e := BoundConjunction CONJUNCTION_OR l r in
  typed e = true → eval env e = Ok o →
  GatherOrExpressions [] e = first :: others → Forall (Forall (fun n => plain T (node_expr n) = true)) (first :: others) →
  extract_common first others ∅ [] = Ok (inv, copies) → balanced inv (first :: others) →
  Distributivity_Apply [mkNode [] e] = Ok (Returned e') →
  typed e' = true ∧ return_type e' = T_BOOLEAN ∧ eval env e' = Ok o.
Proof using Hfun Henv HT.
  intros e Hte Hoe Hg Hplain Hex Hbal Happly.
  assert (valued e) as Hve by (split; [done|split; [done|by exists o]]).
  destruct (GatherOr_truth [] e Hve) as [Hv Htruth]. pose proof (GatherOr_NoDup [] e) as Hnd. rewrite Hg in Hv, Htruth, Hnd.
  assert (Forall (Forall (fun n => extractable (node_expr n))) (first :: others)) as Hextr.
  { clear -Hplain Hv. induction Hplain as [|k ks Hk _ IH]; constructor; apply Forall_cons in Hv as [Hvk Hv]; [|auto].
    clear -Hk Hvk. induction Hk as [|n k Hn _ IH]; constructor; apply Forall_cons in Hvk as [? ?]; [done|auto]. }
  assert (loop_ok (first :: others) first ∅ []) as Hstart.
  { split_and!; [set_solver+|set_solver+|constructor|]. apply Forall_forall. intros k _. unfold split_off. simpl.
    assert (rest ∅ k = k) as -> by (apply filter_all; set_solver+). by destruct (all_true _) as [[]|]. }
  destruct (extract_common_spec first others Hnd Hextr first ∅ [] inv copies (reflexivity _) Hstart Hex) as (_ & Hinv & Hcopies & Hsplit).
  unfold Distributivity_Apply in Happly. cbn [binding lookup list_lookup deref] in Happly. run_in Happly. cbn [node_expr] in Happly.
  rewrite Hg, Hex in Happly. run_in Happly. unfold e in Happly. cbv iota in Happly. fold e in Happly.
  destruct copies as [|c copies]; [done|]. apply bind_Ok in Happly as (root & Hroot%deref_Ok & [= <-]).
  pose proof (Prune_or inv [] e Hve) as Hp. rewrite Hg in Hp. specialize (Hp ltac:(intros q Hq; apply Hinv, list_elem_of_fmap in Hq as (n & Hq & Hn); exists n; done)).
  assert (some_true (exprs <$> (first :: others)) =
    sql_and (all_true (c :: copies)) (some_true (exprs <$> (rest inv <$> (first :: others))))) as Hcommon.
  { apply some_true_common. clear -Hsplit. induction Hsplit; constructor; done. }
  rewrite Hcommon in Htruth. clear Hcommon.
  destruct (prune_root_truth _ _ _ Hcopies Hroot) as [Hvr Htr]; [by destruct (Prune inv [] e); [apply Hp|]|].
  assert (truth root = truth e) as Heq.
  { rewrite Htr, Htruth, sql_and_comm. f_equal. destruct (balanced_remaining inv _ Hbal) as [Hrem|[Hrem Htrue]]; [done| |].
    - rewrite Hrem in Hp. destruct (Prune inv [] e) as [a|]; [by apply Hp|done].
    - rewrite Hrem in Hp. rewrite Htrue. destruct (Prune inv [] e) as [a|]; [by destruct Hp|done]. }
  split; [apply Hvr|]. split; [apply Hvr|]. by eapply (valued_eval e root).
Qed.
End distribution.


Module DistributivityExample.
#[local] Instance example_text : FloatText :=
  {| float_to_string := fun _ => EmptyString; double_to_string := fun _ => EmptyString; stod := fun _ => None |}.

Definition no_function : nat → list (option cell) → result (option cell) := fun _ _ => Undef.
Definition no_type : nat → list TypeId → option TypeId := fun _ _ => None.
Definition ref_type (i : nat) : option TypeId := if i <? 3 then Some T_INTEGER else None.
Definition no_column : nat → nat → nat → option TypeId := fun _ _ _ => None.
Definition row (z0 z1 z2 : Z) : row_env :=
  mkRowEnv (fun i => match i with 0 => Some (Num 4 z0) | 1 => Some (Num 4 z1) | _ => Some (Num 4 z2) end) (fun _ _ _ => None).

Definition column (i : nat) : Expression := BoundReference T_INTEGER i.
Definition equals (i : nat) (z : Z) : Expression := BoundComparison COMPARE_EQUAL (column i) (BoundConstant (some_value T_INTEGER (Num 4 z))).
Definition conj (a b : Expression) : Expression := BoundConjunction CONJUNCTION_AND a b.
Definition disj (a b : Expression) : Expression := BoundConjunction CONJUNCTION_OR a b.

(** [(x = 1 AND y = 2) OR (z = 3 AND x = 1)] becomes [(y = 2 OR z = 3) AND x = 1]. *)
Definition before : Expression := disj (conj (equals 0 1) (equals 1 2)) (conj (equals 2 3) (equals 0 1)).
Definition after : Expression := conj (disj (equals 1 2) (equals 2 3)) (equals 0 1).

Lemma row_ok z0 z1 z2 : in_range T_INTEGER z0 = true → in_range T_INTEGER z1 = true → in_range T_INTEGER z2 = true →
  env_ok ref_type no_column (row z0 z1 z2).
Proof. intros H0 H1 H2. split; [|done]. intros [|[|[|i]]] t [= <-] x [= <-]; assumption. Qed.


(** [x = 1 OR (x = 1 AND y = 2)] is [x = 1]; it becomes [y = 2 AND x = 1]. *)
Lemma absorption_lost :
  Distributivity_Apply [mkNode [] (disj (equals 0 1) (conj (equals 0 1) (equals 1 2)))] = Ok (Returned (conj (equals 1 2) (equals 0 1))) ∧
  eval no_function (row 1 5 3) (disj (equals 0 1) (conj (equals 0 1) (equals 1 2))) = Ok (Some (bool_cell true)) ∧
  eval no_function (row 1 5 3) (conj (equals 1 2) (equals 0 1)) = Ok (Some (bool_cell false)).
Proof. repeat split; vm_compute; reflexivity. Qed.

(** Casts to different types and different parameters are equal. *)
Lemma Equals_ignores_target st :
  Equals (BoundCast T_BIGINT (column 0) st st) (BoundCast T_VARCHAR (column 0) st st) = Ok true.
Proof. reflexivity. Qed.

Lemma Equals_ignores_parameter t n m v w : Equals (BoundParameter t n v) (BoundParameter t m w) = Ok true.
Proof. reflexivity. Qed.
End DistributivityExample.
