(* ===== verification/Optimizer.v ===== *)
(** * The optimizer's rewriter on plans

    [ExpressionRewriter::Apply] of [src/src/optimizer/expression_rewriter.cpp]
    with the rules of [src/src/optimizer/optimizer.cpp]: the plan it returns
    computes what the original computes. *)

From Stdlib Require Import ZArith Lia.
From stdpp Require Import base gmap list strings option numbers sorting relations.
From S2P Require Import Prelude Types Vector Serializer StringStream DateTime KeyTuples Operators VectorOps Like Casts Value Expressions ExpressionRows ExecutorProofs ScalarFunctions Matchers Rewriting RewritingProofs RewritingTermination Distributivity.

#[export] Instance LogicalOperatorType_eq_dec : EqDecision LogicalOperatorType.
Proof. solve_decision. Defined.

(** The rules that are sound: all of them on expressions without OR, and all
    but Distributivity on others. *)
Definition sound_rules `{!FloatText} (allow_or : bool) (function_call : nat → list Vector → result Vector) : list Rule :=
  if allow_or then
    [ConstantFoldingRule function_call; ArithmeticSimplificationRule; CaseSimplificationRule function_call;
     ConjunctionSimplificationRule function_call; ComparisonSimplificationRule function_call; MoveConstantsRule]
  else optimizer_rules function_call.

Section optimizer.
Context `{!FloatText}.
Context (function_call : nat → list Vector → result Vector).
Context (function_row : nat → list (option cell) → result (option cell)).
Context (function_type : nat → list TypeId → option TypeId).
Context (ref_type : nat → option TypeId) (col_type : nat → nat → nat → option TypeId).
Context (allow_or : bool).
Context (Hfun : functions_typed function_row function_type).
Context (Hrowwise : functions_rowwise function_call function_row function_type None 1).

Abbreviation eval := (eval function_row).
Abbreviation typed := (typed function_type ref_type col_type).
Abbreviation env_ok := (env_ok ref_type col_type).
Abbreviation valued := (valued function_row function_type ref_type col_type).
Abbreviation truth := (truth function_row).

(** No rule matches an OR if there is none. *)
Lemma Distributivity_vacuous env : rule_sound function_row function_type ref_type col_type env false DistributivityRule.
Proof using.
  intros e bs out o _ _ Hcl [Hor ->]%distributivity_match Hout. cbn [DistributivityRule rule_Apply] in Hout.
  unfold Distributivity_Apply in Hout. cbn [binding lookup list_lookup deref] in Hout. run_in Hout. cbn [node_expr] in Hout.
  destruct e as [| | | | | | | |type l r| | | | | |]; try done. simpl in Hor. subst type. assert (clean_node false (BoundConjunction CONJUNCTION_OR l r) = true) by (apply Hcl; constructor). done.
Qed.

Lemma sound_rules_sound env : env_ok env →
  Forall (rule_sound function_row function_type ref_type col_type env allow_or) (sound_rules allow_or function_call).
Proof using Hfun Hrowwise.
  intros Henv. unfold sound_rules, optimizer_rules. destruct allow_or.
  - apply Forall_cons_2; [by eapply ConstantFolding_sound|]. apply Forall_cons_2; [by eapply ArithmeticSimplification_sound|].
    apply Forall_cons_2; [by eapply CaseSimplification_sound|]. apply Forall_cons_2; [by eapply ConjunctionSimplification_sound|].
    apply Forall_cons_2; [by eapply ComparisonSimplification_sound|]. apply Forall_cons_2; [by eapply MoveConstants_sound|constructor].
  - apply Forall_cons_2; [by eapply ConstantFolding_sound|]. apply Forall_cons_2; [apply Distributivity_vacuous|].
    apply Forall_cons_2; [by eapply ArithmeticSimplification_sound|]. apply Forall_cons_2; [by eapply CaseSimplification_sound|].
    apply Forall_cons_2; [by eapply ConjunctionSimplification_sound|]. apply Forall_cons_2; [by eapply ComparisonSimplification_sound|].
    apply Forall_cons_2; [by eapply MoveConstants_sound|constructor].
Qed.

Lemma sound_rules_decreasing : Forall decreasing (sound_rules allow_or function_call).
Proof using.
  pose proof (optimizer_rules_decreasing function_call) as Hall. unfold sound_rules. destruct allow_or; [|done].
  unfold optimizer_rules in Hall. rewrite !Forall_cons in *. tauto.
Qed.

(** [e'] has the type of [e] and its value in every row in which it has one. *)
Definition equivalent (e e' : Expression) : Prop := ∀ env o,
  env_ok env → eval env e = Ok o → typed e' = true ∧ return_type e' = return_type e ∧ eval env e' = Ok o.

Lemma rewrite_expression_sound e e' : typed e = true → clean allow_or e →
  rewrite_expression (sound_rules allow_or function_call) e = Some (Ok e') → equivalent e e'.
Proof using Hfun Hrowwise.
  intros Ht Hcl He env o Henv Ho.
  destruct (rewrite_loop_sound _ _ _ _ _ _ _ (sound_rules_sound env Henv) _ _ _ _ Ht Ho Hcl He) as (? & ? & ? & _). done.
Qed.

Lemma rewrite_all_sound rules es es' : rewrite_all rules es = Some (Ok es') →
  Forall2 (fun e e' => rewrite_expression rules e = Some (Ok e')) es es'.
Proof using.
  revert es'. induction es as [|e es IH]; intros es'; cbn [rewrite_all]; [intros [= <-]; constructor|].
  destruct (rewrite_expression rules e) as [[e1| |]|] eqn:He; try done. simpl.
  destruct (rewrite_all rules es) as [[es1| |]|] eqn:Hes; try done. intros [= <-]. constructor; auto.
Qed.

(** ** Filters *)

(** A row passes a filter if all its predicates are true. *)
Definition passes (env : row_env) (es : list Expression) : Prop := Forall (fun e => eval env e = Ok (Some (bool_cell true))) es.

Definition same_filter (es es' : list Expression) : Prop := ∀ env,
  env_ok env → Forall (fun e => ∃ o, eval env e = Ok o) es → Forall (fun e => ∃ o, eval env e = Ok o) es' ∧ (passes env es ↔ passes env es').

Lemma conjuncts_gathered p e : conjuncts e = exprs (GatherAndExpressions p e).
Proof using.
  revert p. induction e as [e IH] using Expression_ind_children. intros p.
  destruct e as [| | | | | | | |type l r| | | | | |]; try done. destruct type; try done.
  cbn [children_of EnumerateChildren] in IH. rewrite !Forall_cons in IH. destruct IH as (IHl & IHr & _).
  cbn [GatherAndExpressions conjuncts]. unfold exprs. rewrite fmap_app. by rewrite (IHl (p ++ [0])), (IHr (p ++ [1])).
Qed.

Lemma valued_true env e : env_ok env → valued env e → eval env e = Ok (Some (bool_cell true)) ↔ truth env e = Some true.
Proof using Hfun.
  intros Henv (Ht & Hr & o & Ho). unfold Distributivity.truth. rewrite Ho.
  pose proof (eval_ok _ _ _ _ _ _ _ Hfun Henv Ht Ho) as Hc. rewrite Hr in Hc.
  rewrite <- (boolean_canonical o Hc). rewrite cell_bool_of. split; [|by intros ->].
  intros Heq. destruct (cell_bool o) as [[]|]; done.
Qed.

Lemma all_true_spec env l : all_true function_row env l = Some true ↔ Forall (fun e => truth env e = Some true) l.
Proof using.
  induction l as [|e l IH]; simpl; [done|]. rewrite Forall_cons, <- IH.
  destruct (truth env e) as [[]|], (all_true _ _ l) as [[]|]; naive_solver.
Qed.

Lemma conjuncts_pass env e : env_ok env → valued env e →
  Forall (valued env) (conjuncts e) ∧ (eval env e = Ok (Some (bool_cell true)) ↔ passes env (conjuncts e)).
Proof using Hfun.
  intros Henv He. destruct (GatherAnd_truth _ _ _ _ _ [] e He) as [Hv Ht]. rewrite (conjuncts_gathered []).
  assert (Forall (valued env) (exprs (GatherAndExpressions [] e))) as Hvs by (unfold exprs; by apply Forall_fmap). split; [done|].
  rewrite valued_true, Ht, all_true_spec by done. unfold passes. clear -Hvs Hfun Henv.
  induction Hvs as [|x l Hx _ IH]; [done|]. rewrite !Forall_cons, IH, valued_true by done. done.
Qed.

Lemma split_same_filter es es' es'' : Forall (fun e => typed e = true ∧ return_type e = T_BOOLEAN) es →
  Forall2 equivalent es es' → es'' ≡ₚ concat (map conjuncts es') → same_filter es es''.
Proof using Hfun.
  intros Hes Heq Hp env Henv Hval.
  assert (Forall (valued env) (concat (map conjuncts es')) ∧ (passes env es ↔ passes env (concat (map conjuncts es')))) as [Hv Hpass].
  { clear Hp. revert Hes Hval. induction Heq as [|e e' es es' He _ IH]; intros Hes Hval; [by split; [constructor|]|].
    apply Forall_cons in Hes as [[Ht Hr] Hes], Hval as [[o Ho] Hval]. destruct (IH Hes Hval) as [IHv IHp].
    destruct (He env o Henv Ho) as (Ht' & Hr' & Ho'). destruct (conjuncts_pass env e' Henv) as [Hv Hpe].
    { split; [done|]. split; [congruence|by exists o]. }
    simpl. split; [by apply Forall_app|]. unfold passes in *. rewrite Forall_cons, Forall_app, IHp, <- Hpe, Ho, Ho'. done. }
  split.
  - rewrite Hp. eapply Forall_impl; [exact Hv|]. by intros x (_ & _ & ?).
  - rewrite Hpass. unfold passes. by rewrite Hp.
Qed.

(** ** Plans *)

(** Well-typed plans: predicates in filters, no narrow arithmetic and, unless
    [allow_or], no OR. *)
#[warnings="-register-all"]
Inductive plan_ok : LogicalOperator → Prop :=
| plan_ok_node type es children :
  Forall (fun e => typed e = true ∧ clean allow_or e) es → (type = LO_FILTER → Forall (fun e => return_type e = T_BOOLEAN) es) →
  Forall plan_ok children → plan_ok (mkOperator type es children).

(** The same operators; filters that pass the same rows and otherwise
    expressions with the same values. *)
#[warnings="-register-all"]
Inductive plan_equivalent : LogicalOperator → LogicalOperator → Prop :=
| plan_equivalent_node type es es' children children' :
  (if bool_decide (type = LO_FILTER) then same_filter es es' else Forall2 equivalent es es') →
  Forall2 plan_equivalent children children' → plan_equivalent (mkOperator type es children) (mkOperator type es' children').

Abbreviation rules := (sound_rules allow_or function_call).

Lemma apply_node_sound type es es' :
  Forall (fun e => typed e = true ∧ clean allow_or e) es → (type = LO_FILTER → Forall (fun e => return_type e = T_BOOLEAN) es) →
  apply_node rules type es = Some (Ok es') →
  if bool_decide (type = LO_FILTER) then same_filter es es' else Forall2 equivalent es es'.
Proof using Hfun Hrowwise.
  intros Hes Hbool Happly. unfold apply_node in Happly.
  destruct es as [|e es].
  { injection Happly as <-. case_bool_decide; [by split|constructor]. }
  assert (∃ r rs, rules = r :: rs) as (r & rs & Hr) by (unfold sound_rules; destruct allow_or; by eexists _, _).
  rewrite Hr in Happly. rewrite <- Hr in Happly. destruct (rewrite_all rules (e :: es)) as [res|] eqn:Hall; [|done]. simpl in Happly.
  assert (∀ es1, res = Ok es1 → Forall2 equivalent (e :: es) es1) as Heq.
  { intros es1 ->. apply rewrite_all_sound in Hall. clear -Hall Hes Hfun Hrowwise. revert Hes.
    induction Hall as [|x x' l l' Hx _ IH]; intros Hes; constructor; apply Forall_cons in Hes as [[Ht Hc] Hes]; [|auto].
    by apply rewrite_expression_sound. }
  case_bool_decide as Htype; [subst type|].
  - destruct res as [es1| |]; try done. destruct (SplitPredicates_spec es1) as (es2 & Hs & Hp). rewrite Hs in Happly. injection Happly as <-.
    eapply split_same_filter; [|by apply Heq|done]. specialize (Hbool eq_refl). clear -Hes Hbool. induction Hbool; constructor;
      apply Forall_cons in Hes as [[? _] ?]; auto.
  - apply Heq. destruct res as [es1| |], type; by simplify_eq.
Qed.

Lemma Apply_sound : ∀ root root', plan_ok root → Apply rules root = Some (Ok root') → plan_equivalent root root'.
Proof using Hfun Hrowwise.
  fix IH 1. intros [type es children] root' Hok. cbn [Apply]. fold (apply_children (Apply rules)).
  inversion Hok as [type0 es0 children0 Hes Hbool Hch]; subst. clear Hok.
  destruct (apply_children (Apply rules) children) as [[children'| |]|] eqn:Hc; try done. simpl.
  destruct (apply_node rules type es) as [[es'| |]|] eqn:Hn; try done. intros [= <-]. constructor; [by apply apply_node_sound|].
  clear -IH Hch Hc. revert children' Hc. induction children as [|c children IHc]; intros children'; cbn [apply_children]; [intros [= <-]; constructor|].
  destruct (Apply rules c) as [[c'| |]|] eqn:Hcc; try done. simpl.
  destruct (apply_children (Apply rules) children) as [[m| |]|] eqn:Hm; try done. intros [= <-].
  inversion Hch; subst. constructor; [by apply IH|]. by apply IHc.
Qed.
End optimizer.


Module OptimizerExample.
#[local] Instance example_text : FloatText :=
  {| float_to_string := fun _ => EmptyString; double_to_string := fun _ => EmptyString; stod := fun _ => None |}.

Definition functions : list unary_function := [F_abs T_INTEGER].
Definition ref_type (i : nat) : option TypeId := None.
Definition col_type (a b c : nat) : option TypeId := Some T_INTEGER.
Definition number (z : Z) : Expression := BoundConstant (some_value T_INTEGER (Num 4 z)).
Definition column (i : nat) : Expression := BoundColumnRef T_INTEGER 0 i 0.
Definition binary (type : ExpressionType) (a b : Expression) : Expression := BoundOperator type T_INTEGER [a; b].

(** [x * 2 < 10 AND (abs(-3) = y AND TRUE)] over [x + 0]. *)
Definition before : LogicalOperator :=
  mkOperator LO_FILTER
    [BoundConjunction CONJUNCTION_AND (BoundComparison COMPARE_LESSTHAN (binary OPERATOR_MULTIPLY (column 0) (number 2)) (number 10))
       (BoundConjunction CONJUNCTION_AND
          (BoundComparison COMPARE_EQUAL (BoundFunction T_INTEGER 0 [number (-3)]) (column 1)) (BoundConstant (Value_BOOLEAN true)))]
    [mkOperator LO_PROJECTION [binary OPERATOR_ADD (column 0) (number 0)] []].
Definition after : LogicalOperator :=
  mkOperator LO_FILTER
    [BoundComparison COMPARE_EQUAL (number 3) (column 1); BoundComparison COMPARE_LESSTHAN (column 0) (number 5)]
    [mkOperator LO_PROJECTION [column 0] []].

(** Every node of an expression is clean. *)
Fixpoint clean_all (allow_or : bool) (fuel : nat) (e : Expression) : bool :=
  match fuel with 0 => false | S fuel => clean_node allow_or e && forallb (clean_all allow_or fuel) (children_of e) end.

Lemma clean_all_clean allow_or fuel e : clean_all allow_or fuel e = true → clean allow_or e.
Proof.
  revert e. induction fuel as [|fuel IH]; intros e; [done|]. cbn [clean_all]. intros [Hn Hc]%andb_true_iff x Hx.
  apply subexpression_inv in Hx as [->|(c & Hin & Hx)]; [done|]. rewrite forallb_forall in Hc. apply (IH c); [|done]. by apply Hc, list_elem_of_In.
Qed.


(** On narrow integers [x + 100] wraps around, [50 - 100] does not. *)
Definition tiny (z : Z) : Expression := BoundConstant (some_value T_TINYINT (Num 1 z)).
Definition tiny_row : row_env := mkRowEnv (fun _ => None) (fun _ _ _ => Some (Num 1 100)).
Definition tiny_before : Expression :=
  BoundComparison COMPARE_LESSTHAN (BoundOperator OPERATOR_ADD T_TINYINT [BoundColumnRef T_TINYINT 0 0 0; tiny 100]) (tiny 50).
Definition tiny_after : Expression := BoundComparison COMPARE_LESSTHAN (BoundColumnRef T_TINYINT 0 0 0) (tiny (-50)).

Lemma narrow_constant_moved :
  rewrite_expression (optimizer_rules (catalog_call functions)) tiny_before = Some (Ok tiny_after) ∧
  eval (catalog_row functions) tiny_row tiny_before = Ok (Some (bool_cell true)) ∧
  eval (catalog_row functions) tiny_row tiny_after = Ok (Some (bool_cell false)).
Proof. repeat split; vm_compute; reflexivity. Qed.

(** Moving a constant can overflow while the plan is optimized, whatever the
    rows: [x - 1 < 2147483647]. *)
Lemma moved_constant_overflows :
  rewrite_expression (optimizer_rules (catalog_call functions))
    (BoundComparison COMPARE_LESSTHAN (binary OPERATOR_SUBTRACT (column 0) (number 1)) (number 2147483647)) = Some Undef.
Proof. vm_compute. reflexivity. Qed.
End OptimizerExample.
