(* ===== verification/ParsedExpressions.v ===== *)
(** * Parsed expressions, query nodes and table references

    Models the abstract syntax that the parser builds and the log and the
    catalog keep: [src/src/parser/parsed_expression.cpp],
    [parser/expression/*.cpp], [parser/query_node.cpp],
    [parser/query_node/*.cpp], [parser/tableref.cpp], [parser/tableref/*.cpp]
    and [parser/statement/select_statement.cpp]: construction, comparison,
    copy and serialization.

    An enumeration of the source is a byte here, since any byte can be read
    into it; [ExpressionType] values are named by their constructors in
    [Expressions].  Pointers are values, null pointers are [None], and
    comparing an object with itself is comparing it with an equal one. *)

From Stdlib Require Import ZArith Lia Ascii.
From S2P Require Import Prelude Types Vector Serializer Value WriteAheadLog Operators Casts Expressions ScalarFunctions Matchers.
From stdpp Require Import base gmap strings option numbers sorting list.

Local Open Scope Z_scope.

(** ** Data *)

(** The bytes of [ExpressionType]. *)
Definition ExpressionType_code (t : ExpressionType) : Z :=
  match t with
  | ET_INVALID => 0
  | OPERATOR_ADD => 1 | OPERATOR_SUBTRACT => 2 | OPERATOR_MULTIPLY => 3 | OPERATOR_DIVIDE => 4 | OPERATOR_CONCAT => 5
  | OPERATOR_MOD => 6 | OPERATOR_CAST => 7 | OPERATOR_NOT => 8 | OPERATOR_IS_NULL => 9 | OPERATOR_IS_NOT_NULL => 10
  | COMPARE_EQUAL => 25 | COMPARE_NOTEQUAL => 26 | COMPARE_LESSTHAN => 27 | COMPARE_GREATERTHAN => 28
  | COMPARE_LESSTHANOREQUALTO => 29 | COMPARE_GREATERTHANOREQUALTO => 30 | COMPARE_LIKE => 31 | COMPARE_NOTLIKE => 32
  | COMPARE_IN => 33 | COMPARE_NOT_IN => 34 | COMPARE_DISTINCT_FROM => 35 | COMPARE_BETWEEN => 36 | COMPARE_NOT_BETWEEN => 37
  | CONJUNCTION_AND => 50 | CONJUNCTION_OR => 51
  | VALUE_CONSTANT => 75 | VALUE_PARAMETER => 76 | VALUE_TUPLE => 77 | VALUE_TUPLE_ADDRESS => 78 | VALUE_NULL => 79
  | VALUE_VECTOR => 80 | VALUE_SCALAR => 81 | VALUE_DEFAULT => 82
  | AGGREGATE_COUNT => 100 | AGGREGATE_COUNT_STAR => 101 | AGGREGATE_COUNT_DISTINCT => 102 | AGGREGATE_SUM => 103
  | AGGREGATE_SUM_DISTINCT => 104 | AGGREGATE_MIN => 105 | AGGREGATE_MAX => 106 | AGGREGATE_AVG => 107
  | AGGREGATE_FIRST => 108 | AGGREGATE_STDDEV_SAMP => 109
  | WINDOW_SUM => 115 | WINDOW_COUNT_STAR => 116 | WINDOW_MIN => 117 | WINDOW_MAX => 118 | WINDOW_AVG => 119
  | WINDOW_RANK => 120 | WINDOW_RANK_DENSE => 121 | WINDOW_NTILE => 122 | WINDOW_PERCENT_RANK => 123
  | WINDOW_CUME_DIST => 124 | WINDOW_ROW_NUMBER => 125 | WINDOW_FIRST_VALUE => 130 | WINDOW_LAST_VALUE => 131
  | WINDOW_LEAD => 132 | WINDOW_LAG => 133
  | ET_FUNCTION => 140 | ET_BOUND_FUNCTION => 141
  | OPERATOR_CASE_EXPR => 150 | OPERATOR_NULLIF => 151 | OPERATOR_COALESCE => 152
  | ET_SUBQUERY => 175
  | ET_STAR => 200 | ET_PLACEHOLDER => 201 | ET_COLUMN_REF => 202 | ET_FUNCTION_REF => 203 | ET_TABLE_REF => 204
  | ET_CAST => 225 | COMMON_SUBEXPRESSION => 226 | BOUND_REF => 227 | BOUND_COLUMN_REF => 228
  end.
Coercion ExpressionType_code : ExpressionType >-> Z.

(** The bytes of [ExpressionClass] that are parsed expressions. *)
Definition CLASS_AGGREGATE : Z := 1.
Definition CLASS_CASE : Z := 2.
Definition CLASS_CAST : Z := 3.
Definition CLASS_COLUMN_REF : Z := 4.
Definition CLASS_COMPARISON : Z := 5.
Definition CLASS_CONJUNCTION : Z := 6.
Definition CLASS_CONSTANT : Z := 7.
Definition CLASS_DEFAULT : Z := 8.
Definition CLASS_FUNCTION : Z := 9.
Definition CLASS_OPERATOR : Z := 10.
Definition CLASS_STAR : Z := 11.
Definition CLASS_SUBQUERY : Z := 12.
Definition CLASS_WINDOW : Z := 13.
Definition CLASS_PARAMETER : Z := 14.

(** [QueryNodeType], [TableReferenceType] *)
Definition SELECT_NODE : Z := 1.
Definition SET_OPERATION_NODE : Z := 2.
Definition TABLE_INVALID : Z := 0.
Definition TABLE_BASE : Z := 1.
Definition TABLE_SUBQUERY : Z := 2.
Definition TABLE_JOIN : Z := 3.
Definition TABLE_CROSS_PRODUCT : Z := 4.
Definition TABLE_FUNCTION : Z := 5.

(** The fields of the classes, the alias first; the classes whose constructor
    fixes the type have no field for it.  The children of a join can be null
    after reading it. *)
#[warnings="-register-all"]
Inductive ParsedExpression : Type :=
| AggregateExpression (alias : string) (type : Z) (child : option ParsedExpression)
| CaseExpression (alias : string) (check result_if_true result_if_false : ParsedExpression)
| CastExpression (alias : string) (cast_type : SQLType) (child : ParsedExpression)
| ColumnRefExpression (alias : string) (column_name table_name : string)
| ComparisonExpression (alias : string) (type : Z) (lhs rhs : ParsedExpression)
| ConjunctionExpression (alias : string) (type : Z) (lhs rhs : ParsedExpression)
| ConstantExpression (alias : string) (value : Value) (sql_type : SQLType)
| DefaultExpression (alias : string)
| FunctionExpression (alias : string) (schema function_name : string) (children : list ParsedExpression)
| OperatorExpression (alias : string) (type : Z) (children : list ParsedExpression)
| ParameterExpression (alias : string) (parameter_nr : Z)
| StarExpression (alias : string)
| SubqueryExpression (alias : string) (subquery_type : Z) (subquery : QueryNode) (child : option ParsedExpression) (comparison_type : Z)
| WindowExpression (alias : string) (type : Z) (child : option ParsedExpression) (partitions : list ParsedExpression)
    (orders : list (Z * ParsedExpression)) (start_bound end_bound : Z)
    (start_expr end_expr offset_expr default_expr : option ParsedExpression)
with QueryNode : Type :=
| SelectNode (select_distinct : bool) (limit offset : option ParsedExpression) (orders : list (Z * ParsedExpression))
    (select_list : list ParsedExpression) (from_table : option TableRef) (where_clause : option ParsedExpression)
    (groups : list ParsedExpression) (having : option ParsedExpression)
| SetOperationNode (select_distinct : bool) (limit offset : option ParsedExpression) (orders : list (Z * ParsedExpression))
    (setop_type : Z) (lhs rhs : QueryNode)
with TableRef : Type :=
| BaseTableRef (alias : string) (schema_name table_name : string)
| CrossProductRef (alias : string) (lhs rhs : TableRef)
| JoinRef (alias : string) (lhs rhs : option TableRef) (condition : ParsedExpression) (type : Z) (hidden_columns : gset string)
| SubqueryRef (alias : string) (subquery : QueryNode) (column_name_alias : list string)
| TableFunction (alias : string) (function : ParsedExpression).

(** [SelectStatement]: the common table expressions and the query. *)
Record SelectStatement : Type := mkSelect { cte_map : gmap string QueryNode; node : QueryNode }.

Definition expression_class (e : ParsedExpression) : Z :=
  match e with
  | AggregateExpression _ _ _ => CLASS_AGGREGATE
  | CaseExpression _ _ _ _ => CLASS_CASE
  | CastExpression _ _ _ => CLASS_CAST
  | ColumnRefExpression _ _ _ => CLASS_COLUMN_REF
  | ComparisonExpression _ _ _ _ => CLASS_COMPARISON
  | ConjunctionExpression _ _ _ _ => CLASS_CONJUNCTION
  | ConstantExpression _ _ _ => CLASS_CONSTANT
  | DefaultExpression _ => CLASS_DEFAULT
  | FunctionExpression _ _ _ _ => CLASS_FUNCTION
  | OperatorExpression _ _ _ => CLASS_OPERATOR
  | ParameterExpression _ _ => CLASS_PARAMETER
  | StarExpression _ => CLASS_STAR
  | SubqueryExpression _ _ _ _ _ => CLASS_SUBQUERY
  | WindowExpression _ _ _ _ _ _ _ _ _ _ _ => CLASS_WINDOW
  end.

Definition parsed_type (e : ParsedExpression) : Z :=
  match e with
  | AggregateExpression _ type _ | ComparisonExpression _ type _ _ | ConjunctionExpression _ type _ _
  | OperatorExpression _ type _ | WindowExpression _ type _ _ _ _ _ _ _ _ _ => type
  | CaseExpression _ _ _ _ => OPERATOR_CASE_EXPR
  | CastExpression _ _ _ => OPERATOR_CAST
  | ColumnRefExpression _ _ _ => ET_COLUMN_REF
  | ConstantExpression _ _ _ => VALUE_CONSTANT
  | DefaultExpression _ => VALUE_DEFAULT
  | FunctionExpression _ _ _ _ => ET_FUNCTION
  | ParameterExpression _ _ => VALUE_PARAMETER
  | StarExpression _ => ET_STAR
  | SubqueryExpression _ _ _ _ _ => ET_SUBQUERY
  end.

Definition expression_alias (e : ParsedExpression) : string :=
  match e with
  | AggregateExpression alias _ _ | CaseExpression alias _ _ _ | CastExpression alias _ _ | ColumnRefExpression alias _ _
  | ComparisonExpression alias _ _ _ | ConjunctionExpression alias _ _ _ | ConstantExpression alias _ _
  | DefaultExpression alias | FunctionExpression alias _ _ _ | OperatorExpression alias _ _ | ParameterExpression alias _
  | StarExpression alias | SubqueryExpression alias _ _ _ _ | WindowExpression alias _ _ _ _ _ _ _ _ _ _ => alias
  end.

(** [result->alias = alias] *)
Definition set_expression_alias (alias : string) (e : ParsedExpression) : ParsedExpression :=
  match e with
  | AggregateExpression _ type child => AggregateExpression alias type child
  | CaseExpression _ check t f => CaseExpression alias check t f
  | CastExpression _ cast_type child => CastExpression alias cast_type child
  | ColumnRefExpression _ column_name table_name => ColumnRefExpression alias column_name table_name
  | ComparisonExpression _ type l r => ComparisonExpression alias type l r
  | ConjunctionExpression _ type l r => ConjunctionExpression alias type l r
  | ConstantExpression _ value sql_type => ConstantExpression alias value sql_type
  | DefaultExpression _ => DefaultExpression alias
  | FunctionExpression _ schema function_name children => FunctionExpression alias schema function_name children
  | OperatorExpression _ type children => OperatorExpression alias type children
  | ParameterExpression _ parameter_nr => ParameterExpression alias parameter_nr
  | StarExpression _ => StarExpression alias
  | SubqueryExpression _ subquery_type subquery child comparison_type => SubqueryExpression alias subquery_type subquery child comparison_type
  | WindowExpression _ type child partitions orders s e start_expr end_expr offset_expr default_expr =>
    WindowExpression alias type child partitions orders s e start_expr end_expr offset_expr default_expr
  end.

(** ** Constructors *)

(** The aggregates that the parser can build. *)
Definition aggregate_supported (type : Z) : bool :=
  bool_decide (type ∈ ExpressionType_code <$> [AGGREGATE_COUNT; AGGREGATE_COUNT_STAR; AGGREGATE_COUNT_DISTINCT; AGGREGATE_SUM;
    AGGREGATE_SUM_DISTINCT; AGGREGATE_MIN; AGGREGATE_MAX; AGGREGATE_FIRST; AGGREGATE_STDDEV_SAMP]).

(** [COUNT] without argument and of a star become [COUNT_STAR]. *)
Definition NewAggregate (type : Z) (child : option ParsedExpression) : result ParsedExpression :=
  let '(this_type, child) :=
    if type =? AGGREGATE_COUNT then
      match child with
      | None => (ExpressionType_code AGGREGATE_COUNT_STAR, None)
      | Some c => if parsed_type c =? ET_STAR then (ExpressionType_code AGGREGATE_COUNT_STAR, None) else (type, child)
      end
    else (type, child) in
  if aggregate_supported type then Ok (AggregateExpression "" this_type child) else Throw NotImplementedException.

Definition window_supported (type : Z) : bool :=
  bool_decide (type ∈ ExpressionType_code <$> [WINDOW_SUM; WINDOW_COUNT_STAR; WINDOW_MIN; WINDOW_MAX; WINDOW_AVG; WINDOW_ROW_NUMBER;
    WINDOW_FIRST_VALUE; WINDOW_LAST_VALUE; WINDOW_RANK; WINDOW_RANK_DENSE; WINDOW_PERCENT_RANK; WINDOW_CUME_DIST; WINDOW_LEAD;
    WINDOW_LAG; WINDOW_NTILE]).

Definition NewWindow (type : Z) (child : option ParsedExpression) : result ParsedExpression :=
  if window_supported type then Ok (WindowExpression "" type child [] [] 0 0 None None None None)
  else Throw NotImplementedException.

Definition DEFAULT_SCHEMA : string := "main".

(** [FunctionExpression(schema, function_name, children)] *)
Definition NewFunction (schema function_name : string) (children : list ParsedExpression) : ParsedExpression :=
  FunctionExpression "" schema (strtolower function_name) children.

Definition option_list {A} (o : option A) : list A := match o with Some a => [a] | None => [] end.

(** [OperatorExpression(type, left, right)] *)
Definition NewOperator (type : Z) (lhs rhs : option ParsedExpression) : ParsedExpression :=
  OperatorExpression "" type (option_list lhs ++ option_list rhs).

(** ** Writing *)

(** [WriteOptional], [WriteList] *)
Definition WriteOptional {A} (f : Serializer → A → result Serializer) (s : Serializer) (element : option A) : result Serializer :=
  match element with
  | Some x => s ← WriteInt 1 s 1; f s x
  | None => WriteInt 1 s 0
  end.

Definition WriteList {A} (f : Serializer → A → result Serializer) (s : Serializer) (l : list A) : result Serializer :=
  s ← WriteInt 4 s (Z.of_nat (length l));
  write_each f s l.

(** [ParsedExpression::Serialize] *)
Definition base_Serialize (s : Serializer) (e : ParsedExpression) : result Serializer :=
  s ← WriteInt 1 s (expression_class e);
  s ← WriteInt 1 s (parsed_type e);
  WriteString s (expression_alias e).

(** An entry of [orders]. *)
Definition order_Serialize (expr : Serializer → ParsedExpression → result Serializer) (s : Serializer) (order : Z * ParsedExpression) : result Serializer :=
  s ← WriteInt 1 s order.1;
  expr s order.2.

Section write.
(** The virtual methods [Serialize] of the children. *)
Context (expr : Serializer → ParsedExpression → result Serializer).
Context (query : Serializer → QueryNode → result Serializer).
Context (table : Serializer → TableRef → result Serializer).

Definition Aggregate_Serialize (s : Serializer) (child : option ParsedExpression) : result Serializer := WriteOptional expr s child.

Definition Case_Serialize (s : Serializer) (check result_if_true result_if_false : ParsedExpression) : result Serializer :=
  s ← expr s check;
  s ← expr s result_if_true;
  expr s result_if_false.

Definition Cast_Serialize (s : Serializer) (cast_type : SQLType) (child : ParsedExpression) : result Serializer :=
  s ← expr s child;
  SQLType_Serialize s cast_type.

Definition ColumnRef_Serialize (s : Serializer) (column_name table_name : string) : result Serializer :=
  s ← WriteString s table_name;
  WriteString s column_name.

Definition Comparison_Serialize (s : Serializer) (lhs rhs : ParsedExpression) : result Serializer :=
  s ← expr s lhs;
  expr s rhs.

Definition Conjunction_Serialize (s : Serializer) (lhs rhs : ParsedExpression) : result Serializer :=
  s ← expr s lhs;
  expr s rhs.

Definition Constant_Serialize (s : Serializer) (value : Value) (sql_type : SQLType) : result Serializer :=
  s ← Value_Serialize s value;
  SQLType_Serialize s sql_type.

Definition Function_Serialize (s : Serializer) (schema function_name : string) (children : list ParsedExpression) : result Serializer :=
  s ← WriteString s function_name;
  s ← WriteString s schema;
  WriteList expr s children.

Definition Operator_Serialize (s : Serializer) (children : list ParsedExpression) : result Serializer := WriteList expr s children.

Definition Parameter_Serialize (s : Serializer) (parameter_nr : Z) : result Serializer := WriteInt 8 s parameter_nr.

Definition Subquery_Serialize (s : Serializer) (subquery_type : Z) (subquery : QueryNode) (child : option ParsedExpression) (comparison_type : Z) : result Serializer :=
  s ← WriteInt 1 s subquery_type;
  s ← query s subquery;
  s ← WriteOptional expr s child;
  WriteInt 1 s comparison_type.

Definition Window_Serialize (s : Serializer) (child : option ParsedExpression) (partitions : list ParsedExpression)
    (orders : list (Z * ParsedExpression)) (start_bound end_bound : Z)
    (start_expr end_expr offset_expr default_expr : option ParsedExpression) : result Serializer :=
  s ← WriteOptional expr s child;
  s ← WriteList expr s partitions;
  s ← WriteInt 4 s (Z.of_nat (length orders));
  s ← write_each (order_Serialize expr) s orders;
  s ← WriteInt 1 s start_bound;
  s ← WriteInt 1 s end_bound;
  s ← WriteOptional expr s start_expr;
  s ← WriteOptional expr s end_expr;
  s ← WriteOptional expr s offset_expr;
  WriteOptional expr s default_expr.

(** [QueryNode::Serialize]: what all query nodes have. *)
Definition QueryNode_Serialize (s : Serializer) (type : Z) (select_distinct : bool) (limit offset : option ParsedExpression)
    (orders : list (Z * ParsedExpression)) : result Serializer :=
  s ← WriteInt 1 s type;
  s ← WriteInt 1 s (if select_distinct then 1 else 0);
  s ← WriteOptional expr s limit;
  s ← WriteOptional expr s offset;
  s ← WriteInt 8 s (Z.of_nat (length orders));
  write_each (order_Serialize expr) s orders.

Definition SelectNode_Serialize (s : Serializer) (select_list : list ParsedExpression) (from_table : option TableRef)
    (where_clause : option ParsedExpression) (groups : list ParsedExpression) (having : option ParsedExpression) : result Serializer :=
  s ← WriteList expr s select_list;
  s ← WriteOptional table s from_table;
  s ← WriteOptional expr s where_clause;
  s ← WriteList expr s groups;
  WriteOptional expr s having.

Definition SetOperationNode_Serialize (s : Serializer) (setop_type : Z) (lhs rhs : QueryNode) : result Serializer :=
  s ← WriteInt 1 s setop_type;
  s ← query s lhs;
  query s rhs.

(** [TableRef::Serialize]: what all table references have. *)
Definition TableRef_base_Serialize (s : Serializer) (type : Z) (alias : string) : result Serializer :=
  s ← WriteInt 1 s type;
  WriteString s alias.

Definition BaseTableRef_Serialize (s : Serializer) (schema_name table_name : string) : result Serializer :=
  s ← WriteString s schema_name;
  WriteString s table_name.

Definition CrossProductRef_Serialize (s : Serializer) (lhs rhs : TableRef) : result Serializer :=
  s ← table s lhs;
  table s rhs.

(** A call through a child that can be null. *)
Definition nullable_Serialize (s : Serializer) (child : option TableRef) : result Serializer :=
  match child with Some c => table s c | None => Undef end.

(** [columns] is [hidden_columns] in the order of its iteration. *)
Definition JoinRef_Serialize (s : Serializer) (lhs rhs : option TableRef) (condition : ParsedExpression) (type : Z) (columns : list string) : result Serializer :=
  s ← nullable_Serialize s lhs;
  s ← nullable_Serialize s rhs;
  s ← expr s condition;
  s ← WriteInt 1 s type;
  s ← WriteInt 4 s (Z.of_nat (length columns));
  write_each WriteString s columns.

Definition SubqueryRef_Serialize (s : Serializer) (subquery : QueryNode) (column_name_alias : list string) : result Serializer :=
  s ← query s subquery;
  s ← WriteInt 4 s (Z.of_nat (length column_name_alias));
  write_each WriteString s column_name_alias.

Definition TableFunction_Serialize (s : Serializer) (function : ParsedExpression) : result Serializer := expr s function.
End write.

(** The order in which the elements of an [unordered_set] and of an
    [unordered_map] are visited. *)
Class HashOrder : Type := {
  set_order : gset string → list string;
  map_order : gmap string QueryNode → list (string * QueryNode);
  set_order_elements X : set_order X ≡ₚ elements X;
  map_order_elements m : map_order m ≡ₚ map_to_list m }.

Section serialize.
Context `{!HashOrder}.

Fixpoint Expression_Serialize (s : Serializer) (e : ParsedExpression) {struct e} : result Serializer :=
  s ← base_Serialize s e;
  match e with
  | AggregateExpression _ _ child => Aggregate_Serialize Expression_Serialize s child
  | CaseExpression _ check t f => Case_Serialize Expression_Serialize s check t f
  | CastExpression _ cast_type child => Cast_Serialize Expression_Serialize s cast_type child
  | ColumnRefExpression _ column_name table_name => ColumnRef_Serialize s column_name table_name
  | ComparisonExpression _ _ l r => Comparison_Serialize Expression_Serialize s l r
  | ConjunctionExpression _ _ l r => Conjunction_Serialize Expression_Serialize s l r
  | ConstantExpression _ value sql_type => Constant_Serialize s value sql_type
  | DefaultExpression _ | StarExpression _ => Ok s
  | FunctionExpression _ schema function_name children => Function_Serialize Expression_Serialize s schema function_name children
  | OperatorExpression _ _ children => Operator_Serialize Expression_Serialize s children
  | ParameterExpression _ parameter_nr => Parameter_Serialize s parameter_nr
  | SubqueryExpression _ subquery_type subquery child comparison_type =>
    Subquery_Serialize Expression_Serialize Query_Serialize s subquery_type subquery child comparison_type
  | WindowExpression _ _ child partitions orders start_bound end_bound start_expr end_expr offset_expr default_expr =>
    Window_Serialize Expression_Serialize s child partitions orders start_bound end_bound start_expr end_expr offset_expr default_expr
  end
with Query_Serialize (s : Serializer) (q : QueryNode) {struct q} : result Serializer :=
  match q with
  | SelectNode select_distinct limit offset orders select_list from_table where_clause groups having =>
    s ← QueryNode_Serialize Expression_Serialize s SELECT_NODE select_distinct limit offset orders;
    SelectNode_Serialize Expression_Serialize TableRef_Serialize s select_list from_table where_clause groups having
  | SetOperationNode select_distinct limit offset orders setop_type l r =>
    s ← QueryNode_Serialize Expression_Serialize s SET_OPERATION_NODE select_distinct limit offset orders;
    SetOperationNode_Serialize Query_Serialize s setop_type l r
  end
with TableRef_Serialize (s : Serializer) (t : TableRef) {struct t} : result Serializer :=
  match t with
  | BaseTableRef alias schema_name table_name =>
    s ← TableRef_base_Serialize s TABLE_BASE alias;
    BaseTableRef_Serialize s schema_name table_name
  | CrossProductRef alias l r =>
    s ← TableRef_base_Serialize s TABLE_CROSS_PRODUCT alias;
    CrossProductRef_Serialize TableRef_Serialize s l r
  | JoinRef alias l r condition type hidden_columns =>
    s ← TableRef_base_Serialize s TABLE_JOIN alias;
    JoinRef_Serialize Expression_Serialize TableRef_Serialize s l r condition type (set_order hidden_columns)
  | SubqueryRef alias subquery column_name_alias =>
    s ← TableRef_base_Serialize s TABLE_SUBQUERY alias;
    SubqueryRef_Serialize Query_Serialize s subquery column_name_alias
  | TableFunction alias function =>
    s ← TableRef_base_Serialize s TABLE_FUNCTION alias;
    TableFunction_Serialize Expression_Serialize s function
  end.

(** [SelectStatement::Serialize] *)
Definition Select_Serialize (s : Serializer) (stmt : SelectStatement) : result Serializer :=
  let ctes := map_order (cte_map stmt) in
  s ← WriteInt 4 s (Z.of_nat (length ctes));
  s ← write_each (fun s cte => s ← WriteString s cte.1; Query_Serialize s cte.2) s ctes;
  Query_Serialize s (node stmt).
End serialize.

(** ** Reading *)

Abbreviation reader A := (M (list byte) A).

(** [ReadOptional], [ReadList] *)
Definition ReadOptional {A} (f : reader A) : reader (option A) :=
  has_entry ← ReadInt 1;
  if has_entry =? 0 then mret None else x ← f; mret (Some x).

Definition ReadList {A} (f : reader A) : reader (list A) :=
  select_count ← ReadInt 4;
  read_times (Z.to_nat select_count) f.

(** An entry of [orders]. *)
Definition order_Deserialize (expr : reader ParsedExpression) : reader (Z * ParsedExpression) :=
  type ← ReadInt 1;
  expression ← expr;
  mret (type, expression).

Section read.
(** The static methods [Deserialize] of the base classes; the one of a table
    reference can return null. *)
Context (expr : reader ParsedExpression) (query : reader QueryNode) (table : reader (option TableRef)).

Definition Aggregate_Deserialize (type : Z) : reader ParsedExpression :=
  child ← ReadOptional expr;
  lift_M (NewAggregate type child).

Definition Case_Deserialize : reader ParsedExpression :=
  check ← expr;
  result_if_true ← expr;
  result_if_false ← expr;
  mret (CaseExpression "" check result_if_true result_if_false).

Definition Cast_Deserialize : reader ParsedExpression :=
  child ← expr;
  cast_type ← SQLType_Deserialize;
  mret (CastExpression "" cast_type child).

Definition ColumnRef_Deserialize : reader ParsedExpression :=
  table_name ← ReadString;
  column_name ← ReadString;
  mret (ColumnRefExpression "" column_name table_name).

Definition Comparison_Deserialize (type : Z) : reader ParsedExpression :=
  left_child ← expr;
  right_child ← expr;
  mret (ComparisonExpression "" type left_child right_child).

Definition Conjunction_Deserialize (type : Z) : reader ParsedExpression :=
  left_child ← expr;
  right_child ← expr;
  mret (ConjunctionExpression "" type left_child right_child).

Definition Constant_Deserialize : reader ParsedExpression :=
  value ← Value_Deserialize;
  sql_type ← SQLType_Deserialize;
  mret (ConstantExpression "" value sql_type).

Definition Default_Deserialize : reader ParsedExpression := mret (DefaultExpression "").

(** [function->schema = schema] *)
Definition set_schema (schema : string) (e : ParsedExpression) : ParsedExpression :=
  match e with
  | FunctionExpression alias _ function_name children => FunctionExpression alias schema function_name children
  | _ => e
  end.

Definition Function_Deserialize : reader ParsedExpression :=
  function_name ← ReadString;
  schema ← ReadString;
  children ← ReadList expr;
  mret (set_schema schema (NewFunction DEFAULT_SCHEMA function_name children)).

Definition Operator_Deserialize (type : Z) : reader ParsedExpression :=
  children ← ReadList expr;
  mret (OperatorExpression "" type children).

Definition Parameter_Deserialize : reader ParsedExpression :=
  parameter_nr ← ReadInt 8;
  mret (ParameterExpression "" parameter_nr).

Definition Star_Deserialize : reader ParsedExpression := mret (StarExpression "").

Definition Subquery_Deserialize : reader ParsedExpression :=
  subquery_type ← ReadInt 1;
  subquery ← query;
  child ← ReadOptional expr;
  comparison_type ← ReadInt 1;
  mret (SubqueryExpression "" subquery_type subquery child comparison_type).

Definition Window_Deserialize (type : Z) : reader ParsedExpression :=
  child ← ReadOptional expr;
  _ ← lift_M (NewWindow type child);
  partitions ← ReadList expr;
  order_count ← ReadInt 4;
  orders ← read_times (Z.to_nat order_count) (order_Deserialize expr);
  start_bound ← ReadInt 1;
  end_bound ← ReadInt 1;
  start_expr ← ReadOptional expr;
  end_expr ← ReadOptional expr;
  offset_expr ← ReadOptional expr;
  default_expr ← ReadOptional expr;
  mret (WindowExpression "" type child partitions orders start_bound end_bound start_expr end_expr offset_expr default_expr).

(** The fields of a [QueryNode] that both classes share are set by
    [QueryNode::Deserialize] afterwards. *)
Definition SelectNode_Deserialize : reader QueryNode :=
  select_list ← ReadList expr;
  from_table ← ReadOptional table;
  where_clause ← ReadOptional expr;
  groups ← ReadList expr;
  having ← ReadOptional expr;
  mret (SelectNode false None None [] select_list (mjoin from_table) where_clause groups having).

Definition SetOperationNode_Deserialize : reader QueryNode :=
  setop_type ← ReadInt 1;
  lhs ← query;
  rhs ← query;
  mret (SetOperationNode false None None [] setop_type lhs rhs).

Definition set_modifiers (select_distinct : bool) (limit offset : option ParsedExpression) (orders : list (Z * ParsedExpression))
    (q : QueryNode) : QueryNode :=
  match q with
  | SelectNode _ _ _ _ select_list from_table where_clause groups having =>
    SelectNode select_distinct limit offset orders select_list from_table where_clause groups having
  | SetOperationNode _ _ _ _ setop_type l r => SetOperationNode select_distinct limit offset orders setop_type l r
  end.

Definition QueryNode_Deserialize : reader QueryNode :=
  type ← ReadInt 1;
  select_distinct ← ReadInt 1;
  limit ← ReadOptional expr;
  offset ← ReadOptional expr;
  order_count ← ReadInt 8;
  orders ← read_times (Z.to_nat order_count) (order_Deserialize expr);
  result ←
    (if type =? SELECT_NODE then SelectNode_Deserialize
     else if type =? SET_OPERATION_NODE then SetOperationNode_Deserialize
     else throw_M SerializationException);
  mret (set_modifiers (negb (select_distinct =? 0)) limit offset orders result).

Definition BaseTableRef_Deserialize : reader (option TableRef) :=
  schema_name ← ReadString;
  table_name ← ReadString;
  mret (Some (BaseTableRef "" schema_name table_name)).

Definition CrossProductRef_Deserialize : reader (option TableRef) :=
  lhs ← table;
  rhs ← table;
  match lhs, rhs with
  | Some lhs, Some rhs => mret (Some (CrossProductRef "" lhs rhs))
  | _, _ => mret None
  end.

Definition JoinRef_Deserialize : reader (option TableRef) :=
  lhs ← table;
  rhs ← table;
  condition ← expr;
  type ← ReadInt 1;
  count ← ReadInt 4;
  columns ← read_times (Z.to_nat count) ReadString;
  mret (Some (JoinRef "" lhs rhs condition type (list_to_set columns))).

(** The count is read as an [int] and converted to a [size_t]. *)
Definition SubqueryRef_Deserialize : reader (option TableRef) :=
  subquery ← query;
  count ← ReadInt 4;
  let column_count := to_signed 4 count mod 2 ^ 64 in
  column_name_alias ← read_times (Z.to_nat column_count) ReadString;
  mret (Some (SubqueryRef "" subquery column_name_alias)).

Definition TableFunction_Deserialize : reader (option TableRef) :=
  function ← expr;
  mret (Some (TableFunction "" function)).

Definition set_table_alias (alias : string) (t : TableRef) : TableRef :=
  match t with
  | BaseTableRef _ schema_name table_name => BaseTableRef alias schema_name table_name
  | CrossProductRef _ l r => CrossProductRef alias l r
  | JoinRef _ l r condition type hidden_columns => JoinRef alias l r condition type hidden_columns
  | SubqueryRef _ subquery column_name_alias => SubqueryRef alias subquery column_name_alias
  | TableFunction _ function => TableFunction alias function
  end.

(** [TableRef::Deserialize]: a type that the switch does not list leaves the
    result null, and the alias is assigned through it. *)
Definition TableRef_base_Deserialize : reader (option TableRef) :=
  type ← ReadInt 1;
  alias ← ReadString;
  if type =? TABLE_INVALID then mret None
  else
    result ←
      (if type =? TABLE_BASE then BaseTableRef_Deserialize
       else if type =? TABLE_CROSS_PRODUCT then CrossProductRef_Deserialize
       else if type =? TABLE_JOIN then JoinRef_Deserialize
       else if type =? TABLE_SUBQUERY then SubqueryRef_Deserialize
       else if type =? TABLE_FUNCTION then TableFunction_Deserialize
       else mret None);
    result ← lift_M (deref result);
    mret (Some (set_table_alias alias result)).

(** [ParsedExpression::Deserialize] *)
Definition ParsedExpression_Deserialize : reader ParsedExpression :=
  expression_class ← ReadInt 1;
  type ← ReadInt 1;
  alias ← ReadString;
  result ←
    (if expression_class =? CLASS_AGGREGATE then Aggregate_Deserialize type
     else if expression_class =? CLASS_CASE then Case_Deserialize
     else if expression_class =? CLASS_CAST then Cast_Deserialize
     else if expression_class =? CLASS_COLUMN_REF then ColumnRef_Deserialize
     else if expression_class =? CLASS_COMPARISON then Comparison_Deserialize type
     else if expression_class =? CLASS_CONJUNCTION then Conjunction_Deserialize type
     else if expression_class =? CLASS_CONSTANT then Constant_Deserialize
     else if expression_class =? CLASS_DEFAULT then Default_Deserialize
     else if expression_class =? CLASS_FUNCTION then Function_Deserialize
     else if expression_class =? CLASS_OPERATOR then Operator_Deserialize type
     else if expression_class =? CLASS_PARAMETER then Parameter_Deserialize
     else if expression_class =? CLASS_STAR then Star_Deserialize
     else if expression_class =? CLASS_SUBQUERY then Subquery_Deserialize
     else if expression_class =? CLASS_WINDOW then Window_Deserialize type
     else throw_M SerializationException);
  mret (set_expression_alias alias result).
End read.

(** The recursion of the three functions: [fuel] bounds the nesting, which is
    at most the number of bytes. *)
Fixpoint Expression_Deserialize (fuel : nat) : reader ParsedExpression :=
  match fuel with
  | O => lift_M Undef
  | S fuel => ParsedExpression_Deserialize (Expression_Deserialize fuel) (Query_Deserialize fuel)
  end
with Query_Deserialize (fuel : nat) : reader QueryNode :=
  match fuel with
  | O => lift_M Undef
  | S fuel => QueryNode_Deserialize (Expression_Deserialize fuel) (Query_Deserialize fuel) (TableRef_Deserialize fuel)
  end
with TableRef_Deserialize (fuel : nat) : reader (option TableRef) :=
  match fuel with
  | O => lift_M Undef
  | S fuel => TableRef_base_Deserialize (Expression_Deserialize fuel) (Query_Deserialize fuel) (TableRef_Deserialize fuel)
  end.

(** [SelectStatement::Deserialize] *)
Definition Select_Deserialize (fuel : nat) : reader SelectStatement :=
  cte_count ← ReadInt 4;
  ctes ← read_times (Z.to_nat cte_count) (name ← ReadString; statement ← Query_Deserialize fuel; mret (name, statement));
  node ← Query_Deserialize fuel;
  mret (mkSelect (foldl (fun m cte => <[cte.1 := cte.2]> m) ∅ ctes) node).

(** ** Comparing *)

Section equal_lists.
Context {A : Type} (equals : A → A → result bool).

(** [BaseExpression::Equals(left, right)] on pointers that can be null *)
Definition option_Equals (l r : option A) : result bool :=
  match l, r with
  | None, None => Ok true
  | Some l, Some r => equals l r
  | _, _ => Ok false
  end.

Fixpoint elements_Equals (l m : list A) : result bool :=
  match l, m with
  | x :: l, y :: m => and_then (equals x y) (elements_Equals l m)
  | _, _ => Ok true
  end.

(** The sizes first, then the elements. *)
Definition list_Equals (l m : list A) : result bool :=
  if (length l =? length m)%nat then elements_Equals l m else Ok false.
End equal_lists.

Section equals.
Context `{!FloatText}.
Context (expr : ParsedExpression → ParsedExpression → result bool).
Context (query : QueryNode → QueryNode → result bool).
Context (table : TableRef → TableRef → result bool).

Definition Aggregate_Equals (child other : option ParsedExpression) : result bool := option_Equals expr child other.

Definition Case_Equals (check result_if_true result_if_false check' result_if_true' result_if_false' : ParsedExpression) : result bool :=
  and_then (expr check check') (and_then (expr result_if_true result_if_true') (expr result_if_false result_if_false')).

(** The target of the cast is not compared. *)
Definition Cast_Equals (child child' : ParsedExpression) : result bool := expr child child'.

Definition ColumnRef_Equals (column_name table_name column_name' table_name' : string) : result bool :=
  Ok (bool_decide (column_name = column_name') && bool_decide (table_name = table_name')).

Definition Comparison_Equals (lhs rhs lhs' rhs' : ParsedExpression) : result bool := and_then (expr lhs lhs') (expr rhs rhs').

Definition Conjunction_Equals (lhs rhs lhs' rhs' : ParsedExpression) : result bool :=
  or_else (and_then (expr lhs lhs') (expr rhs rhs')) (and_then (expr rhs lhs') (expr lhs rhs')).

Definition Constant_Equals (value value' : Value) : result bool := Value_Equals value value'.

(** Functions differ if both the schema and the name do. *)
Definition Function_Equals (schema function_name : string) (children : list ParsedExpression) (schema' function_name' : string)
    (children' : list ParsedExpression) : result bool :=
  if negb (bool_decide (schema = schema')) && negb (bool_decide (function_name = function_name')) then Ok false
  else list_Equals expr children children'.

Definition Operator_Equals (children children' : list ParsedExpression) : result bool := list_Equals expr children children'.

(** Neither the child nor the comparison is compared. *)
Definition Subquery_Equals (subquery_type : Z) (subquery : QueryNode) (subquery_type' : Z) (subquery' : QueryNode) : result bool :=
  if subquery_type =? subquery_type' then query subquery subquery' else Ok false.

Definition order_Equals (order order' : Z * ParsedExpression) : result bool :=
  if order.1 =? order'.1 then expr order.2 order'.2 else Ok false.

Definition Window_Equals (child : option ParsedExpression) (partitions : list ParsedExpression) (orders : list (Z * ParsedExpression))
    (start_bound end_bound : Z) (start_expr end_expr offset_expr default_expr : option ParsedExpression)
    (child' : option ParsedExpression) (partitions' : list ParsedExpression) (orders' : list (Z * ParsedExpression))
    (start_bound' end_bound' : Z) (start_expr' end_expr' offset_expr' default_expr' : option ParsedExpression) : result bool :=
  if (start_bound =? start_bound') && (end_bound =? end_bound') then
    and_then (option_Equals expr child child')
      (and_then (option_Equals expr start_expr start_expr')
        (and_then (option_Equals expr end_expr end_expr')
          (and_then (option_Equals expr offset_expr offset_expr')
            (and_then (option_Equals expr default_expr default_expr')
              (and_then (list_Equals expr partitions partitions') (list_Equals order_Equals orders orders'))))))
  else Ok false.

(** [QueryNode::Equals] on nodes of one type *)
Definition QueryNode_Equals (select_distinct : bool) (limit offset : option ParsedExpression) (orders : list (Z * ParsedExpression))
    (select_distinct' : bool) (limit' offset' : option ParsedExpression) (orders' : list (Z * ParsedExpression)) : result bool :=
  if eqb select_distinct select_distinct' then
    and_then (option_Equals expr limit limit')
      (and_then (option_Equals expr offset offset') (list_Equals order_Equals orders orders'))
  else Ok false.

Definition SelectNode_Equals (select_list : list ParsedExpression) (from_table : option TableRef) (where_clause : option ParsedExpression)
    (groups : list ParsedExpression) (having : option ParsedExpression)
    (select_list' : list ParsedExpression) (from_table' : option TableRef) (where_clause' : option ParsedExpression)
    (groups' : list ParsedExpression) (having' : option ParsedExpression) : result bool :=
  if negb (length select_list =? length select_list')%nat || negb (length groups =? length groups')%nat then Ok false
  else
    and_then (elements_Equals expr select_list select_list')
      (and_then (option_Equals table from_table from_table')
        (and_then (option_Equals expr where_clause where_clause')
          (and_then (elements_Equals expr groups groups') (option_Equals expr having having')))).

Definition SetOperationNode_Equals (setop_type : Z) (lhs rhs : QueryNode) (setop_type' : Z) (lhs' rhs' : QueryNode) : result bool :=
  if setop_type =? setop_type' then and_then (query lhs lhs') (query rhs rhs') else Ok false.

(** [TableRef::Equals] on references of one type *)
Definition TableRef_base_Equals (alias alias' : string) : bool := bool_decide (alias = alias').

Definition BaseTableRef_Equals (schema_name table_name schema_name' table_name' : string) : result bool :=
  Ok (bool_decide (schema_name' = schema_name) && bool_decide (table_name' = table_name)).

Definition CrossProductRef_Equals (lhs rhs lhs' rhs' : TableRef) : result bool := and_then (table lhs lhs') (table rhs rhs').

(** A call on a child that can be null, with one that can be null. *)
Definition nullable_Equals (child child' : option TableRef) : result bool :=
  match child, child' with
  | None, _ => Undef
  | Some _, None => Ok false
  | Some child, Some child' => table child child'
  end.

(** The hidden columns are not compared. *)
Definition JoinRef_Equals (lhs rhs : option TableRef) (condition : ParsedExpression) (type : Z)
    (lhs' rhs' : option TableRef) (condition' : ParsedExpression) (type' : Z) : result bool :=
  and_then (nullable_Equals lhs lhs')
    (and_then (nullable_Equals rhs rhs') (and_then (expr condition condition') (Ok (type =? type')))).

Definition SubqueryRef_Equals (subquery subquery' : QueryNode) : result bool := query subquery subquery'.

Definition TableFunction_Equals (function function' : ParsedExpression) : result bool := expr function function'.
End equals.

(** [BaseExpression::Equals]: the class and the type come first. *)
Definition base_Equals (a b : ParsedExpression) : bool :=
  (expression_class a =? expression_class b) && (parsed_type a =? parsed_type b).

Fixpoint Expression_Equals `{!FloatText} (a b : ParsedExpression) {struct a} : result bool :=
  if negb (base_Equals a b) then Ok false
  else
    match a, b with
    | AggregateExpression _ _ child, AggregateExpression _ _ child' => Aggregate_Equals Expression_Equals child child'
    | CaseExpression _ c t f, CaseExpression _ c' t' f' => Case_Equals Expression_Equals c t f c' t' f'
    | CastExpression _ _ child, CastExpression _ _ child' => Cast_Equals Expression_Equals child child'
    | ColumnRefExpression _ c t, ColumnRefExpression _ c' t' => ColumnRef_Equals c t c' t'
    | ComparisonExpression _ _ l r, ComparisonExpression _ _ l' r' => Comparison_Equals Expression_Equals l r l' r'
    | ConjunctionExpression _ _ l r, ConjunctionExpression _ _ l' r' => Conjunction_Equals Expression_Equals l r l' r'
    | ConstantExpression _ v _, ConstantExpression _ v' _ => Constant_Equals v v'
    | FunctionExpression _ s f l, FunctionExpression _ s' f' l' => Function_Equals Expression_Equals s f l s' f' l'
    | OperatorExpression _ _ l, OperatorExpression _ _ l' => Operator_Equals Expression_Equals l l'
    | SubqueryExpression _ t q _ _, SubqueryExpression _ t' q' _ _ => Subquery_Equals Query_Equals t q t' q'
    | WindowExpression _ _ c p o s e se ee oe de, WindowExpression _ _ c' p' o' s' e' se' ee' oe' de' =>
      Window_Equals Expression_Equals c p o s e se ee oe de c' p' o' s' e' se' ee' oe' de'
    | _, _ => Ok true
    end
with Query_Equals `{!FloatText} (a b : QueryNode) {struct a} : result bool :=
  match a, b with
  | SelectNode d li of_ os sl ft wc gs h, SelectNode d' li' of' os' sl' ft' wc' gs' h' =>
    and_then (QueryNode_Equals Expression_Equals d li of_ os d' li' of' os')
      (SelectNode_Equals Expression_Equals TableRef_Equals sl ft wc gs h sl' ft' wc' gs' h')
  | SetOperationNode d li of_ os t l r, SetOperationNode d' li' of' os' t' l' r' =>
    and_then (QueryNode_Equals Expression_Equals d li of_ os d' li' of' os')
      (SetOperationNode_Equals Query_Equals t l r t' l' r')
  | _, _ => Ok false
  end
with TableRef_Equals `{!FloatText} (a b : TableRef) {struct a} : result bool :=
  match a, b with
  | BaseTableRef alias s t, BaseTableRef alias' s' t' =>
    if TableRef_base_Equals alias alias' then BaseTableRef_Equals s t s' t' else Ok false
  | CrossProductRef alias l r, CrossProductRef alias' l' r' =>
    if TableRef_base_Equals alias alias' then CrossProductRef_Equals TableRef_Equals l r l' r' else Ok false
  | JoinRef alias l r c t _, JoinRef alias' l' r' c' t' _ =>
    if TableRef_base_Equals alias alias' then JoinRef_Equals Expression_Equals TableRef_Equals l r c t l' r' c' t' else Ok false
  | SubqueryRef alias q _, SubqueryRef alias' q' _ =>
    if TableRef_base_Equals alias alias' then SubqueryRef_Equals Query_Equals q q' else Ok false
  | TableFunction alias f, TableFunction alias' f' =>
    if TableRef_base_Equals alias alias' then TableFunction_Equals Expression_Equals f f' else Ok false
  | _, _ => Ok false
  end.

(** [SelectStatement::Equals]: every common table expression of the one has an
    equal one in the other. *)
Fixpoint ctes_Equals `{!FloatText} (ctes : list (string * QueryNode)) (other : gmap string QueryNode) : result bool :=
  match ctes with
  | [] => Ok true
  | (name, q) :: ctes =>
    match other !! name with
    | None => Ok false
    | Some q' => and_then (Query_Equals q q') (ctes_Equals ctes other)
    end
  end.

Definition Select_Equals `{!FloatText} `{!HashOrder} (a b : SelectStatement) : result bool :=
  if (size (cte_map a) =? size (cte_map b))%nat then
    and_then (ctes_Equals (map_order (cte_map a)) (cte_map b)) (Query_Equals (node a) (node b))
  else Ok false.

(** ** Copying *)

(** [this->type = other.type] and the alias, of [CopyProperties] *)
Definition set_expression_type (type : Z) (e : ParsedExpression) : ParsedExpression :=
  match e with
  | AggregateExpression alias _ child => AggregateExpression alias type child
  | ComparisonExpression alias _ l r => ComparisonExpression alias type l r
  | ConjunctionExpression alias _ l r => ConjunctionExpression alias type l r
  | OperatorExpression alias _ children => OperatorExpression alias type children
  | WindowExpression alias _ child partitions orders s e start_expr end_expr offset_expr default_expr =>
    WindowExpression alias type child partitions orders s e start_expr end_expr offset_expr default_expr
  | _ => e
  end.

Definition CopyProperties (e other : ParsedExpression) : ParsedExpression :=
  set_expression_alias (expression_alias other) (set_expression_type (parsed_type other) e).

Definition option_Copy {A} (copy : A → result A) (o : option A) : result (option A) :=
  match o with Some x => x ← copy x; Ok (Some x) | None => Ok None end.

Fixpoint list_Copy {A} (copy : A → result A) (l : list A) : result (list A) :=
  match l with [] => Ok [] | x :: l => x ← copy x; l ← list_Copy copy l; Ok (x :: l) end.

Section copy.
Context (expr : ParsedExpression → result ParsedExpression).
Context (query : QueryNode → result QueryNode).
Context (table : TableRef → result TableRef).

Definition Aggregate_Copy (type : Z) (child : option ParsedExpression) : result ParsedExpression :=
  new_child ← option_Copy expr child;
  NewAggregate type new_child.

Definition Case_Copy (check result_if_true result_if_false : ParsedExpression) : result ParsedExpression :=
  check ← expr check;
  result_if_true ← expr result_if_true;
  result_if_false ← expr result_if_false;
  Ok (CaseExpression "" check result_if_true result_if_false).

Definition Cast_Copy (cast_type : SQLType) (child : ParsedExpression) : result ParsedExpression :=
  child ← expr child;
  Ok (CastExpression "" cast_type child).

Definition ColumnRef_Copy (column_name table_name : string) : result ParsedExpression :=
  Ok (ColumnRefExpression "" column_name table_name).

Definition Comparison_Copy (type : Z) (lhs rhs : ParsedExpression) : result ParsedExpression :=
  lhs ← expr lhs;
  rhs ← expr rhs;
  Ok (ComparisonExpression "" type lhs rhs).

Definition Conjunction_Copy (type : Z) (lhs rhs : ParsedExpression) : result ParsedExpression :=
  lhs ← expr lhs;
  rhs ← expr rhs;
  Ok (ConjunctionExpression "" type lhs rhs).

Definition Constant_Copy (value : Value) (sql_type : SQLType) : result ParsedExpression := Ok (ConstantExpression "" value sql_type).

Definition Default_Copy : result ParsedExpression := Ok (DefaultExpression "").

Definition Function_Copy (schema function_name : string) (children : list ParsedExpression) : result ParsedExpression :=
  copy_children ← list_Copy expr children;
  Ok (set_schema schema (NewFunction DEFAULT_SCHEMA function_name copy_children)).

Definition Operator_Copy (type : Z) (children : list ParsedExpression) : result ParsedExpression :=
  children ← list_Copy expr children;
  Ok (OperatorExpression "" type children).

(** The number of the parameter is that of the constructor. *)
Definition Parameter_Copy : result ParsedExpression := Ok (ParameterExpression "" 0).

Definition Star_Copy : result ParsedExpression := Ok (StarExpression "").

Definition Subquery_Copy (subquery_type : Z) (subquery : QueryNode) (child : option ParsedExpression) (comparison_type : Z) : result ParsedExpression :=
  subquery ← query subquery;
  child ← option_Copy expr child;
  Ok (SubqueryExpression "" subquery_type subquery child comparison_type).

Definition order_Copy (order : Z * ParsedExpression) : result (Z * ParsedExpression) :=
  expression ← expr order.2;
  Ok (order.1, expression).

Definition Window_Copy (type : Z) (child : option ParsedExpression) (partitions : list ParsedExpression)
    (orders : list (Z * ParsedExpression)) (start_bound end_bound : Z)
    (start_expr end_expr offset_expr default_expr : option ParsedExpression) : result ParsedExpression :=
  child_copy ← option_Copy expr child;
  _ ← NewWindow type child_copy;
  partitions ← list_Copy expr partitions;
  orders ← list_Copy order_Copy orders;
  start_expr ← option_Copy expr start_expr;
  end_expr ← option_Copy expr end_expr;
  offset_expr ← option_Copy expr offset_expr;
  default_expr ← option_Copy expr default_expr;
  Ok (WindowExpression "" type child_copy partitions orders start_bound end_bound start_expr end_expr offset_expr default_expr).

(** [QueryNode::CopyProperties], which comes last *)
Definition QueryNode_CopyProperties (select_distinct : bool) (limit offset : option ParsedExpression) (orders : list (Z * ParsedExpression))
    (other : QueryNode) : result QueryNode :=
  orders ← list_Copy order_Copy orders;
  limit ← option_Copy expr limit;
  offset ← option_Copy expr offset;
  Ok (set_modifiers select_distinct limit offset orders other).

Definition SelectNode_Copy (select_list : list ParsedExpression) (from_table : option TableRef) (where_clause : option ParsedExpression)
    (groups : list ParsedExpression) (having : option ParsedExpression) : result QueryNode :=
  select_list ← list_Copy expr select_list;
  from_table ← option_Copy table from_table;
  where_clause ← option_Copy expr where_clause;
  groups ← list_Copy expr groups;
  having ← option_Copy expr having;
  Ok (SelectNode false None None [] select_list from_table where_clause groups having).

Definition SetOperationNode_Copy (setop_type : Z) (lhs rhs : QueryNode) : result QueryNode :=
  lhs ← query lhs;
  rhs ← query rhs;
  Ok (SetOperationNode false None None [] setop_type lhs rhs).

Definition BaseTableRef_Copy (alias schema_name table_name : string) : result TableRef := Ok (BaseTableRef alias schema_name table_name).

Definition CrossProductRef_Copy (alias : string) (lhs rhs : TableRef) : result TableRef :=
  lhs ← table lhs;
  rhs ← table rhs;
  Ok (CrossProductRef alias lhs rhs).

(** A copy of a child that can be null. *)
Definition nullable_Copy (child : option TableRef) : result (option TableRef) :=
  match child with Some c => c ← table c; Ok (Some c) | None => Undef end.

Definition JoinRef_Copy (alias : string) (lhs rhs : option TableRef) (condition : ParsedExpression) (type : Z) (hidden_columns : gset string) : result TableRef :=
  lhs ← nullable_Copy lhs;
  rhs ← nullable_Copy rhs;
  condition ← expr condition;
  Ok (JoinRef alias lhs rhs condition type hidden_columns).

Definition SubqueryRef_Copy (alias : string) (subquery : QueryNode) (column_name_alias : list string) : result TableRef :=
  subquery ← query subquery;
  Ok (SubqueryRef alias subquery column_name_alias).

Definition TableFunction_Copy (alias : string) (function : ParsedExpression) : result TableRef :=
  function ← expr function;
  Ok (TableFunction alias function).
End copy.

Fixpoint Expression_Copy (e : ParsedExpression) : result ParsedExpression :=
  copy ←
    match e with
    | AggregateExpression _ type child => Aggregate_Copy Expression_Copy type child
    | CaseExpression _ check t f => Case_Copy Expression_Copy check t f
    | CastExpression _ cast_type child => Cast_Copy Expression_Copy cast_type child
    | ColumnRefExpression _ column_name table_name => ColumnRef_Copy column_name table_name
    | ComparisonExpression _ type l r => Comparison_Copy Expression_Copy type l r
    | ConjunctionExpression _ type l r => Conjunction_Copy Expression_Copy type l r
    | ConstantExpression _ value sql_type => Constant_Copy value sql_type
    | DefaultExpression _ => Default_Copy
    | FunctionExpression _ schema function_name children => Function_Copy Expression_Copy schema function_name children
    | OperatorExpression _ type children => Operator_Copy Expression_Copy type children
    | ParameterExpression _ _ => Parameter_Copy
    | StarExpression _ => Star_Copy
    | SubqueryExpression _ subquery_type subquery child comparison_type =>
      Subquery_Copy Expression_Copy Query_Copy subquery_type subquery child comparison_type
    | WindowExpression _ type child partitions orders s e start_expr end_expr offset_expr default_expr =>
      Window_Copy Expression_Copy type child partitions orders s e start_expr end_expr offset_expr default_expr
    end;
  Ok (CopyProperties copy e)
with Query_Copy (q : QueryNode) : result QueryNode :=
  match q with
  | SelectNode select_distinct limit offset orders select_list from_table where_clause groups having =>
    result ← SelectNode_Copy Expression_Copy TableRef_Copy select_list from_table where_clause groups having;
    QueryNode_CopyProperties Expression_Copy select_distinct limit offset orders result
  | SetOperationNode select_distinct limit offset orders setop_type l r =>
    result ← SetOperationNode_Copy Query_Copy setop_type l r;
    QueryNode_CopyProperties Expression_Copy select_distinct limit offset orders result
  end
with TableRef_Copy (t : TableRef) : result TableRef :=
  match t with
  | BaseTableRef alias schema_name table_name => BaseTableRef_Copy alias schema_name table_name
  | CrossProductRef alias l r => CrossProductRef_Copy TableRef_Copy alias l r
  | JoinRef alias l r condition type hidden_columns => JoinRef_Copy Expression_Copy TableRef_Copy alias l r condition type hidden_columns
  | SubqueryRef alias subquery column_name_alias => SubqueryRef_Copy Query_Copy alias subquery column_name_alias
  | TableFunction alias function => TableFunction_Copy Expression_Copy alias function
  end.

(** [SelectStatement::Copy] *)
Definition Select_Copy `{!HashOrder} (stmt : SelectStatement) : result SelectStatement :=
  ctes ← list_Copy (fun cte : string * QueryNode => q ← Query_Copy cte.2; Ok (cte.1, q)) (map_order (cte_map stmt));
  node ← Query_Copy (node stmt);
  Ok (mkSelect (foldl (fun m cte => <[cte.1 := cte.2]> m) ∅ ctes) node).

(** ** Children and what depends on them *)

Definition callback_option {S} (callback : S → ParsedExpression → S) (s : S) (child : option ParsedExpression) : S :=
  match child with Some c => callback s c | None => s end.

(** [ParsedExpressionIterator::EnumerateChildren]: [s] is what the callback
    changes. *)
Definition ParsedExpression_EnumerateChildren {S} (callback : S → ParsedExpression → S) (e : ParsedExpression) (s : S) : S :=
  match e with
  | AggregateExpression _ _ child => callback_option callback s child
  | CaseExpression _ check t f => callback (callback (callback s check) t) f
  | CastExpression _ _ child => callback s child
  | ComparisonExpression _ _ l r | ConjunctionExpression _ _ l r => callback (callback s l) r
  | FunctionExpression _ _ _ children | OperatorExpression _ _ children => foldl callback s children
  | SubqueryExpression _ _ _ child _ => callback_option callback s child
  | WindowExpression _ _ child partitions orders _ _ _ _ offset_expr default_expr =>
    let s := foldl callback s partitions in
    let s := foldl (fun s (order : Z * ParsedExpression) => callback s order.2) s orders in
    let s := callback_option callback s child in
    let s := callback_option callback s offset_expr in
    callback_option callback s default_expr
  | ColumnRefExpression _ _ _ | ConstantExpression _ _ _ | DefaultExpression _ | StarExpression _ | ParameterExpression _ _ => s
  end.

Fixpoint ParsedExpression_IsAggregate (e : ParsedExpression) : bool :=
  match e with
  | AggregateExpression _ _ _ => true
  | _ => ParsedExpression_EnumerateChildren (fun is_aggregate child => is_aggregate || ParsedExpression_IsAggregate child) e false
  end.

Fixpoint ParsedExpression_IsWindow (e : ParsedExpression) : bool :=
  match e with
  | WindowExpression _ _ _ _ _ _ _ _ _ _ _ => true
  | _ => ParsedExpression_EnumerateChildren (fun is_window child => is_window || ParsedExpression_IsWindow child) e false
  end.

Fixpoint ParsedExpression_IsScalar (e : ParsedExpression) : bool :=
  match e with
  | ColumnRefExpression _ _ _ | DefaultExpression _ | SubqueryExpression _ _ _ _ _ => false
  | ParameterExpression _ _ => true
  | _ => ParsedExpression_EnumerateChildren (fun is_scalar child => if negb (ParsedExpression_IsScalar child) then false else is_scalar) e true
  end.

Fixpoint ParsedExpression_HasParameter (e : ParsedExpression) : bool :=
  match e with
  | ParameterExpression _ _ => true
  | _ => ParsedExpression_EnumerateChildren (fun has_parameter child => has_parameter || ParsedExpression_HasParameter child) e false
  end.

Fixpoint ParsedExpression_HasSubquery (e : ParsedExpression) : bool :=
  match e with
  | SubqueryExpression _ _ _ _ _ => true
  | _ => ParsedExpression_EnumerateChildren (fun has_subquery child => has_subquery || ParsedExpression_HasSubquery child) e false
  end.
