(* ===== verification/ParsedProofs.v ===== *)
(** * Parsed trees: round trips, termination and copies

    What [ParsedExpressions] promises to the write-ahead log and the catalog:
    a tree reads back from its serialization, reading ends on any bytes, and a
    copy is the tree up to the numbers of parameters. *)

From Stdlib Require Import ZArith Lia Ascii.
From S2P Require Import Prelude Types Vector Serializer Value WriteAheadLog Operators Casts Expressions ScalarFunctions Matchers ParsedExpressions.
From stdpp Require Import base gmap strings option numbers sorting list.

Local Open Scope Z_scope.

(** ** Well-formed trees *)

Definition byte_ok (z : Z) : Prop := 0 ≤ z < 256.
Definition list_ok {A} (l : list A) : Prop := Z.of_nat (length l) < 2 ^ 32.

Definition if_some {A} (P : A → Prop) (o : option A) : Prop := match o with Some a => P a | None => True end.

Fixpoint each {A} (P : A → Prop) (l : list A) : Prop := match l with [] => True | x :: l => P x ∧ each P l end.

Lemma each_Forall {A} (P : A → Prop) l : each P l ↔ Forall P l.
Proof. induction l as [|x l IH]; simpl; [by split|]. by rewrite Forall_cons, IH. Qed.

(** Trees as the constructors build them, whose lists and strings fit their
    32-bit lengths, and whose constants can be written. *)
Fixpoint Expression_ok (e : ParsedExpression) : Prop :=
  string_ok (expression_alias e) ∧
  match e with
  | AggregateExpression _ type child =>
    NewAggregate type child = Ok (AggregateExpression "" type child) ∧ if_some Expression_ok child
  | CaseExpression _ check t f => Expression_ok check ∧ Expression_ok t ∧ Expression_ok f
  | CastExpression _ cast_type child => SQLType_ok cast_type ∧ Expression_ok child
  | ColumnRefExpression _ column_name table_name => string_ok column_name ∧ string_ok table_name
  | ComparisonExpression _ type l r | ConjunctionExpression _ type l r => byte_ok type ∧ Expression_ok l ∧ Expression_ok r
  | ConstantExpression _ value sql_type => writable_value value ∧ SQLType_ok sql_type
  | DefaultExpression _ | StarExpression _ => True
  | FunctionExpression _ schema function_name children =>
    string_ok schema ∧ string_ok function_name ∧ strtolower function_name = function_name ∧
    list_ok children ∧ each Expression_ok children
  | OperatorExpression _ type children => byte_ok type ∧ list_ok children ∧ each Expression_ok children
  | ParameterExpression _ parameter_nr => 0 ≤ parameter_nr < 2 ^ 64
  | SubqueryExpression _ subquery_type subquery child comparison_type =>
    byte_ok subquery_type ∧ byte_ok comparison_type ∧ Query_ok subquery ∧ if_some Expression_ok child
  | WindowExpression _ type child partitions orders start_bound end_bound start_expr end_expr offset_expr default_expr =>
    window_supported type = true ∧ byte_ok start_bound ∧ byte_ok end_bound ∧
    if_some Expression_ok child ∧ list_ok partitions ∧ each Expression_ok partitions ∧
    list_ok orders ∧ each (fun o => byte_ok o.1 ∧ Expression_ok o.2) orders ∧
    if_some Expression_ok start_expr ∧ if_some Expression_ok end_expr ∧
    if_some Expression_ok offset_expr ∧ if_some Expression_ok default_expr
  end
with Query_ok (q : QueryNode) : Prop :=
  match q with
  | SelectNode _ limit offset orders select_list from_table where_clause groups having =>
    if_some Expression_ok limit ∧ if_some Expression_ok offset ∧
    list_ok orders ∧ each (fun o => byte_ok o.1 ∧ Expression_ok o.2) orders ∧
    list_ok select_list ∧ each Expression_ok select_list ∧ if_some TableRef_ok from_table ∧
    if_some Expression_ok where_clause ∧ list_ok groups ∧ each Expression_ok groups ∧ if_some Expression_ok having
  | SetOperationNode _ limit offset orders setop_type l r =>
    if_some Expression_ok limit ∧ if_some Expression_ok offset ∧
    list_ok orders ∧ each (fun o => byte_ok o.1 ∧ Expression_ok o.2) orders ∧
    byte_ok setop_type ∧ Query_ok l ∧ Query_ok r
  end
with TableRef_ok (t : TableRef) : Prop :=
  match t with
  | BaseTableRef alias schema_name table_name => string_ok alias ∧ string_ok schema_name ∧ string_ok table_name
  | CrossProductRef alias l r => string_ok alias ∧ TableRef_ok l ∧ TableRef_ok r
  | JoinRef alias l r condition type hidden_columns =>
    string_ok alias ∧ is_Some l ∧ if_some TableRef_ok l ∧ is_Some r ∧ if_some TableRef_ok r ∧ Expression_ok condition ∧
    byte_ok type ∧ Z.of_nat (size hidden_columns) < 2 ^ 32 ∧ set_Forall string_ok hidden_columns
  | SubqueryRef alias subquery column_name_alias =>
    string_ok alias ∧ Query_ok subquery ∧ Z.of_nat (length column_name_alias) < 2 ^ 31 ∧ Forall string_ok column_name_alias
  | TableFunction alias function => string_ok alias ∧ Expression_ok function
  end.

Definition Select_ok (stmt : SelectStatement) : Prop :=
  Z.of_nat (size (cte_map stmt)) < 2 ^ 32 ∧
  map_Forall (fun name q => string_ok name ∧ Query_ok q) (cte_map stmt) ∧ Query_ok (node stmt).

(** The nesting of a tree. *)
Definition option_depth {A} (f : A → nat) (o : option A) : nat := match o with Some a => f a | None => 0%nat end.
Fixpoint list_depth {A} (f : A → nat) (l : list A) : nat := match l with [] => 0%nat | x :: l => (f x `max` list_depth f l)%nat end.

Fixpoint Expression_depth (e : ParsedExpression) : nat :=
  S match e with
  | AggregateExpression _ _ child => option_depth Expression_depth child
  | CaseExpression _ check t f => list_max [Expression_depth check; Expression_depth t; Expression_depth f]
  | CastExpression _ _ child => Expression_depth child
  | ComparisonExpression _ _ l r | ConjunctionExpression _ _ l r => list_max [Expression_depth l; Expression_depth r]
  | FunctionExpression _ _ _ children | OperatorExpression _ _ children => list_depth Expression_depth children
  | SubqueryExpression _ _ subquery child _ => list_max [Query_depth subquery; option_depth Expression_depth child]
  | WindowExpression _ _ child partitions orders _ _ start_expr end_expr offset_expr default_expr =>
    list_max [option_depth Expression_depth child; list_depth Expression_depth partitions;
     list_depth (fun o => Expression_depth o.2) orders; option_depth Expression_depth start_expr;
     option_depth Expression_depth end_expr; option_depth Expression_depth offset_expr;
     option_depth Expression_depth default_expr]
  | _ => 0%nat
  end
with Query_depth (q : QueryNode) : nat :=
  S match q with
  | SelectNode _ limit offset orders select_list from_table where_clause groups having =>
    list_max [option_depth Expression_depth limit; option_depth Expression_depth offset;
     list_depth (fun o => Expression_depth o.2) orders; list_depth Expression_depth select_list;
     option_depth TableRef_depth from_table; option_depth Expression_depth where_clause;
     list_depth Expression_depth groups; option_depth Expression_depth having]
  | SetOperationNode _ limit offset orders _ l r =>
    list_max [option_depth Expression_depth limit; option_depth Expression_depth offset;
     list_depth (fun o => Expression_depth o.2) orders; Query_depth l; Query_depth r]
  end
with TableRef_depth (t : TableRef) : nat :=
  S match t with
  | BaseTableRef _ _ _ => 0%nat
  | CrossProductRef _ l r => list_max [TableRef_depth l; TableRef_depth r]
  | JoinRef _ l r condition _ _ =>
    list_max [option_depth TableRef_depth l; option_depth TableRef_depth r; Expression_depth condition]
  | SubqueryRef _ subquery _ => Query_depth subquery
  | TableFunction _ function => Expression_depth function
  end.

Lemma list_depth_le {A} (f : A → nat) l n : (list_depth f l ≤ n)%nat ↔ Forall (fun x => (f x ≤ n)%nat) l.
Proof. induction l as [|x l IH]; simpl; [split; [done|lia]|]. rewrite Forall_cons, <- IH. lia. Qed.

(** ** Round trips *)

Lemma roundtrips_byte z : byte_ok z → roundtrips 0 (fun s => WriteInt 1 s z) (ReadInt 1) (eq z).
Proof. intros Hz. by apply roundtrips_int. Qed.

Lemma roundtrips_option_map {A B} (f : Serializer → A → result Serializer) (g : reader B) (h : A → B) o :
  if_some (fun x => roundtrips 0 (fun s => f s x) g (eq (h x))) o →
  roundtrips 0 (fun s => WriteOptional f s o) (ReadOptional g) (eq (h <$> o)).
Proof.
  intros Ho. unfold ReadOptional, WriteOptional. destruct o as [x|].
  - eapply (roundtrips_seq 0 0); [by apply roundtrips_byte|]. simpl. eapply roundtrips_map; [exact Ho|]. by intros ? <-.
  - destruct (roundtrips_byte 0) as (bs & Hn & Hw & Hr); [done|]. exists bs. split; [done|]. split; [done|].
    intros rest. destruct (Hr rest) as (a & E & Ha). exists None. run_using E. by rewrite <- Ha.
Qed.

Lemma roundtrips_option {A} (f : Serializer → A → result Serializer) (g : reader A) o :
  if_some (fun x => roundtrips 0 (fun s => f s x) g (eq x)) o →
  roundtrips 0 (fun s => WriteOptional f s o) (ReadOptional g) (eq o).
Proof.
  intros Ho. eapply roundtrips_weaken; [by apply (roundtrips_option_map f g id)|lia|]. intros a <-. by rewrite option_fmap_id.
Qed.

Lemma roundtrips_counted {A} (f : Serializer → A → result Serializer) (g : reader A) l :
  list_ok l → Forall (fun x => roundtrips 0 (fun s => f s x) g (eq x)) l →
  roundtrips 0 (fun s => WriteList f s l) (ReadList g) (eq l).
Proof.
  intros Hl Hall. eapply (roundtrips_seq 0 0).
  { apply roundtrips_int. change (8 * Z.of_nat 4) with 32. unfold list_ok in Hl. lia. }
  rewrite Nat2Z.id. by apply roundtrips_each.
Qed.

Lemma roundtrips_text str : string_ok str → roundtrips 0 (fun s => WriteString s str) ReadString (eq str).
Proof. intros Hs. by eapply roundtrips_min; [apply roundtrips_string|lia]. Qed.

Lemma roundtrips_value v : writable_value v → roundtrips 0 (fun s => Value_Serialize s v) Value_Deserialize (eq v).
Proof.
  intros Hv. exists (value_encoding v). split; [lia|]. split; [intros s; by apply Value_Serialize_spec|].
  intros rest. exists v. split; [by apply Value_Deserialize_app|done].
Qed.

Lemma roundtrips_order f g o :
  byte_ok o.1 → roundtrips 0 (fun s => f s o.2) g (eq o.2) →
  roundtrips 0 (fun s => order_Serialize f s o) (order_Deserialize g) (eq o).
Proof.
  intros Hb He. eapply (roundtrips_seq 0 0); [by apply roundtrips_byte|]. eapply roundtrips_map; [exact He|].
  intros ? <-. by destruct o.
Qed.

(** A writer in two parts, followed by another. *)
Lemma roundtrips_assoc {A} n (w1 w2 w3 : Serializer → result Serializer) (r : reader A) P :
  roundtrips n (fun s => s ← w1 s; s ← w2 s; w3 s) r P → roundtrips n (fun s => s ← (s ← w1 s; w2 s); w3 s) r P.
Proof.
  intros (bs & Hn & Hw & Hr). exists bs. split; [done|]. split; [|done]. intros s Hs. destruct (Hw s Hs) as (s' & E & Hwr).
  exists s'. split; [|done]. rewrite <- E. by destruct (w1 s).
Qed.

(** The class, the type and the alias in front of an expression. *)
Lemma roundtrips_header {B} e w (k : Z → Z → string → reader B) P :
  string_ok (expression_alias e) → byte_ok (parsed_type e) →
  roundtrips 0 w (k (expression_class e) (parsed_type e) (expression_alias e)) P →
  roundtrips 0 (fun s => s ← base_Serialize s e; w s)
    (c ← ReadInt 1; t ← ReadInt 1; a ← ReadString; k c t a) P.
Proof.
  intros Ha Ht Hw. assert (byte_ok (expression_class e)) as Hc by (by destruct e; vm_compute).
  unfold base_Serialize. apply roundtrips_assoc. eapply (roundtrips_seq 0 0); [by apply roundtrips_byte|].
  apply roundtrips_assoc. eapply (roundtrips_seq 0 0); [by apply roundtrips_byte|].
  eapply (roundtrips_seq 0 0); [by apply roundtrips_text|done].
Qed.

Lemma roundtrips_length4 {A} (l : list A) : list_ok l →
  roundtrips 0 (fun s => WriteInt 4 s (Z.of_nat (length l))) (ReadInt 4) (eq (Z.of_nat (length l))).
Proof. intros Hl. apply roundtrips_int. change (8 * Z.of_nat 4) with 32. unfold list_ok in Hl. lia. Qed.

Lemma roundtrips_length8 {A} (l : list A) : list_ok l →
  roundtrips 0 (fun s => WriteInt 8 s (Z.of_nat (length l))) (ReadInt 8) (eq (Z.of_nat (length l))).
Proof. intros Hl. apply roundtrips_int. change (8 * Z.of_nat 8) with 64. unfold list_ok in Hl. lia. Qed.

Lemma roundtrips_uint64 z : 0 ≤ z < 2 ^ 64 → roundtrips 0 (fun s => WriteInt 8 s z) (ReadInt 8) (eq z).
Proof. intros Hz. by apply roundtrips_int. Qed.

Lemma supported_byte (l : list ExpressionType) (z : Z) : z ∈ ExpressionType_code <$> l → byte_ok z.
Proof. intros (t & -> & _)%list_elem_of_fmap. by destruct t; vm_compute. Qed.

Lemma NewAggregate_supported type child e : NewAggregate type child = Ok e → aggregate_supported type = true.
Proof.
  unfold NewAggregate. destruct (aggregate_supported type); [done|]. by repeat case_match.
Qed.

(** The last element, and what is made of it. *)
Lemma roundtrips_last {A B} n w (r : reader A) (k : A → reader B) a b :
  roundtrips n w r (eq a) → k a = mret b → roundtrips n w (x ← r; k x) (eq b).
Proof.
  intros (bs & Hn & Hw & Hr) Hk. exists bs. split; [done|]. split; [done|]. intros rest. destruct (Hr rest) as (a' & E & <-).
  exists b. run_using E. by rewrite Hk.
Qed.

(** A step that reads nothing. *)
Lemma roundtrips_pure {A B} n w (r : result A) (k : A → reader B) a P :
  r = Ok a → roundtrips n w (k a) P → roundtrips n w (x ← lift_M r; k x) P.
Proof.
  intros -> (bs & Hn & Hw & Hr). exists bs. split; [done|]. split; [done|]. intros rest. destruct (Hr rest) as (b & E & Hb).
  exists b. by rewrite mbind_lift.
Qed.

Create HintDb roundtrips.
#[export] Hint Resolve roundtrips_byte roundtrips_text roundtrips_value roundtrips_sqltype roundtrips_option roundtrips_counted roundtrips_length4 roundtrips_length8 roundtrips_uint64 : roundtrips.
#[export] Hint Extern 1 (_ ≤ _)%nat => lia : roundtrips.

#[export] Hint Unfold Aggregate_Serialize Aggregate_Deserialize Case_Serialize Case_Deserialize Cast_Serialize Cast_Deserialize
  ColumnRef_Serialize ColumnRef_Deserialize Comparison_Serialize Comparison_Deserialize Conjunction_Serialize Conjunction_Deserialize
  Constant_Serialize Constant_Deserialize Default_Deserialize Function_Serialize Function_Deserialize Operator_Serialize
  Operator_Deserialize Parameter_Serialize Parameter_Deserialize Star_Deserialize Subquery_Serialize Subquery_Deserialize
  Window_Serialize Window_Deserialize SelectNode_Serialize SelectNode_Deserialize SetOperationNode_Serialize
  SetOperationNode_Deserialize BaseTableRef_Serialize BaseTableRef_Deserialize CrossProductRef_Serialize
  CrossProductRef_Deserialize JoinRef_Serialize JoinRef_Deserialize SubqueryRef_Serialize SubqueryRef_Deserialize
  TableFunction_Serialize TableFunction_Deserialize : roundtrips.

(** One element after the other, with the hints for the elements. *)
Ltac next_element := eapply (roundtrips_seq 0 0); [solve [eauto with roundtrips]|rewrite ?Nat2Z.id].
Ltac last_element := eapply roundtrips_map; [solve [eauto with roundtrips]|intros ? <-].

Section step.
Context `{!HashOrder} (fuel : nat).
Context (Hexpr : ∀ e, Expression_ok e → (Expression_depth e ≤ fuel)%nat →
  roundtrips 0 (fun s => Expression_Serialize s e) (Expression_Deserialize fuel) (eq e)).
Context (Hquery : ∀ q, Query_ok q → (Query_depth q ≤ fuel)%nat →
  roundtrips 0 (fun s => Query_Serialize s q) (Query_Deserialize fuel) (eq q)).
Context (Htable : ∀ t, TableRef_ok t → (TableRef_depth t ≤ fuel)%nat →
  roundtrips 0 (fun s => TableRef_Serialize s t) (TableRef_Deserialize fuel) (eq (Some t))).

Lemma child_roundtrip o : if_some Expression_ok o → (option_depth Expression_depth o ≤ fuel)%nat →
  roundtrips 0 (fun s => WriteOptional Expression_Serialize s o) (ReadOptional (Expression_Deserialize fuel)) (eq o).
Proof. intros Ho Hd. apply roundtrips_option. destruct o as [e|]; [by apply Hexpr|done]. Qed.

Lemma children_roundtrip l : list_ok l → each Expression_ok l → (list_depth Expression_depth l ≤ fuel)%nat →
  roundtrips 0 (fun s => WriteList Expression_Serialize s l) (ReadList (Expression_Deserialize fuel)) (eq l).
Proof.
  intros Hl Hok%each_Forall Hd%list_depth_le. apply roundtrips_counted; [done|].
  eapply Forall_impl; [exact (proj2 (Forall_and _ _) (conj Hok Hd))|]. intros e [??]. by apply Hexpr.
Qed.

Lemma orders_roundtrip l : each (fun o : Z * ParsedExpression => byte_ok o.1 ∧ Expression_ok o.2) l →
  (list_depth (fun o : Z * ParsedExpression => Expression_depth o.2) l ≤ fuel)%nat →
  roundtrips 0 (fun s => write_each (order_Serialize Expression_Serialize) s l)
    (read_times (length l) (order_Deserialize (Expression_Deserialize fuel))) (eq l).
Proof.
  intros Hok%each_Forall Hd%list_depth_le. apply roundtrips_each.
  eapply Forall_impl; [exact (proj2 (Forall_and _ _) (conj Hok Hd))|]. intros o [[??]?]. apply roundtrips_order; [done|]. by apply Hexpr.
Qed.

Local Hint Resolve Hexpr Hquery child_roundtrip children_roundtrip orders_roundtrip : roundtrips.

Lemma type_byte e : Expression_ok e → byte_ok (parsed_type e).
Proof using.
  destruct e; cbn; intros [_ Hok]; destruct_and? Hok; try done; try (by vm_compute).
  - eapply supported_byte, bool_decide_eq_true. by eapply NewAggregate_supported.
  - eapply supported_byte, bool_decide_eq_true. done.
Qed.

Lemma expression_step e : Expression_ok e → (Expression_depth e ≤ S fuel)%nat →
  roundtrips 0 (fun s => Expression_Serialize s e) (Expression_Deserialize (S fuel)) (eq e).
Proof using Hexpr Hquery.
  intros Hok Hd. cbn [Expression_Deserialize]. unfold ParsedExpression_Deserialize. pose proof (type_byte e Hok) as Ht.
  destruct e; cbn [Expression_ok] in Hok; destruct Hok as [Ha Hok]; simpl in Hd; destruct_and? Hok;
    cbn [Expression_Serialize]; (apply roundtrips_header; [done|done|]); cbn -[Z.mul];
    (match goal with |- roundtrips _ _ _ (eq ?e) => eapply (roundtrips_map _ _ _ _ (eq (set_expression_alias "" e))); [|by intros ? <-] end);
    cbn [set_expression_alias]; autounfold with roundtrips.
  - destruct (child_roundtrip child) as (bs & Hn & Hw & Hr); [done|lia|]. exists bs. split; [done|]. split; [done|].
    intros rest. destruct (Hr rest) as (a & E & <-). eexists. run_using E. unfold lift_M. by match goal with Hnew : NewAggregate _ _ = _ |- _ => rewrite Hnew end.
  - do 2 next_element. by last_element.
  - next_element. by last_element.
  - next_element. by last_element.
  - next_element. by last_element.
  - next_element. by last_element.
  - next_element. by last_element.
  - apply roundtrips_ret.
  - do 2 next_element. last_element. unfold set_schema, NewFunction. by f_equal.
  - by last_element.
  - by last_element.
  - apply roundtrips_ret.
  - do 3 next_element. by last_element.
  - next_element. apply roundtrips_pure with (a := WindowExpression "" type child [] [] 0 0 None None None None).
    { unfold NewWindow. by match goal with Hsup : window_supported _ = _ |- _ => rewrite Hsup end. }
    do 8 next_element. by last_element.
Qed.


(** What all query nodes have in front of their own fields. *)
Lemma modifiers_roundtrip {B} type (select_distinct : bool) limit offset orders w (k : Z → Z → option ParsedExpression → option ParsedExpression → list (Z * ParsedExpression) → reader B) P :
  byte_ok type → if_some Expression_ok limit → if_some Expression_ok offset → list_ok orders →
  each (fun o : Z * ParsedExpression => byte_ok o.1 ∧ Expression_ok o.2) orders →
  (list_max [option_depth Expression_depth limit; option_depth Expression_depth offset;
     list_depth (fun o : Z * ParsedExpression => Expression_depth o.2) orders] ≤ fuel)%nat →
  roundtrips 0 w (k type (if select_distinct then 1 else 0) limit offset orders) P →
  roundtrips 0 (fun s => s ← QueryNode_Serialize Expression_Serialize s type select_distinct limit offset orders; w s)
    (type ← ReadInt 1; select_distinct ← ReadInt 1; limit ← ReadOptional (Expression_Deserialize fuel);
     offset ← ReadOptional (Expression_Deserialize fuel); order_count ← ReadInt 8;
     orders ← read_times (Z.to_nat order_count) (order_Deserialize (Expression_Deserialize fuel));
     k type select_distinct limit offset orders) P.
Proof using Hexpr.
  intros Ht Hl Ho Hlen Hord Hd Hw. simpl in Hd. assert (byte_ok (if select_distinct then 1 else 0)) by (by destruct select_distinct).
  unfold QueryNode_Serialize. do 5 (apply roundtrips_assoc; next_element). eapply (roundtrips_seq 0 0); [|exact Hw].
  apply orders_roundtrip; [done|lia].
Qed.

Lemma from_roundtrip o : if_some TableRef_ok o → (option_depth TableRef_depth o ≤ fuel)%nat →
  roundtrips 0 (fun s => WriteOptional TableRef_Serialize s o) (ReadOptional (TableRef_Deserialize fuel)) (eq (Some <$> o)).
Proof using Htable. intros Ho Hd. apply roundtrips_option_map. destruct o as [e|]; [by apply Htable|done]. Qed.

Local Hint Resolve from_roundtrip : roundtrips.

Lemma query_step q : Query_ok q → (Query_depth q ≤ S fuel)%nat →
  roundtrips 0 (fun s => Query_Serialize s q) (Query_Deserialize (S fuel)) (eq q).
Proof using Hexpr Hquery Htable.
  intros Hok Hd. cbn [Query_Deserialize]. unfold QueryNode_Deserialize.
  destruct q; simpl in Hd; cbn [Query_ok] in Hok; destruct_and? Hok; cbn [Query_Serialize];
    (eapply modifiers_roundtrip; [by vm_compute|done..|simpl; lia|]); cbn -[Z.mul];
    (match goal with |- roundtrips _ _ _ (eq ?q) => eapply (roundtrips_map _ _ _ _ (eq (set_modifiers false None None [] q)));
      [|intros ? <-; by destruct select_distinct] end); cbn [set_modifiers]; autounfold with roundtrips.
  - do 4 next_element. last_element. by destruct from_table.
  - do 2 next_element. by last_element.
Qed.

Lemma nullable_roundtrip o : is_Some o → if_some TableRef_ok o → (option_depth TableRef_depth o ≤ fuel)%nat →
  roundtrips 0 (fun s => nullable_Serialize TableRef_Serialize s o) (TableRef_Deserialize fuel) (eq o).
Proof using Htable. intros [t ->] Ho Hd. by apply Htable. Qed.

Lemma texts_roundtrip l : Forall string_ok l →
  roundtrips 0 (fun s => write_each WriteString s l) (read_times (length l) ReadString) (eq l).
Proof using. intros Hl. apply roundtrips_each. eapply Forall_impl; [exact Hl|]. intros str. apply roundtrips_text. Qed.

Lemma column_count_length {A} (l : list A) : Z.of_nat (length l) < 2 ^ 31 →
  Z.to_nat (to_signed 4 (Z.of_nat (length l)) mod 2 ^ 64) = length l.
Proof using.
  intros Hl. unfold to_signed. change (8 * Z.of_nat 4 - 1) with 31. destruct (Z.ltb_spec (Z.of_nat (length l)) (2 ^ 31)); [|lia].
  rewrite Z.mod_small by lia. by rewrite Nat2Z.id.
Qed.

Lemma set_order_ok X : Z.of_nat (size X) < 2 ^ 32 → set_Forall string_ok X →
  list_ok (set_order X) ∧ Forall string_ok (set_order X).
Proof using.
  intros Hs Hall. unfold list_ok. rewrite (set_order_elements X). split; [done|]. by apply set_Forall_elements.
Qed.

Local Hint Resolve Htable nullable_roundtrip texts_roundtrip : roundtrips.

Lemma roundtrips_alias w r alias t : roundtrips 0 w r (eq (Some (set_table_alias "" t))) → set_table_alias alias t = t →
  roundtrips 0 w (result ← r; result ← lift_M (deref result); mret (Some (set_table_alias alias result))) (eq (Some t)).
Proof using.
  intros (bs & Hn & Hw & Hr) Ht. exists bs. split; [done|]. split; [done|]. intros rest. destruct (Hr rest) as (a & E & <-).
  eexists. run_using E. cbn. split; [done|]. rewrite <- Ht. by destruct t.
Qed.

Lemma table_step t : TableRef_ok t → (TableRef_depth t ≤ S fuel)%nat →
  roundtrips 0 (fun s => TableRef_Serialize s t) (TableRef_Deserialize (S fuel)) (eq (Some t)).
Proof using Hexpr Hquery Htable.
  intros Hok Hd. cbn [TableRef_Deserialize]. unfold TableRef_base_Deserialize.
  destruct t; simpl in Hd; cbn [TableRef_ok] in Hok; destruct_and? Hok; cbn [TableRef_Serialize];
    (unfold TableRef_base_Serialize; apply roundtrips_assoc; eapply (roundtrips_seq 0 0); [by apply roundtrips_byte|];
     next_element); cbn -[Z.mul];
    (apply roundtrips_alias; [|done]); cbn [set_table_alias]; autounfold with roundtrips.
  - next_element. by last_element.
  - next_element. eapply roundtrips_last; [by apply Htable; [|lia]|done].
  - destruct (set_order_ok hidden_columns) as [Hl Hc]; [done..|]. do 5 next_element. last_element.
    by rewrite (set_order_elements hidden_columns), list_to_set_elements_L.
  - next_element. eapply (roundtrips_seq 0 0); [apply roundtrips_length4; unfold list_ok; lia|].
    rewrite column_count_length by done. by last_element.
  - by last_element.
Qed.
End step.

(** ** Whole trees *)

Section trees.
Context `{!HashOrder}.

Lemma trees_roundtrip fuel :
  (∀ e, Expression_ok e → (Expression_depth e ≤ fuel)%nat →
    roundtrips 0 (fun s => Expression_Serialize s e) (Expression_Deserialize fuel) (eq e)) ∧
  (∀ q, Query_ok q → (Query_depth q ≤ fuel)%nat →
    roundtrips 0 (fun s => Query_Serialize s q) (Query_Deserialize fuel) (eq q)) ∧
  (∀ t, TableRef_ok t → (TableRef_depth t ≤ fuel)%nat →
    roundtrips 0 (fun s => TableRef_Serialize s t) (TableRef_Deserialize fuel) (eq (Some t))).
Proof.
  induction fuel as [|fuel (IHe & IHq & IHt)].
  - split_and!; intros x _ Hd; destruct x; simpl in Hd; lia.
  - split_and!; intros x Hok Hd; [by apply expression_step|by apply query_step|by apply table_step].
Qed.
End trees.

(** ** Reading ends *)

(** The readers [r] and [r'] agree on less than [n] bytes, and [r] reads from
    the front: at least [k] bytes. *)
Definition agree {A} (n : nat) (r r' : reader A) : Prop := ∀ src, (length src < n)%nat → r src = r' src.
Definition shrinks {A} (k : nat) (r : reader A) : Prop :=
  ∀ src a rest, r src = (Ok a, rest) → (length rest + k ≤ length src)%nat.
Definition tracks {A} (n : nat) (r r' : reader A) : Prop := agree n r r' ∧ shrinks 0 r.

Lemma agree_bind {A B} n k (r r' : reader A) (f f' : A → reader B) :
  agree n r r' → shrinks k r → (∀ a, agree (n - k) (f a) (f' a)) → agree n (x ← r; f x) (x ← r'; f' x).
Proof.
  intros Hr Hk Hf src Hs. unfold mbind, M_bind, mbind_M. rewrite <- (Hr src Hs). destruct (r src) as [[a|e|] rest] eqn:E; [|done..].
  apply Hf. apply Hk in E. lia.
Qed.

Lemma shrinks_bind {A B} j k (r : reader A) (f : A → reader B) :
  shrinks j r → (∀ a, shrinks k (f a)) → shrinks (j + k) (x ← r; f x).
Proof.
  intros Hr Hf src b rest. unfold mbind, M_bind, mbind_M. destruct (r src) as [[a|e|] mid] eqn:E; [|done..].
  intros E2. apply Hr in E. apply Hf in E2. lia.
Qed.

Lemma tracks_bind {A B} n (r r' : reader A) (f f' : A → reader B) :
  tracks n r r' → (∀ a, tracks n (f a) (f' a)) → tracks n (x ← r; f x) (x ← r'; f' x).
Proof.
  intros [Hr Hs] Hf. split.
  - eapply agree_bind; [done..|]. intros a src Hlt. apply Hf. lia.
  - apply (shrinks_bind 0 0); [done|]. intros a. apply Hf.
Qed.

Lemma tracks_lift {A} n (x : result A) : tracks n (lift_M x) (lift_M x).
Proof. split; [done|]. intros src a rest [=]. subst. lia. Qed.

Lemma tracks_ret {A} n (x : A) : tracks n (mret x) (mret x).
Proof. apply (tracks_lift n (Ok x)). Qed.

Lemma tracks_throw {A} n e : tracks n (throw_M e : reader A) (throw_M e).
Proof. apply (tracks_lift n (Throw e)). Qed.

Lemma ReadData_shrinks k : shrinks k (ReadData k).
Proof.
  intros src a rest. unfold ReadData. destruct (Nat.ltb_spec (length src) k); [done|].
  intros [= _ <-]. rewrite length_drop. lia.
Qed.

Lemma ReadInt_shrinks k : shrinks k (ReadInt k).
Proof.
  rewrite <- (Nat.add_0_r k) at 1. apply shrinks_bind; [apply ReadData_shrinks|]. intros a. apply (tracks_ret 0).
Qed.

Lemma tracks_self {A} n k (r : reader A) : shrinks k r → tracks n r r.
Proof. intros Hr. split; [done|]. intros src a rest E. apply Hr in E. lia. Qed.

Lemma tracks_int n k : tracks n (ReadInt k) (ReadInt k).
Proof. eapply tracks_self, ReadInt_shrinks. Qed.

Lemma tracks_data n k : tracks n (ReadData k) (ReadData k).
Proof. eapply tracks_self, ReadData_shrinks. Qed.

Create HintDb tracks.
#[export] Hint Resolve tracks_ret tracks_lift tracks_throw tracks_int tracks_data : tracks.

(** Follows two readers step by step. *)
Ltac track :=
  repeat first [ solve [eauto with tracks]
    | apply tracks_bind; [|intros ?]
    | match goal with |- tracks _ (if ?b then _ else _) (if ?b then _ else _) => destruct b end
    | match goal with |- tracks _ (match ?x with _ => _ end) (match ?x with _ => _ end) => destruct x end ].

Lemma tracks_string n : tracks n ReadString ReadString.
Proof. unfold ReadString. track. Qed.

Lemma tracks_sqltype n : tracks n SQLType_Deserialize SQLType_Deserialize.
Proof. unfold SQLType_Deserialize. track. Qed.

#[export] Hint Resolve tracks_string tracks_sqltype : tracks.

Lemma tracks_value n : tracks n Value_Deserialize Value_Deserialize.
Proof. unfold Value_Deserialize. track. Qed.

Lemma tracks_optional {A} n (r r' : reader A) : tracks n r r' → tracks n (ReadOptional r) (ReadOptional r').
Proof. intros Hr. unfold ReadOptional. track. Qed.

Lemma tracks_times {A} n k (r r' : reader A) : tracks n r r' → tracks n (read_times k r) (read_times k r').
Proof. intros Hr. induction k as [|k IH]; cbn [read_times]; track. Qed.

#[export] Hint Resolve tracks_value tracks_optional tracks_times : tracks.

Lemma tracks_list {A} n (r r' : reader A) : tracks n r r' → tracks n (ReadList r) (ReadList r').
Proof. intros Hr. unfold ReadList. track. Qed.

Lemma tracks_order n r r' : tracks n r r' → tracks n (order_Deserialize r) (order_Deserialize r').
Proof. intros Hr. unfold order_Deserialize. track. Qed.

#[export] Hint Resolve tracks_list tracks_order : tracks.

(** One byte is read before the children. *)
Lemma descends {A} n (f f' : Z → reader A) : (∀ b, tracks n (f b) (f' b)) →
  agree (S n) (b ← ReadInt 1; f b) (b ← ReadInt 1; f' b) ∧ shrinks 1 (b ← ReadInt 1; f b).
Proof.
  intros Hf. split.
  - eapply (agree_bind _ 1); [done|apply ReadInt_shrinks|]. intros b. rewrite Nat.sub_1_r. apply Hf.
  - apply (shrinks_bind 1 0); [apply ReadInt_shrinks|]. intros b. apply Hf.
Qed.

Section descend.
Context (n : nat) (expr expr' : reader ParsedExpression) (query query' : reader QueryNode) (table table' : reader (option TableRef)).
Context (Hexpr : tracks n expr expr') (Hquery : tracks n query query') (Htable : tracks n table table').

Lemma expression_descends : agree (S n) (ParsedExpression_Deserialize expr query) (ParsedExpression_Deserialize expr' query') ∧
  shrinks 1 (ParsedExpression_Deserialize expr query).
Proof using Hexpr Hquery. apply descends. intros b. autounfold with roundtrips. track. Qed.

Lemma query_descends : agree (S n) (QueryNode_Deserialize expr query table) (QueryNode_Deserialize expr' query' table') ∧
  shrinks 1 (QueryNode_Deserialize expr query table).
Proof using Hexpr Hquery Htable. apply descends. intros b. autounfold with roundtrips. track. Qed.

Lemma table_descends : agree (S n) (TableRef_base_Deserialize expr query table) (TableRef_base_Deserialize expr' query' table') ∧
  shrinks 1 (TableRef_base_Deserialize expr query table).
Proof using Hexpr Hquery Htable. apply descends. intros b. autounfold with roundtrips. track. Qed.
End descend.

Lemma shrinks_0 {A} k (r : reader A) : shrinks k r → shrinks 0 r.
Proof. intros Hr src a rest E. apply Hr in E. lia. Qed.

Lemma undef_shrinks {A} : shrinks 0 (lift_M Undef : reader A).
Proof. by intros src a rest [=]. Qed.

Lemma trees_shrink fuel :
  shrinks 0 (Expression_Deserialize fuel) ∧ shrinks 0 (Query_Deserialize fuel) ∧ shrinks 0 (TableRef_Deserialize fuel).
Proof.
  induction fuel as [|fuel (IHe & IHq & IHt)]; [split_and!; apply undef_shrinks|].
  cbn [Expression_Deserialize Query_Deserialize TableRef_Deserialize].
  split_and!; eapply shrinks_0; [eapply (expression_descends 0)|eapply (query_descends 0)|eapply (table_descends 0)]; done.
Qed.

(** A nesting deeper than the number of bytes is never reached. *)
Lemma trees_agree n fuel fuel' : (n ≤ fuel)%nat → (n ≤ fuel')%nat →
  tracks n (Expression_Deserialize fuel) (Expression_Deserialize fuel') ∧
  tracks n (Query_Deserialize fuel) (Query_Deserialize fuel') ∧
  tracks n (TableRef_Deserialize fuel) (TableRef_Deserialize fuel').
Proof.
  intros Hn Hn'. destruct (trees_shrink fuel) as (He & Hq & Ht). revert fuel fuel' Hn Hn' He Hq Ht.
  induction n as [|n IH]; intros fuel fuel' Hn Hn' He Hq Ht; [split_and!; split; [intros ? ?; lia|done|intros ? ?; lia|done|intros ? ?; lia|done]|].
  destruct fuel as [|fuel], fuel' as [|fuel']; [lia..|]. destruct (trees_shrink fuel) as (He' & Hq' & Ht').
  destruct (IH fuel fuel') as (Te & Tq & Tt); [lia|lia|done..|].
  split_and!; (split; [|done]); [by apply expression_descends|by apply query_descends|by apply table_descends].
Qed.


(** ** Deserialization without fuel *)

Definition read_expression : reader ParsedExpression := fun src => Expression_Deserialize (S (length src)) src.
Definition read_query : reader QueryNode := fun src => Query_Deserialize (S (length src)) src.
Definition read_table : reader (option TableRef) := fun src => TableRef_Deserialize (S (length src)) src.

Lemma read_tracks n :
  tracks n (Expression_Deserialize n) read_expression ∧ tracks n (Query_Deserialize n) read_query ∧
  tracks n (TableRef_Deserialize n) read_table.
Proof.
  destruct (trees_shrink n) as (Se & Sq & St).
  assert (∀ src, (length src < n)%nat →
    Expression_Deserialize n src = read_expression src ∧ Query_Deserialize n src = read_query src ∧
    TableRef_Deserialize n src = read_table src) as H.
  { intros src Hs. destruct (trees_agree (S (length src)) n (S (length src))) as ([He _] & [Hq _] & [Ht _]); [lia..|].
    unfold read_expression, read_query, read_table. split_and!; [apply (He src)|apply (Hq src)|apply (Ht src)]; lia. }
  split_and!; (split; [|done]); intros src Hs; destruct (H src Hs) as (? & ? & ?); assumption.
Qed.

(** The recursive equations of the source. *)
Definition deserializers (expr : reader ParsedExpression) (query : reader QueryNode) (table : reader (option TableRef)) : Prop :=
  (∀ src, expr src = ParsedExpression_Deserialize expr query src) ∧
  (∀ src, query src = QueryNode_Deserialize expr query table src) ∧
  (∀ src, table src = TableRef_base_Deserialize expr query table src).

Lemma read_deserializers : deserializers read_expression read_query read_table.
Proof.
  split_and!; intros src; destruct (read_tracks (length src)) as (He & Hq & Ht).
  - destruct (expression_descends _ _ _ _ _ He Hq) as [H _]. exact (H src (Nat.lt_succ_diag_r _)).
  - destruct (query_descends _ _ _ _ _ _ _ He Hq Ht) as [H _]. exact (H src (Nat.lt_succ_diag_r _)).
  - destruct (table_descends _ _ _ _ _ _ _ He Hq Ht) as [H _]. exact (H src (Nat.lt_succ_diag_r _)).
Qed.

Lemma deserializers_track expr query table n fuel : deserializers expr query table → (n ≤ fuel)%nat →
  tracks n (Expression_Deserialize fuel) expr ∧ tracks n (Query_Deserialize fuel) query ∧ tracks n (TableRef_Deserialize fuel) table.
Proof.
  intros (He & Hq & Ht). revert fuel. induction n as [|n IH]; intros fuel Hn; destruct (trees_shrink fuel) as (Se & Sq & St).
  { split_and!; (split; [|done]); intros src ?; lia. }
  destruct fuel as [|fuel]; [lia|]. destruct (IH fuel) as (Te & Tq & Tt); [lia|].
  destruct (expression_descends _ _ _ _ _ Te Tq) as [De _], (query_descends _ _ _ _ _ _ _ Te Tq Tt) as [Dq _],
    (table_descends _ _ _ _ _ _ _ Te Tq Tt) as [Dt _].
  split_and!; (split; [|done]); intros src Hs; [rewrite He; exact (De src Hs)|rewrite Hq; exact (Dq src Hs)|rewrite Ht; exact (Dt src Hs)].
Qed.

(** Enough fuel reads what the functions without fuel read. *)
Lemma read_enough fuel src : (length src < fuel)%nat →
  Expression_Deserialize fuel src = read_expression src ∧ Query_Deserialize fuel src = read_query src ∧
  TableRef_Deserialize fuel src = read_table src.
Proof.
  intros Hlt. destruct (deserializers_track _ _ _ fuel fuel read_deserializers) as ([He _] & [Hq _] & [Ht _]); [lia|].
  split_and!; [exact (He src Hlt)|exact (Hq src Hlt)|exact (Ht src Hlt)].
Qed.

(** ** Codecs *)

(** Readers with enough fuel read what the reader without does. *)
Lemma roundtrips_limit {A} n w (r : nat → reader A) (r' : reader A) d P :
  (∀ fuel, (d ≤ fuel)%nat → roundtrips n w (r fuel) P) → (∀ fuel src, (length src < fuel)%nat → r fuel src = r' src) →
  roundtrips n w r' P.
Proof.
  intros Hr Hr'. destruct (Hr d) as (bs & Hn & Hw & _); [lia|]. exists bs. split; [done|]. split; [done|]. intros rest.
  pose (fuel := (d + S (length (bs ++ rest)))%nat).
  assert (roundtrips n w (r fuel) P) as H1 by (apply Hr; lia).
  destruct H1 as (cs & _ & Hw' & Hr1).
  destruct (Hw NewSerializer NewSerializer_ok) as (s1 & E1 & [Hb1 _]), (Hw' NewSerializer NewSerializer_ok) as (s2 & E2 & [Hb2 _]).
  rewrite E1 in E2. injection E2 as <-. rewrite Hb1 in Hb2. apply app_inv_head in Hb2 as <-.
  destruct (Hr1 rest) as (a & E & Ha). exists a. rewrite <- (Hr' fuel); [done|lia].
Qed.

Section codecs.
Context `{!HashOrder}.

Lemma expression_roundtrip e : Expression_ok e → roundtrips 0 (fun s => Expression_Serialize s e) read_expression (eq e).
Proof.
  intros He. apply (roundtrips_limit _ _ Expression_Deserialize _ (Expression_depth e)).
  - intros fuel Hd. destruct (trees_roundtrip fuel) as (He' & Hq' & Ht'). auto.
  - intros fuel src Hs. destruct (read_enough fuel src Hs) as (? & ? & ?). assumption.
Qed.

Lemma query_roundtrip q : Query_ok q → roundtrips 0 (fun s => Query_Serialize s q) read_query (eq q).
Proof.
  intros Hq. apply (roundtrips_limit _ _ Query_Deserialize _ (Query_depth q)).
  - intros fuel Hd. destruct (trees_roundtrip fuel) as (He' & Hq' & Ht'). auto.
  - intros fuel src Hs. destruct (read_enough fuel src Hs) as (? & ? & ?). assumption.
Qed.

Lemma tableref_roundtrip t : TableRef_ok t → roundtrips 0 (fun s => TableRef_Serialize s t) read_table (eq (Some t)).
Proof.
  intros Ht. apply (roundtrips_limit _ _ TableRef_Deserialize _ (TableRef_depth t)).
  - intros fuel Hd. destruct (trees_roundtrip fuel) as (He' & Hq' & Ht'). auto.
  - intros fuel src Hs. destruct (read_enough fuel src Hs) as (? & ? & ?). assumption.
Qed.

(** What the log asks of the parser. *)
#[export] Instance expression_codec : Codec ParsedExpression :=
  {| serialize := Expression_Serialize; deserialize := read_expression; codec_ok := Expression_ok |}.
#[export] Instance query_codec : Codec QueryNode :=
  {| serialize := Query_Serialize; deserialize := read_query; codec_ok := Query_ok |}.
#[export] Instance expression_codec_laws : CodecLaws ParsedExpression.
Proof. exact expression_roundtrip. Qed.
#[export] Instance query_codec_laws : CodecLaws QueryNode.
Proof. exact query_roundtrip. Qed.
End codecs.

(** ** Statements *)

(** Inserting the pairs of a map one after the other gives the map. *)
Lemma foldl_insert {A} (l : list (string * A)) (m : gmap string A) :
  NoDup l.*1 → (∀ k, k ∈ l.*1 → m !! k = None) →
  foldl (fun m (p : string * A) => <[p.1 := p.2]> m) m l = list_to_map l ∪ m.
Proof.
  revert m. induction l as [|[k x] l IH]; intros m Hnd Hm; simpl; [by rewrite map_empty_union|].
  apply NoDup_cons in Hnd as [Hk Hnd]. rewrite IH; [|done|].
  - rewrite <- insert_union_r by (by apply not_elem_of_list_to_map). by rewrite insert_union_l.
  - intros j Hj. simpl. rewrite lookup_insert_ne by (intros ->; done). apply Hm. by right.
Qed.

Section statements.
Context `{!HashOrder}.

Lemma map_order_insert (m : gmap string QueryNode) : foldl (fun m (p : string * QueryNode) => <[p.1 := p.2]> m) ∅ (map_order m) = m.
Proof.
  rewrite foldl_insert.
  - rewrite map_union_empty. rewrite <- (list_to_map_to_list m) at 2. apply list_to_map_proper; [|apply map_order_elements].
    rewrite (map_order_elements m). apply NoDup_fst_map_to_list.
  - rewrite (map_order_elements m). apply NoDup_fst_map_to_list.
  - intros k _. apply lookup_empty.
Qed.

Lemma select_roundtrip stmt : Select_ok stmt →
  roundtrips 0 (fun s => Select_Serialize s stmt) (fun src => Select_Deserialize (S (length src)) src) (eq stmt).
Proof.
  intros (Hsize & Hctes & Hnode).
  apply (roundtrips_limit _ _ Select_Deserialize _ (list_max (Query_depth (node stmt) :: ((fun p => Query_depth p.2) <$> map_order (cte_map stmt))))).
  - intros fuel Hd. destruct (trees_roundtrip fuel) as (_ & Hround & _). apply list_max_le, Forall_cons in Hd as [Hdn Hdc]. unfold Select_Serialize, Select_Deserialize.
    eapply (roundtrips_seq 0 0); [apply roundtrips_length4|].
    { unfold list_ok. rewrite (map_order_elements (cte_map stmt)), length_map_to_list. exact Hsize. }
    rewrite Nat2Z.id. eapply (roundtrips_seq 0 0).
    { apply roundtrips_each, Forall_forall. intros [name q] Hin. rewrite Forall_fmap, Forall_forall in Hdc.
      specialize (Hdc _ Hin). rewrite (map_order_elements (cte_map stmt)) in Hin. apply elem_of_map_to_list in Hin.
      destruct (Hctes _ _ Hin) as [Hname Hq]. eapply (roundtrips_seq 0 0); [by apply roundtrips_text|].
      eapply roundtrips_map; [by apply Hround|]. by intros ? <-. }
    eapply roundtrips_map; [by apply Hround|]. intros ? <-. rewrite map_order_insert. by destruct stmt.
  - intros fuel src Hs. destruct (trees_agree (S (length src)) fuel (S (length src))) as (_ & Hq & _); [lia..|].
    assert (tracks (S (length src)) (Select_Deserialize fuel) (Select_Deserialize (S (length src)))) as [Ha _]; [|apply Ha; lia].
    unfold Select_Deserialize. track. apply tracks_times. track.
Qed.
End statements.

(** ** Copies *)

(** The tree with parameter numbers zero. *)
Fixpoint without_numbers (e : ParsedExpression) : ParsedExpression :=
  match e with
  | AggregateExpression alias type child => AggregateExpression alias type (without_numbers <$> child)
  | CaseExpression alias check t f => CaseExpression alias (without_numbers check) (without_numbers t) (without_numbers f)
  | CastExpression alias cast_type child => CastExpression alias cast_type (without_numbers child)
  | ComparisonExpression alias type l r => ComparisonExpression alias type (without_numbers l) (without_numbers r)
  | ConjunctionExpression alias type l r => ConjunctionExpression alias type (without_numbers l) (without_numbers r)
  | FunctionExpression alias schema function_name children =>
    FunctionExpression alias schema function_name (without_numbers <$> children)
  | OperatorExpression alias type children => OperatorExpression alias type (without_numbers <$> children)
  | ParameterExpression alias _ => ParameterExpression alias 0
  | SubqueryExpression alias subquery_type subquery child comparison_type =>
    SubqueryExpression alias subquery_type (query_without_numbers subquery) (without_numbers <$> child) comparison_type
  | WindowExpression alias type child partitions orders s e start_expr end_expr offset_expr default_expr =>
    WindowExpression alias type (without_numbers <$> child) (without_numbers <$> partitions)
      ((fun o : Z * ParsedExpression => (o.1, without_numbers o.2)) <$> orders) s e (without_numbers <$> start_expr) (without_numbers <$> end_expr)
      (without_numbers <$> offset_expr) (without_numbers <$> default_expr)
  | ColumnRefExpression _ _ _ | ConstantExpression _ _ _ | DefaultExpression _ | StarExpression _ => e
  end
with query_without_numbers (q : QueryNode) : QueryNode :=
  match q with
  | SelectNode d limit offset orders select_list from_table where_clause groups having =>
    SelectNode d (without_numbers <$> limit) (without_numbers <$> offset)
      ((fun o : Z * ParsedExpression => (o.1, without_numbers o.2)) <$> orders) (without_numbers <$> select_list)
      (table_without_numbers <$> from_table) (without_numbers <$> where_clause) (without_numbers <$> groups) (without_numbers <$> having)
  | SetOperationNode d limit offset orders setop_type l r =>
    SetOperationNode d (without_numbers <$> limit) (without_numbers <$> offset)
      ((fun o : Z * ParsedExpression => (o.1, without_numbers o.2)) <$> orders) setop_type (query_without_numbers l) (query_without_numbers r)
  end
with table_without_numbers (t : TableRef) : TableRef :=
  match t with
  | BaseTableRef _ _ _ => t
  | CrossProductRef alias l r => CrossProductRef alias (table_without_numbers l) (table_without_numbers r)
  | JoinRef alias l r condition type hidden_columns =>
    JoinRef alias (table_without_numbers <$> l) (table_without_numbers <$> r) (without_numbers condition) type hidden_columns
  | SubqueryRef alias subquery column_name_alias => SubqueryRef alias (query_without_numbers subquery) column_name_alias
  | TableFunction alias function => TableFunction alias (without_numbers function)
  end.

Lemma option_Copy_map {A} (copy : A → result A) (f : A → A) o : if_some (fun x => copy x = Ok (f x)) o → option_Copy copy o = Ok (f <$> o).
Proof. destruct o as [x|]; [|done]. simpl. intros ->. done. Qed.

Lemma list_Copy_map {A} (copy : A → result A) (f : A → A) l : Forall (fun x => copy x = Ok (f x)) l → list_Copy copy l = Ok (f <$> l).
Proof. induction 1 as [|x l Hx _ IH]; [done|]. simpl. rewrite Hx, IH. done. Qed.

Lemma NewAggregate_without_numbers type child : NewAggregate type child = Ok (AggregateExpression "" type child) →
  NewAggregate type (without_numbers <$> child) = Ok (AggregateExpression "" type (without_numbers <$> child)).
Proof.
  assert (∀ c, parsed_type (without_numbers c) = parsed_type c) as Ht by (by intros []).
  unfold NewAggregate. destruct child as [c|]; simpl; [rewrite Ht|]; repeat case_match; naive_solver.
Qed.

Section copies.
Context (n : nat).
Context (Hexpr : ∀ e, Expression_ok e → (Expression_depth e ≤ n)%nat → Expression_Copy e = Ok (without_numbers e)).
Context (Hquery : ∀ q, Query_ok q → (Query_depth q ≤ n)%nat → Query_Copy q = Ok (query_without_numbers q)).
Context (Htable : ∀ t, TableRef_ok t → (TableRef_depth t ≤ n)%nat → TableRef_Copy t = Ok (table_without_numbers t)).

Lemma child_copy o : if_some Expression_ok o → (option_depth Expression_depth o ≤ n)%nat →
  option_Copy Expression_Copy o = Ok (without_numbers <$> o).
Proof. intros Ho Hd. apply option_Copy_map. destruct o; [by apply Hexpr|done]. Qed.

Lemma from_copy o : if_some TableRef_ok o → (option_depth TableRef_depth o ≤ n)%nat →
  option_Copy TableRef_Copy o = Ok (table_without_numbers <$> o).
Proof. intros Ho Hd. apply option_Copy_map. destruct o; [by apply Htable|done]. Qed.

Lemma nullable_copy o : is_Some o → if_some TableRef_ok o → (option_depth TableRef_depth o ≤ n)%nat →
  nullable_Copy TableRef_Copy o = Ok (table_without_numbers <$> o).
Proof. intros [t ->] Ho Hd. simpl. by rewrite (Htable t). Qed.

Lemma children_copy l : each Expression_ok l → (list_depth Expression_depth l ≤ n)%nat →
  list_Copy Expression_Copy l = Ok (without_numbers <$> l).
Proof.
  intros Hok%each_Forall Hd%list_depth_le. apply list_Copy_map.
  eapply Forall_impl; [exact (proj2 (Forall_and _ _) (conj Hok Hd))|]. intros e [??]. by apply Hexpr.
Qed.

Lemma orders_copy l : each (fun o : Z * ParsedExpression => byte_ok o.1 ∧ Expression_ok o.2) l →
  (list_depth (fun o : Z * ParsedExpression => Expression_depth o.2) l ≤ n)%nat →
  list_Copy (order_Copy Expression_Copy) l = Ok ((fun o : Z * ParsedExpression => (o.1, without_numbers o.2)) <$> l).
Proof.
  intros Hok%each_Forall Hd%list_depth_le. apply list_Copy_map.
  eapply Forall_impl; [exact (proj2 (Forall_and _ _) (conj Hok Hd))|]. intros o [[_ ?] ?]. unfold order_Copy. by rewrite Hexpr.
Qed.

Local Ltac copy_parts := repeat match goal with
  | |- context [option_Copy Expression_Copy _] => rewrite child_copy by (done || lia)
  | |- context [option_Copy TableRef_Copy _] => rewrite from_copy by (done || lia)
  | |- context [nullable_Copy _ _] => rewrite nullable_copy by (done || lia)
  | |- context [list_Copy Expression_Copy _] => rewrite children_copy by (done || lia)
  | |- context [list_Copy (order_Copy _) _] => rewrite orders_copy by (done || lia)
  | |- context [Expression_Copy _] => rewrite Hexpr by (done || lia)
  | |- context [Query_Copy _] => rewrite Hquery by (done || lia)
  | |- context [TableRef_Copy _] => rewrite Htable by (done || lia)
  end; cbn -[NewAggregate NewWindow].

Lemma expression_copy_step e : Expression_ok e → (Expression_depth e ≤ S n)%nat → Expression_Copy e = Ok (without_numbers e).
Proof using Hexpr Hquery.
  intros Hok Hd. destruct e; cbn [Expression_ok] in Hok; destruct Hok as [Ha Hok]; simpl in Hd; destruct_and? Hok;
    cbn [Expression_Copy without_numbers];
    unfold Aggregate_Copy, Case_Copy, Cast_Copy, Comparison_Copy, Conjunction_Copy, Function_Copy, Operator_Copy, Subquery_Copy, Window_Copy;
    copy_parts; try done.
  - by rewrite NewAggregate_without_numbers.
  - by do 2 f_equal.
  - unfold NewWindow. by match goal with Hsup : window_supported _ = _ |- _ => rewrite Hsup end.
Qed.

Lemma query_copy_step q : Query_ok q → (Query_depth q ≤ S n)%nat → Query_Copy q = Ok (query_without_numbers q).
Proof using Hexpr Hquery Htable.
  intros Hok Hd. destruct q; cbn [Query_ok] in Hok; simpl in Hd; destruct_and? Hok; cbn [Query_Copy query_without_numbers];
    unfold SelectNode_Copy, SetOperationNode_Copy, QueryNode_CopyProperties; by copy_parts.
Qed.

Lemma table_copy_step t : TableRef_ok t → (TableRef_depth t ≤ S n)%nat → TableRef_Copy t = Ok (table_without_numbers t).
Proof using Hexpr Hquery Htable.
  intros Hok Hd. destruct t; cbn [TableRef_ok] in Hok; simpl in Hd; destruct_and? Hok; cbn [TableRef_Copy table_without_numbers];
    unfold BaseTableRef_Copy, CrossProductRef_Copy, JoinRef_Copy, SubqueryRef_Copy, TableFunction_Copy; by copy_parts.
Qed.
End copies.

Lemma trees_copy n :
  (∀ e, Expression_ok e → (Expression_depth e ≤ n)%nat → Expression_Copy e = Ok (without_numbers e)) ∧
  (∀ q, Query_ok q → (Query_depth q ≤ n)%nat → Query_Copy q = Ok (query_without_numbers q)) ∧
  (∀ t, TableRef_ok t → (TableRef_depth t ≤ n)%nat → TableRef_Copy t = Ok (table_without_numbers t)).
Proof.
  induction n as [|n (IHe & IHq & IHt)].
  - split_and!; intros x _ Hd; destruct x; simpl in Hd; lia.
  - split_and!; intros x Hok Hd; [by apply (expression_copy_step n)|by apply (query_copy_step n)|by apply (table_copy_step n)].
Qed.

(** *** Copies are equal *)

Section equal.
Context `{!FloatText}.

(** The constants of a tree equal themselves, which a NaN does not. *)
Fixpoint constants_equal (e : ParsedExpression) : Prop :=
  match e with
  | AggregateExpression _ _ child => if_some constants_equal child
  | CaseExpression _ check t f => constants_equal check ∧ constants_equal t ∧ constants_equal f
  | CastExpression _ _ child => constants_equal child
  | ComparisonExpression _ _ l r | ConjunctionExpression _ _ l r => constants_equal l ∧ constants_equal r
  | ConstantExpression _ value _ => Value_Equals value value = Ok true
  | FunctionExpression _ _ _ children | OperatorExpression _ _ children => each constants_equal children
  | SubqueryExpression _ _ subquery child _ => query_constants_equal subquery ∧ if_some constants_equal child
  | WindowExpression _ _ child partitions orders _ _ start_expr end_expr offset_expr default_expr =>
    if_some constants_equal child ∧ each constants_equal partitions ∧ each (fun o => constants_equal o.2) orders ∧
    if_some constants_equal start_expr ∧ if_some constants_equal end_expr ∧
    if_some constants_equal offset_expr ∧ if_some constants_equal default_expr
  | _ => True
  end
with query_constants_equal (q : QueryNode) : Prop :=
  match q with
  | SelectNode _ limit offset orders select_list from_table where_clause groups having =>
    if_some constants_equal limit ∧ if_some constants_equal offset ∧ each (fun o => constants_equal o.2) orders ∧
    each constants_equal select_list ∧ if_some table_constants_equal from_table ∧ if_some constants_equal where_clause ∧
    each constants_equal groups ∧ if_some constants_equal having
  | SetOperationNode _ limit offset orders _ l r =>
    if_some constants_equal limit ∧ if_some constants_equal offset ∧ each (fun o => constants_equal o.2) orders ∧
    query_constants_equal l ∧ query_constants_equal r
  end
with table_constants_equal (t : TableRef) : Prop :=
  match t with
  | BaseTableRef _ _ _ => True
  | CrossProductRef _ l r => table_constants_equal l ∧ table_constants_equal r
  | JoinRef _ l r condition _ _ =>
    is_Some l ∧ if_some table_constants_equal l ∧ is_Some r ∧ if_some table_constants_equal r ∧ constants_equal condition
  | SubqueryRef _ subquery _ => query_constants_equal subquery
  | TableFunction _ function => constants_equal function
  end.

Lemma option_Equals_map {A} (equals : A → A → result bool) (f : A → A) o :
  if_some (fun x => equals x (f x) = Ok true) o → option_Equals equals o (f <$> o) = Ok true.
Proof. by destruct o. Qed.

Lemma elements_Equals_map {A} (equals : A → A → result bool) (f : A → A) l :
  Forall (fun x => equals x (f x) = Ok true) l → elements_Equals equals l (f <$> l) = Ok true.
Proof. induction 1 as [|x l Hx _ IH]; [done|]. simpl. rewrite Hx. exact IH. Qed.

Lemma list_Equals_map {A} (equals : A → A → result bool) (f : A → A) l :
  Forall (fun x => equals x (f x) = Ok true) l → list_Equals equals l (f <$> l) = Ok true.
Proof. intros Hl. unfold list_Equals. rewrite length_fmap, Nat.eqb_refl. by apply elements_Equals_map. Qed.

Section step.
Context (n : nat).
Context (Hexpr : ∀ e, constants_equal e → (Expression_depth e ≤ n)%nat → Expression_Equals e (without_numbers e) = Ok true).
Context (Hquery : ∀ q, query_constants_equal q → (Query_depth q ≤ n)%nat → Query_Equals q (query_without_numbers q) = Ok true).
Context (Htable : ∀ t, table_constants_equal t → (TableRef_depth t ≤ n)%nat → TableRef_Equals t (table_without_numbers t) = Ok true).

Lemma child_equal o : if_some constants_equal o → (option_depth Expression_depth o ≤ n)%nat →
  option_Equals Expression_Equals o (without_numbers <$> o) = Ok true.
Proof. intros Ho Hd. apply option_Equals_map. destruct o; [by apply Hexpr|done]. Qed.

Lemma from_equal o : if_some table_constants_equal o → (option_depth TableRef_depth o ≤ n)%nat →
  option_Equals TableRef_Equals o (table_without_numbers <$> o) = Ok true.
Proof. intros Ho Hd. apply option_Equals_map. destruct o; [by apply Htable|done]. Qed.

Lemma nullable_equal o : is_Some o → if_some table_constants_equal o → (option_depth TableRef_depth o ≤ n)%nat →
  nullable_Equals TableRef_Equals o (table_without_numbers <$> o) = Ok true.
Proof. intros [t ->] Ho Hd. simpl. by apply Htable. Qed.

Lemma elements_equal l : each constants_equal l → (list_depth Expression_depth l ≤ n)%nat →
  Forall (fun e => Expression_Equals e (without_numbers e) = Ok true) l.
Proof.
  intros Hok%each_Forall Hd%list_depth_le. eapply Forall_impl; [exact (proj2 (Forall_and _ _) (conj Hok Hd))|].
  intros e [??]. by apply Hexpr.
Qed.

Lemma orders_equal l : each (fun o : Z * ParsedExpression => constants_equal o.2) l →
  (list_depth (fun o : Z * ParsedExpression => Expression_depth o.2) l ≤ n)%nat →
  list_Equals (order_Equals Expression_Equals) l ((fun o : Z * ParsedExpression => (o.1, without_numbers o.2)) <$> l) = Ok true.
Proof.
  intros Hok%each_Forall Hd%list_depth_le. apply list_Equals_map.
  eapply Forall_impl; [exact (proj2 (Forall_and _ _) (conj Hok Hd))|]. intros o [??]. unfold order_Equals. simpl.
  rewrite Z.eqb_refl. by apply Hexpr.
Qed.

Lemma and_then_Ok_true b : and_then (Ok true) b = b.
Proof using. done. Qed.
Lemma or_else_Ok_true b : or_else (Ok true) b = Ok true.
Proof using. done. Qed.

Local Ltac equal_parts := repeat first
  [ rewrite child_equal by (done || lia) | rewrite from_equal by (done || lia) | rewrite nullable_equal by (done || lia)
  | rewrite list_Equals_map by (apply elements_equal; done || lia)
  | rewrite elements_Equals_map by (apply elements_equal; done || lia)
  | rewrite orders_equal by (done || lia) | rewrite Hexpr by (done || lia) | rewrite Hquery by (done || lia)
  | rewrite Htable by (done || lia) | rewrite Z.eqb_refl | rewrite bool_decide_eq_true_2 by done | rewrite length_fmap
  | rewrite Nat.eqb_refl | rewrite Bool.eqb_reflx | rewrite and_then_Ok_true | rewrite or_else_Ok_true
  | progress cbn [negb andb orb fst snd] ].

Lemma expression_equal_step e : constants_equal e → (Expression_depth e ≤ S n)%nat → Expression_Equals e (without_numbers e) = Ok true.
Proof using Hexpr Hquery.
  intros Hok Hd. assert (base_Equals e (without_numbers e) = true) as Hb.
  { unfold base_Equals. destruct e; cbn [expression_class parsed_type without_numbers]; by rewrite !Z.eqb_refl. }
  destruct e; cbn [constants_equal] in Hok; simpl in Hd; destruct_and? Hok; cbn [Expression_Equals]; rewrite Hb;
    cbn [negb without_numbers];
    unfold Aggregate_Equals, Case_Equals, Cast_Equals, ColumnRef_Equals, Comparison_Equals, Conjunction_Equals, Constant_Equals,
      Function_Equals, Operator_Equals, Subquery_Equals, Window_Equals; by equal_parts.
Qed.

Lemma query_equal_step q : query_constants_equal q → (Query_depth q ≤ S n)%nat → Query_Equals q (query_without_numbers q) = Ok true.
Proof using Hexpr Hquery Htable.
  intros Hok Hd. destruct q; cbn [query_constants_equal] in Hok; simpl in Hd; destruct_and? Hok; cbn [Query_Equals query_without_numbers];
    unfold QueryNode_Equals, SelectNode_Equals, SetOperationNode_Equals; by equal_parts.
Qed.

Lemma table_equal_step t : table_constants_equal t → (TableRef_depth t ≤ S n)%nat → TableRef_Equals t (table_without_numbers t) = Ok true.
Proof using Hexpr Hquery Htable.
  intros Hok Hd. destruct t; cbn [table_constants_equal] in Hok; simpl in Hd; destruct_and? Hok; cbn [TableRef_Equals table_without_numbers];
    unfold TableRef_base_Equals, BaseTableRef_Equals, CrossProductRef_Equals, JoinRef_Equals, SubqueryRef_Equals, TableFunction_Equals;
    by equal_parts.
Qed.
End step.

Lemma trees_equal n :
  (∀ e, constants_equal e → (Expression_depth e ≤ n)%nat → Expression_Equals e (without_numbers e) = Ok true) ∧
  (∀ q, query_constants_equal q → (Query_depth q ≤ n)%nat → Query_Equals q (query_without_numbers q) = Ok true) ∧
  (∀ t, table_constants_equal t → (TableRef_depth t ≤ n)%nat → TableRef_Equals t (table_without_numbers t) = Ok true).
Proof.
  induction n as [|n (IHe & IHq & IHt)].
  - split_and!; intros x _ Hd; destruct x; simpl in Hd; lia.
  - split_and!; intros x Hok Hd; [by apply (expression_equal_step n)|by apply (query_equal_step n)|by apply (table_equal_step n)].
Qed.
End equal.

(** ** Properties *)

(** C31. Every query that the parser builds survives serialization: with its
    expressions, subqueries, joins and table functions, it reads back as the
    same tree from the bytes written for it, wherever they stand in a stream,
    and nothing after them is consumed. *)
Theorem query_tree_roundtrip `{!HashOrder} q s : Query_ok q → ser_ok s →
  ∃ s' bs, Query_Serialize s q = Ok s' ∧ blob s' = blob s ++ bs ∧
    ∀ rest fuel, (length (bs ++ rest) < fuel)%nat → Query_Deserialize fuel (bs ++ rest) = (Ok q, rest).
Proof.
  intros Hq Hs. destruct (query_roundtrip q Hq) as (bs & _ & Hw & Hr). destruct (Hw s Hs) as (s' & E & Hb & _).
  exists s', bs. split_and!; [done..|]. intros rest fuel Hlt. destruct (Hr rest) as (q' & Hq' & <-).
  rewrite <- Hq'. by apply read_enough.
Qed.

(** C32. Reading ends on any bytes, also on damaged ones: whatever functions
    satisfy the recursive equations of the source, they return what the
    bounded recursion returns with one level for every byte and one more. *)
Theorem deserialize_terminates expr query table src fuel : deserializers expr query table → (length src < fuel)%nat →
  expr src = Expression_Deserialize fuel src ∧ query src = Query_Deserialize fuel src ∧ table src = TableRef_Deserialize fuel src.
Proof.
  intros Hd Hlt. destruct (deserializers_track _ _ _ fuel fuel Hd) as ([He _] & [Hq _] & [Ht _]); [lia|].
  rewrite He, Hq, Ht by done. done.
Qed.

(** C33. A query can be copied, and the copy is equal to it: the same tree but
    for the numbers of parameters, which are lost and which the comparison
    does not look at. *)
Theorem copies_equal `{!FloatText} q : Query_ok q → query_constants_equal q →
  Query_Copy q = Ok (query_without_numbers q) ∧ Query_Equals q (query_without_numbers q) = Ok true.
Proof.
  intros Hok Hc. destruct (trees_copy (Query_depth q)) as (_ & Hcopy & _), (trees_equal (Query_depth q)) as (_ & Hequal & _). auto.
Qed.

(** ** Examples *)

Module ParsedExample.
#[local] Instance sorted_order : HashOrder :=
  {| set_order := elements; map_order := map_to_list; set_order_elements X := reflexivity _; map_order_elements m := reflexivity _ |}.
#[local] Instance example_text : FloatText :=
  {| float_to_string := fun _ => EmptyString; double_to_string := fun _ => EmptyString; stod := fun _ => None |}.

Definition column (name : string) : ParsedExpression := ColumnRefExpression "" name "".
Definition number (z : Z) : ParsedExpression := ConstantExpression "" (some_value T_INTEGER (Num 4 z)) (mkSQLType SQL_INTEGER 0 0).
Definition call (name : string) : ParsedExpression := FunctionExpression "" "main" name [column "a"].
Definition table (name : string) : TableRef := BaseTableRef "" "main" name.

(** [SELECT 1 AS one FROM t] and
    [SELECT COUNT(STAR), abs(a) FROM t JOIN u USING (id) WHERE a IN (SELECT 1 AS one FROM t) AND b = $2 ORDER BY a LIMIT 10] *)
Definition one : QueryNode := SelectNode false None None [] [set_expression_alias "one" (number 1)] (Some (table "t")) None [] None.
Definition query : QueryNode :=
  SelectNode false (Some (number 10)) None [(1, column "a")] [AggregateExpression "" AGGREGATE_COUNT_STAR None; call "abs"]
    (Some (JoinRef "" (Some (table "t")) (Some (table "u")) (ComparisonExpression "" COMPARE_EQUAL (ColumnRefExpression "" "id" "t")
       (ColumnRefExpression "" "id" "u")) 3 {["id"]}))
    (Some (ConjunctionExpression "" CONJUNCTION_AND (SubqueryExpression "" 4 one (Some (column "a")) COMPARE_EQUAL)
       (ComparisonExpression "" COMPARE_EQUAL (column "b") (ParameterExpression "" 2))))
    [] None.

Lemma query_ok : Query_ok query.
Proof.
  cbn. unfold string_ok, byte_ok, list_ok, SQLType_ok. rewrite set_Forall_singleton.
  split_and!; try done; try (by eexists); by vm_compute.
Qed.

Lemma query_constants : query_constants_equal query.
Proof. cbn. split_and!; try done; by eexists. Qed.

Lemma query_tree_roundtrip_witness :
  ∃ s' bs, Query_Serialize NewSerializer query = Ok s' ∧ blob s' = blob NewSerializer ++ bs ∧
    ∀ rest fuel, (length (bs ++ rest) < fuel)%nat → Query_Deserialize fuel (bs ++ rest) = (Ok query, rest).
Proof. apply (query_tree_roundtrip query NewSerializer query_ok NewSerializer_ok). Defined.

(** A view over the query is logged and read back. *)
Lemma view_logged : ∃ s' bs, write_payload (E := ParsedExpression) NewSerializer (WCreateView (mkCreateView "main" "v" query [])) = Ok s' ∧
  blob s' = bs ∧ ∀ rest, read_entry (E := ParsedExpression) (wal_type (E := ParsedExpression) (WCreateView (mkCreateView "main" "v" query []))) (bs ++ rest) =
    (Ok (Some (WCreateView (mkCreateView "main" "v" query []))), rest).
Proof.
  destruct (entry_roundtrip (E := ParsedExpression) (WCreateView (mkCreateView "main" "v" query []))) as (bs & _ & Hw & Hr).
  { split_and!; [done..|apply query_ok|split; [done|constructor]]. }
  destruct (Hw NewSerializer NewSerializer_ok) as (s' & E & Hb & _). exists s', bs. split_and!; [done..|].
  intros rest. destruct (Hr rest) as (o & Ho & e' & -> & ->). exact Ho.
Qed.

(** Four bytes that are no expression. *)
Lemma deserialize_terminates_witness :
  read_expression [255; 0; 0; 0] = Expression_Deserialize 5 [255; 0; 0; 0] ∧
  read_query [255; 0; 0; 0] = Query_Deserialize 5 [255; 0; 0; 0] ∧
  read_table [255; 0; 0; 0] = TableRef_Deserialize 5 [255; 0; 0; 0].
Proof.
  apply (deserialize_terminates read_expression read_query read_table [255; 0; 0; 0] 5 read_deserializers). cbn. lia.
Defined.

Lemma copies_equal_witness :
  Query_Copy query = Ok (query_without_numbers query) ∧ Query_Equals query (query_without_numbers query) = Ok true.
Proof. apply (copies_equal query query_ok query_constants). Defined.

(** The numbers of parameters are lost in a copy, and do not count in a
    comparison. *)
Lemma copy_loses_parameter : Expression_Copy (ParameterExpression "" 2) = Ok (ParameterExpression "" 0).
Proof. done. Qed.
Lemma parameters_equal : Expression_Equals (ParameterExpression "" 1) (ParameterExpression "" 2) = Ok true.
Proof. done. Qed.

(** Functions of one schema are equal whatever their names. *)
Lemma functions_equal : Expression_Equals (call "abs") (call "length") = Ok true.
Proof. by vm_compute. Qed.

(** So are casts to different types, and [a IN (SELECT 1)] and
    [b > ANY (SELECT 1)]. *)
Lemma casts_equal :
  Expression_Equals (CastExpression "" (mkSQLType SQL_TINYINT 0 0) (column "a")) (CastExpression "" (mkSQLType SQL_VARCHAR 0 0) (column "a")) = Ok true.
Proof. by vm_compute. Qed.
Lemma subqueries_equal :
  Expression_Equals (SubqueryExpression "" 4 one (Some (column "a")) COMPARE_EQUAL)
    (SubqueryExpression "" 4 one (Some (column "b")) COMPARE_GREATERTHAN) = Ok true.
Proof. by vm_compute. Qed.

(** The bounds of a window frame are not among the children of a window. *)
Definition framed (bound : ParsedExpression) : ParsedExpression :=
  WindowExpression "" WINDOW_SUM (Some (column "a")) [] [] 5 4 (Some bound) None None None.
Lemma frame_bound_not_visited : ParsedExpression_HasParameter (framed (ParameterExpression "" 1)) = false.
Proof. done. Qed.

(** A table reference of a type that does not exist is assigned to through a
    null pointer, where an expression of such a class throws. *)
Lemma unknown_table_type : fst (read_table [9; 0; 0; 0; 0]) = Undef.
Proof. by vm_compute. Qed.
Lemma unknown_expression_class : fst (read_expression [99; 0; 0; 0; 0; 0]) = Throw SerializationException.
Proof. by vm_compute. Qed.
End ParsedExample.
